(* ===== verification/_CoqProject ===== *)
-Q . S2P
Prelude.v
ChanTypes.v
WaitList.v
WaitShape.v
WaitQuiet.v
WaitInv.v
WaitOps.v
WaitPop.v
WaitWake.v
WaitSteps.v
WaitSelect.v
WaitProps.v
Bytes.v
Ring.v
RingConc.v
RingProps.v
Chan.v
ChanSpec.v
ChanTry.v
ChanClose.v
ChanHandoff.v
ChanCreate.v
ChanRefine.v
ChanProps.v
Lex.v
Text.v
TextScan.v
TextFind.v
TextBuild.v
TextDecl.v
TextProps.v
EditBuffer.v
EditProps.v
Registry.v
ResultSpec.v
SpecProps.v
Sched.v
SchedInv.v
SchedStep.v
SchedSafe.v
SchedFree.v
SchedIdle.v
SchedProps.v
SchedPool.v
SchedJoin.v
SchedMon.v
Nursery.v
NurseryWait.v
TypeReg.v
TypeNorm.v
TypeSpec.v
TypeScope.v
TypeExpr.v
TypeProps.v
Ir.v
IrSpec.v
IrProps.v
Exec.v
ExecProps.v
ChanRv.v
ChanRvFrame.v
ChanRvSpec.v
ChanRvInv.v
ChanRvProps.v
PpPass.v
PpSigil.v
PpDoc.v
PpSigilDoc.v
PpSigilProps.v
PpAwait.v
PpTry.v
PpTryProps.v
PpScan.v
ChanBuf.v
ChanBufSpec.v
ChanBufTurn.v
ChanBufInv.v
ChanBufKeep.v
ChanBufProps.v
ChanBufWake.v
