(* ===== verification/Prelude.v ===== *)
(** * A verification of the Concurrent-C runtime and compiler core

    Concurrent-C is a C dialect with channels, fibers and result types: a
    compiler ([src/cc/src]) rewrites it to C, and a runtime ([src/cc/runtime])
    executes it.  This library models the parts that carry their own logic and
    proves what makes them correct.  This file holds what all files share:
    struct assignment, the partial state monad with its weakest preconditions
    and frames, and sums over lists.

    ** Parts of the program and the files that model them

    - Channel waiter lists ([channel.c], lines 985 to 1542): parked senders and
      receivers in intrusive doubly-linked lists, counters derived from them,
      select arbitration, batched wakes.  ChanTypes (nodes, groups, events),
      WaitList (one definition per C function), WaitShape, WaitQuiet, WaitInv
      (representation and invariant), WaitOps, WaitPop, WaitWake
      (specification of each operation on every branch), WaitSteps (the
      operations under the mutex as a transition system, and the resume of a
      select, which takes none, access by access), WaitSelect, WaitProps.
    - The lock-free ring ([channel.c], SPSC and Vyukov MPMC queues).  Bytes
      (64-bit integers, slot copies), Ring (the code run by one thread at a
      time, against a bounded FIFO), RingConc (any number of threads cut at
      their atomic accesses), RingProps.
    - Channel operations ([channel.c]: create, enqueue and dequeue, close and
      cancel, direct handoff, try_send, try_recv, non-blocking match).  Chan
      (the operations over the waiter lists and the ring), ChanSpec, ChanTry,
      ChanClose, ChanHandoff, ChanCreate (their specifications), ChanRefine
      (the channel as documented, the abstract channel with the ways the code
      departs from it, and the simulation), ChanProps.
    - Rendezvous ([channel.c], [cc_chan_send_unbuffered] and
      [cc_chan_recv_unbuffered]): blocking calls that meet on an unbuffered
      channel.  ChanRv (critical sections, and concurrent calls as a step
      relation), ChanRvFrame (what list code leaves alone), ChanRvSpec (each
      section), ChanRvInv (the invariant), ChanRvProps.
    - Blocking calls on a buffered channel ([channel.c], [cc_chan_send],
      [cc_chan_recv], [cc__chan_recv_resolve_closed]) with the lock-free queue.
      ChanBuf (a call as program counters, one turn per critical section, queue
      operation or access to a shared field; concurrent calls as a step
      relation; schedules as functions), ChanBufSpec (what notifying code and
      turns do), ChanBufTurn (every turn), ChanBufInv and ChanBufKeep (the
      invariant and every step), ChanBufProps, ChanBufWake (wake-ups of a
      single receiver).
    - The text helpers of the compiler ([util/text.h]): scanners, string
      builder, literal emission, declaration parser.  Lex (the comment and
      string automaton, and the reference view of a text as code and
      not-code), Text (the functions), TextScan, TextFind, TextBuild, TextDecl
      (against the reference), TextProps.
    - The edit buffer ([visitor/edit_buffer.c]) through which every pass
      rewrites the source.  EditBuffer, EditProps.
    - Name collections ([util/string_set.h], [util/result_fn_registry.c]) and
      result specifications ([result_spec.c]).  Registry (the class [StrSet]
      states what a set of names promises, both implementations are
      instances), ResultSpec, SpecProps.
    - The fiber scheduler ([sched_v2.c]).  Sched (the state word, the ready
      queue, and workers and calls as program counters that make one atomic
      access per step), SchedInv (who holds a fiber, the invariant), SchedStep
      (each access keeps it), SchedSafe (reachable states), SchedFree (the free
      list inside the scheduler), SchedIdle (the idle counter, and who
      wakes a sleeping worker), SchedProps.  Allocation and release walk the
      free list access by access; [serial_step] are the runs in which two
      allocations do not overlap, since overlapping ones can hand out a fiber
      twice, as SchedPool shows.
    - Three protocols next to it, in the same file: the free list of fibers
      (SchedPool), joining a fiber (SchedJoin), and the monitor thread: park
      deadlines, eviction of stuck workers, the deadlock detector (SchedMon).
    - The nursery ([nursery.c]) over them.  Nursery (its tables, cancellation,
      deadlines and waiting, one operation at a time, against an abstract
      nursery), NurseryWait (the barrier of the wait against completing and
      spawning children).
    - The thread executor ([exec.c]) of blocking calls: a growing job ring under
      a mutex with two condition variables.  Exec (the critical sections and the
      threads as a step relation), ExecProps.
    - The type registry of the preprocessor ([preprocess/type_registry.c]).
      TypeReg (its tables and registrations), TypeNorm (type texts, the scan
      of scopes, receivers and expression types), TypeSpec (abstract maps and
      the simulation), TypeScope, TypeExpr (the scan and the expressions
      against references), TypeProps.
    - The intermediate representation ([ir/ir.c]) and its verifier
      ([ir/verifier.c]).  Ir (arena, nodes, carving of unwrap sigils, emission),
      IrSpec (the spans the carving produces), IrProps.
    - Text passes of the preprocessor ([preprocess/preprocess.c]) and the link
      flags of the driver ([cc_main.c]).  PpPass (the scanner and the loop all
      passes share, the chain that frees intermediate texts), PpSigil (link
      directives, call-site modes, [@await]), PpTry (try bindings and
      [@defer]), PpDoc and PpSigilDoc (documents as lists of pieces and what a
      pass does to each), PpAwait, PpSigilProps, PpTryProps, PpScan (the scanner
      against the lexer).

    A channel operation works on the waiter lists and the ring, and parks and
    wakes fibers, which appear as events of the waiter model; the scheduler
    files prove what those events rely on: a signal is not lost
    ([signal_not_lost]).  The join model takes that contract as its parking
    step.  The compiler files build on each other as the code does: the edit
    buffer and the specifications use the text helpers.

    ** How code is modelled

    A C function over shared memory is a function in [M S A], that is
    [S -> option (A * S)], where [None] is undefined behaviour (a
    dereference of no object, a copy out of bounds) or exhausted fuel; every
    specification says that the function returns, so neither happens.  Code
    that several threads run at once is a step relation with one step per
    atomic access, under sequential consistency; the fences of the code are
    what makes that the right reading on weak memory, and weaker orderings
    are not modelled.  Sizes and counters keep their width where they can wrap
    (ring positions, wake counters, the deadline counter).  A buffer is the
    list of its characters.  What the code does not determine (a weak
    compare-and-swap failing spuriously, an allocation failing, the order
    [qsort] leaves equal elements in, the schedule) is an argument or a choice
    of the step relation, and the theorems hold for every choice.

    ** What the theorems show

    - Refinement: every run of non-blocking operations and closes on a buffered
      channel returns what the documented bounded FIFO returns, in the modes and
      with the closes in which the code keeps that contract; both rings refine
      a bounded FIFO; the registry refines a set with a first-wins map; the
      type registry refines maps with its own rules of update; the nursery follows
      an abstract list of children and channels.
    - Invariants: the waiter lists stay well formed under every operation that
      takes the mutex; as long as allocations do not overlap a fiber has one
      owner in every reachable state of the scheduler and the free list has no
      fiber in use.
    - Safety and liveness: values leave the concurrent ring as they were put
      in, each once; a rendezvous and the blocking calls of a buffered channel
      transfer each value exactly once, and their turns up to the publication of
      a handoff return, in runs in which no receiver closes with error code 0
      ([coded]; a send then reports success without a transfer); a single
      receiver misses no wake-up; no signal to a fiber is lost; queued work has
      a waker; joins return once the fiber has ended; waiting for a nursery is a
      barrier that is passed; close wakes every waiter.
      The executor runs stored jobs in order and each once, loses no wake-up,
      and its shutdown returns after the last job.
    - Round trip and typing: the tree the compiler builds from any text is
      emitted as that text; link
      directives come out of the preprocessor as the flags the driver reads.
    - Equivalence with reference definitions: bracket matching is counting
      over code characters, applying edits backwards is replacing all ranges at
      once, the searches return the first position with their property, the
      preprocessor's scanner sees code where the lexer does.
    - Functional behaviour, bounds and errors: close codes, the deadlock
      verdict, expired deadlines, the eviction budget, buffer sizes, disjoint
      arena allocations, variables resolved to their innermost declaration,
      receivers typed along their field path, directives lowered where they
      stand and the text around them unchanged.
    - Defects the model exhibits by reachable states: a worker that is never
      woken again, a fiber handed out twice, a join registration stolen from
      the next incarnation of a fiber, a nursery touched after it was freed, an
      executor whose creation never returns, a rendezvous that reads the frame of
      a call that has returned, and one whose signal wakes the wrong thread; on a
      buffered channel a blocked thread that no receive wakes, a parked receiver
      that a coalesced wake-up leaves behind, and a handoff that overtakes the
      buffer; a select whose resume leaves the signal hint on a dead node; a pass
      that reads past the end of its input.

    ** Fuel and bounds

    Loops of the lists, the rings and the scanners take fuel.  Where a theorem mentions
    fuel it states how much is enough (the length of the list for list walks,
    one retry for a ring run by one thread at a time) and concludes that the
    function returns.  The scheduler, free-list and join models need none:
    each step is one access.  Runs of the channel are bounded by 2^60
    operations and sequences of deadline operations by 2^64, so that 64-bit
    counters do not wrap in a way that matters.

    ** Plan and what is not modelled

    What would come next: the wait loop of select and the calls with a
    deadline on a buffered channel; tasks ([task.c]) over the executor; the
    asynchronous handles ([async_chan.c]) and back ends; the shims of
    [fiber_sched.c]; the remaining text passes of the preprocessor, which follow
    the shape of those modelled.

    Not modelled: weak memory; shutdown of the scheduler and workers that were
    evicted while they still run; statistics and diagnostics, which only
    print; the I/O, network, TLS and process modules, which wrap system calls
    and libraries; the passes over the syntax tree of the C front end, whose
    sources are a submodule; the rest of the driver and the build; vendored code, examples
    and sample programs. *)
From stdpp Require Export base tactics functions gmap strings numbers list.

(** * Struct field assignment

    [r <| f := v |>] is the C assignment [r.f = v] as a function, and
    [r <| f ::= g |>] is [r.f = g(r.f)].  A record gets the notation by an
    [Eta] instance that rebuilds it from its fields; the field updater is then
    derived by instance search. *)
Class Eta (R : Type) := eta : R → R.
Class FieldUpdate {R E : Type} (proj : R → E) := field_update : (E → E) → R → R.
#[global] Hint Mode FieldUpdate - - ! : typeclass_instances.
Arguments field_update {R E} proj {_} _ _.

Ltac derive_field_update :=
  lazymatch goal with
  | |- @FieldUpdate ?R ?E ?proj =>
      exact (λ (g : E → E) (r : R),
        ltac:(let i := constr:(_ : Eta R) in
              let i := eval red in i in
              let t := eval cbv beta in (i r) in
              match t with
              | context C [proj r] => let t' := context C [g (proj r)] in exact t'
              end))
  end.
#[global] Hint Extern 1 (FieldUpdate _) => derive_field_update : typeclass_instances.

Declare Scope struct_scope.
Notation "r <| f ::= g |>" := (field_update f g r)
  (at level 1, f constr at level 1, left associativity, format "r <| f  ::=  g |>") : struct_scope.
Notation "r <| f := v |>" := (field_update f (λ _, v) r)
  (at level 1, f constr at level 1, left associativity, format "r <| f  :=  v |>") : struct_scope.
Open Scope struct_scope.

(** * Stateful C code as a partial state monad

    A C function over a state [S] is a function [S → option (A * S)].
    [None] stands for undefined behaviour of the C program (dereferencing a
    pointer to no object) or for a loop that has used up its fuel; every
    specification below is a total-correctness statement, so it excludes both. *)
Definition M (S A : Type) : Type := S → option (A * S).

#[export] Instance M_ret S : MRet (M S) := λ A a s, Some (a, s).
#[export] Instance M_bind S : MBind (M S) := λ A B k m s,
  match m s with Some (a, s') => k a s' | None => None end.

Definition fault {S A} : M S A := λ _, None.
Definition gets {S A} (f : S → A) : M S A := λ s, Some (f s, s).
Definition modify {S} (f : S → S) : M S unit := λ s, Some (tt, f s).
Definition lift_opt {S A} (o : option A) : M S A :=
  match o with Some a => mret a | None => fault end.
Definition when {S} (b : bool) (m : M S unit) : M S unit := if b then m else mret tt.

(** ** Total-correctness weakest preconditions *)
Definition wp {S A} (m : M S A) (Q : A → S → Prop) (s : S) : Prop :=
  ∃ a s', m s = Some (a, s') ∧ Q a s'.

Section wp.
Context {S : Type}.

Lemma wp_mono {A} (m : M S A) (Q Q' : A → S → Prop) s :
    wp m Q s → (∀ a s', Q a s' → Q' a s') → wp m Q' s.
Proof. intros (a & s' & ? & ?) ?. exists a, s'. eauto. Qed.

Lemma wp_ret {A} (a : A) (Q : A → S → Prop) s : Q a s → wp (mret a) Q s.
Proof. intros. by exists a, s. Qed.

Lemma wp_bind {A B} (m : M S A) (k : A → M S B) Q s :
    wp m (λ a, wp (k a) Q) s → wp (mbind k m) Q s.
Proof.
    intros (a & s' & Hm & b & s'' & Hk & HQ).
    exists b, s''. split; [|done]. unfold mbind, M_bind. by rewrite Hm.
Qed.

Lemma wp_bind_assoc {A B C} (m : M S A) (k : A → M S B) (h : B → M S C) Q s :
    wp (mbind h (mbind k m)) Q s → wp (mbind (λ a, mbind h (k a)) m) Q s.
Proof.
    intros (c & s' & Hm & HQ). exists c, s'. split; [|done]. revert Hm. unfold mbind, M_bind.
    by destruct (m s) as [[??]|].
Qed.

Lemma wp_gets {A} (f : S → A) Q s : Q (f s) s → wp (gets f) Q s.
Proof. intros. by eexists _, _. Qed.

Lemma wp_modify (f : S → S) (Q : unit → S → Prop) s : Q tt (f s) → wp (modify f) Q s.
Proof. intros. by eexists _, _. Qed.

Lemma wp_lift_opt {A} (o : option A) (a : A) (Q : A → S → Prop) s :
    o = Some a → Q a s → wp (lift_opt o) Q s.
Proof. intros -> ?. by apply wp_ret. Qed.

Lemma wp_when (b : bool) (m : M S unit) (Q : unit → S → Prop) s :
    (b = true → wp m Q s) → (b = false → Q tt s) → wp (when b m) Q s.
Proof. intros. destruct b; simpl; [eauto|apply wp_ret; eauto]. Qed.

Lemma wp_unfold {A} (m : M S A) Q s a s' : m s = Some (a, s') → wp m Q s → Q a s'.
Proof. intros Hm (a' & s'' & Hm' & HQ). naive_solver. Qed.
End wp.

(** ** Relational frames

    [frame R m]: whatever [m] does, it relates the states before and after by
    the preorder [R].  The [frame] hint database composes the frames of the
    statements of a function. *)
Definition frame {S A} (R : relation S) (m : M S A) : Prop :=
  ∀ s a s', m s = Some (a, s') → R s s'.
Create HintDb frame.

Section frame.
Context {S : Type} (R : relation S) `{!PreOrder R}.

Lemma frame_ret {A} (a : A) : frame R (mret a).
Proof. by intros s b s' [= <- <-]. Qed.
Lemma frame_fault {A} : frame R (fault (A := A)).
Proof. by intros s b s'. Qed.
Lemma frame_gets {A} (f : S → A) : frame R (gets f).
Proof. by intros s b s' [= <- <-]. Qed.
Lemma frame_modify (f : S → S) : (∀ s, R s (f s)) → frame R (modify f).
Proof. intros H s b s' [= <- <-]. apply H. Qed.
Lemma frame_bind {A B} (m : M S A) (k : A → M S B) :
    frame R m → (∀ a, frame R (k a)) → frame R (mbind k m).
Proof.
    intros Hm Hk s b s'. unfold mbind, M_bind. destruct (m s) as [[a s1]|] eqn:E; [|done].
    intros Hb. etrans; [by eapply Hm|by eapply Hk].
Qed.
Lemma frame_when b (m : M S unit) : frame R m → frame R (when b m).
Proof. intros H. destruct b; simpl; [done|apply frame_ret]. Qed.
Lemma frame_if (b : bool) {A} (m m' : M S A) : frame R m → frame R m' → frame R (if b then m else m').
Proof. by destruct b. Qed.
Lemma frame_decide (P : Prop) `{!Decision P} {A} (m m' : M S A) :
    frame R m → frame R m' → frame R (if decide P then m else m').
Proof. by destruct (decide P). Qed.
End frame.
#[export] Hint Resolve frame_ret frame_fault frame_gets frame_when frame_if frame_decide : frame.
#[export] Hint Extern 1 (frame _ (mbind _ _)) => apply frame_bind; [typeclasses eauto| |intros ?] : frame.
#[export] Hint Extern 2 (frame _ (match ?x with _ => _ end)) => destruct x : frame.
#[export] Hint Extern 1 (PreOrder _) => typeclasses eauto : frame.
Ltac frame_auto := eauto 40 with frame.

(** One step of symbolic execution. *)
Ltac wp_step :=
  lazymatch goal with
  | |- wp (mbind _ _) _ _ => apply wp_bind
  | |- wp (mret _) _ _ => apply wp_ret
  | |- wp (gets _) _ _ => apply wp_gets
  | |- wp (modify _) _ _ => apply wp_modify
  end; cbv beta.
Ltac wp_go := repeat wp_step.

(** * Sums over lists

    Counting the threads in some condition: a sum changes by the difference at
    the updated position. *)
Definition zsum {A} (f : A → Z) (l : list A) : Z := foldr (λ x a, (f x + a)%Z) 0%Z l.
Section zsum.
Context {A : Type} (f : A → Z).
Implicit Types (l : list A).

Lemma zsum_cons x l : zsum f (x :: l) = (f x + zsum f l)%Z.
Proof. done. Qed.
Lemma zsum_nil : zsum f [] = 0%Z.
Proof. done. Qed.
Lemma zsum_app l1 l2 : zsum f (l1 ++ l2) = (zsum f l1 + zsum f l2)%Z.
Proof. induction l1 as [|x l1 IH]; [done|]. rewrite <- app_comm_cons, !zsum_cons, IH. lia. Qed.
Lemma zsum_insert l i x y : l !! i = Some x → zsum f (<[i := y]> l) = (zsum f l - f x + f y)%Z.
Proof.
  intros Hi. rewrite (insert_take_drop l i y) by by eapply lookup_lt_Some.
  rewrite <- (take_drop_middle l i x Hi) at 3. rewrite !zsum_app, !zsum_cons. lia.
Qed.
Lemma zsum_alter (g : A → A) l i x :
  l !! i = Some x → zsum f (alter g i l) = (zsum f l - f x + f (g x))%Z.
Proof.
  intros Hi. replace (alter g i l) with (<[i := g x]> l); [by apply zsum_insert|].
  apply list_eq. intros j. destruct (decide (j = i)) as [->|Hj].
  - rewrite list_lookup_alter_eq, list_lookup_insert_eq by by eapply lookup_lt_Some. by rewrite Hi.
  - by rewrite list_lookup_insert_ne, list_lookup_alter_ne.
Qed.
Lemma zsum_alter_same (g : A → A) l i : (∀ x, f (g x) = f x) → zsum f (alter g i l) = zsum f l.
Proof.
  intros Hg. destruct (l !! i) as [x|] eqn:Hi; [rewrite (zsum_alter _ _ _ x Hi), Hg; lia|].
  f_equal. rewrite (list_alter_ext g id l l i); [by apply list_alter_id|by rewrite Hi|done].
Qed.
Lemma zsum_nonneg l : (∀ x, (0 ≤ f x)%Z) → (0 ≤ zsum f l)%Z.
Proof. intros Hf. induction l as [|x l IH]; [done|]. rewrite zsum_cons. specialize (Hf x). lia. Qed.
Lemma zsum_lookup l i x : (∀ x, (0 ≤ f x)%Z) → l !! i = Some x → (f x ≤ zsum f l)%Z.
Proof.
  intros Hf Hi. rewrite <- (take_drop_middle l i x Hi), zsum_app, zsum_cons.
  pose proof (zsum_nonneg (take i l) Hf). pose proof (zsum_nonneg (drop (S i) l) Hf). lia.
Qed.
Lemma zsum_two l i j x y :
  (∀ x, (0 ≤ f x)%Z) → i ≠ j → l !! i = Some x → l !! j = Some y → (f x + f y ≤ zsum f l)%Z.
Proof.
  intros Hf Hij Hi Hj. assert (Hj' : delete i l !! (if decide (j < i) then j else pred j) = Some y).
  { case_decide; [by rewrite list_lookup_delete_lt|]. rewrite list_lookup_delete_ge by lia.
    by replace (S (pred j)) with j by lia. }
  pose proof (zsum_lookup _ _ _ Hf Hj'). revert H. rewrite <- (take_drop_middle l i x Hi) at 2.
  rewrite delete_take_drop, !zsum_app, zsum_cons. lia.
Qed.
Lemma zsum_pos l : (∀ x, (0 ≤ f x)%Z) → (0 < zsum f l)%Z → ∃ i x, l !! i = Some x ∧ (0 < f x)%Z.
Proof.
  intros Hf. induction l as [|y l IH]; [rewrite zsum_nil; lia|]. rewrite zsum_cons. intros Hp.
  destruct (decide (0 < f y)%Z); [by exists 0, y|].
  destruct IH as (i & x & Hi & Hx); [specialize (Hf y); lia|]. by exists (S i), x.
Qed.
End zsum.
Lemma zsum_fmap {A B} (f : B → Z) (g : A → B) (l : list A) : zsum f (g <$> l) = zsum (λ x, f (g x)) l.
Proof. induction l as [|x l IH]; [done|]. rewrite fmap_cons, !zsum_cons. by rewrite IH. Qed.

(** * Linked lists

    The fibers reached from [h] by following links. *)
Fixpoint chain (nx : gmap nat (option nat)) (h : option nat) (l : list nat) : Prop :=
  match l with
  | [] => h = None
  | f :: l' => h = Some f ∧ ∃ o, nx !! f = Some o ∧ chain nx o l'
  end.
Lemma chain_insert nx h l f o : f ∉ l → chain nx h l → chain (<[f := o]> nx) h l.
Proof.
  revert h. induction l as [|g l IH]; intros h Hf; simpl; [done|]. intros [-> (o' & Ho & Hc)].
  split; [done|]. exists o'. rewrite lookup_insert_ne by set_solver. split; [done|]. apply IH; [set_solver|done].
Qed.
Lemma chain_head nx h l : chain nx h l → h = List.hd_error l.
Proof. destruct l; simpl; [done|]. by intros [-> _]. Qed.
