(* ===== verification/ChanTypes.v ===== *)
(** Data of the channel runtime shared by the channel files: wait nodes,
    select groups, the wake batch, the observable events and the state that
    the waiter-list code of [src/cc/runtime/channel.c] works on. *)
From S2P Require Import Prelude.

(** Addresses of wait nodes, select groups, fibers and user buffers.  NULL is
    [None] wherever the C code allows it. *)
Abbreviation ptr := nat (only parsing).

(** [CC_CHAN_NOTIFY_*] *)
Inductive notify := NOTIFY_NONE | NOTIFY_DATA | NOTIFY_CANCEL | NOTIFY_CLOSE | NOTIFY_SIGNAL.
#[export] Instance notify_eq_dec : EqDecision notify.
Proof. solve_decision. Defined.

(** [cc__fiber_wait_node] (the two timestamp fields are never read by the
    channel code and are left out). *)
Record cc__fiber_wait_node := WaitNode {
  fiber : option ptr;
  wait_ticket : Z;
  next : option ptr;
  prev : option ptr;
  data : option ptr;
  notified : notify;
  select_group : option ptr;
  select_index : Z;
  is_select : bool;
  in_wait_list : bool }.
#[export] Instance eta_fiber_wait_node : Eta cc__fiber_wait_node := λ r,
  WaitNode (fiber r) (wait_ticket r) (next r) (prev r) (data r) (notified r) (select_group r) (select_index r) (is_select r) (in_wait_list r).

(** [cc__select_wait_group] / [cc__wait_select_group] *)
Record cc__select_wait_group := SelectGroup {
  group_fiber : option ptr;
  signaled : Z;
  selected_index : Z }.
#[export] Instance eta_select_wait_group : Eta cc__select_wait_group := λ r,
  SelectGroup (group_fiber r) (signaled r) (selected_index r).

(** [wake_batch] *)
Definition WAKE_BATCH_SIZE : nat := 32.
Record wake_batch := WakeBatch {
  wb_fibers : list (option ptr);
  wb_attribs : list Z;
  wb_count : nat }.
#[export] Instance eta_wake_batch : Eta wake_batch := λ r,
  WakeBatch (wb_fibers r) (wb_attribs r) (wb_count r).

Definition CC_FIBER_UNPARK_ATTR_NONE : Z := 0.
Definition CC_FIBER_UNPARK_ATTR_CONTENTION_LOCAL : Z := 1.

(** What a channel operation does to the rest of the runtime, in order. *)
Inductive cond := COND_NOT_EMPTY | COND_NOT_FULL.
Inductive event :=
  | EvLock | EvUnlock
  | EvCondSignal (c : cond) | EvCondBroadcast (c : cond)
  | EvWake (f : ptr) (attrib : Z)
  | EvSocketSignal (sig : ptr)
  | EvSelectBroadcast.

(** One waiter queue: [send_waiters_head]/[send_waiters_tail] and
    [recv_waiters_head]/[recv_waiters_tail]. *)
Inductive side := SendQ | RecvQ.
#[export] Instance side_eq_dec : EqDecision side.
Proof. solve_decision. Defined.
Record waiter_queue := WaiterQueue { wq_head : option ptr; wq_tail : option ptr }.
#[export] Instance eta_waiter_queue : Eta waiter_queue := λ r,
  WaiterQueue (wq_head r) (wq_tail r).

(** The fields of [struct CCChan] the waiter code reads and writes. *)
Record chan_waiters := ChanWaiters {
  send_waiters : waiter_queue;
  recv_waiters : waiter_queue;
  recv_signal_hint : option ptr;
  has_send_waiters : Z;
  has_recv_waiters : Z;
  recv_wake_inflight : Z;
  thread_recv_waiters : Z;
  fast_path_ok : bool;
  recv_signal : option ptr;
  rv_recv_waiters : Z }.
#[export] Instance eta_chan_waiters : Eta chan_waiters := λ r,
  ChanWaiters (send_waiters r) (recv_waiters r) (recv_signal_hint r) (has_send_waiters r) (has_recv_waiters r) (recv_wake_inflight r) (thread_recv_waiters r) (fast_path_ok r) (recv_signal r) (rv_recv_waiters r).

(** The state the waiter code runs on: the channel's fields, the wait nodes
    and select groups in memory, each fiber's current wait ticket
    ([fiber_v2.wait_ticket]), the caller's value buffers, the thread's wake
    batch, the count of select waiters and the log of events. *)
Record wstate := WState {
  ch : chan_waiters;
  nodes : gmap ptr cc__fiber_wait_node;
  groups : gmap ptr cc__select_wait_group;
  tickets : gmap ptr Z;
  mem : gmap ptr (list Z);
  batch : wake_batch;
  g_select_waiters : Z;
  log : list event }.
#[export] Instance eta_wstate : Eta wstate := λ r,
  WState (ch r) (nodes r) (groups r) (tickets r) (mem r) (batch r) (g_select_waiters r) (log r).

(** Process-wide settings read once from the environment
    ([CC_CHAN_RECV_DEDUPE], [CC_CHAN_RECV_WAKE_TARGET],
    [CC_CHAN_MINIMAL_FAST_PATH], [CC_CHAN_NO_LOCKFREE]), whether an allocation
    of a given size succeeds, and whether the caller is a fiber of a cancelled
    nursery ([cc_nursery_is_cancelled(cc__runtime_current_nursery())]). *)
Record chan_env := ChanEnv {
  env_recv_dedupe : bool;
  env_recv_wake_target : Z;
  env_minimal_path : bool;
  env_no_lockfree : bool;
  env_malloc : Z → bool;
  env_nursery_cancelled : bool }.
#[export] Instance eta_chan_env : Eta chan_env := λ r,
  ChanEnv (env_recv_dedupe r) (env_recv_wake_target r) (env_minimal_path r) (env_no_lockfree r) (env_malloc r) (env_nursery_cancelled r).
Definition default_env : chan_env := ChanEnv true 1 true false (λ _, true) false.
