(* ===== verification/WaitList.v ===== *)
(** The waiter lists of a channel ([src/cc/runtime/channel.c], lines 985-1542):
    the intrusive doubly-linked lists of parked senders and receivers, the
    counters derived from them, select arbitration, and the batched wakes. *)
From S2P Require Import Prelude ChanTypes.

(** * Definitions *)

Abbreviation W := (M wstate).

(** ** Memory accesses *)
Definition load (p : ptr) : W cc__fiber_wait_node :=
  λ s, match nodes s !! p with Some n => Some (n, s) | None => None end.
Definition store (p : ptr) (f : cc__fiber_wait_node → cc__fiber_wait_node) : W unit :=
  λ s, match nodes s !! p with
       | Some n => Some (tt, s <| nodes := <[p := f n]> (nodes s) |>)
       | None => None
       end.
Definition load_group (g : ptr) : W cc__select_wait_group :=
  λ s, match groups s !! g with Some x => Some (x, s) | None => None end.
Definition store_group (g : ptr) (f : cc__select_wait_group → cc__select_wait_group) : W unit :=
  λ s, match groups s !! g with
       | Some x => Some (tt, s <| groups := <[g := f x]> (groups s) |>)
       | None => None
       end.
Definition q_of (sd : side) (s : wstate) : waiter_queue :=
  match sd with SendQ => send_waiters (ch s) | RecvQ => recv_waiters (ch s) end.
Definition upd_ch (f : chan_waiters → chan_waiters) : W unit :=
  modify (λ s, s <| ch ::= f |>).
Definition set_q (sd : side) (q : waiter_queue) : W unit :=
  upd_ch (λ c, match sd with
               | SendQ => c <| send_waiters := q |>
               | RecvQ => c <| recv_waiters := q |>
               end).
Definition set_head (sd : side) (p : option ptr) : W unit :=
  q ← gets (q_of sd); set_q sd (q <| wq_head := p |>).
Definition set_tail (sd : side) (p : option ptr) : W unit :=
  q ← gets (q_of sd); set_q sd (q <| wq_tail := p |>).
Definition emit (e : event) : W unit := modify (λ s, s <| log ::= λ l, l ++ [e] |>).

Definition is_none {A} (o : option A) : bool := match o with None => true | Some _ => false end.
Definition isNone (k : notify) : bool := bool_decide (k = NOTIFY_NONE).

(** ** Wait tickets ([sched_v2_fiber_publish_wait_ticket] and
    [sched_v2_fiber_wait_ticket_matches]; a fiber with no entry in [tickets]
    is a pointer without the V2 tag). *)
Definition cc__fiber_publish_wait_ticket (f : ptr) : W Z :=
  λ s, match tickets s !! f with
       | Some t => let t' := ((t + 1) mod 2 ^ 64)%Z in
                   Some (t', s <| tickets := <[f := t']> (tickets s) |>)
       | None => Some (0%Z, s)
       end.
Definition cc__fiber_wait_ticket_matches (f : ptr) (t : Z) (s : wstate) : bool :=
  match tickets s !! f with Some cur => bool_decide (cur = t) | None => false end.

Definition cc__chan_waiter_ticket_valid (n : cc__fiber_wait_node) (s : wstate) : bool :=
  match fiber n with
  | None => true
  | Some f => if decide (wait_ticket n = 0%Z) then true
              else cc__fiber_wait_ticket_matches f (wait_ticket n) s
  end.

(** ** The wake batch *)
Definition cc__chan_wake_sched_attrib (s : wstate) : Z :=
  if fast_path_ok (ch s) then CC_FIBER_UNPARK_ATTR_CONTENTION_LOCAL
  else CC_FIBER_UNPARK_ATTR_NONE.

Fixpoint wake_batch_flush_from (todo i : nat) : W unit :=
  match todo with
  | O => mret tt
  | S todo' =>
      b ← gets batch;
      (match wb_fibers b !! i with
       | Some (Some f) =>
           emit (EvWake f (wb_attribs b !!! i));;
           modify (λ s, s <| batch := b <| wb_fibers ::= <[i := None]> |>
                                         <| wb_attribs ::= <[i := 0%Z]> |> |>)
       | _ => mret tt
       end);;
      wake_batch_flush_from todo' (S i)
  end.
Definition wake_batch_flush : W unit :=
  n ← gets (λ s, wb_count (batch s));
  wake_batch_flush_from n 0;;
  modify (λ s, s <| batch ::= λ b, b <| wb_count := 0 |> |>).

Definition wake_batch_add (o : option ptr) : W unit :=
  match o with
  | None => mret tt
  | Some f =>
      n ← gets (λ s, wb_count (batch s));
      when (bool_decide (WAKE_BATCH_SIZE ≤ n)) wake_batch_flush;;
      modify (λ s, s <| batch ::= λ b,
                b <| wb_fibers ::= <[wb_count b := Some f]> |> <| wb_count ::= S |> |>)
  end.
Definition wake_batch_add_chan (o : option ptr) : W unit :=
  match o with
  | None => mret tt
  | Some f =>
      n ← gets (λ s, wb_count (batch s));
      when (bool_decide (WAKE_BATCH_SIZE ≤ n)) wake_batch_flush;;
      modify (λ s, s <| batch ::= λ b,
                b <| wb_fibers ::= <[wb_count b := Some f]> |>
                  <| wb_attribs ::= <[wb_count b := cc__chan_wake_sched_attrib s]> |>
                  <| wb_count ::= S |> |>)
  end.

(** ** Select arbitration *)
Definition cast_int (z : Z) : Z := ((z + 2 ^ 31) mod 2 ^ 32 - 2 ^ 31)%Z.

Definition cas_selected (g : ptr) (expected desired : Z) : W bool :=
  x ← load_group g;
  if decide (selected_index x = expected) then
    store_group g (λ x, x <| selected_index := desired |>);; mret true
  else mret false.
Definition cc__wait_select_try_win (g : ptr) (index : Z) : W bool :=
  x ← load_group g;
  let sel := selected_index x in
  if decide (sel = cast_int index) then mret true
  else if decide (sel = (-1)%Z) then cas_selected g (-1)%Z (cast_int index)
  else mret false.
Definition cc__chan_select_try_win (p : ptr) : W bool :=
  n ← load p;
  match is_select n, select_group n with
  | true, Some g => cc__wait_select_try_win g (select_index n)
  | _, _ => mret true
  end.

Definition bump_signaled (p : ptr) : W unit :=
  n ← load p;
  match is_select n, select_group n with
  | true, Some g => store_group g (λ x, x <| signaled ::= Z.succ |>)
  | _, _ => mret tt
  end.

Definition cc__chan_select_cancel_node (p : ptr) : W unit :=
  n ← load p;
  v ← gets (cc__chan_waiter_ticket_valid n);
  if negb v then mret tt else
  store p (λ n, n <| notified := NOTIFY_CANCEL |>);;
  bump_signaled p;;
  n ← load p;
  wake_batch_add (fiber n).

(** ** Linking and unlinking nodes *)
Definition cc__chan_add_waiter (sd : side) (p : ptr) : W unit :=
  n ← load p;
  (match fiber n with
   | Some f =>
       if decide (wait_ticket n = 0%Z) then
         t ← cc__fiber_publish_wait_ticket f;
         store p (λ n, n <| wait_ticket := t |>)
       else mret tt
   | None => mret tt
   end);;
  store p (λ n, n <| next := None |>);;
  q ← gets (q_of sd);
  store p (λ n, n <| prev := wq_tail q |>);;
  (match wq_tail q with
   | Some t => store t (λ n, n <| next := Some p |>)
   | None => set_head sd (Some p)
   end);;
  set_tail sd (Some p);;
  store p (λ n, n <| in_wait_list := true |>).

Definition cc__chan_remove_waiter_list (sd : side) (p : ptr) : W unit :=
  n ← load p;
  (match prev n with
   | Some q => store q (λ m, m <| next := next n |>)
   | None => set_head sd (next n)
   end);;
  n ← load p;
  (match next n with
   | Some q => store q (λ m, m <| prev := prev n |>)
   | None => set_tail sd (prev n)
   end);;
  store p (λ n, n <| prev := None |> <| next := None |>);;
  store p (λ n, n <| in_wait_list := false |>).

(** The head-unlinking statements that every pop and wake loop repeats. *)
Definition unlink_head (sd : side) (p : ptr) : W unit :=
  n ← load p;
  set_head sd (next n);;
  q ← gets (q_of sd);
  (match wq_head q with
   | Some h => store h (λ m, m <| prev := None |>)
   | None => set_tail sd None
   end);;
  store p (λ n, n <| next := None |> <| prev := None |>);;
  store p (λ n, n <| in_wait_list := false |>).

(** ** Counters *)
Definition dec_clamp (z : Z) : Z := if decide (z ≤ 1)%Z then 0%Z else (z - 1)%Z.

Definition cc__chan_recv_waiter_count_inc : W unit :=
  upd_ch (λ c, c <| has_recv_waiters ::= Z.succ |>).
Definition cc__chan_recv_waiter_count_dec : W unit :=
  upd_ch (λ c, c <| has_recv_waiters ::= dec_clamp |>).
Definition cc__chan_recv_wake_inflight_inc : W unit :=
  upd_ch (λ c, c <| recv_wake_inflight ::= Z.succ |>).
Definition cc__chan_recv_wake_inflight_dec : W unit :=
  upd_ch (λ c, c <| recv_wake_inflight ::= dec_clamp |>).
Definition cc__chan_thread_recv_waiter_inc : W unit :=
  upd_ch (λ c, c <| thread_recv_waiters ::= Z.succ |>).
Definition cc__chan_thread_recv_waiter_dec : W unit :=
  upd_ch (λ c, c <| thread_recv_waiters ::= dec_clamp |>).

Definition cc__chan_recv_wake_budget (env : chan_env) (s : wstate) : Z :=
  let deficit := (env_recv_wake_target env - recv_wake_inflight (ch s))%Z in
  if decide (0 < deficit)%Z then deficit else 0%Z.

Definition cc__chan_recv_signal_hint_advance (p : ptr) (nxt : option ptr) : W unit :=
  h ← gets (λ s, recv_signal_hint (ch s));
  hd ← gets (λ s, wq_head (recv_waiters (ch s)));
  (if decide (h = Some p) then
     upd_ch (λ c, c <| recv_signal_hint := match nxt with Some _ => nxt | None => hd end |>)
   else mret tt);;
  h ← gets (λ s, recv_signal_hint (ch s));
  if is_none hd then upd_ch (λ c, c <| recv_signal_hint := None |>)
  else if is_none h then upd_ch (λ c, c <| recv_signal_hint := hd |>)
  else mret tt.

Definition cc__chan_recv_waiter_rearm (p : ptr) : W unit :=
  n ← load p;
  if negb (in_wait_list n) then mret tt else
  cc__chan_recv_waiter_count_inc;;
  h ← gets (λ s, recv_signal_hint (ch s));
  if is_none h then upd_ch (λ c, c <| recv_signal_hint := Some p |>) else mret tt.

Definition cc__chan_recv_waiter_consume_signal (p : ptr) : W unit :=
  n ← load p;
  if negb (in_wait_list n) then mret tt else cc__chan_recv_wake_inflight_dec.

(** What [cc_chan_match_deadline] does with a receive case's node when its
    fiber resumes: a SIGNAL or a CANCEL is taken back to waiting; the result
    says whether the select has to rearm. *)
Definition match_resume_recv (p : ptr) : W bool :=
  n ← load p;
  match notified n with
  | NOTIFY_SIGNAL =>
      cc__chan_recv_waiter_consume_signal p;;
      store p (λ n, n <| notified := NOTIFY_NONE |>);;
      cc__chan_recv_waiter_rearm p;;
      mret false
  | NOTIFY_CANCEL =>
      store p (λ n, n <| notified := NOTIFY_NONE |>);;
      cc__chan_recv_waiter_rearm p;;
      mret true
  | _ => mret false
  end.

(** ** Adding and removing waiters *)
Definition cc__chan_add_send_waiter (p : ptr) : W unit :=
  cc__chan_add_waiter SendQ p;;
  upd_ch (λ c, c <| has_send_waiters := 1%Z |>).

Definition cc__chan_add_recv_waiter (p : ptr) : W unit :=
  cc__chan_add_waiter RecvQ p;;
  cc__chan_recv_waiter_count_inc;;
  h ← gets (λ s, recv_signal_hint (ch s));
  if is_none h then upd_ch (λ c, c <| recv_signal_hint := Some p |>) else mret tt.

(** [cc__chan_has_wakeable_waiter]: follow [next] from the head. *)
Fixpoint cc__chan_has_wakeable_waiter (fuel : nat) (node : option ptr) : W bool :=
  match node with
  | None => mret false
  | Some p =>
      match fuel with
      | O => fault
      | S fuel' =>
          n ← load p;
          if isNone (notified n) then mret true
          else cc__chan_has_wakeable_waiter fuel' (next n)
      end
  end.
Definition cc__chan_refresh_has_send_waiters : W unit :=
  fuel ← gets (λ s, size (nodes s));
  hd ← gets (λ s, wq_head (send_waiters (ch s)));
  b ← cc__chan_has_wakeable_waiter fuel hd;
  upd_ch (λ c, c <| has_send_waiters := Z.b2z b |>).

Definition cc__chan_remove_send_waiter (p : ptr) : W unit :=
  n ← load p;
  if negb (in_wait_list n) then
    hd ← gets (λ s, wq_head (send_waiters (ch s)));
    when (is_none hd) (upd_ch (λ c, c <| has_send_waiters := 0%Z |>))
  else
    cc__chan_remove_waiter_list SendQ p;;
    cc__chan_refresh_has_send_waiters.

Definition cc__chan_remove_recv_waiter (p : ptr) : W unit :=
  n ← load p;
  if negb (in_wait_list n) then
    hd ← gets (λ s, wq_head (recv_waiters (ch s)));
    when (is_none hd)
      (upd_ch (λ c, c <| has_recv_waiters := 0%Z |> <| recv_signal_hint := None |>))
  else
    let nxt := next n in
    cc__chan_remove_waiter_list RecvQ p;;
    (match notified n with
     | NOTIFY_NONE => cc__chan_recv_waiter_count_dec
     | NOTIFY_SIGNAL => cc__chan_recv_wake_inflight_dec
     | _ => mret tt
     end);;
    cc__chan_recv_signal_hint_advance p nxt.

(** ** Waking *)
Fixpoint cc__chan_wake_one_send_waiter_loop (fuel : nat) : W unit :=
  hd ← gets (λ s, wq_head (send_waiters (ch s)));
  match hd with
  | None => cc__chan_refresh_has_send_waiters
  | Some p =>
      match fuel with
      | O => fault
      | S fuel' =>
          unlink_head SendQ p;;
          won ← cc__chan_select_try_win p;
          if negb won then
            cc__chan_select_cancel_node p;;
            cc__chan_wake_one_send_waiter_loop fuel'
          else
            n ← load p;
            v ← gets (cc__chan_waiter_ticket_valid n);
            if negb v then cc__chan_wake_one_send_waiter_loop fuel'
            else
              store p (λ n, n <| notified := NOTIFY_SIGNAL |>);;
              bump_signaled p;;
              cc__chan_refresh_has_send_waiters;;
              wake_batch_add_chan (fiber n)
      end
  end.
Definition cc__chan_wake_one_send_waiter : W unit :=
  hd ← gets (λ s, wq_head (send_waiters (ch s)));
  match hd with
  | None => mret tt
  | Some _ => fuel ← gets (λ s, size (nodes s)); cc__chan_wake_one_send_waiter_loop fuel
  end.

(** One pass of [cc__chan_signal_recv_waiters]: walk [next] from [node] until
    NULL or [stop]; the result is the number signaled so far and whether the
    function has returned. *)
Definition signal_one_recv (p : ptr) : W unit :=
  store p (λ n, n <| notified := NOTIFY_SIGNAL |>);;
  cc__chan_recv_waiter_count_dec;;
  cc__chan_recv_wake_inflight_inc;;
  bump_signaled p;;
  n ← load p;
  wake_batch_add_chan (fiber n).

Fixpoint signal_recv_pass (env : chan_env) (max_wake : Z) (stop : option ptr)
    (fuel : nat) (node : option ptr) (signaled : Z) : W (Z * bool) :=
  match node with
  | None => mret (signaled, false)
  | Some p =>
      if decide (node = stop) then mret (signaled, false) else
      match fuel with
      | O => fault
      | S fuel' =>
          n ← load p;
          let nxt := next n in
          if env_recv_dedupe env && negb (isNone (notified n)) then
            signal_recv_pass env max_wake stop fuel' nxt signaled
          else
            won ← cc__chan_select_try_win p;
            if negb won then
              cc__chan_select_cancel_node p;;
              cc__chan_recv_waiter_count_dec;;
              signal_recv_pass env max_wake stop fuel' nxt signaled
            else
              v ← gets (cc__chan_waiter_ticket_valid n);
              if negb v then signal_recv_pass env max_wake stop fuel' nxt signaled
              else
                signal_one_recv p;;
                let signaled := (signaled + 1)%Z in
                if decide (max_wake ≤ signaled)%Z then
                  hd ← gets (λ s, wq_head (recv_waiters (ch s)));
                  upd_ch (λ c, c <| recv_signal_hint :=
                                 match nxt with Some _ => nxt | None => hd end |>);;
                  mret (signaled, true)
                else signal_recv_pass env max_wake stop fuel' nxt signaled
      end
  end.

Definition cc__chan_signal_recv_waiters (env : chan_env) (max_wake : Z) : W Z :=
  if decide (max_wake ≤ 0)%Z then mret 0%Z else
  hd ← gets (λ s, wq_head (recv_waiters (ch s)));
  if is_none hd then mret 0%Z else
  h ← gets (λ s, recv_signal_hint (ch s));
  let start := match h with Some _ => h | None => hd end in
  fuel ← gets (λ s, size (nodes s));
  '(k, returned) ← signal_recv_pass env max_wake None fuel start 0%Z;
  if (returned : bool) then mret k else
  hd ← gets (λ s, wq_head (recv_waiters (ch s)));
  let finish (k : Z) : W Z :=
    hd ← gets (λ s, wq_head (recv_waiters (ch s)));
    upd_ch (λ c, c <| recv_signal_hint := hd |>);; mret k in
  if decide (start = hd) then finish k
  else if decide (k < max_wake)%Z then
    '(k, returned) ← signal_recv_pass env max_wake start fuel hd k;
    if (returned : bool) then mret k else finish k
  else finish k.

Definition cc__chan_signal_recv_waiter (env : chan_env) : W unit :=
  _ ← cc__chan_signal_recv_waiters env 1%Z; mret tt.

(** ** Popping a waiter that is still waiting *)
Fixpoint cc__chan_pop_send_waiter_loop (fuel : nat) : W (option ptr) :=
  hd ← gets (λ s, wq_head (send_waiters (ch s)));
  match hd with
  | None => mret None
  | Some p =>
      match fuel with
      | O => fault
      | S fuel' =>
          n ← load p;
          if negb (isNone (notified n)) then
            unlink_head SendQ p;; cc__chan_pop_send_waiter_loop fuel'
          else
            won ← (if is_select n then cc__chan_select_try_win p else mret true);
            if negb won then
              unlink_head SendQ p;;
              cc__chan_select_cancel_node p;;
              cc__chan_pop_send_waiter_loop fuel'
            else
              v ← gets (cc__chan_waiter_ticket_valid n);
              if negb v then unlink_head SendQ p;; cc__chan_pop_send_waiter_loop fuel'
              else unlink_head SendQ p;; mret (Some p)
      end
  end.
Definition cc__chan_pop_send_waiter : W (option ptr) :=
  fuel ← gets (λ s, size (nodes s)); cc__chan_pop_send_waiter_loop fuel.

Fixpoint cc__chan_pop_recv_waiter_loop (fuel : nat) : W (option ptr) :=
  hd ← gets (λ s, wq_head (recv_waiters (ch s)));
  match hd with
  | None => mret None
  | Some p =>
      match fuel with
      | O => fault
      | S fuel' =>
          n ← load p;
          let nxt := next n in
          if negb (isNone (notified n)) then
            unlink_head RecvQ p;;
            when (bool_decide (notified n = NOTIFY_SIGNAL)) cc__chan_recv_wake_inflight_dec;;
            cc__chan_recv_signal_hint_advance p nxt;;
            cc__chan_pop_recv_waiter_loop fuel'
          else
            won ← (if is_select n then cc__chan_select_try_win p else mret true);
            if negb won then
              unlink_head RecvQ p;;
              cc__chan_select_cancel_node p;;
              cc__chan_recv_waiter_count_dec;;
              cc__chan_recv_signal_hint_advance p nxt;;
              cc__chan_pop_recv_waiter_loop fuel'
            else
              v ← gets (cc__chan_waiter_ticket_valid n);
              unlink_head RecvQ p;;
              cc__chan_recv_waiter_count_dec;;
              cc__chan_recv_signal_hint_advance p nxt;;
              if negb v then cc__chan_pop_recv_waiter_loop fuel'
              else mret (Some p)
      end
  end.
Definition cc__chan_pop_recv_waiter : W (option ptr) :=
  fuel ← gets (λ s, size (nodes s)); cc__chan_pop_recv_waiter_loop fuel.

(** ** Waking for close *)
Definition cc__chan_wake_one_recv_waiter_close : W unit :=
  hd ← gets (λ s, wq_head (recv_waiters (ch s)));
  match hd with
  | None => mret tt
  | Some p =>
      n ← load p;
      let nxt := next n in
      unlink_head RecvQ p;;
      (match notified n with
       | NOTIFY_NONE => cc__chan_recv_waiter_count_dec
       | NOTIFY_SIGNAL => cc__chan_recv_wake_inflight_dec
       | _ => mret tt
       end);;
      cc__chan_recv_signal_hint_advance p nxt;;
      won ← (if is_select n then cc__chan_select_try_win p else mret true);
      if negb won then cc__chan_select_cancel_node p else
      v ← gets (cc__chan_waiter_ticket_valid n);
      if negb v then mret tt else
      store p (λ n, n <| notified := NOTIFY_CLOSE |>);;
      bump_signaled p;;
      wake_batch_add_chan (fiber n)
  end.

Definition cc__chan_wake_one_send_waiter_close : W unit :=
  hd ← gets (λ s, wq_head (send_waiters (ch s)));
  match hd with
  | None => mret tt
  | Some p =>
      unlink_head SendQ p;;
      n ← load p;
      won ← (if is_select n then cc__chan_select_try_win p else mret true);
      if negb won then cc__chan_select_cancel_node p else
      v ← gets (cc__chan_waiter_ticket_valid n);
      if negb v then mret tt else
      store p (λ n, n <| notified := NOTIFY_CLOSE |>);;
      bump_signaled p;;
      wake_batch_add_chan (fiber n)
  end.

(** The two loops of [cc__chan_wake_all_waiters]. *)
Fixpoint wake_close_loop (sd : side) (fuel : nat) : W unit :=
  q ← gets (q_of sd);
  match wq_head q with
  | None => mret tt
  | Some _ =>
      match fuel with
      | O => fault
      | S fuel' =>
          (match sd with
           | SendQ => cc__chan_wake_one_send_waiter_close
           | RecvQ => cc__chan_wake_one_recv_waiter_close
           end);;
          wake_close_loop sd fuel'
      end
  end.
(** The loop of an rx-only close in [cc__chan_close_common]. *)
Definition drain_send_waiters_close : W unit :=
  fuel ← gets (λ s, size (nodes s)); wake_close_loop SendQ fuel.
Definition cc__chan_wake_all_waiters : W unit :=
  fuel ← gets (λ s, size (nodes s));
  wake_close_loop SendQ fuel;;
  wake_close_loop RecvQ fuel.

(** ** Signals to the rest of the runtime *)
Definition cc__chan_broadcast_activity : W unit :=
  n ← gets g_select_waiters;
  if decide (n = 0%Z) then mret tt else emit EvSelectBroadcast.
Definition cc__chan_signal_activity : W unit := cc__chan_broadcast_activity.
Definition cc__chan_signal_recv_ready : W unit :=
  sg ← gets (λ s, recv_signal (ch s));
  (match sg with Some x => emit (EvSocketSignal x) | None => mret tt end);;
  cc__chan_broadcast_activity.
