(* ===== verification/WaitShape.v ===== *)
(** Doubly-linked list segments over the wait-node memory, how appending and
    unlinking a node change them, the shape invariant of the waiter lists and the
    structural operations (append, unlink) that maintain it. *)
From S2P Require Import Prelude ChanTypes WaitList.

Implicit Types (s : wstate) (h : gmap ptr cc__fiber_wait_node) (p q : ptr) (l : list ptr) (ls : side → list ptr).

(** * List segments *)

(** The two link fields of the node at [p]. *)
Definition links h p : option (option ptr * option ptr) :=
  (λ n, (prev n, next n)) <$> h !! p.

Definition hd_or l (o : option ptr) : option ptr :=
  match l with [] => o | p :: _ => Some p end.
Definition last_or (o : option ptr) l : option ptr :=
  match last l with Some p => Some p | None => o end.

(** [dlseg h pv l nx]: the nodes [l] are linked in this order, the first one's
    [prev] is [pv] and the last one's [next] is [nx]. *)
Fixpoint dlseg h (pv : option ptr) l (nx : option ptr) : Prop :=
  match l with
  | [] => True
  | p :: l' => links h p = Some (pv, hd_or l' nx) ∧ dlseg h (Some p) l' nx
  end.

Lemma hd_or_app l1 l2 o : hd_or (l1 ++ l2) o = hd_or l1 (hd_or l2 o).
Proof. by destruct l1. Qed.
Lemma last_or_cons o p l : last_or o (p :: l) = last_or (Some p) l.
Proof. unfold last_or. rewrite last_cons. by destruct (last l). Qed.
Lemma hd_or_None l : hd_or l None = head l.
Proof. by destruct l. Qed.
Lemma last_or_None l : last_or None l = last l.
Proof. unfold last_or. by destruct (last l). Qed.
Lemma last_or_snoc o l p : last_or o (l ++ [p]) = Some p.
Proof. unfold last_or. by rewrite last_snoc. Qed.

Lemma dlseg_app h pv l1 l2 nx :
  dlseg h pv (l1 ++ l2) nx ↔
  dlseg h pv l1 (hd_or l2 nx) ∧ dlseg h (last_or pv l1) l2 nx.
Proof.
  revert pv. induction l1 as [|p l1 IH]; intros pv; simpl.
  { unfold last_or. simpl. tauto. }
  rewrite hd_or_app, IH, last_or_cons. tauto.
Qed.

Lemma dlseg_frame h h' pv l nx :
  (∀ q, q ∈ l → links h' q = links h q) → dlseg h pv l nx → dlseg h' pv l nx.
Proof.
  revert pv. induction l as [|p l IH]; intros pv Hl; simpl; [done|].
  intros [Hp Hs]. split; [|apply IH; set_solver].
  rewrite Hl; [done|set_solver].
Qed.

Lemma dlseg_lookup h pv l nx p : dlseg h pv l nx → p ∈ l → ∃ n, h !! p = Some n.
Proof.
  revert pv. induction l as [|q l IH]; intros pv; simpl; [set_solver|].
  intros [Hq Hs] [->|Hin]%elem_of_cons; [|eauto].
  unfold links in Hq. destruct (h !! q); naive_solver.
Qed.

(** Appending a node after the current last one. *)
Lemma dlseg_snoc h h' l p :
  p ∉ l → NoDup l → dlseg h None l None →
  links h' p = Some (last l, None) →
  (∀ q, q ∈ l → last l ≠ Some q → links h' q = links h q) →
  (∀ q pq, last l = Some q → links h q = Some (pq, None) → links h' q = Some (pq, Some p)) →
  dlseg h' None (l ++ [p]) None.
Proof.
  intros Hp Hnd Hs Hlp Hother Hlast.
  destruct l as [|a l _] using rev_ind; [by simpl; rewrite Hlp|].
  rewrite last_snoc in *. apply NoDup_app in Hnd as (Hnd & Hdis & _).
  apply dlseg_app in Hs as [Hs1 [Hsa _]]. rewrite dlseg_app, dlseg_app. simpl.
  rewrite last_or_snoc. split_and!; [|eapply Hlast; eauto|done|by rewrite Hlp|done].
  eapply dlseg_frame; [|apply Hs1]. intros q Hq. apply Hother; [set_solver|].
  intros [= ->]. apply (Hdis q Hq). set_solver.
Qed.

(** Unlinking the node [p] from the middle of a list. *)
Lemma dlseg_unlink h h' l1 p l2 :
  NoDup (l1 ++ p :: l2) → dlseg h None (l1 ++ p :: l2) None →
  (∀ q, q ∈ l1 → last l1 ≠ Some q → links h' q = links h q) →
  (∀ q pq nq, last l1 = Some q → links h q = Some (pq, nq) → links h' q = Some (pq, head l2)) →
  (∀ q, q ∈ l2 → head l2 ≠ Some q → links h' q = links h q) →
  (∀ q pq nq, head l2 = Some q → links h q = Some (pq, nq) → links h' q = Some (last l1, nq)) →
  dlseg h' None (l1 ++ l2) None.
Proof.
  intros Hnd Hs H1 H1' H2 H2'.
  apply dlseg_app in Hs as [Hs1 [_ Hs2]]. simpl in Hs2.
  apply NoDup_app in Hnd as (Hnd1 & _ & [_ Hnd2]%NoDup_cons).
  rewrite dlseg_app, hd_or_None. split.
  - destruct l1 as [|a l1 _] using rev_ind; [done|].
    rewrite last_snoc in *. apply NoDup_app in Hnd1 as (_ & Hdis & _).
    apply dlseg_app in Hs1 as [Hs1 [Hsa _]]. rewrite dlseg_app. simpl. split_and!; [| |done].
    + eapply dlseg_frame; [|apply Hs1]. intros q Hq. apply H1; [set_solver|].
      intros [= ->]. apply (Hdis q Hq). set_solver.
    + eapply H1'; eauto.
  - destruct l2 as [|b l2]; [done|]. simpl in *. destruct Hs2 as [Hsb Hs2].
    rewrite last_or_None. apply NoDup_cons in Hnd2 as [Hb _]. split.
    + eapply H2'; eauto.
    + eapply dlseg_frame; [|apply Hs2]. intros q Hq. apply H2; [set_solver|].
      intros [= ->]. done.
Qed.

(** * The shape *)

(** Everything in a node but its links and its list flag. *)
Definition payload (n : cc__fiber_wait_node) :=
  (fiber n, wait_ticket n, data n, notified n, select_group n, select_index n, is_select n).
(** Everything in the channel's fields but the two queues. *)
Definition ch_rest (c : chan_waiters) :=
  (recv_signal_hint c, has_send_waiters c, has_recv_waiters c, recv_wake_inflight c,
   thread_recv_waiters c, fast_path_ok c, recv_signal c, rv_recv_waiters c).

Definition is_queue (q : waiter_queue) (h : gmap ptr cc__fiber_wait_node) l : Prop :=
  wq_head q = head l ∧ wq_tail q = last l ∧ dlseg h None l None.

Definition batch_ok (b : wake_batch) : Prop :=
  length (wb_fibers b) = WAKE_BATCH_SIZE ∧ length (wb_attribs b) = WAKE_BATCH_SIZE ∧
  wb_count b ≤ WAKE_BATCH_SIZE ∧
  ∀ i, i < wb_count b → ∃ f, wb_fibers b !! i = Some (Some f).

(** Both queues are well-formed doubly-linked lists of distinct nodes, no node
    is on both, [in_wait_list] is membership, linked nodes carry a valid wait
    ticket and every group pointer points to a group. *)
Record wq_shape s ls : Prop := {
  sh_queue : ∀ sd, is_queue (q_of sd s) (nodes s) (ls sd);
  sh_nodup : ∀ sd, NoDup (ls sd);
  sh_disj : ∀ sd sd' p, p ∈ ls sd → p ∈ ls sd' → sd = sd';
  sh_flag : ∀ p n, nodes s !! p = Some n → in_wait_list n = true ↔ ∃ sd, p ∈ ls sd;
  sh_ticket : ∀ sd p n, p ∈ ls sd → nodes s !! p = Some n →
    cc__chan_waiter_ticket_valid n s = true;
  sh_groups : ∀ p n g, nodes s !! p = Some n → select_group n = Some g →
    is_Some (groups s !! g);
  sh_batch : batch_ok (batch s) }.

(** [relink s s']: only links, list flags and the two queue heads differ. *)
Record relink s s' : Prop := {
  re_payload : ∀ p, payload <$> nodes s' !! p = payload <$> nodes s !! p;
  re_rest : ch_rest (ch s') = ch_rest (ch s);
  re_tickets : tickets s' = tickets s;
  re_groups : groups s' = groups s;
  re_mem : mem s' = mem s;
  re_batch : batch s' = batch s;
  re_sel : g_select_waiters s' = g_select_waiters s;
  re_log : log s' = log s }.

(** * Lemmas *)

Lemma wp_load p n (Q : cc__fiber_wait_node → wstate → Prop) s :
  nodes s !! p = Some n → Q n s → wp (load p) Q s.
Proof. intros Hn HQ. exists n, s. split; [|done]. unfold load. by rewrite Hn. Qed.
Lemma wp_store p n f (Q : unit → wstate → Prop) s :
  nodes s !! p = Some n → Q tt (s <| nodes := <[p := f n]> (nodes s) |>) → wp (store p f) Q s.
Proof. intros Hn HQ. eexists _, _. split; [|exact HQ]. unfold store. by rewrite Hn. Qed.
Lemma wp_load_group g x (Q : cc__select_wait_group → wstate → Prop) s :
  groups s !! g = Some x → Q x s → wp (load_group g) Q s.
Proof. intros Hn HQ. exists x, s. split; [|done]. unfold load_group. by rewrite Hn. Qed.
Lemma wp_store_group g x f (Q : unit → wstate → Prop) s :
  groups s !! g = Some x → Q tt (s <| groups := <[g := f x]> (groups s) |>) → wp (store_group g f) Q s.
Proof. intros Hn HQ. eexists _, _. split; [|exact HQ]. unfold store_group. by rewrite Hn. Qed.

Lemma links_insert h p n q :
  links (<[p := n]> h) q = if decide (p = q) then Some (prev n, next n) else links h q.
Proof. unfold links. rewrite lookup_insert. by case_decide. Qed.
Lemma links_Some h p x : links h p = Some x → ∃ n, h !! p = Some n ∧ prev n = x.1 ∧ next n = x.2.
Proof. unfold links. destruct (h !! p) as [n|]; simpl; intros [= <-]; eauto. Qed.
Lemma links_lookup h p n : h !! p = Some n → links h p = Some (prev n, next n).
Proof. unfold links. by intros ->. Qed.

#[export] Instance relink_refl : Reflexive relink.
Proof. by intros s. Qed.
#[export] Instance relink_trans : Transitive relink.
Proof. intros s1 s2 s3 [] []. split; try congruence. Qed.

Lemma ticket_valid_payload n n' s s' :
  payload n' = payload n → tickets s' = tickets s →
  cc__chan_waiter_ticket_valid n' s' = cc__chan_waiter_ticket_valid n s.
Proof.
  unfold payload, cc__chan_waiter_ticket_valid, cc__fiber_wait_ticket_matches.
  by intros [= -> -> _ _ _ _ _] ->.
Qed.

Lemma re_lookup s s' p n' : relink s s' → nodes s' !! p = Some n' →
  ∃ n, nodes s !! p = Some n ∧ payload n' = payload n.
Proof.
  intros Hre Hp. pose proof (re_payload _ _ Hre p) as Hpl. rewrite Hp in Hpl. simpl in Hpl.
  destruct (nodes s !! p) as [n|] eqn:E; simpl in Hpl; [|done].
  exists n. split; [done|]. congruence.
Qed.

(** A relinking whose queues are the lists [ls'] (a sublist of the old ones, so
    tickets stay valid) restores the shape. *)
Lemma relink_shape s s' ls ls' :
  wq_shape s ls → relink s s' →
  (∀ sd, is_queue (q_of sd s') (nodes s') (ls' sd)) →
  (∀ sd, sublist (ls' sd) (ls sd)) →
  (∀ p n, nodes s' !! p = Some n → in_wait_list n = true ↔ ∃ sd, p ∈ ls' sd) →
  wq_shape s' ls'.
Proof.
  intros Hsh Hre Hq Hsub Hfl.
  assert (Hin : ∀ sd p, p ∈ ls' sd → p ∈ ls sd).
  { intros sd p. apply (sublist_subseteq _ _ (Hsub sd)). }
  split; [done| | |done| | |].
  - intros sd. eapply sublist_NoDup; [apply Hsh|apply Hsub].
  - intros sd sd' p ??. eapply (sh_disj _ _ Hsh); eauto.
  - intros sd p n' Hp Hn'. destruct (re_lookup _ _ _ _ Hre Hn') as (n & Hn & Hpl).
    rewrite (ticket_valid_payload n n' s s'); [|done|apply Hre].
    eapply (sh_ticket _ _ Hsh); eauto.
  - intros p n' g Hn' Hg. destruct (re_lookup _ _ _ _ Hre Hn') as (n & Hn & Hpl).
    rewrite (re_groups _ _ Hre). eapply (sh_groups _ _ Hsh); [eauto|].
    unfold payload in Hpl. congruence.
  - rewrite (re_batch _ _ Hre). apply Hsh.
Qed.

(** Queue updates as a function on states. *)
Definition upd_q (sd : side) (f : waiter_queue → waiter_queue) s : wstate :=
  s <| ch ::= λ c, match sd with
                   | SendQ => c <| send_waiters ::= f |>
                   | RecvQ => c <| recv_waiters ::= f |>
                   end |>.
Lemma q_of_upd_q sd sd' f s :
  q_of sd' (upd_q sd f s) = if decide (sd = sd') then f (q_of sd s) else q_of sd' s.
Proof. by destruct sd, sd'. Qed.
Lemma q_of_nodes sd s h : q_of sd (s <| nodes := h |>) = q_of sd s.
Proof. by destruct sd. Qed.
Lemma nodes_upd_q sd f s : nodes (upd_q sd f s) = nodes s.
Proof. done. Qed.
Lemma wq_ext w hd tl : wq_head w = hd → wq_tail w = tl → w = WaiterQueue hd tl.
Proof. destruct w. by intros <- <-. Qed.
Lemma relink_upd_q sd f s : relink s (upd_q sd f s).
Proof. by destruct sd. Qed.
Lemma wp_set_head sd o (Q : unit → wstate → Prop) s :
  Q tt (upd_q sd (λ w, w <| wq_head := o |>) s) → wp (set_head sd o) Q s.
Proof. intros HQ. eexists _, _. split; [reflexivity|]. by destruct sd. Qed.
Lemma wp_set_tail sd o (Q : unit → wstate → Prop) s :
  Q tt (upd_q sd (λ w, w <| wq_tail := o |>) s) → wp (set_tail sd o) Q s.
Proof. intros HQ. eexists _, _. split; [reflexivity|]. by destruct sd. Qed.

(** A store that keeps the payload is a relinking. *)
Lemma relink_store s p n n' :
  nodes s !! p = Some n → payload n' = payload n →
  relink s (s <| nodes := <[p := n']> (nodes s) |>).
Proof.
  intros Hn Hpl. split; try done. intros q. simpl. rewrite lookup_insert.
  case_decide; [subst; rewrite Hn; simpl; by f_equal|done].
Qed.

(** What the two unlinking routines have in common. *)
Lemma shape_unlink sd p l1 l2 s s' ls :
  wq_shape s ls → ls sd = l1 ++ p :: l2 → relink s s' →
  q_of sd s' = {| wq_head := head (l1 ++ l2); wq_tail := last (l1 ++ l2) |} →
  (∀ sd', sd' ≠ sd → q_of sd' s' = q_of sd' s) →
  (∀ q, q ≠ p → last l1 ≠ Some q → head l2 ≠ Some q → links (nodes s') q = links (nodes s) q) →
  (∀ q pq nq, last l1 = Some q → links (nodes s) q = Some (pq, nq) →
     links (nodes s') q = Some (pq, head l2)) →
  (∀ q pq nq, head l2 = Some q → links (nodes s) q = Some (pq, nq) →
     links (nodes s') q = Some (last l1, nq)) →
  (∀ q, q ≠ p → in_wait_list <$> nodes s' !! q = in_wait_list <$> nodes s !! q) →
  in_wait_list <$> nodes s' !! p = Some false →
  wq_shape s' (<[sd := l1 ++ l2]> ls).
Proof.
  intros Hsh Hls Hre Hq Hq' Hl1 Hl2 Hl3 Hfl Hflp.
  pose proof (sh_nodup _ _ Hsh sd) as Hnd. rewrite Hls in Hnd.
  assert (Hdisj : ∀ q, q ∈ l1 → q ∈ p :: l2 → False).
  { intros q Hx Hy. apply NoDup_app in Hnd as (_ & Hd & _). by eapply Hd. }
  assert (Hp1 : p ∉ l1 ++ l2).
  { apply NoDup_app in Hnd as (_ & Hd & [Hp _]%NoDup_cons). intros [?|?]%elem_of_app; [|done].
    eapply Hd; [done|set_solver]. }
  assert (Hhl : ∀ q, last l1 = Some q → q ∈ l1) by (intros; by apply last_Some_elem_of).
  assert (Hhh : ∀ q, head l2 = Some q → q ∈ l2) by (intros; by apply head_Some_elem_of).
  apply (relink_shape s s' ls); [done|done| | |].
  - intros sd'. destruct (decide (sd' = sd)) as [->|Hne].
    + rewrite fn_lookup_insert, Hq. split; [done|split; [done|]]. simpl.
      destruct (sh_queue _ _ Hsh sd) as (_ & _ & Hseg). rewrite Hls in Hseg.
      apply (dlseg_unlink (nodes s) (nodes s') l1 p l2); try done.
      * intros q Hq1 Hlast. apply Hl1; [set_solver|done|].
        intros Hh. apply (Hdisj q); [done|]. apply Hhh in Hh. set_solver.
      * intros q Hq2 Hh. apply Hl1; [set_solver| |done].
        intros Hla. apply Hhl in Hla. apply (Hdisj q); set_solver.
    + rewrite fn_lookup_insert_ne by done. rewrite Hq' by done.
      destruct (sh_queue _ _ Hsh sd') as (H1 & H2 & Hseg). split; [done|split; [done|]].
      eapply dlseg_frame; [|done]. intros q Hin.
      assert (Hno : q ∉ l1 ++ p :: l2).
      { rewrite <- Hls. intros ?. apply Hne. eapply (sh_disj _ _ Hsh); eauto. }
      apply Hl1; [set_solver| |]; intros Hx; [apply Hhl in Hx|apply Hhh in Hx]; set_solver.
  - intros sd'. destruct (decide (sd' = sd)) as [->|Hne].
    + rewrite fn_lookup_insert, Hls. apply sublist_app; [done|]. by apply sublist_cons.
    + by rewrite fn_lookup_insert_ne.
  - intros q n' Hn'. destruct (decide (q = p)) as [->|Hqp].
    + rewrite Hn' in Hflp. simpl in Hflp. injection Hflp as ->. split; [done|].
      intros [sd' Hin]. exfalso. destruct (decide (sd' = sd)) as [->|Hne].
      * by rewrite fn_lookup_insert in Hin.
      * rewrite fn_lookup_insert_ne in Hin by done. apply Hne.
        eapply (sh_disj _ _ Hsh); [done|]. rewrite Hls. set_solver.
    + pose proof (Hfl q Hqp) as Hf. rewrite Hn' in Hf. simpl in Hf.
      destruct (nodes s !! q) as [n|] eqn:E; [|done]. simpl in Hf. injection Hf as ->.
      rewrite (sh_flag _ _ Hsh q n E). split; intros [sd' Hin]; exists sd'.
      * destruct (decide (sd' = sd)) as [->|Hne]; [|by rewrite fn_lookup_insert_ne].
        rewrite fn_lookup_insert. rewrite Hls in Hin. clear -Hin Hqp. set_solver.
      * destruct (decide (sd' = sd)) as [->|Hne]; [|by rewrite fn_lookup_insert_ne in Hin].
        rewrite fn_lookup_insert in Hin. rewrite Hls. clear -Hin. set_solver.
Qed.

(** Goals about the memory after a sequence of stores. *)
Ltac node_cases :=
  repeat match goal with
  | |- context [<[?a := _]> _ !! ?b] => rewrite (lookup_insert _ a b); case_decide; simplify_eq/=
  | |- context [links (<[?a := _]> _) ?b] => rewrite (links_insert _ a _ b); case_decide; simplify_eq/=
  end.
Ltac solve_relink :=
  split; try (intros ?; simpl; node_cases; simplify_option_eq; done);
  try (match goal with sd : side |- _ => by destruct sd end).

Lemma head_unlink l1 l2 p :
  head (l1 ++ l2) = match last l1 with Some _ => head (l1 ++ p :: l2) | None => head l2 end.
Proof.
  destruct (last l1) eqn:E; [|by apply last_None in E as ->].
  destruct l1; [done|reflexivity].
Qed.
Lemma last_unlink l1 l2 p :
  last (l1 ++ l2) = match head l2 with Some _ => last (l1 ++ p :: l2) | None => last l1 end.
Proof. destruct l2; simpl; [by rewrite app_nil_r|]. by rewrite !last_app. Qed.

(** Closes an unlinking proof once the final memory is known. *)
Ltac finish_unlink sd p l1 l2 s :=
  match goal with |- wq_shape ?s' _ ∧ _ => assert (relink s s') by solve_relink end;
  split; [|done]; apply (shape_unlink sd p l1 l2 s);
  [done|done|done
  | apply wq_ext; [rewrite (head_unlink _ _ p)|rewrite (last_unlink _ _ p)];
    destruct sd; simpl in *; simplify_option_eq; congruence
  | intros sd' ?; by destruct sd, sd'
  | simpl; intros q ???; node_cases; congruence
  | simpl; intros q pq nq ? Hlq; simplify_eq; node_cases; simplify_map_eq;
    unfold links in Hlq; simplify_option_eq; congruence
  | simpl; intros q pq nq ? Hlq; simplify_eq; node_cases; simplify_map_eq;
    unfold links in Hlq; simplify_option_eq; congruence
  | simpl; intros q ?; node_cases; by simplify_map_eq
  | simpl; by node_cases].

(** Unlinking the head of a queue. *)
Lemma unlink_head_spec sd p l s ls :
  wq_shape s ls → ls sd = p :: l →
  wp (unlink_head sd p) (λ _ s', wq_shape s' (<[sd := l]> ls) ∧ relink s s') s.
Proof.
  intros Hsh Hls.
  destruct (sh_queue _ _ Hsh sd) as (Hhd & Htl & Hseg). rewrite Hls in *.
  destruct Hseg as [Hp Hseg]. apply links_Some in Hp as (n & Hn & Hpv & Hnx). simpl in *.
  assert (Hpl : p ∉ l) by (pose proof (sh_nodup _ _ Hsh sd) as H; rewrite Hls in H; by apply NoDup_cons in H as []).
  unfold unlink_head. wp_step. eapply wp_load; [done|]. cbv beta.
  wp_step. apply wp_set_head. wp_step. wp_step. rewrite q_of_upd_q, decide_True by done. simpl.
  rewrite Hnx, hd_or_None.
  destruct l as [|b l]; simpl.
  - wp_step. apply wp_set_tail.
    wp_step. eapply wp_store; [done|]. simpl.
    eapply wp_store; [by simplify_map_eq|]. simpl.
    finish_unlink sd p (@nil ptr) (@nil ptr) s.
  - destruct Hseg as [Hb Hseg]. apply links_Some in Hb as (m & Hm & Hbpv & Hbnx). simpl in *.
    assert (b ≠ p) by set_solver.
    wp_step. eapply wp_store; [done|]. simpl.
    wp_step. eapply wp_store; [by simplify_map_eq|]. simpl.
    eapply wp_store; [by simplify_map_eq|]. simpl.
    finish_unlink sd p (@nil ptr) (b :: l) s.
Qed.

(** Unlinking a node from anywhere in its queue. *)
Lemma remove_waiter_list_spec sd p l1 l2 s ls :
  wq_shape s ls → ls sd = l1 ++ p :: l2 →
  wp (cc__chan_remove_waiter_list sd p)
    (λ _ s', wq_shape s' (<[sd := l1 ++ l2]> ls) ∧ relink s s') s.
Proof.
  intros Hsh Hls.
  destruct (sh_queue _ _ Hsh sd) as (Hhd & Htl & Hseg). rewrite Hls in *.
  pose proof (sh_nodup _ _ Hsh sd) as Hnd. rewrite Hls in Hnd.
  apply dlseg_app in Hseg as [Hseg1 [Hp Hseg2]]. simpl in Hseg1, Hseg2.
  apply links_Some in Hp as (n & Hn & Hpv & Hnx). simpl in Hpv, Hnx.
  rewrite last_or_None in Hpv. rewrite hd_or_None in Hnx.
  assert (Hlast : ∀ a, last l1 = Some a → a ≠ p ∧ head l2 ≠ Some a ∧ ∃ m, nodes s !! a = Some m).
  { intros a Ha. apply last_Some_elem_of in Ha. apply NoDup_app in Hnd as (_ & Hd & _).
    split_and!; [intros ->; apply (Hd p); set_solver| |eapply dlseg_lookup; [apply Hseg1|done]].
    intros Hb%head_Some_elem_of. apply (Hd a); set_solver. }
  assert (Hhead : ∀ b, head l2 = Some b → b ≠ p ∧ ∃ m, nodes s !! b = Some m).
  { intros b Hb. apply head_Some_elem_of in Hb. apply NoDup_app in Hnd as (_ & _ & [? ?]%NoDup_cons).
    split; [by intros ->|eapply dlseg_lookup; [apply Hseg2|done]]. }
  unfold cc__chan_remove_waiter_list. wp_step. eapply wp_load; [done|]. cbv beta.
  rewrite Hpv.
  destruct (last l1) as [a|] eqn:Ela.
  - destruct (Hlast a eq_refl) as (? & ? & m & Hm).
    wp_step. eapply wp_store; [done|]. simpl. wp_step. eapply wp_load; [by simplify_map_eq|]. simpl.
    rewrite Hnx, Hpv.
    destruct (head l2) as [b|] eqn:Eh2.
    + destruct (Hhead b eq_refl) as (? & m' & Hm'). assert (b ≠ a) by congruence.
      wp_step. eapply wp_store; [by simplify_map_eq|]. simpl.
      wp_step. eapply wp_store; [by simplify_map_eq|]. simpl.
      eapply wp_store; [by simplify_map_eq|]. simpl.
      finish_unlink sd p l1 l2 s.
    + wp_step. apply wp_set_tail.
      wp_step. eapply wp_store; [by simplify_map_eq|]. simpl.
      eapply wp_store; [by simplify_map_eq|]. simpl.
      finish_unlink sd p l1 l2 s.
  - wp_step. apply wp_set_head. wp_step. eapply wp_load; [done|]. simpl.
    rewrite Hnx, Hpv.
    destruct (head l2) as [b|] eqn:Eh2.
    + destruct (Hhead b eq_refl) as (? & m' & Hm').
      wp_step. eapply wp_store; [by simplify_map_eq|]. simpl.
      wp_step. eapply wp_store; [by simplify_map_eq|]. simpl.
      eapply wp_store; [by simplify_map_eq|]. simpl.
      finish_unlink sd p l1 l2 s.
    + wp_step. apply wp_set_tail.
      wp_step. eapply wp_store; [by simplify_map_eq|]. simpl.
      eapply wp_store; [by simplify_map_eq|]. simpl.
      finish_unlink sd p l1 l2 s.
Qed.

(** Steps that leave the links alone keep the shape. *)
Lemma shape_unlinked s s' ls :
  wq_shape s ls →
  (∀ q, links (nodes s') q = links (nodes s) q) →
  (∀ q, in_wait_list <$> nodes s' !! q = in_wait_list <$> nodes s !! q) →
  (∀ sd, q_of sd s' = q_of sd s) →
  (∀ sd q n', q ∈ ls sd → nodes s' !! q = Some n' → cc__chan_waiter_ticket_valid n' s' = true) →
  (∀ q n' g, nodes s' !! q = Some n' → select_group n' = Some g → is_Some (groups s' !! g)) →
  batch_ok (batch s') →
  wq_shape s' ls.
Proof.
  intros Hsh Hl Hf Hq Ht Hg Hb. split; try done.
  - intros sd. rewrite Hq. destruct (sh_queue _ _ Hsh sd) as (? & ? & ?).
    split_and!; try done. eapply dlseg_frame; [|done]. auto.
  - apply Hsh.
  - apply Hsh.
  - intros p n' Hn'. pose proof (Hf p) as Hfp. rewrite Hn' in Hfp.
    destruct (nodes s !! p) as [n|] eqn:E; [|done]. simpl in Hfp. injection Hfp as ->.
    by apply (sh_flag _ _ Hsh).
Qed.

(** [enlist p s s']: [p] was linked and may have got a fresh wait ticket; no
    other node's payload, no notification and nothing else changed. *)
Record enlist p s s' : Prop := {
  en_payload : ∀ q, q ≠ p → payload <$> nodes s' !! q = payload <$> nodes s !! q;
  en_notified : ∀ q, notified <$> nodes s' !! q = notified <$> nodes s !! q;
  en_rest : ch_rest (ch s') = ch_rest (ch s);
  en_groups : groups s' = groups s;
  en_mem : mem s' = mem s;
  en_batch : batch s' = batch s;
  en_sel : g_select_waiters s' = g_select_waiters s;
  en_log : log s' = log s }.

(** What [cc__chan_add_waiter] needs of the node: it is on no list, its group
    exists, and publishing its ticket revokes no other linked node: either
    it already carries the fiber's current ticket, or no linked node belongs
    to the same fiber. *)
Definition can_enlist p n s ls : Prop :=
  nodes s !! p = Some n ∧ (∀ sd, p ∉ ls sd) ∧
  match fiber n with
  | None => True
  | Some f =>
      if decide (wait_ticket n = 0%Z)
      then ∀ sd q m, q ∈ ls sd → nodes s !! q = Some m → fiber m ≠ Some f
      else cc__chan_waiter_ticket_valid n s = true
  end.

Lemma ticket_valid_other n n' f t s s' :
  payload n' = payload n → tickets s' = <[f := t]> (tickets s) → fiber n ≠ Some f →
  cc__chan_waiter_ticket_valid n' s' = cc__chan_waiter_ticket_valid n s.
Proof.
  unfold payload, cc__chan_waiter_ticket_valid, cc__fiber_wait_ticket_matches.
  intros [= -> -> _ _ _ _ _] -> Hf. destruct (fiber n) as [f'|]; [|done].
  rewrite lookup_insert_ne; [done|congruence].
Qed.

(** The ticket step of [cc__chan_add_waiter]. *)
Definition publish_for p n : W unit :=
  match fiber n with
  | Some f =>
      if decide (wait_ticket n = 0%Z) then
        t ← cc__fiber_publish_wait_ticket f;
        store p (λ n, n <| wait_ticket := t |>)
      else mret tt
  | None => mret tt
  end.

Lemma publish_for_spec p n s ls :
  wq_shape s ls → can_enlist p n s ls →
  wp (publish_for p n) (λ _ s', ∃ n', wq_shape s' ls ∧ enlist p s s' ∧
     nodes s' !! p = Some n' ∧ in_wait_list n' = in_wait_list n ∧
     cc__chan_waiter_ticket_valid n' s' = true) s.
Proof.
  intros Hsh (Hn & Hp & Hf). unfold publish_for.
  destruct (fiber n) as [f|] eqn:Ef; [case_decide as Ht|].
  2: { wp_step. exists n. split_and!; [done|done|done|done|]. done. }
  2: { wp_step. exists n. split_and!; try done.
       unfold cc__chan_waiter_ticket_valid. by rewrite Ef. }
  assert (Hst : ∀ t, let n' := n <| wait_ticket := t |> in ∀ s',
    s' = s <| nodes := <[p := n']> (nodes s) |> ∨
    s' = s <| tickets := <[f := t]> (tickets s) |> <| nodes := <[p := n']> (nodes s) |> →
    wq_shape s' ls ∧ enlist p s s').
  { intros t n' s' Hs'.
    assert (Hno : nodes s' = <[p := n']> (nodes s)) by (destruct Hs' as [-> | ->]; done).
    assert (Htk : tickets s' = tickets s ∨ tickets s' = <[f := t]> (tickets s))
      by (destruct Hs' as [-> | ->]; auto).
    split; [|destruct Hs' as [-> | ->]; split; try done; intros q; simpl; intros; node_cases; by rewrite ?Hn].
    apply (shape_unlinked s); rewrite ?Hno; try done.
    - intros q. node_cases; [|done]. by rewrite (links_lookup _ _ _ Hn).
    - intros q. node_cases; [|done]. by rewrite Hn.
    - intros sd. destruct Hs' as [-> | ->]; by destruct sd.
    - intros sd q m Hq Hm. assert (q ≠ p) by (intros ->; by apply (Hp sd)).
      simplify_map_eq. pose proof (sh_ticket _ _ Hsh sd q m Hq Hm) as Hv.
      destruct Htk as [Htk|Htk]; [by rewrite <- Hv; apply ticket_valid_payload|].
      rewrite <- Hv. eapply ticket_valid_other; eauto.
    - intros q m g Hm Hg. replace (groups s') with (groups s) by (destruct Hs' as [-> | ->]; done).
      destruct (decide (q = p)) as [->|]; simplify_map_eq; eapply (sh_groups _ _ Hsh); eauto.
    - destruct Hs' as [-> | ->]; apply Hsh. }
  wp_step. unfold cc__fiber_publish_wait_ticket, wp.
  destruct (tickets s !! f) as [t|] eqn:Etk; (eexists _, _; split; [reflexivity|]);
    (eapply wp_store; [done|]); simpl; eexists; rewrite lookup_insert_eq.
  - edestruct Hst as [??]; [by right|]. split_and!; try done.
    unfold cc__chan_waiter_ticket_valid, cc__fiber_wait_ticket_matches. simpl. rewrite Ef.
    case_decide; [done|]. rewrite lookup_insert_eq. by apply bool_decide_eq_true.
  - edestruct Hst as [??]; [by left|]. split_and!; try done.
    unfold cc__chan_waiter_ticket_valid. simpl. by rewrite Ef.
Qed.

#[export] Instance enlist_refl p : Reflexive (enlist p).
Proof. by intros s. Qed.
#[export] Instance enlist_trans p : Transitive (enlist p).
Proof.
  intros s1 s2 s3 H12 H23. split; intros; (etrans; [by apply H23|by apply H12]).
Qed.
Lemma relink_enlist p s s' : relink s s' → enlist p s s'.
Proof.
  intros []. split; try done. intros q. pose proof (re_payload0 q) as Hq.
  destruct (nodes s' !! q), (nodes s !! q); simplify_eq/=; try done.
  unfold payload in Hq. congruence.
Qed.

(** A node linked after the last one. *)
Lemma shape_snoc sd p n' s s' ls :
  wq_shape s ls → (∀ sd, p ∉ ls sd) → relink s s' →
  q_of sd s' = {| wq_head := head (ls sd ++ [p]); wq_tail := Some p |} →
  (∀ sd', sd' ≠ sd → q_of sd' s' = q_of sd' s) →
  nodes s' !! p = Some n' → in_wait_list n' = true → prev n' = last (ls sd) → next n' = None →
  (∀ q, q ≠ p → last (ls sd) ≠ Some q → links (nodes s') q = links (nodes s) q) →
  (∀ q pq, last (ls sd) = Some q → links (nodes s) q = Some (pq, None) →
     links (nodes s') q = Some (pq, Some p)) →
  (∀ q, q ≠ p → in_wait_list <$> nodes s' !! q = in_wait_list <$> nodes s !! q) →
  cc__chan_waiter_ticket_valid n' s' = true →
  wq_shape s' (<[sd := ls sd ++ [p]]> ls).
Proof.
  intros Hsh Hp Hre Hq Hq' Hn' Hflag Hpv Hnx Hl1 Hl2 Hfl Hval.
  assert (Hin : ∀ sd' q, q ∈ (<[sd := ls sd ++ [p]]> ls) sd' ↔ q ∈ ls sd' ∨ (sd' = sd ∧ q = p)).
  { intros sd' q. destruct (decide (sd' = sd)) as [->|?].
    - rewrite fn_lookup_insert, elem_of_app, list_elem_of_singleton. naive_solver.
    - rewrite fn_lookup_insert_ne by done. naive_solver. }
  split.
  - intros sd'. destruct (decide (sd' = sd)) as [->|Hne].
    + rewrite fn_lookup_insert, Hq. split_and!; [done|by rewrite last_snoc|].
      destruct (sh_queue _ _ Hsh sd) as (_ & _ & Hseg).
      apply (dlseg_snoc (nodes s)); try done; [apply Hsh| |].
      * by rewrite (links_lookup _ _ _ Hn'), Hpv, Hnx.
      * intros q Hqin Hla. apply Hl1; [|done]. intros ->. by apply (Hp sd).
    + rewrite fn_lookup_insert_ne by done. rewrite Hq' by done.
      destruct (sh_queue _ _ Hsh sd') as (? & ? & Hseg). split_and!; try done.
      eapply dlseg_frame; [|done]. intros q Hqin. apply Hl1.
      * intros ->. by apply (Hp sd').
      * intros Hla%last_Some_elem_of. apply Hne. eapply (sh_disj _ _ Hsh); eauto.
  - intros sd'. destruct (decide (sd' = sd)) as [->|Hne].
    + rewrite fn_lookup_insert. apply NoDup_app. split_and!; [apply Hsh| |apply NoDup_singleton].
      intros q Hqin ->%list_elem_of_singleton. by apply (Hp sd).
    + rewrite fn_lookup_insert_ne by done. apply Hsh.
  - intros sd1 sd2 q [H1|[? ->]]%Hin [H2|[? ?]]%Hin; subst; try done.
    + eapply (sh_disj _ _ Hsh); eauto.
    + by destruct (Hp sd1).
    + by destruct (Hp sd2).
  - intros q m Hm. setoid_rewrite Hin. destruct (decide (q = p)) as [->|Hqp].
    + simplify_eq. rewrite Hflag. split; [|done]. intros _. exists sd. auto.
    + pose proof (Hfl q Hqp) as Hf. rewrite Hm in Hf. simpl in Hf.
      destruct (nodes s !! q) as [m0|] eqn:E; [|done]. simpl in Hf. injection Hf as ->.
      rewrite (sh_flag _ _ Hsh q m0 E). naive_solver.
  - intros sd' q m [Hqin|[-> ->]]%Hin Hm; [|by simplify_eq].
    destruct (re_lookup _ _ _ _ Hre Hm) as (m0 & Hm0 & Hpl).
    rewrite (ticket_valid_payload m0 m s s'); [|done|apply Hre]. by eapply (sh_ticket _ _ Hsh).
  - intros q m g Hm Hg. destruct (re_lookup _ _ _ _ Hre Hm) as (m0 & Hm0 & Hpl).
    rewrite (re_groups _ _ Hre). eapply (sh_groups _ _ Hsh); [eauto|]. unfold payload in Hpl. congruence.
  - rewrite (re_batch _ _ Hre). apply Hsh.
Qed.

Lemma add_waiter_spec sd p n s ls :
  wq_shape s ls → can_enlist p n s ls →
  wp (cc__chan_add_waiter sd p)
    (λ _ s', wq_shape s' (<[sd := ls sd ++ [p]]> ls) ∧ enlist p s s') s.
Proof.
  intros Hsh Hcan. pose proof Hcan as (Hn & Hp & _).
  unfold cc__chan_add_waiter. wp_step. eapply wp_load; [done|]. cbv beta.
  wp_step. eapply wp_mono; [by apply (publish_for_spec p n s ls)|].
  intros _ s1 (n1 & Hsh1 & Hen & Hn1 & Hf1 & Hv1). cbv beta.
  wp_step. eapply wp_store; [done|]. simpl. wp_step. wp_step.
  destruct (sh_queue _ _ Hsh1 sd) as (Hhd & Htl & Hseg).
  rewrite (q_of_nodes sd s1), Htl.
  wp_step. eapply wp_store; [by simplify_map_eq|]. simpl.
  destruct (last (ls sd)) as [t|] eqn:El.
  - assert (t ≠ p) by (intros ->; apply last_Some_elem_of in El; by apply (Hp sd)).
    destruct (dlseg_lookup _ _ _ _ t Hseg) as [m Hm]; [by apply last_Some_elem_of|].
    wp_step. eapply wp_store; [by simplify_map_eq|]. simpl. wp_step. apply wp_set_tail.
    eapply wp_store; [by simplify_map_eq|]. simpl.
    match goal with |- wq_shape ?s' _ ∧ _ => assert (Hre : relink s1 s') by solve_relink end.
    split; [|by etrans; [|by apply relink_enlist]].
    eapply (shape_snoc sd p _ s1); [done|done|done| | |by simplify_map_eq|done| | | | | |].
    + apply wq_ext; [|by destruct sd]. rewrite head_app.
      destruct (ls sd) eqn:Els; [done|]. simpl. transitivity (wq_head (q_of sd s1)); [by destruct sd|done].
    + intros sd' ?. by destruct sd, sd'.
    + done.
    + done.
    + simpl. intros q ??. node_cases; congruence.
    + simpl. intros q pq ? Hlq. simplify_eq. node_cases. rewrite (links_lookup _ _ _ Hm) in Hlq. congruence.
    + simpl. intros q ?. node_cases; by simplify_map_eq.
    + rewrite <- Hv1. by apply ticket_valid_payload.
  - wp_step. apply wp_set_head. wp_step. apply wp_set_tail.
    eapply wp_store; [by simplify_map_eq|]. simpl.
    match goal with |- wq_shape ?s' _ ∧ _ => assert (Hre : relink s1 s') by solve_relink end.
    split; [|by etrans; [|by apply relink_enlist]].
    pose proof El as El'. apply last_None in El'.
    eapply (shape_snoc sd p _ s1); [done|done|done| | |by simplify_map_eq|done| | | | | |].
    + apply wq_ext; [|by destruct sd]. rewrite El'. by destruct sd.
    + intros sd' ?. by destruct sd, sd'.
    + done.
    + done.
    + simpl. intros q ??. node_cases; congruence.
    + simpl. intros q pq ? Hlq. congruence.
    + simpl. intros q ?. node_cases; by simplify_map_eq.
    + rewrite <- Hv1. by apply ticket_valid_payload.
Qed.
