(* ===== verification/WaitQuiet.v ===== *)
(** The parts of the waiter code that never touch the lists: the wake batch,
    select arbitration and the signals.  Each is shown to be [quiet], and
    the fibers it schedules are accounted for. *)
From S2P Require Import Prelude ChanTypes WaitList WaitShape.

Implicit Types (s : wstate) (p q f : ptr).

(** * Definitions *)

(** The fibers a log has woken, in order. *)
Definition wakes (l : list event) : list ptr :=
  omap (λ e, match e with EvWake f _ => Some f | _ => None end) l.
(** The fibers waiting in the batch, in order. *)
Definition pending (b : wake_batch) : list ptr := omap id (take (wb_count b) (wb_fibers b)).
(** Every fiber scheduled so far: those already woken, then those pending. *)
Definition scheduled s : list ptr := wakes (log s) ++ pending (batch s).

(** [quiet s s']: nodes, channel fields, tickets and buffers are untouched,
    a select group never loses its winner, and the batch stays in bounds. *)
Record quiet s s' : Prop := {
  qt_nodes : nodes s' = nodes s;
  qt_ch : ch s' = ch s;
  qt_tickets : tickets s' = tickets s;
  qt_mem : mem s' = mem s;
  qt_sel : g_select_waiters s' = g_select_waiters s;
  qt_groups : ∀ g x, groups s !! g = Some x → ∃ x', groups s' !! g = Some x' ∧
    (selected_index x ≠ (-1)%Z → selected_index x' = selected_index x);
  qt_batch : batch_ok (batch s) → batch_ok (batch s') }.

(** No select group changes its winner. *)
Definition sel_eq s s' : Prop :=
  ∀ g, selected_index <$> groups s' !! g = selected_index <$> groups s !! g.
#[export] Instance sel_eq_refl : Reflexive sel_eq.
Proof. by intros s g. Qed.
#[export] Instance sel_eq_trans : Transitive sel_eq.
Proof. intros s1 s2 s3 H12 H23 g. by rewrite H23, H12. Qed.

#[export] Instance quiet_refl : Reflexive quiet.
Proof. intros s. split; eauto. Qed.
#[export] Instance quiet_trans : Transitive quiet.
Proof.
  intros s1 s2 s3 H12 H23. split.
  1-5: (etrans; [apply H23|apply H12]).
  - intros g x Hg. destruct (qt_groups _ _ H12 g x Hg) as (x' & Hx' & Hs).
    destruct (qt_groups _ _ H23 g x' Hx') as (x'' & Hx'' & Hs'). exists x''.
    split; [done|]. intros Hne. rewrite Hs'; [auto|]. rewrite Hs; auto.
  - intros. apply H23, H12. done.
Qed.

Lemma quiet_shape s s' ls : quiet s s' → wq_shape s ls → wq_shape s' ls.
Proof.
  intros Hq Hsh. apply (shape_unlinked s); try (by rewrite ?(qt_nodes _ _ Hq)); try done.
  - intros sd. unfold q_of. by rewrite (qt_ch _ _ Hq).
  - intros sd q n Hin Hn. rewrite (qt_nodes _ _ Hq) in Hn.
    rewrite <- (sh_ticket _ _ Hsh sd q n Hin Hn). apply ticket_valid_payload; [done|apply Hq].
  - intros q n g Hn Hg. rewrite (qt_nodes _ _ Hq) in Hn.
    destruct (sh_groups _ _ Hsh q n g Hn Hg) as [x Hx].
    destruct (qt_groups _ _ Hq g x Hx) as (x' & ? & _). eauto.
  - apply Hq, Hsh.
Qed.

Lemma wakes_app l l' : wakes (l ++ l') = wakes l ++ wakes l'.
Proof. apply omap_app. Qed.

(** ** The wake batch *)

Lemma wake_batch_flush_from_spec todo i s :
  length (wb_fibers (batch s)) = WAKE_BATCH_SIZE → i + todo ≤ WAKE_BATCH_SIZE →
  (∀ j, i ≤ j < i + todo → ∃ f, wb_fibers (batch s) !! j = Some (Some f)) →
  wp (wake_batch_flush_from todo i) (λ _ s',
    nodes s' = nodes s ∧ ch s' = ch s ∧ tickets s' = tickets s ∧ mem s' = mem s ∧
    g_select_waiters s' = g_select_waiters s ∧ groups s' = groups s ∧
    length (wb_fibers (batch s')) = length (wb_fibers (batch s)) ∧
    length (wb_attribs (batch s')) = length (wb_attribs (batch s)) ∧
    wb_count (batch s') = wb_count (batch s) ∧
    wakes (log s') = wakes (log s) ++ omap id (take todo (drop i (wb_fibers (batch s))))) s.
Proof.
  revert i s. induction todo as [|todo IH]; intros i s Hlen Hi Hall; simpl.
  { wp_step. by rewrite app_nil_r. }
  destruct (Hall i) as [f Hf]; [lia|].
  wp_step. wp_step. rewrite Hf. wp_step. unfold emit. wp_step. wp_step. wp_step.
  eapply wp_mono; [apply IH; simpl|].
  - by rewrite length_insert.
  - lia.
  - intros j Hj. rewrite list_lookup_insert_ne by lia. apply Hall. lia.
  - simpl. intros _ s'. rewrite !length_insert. rewrite wakes_app.
    intros (-> & -> & -> & -> & -> & -> & -> & -> & -> & ->). split_and!; try done.
    rewrite <- app_assoc. f_equal. simpl. rewrite (drop_S _ _ _ Hf). simpl. f_equal.
    by rewrite drop_insert_lt by lia.
Qed.

Lemma wake_batch_flush_spec s :
  batch_ok (batch s) →
  wp wake_batch_flush (λ _ s', quiet s s' ∧ sel_eq s s' ∧ wb_count (batch s') = 0 ∧
    wakes (log s') = scheduled s ∧ scheduled s' = scheduled s) s.
Proof.
  intros (Hlf & Hla & Hc & Hall). unfold wake_batch_flush. wp_step. wp_step. wp_step.
  eapply wp_mono; [apply wake_batch_flush_from_spec; [done|simpl; lia|intros; apply Hall; lia]|].
  simpl. intros _ s' (Hn & Hch & Ht & Hm & Hs & Hg & Hlf' & Hla' & Hc' & Hw). wp_step.
  assert (Hw' : wakes (log s') = scheduled s) by (rewrite Hw; by rewrite drop_0).
  split_and!; [| |done|done|].
  - split; simpl; try done; [rewrite Hg; eauto|]. intros _. split_and!; simpl; try lia.
  - intros g. simpl. by rewrite Hg.
  - unfold scheduled at 1, pending. simpl. by rewrite app_nil_r.
Qed.

Definition option_list (o : option ptr) : list ptr := match o with Some f => [f] | None => [] end.

Lemma batch_push f s b' :
  batch_ok (batch s) → wb_count (batch s) < WAKE_BATCH_SIZE →
  wb_fibers b' = <[wb_count (batch s) := Some f]> (wb_fibers (batch s)) →
  length (wb_attribs b') = length (wb_attribs (batch s)) →
  wb_count b' = S (wb_count (batch s)) →
  batch_ok b' ∧ pending b' = pending (batch s) ++ [f].
Proof.
  intros (Hlf & Hla & _ & Hall) Hc Hf Ha Hn. split.
  - split_and!; rewrite ?Hf, ?length_insert, ?Ha, ?Hn; [done|done|lia|].
    intros i Hi. destruct (decide (i = wb_count (batch s))) as [->|].
    + exists f. apply list_lookup_insert_eq. lia.
    + rewrite list_lookup_insert_ne by done. apply Hall. lia.
  - unfold pending. rewrite Hn, Hf.
    rewrite (take_S_r _ _ (Some f)) by (apply list_lookup_insert_eq; lia).
    rewrite take_insert_ge by lia. by rewrite omap_app.
Qed.

Lemma wake_batch_add_spec o s :
  batch_ok (batch s) →
  wp (wake_batch_add o) (λ _ s', quiet s s' ∧ sel_eq s s' ∧ scheduled s' = scheduled s ++ option_list o) s.
Proof.
  intros Hb. destruct o as [f|]; simpl; [|wp_step; by rewrite app_nil_r].
  wp_step. wp_step. wp_step.
  assert (Hk : ∀ s1, quiet s s1 → sel_eq s s1 → scheduled s1 = scheduled s →
    wb_count (batch s1) < WAKE_BATCH_SIZE →
    wp (modify (λ s, s <| batch ::= λ b,
                b <| wb_fibers ::= <[wb_count b := Some f]> |> <| wb_count ::= S |> |>))
       (λ _ s', quiet s s' ∧ sel_eq s s' ∧ scheduled s' = scheduled s ++ [f]) s1).
  { intros s1 Hq1 Hse1 Hs1 Hc1. wp_step.
    destruct (batch_push f s1 ((batch s1) <| wb_fibers ::= <[wb_count (batch s1) := Some f]> |>
      <| wb_count ::= S |>)) as [Hb' Hp']; try done; [by apply Hq1|].
    split_and!.
    - etrans; [done|]. split; simpl; try done; eauto.
    - etrans; [done|]. by intros g.
    - unfold scheduled in *. simpl. rewrite Hp', app_assoc. by rewrite Hs1. }
  apply wp_when; intros Hc; [apply bool_decide_eq_true in Hc|apply bool_decide_eq_false in Hc].
  - eapply wp_mono; [by apply wake_batch_flush_spec|]. intros _ s1 (Hq & Hse & H0 & _ & Hs).
    apply Hk; [done|done|done|]. rewrite H0. unfold WAKE_BATCH_SIZE. lia.
  - apply Hk; [done|done|done|lia].
Qed.

Lemma wake_batch_add_chan_spec o s :
  batch_ok (batch s) →
  wp (wake_batch_add_chan o) (λ _ s', quiet s s' ∧ sel_eq s s' ∧ scheduled s' = scheduled s ++ option_list o) s.
Proof.
  intros Hb. destruct o as [f|]; simpl; [|wp_step; by rewrite app_nil_r].
  wp_step. wp_step. wp_step.
  assert (Hk : ∀ s1, quiet s s1 → sel_eq s s1 → scheduled s1 = scheduled s →
    wb_count (batch s1) < WAKE_BATCH_SIZE →
    wp (modify (λ s, s <| batch ::= λ b,
                b <| wb_fibers ::= <[wb_count b := Some f]> |>
                  <| wb_attribs ::= <[wb_count b := cc__chan_wake_sched_attrib s]> |>
                  <| wb_count ::= S |> |>))
       (λ _ s', quiet s s' ∧ sel_eq s s' ∧ scheduled s' = scheduled s ++ [f]) s1).
  { intros s1 Hq1 Hse1 Hs1 Hc1. wp_step.
    destruct (batch_push f s1 ((batch s1) <| wb_fibers ::= <[wb_count (batch s1) := Some f]> |>
      <| wb_attribs ::= <[wb_count (batch s1) := cc__chan_wake_sched_attrib s1]> |>
      <| wb_count ::= S |>)) as [Hb' Hp']; try done; [by apply Hq1|by simpl; rewrite length_insert|].
    split_and!.
    - etrans; [done|]. split; simpl; try done; eauto.
    - etrans; [done|]. by intros g.
    - unfold scheduled in *. simpl. rewrite Hp', app_assoc. by rewrite Hs1. }
  apply wp_when; intros Hc; [apply bool_decide_eq_true in Hc|apply bool_decide_eq_false in Hc].
  - eapply wp_mono; [by apply wake_batch_flush_spec|]. intros _ s1 (Hq & Hse & H0 & _ & Hs).
    apply Hk; [done|done|done|]. rewrite H0. unfold WAKE_BATCH_SIZE. lia.
  - apply Hk; [done|done|done|lia].
Qed.

(** ** Select groups *)

Lemma store_group_quiet g x y s (Q : unit → wstate → Prop) (k : cc__select_wait_group → cc__select_wait_group) :
  groups s !! g = Some x → k x = y →
  (selected_index x ≠ (-1)%Z → selected_index y = selected_index x) →
  (∀ s', quiet s s' → scheduled s' = scheduled s → groups s' = <[g := y]> (groups s) → Q tt s') →
  wp (store_group g k) Q s.
Proof.
  intros Hg Hk Hsel HQ. eapply wp_store_group; [done|]. rewrite Hk. apply HQ; try done.
  split; simpl; try done. intros g' x' Hx'. destruct (decide (g = g')) as [<-|].
  - rewrite Hg in Hx'. injection Hx' as <-. exists y. by rewrite lookup_insert_eq.
  - rewrite lookup_insert_ne by done. eauto.
Qed.

(** The group a node arbitrates with, if it is a select node. *)
Definition node_group (n : cc__fiber_wait_node) : option ptr :=
  if is_select n then select_group n else None.
(** Whether the node may still win, or has won, its select. *)
Definition may_win (n : cc__fiber_wait_node) s : bool :=
  match node_group n with
  | None => true
  | Some g => match groups s !! g with
              | None => false
              | Some x => bool_decide (selected_index x = cast_int (select_index n))
                          || bool_decide (selected_index x = (-1)%Z)
              end
  end.
Definition has_won (n : cc__fiber_wait_node) s : Prop :=
  ∀ g, node_group n = Some g →
    ∃ x, groups s !! g = Some x ∧ selected_index x = cast_int (select_index n).

Lemma cast_int_range z : (- 2 ^ 31 ≤ cast_int z < 2 ^ 31)%Z.
Proof. unfold cast_int. pose proof (Z.mod_pos_bound (z + 2 ^ 31) (2 ^ 32)). lia. Qed.
Lemma cast_int_small z : (0 ≤ z < 2 ^ 31)%Z → cast_int z = z.
Proof. intros. unfold cast_int. rewrite Z.mod_small; lia. Qed.

Lemma select_try_win_spec p n s ls :
  wq_shape s ls → nodes s !! p = Some n →
  wp (cc__chan_select_try_win p) (λ b s', quiet s s' ∧ scheduled s' = scheduled s ∧
    b = may_win n s ∧ (b = true → has_won n s') ∧ (b = false → s' = s)) s.
Proof.
  intros Hsh Hn. unfold cc__chan_select_try_win. wp_step. eapply wp_load; [done|]. cbv beta.
  unfold may_win, has_won, node_group.
  destruct (is_select n) eqn:Es, (select_group n) as [g|] eqn:Eg; try (wp_step; naive_solver).
  destruct (sh_groups _ _ Hsh p n g Hn Eg) as [x Hx].
  unfold cc__wait_select_try_win. wp_step. eapply wp_load_group; [done|]. cbv beta zeta.
  rewrite Hx. case_decide as Hsel.
  { wp_step. split_and!; try done; [by rewrite bool_decide_eq_true_2 by done|]. naive_solver. }
  rewrite (bool_decide_eq_false_2 (_ = cast_int _)) by done. simpl.
  case_decide as Hm1; [|by wp_step; rewrite bool_decide_eq_false_2 by done].
  rewrite bool_decide_eq_true_2 by done.
  unfold cas_selected. wp_step. eapply wp_load_group; [done|]. cbv beta.
  rewrite decide_True by done. wp_step.
  eapply store_group_quiet; [done|reflexivity|done|]. intros s' Hq Hsc Hg'. wp_step.
  split_and!; try done. intros _ g' [= <-]. rewrite Hg', lookup_insert_eq. eauto.
Qed.

Lemma bump_signaled_spec p n s ls :
  wq_shape s ls → nodes s !! p = Some n →
  wp (bump_signaled p) (λ _ s', quiet s s' ∧ sel_eq s s' ∧ scheduled s' = scheduled s) s.
Proof.
  intros Hsh Hn. unfold bump_signaled. wp_step. eapply wp_load; [done|]. cbv beta.
  destruct (is_select n) eqn:Es, (select_group n) as [g|] eqn:Eg; try (wp_step; done).
  destruct (sh_groups _ _ Hsh p n g Hn Eg) as [x Hx].
  eapply store_group_quiet; [done|reflexivity|done|]. intros s' Hq Hs Hg.
  split_and!; [done| |done]. intros g'. rewrite Hg, lookup_insert.
  case_decide; [subst; by rewrite Hx|done].
Qed.

(** ** Writing a notification *)

Lemma store_notified_shape p n k s ls :
  nodes s !! p = Some n → wq_shape s ls →
  wq_shape (s <| nodes := <[p := n <| notified := k |>]> (nodes s) |>) ls.
Proof.
  intros Hn Hsh. apply (shape_unlinked s); simpl; try done; try apply Hsh.
  - intros q. node_cases; [|done]. by rewrite (links_lookup _ _ _ Hn).
  - intros q. node_cases; [|done]. by rewrite Hn.
  - intros sd q m Hin Hm. destruct (decide (p = q)) as [->|]; simplify_map_eq;
      rewrite <- (sh_ticket _ _ Hsh sd q _ Hin ltac:(done));
      unfold cc__chan_waiter_ticket_valid, cc__fiber_wait_ticket_matches; done.
  - intros q m g Hm Hg. destruct (decide (p = q)) as [->|]; simplify_map_eq; by eapply (sh_groups _ _ Hsh).
Qed.

(** [notifies p n k s s']: node [p] was [n], it now carries the notification
    [k] and its fiber is scheduled; nothing else the lists depend on moved. *)
Record notifies p n k s s' : Prop := {
  nt_node : nodes s !! p = Some n;
  nt_quiet : quiet (s <| nodes := <[p := n <| notified := k |>]> (nodes s) |>) s';
  nt_sel : sel_eq s s';
  nt_sched : scheduled s' = scheduled s ++ option_list (fiber n) }.

(** The three statements every wake ends with: store the notification, count
    it in the select group, hand the fiber to the wake batch. *)
Lemma notify_wake_spec (add : option ptr → W unit) p n k s ls :
  (∀ o s, batch_ok (batch s) →
     wp (add o) (λ _ s', quiet s s' ∧ sel_eq s s' ∧ scheduled s' = scheduled s ++ option_list o) s) →
  wq_shape s ls → nodes s !! p = Some n →
  wp (store p (λ n, n <| notified := k |>);; bump_signaled p;; add (fiber n))
     (λ _ s', notifies p n k s s' ∧ wq_shape s' ls) s.
Proof.
  intros Hadd Hsh Hn. wp_step. eapply wp_store; [done|]. cbv beta.
  pose proof (store_notified_shape p n k s ls Hn Hsh) as Hsh1.
  wp_step. eapply wp_mono; [eapply bump_signaled_spec; [done|by simplify_map_eq]|].
  intros _ s2 (Hq2 & Hse2 & Hs2). pose proof (quiet_shape _ _ _ Hq2 Hsh1) as Hsh2.
  eapply wp_mono; [apply Hadd, Hsh2|]. intros _ s3 (Hq3 & Hse3 & Hs3). split.
  - split; [done|by etrans|by etrans; [|etrans]|]. rewrite Hs3, Hs2. done.
  - by eapply quiet_shape.
Qed.

Lemma select_cancel_spec p n s ls :
  wq_shape s ls → nodes s !! p = Some n → cc__chan_waiter_ticket_valid n s = true →
  wp (cc__chan_select_cancel_node p)
     (λ _ s', notifies p n NOTIFY_CANCEL s s' ∧ wq_shape s' ls) s.
Proof.
  intros Hsh Hn Hv. unfold cc__chan_select_cancel_node. wp_step. eapply wp_load; [done|]. cbv beta.
  wp_step. wp_step. rewrite Hv. simpl.
  wp_step. eapply wp_store; [done|]. cbv beta.
  pose proof (store_notified_shape p n NOTIFY_CANCEL s ls Hn Hsh) as Hsh1.
  wp_step. eapply wp_mono; [eapply bump_signaled_spec; [done|by simplify_map_eq]|].
  intros _ s2 (Hq2 & Hse2 & Hs2). pose proof (quiet_shape _ _ _ Hq2 Hsh1) as Hsh2. cbv beta.
  wp_step. eapply wp_load; [rewrite (qt_nodes _ _ Hq2); by simplify_map_eq|]. simpl.
  eapply wp_mono; [apply wake_batch_add_spec, Hsh2|]. intros _ s3 (Hq3 & Hse3 & Hs3). split.
  - split; [done|by etrans|by etrans; [|etrans]|]. rewrite Hs3, Hs2. done.
  - by eapply quiet_shape.
Qed.
