(* ===== verification/WaitInv.v ===== *)
(** The full invariant of the waiter lists (shape, counters, signal hint, the
    send-waiter flag) and the specifications of the operations that keep it. *)
From S2P Require Import Prelude ChanTypes WaitList WaitShape WaitQuiet.

Implicit Types (s : wstate) (p q f : ptr) (l : list ptr) (ls : side → list ptr) (k : notify).

(** * Definitions *)

Definition st s p : option notify := notified <$> nodes s !! p.
(** How many of the nodes [l] carry the notification [k]. *)
Definition cnt k s l : nat := length (filter (λ p, st s p = Some k) l).

(** [has_recv_waiters] counts the linked receivers that are still waiting,
    [recv_wake_inflight] those signaled and not yet gone, the signal hint is a
    linked receiver whenever there is one, and [has_send_waiters] is set
    whenever a linked sender is still waiting. *)
Record wq_inv s ls : Prop := {
  inv_shape : wq_shape s ls;
  inv_count : has_recv_waiters (ch s) = Z.of_nat (cnt NOTIFY_NONE s (ls RecvQ));
  inv_inflight : recv_wake_inflight (ch s) = Z.of_nat (cnt NOTIFY_SIGNAL s (ls RecvQ));
  inv_hint : match recv_signal_hint (ch s) with
             | None => ls RecvQ = []
             | Some p => p ∈ ls RecvQ
             end;
  inv_send : (∃ p, p ∈ ls SendQ ∧ st s p = Some NOTIFY_NONE) → has_send_waiters (ch s) ≠ 0%Z }.

(** Two states that agree on everything but the channel's fields. *)
Record ch_only s s' : Prop := {
  co_nodes : nodes s' = nodes s;
  co_groups : groups s' = groups s;
  co_tickets : tickets s' = tickets s;
  co_mem : mem s' = mem s;
  co_batch : batch s' = batch s;
  co_sel : g_select_waiters s' = g_select_waiters s;
  co_log : log s' = log s }.

(** * Lemmas on counting *)

Lemma cnt_ext k s s' l : (∀ q, q ∈ l → st s' q = st s q) → cnt k s' l = cnt k s l.
Proof.
  intros Hst. unfold cnt. f_equal. induction l as [|q l IH]; [done|].
  rewrite !filter_cons, Hst by set_solver. rewrite IH by set_solver. done.
Qed.
Lemma cnt_app k s l1 l2 : cnt k s (l1 ++ l2) = cnt k s l1 + cnt k s l2.
Proof. unfold cnt. by rewrite filter_app, length_app. Qed.
Lemma cnt_cons k s p l :
  cnt k s (p :: l) = (if decide (st s p = Some k) then 1 else 0) + cnt k s l.
Proof. unfold cnt. rewrite filter_cons. by case_decide. Qed.
Lemma cnt_unlink k s p l1 l2 :
  cnt k s (l1 ++ p :: l2) = (if decide (st s p = Some k) then 1 else 0) + cnt k s (l1 ++ l2).
Proof. rewrite !cnt_app, cnt_cons. lia. Qed.

Lemma dec_clamp_S n : dec_clamp (Z.of_nat (1 + n)) = Z.of_nat n.
Proof. unfold dec_clamp. case_decide; lia. Qed.

(** * Specifications *)

#[export] Instance ch_only_refl : Reflexive ch_only.
Proof. by intros s. Qed.
#[export] Instance ch_only_trans : Transitive ch_only.
Proof. intros s1 s2 s3 H12 H23. split; (etrans; [apply H23|apply H12]). Qed.

Lemma ch_only_st s s' q : ch_only s s' → st s' q = st s q.
Proof. intros H. unfold st. by rewrite (co_nodes _ _ H). Qed.
Lemma ch_only_scheduled s s' : ch_only s s' → scheduled s' = scheduled s.
Proof. intros H. unfold scheduled. by rewrite (co_log _ _ H), (co_batch _ _ H). Qed.
Lemma quiet_st s s' q : quiet s s' → st s' q = st s q.
Proof. intros H. unfold st. by rewrite (qt_nodes _ _ H). Qed.
Lemma relink_st s s' q : relink s s' → st s' q = st s q.
Proof.
  intros H. unfold st. pose proof (re_payload _ _ H q) as Hq.
  destruct (nodes s' !! q), (nodes s !! q); simplify_eq/=; try done.
  unfold payload in Hq. congruence.
Qed.

Lemma shape_ch s s' ls :
  ch_only s s' → (∀ sd, q_of sd s' = q_of sd s) → wq_shape s ls → wq_shape s' ls.
Proof.
  intros Hco Hq Hsh. apply (shape_unlinked s); rewrite ?(co_nodes _ _ Hco), ?(co_batch _ _ Hco),
    ?(co_groups _ _ Hco); try done; try apply Hsh.
  intros sd q n Hin Hn. rewrite <- (sh_ticket _ _ Hsh sd q n Hin Hn).
  apply ticket_valid_payload; [done|apply Hco].
Qed.

Lemma quiet_inv s s' ls : quiet s s' → wq_inv s ls → wq_inv s' ls.
Proof.
  intros Hq [Hsh Hc Hi Hh Hs]. split.
  - by eapply quiet_shape.
  - rewrite (qt_ch _ _ Hq), Hc. f_equal. symmetry. apply cnt_ext. intros. by apply quiet_st.
  - rewrite (qt_ch _ _ Hq), Hi. f_equal. symmetry. apply cnt_ext. intros. by apply quiet_st.
  - by rewrite (qt_ch _ _ Hq).
  - intros (q & Hin & Hq'). rewrite (qt_ch _ _ Hq). apply Hs. exists q. by rewrite (quiet_st _ _ _ Hq) in Hq'.
Qed.

(** The accounting every receiver-unlinking path does after the unlink. *)
Definition settle (k : notify) : W unit :=
  match k with
  | NOTIFY_NONE => cc__chan_recv_waiter_count_dec
  | NOTIFY_SIGNAL => cc__chan_recv_wake_inflight_dec
  | _ => mret tt
  end.

Definition settle_ch k (c : chan_waiters) : chan_waiters :=
  match k with
  | NOTIFY_NONE => c <| has_recv_waiters ::= dec_clamp |>
  | NOTIFY_SIGNAL => c <| recv_wake_inflight ::= dec_clamp |>
  | _ => c
  end.
Definition advance_ch p (nxt : option ptr) (c : chan_waiters) : chan_waiters :=
  let hd := wq_head (recv_waiters c) in
  let h := if decide (recv_signal_hint c = Some p)
           then match nxt with Some _ => nxt | None => hd end else recv_signal_hint c in
  c <| recv_signal_hint := if is_none hd then None else if is_none h then hd else h |>.

Lemma settle_eq k s (Q : unit → wstate → Prop) : Q tt (s <| ch := settle_ch k (ch s) |>) → wp (settle k) Q s.
Proof.
  intros HQ. destruct k; simpl; try apply wp_modify; try apply wp_ret; try done.
  all: by destruct s.
Qed.
Lemma hint_advance_eq p nxt s (Q : unit → wstate → Prop) :
  Q tt (s <| ch := advance_ch p nxt (ch s) |>) → wp (cc__chan_recv_signal_hint_advance p nxt) Q s.
Proof.
  intros HQ. unfold cc__chan_recv_signal_hint_advance. wp_go.
  destruct s as [[sw rw h] ?]. revert HQ. unfold advance_ch; simpl.
  destruct (decide (h = Some p)) as [->|]; intros HQ.
  - apply wp_modify. wp_step. wp_step. simpl.
    destruct (wq_head rw), nxt; simpl in *; try apply wp_modify; try apply wp_ret; exact HQ.
  - apply wp_ret. wp_step. wp_step. simpl.
    destruct (wq_head rw), h; simpl in *; try apply wp_modify; try apply wp_ret; exact HQ.
Qed.

Lemma advance_ch_hint c l1 p l2 :
  wq_head (recv_waiters c) = head (l1 ++ l2) →
  (match recv_signal_hint c with None => False | Some q => q ∈ l1 ++ p :: l2 end) →
  match recv_signal_hint (advance_ch p (head l2) c) with
  | None => l1 ++ l2 = []
  | Some q => q ∈ l1 ++ l2
  end.
Proof.
  intros Hhd Hh. unfold advance_ch. simpl. rewrite Hhd.
  destruct (recv_signal_hint c) as [h|]; [|done].
  destruct (head (l1 ++ l2)) as [a|] eqn:Ea; simpl; [|by apply head_None in Ea].
  apply head_Some_elem_of in Ea. case_decide as Hhp.
  - destruct (head l2) as [b|] eqn:Eb; simpl; [|done]. apply head_Some_elem_of in Eb. set_solver.
  - simpl. assert (h ≠ p) by congruence. set_solver.
Qed.
Lemma settle_ch_rest k c :
  recv_signal_hint (settle_ch k c) = recv_signal_hint c ∧
  recv_waiters (settle_ch k c) = recv_waiters c ∧ send_waiters (settle_ch k c) = send_waiters c ∧
  has_send_waiters (settle_ch k c) = has_send_waiters c.
Proof. by destruct k. Qed.

(** Unlinking a receiver and settling its accounts. *)
Lemma recv_settle_inv s0 s1 s2 ls l1 p l2 n :
  wq_inv s0 ls → ls RecvQ = l1 ++ p :: l2 → nodes s0 !! p = Some n →
  wq_shape s1 (<[RecvQ := l1 ++ l2]> ls) →
  (∀ q, q ≠ p → st s1 q = st s0 q) → ch_rest (ch s1) = ch_rest (ch s0) →
  s2 = s1 <| ch := advance_ch p (head l2) (settle_ch (notified n) (ch s1)) |> →
  wq_inv s2 (<[RecvQ := l1 ++ l2]> ls) ∧ ch_only s1 s2.
Proof.
  intros Hinv Hls Hn Hsh1 Hst Hrest ->.
  match goal with |- _ ∧ ch_only _ ?s => set (s2 := s) end.
  assert (Hco : ch_only s1 s2) by done. split; [|done].
  assert (Hsh2 : wq_shape s2 (<[RecvQ := l1 ++ l2]> ls)).
  { apply (shape_ch s1); try done. intros []; simpl; by destruct (notified n). }
  pose proof (sh_nodup _ _ (inv_shape _ _ Hinv) RecvQ) as Hnd. rewrite Hls in Hnd.
  assert (Hp : p ∉ l1 ++ l2).
  { apply NoDup_app in Hnd as (_ & Hd & [Hp _]%NoDup_cons). intros [?|?]%elem_of_app; [|done].
    eapply Hd; [done|set_solver]. }
  assert (Hcnt : ∀ k, cnt k s2 (l1 ++ l2) = cnt k s0 (l1 ++ l2)).
  { intros k. apply cnt_ext. intros q Hq. rewrite (ch_only_st _ _ _ Hco). apply Hst. by intros ->. }
  assert (Hstp : st s0 p = Some (notified n)) by (unfold st; by rewrite Hn).
  pose proof (sh_queue _ _ Hsh1 RecvQ) as (Hhd & _ & _). rewrite fn_lookup_insert in Hhd. simpl in Hhd.
  destruct (ch s1) as [sw rw h hs hr wi tr fp sg rv] eqn:Ech. unfold ch_rest in Hrest. simpl in Hrest.
  injection Hrest as -> -> -> -> -> -> -> ->.
  pose proof (inv_count _ _ Hinv) as Hc. pose proof (inv_inflight _ _ Hinv) as Hi.
  rewrite Hls, cnt_unlink, Hstp in Hc, Hi.
  split; [done| | | |]; rewrite ?fn_lookup_insert.
  - rewrite Hcnt. subst s2. simpl. rewrite ?Ech. destruct (notified n); simpl in *; rewrite Hc;
      repeat case_decide; try done; apply dec_clamp_S.
  - rewrite Hcnt. subst s2. simpl. rewrite ?Ech. destruct (notified n); simpl in *; rewrite Hi;
      repeat case_decide; try done; apply dec_clamp_S.
  - apply advance_ch_hint; destruct (settle_ch_rest (notified n) (ch s1)) as (E1 & E2 & _ & _).
    + by rewrite <- Ech, E2, Ech.
    + rewrite <- Ech, E1, Ech. simpl. pose proof (inv_hint _ _ Hinv) as Hh. rewrite Hls in Hh.
      destruct (recv_signal_hint (ch s0)); [done|]. by destruct l1.
  - rewrite fn_lookup_insert_ne by done. intros (q & Hin & Hq).
    rewrite (ch_only_st _ _ _ Hco), Hst in Hq.
    + replace (has_send_waiters (ch s2)) with (has_send_waiters (ch s0)).
      * apply (inv_send _ _ Hinv). eauto.
      * subst s2. simpl. rewrite ?Ech. unfold advance_ch. by destruct (notified n).
    + intros ->. assert (SendQ = RecvQ); [|done].
      eapply (sh_disj _ _ (inv_shape _ _ Hinv)); [done|]. rewrite Hls. set_solver.
Qed.
