(* ===== verification/WaitOps.v ===== *)
(** Specifications of the channel's waiter operations against the invariant
    of [WaitInv]: adding, removing, popping, signaling and close-waking
    waiters, each on every branch. *)
From S2P Require Import Prelude ChanTypes WaitList WaitShape WaitQuiet WaitInv.

Implicit Types (s : wstate) (p q f : ptr) (l : list ptr) (ls : side → list ptr) (k : notify).

(** The loops run on at most as many nodes as there are in memory, which is
    the fuel they are given. *)
Lemma shape_fuel s ls sd : wq_shape s ls → length (ls sd) ≤ size (nodes s).
Proof.
  intros Hsh. destruct (sh_queue _ _ Hsh sd) as (_ & _ & Hseg).
  rewrite <- (size_list_to_set (C := gset ptr)) by apply Hsh.
  rewrite <- (size_dom (D := gset ptr)). apply subseteq_size. intros p.
  rewrite elem_of_list_to_set, elem_of_dom. intros Hp.
  destruct (dlseg_lookup _ _ _ _ p Hseg Hp) as [n Hn]. eauto.
Qed.

Lemma shape_lookup s ls sd p : wq_shape s ls → p ∈ ls sd → ∃ n, nodes s !! p = Some n.
Proof. intros Hsh. destruct (sh_queue _ _ Hsh sd) as (_ & _ & Hseg). by eapply dlseg_lookup. Qed.

Lemma shape_head s ls sd : wq_shape s ls → wq_head (q_of sd s) = head (ls sd).
Proof. intros Hsh. apply (sh_queue _ _ Hsh sd). Qed.

(** The [next] pointer of a linked node. *)
Lemma shape_next s ls sd l1 p l2 n :
  wq_shape s ls → ls sd = l1 ++ p :: l2 → nodes s !! p = Some n → next n = head l2.
Proof.
  intros Hsh Hls Hn. destruct (sh_queue _ _ Hsh sd) as (_ & _ & Hseg). rewrite Hls in Hseg.
  apply dlseg_app in Hseg as [_ [Hp _]]. rewrite (links_lookup _ _ _ Hn), hd_or_None in Hp. congruence.
Qed.

(** ** The send-waiter flag *)

Lemma has_wakeable_spec s pv l nx fuel :
  dlseg (nodes s) pv l None → nx = head l → length l ≤ fuel →
  wp (cc__chan_has_wakeable_waiter fuel nx)
     (λ b s', s' = s ∧ b = bool_decide (Exists (λ p, st s p = Some NOTIFY_NONE) l)) s.
Proof.
  revert pv nx fuel. induction l as [|p l IH]; intros pv nx fuel Hseg -> Hf; simpl.
  { destruct fuel; simpl; by wp_step. }
  destruct fuel as [|fuel]; simpl in *; [lia|]. destruct Hseg as [Hp Hseg].
  apply links_Some in Hp as (n & Hn & _ & Hnx). simpl in Hnx. rewrite hd_or_None in Hnx.
  wp_step. eapply wp_load; [done|]. cbv beta. unfold isNone.
  destruct (bool_decide_reflect (notified n = NOTIFY_NONE)) as [Hno|Hno].
  - wp_step. split; [done|]. symmetry. apply bool_decide_eq_true_2. constructor. unfold st. rewrite Hn. simpl. congruence.
  - eapply wp_mono; [eapply IH; [done|done|lia]|]. intros b s' [-> ->]. split; [done|].
    apply bool_decide_ext. rewrite Exists_cons. unfold st at 2. rewrite Hn. simpl. naive_solver.
Qed.

Lemma refresh_spec s ls :
  wq_shape s ls →
  wp cc__chan_refresh_has_send_waiters (λ _ s',
    s' = s <| ch ::= λ c, c <| has_send_waiters :=
      Z.b2z (bool_decide (Exists (λ p, st s p = Some NOTIFY_NONE) (ls SendQ))) |> |>) s.
Proof.
  intros Hsh. unfold cc__chan_refresh_has_send_waiters. wp_go.
  destruct (sh_queue _ _ Hsh SendQ) as (Hhd & _ & Hseg).
  eapply wp_mono; [eapply has_wakeable_spec; [done|done|by apply (shape_fuel s ls)]|].
  intros b s' [-> ->]. unfold upd_ch. by wp_step.
Qed.

(** ** Adding waiters *)

Lemma enlist_cnt p s s' k l : enlist p s s' → cnt k s' l = cnt k s l.
Proof. intros He. apply cnt_ext. intros q _. unfold st. apply He. Qed.

Lemma add_send_waiter_spec p n s ls :
  wq_inv s ls → can_enlist p n s ls →
  wp (cc__chan_add_send_waiter p) (λ _ s', wq_inv s' (<[SendQ := ls SendQ ++ [p]]> ls)) s.
Proof.
  intros [Hsh Hc Hi Hh Hs] Hcan. unfold cc__chan_add_send_waiter.
  wp_step. eapply wp_mono; [by eapply add_waiter_spec|]. intros _ s1 [Hsh1 He].
  unfold upd_ch. wp_step.
  pose proof (en_rest _ _ _ He) as Hr. unfold ch_rest in Hr. injection Hr as Rh Rs Rr Ri _ _ _ _.
  split; simpl.
  - apply (shape_ch s1); [done|by intros []|done].
  - rewrite fn_lookup_insert_ne by done. rewrite Rr, Hc. f_equal. symmetry. by eapply (enlist_cnt p s s1).
  - rewrite fn_lookup_insert_ne by done. rewrite Ri, Hi. f_equal. symmetry. by eapply (enlist_cnt p s s1).
  - rewrite fn_lookup_insert_ne by done. by rewrite Rh.
  - done.
Qed.

Lemma add_recv_waiter_spec p n s ls :
  wq_inv s ls → can_enlist p n s ls → notified n = NOTIFY_NONE →
  wp (cc__chan_add_recv_waiter p) (λ _ s', wq_inv s' (<[RecvQ := ls RecvQ ++ [p]]> ls)) s.
Proof.
  intros [Hsh Hc Hi Hh Hs] Hcan Hno. pose proof Hcan as (Hn & _ & _). unfold cc__chan_add_recv_waiter.
  wp_step. eapply wp_mono; [by eapply add_waiter_spec|]. intros _ s1 [Hsh1 He]. cbv beta.
  unfold cc__chan_recv_waiter_count_inc, upd_ch. wp_go. simpl.
  pose proof (en_rest _ _ _ He) as Hr. unfold ch_rest in Hr. injection Hr as Rh Rs Rr Ri _ _ _ _.
  assert (Hfin : ∀ s2 h, s2 = s1 <| ch ::= λ c, c <| has_recv_waiters ::= Z.succ |>
                                     <| recv_signal_hint := h |> |> →
    (∃ q, h = Some q ∧ q ∈ ls RecvQ ++ [p]) → wq_inv s2 (<[RecvQ := ls RecvQ ++ [p]]> ls)).
  { intros s2 h -> (q & -> & Hq).
    assert (Hstp : st s p = Some NOTIFY_NONE) by (unfold st; rewrite Hn; simpl; by rewrite Hno).
    assert (Hcnt : ∀ k, cnt k s1 (ls RecvQ ++ [p]) = cnt k s (ls RecvQ) + (if decide (k = NOTIFY_NONE) then 1 else 0)).
    { intros k. rewrite (enlist_cnt p s s1) by done. rewrite cnt_app. f_equal. rewrite cnt_cons, Hstp.
      unfold cnt. simpl. repeat case_decide; naive_solver. }
    split; simpl; rewrite ?fn_lookup_insert.
    - apply (shape_ch s1); [done|by intros []|done].
    - rewrite Rr, Hc. change (cnt NOTIFY_NONE _ (_ ++ _)) with (cnt NOTIFY_NONE s1 (ls RecvQ ++ [p])).
      rewrite Hcnt, decide_True by done. lia.
    - rewrite Ri, Hi. change (cnt NOTIFY_SIGNAL _ (_ ++ _)) with (cnt NOTIFY_SIGNAL s1 (ls RecvQ ++ [p])).
      rewrite Hcnt, decide_False by done. lia.
    - done.
    - rewrite fn_lookup_insert_ne by done. rewrite Rs. intros (q' & Hq' & Hst). apply Hs. exists q'.
      split; [done|]. rewrite <- Hst. unfold st. symmetry. apply (en_notified _ _ _ He). }
  rewrite Rh. destruct (recv_signal_hint (ch s)) as [h|] eqn:Eh; simpl.
  - wp_step. apply (Hfin _ (Some h)); [|exists h; split; [done|set_solver]].
    destruct s1 as [[] ?]. simpl in *. by rewrite Rh.
  - wp_step. apply (Hfin _ (Some p)); [by destruct s1|]. exists p. split; [done|set_solver].
Qed.

(** ** Removing waiters *)

(** The lists without the node [p]. *)
Definition drop_node p ls : side → list ptr := λ sd, filter (λ q, q ≠ p) (ls sd).

Lemma wq_shape_ext s ls ls' : (∀ sd, ls' sd = ls sd) → wq_shape s ls → wq_shape s ls'.
Proof.
  intros He [H1 H2 H3 H4 H5 H6 H7]. split; intros *; rewrite ?He; eauto.
  intros Hn. rewrite (H4 p n Hn). by setoid_rewrite He.
Qed.
Lemma wq_inv_ext s ls ls' : (∀ sd, ls' sd = ls sd) → wq_inv s ls → wq_inv s ls'.
Proof.
  intros He [H1 H2 H3 H4 H5]. split; rewrite ?He; try done. by eapply wq_shape_ext.
Qed.

Lemma filter_ne_notin p l : p ∉ l → filter (λ q, q ≠ p) l = l.
Proof.
  induction l as [|q l IH]; intros Hp; [done|]. rewrite filter_cons, decide_True by set_solver.
  f_equal. apply IH. set_solver.
Qed.
Lemma drop_node_split sd p l1 l2 s ls sd' :
  wq_shape s ls → ls sd = l1 ++ p :: l2 →
  drop_node p ls sd' = (<[sd := l1 ++ l2]> ls) sd'.
Proof.
  intros Hsh Hls. unfold drop_node. destruct (decide (sd' = sd)) as [->|Hne].
  - rewrite fn_lookup_insert, Hls. pose proof (sh_nodup _ _ Hsh sd) as Hnd. rewrite Hls in Hnd.
    apply NoDup_app in Hnd as (_ & Hd & [Hp _]%NoDup_cons).
    rewrite filter_app, filter_cons, decide_False by naive_solver.
    rewrite !filter_ne_notin; [done|done|]. intros Hin. apply (Hd p Hin). set_solver.
  - rewrite fn_lookup_insert_ne by done. apply filter_ne_notin. intros Hin.
    apply Hne. eapply (sh_disj _ _ Hsh); [done|]. rewrite Hls. set_solver.
Qed.
Lemma drop_node_notin p ls : (∀ sd, p ∉ ls sd) → ∀ sd, drop_node p ls sd = ls sd.
Proof. intros Hp sd. apply filter_ne_notin, Hp. Qed.

Lemma linked_flag s ls p n sd :
  wq_shape s ls → nodes s !! p = Some n → (∀ sd', sd' ≠ sd → p ∉ ls sd') →
  if in_wait_list n then ∃ l1 l2, ls sd = l1 ++ p :: l2 else ∀ sd', p ∉ ls sd'.
Proof.
  intros Hsh Hn Hoth. pose proof (sh_flag _ _ Hsh p n Hn) as Hf.
  destruct (in_wait_list n).
  - destruct (proj1 Hf eq_refl) as [sd' Hin]. apply list_elem_of_split.
    destruct (decide (sd' = sd)) as [->|Hne]; [done|]. by destruct (Hoth sd' Hne).
  - intros sd' Hin. assert (false = true); [|done]. apply Hf. eauto.
Qed.

Lemma remove_send_waiter_spec p n s ls :
  wq_inv s ls → nodes s !! p = Some n → p ∉ ls RecvQ →
  wp (cc__chan_remove_send_waiter p) (λ _ s', wq_inv s' (drop_node p ls)) s.
Proof.
  intros Hinv Hn Hp. pose proof (inv_shape _ _ Hinv) as Hsh. unfold cc__chan_remove_send_waiter.
  wp_step. eapply wp_load; [done|]. cbv beta.
  assert (Hoth : ∀ sd', sd' ≠ SendQ → p ∉ ls sd') by (intros [] Hsd; congruence).
  pose proof (linked_flag s ls p n SendQ Hsh Hn Hoth) as Hf.
  destruct (in_wait_list n); simpl.
  - destruct Hf as (l1 & l2 & Hls). wp_step.
    eapply wp_mono; [by eapply remove_waiter_list_spec|]. intros _ s1 [Hsh1 Hre]. cbv beta.
    eapply wp_mono; [by eapply refresh_spec|]. intros _ s2 ->.
    eapply (wq_inv_ext _ (<[SendQ := l1 ++ l2]> ls)); [intros; by eapply drop_node_split|].
    pose proof (re_rest _ _ Hre) as Hr. unfold ch_rest in Hr. injection Hr as Rh _ Rr Ri _ _ _ _.
    destruct Hinv as [_ Hc Hi Hh Hs].
    split; simpl; rewrite ?fn_lookup_insert, ?(fn_lookup_insert_ne _ SendQ RecvQ) by done.
    + apply (shape_ch s1); [done|by intros []|done].
    + rewrite Rr, Hc. f_equal. symmetry. apply cnt_ext. intros. by apply (relink_st s s1).
    + rewrite Ri, Hi. f_equal. symmetry. apply cnt_ext. intros. by apply (relink_st s s1).
    + by rewrite Rh.
    + intros (q & Hq & Hst). rewrite bool_decide_eq_true_2; [done|]. apply Exists_exists.
      exists q. split; [done|]. exact Hst.
  - unfold when. wp_step. wp_step. rewrite (shape_head s ls SendQ Hsh : wq_head (send_waiters (ch s)) = _).
    eapply wq_inv_ext in Hinv; [|by apply drop_node_notin].
    destruct (ls SendQ) as [|a l] eqn:Els; simpl; [|by wp_step].
    unfold upd_ch. wp_step. destruct Hinv as [Hsh' Hc Hi Hh Hs].
    split; simpl; try done; [by apply (shape_ch s); [done|intros []|]|].
    intros (q & Hq & _). unfold drop_node in Hq. rewrite Els in Hq. set_solver.
Qed.

Lemma remove_recv_waiter_spec p n s ls :
  wq_inv s ls → nodes s !! p = Some n → p ∉ ls SendQ →
  wp (cc__chan_remove_recv_waiter p) (λ _ s', wq_inv s' (drop_node p ls)) s.
Proof.
  intros Hinv Hn Hp. pose proof (inv_shape _ _ Hinv) as Hsh. unfold cc__chan_remove_recv_waiter.
  wp_step. eapply wp_load; [done|]. cbv beta.
  assert (Hoth : ∀ sd', sd' ≠ RecvQ → p ∉ ls sd') by (intros [] Hsd; congruence).
  pose proof (linked_flag s ls p n RecvQ Hsh Hn Hoth) as Hf.
  destruct (in_wait_list n); simpl.
  - destruct Hf as (l1 & l2 & Hls). rewrite (shape_next _ _ _ _ _ _ _ Hsh Hls Hn).
    wp_step. eapply wp_mono; [by eapply remove_waiter_list_spec|]. intros _ s1 [Hsh1 Hre]. cbv beta.
    wp_step. apply (settle_eq (notified n)). apply hint_advance_eq.
    eapply (wq_inv_ext _ (<[RecvQ := l1 ++ l2]> ls)); [intros; by eapply drop_node_split|].
    eapply (recv_settle_inv s s1); try done; [|apply Hre].
    intros. by apply (relink_st s s1).
  - unfold when. wp_step. wp_step. rewrite (shape_head s ls RecvQ Hsh : wq_head (recv_waiters (ch s)) = _).
    eapply wq_inv_ext in Hinv; [|by apply drop_node_notin].
    destruct (ls RecvQ) as [|a l] eqn:Els; simpl; [|by wp_step].
    unfold upd_ch. wp_step. destruct Hinv as [Hsh' Hc Hi Hh Hs].
    assert (Hd : drop_node p ls RecvQ = []) by (unfold drop_node; by rewrite Els).
    split; simpl; rewrite ?Hd in *; try done. by apply (shape_ch s); [done|intros []|].
Qed.
