(* ===== verification/WaitPop.v ===== *)
(** Popping and signaling waiters: which waiter an operation picks, what
    happens to the ones it passes over, and that the invariant of [WaitInv]
    is kept on every branch. *)
From S2P Require Import Prelude ChanTypes WaitList WaitShape WaitQuiet WaitInv WaitOps.

Implicit Types (s : wstate) (p q f : ptr) (l : list ptr) (ls : side → list ptr) (k : notify).

(** * Definitions *)

(** What identifies a waiter: everything but links and the notification. *)
Definition ident (n : cc__fiber_wait_node) :=
  (fiber n, wait_ticket n, data n, select_group n, select_index n, is_select n).

(** [evolve T s s']: between the two states only nodes of [T] may have been
    notified, no select group has lost its winner and no scheduled fiber was
    forgotten. *)
Record evolve l s s' : Prop := {
  ev_nodes : ∀ q n, nodes s !! q = Some n → ∃ n', nodes s' !! q = Some n' ∧
    ident n' = ident n ∧ (q ∉ l → notified n' = notified n);
  ev_groups : ∀ g x, groups s !! g = Some x → ∃ x', groups s' !! g = Some x' ∧
    (selected_index x ≠ (-1)%Z → selected_index x' = selected_index x);
  ev_tickets : tickets s' = tickets s;
  ev_mem : mem s' = mem s;
  ev_sched : scheduled s `prefix_of` scheduled s' }.

(** [canceled s s' q]: the select of [q] was won by another of its cases, so
    [q] was told [NOTIFY_CANCEL] and its fiber scheduled. *)
Definition canceled s s' q : Prop := ∃ n g x,
  nodes s !! q = Some n ∧ node_group n = Some g ∧ groups s' !! g = Some x ∧
  selected_index x ≠ (-1)%Z ∧ selected_index x ≠ cast_int (select_index n) ∧
  st s' q = Some NOTIFY_CANCEL ∧ (∀ f, fiber n = Some f → f ∈ scheduled s').

(** A waiter may be passed over only if it was notified before or has lost. *)
Definition passed s s' q : Prop :=
  (∃ k, st s q = Some k ∧ k ≠ NOTIFY_NONE) ∨ canceled s s' q.

(** A popped waiter is still waiting and owns its select. *)
Definition claimed s' p : Prop :=
  ∃ n', nodes s' !! p = Some n' ∧ notified n' = NOTIFY_NONE ∧ has_won n' s'.

(** The contract of a pop: it returns the first waiter of the queue that is
    neither already notified nor the loser of a select, and unlinks it and
    everything before it. *)
Definition pop_result sd s ls (o : option ptr) s' : Prop :=
  ∃ sk l, ls sd = sk ++ option_list o ++ l ∧ wq_inv s' (<[sd := l]> ls) ∧
    evolve sk s s' ∧ Forall (passed s s') sk ∧
    match o with None => l = [] | Some p => claimed s' p end.

(** * Evolution *)

Lemma ev_lookup l s s' q n' : evolve l s s' → nodes s' !! q = Some n' → is_Some (nodes s !! q) →
  ∃ n, nodes s !! q = Some n ∧ ident n' = ident n ∧ (q ∉ l → notified n' = notified n).
Proof.
  intros He Hn' [n Hn]. destruct (ev_nodes _ _ _ He q n Hn) as (m & Hm & ? & ?).
  rewrite Hm in Hn'. injection Hn' as <-. by exists n.
Qed.
Lemma ev_st l s s' q : evolve l s s' → q ∉ l → is_Some (nodes s !! q) → st s' q = st s q.
Proof.
  intros He Hq [n Hn]. destruct (ev_nodes _ _ _ He q n Hn) as (m & Hm & _ & Hk).
  unfold st. rewrite Hm, Hn. simpl. f_equal. auto.
Qed.
Lemma evolve_mono l l' s s' : l ⊆ l' → evolve l s s' → evolve l' s s'.
Proof.
  intros Hl [Hn ????]. split; try done. intros q n Hq.
  destruct (Hn q n Hq) as (m & ? & ? & ?). exists m. split_and!; try done. auto.
Qed.
#[export] Instance evolve_refl l : Reflexive (evolve l).
Proof. intros s. split; eauto. Qed.
#[export] Instance evolve_trans l : Transitive (evolve l).
Proof.
  intros s1 s2 s3 H12 H23. split.
  - intros q n Hn. destruct (ev_nodes _ _ _ H12 q n Hn) as (m & Hm & Hi & Hk).
    destruct (ev_nodes _ _ _ H23 q m Hm) as (m' & Hm' & Hi' & Hk'). exists m'.
    split_and!; [done|congruence|]. intros. rewrite Hk' by done. auto.
  - intros g x Hg. destruct (ev_groups _ _ _ H12 g x Hg) as (y & Hy & Hs).
    destruct (ev_groups _ _ _ H23 g y Hy) as (z & Hz & Hs'). exists z. split; [done|].
    intros Hne. rewrite Hs'; [auto|]. rewrite Hs; auto.
  - etrans; [apply H23|apply H12].
  - etrans; [apply H23|apply H12].
  - etrans; [apply H12|apply H23].
Qed.

Lemma evolve_quiet l s s' : quiet s s' → scheduled s `prefix_of` scheduled s' → evolve l s s'.
Proof. intros Hq Hs. split; try apply Hq; try done. intros q n. rewrite (qt_nodes _ _ Hq). eauto. Qed.
Lemma evolve_relink l s s' : relink s s' → evolve l s s'.
Proof.
  intros Hr. split; try apply Hr.
  - intros q n Hn. pose proof (re_payload _ _ Hr q) as Hp. rewrite Hn in Hp. simpl in Hp.
    destruct (nodes s' !! q) as [m|]; simplify_eq/=. exists m. unfold payload, ident in *. split; [done|].
    split; [congruence|]. intros _. congruence.
  - intros g x. rewrite (re_groups _ _ Hr). eauto.
  - unfold scheduled. by rewrite (re_log _ _ Hr), (re_batch _ _ Hr).
Qed.
Lemma evolve_ch l s s' : ch_only s s' → evolve l s s'.
Proof.
  intros Hr. split; try apply Hr.
  - intros q n. rewrite (co_nodes _ _ Hr). eauto.
  - intros g x. rewrite (co_groups _ _ Hr). eauto.
  - by rewrite (ch_only_scheduled _ _ Hr).
Qed.
Lemma evolve_notifies p n k s s' : notifies p n k s s' → evolve [p] s s'.
Proof.
  intros [Hn Hq Hse Hsc]. split; try apply Hq.
  - intros q m Hm. rewrite (qt_nodes _ _ Hq). simpl. destruct (decide (p = q)) as [->|].
    + simplify_map_eq. eexists. split_and!; [done|done|set_solver].
    + simplify_map_eq. eauto.
  - rewrite Hsc. by eexists.
Qed.
Lemma notifies_st p n k s s' q :
  notifies p n k s s' → st s' q = if decide (p = q) then Some k else st s q.
Proof.
  intros H. unfold st. rewrite (qt_nodes _ _ (nt_quiet _ _ _ _ _ H)). simpl.
  rewrite lookup_insert. by case_decide.
Qed.

Lemma canceled_back l s s1 s' q :
  evolve l s s1 → is_Some (nodes s !! q) → canceled s1 s' q → canceled s s' q.
Proof.
  intros He Hs (n & g & x & Hn & Hg & Hx & H1 & H2 & H3 & H4).
  destruct (ev_lookup _ _ _ _ _ He Hn Hs) as (m & Hm & Hi & _).
  unfold ident in Hi. injection Hi as Ef _ _ Eg Ei Es. exists m, g, x. unfold node_group in *.
  rewrite <- Ef, <- Eg, <- Ei, <- Es. done.
Qed.
Lemma canceled_fwd l s s1 s' q :
  evolve l s1 s' → q ∉ l → canceled s s1 q → canceled s s' q.
Proof.
  intros He Hq (n & g & x & Hn & Hg & Hx & H1 & H2 & H3 & H4).
  destruct (ev_groups _ _ _ He g x Hx) as (y & Hy & Hs). exists n, g, y.
  rewrite Hs by done. split_and!; try done.
  - rewrite (ev_st _ _ _ _ He Hq); [done|]. unfold st in H3. destruct (nodes s1 !! q); [eauto|done].
  - intros f Hf. destruct (ev_sched _ _ _ He) as [fs ->]. set_solver.
Qed.
Lemma passed_fwd l s s1 s' q : evolve l s1 s' → q ∉ l → passed s s1 q → passed s s' q.
Proof. intros ?? [?|?]; [by left|right; by eapply canceled_fwd]. Qed.
Lemma passed_back l s s1 s' q :
  evolve l s s1 → q ∉ l → is_Some (nodes s !! q) → passed s1 s' q → passed s s' q.
Proof.
  intros He Hq Hs [(k & Hk & ?)|?]; [left|right; by eapply canceled_back].
  exists k. by rewrite <- (ev_st _ _ _ _ He Hq Hs).
Qed.

(** Passing over the head of the queue and popping from the rest. *)
Lemma pop_result_skip sd s s1 ls p l o s' :
  wq_shape s ls → ls sd = p :: l → evolve [p] s s1 → passed s s1 p →
  pop_result sd s1 (<[sd := l]> ls) o s' → pop_result sd s ls o s'.
Proof.
  intros Hsh Hls He Hp (sk & l' & Hl & Hinv & He' & Hall & Ho).
  rewrite fn_lookup_insert in Hl. pose proof (sh_nodup _ _ Hsh sd) as Hnd. rewrite Hls in Hnd.
  apply NoDup_cons in Hnd as [Hpl _].
  exists (p :: sk), l'. split_and!; [by rewrite Hls, Hl| | | |done].
  - eapply wq_inv_ext; [|done]. intros sd'. unfold insert, fn_insert. by repeat case_decide.
  - etrans; eapply evolve_mono; [|done| |done]; set_solver.
  - constructor; [eapply passed_fwd; [done| |done]; set_solver|].
    rewrite Forall_forall in *. intros q Hq. assert (q ∈ l) by set_solver.
    eapply passed_back; [done| | |by apply Hall]; [set_solver|].
    destruct (shape_lookup s ls sd q) as [m Hm]; [done|rewrite Hls; set_solver|eauto].
Qed.

(** * Keeping the invariant *)

Lemma send_shrink_inv s s1 ls p l :
  wq_inv s ls → ls SendQ = p :: l → wq_shape s1 (<[SendQ := l]> ls) → relink s s1 →
  wq_inv s1 (<[SendQ := l]> ls).
Proof.
  intros [Hsh Hc Hi Hh Hs] Hls Hsh1 Hre.
  pose proof (re_rest _ _ Hre) as Hr. unfold ch_rest in Hr. injection Hr as Rh Rs Rr Ri _ _ _ _.
  split; rewrite ?fn_lookup_insert, ?(fn_lookup_insert_ne _ SendQ RecvQ) by done; try done.
  - rewrite Rr, Hc. f_equal. symmetry. apply cnt_ext. intros. by apply relink_st.
  - rewrite Ri, Hi. f_equal. symmetry. apply cnt_ext. intros. by apply relink_st.
  - by rewrite Rh.
  - intros (q & Hq & Hst). rewrite Rs. apply Hs. exists q. rewrite (relink_st s s1) in Hst by done.
    rewrite Hls. split; [set_solver|done].
Qed.

Lemma unlinked_notify_inv s s' ls p n k :
  wq_inv s ls → (∀ sd, p ∉ ls sd) → notifies p n k s s' → wq_shape s' ls → wq_inv s' ls.
Proof.
  intros [Hsh Hc Hi Hh Hs] Hp Hnt Hsh'.
  assert (Hst : ∀ sd q, q ∈ ls sd → st s' q = st s q).
  { intros sd q Hq. rewrite (notifies_st _ _ _ _ _ _ Hnt), decide_False; [done|]. intros ->. by apply (Hp sd). }
  pose proof (qt_ch _ _ (nt_quiet _ _ _ _ _ Hnt)) as Hch. simpl in Hch.
  split; rewrite ?Hch; try done.
  - rewrite Hc. f_equal. symmetry. apply cnt_ext. eauto.
  - rewrite Hi. f_equal. symmetry. apply cnt_ext. eauto.
  - intros (q & Hq & Hk). apply Hs. exists q. by rewrite (Hst SendQ) in Hk.
Qed.

Lemma shape_notin_head s ls sd p l :
  wq_shape s ls → ls sd = p :: l → ∀ sd', p ∉ (<[sd := l]> ls : side → list ptr) sd'.
Proof.
  intros Hsh Hls sd'. unfold insert, fn_insert. case_decide as Hd; [subst sd'|].
  - pose proof (sh_nodup _ _ Hsh sd) as Hnd. rewrite Hls in Hnd. by apply NoDup_cons in Hnd as [].
  - intros Hin. apply Hd. eapply (sh_disj _ _ Hsh); [|done]. rewrite Hls. set_solver.
Qed.

Lemma shape_head_ticket s ls sd p l n :
  wq_shape s ls → ls sd = p :: l → nodes s !! p = Some n → cc__chan_waiter_ticket_valid n s = true.
Proof. intros Hsh Hls. eapply (sh_ticket _ _ Hsh sd). rewrite Hls. constructor. Qed.
Lemma ident_fiber n n' : ident n' = ident n → fiber n' = fiber n.
Proof. unfold ident. congruence. Qed.
Lemma cancel_canceled s s1 s2 ls p n n1 :
  wq_shape s ls → nodes s !! p = Some n → may_win n s = false →
  evolve [] s s1 → sel_eq s s1 → notifies p n1 NOTIFY_CANCEL s1 s2 → canceled s s2 p.
Proof.
  intros Hsh Hn Hlose He Hse Hnt. unfold may_win, node_group in Hlose.
  destruct (is_select n) eqn:Es; [|done]. destruct (select_group n) as [g|] eqn:Eg; [|done].
  destruct (sh_groups _ _ Hsh p n g Hn Eg) as [x Hx]. rewrite Hx in Hlose.
  apply orb_false_iff in Hlose as [H1%bool_decide_eq_false H2%bool_decide_eq_false].
  assert (Hse2 : sel_eq s s2) by (etrans; [done|apply Hnt]).
  specialize (Hse2 g). rewrite Hx in Hse2. simpl in Hse2.
  destruct (groups s2 !! g) as [y|] eqn:Hy; simpl in Hse2; [|done].
  exists n, g, y. unfold node_group. rewrite Es.
  split_and!; try done; [congruence..| |].
  - rewrite (notifies_st _ _ _ _ _ _ Hnt). by rewrite decide_True by done.
  - intros f Hf. rewrite (nt_sched _ _ _ _ _ Hnt).
    destruct (ev_nodes _ _ _ He p n Hn) as (m & Hm & Hi & _).
    rewrite (nt_node _ _ _ _ _ Hnt) in Hm. injection Hm as <-.
    rewrite (ident_fiber _ _ Hi), Hf. set_solver.
Qed.

Lemma has_won_ident n n' s s' :
  ident n' = ident n → sel_eq s s' → has_won n s → has_won n' s'.
Proof.
  unfold ident, has_won, node_group. intros [= _ _ _ Eg Ei Es] Hse Hw g. rewrite Eg, Es, Ei. intros Hg.
  destruct (Hw g Hg) as (x & Hx & Hi). specialize (Hse g). rewrite Hx in Hse. simpl in Hse.
  destruct (groups s' !! g); simplify_eq/=. eexists. split; [done|congruence].
Qed.
Lemma relink_sel_eq s s' : relink s s' → sel_eq s s'.
Proof. intros H g. by rewrite (re_groups _ _ H). Qed.
Lemma ch_only_sel_eq s s' : ch_only s s' → sel_eq s s'.
Proof. intros H g. by rewrite (co_groups _ _ H). Qed.

(** A node that survives a step with the same payload. *)
Lemma evolve_nil_node s s1 p n :
  evolve [] s s1 → nodes s !! p = Some n →
  ∃ n1, nodes s1 !! p = Some n1 ∧ ident n1 = ident n ∧ notified n1 = notified n.
Proof.
  intros He Hn. destruct (ev_nodes _ _ _ He p n Hn) as (m & ? & ? & Hk). exists m.
  split_and!; try done. apply Hk. set_solver.
Qed.
Lemma ticket_valid_ident n n' s s' :
  ident n' = ident n → tickets s' = tickets s →
  cc__chan_waiter_ticket_valid n' s' = cc__chan_waiter_ticket_valid n s.
Proof.
  unfold ident, cc__chan_waiter_ticket_valid, cc__fiber_wait_ticket_matches.
  by intros [= -> -> _ _ _ _] ->.
Qed.
Lemma not_select_may_win n s : is_select n = false → may_win n s = true ∧ has_won n s.
Proof. unfold may_win, has_won, node_group. intros ->. done. Qed.

(** [if (node->is_select) won = try_win(node)], the guard of the pops. *)
Lemma guarded_try_win_spec p n s ls :
  wq_shape s ls → nodes s !! p = Some n →
  wp (if is_select n then cc__chan_select_try_win p else mret true)
     (λ b s', quiet s s' ∧ scheduled s' = scheduled s ∧ b = may_win n s ∧
        (b = true → has_won n s') ∧ (b = false → s' = s)) s.
Proof.
  intros Hsh Hn. destruct (is_select n) eqn:Es; [by eapply select_try_win_spec|]. wp_step.
  destruct (not_select_may_win n s Es) as [-> ?]. naive_solver.
Qed.

(** * Popping *)

Lemma pop_result_nil sd s ls : wq_inv s ls → ls sd = [] → pop_result sd s ls None s.
Proof.
  intros Hinv Hls. exists [], []. rewrite Hls. split_and!; try done.
  eapply wq_inv_ext; [|done]. intros sd'. unfold insert, fn_insert. case_decide; by subst.
Qed.
Lemma pop_result_head sd s s' ls p l n n' :
  ls sd = p :: l → wq_inv s' (<[sd := l]> ls) → evolve [] s s' →
  notified n = NOTIFY_NONE → nodes s' !! p = Some n' → ident n' = ident n →
  notified n' = notified n → has_won n' s' →
  pop_result sd s ls (Some p) s'.
Proof.
  intros Hls Hinv He Hno Hn' _ Hk Hw. exists [], l. rewrite Hls. split_and!; try done.
  exists n'. by rewrite Hk.
Qed.

Lemma pop_send_loop_spec fuel s ls :
  wq_inv s ls → length (ls SendQ) ≤ fuel →
  wp (cc__chan_pop_send_waiter_loop fuel) (pop_result SendQ s ls) s.
Proof.
  revert s ls. induction fuel as [|fuel IH]; intros s ls Hinv Hf; simpl; wp_go.
  all: pose proof (inv_shape _ _ Hinv) as Hsh.
  all: rewrite (shape_head s ls SendQ Hsh : wq_head (send_waiters (ch s)) = _).
  all: destruct (ls SendQ) as [|p l] eqn:Els; simpl in *; [wp_step; by apply pop_result_nil|]. 1: lia.
  destruct (shape_lookup s ls SendQ p Hsh) as [n Hn]; [rewrite Els; set_solver|].
  wp_step. eapply wp_load; [done|]. cbv beta. unfold isNone.
  destruct (bool_decide_reflect (notified n = NOTIFY_NONE)) as [Hno|Hno]; simpl.
  2: { wp_step. eapply wp_mono; [by eapply unlink_head_spec|]. intros _ s1 [Hsh1 Hre]. cbv beta.
    eapply wp_mono; [apply (IH s1 (<[SendQ := l]> ls)); [by eapply send_shrink_inv|by rewrite fn_lookup_insert; lia]|].
    intros o s'. eapply pop_result_skip; [done|done|by apply evolve_relink|].
    left. exists (notified n). split; [unfold st; by rewrite Hn|done]. }
  wp_step. eapply wp_mono; [by eapply guarded_try_win_spec|]. intros won s1 (Hq & Hsc & Hwin & Hwon & Hlost).
  assert (Hinv1 : wq_inv s1 ls) by by eapply quiet_inv. pose proof (inv_shape _ _ Hinv1) as Hsh1.
  destruct won; simpl.
  - wp_go.
    rewrite (ticket_valid_payload n n s s1), (shape_head_ticket s ls SendQ p l n) by first [done|apply Hq].
    simpl. wp_step. eapply wp_mono; [by eapply unlink_head_spec|]. intros _ s2 [Hsh2 Hre]. cbv beta. wp_step.
    assert (He : evolve [] s s2).
    { etrans; [by apply evolve_quiet; [|rewrite Hsc]|by apply evolve_relink]. }
    destruct (evolve_nil_node _ _ _ _ He Hn) as (n2 & ? & ? & ?).
    eapply pop_result_head; try done; [by eapply (send_shrink_inv s1)|].
    eapply has_won_ident; [done|by apply relink_sel_eq|by apply Hwon].
  - rewrite (Hlost eq_refl) in *. wp_step. eapply wp_mono; [by eapply unlink_head_spec|].
    intros _ s2 [Hsh2 Hre]. cbv beta.
    assert (He : evolve [] s s2) by by apply evolve_relink.
    destruct (evolve_nil_node _ _ _ _ He Hn) as (n2 & Hn2 & Hi & Hk).
    wp_step. eapply wp_mono; [eapply select_cancel_spec; [done|done|]|].
    { rewrite (ticket_valid_ident n n2 s s2); [|done|apply He]. by eapply shape_head_ticket. }
    intros _ s3 [Hnt Hsh3]. cbv beta.
    assert (Hinv3 : wq_inv s3 (<[SendQ := l]> ls)).
    { eapply (unlinked_notify_inv s2); [by eapply (send_shrink_inv s s2)|by eapply (shape_notin_head s)|done|done]. }
    eapply wp_mono; [apply (IH s3 (<[SendQ := l]> ls)); [done|by rewrite fn_lookup_insert; lia]|].
    intros o s'. eapply pop_result_skip; [done|done| |].
    + etrans; [by eapply evolve_mono; [|done]; set_solver|by eapply evolve_notifies].
    + right. eapply cancel_canceled; try done. by apply relink_sel_eq.
Qed.

Lemma pop_send_waiter_spec s ls :
  wq_inv s ls → wp cc__chan_pop_send_waiter (pop_result SendQ s ls) s.
Proof.
  intros Hinv. unfold cc__chan_pop_send_waiter. wp_go. apply pop_send_loop_spec; [done|].
  apply (shape_fuel s ls), Hinv.
Qed.

(** The statements that follow a receiver's unlinking: settle its counter
    and move the hint. *)
Lemma recv_settle_spec s0 s1 ls p l n (Q : unit → wstate → Prop) :
  wq_inv s0 ls → ls RecvQ = p :: l → nodes s0 !! p = Some n →
  wq_shape s1 (<[RecvQ := l]> ls) →
  (∀ q, q ≠ p → st s1 q = st s0 q) → ch_rest (ch s1) = ch_rest (ch s0) →
  (∀ s2, wq_inv s2 (<[RecvQ := l]> ls) → ch_only s1 s2 → Q tt s2) →
  wp (settle (notified n);; cc__chan_recv_signal_hint_advance p (head l)) Q s1.
Proof.
  intros Hinv Hls Hn Hsh1 Hst Hr HQ. wp_step. apply settle_eq, hint_advance_eq.
  destruct (recv_settle_inv s0 s1 _ ls [] p l n Hinv Hls Hn Hsh1 Hst Hr eq_refl) as [??]. by apply HQ.
Qed.

Lemma pop_recv_loop_spec fuel s ls :
  wq_inv s ls → length (ls RecvQ) ≤ fuel →
  wp (cc__chan_pop_recv_waiter_loop fuel) (pop_result RecvQ s ls) s.
Proof.
  revert s ls. induction fuel as [|fuel IH]; intros s ls Hinv Hf; simpl; wp_go.
  all: pose proof (inv_shape _ _ Hinv) as Hsh.
  all: rewrite (shape_head s ls RecvQ Hsh : wq_head (recv_waiters (ch s)) = _).
  all: destruct (ls RecvQ) as [|p l] eqn:Els; simpl in *; [wp_step; by apply pop_result_nil|]. 1: lia.
  destruct (shape_lookup s ls RecvQ p Hsh) as [n Hn]; [rewrite Els; set_solver|].
  wp_step. eapply wp_load; [done|]. cbv beta zeta. unfold isNone.
  rewrite (shape_next s ls RecvQ [] p l n Hsh Els Hn).
  destruct (bool_decide_reflect (notified n = NOTIFY_NONE)) as [Hno|Hno]; simpl.
  2: { wp_step. eapply wp_mono; [by eapply unlink_head_spec|]. intros _ s1 [Hsh1 Hre]. cbv beta.
    replace (when _ _) with (settle (notified n)) by by destruct (notified n).
    apply wp_bind_assoc. wp_step. eapply recv_settle_spec; try done; [|apply Hre|].
    { intros. by apply relink_st. }
    intros s2 Hinv2 Hco. cbv beta.
    eapply wp_mono; [apply (IH s2 (<[RecvQ := l]> ls)); [done|by rewrite fn_lookup_insert; lia]|].
    intros o s'. eapply pop_result_skip; [done|done| |].
    - etrans; [by apply evolve_relink|by apply evolve_ch].
    - left. exists (notified n). split; [unfold st; by rewrite Hn|done]. }
  wp_step. eapply wp_mono; [by eapply guarded_try_win_spec|]. intros won s1 (Hq & Hsc & Hwin & Hwon & Hlost).
  assert (Hinv1 : wq_inv s1 ls) by by eapply quiet_inv. pose proof (inv_shape _ _ Hinv1) as Hsh1.
  destruct won; simpl.
  - assert (Hn1 : nodes s1 !! p = Some n) by by rewrite (qt_nodes _ _ Hq).
    wp_go. eapply wp_mono; [by eapply unlink_head_spec|]. intros _ s2 [Hsh2 Hre]. cbv beta.
    change cc__chan_recv_waiter_count_dec with (settle NOTIFY_NONE). rewrite <- Hno.
    apply wp_bind_assoc. wp_step. eapply (recv_settle_spec s1); try done; [|apply Hre|].
    { intros. by apply relink_st. }
    intros s3 Hinv3 Hco. cbv beta.
    rewrite (ticket_valid_payload n n s s1), (shape_head_ticket s ls RecvQ p l n) by first [done|apply Hq].
    simpl. wp_step.
    assert (He : evolve [] s s3).
    { etrans; [by apply evolve_quiet; [|rewrite Hsc]|]. etrans; [by apply evolve_relink|by apply evolve_ch]. }
    destruct (evolve_nil_node _ _ _ _ He Hn) as (n2 & ? & ? & ?).
    eapply pop_result_head; try done.
    eapply (has_won_ident n _ s1); [done| |by apply Hwon].
    etrans; [by apply relink_sel_eq|by apply ch_only_sel_eq].
  - rewrite (Hlost eq_refl) in *. wp_step. eapply wp_mono; [by eapply unlink_head_spec|].
    intros _ s2 [Hsh2 Hre]. cbv beta.
    assert (He : evolve [] s s2) by by apply evolve_relink.
    destruct (evolve_nil_node _ _ _ _ He Hn) as (n2 & Hn2 & Hi & Hk).
    wp_step. eapply wp_mono; [eapply select_cancel_spec; [done|done|]|].
    { rewrite (ticket_valid_ident n n2 s s2); [|done|apply He]. by eapply shape_head_ticket. }
    intros _ s3 [Hnt Hsh3]. cbv beta.
    change cc__chan_recv_waiter_count_dec with (settle NOTIFY_NONE). rewrite <- Hno.
    apply wp_bind_assoc. wp_step. eapply (recv_settle_spec s); try done.
    { intros q Hqp. rewrite (notifies_st _ _ _ _ _ _ Hnt), decide_False by done. by apply relink_st. }
    { rewrite (qt_ch _ _ (nt_quiet _ _ _ _ _ Hnt)). apply Hre. }
    intros s4 Hinv4 Hco. cbv beta.
    eapply wp_mono; [apply (IH s4 (<[RecvQ := l]> ls)); [done|by rewrite fn_lookup_insert; lia]|].
    intros o s'. eapply pop_result_skip; [done|done| |].
    + etrans; [by eapply evolve_mono; [|done]; set_solver|].
      etrans; [by eapply evolve_notifies|by apply evolve_ch].
    + right. eapply canceled_fwd; [by eapply (evolve_ch [])|set_solver|].
      eapply cancel_canceled; try done. by apply relink_sel_eq.
Qed.

Lemma pop_recv_waiter_spec s ls :
  wq_inv s ls → wp cc__chan_pop_recv_waiter (pop_result RecvQ s ls) s.
Proof.
  intros Hinv. unfold cc__chan_pop_recv_waiter. wp_go. apply pop_recv_loop_spec; [done|].
  apply (shape_fuel s ls), Hinv.
Qed.
