(* ===== verification/WaitWake.v ===== *)
(** Waking waiters: the close wakes, the single-sender wake and the budgeted
    receiver signal. *)
From S2P Require Import Prelude ChanTypes WaitList WaitShape WaitQuiet WaitInv WaitOps WaitPop.

Implicit Types (s : wstate) (p q f : ptr) (l : list ptr) (ls : side → list ptr) (k : notify).

(** * Definitions *)

(** [told k s s' p]: the waiter [p] carries the notification [k] and its fiber
    has been scheduled. *)
Definition told k s s' p : Prop := ∃ n,
  nodes s !! p = Some n ∧ st s' p = Some k ∧ (∀ f, fiber n = Some f → f ∈ scheduled s').
(** A waiter woken for close: told so, unless another case of its select won. *)
Definition close_woken s s' p : Prop := told NOTIFY_CLOSE s s' p ∨ canceled s s' p.

(** [wake_one_send_waiter] unlinks the losers [sk] at the front and signals
    the first sender [o] after them. *)
Definition wake_send_result s ls s' : Prop :=
  ∃ sk o l, ls SendQ = sk ++ option_list o ++ l ∧ wq_inv s' (<[SendQ := l]> ls) ∧
    evolve (sk ++ option_list o) s s' ∧ Forall (canceled s s') sk ∧
    match o with None => l = [] | Some p => told NOTIFY_SIGNAL s s' p end.

(** * Lemmas *)

Lemma told_fwd k l s s1 s' p : evolve l s1 s' → p ∉ l → told k s s1 p → told k s s' p.
Proof.
  intros He Hp (n & Hn & Hk & Hf). exists n. split_and!; [done| |].
  - rewrite (ev_st _ _ _ _ He Hp); [done|]. unfold st in Hk. destruct (nodes s1 !! p); [eauto|done].
  - intros f Hfb. destruct (ev_sched _ _ _ He) as [fs ->]. set_solver.
Qed.
Lemma told_back k l s s1 s' p : evolve l s s1 → is_Some (nodes s !! p) → told k s1 s' p → told k s s' p.
Proof.
  intros He Hs (n & Hn & Hk & Hf). destruct (ev_lookup _ _ _ _ _ He Hn Hs) as (m & Hm & Hi & _).
  exists m. split_and!; try done. by rewrite <- (ident_fiber _ _ Hi).
Qed.
Lemma notifies_told k p n s s' : notifies p n k s s' → told k s s' p.
Proof.
  intros H. exists n. split_and!; [apply H| |].
  - rewrite (notifies_st _ _ _ _ _ _ H). by rewrite decide_True.
  - intros f Hf. rewrite (nt_sched _ _ _ _ _ H), Hf. set_solver.
Qed.
Lemma close_woken_fwd l s s1 s' p : evolve l s1 s' → p ∉ l → close_woken s s1 p → close_woken s s' p.
Proof. intros ?? [?|?]; [left; by eapply told_fwd|right; by eapply canceled_fwd]. Qed.
Lemma close_woken_back l s s1 s' p :
  evolve l s s1 → is_Some (nodes s !! p) → close_woken s1 s' p → close_woken s s' p.
Proof. intros ?? [?|?]; [left; by eapply told_back|right; by eapply canceled_back]. Qed.

(** What both close wakes do with the node they have just unlinked. *)
Lemma close_tail_spec p n n0 s ls :
  wq_inv s ls → (∀ sd, p ∉ ls sd) → nodes s !! p = Some n0 → ident n0 = ident n →
  cc__chan_waiter_ticket_valid n s = true →
  wp (won ← (if is_select n then cc__chan_select_try_win p else mret true);
      if negb won then cc__chan_select_cancel_node p else
      v ← gets (cc__chan_waiter_ticket_valid n);
      if negb v then mret tt else
      store p (λ n, n <| notified := NOTIFY_CLOSE |>);;
      bump_signaled p;;
      wake_batch_add_chan (fiber n))
     (λ _ s', wq_inv s' ls ∧ evolve [p] s s' ∧ close_woken s s' p) s.
Proof.
  intros Hinv Hp Hn0 Hi Hv. pose proof (inv_shape _ _ Hinv) as Hsh.
  assert (Es : is_select n = is_select n0) by (unfold ident in Hi; congruence). rewrite Es.
  wp_step. eapply wp_mono; [by eapply guarded_try_win_spec|]. intros won s1 (Hq & Hsc & Hwin & Hwon & Hlost).
  assert (Hinv1 : wq_inv s1 ls) by by eapply quiet_inv. pose proof (inv_shape _ _ Hinv1) as Hsh1.
  assert (Hn1 : nodes s1 !! p = Some n0) by by rewrite (qt_nodes _ _ Hq).
  destruct won; simpl.
  - wp_go. rewrite (ticket_valid_payload n n s s1), Hv by first [done|apply Hq]. simpl.
    rewrite <- (ident_fiber _ _ Hi).
    eapply wp_mono; [eapply (notify_wake_spec wake_batch_add_chan); [|done|done]|].
    { intros. by apply wake_batch_add_chan_spec. }
    intros _ s2 [Hnt Hsh2].
    assert (He : evolve [] s s1) by by apply evolve_quiet; [|rewrite Hsc].
    split_and!; [by eapply unlinked_notify_inv| |].
    + etrans; [by eapply evolve_mono; [|done]; set_solver|by eapply evolve_notifies].
    + left. eapply told_back; [done|eauto|by eapply notifies_told].
  - rewrite (Hlost eq_refl) in *.
    eapply wp_mono; [eapply select_cancel_spec; [done|done|]|].
    { by rewrite (ticket_valid_ident n n0 s s) by done. }
    intros _ s2 [Hnt Hsh2]. split_and!; [by eapply unlinked_notify_inv|by eapply evolve_notifies|].
    right. by eapply cancel_canceled.
Qed.

Lemma wake_one_send_close_spec s ls p l :
  wq_inv s ls → ls SendQ = p :: l →
  wp cc__chan_wake_one_send_waiter_close (λ _ s',
    wq_inv s' (<[SendQ := l]> ls) ∧ evolve [p] s s' ∧ close_woken s s' p) s.
Proof.
  intros Hinv Hls. pose proof (inv_shape _ _ Hinv) as Hsh. unfold cc__chan_wake_one_send_waiter_close.
  wp_go. rewrite (shape_head s ls SendQ Hsh : wq_head (send_waiters (ch s)) = _), Hls. simpl.
  destruct (shape_lookup s ls SendQ p Hsh) as [n Hn]; [rewrite Hls; set_solver|].
  wp_step. eapply wp_mono; [by eapply unlink_head_spec|]. intros _ s1 [Hsh1 Hre]. cbv beta.
  pose proof (evolve_relink [] _ _ Hre) as He.
  destruct (evolve_nil_node _ _ _ _ He Hn) as (n1 & Hn1 & Hi & Hk).
  wp_step. eapply wp_load; [done|]. cbv beta.
  eapply wp_mono; [eapply (close_tail_spec p n1 n1)|]; try done.
  - by eapply send_shrink_inv.
  - by eapply shape_notin_head.
  - rewrite (ticket_valid_ident n n1 s s1); [|done|apply He]. by eapply shape_head_ticket.
  - intros _ s2 (Hinv2 & He2 & Hw). split_and!; [done| |].
    + etrans; [by eapply evolve_mono; [|done]; set_solver|done].
    + eapply close_woken_back; [done|eauto|done].
Qed.

Lemma wake_one_recv_close_spec s ls p l :
  wq_inv s ls → ls RecvQ = p :: l →
  wp cc__chan_wake_one_recv_waiter_close (λ _ s',
    wq_inv s' (<[RecvQ := l]> ls) ∧ evolve [p] s s' ∧ close_woken s s' p) s.
Proof.
  intros Hinv Hls. pose proof (inv_shape _ _ Hinv) as Hsh. unfold cc__chan_wake_one_recv_waiter_close.
  wp_go. rewrite (shape_head s ls RecvQ Hsh : wq_head (recv_waiters (ch s)) = _), Hls. simpl.
  destruct (shape_lookup s ls RecvQ p Hsh) as [n Hn]; [rewrite Hls; set_solver|].
  wp_step. eapply wp_load; [done|]. cbv beta zeta. rewrite (shape_next s ls RecvQ [] p l n Hsh Hls Hn).
  wp_step. eapply wp_mono; [by eapply unlink_head_spec|]. intros _ s1 [Hsh1 Hre]. cbv beta.
  change (match notified n with NOTIFY_NONE => _ | _ => _ end) with (settle (notified n)).
  apply wp_bind_assoc. wp_step. eapply (recv_settle_spec s); try done; [|apply Hre|].
  { intros. by apply relink_st. }
  intros s2 Hinv2 Hco. cbv beta.
  assert (He : evolve [] s s2) by (etrans; [by apply evolve_relink|by apply evolve_ch]).
  destruct (evolve_nil_node _ _ _ _ He Hn) as (n1 & Hn1 & Hi & Hk).
  eapply wp_mono; [eapply (close_tail_spec p n n1)|]; try done.
  - by eapply shape_notin_head.
  - rewrite (ticket_valid_ident n n s s2); [|done|apply He]. by eapply shape_head_ticket.
  - intros _ s3 (Hinv3 & He3 & Hw). split_and!; [done| |].
    + etrans; [by eapply evolve_mono; [|done]; set_solver|done].
    + eapply close_woken_back; [done|eauto|done].
Qed.

Lemma wake_close_loop_spec sd fuel s ls :
  wq_inv s ls → length (ls sd) ≤ fuel →
  wp (wake_close_loop sd fuel) (λ _ s', wq_inv s' (<[sd := []]> ls) ∧ evolve (ls sd) s s' ∧
     Forall (close_woken s s') (ls sd)) s.
Proof.
  revert s ls. induction fuel as [|fuel IH]; intros s ls Hinv Hf; simpl; wp_go.
  all: pose proof (inv_shape _ _ Hinv) as Hsh; rewrite (shape_head s ls sd Hsh).
  all: destruct (ls sd) as [|p l] eqn:Els; simpl in *.
  1,3: wp_step; split_and!; [|done|done].
  1,2: eapply wq_inv_ext; [|done]; intros sd'; unfold insert, fn_insert; case_decide; by subst.
  1: lia.
  wp_step. eapply (wp_mono _ (λ _ s', wq_inv s' (<[sd := l]> ls) ∧ evolve [p] s s' ∧ close_woken s s' p)).
  { destruct sd; [by apply wake_one_send_close_spec|by apply wake_one_recv_close_spec]. }
  intros _ s1 (Hinv1 & He1 & Hw1).
  eapply wp_mono; [apply (IH s1 (<[sd := l]> ls)); [done|by rewrite fn_lookup_insert; lia]|].
  rewrite fn_lookup_insert. intros _ s2 (Hinv2 & He2 & Hall).
  pose proof (sh_nodup _ _ Hsh sd) as Hnd. rewrite Els in Hnd. apply NoDup_cons in Hnd as [Hpl _].
  split_and!.
  - eapply wq_inv_ext; [|done]. intros sd'. unfold insert, fn_insert. by repeat case_decide.
  - etrans; eapply evolve_mono; [|done| |done]; set_solver.
  - constructor; [by eapply close_woken_fwd|]. rewrite Forall_forall in *. intros q Hq.
    eapply close_woken_back; [done| |by apply Hall].
    destruct (shape_lookup s ls sd q) as [m Hm]; [done|rewrite Els; set_solver|eauto].
Qed.

Lemma wake_all_spec s ls :
  wq_inv s ls →
  wp cc__chan_wake_all_waiters (λ _ s',
    wq_inv s' (λ _, []) ∧ evolve (ls SendQ ++ ls RecvQ) s s' ∧
    (∀ sd p, p ∈ ls sd → close_woken s s' p)) s.
Proof.
  intros Hinv. unfold cc__chan_wake_all_waiters. wp_go.
  pose proof (inv_shape _ _ Hinv) as Hsh.
  eapply wp_mono; [apply wake_close_loop_spec; [done|by apply shape_fuel]|].
  intros _ s1 (Hinv1 & He1 & Hall1). cbv beta.
  eapply wp_mono; [apply wake_close_loop_spec; [done|]|].
  { rewrite fn_lookup_insert_ne by done. by apply shape_fuel. }
  rewrite fn_lookup_insert_ne by done. intros _ s2 (Hinv2 & He2 & Hall2).
  rewrite Forall_forall in Hall1, Hall2. split_and!.
  - eapply wq_inv_ext; [|done]. by intros [].
  - etrans; eapply evolve_mono; [|done| |done]; set_solver.
  - intros [] p Hp.
    + eapply close_woken_fwd; [done| |by apply Hall1]. intros Hr.
      by assert (SendQ = RecvQ) by by eapply (sh_disj _ _ Hsh).
    + destruct (shape_lookup s ls RecvQ p Hsh Hp). eapply close_woken_back; [done|eauto|by apply Hall2].
Qed.

(** ** Waking one sender *)

Lemma refresh_inv s ls :
  wq_inv s ls → wp cc__chan_refresh_has_send_waiters (λ _ s', wq_inv s' ls ∧ ch_only s s') s.
Proof.
  intros [Hsh Hc Hi Hh Hs]. eapply wp_mono; [by apply refresh_spec|]. intros _ s' ->.
  split; [|done]. split; simpl; try done; [by apply (shape_ch s); [done|intros []|]|].
  intros (q & Hq & Hst). rewrite bool_decide_eq_true_2; [done|]. apply Exists_exists. by exists q.
Qed.

Lemma wake_send_result_skip s s1 ls p l s' :
  wq_shape s ls → ls SendQ = p :: l → evolve [p] s s1 → canceled s s1 p →
  wake_send_result s1 (<[SendQ := l]> ls) s' → wake_send_result s ls s'.
Proof.
  intros Hsh Hls He Hp (sk & o & l' & Hl & Hinv & He' & Hall & Ho).
  rewrite fn_lookup_insert in Hl. pose proof (sh_nodup _ _ Hsh SendQ) as Hnd. rewrite Hls in Hnd.
  apply NoDup_cons in Hnd as [Hpl _].
  assert (Hlk : ∀ q, q ∈ l → is_Some (nodes s !! q)).
  { intros q Hq. destruct (shape_lookup s ls SendQ q) as [m Hm]; [done|rewrite Hls; set_solver|eauto]. }
  exists (p :: sk), o, l'. split_and!; [by rewrite Hls, Hl| | | |].
  - eapply wq_inv_ext; [|done]. intros sd'. unfold insert, fn_insert. by repeat case_decide.
  - etrans; eapply evolve_mono; [|done| |done]; set_solver.
  - constructor; [eapply canceled_fwd; [done| |done]; set_solver|].
    rewrite Forall_forall in *. intros q Hq.
    eapply canceled_back; [done| |by apply Hall]. apply Hlk. set_solver.
  - destruct o as [q|]; [|done]. eapply told_back; [done| |done]. apply Hlk. set_solver.
Qed.

(** Signalling a sender that is on no list. *)
Lemma unlinked_signal_inv s ls p n :
  wq_inv s ls → nodes s !! p = Some n → (∀ sd, p ∉ ls sd) → wq_inv (s <| nodes := <[p := n <| notified := NOTIFY_SIGNAL |>]> (nodes s) |>) ls.
Proof.
  intros Hinv Hn Hp. set (s1 := s <| nodes := _ |>).
  assert (Hst : ∀ q, st s1 q = if decide (p = q) then Some NOTIFY_SIGNAL else st s q).
  { intros q. unfold st, s1. simpl. rewrite lookup_insert. by case_decide. }
  assert (Heq : ∀ q, q ∈ ls RecvQ → st s1 q = st s q).
  { intros q Hq. rewrite Hst, decide_False; [done|]. intros ->. by apply (Hp RecvQ). }
  pose proof (store_notified_shape p n NOTIFY_SIGNAL s ls Hn (inv_shape _ _ Hinv)) as Hsh. destruct Hinv as [_ Hc Hi Hh Hs]. split; try done.
  - simpl. rewrite Hc. f_equal. symmetry. by apply cnt_ext.
  - simpl. rewrite Hi. f_equal. symmetry. by apply cnt_ext.
  - intros (q & Hq & Hst'). apply Hs. exists q. split; [done|]. rewrite Hst in Hst'. by case_decide; simplify_eq.
Qed.
Lemma evolve_store p n k s : nodes s !! p = Some n → evolve [p] s (s <| nodes := <[p := n <| notified := k |>]> (nodes s) |>).
Proof.
  intros Hn. split; simpl; try done; [|eauto]. intros q m Hm. destruct (decide (p = q)) as [->|]; simplify_map_eq; [|eauto].
  eexists. split_and!; [done|done|set_solver].
Qed.
Lemma wake_one_send_loop_spec fuel s ls :
  wq_inv s ls → length (ls SendQ) ≤ fuel →
  wp (cc__chan_wake_one_send_waiter_loop fuel) (λ _, wake_send_result s ls) s.
Proof.
  revert s ls. induction fuel as [|fuel IH]; intros s ls Hinv Hf; simpl; wp_go.
  all: pose proof (inv_shape _ _ Hinv) as Hsh.
  all: rewrite (shape_head s ls SendQ Hsh : wq_head (send_waiters (ch s)) = _).
  all: destruct (ls SendQ) as [|p l] eqn:Els; simpl in *.
  1,3: (eapply wp_mono; [by apply refresh_inv|]; intros _ s' [Hinv' Hco]; exists [], None, []; rewrite Els;
        split_and!; [done|eapply wq_inv_ext; [|done]; intros []; done|by apply evolve_ch|done|done]).
  1: lia.
  destruct (shape_lookup s ls SendQ p Hsh) as [n0 Hn0]; [rewrite Els; set_solver|].
  wp_step. eapply wp_mono; [by eapply unlink_head_spec|]. intros _ s1 [Hsh1 Hre]. cbv beta.
  assert (He : evolve [] s s1) by by apply evolve_relink.
  destruct (evolve_nil_node _ _ _ _ He Hn0) as (n & Hn & Hi & Hk).
  assert (Hv : cc__chan_waiter_ticket_valid n s1 = true).
  { rewrite (ticket_valid_ident n0 n s s1); [|done|apply He]. by eapply shape_head_ticket. }
  assert (Hinv1 : wq_inv s1 (<[SendQ := l]> ls)) by by eapply send_shrink_inv.
  pose proof (shape_notin_head _ _ _ _ _ Hsh Els) as Hp.
  wp_step. eapply wp_mono; [by eapply select_try_win_spec|]. intros won s2 (Hq & Hsc & Hwin & Hwon & Hlost).
  assert (Hinv2 : wq_inv s2 (<[SendQ := l]> ls)) by by eapply quiet_inv.
  destruct won; simpl.
  - wp_step. eapply wp_load; [by rewrite (qt_nodes _ _ Hq)|]. cbv beta. wp_go.
    rewrite (ticket_valid_payload n n s1 s2), Hv by first [done|apply Hq]. simpl.
    wp_step. eapply wp_store; [by rewrite (qt_nodes _ _ Hq)|]. cbv beta.
    set (s3 := s2 <| nodes := _ |>).
    assert (Hn2 : nodes s2 !! p = Some n) by by rewrite (qt_nodes _ _ Hq).
    assert (Hinv3 : wq_inv s3 (<[SendQ := l]> ls)) by (by apply unlinked_signal_inv).
    wp_step. eapply wp_mono; [eapply bump_signaled_spec; [apply Hinv3|by apply lookup_insert_eq]|].
    intros _ s4 (Hq4 & Hse4 & Hsc4). cbv beta.
    wp_step. eapply wp_mono; [apply refresh_inv; by eapply quiet_inv|]. intros _ s5 [Hinv5 Hco5]. cbv beta.
    eapply wp_mono; [apply wake_batch_add_chan_spec, Hinv5|]. intros _ s6 (Hq6 & Hse6 & Hsc6).
    assert (Hs6 : scheduled s6 = scheduled s1 ++ option_list (fiber n)).
    { rewrite Hsc6, (ch_only_scheduled _ _ Hco5), Hsc4. unfold s3. by rewrite <- Hsc. }
    assert (He26 : evolve [] s3 s6).
    { etrans; [apply evolve_quiet; [done|by rewrite Hsc4]|]. etrans; [by apply evolve_ch|].
      apply evolve_quiet; [done|]. rewrite Hsc6. by eexists. }
    assert (Hst6 : st s6 p = Some NOTIFY_SIGNAL).
    { rewrite (ev_st _ _ _ _ He26); [|set_solver|unfold s3; simpl; rewrite lookup_insert_eq; eauto].
      unfold st, s3. simpl. by rewrite lookup_insert_eq. }
    exists [], (Some p), l. rewrite Els. split_and!; [done| | |done|].
    + eapply (quiet_inv s5); done.
    + etrans; [eapply evolve_mono; [|done]; set_solver|].
      etrans; [apply evolve_quiet; [done|by rewrite Hsc]|].
      etrans; [|eapply evolve_mono; [|done]; set_solver].
      by apply (evolve_mono [p]); [set_solver|apply evolve_store].
    + exists n0. split_and!; [done|done|]. intros f Hf'. rewrite Hs6, (ident_fiber _ _ Hi), Hf'. set_solver.
  - rewrite (Hlost eq_refl) in *.
    wp_step. eapply wp_mono; [by eapply select_cancel_spec; [apply Hinv1|..]|].
    intros _ s3 [Hnt Hsh3]. cbv beta.
    eapply wp_mono; [apply (IH s3 (<[SendQ := l]> ls)); [by eapply unlinked_notify_inv|by rewrite fn_lookup_insert; lia]|].
    intros ? s'. cbv beta. eapply wake_send_result_skip; [done|done| |].
    + etrans; [by eapply evolve_mono; [|done]; set_solver|by eapply evolve_notifies].
    + eapply (canceled_back []); [done|eauto|]. by eapply (cancel_canceled s1 s1).
Qed.

Lemma wake_one_send_spec s ls :
  wq_inv s ls → wp cc__chan_wake_one_send_waiter (λ _, wake_send_result s ls) s.
Proof.
  intros Hinv. unfold cc__chan_wake_one_send_waiter. wp_go.
  rewrite (shape_head s ls SendQ (inv_shape _ _ Hinv) : wq_head (send_waiters (ch s)) = _).
  destruct (ls SendQ) as [|p l] eqn:Els; simpl.
  - wp_step. exists [], None, []. rewrite Els. split_and!; try done.
    eapply wq_inv_ext; [|done]. by intros [].
  - wp_go. apply wake_one_send_loop_spec; [done|]. apply (shape_fuel s ls), Hinv.
Qed.

(** ** Signaling receivers *)

(** The contract of a signaling pass over the receivers [l]: [j] of them are
    newly signaled, every other one of them is untouched, or was canceled
    because another case of its select won. *)
Record signal_result l (R : list ptr) (j : Z) s s' : Prop := {
  sg_evolve : evolve l s s';
  sg_count : Z.of_nat (cnt NOTIFY_SIGNAL s' R) = (Z.of_nat (cnt NOTIFY_SIGNAL s R) + j)%Z;
  sg_each : ∀ p, p ∈ l → st s' p = st s p ∨ told NOTIFY_SIGNAL s s' p ∨ canceled s s' p }.

Lemma cnt_update k0 k k' s s1 l p :
  NoDup l → p ∈ l → st s p = Some k0 →
  (∀ q, st s1 q = if decide (p = q) then Some k else st s q) →
  cnt k' s1 l + (if decide (k' = k0) then 1 else 0) =
  cnt k' s l + (if decide (k' = k) then 1 else 0).
Proof.
  intros Hnd Hin Hst Hst1. apply list_elem_of_split in Hin as (l1 & l2 & ->).
  pose proof (Hst1 p) as E. rewrite decide_True in E by done. rewrite !cnt_unlink, Hst, E.
  assert (p ∉ l1 ++ l2).
  { apply NoDup_app in Hnd as (_ & Hd & [Hp _]%NoDup_cons). intros [?|?]%elem_of_app; [|done].
    eapply Hd; [done|set_solver]. }
  rewrite (cnt_ext k' s s1) by (intros q Hq; rewrite Hst1; case_decide; [by subst|done]).
  repeat case_decide; simplify_eq; lia.
Qed.

Lemma linked_notify_inv s s1 ls p k :
  wq_inv s ls → p ∈ ls RecvQ → st s p = Some NOTIFY_NONE → k ≠ NOTIFY_NONE →
  wq_shape s1 ls → (∀ q, st s1 q = if decide (p = q) then Some k else st s q) →
  has_recv_waiters (ch s1) = dec_clamp (has_recv_waiters (ch s)) →
  recv_wake_inflight (ch s1) =
    (recv_wake_inflight (ch s) + if decide (k = NOTIFY_SIGNAL) then 1 else 0)%Z →
  recv_signal_hint (ch s1) = recv_signal_hint (ch s) →
  has_send_waiters (ch s1) = has_send_waiters (ch s) →
  wq_inv s1 ls.
Proof.
  intros [Hsh Hc Hi Hh Hs] Hp Hst Hk Hsh1 Hst1 Ec Ei Eh Es.
  pose proof (sh_nodup _ _ Hsh RecvQ) as Hnd. split; try done.
  - rewrite Ec, Hc. pose proof (cnt_update NOTIFY_NONE k NOTIFY_NONE s s1 _ p Hnd Hp Hst Hst1) as H.
    rewrite decide_True, decide_False in H by done.
    replace (cnt NOTIFY_NONE s _) with (1 + cnt NOTIFY_NONE s1 (ls RecvQ)) by lia. apply dec_clamp_S.
  - rewrite Ei, Hi. pose proof (cnt_update NOTIFY_NONE k NOTIFY_SIGNAL s s1 _ p Hnd Hp Hst Hst1) as H.
    rewrite decide_False in H by done. repeat case_decide; simplify_eq; lia.
  - by rewrite Eh.
  - rewrite Es. intros (q & Hq & Hq'). apply Hs. exists q. split; [done|]. rewrite Hst1 in Hq'.
    case_decide; [congruence|done].
Qed.

Lemma signal_one_recv_spec p n s ls :
  wq_inv s ls → p ∈ ls RecvQ → nodes s !! p = Some n → notified n = NOTIFY_NONE →
  wp (signal_one_recv p) (λ _ s', wq_inv s' ls ∧ signal_result [p] (ls RecvQ) 1 s s' ∧ nodes s' !! p = Some (n <| notified := NOTIFY_SIGNAL |>)) s.
Proof.
  intros Hinv Hp Hn Hno. pose proof (inv_shape _ _ Hinv) as Hsh. unfold signal_one_recv.
  wp_step. eapply wp_store; [done|]. cbv beta.
  unfold cc__chan_recv_waiter_count_dec, cc__chan_recv_wake_inflight_inc, upd_ch. wp_step. wp_step. wp_step. wp_step.
  match goal with |- wp _ _ ?s => set (s1 := s) end.
  assert (Hst : st s p = Some NOTIFY_NONE) by (unfold st; rewrite Hn; simpl; by rewrite Hno).
  assert (Hst1 : ∀ q, st s1 q = if decide (p = q) then Some NOTIFY_SIGNAL else st s q).
  { intros q. unfold st, s1. simpl. rewrite lookup_insert. by case_decide. }
  assert (Hinv1 : wq_inv s1 ls).
  { apply (linked_notify_inv s s1 ls p NOTIFY_SIGNAL); try done.
    apply (shape_ch (s <| nodes := <[p := n <| notified := NOTIFY_SIGNAL |>]> (nodes s) |>)); [done|by intros []|].
    by apply store_notified_shape. }
  assert (Hn1 : nodes s1 !! p = Some (n <| notified := NOTIFY_SIGNAL |>)) by apply lookup_insert_eq.
  wp_step. eapply wp_mono; [eapply bump_signaled_spec; [apply Hinv1|done]|]. intros _ s2 (Hq2 & _ & Hsc2). cbv beta.
  wp_step. eapply wp_load; [by rewrite (qt_nodes _ _ Hq2)|]. cbv beta.
  assert (Hinv2 : wq_inv s2 ls) by by eapply quiet_inv.
  eapply wp_mono; [apply wake_batch_add_chan_spec, Hinv2|]. intros _ s3 (Hq3 & _ & Hsc3).
  assert (Hq : quiet s1 s3) by by etrans.
  assert (Hsc : scheduled s3 = scheduled s ++ option_list (fiber n)) by by rewrite Hsc3, Hsc2.
  split_and!; [by eapply quiet_inv| |by rewrite (qt_nodes _ _ Hq)]. split.
  - etrans; [|apply (evolve_quiet [p] s1 s3); [done|rewrite Hsc; by eexists]].
    split; simpl; try done; [|eauto]. intros q m Hm.
    destruct (decide (p = q)) as [->|]; simplify_map_eq; [|eauto].
    eexists; split_and!; [done|done|set_solver].
  - pose proof (cnt_update NOTIFY_NONE NOTIFY_SIGNAL NOTIFY_SIGNAL s s3 _ p (sh_nodup _ _ Hsh RecvQ) Hp Hst) as H.
    rewrite decide_False, decide_True in H by done.
    assert (Hs3 : ∀ q, st s3 q = if decide (p = q) then Some NOTIFY_SIGNAL else st s q)
      by (intros q; by rewrite (quiet_st _ _ _ Hq)).
    specialize (H Hs3). lia.
  - intros q Hq'. apply list_elem_of_singleton in Hq' as ->. right. left. exists n. split_and!; [done| |].
    + rewrite (quiet_st _ _ _ Hq), Hst1. by rewrite decide_True.
    + intros f Hf. rewrite Hsc, Hf. set_solver.
Qed.

Lemma signal_result_trans l1 l2 R j1 j2 s s1 s2 :
  signal_result l1 R j1 s s1 → signal_result l2 R j2 s1 s2 → (∀ p, p ∈ l1 → p ∉ l2) →
  (∀ p, p ∈ l2 → is_Some (nodes s !! p)) → (∀ p, p ∈ l1 → is_Some (nodes s1 !! p)) →
  signal_result (l1 ++ l2) R (j1 + j2) s s2.
Proof.
  intros [He1 Hc1 H1] [He2 Hc2 H2] Hd Hs Hs1. split.
  - etrans; eapply evolve_mono; [|done| |done]; set_solver.
  - rewrite Hc2, Hc1. lia.
  - intros p [Hp|Hp]%elem_of_app.
    + rewrite (ev_st _ _ _ _ He2) by auto. destruct (H1 p Hp) as [->|[?|?]]; [by left|right; left|right; right].
      * eapply told_fwd; eauto. * eapply canceled_fwd; eauto.
    + assert (p ∉ l1) by naive_solver. rewrite <- (ev_st _ _ _ _ He1) by auto.
      destruct (H2 p Hp) as [?|[?|?]]; [by left|right; left|right; right].
      * eapply told_back; eauto. * eapply canceled_back; eauto.
Qed.
Lemma signal_result_refl l R s : signal_result l R 0 s s.
Proof. split; [done|lia|auto]. Qed.

(** The pieces of one step of the pass: what a won node contributes, what
    stopping at the budget changes, and what a lost node contributes. *)
Lemma signal_result_quiet p R (j : Z) s s1 s2 :
  quiet s s1 → scheduled s1 = scheduled s → is_Some (nodes s !! p) → st s2 p ≠ st s p →
  signal_result [p] R j s1 s2 → signal_result [p] R j s s2.
Proof.
  intros Hq Hsc Hp Hne [He Hc Hall]. assert (He1 : evolve [] s s1) by (apply evolve_quiet; [done|by rewrite Hsc]). split.
  - etrans; [by eapply evolve_mono; [|done]; set_solver|done].
  - rewrite Hc. f_equal. f_equal. apply cnt_ext. intros. by apply quiet_st.
  - intros q ->%list_elem_of_singleton. right. destruct (Hall p ltac:(set_solver)) as [E|[?|?]].
    + exfalso. by rewrite (quiet_st _ _ _ Hq) in E.
    + left. by eapply (told_back _ []).
    + right. by eapply (canceled_back []).
Qed.
Lemma signal_result_stop p seg R (j : Z) s s2 s3 :
  ch_only s2 s3 → p ∉ seg → (∀ q, q ∈ seg → is_Some (nodes s !! q)) → signal_result [p] R j s s2 → signal_result (p :: seg) R j s s3.
Proof.
  intros Hco Hps Hseg [He Hc Hall]. assert (Hst : ∀ q, st s3 q = st s2 q) by (intros; by apply ch_only_st). split.
  - etrans; [eapply evolve_mono; [|done]; set_solver|by apply evolve_ch].
  - rewrite <- Hc. f_equal. apply cnt_ext. auto.
  - intros q [->|Hq]%elem_of_cons.
    + rewrite Hst. destruct (Hall p ltac:(set_solver)) as [E|[?|?]]; [by left|right; left|right; right].
      * eapply (told_fwd _ []); [by apply evolve_ch|set_solver|done].
      * eapply (canceled_fwd []); [by apply evolve_ch|set_solver|done].
    + left. rewrite Hst. apply (ev_st [p] s s2); [done|set_solver|auto].
Qed.
Lemma hint_move_inv s ls l1 p rest :
  wq_inv s ls → ls RecvQ = l1 ++ p :: rest →
  wq_inv (s <| ch ::= λ c, c <| recv_signal_hint := match head rest with Some _ => head rest | None => wq_head (recv_waiters (ch s)) end |> |>) ls.
Proof.
  intros [Hsh Hc Hi Hh Hs] Hls. split; try done; [by apply (shape_ch s); [|intros []|]|].
  simpl. rewrite (shape_head s ls RecvQ Hsh : wq_head (recv_waiters (ch s)) = _).
  destruct (head rest) as [q|] eqn:Eq; [apply head_Some_elem_of in Eq; rewrite Hls; set_solver|].
  rewrite Hls. destruct l1; simpl; set_solver.
Qed.
Lemma signal_lost_step p n s s2 s3 ls :
  wq_inv s ls → p ∈ ls RecvQ → st s p = Some NOTIFY_NONE → notifies p n NOTIFY_CANCEL s s2 → wq_shape s2 ls → canceled s s2 p →
  ch_only s2 s3 → ch s3 = (ch s2) <| has_recv_waiters ::= dec_clamp |> →
  wq_inv s3 ls ∧ signal_result [p] (ls RecvQ) 0 s s3 ∧ st s3 p ≠ Some NOTIFY_NONE.
Proof.
  intros Hinv Hpin Hst Hnt Hsh2 Hcan Hco Hch3. pose proof (inv_shape _ _ Hinv) as Hsh.
  pose proof (qt_ch _ _ (nt_quiet _ _ _ _ _ Hnt)) as Hch. simpl in Hch.
  assert (Hst3 : ∀ q, st s3 q = if decide (p = q) then Some NOTIFY_CANCEL else st s q).
  { intros q. rewrite (ch_only_st _ _ _ Hco). by apply (notifies_st p n). }
  split_and!; [| |by rewrite Hst3, decide_True].
  - apply (linked_notify_inv s s3 ls p NOTIFY_CANCEL); try done; try (rewrite Hch3; simpl; by rewrite Hch).
    + apply (shape_ch s2); [done| |done]. intros []; unfold q_of; by rewrite Hch3.
    + rewrite Hch3. simpl. rewrite Hch. lia.
  - split.
    + etrans; [by eapply evolve_notifies|by apply evolve_ch].
    + pose proof (cnt_update NOTIFY_NONE NOTIFY_CANCEL NOTIFY_SIGNAL s s3 _ p (sh_nodup _ _ Hsh RecvQ) Hpin Hst Hst3) as H.
      rewrite !decide_False in H by done. lia.
    + intros q ->%list_elem_of_singleton. right. right. eapply (canceled_fwd []); [by apply evolve_ch|set_solver|done].
Qed.
(** One step and the rest of the pass. *)
Lemma signal_rest s s1 s2 ls p seg l1 l3 (k k1 k2 max : Z) (ret : bool) :
  wq_inv s ls → wq_inv s1 ls → ls RecvQ = l1 ++ p :: seg ++ l3 → (k ≤ k1)%Z → st s1 p ≠ Some NOTIFY_NONE →
  signal_result [p] (ls RecvQ) (k1 - k) s s1 → signal_result seg (ls RecvQ) (k2 - k1) s1 s2 → (k1 ≤ k2)%Z →
  (if ret then k2 = max else (k2 < max)%Z ∧ ∀ q, q ∈ seg → st s2 q ≠ Some NOTIFY_NONE) →
  signal_result (p :: seg) (ls RecvQ) (k2 - k) s s2 ∧ (k ≤ k2)%Z ∧
  if ret then k2 = max else (k2 < max)%Z ∧ ∀ q, q ∈ p :: seg → st s2 q ≠ Some NOTIFY_NONE.
Proof.
  intros Hinv Hinv1 Hls Hk Hst1 Hsr Hsr2 Hle Hr. pose proof (inv_shape _ _ Hinv) as Hsh.
  pose proof (sh_nodup _ _ Hsh RecvQ) as Hnd. rewrite Hls in Hnd. apply NoDup_app in Hnd as (_ & _ & [Hp _]%NoDup_cons).
  assert (Hp1 : is_Some (nodes s1 !! p)).
  { destruct (shape_lookup s1 ls RecvQ p (inv_shape _ _ Hinv1)); [rewrite Hls; set_solver|eauto]. }
  split_and!; [|lia|].
  - replace (k2 - k)%Z with ((k1 - k) + (k2 - k1))%Z by lia.
    eapply (signal_result_trans [p] seg); try done; [set_solver| |set_solver].
    intros q Hq. destruct (shape_lookup s ls RecvQ q Hsh); [rewrite Hls; set_solver|eauto].
  - destruct ret; [done|]. destruct Hr as [? Hr]. split; [done|].
    intros q [->|Hq]%elem_of_cons; [|auto]. rewrite (ev_st _ _ _ _ (sg_evolve _ _ _ _ _ Hsr2)); [done|set_solver|done].
Qed.
Lemma signal_pass_spec env max l3 seg l1 fuel (k : Z) s ls :
  env_recv_dedupe env = true → wq_inv s ls → ls RecvQ = l1 ++ seg ++ l3 →
  length seg ≤ fuel → (0 ≤ k < max)%Z →
  wp (signal_recv_pass env max (head l3) fuel (head (seg ++ l3)) k) (λ r s',
    wq_inv s' ls ∧ signal_result seg (ls RecvQ) (r.1 - k) s s' ∧ (k ≤ r.1)%Z ∧
    if r.2 then r.1 = max else (r.1 < max)%Z ∧ ∀ p, p ∈ seg → st s' p ≠ Some NOTIFY_NONE) s.
Proof.
  intros Hdd. revert l1 fuel k s. induction seg as [|p seg IH]; intros l1 fuel k s Hinv Hls Hf Hk; simpl.
  { assert (Hout : wp (mret (k, false)) (λ r s', wq_inv s' ls ∧ signal_result [] (ls RecvQ) (r.1 - k) s s' ∧
      (k ≤ r.1)%Z ∧ if r.2 then r.1 = max else (r.1 < max)%Z ∧ ∀ p, p ∈ [] → st s' p ≠ Some NOTIFY_NONE) s).
    { wp_step. simpl. rewrite Z.sub_diag. split_and!; [done|apply signal_result_refl|lia|lia|set_solver]. }
    destruct l3 as [|q l3], fuel; simpl; try rewrite decide_True by done; apply Hout. }
  destruct fuel as [|fuel]; simpl in *; [lia|]. pose proof (inv_shape _ _ Hinv) as Hsh.
  pose proof (sh_nodup _ _ Hsh RecvQ) as Hnd. rewrite Hls in Hnd.
  assert (Hpin : p ∈ ls RecvQ) by (rewrite Hls; set_solver).
  rewrite decide_False.
  2: { intros Heq. symmetry in Heq. apply head_Some_elem_of in Heq. apply NoDup_app in Hnd as (_ & _ & [Hp _]%NoDup_cons).
       apply Hp. set_solver. }
  destruct (shape_lookup s ls RecvQ p Hsh Hpin) as [n Hn].
  wp_step. eapply wp_load; [done|]. cbv beta zeta. rewrite (shape_next s ls RecvQ l1 p _ n Hsh Hls Hn), Hdd.
  assert (Hps : p ∉ seg).
  { apply NoDup_app in Hnd as (_ & _ & [Hp _]%NoDup_cons). set_solver. }
  assert (Hls' : ls RecvQ = (l1 ++ [p]) ++ seg ++ l3) by by rewrite Hls, <- app_assoc.
  (* what the rest of the pass adds to a step that ends in [s1] with [k1] *)
  assert (Hrest : ∀ s1 (k1 : Z), wq_inv s1 ls → signal_result [p] (ls RecvQ) (k1 - k) s s1 → (k ≤ k1 < max)%Z →
    st s1 p ≠ Some NOTIFY_NONE →
    wp (signal_recv_pass env max (head l3) fuel (head (seg ++ l3)) k1) (λ r s',
      wq_inv s' ls ∧ signal_result (p :: seg) (ls RecvQ) (r.1 - k) s s' ∧ (k ≤ r.1)%Z ∧
      if r.2 then r.1 = max else (r.1 < max)%Z ∧ ∀ q, q ∈ p :: seg → st s' q ≠ Some NOTIFY_NONE) s1).
  { intros s1 k1 Hinv1 Hsr Hk1 Hst1. eapply wp_mono; [apply (IH (l1 ++ [p])); [done|done|lia|lia]|].
    intros [k2 ret] s2 (Hinv2 & Hsr2 & Hle & Hr). split; [done|]. apply (signal_rest s s1 s2 ls p seg l1 l3 k k1 k2 max ret); try done; lia. }
  unfold isNone. destruct (bool_decide_reflect (notified n = NOTIFY_NONE)) as [Hno|Hno]; simpl.
  2: { apply Hrest; [done|rewrite Z.sub_diag; apply signal_result_refl|lia|]. unfold st. rewrite Hn. simpl. congruence. }
  wp_step. eapply wp_mono; [by eapply select_try_win_spec|]. intros won s1 (Hq & Hsc & Hwin & Hwon & Hlost).
  assert (Hst : st s p = Some NOTIFY_NONE) by (unfold st; rewrite Hn; simpl; by rewrite Hno).
  assert (Hsome : ∀ q, q ∈ p :: seg → is_Some (nodes s !! q)).
  { intros q Hq'. destruct (shape_lookup s ls RecvQ q Hsh); [rewrite Hls; set_solver|eauto]. }
  destruct won; simpl.
  - assert (Hinv1 : wq_inv s1 ls) by by eapply quiet_inv.
    assert (Hn1 : nodes s1 !! p = Some n) by by rewrite (qt_nodes _ _ Hq).
    wp_go. rewrite (ticket_valid_payload n n s s1), (sh_ticket _ _ Hsh RecvQ p n) by first [done|apply Hq]. simpl.
    wp_step. eapply wp_mono; [by apply (signal_one_recv_spec p n)|]. intros _ s2 (Hinv2 & Hsr & Hn2). cbv beta.
    assert (Hst2 : st s2 p ≠ Some NOTIFY_NONE) by (unfold st; by rewrite Hn2).
    assert (Hsr' : signal_result [p] (ls RecvQ) (k + 1 - k) s s2).
    { replace (k + 1 - k)%Z with 1%Z by lia. eapply signal_result_quiet; [done|done|eauto|by rewrite Hst|done]. }
    case_decide as Hmax; [|apply Hrest; try done; lia].
    unfold upd_ch. wp_go. simpl. assert (k + 1 = max)%Z as <- by lia. split_and!; [| |lia|done].
    + by eapply hint_move_inv.
    + eapply (signal_result_stop p seg _ _ s s2); [done|done| |done]. intros q Hq'. apply Hsome. set_solver.
  - rewrite (Hlost eq_refl) in *.
    wp_step. eapply wp_mono; [eapply select_cancel_spec; [done|done|by eapply (sh_ticket _ _ Hsh)]|].
    intros _ s2 [Hnt Hsh2]. cbv beta. unfold cc__chan_recv_waiter_count_dec, upd_ch. wp_step. wp_step.
    match goal with |- wp _ _ ?s => set (s3 := s) end.
    destruct (signal_lost_step p n s s2 s3 ls) as (Hinv3 & Hsr3 & Hst3); try done; [by eapply (cancel_canceled s s)|].
    apply Hrest; [done|by rewrite Z.sub_diag|lia|done].
Qed.

Lemma signal_result_ext l l' R j s s' :
  (∀ p, p ∈ l ↔ p ∈ l') → signal_result l R j s s' → signal_result l' R j s s'.
Proof.
  intros Hl [He Hc H]. split; [|done|].
  - eapply evolve_mono; [|done]. intros p. apply Hl.
  - intros p Hp. apply H. by apply Hl.
Qed.
Lemma signal_result_weaken l l' R j s s' :
  l ⊆ l' → (∀ p, p ∈ l' → is_Some (nodes s !! p)) → signal_result l R j s s' → signal_result l' R j s s'.
Proof.
  intros Hl Hs [He Hc H]. split; [by eapply evolve_mono|done|].
  intros p Hp. destruct (decide (p ∈ l)) as [?|?]; [auto|]. left. apply (ev_st l); auto.
Qed.
(** Resetting the hint to the head of the list. *)
Lemma hint_head_inv s ls :
  wq_inv s ls → wq_inv (s <| ch ::= λ c, c <| recv_signal_hint := wq_head (recv_waiters (ch s)) |> |>) ls.
Proof.
  intros [Hsh Hc Hi Hh Hs]. split; try done; [by apply (shape_ch s); [|intros []|]|].
  simpl. rewrite (shape_head s ls RecvQ Hsh : wq_head (recv_waiters (ch s)) = _).
  destruct (ls RecvQ); simpl; [done|set_solver].
Qed.
Lemma signal_result_ch l R j s s1 s2 :
  ch_only s1 s2 → signal_result l R j s s1 → signal_result l R j s s2.
Proof.
  intros Hco [He Hc H]. split.
  - etrans; [done|by apply evolve_ch].
  - rewrite <- Hc. f_equal. apply cnt_ext. intros. by apply ch_only_st.
  - intros p Hp. rewrite (ch_only_st _ _ _ Hco). destruct (H p Hp) as [?|[?|?]]; [by left|right; left|right; right].
    + eapply (told_fwd _ []); [by apply evolve_ch|set_solver|done].
    + eapply (canceled_fwd []); [by apply evolve_ch|set_solver|done].
Qed.

(** The contract of [cc__chan_signal_recv_waiters]: [j] receivers newly
    signaled within the budget, and if the budget was not used up then no
    linked receiver is left waiting. *)
Definition signal_recv_result ls (max j : Z) s s' : Prop :=
  wq_inv s' ls ∧ signal_result (ls RecvQ) (ls RecvQ) j s s' ∧ (0 ≤ j ≤ Z.max 0 max)%Z ∧
  ((j < max)%Z → ∀ p, p ∈ ls RecvQ → st s' p ≠ Some NOTIFY_NONE).

Lemma signal_recv_spec env max s ls :
  env_recv_dedupe env = true → wq_inv s ls →
  wp (cc__chan_signal_recv_waiters env max) (λ j, signal_recv_result ls max j s) s.
Proof.
  intros Hdd Hinv. unfold cc__chan_signal_recv_waiters.
  case_decide as Hm; [wp_step; split_and!; [done|apply signal_result_refl|lia|lia|lia]|].
  wp_go. pose proof (inv_shape _ _ Hinv) as Hsh. pose proof (inv_hint _ _ Hinv) as Hh.
  rewrite (shape_head s ls RecvQ Hsh : wq_head (recv_waiters (ch s)) = _).
  destruct (head (ls RecvQ)) as [hd|] eqn:Ehd; simpl.
  2: { apply head_None in Ehd. wp_step. split_and!; [done|apply signal_result_refl|lia|lia|]. rewrite Ehd. set_solver. }
  wp_step. wp_step.
  destruct (recv_signal_hint (ch s)) as [start|]; [|by rewrite Hh in Ehd].
  apply list_elem_of_split in Hh as (l1 & l2 & Hls).
  assert (Hall : ∀ p, p ∈ ls RecvQ → is_Some (nodes s !! p)).
  { intros p Hp. destruct (shape_lookup s ls RecvQ p Hsh Hp). eauto. }
  pose proof (sh_nodup _ _ Hsh RecvQ) as Hnd. rewrite Hls in Hnd. apply NoDup_app in Hnd as (_ & Hd & _).
  wp_go. eapply wp_mono.
  { eapply (signal_pass_spec env max [] (start :: l2) l1 _ 0%Z); [done|done|by rewrite app_nil_r|..|lia].
    etrans; [|by apply (shape_fuel s ls RecvQ)]. rewrite Hls, length_app. simpl. lia. }
  intros [j ret] s1 (Hinv1 & Hsr & Hj & Hr). simpl in Hj, Hr. rewrite Z.sub_0_r in Hsr. simpl in Hsr.
  destruct ret.
  { wp_step. split_and!; [done| |lia|lia|lia]. eapply signal_result_weaken; [|done|done]. rewrite Hls. set_solver. }
  destruct Hr as [Hlt Hnone]. wp_go. pose proof (inv_shape _ _ Hinv1) as Hsh1.
  rewrite (shape_head s1 ls RecvQ Hsh1 : wq_head (recv_waiters (ch s1)) = _).
  case_decide as Hst.
  { unfold upd_ch. wp_go. split_and!; [by apply hint_head_inv| |lia|lia|].
    - apply (signal_result_ch _ _ _ s s1); [done|]. eapply signal_result_weaken; [|done|done]. rewrite Hls. set_solver.
    - intros _ p. rewrite Hls. destruct l1 as [|a l1]; [apply Hnone|].
      rewrite Hls in Hst. simpl in Hst. injection Hst as ->. exfalso. apply (Hd a); set_solver. }
  rewrite decide_True by done. wp_step. replace (head (ls RecvQ)) with (head (l1 ++ start :: l2)) by by rewrite Hls.
  eapply wp_mono.
  { eapply (signal_pass_spec env max (start :: l2) l1 [] _ j); [done|done|done|..|lia].
    etrans; [|by apply (shape_fuel s ls RecvQ)]. rewrite Hls, length_app. simpl. lia. }
  simpl. intros [j2 ret] s2 (Hinv2 & Hsr2 & Hj2 & Hr2). simpl in Hj2, Hr2, Hsr2.
  assert (Hsr' : signal_result (ls RecvQ) (ls RecvQ) j2 s s2).
  { replace j2 with (j + (j2 - j))%Z by lia. eapply signal_result_ext; [|eapply signal_result_trans; [done|done|..]].
    - intros p. rewrite Hls. set_solver.
    - set_solver.
    - intros p Hp. apply Hall. rewrite Hls. set_solver.
    - intros p Hp. destruct (shape_lookup s1 ls RecvQ p Hsh1); [rewrite Hls; set_solver|eauto]. }
  destruct ret; [wp_step; split_and!; [done|done|lia|lia|lia]|].
  destruct Hr2 as [Hlt2 Hnone2]. unfold upd_ch. wp_go.
  split_and!; [by apply hint_head_inv|by apply (signal_result_ch _ _ _ s s2)|lia|lia|].
  intros _ p. rewrite Hls. intros [Hp|Hp]%elem_of_app; [by apply Hnone2|].
  change (st s2 p ≠ Some NOTIFY_NONE).
  rewrite (ev_st _ _ _ _ (sg_evolve _ _ _ _ _ Hsr2)); [by apply Hnone| |].
  - intros Hp1. by apply (Hd p).
  - destruct (shape_lookup s1 ls RecvQ p Hsh1); [rewrite Hls; set_solver|eauto].
Qed.

(** ** A select case taken back to waiting *)

(** The two statements that follow the store of [NOTIFY_NONE]. *)
Lemma rearm_eq p n s (Q : unit → wstate → Prop) :
  nodes s !! p = Some n →
  Q tt (if in_wait_list n then
          s <| ch ::= λ c, c <| has_recv_waiters ::= Z.succ |>
                            <| recv_signal_hint ::= λ h, match h with None => Some p | _ => h end |> |>
        else s) →
  wp (cc__chan_recv_waiter_rearm p) Q s.
Proof.
  intros Hn HQ. unfold cc__chan_recv_waiter_rearm, cc__chan_recv_waiter_count_inc, upd_ch.
  wp_step. eapply wp_load; [done|]. cbv beta. destruct (in_wait_list n); simpl; [|by wp_step].
  wp_go. simpl. destruct s as [[sw rw [h|] ?] ?]; simpl in *; wp_step; exact HQ.
Qed.

(** The effect of storing NONE and rearming, with [i] signals consumed. *)
Lemma resume_rearm p n s ls (i : Z) c :
  wq_inv s ls → nodes s !! p = Some n → p ∉ ls SendQ →
  i = (if decide (NOTIFY_SIGNAL = notified n) then 1 else 0)%Z → notified n ≠ NOTIFY_NONE →
  c = (if in_wait_list n then (ch s) <| recv_wake_inflight := (recv_wake_inflight (ch s) - i)%Z |> else ch s) →
  wp (store p (λ n, n <| notified := NOTIFY_NONE |>);; cc__chan_recv_waiter_rearm p)
   (λ _ s', wq_inv s' ls) (s <| ch := c |>).
Proof.
  intros Hinv Hn Hp Hi Hk Hc. pose proof (inv_shape _ _ Hinv) as Hsh.
  assert (Hoth : ∀ sd', sd' ≠ RecvQ → p ∉ ls sd') by (intros [] Hsd; congruence).
  pose proof (linked_flag s ls p n RecvQ Hsh Hn Hoth) as Hf.
  assert (Hst : st s p = Some (notified n)) by (unfold st; by rewrite Hn).
  wp_step. eapply wp_store; [done|]. cbv beta.
  eapply rearm_eq; [apply lookup_insert_eq|]. simpl.
  match goal with |- wq_inv ?s' _ => set (s1 := s') end.
  assert (Hst1 : ∀ q, st s1 q = if decide (p = q) then Some NOTIFY_NONE else st s q).
  { intros q. unfold st, s1. destruct (in_wait_list n); simpl; rewrite lookup_insert; by destruct (decide (p = q)). }
  assert (Hsh1 : wq_shape s1 ls).
  { apply (shape_ch (s <| nodes := <[p := n <| notified := NOTIFY_NONE |>]> (nodes s) |>)).
    - unfold s1. by destruct (in_wait_list n).
    - unfold s1. rewrite Hc. by destruct (in_wait_list n), sd.
    - by apply store_notified_shape. }
  destruct Hinv as [_ Hc0 Hi0 Hh0 Hs0].
  destruct (in_wait_list n) eqn:Ef.
  - destruct Hf as (l1 & l2 & Hls). assert (Hin : p ∈ ls RecvQ) by (rewrite Hls; set_solver).
    pose proof (λ k', cnt_update (notified n) NOTIFY_NONE k' s s1 _ p (sh_nodup _ _ Hsh RecvQ) Hin Hst Hst1) as Hcnt.
    assert (Hch : ch s1 = (ch s) <| recv_wake_inflight := (recv_wake_inflight (ch s) - i)%Z |>
      <| has_recv_waiters ::= Z.succ |> <| recv_signal_hint ::= λ h, match h with None => Some p | _ => h end |>)
      by by unfold s1; rewrite Hc.
    clearbody s1. split; rewrite ?Hch; simpl; [done| | | |].
    + specialize (Hcnt NOTIFY_NONE). rewrite Hc0. revert Hcnt. repeat case_decide; try congruence; intros; lia.
    + specialize (Hcnt NOTIFY_SIGNAL). rewrite Hi0, Hi. revert Hcnt. clear.
      repeat case_decide; try congruence; intros; lia.
    + destruct (recv_signal_hint (ch s)); [done|]. rewrite Hh0 in Hin. by apply not_elem_of_nil in Hin.
    + intros (q & Hq & Hst'). apply Hs0. exists q. split; [done|]. rewrite Hst1 in Hst'.
      destruct (decide (p = q)); [by subst|done].
  - assert (Heq : ∀ sd q, q ∈ ls sd → st s1 q = st s q).
    { intros sd q Hq. rewrite Hst1, decide_False; [done|]. intros ->. by apply (Hf sd). }
    unfold s1 in *. clear s1. subst c. split; simpl; [done| | |done|].
    + rewrite Hc0. f_equal. symmetry. apply cnt_ext. eauto.
    + rewrite Hi0. f_equal. symmetry. apply cnt_ext. eauto.
    + intros (q & Hq & Hst'). apply Hs0. exists q. by rewrite (Heq SendQ) in Hst'.
Qed.
Lemma match_resume_spec p n s ls :
  wq_inv s ls → nodes s !! p = Some n → p ∉ ls SendQ →
  wp (match_resume_recv p) (λ _ s', wq_inv s' ls) s.
Proof.
  intros Hinv Hn Hp. pose proof (inv_shape _ _ Hinv) as Hsh.
  assert (Hoth : ∀ sd', sd' ≠ RecvQ → p ∉ ls sd') by (intros [] Hsd; congruence).
  pose proof (linked_flag s ls p n RecvQ Hsh Hn Hoth) as Hf.
  assert (Hst : st s p = Some (notified n)) by (unfold st; by rewrite Hn).
  unfold match_resume_recv. wp_step. eapply wp_load; [done|]. cbv beta.
  pose proof (λ i c, resume_rearm p n s ls i c Hinv Hn Hp) as Hmain.
  destruct (notified n) eqn:Ek; try (by wp_step).
  - apply wp_bind_assoc. wp_step. eapply wp_mono; [eapply (Hmain 0%Z (ch s)); [done|done|]|].
    + destruct (in_wait_list n); [|done]. destruct s as [[] ?]. simpl. unfold field_update; simpl. by rewrite Z.sub_0_r.
    + intros ? s1 H1. by wp_step.
  - wp_step. unfold cc__chan_recv_waiter_consume_signal, cc__chan_recv_wake_inflight_dec, upd_ch.
    wp_step. eapply wp_load; [done|]. cbv beta.
    assert (Hgo : ∀ s0, s0 = s <| ch := if in_wait_list n then (ch s) <| recv_wake_inflight := (recv_wake_inflight (ch s) - 1)%Z |> else ch s |> →
      wp (store p (λ n, n <| notified := NOTIFY_NONE |>);; cc__chan_recv_waiter_rearm p;; mret false)
       (λ _ s', wq_inv s' ls) s0).
    { intros s0 ->. apply wp_bind_assoc. wp_step. eapply wp_mono; [by eapply (Hmain 1%Z)|]. intros ? s1 H1. by wp_step. }
    destruct (in_wait_list n); simpl; wp_step; apply Hgo; [|by destruct s].
    destruct Hf as (l1 & l2 & Hls). pose proof (inv_inflight _ _ Hinv) as Hi. rewrite Hls, cnt_unlink, Hst, decide_True in Hi by done.
    destruct s as [[] ?]. simpl in *. unfold field_update; simpl. rewrite Hi, dec_clamp_S. repeat f_equal. lia.
Qed.
