(* ===== verification/WaitSteps.v ===== *)
(** The waiter component as a transition system: every operation of
    [WaitList] that runs under [ch->mu] and the steps of the code around it
    (creating and freeing the nodes, which live on the stacks of the waiting
    fibers, and completing a popped waiter).  Reachable states satisfy the
    invariant and no enabled operation is stuck.  A select that resumes takes a
    receive node back to waiting without the mutex; that code is a sequence of
    accesses of its own, [match_resume_next], interleaved with these steps. *)
From S2P Require Import Prelude ChanTypes WaitList WaitShape WaitQuiet WaitInv WaitOps WaitPop WaitWake.

Implicit Types (s : wstate) (p q f : ptr) (l : list ptr) (ls : side → list ptr) (k : notify).

(** * Definitions *)

Inductive wop :=
  | AddSend p | AddRecv p | RemoveSend p | RemoveRecv p
  | PopSend | PopRecv | WakeOneSend | SignalRecv (max : Z)
  | WakeAll | DrainSendClose | Flush.

Definition discard {A} (m : W A) : W unit := _ ← m; mret tt.
Definition run_wop (env : chan_env) (op : wop) : W unit :=
  match op with
  | AddSend p => cc__chan_add_send_waiter p
  | AddRecv p => cc__chan_add_recv_waiter p
  | RemoveSend p => cc__chan_remove_send_waiter p
  | RemoveRecv p => cc__chan_remove_recv_waiter p
  | PopSend => discard cc__chan_pop_send_waiter
  | PopRecv => discard cc__chan_pop_recv_waiter
  | WakeOneSend => cc__chan_wake_one_send_waiter
  | SignalRecv max => discard (cc__chan_signal_recv_waiters env max)
  | WakeAll => cc__chan_wake_all_waiters
  | DrainSendClose => drain_send_waiters_close
  | Flush => wake_batch_flush
  end.

(** [p] is on the queue [sd], read off the memory. *)
Definition on_list sd p s : Prop := ∃ l, is_queue (q_of sd s) (nodes s) l ∧ p ∈ l.

(** A node may be added when it is on no list and adding it revokes no other
    linked node: it carries its fiber's current ticket, or no linked node
    belongs to its fiber. *)
Definition addable p s : Prop := ∃ n, nodes s !! p = Some n ∧
  in_wait_list n = false ∧ notified n = NOTIFY_NONE ∧
  match fiber n with
  | None => True
  | Some f =>
      if decide (wait_ticket n = 0%Z)
      then ∀ q m, nodes s !! q = Some m → in_wait_list m = true → fiber m ≠ Some f
      else cc__chan_waiter_ticket_valid n s = true
  end.

Definition enabled (op : wop) s : Prop :=
  match op with
  | AddSend p | AddRecv p => addable p s
  | RemoveSend p => is_Some (nodes s !! p) ∧ ~ on_list RecvQ p s
  | RemoveRecv p => is_Some (nodes s !! p) ∧ ~ on_list SendQ p s
  | _ => True
  end.

(** A fresh, unlinked node. *)
Definition fresh_node (n : cc__fiber_wait_node) s : Prop :=
  in_wait_list n = false ∧ ∀ g, select_group n = Some g → is_Some (groups s !! g).

Inductive waiter_step (env : chan_env) : wstate → wstate → Prop :=
  | step_op op s s' : enabled op s → run_wop env op s = Some (tt, s') → waiter_step env s s'
  | step_alloc p n s : nodes s !! p = None → fresh_node n s →
      waiter_step env s (s <| nodes := <[p := n]> (nodes s) |>)
  | step_free p n s : nodes s !! p = Some n → in_wait_list n = false →
      waiter_step env s (s <| nodes := delete p (nodes s) |>)
  | step_complete p n k s : nodes s !! p = Some n → in_wait_list n = false →
      waiter_step env s (s <| nodes := <[p := n <| notified := k |>]> (nodes s) |>)
  | step_group g x s : groups s !! g = None →
      waiter_step env s (s <| groups := <[g := x]> (groups s) |>)
  | step_fiber f t s : tickets s !! f = None →
      waiter_step env s (s <| tickets := <[f := t]> (tickets s) |>).

(** The accesses of [match_resume_recv] one at a time: nothing between two of
    them is protected by the mutex. *)
Inductive resume_pc :=
  | LoadNotified | ConsumeCheck | ConsumeDec | ClearNotified (rearm : bool)
  | RearmCheck (rearm : bool) | RearmCount (rearm : bool) | RearmHintLoad (rearm : bool) | RearmHintStore (rearm : bool)
  | Resumed (rearm : bool).
Definition match_resume_next (p : ptr) (pc : resume_pc) : W resume_pc :=
  match pc with
  | LoadNotified =>
      n ← load p;
      mret (match notified n with NOTIFY_SIGNAL => ConsumeCheck | NOTIFY_CANCEL => ClearNotified true | _ => Resumed false end)
  | ConsumeCheck => n ← load p; mret (if in_wait_list n then ConsumeDec else ClearNotified false)
  | ConsumeDec => cc__chan_recv_wake_inflight_dec;; mret (ClearNotified false)
  | ClearNotified b => store p (λ n, n <| notified := NOTIFY_NONE |>);; mret (RearmCheck b)
  | RearmCheck b => n ← load p; mret (if in_wait_list n then RearmCount b else Resumed b)
  | RearmCount b => cc__chan_recv_waiter_count_inc;; mret (RearmHintLoad b)
  | RearmHintLoad b => h ← gets (λ s, recv_signal_hint (ch s)); mret (if is_none h then RearmHintStore b else Resumed b)
  | RearmHintStore b => upd_ch (λ c, c <| recv_signal_hint := Some p |>);; mret (Resumed b)
  | Resumed b => mret (Resumed b)
  end.
Fixpoint match_resume_run (fuel : nat) (p : ptr) (pc : resume_pc) : W bool :=
  match pc, fuel with
  | Resumed b, _ => mret b
  | _, O => fault
  | _, S fuel' => pc' ← match_resume_next p pc; match_resume_run fuel' p pc'
  end.
(** A resuming select beside the other users of the channel; its node is in the
    frame of the call, so nobody frees it before the call is done. *)
Inductive resume_step (env : chan_env) (p : ptr) : resume_pc * wstate → resume_pc * wstate → Prop :=
  | resume_self pc s pc' s' : match_resume_next p pc s = Some (pc', s') → resume_step env p (pc, s) (pc', s')
  | resume_other pc s s' : waiter_step env s s' → is_Some (nodes s' !! p) ∨ (∃ b, pc = Resumed b) →
      resume_step env p (pc, s) (pc, s').

Definition init_batch : wake_batch :=
  WakeBatch (replicate WAKE_BATCH_SIZE None) (replicate WAKE_BATCH_SIZE 0%Z) 0.
Definition init_chan_waiters : chan_waiters :=
  ChanWaiters (WaiterQueue None None) (WaiterQueue None None) None 0 0 0 0 false None 0.
Definition init_wstate : wstate :=
  WState init_chan_waiters ∅ ∅ ∅ ∅ init_batch 0 [].

(** * Lemmas *)

Lemma dlseg_det h pv pv' l l' : dlseg h pv l None → dlseg h pv' l' None → head l = head l' → l = l'.
Proof.
  revert pv pv' l'. induction l as [|p l IH]; intros pv pv' [|p' l'] H H' Hh; simplify_eq/=; try done.
  destruct H as [Hp H], H' as [Hp' H']. f_equal. eapply IH; [done|done|].
  rewrite Hp in Hp'. rewrite !hd_or_None in Hp'. congruence.
Qed.
Lemma on_list_shape sd p s ls : wq_shape s ls → on_list sd p s ↔ p ∈ ls sd.
Proof.
  intros Hsh. destruct (sh_queue _ _ Hsh sd) as (Hh & Ht & Hd). split.
  - intros (l & (Hh' & _ & Hd') & Hp). assert (l = ls sd) as <-; [|done].
    eapply dlseg_det; [done|done|]. congruence.
  - intros Hp. exists (ls sd). split; [|done]. by apply Hsh.
Qed.

Lemma addable_can p s ls : wq_shape s ls → addable p s →
  ∃ n, can_enlist p n s ls ∧ notified n = NOTIFY_NONE.
Proof.
  intros Hsh (n & Hn & Hf & Hno & Hm). exists n. split; [|done]. split_and!; [done| |].
  - intros sd Hin. assert (in_wait_list n = true); [|congruence]. apply (sh_flag _ _ Hsh p n Hn). eauto.
  - destruct (fiber n); [|done]. case_decide; [|done].
    intros sd q m Hq Hqm. apply (Hm q); [done|]. apply (sh_flag _ _ Hsh q m Hqm). eauto.
Qed.

(** An enabled operation runs to completion and keeps the invariant. *)
Lemma wp_discard {A} (m : W A) (Q : wstate → Prop) s :
  wp m (λ _, Q) s → wp (discard m) (λ _, Q) s.
Proof. intros H. unfold discard. apply wp_bind. eapply wp_mono; [done|]. intros a s' HQ. by apply wp_ret. Qed.

Lemma run_wop_inv env op s ls :
  env_recv_dedupe env = true → wq_inv s ls → enabled op s →
  wp (run_wop env op) (λ _ s', ∃ ls', wq_inv s' ls') s.
Proof.
  intros Hdd Hinv Hen. pose proof (inv_shape _ _ Hinv) as Hsh. destruct op; simpl in *.
  - destruct (addable_can _ _ _ Hsh Hen) as (n & ? & ?).
    eapply wp_mono; [by eapply add_send_waiter_spec|intros ? s' Hx; eexists; exact Hx].
  - destruct (addable_can _ _ _ Hsh Hen) as (n & ? & ?).
    eapply wp_mono; [by eapply add_recv_waiter_spec|intros ? s' Hx; eexists; exact Hx].
  - destruct Hen as [[n ?] Hp]. rewrite (on_list_shape RecvQ _ _ ls) in Hp by done.
    eapply wp_mono; [by eapply remove_send_waiter_spec|intros ? s' Hx; eexists; exact Hx].
  - destruct Hen as [[n ?] Hp]. rewrite (on_list_shape SendQ _ _ ls) in Hp by done.
    eapply wp_mono; [by eapply remove_recv_waiter_spec|intros ? s' Hx; eexists; exact Hx].
  - apply wp_discard. eapply wp_mono; [by apply pop_send_waiter_spec|]. intros o s' (? & ? & ? & ? & _). eauto.
  - apply wp_discard. eapply wp_mono; [by apply pop_recv_waiter_spec|]. intros o s' (? & ? & ? & ? & _). eauto.
  - eapply wp_mono; [by apply wake_one_send_spec|]. intros ? s' (? & ? & ? & ? & ? & _). eauto.
  - apply wp_discard. eapply wp_mono; [by apply signal_recv_spec|]. intros j s' (? & _). eauto.
  - eapply wp_mono; [by apply wake_all_spec|]. intros ? s' (? & _). eauto.
  - unfold drain_send_waiters_close. wp_go.
    eapply wp_mono; [apply wake_close_loop_spec; [done|by apply shape_fuel]|]. intros ? s' (? & _). eauto.
  - eapply wp_mono; [apply wake_batch_flush_spec, Hsh|]. intros ? s' (? & _). exists ls. by eapply quiet_inv.
Qed.

(** Changing the memory outside the lists. *)
Lemma unlinked_nodes_inv s h ls :
  wq_inv s ls →
  (∀ sd q, q ∈ ls sd → h !! q = nodes s !! q) →
  (∀ q n, h !! q = Some n → in_wait_list n = true → nodes s !! q = Some n) →
  (∀ q n g, h !! q = Some n → select_group n = Some g → is_Some (groups s !! g)) →
  wq_inv (s <| nodes := h |>) ls.
Proof.
  intros [Hsh Hc Hi Hh Hs] Hlk Hfl Hgr.
  assert (Hst : ∀ sd q, q ∈ ls sd → st (s <| nodes := h |>) q = st s q).
  { intros sd q Hq. unfold st. simpl. by rewrite (Hlk sd). }
  split; try done.
  - destruct Hsh as [Hq Hnd Hdj Hf Ht Hg Hb]. split; try done.
    + intros sd. destruct (Hq sd) as (? & ? & Hd). rewrite q_of_nodes. split_and!; try done.
      eapply dlseg_frame; [|done]. intros q Hin. unfold links. simpl. by rewrite (Hlk sd).
    + intros q n Hn. simpl in Hn. split.
      * intros Hin. apply (Hf q n); [by apply Hfl|done].
      * intros [sd Hin]. rewrite (Hlk sd) in Hn by done. apply (Hf q n Hn). eauto.
    + intros sd q n Hin Hn. simpl in Hn. rewrite (Hlk sd) in Hn by done.
      rewrite <- (Ht sd q n Hin Hn). by apply ticket_valid_payload.
  - simpl. rewrite Hc. f_equal. symmetry. apply cnt_ext. eauto.
  - simpl. rewrite Hi. f_equal. symmetry. apply cnt_ext. eauto.
  - intros (q & Hq & Hk). apply Hs. exists q. by rewrite (Hst SendQ) in Hk.
Qed.

Lemma unlinked_notin s ls p n : wq_shape s ls → nodes s !! p = Some n → in_wait_list n = false → ∀ sd, p ∉ ls sd.
Proof.
  intros Hsh Hn Hf sd Hin. assert (in_wait_list n = true); [|congruence]. apply (sh_flag _ _ Hsh p n Hn). eauto.
Qed.

Lemma step_inv env s s' ls :
  env_recv_dedupe env = true → wq_inv s ls → waiter_step env s s' → ∃ ls', wq_inv s' ls'.
Proof.
  intros Hdd Hinv Hstep. pose proof (inv_shape _ _ Hinv) as Hsh.
  destruct Hstep as [op s s' Hen Hrun|p n s Hp [Hf Hg]|p n s Hn Hf|p n k s Hn Hf|g x s Hg|f t s Ht].
  - exact (wp_unfold _ _ _ _ _ Hrun (run_wop_inv env op s ls Hdd Hinv Hen)).
  - exists ls. apply unlinked_nodes_inv; [done|..].
    + intros sd q Hq. destruct (shape_lookup _ _ _ _ Hsh Hq). rewrite lookup_insert_ne; [done|congruence].
    + intros q m Hm Hfm. destruct (decide (p = q)) as [->|]; simplify_map_eq; congruence.
    + intros q m g Hm Hgm. destruct (decide (p = q)) as [->|]; simplify_map_eq; [by apply Hg|by eapply Hsh].
  - exists ls. pose proof (unlinked_notin _ _ _ _ Hsh Hn Hf) as Hnp. apply unlinked_nodes_inv; [done|..].
    + intros sd q Hq. rewrite lookup_delete_ne; [done|]. intros ->. by apply (Hnp sd).
    + intros q m Hm _. by apply lookup_delete_Some in Hm as [_ ?].
    + intros q m g Hm. apply lookup_delete_Some in Hm as [_ ?]. by eapply Hsh.
  - exists ls. pose proof (unlinked_notin _ _ _ _ Hsh Hn Hf) as Hnp. apply unlinked_nodes_inv; [done|..].
    + intros sd q Hq. rewrite lookup_insert_ne; [done|]. intros ->. by apply (Hnp sd).
    + intros q m Hm Hfm. destruct (decide (p = q)) as [->|]; simplify_map_eq; congruence.
    + intros q m g Hm. destruct (decide (p = q)) as [->|]; simplify_map_eq; [by apply (sh_groups _ _ Hsh q n)|by eapply Hsh].
  - exists ls. eapply quiet_inv; [|done]. split; simpl; try done. intros g' x' Hx'.
    exists x'. split; [|done]. rewrite lookup_insert_ne; [done|congruence].
  - exists ls. destruct Hinv as [_ Hc Hi Hh Hs]. split; try done.
    apply (shape_unlinked s); simpl; try done; try apply Hsh.
    intros sd q n Hq Hn. pose proof (sh_ticket _ _ Hsh sd q n Hq Hn) as Hv. revert Hv.
    unfold cc__chan_waiter_ticket_valid, cc__fiber_wait_ticket_matches. destruct (fiber n) as [f'|]; [|done].
    case_decide; [done|]. simpl. destruct (decide (f = f')) as [->|]; [by rewrite Ht|by rewrite lookup_insert_ne].
Qed.

Lemma init_inv : wq_inv init_wstate (λ _, []).
Proof.
  assert (Hb : batch_ok init_batch) by (split_and!; [done|done|simpl; lia|simpl; lia]).
  split; try done; [|intros (q & Hq & _); by apply not_elem_of_nil in Hq]. split; try done; try (by intros []).
  all: intros; try constructor; exfalso; by eapply not_elem_of_nil.
Qed.
Lemma reachable_inv env s :
  env_recv_dedupe env = true → rtc (waiter_step env) init_wstate s → ∃ ls, wq_inv s ls.
Proof.
  intros Hdd Hr. assert (Hinit : ∃ ls, wq_inv init_wstate ls) by eauto using init_inv.
  revert Hinit. induction Hr as [|s1 s2 s3 Hst _ IH]; [done|]. intros [ls Hls]. apply IH. by eapply step_inv.
Qed.
