(* ===== verification/WaitSelect.v ===== *)
(** Select arbitration across the whole waiter component: a select group gets
    at most one winner, whatever sequence of operations runs. *)
From S2P Require Import Prelude ChanTypes WaitList WaitShape WaitQuiet WaitInv WaitOps WaitPop WaitWake WaitSteps.

Implicit Types (s : wstate) (p q f g : ptr).

(** * Definitions *)

(** Groups stay, and a group that has a winner keeps it. *)
Definition groups_mono s s' : Prop :=
  ∀ g x, groups s !! g = Some x → ∃ x', groups s' !! g = Some x' ∧
    (selected_index x ≠ (-1)%Z → selected_index x' = selected_index x).

(** * Lemmas *)

#[export] Instance groups_mono_preorder : PreOrder groups_mono.
Proof.
  split; [intros s g x; eauto|]. intros s1 s2 s3 H12 H23 g x Hg.
  destruct (H12 g x Hg) as (y & Hy & Hs). destruct (H23 g y Hy) as (z & Hz & Hs'). exists z.
  split; [done|]. intros Hne. rewrite Hs'; [auto|]. rewrite Hs; auto.
Qed.

Lemma groups_mono_eq s s' : groups s' = groups s → groups_mono s s'.
Proof. intros H g x. rewrite H. eauto. Qed.
Lemma groups_mono_modify (h : wstate → wstate) : (∀ s, groups (h s) = groups s) → frame groups_mono (modify h).
Proof. intros H. apply frame_modify. intros s. by apply groups_mono_eq. Qed.
#[export] Hint Extern 1 (frame groups_mono (modify _)) => apply groups_mono_modify; intros ?; reflexivity : frame.
#[export] Hint Extern 1 (frame groups_mono (upd_ch _)) => apply groups_mono_modify; intros ?; reflexivity : frame.
#[export] Hint Extern 1 (frame groups_mono (emit _)) => apply groups_mono_modify; intros ?; reflexivity : frame.

Lemma frame_load p : frame groups_mono (load p).
Proof. intros s a s'. unfold load. by destruct (nodes s !! p); intros [= _ <-]. Qed.
Lemma frame_store p h : frame groups_mono (store p h).
Proof. intros s a s'. unfold store. destruct (nodes s !! p); intros [= _ <-]. by apply groups_mono_eq. Qed.
Lemma frame_load_group g : frame groups_mono (load_group g).
Proof. intros s a s'. unfold load_group. by destruct (groups s !! g); intros [= _ <-]. Qed.
#[export] Hint Resolve frame_load frame_store frame_load_group : frame.

Lemma frame_set_head sd o : frame groups_mono (set_head sd o).
Proof. unfold set_head, set_q. destruct sd; frame_auto. Qed.
Lemma frame_set_tail sd o : frame groups_mono (set_tail sd o).
Proof. unfold set_tail, set_q. destruct sd; frame_auto. Qed.
#[export] Hint Resolve frame_set_head frame_set_tail : frame.

Lemma frame_bump p : frame groups_mono (bump_signaled p).
Proof.
  unfold bump_signaled. apply frame_bind; [apply _|apply frame_load|]. intros n.
  destruct (is_select n), (select_group n) as [g|]; try (apply frame_ret; apply _).
  intros s a s'. unfold store_group. destruct (groups s !! g) as [x|] eqn:Hx; intros [= _ <-].
  intros g' y Hy. simpl. destruct (decide (g = g')) as [<-|]; simplify_map_eq; eauto.
Qed.
Lemma frame_try_win p : frame groups_mono (cc__chan_select_try_win p).
Proof.
  unfold cc__chan_select_try_win, cc__wait_select_try_win, cas_selected. apply frame_bind; [apply _|apply frame_load|]. intros n.
  destruct (is_select n), (select_group n) as [g|]; try (apply frame_ret; apply _).
  intros s a s'. unfold mbind, M_bind, load_group, store_group.
  destruct (groups s !! g) as [x|] eqn:Hx; [|done]. case_decide; [by intros [= _ <-]|].
  case_decide as Hm; [|by intros [= _ <-]]. rewrite Hx. rewrite decide_True by done. rewrite Hx. intros [= _ <-].
  intros g' y Hy. simpl. destruct (decide (g = g')) as [<-|]; simplify_map_eq; [|eauto].
  eexists. split; [done|]. intros Hne. by destruct Hne.
Qed.
#[export] Hint Resolve frame_bump frame_try_win : frame.

Lemma frame_flush_from n i : frame groups_mono (wake_batch_flush_from n i).
Proof. revert i. induction n as [|n IH]; intros i; simpl; frame_auto. Qed.
#[export] Hint Resolve frame_flush_from : frame.
Lemma frame_flush : frame groups_mono wake_batch_flush.
Proof. unfold wake_batch_flush. frame_auto. Qed.
#[export] Hint Resolve frame_flush : frame.
Lemma frame_add o : frame groups_mono (wake_batch_add o).
Proof. unfold wake_batch_add. frame_auto. Qed.
Lemma frame_add_chan o : frame groups_mono (wake_batch_add_chan o).
Proof. unfold wake_batch_add_chan. frame_auto. Qed.
#[export] Hint Resolve frame_add frame_add_chan : frame.

Lemma frame_cancel p : frame groups_mono (cc__chan_select_cancel_node p).
Proof. unfold cc__chan_select_cancel_node. frame_auto. Qed.
Lemma frame_unlink_head sd p : frame groups_mono (unlink_head sd p).
Proof. unfold unlink_head. frame_auto. Qed.
Lemma frame_remove_list sd p : frame groups_mono (cc__chan_remove_waiter_list sd p).
Proof. unfold cc__chan_remove_waiter_list. frame_auto. Qed.
Lemma frame_publish f : frame groups_mono (cc__fiber_publish_wait_ticket f).
Proof.
  intros s a s'. unfold cc__fiber_publish_wait_ticket. destruct (tickets s !! f); intros [= _ <-]; by apply groups_mono_eq.
Qed.
#[export] Hint Resolve frame_cancel frame_unlink_head frame_remove_list frame_publish : frame.
Lemma frame_add_waiter sd p : frame groups_mono (cc__chan_add_waiter sd p).
Proof. unfold cc__chan_add_waiter. frame_auto. Qed.
Lemma frame_advance p o : frame groups_mono (cc__chan_recv_signal_hint_advance p o).
Proof. unfold cc__chan_recv_signal_hint_advance. frame_auto. Qed.
Lemma frame_wakeable fuel o : frame groups_mono (cc__chan_has_wakeable_waiter fuel o).
Proof. revert o. induction fuel as [|fuel IH]; intros [p|]; simpl; frame_auto. Qed.
#[export] Hint Resolve frame_add_waiter frame_advance frame_wakeable : frame.
Lemma frame_refresh : frame groups_mono cc__chan_refresh_has_send_waiters.
Proof. unfold cc__chan_refresh_has_send_waiters. frame_auto. Qed.
#[export] Hint Resolve frame_refresh : frame.

Lemma frame_remove_send p : frame groups_mono (cc__chan_remove_send_waiter p).
Proof. unfold cc__chan_remove_send_waiter. frame_auto. Qed.
Lemma frame_remove_recv p : frame groups_mono (cc__chan_remove_recv_waiter p).
Proof.
  unfold cc__chan_remove_recv_waiter, cc__chan_recv_waiter_count_dec, cc__chan_recv_wake_inflight_dec. frame_auto.
Qed.
Lemma frame_pop_send_loop fuel : frame groups_mono (cc__chan_pop_send_waiter_loop fuel).
Proof. induction fuel as [|fuel IH]; simpl; frame_auto. Qed.
Lemma frame_pop_recv_loop fuel : frame groups_mono (cc__chan_pop_recv_waiter_loop fuel).
Proof.
  induction fuel as [|fuel IH]; simpl;
    unfold cc__chan_recv_waiter_count_dec, cc__chan_recv_wake_inflight_dec; frame_auto.
Qed.
Lemma frame_wake_one_send_loop fuel : frame groups_mono (cc__chan_wake_one_send_waiter_loop fuel).
Proof. induction fuel as [|fuel IH]; simpl; frame_auto. Qed.
Lemma frame_signal_one p : frame groups_mono (signal_one_recv p).
Proof.
  unfold signal_one_recv, cc__chan_recv_waiter_count_dec, cc__chan_recv_wake_inflight_inc. frame_auto.
Qed.
#[export] Hint Resolve frame_remove_send frame_remove_recv frame_pop_send_loop frame_pop_recv_loop
  frame_wake_one_send_loop frame_signal_one : frame.
Lemma frame_signal_pass env max stop fuel o j : frame groups_mono (signal_recv_pass env max stop fuel o j).
Proof.
  revert o j. induction fuel as [|fuel IH]; intros [p|] j; simpl; unfold cc__chan_recv_waiter_count_dec; frame_auto.
Qed.
Lemma frame_wake_recv_close : frame groups_mono cc__chan_wake_one_recv_waiter_close.
Proof.
  unfold cc__chan_wake_one_recv_waiter_close, cc__chan_recv_waiter_count_dec, cc__chan_recv_wake_inflight_dec. frame_auto.
Qed.
Lemma frame_wake_send_close : frame groups_mono cc__chan_wake_one_send_waiter_close.
Proof. unfold cc__chan_wake_one_send_waiter_close. frame_auto. Qed.
#[export] Hint Resolve frame_signal_pass frame_wake_recv_close frame_wake_send_close : frame.
Lemma frame_close_loop sd fuel : frame groups_mono (wake_close_loop sd fuel).
Proof. induction fuel as [|fuel IH]; simpl; destruct sd; frame_auto. Qed.
#[export] Hint Resolve frame_close_loop : frame.

Lemma frame_run_wop env op : frame groups_mono (run_wop env op).
Proof.
  destruct op; simpl; unfold discard, cc__chan_add_send_waiter, cc__chan_add_recv_waiter,
    cc__chan_recv_waiter_count_inc, cc__chan_pop_send_waiter, cc__chan_pop_recv_waiter,
    cc__chan_wake_one_send_waiter, cc__chan_signal_recv_waiters, cc__chan_wake_all_waiters,
    drain_send_waiters_close; frame_auto.
Qed.

Lemma waiter_steps_mono env s s' : rtc (waiter_step env) s s' → groups_mono s s'.
Proof.
  induction 1 as [|s1 s2 s3 Hst _ IH]; [done|]. etrans; [|done].
  destruct Hst as [op s s' _ Hrun| | | |g x s Hg|]; try by apply groups_mono_eq.
  - by eapply frame_run_wop.
  - intros g' y Hy. exists y. simpl. rewrite lookup_insert_ne; [done|congruence].
Qed.
