(* ===== verification/WaitProps.v ===== *)
(** The properties of the waiter component, with concrete instances. *)
From S2P Require Import Prelude ChanTypes WaitList WaitShape WaitQuiet WaitInv WaitOps WaitPop WaitWake WaitSteps WaitSelect.

Implicit Types (s : wstate) (p q f g : ptr) (ls : side → list ptr).

(** * A concrete channel

    Two parked receivers: node 1 is a case of a select (group 7) that another
    case has already won, node 2 is a plain receive. *)
Definition demo_node f (grp : option ptr) (idx : Z) : cc__fiber_wait_node :=
  WaitNode (Some f) 0 None None None NOTIFY_NONE grp idx
           (match grp with Some _ => true | None => false end) false.
Definition demo0 : wstate :=
  init_wstate <| nodes := {[ 1 := demo_node 101 (Some 7) 0; 2 := demo_node 102 None 0 ]} |>
              <| groups := {[ 7 := SelectGroup (Some 101) 0 1 ]} |>
              <| tickets := {[ 101 := 5%Z; 102 := 9%Z ]} |>.
Definition state_after {A} (m : W A) s : wstate := default s (snd <$> m s).
Definition demo1 : wstate := state_after (cc__chan_add_recv_waiter 1) demo0.
Definition demo2 : wstate := state_after (cc__chan_add_recv_waiter 2) demo1.
Definition demo_lists : side → list ptr := <[RecvQ := [1; 2]]> (λ _, []).
(** The same channel with node 2 parked as a sender instead. *)
Definition demo_send1 : wstate := state_after (cc__chan_add_send_waiter 2) demo1.
Definition demo_send_lists : side → list ptr := <[SendQ := [2]]> (<[RecvQ := [1]]> (λ _, [])).

Lemma demo0_inv : wq_inv demo0 (λ _, []).
Proof.
  assert (Hg : wq_inv (init_wstate <| groups := {[ 7 := SelectGroup (Some 101) 0 1 ]} |>
    <| tickets := {[ 101 := 5%Z; 102 := 9%Z ]} |>) (λ _, [])).
  { destruct init_inv as [Hsh Hc Hi Hh Hs]. split; try done.
    apply (shape_unlinked init_wstate); simpl; try done; try apply Hsh. }
  refine (unlinked_nodes_inv _ {[ 1 := demo_node 101 (Some 7) 0; 2 := demo_node 102 None 0 ]} _ Hg _ _ _).
  - intros sd q Hq. by apply not_elem_of_nil in Hq.
  - intros q n. rewrite lookup_insert_Some, lookup_singleton_Some. intros [[_ <-]|[_ [_ <-]]]; done.
  - intros q n g. rewrite lookup_insert_Some, lookup_singleton_Some.
    intros [[_ <-]|[_ [_ <-]]]; simpl; intros [= <-]. by eexists.
Qed.
Lemma state_after_wp {A} (m : W A) s (Q : wstate → Prop) : wp m (λ _, Q) s → Q (state_after m s).
Proof. intros (a & s' & Hm & HQ). unfold state_after. by rewrite Hm. Qed.
Lemma demo1_inv : wq_inv demo1 (<[RecvQ := [1]]> (λ _, [])).
Proof.
  unfold demo1. apply state_after_wp.
  apply (add_recv_waiter_spec 1 (demo_node 101 (Some 7) 0) demo0 (λ _, []) demo0_inv); [|done].
  split_and!; [done| |]; simpl; intros; set_solver.
Qed.
Lemma demo_member sd q : q ∈ (<[RecvQ := [1]]> (λ _, []) : side → list ptr) sd → q = 1.
Proof. destruct sd; simpl; set_solver. Qed.
Lemma demo2_can : can_enlist 2 (demo_node 102 None 0) demo1 (<[RecvQ := [1]]> (λ _, [])).
Proof.
  split_and!; [by vm_compute| |].
  - intros sd Hin%demo_member. done.
  - simpl. intros sd q m Hin%demo_member Hm. subst q.
    assert (fiber <$> nodes demo1 !! 1 = Some (Some 101)) as Hf by by vm_compute. rewrite Hm in Hf. simpl in Hf. congruence.
Qed.
Lemma demo2_inv : wq_inv demo2 demo_lists.
Proof.
  eapply wq_inv_ext; [|unfold demo2; apply state_after_wp;
    exact (add_recv_waiter_spec 2 _ demo1 _ demo1_inv demo2_can eq_refl)]. by intros [].
Qed.
Lemma demo_send1_inv : wq_inv demo_send1 demo_send_lists.
Proof.
  eapply wq_inv_ext; [|unfold demo_send1; apply state_after_wp;
    exact (add_send_waiter_spec 2 _ demo1 _ demo1_inv demo2_can)]. by intros [].
Qed.

(** ** Reached states *)

Lemma addable_fresh p n f s :
  nodes s !! p = Some n → (in_wait_list n, notified n, fiber n, wait_ticket n) = (false, NOTIFY_NONE, Some f, 0%Z) →
  bool_decide (map_Forall (λ _ m, in_wait_list m = true → fiber m ≠ Some f) (nodes s)) = true → addable p s.
Proof.
  intros Hn [= Hl Hno Hf Ht] Hm%bool_decide_eq_true. exists n. split_and!; [done..|]. rewrite Hf, decide_True by done.
  intros q m Hq. by apply (Hm q m).
Qed.
Ltac concretely := vm_compute; reflexivity.
(** Take one operation from the state in the goal, or one of its resuming select. *)
Ltac take o := eapply rtc_l; [apply (step_op _ o); [try exact I|concretely]|].
Ltac enlist := eapply addable_fresh; concretely.
Ltac resume := eapply rtc_l; [apply resume_self; concretely|].

Lemma two_waiters_reached : ∃ s, rtc (waiter_step default_env) init_wstate s ∧
  (wq_head (recv_waiters (ch s)), wq_tail (recv_waiters (ch s)), has_recv_waiters (ch s), recv_wake_inflight (ch s)) = (Some 1, Some 2, 1%Z, 1%Z).
Proof.
  eexists. split.
  - eapply rtc_l; [apply (step_fiber _ 101 5); reflexivity|]. eapply rtc_l; [apply (step_fiber _ 102 9); reflexivity|].
    eapply rtc_l; [apply (step_alloc _ 1 (demo_node 101 None 0)); [reflexivity|done]|].
    eapply rtc_l; [apply (step_alloc _ 2 (demo_node 102 None 0)); [reflexivity|done]|].
    take (AddRecv 1); [enlist|]. take (AddRecv 2); [enlist|]. take (SignalRecv 1). apply rtc_refl.
  - concretely.
Qed.

(** A select of one receive, enlisted and signaled. *)
Definition signaled_select : wstate :=
  let s := init_wstate <| groups := {[ 7 := SelectGroup (Some 101) 0 (-1) ]} |> <| tickets := {[ 101 := 5%Z; 102 := 9%Z ]} |>
                       <| nodes := {[ 1 := demo_node 101 (Some 7) 0 ]} |> in
  state_after (run_wop default_env (SignalRecv 1)) (state_after (run_wop default_env (AddRecv 1)) s).
Lemma select_signaled : rtc (waiter_step default_env) init_wstate signaled_select.
Proof.
  eapply rtc_l; [apply (step_fiber _ 102 9); reflexivity|]. eapply rtc_l; [apply (step_fiber _ 101 5); reflexivity|].
  eapply rtc_l; [apply (step_group _ 7 (SelectGroup (Some 101) 0 (-1))); reflexivity|].
  eapply rtc_l; [apply (step_alloc _ 1 (demo_node 101 (Some 7) 0)); [reflexivity|split; [done|intros g [= <-]; by eexists]]|].
  take (AddRecv 1); [enlist|]. take (SignalRecv 1). apply rtc_refl.
Qed.

Lemma match_resume_run_S k p pc s : (∀ b, pc ≠ Resumed b) →
  match_resume_run (S k) p pc s = match match_resume_next p pc s with Some (pc', s') => match_resume_run k p pc' s' | None => None end.
Proof. intros H. destruct pc; try reflexivity. by destruct (H rearm). Qed.
Lemma rearm_run k p b s : is_Some (nodes s !! p) →
  match_resume_run (S (S (S (S k)))) p (RearmCheck b) s = (cc__chan_recv_waiter_rearm p;; mret b) s.
Proof.
  intros [n Hn]. unfold cc__chan_recv_waiter_rearm. rewrite match_resume_run_S by done.
  cbn [match_resume_next]. unfold mbind, M_bind, load. rewrite Hn. cbn [mret M_ret]. destruct (in_wait_list n); [|reflexivity].
  rewrite match_resume_run_S by done. cbn [match_resume_next negb]. unfold mbind, M_bind, cc__chan_recv_waiter_count_inc, upd_ch, modify, gets. cbn.
  unfold mbind, M_bind. cbn. destruct (recv_signal_hint (ch s)); cbn; [done|]. by destruct k.
Qed.
Lemma clear_run k p b s : is_Some (nodes s !! p) →
  match_resume_run (S (S (S (S (S k))))) p (ClearNotified b) s =
  (store p (λ n, n <| notified := NOTIFY_NONE |>);; cc__chan_recv_waiter_rearm p;; mret b) s.
Proof.
  intros [n Hn]. rewrite match_resume_run_S by done. cbn [match_resume_next]. unfold mbind at 1 2, M_bind, store. rewrite Hn.
  cbn [mret M_ret]. apply rearm_run. simpl. rewrite lookup_insert_eq. by eexists.
Qed.
Lemma match_resume_run_eq p s : match_resume_run 8 p LoadNotified s = match_resume_recv p s.
Proof.
  unfold match_resume_recv, cc__chan_recv_waiter_consume_signal. rewrite match_resume_run_S by done.
  cbn [match_resume_next]. unfold mbind at 1 2, M_bind, load. destruct (nodes s !! p) as [n|] eqn:Hn; [|done].
  assert (Hs : is_Some (nodes s !! p)) by by eexists. cbn [mret M_ret]. destruct (notified n); try done; [by apply clear_run|].
  rewrite match_resume_run_S by done. cbn [match_resume_next]. unfold mbind at 1, M_bind, load at 1. rewrite Hn. cbn [mret M_ret].
  destruct (in_wait_list n) eqn:Hl.
  - rewrite match_resume_run_S by done. cbn [match_resume_next]. unfold mbind at 1, M_bind. unfold cc__chan_recv_wake_inflight_dec at 1, upd_ch, modify. cbn [mret M_ret].
    rewrite clear_run by done. symmetry. unfold mbind, M_bind. cbv beta. rewrite Hn, Hl. done.
  - rewrite clear_run by done. symmetry. unfold mbind, M_bind. cbv beta. rewrite Hn, Hl. done.
Qed.
Lemma resume_interrupted : ∃ s, rtc (resume_step default_env 1) (LoadNotified, signaled_select) (Resumed false, s) ∧
  recv_signal_hint (ch s) = Some 1 ∧ nodes s !! 1 = None ∧ wq_head (recv_waiters (ch s)) = Some 2 ∧
  run_wop default_env (SignalRecv 1) s = None.
Proof.
  eexists. split.
  - resume. resume. resume. resume. resume. resume.
    eapply rtc_l; [apply resume_other; [apply (step_op _ PopRecv); [exact I|concretely]|left; by eexists]|].
    resume. resume.
    eapply rtc_l; [apply resume_other; [eapply (step_complete _ 1 _ NOTIFY_DATA); concretely|right; eauto]|].
    eapply rtc_l; [apply resume_other; [eapply (step_free _ 1); concretely|right; eauto]|].
    eapply rtc_l; [apply resume_other; [apply (step_alloc _ 2 (demo_node 102 None 0)); [concretely|done]|right; eauto]|].
    eapply rtc_l; [apply resume_other; [apply (step_op _ (AddRecv 2)); [enlist|concretely]|right; eauto]|]. apply rtc_refl.
  - split_and!; concretely.
Qed.

(** * Properties *)

(** C8: With duplicate-wake suppression on (the default), in every state
    reachable from a fresh channel by the waiter operations that run under the
    channel's mutex, and by the creation, completion and freeing of unlinked
    nodes, the waiter lists satisfy their invariant (two well-formed disjoint
    doubly-linked lists whose membership is [in_wait_list], [has_recv_waiters]
    and [recv_wake_inflight] exactly the numbers of waiting and signaled
    receivers, the signal hint on the list, the send flag set while a sender
    waits), and every enabled operation runs to completion there: no dereference
    of a dead node, no batch overrun, no loop that fails to stop.  A node is
    added only when that revokes no other linked node of its fiber, and removed
    on its own side.  The resume of a select, which does not take the mutex, is
    not among the operations. *)
Theorem waiter_lists_safe env s :
  env_recv_dedupe env = true → rtc (waiter_step env) init_wstate s →
  (∃ ls, wq_inv s ls) ∧ ∀ op, enabled op s → ∃ s', run_wop env op s = Some (tt, s').
Proof.
  intros Hdd Hr. destruct (reachable_inv env s Hdd Hr) as [ls Hls]. split; [eauto|].
  intros op Hen. destruct (run_wop_inv env op s ls Hdd Hls Hen) as ([] & s' & Hs & _). eauto.
Qed.
(** Two receivers join the list and one is signaled. *)
Lemma waiter_lists_safe_witness :
  ∃ s, rtc (waiter_step default_env) init_wstate s ∧
    (wq_head (recv_waiters (ch s)), wq_tail (recv_waiters (ch s)), has_recv_waiters (ch s), recv_wake_inflight (ch s)) = (Some 1, Some 2, 1%Z, 1%Z) ∧
    (∃ ls, wq_inv s ls) ∧ ∀ op, enabled op s → ∃ s', run_wop default_env op s = Some (tt, s').
Proof.
  destruct two_waiters_reached as (s & Hr & Hs). exists s. split; [exact Hr|]. split; [exact Hs|].
  apply (waiter_lists_safe default_env s); [reflexivity|exact Hr].
Defined.

(** The resume of a select, run without interruption, takes its receive node
    back to waiting and keeps the invariant: the accesses of [match_resume_next]
    in sequence are [match_resume_recv]. *)
Theorem select_resume_alone p n s ls :
  wq_inv s ls → nodes s !! p = Some n → p ∉ ls SendQ →
  ∃ b s', match_resume_run 8 p LoadNotified s = Some (b, s') ∧ wq_inv s' ls.
Proof. intros Hinv Hn Hp. rewrite match_resume_run_eq. exact (match_resume_spec p n s ls Hinv Hn Hp). Qed.
Lemma select_resume_alone_witness : ∃ b s', match_resume_run 8 1 LoadNotified demo2 = Some (b, s') ∧ wq_inv s' demo_lists.
Proof. eapply select_resume_alone; [exact demo2_inv|vm_compute; reflexivity|]. apply not_elem_of_nil. Defined.

(** C21: The resume of a select takes no mutex, and a waker that unlinks its
    node between two of its accesses leaves a dangling signal hint: the select
    has read [in_wait_list], the waker pops the node and clears the hint, the
    select then stores its own node in the hint and its call returns.  The next
    receiver enlists, and the send that signals it follows the hint into the
    dead frame. *)
Theorem select_resume_dangling_hint :
  ∃ s0 s, rtc (waiter_step default_env) init_wstate s0 ∧
    rtc (resume_step default_env 1) (LoadNotified, s0) (Resumed false, s) ∧
    recv_signal_hint (ch s) = Some 1 ∧ nodes s !! 1 = None ∧ wq_head (recv_waiters (ch s)) = Some 2 ∧
    run_wop default_env (SignalRecv 1) s = None.
Proof.
  destruct resume_interrupted as (s & Hr & Hs). exists signaled_select, s. auto using select_signaled.
Qed.

(** Popping a receiver is first-in first-out among the waiters that can
    still be served: [cc__chan_pop_recv_waiter] always returns, its result is
    the first waiter in arrival order that was neither notified before nor the
    loser of its select, every waiter it passes over of the latter kind has
    been told CANCEL and scheduled, the returned waiter owns its select, and
    the invariant holds for the shortened list. *)
Theorem pop_recv_waiter_fifo s ls :
  wq_inv s ls →
  ∃ o s', cc__chan_pop_recv_waiter s = Some (o, s') ∧ pop_result RecvQ s ls o s'.
Proof. intros Hinv. exact (pop_recv_waiter_spec s ls Hinv). Qed.
Lemma pop_recv_waiter_fifo_witness :
  wq_inv demo2 demo_lists ∧
  (∃ o s', cc__chan_pop_recv_waiter demo2 = Some (o, s') ∧ pop_result RecvQ demo2 demo_lists o s') ∧
  fst <$> cc__chan_pop_recv_waiter demo2 = Some (Some 2).
Proof.
  split; [exact demo2_inv|]. split; [exact (pop_recv_waiter_fifo demo2 demo_lists demo2_inv)|]. vm_compute. reflexivity.
Defined.

(** The same for senders: [cc__chan_pop_send_waiter] returns the first
    sender in arrival order that is still waiting and may still win. *)
Theorem pop_send_waiter_fifo s ls :
  wq_inv s ls →
  ∃ o s', cc__chan_pop_send_waiter s = Some (o, s') ∧ pop_result SendQ s ls o s'.
Proof. intros Hinv. exact (pop_send_waiter_spec s ls Hinv). Qed.
Lemma pop_send_waiter_fifo_witness :
  (∃ o s', cc__chan_pop_send_waiter demo_send1 = Some (o, s') ∧ pop_result SendQ demo_send1 demo_send_lists o s') ∧
  fst <$> cc__chan_pop_send_waiter demo_send1 = Some (Some 2).
Proof. split; [exact (pop_send_waiter_fifo demo_send1 demo_send_lists demo_send1_inv)|]. vm_compute. reflexivity. Defined.

(** No lost wakeup within the budget: [cc__chan_signal_recv_waiters]
    signals at most [max] receivers and, when it signals fewer, leaves no
    linked receiver in the waiting state.  The hint only rotates the starting
    point: both passes together see the whole list. *)
Theorem signal_recv_no_lost_wakeup env max s ls :
  env_recv_dedupe env = true → wq_inv s ls →
  ∃ j s', cc__chan_signal_recv_waiters env max s = Some (j, s') ∧ signal_recv_result ls max j s s'.
Proof. intros Hdd Hinv. exact (signal_recv_spec env max s ls Hdd Hinv). Qed.
Lemma signal_recv_no_lost_wakeup_witness :
  (∃ j s', cc__chan_signal_recv_waiters default_env 5 demo2 = Some (j, s') ∧ signal_recv_result demo_lists 5 j demo2 s') ∧
  fst <$> cc__chan_signal_recv_waiters default_env 5 demo2 = Some 1%Z.
Proof.
  split; [exact (signal_recv_no_lost_wakeup default_env 5 demo2 demo_lists eq_refl demo2_inv)|]. vm_compute. reflexivity.
Defined.

(** Closing wakes everybody: after [cc__chan_wake_all_waiters] both lists
    are empty and every waiter that was linked has been told CLOSE (or CANCEL,
    when another case of its select won first) and its fiber is scheduled. *)
Theorem wake_all_waiters_wakes_everyone s ls :
  wq_inv s ls →
  ∃ s', cc__chan_wake_all_waiters s = Some (tt, s') ∧ wq_inv s' (λ _, []) ∧
    ∀ sd p, p ∈ ls sd → close_woken s s' p.
Proof. intros Hinv. destruct (wake_all_spec s ls Hinv) as ([] & s' & ? & ? & _ & ?). eauto. Qed.
Lemma wake_all_waiters_wakes_everyone_witness :
  (∃ s', cc__chan_wake_all_waiters demo2 = Some (tt, s') ∧ wq_inv s' (λ _, []) ∧
    ∀ sd p, p ∈ demo_lists sd → close_woken demo2 s' p) ∧
  wakes (log (state_after (cc__chan_wake_all_waiters;; wake_batch_flush) demo2)) = [101; 102].
Proof. split; [exact (wake_all_waiters_wakes_everyone demo2 demo_lists demo2_inv)|]. vm_compute. reflexivity. Defined.

(** The wake batch neither loses, duplicates nor reorders fibers: flushing
    unparks exactly the fibers added since the last flush, in order, and
    adding to a full batch flushes first instead of overrunning it. *)
Theorem wake_batch_delivers_in_order o s :
  batch_ok (batch s) →
  (∃ s', wake_batch_add_chan o s = Some (tt, s') ∧ batch_ok (batch s') ∧
     scheduled s' = scheduled s ++ option_list o) ∧
  (∃ s', wake_batch_flush s = Some (tt, s') ∧ batch_ok (batch s') ∧
     wakes (log s') = scheduled s ∧ pending (batch s') = []).
Proof.
  intros Hb. split.
  - destruct (wake_batch_add_chan_spec o s Hb) as ([] & s' & Hs & Hq & _ & Hsc). exists s'.
    split_and!; [done|by apply Hq|done].
  - destruct (wake_batch_flush_spec s Hb) as ([] & s' & Hs & Hq & _ & H0 & Hw & _). exists s'.
    split_and!; [done|by apply Hq|done|]. unfold pending. by rewrite H0.
Qed.
Lemma wake_batch_delivers_in_order_witness :
  (∃ s', wake_batch_add_chan (Some 7) init_wstate = Some (tt, s') ∧ batch_ok (batch s') ∧
     scheduled s' = scheduled init_wstate ++ option_list (Some 7)) ∧
  (∃ s', wake_batch_flush init_wstate = Some (tt, s') ∧ batch_ok (batch s') ∧
     wakes (log s') = scheduled init_wstate ∧ pending (batch s') = []).
Proof. apply (wake_batch_delivers_in_order (Some 7) init_wstate). apply (sh_batch _ _ (inv_shape _ _ init_inv)). Defined.

(** A select has one winner: once a case of a group has won, no sequence
    of waiter operations and interleaved allocations lets a case with another
    index win. *)
Theorem select_single_winner env s s' n n' g :
  rtc (waiter_step env) s s' → (0 ≤ select_index n < 2 ^ 31)%Z →
  node_group n = Some g → node_group n' = Some g →
  has_won n s → has_won n' s' → cast_int (select_index n') = select_index n.
Proof.
  intros Hr Hidx Hg Hg' Hw Hw'. destruct (Hw g Hg) as (y & Hy & Hsel).
  destruct (waiter_steps_mono env s s' Hr g y Hy) as (z & Hz & Hk).
  destruct (Hw' g Hg') as (z' & Hz' & Hsel'). simplify_map_eq.
  rewrite cast_int_small in Hsel by done. rewrite <- Hsel'. rewrite Hk by lia. done.
Qed.
Lemma select_single_winner_witness :
  cast_int (select_index (demo_node 101 (Some 7) 1)) = select_index (demo_node 101 (Some 7) 1).
Proof.
  apply (select_single_winner default_env demo2 demo2 (demo_node 101 (Some 7) 1) (demo_node 101 (Some 7) 1) 7); [apply rtc_refl|simpl; lia|reflexivity|reflexivity|..];
    intros g Hg; injection Hg as <-; eexists; (split; [vm_compute; reflexivity|reflexivity]).
Defined.
