(* ===== verification/Bytes.v ===== *)
(** Machine integers and byte buffers: 64-bit wrap-around, signed views,
    bounds-checked byte copies ([channel_store_slot], [channel_load_slot],
    [cc__chan_pack_value]) and the power-of-two rounding of the ring capacity. *)
From S2P Require Import Prelude.
From Stdlib Require Import ZArith Lia.

Local Open Scope Z_scope.

(** * Definitions *)

(** [size_t] arithmetic wraps at 2^64. *)
Definition wrap64 (z : Z) : Z := z mod 2 ^ 64.
(** The value of a [size_t] cast to [intptr_t]. *)
Definition to_signed (z : Z) : Z := if decide (z < 2 ^ 63) then z else z - 2 ^ 64.
(** [(intptr_t)a - (intptr_t)b]; signed overflow is undefined behaviour. *)
Definition sub_intptr (a b : Z) : option Z :=
  let d := to_signed a - to_signed b in
  if decide (- 2 ^ 63 ≤ d < 2 ^ 63) then Some d else None.

(** [next_power_of_2] with [SIZE_MAX = 2^64 - 1]. *)
Definition next_power_of_2 (n : Z) : Z :=
  if decide (n = 0) then 1 else
  let n := n - 1 in
  let n := Z.lor n (Z.shiftr n 1) in
  let n := Z.lor n (Z.shiftr n 2) in
  let n := Z.lor n (Z.shiftr n 4) in
  let n := Z.lor n (Z.shiftr n 8) in
  let n := Z.lor n (Z.shiftr n 16) in
  let n := Z.lor n (Z.shiftr n 32) in
  wrap64 (n + 1).

(** [channel_store_slot(buf + off, value, size)]: every branch of the switch
    copies [size] bytes.  A copy outside the buffer, or from a value that
    has fewer bytes, is undefined behaviour. *)
Definition channel_store_slot (buf : list Z) (off : nat) (value : list Z) (size : nat) : option (list Z) :=
  if decide (off + size ≤ length buf ∧ size ≤ length value)%nat
  then Some (take off buf ++ take size value ++ drop (off + size) buf) else None.
Definition channel_load_slot (buf : list Z) (off : nat) (size : nat) : option (list Z) :=
  if decide (off + size ≤ length buf)%nat then Some (take size (drop off buf)) else None.

(** A [void*] cell as its eight bytes. *)
Definition sizeof_ptr : nat := 8.
Definition cc__chan_pack_value (src : list Z) (elem_size : nat) : option (list Z) :=
  if decide (elem_size = sizeof_ptr) then channel_load_slot src 0 sizeof_ptr
  else v ← channel_load_slot src 0 elem_size; channel_store_slot (replicate sizeof_ptr 0) 0 v elem_size.
Definition cc__chan_unpack_value (slot_val : list Z) (elem_size : nat) : option (list Z) :=
  if decide (elem_size = sizeof_ptr) then Some slot_val else channel_load_slot slot_val 0 elem_size.

(** * Slots *)

Lemma store_slot_length buf off v n buf' :
  channel_store_slot buf off v n = Some buf' → length buf' = length buf.
Proof.
  unfold channel_store_slot. case_decide as H; intros [= <-]. destruct H.
  rewrite !length_app, !length_take, length_drop. lia.
Qed.
Lemma store_slot_Some buf off v n :
  (off + n ≤ length buf)%nat → length v = n → is_Some (channel_store_slot buf off v n).
Proof. intros. unfold channel_store_slot. rewrite decide_True by lia. eauto. Qed.
Lemma load_store_eq buf off v n buf' :
  channel_store_slot buf off v n = Some buf' → length v = n → channel_load_slot buf' off n = Some v.
Proof.
  intros Hs Hv. pose proof (store_slot_length _ _ _ _ _ Hs) as Hl. revert Hs.
  unfold channel_store_slot, channel_load_slot. case_decide as H; intros [= <-]. destruct H as [H1 H2].
  rewrite decide_True by lia. f_equal. rewrite drop_app_length' by (rewrite length_take; lia).
  rewrite take_app_length'; [by rewrite take_ge by lia|]. rewrite length_take. lia.
Qed.
Lemma load_store_ne buf off off' v n buf' :
  channel_store_slot buf off v n = Some buf' → (off + n ≤ off' ∨ off' + n ≤ off)%nat →
  channel_load_slot buf' off' n = channel_load_slot buf off' n.
Proof.
  intros Hs Hoff. pose proof (store_slot_length _ _ _ _ _ Hs) as Hl.
  unfold channel_load_slot. rewrite Hl. case_decide; [|done]. f_equal. revert Hs.
  unfold channel_store_slot. case_decide as H'; intros [= <-]. destruct H' as [H1 H2].
  destruct Hoff.
  - rewrite drop_app_ge; rewrite ?length_take; [|lia]. rewrite drop_app_ge; rewrite ?length_take; [|lia].
    rewrite drop_drop. f_equal. f_equal. lia.
  - rewrite drop_app_le by (rewrite length_take; lia). rewrite take_app_le; [|rewrite length_drop, length_take; lia].
    rewrite skipn_firstn_comm, take_take. f_equal. lia.
Qed.
(** Slots of size [n] at different indices do not overlap. *)
Lemma slot_disjoint (i j n : nat) : i ≠ j → (i * n + n ≤ j * n ∨ j * n + n ≤ i * n)%nat.
Proof. intros. destruct (decide (i < j)%nat); [left|right]; nia. Qed.

Lemma pack_unpack v n :
  length v = n → (n ≤ sizeof_ptr)%nat →
  ∃ c, cc__chan_pack_value v n = Some c ∧ length c = sizeof_ptr ∧ cc__chan_unpack_value c n = Some v.
Proof.
  intros Hv Hn. unfold cc__chan_pack_value, cc__chan_unpack_value. case_decide as H8.
  - exists v. split_and!; [|lia|done]. unfold channel_load_slot. rewrite decide_True by lia.
    rewrite drop_0, take_ge by lia. done.
  - assert (Hl : channel_load_slot v 0 n = Some v).
    { unfold channel_load_slot. rewrite decide_True by lia. rewrite drop_0, take_ge by lia. done. }
    rewrite Hl. simpl. destruct (store_slot_Some (replicate sizeof_ptr 0) 0 v n) as [c Hc];
      [rewrite length_replicate; lia|done|].
    exists c. split_and!; [done| |].
    + rewrite (store_slot_length _ _ _ _ _ Hc). apply length_replicate.
    + by eapply load_store_eq.
Qed.

(** * Integers *)

Lemma wrap64_small z : 0 ≤ z < 2 ^ 64 → wrap64 z = z.
Proof. intros. by apply Z.mod_small. Qed.
Lemma wrap64_range z : 0 ≤ wrap64 z < 2 ^ 64.
Proof. apply Z.mod_pos_bound. lia. Qed.
Lemma sub_intptr_small a b : 0 ≤ a < 2 ^ 63 → 0 ≤ b < 2 ^ 63 → sub_intptr a b = Some (a - b).
Proof.
  intros. unfold sub_intptr, to_signed. rewrite (decide_True (P := a < _)) by lia.
  rewrite (decide_True (P := b < _)) by lia. by rewrite decide_True by lia.
Qed.

(** The mask [pos & (2^k - 1)] is the remainder. *)
Lemma mask_mod pos k : 0 ≤ k → Z.land pos (2 ^ k - 1) = pos mod 2 ^ k.
Proof. intros. rewrite <- Z.land_ones by done. f_equal. rewrite Z.ones_equiv. lia. Qed.
(** Wrapping at 2^64 is invisible through a power-of-two mask. *)
Lemma wrap64_mod pos k : 0 ≤ k ≤ 64 → wrap64 pos mod 2 ^ k = pos mod 2 ^ k.
Proof.
  intros. apply Z.mod_mod_divide. exists (2 ^ (64 - k)). rewrite <- Z.pow_add_r by lia. f_equal. lia.
Qed.

(** ** Rounding up to a power of two

    [spread w x n]: bit [b] of [x] is set when one of the bits [b .. b+w-1] of
    [n] is.  Each shift-or doubles the window. *)
Definition spread (w x n : Z) : Prop :=
  ∀ b, 0 ≤ b → Z.testbit x b = true ↔ ∃ j, 0 ≤ j < w ∧ Z.testbit n (b + j) = true.

Lemma spread_one n : spread 1 n n.
Proof.
  intros b Hb. split; [intros; exists 0; by rewrite Z.add_0_r|].
  intros (j & Hj & Ht). replace (b + j) with b in Ht by lia. done.
Qed.
Lemma spread_double w x n : 0 ≤ w → spread w x n → spread (2 * w) (Z.lor x (Z.shiftr x w)) n.
Proof.
  intros Hw Hx b Hb. rewrite Z.lor_spec, Z.shiftr_spec, orb_true_iff by done.
  rewrite (Hx b Hb), (Hx (b + w)) by lia. split.
  - intros [(j & Hj & Ht)|(j & Hj & Ht)]; [exists j; split; [lia|done]|].
    exists (w + j). split; [lia|]. by rewrite Z.add_assoc.
  - intros (j & Hj & Ht). destruct (decide (j < w)); [left; exists j; split; [lia|done]|].
    right. exists (j - w). split; [lia|]. by replace (b + w + (j - w)) with (b + j) by lia.
Qed.
Lemma spread_ones n x : 0 < n < 2 ^ 64 → 0 ≤ x → spread 64 x n → x = Z.ones (Z.log2 n + 1).
Proof.
  intros Hn Hx0 Hx. pose proof (Z.log2_spec n) as Hlog. pose proof (Z.log2_nonneg n) as Hl0.
  assert (Hl64 : Z.log2 n < 64) by (apply Z.log2_lt_pow2; lia).
  apply Z.bits_inj_iff'. intros b Hb. apply Bool.eq_iff_eq_true. rewrite (Hx b Hb).
  rewrite Z.ones_spec_iff by lia. split.
  - intros (j & Hj & Ht). destruct (decide (Z.log2 n < b + j)); [|lia].
    rewrite Z.bits_above_log2 in Ht by lia. done.
  - intros Hb'. exists (Z.log2 n - b). split; [lia|]. replace (b + (Z.log2 n - b)) with (Z.log2 n) by lia.
    apply Z.bit_log2. lia.
Qed.

Lemma next_power_of_2_pow n :
  2 ≤ n ≤ 2 ^ 63 → next_power_of_2 n = 2 ^ (Z.log2 (n - 1) + 1).
Proof.
  intros Hn. unfold next_power_of_2. rewrite decide_False by lia. cbv zeta.
  match goal with |- wrap64 (?x + 1) = _ => set (y := x) end.
  assert (Hs : spread 64 y (n - 1)).
  { change 64 with (2 * (2 * (2 * (2 * (2 * (2 * 1)))))). unfold y.
    repeat (apply (spread_double _ _ (n - 1)); [lia|]). apply spread_one. }
  assert (Hy : 0 ≤ y).
  { unfold y. repeat (apply Z.lor_nonneg; split; [|apply Z.shiftr_nonneg]); repeat (apply Z.lor_nonneg; split; [|apply Z.shiftr_nonneg]); lia. }
  rewrite (spread_ones (n - 1) y) by (done || lia). rewrite Z.ones_equiv.
  pose proof (Z.log2_nonneg (n - 1)). assert (Z.log2 (n - 1) < 63) by (apply Z.log2_lt_pow2; lia).
  replace (Z.pred (2 ^ (Z.log2 (n - 1) + 1)) + 1) with (2 ^ (Z.log2 (n - 1) + 1)) by lia.
  apply wrap64_small. split; [apply Z.pow_nonneg; lia|].
  apply Z.pow_lt_mono_r; lia.
Qed.
