(* ===== verification/Ring.v ===== *)
(** The lock-free ring queue of a buffered channel run by one thread at a
    time: the SPSC pair, the Vyukov MPMC pair, and their refinement of a
    bounded FIFO.  [RingConc] treats the interleavings of the MPMC pair. *)
From S2P Require Import Prelude Bytes.

Local Open Scope Z_scope.

(** * Definitions *)

(** The content of [cell->value]: eight packed bytes, or for large elements a
    pointer to the slot of that index. *)
Inductive cell_value := CellBytes (bs : list Z) | CellSlot (i : nat).
(** [cc__ring_cell] *)
Record cc__ring_cell := RingCell { seq : Z; value : cell_value }.
#[export] Instance eta_ring_cell : Eta cc__ring_cell := λ r, RingCell (seq r) (value r).

(** The fields of [struct CCChan] the ring code uses; [slots] is [ch->buf]. *)
Record ring := Ring {
  r_cap : Z;
  lfqueue_cap : Z;
  r_elem_size : nat;
  ring_cells : list cc__ring_cell;
  slots : list Z;
  ring_head : Z;
  ring_tail : Z }.
#[export] Instance eta_ring : Eta ring := λ r,
  Ring (r_cap r) (lfqueue_cap r) (r_elem_size r) (ring_cells r) (slots r) (ring_head r) (ring_tail r).

(** The ring part of [cc_chan_create_internal] followed by the slot buffer of
    [cc_chan_ensure_buf]. *)
Definition ring_create (cap : Z) (elem_size : nat) : ring :=
  let lfcap := next_power_of_2 cap in
  Ring cap lfcap elem_size
    ((λ i, RingCell (Z.of_nat i) (CellBytes (replicate sizeof_ptr 0))) <$> List.seq 0 (Z.to_nat lfcap))
    (replicate (Z.to_nat lfcap * elem_size) 0) 0 0.

(** [pos & (ch->lfqueue_cap - 1)] *)
Definition ring_index (r : ring) (pos : Z) : nat := Z.to_nat (Z.land pos (lfqueue_cap r - 1)).
(** [cc__ring_slot_ptr], as an offset into [ch->buf]. *)
Definition cc__ring_slot_ptr (r : ring) (pos : Z) : nat := (ring_index r pos * r_elem_size r)%nat.

Definition set_cell_value (r : ring) (i : nat) (v : cell_value) : option ring :=
  c ← ring_cells r !! i;
  Some (r <| ring_cells := <[i := c <| value := v |>]> (ring_cells r) |>).
Definition set_cell_seq (r : ring) (i : nat) (s : Z) : option ring :=
  c ← ring_cells r !! i;
  Some (r <| ring_cells := <[i := c <| seq := s |>]> (ring_cells r) |>).

Definition cc__ring_enqueue_spsc_value (v : list Z) (r : ring) : option (bool * ring) :=
  let tail := ring_tail r in
  let head := ring_head r in
  if decide (r_cap r ≤ wrap64 (tail - head)) then Some (false, r) else
  r ← (if decide (r_elem_size r ≤ sizeof_ptr)%nat then
         bs ← cc__chan_pack_value v (r_elem_size r);
         set_cell_value r (ring_index r tail) (CellBytes bs)
       else
         b ← channel_store_slot (slots r) (cc__ring_slot_ptr r tail) v (r_elem_size r);
         Some (r <| slots := b |>));
  Some (true, r <| ring_tail := wrap64 (tail + 1) |>).

Definition cc__ring_dequeue_spsc_value (r : ring) : option (option (list Z) * ring) :=
  let head := ring_head r in
  let tail := ring_tail r in
  if decide (head = tail) then Some (None, r) else
  v ← (if decide (r_elem_size r ≤ sizeof_ptr)%nat then
         c ← ring_cells r !! ring_index r head;
         match value c with
         | CellBytes bs => cc__chan_unpack_value bs (r_elem_size r)
         | CellSlot _ => None
         end
       else channel_load_slot (slots r) (cc__ring_slot_ptr r head) (r_elem_size r));
  Some (Some v, r <| ring_head := wrap64 (head + 1) |>).

(** The write between the tail CAS and the sequence store of
    [cc__queue_enqueue_value]. *)
Definition mpmc_write (r : ring) (pos : Z) (v : list Z) : option ring :=
  let i := ring_index r pos in
  if decide (r_elem_size r ≤ sizeof_ptr)%nat then
    bs ← cc__chan_pack_value v (r_elem_size r); set_cell_value r i (CellBytes bs)
  else
    b ← channel_store_slot (slots r) (cc__ring_slot_ptr r pos) v (r_elem_size r);
    set_cell_value (r <| slots := b |>) i (CellSlot i).
(** The read between the head CAS and the sequence store of
    [cc__queue_dequeue_value]. *)
Definition mpmc_read (r : ring) (pos : Z) : option (list Z * ring) :=
  let i := ring_index r pos in
  if decide (r_elem_size r ≤ sizeof_ptr)%nat then
    c ← ring_cells r !! i;
    match value c with
    | CellBytes bs => v ← cc__chan_unpack_value bs (r_elem_size r); Some (v, r)
    | CellSlot _ => None
    end
  else
    v ← channel_load_slot (slots r) (cc__ring_slot_ptr r pos) (r_elem_size r);
    r ← set_cell_value r i (CellSlot i);
    Some (v, r).

(** The ring branch of [cc__queue_enqueue_value] for topologies other than
    1:1.  Run without interference the CAS succeeds exactly when the tail is
    still [pos].  [None] is undefined behaviour or exhausted fuel. *)
Fixpoint mpmc_enqueue (fuel : nat) (v : list Z) (pos : Z) (r : ring) : option (bool * ring) :=
  match fuel with
  | O => None
  | S fuel' =>
      let i := ring_index r pos in
      c ← ring_cells r !! i;
      dif ← sub_intptr (seq c) pos;
      if decide (dif = 0) then
        if decide (ring_tail r = pos) then
          r ← mpmc_write (r <| ring_tail := wrap64 (pos + 1) |>) pos v;
          r ← set_cell_seq r i (wrap64 (pos + 1));
          Some (true, r)
        else mpmc_enqueue fuel' v (ring_tail r) r
      else if decide (dif < 0) then Some (false, r)
      else mpmc_enqueue fuel' v (ring_tail r) r
  end.
Fixpoint mpmc_dequeue (fuel : nat) (pos : Z) (r : ring) : option (option (list Z) * ring) :=
  match fuel with
  | O => None
  | S fuel' =>
      let i := ring_index r pos in
      c ← ring_cells r !! i;
      dif ← sub_intptr (seq c) (wrap64 (pos + 1));
      if decide (dif = 0) then
        if decide (ring_head r = pos) then
          '(v, r) ← mpmc_read (r <| ring_head := wrap64 (pos + 1) |>) pos;
          r ← set_cell_seq r i (wrap64 (pos + lfqueue_cap r));
          Some (Some v, r)
        else mpmc_dequeue fuel' (ring_head r) r
      else if decide (dif < 0) then Some (None, r)
      else mpmc_dequeue fuel' (ring_head r) r
  end.
(** Fuel two: a stale position is reloaded at most once when nothing else
    runs. *)
Definition ring_fuel : nat := 2.
(** [CCChanTopology]; only [CC_CHAN_TOPO_1_1] is tested. *)
Inductive topology := TOPO_DEFAULT | TOPO_1_1 | TOPO_1_N | TOPO_N_1 | TOPO_N_N.
#[export] Instance topology_eq_dec : EqDecision topology.
Proof. solve_decision. Defined.
Definition ring_enqueue_value (topo : topology) (v : list Z) (r : ring) : option (bool * ring) :=
  if decide (topo = TOPO_1_1) then cc__ring_enqueue_spsc_value v r
  else mpmc_enqueue ring_fuel v (ring_tail r) r.
Definition ring_dequeue_value (topo : topology) (r : ring) : option (option (list Z) * ring) :=
  if decide (topo = TOPO_1_1) then cc__ring_dequeue_spsc_value r
  else mpmc_dequeue ring_fuel (ring_head r) r.

(** The ring branch of [cc__chan_lf_count]. *)
Definition ring_count (r : ring) : Z :=
  let d := wrap64 (ring_tail r - ring_head r) in (d + 2 ^ 31) mod 2 ^ 32 - 2 ^ 31.

(** * Invariants *)

Definition seqs (r : ring) : list Z := seq <$> ring_cells r.
Definition idx (k : Z) (pos : Z) : nat := Z.to_nat (pos mod 2 ^ k).

(** Slot [i] of the ring carries the element [v]. *)
Definition holds (r : ring) (i : nat) (v : list Z) : Prop :=
  if decide (r_elem_size r ≤ sizeof_ptr)%nat then
    ∃ c bs, ring_cells r !! i = Some c ∧ value c = CellBytes bs ∧ cc__chan_unpack_value bs (r_elem_size r) = Some v
  else channel_load_slot (slots r) (i * r_elem_size r) (r_elem_size r) = Some v.

Record ring_wf (k : Z) (r : ring) : Prop := {
  wf_k : 1 ≤ k ≤ 62;
  wf_cap : lfqueue_cap r = 2 ^ k;
  wf_cells : length (ring_cells r) = Z.to_nat (2 ^ k);
  wf_slots : length (slots r) = (Z.to_nat (2 ^ k) * r_elem_size r)%nat }.

(** The abstraction of the MPMC ring: the queue [q] sits at positions
    [head .. tail-1], and a cell's sequence number says whether its position
    is filled. *)
Record mpmc_inv (k : Z) (r : ring) (q : list (list Z)) : Prop := {
  mp_wf : ring_wf k r;
  mp_head : 0 ≤ ring_head r;
  mp_tail : ring_tail r = ring_head r + Z.of_nat (length q);
  mp_len : Z.of_nat (length q) ≤ 2 ^ k;
  mp_elems : Forall (λ v, length v = r_elem_size r) q;
  mp_seqs : ∀ i, 0 ≤ i < 2 ^ k → seqs r !! idx k (ring_head r + i) =
    Some (ring_head r + i + if decide (i < Z.of_nat (length q)) then 1 else 0);
  mp_vals : ∀ i v, q !! i = Some v → holds r (idx k (ring_head r + Z.of_nat i)) v }.

(** The abstraction of the SPSC ring; positions wrap at 2^64. *)
Record spsc_inv (k : Z) (r : ring) (q : list (list Z)) : Prop := {
  sp_wf : ring_wf k r;
  sp_head : 0 ≤ ring_head r < 2 ^ 64;
  sp_cap : 0 < r_cap r ≤ 2 ^ k;
  sp_tail : ring_tail r = wrap64 (ring_head r + Z.of_nat (length q));
  sp_len : Z.of_nat (length q) ≤ r_cap r;
  sp_elems : Forall (λ v, length v = r_elem_size r) q;
  sp_vals : ∀ i v, q !! i = Some v → holds r (idx k (ring_head r + Z.of_nat i)) v }.

(** * Lemmas *)

Lemma pow_pos (k : Z) : 0 ≤ k → 0 < 2 ^ k.
Proof. intros. apply Z.pow_pos_nonneg; lia. Qed.
Lemma mod_window m h i j : 0 ≤ i < m → 0 ≤ j < m → (h + i) mod m = (h + j) mod m → i = j.
Proof.
  intros Hi Hj H. pose proof (Z.div_mod (h + i) m ltac:(lia)) as E1. pose proof (Z.div_mod (h + j) m ltac:(lia)) as E2.
  rewrite H in E1. assert (i - j = m * ((h + i) / m - (h + j) / m)) as E by lia.
  assert ((h + i) / m - (h + j) / m = 0); [|lia]. set (d := (h + i) / m - (h + j) / m) in *. nia.
Qed.
Lemma idx_inj k h i j : 0 ≤ k → 0 ≤ i < 2 ^ k → 0 ≤ j < 2 ^ k → idx k (h + i) = idx k (h + j) → i = j.
Proof.
  intros Hk Hi Hj H. pose proof (pow_pos k Hk). unfold idx in H.
  pose proof (Z.mod_pos_bound (h + i) (2 ^ k)). pose proof (Z.mod_pos_bound (h + j) (2 ^ k)).
  apply (mod_window (2 ^ k) h i j); [done|done|lia].
Qed.
Lemma idx_lt k pos : 0 ≤ k → (idx k pos < Z.to_nat (2 ^ k))%nat.
Proof.
  intros Hk. pose proof (pow_pos k Hk). unfold idx. pose proof (Z.mod_pos_bound pos (2 ^ k)). lia.
Qed.
Lemma idx_wrap k pos : 0 ≤ k → idx k (pos + 2 ^ k) = idx k pos.
Proof.
  intros. unfold idx. f_equal. pose proof (pow_pos k). rewrite <- (Z.mul_1_l (2 ^ k)) at 1. apply Z.mod_add. lia.
Qed.
Lemma idx_wrap64 k pos : 0 ≤ k ≤ 64 → idx k (wrap64 pos) = idx k pos.
Proof. intros. unfold idx. by rewrite wrap64_mod. Qed.
(** Every slot is at some distance from the head. *)
Lemma idx_surj k h (j : nat) : 0 ≤ k → (j < Z.to_nat (2 ^ k))%nat → ∃ i, 0 ≤ i < 2 ^ k ∧ idx k (h + i) = j.
Proof.
  intros Hk Hj. pose proof (pow_pos k Hk). exists ((Z.of_nat j - h) mod 2 ^ k).
  split; [apply Z.mod_pos_bound; lia|]. unfold idx. rewrite Z.add_mod_idemp_r by lia.
  replace (h + (Z.of_nat j - h)) with (Z.of_nat j) by lia. rewrite Z.mod_small by lia. lia.
Qed.
Lemma ring_index_idx k r pos : ring_wf k r → ring_index r pos = idx k pos.
Proof. intros [? Hc _ _]. unfold ring_index, idx. rewrite Hc, mask_mod by lia. done. Qed.

(** Writing one slot. *)
Record wrote (r : ring) (i : nat) (v : list Z) (r' : ring) : Prop := {
  wr_head : ring_head r' = ring_head r;
  wr_tail : ring_tail r' = ring_tail r;
  wr_cap : r_cap r' = r_cap r;
  wr_lfcap : lfqueue_cap r' = lfqueue_cap r;
  wr_es : r_elem_size r' = r_elem_size r;
  wr_seqs : seqs r' = seqs r;
  wr_slots : length (slots r') = length (slots r);
  wr_here : holds r' i v;
  wr_there : ∀ j w, j ≠ i → holds r j w → holds r' j w }.
Lemma wrote_cells r i v r' : wrote r i v r' → length (ring_cells r') = length (ring_cells r).
Proof. intros H. pose proof (wr_seqs _ _ _ _ H) as E. apply (f_equal length) in E. unfold seqs in E. by rewrite !length_fmap in E. Qed.
Lemma wrote_wf k r i v r' : wrote r i v r' → ring_wf k r → ring_wf k r'.
Proof.
  intros H [????]. split; [done|by rewrite (wr_lfcap _ _ _ _ H)|by rewrite (wrote_cells _ _ _ _ H)|].
  by rewrite (wr_slots _ _ _ _ H), (wr_es _ _ _ _ H).
Qed.

Lemma set_cell_value_seqs r i v r' : set_cell_value r i v = Some r' → seqs r' = seqs r.
Proof.
  unfold set_cell_value. destruct (ring_cells r !! i) as [c|] eqn:E; intros [= <-]. unfold seqs. simpl.
  rewrite list_fmap_insert. simpl. apply list_insert_id. by rewrite list_lookup_fmap, E.
Qed.
Lemma set_cell_value_Some r i v : (i < length (ring_cells r))%nat → ∃ c,
  ring_cells r !! i = Some c ∧
  set_cell_value r i v = Some (r <| ring_cells := <[i := c <| value := v |>]> (ring_cells r) |>).
Proof. intros H. apply lookup_lt_is_Some in H as [c Hc]. exists c. unfold set_cell_value. by rewrite Hc. Qed.

Lemma mpmc_write_spec k r pos v :
  ring_wf k r → length v = r_elem_size r →
  ∃ r', mpmc_write r pos v = Some r' ∧ wrote r (idx k pos) v r'.
Proof.
  intros Hwf Hv. pose proof (wf_k _ _ Hwf). pose proof (idx_lt k pos ltac:(lia)) as Hlt.
  unfold mpmc_write, cc__ring_slot_ptr. rewrite (ring_index_idx k) by done. case_decide as Hes.
  - destruct (pack_unpack v (r_elem_size r) Hv Hes) as (bs & Hp & _ & Hu). rewrite Hp. simpl.
    destruct (set_cell_value_Some r (idx k pos) (CellBytes bs)) as (c & Hc & Hs); [by rewrite (wf_cells _ _ Hwf)|].
    rewrite Hs. eexists. split; [done|]. split; try done; [by apply set_cell_value_seqs in Hs| |]; unfold holds; simpl.
    + rewrite decide_True by done. eexists _, bs. rewrite list_lookup_insert_eq by (apply lookup_lt_Some in Hc; done). done.
    + intros j w Hj. rewrite !decide_True by done. intros (c' & bs' & ?). exists c', bs'.
      by rewrite list_lookup_insert_ne.
  - pose proof (wf_slots _ _ Hwf) as Hsl.
    destruct (store_slot_Some (slots r) (idx k pos * r_elem_size r) v (r_elem_size r)) as [b Hb]; [nia|done|].
    rewrite Hb. simpl.
    destruct (set_cell_value_Some (r <| slots := b |>) (idx k pos) (CellSlot (idx k pos))) as (c & Hc & Hs);
      [by simpl; rewrite (wf_cells _ _ Hwf)|].
    rewrite Hs. eexists. split; [done|]. split; try done.
    + apply set_cell_value_seqs in Hs. done.
    + simpl. by eapply store_slot_length.
    + unfold holds. simpl. rewrite decide_False by done. by eapply load_store_eq.
    + intros j w Hj. unfold holds. simpl. rewrite !decide_False by done. intros <-.
      eapply load_store_ne; [done|]. by apply slot_disjoint.
Qed.

(** Storing a sequence number leaves every element in place. *)
Record reseq (r : ring) (i : nat) (s : Z) (r' : ring) : Prop := {
  rs_head : ring_head r' = ring_head r;
  rs_tail : ring_tail r' = ring_tail r;
  rs_cap : r_cap r' = r_cap r;
  rs_es : r_elem_size r' = r_elem_size r;
  rs_wf : ∀ k, ring_wf k r → ring_wf k r';
  rs_seqs : seqs r' = <[i := s]> (seqs r);
  rs_holds : ∀ j w, holds r j w → holds r' j w }.
Lemma set_cell_seq_spec r i s :
  (i < length (ring_cells r))%nat → ∃ r', set_cell_seq r i s = Some r' ∧ reseq r i s r'.
Proof.
  intros H. apply lookup_lt_is_Some in H as [c Hc]. unfold set_cell_seq. rewrite Hc. simpl.
  eexists. split; [done|]. split; try done.
  - intros k [????]. split; simpl; rewrite ?length_insert; done.
  - unfold seqs. simpl. by rewrite list_fmap_insert.
  - intros j w. unfold holds. simpl. case_decide; [|done]. intros (c' & bs & Hc' & ? & ?).
    destruct (decide (i = j)) as [->|].
    + assert (c' = c) as -> by congruence. eexists _, bs.
      rewrite list_lookup_insert_eq by (apply lookup_lt_Some in Hc; done). done.
    + exists c', bs. by rewrite list_lookup_insert_ne.
Qed.

(** Lookup of a cell through its sequence number. *)
Lemma seqs_cell r i s : seqs r !! i = Some s → ∃ c, ring_cells r !! i = Some c ∧ seq c = s.
Proof. unfold seqs. rewrite list_lookup_fmap. destruct (ring_cells r !! i) as [c|]; intros [= <-]. eauto. Qed.

Lemma mpmc_enqueue_spec k r q v fuel :
  mpmc_inv k r q → length v = r_elem_size r → ring_tail r + 2 ^ k < 2 ^ 63 → (1 ≤ fuel)%nat →
  if decide (Z.of_nat (length q) < 2 ^ k)
  then ∃ r', mpmc_enqueue fuel v (ring_tail r) r = Some (true, r') ∧ mpmc_inv k r' (q ++ [v]) ∧
         ring_head r' = ring_head r ∧ r_elem_size r' = r_elem_size r ∧ r_cap r' = r_cap r
  else mpmc_enqueue fuel v (ring_tail r) r = Some (false, r).
Proof.
  intros Hinv Hv Hb Hf. pose proof Hinv as [Hwf Hh Ht Hl He Hs Hvals]. pose proof (wf_k _ _ Hwf) as Hk.
  pose proof (pow_pos k ltac:(lia)) as Hpow. assert (Hpow2 : 2 ≤ 2 ^ k).
  { change 2 with (2 ^ 1) at 1. apply Z.pow_le_mono_r; lia. }
  destruct fuel as [|fuel]; [lia|]. simpl. rewrite (ring_index_idx k) by done.
  case_decide as Hlen.
  - pose proof (Hs (Z.of_nat (length q)) ltac:(lia)) as Hseq. rewrite decide_False in Hseq by lia.
    rewrite <- Ht, Z.add_0_r in Hseq. destruct (seqs_cell _ _ _ Hseq) as (c & Hc & Hcs).
    rewrite Hc. simpl. rewrite Hcs, sub_intptr_small by lia. simpl. rewrite decide_True by lia.
    rewrite decide_True by done.
    destruct (mpmc_write_spec k (r <| ring_tail := wrap64 (ring_tail r + 1) |>) (ring_tail r) v) as (r1 & Hw & Hwr).
    { by destruct Hwf. } { done. }
    rewrite Hw. simpl.
    destruct (set_cell_seq_spec r1 (idx k (ring_tail r)) (wrap64 (ring_tail r + 1))) as (r2 & Hset & Hrs).
    { rewrite (wrote_cells _ _ _ _ Hwr). simpl. rewrite (wf_cells _ _ Hwf). apply idx_lt. lia. }
    rewrite Hset. exists r2. split; [done|].
    rewrite (wrap64_small (ring_tail r + 1)) in * by lia. pose proof (rs_holds _ _ _ _ Hrs) as Hho.
    assert (Hh2 : ring_head r2 = ring_head r) by by rewrite (rs_head _ _ _ _ Hrs), (wr_head _ _ _ _ Hwr).
    assert (Hes2 : r_elem_size r2 = r_elem_size r) by by rewrite (rs_es _ _ _ _ Hrs), (wr_es _ _ _ _ Hwr).
    assert (Hwf2 : ring_wf k r2) by (eapply rs_wf, wrote_wf; [done|done|]; by destruct Hwf).
    split; [|by rewrite (rs_cap _ _ _ _ Hrs), (wr_cap _ _ _ _ Hwr)]. split; try done.
    + by rewrite Hh2.
    + rewrite Hh2, length_app. simpl.
      rewrite (rs_tail _ _ _ _ Hrs), (wr_tail _ _ _ _ Hwr). simpl. lia.
    + rewrite length_app. simpl. lia.
    + rewrite Hes2. apply Forall_app. split; [done|]. by constructor.
    + intros i Hi. rewrite Hh2, (rs_seqs _ _ _ _ Hrs), length_app, (wr_seqs _ _ _ _ Hwr). simpl.
      change (seqs (r <| ring_tail := ring_tail r + 1 |>)) with (seqs r).
      destruct (decide (i = Z.of_nat (length q))) as [->|Hne].
      * rewrite <- Ht. rewrite list_lookup_insert_eq.
        -- rewrite decide_True by lia. done.
        -- apply lookup_lt_Some in Hseq. done.
      * rewrite list_lookup_insert_ne.
        -- rewrite (Hs i Hi). f_equal. repeat case_decide; lia.
        -- rewrite Ht. intros E. apply Hne. symmetry. apply (idx_inj k (ring_head r)); [lia|lia|lia|done].
    + intros i w. rewrite Hh2. intros [Hi|[Hi Hw']]%lookup_app_Some.
      * apply Hho. eapply (wr_there _ _ _ _ Hwr); [|by apply (Hvals i w)].
        rewrite Ht. intros E. apply lookup_lt_Some in Hi. assert (Z.of_nat i = Z.of_nat (length q)); [|lia].
        apply (idx_inj k (ring_head r)); [lia|lia|lia|done].
      * apply list_lookup_singleton_Some in Hw' as [Hi0 <-].
        replace (ring_head r + Z.of_nat i) with (ring_tail r) by lia. apply Hho, Hwr.
  - assert (Hfull : Z.of_nat (length q) = 2 ^ k) by lia.
    pose proof (Hs 0 ltac:(lia)) as Hseq. rewrite decide_True in Hseq by lia. rewrite Z.add_0_r in Hseq.
    rewrite Ht, Hfull, idx_wrap by lia. destruct (seqs_cell _ _ _ Hseq) as (c & Hc & Hcs).
    rewrite Hc. simpl. rewrite Hcs, sub_intptr_small by lia. simpl.
    rewrite decide_False by lia. rewrite decide_True by lia. done.
Qed.

(** Reading the slot of a filled position; for large elements the cell's
    pointer is rewritten with the value it has. *)
Lemma mpmc_read_spec k r pos v :
  ring_wf k r → holds r (idx k pos) v →
  ∃ r', mpmc_read r pos = Some (v, r') ∧ ring_head r' = ring_head r ∧ ring_tail r' = ring_tail r ∧
    r_elem_size r' = r_elem_size r ∧ r_cap r' = r_cap r ∧ ring_wf k r' ∧ seqs r' = seqs r ∧ (∀ j w, holds r j w → holds r' j w).
Proof.
  intros Hwf Hh. pose proof (wf_k _ _ Hwf). pose proof (idx_lt k pos ltac:(lia)) as Hlt.
  unfold mpmc_read, cc__ring_slot_ptr. rewrite (ring_index_idx k) by done. unfold holds in Hh at 1.
  case_decide as Hes.
  - destruct Hh as (c & bs & Hc & Hv & Hu). rewrite Hc. simpl. rewrite Hv, Hu. simpl. by exists r.
  - rewrite Hh. simpl.
    destruct (set_cell_value_Some r (idx k pos) (CellSlot (idx k pos))) as (c & Hc & Hs); [by rewrite (wf_cells _ _ Hwf)|].
    rewrite Hs. simpl. eexists. split; [done|]. split_and!; try done.
    + destruct Hwf. split; simpl; rewrite ?length_insert; done.
    + by apply set_cell_value_seqs in Hs.
    + intros j w. unfold holds. simpl. by rewrite !decide_False by done.
Qed.

Lemma mpmc_dequeue_spec k r q fuel :
  mpmc_inv k r q → ring_tail r + 2 ^ k < 2 ^ 63 → (1 ≤ fuel)%nat →
  match q with
  | [] => mpmc_dequeue fuel (ring_head r) r = Some (None, r)
  | v :: q' => ∃ r', mpmc_dequeue fuel (ring_head r) r = Some (Some v, r') ∧ mpmc_inv k r' q' ∧
      ring_head r' = ring_head r + 1 ∧ r_elem_size r' = r_elem_size r ∧ r_cap r' = r_cap r
  end.
Proof.
  intros Hinv Hb Hf. pose proof Hinv as [Hwf Hh Ht Hl He Hs Hvals]. pose proof (wf_k _ _ Hwf) as Hk.
  pose proof (pow_pos k ltac:(lia)) as Hpow.
  destruct fuel as [|fuel]; [lia|]. pose proof (Hs 0 ltac:(lia)) as Hseq. rewrite Z.add_0_r in Hseq.
  destruct (seqs_cell _ _ _ Hseq) as (c & Hc & Hcs).
  destruct q as [|v q']; simpl; rewrite (ring_index_idx k), Hc by done; simpl;
    rewrite (wrap64_small (ring_head r + 1)) by (simpl in *; lia).
  - assert (seq c = ring_head r) as -> by (rewrite Hcs; case_decide; simpl in *; lia).
    rewrite sub_intptr_small by (simpl in *; lia). simpl. rewrite decide_False by lia. by rewrite decide_True by lia.
  - assert (seq c = ring_head r + 1) as -> by (rewrite Hcs; case_decide; simpl in *; lia).
    simpl in Ht, Hl, Hs, Hb, Hseq. rewrite sub_intptr_small by lia. simpl. rewrite decide_True by lia. rewrite decide_True by done.
    destruct (mpmc_read_spec k (r <| ring_head := ring_head r + 1 |>) (ring_head r) v)
      as (r1 & Hr1 & Hh1 & Ht1 & Hes1 & Hcp1 & Hwf1 & Hsq1 & Hho1).
    { by destruct Hwf. }
    { replace (idx k (ring_head r)) with (idx k (ring_head r + Z.of_nat 0)) by (simpl; by rewrite Z.add_0_r).
      by apply (Hvals 0%nat). }
    rewrite Hr1. simpl.
    destruct (set_cell_seq_spec r1 (idx k (ring_head r)) (wrap64 (ring_head r + lfqueue_cap r1))) as (r2 & Hset & Hrs).
    { rewrite (wf_cells _ _ Hwf1). apply idx_lt. lia. }
    rewrite Hset. exists r2. split; [done|]. rewrite (wf_cap _ _ Hwf1) in Hrs.
    rewrite wrap64_small in Hrs by lia.
    assert (Hh2 : ring_head r2 = ring_head r + 1) by by rewrite (rs_head _ _ _ _ Hrs), Hh1.
    split; [|rewrite (rs_es _ _ _ _ Hrs), Hes1, (rs_cap _ _ _ _ Hrs), Hcp1; done]. split; try done.
    + by eapply rs_wf.
    + lia.
    + rewrite Hh2, (rs_tail _ _ _ _ Hrs), Ht1. simpl. lia.
    + lia.
    + rewrite (rs_es _ _ _ _ Hrs), Hes1. simpl. by apply Forall_cons in He as [_ ?].
    + intros i Hi. rewrite Hh2, (rs_seqs _ _ _ _ Hrs), Hsq1. change (seqs (r <| ring_head := _ |>)) with (seqs r).
      destruct (decide (i = 2 ^ k - 1)) as [->|Hne].
      * replace (ring_head r + 1 + (2 ^ k - 1)) with (ring_head r + 2 ^ k) by lia. rewrite idx_wrap by lia.
        rewrite list_lookup_insert_eq by (by apply lookup_lt_Some in Hseq). rewrite decide_False by lia. f_equal. lia.
      * rewrite list_lookup_insert_ne.
        -- replace (ring_head r + 1 + i) with (ring_head r + (1 + i)) by lia. rewrite Hs by lia. f_equal.
           repeat case_decide; lia.
        -- replace (ring_head r + 1 + i) with (ring_head r + (1 + i)) by lia. rewrite <- (Z.add_0_r (ring_head r)) at 1.
           intros E. apply (idx_inj k (ring_head r)) in E; lia.
    + intros i w Hi. rewrite Hh2. apply (rs_holds _ _ _ _ Hrs), Hho1.
      replace (ring_head r + 1 + Z.of_nat i) with (ring_head r + Z.of_nat (S i)) by lia. by apply (Hvals (S i)).
Qed.

(** ** The SPSC pair *)

Lemma spsc_count k r q : spsc_inv k r q → wrap64 (ring_tail r - ring_head r) = Z.of_nat (length q).
Proof.
  intros Hinv. pose proof Hinv as [Hwf Hh Hc Ht Hl _ _]. pose proof (wf_k _ _ Hwf).
  assert (2 ^ k ≤ 2 ^ 62) by (apply Z.pow_le_mono_r; lia).
  rewrite Ht. unfold wrap64 at 1 2. rewrite Zminus_mod_idemp_l.
  replace (ring_head r + Z.of_nat (length q) - ring_head r) with (Z.of_nat (length q)) by lia.
  apply Z.mod_small. lia.
Qed.

Lemma spsc_enqueue_spec k r q v :
  spsc_inv k r q → length v = r_elem_size r →
  if decide (Z.of_nat (length q) < r_cap r)
  then ∃ r', cc__ring_enqueue_spsc_value v r = Some (true, r') ∧ spsc_inv k r' (q ++ [v]) ∧
         r_elem_size r' = r_elem_size r ∧ r_cap r' = r_cap r
  else cc__ring_enqueue_spsc_value v r = Some (false, r).
Proof.
  intros Hinv Hv. pose proof (spsc_count _ _ _ Hinv) as Hcnt. pose proof Hinv as [Hwf Hh Hc Ht Hl He Hvals].
  pose proof (wf_k _ _ Hwf) as Hk. pose proof (pow_pos k ltac:(lia)) as Hpow.
  unfold cc__ring_enqueue_spsc_value. rewrite Hcnt.
  case_decide as Hlen; [rewrite decide_False by lia|by rewrite decide_True by lia].
  assert (Hw : ∃ r1, (if decide (r_elem_size r ≤ sizeof_ptr)%nat then
         bs ← cc__chan_pack_value v (r_elem_size r); set_cell_value r (ring_index r (ring_tail r)) (CellBytes bs)
       else b ← channel_store_slot (slots r) (cc__ring_slot_ptr r (ring_tail r)) v (r_elem_size r);
         Some (r <| slots := b |>)) = Some r1 ∧ wrote r (idx k (ring_tail r)) v r1).
  { destruct (mpmc_write_spec k r (ring_tail r) v Hwf Hv) as (r1 & Hw1 & Hwr). unfold mpmc_write in Hw1.
    rewrite (ring_index_idx k) in * by done. revert Hw1. case_decide as Hes; [eauto|]. intros Hw1.
    destruct (channel_store_slot _ _ _ _) as [b|] eqn:Hb; simpl in Hw1; [|done].
    eexists. split; [done|]. split; try done; simpl; [by eapply store_slot_length| |]; unfold holds; simpl.
    - rewrite decide_False by done. unfold cc__ring_slot_ptr in Hb. rewrite (ring_index_idx k) in Hb by done. by eapply load_store_eq.
    - intros j w Hj. rewrite !decide_False by done. intros <-.
      unfold cc__ring_slot_ptr in Hb. rewrite (ring_index_idx k) in Hb by done.
      eapply load_store_ne; [done|]. by apply slot_disjoint. }
  destruct Hw as (r1 & Hr1 & Hwr). rewrite Hr1. simpl. eexists. split; [done|].
  split; [|simpl; by rewrite (wr_es _ _ _ _ Hwr), (wr_cap _ _ _ _ Hwr)].
  assert (Hidx : idx k (ring_tail r) = idx k (ring_head r + Z.of_nat (length q))) by (rewrite Ht; apply idx_wrap64; lia).
  split; simpl; rewrite ?(wr_head _ _ _ _ Hwr), ?(wr_cap _ _ _ _ Hwr), ?(wr_es _ _ _ _ Hwr); try done.
  - destruct (wrote_wf k _ _ _ _ Hwr Hwf). by split.
  - rewrite Ht, length_app. simpl. unfold wrap64. rewrite Zplus_mod_idemp_l. f_equal. lia.
  - rewrite length_app. simpl. lia.
  - apply Forall_app. split; [done|]. by constructor.
  - intros i w [Hi|[Hi Hw']]%lookup_app_Some.
    + apply (wr_there _ _ _ _ Hwr); [|by apply Hvals]. rewrite Hidx. intros E.
      apply lookup_lt_Some in Hi. apply (idx_inj k (ring_head r)) in E; lia.
    + apply list_lookup_singleton_Some in Hw' as [Hi0 <-].
      replace (ring_head r + Z.of_nat i) with (ring_head r + Z.of_nat (length q)) by lia. rewrite <- Hidx. apply Hwr.
Qed.

Lemma spsc_dequeue_spec k r q :
  spsc_inv k r q →
  match q with
  | [] => cc__ring_dequeue_spsc_value r = Some (None, r)
  | v :: q' => ∃ r', cc__ring_dequeue_spsc_value r = Some (Some v, r') ∧ spsc_inv k r' q' ∧
      r_elem_size r' = r_elem_size r ∧ r_cap r' = r_cap r
  end.
Proof.
  intros Hinv. pose proof (spsc_count _ _ _ Hinv) as Hcnt. pose proof Hinv as [Hwf Hh Hc Ht Hl He Hvals].
  pose proof (wf_k _ _ Hwf) as Hk. pose proof (pow_pos k ltac:(lia)) as Hpow.
  unfold cc__ring_dequeue_spsc_value. destruct q as [|v q'].
  - rewrite decide_True; [done|]. rewrite Ht. simpl. rewrite Z.add_0_r. by rewrite wrap64_small.
  - rewrite decide_False.
    2: { intros E. rewrite E, Z.sub_diag in Hcnt. simpl in Hcnt. change (wrap64 0) with 0 in Hcnt. lia. }
    assert (Hv : holds r (ring_index r (ring_head r)) v).
    { rewrite (ring_index_idx k) by done. rewrite <- (Z.add_0_r (ring_head r)). by apply (Hvals 0%nat). }
    assert (Hld : (if decide (r_elem_size r ≤ sizeof_ptr)%nat then
         c ← ring_cells r !! ring_index r (ring_head r);
         match value c with CellBytes bs => cc__chan_unpack_value bs (r_elem_size r) | CellSlot _ => None end
       else channel_load_slot (slots r) (cc__ring_slot_ptr r (ring_head r)) (r_elem_size r)) = Some v).
    { unfold holds in Hv. case_decide; [|done]. destruct Hv as (c & bs & -> & Hb & Hu). simpl. by rewrite Hb. }
    rewrite Hld. simpl. eexists. split; [done|]. split; [|done]. split; simpl; try done.
    + destruct Hwf. by split.
    + apply wrap64_range.
    + rewrite Ht. simpl length. unfold wrap64. rewrite Zplus_mod_idemp_l. f_equal. lia.
    + simpl in Hl. lia.
    + by apply Forall_cons in He as [_ ?].
    + intros i w Hi. specialize (Hvals (S i) w Hi). replace (idx k (wrap64 (ring_head r + 1) + Z.of_nat i))
        with (idx k (ring_head r + Z.of_nat (S i))); [done|].
      unfold idx. f_equal. symmetry. rewrite <- Zplus_mod_idemp_l, wrap64_mod, Zplus_mod_idemp_l by lia. f_equal. lia.
Qed.

(** ** Creation *)

Lemma ring_create_wf cap es :
  2 ≤ cap ≤ 2 ^ 62 → ring_wf (Z.log2 (cap - 1) + 1) (ring_create cap es) ∧ cap ≤ 2 ^ (Z.log2 (cap - 1) + 1).
Proof.
  intros Hcap. pose proof (Z.log2_spec (cap - 1)) as Hlog. pose proof (Z.log2_nonneg (cap - 1)).
  assert (Z.log2 (cap - 1) < 62) by (apply Z.log2_lt_pow2; lia).
  split; [|rewrite <- Z.add_1_r in Hlog; lia].
  unfold ring_create. rewrite next_power_of_2_pow by lia. split; simpl; try done; [lia| |].
  - by rewrite length_fmap, length_seq.
  - by rewrite length_replicate.
Qed.
Lemma ring_create_mpmc cap es :
  2 ≤ cap ≤ 2 ^ 62 → mpmc_inv (Z.log2 (cap - 1) + 1) (ring_create cap es) [].
Proof.
  intros Hcap. destruct (ring_create_wf cap es Hcap) as [Hwf _]. pose proof (wf_k _ _ Hwf) as Hk.
  set (k := Z.log2 (cap - 1) + 1) in *. pose proof (pow_pos k ltac:(lia)).
  split; try done; simpl; [lia|].
  intros i Hi. rewrite decide_False by lia. unfold seqs, ring_create. simpl. rewrite <- list_fmap_compose, list_lookup_fmap.
  unfold idx. rewrite Z.mod_small by lia. rewrite next_power_of_2_pow by lia. fold k.
  rewrite lookup_seq_lt by lia. simpl. f_equal. lia.
Qed.
Lemma ring_create_spsc cap es :
  2 ≤ cap ≤ 2 ^ 62 → spsc_inv (Z.log2 (cap - 1) + 1) (ring_create cap es) [].
Proof.
  intros Hcap. destruct (ring_create_wf cap es Hcap) as [Hwf Hle].
  split; try done; simpl; lia.
Qed.
