(* ===== verification/RingConc.v ===== *)
(** The MPMC ring under concurrency: the enqueue and dequeue loops of
    [cc__queue_enqueue_value] / [cc__queue_dequeue_value] cut at their atomic
    accesses, any number of threads interleaved in any order (sequentially
    consistent memory).  Every claimed position is written once and read
    once, and what is read is what was written there. *)
From S2P Require Import Prelude Bytes Ring.

Local Open Scope Z_scope.

(** * Definitions *)

(** Where a thread is inside an operation. *)
Inductive pc :=
  | ELoad (v : list Z)
  | ESeq (v : list Z) (pos : Z)
  | ECas (v : list Z) (pos : Z)
  | EWrite (v : list Z) (pos : Z)
  | EPublish (v : list Z) (pos : Z)
  | EDone (v : list Z) (pos : option Z)
  | DLoad
  | DSeq (pos : Z)
  | DCas (pos : Z)
  | DRead (pos : Z)
  | DRelease (pos : Z) (v : list Z)
  | DDone (res : option (Z * list Z)).

(** [hist] records, in order, the value of every successful tail CAS. *)
Record cstate := CState { rg : ring; thr : gmap nat pc; hist : list (list Z) }.
#[export] Instance eta_cstate : Eta cstate := λ s, CState (rg s) (thr s) (hist s).

(** The ring after an access. *)
Definition with_ring (r : ring) (s : cstate) : cstate := s <| rg := r |>.
Definition goto (t : nat) (p : pc) (s : cstate) : cstate := s <| thr := <[t := p]> (thr s) |>.
(** The cell a position maps to. *)
Definition cell_at (s : cstate) (pos : Z) : option cc__ring_cell := ring_cells (rg s) !! ring_index (rg s) pos.

Inductive conc_step : cstate → cstate → Prop :=
  | start_enqueue t v s : thr s !! t = None → length v = r_elem_size (rg s) →
      conc_step s (goto t (ELoad v) s)
  | start_dequeue t s : thr s !! t = None → conc_step s (goto t DLoad s)
  | enq_load t v s : thr s !! t = Some (ELoad v) →
      conc_step s (goto t (ESeq v (ring_tail (rg s))) s)
  | enq_seq t v pos c d s : thr s !! t = Some (ESeq v pos) →
      cell_at s pos = Some c → sub_intptr (seq c) pos = Some d →
      conc_step s (goto t (if decide (d = 0) then ECas v pos
                           else if decide (d < 0) then EDone v None else ELoad v) s)
  | enq_cas t v pos s : thr s !! t = Some (ECas v pos) → ring_tail (rg s) = pos →
      conc_step s (goto t (EWrite v pos) (s <| rg := (rg s) <| ring_tail := wrap64 (pos + 1) |> |>
                                            <| hist := hist s ++ [v] |>))
  | enq_cas_fail t v pos s : thr s !! t = Some (ECas v pos) →
      conc_step s (goto t (ESeq v (ring_tail (rg s))) s)
  | enq_write t v pos r s : thr s !! t = Some (EWrite v pos) → mpmc_write (rg s) pos v = Some r →
      conc_step s (goto t (EPublish v pos) (with_ring r s))
  | enq_publish t v pos r s : thr s !! t = Some (EPublish v pos) →
      set_cell_seq (rg s) (ring_index (rg s) pos) (wrap64 (pos + 1)) = Some r →
      conc_step s (goto t (EDone v (Some pos)) (with_ring r s))
  | deq_load t s : thr s !! t = Some DLoad →
      conc_step s (goto t (DSeq (ring_head (rg s))) s)
  | deq_seq t pos c d s : thr s !! t = Some (DSeq pos) →
      cell_at s pos = Some c → sub_intptr (seq c) (wrap64 (pos + 1)) = Some d →
      conc_step s (goto t (if decide (d = 0) then DCas pos
                           else if decide (d < 0) then DDone None else DLoad) s)
  | deq_cas t pos s : thr s !! t = Some (DCas pos) → ring_head (rg s) = pos →
      conc_step s (goto t (DRead pos) (s <| rg := (rg s) <| ring_head := wrap64 (pos + 1) |> |>))
  | deq_cas_fail t pos s : thr s !! t = Some (DCas pos) →
      conc_step s (goto t (DSeq (ring_head (rg s))) s)
  | deq_read t pos v r s : thr s !! t = Some (DRead pos) → mpmc_read (rg s) pos = Some (v, r) →
      conc_step s (goto t (DRelease pos v) (with_ring r s))
  | deq_release t pos v r s : thr s !! t = Some (DRelease pos v) →
      set_cell_seq (rg s) (ring_index (rg s) pos) (wrap64 (pos + lfqueue_cap (rg s))) = Some r →
      conc_step s (goto t (DDone (Some (pos, v))) (with_ring r s)).

(** The step relation run on a schedule: the next step of thread [t], with the
    CAS succeeding whenever it can. *)
Definition conc_next (t : nat) (s : cstate) : option cstate :=
  match thr s !! t with
  | Some (ELoad v) => Some (goto t (ESeq v (ring_tail (rg s))) s)
  | Some (ESeq v pos) =>
      c ← cell_at s pos; d ← sub_intptr (seq c) pos;
      Some (goto t (if decide (d = 0) then ECas v pos else if decide (d < 0) then EDone v None else ELoad v) s)
  | Some (ECas v pos) =>
      if decide (ring_tail (rg s) = pos)
      then Some (goto t (EWrite v pos) (s <| rg := (rg s) <| ring_tail := wrap64 (pos + 1) |> |> <| hist := hist s ++ [v] |>))
      else Some (goto t (ESeq v (ring_tail (rg s))) s)
  | Some (EWrite v pos) => r ← mpmc_write (rg s) pos v; Some (goto t (EPublish v pos) (with_ring r s))
  | Some (EPublish v pos) =>
      r ← set_cell_seq (rg s) (ring_index (rg s) pos) (wrap64 (pos + 1));
      Some (goto t (EDone v (Some pos)) (with_ring r s))
  | Some DLoad => Some (goto t (DSeq (ring_head (rg s))) s)
  | Some (DSeq pos) =>
      c ← cell_at s pos; d ← sub_intptr (seq c) (wrap64 (pos + 1));
      Some (goto t (if decide (d = 0) then DCas pos else if decide (d < 0) then DDone None else DLoad) s)
  | Some (DCas pos) =>
      if decide (ring_head (rg s) = pos)
      then Some (goto t (DRead pos) (s <| rg := (rg s) <| ring_head := wrap64 (pos + 1) |> |>))
      else Some (goto t (DSeq (ring_head (rg s))) s)
  | Some (DRead pos) => '(v, r) ← mpmc_read (rg s) pos; Some (goto t (DRelease pos v) (with_ring r s))
  | Some (DRelease pos v) =>
      r ← set_cell_seq (rg s) (ring_index (rg s) pos) (wrap64 (pos + lfqueue_cap (rg s)));
      Some (goto t (DDone (Some (pos, v))) (with_ring r s))
  | _ => None
  end.
Definition conc_spawn (t : nat) (op : option (list Z)) (s : cstate) : option cstate :=
  match thr s !! t, op with
  | None, Some v => if decide (length v = r_elem_size (rg s)) then Some (goto t (ELoad v) s) else None
  | None, None => Some (goto t DLoad s)
  | _, _ => None
  end.
(** A schedule: start an operation on a thread, or let a thread take a step. *)
Inductive sched := Spawn (t : nat) (op : option (list Z)) | Run (t : nat).
Fixpoint conc_run (k : Z) (l : list sched) (s : cstate) : option cstate :=
  match l with
  | [] => Some s
  | a :: l' =>
      s' ← match a with Spawn t op => conc_spawn t op s | Run t => conc_next t s end;
      if decide (ring_tail (rg s') + 2 ^ k < 2 ^ 63) then conc_run k l' s' else None
  end.

(** The position a thread has claimed on the producer or consumer side. *)
Definition enq_pos (p : pc) : option Z :=
  match p with EWrite _ pos | EPublish _ pos => Some pos | EDone _ o => o | _ => None end.
Definition deq_pos (p : pc) : option Z :=
  match p with DRead pos | DRelease pos _ => Some pos | DDone (Some (pos, _)) => Some pos | _ => None end.
Definition finished (p : pc) : bool := match p with EDone _ _ | DDone _ => true | _ => false end.

(** * The invariant *)

(** [q] is the last position claimed for its cell: the cell is free again for
    [q + cap], or being filled, or full. *)
Definition cell_ok (k : Z) (s : cstate) (q : Z) : Prop :=
  let r := rg s in
  (seqs r !! idx k q = Some (q + 2 ^ k) ∧ q < ring_head r) ∨
  (seqs r !! idx k q = Some q ∧ ring_head r ≤ q) ∨
  (seqs r !! idx k q = Some (q + 1) ∧ 0 ≤ q ∧ ∃ v, hist s !! Z.to_nat q = Some v ∧ holds r (idx k q) v).

Definition pc_ok (k : Z) (s : cstate) (p : pc) : Prop :=
  let r := rg s in
  match p with
  | ELoad v => length v = r_elem_size r
  | ESeq v pos => length v = r_elem_size r ∧ 0 ≤ pos ≤ ring_tail r
  | ECas v pos => length v = r_elem_size r ∧ 0 ≤ pos ≤ ring_tail r ∧
      (pos = ring_tail r → seqs r !! idx k pos = Some pos)
  | EWrite v pos => length v = r_elem_size r ∧ ring_head r ≤ pos < ring_tail r ∧
      hist s !! Z.to_nat pos = Some v ∧ seqs r !! idx k pos = Some pos
  | EPublish v pos => length v = r_elem_size r ∧ ring_head r ≤ pos < ring_tail r ∧
      hist s !! Z.to_nat pos = Some v ∧ seqs r !! idx k pos = Some pos ∧ holds r (idx k pos) v
  | EDone v None => True
  | EDone v (Some pos) => 0 ≤ pos < ring_tail r ∧ hist s !! Z.to_nat pos = Some v
  | DLoad => True
  | DSeq pos => 0 ≤ pos ≤ ring_head r
  | DCas pos => 0 ≤ pos ≤ ring_head r ∧
      (pos = ring_head r → seqs r !! idx k pos = Some (pos + 1) ∧ pos < ring_tail r)
  | DRead pos => 0 ≤ pos < ring_head r ∧ ring_tail r - 2 ^ k ≤ pos ∧ seqs r !! idx k pos = Some (pos + 1)
  | DRelease pos v => 0 ≤ pos < ring_head r ∧ ring_tail r - 2 ^ k ≤ pos ∧
      seqs r !! idx k pos = Some (pos + 1) ∧ hist s !! Z.to_nat pos = Some v
  | DDone None => True
  | DDone (Some (pos, v)) => 0 ≤ pos < ring_head r ∧ hist s !! Z.to_nat pos = Some v
  end.

Record conc_inv (k : Z) (s : cstate) : Prop := {
  ci_wf : ring_wf k (rg s);
  ci_hist : ring_tail (rg s) = Z.of_nat (length (hist s));
  ci_order : 0 ≤ ring_head (rg s) ≤ ring_tail (rg s) ∧ ring_tail (rg s) ≤ ring_head (rg s) + 2 ^ k;
  ci_bound : ring_tail (rg s) + 2 ^ k < 2 ^ 63;
  ci_elems : Forall (λ v, length v = r_elem_size (rg s)) (hist s);
  ci_cells : ∀ q, ring_tail (rg s) - 2 ^ k ≤ q < ring_tail (rg s) → cell_ok k s q;
  ci_pcs : ∀ t p, thr s !! t = Some p → pc_ok k s p;
  ci_enq : ∀ t t' p p' pos, thr s !! t = Some p → thr s !! t' = Some p' →
    enq_pos p = Some pos → enq_pos p' = Some pos → t = t';
  ci_deq : ∀ t t' p p' pos, thr s !! t = Some p → thr s !! t' = Some p' →
    deq_pos p = Some pos → deq_pos p' = Some pos → t = t' }.

Definition conc_init (cap : Z) (es : nat) : cstate := CState (ring_create cap es) ∅ [].
(** Runs that stay below 2^63 positions, where the signed sequence comparison
    of the source is defined. *)
Definition bounded_step (k : Z) (s s' : cstate) : Prop :=
  conc_step s s' ∧ ring_tail (rg s') + 2 ^ k < 2 ^ 63.

(** * Lemmas *)

Lemma idx_window k T a b :
  0 ≤ k → T - 2 ^ k ≤ a < T → T - 2 ^ k ≤ b < T → idx k a = idx k b → a = b.
Proof.
  intros Hk Ha Hb H. assert (a - (T - 2 ^ k) = b - (T - 2 ^ k)); [|lia].
  apply (idx_inj k (T - 2 ^ k)); [done|lia|lia|].
  replace (T - 2 ^ k + (a - (T - 2 ^ k))) with a by lia. by replace (T - 2 ^ k + (b - (T - 2 ^ k))) with b by lia.
Qed.
Lemma idx_back k T : 0 ≤ k → idx k (T - 2 ^ k) = idx k T.
Proof. intros. rewrite <- (idx_wrap k (T - 2 ^ k)) by done. f_equal. lia. Qed.
Lemma pow_ge2 k : 1 ≤ k → 2 ≤ 2 ^ k.
Proof. intros. change 2 with (2 ^ 1) at 1. apply Z.pow_le_mono_r; lia. Qed.

(** The cell of the next position is free for it, being filled for the
    previous lap, or still full. *)
Lemma tail_cell k s :
  conc_inv k s → seqs (rg s) !! idx k (ring_tail (rg s)) = Some (ring_tail (rg s)) →
  ring_tail (rg s) - 2 ^ k < ring_head (rg s).
Proof.
  intros Hi Hseq. pose proof (wf_k _ _ (ci_wf _ _ Hi)). pose proof (pow_ge2 k ltac:(lia)).
  destruct (ci_cells _ _ Hi (ring_tail (rg s) - 2 ^ k)) as [[H1 H2]|[[H1 H2]|[H1 H2]]]; [lia|done|..];
    rewrite idx_back in H1 by lia; rewrite Hseq in H1; simplify_eq; lia.
Qed.
Lemma head_cell k s :
  conc_inv k s → seqs (rg s) !! idx k (ring_head (rg s)) = Some (ring_head (rg s) + 1) →
  ring_head (rg s) < ring_tail (rg s).
Proof.
  intros Hi Hseq. pose proof (wf_k _ _ (ci_wf _ _ Hi)). pose proof (pow_ge2 k ltac:(lia)).
  destruct (ci_order _ _ Hi) as [Ho1 Ho2]. destruct (decide (ring_head (rg s) = ring_tail (rg s))) as [E|]; [|lia].
  rewrite E in Hseq.
  destruct (ci_cells _ _ Hi (ring_tail (rg s) - 2 ^ k)) as [[H1 H2]|[[H1 H2]|[H1 H2]]]; [lia|..];
    rewrite idx_back in H1 by lia; rewrite Hseq in H1; simplify_eq; lia.
Qed.

(** Schedules are runs of the step relation. *)
Lemma conc_next_step t s s' : conc_next t s = Some s' → conc_step s s'.
Proof.
  unfold conc_next. destruct (thr s !! t) as [p|] eqn:Ht; [|done].
  destruct p as [v|v pos|v pos|v pos|v pos| |  |pos|pos|pos|pos v| ]; try done.
  - intros [= <-]. by apply enq_load.
  - destruct (cell_at s pos) as [c|] eqn:Hc; simpl; [|done]. destruct (sub_intptr _ _) as [d|] eqn:Hd; simpl; [|done].
    intros [= <-]. by eapply enq_seq.
  - case_decide; intros [= <-]; [by apply enq_cas|by eapply enq_cas_fail].
  - destruct (mpmc_write _ _ _) as [r|] eqn:Hw; simpl; [|done]. intros [= <-]. by eapply enq_write.
  - destruct (set_cell_seq _ _ _) as [r|] eqn:Hw; simpl; [|done]. intros [= <-]. by eapply enq_publish.
  - intros [= <-]. by apply deq_load.
  - destruct (cell_at s pos) as [c|] eqn:Hc; simpl; [|done]. destruct (sub_intptr _ _) as [d|] eqn:Hd; simpl; [|done].
    intros [= <-]. by eapply deq_seq.
  - case_decide; intros [= <-]; [by apply deq_cas|by eapply deq_cas_fail].
  - destruct (mpmc_read _ _) as [[v r]|] eqn:Hw; simpl; [|done]. intros [= <-]. by eapply deq_read.
  - destruct (set_cell_seq _ _ _) as [r|] eqn:Hw; simpl; [|done]. intros [= <-]. by eapply deq_release.
Qed.
Lemma conc_run_reach k l s s' : conc_run k l s = Some s' → rtc (bounded_step k) s s'.
Proof.
  revert s. induction l as [|a l IH]; intros s; simpl; [by intros [= <-]|].
  destruct (match a with Spawn t op => _ | Run t => _ end) as [s1|] eqn:Ha; simpl; [|done].
  case_decide; [|done]. intros Hr. eapply rtc_l; [split; [|done]|by apply IH].
  destruct a as [t op|t]; [|by eapply conc_next_step]. unfold conc_spawn in Ha.
  destruct (thr s !! t) eqn:Ht; [done|]. destruct op as [v|]; [case_decide; [|done]|]; injection Ha as <-.
  - by apply start_enqueue.
  - by apply start_dequeue.
Qed.

(** Replacing one thread's program counter. *)
Lemma goto_pcs k s t p :
  (∀ t' p', t' ≠ t → thr s !! t' = Some p' → pc_ok k s p') → pc_ok k s p →
  ∀ t' p', thr (goto t p s) !! t' = Some p' → pc_ok k (goto t p s) p'.
Proof.
  intros Ho Hp t' p' Hl. simpl in Hl. destruct (decide (t = t')) as [->|]; simplify_map_eq; [by destruct p'|].
  specialize (Ho t' p' ltac:(done) Hl). by destruct p'.
Qed.
Lemma goto_uniq (f : pc → option Z) s t p :
  (∀ t1 t2 p1 p2 pos, thr s !! t1 = Some p1 → thr s !! t2 = Some p2 → f p1 = Some pos → f p2 = Some pos → t1 = t2) →
  (∀ pos t' p', f p = Some pos → t' ≠ t → thr s !! t' = Some p' → f p' ≠ Some pos) →
  ∀ t1 t2 p1 p2 pos, thr (goto t p s) !! t1 = Some p1 → thr (goto t p s) !! t2 = Some p2 →
    f p1 = Some pos → f p2 = Some pos → t1 = t2.
Proof.
  intros Hu Hn t1 t2 p1 p2 pos H1 H2 F1 F2. simpl in *.
  destruct (decide (t = t1)) as [<-|], (decide (t = t2)) as [<-|]; simplify_map_eq; try done.
  - by destruct (Hn pos t2 p2 F1).
  - by destruct (Hn pos t1 p1 F2).
  - by eapply Hu.
Qed.
(** A thread keeps its claim. *)
Lemma keep_claim (f : pc → option Z) s t p0 p :
  (∀ t1 t2 p1 p2 pos, thr s !! t1 = Some p1 → thr s !! t2 = Some p2 → f p1 = Some pos → f p2 = Some pos → t1 = t2) →
  thr s !! t = Some p0 → (f p = None ∨ f p = f p0) →
  ∀ pos t' p', f p = Some pos → t' ≠ t → thr s !! t' = Some p' → f p' ≠ Some pos.
Proof.
  intros Hu Ht0 [Hf|Hf] pos t' p' Hp Hne Ht' Hp'; [congruence|].
  apply Hne. by eapply Hu; [done|done|done|congruence].
Qed.

(** Steps that change only the thread itself. *)
Lemma thread_step_inv k s t p0 p :
  conc_inv k s → (thr s !! t = None ∧ p0 = DLoad ∨ thr s !! t = Some p0) →
  (enq_pos p = None ∨ enq_pos p = enq_pos p0) → (deq_pos p = None ∨ deq_pos p = deq_pos p0) →
  pc_ok k s p → conc_inv k (goto t p s).
Proof.
  intros [Hwf Hh Ho Hb He Hc Hp Hqe Hqd] Ht Hfe Hfd Hok. split; try done.
  - apply goto_pcs; eauto.
  - apply goto_uniq; [done|]. destruct Ht as [[Ht ->]|Ht]; [|by eapply keep_claim].
    intros pos t' p' Hf. destruct Hfe as [E|E]; rewrite E in Hf; done.
  - apply goto_uniq; [done|]. destruct Ht as [[Ht ->]|Ht]; [|by eapply keep_claim].
    intros pos t' p' Hf. destruct Hfd as [E|E]; rewrite E in Hf; done.
Qed.

(** ** The steps that change the ring *)

Lemma enq_cas_inv k s t v pos :
  conc_inv k s → thr s !! t = Some (ECas v pos) → ring_tail (rg s) = pos → pos + 1 + 2 ^ k < 2 ^ 63 →
  conc_inv k (goto t (EWrite v pos) (s <| rg := (rg s) <| ring_tail := wrap64 (pos + 1) |> |>
                                       <| hist := hist s ++ [v] |>)).
Proof.
  intros Hi Ht Hpos Hb'. pose proof Hi as [Hwf Hh Ho Hb He Hc Hp Hqe Hqd]. pose proof (wf_k _ _ Hwf) as Hk.
  pose proof (pow_ge2 k ltac:(lia)) as Hk2. destruct (Hp t _ Ht) as (Hv & Hpr & Hseq).
  symmetry in Hpos. specialize (Hseq Hpos). rewrite Hpos in *. pose proof (tail_cell k s Hi Hseq) as Hlt.
  rewrite wrap64_small by lia. set (T := ring_tail (rg s)) in *. set (H := ring_head (rg s)) in *.
  set (s1 := s <| rg := (rg s) <| ring_tail := T + 1 |> |> <| hist := hist s ++ [v] |>).
  assert (Hold : ∀ q, 0 ≤ q < T → ∀ w, hist s !! Z.to_nat q = Some w → (hist s ++ [v]) !! Z.to_nat q = Some w).
  { intros q Hq w. apply lookup_app_l_Some. }
  split; simpl; try done.
  - by destruct Hwf.
  - rewrite length_app. simpl. lia.
  - fold H. lia.
  - apply Forall_app. split; [done|]. by constructor.
  - intros q Hq. destruct (decide (q = T)) as [->|Hne].
    + right. left. simpl. split; [done|]. fold H. lia.
    + destruct (Hc q ltac:(lia)) as [[H1 H2]|[[H1 H2]|(H1 & H2 & w & Hw & Hho)]]; [by left|by right; left|].
      right. right. split; [done|]. split; [done|]. exists w. split; [apply Hold; [lia|done]|done].
  - apply (goto_pcs k s1); [|unfold s1; simpl; split_and!; [done|fold H; lia|lia| |done]].
    2: { rewrite lookup_app_r by lia. replace (Z.to_nat T - length (hist s))%nat with 0%nat by lia. done. }
    intros t' p' _ Hp'. specialize (Hp t' p' Hp').
    assert (Hdeq : ∀ q, seqs (rg s) !! idx k q = Some (q + 1) → T - 2 ^ k ≤ q → T + 1 - 2 ^ k ≤ q).
    { intros q Hs Hq. destruct (decide (q = T - 2 ^ k)) as [->|]; [|lia]. rewrite idx_back, Hseq in Hs by lia. simplify_eq. lia. }
    destruct p' as [| | | | | ? [?|]| | | | | |[[]|]]; simpl in *; fold T H in Hp |- *; decompose [and] Hp;
      split_and?; auto using lookup_app_l_Some; try lia; try done.
    intros E. split; [by apply Hp|lia].
  - apply (goto_uniq enq_pos s1); [done|]. simpl. intros pos' t' p' [= <-] _ Hp' E.
    specialize (Hp t' p' Hp'). destruct p' as [| | | | | ? [?|]| | | | | |[[]|]]; simplify_eq/=; lia.
  - by apply (goto_uniq deq_pos s1).
Qed.

(** Writing the value of a claimed position. *)
Lemma enq_write_inv k s t v pos r :
  conc_inv k s → thr s !! t = Some (EWrite v pos) → mpmc_write (rg s) pos v = Some r →
  conc_inv k (goto t (EPublish v pos) (with_ring r s)).
Proof.
  intros Hi Ht Hw. pose proof Hi as [Hwf Hh Ho Hb He Hc Hp Hqe Hqd]. pose proof (wf_k _ _ Hwf) as Hk.
  pose proof (pow_ge2 k ltac:(lia)) as Hk2. destruct (Hp t _ Ht) as (Hv & Hpr & Hhist & Hseq).
  destruct (mpmc_write_spec k (rg s) pos v Hwf Hv) as (r' & Hw' & Hwr). rewrite Hw in Hw'. injection Hw' as <-.
  pose proof (wr_head _ _ _ _ Hwr) as Eh. pose proof (wr_tail _ _ _ _ Hwr) as Et.
  pose proof (wr_seqs _ _ _ _ Hwr) as Es. pose proof (wr_es _ _ _ _ Hwr) as Ee.
  split; simpl; rewrite ?Eh, ?Et, ?Ee; try done.
  - by eapply wrote_wf.
  - intros q Hq. unfold cell_ok. simpl. rewrite Es, Eh.
    destruct (Hc q Hq) as [?|[?|(H1 & H2 & w & Hw1 & Hho)]]; [by left|by right; left|]. right. right.
    split_and!; try done. exists w. split; [done|]. apply (wr_there _ _ _ _ Hwr); [|done].
    intros E. assert (q = pos) as ->; [|rewrite Hseq in H1; simplify_eq; lia].
    apply (idx_window k (ring_tail (rg s))); [lia|lia|lia|done].
  - refine (goto_pcs k (with_ring r s) t (EPublish v pos) _ _); [|simpl; split_and!; simpl; rewrite ?Eh, ?Et, ?Es, ?Ee; try done; try lia; apply Hwr].
    intros t' p' Hne Hp'. pose proof (Hp t' p' Hp') as Hok.
    destruct p' as [| | |v' pos'|v' pos'| ? [?|]| | | | | |[[]|]]; simpl in *; rewrite ?Eh, ?Et, ?Es, ?Ee; try done.
    destruct Hok as (? & ? & ? & Hs' & Hho). split_and!; try done; try lia. apply (wr_there _ _ _ _ Hwr); [|done].
    intros E. assert (pos' = pos) as ->; [apply (idx_window k (ring_tail (rg s))); [lia|lia|lia|done]|].
    apply Hne. by apply (Hqe t' t _ _ pos Hp' Ht).
  - refine (goto_uniq enq_pos (with_ring r s) t (EPublish v pos) _ _); [done|]. by eapply (keep_claim enq_pos _ t (EWrite v pos)); [|..|right].
  - by refine (goto_uniq deq_pos (with_ring r s) t (EPublish v pos) _ _).
Qed.

(** Publishing a filled position, and freeing a read one: both store one
    sequence number. *)
Lemma enq_publish_inv k s t v pos r :
  conc_inv k s → thr s !! t = Some (EPublish v pos) →
  set_cell_seq (rg s) (ring_index (rg s) pos) (wrap64 (pos + 1)) = Some r →
  conc_inv k (goto t (EDone v (Some pos)) (with_ring r s)).
Proof.
  intros Hi Ht Hset. pose proof Hi as [Hwf Hh Ho Hb He Hc Hp Hqe Hqd]. pose proof (wf_k _ _ Hwf) as Hk.
  pose proof (pow_ge2 k ltac:(lia)) as Hk2. destruct (Hp t _ Ht) as (Hv & Hpr & Hhist & Hseq & Hho).
  rewrite (ring_index_idx k) in Hset by done. rewrite wrap64_small in Hset by lia.
  destruct (set_cell_seq_spec (rg s) (idx k pos) (pos + 1)) as (r' & Hset' & Hrs).
  { rewrite (wf_cells _ _ Hwf). apply idx_lt. lia. }
  rewrite Hset in Hset'. injection Hset' as <-.
  pose proof (rs_head _ _ _ _ Hrs) as Eh. pose proof (rs_tail _ _ _ _ Hrs) as Et. pose proof (rs_es _ _ _ _ Hrs) as Ee.
  pose proof (rs_seqs _ _ _ _ Hrs) as Es.
  (* another position's cell keeps its number *)
  assert (Hother : ∀ q x, seqs (rg s) !! idx k q = Some x →
    (idx k q = idx k pos → False) → seqs r !! idx k q = Some x).
  { intros q x Hq Hne. rewrite Es, list_lookup_insert_ne; [done|]. congruence. }
  assert (Hwin : ∀ q, ring_tail (rg s) - 2 ^ k ≤ q < ring_tail (rg s) → idx k q = idx k pos → q = pos).
  { intros q Hq. apply (idx_window k (ring_tail (rg s))); lia. }
  split; simpl; rewrite ?Eh, ?Et, ?Ee; try done.
  - by eapply rs_wf.
  - intros q Hq. unfold cell_ok. simpl. rewrite Eh. destruct (decide (q = pos)) as [->|Hne].
    + right. right. split_and!; [|lia|exists v; split; [done|by apply Hrs]].
      rewrite Es. apply list_lookup_insert_eq. by apply lookup_lt_Some in Hseq.
    + assert (Hx : idx k q = idx k pos → False) by (intros E; by apply Hne, Hwin).
      destruct (Hc q Hq) as [[H1 H2]|[[H1 H2]|(H1 & H2 & w & Hw1 & Hho')]]; [left; eauto|right; left; eauto|].
      right. right. split_and!; [eauto|done|]. exists w. split; [done|by apply Hrs].
  - refine (goto_pcs k (with_ring r s) t (EDone v (Some pos)) _ _); [|simpl; rewrite Et; split; [lia|done]].
    intros t' p' Hne Hp'. pose proof (Hp t' p' Hp') as Hok.
    destruct p' as [| |v' pos'|v' pos'|v' pos'| ? [?|]| | |pos'|pos'|pos' v'|[[]|]]; simpl in *; rewrite ?Eh, ?Et, ?Ee; try done.
    + destruct Hok as (? & ? & Hs'). split_and!; try done; try lia. intros E. apply Hother; [auto|]. intros E'.
      rewrite E' in Hs'. rewrite (Hs' E) in Hseq. simplify_eq. lia.
    + destruct Hok as (? & ? & ? & Hs'). split_and!; try done; try lia. apply Hother; [done|]. intros E.
      apply Hne. apply (Hqe t' t _ _ pos Hp' Ht); [|done]. simpl. f_equal. apply Hwin; [lia|done].
    + destruct Hok as (? & ? & ? & Hs' & Hho'). split_and!; try done; try lia; [|by apply Hrs]. apply Hother; [done|]. intros E.
      apply Hne. apply (Hqe t' t _ _ pos Hp' Ht); [|done]. simpl. f_equal. apply Hwin; [lia|done].
    + destruct Hok as (? & Hs'). split; [lia|]. intros E. destruct (Hs' E) as [Hs1 ?]. split; [|done]. apply Hother; [done|].
      intros E'. assert (pos' = pos) as -> by (apply Hwin; [lia|done]). rewrite Hseq in Hs1. injection Hs1. lia.
    + destruct Hok as (? & ? & Hs'). split_and!; try done; try lia. apply Hother; [done|]. intros E.
      assert (pos' = pos) as -> by (apply Hwin; [lia|done]). rewrite Hseq in Hs'. simplify_eq. lia.
    + destruct Hok as (? & ? & Hs' & ?). split_and!; try done; try lia. apply Hother; [done|]. intros E.
      assert (pos' = pos) as -> by (apply Hwin; [lia|done]). rewrite Hseq in Hs'. simplify_eq. lia.
  - refine (goto_uniq enq_pos (with_ring r s) t (EDone v (Some pos)) _ _); [done|]. by eapply (keep_claim enq_pos _ t (EPublish v pos)); [|..|right].
  - by refine (goto_uniq deq_pos (with_ring r s) t (EDone v (Some pos)) _ _).
Qed.

Lemma deq_cas_inv k s t pos :
  conc_inv k s → thr s !! t = Some (DCas pos) → ring_head (rg s) = pos →
  conc_inv k (goto t (DRead pos) (s <| rg := (rg s) <| ring_head := wrap64 (pos + 1) |> |>)).
Proof.
  intros Hi Ht Hpos. pose proof Hi as [Hwf Hh Ho Hb He Hc Hp Hqe Hqd]. pose proof (wf_k _ _ Hwf) as Hk.
  pose proof (pow_ge2 k ltac:(lia)) as Hk2. destruct (Hp t _ Ht) as (Hpr & Hf). symmetry in Hpos.
  destruct (Hf Hpos) as [Hseq Hlt]. rewrite wrap64_small by lia. rewrite Hpos in *.
  set (T := ring_tail (rg s)) in *. set (H := ring_head (rg s)) in *.
  set (s1 := s <| rg := (rg s) <| ring_head := H + 1 |> |>).
  split; simpl; fold T; try done.
  - by destruct Hwf.
  - lia.
  - intros q Hq. destruct (Hc q Hq) as [[H1 H2]|[[H1 H2]|?]]; [left|right; left|by right; right]; simpl in *; fold H in H2.
    + split; [done|lia].
    + split; [done|]. destruct (decide (q = H)) as [->|]; [|lia]. change (seqs (rg s) !! idx k H = Some H) in H1.
      rewrite Hseq in H1. injection H1. lia.
  - apply (goto_pcs k s1); [|unfold s1; simpl; fold T; split_and!; try done; lia].
    intros t' p' _ Hp'. specialize (Hp t' p' Hp').
    assert (Henq : ∀ q, seqs (rg s) !! idx k q = Some q → H ≤ q → H + 1 ≤ q).
    { intros q Hs Hq. destruct (decide (q = H)) as [->|]; [|lia]. rewrite Hseq in Hs. injection Hs. lia. }
    destruct p' as [| | | | | ? [?|]| | | | | |[[]|]]; simpl in *; fold T H in Hp |- *; decompose [and] Hp;
      split_and?; auto; try lia; try done.
    all: intros; lia.
  - by apply (goto_uniq enq_pos s1).
  - apply (goto_uniq deq_pos s1); [done|]. simpl. intros pos' t' p' [= <-] _ Hp' E.
    specialize (Hp t' p' Hp'). destruct p' as [| | | | | ? [?|]| | | | | |[[]|]]; simplify_eq/=; lia.
Qed.

Lemma deq_read_inv k s t pos v r :
  conc_inv k s → thr s !! t = Some (DRead pos) → mpmc_read (rg s) pos = Some (v, r) →
  conc_inv k (goto t (DRelease pos v) (with_ring r s)).
Proof.
  intros Hi Ht Hr. pose proof Hi as [Hwf Hh Ho Hb He Hc Hp Hqe Hqd]. pose proof (wf_k _ _ Hwf) as Hk.
  pose proof (pow_ge2 k ltac:(lia)) as Hk2. destruct (Hp t _ Ht) as (Hpr & Hwin & Hseq).
  destruct (Hc pos) as [[H1 _]|[[H1 _]|(H1 & _ & w & Hw & Hho)]]; [lia|rewrite Hseq in H1; injection H1; lia..|].
  destruct (mpmc_read_spec k (rg s) pos w Hwf Hho) as (r' & Hr' & Eh & Et & Ee & _ & Hwf' & Es & Hhold).
  rewrite Hr in Hr'. injection Hr' as <- <-.
  split; simpl; rewrite ?Eh, ?Et, ?Ee; try done.
  - intros q Hq. unfold cell_ok. simpl. rewrite Es, Eh.
    destruct (Hc q Hq) as [?|[?|(? & ? & w & ? & ?)]]; [by left|by right; left|right; right]. eauto 6.
  - refine (goto_pcs k (with_ring r s) t (DRelease pos v) _ _); [|simpl; split_and!; simpl; rewrite ?Eh, ?Et, ?Es; try done; lia].
    intros t' p' _ Hp'. specialize (Hp t' p' Hp').
    destruct p' as [| | | | | ? [?|]| | | | | |[[]|]]; simpl in *; rewrite ?Eh, ?Et, ?Es, ?Ee; try done.
    destruct Hp as (? & ? & ? & ? & ?). split_and!; auto; lia.
  - by refine (goto_uniq enq_pos (with_ring r s) t (DRelease pos v) _ _).
  - refine (goto_uniq deq_pos (with_ring r s) t (DRelease pos v) _ _); [done|].
    by eapply (keep_claim deq_pos _ t (DRead pos)); [|..|right].
Qed.

Lemma deq_release_inv k s t pos v r :
  conc_inv k s → thr s !! t = Some (DRelease pos v) →
  set_cell_seq (rg s) (ring_index (rg s) pos) (wrap64 (pos + lfqueue_cap (rg s))) = Some r →
  conc_inv k (goto t (DDone (Some (pos, v))) (with_ring r s)).
Proof.
  intros Hi Ht Hset. pose proof Hi as [Hwf Hh Ho Hb He Hc Hp Hqe Hqd]. pose proof (wf_k _ _ Hwf) as Hk.
  pose proof (pow_ge2 k ltac:(lia)) as Hk2. destruct (Hp t _ Ht) as (Hpr & Hpw & Hseq & Hhist).
  rewrite (ring_index_idx k), (wf_cap _ _ Hwf) in Hset by done. rewrite wrap64_small in Hset by lia.
  destruct (set_cell_seq_spec (rg s) (idx k pos) (pos + 2 ^ k)) as (r' & Hset' & Hrs).
  { rewrite (wf_cells _ _ Hwf). apply idx_lt. lia. }
  rewrite Hset in Hset'. injection Hset' as <-.
  pose proof (rs_head _ _ _ _ Hrs) as Eh. pose proof (rs_tail _ _ _ _ Hrs) as Et. pose proof (rs_es _ _ _ _ Hrs) as Ee.
  pose proof (rs_seqs _ _ _ _ Hrs) as Es.
  assert (Hother : ∀ q x, seqs (rg s) !! idx k q = Some x →
    (idx k q = idx k pos → False) → seqs r !! idx k q = Some x).
  { intros q x Hq Hne. rewrite Es, list_lookup_insert_ne; [done|]. congruence. }
  assert (Hwin : ∀ q, ring_tail (rg s) - 2 ^ k ≤ q < ring_tail (rg s) → idx k q = idx k pos → q = pos).
  { intros q Hq. apply (idx_window k (ring_tail (rg s))); lia. }
  split; simpl; rewrite ?Eh, ?Et, ?Ee; try done.
  - by eapply rs_wf.
  - intros q Hq. unfold cell_ok. simpl. rewrite Eh. destruct (decide (q = pos)) as [->|Hne].
    + left. split; [|lia]. rewrite Es. apply list_lookup_insert_eq. by apply lookup_lt_Some in Hseq.
    + assert (Hx : idx k q = idx k pos → False) by (intros E; by apply Hne, Hwin).
      destruct (Hc q Hq) as [[H1 H2]|[[H1 H2]|(H1 & H2 & w & Hw1 & Hho')]]; [left; eauto|right; left; eauto|].
      right. right. split_and!; [eauto|done|]. exists w. split; [done|by apply Hrs].
  - refine (goto_pcs k (with_ring r s) t (DDone (Some (pos, v))) _ _); [|simpl; rewrite Eh; split; [lia|done]].
    intros t' p' Hne Hp'. pose proof (Hp t' p' Hp') as Hok.
    destruct p' as [| |v' pos'|v' pos'|v' pos'| ? [?|]| | |pos'|pos'|pos' v'|[[]|]]; simpl in *; rewrite ?Eh, ?Et, ?Ee; try done.
    + destruct Hok as (? & ? & Hs'). split_and!; try done; try lia. intros E. apply Hother; [auto|]. intros E'.
      rewrite <- E', (Hs' E) in Hseq. injection Hseq as Hx.
      assert (pos = ring_tail (rg s) - 2 ^ k); [|lia]. symmetry. apply Hwin; [lia|]. rewrite idx_back by lia. congruence.
    + destruct Hok as (? & ? & ? & Hs'). split_and!; try done; try lia. apply Hother; [done|]. intros E.
      assert (pos' = pos) by (apply Hwin; [lia|done]). lia.
    + destruct Hok as (? & ? & ? & Hs' & Hho'). split_and!; try done; try lia; [|by apply Hrs]. apply Hother; [done|]. intros E.
      assert (pos' = pos) by (apply Hwin; [lia|done]). lia.
    + destruct Hok as (? & Hs'). split; [lia|]. intros E. destruct (Hs' E) as [Hs1 ?]. split; [|done]. apply Hother; [done|].
      intros E'. assert (pos' = pos) by (apply Hwin; [lia|done]). lia.
    + destruct Hok as (? & ? & Hs'). split_and!; try done; try lia. apply Hother; [done|]. intros E.
      apply Hne. apply (Hqd t' t _ _ pos Hp' Ht); [|done]. simpl. f_equal. apply Hwin; [lia|done].
    + destruct Hok as (? & ? & Hs' & ?). split_and!; try done; try lia. apply Hother; [done|]. intros E.
      apply Hne. apply (Hqd t' t _ _ pos Hp' Ht); [|done]. simpl. f_equal. apply Hwin; [lia|done].
  - by refine (goto_uniq enq_pos (with_ring r s) t (DDone (Some (pos, v))) _ _).
  - refine (goto_uniq deq_pos (with_ring r s) t (DDone (Some (pos, v))) _ _); [done|].
    by eapply (keep_claim deq_pos _ t (DRelease pos v)); [|..|right].
Qed.

(** ** All steps *)

Lemma conc_step_inv k s s' : conc_inv k s → bounded_step k s s' → conc_inv k s'.
Proof.
  intros Hi [Hst Hbd]. pose proof (ci_pcs _ _ Hi) as Hp. pose proof (wf_k _ _ (ci_wf _ _ Hi)) as Hk.
  pose proof (ci_order _ _ Hi) as Ho. pose proof (ci_bound _ _ Hi) as Hb. pose proof (pow_ge2 k ltac:(lia)).
  destruct Hst as [t v s Ht Hv|t s Ht|t v s Ht|t v pos c d s Ht Hc Hd|t v pos s Ht Hpos|t v pos s Ht|t v pos r s Ht Hw
    |t v pos r s Ht Hset|t s Ht|t pos c d s Ht Hc Hd|t pos s Ht Hpos|t pos s Ht|t pos v r s Ht Hr|t pos v r s Ht Hset].
  - eapply thread_step_inv; [done|by left|by left|by left|done].
  - eapply thread_step_inv; [done|by left|by left|by left|done].
  - eapply thread_step_inv; [done|by right|by left|by left|]. pose proof (Hp _ _ Ht) as Hv. simpl in *. split; [done|lia].
  - destruct (Hp _ _ Ht) as [Hv Hpr]. eapply thread_step_inv; [done|by right|left; by repeat case_decide..|].
    case_decide as Hd0; [|by case_decide]. subst d. split_and!; [done|lia|lia|]. intros Hpos.
    unfold cell_at in Hc. rewrite (ring_index_idx k) in Hc by apply Hi. unfold seqs. rewrite list_lookup_fmap, Hc. simpl.
    f_equal. unfold sub_intptr, to_signed in Hd. revert Hd.
    destruct (ci_cells _ _ Hi (pos - 2 ^ k)) as [[H1 _]|[[H1 _]|[H1 _]]]; [lia|..];
      unfold seqs in H1; rewrite idx_back, list_lookup_fmap, Hc in H1 by lia; simpl in H1; injection H1 as ->;
      repeat case_decide; intros [= ?]; lia.
  - simpl in Hbd. destruct (Hp _ _ Ht) as (_ & Hpr & _). rewrite wrap64_small in Hbd by lia. apply enq_cas_inv; [done|done|done|lia].
  - eapply thread_step_inv; [done|by right|by left|by left|]. destruct (Hp _ _ Ht) as (? & ? & _). simpl in *. split; [done|lia].
  - by eapply enq_write_inv.
  - by eapply enq_publish_inv.
  - eapply thread_step_inv; [done|by right|by left|by left|]. simpl. lia.
  - pose proof (Hp _ _ Ht) as Hpr. simpl in Hpr. eapply thread_step_inv; [done|by right|left; by repeat case_decide..|].
    case_decide as Hd0; [|by case_decide]. subst d. split; [lia|]. intros Hpos.
    unfold cell_at in Hc. rewrite (ring_index_idx k) in Hc by apply Hi. rewrite wrap64_small in Hd by lia.
    assert (Hcs : seqs (rg s) !! idx k pos = Some (seq c)) by (unfold seqs; by rewrite list_lookup_fmap, Hc).
    assert (Hsc : 0 ≤ seq c < 2 ^ 63).
    { destruct (idx_surj k (ring_tail (rg s) - 2 ^ k) (idx k pos)) as (i & Hi' & Hix); [lia|apply idx_lt; lia|].
      destruct (ci_cells _ _ Hi (ring_tail (rg s) - 2 ^ k + i)) as [[H1 _]|[[H1 ?]|[H1 ?]]]; [lia|..];
        rewrite Hix, Hcs in H1; injection H1 as ->; lia. }
    rewrite sub_intptr_small in Hd by lia. injection Hd as Hd. assert (Hse : seq c = pos + 1) by lia. rewrite Hse in Hcs.
    split; [done|]. rewrite Hpos. apply (head_cell k); [done|]. by rewrite <- Hpos.
  - by apply deq_cas_inv.
  - eapply thread_step_inv; [done|by right|by left|by left|]. simpl. lia.
  - by eapply deq_read_inv.
  - by eapply deq_release_inv.
Qed.

Lemma conc_init_inv cap es :
  2 ≤ cap ≤ 2 ^ 61 → conc_inv (Z.log2 (cap - 1) + 1) (conc_init cap es).
Proof.
  intros Hcap. pose proof (ring_create_mpmc cap es ltac:(lia)) as [Hwf ? ? ? ? Hseq _].
  set (k := Z.log2 (cap - 1) + 1) in *. pose proof (wf_k _ _ Hwf). pose proof (pow_ge2 k ltac:(lia)).
  assert (2 ^ k ≤ 2 ^ 62) by (apply Z.pow_le_mono_r; lia).
  split; try done; simpl; try lia.
  intros q Hq. left. simpl in *. split; [|lia]. specialize (Hseq (q + 2 ^ k) ltac:(lia)).
  rewrite decide_False in Hseq by lia. rewrite <- (idx_wrap k q) by lia. simpl in Hseq. rewrite Z.add_0_r in Hseq. exact Hseq.
Qed.

Lemma conc_reachable_inv cap es s :
  2 ≤ cap ≤ 2 ^ 61 → rtc (bounded_step (Z.log2 (cap - 1) + 1)) (conc_init cap es) s →
  conc_inv (Z.log2 (cap - 1) + 1) s.
Proof.
  intros Hcap Hr. pose proof (conc_init_inv cap es Hcap) as Hinit. revert Hinit.
  induction Hr as [|s1 s2 s3 Hst _ IH]; [done|]. intros H1. apply IH. by eapply conc_step_inv.
Qed.

(** Every cell has a sequence number in the range where the comparison of
    the source is defined. *)
Lemma cell_defined k s pos :
  conc_inv k s → ∃ c, cell_at s pos = Some c ∧ 0 ≤ seq c < 2 ^ 63.
Proof.
  intros Hi. pose proof (ci_wf _ _ Hi) as Hwf. pose proof (wf_k _ _ Hwf) as Hk. pose proof (pow_ge2 k ltac:(lia)) as Hk2.
  pose proof (ci_order _ _ Hi) as Ho. pose proof (ci_bound _ _ Hi) as Hb.
  unfold cell_at. rewrite (ring_index_idx k) by done.
  destruct (idx_surj k (ring_tail (rg s) - 2 ^ k) (idx k pos)) as (i & Hi' & <-); [lia|apply idx_lt; lia|].
  destruct (ci_cells _ _ Hi (ring_tail (rg s) - 2 ^ k + i)) as [[H1 ?]|[[H1 ?]|[H1 ?]]]; [lia|..];
    destruct (seqs_cell _ _ _ H1) as (c & Hc & Hs); exists c; split; try done; lia.
Qed.

Lemma conc_progress k s t p :
  conc_inv k s → thr s !! t = Some p → finished p = false →
  ∃ p' s', conc_step s s' ∧ thr s' = <[t := p']> (thr s).
Proof.
  intros Hi Ht Hf. pose proof (ci_pcs _ _ Hi t p Ht) as Hp. pose proof (ci_wf _ _ Hi) as Hwf.
  pose proof (wf_k _ _ Hwf) as Hk. pose proof (pow_ge2 k ltac:(lia)) as Hk2. pose proof (ci_order _ _ Hi) as Ho. pose proof (ci_bound _ _ Hi) as Hb.
  destruct p as [v|v pos|v pos|v pos|v pos| |  |pos|pos|pos|pos v| ]; try done; simpl in Hp.
  - eexists _, _. split; [by eapply enq_load|done].
  - destruct (cell_defined k s pos Hi) as (c & Hc & Hr). eexists _, _. split; [eapply enq_seq; [done|done|]|done].
    apply sub_intptr_small; lia.
  - eexists _, _. split; [by eapply enq_cas_fail|done].
  - destruct (mpmc_write_spec k (rg s) pos v Hwf) as (r & Hw & _); [apply Hp|]. eexists _, _. split; [by eapply enq_write|done].
  - destruct (set_cell_seq_spec (rg s) (ring_index (rg s) pos) (wrap64 (pos + 1))) as (r & Hs & _).
    { rewrite (ring_index_idx k), (wf_cells _ _ Hwf) by done. apply idx_lt. lia. }
    eexists _, _. split; [by eapply enq_publish|done].
  - eexists _, _. split; [by eapply deq_load|done].
  - destruct (cell_defined k s pos Hi) as (c & Hc & Hr). eexists _, _. split; [eapply deq_seq; [done|done|]|done].
    rewrite wrap64_small by lia. apply sub_intptr_small; lia.
  - eexists _, _. split; [by eapply deq_cas_fail|done].
  - destruct Hp as (Hpr & Hw & Hseq). destruct (ci_cells _ _ Hi pos) as [[H1 _]|[[H1 _]|(H1 & _ & w & _ & Hho)]];
      [lia|rewrite Hseq in H1; injection H1; lia..|].
    destruct (mpmc_read_spec k (rg s) pos w Hwf Hho) as (r & Hr & _). eexists _, _. split; [by eapply deq_read|done].
  - destruct (set_cell_seq_spec (rg s) (ring_index (rg s) pos) (wrap64 (pos + lfqueue_cap (rg s)))) as (r & Hs & _).
    { rewrite (ring_index_idx k), (wf_cells _ _ Hwf) by done. apply idx_lt. lia. }
    eexists _, _. split; [by eapply deq_release|done].
Qed.
