(* ===== verification/RingProps.v ===== *)
(** The properties of the ring queue: capacity rounding, refinement of a
    bounded FIFO by both queue disciplines, and safety of the MPMC discipline
    under concurrency. *)
From S2P Require Import Prelude Bytes Ring RingConc.

Local Open Scope Z_scope.

(** * The abstract bounded queue *)

Inductive qop := Enq (v : list Z) | Deq.
Inductive qres := REnq (ok : bool) | RDeq (v : option (list Z)).

Definition bq_step (cap : Z) (op : qop) (q : list (list Z)) : qres * list (list Z) :=
  match op with
  | Enq v => if decide (Z.of_nat (length q) < cap) then (REnq true, q ++ [v]) else (REnq false, q)
  | Deq => match q with [] => (RDeq None, []) | v :: q' => (RDeq (Some v), q') end
  end.
Fixpoint bq_run (cap : Z) (ops : list qop) (q : list (list Z)) : list qres :=
  match ops with
  | [] => []
  | op :: ops' => let '(x, q') := bq_step cap op q in x :: bq_run cap ops' q'
  end.

(** The ring driven by the same operations. *)
Definition ring_step (topo : topology) (op : qop) (r : ring) : option (qres * ring) :=
  match op with
  | Enq v => '(b, r') ← ring_enqueue_value topo v r; Some (REnq b, r')
  | Deq => '(o, r') ← ring_dequeue_value topo r; Some (RDeq o, r')
  end.
Fixpoint ring_run (topo : topology) (ops : list qop) (r : ring) : option (list qres) :=
  match ops with
  | [] => Some []
  | op :: ops' => '(x, r') ← ring_step topo op r; xs ← ring_run topo ops' r'; Some (x :: xs)
  end.
Definition op_sized (es : nat) (op : qop) : Prop := match op with Enq v => length v = es | Deq => True end.
#[export] Instance op_sized_dec es op : Decision (op_sized es op).
Proof. destruct op; simpl; apply _. Defined.

(** * Refinement, one step at a time *)

Lemma spsc_step k r q op :
  spsc_inv k r q → op_sized (r_elem_size r) op →
  ∃ r', ring_step TOPO_1_1 op r = Some ((bq_step (r_cap r) op q).1, r') ∧
    spsc_inv k r' (bq_step (r_cap r) op q).2 ∧ r_cap r' = r_cap r ∧ r_elem_size r' = r_elem_size r.
Proof.
  intros Hi Hop.
  destruct op as [v|]; unfold ring_step, ring_enqueue_value, ring_dequeue_value; rewrite decide_True by done; simpl in *.
  - pose proof (spsc_enqueue_spec k r q v Hi Hop) as H. case_decide.
    + destruct H as (r' & -> & ? & ? & ?). simpl. eauto.
    + rewrite H. simpl. eauto.
  - pose proof (spsc_dequeue_spec k r q Hi) as H. destruct q as [|v q].
    + rewrite H. simpl. eauto.
    + destruct H as (r' & -> & ? & ? & ?). simpl. eauto 6.
Qed.

Lemma spsc_run k ops r q :
  spsc_inv k r q → Forall (op_sized (r_elem_size r)) ops →
  ring_run TOPO_1_1 ops r = Some (bq_run (r_cap r) ops q).
Proof.
  revert r q. induction ops as [|op ops IH]; intros r q Hi Hops; [done|].
  apply Forall_cons in Hops as [Hop Hops].
  destruct (spsc_step k r q op Hi Hop) as (r' & Hs & Hi' & Hc & He). simpl. rewrite Hs. simpl.
  rewrite (IH r' _ Hi') by by rewrite He. simpl. rewrite Hc. by destruct (bq_step (r_cap r) op q).
Qed.

Lemma mpmc_step topo k r q op :
  topo ≠ TOPO_1_1 → mpmc_inv k r q → ring_tail r + 2 ^ k < 2 ^ 63 → op_sized (r_elem_size r) op →
  ∃ r', ring_step topo op r = Some ((bq_step (2 ^ k) op q).1, r') ∧
    mpmc_inv k r' (bq_step (2 ^ k) op q).2 ∧ (r_elem_size r' = r_elem_size r) ∧ ring_tail r' ≤ ring_tail r + 1.
Proof.
  intros Ht Hi Hb Hop. unfold ring_step, ring_enqueue_value, ring_dequeue_value, ring_fuel.
  pose proof (mp_tail _ _ _ Hi) as Htl.
  destruct op as [v|]; rewrite decide_False by done.
  - pose proof (mpmc_enqueue_spec k r q v 2 Hi Hop Hb ltac:(lia)) as H. unfold bq_step.
    destruct (decide (Z.of_nat (length q) < 2 ^ k)).
    + destruct H as (r' & -> & Hi' & Hh & He & _). simpl. exists r'. split_and!; try done.
      rewrite (mp_tail _ _ _ Hi'), Hh, Htl, length_app. simpl. lia.
    + rewrite H. simpl. exists r. split_and!; try done. lia.
  - pose proof (mpmc_dequeue_spec k r q 2 Hi Hb ltac:(lia)) as H. destruct q as [|v q].
    + rewrite H. simpl. exists r. split_and!; try done. lia.
    + destruct H as (r' & -> & Hi' & Hh & He & _). simpl in *. exists r'. split_and!; try done.
      rewrite (mp_tail _ _ _ Hi'), Hh. lia.
Qed.

Lemma mpmc_run topo k ops r q :
  topo ≠ TOPO_1_1 → mpmc_inv k r q → ring_tail r + Z.of_nat (length ops) + 2 ^ k < 2 ^ 63 →
  Forall (op_sized (r_elem_size r)) ops →
  ring_run topo ops r = Some (bq_run (2 ^ k) ops q).
Proof.
  intros Ht. revert r q. induction ops as [|op ops IH]; intros r q Hi Hb Hops; [done|].
  apply Forall_cons in Hops as [Hop Hops]. simpl in Hb.
  destruct (mpmc_step topo k r q op Ht Hi ltac:(lia) Hop) as (r' & Hs & Hi' & He & Htl). simpl. rewrite Hs. simpl.
  rewrite (IH r' _ Hi'); [|lia|by rewrite He]. simpl. by destruct (bq_step (2 ^ k) op q).
Qed.

(** * Properties *)

(** The ring's capacity is the least power of two that holds the requested
    one: for every request up to 2^63, [next_power_of_2 n] is a power of two
    with [n <= next_power_of_2 n < 2 n]. *)
Theorem next_power_of_2_least n :
  1 ≤ n ≤ 2 ^ 63 → ∃ k, 0 ≤ k ∧ next_power_of_2 n = 2 ^ k ∧ n ≤ next_power_of_2 n < 2 * n.
Proof.
  intros Hn. destruct (decide (n = 1)) as [->|]; [exists 0; vm_compute; intuition congruence|].
  exists (Z.log2 (n - 1) + 1). pose proof (Z.log2_nonneg (n - 1)). rewrite next_power_of_2_pow by lia.
  pose proof (Z.log2_spec (n - 1) ltac:(lia)) as Hlog. rewrite <- Z.add_1_r in Hlog.
  rewrite Z.pow_add_r in * by lia. change (2 ^ 1) with 2 in *. split_and!; [lia|done|lia|lia].
Qed.
Lemma next_power_of_2_least_witness :
  (∃ k, 0 ≤ k ∧ next_power_of_2 1000 = 2 ^ k ∧ 1000 ≤ next_power_of_2 1000 < 2 * 1000) ∧ next_power_of_2 1000 = 1024.
Proof. split; [apply (next_power_of_2_least 1000); lia|vm_compute; reflexivity]. Defined.

(** The single-producer single-consumer ring refines a FIFO bounded by the
    requested capacity: driven by any sequence of enqueues and dequeues from
    creation, for elements of any size (packed into the cells or copied into
    the slot buffer), it returns exactly what the abstract queue returns, also
    after its 64-bit positions have wrapped around. *)
Theorem ring_spsc_refines_fifo cap es ops :
  2 ≤ cap ≤ 2 ^ 62 → Forall (op_sized es) ops →
  ring_run TOPO_1_1 ops (ring_create cap es) = Some (bq_run cap ops []).
Proof. intros Hcap Hops. apply (spsc_run _ ops (ring_create cap es) [] (ring_create_spsc cap es Hcap) Hops). Qed.
Lemma ring_spsc_refines_fifo_witness :
  ring_run TOPO_1_1 [Enq [7]; Enq [8]; Enq [9]; Enq [1]; Deq] (ring_create 3 1) =
    Some [REnq true; REnq true; REnq true; REnq false; RDeq (Some [7])].
Proof.
  rewrite (ring_spsc_refines_fifo 3 1 [Enq [7]; Enq [8]; Enq [9]; Enq [1]; Deq]).
  - reflexivity.
  - lia.
  - repeat constructor.
Defined.

(** The multi-producer multi-consumer ring, driven sequentially, refines a
    FIFO too, but bounded by the rounded capacity: a channel made with
    capacity 3 accepts 4 elements.  The bound on the number of operations is
    the range in which the source's signed sequence comparison is defined. *)
Theorem ring_mpmc_refines_fifo topo cap es ops :
  topo ≠ TOPO_1_1 → 2 ≤ cap ≤ 2 ^ 61 → Forall (op_sized es) ops →
  Z.of_nat (length ops) < 2 ^ 62 →
  ring_run topo ops (ring_create cap es) = Some (bq_run (next_power_of_2 cap) ops []).
Proof.
  intros Ht Hcap Hops Hlen. pose proof (ring_create_mpmc cap es ltac:(lia)) as Hi.
  pose proof (wf_k _ _ (mp_wf _ _ _ Hi)) as Hk. rewrite next_power_of_2_pow by lia.
  assert (Z.log2 (cap - 1) < 61) by (apply Z.log2_lt_pow2; lia).
  assert (2 ^ (Z.log2 (cap - 1) + 1) ≤ 2 ^ 61) by (apply Z.pow_le_mono_r; lia).
  apply (mpmc_run topo _ ops (ring_create cap es) [] Ht Hi); [simpl; lia|done].
Qed.
Lemma ring_mpmc_refines_fifo_witness :
  ring_run TOPO_DEFAULT [Enq [7]; Enq [8]; Enq [9]; Enq [1]; Enq [2]; Deq] (ring_create 3 1) =
    Some [REnq true; REnq true; REnq true; REnq true; REnq false; RDeq (Some [7])].
Proof.
  rewrite (ring_mpmc_refines_fifo TOPO_DEFAULT 3 1 [Enq [7]; Enq [8]; Enq [9]; Enq [1]; Enq [2]; Deq]).
  - vm_compute. reflexivity.
  - discriminate.
  - lia.
  - repeat constructor.
  - simpl. lia.
Defined.

(** C4: Under any interleaving of any number of enqueuers and dequeuers the
    MPMC ring delivers every element at most once and in claim order: what the
    dequeuer of position [p] returns is the value whose enqueuer claimed [p],
    no two dequeuers return the same position, every completed enqueue has a
    position of its own, and at most [next_power_of_2 cap] positions are
    outstanding. *)
Theorem ring_concurrent_fifo cap es s :
  2 ≤ cap ≤ 2 ^ 61 → rtc (bounded_step (Z.log2 (cap - 1) + 1)) (conc_init cap es) s →
  (∀ t pos v, thr s !! t = Some (DDone (Some (pos, v))) → hist s !! Z.to_nat pos = Some v) ∧
  (∀ t t' pos v v', thr s !! t = Some (DDone (Some (pos, v))) → thr s !! t' = Some (DDone (Some (pos, v'))) → t = t') ∧
  (∀ t pos v, thr s !! t = Some (EDone v (Some pos)) → hist s !! Z.to_nat pos = Some v) ∧
  (∀ t t' pos v v', thr s !! t = Some (EDone v (Some pos)) → thr s !! t' = Some (EDone v' (Some pos)) → t = t') ∧
  ring_tail (rg s) - ring_head (rg s) ≤ next_power_of_2 cap.
Proof.
  intros Hcap Hr. pose proof (conc_reachable_inv cap es s Hcap Hr) as Hi. split_and!.
  - intros t pos v Ht. apply (ci_pcs _ _ Hi) in Ht. by destruct Ht.
  - intros t t' pos v v' Ht Ht'. eapply (ci_deq _ _ Hi); done.
  - intros t pos v Ht. apply (ci_pcs _ _ Hi) in Ht. by destruct Ht.
  - intros t t' pos v v' Ht Ht'. eapply (ci_enq _ _ Hi); done.
  - rewrite next_power_of_2_pow by lia. pose proof (ci_order _ _ Hi). lia.
Qed.
(** One enqueuer (thread 0) and one dequeuer (thread 1), the dequeuer starting
    while the enqueuer is between its claim and its publication. *)
Definition demo_sched : list sched :=
  [Spawn 0 (Some [5]); Run 0; Run 0; Run 0; Spawn 1 None; Run 1; Run 0; Run 0; Run 1; Run 1; Run 1; Run 1].
Definition demo_end : cstate := default (conc_init 4 1) (conc_run 2 demo_sched (conc_init 4 1)).
Lemma ring_concurrent_fifo_witness :
  thr demo_end !! 1%nat = Some (DDone (Some (0, [5]))) ∧ hist demo_end !! 0%nat = Some [5].
Proof.
  assert (Hr : rtc (bounded_step 2) (conc_init 4 1) demo_end).
  { apply (conc_run_reach 2 demo_sched). vm_compute. reflexivity. }
  assert (H1 : thr demo_end !! 1%nat = Some (DDone (Some (0, [5])))) by (vm_compute; reflexivity).
  split; [exact H1|].
  destruct (ring_concurrent_fifo 4 1 demo_end ltac:(lia) Hr) as (Hd & _).
  exact (Hd 1%nat 0 [5] H1).
Defined.

(** No thread of the MPMC ring ever reaches undefined behaviour or gets
    stuck: whatever the others have done, every thread inside an operation has
    a next step (its cell exists and the signed comparison does not
    overflow). *)
Theorem ring_concurrent_progress cap es s t p :
  2 ≤ cap ≤ 2 ^ 61 → rtc (bounded_step (Z.log2 (cap - 1) + 1)) (conc_init cap es) s →
  thr s !! t = Some p → finished p = false →
  ∃ p' s', conc_step s s' ∧ thr s' = <[t := p']> (thr s).
Proof. intros Hcap Hr Ht Hf. by apply (conc_progress _ s t p (conc_reachable_inv cap es s Hcap Hr)). Qed.
Lemma ring_concurrent_progress_witness :
  ∃ p' s', conc_step (goto 0 DLoad (conc_init 4 8)) s' ∧ thr s' = <[0%nat := p']> (thr (goto 0 DLoad (conc_init 4 8))).
Proof.
  apply (ring_concurrent_progress 4 8 (goto 0 DLoad (conc_init 4 8)) 0 DLoad); [lia| |reflexivity|reflexivity].
  apply rtc_once. split; [apply start_dequeue; reflexivity|vm_compute; reflexivity].
Defined.
