(* ===== verification/Chan.v ===== *)
(** Channel operations of [src/cc/runtime/channel.c] over the waiter lists, the
    mutex-protected buffer and the lock-free queue: creation, the buffer and
    queue accesses, close and its errors, wake-up sequences, direct handoff,
    the non-blocking send and receive, and the non-blocking match. *)
From S2P Require Import Prelude ChanTypes WaitList Bytes Ring.

Local Open Scope Z_scope.

(** * Data *)

Definition EPIPE : Z := 32.
Definition EAGAIN : Z := 11.
Definition EINVAL : Z := 22.
Definition ENOMEM : Z := 12.
Definition ETIMEDOUT : Z := 110.
Definition ECANCELED : Z := 125.

(** [CCChanMode] *)
Inductive chan_mode := MODE_BLOCK | MODE_DROP_NEW | MODE_DROP_OLD.
#[export] Instance chan_mode_eq_dec : EqDecision chan_mode.
Proof. solve_decision. Defined.
(** [CCIoError]: a kind and an OS code. *)
Record io_error := IoError { kind : Z; os_code : Z }.

(** The bounded MPMC queue of liblfds ([lfds711_queue_bmm]), a third-party
    library the channel falls back on when the ring cannot be allocated. *)
Class LfdsQueue := {
  lfds_state : Type;
  LFDS711_PAL_ATOMIC_ISOLATION_IN_BYTES : Z;
  lfds711_queue_bmm_init : Z → lfds_state;
  lfds711_queue_bmm_enqueue : list Z → lfds_state → bool * lfds_state;
  lfds711_queue_bmm_dequeue : lfds_state → option (list Z) * lfds_state }.

Section chan.
Context `{!LfdsQueue}.

(** [struct CCChan].  [rq] holds [cap], [lfqueue_cap], [elem_size], [buf] and
    the ring; [w] the waiter fields; a set [tx_io_error] is [Some]. *)
Record ccchan := CCChan {
  w : wstate;
  rq : ring;
  buf_alloc : bool;
  count : Z; head : Z; tail : Z;
  mu_held : bool;
  closed : bool;
  tx_error_code : Z;
  rx_error_closed : bool;
  rx_error_code : Z;
  tx_io_error : option io_error;
  rx_io_error : option io_error;
  mode : chan_mode;
  allow_take : bool; is_sync : bool; is_ordered : bool; is_owned : bool;
  topo : topology;
  rv_has_value : bool;
  use_lockfree : bool; use_ring_queue : bool;
  lfqueue : lfds_state;
  lfqueue_count : Z; lfqueue_inflight : Z }.
#[export] Instance eta_ccchan : Eta ccchan := λ r,
  CCChan (w r) (rq r) (buf_alloc r) (count r) (head r) (tail r) (mu_held r) (closed r) (tx_error_code r)
    (rx_error_closed r) (rx_error_code r) (tx_io_error r) (rx_io_error r) (mode r) (allow_take r) (is_sync r)
    (is_ordered r) (is_owned r) (topo r) (rv_has_value r) (use_lockfree r) (use_ring_queue r) (lfqueue r)
    (lfqueue_count r) (lfqueue_inflight r).

Definition cap (ch : ccchan) : Z := r_cap (rq ch).
Definition elem_size (ch : ccchan) : nat := r_elem_size (rq ch).
Definition buf (ch : ccchan) : list Z := slots (rq ch).

Definition C (A : Type) : Type := M ccchan A.
Definition upd (f : ccchan → ccchan) : C unit := modify f.
(** Run waiter code on the channel's waiter fields, ring code on its ring. *)
Definition liftw {A} (m : W A) : C A :=
  λ s, match m (w s) with Some (a, w') => Some (a, s <| w := w' |>) | None => None end.
Definition liftr {A} (f : ring → option (A * ring)) : C A :=
  λ s, match f (rq s) with Some (a, r) => Some (a, s <| rq := r |>) | None => None end.

(** [ch->mu]: locking a held mutex is a self-deadlock and unlocking a free one
    is undefined behaviour. *)
Definition cc_chan_lock : C unit :=
  b ← gets mu_held; if (b : bool) then fault else upd (λ s, s <| mu_held := true |>).
Definition cc_chan_unlock : C unit :=
  b ← gets mu_held; if (b : bool) then upd (λ s, s <| mu_held := false |>) else fault.
Definition cond_signal (c : cond) : C unit := liftw (emit (EvCondSignal c)).
Definition cond_broadcast (c : cond) : C unit := liftw (emit (EvCondBroadcast c)).
(** [cc_socket_signal_signal(ch->recv_signal)] when one is registered. *)
Definition poke_recv_signal : C unit :=
  sg ← gets (λ s, recv_signal (ch (w s)));
  match sg with Some x => liftw (emit (EvSocketSignal x)) | None => mret tt end.

(** * Creation *)

Definition empty_ring (cap : Z) : ring := Ring cap 0 0 [] [] 0 0.
(** [sizeof(cc__ring_cell)], aligned to 64, and the rounding of an allocation
    to a multiple of [align], in [size_t]. *)
Definition sizeof_ring_cell : Z := 64.
Definition round_up (n align : Z) : Z := wrap64 (wrap64 (n + align - 1) / align * align).
(** [cc_chan_create_internal]; [w0] carries the process-wide part of the waiter
    state.  [None] is the NULL of a failed [malloc(sizeof(CCChan))], and also the
    undefined behaviour of the loop that initialises the cells when the size of
    their block wrapped around and they do not fit in it. *)
Definition cc_chan_create_internal (env : chan_env) (sizeof_chan sizeof_lfds_element : Z) (w0 : wstate) (capacity : Z) (m : chan_mode)
    (take sync : bool) (tp : topology) : option ccchan :=
  if negb (env_malloc env sizeof_chan) then None else
  let c := CCChan
    (w0 <| ch := ChanWaiters (WaiterQueue None None) (WaiterQueue None None) None 0 0 0 0 false None 0 |>)
    (empty_ring capacity) false 0 0 0 false false 0 false 0 None None m take sync false false tp
    false false false (lfds711_queue_bmm_init 0) 0 0 in
  if decide (capacity ≤ 1) then Some c
  else if env_no_lockfree env then Some c
  else
    let lfcap := next_power_of_2 capacity in
    let c := c <| rq := (rq c) <| Ring.lfqueue_cap := lfcap |> |> in
    let alloc_size := round_up (wrap64 (sizeof_ring_cell * lfcap)) 64 in
    let alloc_size_lfds := round_up (wrap64 (sizeof_lfds_element * lfcap)) LFDS711_PAL_ATOMIC_ISOLATION_IN_BYTES in
    if env_malloc env alloc_size then
      if decide (alloc_size < sizeof_ring_cell * lfcap) then None else
      Some (c <| rq := (rq c) <| ring_cells := (λ i, RingCell (Z.of_nat i) (CellBytes (replicate sizeof_ptr 0)))
                                                <$> List.seq 0 (Z.to_nat lfcap) |> |>
              <| use_ring_queue := true |> <| use_lockfree := true |>)
    else if env_malloc env alloc_size_lfds then
      Some (c <| lfqueue := lfds711_queue_bmm_init lfcap |> <| use_lockfree := true |>)
    else Some c.

(** [cc_chan_ensure_buf]: the product of the sizes is a [size_t], so a buffer
    whose size wrapped around is shorter than its slots, and storing past its
    end is undefined behaviour. *)
Definition cc_chan_ensure_buf (env : chan_env) (size : nat) : C Z :=
  s ← gets id;
  if decide (elem_size s = 0%nat) then
    upd (λ s, s <| rq ::= λ r, r <| r_elem_size := size |> |>);;
    let n := if use_lockfree s && bool_decide (0 < cap s) then lfqueue_cap (rq s)
             else if decide (cap s = 0) then 1 else cap s in
    let bytes := wrap64 (n * Z.of_nat size) in
    if negb (env_malloc env bytes) then mret ENOMEM else
    upd (λ s, s <| rq ::= λ r, r <| slots := replicate (Z.to_nat bytes) 0 |> |> <| buf_alloc := true |>);;
    upd (λ s, s <| w ::= λ x, x <| ch ::= λ c, c <| fast_path_ok :=
          env_minimal_path env && use_lockfree s && bool_decide (0 < cap s) &&
          (bool_decide (size ≤ sizeof_ptr)%nat || use_ring_queue s) &&
          negb (is_owned s) && negb (is_ordered s) && negb (is_sync s) |> |> |>);;
    mret 0
  else if decide (elem_size s = size) then mret 0 else mret EINVAL.
Definition cc_chan_init_elem (env : chan_env) (size : nat) : C Z :=
  if decide (size = 0%nat) then mret EINVAL else cc_chan_ensure_buf env size.

(** * Queues *)

(** [cc__queue_enqueue_value] / [cc__queue_dequeue_value] *)
Definition cc__queue_enqueue_value (v : list Z) : C bool :=
  s ← gets id;
  if use_ring_queue s then liftr (ring_enqueue_value (topo s) v)
  else if decide (sizeof_ptr < elem_size s)%nat then mret false
  else
    bs ← lift_opt (cc__chan_pack_value v (elem_size s));
    let '(ok, q) := lfds711_queue_bmm_enqueue bs (lfqueue s) in
    upd (λ s, s <| lfqueue := q |>);; mret ok.
Definition cc__queue_dequeue_value : C (option (list Z)) :=
  s ← gets id;
  if use_ring_queue s then liftr (ring_dequeue_value (topo s))
  else if decide (sizeof_ptr < elem_size s)%nat then mret None
  else
    let '(o, q) := lfds711_queue_bmm_dequeue (lfqueue s) in
    upd (λ s, s <| lfqueue := q |>);;
    match o with
    | None => mret None
    | Some bs => v ← lift_opt (cc__chan_unpack_value bs (elem_size s)); mret (Some v)
    end.

Definition chan_inflight_inc : C unit :=
  r ← gets use_ring_queue;
  when (negb r) (upd (λ s, s <| lfqueue_inflight ::= Z.succ |>)).
Definition chan_inflight_dec : C unit :=
  r ← gets use_ring_queue;
  when (negb r) (upd (λ s, s <| lfqueue_inflight ::= Z.pred |>)).
Definition cc__chan_lf_count (s : ccchan) : Z :=
  if use_ring_queue s then ring_count (rq s) else lfqueue_count s.

Definition cc__chan_try_enqueue_lockfree_impl (v : list Z) : C Z :=
  s ← gets id;
  if negb (use_lockfree s) || bool_decide (cap s = 0) || negb (buf_alloc s) then mret EAGAIN else
  if negb (use_ring_queue s) && bool_decide (sizeof_ptr < elem_size s)%nat then mret EAGAIN else
  ok ← cc__queue_enqueue_value v;
  when (ok && negb (use_ring_queue s)) (upd (λ s, s <| lfqueue_count ::= Z.succ |>));;
  mret (if (ok : bool) then 0 else EAGAIN).
Definition cc_chan_try_enqueue_lockfree (v : list Z) : C Z :=
  chan_inflight_inc;; rc ← cc__chan_try_enqueue_lockfree_impl v; chan_inflight_dec;; mret rc.
(** [Some v] is the return code 0 with [v] copied out, [None] is EAGAIN. *)
Definition cc_chan_try_dequeue_lockfree : C (option (list Z)) :=
  s ← gets id;
  if negb (use_lockfree s) || bool_decide (cap s = 0) || negb (buf_alloc s) then mret None else
  if negb (use_ring_queue s) && bool_decide (sizeof_ptr < elem_size s)%nat then mret None else
  o ← cc__queue_dequeue_value;
  match o with
  | None => mret None
  | Some v => when (negb (use_ring_queue s)) (upd (λ s, s <| lfqueue_count ::= Z.pred |>));; mret (Some v)
  end.
(** The minimal and fast variants skip the guards. *)
Definition cc__chan_enqueue_lockfree_minimal (v : list Z) : C Z :=
  ok ← cc__queue_enqueue_value v;
  if negb ok then mret EAGAIN else
  r ← gets use_ring_queue;
  when (negb r) (upd (λ s, s <| lfqueue_count ::= Z.succ |>));; mret 0.
Definition cc__chan_dequeue_lockfree_minimal : C (option (list Z)) :=
  o ← cc__queue_dequeue_value;
  match o with
  | None => mret None
  | Some v =>
      r ← gets use_ring_queue;
      when (negb r) (upd (λ s, s <| lfqueue_count ::= Z.pred |>));; mret (Some v)
  end.

(** ** The mutex-protected buffer *)

Definition store_buf (i : Z) (v : list Z) : C unit :=
  s ← gets id;
  b ← lift_opt (channel_store_slot (buf s) (Z.to_nat i * elem_size s) v (elem_size s));
  upd (λ s, s <| rq ::= λ r, r <| slots := b |> |>).
Definition load_buf (i : Z) : C (list Z) :=
  s ← gets id; lift_opt (channel_load_slot (buf s) (Z.to_nat i * elem_size s) (elem_size s)).

Definition cc_chan_enqueue (env : chan_env) (v : list Z) : C unit :=
  s ← gets id;
  if decide (cap s = 0) then
    store_buf 0 v;;
    upd (λ s, s <| rv_has_value := true |>);;
    cond_signal COND_NOT_EMPTY;;
    liftw (cc__chan_signal_recv_waiter env);;
    liftw cc__chan_signal_recv_ready
  else
    store_buf (tail s) v;;
    upd (λ s, s <| tail := (tail s + 1) mod cap s |> <| count ::= Z.succ |>).
Definition cc_chan_dequeue : C (list Z) :=
  s ← gets id;
  if decide (cap s = 0) then
    v ← load_buf 0;
    upd (λ s, s <| rv_has_value := false |>);;
    hd ← gets (λ s, wq_head (send_waiters (ch (w s))));
    (if is_none hd then mret tt else liftw cc__chan_wake_one_send_waiter;; liftw wake_batch_flush);;
    cond_broadcast COND_NOT_FULL;;
    liftw cc__chan_signal_activity;;
    mret v
  else
    v ← load_buf (head s);
    upd (λ s, s <| head := (head s + 1) mod cap s |> <| count ::= Z.pred |>);;
    mret v.

(** * Errors and wake-up sequences *)

Definition cc__chan_send_close_errno (s : ccchan) : Z :=
  if rx_error_closed s && negb (bool_decide (rx_error_code s = 0)) then rx_error_code s else EPIPE.
(** [ch->tx_error_code ? ch->tx_error_code : EPIPE] *)
Definition recv_close_errno (s : ccchan) : Z :=
  if decide (tx_error_code s = 0) then EPIPE else tx_error_code s.

Definition cc__chan_post_enqueue_notify (env : chan_env) (held : bool) : C unit :=
  when (negb held) cc_chan_lock;;
  liftw (cc__chan_signal_recv_waiter env);;
  cond_signal COND_NOT_EMPTY;;
  cc_chan_unlock;;
  liftw wake_batch_flush;;
  liftw cc__chan_signal_recv_ready.
Definition cc__chan_post_dequeue_notify (held : bool) : C unit :=
  when (negb held) cc_chan_lock;;
  liftw cc__chan_wake_one_send_waiter;;
  cond_signal COND_NOT_FULL;;
  cc_chan_unlock;;
  liftw wake_batch_flush;;
  liftw cc__chan_signal_activity.
Definition cc__chan_dekker_wake_recv_before_park (env : chan_env) : C unit :=
  cc_chan_lock;; liftw (cc__chan_signal_recv_waiter env);; cond_signal COND_NOT_EMPTY;;
  cc_chan_unlock;; liftw wake_batch_flush.
Definition cc__chan_dekker_wake_send_before_park : C unit :=
  cc_chan_lock;; liftw cc__chan_wake_one_send_waiter;; cond_signal COND_NOT_FULL;;
  cc_chan_unlock;; liftw wake_batch_flush.
Definition cc__chan_post_lockfree_dequeue_signal_senders : C unit :=
  f ← gets (λ s, has_send_waiters (ch (w s)));
  if decide (f = 0) then mret tt else
  cc_chan_lock;; liftw cc__chan_wake_one_send_waiter;; cond_signal COND_NOT_FULL;;
  cc_chan_unlock;; liftw wake_batch_flush.
Definition cc__chan_post_lockfree_enqueue_signal_receivers (env : chan_env) : C unit :=
  fw ← gets (λ s, has_recv_waiters (ch (w s)));
  tw ← gets (λ s, thread_recv_waiters (ch (w s)));
  if decide (fw = 0 ∧ tw = 0) then poke_recv_signal else
  inflight ← gets (λ s, recv_wake_inflight (ch (w s)));
  if bool_decide (fw ≠ 0) && bool_decide (tw = 0) && bool_decide (env_recv_wake_target env ≤ inflight)
  then poke_recv_signal else
  cc_chan_lock;;
  fw' ← gets (λ s, has_recv_waiters (ch (w s)));
  (if bool_decide (fw ≠ 0) || bool_decide (fw' ≠ 0) then
     budget ← gets (λ s, cc__chan_recv_wake_budget env (w s));
     if decide (0 < budget) then _ ← liftw (cc__chan_signal_recv_waiters env budget); mret tt else mret tt
   else mret tt);;
  tw' ← gets (λ s, thread_recv_waiters (ch (w s)));
  (if bool_decide (tw ≠ 0) || bool_decide (tw' ≠ 0) then cond_signal COND_NOT_EMPTY else mret tt);;
  cc_chan_unlock;;
  liftw wake_batch_flush;;
  liftw cc__chan_signal_recv_ready.

(** ** Direct handoff between a sender and a parked receiver *)

(** A copy through [node->data]. *)
Definition write_data (n : cc__fiber_wait_node) (v : list Z) : W unit :=
  match data n with
  | Some d => modify (λ s, s <| mem := <[d := v]> (mem s) |>)
  | None => fault
  end.
Definition read_data (n : cc__fiber_wait_node) : W (list Z) :=
  match data n with
  | Some d => λ s, match mem s !! d with Some v => Some (v, s) | None => None end
  | None => fault
  end.
Definition cc__chan_finish_send_to_recv_waiter (p : ptr) (v : list Z) : W unit :=
  n ← load p;
  write_data n v;;
  store p (λ n, n <| notified := NOTIFY_DATA |>);;
  upd_ch (λ c, c <| rv_recv_waiters ::= λ z, if decide (0 < z) then z - 1 else z |>);;
  bump_signaled p;;
  match fiber n with
  | Some f => wake_batch_add_chan (Some f)
  | None => emit (EvCondSignal COND_NOT_EMPTY)
  end.
Definition cc__chan_finish_recv_from_send_waiter (p : ptr) : W (list Z) :=
  n ← load p;
  v ← read_data n;
  store p (λ n, n <| notified := NOTIFY_DATA |>);;
  bump_signaled p;;
  (match fiber n with
   | Some f => wake_batch_add_chan (Some f)
   | None => emit (EvCondSignal COND_NOT_FULL)
   end);;
  mret v.
(** Returns 1 on handoff, 0 when nobody waits, a negated errno when closed. *)
Definition cc__chan_try_direct_handoff_recv_waiter_buffered (v : list Z) : C Z :=
  cc_chan_lock;;
  s ← gets id;
  if closed s then cc_chan_unlock;; mret (- EPIPE)
  else if rx_error_closed s then cc_chan_unlock;; mret (- rx_error_code s)
  else
  o ← liftw cc__chan_pop_recv_waiter;
  match o with
  | None => cc_chan_unlock;; mret 0
  | Some p =>
      liftw (cc__chan_finish_send_to_recv_waiter p v);;
      cc_chan_unlock;;
      liftw wake_batch_flush;;
      liftw cc__chan_signal_recv_ready;;
      mret 1
  end.

(** ** The minimal mutex variants *)

Definition cc__chan_enqueue_mutex_minimal (env : chan_env) (v : list Z) : C Z :=
  cc_chan_lock;;
  s ← gets id;
  if closed s then cc_chan_unlock;; mret (cc__chan_send_close_errno s)
  else if rx_error_closed s then cc_chan_unlock;; mret (rx_error_code s)
  else if decide (cap s ≤ count s) then cc_chan_unlock;; mret EAGAIN
  else
  store_buf (tail s) v;;
  upd (λ s, s <| tail := (tail s + 1) mod cap s |> <| count ::= Z.succ |>);;
  cond_signal COND_NOT_EMPTY;;
  f ← gets (λ s, has_recv_waiters (ch (w s)));
  (if decide (f = 0) then mret tt else liftw (cc__chan_signal_recv_waiter env));;
  cc_chan_unlock;;
  liftw wake_batch_flush;;
  liftw cc__chan_signal_recv_ready;;
  mret 0.
Definition cc__chan_dequeue_mutex_minimal : C (option (list Z)) :=
  cc_chan_lock;;
  s ← gets id;
  if decide (count s ≤ 0) then cc_chan_unlock;; mret None
  else
  v ← load_buf (head s);
  upd (λ s, s <| head := (head s + 1) mod cap s |> <| count ::= Z.pred |>);;
  cond_signal COND_NOT_FULL;;
  f ← gets (λ s, has_send_waiters (ch (w s)));
  (if decide (f = 0) then mret tt else liftw cc__chan_wake_one_send_waiter);;
  cc_chan_unlock;;
  liftw wake_batch_flush;;
  mret (Some v).

(** * Close *)

Definition cc__chan_close_common (close_tx close_rx : bool) (tx_errno rx_errno : Z) (io_err : option io_error) : C unit :=
  upd (λ s, s <| w ::= λ x, x <| ch ::= λ c, c <| fast_path_ok := false |> |> |>);;
  cc_chan_lock;;
  when close_tx (upd (λ s, s <| closed := true |>
      <| tx_error_code ::= λ e, if decide (tx_errno = 0) then e else tx_errno |>
      <| tx_io_error ::= λ o, match io_err with Some e => Some e | None => o end |>));;
  when close_rx (upd (λ s, s <| rx_error_closed := true |>
      <| rx_error_code ::= λ e, if decide (rx_errno = 0) then e else rx_errno |>
      <| rx_io_error ::= λ o, match io_err with Some e => Some e | None => o end |>));;
  when close_tx (cond_broadcast COND_NOT_EMPTY);;
  cond_broadcast COND_NOT_FULL;;
  (if close_tx then liftw cc__chan_wake_all_waiters else liftw drain_send_waiters_close);;
  cc_chan_unlock;;
  liftw wake_batch_flush;;
  liftw cc__chan_signal_recv_ready.
Definition cc_chan_close : C unit := cc__chan_close_common true false 0 0 None.
Definition cc_chan_close_err (err : Z) : C unit := cc__chan_close_common true false err 0 None.
Definition cc_chan_rx_close_err (err : Z) : C unit := cc__chan_close_common false true 0 err None.
Definition cc_chan_close_with (e : io_error) : C unit :=
  let errno_code := if decide (os_code e = 0) then ECANCELED else os_code e in
  cc__chan_close_common true true errno_code errno_code (Some e).
Definition CC_IO_CANCELLED : Z := 8.
Definition CC_IO_OTHER : Z := 9.
Definition cc_io_error (k : Z) : io_error := IoError k 0.
Definition cc_chan_cancel : C unit := cc_chan_close_with (cc_io_error CC_IO_CANCELLED).
Definition cc__chan_get_close_error (is_recv : bool) (s : ccchan) : io_error :=
  default (cc_io_error CC_IO_OTHER) (if is_recv then tx_io_error s else rx_io_error s).
Definition cc__chan_has_close_error (is_recv : bool) (s : ccchan) : bool :=
  bool_decide (is_Some (if is_recv then tx_io_error s else rx_io_error s)).

(** ** Draining a closed channel

    [expired] is the answer of [cc__chan_timespec_expired(abs_deadline)]. *)
Definition pause_budget : nat := 1024.
Fixpoint resolve_pause_loop (budget : nat) : C (option (Z * option (list Z))) :=
  match budget with
  | O => mret None
  | S budget' =>
      o ← cc_chan_try_dequeue_lockfree;
      match o with
      | Some v => mret (Some (0, Some v))
      | None =>
          e ← gets (λ s, bool_decide (ring_tail (rq s) = ring_head (rq s)));
          if (e : bool) then
            o ← cc_chan_try_dequeue_lockfree;
            match o with
            | Some v => mret (Some (0, Some v))
            | None =>
                e ← gets (λ s, bool_decide (ring_tail (rq s) = ring_head (rq s)));
                if negb e then mret None
                else rc ← gets recv_close_errno; mret (Some (rc, None))
            end
          else resolve_pause_loop budget'
      end
  end.
Fixpoint resolve_closed_loop (fuel : nat) (expired try_only : bool) : C (Z * option (list Z)) :=
  match fuel with
  | O => fault
  | S fuel' =>
      o ← cc_chan_try_dequeue_lockfree;
      match o with
      | Some v => mret (0, Some v)
      | None =>
          let retry : C (Z * option (list Z)) :=
            if expired then mret (ETIMEDOUT, None) else resolve_closed_loop fuel' expired try_only in
          r ← gets use_ring_queue;
          if (r : bool) then
            e ← gets (λ s, bool_decide (ring_tail (rq s) = ring_head (rq s)));
            if (e : bool) then
              o ← cc_chan_try_dequeue_lockfree;
              match o with
              | Some v => mret (0, Some v)
              | None =>
                  e ← gets (λ s, bool_decide (ring_tail (rq s) = ring_head (rq s)));
                  if negb e then resolve_closed_loop fuel' expired try_only
                  else rc ← gets recv_close_errno; mret (rc, None)
              end
            else
              x ← resolve_pause_loop pause_budget;
              match x with
              | Some res => mret res
              | None => if try_only then mret (EAGAIN, None) else retry
              end
          else
            d ← gets (λ s, bool_decide (lfqueue_inflight s = 0 ∧ lfqueue_count s ≤ 0));
            if (d : bool) then
              o ← cc_chan_try_dequeue_lockfree;
              match o with
              | Some v => mret (0, Some v)
              | None => rc ← gets recv_close_errno; mret (rc, None)
              end
            else if try_only then mret (EAGAIN, None) else retry
      end
  end.
Definition cc__chan_recv_resolve_closed (fuel : nat) (expired try_only : bool) : C (Z * option (list Z)) :=
  s ← gets id;
  if negb (use_lockfree s) || bool_decide (cap s = 0) then mret (recv_close_errno s, None)
  else resolve_closed_loop fuel expired try_only.

(** * Non-blocking operations *)

(** A call either returns a code or parks the calling fiber or thread. *)
Inductive outcome := Ret (rc : Z) | Parks.
(** [cc_chan_wait_full] on a buffered channel with no deadline, up to its
    first park. *)
Definition cc_chan_wait_full (env : chan_env) : C outcome :=
  s ← gets id;
  if negb (closed s) && negb (rx_error_closed s) && bool_decide (count s = cap s) then
    if env_nursery_cancelled env then mret (Ret ECANCELED) else mret Parks
  else if rx_error_closed s then mret (Ret (rx_error_code s))
  else mret (Ret (if closed s then cc__chan_send_close_errno s else 0)).
Definition cc_chan_handle_full_send (env : chan_env) : C outcome :=
  s ← gets id;
  match mode s with
  | MODE_BLOCK => cc_chan_wait_full env
  | MODE_DROP_NEW => mret (Ret EAGAIN)
  | MODE_DROP_OLD =>
      upd (λ s, s <| head := (head s + 1) mod cap s |> <| count ::= Z.pred |>);; mret (Ret 0)
  end.

(** The wake-up after a lock-free enqueue of [cc_chan_try_send]. *)
Definition try_send_wake (env : chan_env) : C unit :=
  fw ← gets (λ s, has_recv_waiters (ch (w s)));
  tw ← gets (λ s, thread_recv_waiters (ch (w s)));
  if bool_decide (fw ≠ 0) || bool_decide (tw ≠ 0) then
    cc_chan_lock;;
    liftw (cc__chan_signal_recv_waiter env);;
    when (bool_decide (tw ≠ 0)) (cond_signal COND_NOT_EMPTY);;
    cc_chan_unlock;;
    liftw wake_batch_flush;;
    liftw cc__chan_signal_recv_ready
  else poke_recv_signal.
Definition lockfree_ok (s : ccchan) : bool :=
  use_ring_queue s || bool_decide (elem_size s ≤ sizeof_ptr)%nat.

Definition cc_chan_try_send (env : chan_env) (v : list Z) : C outcome :=
  if decide (length v = 0%nat) then mret (Ret EINVAL) else
  s ← gets id;
  if use_lockfree s && bool_decide (0 < cap s) && bool_decide (elem_size s = length v) && buf_alloc s && lockfree_ok s then
    chan_inflight_inc;;
    if closed s then chan_inflight_dec;; mret (Ret (cc__chan_send_close_errno s))
    else if rx_error_closed s then chan_inflight_dec;; mret (Ret (rx_error_code s))
    else
    rc ← cc__chan_try_enqueue_lockfree_impl v;
    chan_inflight_dec;;
    if decide (rc = 0) then try_send_wake env;; mret (Ret 0) else mret (Ret EAGAIN)
  else if bool_decide (cap s = 0) && closed s then mret (Ret (cc__chan_send_close_errno s))
  else if rx_error_closed s then mret (Ret (rx_error_code s))
  else
  cc_chan_lock;;
  err ← cc_chan_ensure_buf env (length v);
  if negb (bool_decide (err = 0)) then cc_chan_unlock;; mret (Ret err) else
  s ← gets id;
  if closed s then cc_chan_unlock;; mret (Ret (cc__chan_send_close_errno s))
  else if rx_error_closed s then cc_chan_unlock;; mret (Ret (rx_error_code s))
  else if decide (cap s = 0) then
    o ← liftw cc__chan_pop_recv_waiter;
    match o with
    | None =>
        cc_chan_unlock;;
        if rx_error_closed s then mret (Ret (rx_error_code s))
        else mret (Ret (if closed s then cc__chan_send_close_errno s else EAGAIN))
    | Some p =>
        liftw (cc__chan_finish_send_to_recv_waiter p v);;
        cc_chan_unlock;;
        liftw wake_batch_flush;;
        liftw cc__chan_signal_recv_ready;;
        mret (Ret 0)
    end
  else if use_lockfree s && lockfree_ok s then
    chan_inflight_inc;;
    cc_chan_unlock;;
    rc ← cc__chan_try_enqueue_lockfree_impl v;
    chan_inflight_dec;;
    if decide (rc = 0) then try_send_wake env;; mret (Ret 0) else mret (Ret EAGAIN)
  else
  r ← (if decide (count s = cap s) then cc_chan_handle_full_send env else mret (Ret 0));
  match r with
  | Parks => mret Parks
  | Ret err =>
      if decide (err = 0) then
        cc_chan_enqueue env v;; cc__chan_post_enqueue_notify env true;; mret (Ret 0)
      else cc_chan_unlock;; mret (Ret err)
  end.

(** The second component is what has been copied to [*out_value]. *)
Definition cc_chan_try_recv (env : chan_env) (value_size : nat) (fuel : nat) : C (Z * option (list Z)) :=
  if decide (value_size = 0%nat) then mret (EINVAL, None) else
  s ← gets id;
  if use_lockfree s && bool_decide (0 < cap s) && bool_decide (elem_size s = value_size) && buf_alloc s && lockfree_ok s then
    o ← cc_chan_try_dequeue_lockfree;
    match o with
    | Some v =>
        f ← gets (λ s, has_send_waiters (ch (w s)));
        when (bool_decide (f ≠ 0)) (cc__chan_post_dequeue_notify false);;
        mret (0, Some v)
    | None => if closed s then cc__chan_recv_resolve_closed fuel false true else mret (EAGAIN, None)
    end
  else
  cc_chan_lock;;
  err ← cc_chan_ensure_buf env value_size;
  if negb (bool_decide (err = 0)) then cc_chan_unlock;; mret (err, None) else
  s ← gets id;
  if decide (cap s = 0) then
    o ← liftw cc__chan_pop_send_waiter;
    match o with
    | None => cc_chan_unlock;; mret (if closed s then recv_close_errno s else EAGAIN, None)
    | Some p =>
        v ← liftw (cc__chan_finish_recv_from_send_waiter p);
        cc_chan_unlock;;
        liftw wake_batch_flush;;
        liftw cc__chan_signal_activity;;
        mret (0, Some v)
    end
  else if use_lockfree s then
    cc_chan_unlock;;
    o ← cc_chan_try_dequeue_lockfree;
    match o with
    | Some v => cc__chan_post_dequeue_notify false;; mret (0, Some v)
    | None => mret (if closed s then cc__chan_send_close_errno s else EAGAIN, None)
    end
  else if decide (count s = 0) then
    cc_chan_unlock;; mret (if closed s then cc__chan_send_close_errno s else EAGAIN, None)
  else
    v ← cc_chan_dequeue;
    cc__chan_post_dequeue_notify true;;
    mret (0, Some v).

(** [cc_chan_try_send_take]: a pointer as its eight bytes. *)
Definition cc_chan_try_send_take (env : chan_env) (p : list Z) : C outcome :=
  s ← gets id;
  if negb (allow_take s) then mret (Ret EINVAL)
  else if negb (bool_decide (elem_size s = 0%nat)) && negb (bool_decide (elem_size s = sizeof_ptr)) then mret (Ret EINVAL)
  else cc_chan_try_send env p.
End chan.
Arguments ccchan {_}.
