(* ===== verification/ChanSpec.v ===== *)
(** Specifications of the channel operations of [Chan]: what the buffer and the
    queue hold, and that every path keeps the waiter invariant and releases
    the mutex. *)
From S2P Require Import Prelude ChanTypes WaitList WaitShape WaitQuiet WaitInv WaitOps WaitPop WaitWake WaitSteps Bytes Ring Chan.

Local Open Scope Z_scope.

Section spec.
Context `{!LfdsQueue}.
Implicit Types (s : ccchan) (q : list (list Z)) (v : list Z) (ls : side → list ptr).

(** * Definitions *)

(** The mutex-protected ring buffer holds the elements [q]. *)
Record mbuf_inv s q : Prop := {
  mb_lf : use_lockfree s = false;
  mb_alloc : buf_alloc s = true;
  mb_cap : 0 < cap s;
  mb_es : (0 < elem_size s)%nat;
  mb_len : length (buf s) = (Z.to_nat (cap s) * elem_size s)%nat;
  mb_head : 0 ≤ head s < cap s;
  mb_count : count s = Z.of_nat (length q);
  mb_tail : tail s = (head s + count s) mod cap s;
  mb_full : count s ≤ cap s;
  mb_elems : Forall (λ v, length v = elem_size s) q;
  mb_vals : ∀ i v, q !! i = Some v →
    channel_load_slot (buf s) (Z.to_nat ((head s + Z.of_nat i) mod cap s) * elem_size s) (elem_size s) = Some v }.

(** The lock-free ring holds the elements [q]. *)
Record rbuf_inv (k : Z) s q : Prop := {
  rb_lf : use_lockfree s = true;
  rb_ring : use_ring_queue s = true;
  rb_alloc : buf_alloc s = true;
  rb_cap : 0 < cap s;
  rb_es : (0 < elem_size s)%nat;
  rb_q : if decide (topo s = TOPO_1_1) then spsc_inv k (rq s) q
         else mpmc_inv k (rq s) q ∧ ring_tail (rq s) + 2 ^ k < 2 ^ 63 }.

(** A buffered channel in either representation. *)
Definition chan_holds (k : Z) s q : Prop := if use_lockfree s then rbuf_inv k s q else mbuf_inv s q.
(** How many elements it accepts. *)
Definition limit (k : Z) s : Z :=
  if use_lockfree s then if decide (topo s = TOPO_1_1) then cap s else 2 ^ k else cap s.

(** An idle channel: mutex free, waiter lists well formed. *)
Definition idle s ls : Prop := mu_held s = false ∧ wq_inv (w s) ls.

(** Nothing but the waiter side and the mutex changed. *)
Definition same_queue s s' : Prop := s' = s <| w := w s' |> <| mu_held := mu_held s' |>.

(** * Lemmas *)

#[export] Instance same_queue_refl : Reflexive same_queue.
Proof. intros s. unfold same_queue. by destruct s. Qed.
#[export] Instance same_queue_trans : Transitive same_queue.
Proof. intros s1 s2 s3 H12 H23. unfold same_queue in *. rewrite H23, H12. by destruct s1. Qed.

Lemma wp_liftw {A} (m : W A) (Q : A → ccchan → Prop) s :
  wp m (λ a w', Q a (s <| w := w' |>)) (w s) → wp (liftw m) Q s.
Proof. intros (a & w' & Hm & HQ). eexists _, _. split; [|exact HQ]. unfold liftw. by rewrite Hm. Qed.
Lemma wp_liftr {A} (f : ring → option (A * ring)) a r (Q : A → ccchan → Prop) s :
  f (rq s) = Some (a, r) → Q a (s <| rq := r |>) → wp (liftr f) Q s.
Proof. intros Hf HQ. eexists _, _. split; [|exact HQ]. unfold liftr. by rewrite Hf. Qed.

Lemma wp_lock (Q : unit → ccchan → Prop) s :
  mu_held s = false → Q tt (s <| mu_held := true |>) → wp cc_chan_lock Q s.
Proof. intros Hm HQ. unfold cc_chan_lock, upd. wp_step. wp_step. rewrite Hm. by wp_step. Qed.
Lemma wp_unlock (Q : unit → ccchan → Prop) s :
  mu_held s = true → Q tt (s <| mu_held := false |>) → wp cc_chan_unlock Q s.
Proof. intros Hm HQ. unfold cc_chan_unlock, upd. wp_step. wp_step. rewrite Hm. by wp_step. Qed.

(** ** Waiter-side effects of a notification *)

Lemma emit_quiet e (x : wstate) : quiet x (x <| log ::= λ l, l ++ [e] |>).
Proof. split; simpl; eauto. Qed.
Lemma wakes_snoc e l : (∀ f d, e ≠ EvWake f d) → wakes (l ++ [e]) = wakes l.
Proof. intros He. unfold wakes. rewrite omap_app. destruct e; simpl; rewrite ?app_nil_r; try done. by edestruct He. Qed.
Lemma broadcast_spec (x : wstate) : wp cc__chan_broadcast_activity (λ _ x', quiet x x' ∧ wakes (log x') = wakes (log x)) x.
Proof.
  unfold cc__chan_broadcast_activity. wp_go. case_decide; [by wp_step|]. unfold emit. wp_step.
  split; [apply emit_quiet|by apply wakes_snoc].
Qed.
Lemma signal_recv_ready_spec (x : wstate) :
  wp cc__chan_signal_recv_ready (λ _ x', quiet x x' ∧ wakes (log x') = wakes (log x)) x.
Proof.
  unfold cc__chan_signal_recv_ready. wp_go. destruct (recv_signal (ch x)) as [sg|].
  - unfold emit. wp_step. eapply wp_mono; [apply broadcast_spec|]. intros ? x' [Hq Hw].
    split; [exact (transitivity (emit_quiet (EvSocketSignal sg) x) Hq)|]. rewrite Hw. by apply wakes_snoc.
  - wp_step. apply broadcast_spec.
Qed.

(** Any waiter step that keeps the invariant. *)
Definition keeps {A} (m : W A) : Prop :=
  ∀ x ls, wq_inv x ls → wp m (λ _ x', ∃ ls', wq_inv x' ls') x.
Lemma keeps_quiet {A} (m : W A) : (∀ x, batch_ok (batch x) → wp m (λ _ x', quiet x x') x) → keeps m.
Proof.
  intros Hm x ls Hi. eapply wp_mono; [apply Hm, Hi|]. cbv beta. intros a x' Hq. exists ls. exact (quiet_inv _ _ _ Hq Hi).
Qed.
Lemma keeps_flush : keeps wake_batch_flush.
Proof. apply keeps_quiet. intros x Hb. eapply wp_mono; [by apply wake_batch_flush_spec|]. by intros _ x' (? & _). Qed.
Lemma keeps_emit e : keeps (emit e).
Proof. apply keeps_quiet. intros x _. unfold emit. wp_step. apply emit_quiet. Qed.
Lemma keeps_ready : keeps cc__chan_signal_recv_ready.
Proof. apply keeps_quiet. intros. eapply wp_mono; [apply signal_recv_ready_spec|]. by intros ? ? [? _]. Qed.
Lemma keeps_activity : keeps cc__chan_signal_activity.
Proof. apply keeps_quiet. intros. eapply wp_mono; [apply broadcast_spec|]. by intros ? ? [? _]. Qed.
Lemma keeps_wake_send : keeps cc__chan_wake_one_send_waiter.
Proof. intros x ls Hi. eapply wp_mono; [by apply wake_one_send_spec|]. intros ? x' (? & ? & ? & ? & ? & _). eauto. Qed.
Lemma keeps_signal_recv env : env_recv_dedupe env = true → keeps (cc__chan_signal_recv_waiter env).
Proof.
  intros Hd x ls Hi. unfold cc__chan_signal_recv_waiter. wp_step.
  eapply wp_mono; [by apply signal_recv_spec|]. intros j x' (? & _). wp_step. eauto.
Qed.
Lemma keeps_signal_recvs env max : env_recv_dedupe env = true → keeps (cc__chan_signal_recv_waiters env max).
Proof. intros Hd x ls Hi. eapply wp_mono; [by apply signal_recv_spec|]. intros j x' (? & _). eauto. Qed.
Lemma keeps_wake_all : keeps cc__chan_wake_all_waiters.
Proof. intros x ls Hi. eapply wp_mono; [by apply wake_all_spec|]. intros ? x' (? & _). eauto. Qed.
Lemma keeps_drain : keeps drain_send_waiters_close.
Proof.
  intros x ls Hi. unfold drain_send_waiters_close. wp_go.
  eapply wp_mono; [apply wake_close_loop_spec; [done|apply shape_fuel, Hi]|]. intros ? x' (? & _). eauto.
Qed.

(** [tame b m b']: channel code that touches only the waiter side and takes
    the mutex from state [b] to [b']. *)
Definition tame {A} (b : bool) (m : C A) (b' : bool) : Prop :=
  ∀ s ls, mu_held s = b → wq_inv (w s) ls →
    wp m (λ _ s', same_queue s s' ∧ mu_held s' = b' ∧ ∃ ls', wq_inv (w s') ls') s.

Lemma tame_liftw {A} b (m : W A) : keeps m → tame b (liftw m) b.
Proof.
  intros Hk s ls Hm Hi. apply wp_liftw. eapply wp_mono; [exact (Hk (w s) ls Hi)|]. intros a w' [ls' Hw].
  split_and!; [by destruct s|done|eauto].
Qed.
Lemma tame_bind {A B} b1 b2 b3 (m : C A) (f : A → C B) :
  tame b1 m b2 → (∀ a, tame b2 (f a) b3) → tame b1 (mbind f m) b3.
Proof.
  intros Hm Hf s ls Hb Hi. apply wp_bind. eapply wp_mono; [exact (Hm s ls Hb Hi)|].
  intros a s1 (Hsq & Hb1 & ls1 & Hi1). cbv beta. eapply wp_mono; [exact (Hf a s1 ls1 Hb1 Hi1)|].
  intros c s2 (Hsq2 & Hb2 & ls2 & Hi2). split_and!; [by etrans|done|eauto].
Qed.
Lemma tame_ret {A} b (a : A) : tame b (mret a) b.
Proof. intros s ls Hm Hi. wp_step. split_and!; [done|done|eauto]. Qed.
Lemma tame_gets {A} b (f : ccchan → A) : tame b (gets f) b.
Proof. intros s ls Hm Hi. wp_step. split_and!; [done|done|eauto]. Qed.
Lemma tame_lock : tame false cc_chan_lock true.
Proof. intros s ls Hm Hi. apply wp_lock; [done|]. split_and!; [by destruct s|done|eauto]. Qed.
Lemma tame_unlock : tame true cc_chan_unlock false.
Proof. intros s ls Hm Hi. apply wp_unlock; [done|]. split_and!; [by destruct s|done|eauto]. Qed.
Lemma tame_if {A} b b' (c : bool) (m m' : C A) : tame b m b' → tame b m' b' → tame b (if c then m else m') b'.
Proof. by destruct c. Qed.
Lemma tame_decide {A} b b' P `{!Decision P} (m m' : C A) :
  tame b m b' → tame b m' b' → tame b (if decide P then m else m') b'.
Proof. by destruct (decide P). Qed.
Lemma tame_when b (c : bool) (m : C unit) : tame b m b → tame b (when c m) b.
Proof. intros Hw. destruct c; simpl; [done|apply tame_ret]. Qed.
End spec.

Create HintDb tame.
#[export] Hint Resolve keeps_flush keeps_emit keeps_ready keeps_activity keeps_wake_send keeps_signal_recv
  keeps_signal_recvs keeps_wake_all keeps_drain : tame.
#[export] Hint Resolve tame_liftw tame_ret tame_gets tame_lock tame_unlock tame_if tame_decide tame_when : tame.
#[export] Hint Extern 2 (tame _ (mbind _ _) _) => eapply tame_bind; [|intros ?] : tame.
#[export] Hint Extern 3 (tame _ (match ?x with _ => _ end) _) => destruct x : tame.
Ltac tame_auto := eauto 30 with tame.

Section notify.
Context `{!LfdsQueue}.
Implicit Types (s : ccchan) (q : list (list Z)) (v : list Z) (ls : side → list ptr).

Lemma tame_cond_signal b c : tame b (cond_signal c) b.
Proof. unfold cond_signal. tame_auto. Qed.
Lemma tame_cond_broadcast b c : tame b (cond_broadcast c) b.
Proof. unfold cond_broadcast. tame_auto. Qed.
Lemma tame_poke b : tame b poke_recv_signal b.
Proof. unfold poke_recv_signal. tame_auto. Qed.
Hint Resolve tame_cond_signal tame_cond_broadcast tame_poke : tame.

Lemma tame_post_enqueue env held :
  env_recv_dedupe env = true → tame held (cc__chan_post_enqueue_notify env held) false.
Proof. intros Hd. unfold cc__chan_post_enqueue_notify. destruct held; simpl; tame_auto. Qed.
Lemma tame_post_dequeue held : tame held (cc__chan_post_dequeue_notify held) false.
Proof. unfold cc__chan_post_dequeue_notify. destruct held; simpl; tame_auto. Qed.
Lemma tame_dekker_recv env : env_recv_dedupe env = true → tame false (cc__chan_dekker_wake_recv_before_park env) false.
Proof. intros. unfold cc__chan_dekker_wake_recv_before_park. tame_auto. Qed.
Lemma tame_dekker_send : tame false cc__chan_dekker_wake_send_before_park false.
Proof. unfold cc__chan_dekker_wake_send_before_park. tame_auto. Qed.
Lemma tame_post_lf_dequeue : tame false cc__chan_post_lockfree_dequeue_signal_senders false.
Proof. unfold cc__chan_post_lockfree_dequeue_signal_senders. tame_auto. Qed.
Lemma tame_post_lf_enqueue env :
  env_recv_dedupe env = true → tame false (cc__chan_post_lockfree_enqueue_signal_receivers env) false.
Proof. intros. unfold cc__chan_post_lockfree_enqueue_signal_receivers. tame_auto. Qed.
Lemma tame_try_send_wake env : env_recv_dedupe env = true → tame false (try_send_wake env) false.
Proof. intros. unfold try_send_wake. tame_auto. Qed.
End notify.

Section buffers.
Context `{!LfdsQueue}.
Implicit Types (s : ccchan) (q : list (list Z)) (v : list Z) (ls : side → list ptr).

(** The configuration and the close state. *)
Definition cfg s :=
  (cap s, elem_size s, closed s, tx_error_code s, rx_error_closed s, rx_error_code s, mode s,
   use_lockfree s, use_ring_queue s, topo s, buf_alloc s, allow_take s).

Lemma same_queue_cfg s s' : same_queue s s' → cfg s' = cfg s.
Proof. intros ->. by destruct s. Qed.
Lemma same_queue_holds k s s' q : same_queue s s' → chan_holds k s q → chan_holds k s' q.
Proof.
  intros ->. unfold chan_holds. simpl. by destruct (use_lockfree s); intros []; split.
Qed.
Lemma same_queue_limit k s s' : same_queue s s' → limit k s' = limit k s.
Proof. intros ->. by destruct s. Qed.
Lemma cfg_limit k s s' : cfg s' = cfg s → limit k s' = limit k s.
Proof. unfold cfg, limit. intros [= -> ? ? ? ? ? ? -> ? -> ? ?]. done. Qed.

(** ** The mutex buffer *)

Lemma enqueue_mbuf env s q v :
  mbuf_inv s q → count s < cap s → length v = elem_size s →
  wp (cc_chan_enqueue env v) (λ _ s', mbuf_inv s' (q ++ [v]) ∧ cfg s' = cfg s ∧ w s' = w s ∧ mu_held s' = mu_held s) s.
Proof.
  intros [Hlf Hal Hcap Hes Hlen Hh Hc Ht Hf He Hv] Hlt Hl. unfold cc_chan_enqueue. wp_go. simpl.
  rewrite decide_False by lia. unfold store_buf, upd. wp_go. simpl.
  assert (Hti : 0 ≤ tail s < cap s) by (rewrite Ht; apply Z.mod_pos_bound; lia).
  destruct (store_slot_Some (buf s) (Z.to_nat (tail s) * elem_size s) v (elem_size s)) as [b Hb]; [nia|done|].
  eapply wp_lift_opt; [exact Hb|]. cbv beta. wp_go. split_and!; [|done|done|done].
  split; simpl; try done.
  - unfold buf, elem_size, cap in *. simpl. by rewrite (store_slot_length _ _ _ _ _ Hb).
  - rewrite length_app. simpl. lia.
  - unfold cap in *. simpl. rewrite Ht, Zplus_mod_idemp_l. f_equal. lia.
  - unfold cap in *. simpl. lia.
  - apply Forall_app. split; [done|]. by constructor.
  - unfold buf, cap, elem_size in *. simpl.
    intros i u [Hi|[Hi Hu]]%lookup_app_Some.
    + rewrite <- (Hv i u Hi). eapply load_store_ne; [done|]. apply slot_disjoint. rewrite Ht. intros E.
      apply lookup_lt_Some in Hi. pose proof (Z.mod_pos_bound (head s + count s) (r_cap (rq s))).
      pose proof (Z.mod_pos_bound (head s + Z.of_nat i) (r_cap (rq s))).
      assert (count s = Z.of_nat i); [|lia]. apply (mod_window (r_cap (rq s)) (head s)); lia.
    + apply list_lookup_singleton_Some in Hu as [Hi0 <-].
      replace (head s + Z.of_nat i) with (head s + count s) by lia. rewrite <- Ht. by eapply load_store_eq.
Qed.

Lemma dequeue_mbuf s v q :
  mbuf_inv s (v :: q) →
  wp cc_chan_dequeue (λ r s', r = v ∧ mbuf_inv s' q ∧ cfg s' = cfg s ∧ w s' = w s ∧ mu_held s' = mu_held s) s.
Proof.
  intros [Hlf Hal Hcap Hes Hlen Hh Hc Ht Hf He Hv]. unfold cc_chan_dequeue. wp_go. simpl.
  rewrite decide_False by lia. unfold load_buf, upd. wp_go.
  eapply wp_lift_opt.
  { specialize (Hv 0%nat v eq_refl). simpl in Hv. rewrite Z.add_0_r, Z.mod_small in Hv by done. exact Hv. }
  cbv beta. wp_go. split_and!; [done| |done|done|done]. simpl in Hc.
  split; simpl; try done.
  - apply Z.mod_pos_bound. done.
  - lia.
  - unfold cap in *. simpl. rewrite Ht, Zplus_mod_idemp_l. f_equal. lia.
  - unfold cap in *. simpl. lia.
  - by apply Forall_cons in He as [_ ?].
  - unfold buf, cap, elem_size in *. simpl. intros i u Hi. rewrite <- (Hv (S i) u Hi). rewrite Zplus_mod_idemp_l.
    do 3 f_equal. f_equal. lia.
Qed.

(** Dropping the oldest element of a full buffer. *)
Lemma drop_old_mbuf env s v q :
  mbuf_inv s (v :: q) → mode s = MODE_DROP_OLD →
  wp (cc_chan_handle_full_send env) (λ r s', r = Ret 0 ∧ mbuf_inv s' q ∧ count s' < cap s' ∧ cfg s' = cfg s ∧
    w s' = w s ∧ mu_held s' = mu_held s) s.
Proof.
  intros Hi Hm. pose proof (dequeue_mbuf s v q Hi) as (r & s' & Hr & -> & Hi' & Hcf & Hw & Hmu).
  unfold cc_chan_handle_full_send, upd. wp_go. simpl. rewrite Hm. wp_go. split; [done|].
  pose proof Hi as [_ _ Hcap _ _ _ Hc _ Hf _ _].
  assert (s' = s <| head := (head s + 1) mod cap s |> <| count ::= Z.pred |>) as <-.
  { revert Hr. unfold cc_chan_dequeue, mbind, M_bind, gets, load_buf, lift_opt. simpl. rewrite decide_False by lia.
    unfold mbind, M_bind, gets. simpl.
    destruct (channel_load_slot _ _ _); simpl; [|done]. intros [= _ <-]. done. }
  split_and!; try done. destruct Hi'. simpl in *. unfold cfg in Hcf. unfold cap in *. injection Hcf as -> _. lia.
Qed.
End buffers.
