(* ===== verification/ChanTry.v ===== *)
(** The non-blocking operations of a buffered channel against a bounded FIFO:
    [cc_chan_try_send] and [cc_chan_try_recv] on the mutex buffer and on the
    lock-free ring. *)
From S2P Require Import Prelude ChanTypes WaitList WaitShape WaitQuiet WaitInv WaitOps WaitPop WaitWake WaitSteps Bytes Ring Chan ChanSpec.

Local Open Scope Z_scope.

Section try_ops.
Context `{!LfdsQueue}.
Implicit Types (s : ccchan) (q : list (list Z)) (v : list Z) (ls : side → list ptr).

(** * Definitions *)

(** What a try-send does to the queue of an open channel: the abstract bounded
    FIFO with the channel's overflow policy. *)
Definition send_result (env : chan_env) (k : Z) s q v : outcome * list (list Z) :=
  if decide (Z.of_nat (length q) < limit k s) then (Ret 0, q ++ [v])
  else if use_lockfree s then (Ret EAGAIN, q)
  else match mode s with
       | MODE_BLOCK => (if env_nursery_cancelled env then Ret ECANCELED else Parks, q)
       | MODE_DROP_NEW => (Ret EAGAIN, q)
       | MODE_DROP_OLD => (Ret 0, List.tl q ++ [v])
       end.
(** What a try-receive returns, drained or not. *)
Definition recv_result s q : Z * option (list Z) :=
  match q with
  | v :: _ => (0, Some v)
  | [] => (if closed s then if use_lockfree s then recv_close_errno s else cc__chan_send_close_errno s
           else EAGAIN, None)
  end.
(** The signed position comparison of the ring stays defined for one more
    element. *)
Definition room (k : Z) s : Prop :=
  use_lockfree s = true → topo s ≠ TOPO_1_1 → ring_tail (rq s) + 1 + 2 ^ k < 2 ^ 63.

(** An operation advances the tail of a multi-producer ring by at most one. *)
Definition tail_le s s' : Prop :=
  use_lockfree s = true → topo s ≠ TOPO_1_1 → ring_tail (rq s') ≤ ring_tail (rq s) + 1.

(** * Lemmas *)

Lemma tail_le_same s s' : rq s' = rq s → tail_le s s'.
Proof. intros E _ _. rewrite E. lia. Qed.
Lemma tail_le_mutex s s' : use_lockfree s = false → tail_le s s'.
Proof. intros E. unfold tail_le. congruence. Qed.

Lemma ensure_buf_same env s n :
  elem_size s = n → n ≠ 0%nat → wp (cc_chan_ensure_buf env n) (λ r s', r = 0 ∧ s' = s) s.
Proof.
  intros He Hn. unfold cc_chan_ensure_buf. wp_go. simpl. rewrite decide_False by congruence.
  rewrite decide_True by done. by wp_step.
Qed.

Lemma inflight_ring_inc s : use_ring_queue s = true → wp chan_inflight_inc (λ _ s', s' = s) s.
Proof. intros Hr. unfold chan_inflight_inc. wp_go. rewrite Hr. simpl. by wp_step. Qed.
Lemma inflight_ring_dec s : use_ring_queue s = true → wp chan_inflight_dec (λ _ s', s' = s) s.
Proof. intros Hr. unfold chan_inflight_dec. wp_go. rewrite Hr. simpl. by wp_step. Qed.

Lemma enqueue_rbuf k s q v :
  rbuf_inv k s q → length v = elem_size s → room k s →
  wp (cc__chan_try_enqueue_lockfree_impl v) (λ rc s',
    cfg s' = cfg s ∧ w s' = w s ∧ mu_held s' = mu_held s ∧ tail_le s s' ∧
    if decide (Z.of_nat (length q) < limit k s) then rc = 0 ∧ rbuf_inv k s' (q ++ [v]) else rc = EAGAIN ∧ s' = s) s.
Proof.
  intros [Hlf Hr Hal Hcap Hes Hq] Hv Hroom. unfold cc__chan_try_enqueue_lockfree_impl, limit. wp_go. simpl.
  rewrite Hlf, Hr, Hal. rewrite bool_decide_eq_false_2 by lia. simpl.
  unfold cc__queue_enqueue_value. wp_go. simpl. rewrite Hr. unfold ring_enqueue_value.
  destruct (decide (topo s = TOPO_1_1)) as [Ht|Ht].
  - pose proof (spsc_enqueue_spec k (rq s) q v Hq Hv) as Hsp. unfold cap.
    destruct (decide (Z.of_nat (length q) < r_cap (rq s))).
    + destruct Hsp as (r & Hr1 & Hi & He & Hc). eapply wp_liftr; [done|]. cbv beta. simpl.
      wp_step. unfold when. simpl. wp_step. wp_step. unfold cfg, elem_size, cap. simpl. rewrite He, Hc.
      split_and!; try done; [by intros _ ?|]. split; simpl; try done; unfold cap, elem_size in *; simpl; [by rewrite Hc|by rewrite He|].
      by rewrite decide_True.
    + eapply wp_liftr; [done|]. cbv beta. simpl. wp_step. unfold when. simpl. wp_step. wp_step.
      split_and!; try done; [by apply tail_le_same|by destruct s].
  - destruct Hq as [Hq Hb]. pose proof (mpmc_enqueue_spec k (rq s) q v ring_fuel Hq Hv Hb ltac:(unfold ring_fuel; lia)) as Hsp.
    specialize (Hroom Hlf Ht). pose proof (mp_tail _ _ _ Hq) as Htl.
    destruct (decide (Z.of_nat (length q) < 2 ^ k)).
    + destruct Hsp as (r & Hr1 & Hi & Hh & He & Hc). eapply wp_liftr; [done|]. cbv beta.
      cbn [andb negb when]. wp_step. unfold when. simpl. wp_step. wp_step. unfold cfg, elem_size, cap. simpl. rewrite He, Hc.
      split_and!; try done; [intros _ _; simpl; rewrite (mp_tail _ _ _ Hi), Hh, length_app; simpl; lia|]. split; simpl; try done; unfold cap, elem_size in *; simpl; [by rewrite Hc|by rewrite He|].
      rewrite decide_False by done. split; [done|]. rewrite (mp_tail _ _ _ Hi), Hh, length_app. simpl. lia.
    + eapply wp_liftr; [done|]. cbv beta. simpl. wp_step. unfold when. simpl. wp_step. wp_step.
      split_and!; try done; [by apply tail_le_same|by destruct s].
Qed.

Lemma dequeue_rbuf k s q :
  rbuf_inv k s q →
  wp cc_chan_try_dequeue_lockfree (λ o s',
    cfg s' = cfg s ∧ w s' = w s ∧ mu_held s' = mu_held s ∧ tail_le s s' ∧
    match q with [] => o = None ∧ s' = s | v :: q' => o = Some v ∧ rbuf_inv k s' q' end) s.
Proof.
  intros [Hlf Hr Hal Hcap Hes Hq]. unfold cc_chan_try_dequeue_lockfree. wp_go. simpl.
  rewrite Hlf, Hr, Hal. rewrite bool_decide_eq_false_2 by lia. simpl.
  unfold cc__queue_dequeue_value. wp_go. simpl. rewrite Hr. unfold ring_dequeue_value.
  destruct (decide (topo s = TOPO_1_1)) as [Ht|Ht].
  - pose proof (spsc_dequeue_spec k (rq s) q Hq) as Hsp. destruct q as [|v q].
    + eapply wp_liftr; [done|]. cbv beta iota. wp_step. split_and!; try done; [by apply tail_le_same|by destruct s].
    + destruct Hsp as (r & Hr1 & Hi & He & Hc). eapply wp_liftr; [done|]. cbv beta iota.
      wp_step. unfold when. simpl. wp_step. wp_step. unfold cfg, elem_size, cap. simpl. rewrite He, Hc.
      split_and!; try done; [by intros _ ?|]. split; simpl; try done; unfold cap, elem_size in *; simpl; [by rewrite Hc|by rewrite He|].
      by rewrite decide_True.
  - destruct Hq as [Hq Hb]. pose proof (mpmc_dequeue_spec k (rq s) q ring_fuel Hq Hb ltac:(unfold ring_fuel; lia)) as Hsp.
    pose proof (mp_tail _ _ _ Hq) as Htl. destruct q as [|v q].
    + eapply wp_liftr; [done|]. cbv beta iota. wp_step. split_and!; try done; [by apply tail_le_same|by destruct s].
    + destruct Hsp as (r & Hr1 & Hi & Hh & He & Hc). eapply wp_liftr; [done|]. cbv beta iota.
      wp_step. unfold when. simpl. wp_step. wp_step. unfold cfg, elem_size, cap. simpl. rewrite He, Hc.
      split_and!; try done; [intros _ _; simpl; rewrite (mp_tail _ _ _ Hi), Hh; simpl in Htl; lia|]. split; simpl; try done; unfold cap, elem_size in *; simpl; [by rewrite Hc|by rewrite He|].
      rewrite decide_False by done. split; [done|]. rewrite (mp_tail _ _ _ Hi), Hh. simpl in Htl. lia.
Qed.

(** What the operations leave behind: the queue [q], the configuration, and an
    idle channel. *)
Definition settled (k : Z) s q s' : Prop :=
  cfg s' = cfg s ∧ tail_le s s' ∧ chan_holds k s' q ∧ ∃ ls, idle s' ls.

(** A wake-up sequence that ends the operation. *)
Lemma tame_settled {A} b (m : C A) k s0 s q :
  tame b m false → mu_held s = b → (∃ ls, wq_inv (w s) ls) → cfg s = cfg s0 → tail_le s0 s → chan_holds k s q →
  wp m (λ _ s', settled k s0 q s') s.
Proof.
  intros Ht Hm [ls Hi] Hc Htl Hh. eapply wp_mono; [exact (Ht s ls Hm Hi)|]. intros a s' (Hsq & Hm' & ls' & Hi').
  split_and!; [by rewrite (same_queue_cfg _ _ Hsq)| |by eapply same_queue_holds|by exists ls'].
  intros ??. specialize (Htl ltac:(done) ltac:(done)). unfold same_queue in Hsq. rewrite Hsq. exact Htl.
Qed.

Lemma rbuf_holds k s q : rbuf_inv k s q → chan_holds k s q.
Proof. intros H'. unfold chan_holds. by rewrite (rb_lf _ _ _ H'). Qed.
Lemma mbuf_holds k s q : mbuf_inv s q → chan_holds k s q.
Proof. intros H'. unfold chan_holds. by rewrite (mb_lf _ _ H'). Qed.
Lemma cfg_closed s s' : cfg s' = cfg s → closed s' = closed s ∧ rx_error_closed s' = rx_error_closed s ∧
  mode s' = mode s ∧ use_lockfree s' = use_lockfree s ∧ cap s' = cap s ∧ elem_size s' = elem_size s.
Proof. unfold cfg. intros [=]. done. Qed.

Lemma try_send_ring env k s ls q v :
  env_recv_dedupe env = true → idle s ls → rbuf_inv k s q → length v = elem_size s → room k s →
  closed s = false → rx_error_closed s = false →
  wp (cc_chan_try_send env v) (λ r s', r = (send_result env k s q v).1 ∧ settled k s (send_result env k s q v).2 s') s.
Proof.
  intros Hd [Hmu Hi] Hq Hv Hroom Hcl Hrx. pose proof Hq as [Hlf Hr Hal Hcap Hes _].
  unfold cc_chan_try_send, lockfree_ok, send_result. rewrite decide_False by lia. wp_go. simpl.
  rewrite Hlf, Hal, Hr, Hcl, Hrx. rewrite !bool_decide_eq_true_2 by lia. simpl.
  wp_step. eapply wp_mono; [by apply inflight_ring_inc|]. intros ? s1 ->. cbv beta.
  wp_step. eapply wp_mono; [by apply (enqueue_rbuf k s q v)|]. intros rc s1 (Hc & Hw & Hm & Htl & Hres).
  assert (Hr1 : use_ring_queue s1 = true) by (unfold cfg in Hc; congruence).
  wp_step. eapply wp_mono; [by apply inflight_ring_dec|]. intros ? s2 ->. cbv beta.
  destruct (decide (Z.of_nat (length q) < limit k s)); destruct Hres as [-> Hres]; cbn [fst snd].
  - rewrite decide_True by done. wp_step.
    eapply wp_mono; [eapply (tame_settled false _ k s s1 (q ++ [v])); [by apply tame_try_send_wake|congruence| |done|done|by apply rbuf_holds]|].
    { exists ls. by rewrite Hw. }
    cbv beta. intros ? s3 Hs. by wp_step.
  - rewrite decide_False by done. wp_step. split; [done|]. subst s1. split_and!; [done|done|by apply rbuf_holds|]. by exists ls.
Qed.

Lemma try_send_mutex env k s ls q v :
  env_recv_dedupe env = true → idle s ls → mbuf_inv s q → length v = elem_size s →
  closed s = false → rx_error_closed s = false →
  wp (cc_chan_try_send env v) (λ r s', r = (send_result env k s q v).1 ∧
    (r = Parks ∨ settled k s (send_result env k s q v).2 s')) s.
Proof.
  intros Hd [Hmu Hi] Hq Hv Hcl Hrx. pose proof Hq as [Hlf Hal Hcap Hes Hlen Hh Hcnt Ht Hf He Hvals].
  unfold cc_chan_try_send, lockfree_ok, send_result, limit. rewrite decide_False by lia. wp_go. simpl.
  rewrite Hlf, Hcl, Hrx. simpl. rewrite andb_false_r. simpl.
  wp_step. apply wp_lock; [done|]. set (s1 := s <| mu_held := true |>).
  assert (Hq1 : mbuf_inv s1 q) by by destruct Hq; split.
  wp_step. eapply wp_mono; [apply (ensure_buf_same env s1); [done|lia]|]. cbv beta. intros ? ? [-> ->]. simpl.
  wp_go. simpl. rewrite Hcl, Hrx, Hlf. simpl. rewrite decide_False by (unfold cap in *; simpl in *; lia).
  (* the enqueue and the wake-up that end every successful branch *)
  assert (Hgo : ∀ s2 q2, mbuf_inv s2 q2 → count s2 < cap s2 → cfg s2 = cfg s → w s2 = w s → mu_held s2 = true →
    wp (cc_chan_enqueue env v;; cc__chan_post_enqueue_notify env true;; mret (Ret 0))
       (λ r s', r = Ret 0 ∧ settled k s (q2 ++ [v]) s') s2).
  { intros s2 q2 Hq2 Hlt Hc2 Hw2 Hm2. destruct (cfg_closed _ _ Hc2) as (_ & _ & _ & _ & _ & He2).
    wp_step. eapply wp_mono; [apply (enqueue_mbuf env s2 q2 v); [done|done|congruence]|].
    cbv beta. intros ? s3 (Hq3 & Hc3 & Hw3 & Hm3). wp_step.
    eapply wp_mono; [eapply (tame_settled true _ k s s3 (q2 ++ [v])); [by apply tame_post_enqueue|congruence| |congruence|by apply tail_le_mutex|by apply mbuf_holds]|].
    { exists ls. by rewrite Hw3, Hw2. }
    cbv beta. intros ? s4 Hs. by wp_step. }
  assert (Hunch : settled k s q (s1 <| mu_held := false |>)).
  { split_and!; [done|by apply tail_le_mutex|apply mbuf_holds; by destruct Hq; split|by exists ls]. }
  change (count s1) with (count s). change (cap s1) with (cap s).
  destruct (decide (Z.of_nat (length q) < cap s)) as [Hlt|Hge].
  - rewrite decide_False by lia. wp_step. wp_step. rewrite decide_True by done.
    eapply wp_mono; [apply (Hgo s1 q); try done; change (count s < cap s); lia|]. cbv beta. intros r s2 [-> ?]. split; [done|]. by right.
  - rewrite decide_True by lia. wp_step.
    destruct (mode s) eqn:Em.
    + unfold cc_chan_handle_full_send, cc_chan_wait_full. wp_go. simpl. rewrite Em. wp_go. simpl. rewrite Hcl, Hrx.
      rewrite bool_decide_eq_true_2 by (change (count s = cap s); lia). simpl.
      destruct (env_nursery_cancelled env); wp_step; simpl; [|wp_step; split; [done|]; by left].
      wp_step. apply wp_unlock; [done|]. wp_step. split; [done|]. right. by apply Hunch.
    + unfold cc_chan_handle_full_send. wp_go. simpl. rewrite Em. wp_step. rewrite decide_False by done.
      wp_step. apply wp_unlock; [done|]. wp_step. split; [done|]. right. by apply Hunch.
    + destruct q as [|u q]; [simpl in *; lia|].
      eapply wp_mono; [apply (drop_old_mbuf env s1 u q); done|]. cbv beta. intros r s2 (-> & Hq2 & Hlt2 & Hc2 & Hw2 & Hm2).
      rewrite decide_True by done. simpl.
      eapply wp_mono; [apply (Hgo s2 q); done|]. cbv beta. intros r s3 [-> ?]. split; [done|]. by right.
Qed.

Lemma try_recv_mutex env k s ls q fuel :
  idle s ls → mbuf_inv s q →
  wp (cc_chan_try_recv env (elem_size s) fuel) (λ r s', r = recv_result s q ∧ settled k s (List.tl q) s') s.
Proof.
  intros [Hmu Hi] Hq. pose proof Hq as [Hlf Hal Hcap Hes Hlen Hh Hcnt Ht Hf He Hvals].
  unfold cc_chan_try_recv, lockfree_ok, recv_result. rewrite decide_False by lia. wp_go. simpl. rewrite Hlf. simpl.
  wp_step. apply wp_lock; [done|]. set (s1 := s <| mu_held := true |>).
  assert (Hq1 : mbuf_inv s1 q) by by destruct Hq; split.
  wp_step. eapply wp_mono; [apply (ensure_buf_same env s1); [done|lia]|]. cbv beta. intros ? ? [-> ->]. simpl.
  wp_go. simpl. rewrite Hlf. rewrite decide_False by (unfold cap in *; simpl in *; lia).
  destruct q as [|v q].
  - rewrite decide_True by (simpl in *; lia). wp_step. apply wp_unlock; [done|]. wp_step. split; [by destruct (closed s)|].
    split_and!; [done|by apply tail_le_mutex|apply mbuf_holds; by destruct Hq; split|by exists ls].
  - rewrite decide_False by (simpl in *; lia). wp_step.
    eapply wp_mono; [by apply (dequeue_mbuf s1 v q)|]. cbv beta. intros ? s2 (-> & Hq2 & Hc2 & Hw2 & Hm2).
    wp_step. eapply wp_mono; [eapply (tame_settled true _ k s s2 q); [by apply tame_post_dequeue|exact Hm2| |done|by apply tail_le_mutex|by apply mbuf_holds]|].
    { exists ls. by rewrite Hw2. }
    cbv beta. intros ? s3 Hs. by wp_step.
Qed.

Lemma rbuf_empty_pos k s : rbuf_inv k s [] → ring_tail (rq s) = ring_head (rq s).
Proof.
  intros [_ _ _ _ _ Hq]. case_decide.
  - rewrite (sp_tail _ _ _ Hq). simpl. rewrite Z.add_0_r. apply wrap64_small, Hq.
  - destruct Hq as [Hq _]. rewrite (mp_tail _ _ _ Hq). simpl. lia.
Qed.

(** A drained closed ring reports the closer's error. *)
Lemma resolve_closed_empty k s fuel try_only :
  rbuf_inv k s [] → (1 ≤ fuel)%nat →
  wp (cc__chan_recv_resolve_closed fuel false try_only) (λ r s', r = (recv_close_errno s, None) ∧ s' = s) s.
Proof.
  intros Hq Hf. pose proof Hq as [Hlf Hr Hal Hcap Hes _]. pose proof (rbuf_empty_pos k s Hq) as Hpos.
  unfold cc__chan_recv_resolve_closed. wp_go. simpl. rewrite Hlf. rewrite bool_decide_eq_false_2 by lia. simpl.
  destruct fuel as [|fuel]; [lia|]. simpl.
  wp_step. eapply wp_mono; [by apply (dequeue_rbuf k s [])|]. cbv beta. intros ? ? (_ & _ & _ & _ & -> & ->).
  wp_go. rewrite Hr. wp_go. rewrite bool_decide_eq_true_2 by done.
  wp_step. eapply wp_mono; [by apply (dequeue_rbuf k s [])|]. cbv beta. intros ? ? (_ & _ & _ & _ & -> & ->).
  wp_go. rewrite bool_decide_eq_true_2 by done. simpl. wp_go. done.
Qed.

Lemma try_recv_ring env k s ls q fuel :
  idle s ls → rbuf_inv k s q → (1 ≤ fuel)%nat →
  wp (cc_chan_try_recv env (elem_size s) fuel) (λ r s', r = recv_result s q ∧ settled k s (List.tl q) s') s.
Proof.
  intros [Hmu Hi] Hq Hf. pose proof Hq as [Hlf Hr Hal Hcap Hes _].
  unfold cc_chan_try_recv, lockfree_ok, recv_result. rewrite decide_False by lia. wp_go. simpl.
  rewrite Hlf, Hal, Hr. rewrite !bool_decide_eq_true_2 by (done || lia). simpl.
  wp_step. eapply wp_mono; [by apply (dequeue_rbuf k s q)|]. cbv beta. intros o s1 (Hc & Hw & Hm & Htl & Hres).
  destruct q as [|v q]; destruct Hres as [-> Hres].
  - subst s1. assert (Hset : settled k s [] s) by (split_and!; [done|done|by apply rbuf_holds|by exists ls]).
    destruct (closed s); [|by wp_step].
    eapply wp_mono; [by apply (resolve_closed_empty k)|]. cbv beta. intros ? ? [-> ->]. done.
  - wp_go. unfold when. case_bool_decide.
    + eapply wp_mono; [eapply (tame_settled false _ k s s1 q); [by apply tame_post_dequeue|congruence| |done|done|by apply rbuf_holds]|].
      { exists ls. by rewrite Hw. }
      cbv beta. intros ? s2 Hs. by wp_step.
    + wp_go. split; [done|]. split_and!; [done|done|by apply rbuf_holds|].
      exists ls. split; [congruence|by rewrite Hw].
Qed.
End try_ops.
