(* ===== verification/ChanClose.v ===== *)
(** Closing a channel, draining it, and the direct handoff of a rendezvous. *)
From S2P Require Import Prelude ChanTypes WaitList WaitShape WaitQuiet WaitInv WaitOps WaitPop WaitWake WaitSteps Bytes Ring Chan ChanSpec ChanTry.

Local Open Scope Z_scope.

Section close.
Context `{!LfdsQueue}.
Implicit Types (s : ccchan) (q : list (list Z)) (v : list Z) (ls : side → list ptr).

(** * Definitions *)

(** The close state a call of [cc__chan_close_common] leaves. *)
Definition after_close (tx rx : bool) (te re : Z) (io : option io_error) s s' : Prop :=
  closed s' = (closed s || tx) ∧
  tx_error_code s' = (if tx && negb (bool_decide (te = 0)) then te else tx_error_code s) ∧
  rx_error_closed s' = (rx_error_closed s || rx) ∧
  rx_error_code s' = (if rx && negb (bool_decide (re = 0)) then re else rx_error_code s) ∧
  tx_io_error s' = (if tx then match io with Some e => Some e | None => tx_io_error s end else tx_io_error s) ∧
  rx_io_error s' = (if rx then match io with Some e => Some e | None => rx_io_error s end else rx_io_error s).

(** Repeated non-blocking receives. *)
Fixpoint recv_all (env : chan_env) (size fuel n : nat) : C (list (Z * option (list Z))) :=
  match n with
  | O => mret []
  | S n' => r ← cc_chan_try_recv env size fuel; rs ← recv_all env size fuel n'; mret (r :: rs)
  end.

(** * Closing *)

Lemma set_fast_path_inv (x : wstate) b ls : wq_inv x ls → wq_inv (x <| ch ::= λ c, c <| fast_path_ok := b |> |>) ls.
Proof. intros [Hsh Hc Hi Hh Hs]. split; try done. by apply (shape_ch x); [|intros []|]. Qed.

(** The waiters a close must wake. *)
Definition close_targets (tx : bool) (ls : side → list ptr) : list ptr := if tx then ls SendQ ++ ls RecvQ else ls SendQ.

Lemma close_wake_spec (tx : bool) (x : wstate) ls :
  wq_inv x ls →
  wp (if tx then cc__chan_wake_all_waiters else drain_send_waiters_close)
     (λ _ x', wq_inv x' (if tx then λ _, [] else <[SendQ := []]> ls) ∧
        ∀ p, p ∈ close_targets tx ls → close_woken x x' p) x.
Proof.
  intros Hi. destruct tx; simpl.
  - eapply wp_mono; [by apply wake_all_spec|]. intros _ x' (? & _ & Hall). split; [done|].
    intros p [Hp|Hp]%elem_of_app; by eapply Hall.
  - unfold drain_send_waiters_close. wp_go.
    eapply wp_mono; [apply wake_close_loop_spec; [done|apply shape_fuel, Hi]|]. intros _ x' (? & _ & Hall).
    split; [done|]. by apply Forall_forall.
Qed.

(** Only the waiter side, the mutex and the close state changed. *)
Definition close_only s s' : Prop :=
  s' = s <| w := w s' |> <| mu_held := mu_held s' |> <| closed := closed s' |> <| tx_error_code := tx_error_code s' |>
         <| rx_error_closed := rx_error_closed s' |> <| rx_error_code := rx_error_code s' |>
         <| tx_io_error := tx_io_error s' |> <| rx_io_error := rx_io_error s' |>.
#[local] Instance close_only_trans : Transitive close_only.
Proof. intros s1 s2 s3 H12 H23. unfold close_only in *. rewrite H23, H12. by destruct s1. Qed.

(** The stores of the error state. *)
Lemma close_marks_spec (tx rx : bool) (te re : Z) (io : option io_error) s :
  wp (when tx (upd (λ s, s <| closed := true |>
      <| tx_error_code ::= λ e, if decide (te = 0) then e else te |>
      <| tx_io_error ::= λ o, match io with Some e => Some e | None => o end |>));;
      when rx (upd (λ s, s <| rx_error_closed := true |>
      <| rx_error_code ::= λ e, if decide (re = 0) then e else re |>
      <| rx_io_error ::= λ o, match io with Some e => Some e | None => o end |>)))
    (λ _ s', after_close tx rx te re io s s' ∧ close_only s s' ∧ w s' = w s ∧ mu_held s' = mu_held s) s.
Proof.
  unfold after_close, upd. destruct tx, rx; unfold when; wp_go; simpl; rewrite ?orb_true_r, ?orb_false_r;
    split_and!; try done; try (unfold close_only; simpl; by destruct s); by case_decide; case_bool_decide.
Qed.

(** The condition-variable broadcasts and the wake-ups under the mutex. *)
Lemma close_wakes_spec (tx : bool) s ls :
  wq_inv (w s) ls →
  wp ((when tx (cond_broadcast COND_NOT_EMPTY);; cond_broadcast COND_NOT_FULL);;
      if tx then liftw cc__chan_wake_all_waiters else liftw drain_send_waiters_close)
    (λ _ s', s' = s <| w := w s' |> ∧ wq_inv (w s') (if tx then λ _, [] else <[SendQ := []]> ls) ∧
      ∀ p, p ∈ close_targets tx ls → close_woken (w s) (w s') p) s.
Proof.
  intros Hi. unfold cond_broadcast, emit.
  assert (Hgo : ∀ x, quiet (w s) x →
    wp (if tx then liftw cc__chan_wake_all_waiters else liftw drain_send_waiters_close)
      (λ _ s', s' = s <| w := w s' |> ∧ wq_inv (w s') (if tx then λ _, [] else <[SendQ := []]> ls) ∧
        ∀ p, p ∈ close_targets tx ls → close_woken (w s) (w s') p) (s <| w := x |>)).
  { intros x Q. pose proof (close_wake_spec tx x ls (quiet_inv _ _ _ Q Hi)) as Hwk.
    destruct tx; apply wp_liftw; (eapply wp_mono; [exact Hwk|]); cbv beta; intros _ x' [? Hall];
      (split_and!; [by destruct s|done|]); intros p Hp; specialize (Hall p Hp);
      unfold close_woken, told, canceled in *; by rewrite <- (qt_nodes _ _ Q). }
  destruct tx; unfold when; apply wp_bind, wp_bind.
  1: apply wp_liftw; wp_step.
  2: wp_step.
  all: apply wp_liftw; wp_step; refine (Hgo _ _).
  - exact (transitivity (emit_quiet _ _) (emit_quiet _ _)).
  - apply emit_quiet.
Qed.

Lemma close_woken_scheduled (x x' : wstate) p n f :
  close_woken x x' p → nodes x !! p = Some n → fiber n = Some f → f ∈ scheduled x'.
Proof. intros [(n' & ? & _ & Hs)|(n' & g & y & Hs)] Hp Hf; naive_solver. Qed.

Lemma close_common_spec tx rx te re io s ls :
  idle s ls →
  wp (cc__chan_close_common tx rx te re io) (λ _ s',
    after_close tx rx te re io s s' ∧ close_only s s' ∧
    idle s' (if tx then λ _, [] else <[SendQ := []]> ls) ∧
    ∀ p n f, p ∈ close_targets tx ls → nodes (w s) !! p = Some n → fiber n = Some f → f ∈ wakes (log (w s'))) s.
Proof.
  intros [Hm Hi]. unfold cc__chan_close_common, upd. wp_step. wp_step.
  wp_step. apply wp_lock; [done|]. apply wp_bind_assoc.
  set (s1 := _ <| mu_held := true |>).
  wp_step. eapply wp_mono; [apply close_marks_spec|]. cbv beta. intros ? s2 (Ha & Hco & Hw2 & Hm2).
  assert (Hi2 : wq_inv (w s2) ls) by (rewrite Hw2; by apply set_fast_path_inv).
  apply wp_bind_assoc, wp_bind_assoc.
  wp_step. eapply wp_mono; [apply (close_wakes_spec tx s2 ls Hi2)|]. cbv beta. intros ? s5 (E5 & Hi5 & Hwk).
  wp_step. apply wp_unlock; [rewrite E5; exact Hm2|].
  wp_step. apply wp_liftw. eapply wp_mono; [apply wake_batch_flush_spec, Hi5|]. cbv beta.
  intros ? x6 (Q6 & _ & _ & W6 & _). apply wp_liftw. eapply wp_mono; [apply signal_recv_ready_spec|]. cbv beta.
  intros ? x7 [Q7 W7]. simpl in *. split_and!.
  - unfold after_close in *. rewrite E5. exact Ha.
  - unfold close_only in *. rewrite E5, Hco. by destruct s.
  - split; [done|]. eapply quiet_inv; [done|]. by eapply quiet_inv.
  - intros p n f Hp Hn Hf. simpl. rewrite W7, W6. eapply close_woken_scheduled; [by apply Hwk| |done]. by rewrite Hw2.
Qed.
End close.
