(* ===== verification/ChanHandoff.v ===== *)
(** Direct handoff: a send or receive that meets a parked partner copies the
    value through the partner's [data] pointer, marks it NOTIFY_DATA and wakes
    it. *)
From S2P Require Import Prelude ChanTypes WaitList WaitShape WaitQuiet WaitInv WaitOps WaitPop WaitWake WaitSteps Bytes Ring Chan ChanSpec ChanTry.

Local Open Scope Z_scope.

(** * Definitions *)

(** The waiter [p] of [x] has been served with [m] as the buffers' contents:
    it carries NOTIFY_DATA and its fiber, if it has one, is scheduled. *)
Definition served (m : gmap ptr (list Z)) (p : ptr) (x x' : wstate) : Prop :=
  ∃ n, nodes x !! p = Some n ∧ st x' p = Some NOTIFY_DATA ∧ mem x' = m ∧
    ∀ f, fiber n = Some f → f ∈ scheduled x'.

(** Every linked waiter of the queue [sd] has a buffer ([Some d], readable). *)
Definition buffered (sd : side) (x : wstate) (ls : side → list ptr) : Prop :=
  ∀ p n, p ∈ ls sd → nodes x !! p = Some n → ∃ d v, data n = Some d ∧ mem x !! d = Some v.

(** * Lemmas *)

Section handoff.
Context `{!LfdsQueue}.
Implicit Types (s : ccchan) (x : wstate) (v : list Z) (p d : ptr) (ls : side → list ptr).

Lemma mem_inv x m ls : wq_inv x ls → wq_inv (x <| mem := m |>) ls.
Proof.
  intros [Hsh Hc Hi Hh Hs]. split; try done. apply (shape_unlinked x); simpl; try done; apply Hsh.
Qed.
Lemma rv_inv x f ls : wq_inv x ls → wq_inv (x <| ch ::= λ c, c <| rv_recv_waiters ::= f |> |>) ls.
Proof. intros [Hsh Hc Hi Hh Hs]. split; try done. by apply (shape_ch x); [|intros []|]. Qed.
Lemma unlinked_store_inv x ls p n k :
  wq_inv x ls → (∀ sd, p ∉ ls sd) → nodes x !! p = Some n →
  wq_inv (x <| nodes := <[p := n <| notified := k |>]> (nodes x) |>) ls.
Proof.
  intros [Hsh Hc Hi Hh Hs] Hp Hn.
  assert (Hst : ∀ sd q, q ∈ ls sd → st (x <| nodes := <[p := n <| notified := k |>]> (nodes x) |>) q = st x q).
  { intros sd q Hq. unfold st. simpl. rewrite lookup_insert_ne; [done|]. intros ->. by apply (Hp sd). }
  split; simpl; try done.
  - by apply store_notified_shape.
  - rewrite Hc. f_equal. symmetry. apply cnt_ext. eauto.
  - rewrite Hi. f_equal. symmetry. apply cnt_ext. eauto.
  - intros (q & Hq & Hk). apply Hs. exists q. by rewrite (Hst SendQ) in Hk.
Qed.

(** The wake that ends a handoff, for a fiber or for a thread. *)
Lemma handoff_wake_spec c o x :
  batch_ok (batch x) →
  wp (match o with Some f => wake_batch_add_chan (Some f) | None => emit (EvCondSignal c) end)
     (λ _ x', quiet x x' ∧ scheduled x' = scheduled x ++ option_list o) x.
Proof.
  intros Hb. destruct o as [f|].
  - eapply wp_mono; [by apply wake_batch_add_chan_spec|]. by intros ? x' (? & _ & ?).
  - unfold emit. wp_step. split; [apply emit_quiet|]. unfold scheduled. simpl.
    rewrite wakes_snoc by done. by rewrite app_nil_r.
Qed.

(** After the notification is stored: count it in the select and wake. *)
Lemma handoff_tail_spec c x1 x ls p n :
  nodes x !! p = Some n → wq_inv x1 ls →
  nodes x1 = <[p := n <| notified := NOTIFY_DATA |>]> (nodes x) → scheduled x1 = scheduled x →
  wp (bump_signaled p;; match fiber n with Some f => wake_batch_add_chan (Some f) | None => emit (EvCondSignal c) end)
     (λ _ x', wq_inv x' ls ∧ served (mem x1) p x x') x1.
Proof.
  intros Hn Hi1 Hn1 Hs1. wp_step.
  eapply wp_mono; [eapply bump_signaled_spec; [apply Hi1|by rewrite Hn1, lookup_insert_eq]|].
  cbv beta. intros ? x2 (Q2 & _ & S2). pose proof (quiet_inv _ _ _ Q2 Hi1) as Hi2.
  eapply wp_mono; [apply handoff_wake_spec, Hi2|]. cbv beta. intros ? x3 [Q3 S3].
  split; [by eapply quiet_inv|]. exists n. split_and!; [done| | |].
  - rewrite (quiet_st _ _ _ Q3), (quiet_st _ _ _ Q2). unfold st. by rewrite Hn1, lookup_insert_eq.
  - by rewrite (qt_mem _ _ Q3), (qt_mem _ _ Q2).
  - intros f Hf. rewrite S3, Hf. set_solver.
Qed.

Lemma finish_send_spec x ls p n d v :
  wq_inv x ls → (∀ sd, p ∉ ls sd) → nodes x !! p = Some n → data n = Some d →
  wp (cc__chan_finish_send_to_recv_waiter p v) (λ _ x', wq_inv x' ls ∧ served (<[d := v]> (mem x)) p x x') x.
Proof.
  intros Hi Hp Hn Hd. unfold cc__chan_finish_send_to_recv_waiter, write_data, upd_ch.
  wp_step. eapply wp_load; [done|]. cbv beta. rewrite Hd. wp_step. wp_step. wp_step.
  eapply wp_store; [done|]. cbv beta. wp_step. wp_step.
  eapply wp_mono; [eapply (handoff_tail_spec _ _ x ls p n Hn)|].
  - apply rv_inv. apply (unlinked_store_inv (x <| mem := <[d := v]> (mem x) |>)); [by apply mem_inv|done|done].
  - done.
  - done.
  - cbv beta. simpl. by intros ? x'.
Qed.

Lemma finish_recv_spec x ls p n d v :
  wq_inv x ls → (∀ sd, p ∉ ls sd) → nodes x !! p = Some n → data n = Some d → mem x !! d = Some v →
  wp (cc__chan_finish_recv_from_send_waiter p) (λ r x', r = v ∧ wq_inv x' ls ∧ served (mem x) p x x') x.
Proof.
  intros Hi Hp Hn Hd Hv. unfold cc__chan_finish_recv_from_send_waiter, read_data.
  wp_step. eapply wp_load; [done|]. cbv beta. rewrite Hd. wp_step.
  exists v, x. split; [by rewrite Hv|]. wp_step. eapply wp_store; [done|]. cbv beta.
  apply wp_bind_assoc. wp_step.
  eapply wp_mono; [eapply (handoff_tail_spec _ _ x ls p n Hn); [by apply unlinked_store_inv|done|done]|].
  cbv beta. intros ? x' [? ?]. by wp_step.
Qed.

(** The unlinked waiter of a pop. *)
Lemma popped_notin sd x ls sk p l :
  wq_inv x ls → ls sd = sk ++ p :: l → ∀ sd', p ∉ (<[sd := l]> ls : side → list ptr) sd'.
Proof.
  intros Hi Els sd' Hin. pose proof (inv_shape _ _ Hi) as Hsh.
  destruct (decide (sd' = sd)) as [->|Hne].
  - rewrite fn_lookup_insert in Hin. pose proof (sh_nodup _ _ Hsh sd) as Hnd. rewrite Els in Hnd.
    apply NoDup_app in Hnd as (_ & _ & [??]%NoDup_cons). done.
  - rewrite fn_lookup_insert_ne in Hin by done. apply Hne. eapply (sh_disj _ _ Hsh sd' sd p); [done|]. rewrite Els. set_solver.
Qed.

(** What a pop leaves of the node it returns. *)
Lemma popped_node sd x ls o x1 p :
  wq_inv x ls → pop_result sd x ls o x1 → o = Some p → buffered sd x ls →
  ∃ n n1 d v, nodes x !! p = Some n ∧ nodes x1 !! p = Some n1 ∧ ident n1 = ident n ∧ data n1 = Some d ∧
    mem x !! d = Some v ∧ mem x1 = mem x ∧ ∃ ls1, wq_inv x1 ls1 ∧ ∀ sd', p ∉ ls1 sd'.
Proof.
  intros Hi Hpop -> Hb. destruct Hpop as (sk & l & Els & Hi1 & He & _ & (n1 & Hn1 & _)). simpl in Els.
  destruct (shape_lookup x ls sd p (inv_shape _ _ Hi)) as [n Hn]; [rewrite Els; set_solver|].
  destruct (ev_lookup _ _ _ _ _ He Hn1 ltac:(eauto)) as (n' & Hn' & Hid & _). rewrite Hn in Hn'. injection Hn' as <-.
  destruct (Hb p n) as (d & v & Hd & Hv); [rewrite Els; set_solver|done|].
  exists n, n1, d, v. split_and!; try done.
  - unfold ident in Hid. congruence.
  - apply He.
  - eexists. split; [exact Hi1|]. by eapply popped_notin.
Qed.

(** The end of both handoffs: release the mutex, deliver the wake-ups. *)
Lemma handoff_flush_spec {A} (tail : W unit) (a : A) m p n s x ls :
  (∀ x, wp tail (λ _ x', quiet x x' ∧ wakes (log x') = wakes (log x)) x) →
  mu_held s = true → wq_inv (w s) ls → served m p x (w s) → nodes x !! p = Some n →
  wp (cc_chan_unlock;; liftw wake_batch_flush;; liftw tail;; mret a)
    (λ r s', r = a ∧ (∃ ls', idle s' ls') ∧ same_queue s s' ∧ st (w s') p = Some NOTIFY_DATA ∧ mem (w s') = m ∧
       ∀ f, fiber n = Some f → f ∈ wakes (log (w s'))) s.
Proof.
  intros Ht Hm Hi (n0 & Hn0 & Hst & Hmem & Hf) Hn. rewrite Hn in Hn0. injection Hn0 as <-.
  wp_step. apply wp_unlock; [done|]. wp_step. apply wp_liftw.
  eapply wp_mono; [apply wake_batch_flush_spec, Hi|]. cbv beta. intros ? x6 (Q6 & _ & _ & W6 & _).
  wp_step. apply wp_liftw. eapply wp_mono; [apply Ht|]. cbv beta. intros ? x7 [Q7 W7]. wp_step. simpl in Q7, W7.
  split_and!; simpl.
  - done.
  - exists ls. split; [done|]. eapply quiet_inv; [done|]. by eapply quiet_inv.
  - unfold same_queue. simpl. by destruct s.
  - rewrite (quiet_st _ _ _ Q7). exact (eq_trans (quiet_st _ _ _ Q6) Hst).
  - rewrite (qt_mem _ _ Q7). exact (eq_trans (qt_mem _ _ Q6) Hmem).
  - intros f Hff. rewrite W7, W6. by apply Hf.
Qed.

(** What a rendezvous operation does with the waiter [o] its pop returned:
    nothing to meet, or the partner [p] served with [m d] as its buffer. *)
Definition rendezvous (sd : side) s ls (m : ptr → gmap ptr (list Z)) (o : option ptr) s' : Prop :=
  (∃ ls', idle s' ls') ∧ same_queue s s' ∧
  (∃ x1, pop_result sd (w s) ls o x1) ∧
  match o with
  | None => True
  | Some p => ∃ n d, nodes (w s) !! p = Some n ∧ data n = Some d ∧ st (w s') p = Some NOTIFY_DATA ∧
      mem (w s') = m d ∧ ∀ f, fiber n = Some f → f ∈ wakes (log (w s'))
  end.

Lemma try_send_rendezvous env s ls v :
  idle s ls → cap s = 0 → use_lockfree s = false → length v = elem_size s → v ≠ [] →
  closed s = false → rx_error_closed s = false → buffered RecvQ (w s) ls →
  wp (cc_chan_try_send env v) (λ r s', ∃ o, rendezvous RecvQ s ls (λ d, <[d := v]> (mem (w s))) o s' ∧
    r = Ret (if o then 0 else EAGAIN)) s.
Proof.
  intros [Hmu Hi] Hcap Hlf Hv Hne Hcl Hrx Hb.
  assert (Hl : length v ≠ 0%nat) by by destruct v.
  unfold cc_chan_try_send, lockfree_ok. rewrite decide_False by done. wp_go. simpl.
  rewrite Hlf, Hcl, Hrx. simpl. rewrite andb_false_r. simpl.
  wp_step. apply wp_lock; [done|]. set (s1 := s <| mu_held := true |>).
  wp_step. eapply wp_mono; [by apply (ensure_buf_same env s1)|]. cbv beta. intros ? ? [-> ->]. simpl.
  wp_go. simpl. rewrite Hcl, Hrx. rewrite decide_True by done.
  wp_step. apply wp_liftw. eapply wp_mono; [apply (pop_recv_waiter_spec (w s) ls Hi)|]. intros o x1 Hpop.
  destruct o as [p|].
  - destruct (popped_node _ _ _ _ _ p Hi Hpop eq_refl Hb) as (n & n1 & d & u & Hn & Hn1 & Hid & Hd & Hu & Hmem & ls1 & Hi1 & Hp1).
    wp_step. apply wp_liftw. simpl. eapply wp_mono; [by apply (finish_send_spec x1 ls1 p n1 d v)|]. cbv beta.
    intros ? x2 [Hi2 Hsv].
    eapply wp_mono; [eapply (handoff_flush_spec cc__chan_signal_recv_ready (Ret 0) _ p n1 _ x1); [apply signal_recv_ready_spec|..]; done|].
    cbv beta. intros r s' (-> & Hid' & Hsq & Hst & Hm & Hf). exists (Some p). split; [|done].
    split_and!; [done| |by exists x1|].
    + etrans; [|done]. unfold same_queue. simpl. by destruct s.
    + exists n, d. unfold ident in Hid. split_and!; try done; [congruence|by rewrite Hm, Hmem|]. intros f Hff. apply Hf. congruence.
  - wp_step. apply wp_unlock; [done|]. wp_step. exists None. split; [|done].
    pose proof Hpop as (sk & l & _ & Hi1 & _).
    split_and!; [by eexists (<[RecvQ := l]> ls)|unfold same_queue; simpl; by destruct s|by exists x1|done].
Qed.

Lemma try_recv_rendezvous env s ls fuel :
  idle s ls → cap s = 0 → use_lockfree s = false → elem_size s ≠ 0%nat → buffered SendQ (w s) ls →
  wp (cc_chan_try_recv env (elem_size s) fuel) (λ r s', ∃ o, rendezvous SendQ s ls (λ _, mem (w s)) o s' ∧
    match o with
    | None => r = (if closed s then recv_close_errno s else EAGAIN, None)
    | Some p => ∃ n d v, nodes (w s) !! p = Some n ∧ data n = Some d ∧ mem (w s) !! d = Some v ∧ r = (0, Some v)
    end) s.
Proof.
  intros [Hmu Hi] Hcap Hlf Hes Hb.
  unfold cc_chan_try_recv, lockfree_ok. rewrite decide_False by done. wp_go. simpl. rewrite Hlf. simpl.
  wp_step. apply wp_lock; [done|]. set (s1 := s <| mu_held := true |>).
  wp_step. eapply wp_mono; [by apply (ensure_buf_same env s1)|]. cbv beta. intros ? ? [-> ->]. simpl.
  wp_go. simpl. rewrite decide_True by done.
  wp_step. apply wp_liftw. eapply wp_mono; [apply (pop_send_waiter_spec (w s) ls Hi)|]. intros o x1 Hpop.
  destruct o as [p|].
  - destruct (popped_node _ _ _ _ _ p Hi Hpop eq_refl Hb) as (n & n1 & d & u & Hn & Hn1 & Hid & Hd & Hu & Hmem & ls1 & Hi1 & Hp1).
    assert (Hdn : data n = Some d ∧ fiber n = fiber n1) by (unfold ident in Hid; split; congruence). destruct Hdn as [Hdn Hfn].
    wp_step. apply wp_liftw. simpl. eapply wp_mono; [apply (finish_recv_spec x1 ls1 p n1 d u); try done; by rewrite Hmem|]. cbv beta.
    intros ? x2 (-> & Hi2 & Hsv).
    eapply wp_mono; [eapply (handoff_flush_spec cc__chan_signal_activity (0, Some u) _ p n1 _ x1); [apply broadcast_spec|..]; done|].
    cbv beta. intros r s' (-> & Hid' & Hsq & Hst & Hm & Hf). exists (Some p). split; [|by exists n, d, u].
    split_and!; [done| |by exists x1|].
    + etrans; [|done]. unfold same_queue. simpl. by destruct s.
    + exists n, d. split_and!; try done; [by rewrite Hm, Hmem|]. intros f Hff. apply Hf. congruence.
  - wp_step. apply wp_unlock; [done|]. wp_step. exists None.
    pose proof Hpop as (sk & l & _ & Hi1 & _).
    split; [|by destruct (closed s)].
    split_and!; [by eexists (<[SendQ := l]> ls)|unfold same_queue; simpl; by destruct s|by exists x1|done].
Qed.
End handoff.
