(* ===== verification/ChanCreate.v ===== *)
(** A freshly created channel is empty, open and idle. *)
From S2P Require Import Prelude ChanTypes WaitList WaitShape WaitQuiet WaitInv WaitOps WaitPop WaitSteps Bytes Ring Chan ChanSpec ChanTry.

Local Open Scope Z_scope.

Section create.
Context `{!LfdsQueue}.

(** * Definitions *)

(** [cc_chan_create_internal] followed by [cc_chan_init_elem], as
    [cc_chan_create_...] and the generated code call them. *)
Definition create_init (env : chan_env) (sc se : Z) (w0 : wstate) (capacity : Z) (m : chan_mode)
    (take sync : bool) (tp : topology) (es : nat) : option ccchan :=
  c ← cc_chan_create_internal env sc se w0 capacity m take sync tp;
  match cc_chan_init_elem env es c with Some (rc, c') => if decide (rc = 0) then Some c' else None | None => None end.

(** Neither side has been closed. *)
Definition is_open (s : ccchan) : Prop :=
  closed s = false ∧ tx_error_code s = 0 ∧ rx_error_closed s = false ∧ rx_error_code s = 0 ∧
  tx_io_error s = None ∧ rx_io_error s = None.

(** The exponent of the ring of a channel of this capacity. *)
Definition ring_exp (capacity : Z) : Z := Z.log2 (capacity - 1) + 1.

(** No size computed on creation leaves [size_t]; the queue has fewer than
    [2 * capacity] cells of 64 bytes and as many slots. *)
Definition sizes_fit (capacity : Z) (es : nat) : Prop := 2 * capacity * Z.max sizeof_ring_cell (Z.of_nat es) ≤ 2 ^ 64.

(** * Lemmas *)

Lemma sizes_fit_cap capacity es : sizes_fit capacity es → capacity ≤ 2 ^ 57.
Proof. unfold sizes_fit, sizeof_ring_cell. nia. Qed.
Lemma sizes_fit_slots capacity es n :
  sizes_fit capacity es → 0 ≤ n ≤ 2 * capacity - 1 → wrap64 (n * Z.of_nat es) = n * Z.of_nat es.
Proof. unfold sizes_fit, sizeof_ring_cell. intros. apply wrap64_small. nia. Qed.
Lemma next_power_of_2_double n : 2 ≤ n ≤ 2 ^ 62 → n ≤ next_power_of_2 n ≤ 2 * n - 2.
Proof.
  intros Hn. rewrite next_power_of_2_pow by lia. pose proof (Z.log2_spec (n - 1) ltac:(lia)) as Hl.
  rewrite Z.pow_add_r, Z.pow_1_r by (try apply Z.log2_nonneg; lia). rewrite Z.pow_succ_r in Hl by apply Z.log2_nonneg. lia.
Qed.
Lemma ring_block_fits capacity es :
  2 ≤ capacity → sizes_fit capacity es →
  round_up (wrap64 (sizeof_ring_cell * next_power_of_2 capacity)) 64 = sizeof_ring_cell * next_power_of_2 capacity.
Proof.
  intros Hc Hf. pose proof (sizes_fit_cap _ _ Hf). pose proof (next_power_of_2_double capacity ltac:(lia)) as Hn.
  unfold sizes_fit, round_up, sizeof_ring_cell in *. rewrite (wrap64_small (64 * _)) by nia.
  rewrite (wrap64_small (_ + 64 - 1)) by nia.
  replace (64 * next_power_of_2 capacity + 64 - 1) with (63 + next_power_of_2 capacity * 64) by lia.
  rewrite Z.div_add by lia. rewrite wrap64_small by (change (63 / 64) with 0; nia). change (63 / 64) with 0. lia.
Qed.
Lemma slots_bytes n es : 0 ≤ n → Z.to_nat (n * Z.of_nat es) = (Z.to_nat n * es)%nat.
Proof. intros. by rewrite Z2Nat.inj_mul, Nat2Z.id by lia. Qed.

Lemma ring_exp_bound capacity : 2 ≤ capacity ≤ 2 ^ 61 → 2 ^ ring_exp capacity ≤ 2 ^ 61.
Proof.
  intros Hc. assert (Z.log2 (capacity - 1) < 61) by (apply Z.log2_lt_pow2; lia). unfold ring_exp.
  apply Z.pow_le_mono_r; lia.
Qed.

Lemma fresh_waiters_inv (w0 : wstate) b :
  wq_inv w0 (λ _, []) →
  wq_inv (w0 <| ch := ChanWaiters (WaiterQueue None None) (WaiterQueue None None) None 0 0 0 0 b None 0 |>) (λ _, []).
Proof.
  intros Hi. pose proof (inv_shape _ _ Hi) as Hsh. split; try done.
  - destruct Hsh as [Hq Hnd Hdj Hfl Htk Hgr Hba]. split; try done.
    intros []; simpl; repeat split; done.
  - intros (p & Hp & _). by apply not_elem_of_nil in Hp.
Qed.

Lemma init_elem_mutex env (c : ccchan) es :
  (∀ n, env_malloc env n = true) → (0 < es)%nat → elem_size c = 0%nat → 1 ≤ cap c → sizes_fit (cap c) es → use_lockfree c = false →
  count c = 0 → head c = 0 → tail c = 0 → idle c (λ _, []) → is_open c →
  ∃ s, cc_chan_init_elem env es c = Some (0, s) ∧ mbuf_inv s [] ∧ idle s (λ _, []) ∧ is_open s ∧ cap s = cap c ∧
    elem_size s = es ∧ mode s = mode c ∧ topo s = topo c.
Proof.
  intros Hm Hes H0 Hc Hfit Hlf Hcn Hh Ht [Hmu Hi] Ho. unfold cc_chan_init_elem, cc_chan_ensure_buf.
  rewrite decide_False by lia. unfold mbind, M_bind, gets. cbn [id]. rewrite decide_True by done. unfold upd, modify.
  rewrite Hlf, Hm. cbn [andb negb]. rewrite decide_False by lia.
  rewrite (sizes_fit_slots _ _ _ Hfit) by lia. rewrite slots_bytes by lia. eexists. split; [reflexivity|].
  split_and!; try done.
  - split; simpl; unfold buf, cap, elem_size in *; simpl; try done; try lia.
    + by rewrite length_replicate.
    + by rewrite Ht, Hh, Hcn.
  - split; [done|]. simpl. destruct Hi as [Hsh ? ? ? ?]. split; try done. by apply (shape_ch (w c)); [|intros []|].
Qed.

Lemma create_init_spec env sc se w0 capacity m take sync tp es :
  (∀ n, env_malloc env n = true) → wq_inv w0 (λ _, []) → 1 ≤ capacity → sizes_fit capacity es → (0 < es)%nat →
  ∃ s, create_init env sc se w0 capacity m take sync tp es = Some s ∧
    chan_holds (ring_exp capacity) s [] ∧ idle s (λ _, []) ∧ is_open s ∧ cap s = capacity ∧ elem_size s = es ∧
    mode s = m ∧ topo s = tp ∧ (use_lockfree s = true ↔ 1 < capacity ∧ env_no_lockfree env = false) ∧
    (use_lockfree s = true → ring_tail (rq s) = 0).
Proof.
  intros Hm Hw Hcap Hfit Hes. unfold create_init, cc_chan_create_internal. rewrite !Hm. cbn [negb].
  pose proof (sizes_fit_cap _ _ Hfit) as H57.
  destruct (decide (capacity ≤ 1)) as [Hle|Hgt]; [|destruct (env_no_lockfree env) eqn:En].
  1,2: cbn [mbind option_bind]; edestruct init_elem_mutex as (s & Hs & Hb & ? & ? & ? & ? & Hmd & Htp); [..|
    exists s; rewrite Hs; rewrite decide_True by done; split; [reflexivity|];
    split_and!; try done; [by apply mbuf_holds|rewrite (mb_lf _ _ Hb); split; [done|lia || by intros [_ ?]]|by rewrite (mb_lf _ _ Hb)]];
    try done; try (unfold cap; simpl; lia); split; try done; by apply fresh_waiters_inv.
  pose proof (next_power_of_2_double capacity ltac:(lia)) as Hdbl.
  rewrite (ring_block_fits capacity es) by (done || lia). rewrite decide_False by lia. cbn [mbind option_bind].
  unfold cc_chan_init_elem, cc_chan_ensure_buf. rewrite decide_False by lia.
  unfold mbind, M_bind, gets. cbn [id]. rewrite decide_True by done. unfold upd, modify. rewrite Hm. simpl.
  rewrite bool_decide_eq_true_2 by (unfold cap; simpl; lia). simpl.
  eexists. split; [reflexivity|]. pose proof (ring_create_mpmc capacity es ltac:(lia)) as Hmp.
  pose proof (ring_create_spsc capacity es ltac:(lia)) as Hsp.
  split_and!; try done.
  - unfold chan_holds. simpl. split; simpl; try done; unfold cap; simpl; [lia|].
    unfold ring_exp. rewrite bool_decide_eq_true_2 by lia.
    rewrite (sizes_fit_slots _ _ _ Hfit), slots_bytes by lia. destruct (decide (tp = TOPO_1_1)); [exact Hsp|]. split; [exact Hmp|].
    pose proof (ring_exp_bound capacity ltac:(lia)). unfold ring_exp in *. simpl. lia.
  - split; [done|]. simpl. destruct (fresh_waiters_inv w0 false Hw) as [Hsh ? ? ? ?]. split; try done.
    by apply fresh_waiters_inv.
  - simpl. split; [split; [lia|done]|done].
Qed.
End create.
