(* ===== verification/ChanRefine.v ===== *)
(** The channel as the documentation describes it - a bounded FIFO with an
    overflow policy and two close axes -, an abstract channel that has in
    addition the ways in which the code departs from it, and the simulation:
    every run of non-blocking operations and closes on a channel returns exactly
    what the abstract channel returns, and on a [conforms]ing configuration what
    the documented channel returns. *)
From S2P Require Import Prelude ChanTypes WaitList WaitShape WaitQuiet WaitInv WaitOps WaitPop WaitSteps Bytes Ring Chan ChanSpec ChanTry ChanClose ChanCreate.

Local Open Scope Z_scope.

(** * Definitions *)

(** The close operations of the API and what each passes to
    [cc__chan_close_common]. *)
Inductive close_op :=
  | CClose | CCloseErr (err : Z) | CRxCloseErr (err : Z) | CCloseWith (e : io_error) | CCancel.
Definition with_errno (e : io_error) : Z := if decide (os_code e = 0) then ECANCELED else os_code e.
Definition closes_tx (c : close_op) : bool := match c with CRxCloseErr _ => false | _ => true end.
Definition closes_rx (c : close_op) : bool := match c with CClose | CCloseErr _ => false | _ => true end.
Definition tx_errno (c : close_op) : Z :=
  match c with CCloseErr e => e | CCloseWith e => with_errno e | CCancel => ECANCELED | _ => 0 end.
Definition rx_errno (c : close_op) : Z :=
  match c with CRxCloseErr e => e | CCloseWith e => with_errno e | CCancel => ECANCELED | _ => 0 end.

(** The abstract channel. *)
Record achan := AChan { a_q : list (list Z); a_closed : bool; a_tx : Z; a_rxc : bool; a_rx : Z }.
#[export] Instance eta_achan : Eta achan := λ r, AChan (a_q r) (a_closed r) (a_tx r) (a_rxc r) (a_rx r).
(** Its static part: how much it holds, whether it is lock-free, its policy,
    and whether its user runs in a cancelled nursery. *)
Record akind := AKind { k_limit : Z; k_lockfree : bool; k_mode : chan_mode; k_cancelled : bool }.

Definition a_send_errno (a : achan) : Z := if a_rxc a && negb (bool_decide (a_rx a = 0)) then a_rx a else EPIPE.
Definition a_recv_errno (a : achan) : Z := if decide (a_tx a = 0) then EPIPE else a_tx a.
(** The error a send meets; the two paths check the axes in opposite order. *)
Definition a_send_err (kd : akind) (a : achan) : option Z :=
  if k_lockfree kd then if a_closed a then Some (a_send_errno a) else if a_rxc a then Some (a_rx a) else None
  else if a_rxc a then Some (a_rx a) else if a_closed a then Some (a_send_errno a) else None.

Inductive chan_op := OSend (v : list Z) | ORecv | OClose (c : close_op).
Inductive chan_res := RSend (o : outcome) | RRecv (r : Z * option (list Z)) | RClosed.

Definition a_send (kd : akind) (v : list Z) (a : achan) : outcome * achan :=
  match a_send_err kd a with
  | Some e => (Ret e, a)
  | None =>
      if decide (Z.of_nat (length (a_q a)) < k_limit kd) then (Ret 0, a <| a_q := a_q a ++ [v] |>)
      else if k_lockfree kd then (Ret EAGAIN, a)
      else match k_mode kd with
           | MODE_BLOCK => (if k_cancelled kd then Ret ECANCELED else Parks, a)
           | MODE_DROP_NEW => (Ret EAGAIN, a)
           | MODE_DROP_OLD => (Ret 0, a <| a_q := List.tl (a_q a) ++ [v] |>)
           end
  end.
Definition a_recv (kd : akind) (a : achan) : (Z * option (list Z)) * achan :=
  match a_q a with
  | v :: q => ((0, Some v), a <| a_q := q |>)
  | [] => ((if a_closed a then if k_lockfree kd then a_recv_errno a else a_send_errno a else EAGAIN, None), a)
  end.
Definition a_close (c : close_op) (a : achan) : achan :=
  AChan (a_q a) (a_closed a || closes_tx c) (if closes_tx c && negb (bool_decide (tx_errno c = 0)) then tx_errno c else a_tx a)
    (a_rxc a || closes_rx c) (if closes_rx c && negb (bool_decide (rx_errno c = 0)) then rx_errno c else a_rx a).
Definition a_step (kd : akind) (op : chan_op) (a : achan) : chan_res * achan :=
  match op with
  | OSend v => let '(o, a') := a_send kd v a in (RSend o, a')
  | ORecv => let '(r, a') := a_recv kd a in (RRecv r, a')
  | OClose c => (RClosed, a_close c a)
  end.
Definition parked (r : chan_res) : bool := match r with RSend Parks => true | _ => false end.
(** A run ends early when the caller parks. *)
Fixpoint a_run (kd : akind) (ops : list chan_op) (a : achan) : list chan_res :=
  match ops with
  | [] => []
  | op :: ops' => let '(r, a') := a_step kd op a in if parked r then [r] else r :: a_run kd ops' a'
  end.

(** ** The documented channel *)

(** What the repository promises of the non-blocking operations: a send fails
    with the receiver's error ([cc_chan_rx_close_err], [cc_chan_close_with],
    [cc_chan_cancel]) and otherwise with EPIPE once the channel is closed; a
    full channel refuses the value with EAGAIN, or drops its oldest one in mode
    [DROP_OLD]; a receive drains the channel and then reports the sender's
    error, EPIPE when there is none. *)
Definition d_send (limit : Z) (m : chan_mode) (v : list Z) (a : achan) : Z * achan :=
  if a_rxc a then (a_rx a, a) else if a_closed a then (EPIPE, a) else
  if decide (Z.of_nat (length (a_q a)) < limit) then (0, a <| a_q := a_q a ++ [v] |>) else
  match m with
  | MODE_BLOCK | MODE_DROP_NEW => (EAGAIN, a)
  | MODE_DROP_OLD => (0, a <| a_q := List.tl (a_q a) ++ [v] |>)
  end.
Definition d_recv (a : achan) : (Z * option (list Z)) * achan :=
  match a_q a with
  | v :: q => ((0, Some v), a <| a_q := q |>)
  | [] => ((if a_closed a then if decide (a_tx a = 0) then EPIPE else a_tx a else EAGAIN, None), a)
  end.
Definition d_step (limit : Z) (m : chan_mode) (op : chan_op) (a : achan) : chan_res * achan :=
  match op with
  | OSend v => let '(e, a') := d_send limit m v a in (RSend (Ret e), a')
  | ORecv => let '(r, a') := d_recv a in (RRecv r, a')
  | OClose c => (RClosed, a_close c a)
  end.
Fixpoint d_run (limit : Z) (m : chan_mode) (ops : list chan_op) (a : achan) : list chan_res :=
  match ops with
  | [] => []
  | op :: ops' => let '(r, a') := d_step limit m op a in r :: d_run limit m ops' a'
  end.

(** The configurations in which the code keeps these promises.  On a lock-free
    channel: not [DROP_OLD], which refuses the new value instead of dropping the
    oldest, and no [cc_chan_rx_close_err(ch, 0)].  On a mutex-protected one: not
    mode [BLOCK], in which a non-blocking send on a full channel parks, and
    neither [cc_chan_close_err], whose error its receivers do not see, nor
    [cc_chan_rx_close_err], whose error they do. *)
Definition close_conforms (lockfree : bool) (op : chan_op) : bool :=
  match op with
  | OClose (CRxCloseErr e) => lockfree && negb (bool_decide (e = 0))
  | OClose (CCloseErr _) => lockfree
  | _ => true
  end.
Definition conforms (kd : akind) (ops : list chan_op) : bool :=
  negb (bool_decide (k_mode kd = if k_lockfree kd then MODE_DROP_OLD else MODE_BLOCK)) && forallb (close_conforms (k_lockfree kd)) ops.

Section refine.
Context `{!LfdsQueue}.
Implicit Types (s : ccchan) (v : list Z) (a : achan) (ls : side → list ptr).

(** The channel driven by the same operations. *)
Definition run_close (c : close_op) : C unit :=
  match c with
  | CClose => cc_chan_close
  | CCloseErr e => cc_chan_close_err e
  | CRxCloseErr e => cc_chan_rx_close_err e
  | CCloseWith e => cc_chan_close_with e
  | CCancel => cc_chan_cancel
  end.
Definition chan_step (env : chan_env) (es fuel : nat) (op : chan_op) : C chan_res :=
  match op with
  | OSend v => o ← cc_chan_try_send env v; mret (RSend o)
  | ORecv => r ← cc_chan_try_recv env es fuel; mret (RRecv r)
  | OClose c => run_close c;; mret RClosed
  end.
Fixpoint chan_run (env : chan_env) (es fuel : nat) (ops : list chan_op) : C (list chan_res) :=
  match ops with
  | [] => mret []
  | op :: ops' =>
      r ← chan_step env es fuel op;
      if parked r then mret [r] else rs ← chan_run env es fuel ops'; mret (r :: rs)
  end.
Definition sized (es : nat) (op : chan_op) : Prop := match op with OSend v => length v = es | _ => True end.

(** The simulation relation; [n] operations may still follow. *)
Record simulates (k : Z) (kd : akind) (es n : nat) s a : Prop := {
  sim_q : chan_holds k s (a_q a);
  sim_idle : ∃ ls, idle s ls;
  sim_close : (closed s, tx_error_code s, rx_error_closed s, rx_error_code s) = (a_closed a, a_tx a, a_rxc a, a_rx a);
  sim_kind : (limit k s, use_lockfree s, mode s) = (k_limit kd, k_lockfree kd, k_mode kd);
  sim_es : elem_size s = es;
  sim_pos : (0 < es)%nat;
  sim_room : use_lockfree s = true → topo s ≠ TOPO_1_1 → ring_tail (rq s) + Z.of_nat n + 2 ^ k < 2 ^ 63 }.

(** * Lemmas *)

Lemma simulates_settled k kd es n s a s' q :
  simulates k kd es (S n) s a → settled k s q s' → simulates k kd es n s' (a <| a_q := q |>).
Proof.
  intros [Hq Hi Hc Hk He Hp Hr] (Hcfg & Htl & Hq' & Hi'). pose proof (cfg_limit k s s' Hcfg) as Hl.
  unfold cfg in Hcfg. injection Hcfg as E1 E2 E3 E4 E5 E6 E7 E8 E9 E10 E11 E12.
  split; simpl; try done; [congruence|congruence|congruence|].
  rewrite E8, E10. intros H1 H2. specialize (Hr H1 H2). specialize (Htl H1 H2). lia.
Qed.
Lemma simulates_mono k kd es n m s a : (m ≤ n)%nat → simulates k kd es n s a → simulates k kd es m s a.
Proof. intros Hle [Hq Hi Hc Hk He Hp Hr]. split; try done. intros H1 H2. specialize (Hr H1 H2). lia. Qed.

(** ** Sends on a closed channel *)

Lemma send_errno_sim k kd es n s a : simulates k kd es n s a → cc__chan_send_close_errno s = a_send_errno a.
Proof. intros [_ _ [= H1 H2 H3 H4] _ _ _ _]. unfold cc__chan_send_close_errno, a_send_errno. by rewrite H3, H4. Qed.
Lemma recv_errno_sim k kd es n s a : simulates k kd es n s a → recv_close_errno s = a_recv_errno a.
Proof. intros [_ _ [= H1 H2 H3 H4] _ _ _ _]. unfold recv_close_errno, a_recv_errno. by rewrite H2. Qed.

Lemma try_send_closed_ring env k s ls q v :
  idle s ls → rbuf_inv k s q → length v = elem_size s → closed s || rx_error_closed s = true →
  wp (cc_chan_try_send env v) (λ r s', s' = s ∧
    r = Ret (if closed s then cc__chan_send_close_errno s else rx_error_code s)) s.
Proof.
  intros [Hmu Hi] Hq Hv Hcl. pose proof Hq as [Hlf Hr Hal Hcap Hes _].
  unfold cc_chan_try_send, lockfree_ok. rewrite decide_False by lia. wp_go. simpl.
  rewrite Hlf, Hal, Hr. rewrite !bool_decide_eq_true_2 by lia. simpl.
  wp_step. eapply wp_mono; [by apply inflight_ring_inc|]. intros ? s1 ->. cbv beta.
  destruct (closed s); simpl in Hcl; [|rewrite Hcl].
  all: wp_step; eapply wp_mono; [by apply inflight_ring_dec|]; intros ? s2 ->; by wp_step.
Qed.
Lemma try_send_closed_mutex env s ls q v :
  idle s ls → mbuf_inv s q → length v = elem_size s → closed s || rx_error_closed s = true →
  wp (cc_chan_try_send env v) (λ r s', s' = s ∧
    r = Ret (if rx_error_closed s then rx_error_code s else cc__chan_send_close_errno s)) s.
Proof.
  intros [Hmu Hi] Hq Hv Hcl. pose proof Hq as [Hlf Hal Hcap Hes Hlen Hh Hcnt Ht Hf He Hvals].
  unfold cc_chan_try_send, lockfree_ok. rewrite decide_False by lia. wp_go. simpl. rewrite Hlf. simpl.
  rewrite bool_decide_eq_false_2 by lia. simpl. destruct (rx_error_closed s) eqn:Hrx; [by wp_step|].
  rewrite orb_false_r in Hcl. wp_step. apply wp_lock; [done|]. set (s1 := s <| mu_held := true |>).
  wp_step. eapply wp_mono; [apply (ensure_buf_same env s1); [done|lia]|]. cbv beta. intros ? ? [-> ->]. simpl.
  wp_go. simpl. rewrite Hcl. wp_step. apply wp_unlock; [done|]. wp_step. split; [by rewrite <- Hmu; destruct s|].
  unfold cc__chan_send_close_errno. simpl. by rewrite Hrx.
Qed.

Lemma settled_self k s q ls : chan_holds k s q → idle s ls → settled k s q s.
Proof. intros. split_and!; [done|by apply tail_le_same|done|by exists ls]. Qed.
Lemma achan_same a : a <| a_q := a_q a |> = a.
Proof. by destruct a. Qed.

(** ** One operation *)

Lemma send_sim env k kd es n s a v :
  env_recv_dedupe env = true → k_cancelled kd = env_nursery_cancelled env → simulates k kd es (S n) s a → length v = es →
  wp (cc_chan_try_send env v) (λ r s', r = (a_send kd v a).1 ∧ (r = Parks ∨ simulates k kd es n s' (a_send kd v a).2)) s.
Proof.
  intros Hd Hcan Hs Hv. pose proof (simulates_settled k kd es n s a) as Hset. pose proof (send_errno_sim _ _ _ _ _ _ Hs) as Herr.
  pose proof Hs as [Hq [ls Hi] Hc Hk He Hp Hr]. injection Hc as C1 C2 C3 C4. injection Hk as K1 K2 K3.
  assert (Hopen : closed s || rx_error_closed s = false →
    wp (cc_chan_try_send env v) (λ r s', r = (send_result env k s (a_q a) v).1 ∧
      (r = Parks ∨ settled k s (send_result env k s (a_q a) v).2 s')) s).
  { intros [Hc0 Hx0]%orb_false_iff. unfold chan_holds in Hq. destruct (use_lockfree s) eqn:Hlf.
    - eapply wp_mono; [by apply (try_send_ring env k s ls (a_q a) v); try done; [congruence|]; intros ??; specialize (Hr ltac:(done) ltac:(done)); lia|].
      cbv beta. intros r s' [??]. auto.
    - by apply (try_send_mutex env k s ls (a_q a) v); try done; congruence. }
  unfold a_send, a_send_err. rewrite <- C1, <- C3, <- C4, <- K2, <- Herr.
  destruct (closed s || rx_error_closed s) eqn:Hcl; [clear Hopen|].
  - assert (Hsame : simulates k kd es n s a) by (eapply simulates_mono; [|done]; lia). unfold chan_holds in Hq.
    destruct (use_lockfree s) eqn:Hlf.
    + eapply wp_mono; [by apply (try_send_closed_ring env k s ls (a_q a) v); [..|congruence|]|]. cbv beta. intros r s' [-> ->].
      destruct (closed s); [by auto|]. simpl in Hcl. rewrite Hcl. auto.
    + eapply wp_mono; [by apply (try_send_closed_mutex env s ls (a_q a) v); [..|congruence|]|]. cbv beta. intros r s' [-> ->].
      destruct (rx_error_closed s); [by auto|]. rewrite orb_false_r in Hcl. rewrite Hcl. auto.
  - eapply wp_mono; [by apply Hopen|]. cbv beta. intros r s' [-> Hres]. apply orb_false_iff in Hcl as [-> ->].
    unfold send_result in *. rewrite K1, K3, <- Hcan in *.
    destruct (use_lockfree s), (decide (Z.of_nat (length (a_q a)) < k_limit kd)), (k_mode kd), (k_cancelled kd); cbn [fst snd] in *;
      (split; [done|]); destruct Hres as [?|Hres]; try done; try (by left); right;
      first [by apply Hset|rewrite <- (achan_same a); by apply Hset].
Qed.

Lemma recv_sim env k kd es n s a fuel :
  simulates k kd es (S n) s a → (1 ≤ fuel)%nat →
  wp (cc_chan_try_recv env es fuel) (λ r s', r = (a_recv kd a).1 ∧ simulates k kd es n s' (a_recv kd a).2) s.
Proof.
  intros Hs Hf. pose proof (simulates_settled k kd es n s a) as Hset. pose proof (send_errno_sim _ _ _ _ _ _ Hs) as Herr.
  pose proof (recv_errno_sim _ _ _ _ _ _ Hs) as Herr'.
  pose proof Hs as [Hq [ls Hi] Hc Hk <- Hp Hr]. injection Hc as C1 C2 C3 C4. injection Hk as K1 K2 K3.
  eapply (wp_mono _ (λ r s', r = recv_result s (a_q a) ∧ settled k s (List.tl (a_q a)) s')).
  { unfold chan_holds in Hq. destruct (use_lockfree s) eqn:Hlf; [by apply (try_recv_ring env k s ls)|by apply (try_recv_mutex env k s ls)]. }
  cbv beta. intros r s' [-> Hres]. specialize (Hset s' _ Hs Hres).
  unfold recv_result, a_recv. rewrite <- C1, <- K2, <- Herr, <- Herr'.
  destruct (a_q a) as [|v q] eqn:Eq; simpl in *; [|done]. split; [done|]. by rewrite <- Eq, achan_same in Hset.
Qed.

Lemma run_close_common c :
  run_close c = cc__chan_close_common (closes_tx c) (closes_rx c) (tx_errno c) (rx_errno c)
    (match c with CCloseWith e => Some e | CCancel => Some (cc_io_error CC_IO_CANCELLED) | _ => None end).
Proof. by destruct c. Qed.

Lemma close_only_holds k s s' q : close_only s s' → chan_holds k s q → chan_holds k s' q.
Proof. intros ->. unfold chan_holds. simpl. by destruct (use_lockfree s); intros []; split. Qed.

Lemma close_sim k kd es n s a c :
  simulates k kd es (S n) s a → wp (run_close c) (λ _ s', simulates k kd es n s' (a_close c a)) s.
Proof.
  intros [Hq [ls Hi] Hc Hk He Hp Hr]. injection Hc as C1 C2 C3 C4. rewrite run_close_common.
  eapply wp_mono; [by apply close_common_spec|]. cbv beta. intros ? s' ((A1 & A2 & A3 & A4 & _) & Hco & Hi' & _).
  split; simpl.
  - by eapply close_only_holds.
  - eauto.
  - by rewrite A1, A2, A3, A4, C1, C2, C3, C4.
  - rewrite <- Hk. unfold close_only in Hco. rewrite Hco. done.
  - unfold close_only in Hco. rewrite Hco. done.
  - done.
  - unfold close_only in Hco. rewrite Hco. simpl. intros H1 H2. specialize (Hr H1 H2). lia.
Qed.

Lemma step_sim env k kd es n s a fuel op :
  env_recv_dedupe env = true → k_cancelled kd = env_nursery_cancelled env → simulates k kd es (S n) s a → sized es op → (1 ≤ fuel)%nat →
  wp (chan_step env es fuel op) (λ r s', r = (a_step kd op a).1 ∧
    (parked r = true ∨ simulates k kd es n s' (a_step kd op a).2)) s.
Proof.
  intros Hd Hcan Hs Hz Hf. destruct op as [v| |c]; simpl in *; wp_step.
  - eapply wp_mono; [by apply send_sim|]. cbv beta. intros r s' [-> Hr]. wp_step.
    destruct (a_send kd v a) as [o a']; simpl in *. split; [done|]. destruct Hr as [->|Hr]; [by left|by right].
  - eapply wp_mono; [by apply (recv_sim env k kd es n s a fuel)|]. cbv beta. intros r s' [-> Hr]. wp_step.
    destruct (a_recv kd a) as [o a']; simpl in *. auto.
  - eapply wp_mono; [by apply close_sim|]. cbv beta. intros ? s' Hr. wp_step. auto.
Qed.

(** ** Runs *)

Lemma run_sim env k kd es ops s a fuel :
  env_recv_dedupe env = true → k_cancelled kd = env_nursery_cancelled env → simulates k kd es (length ops) s a → Forall (sized es) ops → (1 ≤ fuel)%nat →
  wp (chan_run env es fuel ops) (λ rs _, rs = a_run kd ops a) s.
Proof.
  intros Hd Hcan Hs Hz Hf. revert s a Hs Hz. induction ops as [|op ops IH]; intros s a Hs Hz; simpl; [by wp_step|].
  apply Forall_cons in Hz as [Hz Hzs]. wp_step.
  eapply wp_mono; [by apply (step_sim env k kd es (length ops) s a fuel op)|]. cbv beta. intros r s' [Er Hsim].
  destruct (a_step kd op a) as [r' a'] eqn:Ea. cbn [fst snd] in *. subst r'. destruct (parked r) eqn:Hpk; [by wp_step|].
  destruct Hsim as [?|Hsim]; [done|]. wp_step.
  eapply wp_mono; [by apply IH|]. cbv beta. intros rs s'' ->. by wp_step.
Qed.

(** ** On conforming configurations the abstract channel is the documented one *)

Lemma with_errno_nonzero e : with_errno e ≠ 0.
Proof. unfold with_errno. by case_decide. Qed.

(** The error state conforming closes lead to. *)
Definition codes_conform (lockfree : bool) a : Prop :=
  if lockfree then a_rxc a = true → a_rx a ≠ 0
  else a_tx a = a_rx a ∧ (a_rxc a = true ↔ a_rx a ≠ 0) ∧ (a_rxc a = true → a_closed a = true).

Lemma a_close_conforms lf c a : codes_conform lf a → close_conforms lf (OClose c) = true → codes_conform lf (a_close c a).
Proof.
  pose proof with_errno_nonzero as Hw. assert (ECANCELED ≠ 0) as Hec by done. unfold codes_conform, a_close.
  destruct lf, c as [|e|e|e|]; simpl; try done; intros Ha He;
    rewrite ?orb_true_r, ?orb_false_r; try destruct (bool_decide_reflect (e = 0)); try (rewrite (bool_decide_eq_false_2 (with_errno e = 0)) by done);
    simpl; naive_solver.
Qed.
Lemma a_send_conforms kd v a :
  codes_conform (k_lockfree kd) a → k_mode kd ≠ (if k_lockfree kd then MODE_DROP_OLD else MODE_BLOCK) →
  a_send kd v a = let '(e, a') := d_send (k_limit kd) (k_mode kd) v a in (Ret e, a').
Proof.
  unfold codes_conform, a_send, a_send_err, d_send, a_send_errno. intros Ha Hm.
  destruct (k_lockfree kd), (a_rxc a), (a_closed a), (k_mode kd); simpl in *; try done; repeat case_decide; try done.
  all: by rewrite bool_decide_eq_false_2 by naive_solver.
Qed.
Lemma a_recv_conforms kd a : codes_conform (k_lockfree kd) a → a_recv kd a = d_recv a.
Proof.
  unfold codes_conform, a_recv, d_recv, a_send_errno, a_recv_errno. intros Ha.
  destruct (a_q a), (k_lockfree kd), (a_closed a); try done. destruct Ha as (-> & Hi & _).
  case_decide as Hz; [by rewrite Hz, bool_decide_eq_true_2, andb_false_r|].
  by rewrite bool_decide_eq_false_2, (proj2 Hi).
Qed.
Lemma d_send_codes lf limit m v a : codes_conform lf a → codes_conform lf (d_send limit m v a).2.
Proof. unfold d_send. intros Ha. by destruct (a_rxc a) eqn:?, (a_closed a) eqn:?, m; repeat case_decide; destruct lf. Qed.
Lemma d_recv_codes lf a : codes_conform lf a → codes_conform lf (d_recv a).2.
Proof. unfold d_recv. intros Ha. by destruct (a_q a), lf. Qed.

Lemma a_run_conforms kd ops a :
  conforms kd ops = true → codes_conform (k_lockfree kd) a → a_run kd ops a = d_run (k_limit kd) (k_mode kd) ops a.
Proof.
  unfold conforms. rewrite andb_true_iff, negb_true_iff, bool_decide_eq_false. intros [Hm Hops]. revert a.
  induction ops as [|op ops IH]; intros a Ha; [done|]. cbn [forallb] in Hops. apply andb_true_iff in Hops as [Hop Hops].
  specialize (IH Hops). cbn [a_run d_run]. destruct op as [v| |c]; cbn [a_step d_step].
  - rewrite (a_send_conforms kd v a Ha Hm). pose proof (d_send_codes (k_lockfree kd) (k_limit kd) (k_mode kd) v a Ha) as Hn.
    destruct (d_send _ _ v a) as [e a']. cbn [parked]. f_equal. by apply IH.
  - rewrite (a_recv_conforms kd a Ha). pose proof (d_recv_codes (k_lockfree kd) a Ha) as Hn.
    destruct (d_recv a) as [r a']. cbn [parked]. f_equal. by apply IH.
  - cbn [parked]. f_equal. by apply IH, a_close_conforms.
Qed.

(** The kind of a created channel. *)
Definition kind_of (env : chan_env) (capacity : Z) (m : chan_mode) (tp : topology) : akind :=
  let lf := bool_decide (1 < capacity) && negb (env_no_lockfree env) in
  AKind (if lf && negb (bool_decide (tp = TOPO_1_1)) then next_power_of_2 capacity else capacity) lf m (env_nursery_cancelled env).
Definition a_init : achan := AChan [] false 0 false 0.

Lemma create_sim env sc se w0 capacity m take sync tp es n :
  (∀ z, env_malloc env z = true) → wq_inv w0 (λ _, []) → 1 ≤ capacity → sizes_fit capacity es → (0 < es)%nat → Z.of_nat n < 2 ^ 60 →
  ∃ s k, create_init env sc se w0 capacity m take sync tp es = Some s ∧
    simulates k (kind_of env capacity m tp) es n s a_init.
Proof.
  intros Hm Hw Hc Hfit He Hn. pose proof (sizes_fit_cap _ _ Hfit) as H57.
  destruct (create_init_spec env sc se w0 capacity m take sync tp es Hm Hw Hc Hfit He)
    as (s & Hs & Hq & Hi & (O1 & O2 & O3 & O4 & _) & Hcap & Hes & Hmd & Htp & Hlf & Hpos).
  exists s, (ring_exp capacity). split; [done|].
  assert (Hlfb : use_lockfree s = bool_decide (1 < capacity) && negb (env_no_lockfree env)).
  { destruct (use_lockfree s), (env_no_lockfree env); destruct (bool_decide_reflect (1 < capacity)); naive_solver. }
  split; simpl; try done.
  - eauto.
  - by rewrite O1, O2, O3, O4.
  - rewrite <- Hlfb. unfold limit. rewrite Hcap, Hmd, Htp. destruct (use_lockfree s); [|done]. simpl.
    rewrite next_power_of_2_pow by (assert (1 < capacity) by (by apply Hlf); lia).
    destruct (decide (tp = TOPO_1_1)); [by rewrite bool_decide_eq_true_2|by rewrite bool_decide_eq_false_2].
  - intros H1 H2. rewrite (Hpos H1). assert (1 < capacity) by (by apply Hlf). pose proof (ring_exp_bound capacity ltac:(lia)). lia.
Qed.
End refine.
