(* ===== verification/ChanProps.v ===== *)
(** The properties of the channel operations, with concrete instances. *)
From S2P Require Import Prelude ChanTypes WaitList WaitShape WaitQuiet WaitInv WaitOps WaitPop WaitWake WaitSteps WaitProps Bytes Ring Chan ChanSpec ChanTry ChanClose ChanHandoff ChanCreate ChanRefine.

Local Open Scope Z_scope.

(** * Concrete channels *)

(** A queue for the library fallback (not used by these channels). *)
#[export] Instance list_lfds : LfdsQueue := {|
  lfds_state := list (list Z);
  LFDS711_PAL_ATOMIC_ISOLATION_IN_BYTES := 128;
  lfds711_queue_bmm_init _ := [];
  lfds711_queue_bmm_enqueue v q := (true, q ++ [v]);
  lfds711_queue_bmm_dequeue q := match q with [] => (None, []) | v :: q' => (Some v, q') end |}.

Definition demo_chan (capacity : Z) (m : chan_mode) (tp : topology) : option ccchan :=
  create_init default_env 1024 64 init_wstate capacity m false false tp 2.
Definition run_on (c : option ccchan) (ops : list chan_op) : option (list chan_res) :=
  match c with Some s => fst <$> chan_run default_env 2 1 ops s | None => None end.
Definition demo_ops : list chan_op :=
  [OSend [1; 2]; OSend [3; 4]; OSend [5; 6]; ORecv; OClose (CCloseErr 7); OSend [9; 9]; ORecv; ORecv].

(** * The abstract channel *)

Section abstract.
Implicit Types (a : achan) (kd : akind).


Lemma a_send_room kd v a :
  a_closed a = false → a_rxc a = false → Z.of_nat (length (a_q a)) < k_limit kd →
  a_step kd (OSend v) a = (RSend (Ret 0), a <| a_q := a_q a ++ [v] |>).
Proof.
  intros H1 H2 H3. unfold a_step, a_send, a_send_err. rewrite H1, H2.
  destruct (k_lockfree kd); by rewrite decide_True.
Qed.

(** Filling, closing and draining. *)
Lemma a_run_sends kd q ops a :
  a_closed a = false → a_rxc a = false → Z.of_nat (length (a_q a) + length q) ≤ k_limit kd →
  a_run kd ((OSend <$> q) ++ ops) a =
  replicate (length q) (RSend (Ret 0)) ++ a_run kd ops (a <| a_q := a_q a ++ q |>).
Proof.
  intros H1 H2. revert a H1 H2. induction q as [|v q IH]; intros a H1 H2 H3.
  - simpl. rewrite app_nil_r. by destruct a.
  - change ((OSend <$> v :: q) ++ ops) with (OSend v :: ((OSend <$> q) ++ ops)). cbn [a_run length replicate app].
    rewrite (a_send_room kd v a) by (done || simpl in H3; lia). cbn [parked]. f_equal.
    rewrite IH; simpl; [|done|done|rewrite length_app; simpl in *; lia]. by rewrite <- app_assoc.
Qed.
Lemma a_run_recvs kd a m :
  a_closed a = true →
  a_run kd (replicate (length (a_q a) + m) ORecv) a =
  ((λ v, RRecv (0, Some v)) <$> a_q a) ++
  replicate m (RRecv (if k_lockfree kd then a_recv_errno a else a_send_errno a, None)).
Proof.
  intros Hc. remember (a_q a) as q eqn:Eq. revert a Eq Hc.
  induction q as [|v q IH]; intros a Eq Hc; simpl.
  - induction m as [|m IH]; [done|]. simpl. unfold a_recv. rewrite <- Eq, Hc. cbn [parked]. f_equal. done.
  - unfold a_recv. rewrite <- Eq. cbn [parked]. f_equal. rewrite (IH (a <| a_q := q |>)) by done. done.
Qed.
End abstract.

(** The send-side errors of the documented truth table. *)
Definition send_table (c : close_op) : Z :=
  match c with
  | CClose | CCloseErr _ => EPIPE
  | CRxCloseErr e => e
  | CCloseWith e => with_errno e
  | CCancel => ECANCELED
  end.
(** What a drained receiver is to be told: the sender's error, EPIPE when the
    close has none. *)
Definition drained_errno (c : close_op) : Z := if decide (tx_errno c = 0) then EPIPE else tx_errno c.
Lemma a_send_errno_table q c :
  closes_tx c = true → a_send_errno (a_close c (AChan q false 0 false 0)) = send_table c.
Proof.
  destruct c as [|e|e|e|]; intros [=]; try done. unfold a_send_errno, a_close. simpl.
  pose proof (with_errno_nonzero e). rewrite (bool_decide_eq_false_2 (with_errno e = 0)) by done. simpl.
  by rewrite bool_decide_eq_false_2.
Qed.
Lemma a_recv_errno_table q c :
  closes_tx c = true → a_recv_errno (a_close c (AChan q false 0 false 0)) = if decide (tx_errno c = 0) then EPIPE else tx_errno c.
Proof. intros Hc. unfold a_recv_errno, a_close. rewrite Hc. simpl.
  destruct (bool_decide_reflect (tx_errno c = 0)) as [->|]; [done|]. simpl. by rewrite !decide_False. Qed.
Lemma a_send_err_table kd q c : a_send_err kd (a_close c (AChan q false 0 false 0)) = Some (send_table c).
Proof.
  destruct (closes_tx c) eqn:Hc.
  - pose proof (a_send_errno_table q c Hc) as Ht. unfold a_send_err. rewrite Ht. simpl. rewrite Hc. simpl.
    destruct (k_lockfree kd); [done|]. destruct c as [|e|e|e|]; simpl; try done.
    pose proof (with_errno_nonzero e). by rewrite bool_decide_eq_false_2.
  - destruct c as [|e|e|e|]; simpl in Hc; try done. unfold a_send_err. simpl.
    destruct (k_lockfree kd); simpl; by destruct (bool_decide_reflect (e = 0)) as [->|].
Qed.

Lemma drained_errno_table env capacity m tp q c :
  closes_tx c = true → (1 < capacity ∧ env_no_lockfree env = false) ∨ (∀ e, c ≠ CCloseErr e) →
  (if k_lockfree (kind_of env capacity m tp) then a_recv_errno (a_close c (AChan q false 0 false 0))
   else a_send_errno (a_close c (AChan q false 0 false 0))) = drained_errno c.
Proof.
  intros Hc Hce. rewrite a_send_errno_table, a_recv_errno_table by done. unfold kind_of. simpl.
  destruct Hce as [[H1 ->]|Hce]; [by rewrite bool_decide_eq_true_2|].
  destruct (bool_decide _ && negb _); [done|]. unfold drained_errno. pose proof with_errno_nonzero.
  destruct c as [|e|e|e|]; simpl in *; try done; [by destruct (Hce e)|by rewrite decide_False].
Qed.
Lemma kind_limit_ge env capacity m tp es : 1 ≤ capacity → sizes_fit capacity es → capacity ≤ k_limit (kind_of env capacity m tp).
Proof.
  intros Hc Hf. pose proof (sizes_fit_cap _ _ Hf). unfold kind_of. simpl. destruct (bool_decide_reflect (1 < capacity)); simpl; [|lia].
  destruct (negb (env_no_lockfree env)), (negb _); simpl; try lia. apply next_power_of_2_double. lia.
Qed.
Lemma a_init_codes lf : codes_conform lf a_init.
Proof. by destruct lf. Qed.

(** * Properties *)

Section props.
Context `{!LfdsQueue}.

(** C1: A channel is the documented bounded FIFO with its overflow policy and two
    close axes.  Take a freshly created channel, memory available, the sizes of
    its blocks within [size_t], duplicate-wake suppression on, of any capacity
    from 1, topology and element size - the mutex-protected buffer (capacity 1 or
    the lock-free queue disabled) and both lock-free rings -, and fewer than 2^60
    non-blocking sends, receives and closes.  If mode and closes are ones in which
    the code keeps the documented contract ([conforms]: on a lock-free channel not
    DROP_OLD and no receiver close with error 0; on a mutex-protected one not mode
    BLOCK and neither [cc_chan_close_err] nor [cc_chan_rx_close_err]), and the
    limit is the capacity (a lock-free ring that is not 1:1 rounds it up to a
    power of two), the run completes and every operation returns what the
    documented channel returns. *)
Theorem channel_refines_bounded_fifo env sc se w0 capacity m take sync tp es ops fuel :
  (∀ z, env_malloc env z = true) → env_recv_dedupe env = true → wq_inv w0 (λ _, []) →
  1 ≤ capacity → sizes_fit capacity es → (0 < es)%nat → Forall (sized es) ops → Z.of_nat (length ops) < 2 ^ 60 → (1 ≤ fuel)%nat →
  k_limit (kind_of env capacity m tp) = capacity → conforms (kind_of env capacity m tp) ops = true →
  ∃ s s', create_init env sc se w0 capacity m take sync tp es = Some s ∧
    chan_run env es fuel ops s = Some (d_run capacity m ops a_init, s').
Proof.
  intros Hm Hd Hw Hc Hfit He Hz Hn Hf Hlim Hcf.
  destruct (create_sim env sc se w0 capacity m take sync tp es (length ops) Hm Hw Hc Hfit He Hn) as (s & k & Hs & Hsim).
  destruct (run_sim env k (kind_of env capacity m tp) es ops s a_init fuel Hd eq_refl Hsim Hz Hf) as (rs & s' & Hr & ->).
  exists s, s'. rewrite Hr, (a_run_conforms _ _ _ Hcf (a_init_codes _)), Hlim. done.
Qed.

(** C15: Closing drains: after [q] has been sent (and fits) and the sender side
    closed in any of the four ways, receives return the elements of [q] in
    order and nothing is lost; every later receive reports the error the sender
    side was closed with, EPIPE when there is none.  The channel is new, memory
    is available, duplicate-wake suppression is on, and a [cc_chan_close_err] is
    of a lock-free channel (capacity above 1): receivers of a mutex-protected one
    do not see its error. *)
Theorem close_drains_then_reports env sc se w0 capacity m take sync tp es q c n fuel :
  (∀ z, env_malloc env z = true) → env_recv_dedupe env = true → wq_inv w0 (λ _, []) →
  1 ≤ capacity → sizes_fit capacity es → (0 < es)%nat → Forall (λ v, length v = es) q →
  Z.of_nat (length q) ≤ capacity → closes_tx c = true →
  (1 < capacity ∧ env_no_lockfree env = false) ∨ (∀ e, c ≠ CCloseErr e) →
  Z.of_nat (2 * length q + n + 1) < 2 ^ 60 → (1 ≤ fuel)%nat →
  ∃ s s', create_init env sc se w0 capacity m take sync tp es = Some s ∧
    chan_run env es fuel ((OSend <$> q) ++ OClose c :: replicate (length q + n) ORecv) s =
    Some (replicate (length q) (RSend (Ret 0)) ++ RClosed ::
          ((λ v, RRecv (0, Some v)) <$> q) ++ replicate n (RRecv (drained_errno c, None)), s').
Proof.
  intros Hm Hd Hw Hc Hfit He Hz Hl Hcl Hce Hn Hf. set (ops := (OSend <$> q) ++ OClose c :: replicate (length q + n) ORecv).
  assert (Hlen : length ops = (2 * length q + n + 1)%nat).
  { unfold ops. rewrite length_app, length_fmap. simpl. rewrite length_replicate. lia. }
  destruct (create_sim env sc se w0 capacity m take sync tp es (length ops) Hm Hw Hc Hfit He ltac:(lia)) as (s & k & Hs & Hsim).
  destruct (run_sim env k (kind_of env capacity m tp) es ops s a_init fuel Hd eq_refl Hsim) as (rs & s' & Hr & ->); [|done|].
  { unfold ops. apply Forall_app. split; [by apply Forall_fmap|]. constructor; [done|]. by apply Forall_replicate. }
  exists s, s'. split; [done|]. rewrite Hr. do 2 f_equal. unfold ops.
  pose proof (kind_limit_ge env capacity m tp es Hc Hfit).
  rewrite a_run_sends by (done || (simpl in *; lia)). f_equal. cbn [a_run a_step parked]. f_equal.
  pose proof (a_run_recvs (kind_of env capacity m tp) (a_close c (AChan q false 0 false 0)) n Hcl) as Hrec.
  rewrite (drained_errno_table env capacity m tp q c Hcl Hce) in Hrec. exact Hrec.
Qed.

(** The send-side truth table: after a close of either side a send is
    refused with EPIPE for [cc_chan_close] and [cc_chan_close_err], with the
    given error for [cc_chan_rx_close_err], with the OS code (ECANCELED when
    it is zero) for [cc_chan_close_with] and with ECANCELED for
    [cc_chan_cancel], whatever representation the channel has. *)
Theorem send_after_close_truth_table env sc se w0 capacity m take sync tp es c v fuel :
  (∀ z, env_malloc env z = true) → env_recv_dedupe env = true → wq_inv w0 (λ _, []) →
  1 ≤ capacity → sizes_fit capacity es → (0 < es)%nat → length v = es → (1 ≤ fuel)%nat →
  ∃ s s', create_init env sc se w0 capacity m take sync tp es = Some s ∧
    chan_run env es fuel [OClose c; OSend v] s = Some ([RClosed; RSend (Ret (send_table c))], s').
Proof.
  intros Hm Hd Hw Hc Hfit He Hv Hf.
  destruct (create_sim env sc se w0 capacity m take sync tp es 2 Hm Hw Hc Hfit He ltac:(lia)) as (s & k & Hs & Hsim).
  destruct (run_sim env k (kind_of env capacity m tp) es [OClose c; OSend v] s a_init fuel Hd eq_refl Hsim ltac:(repeat constructor; done) Hf) as (rs & s' & Hr & ->).
  exists s, s'. split; [done|]. rewrite Hr. cbn [a_run a_step parked]. unfold a_send, a_init.
  by rewrite (a_send_err_table _ [] c).
Qed.

(** C32: Closing wakes everybody it must: [cc__chan_close_common] always
    returns with the mutex released, records exactly the requested side's
    error state, leaves the buffered elements alone, empties the waiter lists
    (only the senders' when just the receiving side closes) and has unparked
    the fiber of every waiter it unlinked. *)
Theorem close_wakes_every_waiter (tx rx : bool) te re io (s : ccchan) ls :
  idle s ls →
  ∃ s', cc__chan_close_common tx rx te re io s = Some (tt, s') ∧
    after_close tx rx te re io s s' ∧ close_only s s' ∧ idle s' (if tx then λ _, [] else <[SendQ := []]> ls) ∧
    ∀ p n f, p ∈ close_targets tx ls → nodes (w s) !! p = Some n → fiber n = Some f → f ∈ wakes (log (w s')).
Proof. intros Hi. destruct (close_common_spec tx rx te re io s ls Hi) as ([] & s' & ?). eauto. Qed.

(** A send on an unbuffered channel meets the first receiver that can still
    be served: the value is in that receiver's buffer, it carries NOTIFY_DATA
    and its fiber has been unparked; with nobody to meet the call returns
    EAGAIN and no buffer is written. *)
Theorem rendezvous_send_delivers env (s : ccchan) ls v :
  idle s ls → cap s = 0 → use_lockfree s = false → length v = elem_size s → v ≠ [] →
  closed s = false → rx_error_closed s = false → buffered RecvQ (w s) ls →
  ∃ r s' o, cc_chan_try_send env v s = Some (r, s') ∧
    rendezvous RecvQ s ls (λ d, <[d := v]> (mem (w s))) o s' ∧ r = Ret (if o then 0 else EAGAIN).
Proof. intros. destruct (try_send_rendezvous env s ls v) as (r & s' & ? & o & ? & ?); try done. eauto 6. Qed.

(** A receive on an unbuffered channel takes the value of the first sender
    that is still waiting, tells it NOTIFY_DATA and unparks it; with nobody to
    meet it reports EAGAIN, or the close error of the sending side. *)
Theorem rendezvous_recv_takes env (s : ccchan) ls fuel :
  idle s ls → cap s = 0 → use_lockfree s = false → elem_size s ≠ 0%nat → buffered SendQ (w s) ls →
  ∃ r s' o, cc_chan_try_recv env (elem_size s) fuel s = Some (r, s') ∧
    rendezvous SendQ s ls (λ _, mem (w s)) o s' ∧
    match o with
    | None => r = (if closed s then recv_close_errno s else EAGAIN, None)
    | Some p => ∃ n d v, nodes (w s) !! p = Some n ∧ data n = Some d ∧ mem (w s) !! d = Some v ∧ r = (0, Some v)
    end.
Proof. intros. destruct (try_recv_rendezvous env s ls fuel) as (r & s' & ? & o & ? & ?); try done. eauto 6. Qed.

(** What a receiver is told after [cc_chan_close_err(ch, e)] depends on the
    capacity: a drained lock-free channel (capacity above 1) reports [e], a
    drained channel of capacity 1 reports EPIPE, the send-side error. *)
Theorem close_err_receiver_code env sc se w0 capacity m take sync tp es e fuel :
  (∀ z, env_malloc env z = true) → env_recv_dedupe env = true → env_no_lockfree env = false → wq_inv w0 (λ _, []) →
  1 ≤ capacity → sizes_fit capacity es → (0 < es)%nat → e ≠ 0 → (1 ≤ fuel)%nat →
  ∃ s s', create_init env sc se w0 capacity m take sync tp es = Some s ∧
    chan_run env es fuel [OClose (CCloseErr e); ORecv] s =
    Some ([RClosed; RRecv (if decide (1 < capacity) then e else EPIPE, None)], s').
Proof.
  intros Hm Hd Hnl Hw Hc Hfit He He0 Hf.
  destruct (create_sim env sc se w0 capacity m take sync tp es 2 Hm Hw Hc Hfit He ltac:(lia)) as (s & k & Hs & Hsim).
  destruct (run_sim env k (kind_of env capacity m tp) es [OClose (CCloseErr e); ORecv] s a_init fuel Hd eq_refl Hsim ltac:(repeat constructor; done) Hf) as (rs & s' & Hr & ->).
  exists s, s'. split; [done|]. rewrite Hr. unfold kind_of. rewrite Hnl. simpl. unfold a_recv, a_close, a_recv_errno. simpl.
  rewrite (bool_decide_eq_false_2 (e = 0)) by done. simpl. rewrite (decide_False (P := e = 0)) by done.
  destruct (decide (1 < capacity)); [by rewrite bool_decide_eq_true_2|by rewrite bool_decide_eq_false_2].
Qed.

(** A non-blocking send is not always non-blocking: on a full channel of
    capacity 1 in blocking mode [cc_chan_try_send] parks its caller. *)
Theorem try_send_parks_when_full env sc se w0 take sync tp es v u fuel :
  (∀ z, env_malloc env z = true) → env_recv_dedupe env = true → env_nursery_cancelled env = false → wq_inv w0 (λ _, []) →
  (0 < es)%nat → sizes_fit 1 es → length v = es → length u = es → (1 ≤ fuel)%nat →
  ∃ s s', create_init env sc se w0 1 MODE_BLOCK take sync tp es = Some s ∧
    chan_run env es fuel [OSend v; OSend u] s = Some ([RSend (Ret 0); RSend Parks], s').
Proof.
  intros Hm Hd Hcan Hw He Hfit Hv Hu Hf.
  destruct (create_sim env sc se w0 1 MODE_BLOCK take sync tp es 2 Hm Hw ltac:(lia) Hfit He ltac:(lia)) as (s & k & Hs & Hsim).
  destruct (run_sim env k (kind_of env 1 MODE_BLOCK tp) es [OSend v; OSend u] s a_init fuel Hd eq_refl Hsim ltac:(repeat constructor; done) Hf) as (rs & s' & Hr & ->).
  exists s, s'. split; [done|]. rewrite Hr. unfold kind_of. rewrite Hcan. reflexivity.
Qed.

(** A full lock-free channel refuses the new value in every mode, DROP_OLD
    too: here a ring of two slots, filled and sent to once more. *)
Theorem lockfree_drop_old_refuses_new env sc se w0 take sync tp es u v x fuel :
  (∀ z, env_malloc env z = true) → env_recv_dedupe env = true → env_no_lockfree env = false → wq_inv w0 (λ _, []) →
  (0 < es)%nat → sizes_fit 2 es → length u = es → length v = es → length x = es → (1 ≤ fuel)%nat →
  ∃ s s', create_init env sc se w0 2 MODE_DROP_OLD take sync tp es = Some s ∧
    chan_run env es fuel [OSend u; OSend v; OSend x; ORecv] s =
    Some ([RSend (Ret 0); RSend (Ret 0); RSend (Ret EAGAIN); RRecv (0, Some u)], s').
Proof.
  intros Hm Hd Hnl Hw He Hfit Hu Hv Hx Hf.
  destruct (create_sim env sc se w0 2 MODE_DROP_OLD take sync tp es 4 Hm Hw ltac:(lia) Hfit He ltac:(lia)) as (s & k & Hs & Hsim).
  destruct (run_sim env k (kind_of env 2 MODE_DROP_OLD tp) es [OSend u; OSend v; OSend x; ORecv] s a_init fuel Hd eq_refl Hsim ltac:(repeat constructor; done) Hf) as (rs & s' & Hr & ->).
  exists s, s'. split; [done|]. rewrite Hr. unfold kind_of. rewrite Hnl. by destruct (decide (tp = TOPO_1_1)) as [->|]; [|destruct tp].
Qed.
End props.

(** * Concrete instances *)

Lemma channel_refines_bounded_fifo_witness :
  (∃ s s', create_init default_env 1024 64 init_wstate 3 MODE_BLOCK false false TOPO_1_1 2 = Some s ∧
    chan_run default_env 2 1 demo_ops s = Some (d_run 3 MODE_BLOCK demo_ops a_init, s')) ∧
  run_on (demo_chan 3 MODE_BLOCK TOPO_1_1) demo_ops =
    Some [RSend (Ret 0); RSend (Ret 0); RSend (Ret 0); RRecv (0, Some [1; 2]); RClosed; RSend (Ret EPIPE);
          RRecv (0, Some [3; 4]); RRecv (0, Some [5; 6])].
Proof.
  split; [|vm_compute; reflexivity].
  apply (channel_refines_bounded_fifo default_env 1024 64 init_wstate 3 MODE_BLOCK false false TOPO_1_1 2 demo_ops 1);
    [reflexivity|reflexivity|exact init_inv|lia|by vm_compute|lia|repeat constructor|simpl; lia|lia|reflexivity|reflexivity].
Defined.

Lemma close_drains_then_reports_witness :
  ∃ s s', create_init default_env 1024 64 init_wstate 4 MODE_BLOCK false false TOPO_DEFAULT 2 = Some s ∧
    chan_run default_env 2 1 ((OSend <$> [[1; 2]; [3; 4]]) ++ OClose (CCloseErr 7) :: replicate (2 + 1) ORecv) s =
    Some ([RSend (Ret 0); RSend (Ret 0); RClosed; RRecv (0, Some [1; 2]); RRecv (0, Some [3; 4]); RRecv (7, None)], s').
Proof.
  apply (close_drains_then_reports default_env 1024 64 init_wstate 4 MODE_BLOCK false false TOPO_DEFAULT 2
    [[1; 2]; [3; 4]] (CCloseErr 7) 1 1); [reflexivity|reflexivity|exact init_inv|lia|by vm_compute|lia|repeat constructor|simpl; lia|reflexivity|left; split; [lia|reflexivity]|simpl; lia|lia].
Defined.

Lemma send_after_close_truth_table_witness :
  ∃ s s', create_init default_env 1024 64 init_wstate 1 MODE_DROP_NEW false false TOPO_DEFAULT 2 = Some s ∧
    chan_run default_env 2 1 [OClose CCancel; OSend [1; 2]] s = Some ([RClosed; RSend (Ret ECANCELED)], s').
Proof.
  apply (send_after_close_truth_table default_env 1024 64 init_wstate 1 MODE_DROP_NEW false false TOPO_DEFAULT 2 CCancel [1; 2] 1);
    [reflexivity|reflexivity|exact init_inv|lia|by vm_compute|lia|reflexivity|lia].
Defined.

Lemma close_err_receiver_code_witness :
  ∃ s s', create_init default_env 1024 64 init_wstate 1 MODE_BLOCK false false TOPO_DEFAULT 2 = Some s ∧
    chan_run default_env 2 1 [OClose (CCloseErr 7); ORecv] s = Some ([RClosed; RRecv (EPIPE, None)], s').
Proof.
  apply (close_err_receiver_code default_env 1024 64 init_wstate 1 MODE_BLOCK false false TOPO_DEFAULT 2 7 1);
    [reflexivity|reflexivity|reflexivity|exact init_inv|lia|by vm_compute|lia|discriminate|lia].
Defined.

Lemma try_send_parks_when_full_witness :
  ∃ s s', create_init default_env 1024 64 init_wstate 1 MODE_BLOCK false false TOPO_DEFAULT 2 = Some s ∧
    chan_run default_env 2 1 [OSend [1; 2]; OSend [3; 4]] s = Some ([RSend (Ret 0); RSend Parks], s').
Proof.
  apply (try_send_parks_when_full default_env 1024 64 init_wstate false false TOPO_DEFAULT 2 [1; 2] [3; 4] 1);
    [reflexivity|reflexivity|reflexivity|exact init_inv|lia|by vm_compute|reflexivity|reflexivity|lia].
Defined.

(** ** An unbuffered channel with fiber 102 parked on it, its buffer at 50 *)

Definition rv_node : cc__fiber_wait_node := (demo_node 102 None 0) <| data := Some 50%nat |>.
Definition rv0 : wstate :=
  init_wstate <| nodes := {[ 2%nat := rv_node ]} |> <| tickets := {[ 102%nat := 9 ]} |> <| mem := {[ 50%nat := [8; 9] ]} |>.
Definition rv_recv : wstate := state_after (cc__chan_add_recv_waiter 2) rv0.
Definition rv_send : wstate := state_after (cc__chan_add_send_waiter 2) rv0.
Definition rv_chan (x : wstate) : ccchan :=
  CCChan x (Ring 0 0 2 [] [0; 0] 0 0) true 0 0 0 false false 0 false 0 None None MODE_BLOCK false false false false
    TOPO_DEFAULT false false false [] 0 0.

Lemma rv0_inv : wq_inv rv0 (λ _, []).
Proof.
  assert (Hg : wq_inv (init_wstate <| tickets := {[ 102%nat := 9 ]} |> <| mem := {[ 50%nat := [8; 9] ]} |>) (λ _, [])).
  { destruct init_inv as [Hsh Hc Hi Hh Hs]. split; try done.
    apply (shape_unlinked init_wstate); simpl; try done; try apply Hsh. }
  refine (unlinked_nodes_inv _ {[ 2%nat := rv_node ]} _ Hg _ _ _).
  - intros sd q Hq. by apply not_elem_of_nil in Hq.
  - intros q n. rewrite lookup_singleton_Some. by intros [_ <-].
  - intros q n g. rewrite lookup_singleton_Some. by intros [_ <-].
Qed.
Lemma rv0_can : can_enlist 2 rv_node rv0 (λ _, []).
Proof. split_and!; [done| |]; simpl; intros; set_solver. Qed.
Lemma rv_recv_idle : idle (rv_chan rv_recv) (<[RecvQ := [2%nat]]> (λ _, [])).
Proof. split; [done|]. unfold rv_chan, rv_recv. apply state_after_wp. exact (add_recv_waiter_spec 2 rv_node rv0 _ rv0_inv rv0_can eq_refl). Qed.
Lemma rv_send_idle : idle (rv_chan rv_send) (<[SendQ := [2%nat]]> (λ _, [])).
Proof. split; [done|]. unfold rv_chan, rv_send. apply state_after_wp. exact (add_send_waiter_spec 2 rv_node rv0 _ rv0_inv rv0_can). Qed.
Lemma rv_buffered sd x :
  data <$> nodes x !! 2%nat = Some (Some 50%nat) → mem x !! 50%nat = Some [8; 9] →
  buffered sd x (<[sd := [2%nat]]> (λ _, [])).
Proof.
  intros Hd Hm p n Hp Hn. rewrite fn_lookup_insert in Hp. apply list_elem_of_singleton in Hp. subst p. rewrite Hn in Hd.
  exists 50%nat, [8; 9]. simpl in Hd. split; [congruence|done].
Qed.
Lemma rv_recv_buffered : buffered RecvQ (w (rv_chan rv_recv)) (<[RecvQ := [2%nat]]> (λ _, [])).
Proof. apply rv_buffered; by vm_compute. Qed.
Lemma rv_send_buffered : buffered SendQ (w (rv_chan rv_send)) (<[SendQ := [2%nat]]> (λ _, [])).
Proof. apply rv_buffered; by vm_compute. Qed.

Lemma rendezvous_send_delivers_witness :
  (∃ r s' o, cc_chan_try_send default_env [1; 2] (rv_chan rv_recv) = Some (r, s') ∧
    rendezvous RecvQ (rv_chan rv_recv) (<[RecvQ := [2%nat]]> (λ _, [])) (λ d, <[d := [1; 2]]> (mem rv_recv)) o s' ∧
    r = Ret (if o then 0 else EAGAIN)) ∧
  ((λ x, (fst x, mem (w (snd x)) !! 50%nat, wakes (log (w (snd x))))) <$> cc_chan_try_send default_env [1; 2] (rv_chan rv_recv)) =
    Some (Ret 0, Some [1; 2], [102%nat]).
Proof.
  split; [|vm_compute; reflexivity].
  apply (rendezvous_send_delivers default_env (rv_chan rv_recv) _ [1; 2] rv_recv_idle); try reflexivity; [discriminate|].
  exact rv_recv_buffered.
Defined.

Lemma rendezvous_recv_takes_witness :
  (∃ r s' o, cc_chan_try_recv default_env (elem_size (rv_chan rv_send)) 1 (rv_chan rv_send) = Some (r, s') ∧
    rendezvous SendQ (rv_chan rv_send) (<[SendQ := [2%nat]]> (λ _, [])) (λ _, mem rv_send) o s' ∧
    match o with
    | None => r = (EAGAIN, None)
    | Some p => ∃ n d v, nodes rv_send !! p = Some n ∧ data n = Some d ∧ mem rv_send !! d = Some v ∧ r = (0, Some v)
    end) ∧
  ((λ x, (fst x, wakes (log (w (snd x))))) <$> cc_chan_try_recv default_env 2 1 (rv_chan rv_send)) = Some ((0, Some [8; 9]), [102%nat]).
Proof.
  split; [|vm_compute; reflexivity].
  apply (rendezvous_recv_takes default_env (rv_chan rv_send) _ 1 rv_send_idle); try reflexivity; [discriminate|].
  exact rv_send_buffered.
Defined.

Lemma close_wakes_every_waiter_witness :
  (∃ s', cc__chan_close_common true false 5 0 None (rv_chan rv_recv) = Some (tt, s') ∧
    after_close true false 5 0 None (rv_chan rv_recv) s' ∧ close_only (rv_chan rv_recv) s' ∧ idle s' (λ _, []) ∧
    ∀ p n f, p ∈ close_targets true (<[RecvQ := [2%nat]]> (λ _, [])) → nodes rv_recv !! p = Some n → fiber n = Some f →
      f ∈ wakes (log (w s'))) ∧
  ((λ x, wakes (log (w (snd x)))) <$> cc__chan_close_common true false 5 0 None (rv_chan rv_recv)) = Some [102%nat].
Proof.
  split; [|vm_compute; reflexivity]. exact (close_wakes_every_waiter true false 5 0 None (rv_chan rv_recv) _ rv_recv_idle).
Defined.
