(* ===== verification/Lex.v ===== *)
(** The lexical core shared by the text helpers of [src/cc/src/util/text.h]:
    characters, the comment/string state that each scanner carries in its
    [in_lc], [in_bc], [ins] and [q] variables, and the reference view of a text
    as characters that are code and characters that are not. *)
From S2P Require Import Prelude.
From stdpp Require Export strings.
From Stdlib Require Export Ascii.
From Stdlib Require String.

(** * Characters *)

Definition chr (n : N) : ascii := ascii_of_N n.
Definition NUL := chr 0.
Definition TAB := chr 9.
Definition NL := chr 10.
Definition VT := chr 11.
Definition FF := chr 12.
Definition CR := chr 13.
Definition SP := chr 32.
Definition DQ := chr 34.
Definition SQ := chr 39.
Definition LPAR := chr 40.
Definition RPAR := chr 41.
Definition STAR := chr 42.
Definition SLASH := chr 47.
Definition BSLASH := chr 92.
Definition LBRK := chr 91.
Definition RBRK := chr 93.
Definition LBR := chr 123.
Definition RBR := chr 125.
Definition eqc (a b : ascii) : bool := bool_decide (a = b).

(** Texts are lists of characters; [txt] writes one as a string literal. *)
Definition txt (s : string) : list ascii := String.list_ascii_of_string s.

Definition between (lo hi : string) (c : ascii) : bool :=
  match lo, hi with
  | String a _, String b _ => (N_of_ascii a <=? N_of_ascii c)%N && (N_of_ascii c <=? N_of_ascii b)%N
  | _, _ => false
  end.
Definition cc_is_ident_start (c : ascii) : bool := eqc c (chr 95) || (between "A" "Z" c || between "a" "z" c).
Definition cc_is_ident_char (c : ascii) : bool := cc_is_ident_start c || between "0" "9" c.
Definition is_ws (c : ascii) : bool := eqc c SP || eqc c TAB || eqc c CR || eqc c NL.
Definition is_blank (c : ascii) : bool := eqc c SP || eqc c TAB.

(** * Brackets *)

Inductive kind := Paren | Brack | Brace.
#[export] Instance kind_eq_dec : EqDecision kind.
Proof. solve_decision. Defined.
Definition opener (k : kind) : ascii := match k with Paren => LPAR | Brack => LBRK | Brace => LBR end.
Definition closer (k : kind) : ascii := match k with Paren => RPAR | Brack => RBRK | Brace => RBR end.
Definition opens (c : ascii) : option kind :=
  if eqc c LPAR then Some Paren else if eqc c LBRK then Some Brack else if eqc c LBR then Some Brace else None.
Definition closes (c : ascii) : option kind :=
  if eqc c RPAR then Some Paren else if eqc c RBRK then Some Brack else if eqc c RBR then Some Brace else None.

(** * The lexical state *)

Inductive lex := Code | LineC | BlockC | Str (q : ascii).
(** One iteration: the state after a character that is not code, and whether
    the next one is consumed with it ([p++]), or a code character. *)
Inductive lex_res := Skip (st : lex) (two : bool) | IsCode.

(** The six lines every scanner begins its loop body with.  [nlc] says whether
    the newline that ends a line comment is itself treated as code, as in
    [cc_find_char_top_level] and [cc_rfind_char_top_level].  [c2] is the next
    character, NUL at the end; [more] is [p + 1 < end]. *)
Definition lex_step (nlc : bool) (st : lex) (c c2 : ascii) (more : bool) : lex_res :=
  match st with
  | LineC => if eqc c NL then (if nlc then IsCode else Skip Code false) else Skip LineC false
  | BlockC => if eqc c STAR && eqc c2 SLASH then Skip Code true else Skip BlockC false
  | Str q => if eqc c BSLASH && more then Skip (Str q) true else if eqc c q then Skip Code false else Skip (Str q) false
  | Code =>
      if eqc c SLASH && eqc c2 SLASH then Skip LineC true
      else if eqc c SLASH && eqc c2 STAR then Skip BlockC true
      else if eqc c DQ || eqc c SQ then Skip (Str c) false
      else IsCode
  end.
Definition peek (l : list ascii) : ascii := default NUL (head l).
Definition more (l : list ascii) : bool := match l with [] => false | _ => true end.

(** Which characters are code. *)
Fixpoint lex_mask (nlc : bool) (st : lex) (l : list ascii) : list bool :=
  match l with
  | [] => []
  | c :: l' =>
      match lex_step nlc st c (peek l') (more l') with
      | Skip st' false => false :: lex_mask nlc st' l'
      | Skip st' true => false :: match l' with [] => [] | _ :: l'' => false :: lex_mask nlc st' l'' end
      | IsCode => true :: lex_mask nlc Code l'
      end
  end.

(** * Well-formed fragments

    [frag nlc s m]: [s] is a complete piece of C text - balanced brackets,
    terminated comments and literals - and [m] tells its code characters. *)
Definition plain (c : ascii) : Prop :=
  c ≠ SLASH ∧ c ≠ DQ ∧ c ≠ SQ ∧ opens c = None ∧ closes c = None.
#[export] Instance plain_dec c : Decision (plain c).
Proof. unfold plain. apply _. Defined.
(** No [*/] inside, also not across the end of [s] followed by [*/]. *)
Fixpoint no_close (s : list ascii) : Prop :=
  match s with
  | [] => True
  | c :: s' => ¬ (c = STAR ∧ peek s' = SLASH) ∧ no_close s'
  end.
Inductive str_body (q : ascii) : list ascii → Prop :=
  | str_nil : str_body q []
  | str_char c s : c ≠ BSLASH → c ≠ q → str_body q s → str_body q (c :: s)
  | str_esc c s : str_body q s → str_body q (BSLASH :: c :: s).

Inductive frag (nlc : bool) : list ascii → list bool → Prop :=
  | frag_nil : frag nlc [] []
  | frag_plain c s m : plain c → frag nlc s m → frag nlc (c :: s) (true :: m)
  | frag_slash c s m : plain c → c ≠ STAR → frag nlc s m → frag nlc (SLASH :: c :: s) (true :: true :: m)
  | frag_line b s m : NL ∉ b → frag nlc s m →
      frag nlc (SLASH :: SLASH :: b ++ NL :: s) (false :: false :: replicate (length b) false ++ nlc :: m)
  | frag_block b s m : no_close b → frag nlc s m →
      frag nlc (SLASH :: STAR :: b ++ STAR :: SLASH :: s) (false :: false :: replicate (length b) false ++ false :: false :: m)
  | frag_str q b s m : q = DQ ∨ q = SQ → str_body q b → frag nlc s m →
      frag nlc (q :: b ++ q :: s) (false :: replicate (length b) false ++ false :: m)
  | frag_group k s1 m1 s2 m2 : frag nlc s1 m1 → frag nlc s2 m2 →
      frag nlc (opener k :: s1 ++ closer k :: s2) (true :: m1 ++ true :: m2).

(** * Lemmas *)

Lemma eqc_refl c : eqc c c = true.
Proof. by apply bool_decide_eq_true_2. Qed.
Lemma eqc_ne a b : a ≠ b → eqc a b = false.
Proof. intros. by apply bool_decide_eq_false_2. Qed.
Lemma eqc_true a b : eqc a b = true → a = b.
Proof. apply bool_decide_eq_true_1. Qed.

Lemma lex_mask_length nlc st l : length (lex_mask nlc st l) = length l.
Proof.
  remember (length l) as n eqn:En. revert st l En. induction (lt_wf n) as [n _ IH]. intros st [|c l] ->; [done|]. simpl.
  destruct (lex_step nlc st c (peek l) (more l)) as [st' []|]; simpl.
  - f_equal. destruct l as [|c' l]; [done|]. simpl. f_equal. eapply IH; [|done]. simpl. lia.
  - f_equal. eapply IH; [|done]. simpl. lia.
  - f_equal. eapply IH; [|done]. simpl. lia.
Qed.

Lemma opens_opener k : opens (opener k) = Some k.
Proof. by destruct k. Qed.
Lemma closes_closer k : closes (closer k) = Some k.
Proof. by destruct k. Qed.
Lemma opens_closer k : opens (closer k) = None.
Proof. by destruct k. Qed.
Lemma opens_Some c k : opens c = Some k → c = opener k.
Proof. unfold opens. repeat case_match; intros [= <-]; by apply eqc_true. Qed.
Lemma closes_Some c k : closes c = Some k → c = closer k.
Proof. unfold closes. repeat case_match; intros [= <-]; by apply eqc_true. Qed.

(** A code character that starts neither a comment nor a literal. *)
Lemma lex_code nlc c c2 mo :
  c ≠ DQ → c ≠ SQ → c ≠ SLASH → lex_step nlc Code c c2 mo = IsCode.
Proof. intros ???. unfold lex_step. by rewrite (eqc_ne c SLASH), (eqc_ne c DQ), (eqc_ne c SQ). Qed.

Lemma lex_slash nlc c2 mo : c2 ≠ SLASH → c2 ≠ STAR → lex_step nlc Code SLASH c2 mo = IsCode.
Proof. intros ??. unfold lex_step. by rewrite (eqc_ne c2 SLASH), (eqc_ne c2 STAR). Qed.

Lemma mask_line nlc b l : NL ∉ b → lex_mask nlc LineC (b ++ NL :: l) =
  replicate (length b) false ++ nlc :: lex_mask nlc Code l.
Proof.
  induction b as [|c b IH]; intros Hn; simpl.
  - by destruct nlc.
  - apply not_elem_of_cons in Hn as [Hc Hn]. rewrite eqc_ne by done. simpl. by rewrite IH.
Qed.
Lemma mask_block nlc b l : no_close b → lex_mask nlc BlockC (b ++ STAR :: SLASH :: l) =
  replicate (length b) false ++ false :: false :: lex_mask nlc Code l.
Proof.
  induction b as [|c b IH]; intros Hn; [done|]. destruct Hn as [Hc Hn]. simpl.
  replace (eqc c STAR && eqc (peek (b ++ STAR :: SLASH :: l)) SLASH) with false.
  - simpl. by rewrite IH.
  - symmetry. apply andb_false_iff. destruct (decide (c = STAR)) as [->|]; [|left; by apply eqc_ne].
    right. apply eqc_ne. destruct b as [|c' b]; [done|]. intros E. apply Hc. by split.
Qed.
Lemma mask_str nlc q b l : str_body q b → lex_mask nlc (Str q) (b ++ q :: l) =
  replicate (length b) false ++ (if eqc q BSLASH && more l then lex_mask nlc (Str q) (q :: l) else false :: lex_mask nlc Code l).
Proof.
  induction 1 as [|c s Hc Hq _ IH|c s _ IH].
  - cbn [app length replicate]. destruct (eqc q BSLASH && more l) eqn:E; [done|]. simpl. rewrite E. simpl. by rewrite eqc_refl.
  - simpl. rewrite !eqc_ne by done. simpl. by rewrite IH.
  - simpl. by rewrite IH.
Qed.

(** A fragment has its mask wherever it stands. *)
Lemma frag_mask nlc s m l : frag nlc s m → lex_mask nlc Code (s ++ l) = m ++ lex_mask nlc Code l.
Proof.
  intros H. revert l. induction H as [|c s m (? & ? & ? & _) _ IH|c s m (? & ? & ? & _) ? _ IH|b s m Hb _ IH|b s m Hb _ IH|q b s m Hq Hb _ IH
    |k s1 m1 s2 m2 _ IH1 _ IH2]; intros l; cbn [app].
  - done.
  - cbn [lex_mask]. rewrite lex_code by done. by rewrite IH.
  - cbn [lex_mask]. rewrite (lex_slash nlc (peek (c :: s ++ l))) by done. rewrite lex_code by done. by rewrite IH.
  - change (lex_mask nlc Code (SLASH :: SLASH :: (b ++ NL :: s) ++ l)) with (false :: false :: lex_mask nlc LineC ((b ++ NL :: s) ++ l)).
    rewrite <- app_assoc. cbn [app]. rewrite mask_line by done. rewrite IH, <- app_assoc. done.
  - change (lex_mask nlc Code (SLASH :: STAR :: (b ++ STAR :: SLASH :: s) ++ l)) with (false :: false :: lex_mask nlc BlockC ((b ++ STAR :: SLASH :: s) ++ l)).
    rewrite <- app_assoc. cbn [app]. rewrite mask_block by done. rewrite IH, <- app_assoc. done.
  - assert (Hs : lex_mask nlc Code (q :: (b ++ q :: s) ++ l) = false :: lex_mask nlc (Str q) ((b ++ q :: s) ++ l)) by by destruct Hq as [->| ->].
    rewrite Hs, <- app_assoc. cbn [app]. rewrite mask_str by done. rewrite IH, <- app_assoc. by destruct Hq as [->| ->].
  - cbn [lex_mask]. rewrite lex_code by by destruct k. rewrite <- app_assoc, IH1. cbn [app lex_mask].
    rewrite lex_code by by destruct k. rewrite IH2, <- app_assoc. done.
Qed.
