(* ===== verification/Text.v ===== *)
(** The text helpers of [src/cc/src/util/text.h]: whitespace skipping, the
    growable string builder, slices, the comment- and string-aware scanners,
    literal emission, and the declaration parser.

    A buffer [const char* b, size_t bl] is the list of its [bl] characters and
    a NUL-terminated string the list before its NUL.  Positions are [nat]; a
    search that reports failure returns [None] or the end, as in the source. *)
From S2P Require Import Prelude Bytes Lex.
From stdpp Require Import pretty.

Implicit Types (b l s : list ascii) (p n : nat) (c : ascii).

(** * Whitespace *)

(** How far a [while (i < end && f(s[i])) i++] loop runs. *)
Fixpoint span (f : ascii → bool) l : nat :=
  match l with [] => 0 | c :: l' => if f c then S (span f l') else 0 end.
Definition cc_skip_ws s : list ascii := drop (span is_ws s) s.
Definition cc_skip_ws_len b (start : nat) : nat := start + span is_ws (drop start b).

(** * Slices *)

(** [malloc] succeeds when [ok]; the NUL terminator is implicit. *)
Definition cc_strndup (ok : bool) s n : option (list ascii) := if ok then Some (take n s) else None.
Definition cc_strndup_trim_ws (ok : bool) s n : option (list ascii) :=
  let i := span is_ws (take n s) in
  let j := n - span is_ws (reverse (drop i (take n s))) in
  let m := if decide (i < j) then j - i else 0 in
  if ok then Some (take m (drop i s)) else None.
Definition cc_dup_slice (ok : bool) b (start fin : nat) : option (list ascii) :=
  if decide (fin ≤ start) then (if ok then Some [] else None) else cc_strndup ok (drop start b) (fin - start).

(** * The string builder

    Cells that were never written are [None]. *)
Record sb := SB { sb_buf : option (list (option ascii)); sb_len : nat; sb_cap : Z }.
#[export] Instance eta_sb : Eta sb := λ r, SB (sb_buf r) (sb_len r) (sb_cap r).
Definition sb_empty : sb := SB None 0 0.

(** [while (nc < need) nc *= 2;] in 64-bit arithmetic. *)
Fixpoint grow (fuel : nat) (nc need : Z) : option Z :=
  if decide (nc < need)%Z then match fuel with O => None | S fuel' => grow fuel' (wrap64 (nc * 2)) need end else Some nc.
Definition grow_fuel : nat := 64.
Definition cells (s : sb) : list (option ascii) := default [] (sb_buf s).
(** [realloc] keeps the common prefix. *)
Definition realloc_to (nc : Z) (old : list (option ascii)) : list (option ascii) :=
  take (Z.to_nat nc) old ++ replicate (Z.to_nat nc - length old) None.
(** [memcpy(buf + at, s, n); buf[at + n] = 0]: out of bounds is undefined. *)
Definition write_at (at_ : nat) s (old : list (option ascii)) : option (list (option ascii)) :=
  if decide (at_ + length s < length old)
  then Some (take at_ old ++ (Some <$> s) ++ Some NUL :: drop (at_ + length s + 1) old) else None.

(** [realloc_ok nc]: whether [realloc(buf, nc)] succeeds. *)
Definition cc_sb_append (realloc_ok : Z → bool) s (x : sb) : option sb :=
  if decide (s = []) then Some x else
  let need := (Z.of_nat (sb_len x) + Z.of_nat (length s) + 1)%Z in
  let put (x : sb) : option sb :=
    b ← sb_buf x; b' ← write_at (sb_len x) s b; Some (x <| sb_buf := Some b' |> <| sb_len := sb_len x + length s |>) in
  if decide (sb_cap x < need)%Z then
    nc ← grow grow_fuel (if decide (sb_cap x = 0)%Z then 1024%Z else wrap64 (sb_cap x * 2)) need;
    if negb (realloc_ok nc) then Some x
    else put (x <| sb_buf := Some (realloc_to nc (cells x)) |> <| sb_cap := nc |>)
  else put x.
Definition cc_sb_append_cstr (realloc_ok : Z → bool) s (x : sb) : option sb := cc_sb_append realloc_ok s x.

(** [cc_sb_append_vfmt]: [out] is what [vsnprintf] produces ([None]: it
    failed).  A failed [realloc] leaves [*buf] NULL. *)
Fixpoint vfmt_loop (fuel : nat) (realloc_ok : Z → bool) (out : list ascii) (x : sb) : option sb :=
  match fuel with
  | O => None
  | S fuel' =>
      let avail := if decide (Z.of_nat (sb_len x) < sb_cap x)%Z then (sb_cap x - Z.of_nat (sb_len x))%Z else 0%Z in
      b ← sb_buf x;
      let n := Z.of_nat (length out) in
      if decide (n < avail)%Z then
        b' ← write_at (sb_len x) out b; Some (x <| sb_buf := Some b' |> <| sb_len := sb_len x + length out |>)
      else
        b' ← (if decide (avail = 0)%Z then Some b else write_at (sb_len x) (take (Z.to_nat avail - 1) out) b);
        let nc := ((if decide (sb_cap x = 0)%Z then 256 else sb_cap x * 2) + n + 16)%Z in
        if realloc_ok nc then vfmt_loop fuel' realloc_ok out (x <| sb_cap := nc |> <| sb_buf := Some (realloc_to nc b') |>)
        else Some (x <| sb_cap := nc |> <| sb_buf := None |>)
  end.
Definition cc_sb_append_vfmt (malloc_ok realloc_ok : Z → bool) (out : option (list ascii)) (x : sb) : option sb :=
  match sb_buf x with
  | None =>
      if malloc_ok 256%Z then
        let x := SB (Some (Some NUL :: replicate 255 None)) 0 256 in
        match out with None => Some x | Some o => vfmt_loop 2 realloc_ok o x end
      else Some (x <| sb_cap := 256%Z |>)
  | Some _ => match out with None => Some x | Some o => vfmt_loop 2 realloc_ok o x end
  end.

(** * Matching brackets *)

(** The counters [par], [brk] and [br]; a guarded decrement stops at zero. *)
Record depths := Depths { par : nat; brk : nat; br : nat }.
Definition depth_of (k : kind) (d : depths) : nat := match k with Paren => par d | Brack => brk d | Brace => br d end.
Definition set_depth (k : kind) (f : nat → nat) (d : depths) : depths :=
  match k with
  | Paren => Depths (f (par d)) (brk d) (br d)
  | Brack => Depths (par d) (f (brk d)) (br d)
  | Brace => Depths (par d) (brk d) (f (br d))
  end.
Definition no_depth : depths := Depths 0 0 0.

(** The loop of [cc_find_matching_paren] and its two siblings; [k] is the kind
    they look for. *)
Fixpoint scan_close (k : kind) (st : lex) (d : depths) (p : nat) l : option nat :=
  match l with
  | [] => None
  | c :: l' =>
      match lex_step false st c (peek l') (more l') with
      | Skip st' false => scan_close k st' d (S p) l'
      | Skip st' true => match l' with [] => None | _ :: l'' => scan_close k st' d (S (S p)) l'' end
      | IsCode =>
          match opens c, closes c with
          | Some k', _ => scan_close k Code (set_depth k' S d) (S p) l'
          | None, Some k' =>
              let d' := set_depth k' pred d in
              if decide (k' = k ∧ depth_of k d' = 0) then Some p else scan_close k Code d' (S p) l'
          | None, None => scan_close k Code d (S p) l'
          end
      end
  end.
Definition find_matching (k : kind) b (at_ : nat) : option nat :=
  match b !! at_ with
  | Some c => if decide (c = opener k) then scan_close k Code (set_depth k S no_depth) (S at_) (drop (S at_) b) else None
  | None => None
  end.
Definition cc_find_matching_paren : list ascii → nat → option nat := find_matching Paren.
Definition cc_find_matching_brace : list ascii → nat → option nat := find_matching Brace.
Definition cc_find_matching_bracket : list ascii → nat → option nat := find_matching Brack.

(** * Skipping whitespace and comments *)

(** The rest after the terminator of a block comment.  The bounded scan stops
    at the last character when there is none ([i + 1 < len] fails), the
    NUL-terminated one at the end. *)
Fixpoint after_block_bounded l : list ascii :=
  match l with
  | [] => []
  | [c] => [c]
  | c :: (c2 :: l'') as l' => if eqc c STAR && eqc c2 SLASH then l'' else after_block_bounded l'
  end.
Fixpoint after_block_cstr s : list ascii :=
  match s with
  | [] => []
  | c :: s' => if eqc c STAR && eqc (peek s') SLASH then tail s' else after_block_cstr s'
  end.
Definition to_eol l : list ascii := drop (span (λ c, negb (eqc c NL)) l) l.

Fixpoint skip_wsc (after_block : list ascii → list ascii) (fuel : nat) l : list ascii :=
  match fuel with
  | O => l
  | S fuel' =>
      match l with
      | [] => []
      | c :: l' =>
          if is_ws c then skip_wsc after_block fuel' l'
          else if eqc c SLASH && eqc (peek l') SLASH then skip_wsc after_block fuel' (to_eol (tail l'))
          else if eqc c SLASH && eqc (peek l') STAR then skip_wsc after_block fuel' (after_block (tail l'))
          else l
      end
  end.
(** Each round consumes a character, so the length is fuel enough. *)
Definition cc_skip_ws_and_comments_ptr s : list ascii := skip_wsc after_block_cstr (length s) s.
Definition skip_bounded l : list ascii := skip_wsc after_block_bounded (length l) l.
Definition cc_skip_ws_and_comments b (i : nat) : nat :=
  i + (length (drop i b) - length (skip_bounded (drop i b))).

(** * Structural search

    These search [src[start..end)]; the loops run over the list of those
    characters, [i] counting from [start]. *)
Definition range b (start fin : nat) : list ascii := take (fin - start) (drop start b).

Definition all_zero (d : depths) : bool := bool_decide (par d = 0 ∧ brk d = 0 ∧ br d = 0).
Definition adjust (c : ascii) (d : depths) : depths :=
  match opens c, closes c with
  | Some k, _ => set_depth k S d
  | None, Some k => set_depth k pred d
  | None, None => d
  end.
Fixpoint find_char_loop (ch : ascii) (st : lex) (d : depths) (i : nat) l : option nat :=
  match l with
  | [] => None
  | c :: l' =>
      match lex_step true st c (peek l') (more l') with
      | Skip st' false => find_char_loop ch st' d (S i) l'
      | Skip st' true => match l' with [] => None | _ :: l'' => find_char_loop ch st' d (S (S i)) l'' end
      | IsCode => if all_zero d && eqc c ch then Some i else find_char_loop ch Code (adjust c d) (S i) l'
      end
  end.
Definition cc_find_char_top_level b (start fin : nat) (ch : ascii) : nat :=
  if decide (fin ≤ start) then fin else
  match find_char_loop ch Code no_depth 0 (range b start fin) with Some i => start + i | None => fin end.

(** The word test of [cc_find_ident_top_level]; [prev] is [src[p - 1]] when
    [p > start]. *)
Fixpoint find_word_loop (word : bool) (name : list ascii) (prev : option ascii) (st : lex) (i : nat) l : option nat :=
  match l with
  | [] => None
  | c :: l' =>
      if decide (length l < length name) then None else
      match lex_step false st c (peek l') (more l') with
      | Skip st' false => find_word_loop word name (Some c) st' (S i) l'
      | Skip st' true => match l' with [] => None | c' :: l'' => find_word_loop word name (Some c') st' (S (S i)) l'' end
      | IsCode =>
          if decide (take (length name) l ≠ name) then find_word_loop word name (Some c) Code (S i) l'
          else if word && match prev with Some x => cc_is_ident_char x | None => false end
          then find_word_loop word name (Some c) Code (S i) l'
          else if word && match l !! length name with Some x => cc_is_ident_char x | None => false end
          then find_word_loop word name (Some c) Code (S i) l'
          else Some i
      end
  end.
Definition find_word (word : bool) b (start fin : nat) (name : list ascii) : nat :=
  if decide (name = [] ∨ fin < start + length name) then fin else
  match find_word_loop word name None Code 0 (range b start fin) with Some i => start + i | None => fin end.
Definition cc_find_ident_top_level : list ascii → nat → nat → list ascii → nat := find_word true.
Definition cc_find_substr_top_level : list ascii → nat → nat → list ascii → nat := find_word false.
Definition cc_contains_token_top_level b (needle : list ascii) : bool :=
  if decide (needle = []) then false
  else bool_decide (cc_find_substr_top_level b 0 (length b) needle < length b).

Fixpoint contains_loop (tok : list ascii) (prev : option ascii) l : bool :=
  match l with
  | [] => false
  | c :: l' =>
      if decide (length l < length tok) then false
      else if decide (take (length tok) l ≠ tok) then contains_loop tok (Some c) l'
      else if match prev with Some x => cc_is_ident_char x | None => false end then contains_loop tok (Some c) l'
      else if match l !! length tok with Some x => cc_is_ident_char x | None => false end then contains_loop tok (Some c) l'
      else true
  end.
Definition cc_range_contains_token s (tok : list ascii) : bool :=
  if decide (tok = [] ∨ length s < length tok) then false else contains_loop tok None s.

(** ** Backward search *)

(** The forward prepass: [true] marks a comment or literal byte. *)
Fixpoint mask_loop (st : lex) l : list bool :=
  match l with
  | [] => []
  | c :: l' =>
      let two (st' : lex) := true :: match l' with [] => [] | _ :: l'' => true :: mask_loop st' l'' end in
      match st with
      | LineC => if eqc c NL then false :: mask_loop Code l' else true :: mask_loop LineC l'
      | BlockC => if eqc c STAR && eqc (peek l') SLASH then two Code else true :: mask_loop BlockC l'
      | Str q =>
          if eqc c BSLASH && more l' then two (Str q)
          else true :: mask_loop (if eqc c q then Code else Str q) l'
      | Code =>
          if eqc c SLASH && eqc (peek l') SLASH then two LineC
          else if eqc c SLASH && eqc (peek l') STAR then two BlockC
          else if eqc c DQ || eqc c SQ then true :: mask_loop (Str c) l'
          else false :: mask_loop Code l'
      end
  end.
(** The backward scan over the reversed bytes and mask; [i] is the number of
    bytes still to the left, so a hit at byte [i - 1] is the position [i]. *)
Fixpoint rscan (delims : list ascii) (d : depths) (rl : list (ascii * bool)) : option nat :=
  match rl with
  | [] => None
  | (c, masked) :: rl' =>
      let here := S (length rl') in
      if (masked : bool) then rscan delims d rl'
      else if eqc c RPAR then rscan delims (set_depth Paren S d) rl'
      else if eqc c LPAR then
        if decide (par d = 0) then Some here else rscan delims (set_depth Paren pred d) rl'
      else if eqc c RBRK then rscan delims (set_depth Brack S d) rl'
      else if eqc c LBRK then rscan delims (set_depth Brack pred d) rl'
      else if eqc c RBR then rscan delims (set_depth Brace S d) rl'
      else if eqc c LBR && negb (bool_decide (br d = 0)) then rscan delims (set_depth Brace pred d) rl'
      else if all_zero d && bool_decide (c ∈ delims) then Some here
      else rscan delims d rl'
  end.
(** The naive scan used beyond 2^20 bytes. *)
Fixpoint rscan_naive (delims : list ascii) (rl : list ascii) : nat :=
  match rl with
  | [] => 0
  | c :: rl' => if bool_decide (c ∈ delims) then S (length rl') else rscan_naive delims rl'
  end.
Definition cc_rfind_char_top_level (malloc_ok : bool) b (start fin : nat) (delims : list ascii) : nat :=
  if decide (fin ≤ start) then start else
  let l := range b start fin in
  let skip_blanks (i : nat) := start + (i + span is_blank (drop i l)) in
  let sp := Z.of_nat (fin - start) in
  if decide (2 ^ 20 < sp)%Z then skip_blanks (rscan_naive delims (reverse l))
  else if decide (1024 < sp)%Z then
    if malloc_ok then skip_blanks (default 0 (rscan delims no_depth (reverse (zip l (mask_loop Code l))))) else skip_blanks 0
  else skip_blanks (default 0 (rscan delims no_depth (reverse (zip l (mask_loop Code l))))).

(** * Emitting C string literals *)

Definition is_space6 (c : ascii) : bool := is_ws c || eqc c VT || eqc c FF.
(** The loop filling [tmp[256]]; [w] is the reversed content.  Returns it with
    the truncation flag; [None] would be a write past the buffer. *)
Fixpoint lit_loop (prev_space : bool) (w : list ascii) l : option (list ascii * bool) :=
  match l with
  | [] => Some (w, false)
  | c :: l' =>
      let put (xs : list ascii) (k : list ascii → option (list ascii * bool)) :=
        if decide (length w + length xs ≤ 256) then k (reverse xs ++ w) else None in
      if decide (256 ≤ length w + 3) then Some (w, false)
      else if is_space6 c then
        if negb prev_space && more w then put [SP] (λ w', lit_loop true w' l') else lit_loop prev_space w l'
      else if decide (160 ≤ length w) then Some (w, true)
      else if eqc c BSLASH || eqc c DQ then
        if decide (256 ≤ length w + 2) then Some (w, true)
        else put [BSLASH; c] (λ w', lit_loop false w' l')
      else if (N_of_ascii c <? 32)%N || (N_of_ascii c =? 127)%N then put [chr 63] (λ w', lit_loop false w' l')
      else put [c] (λ w', lit_loop false w' l')
  end.
Fixpoint drop_spaces (w : list ascii) : list ascii :=
  match w with c :: w' => if eqc c SP then drop_spaces w' else w | [] => [] end.
Definition dots : list ascii := txt "...".
(** The sequence of appends; [src] is [None] for a NULL source. *)
Definition cc_sb_append_c_string_literal (rok : Z → bool) (src : option (list ascii)) (a b : nat) (x : sb) : option sb :=
  x ← cc_sb_append rok [DQ] x;
  x ← match src with
      | Some s =>
          if decide (a < b) then
            '(w, truncated) ← lit_loop false [] (range s a b);
            x ← cc_sb_append rok (reverse (drop_spaces w)) x;
            if (truncated : bool) then cc_sb_append rok dots x else Some x
          else Some x
      | None => Some x
      end;
  cc_sb_append rok [DQ] x.

(** [snprintf("%d", line)] *)
Definition dec (z : Z) : list ascii := txt (pretty z).
Definition location_args (rok : Z → bool) (src : option (list ascii)) (a b : nat) (file : option (list ascii)) (line : Z) (x : sb) : option sb :=
  x ← cc_sb_append_c_string_literal rok src a b x;
  x ← cc_sb_append rok (txt ", ") x;
  let f := default (txt "<input>") file in
  x ← cc_sb_append_c_string_literal rok (Some f) 0 (length f) x;
  x ← cc_sb_append rok (txt ", " ++ [DQ]) x;
  x ← cc_sb_append rok (dec line) x;
  cc_sb_append rok (DQ :: txt ")") x.
Definition cc_sb_append_err_null_at (rok : Z → bool) src (a b : nat) file (line : Z) (x : sb) : option sb :=
  x ← cc_sb_append rok (txt "__cc_err_null_at(") x; location_args rok src a b file line x.
Definition cc_sb_append_uw_err_at (rok : Z → bool) (tmpv : list ascii) src (a b : nat) file (line : Z) (x : sb) : option sb :=
  x ← cc_sb_append rok (txt "__cc_uw_err_at(") x;
  x ← cc_sb_append rok tmpv x;
  x ← cc_sb_append rok (txt ", ") x;
  location_args rok src a b file line x.

(** * Declarations *)

Definition cc_is_non_decl_stmt_type (t : list ascii) : bool :=
  bool_decide (t ∈ txt <$> ["return"; "break"; "continue"; "goto"; "case"; "default"]%string).

(** The string literal skipping of the declaration parser. *)
Fixpoint after_str (q : ascii) l : list ascii :=
  match l with
  | [] => []
  | c :: l' =>
      if eqc c BSLASH && more l' then match l' with [] => [] | _ :: l'' => after_str q l'' end
      else if eqc c q then l' else after_str q l'
  end.
(** The last identifier before [=] or [;], as its suffix and its length. *)
Fixpoint last_ident (fuel : nat) (name : option (list ascii * nat)) l : option (list ascii * nat) :=
  match fuel with
  | O => name
  | S fuel' =>
      match l with
      | [] => name
      | c :: l' =>
          if eqc c SLASH && eqc (peek l') SLASH then last_ident fuel' name (to_eol (tail l'))
          else if eqc c SLASH && eqc (peek l') STAR then last_ident fuel' name (after_block_bounded (tail l'))
          else if eqc c DQ || eqc c SQ then last_ident fuel' name (after_str c l')
          else if eqc c (chr 61) || eqc c (chr 59) then name
          else if negb (cc_is_ident_start c) then last_ident fuel' name l'
          else let n := S (span cc_is_ident_char l') in last_ident fuel' (Some (l, n)) (drop n l)
      end
  end.
(** The check loop: positions of the first [=] and [(], or [None] when a field
    access makes it no declaration.  [prev] is [t[-1]] when [t > p]. *)
Fixpoint decl_check (fuel : nat) (i : nat) (prev : option ascii) (eq lp : option nat) l : option (option nat * option nat) :=
  match fuel with
  | O => Some (eq, lp)
  | S fuel' =>
      match l with
      | [] => Some (eq, lp)
      | c :: l' =>
          if eqc c SLASH && eqc (peek l') SLASH then
            let r := to_eol (tail l') in
            match r with
            | [] => Some (eq, lp)
            | _ :: r' => decl_check fuel' (i + (length l - length r')) (head r) eq lp r'
            end
          else if eqc c SLASH && eqc (peek l') STAR then
            let r := after_block_cstr (tail l') in
            decl_check fuel' (i + (length l - length r)) (Some SLASH) eq lp r
          else
            let eq := if eqc c (chr 61) && negb (bool_decide (is_Some eq)) then Some i else eq in
            let lp := if eqc c LPAR && negb (bool_decide (is_Some lp)) then Some i else lp in
            if eqc c (chr 46) || (eqc c (chr 62) && bool_decide (prev = Some (chr 45))) then None
            else decl_check fuel' (S i) (Some c) eq lp l'
      end
  end.

(** [while (macro_start > p && ident(macro_start[-1])) macro_start--] on the
    text before [lp], then the [__CC_] test. *)
Definition macro_prefix_ok (before_lp : list ascii) : bool :=
  let m := reverse (take (span cc_is_ident_char (reverse before_lp)) (reverse before_lp)) in
  bool_decide (5 ≤ length m ∧ take 5 m = txt "__CC_").
Definition trim l : list ascii :=
  let l := drop (span is_ws l) l in reverse (drop (span is_ws (reverse l)) (reverse l)).
(** [memcpy] into a buffer of [sz] bytes, truncated to [sz - 1]. *)
Definition fit (sz : nat) l : list ascii := take (sz - 1) l.

(** [cc_parse_decl_name_and_type] on the text [stmt .. stmt_end): the contents
    of [out_name] and [out_type] (both empty when it is no declaration). *)
Definition cc_parse_decl_name_and_type stmt (name_sz type_sz : nat) : list ascii * list ascii :=
  let none := ([], []) in
  let p := skip_bounded stmt in
  match last_ident (length p) None p with
  | None => none
  | Some (name_l, name_n) =>
      let before := take (length p - length name_l) p in
      let after := drop name_n name_l in
      match decl_check (length p) 0 None None None p with
      | None => none
      | Some (eq, lp) =>
          let after := drop (span is_ws after) after in
          let after_ok := match after with [] => true | c :: _ => eqc c (chr 61) || eqc c (chr 59) || eqc c LBRK end in
          if negb after_ok then none else
          let lp_ok := match lp with
                       | Some i =>
                           if bool_decide (i < length before) && match eq with None => true | Some e => bool_decide (i < e) end
                           then macro_prefix_ok (take i p) else true
                       | None => true
                       end in
          if negb lp_ok then none else
          let ty := trim before in
          if decide (ty = []) then none
          else (fit name_sz (take name_n name_l), fit type_sz ty)
      end
  end.
