(* ===== verification/TextScan.v ===== *)
(** The scanners of [Text] against the reference view of [Lex]: bracket
    matching is counting over code characters, and every search returns the
    first position with the property it looks for. *)
From S2P Require Import Prelude Bytes Lex Text.

Local Open Scope Z_scope.
Implicit Types (b l s : list ascii) (c : ascii) (cl : list (ascii * bool)) (k : kind).

(** * Definitions *)

(** A text with its code characters marked. *)
Definition marked (nlc : bool) (st : lex) l : list (ascii * bool) := zip l (lex_mask nlc st l).
(** What a marked character adds to the depth of [k]. *)
Definition weight k (x : ascii * bool) : Z :=
  if x.2 then if decide (x.1 = opener k) then 1 else if decide (x.1 = closer k) then -1 else 0 else 0.
Fixpoint bal k cl : Z := match cl with [] => 0 | x :: cl' => weight k x + bal k cl' end.

(** The closer of a group entered at depth [n]: the first code closer that
    brings the depth to zero. *)
Definition closes_at k (n : Z) cl (i : nat) : Prop :=
  cl !! i = Some (closer k, true) ∧ n + bal k (take i cl) = 1 ∧ ∀ j, (j ≤ i)%nat → 0 < n + bal k (take j cl).

(** The same as a function. *)
Fixpoint ref_close k (n : nat) cl : option nat :=
  match cl with
  | [] => None
  | (c, m) :: cl' =>
      if m && eqc c (closer k) then if decide (n = 1%nat) then Some 0%nat else S <$> ref_close k (pred n) cl'
      else if m && eqc c (opener k) then S <$> ref_close k (S n) cl'
      else S <$> ref_close k n cl'
  end.

(** Balanced, and never below its start. *)
Definition good k cl : Prop := bal k cl = 0 ∧ ∀ j, 0 ≤ bal k (take j cl).

(** * Lemmas *)

Lemma list_len_ind {A} (P : list A → Prop) :
  (∀ x : list A, (∀ y : list A, (length y < length x)%nat → P y) → P x) → ∀ x : list A, P x.
Proof. intros H l. remember (length l) as n eqn:E. revert l E. induction (lt_wf n) as [n _ IH]. intros l ->. apply H. eauto. Qed.

(** The reference view unfolds along the loop of every scanner. *)
Lemma marked_cons nlc st c l :
  marked nlc st (c :: l) =
  match lex_step nlc st c (peek l) (more l) with
  | Skip st' false => (c, false) :: marked nlc st' l
  | Skip st' true => (c, false) :: match l with [] => [] | c' :: l' => (c', false) :: marked nlc st' l' end
  | IsCode => (c, true) :: marked nlc Code l
  end.
Proof.
  unfold marked. simpl. destruct (lex_step nlc st c (peek l) (more l)) as [st' []|]; try done. simpl. by destruct l.
Qed.
Lemma marked_length nlc st l : length (marked nlc st l) = length l.
Proof. unfold marked. rewrite length_zip, lex_mask_length. lia. Qed.

Lemma bal_app k cl1 cl2 : bal k (cl1 ++ cl2) = bal k cl1 + bal k cl2.
Proof. induction cl1; simpl; lia. Qed.

Lemma closes_at_0 k n c m cl :
  closes_at k n ((c, m) :: cl) 0 ↔ c = closer k ∧ m = true ∧ n = 1.
Proof.
  unfold closes_at. simpl. split.
  - intros ([= -> ->] & ? & _). lia || (split_and!; [done|done|lia]).
  - intros (-> & -> & ->). split_and!; [done|lia|]. intros j Hj. replace j with 0%nat by lia. simpl. lia.
Qed.
Lemma closes_at_S k n x cl i :
  closes_at k n (x :: cl) (S i) ↔ 0 < n ∧ closes_at k (n + weight k x) cl i.
Proof.
  unfold closes_at. simpl. split.
  - intros (H1 & H2 & H3). split_and!; [specialize (H3 0%nat); simpl in H3; lia|done|lia|].
    intros j Hj. specialize (H3 (S j)). simpl in H3. lia.
  - intros (H0 & H1 & H2 & H3). split_and!; [done|lia|].
    intros [|j] Hj; simpl; [lia|]. specialize (H3 j). lia.
Qed.

Lemma opener_ne_closer k k' : opener k ≠ closer k'.
Proof. by destruct k, k'. Qed.
Lemma opener_inj k k' : opener k = opener k' → k = k'.
Proof. by destruct k, k'. Qed.
Lemma closer_inj k k' : closer k = closer k' → k = k'.
Proof. by destruct k, k'. Qed.
Lemma weight_code k c :
  weight k (c, true) = match opens c, closes c with
                       | Some k', _ => if decide (k' = k) then 1 else 0
                       | None, Some k' => if decide (k' = k) then -1 else 0
                       | None, None => 0
                       end.
Proof.
  unfold weight. simpl. destruct (opens c) as [k'|] eqn:Eo; [|destruct (closes c) as [k'|] eqn:Ec].
  - apply opens_Some in Eo as ->. by destruct k, k'.
  - apply closes_Some in Ec as ->. by destruct k, k'.
  - rewrite !decide_False; [done|intros ->; by destruct k|intros ->; by destruct k].
Qed.

Lemma depth_set_same k f d : depth_of k (set_depth k f d) = f (depth_of k d).
Proof. by destruct k. Qed.
Lemma depth_set_other k k' f d : k' ≠ k → depth_of k (set_depth k' f d) = depth_of k d.
Proof. by destruct k, k'. Qed.

(** ** Bracket matching *)

Lemma shift_S (p : nat) (o : option nat) : (λ i, (p + i)%nat) <$> (S <$> o) = (λ i, (S p + i)%nat) <$> o.
Proof. destruct o; simpl; [|done]. f_equal. lia. Qed.

Lemma scan_close_ref k st d p l :
  (0 < depth_of k d)%nat →
  scan_close k st d p l = (λ i, (p + i)%nat) <$> ref_close k (depth_of k d) (marked false st l).
Proof.
  revert st d p. induction l as [l IH] using list_len_ind. intros st d p Hd.
  destruct l as [|c l]; [done|]. rewrite marked_cons. simpl scan_close.
  destruct (lex_step false st c (peek l) (more l)) as [st' []|].
  - destruct l as [|c' l]; [done|]. cbn [ref_close andb]. rewrite !shift_S. apply IH; [simpl; lia|done].
  - cbn [ref_close andb]. rewrite shift_S. apply IH; [simpl; lia|done].
  - cbn [ref_close andb]. destruct (opens c) as [k'|] eqn:Eo; [|destruct (closes c) as [k'|] eqn:Ec].
    + apply opens_Some in Eo as ->. rewrite (eqc_ne (opener k')) by apply opener_ne_closer.
      destruct (decide (k' = k)) as [->|Hne].
      * rewrite eqc_refl, shift_S, IH by (simpl; rewrite ?depth_set_same; lia). by rewrite depth_set_same.
      * rewrite eqc_ne by (by intros ?%opener_inj). rewrite shift_S, IH by (simpl; rewrite ?depth_set_other by done; lia).
        by rewrite depth_set_other.
    + apply closes_Some in Ec as ->. destruct (decide (k' = k)) as [->|Hne].
      * rewrite eqc_refl, depth_set_same. destruct (decide (depth_of k d = 1%nat)) as [E|Hn1].
        -- rewrite decide_True by (split; [done|lia]). simpl. f_equal. lia.
        -- rewrite decide_False by (intros [_ ?]; lia). rewrite shift_S, IH by (simpl; rewrite ?depth_set_same; lia). by rewrite depth_set_same.
      * rewrite !eqc_ne by (intros E; first [by apply closer_inj in E|by eapply opener_ne_closer]).
        rewrite decide_False by (by intros [? _]). rewrite shift_S, IH by (simpl; rewrite ?depth_set_other by done; lia).
        by rewrite depth_set_other.
    + rewrite !eqc_ne by (intros ->; by destruct k). rewrite shift_S. apply IH; [simpl; lia|done].
Qed.

Lemma ref_close_spec k n cl i : (0 < n)%nat → ref_close k n cl = Some i ↔ closes_at k (Z.of_nat n) cl i.
Proof.
  revert n i. induction cl as [|[c m] cl IH]; intros n i Hn; [split; [done|]; by intros [? _]|].
  assert (Hrec : ∀ n', Z.of_nat n' = Z.of_nat n + weight k (c, m) → (0 < n')%nat → ¬ closes_at k (Z.of_nat n) ((c, m) :: cl) 0 →
    S <$> ref_close k n' cl = Some i ↔ closes_at k (Z.of_nat n) ((c, m) :: cl) i).
  { intros n' Hw Hn' H0. rewrite fmap_Some. split.
    - intros (j & Hj & ->). apply closes_at_S. split; [lia|]. rewrite <- Hw. by apply IH.
    - destruct i as [|j]; [done|]. intros [_ Hj]%closes_at_S. exists j. split; [|done]. apply IH; [done|]. by rewrite Hw. }
  simpl. destruct m; simpl.
  - unfold eqc. case_bool_decide as Hc; [|case_bool_decide as Ho].
    + subst c. case_decide as Hn1.
      * subst n. split; [intros [= <-]; by apply closes_at_0|]. destruct i as [|j]; [done|].
        intros [_ (_ & _ & H)]%closes_at_S. specialize (H 0%nat ltac:(lia)). unfold weight in H. simpl in H.
        rewrite decide_False in H by (intros ?; by eapply opener_ne_closer). rewrite decide_True in H by done. lia.
      * apply Hrec; [|lia|rewrite closes_at_0; lia]. unfold weight. simpl.
        rewrite decide_False by (intros ?; by eapply opener_ne_closer). rewrite decide_True by done. lia.
    + apply Hrec; [|lia|rewrite closes_at_0; naive_solver]. unfold weight. simpl. rewrite decide_True by done. lia.
    + apply Hrec; [|lia|rewrite closes_at_0; naive_solver]. unfold weight. simpl. rewrite !decide_False by done. lia.
  - apply Hrec; [unfold weight; simpl; lia|lia|rewrite closes_at_0; naive_solver].
Qed.

Lemma find_matching_spec k b at_ r :
  find_matching k b at_ = Some r ↔
  b !! at_ = Some (opener k) ∧ ∃ i, r = (S at_ + i)%nat ∧ closes_at k 1 (marked false Code (drop (S at_) b)) i.
Proof.
  unfold find_matching. destruct (b !! at_) as [c|]; [|naive_solver]. case_decide as Hc; [subst c|naive_solver].
  rewrite scan_close_ref by (rewrite depth_set_same; lia).
  assert (Hd : depth_of k (set_depth k S no_depth) = 1%nat) by by destruct k. rewrite Hd, fmap_Some.
  setoid_rewrite ref_close_spec; [|lia]. naive_solver.
Qed.

(** ** Fragments are balanced *)

Lemma good_app k cl1 cl2 : good k cl1 → good k cl2 → good k (cl1 ++ cl2).
Proof.
  intros [H1 H1'] [H2 H2']. split; [rewrite bal_app; lia|]. intros j.
  rewrite take_app, bal_app. specialize (H2' (j - length cl1)%nat). specialize (H1' j). lia.
Qed.
Lemma good_zero k cl : Forall (λ x, weight k x = 0) cl → good k cl.
Proof.
  intros H. assert (Hz : ∀ cl', Forall (λ x, weight k x = 0) cl' → bal k cl' = 0) by (induction 1; simpl; lia).
  split; [by apply Hz|]. intros j. rewrite Hz; [lia|]. by apply Forall_take.
Qed.
Lemma good_group k k' cl : good k cl → good k ((opener k', true) :: cl ++ [(closer k', true)]).
Proof.
  intros [H1 H2]. split.
  - simpl. rewrite bal_app. simpl. rewrite !weight_code, opens_opener, opens_closer, closes_closer. case_decide; lia.
  - intros [|j]; [done|]. simpl. rewrite take_app, bal_app. specialize (H2 j).
    assert (0 ≤ weight k (opener k', true) + bal k (take (j - length cl) [(closer k', true)])); [|lia].
    destruct (j - length cl)%nat as [|j']; cbn [take bal]; rewrite ?firstn_nil; simpl;
      rewrite ?weight_code, ?opens_opener, ?opens_closer, ?closes_closer; case_decide; lia.
Qed.
Lemma frag_length nlc s m : frag nlc s m → length m = length s.
Proof. induction 1; simpl; rewrite ?length_app, ?length_replicate; simpl; rewrite ?length_app, ?length_replicate; simpl; lia. Qed.
Lemma zip_false s : Forall (λ x, x.2 = false) (zip s (replicate (length s) false)).
Proof. induction s; simpl; by constructor. Qed.
Lemma weight_false k x : x.2 = false → weight k x = 0.
Proof. destruct x as [c m]. simpl. by intros ->. Qed.
Lemma good_false k cl : Forall (λ x, x.2 = false) cl → good k cl.
Proof. intros H. apply good_zero. eapply Forall_impl; [done|]. intros ? ?. by apply weight_false. Qed.
Lemma good_false_zip k s cl1 cl cl2 :
  Forall (λ x, x.2 = false) cl1 → Forall (λ x, weight k x = 0) cl2 → good k cl →
  good k (cl1 ++ zip s (replicate (length s) false) ++ cl2 ++ cl).
Proof.
  intros H1 H2 H3. apply good_app; [by apply good_false|]. apply good_app; [apply good_false, zip_false|].
  apply good_app; [by apply good_zero|done].
Qed.
Lemma weight_plain k c m : plain c → weight k (c, m) = 0.
Proof. intros (_ & _ & _ & Ho & Hc). destruct m; [|done]. by rewrite weight_code, Ho, Hc. Qed.
Lemma weight_nl k m : weight k (NL, m) = 0.
Proof. by destruct m, k. Qed.

Lemma frag_good nlc s m k : frag nlc s m → good k (zip s m).
Proof.
  induction 1 as [|c s m Hc _ IH|c s m Hc ? _ IH|b s m Hb _ IH|b s m Hb _ IH|q b s m Hq Hb _ IH
    |k' s1 m1 s2 m2 H1 IH1 _ IH2].
  - by split; [|intros []].
  - apply (good_app k [(c, true)]); [|done]. apply good_zero. repeat constructor. by apply weight_plain.
  - apply (good_app k [(SLASH, true); (c, true)]); [|done]. apply good_zero. repeat constructor; [by destruct k|by apply weight_plain].
  - simpl. rewrite zip_with_app by by rewrite length_replicate. simpl.
    apply (good_false_zip k b [_; _] (zip s m) [(NL, nlc)]); [by repeat constructor| |done]. repeat constructor. apply weight_nl.
  - simpl. rewrite zip_with_app by by rewrite length_replicate. simpl.
    by apply (good_false_zip k b [_; _] (zip s m) [(STAR, false); (SLASH, false)]); [repeat constructor|repeat constructor|].
  - simpl. rewrite zip_with_app by by rewrite length_replicate. simpl.
    by apply (good_false_zip k b [_] (zip s m) [(q, false)]); [repeat constructor|repeat constructor|].
  - simpl. rewrite zip_with_app by by rewrite (frag_length _ _ _ H1). simpl.
    change ((opener k', true) :: zip s1 m1 ++ (closer k', true) :: zip s2 m2) with
      ((opener k', true) :: zip s1 m1 ++ [(closer k', true)] ++ zip s2 m2).
    rewrite app_assoc, app_comm_cons. apply good_app; [by apply good_group|done].
Qed.

(** The closer of a group around a fragment. *)
Lemma find_matching_frag k pre s m rest :
  frag false s m → find_matching k (pre ++ opener k :: s ++ closer k :: rest) (length pre) = Some (S (length pre) + length s)%nat.
Proof.
  intros Hf. apply find_matching_spec. split; [by rewrite list_lookup_middle|].
  exists (length s). split; [done|].
  assert (Hd : drop (S (length pre)) (pre ++ opener k :: s ++ closer k :: rest) = s ++ closer k :: rest).
  { change (opener k :: s ++ closer k :: rest) with ([opener k] ++ s ++ closer k :: rest). rewrite app_assoc.
    apply drop_app_length'. rewrite length_app. simpl. lia. }
  rewrite Hd. unfold marked. rewrite (frag_mask false s m) by done. cbn [lex_mask].
  rewrite lex_code by by destruct k. rewrite zip_with_app by by rewrite (frag_length _ _ _ Hf). simpl.
  destruct (frag_good false s m k Hf) as [Hg Hg']. assert (Hl : length (zip s m) = length s).
  { rewrite length_zip, (frag_length _ _ _ Hf). lia. }
  split_and!.
  - rewrite <- Hl. by apply list_lookup_middle.
  - rewrite take_app_length' by done. lia.
  - intros j Hj. rewrite take_app_le by lia. specialize (Hg' j). lia.
Qed.
