(* ===== verification/TextFind.v ===== *)
(** The forward and backward searches of [Text]: each returns the first (or
    last) position with the property it looks for. *)
From S2P Require Import Prelude Bytes Lex Text TextScan.

Implicit Types (b l s : list ascii) (c : ascii) (cl : list (ascii * bool)) (k : kind).

(** * Definitions *)

(** The least number with a property, if there is one. *)
Definition least (P : nat → Prop) (o : option nat) : Prop :=
  match o with Some i => P i ∧ ∀ j, j < i → ¬ P j | None => ∀ j, ¬ P j end.

(** The counters after the code characters of a marked text. *)
Fixpoint depths_run (d : depths) cl : depths :=
  match cl with [] => d | (c, m) :: cl' => depths_run (if (m : bool) then adjust c d else d) cl' end.
(** [ch] as code outside all brackets, at [i]. *)
Definition top_level_at (ch : ascii) (d : depths) cl (i : nat) : Prop :=
  cl !! i = Some (ch, true) ∧ all_zero (depths_run d (take i cl)) = true.

(** [name] at [i], as code, with identifier boundaries when [word]. *)
Definition word_at (word : bool) (name : list ascii) (prev : option ascii) l cl (i : nat) : Prop :=
  (∃ c, cl !! i = Some (c, true)) ∧ take (length name) (drop i l) = name ∧
  (word = true → ∀ x, (match i with O => prev | S i' => l !! i' end) = Some x → cc_is_ident_char x = false) ∧
  (word = true → ∀ x, l !! (i + length name) = Some x → cc_is_ident_char x = false).

(** * Lemmas *)

Lemma least_shift (P : nat → Prop) (o : option nat) :
  ¬ P 0 → least (λ i, P (S i)) o → least P (S <$> o).
Proof.
  intros H0. destruct o as [i|]; simpl.
  - intros [Hi Hm]. split; [done|]. intros [|j] Hj; [done|]. apply Hm. lia.
  - intros Hn [|j]; [done|]. apply Hn.
Qed.
Lemma least_unique (P Q : nat → Prop) o : (∀ i, P i ↔ Q i) → least P o → least Q o.
Proof. intros HPQ. destruct o; simpl; [|intros Hn j; rewrite <- HPQ; apply Hn]. intros [? Hm]. split; [by apply HPQ|]. intros j Hj. rewrite <- HPQ. by apply Hm. Qed.

Lemma find_char_shift ch st d i l : find_char_loop ch st d i l = (λ j, i + j) <$> find_char_loop ch st d 0 l.
Proof.
  revert st d i. induction l as [l IH] using list_len_ind. intros st d i. destruct l as [|c l]; [done|]. simpl.
  destruct (lex_step true st c (peek l) (more l)) as [st' []|].
  - destruct l as [|c' l]; [done|]. rewrite (IH l ltac:(simpl; lia) st' d (S (S i))), (IH l ltac:(simpl; lia) st' d 2).
    rewrite <- option_fmap_compose. apply option_fmap_ext. intros j. simpl. lia.
  - rewrite (IH l ltac:(simpl; lia) st' d (S i)), (IH l ltac:(simpl; lia) st' d 1).
    rewrite <- option_fmap_compose. apply option_fmap_ext. intros j. simpl. lia.
  - destruct (all_zero d && eqc c ch); [simpl; f_equal; lia|].
    rewrite (IH l ltac:(simpl; lia) Code _ (S i)), (IH l ltac:(simpl; lia) Code _ 1).
    rewrite <- option_fmap_compose. apply option_fmap_ext. intros j. simpl. lia.
Qed.

Lemma find_char_least ch st d l :
  least (top_level_at ch d (marked true st l)) (find_char_loop ch st d 0 l).
Proof.
  revert st d. induction l as [l IH] using list_len_ind. intros st d. destruct l as [|c l]; [by intros j [? _]|].
  rewrite marked_cons. simpl find_char_loop.
  assert (Hnot : ∀ c' cl, ¬ top_level_at ch d ((c', false) :: cl) 0) by by intros c' cl [? _].
  destruct (lex_step true st c (peek l) (more l)) as [st' []|].
  - destruct l as [|c' l]; [simpl; intros [|j] [? _]; [done|done]|].
    rewrite find_char_shift. change (λ j, 2 + j) with (S ∘ S). rewrite option_fmap_compose.
    apply least_shift; [done|]. eapply least_unique; [|apply (least_shift (top_level_at ch d ((c', false) :: marked true st' l))); [done|]].
    + intros i. unfold top_level_at. done.
    + eapply least_unique; [|apply (IH l); simpl; lia]. done.
  - rewrite find_char_shift. change (λ j, 1 + j) with S. apply least_shift; [done|].
    eapply least_unique; [|apply (IH l); simpl; lia]. done.
  - destruct (all_zero d && eqc c ch) eqn:E.
    + apply andb_true_iff in E as [? ->%eqc_true]. split; [by split|]. intros j Hj. lia.
    + rewrite find_char_shift. change (λ j, 1 + j) with S. apply least_shift.
      * intros [[= ->] Hz]. simpl in Hz. by rewrite Hz, eqc_refl in E.
      * eapply least_unique; [|apply (IH l); simpl; lia]. done.
Qed.

Lemma find_word_shift word name prev st i l :
  find_word_loop word name prev st i l = (λ j, i + j) <$> find_word_loop word name prev st 0 l.
Proof.
  revert prev st i. induction l as [l IH] using list_len_ind. intros prev st i. destruct l as [|c l]; [done|].
  assert (Hrec : ∀ pv st' n l', length l' < length (c :: l) →
    find_word_loop word name pv st' (n + i) l' = (λ j, i + j) <$> find_word_loop word name pv st' n l').
  { intros pv st' n l' Hl. rewrite (IH l' Hl pv st' (n + i)), (IH l' Hl pv st' n), <- option_fmap_compose.
    apply option_fmap_ext. intros j. simpl. lia. }
  cbn [find_word_loop]. case_decide; [done|]. destruct (lex_step false st c (peek l) (more l)) as [st' []|].
  - destruct l as [|c' l]; [done|]. apply (Hrec _ _ 2). simpl. lia.
  - apply (Hrec _ _ 1). simpl. lia.
  - repeat (case_match; try (apply (Hrec _ _ 1); simpl; lia)); simpl; f_equal; lia.
Qed.

Lemma word_at_S word name prev c l m cl i :
  word_at word name prev (c :: l) ((c, m) :: cl) (S i) ↔ word_at word name (Some c) l cl i.
Proof. unfold word_at. simpl. by destruct i. Qed.
Lemma word_at_short word name prev l cl i : length l < length name → ¬ word_at word name prev l cl i.
Proof. intros Hl (_ & Ht & _). apply (f_equal length) in Ht. rewrite length_take, length_drop in Ht. lia. Qed.

Lemma find_word_least word name prev st l :
  name ≠ [] → least (word_at word name prev l (marked false st l)) (find_word_loop word name prev st 0 l).
Proof.
  intros Hname. revert prev st. induction l as [l IH] using list_len_ind. intros prev st.
  destruct l as [|c l]; [by intros j ((? & ?) & _)|].
  destruct (decide (length (c :: l) < length name)) as [Hs|Hs].
  { cbn [find_word_loop]. rewrite decide_True by done. intros j. by apply word_at_short. }
  assert (Hnext : ∀ m st', lex_step false st c (peek l) (more l) = (if (m : bool) then IsCode else Skip st' false) →
    ¬ word_at word name prev (c :: l) ((c, m) :: marked false (if m then Code else st') l) 0 →
    least (word_at word name prev (c :: l) ((c, m) :: marked false (if m then Code else st') l))
      (find_word_loop word name (Some c) (if m then Code else st') 1 l)).
  { intros m st' _ H0. rewrite find_word_shift. change (λ j, 1 + j) with S. apply least_shift; [done|].
    eapply least_unique; [|apply (IH l); simpl; lia]. intros i. symmetry. apply word_at_S. }
  rewrite marked_cons. cbn [find_word_loop]. rewrite decide_False by done.
  destruct (lex_step false st c (peek l) (more l)) as [st' []|] eqn:El.
  - destruct l as [|c' l]; [intros [|j] ((? & ?) & _); done|].
    rewrite find_word_shift. change (λ j, 2 + j) with (S ∘ S). rewrite option_fmap_compose.
    apply least_shift; [by intros ((? & ?) & _)|].
    eapply least_unique; [intros i; symmetry; apply word_at_S|]. apply least_shift; [by intros ((? & ?) & _)|].
    eapply least_unique; [intros i; symmetry; apply word_at_S|]. apply (IH l). simpl. lia.
  - apply (Hnext false st' eq_refl). by intros ((? & ?) & _).
  - destruct (decide (take (length name) (c :: l) ≠ name)) as [Hne|Heq%dec_stable].
    { apply (Hnext true Code eq_refl). by intros (_ & ? & _). }
    destruct (word && match prev with Some x => cc_is_ident_char x | None => false end) eqn:Ep.
    { apply andb_true_iff in Ep as [-> Ep]. apply (Hnext true Code eq_refl). intros (_ & _ & Hp & _).
      destruct prev as [x|]; [|done]. by rewrite (Hp eq_refl x eq_refl) in Ep. }
    destruct (word && match (c :: l) !! length name with Some x => cc_is_ident_char x | None => false end) eqn:Ea.
    { apply andb_true_iff in Ea as [-> Ea]. apply (Hnext true Code eq_refl). intros (_ & _ & _ & Ha).
      destruct ((c :: l) !! length name) as [x|] eqn:Ex; [|done]. by rewrite (Ha eq_refl x Ex) in Ea. }
    split; [|lia]. split_and!; [by eexists|done| |].
    + intros -> x ->. done.
    + intros -> x Hx. simpl in Hx. by rewrite Hx in Ea.
Qed.

(** ** Backward *)

(** The prepass of the backward search computes the same view as the forward
    scanners. *)
Lemma mask_loop_cons st c l :
  mask_loop st (c :: l) =
  match lex_step true st c (peek l) (more l) with
  | Skip st' false => true :: mask_loop st' l
  | Skip st' true => true :: match l with [] => [] | _ :: l' => true :: mask_loop st' l' end
  | IsCode => false :: mask_loop Code l
  end.
Proof.
  cbn [mask_loop]. unfold lex_step. destruct st as [| | |q].
  - by destruct (eqc c SLASH && eqc (peek l) SLASH), (eqc c SLASH && eqc (peek l) STAR), (eqc c DQ || eqc c SQ).
  - by destruct (eqc c NL).
  - by destruct (eqc c STAR && eqc (peek l) SLASH).
  - by destruct (eqc c BSLASH && more l), (eqc c q).
Qed.
Lemma mask_loop_spec st l : mask_loop st l = negb <$> lex_mask true st l.
Proof.
  revert st. induction l as [l IH] using list_len_ind. intros st. destruct l as [|c l]; [done|].
  rewrite mask_loop_cons. cbn [lex_mask]. destruct (lex_step true st c (peek l) (more l)) as [st' []|].
  - rewrite fmap_cons. f_equal. destruct l as [|c' l]; [done|]. rewrite fmap_cons. f_equal. apply IH. simpl. lia.
  - rewrite fmap_cons. f_equal. apply IH. simpl. lia.
  - rewrite fmap_cons. f_equal. apply IH. simpl. lia.
Qed.

Lemma adjust_zero d : all_zero d = true → par d = 0 ∧ brk d = 0 ∧ br d = 0.
Proof. apply bool_decide_eq_true_1. Qed.

(** A character the backward scan passes over. *)
Lemma rscan_masked delims d c rl : rscan delims d ((c, true) :: rl) = rscan delims d rl.
Proof. done. Qed.
Lemma rscan_all_masked delims d cl rl :
  Forall (λ x : ascii * bool, x.2 = true) cl → rscan delims d (cl ++ rl) = rscan delims d rl.
Proof. induction 1 as [|[c m] cl Hm _ IH]; [done|]. simpl in *. by subst m. Qed.
Lemma rscan_plain delims d c rl : opens c = None → closes c = None → c ∉ delims → rscan delims d ((c, false) :: rl) = rscan delims d rl.
Proof.
  intros Ho Hc Hd. cbn [rscan].
  assert (Hne : ∀ k, c ≠ opener k ∧ c ≠ closer k).
  { intros k. split; intros ->; [by rewrite opens_opener in Ho|by rewrite closes_closer in Hc]. }
  rewrite (eqc_ne c RPAR), (eqc_ne c LPAR), (eqc_ne c RBRK), (eqc_ne c LBRK), (eqc_ne c RBR), (eqc_ne c LBR);
    [|apply (Hne Brace)|apply (Hne Brace)|apply (Hne Brack)|apply (Hne Brack)|apply (Hne Paren)|apply (Hne Paren)].
  simpl. by rewrite bool_decide_eq_false_2, andb_false_r.
Qed.
Lemma rscan_closer delims d k rl : rscan delims d ((closer k, false) :: rl) = rscan delims (set_depth k S d) rl.
Proof. by destruct k. Qed.
Lemma rscan_opener delims d k rl : rscan delims (set_depth k S d) ((opener k, false) :: rl) = rscan delims d rl.
Proof. by destruct k, d. Qed.

(** The backward scan passes over a fragment without delimiters. *)
Lemma rscan_masked_block delims d s cl rl :
  rscan delims d (reverse (zip s (replicate (length s) true) ++ cl) ++ rl) =
  rscan delims d (reverse cl ++ reverse (zip s (replicate (length s) true)) ++ rl).
Proof. by rewrite reverse_app, <- app_assoc. Qed.
Lemma zip_masked s : Forall (λ x : ascii * bool, x.2 = true) (reverse (zip s (replicate (length s) true))).
Proof. apply Forall_reverse. induction s; simpl; by constructor. Qed.

Lemma rscan_frag delims s m :
  frag true s m → (∀ c, c ∈ delims → (c, true) ∉ zip s m) →
  ∀ d rl, rscan delims d (reverse (zip s (negb <$> m)) ++ rl) = rscan delims d rl.
Proof.
  intros Hf. induction Hf as [|c s m (? & ? & ? & ? & ?) _ IH|c s m (? & ? & ? & ? & ?) ? _ IH|b s m Hb _ IH|b s m Hb _ IH|q b s m Hq Hb _ IH
    |k s1 m1 s2 m2 H1 IH1 _ IH2]; intros Hd d rl; rewrite ?fmap_cons, ?fmap_app, ?fmap_cons, ?fmap_replicate; simpl in *.
  - done.
  - rewrite reverse_cons, <- app_assoc, IH by (intros ???; eapply Hd; set_solver). cbn [app]. apply rscan_plain; [done|done|].
    intros ?. eapply Hd; set_solver.
  - rewrite !reverse_cons, <- !app_assoc, IH by (intros ???; eapply Hd; set_solver). cbn [app].
    rewrite rscan_plain; [|done|done|intros ?; eapply Hd; set_solver]. apply rscan_plain; [done|done|].
    intros ?. eapply Hd; set_solver.
  - rewrite zip_with_app in * by by rewrite length_replicate. simpl in *.
    rewrite !reverse_cons, reverse_app, reverse_cons, <- !app_assoc, IH by (intros ???; eapply Hd; set_solver). cbn [app].
    rewrite rscan_plain; [|done|done|intros ?; eapply Hd; set_solver]. by rewrite rscan_all_masked by apply zip_masked.
  - rewrite zip_with_app in * by by rewrite length_replicate. simpl in *.
    rewrite !reverse_cons, reverse_app, !reverse_cons, <- !app_assoc, IH by (intros ???; eapply Hd; set_solver). cbn [app].
    rewrite !rscan_masked. by rewrite rscan_all_masked by apply zip_masked.
  - rewrite zip_with_app in * by by rewrite length_replicate. simpl in *.
    rewrite !reverse_cons, reverse_app, !reverse_cons, <- !app_assoc, IH by (intros ???; eapply Hd; set_solver). cbn [app].
    rewrite !rscan_masked. by rewrite rscan_all_masked by apply zip_masked.
  - pose proof (frag_length _ _ _ H1) as Hl. rewrite zip_with_app in * by (rewrite ?length_fmap; done). simpl in *.
    rewrite reverse_cons, reverse_app, reverse_cons, <- !app_assoc, IH2 by (intros ???; eapply Hd; set_solver). cbn [app].
    rewrite rscan_closer, IH1 by (intros ???; eapply Hd; set_solver). cbn [app]. apply rscan_opener.
Qed.

(** Searching back from the end of a declaration finds its delimiter. *)
Lemma rfind_frag ok pre mp dl s m delims :
  frag true pre mp → frag true s m → plain dl → dl ∈ delims → (∀ c, c ∈ delims → (c, true) ∉ zip s m) →
  (Z.of_nat (length (pre ++ dl :: s)) ≤ 1024)%Z →
  cc_rfind_char_top_level ok (pre ++ dl :: s) 0 (length (pre ++ dl :: s)) delims =
  S (length pre) + span is_blank s.
Proof.
  intros Hp Hs Hdl Hin Hd Hlen. unfold cc_rfind_char_top_level, range.
  rewrite decide_False by (rewrite length_app; simpl; lia). rewrite Nat.sub_0_r, drop_0, take_ge by done.
  rewrite !decide_False by lia.
  assert (Hr : rscan delims no_depth (reverse (zip (pre ++ dl :: s) (mask_loop Code (pre ++ dl :: s)))) = Some (S (length pre))).
  { rewrite mask_loop_spec, (frag_mask true pre mp) by done. cbn [lex_mask].
    destruct Hdl as (? & ? & ? & Ho & Hc). rewrite lex_code by done.
    rewrite <- (app_nil_r s) at 2. rewrite (frag_mask true s m) by done. rewrite app_nil_r, fmap_app, fmap_cons.
    pose proof (frag_length _ _ _ Hp) as Hlp.
    rewrite zip_with_app by (by rewrite length_fmap). simpl. rewrite reverse_app, reverse_cons, <- app_assoc.
    rewrite (rscan_frag delims s m) by done. cbn [app rscan].
    assert (Hne : ∀ k, dl ≠ opener k ∧ dl ≠ closer k).
    { intros k. split; intros ->; [by rewrite opens_opener in Ho|by rewrite closes_closer in Hc]. }
    rewrite (eqc_ne dl RPAR), (eqc_ne dl LPAR), (eqc_ne dl RBRK), (eqc_ne dl LBRK), (eqc_ne dl RBR), (eqc_ne dl LBR);
      [|apply (Hne Brace)|apply (Hne Brace)|apply (Hne Brack)|apply (Hne Brack)|apply (Hne Paren)|apply (Hne Paren)].
    simpl. rewrite bool_decide_eq_true_2 by done. f_equal. f_equal. rewrite length_reverse, length_zip, length_fmap. lia. }
  rewrite Hr. cbn [default from_option]. rewrite Nat.add_0_l.
  change (dl :: s) with ([dl] ++ s). rewrite app_assoc, drop_app_length' by (rewrite length_app; simpl; lia). done.
Qed.
