(* ===== verification/TextBuild.v ===== *)
(** The string builder of [Text] and the literals it emits. *)
From S2P Require Import Prelude Bytes Lex Text TextScan.

Local Open Scope Z_scope.
Implicit Types (s ct w : list ascii) (c : ascii) (x : sb).

(** * Definitions *)

(** The builder holds the text [ct], NUL-terminated inside its capacity. *)
Definition sb_ok x ct : Prop :=
  sb_len x = length ct ∧
  match sb_buf x with
  | None => ct = [] ∧ sb_cap x = 0
  | Some b => Z.of_nat (length b) = sb_cap x ∧ take (length ct) b = Some <$> ct ∧ b !! length ct = Some (Some NUL)
  end.

(** The characters of an emitted literal: printable, quotes and backslashes
    escaped. *)
Definition printable (c : ascii) : Prop := (32 ≤ N_of_ascii c)%N ∧ N_of_ascii c ≠ 127%N.
Inductive lit_body : list ascii → Prop :=
  | lit_nil : lit_body []
  | lit_char c s : c ≠ BSLASH → c ≠ DQ → printable c → lit_body s → lit_body (c :: s)
  | lit_esc c s : c = BSLASH ∨ c = DQ → lit_body s → lit_body (BSLASH :: c :: s).

(** * The builder *)

Lemma wrap64_id z : 0 ≤ z < 2 ^ 64 → wrap64 z = z.
Proof. intros. unfold wrap64. by apply Z.mod_small. Qed.

Lemma grow_spec fuel nc need :
  0 < nc → 0 < need ≤ 2 ^ 62 → need ≤ nc * 2 ^ Z.of_nat fuel →
  ∃ nc', grow fuel nc need = Some nc' ∧ need ≤ nc' ∧ (nc' = nc ∨ nc' < 2 * need).
Proof.
  revert nc. induction fuel as [|fuel IH]; intros nc Hnc Hneed Hf; simpl; case_decide as Hlt.
  - simpl in Hf. lia.
  - exists nc. split_and!; [done|lia|by left].
  - rewrite wrap64_id by lia. destruct (IH (nc * 2)) as (nc' & -> & ? & Hor); [lia|done| |].
    { rewrite Nat2Z.inj_succ, Z.pow_succ_r in Hf by lia. lia. }
    exists nc'. split_and!; [done|done|]. lia.
  - exists nc. split_and!; [done|lia|by left].
Qed.

Lemma length_realloc nc old : 0 ≤ nc → length (realloc_to nc old) = Z.to_nat nc.
Proof. intros. unfold realloc_to. rewrite length_app, length_take, length_replicate. lia. Qed.
Lemma take_realloc nc old n : (n ≤ length old)%nat → (n ≤ Z.to_nat nc)%nat → take n (realloc_to nc old) = take n old.
Proof. intros. unfold realloc_to. rewrite take_app_le by (rewrite length_take; lia). by rewrite take_take, Nat.min_l by lia. Qed.

(** Writing at the end of the held text. *)
Lemma write_at_spec ct s (b : list (option ascii)) :
  take (length ct) b = Some <$> ct → (length ct + length s < length b)%nat →
  ∃ b', write_at (length ct) s b = Some b' ∧ length b' = length b ∧
    take (length (ct ++ s)) b' = Some <$> (ct ++ s) ∧ b' !! length (ct ++ s) = Some (Some NUL).
Proof.
  intros Ht Hl. unfold write_at. rewrite decide_True by done. eexists. split; [reflexivity|]. rewrite Ht.
  assert (Hlen : length ((Some <$> ct) ++ (Some <$> s)) = length (ct ++ s)) by (by rewrite <- fmap_app, length_fmap).
  split_and!.
  - rewrite length_app, length_app. simpl. rewrite length_drop, !length_fmap. lia.
  - rewrite app_assoc, take_app_length' by done. by rewrite fmap_app.
  - rewrite app_assoc. by apply list_lookup_middle.
Qed.

Lemma cells_ok x ct : sb_ok x ct → take (length ct) (cells x) = Some <$> ct ∧ (length ct ≤ length (cells x))%nat.
Proof.
  intros [Hl Hb]. unfold cells. destruct (sb_buf x) as [b|]; simpl.
  - destruct Hb as (? & ? & Hn). split; [done|]. apply lookup_lt_Some in Hn. lia.
  - by destruct Hb as [-> _].
Qed.

Lemma sb_append_spec rok x ct s :
  sb_ok x ct → sb_cap x ≤ 2 ^ 62 → Z.of_nat (length (ct ++ s)) + 1 ≤ 2 ^ 61 →
  ∃ x', cc_sb_append rok s x = Some x' ∧ sb_cap x' ≤ 2 ^ 62 ∧
    (sb_ok x' (ct ++ s) ∨ x' = x ∧ ∃ nc, rok nc = false).
Proof.
  intros Hok Hcap Hlen. unfold cc_sb_append. destruct (decide (s = [])) as [->|Hs].
  { exists x. rewrite app_nil_r. auto. }
  pose proof Hok as [Hl Hb]. rewrite length_app in Hlen. assert (0 < length s)%nat by by (destruct s; simpl; [|lia]).
  assert (Hc0 : 0 ≤ sb_cap x) by (destruct (sb_buf x); lia).
  rewrite Hl. case_decide as Hgrow.
  - destruct (grow_spec grow_fuel (if decide (sb_cap x = 0) then 1024 else wrap64 (sb_cap x * 2))
      (Z.of_nat (length ct) + Z.of_nat (length s) + 1)) as (nc & -> & Hge & Hub).
    { case_decide; [lia|]. rewrite wrap64_id; lia. }
    { lia. }
    { unfold grow_fuel. case_decide; [lia|]. rewrite wrap64_id by lia. lia. }
    simpl. destruct (rok nc) eqn:Er; simpl; [|exists x; split_and!; [done|done|right; eauto]]. rewrite Hl.
    destruct (cells_ok _ _ Hok) as [Ht Hle].
    destruct (write_at_spec ct s (realloc_to nc (cells x))) as (b' & -> & Hlb & Htb & Hnb).
    { by rewrite take_realloc by lia. }
    { rewrite length_realloc by lia. lia. }
    simpl. eexists. split; [reflexivity|]. simpl. split.
    { destruct Hub as [->|]; [|lia]. case_decide; [lia|]. rewrite wrap64_id by lia. lia. }
    left. split; [simpl; rewrite length_app; lia|]. simpl. rewrite Hlb, length_realloc by lia.
    split_and!; [lia|done|done].
  - destruct (sb_buf x) as [b|] eqn:Eb; [|lia]. simpl. destruct Hb as (Hbl & Hbt & _).
    destruct (write_at_spec ct s b) as (b' & -> & Hlb & Htb & Hnb); [done|lia|].
    simpl. eexists. split; [reflexivity|]. simpl. split; [done|]. left.
    split; [simpl; rewrite length_app; lia|]. simpl. rewrite Hlb. done.
Qed.

(** With memory available every append succeeds. *)
Lemma sb_append_ok rok x ct s :
  (∀ z, rok z = true) → sb_ok x ct → sb_cap x ≤ 2 ^ 62 → Z.of_nat (length (ct ++ s)) + 1 ≤ 2 ^ 61 →
  ∃ x', cc_sb_append rok s x = Some x' ∧ sb_cap x' ≤ 2 ^ 62 ∧ sb_ok x' (ct ++ s).
Proof.
  intros Hr Hok Hc Hl. destruct (sb_append_spec rok x ct s Hok Hc Hl) as (x' & ? & ? & [?|[_ [nc Hn]]]); [eauto|].
  by rewrite Hr in Hn.
Qed.

(** ** Formatted append *)

Lemma vfmt_loop_grow rok out x ct :
  sb_ok x ct → is_Some (sb_buf x) → sb_cap x ≤ Z.of_nat (length ct) + Z.of_nat (length out) →
  ∃ nc b, sb_cap x < nc ∧ Z.of_nat (length ct) + Z.of_nat (length out) < nc ∧
    Z.of_nat (length b) = nc ∧ take (length ct) b = Some <$> ct ∧
    vfmt_loop 2 rok out x =
      if rok nc then vfmt_loop 1 rok out (x <| sb_cap := nc |> <| sb_buf := Some b |>)
      else Some (x <| sb_cap := nc |> <| sb_buf := None |>).
Proof.
  intros [Hl Hb] [b Eb] Hfull. rewrite Eb in Hb. destruct Hb as (Hbl & Hbt & Hbn). pose proof (lookup_lt_Some _ _ _ Hbn) as Hlt.
  remember 1%nat as f eqn:Ef. cbn [vfmt_loop]. rewrite Eb, Hl. simpl. rewrite !(decide_True (P := Z.of_nat (length ct) < sb_cap x)) by lia.
  rewrite decide_False by lia. rewrite decide_False by lia. rewrite decide_False by lia.
  destruct (write_at_spec ct (take (Z.to_nat (sb_cap x - Z.of_nat (length ct)) - 1) out) b) as (b' & -> & Hlb & Htb & _);
    [done|rewrite length_take; lia|]. simpl.
  set (nc := sb_cap x * 2 + Z.of_nat (length out) + 16).
  exists nc, (realloc_to nc b'). split_and!; [lia|lia|rewrite length_realloc; lia| |done].
  rewrite take_realloc by lia. rewrite length_app, fmap_app in Htb.
  apply (f_equal (take (length ct))) in Htb. rewrite take_take, Nat.min_l in Htb by lia.
  rewrite Htb, take_app_length' by (by rewrite length_fmap). done.
Qed.

Lemma vfmt_loop_fits fuel rok out x ct :
  sb_len x = length ct → (∃ b, sb_buf x = Some b ∧ Z.of_nat (length b) = sb_cap x ∧ take (length ct) b = Some <$> ct) →
  Z.of_nat (length ct) + Z.of_nat (length out) < sb_cap x →
  ∃ x', vfmt_loop (S fuel) rok out x = Some x' ∧ sb_ok x' (ct ++ out) ∧ sb_cap x' = sb_cap x.
Proof.
  intros Hl (b & Eb & Hbl & Hbt) Hfit. cbn [vfmt_loop]. rewrite Eb, Hl. simpl.
  rewrite (decide_True (P := Z.of_nat (length ct) < sb_cap x)) by lia. rewrite decide_True by lia.
  destruct (write_at_spec ct out b) as (b' & -> & Hlb & Htb & Hnb); [done|lia|]. simpl.
  eexists. split; [reflexivity|]. split; [|done]. split; [simpl; rewrite length_app; lia|]. simpl. by rewrite Hlb.
Qed.

Lemma vfmt_ok rok out x ct :
  (∀ z, rok z = true) → sb_ok x ct → is_Some (sb_buf x) →
  ∃ x', vfmt_loop 2 rok out x = Some x' ∧ sb_ok x' (ct ++ out).
Proof.
  intros Hr Hok Hb. destruct (decide (Z.of_nat (length ct) + Z.of_nat (length out) < sb_cap x)) as [Hfit|Hfull].
  - pose proof Hok as [Hl Hbuf]. destruct Hb as [b Eb]. rewrite Eb in Hbuf. destruct Hbuf as (? & ? & _).
    destruct (vfmt_loop_fits 1 rok out x ct Hl ltac:(eauto) Hfit) as (x' & ? & ? & _). eauto.
  - destruct (vfmt_loop_grow rok out x ct Hok Hb ltac:(lia)) as (nc & b & ? & ? & ? & ? & ->). rewrite Hr.
    edestruct (vfmt_loop_fits 0 rok out (x <| sb_cap := nc |> <| sb_buf := Some b |>) ct) as (x' & ? & ? & _); [apply Hok|simpl; eauto|done|eauto].
Qed.

(** * Literals *)

Lemma lit_body_app s1 s2 : lit_body s1 → lit_body s2 → lit_body (s1 ++ s2).
Proof. intros H1 H2. induction H1; simpl; [done|by constructor|by constructor]. Qed.
Lemma lit_body_unsnoc l s : lit_body l → l = s ++ [SP] → lit_body s.
Proof.
  intros H. revert s. induction H as [|c l ??? _ IH|c l Hc _ IH]; intros s E.
  - by destruct s.
  - destruct s as [|c' s]; [by constructor|]. injection E as -> E. by apply lit_char; [..|apply IH].
  - destruct s as [|c1 [|c2 s]].
    + by destruct l.
    + injection E as _ -> _. by destruct Hc.
    + injection E as <- <- E. by apply lit_esc; [|apply IH].
Qed.
Lemma drop_spaces_body w : lit_body (reverse w) → lit_body (reverse (drop_spaces w)).
Proof.
  induction w as [|c w IH]; [done|]. simpl. destruct (eqc c SP) eqn:E; [|done].
  apply eqc_true in E as ->. rewrite reverse_cons. intros H. apply IH. by eapply lit_body_unsnoc.
Qed.
Lemma lit_body_str s : lit_body s → str_body DQ s.
Proof. induction 1; by constructor. Qed.
Lemma lit_body_printable s : lit_body s → Forall printable s.
Proof. induction 1 as [|c s ??? _ IH|c s [->| ->] _ IH]; [constructor|by constructor|..]; (constructor; [done|by constructor]). Qed.
Lemma printable_SP : printable SP.
Proof. split; done. Qed.

Lemma lit_push w xs : lit_body (reverse w) → lit_body xs → lit_body (reverse (reverse xs ++ w)).
Proof. intros. rewrite reverse_app, reverse_involutive. by apply lit_body_app. Qed.

Lemma lit_loop_spec ps w l :
  lit_body (reverse w) → ∃ w' tr, lit_loop ps w l = Some (w', tr) ∧ lit_body (reverse w').
Proof.
  revert ps w. induction l as [|c l IH]; intros ps w Hw; simpl; [eauto|].
  case_decide as Hf; [eauto|].
  destruct (is_space6 c) eqn:Hsp.
  { destruct (negb ps && more w); [|by apply IH]. rewrite decide_True by lia. apply IH.
    by apply (lit_push w [SP]); [|repeat constructor]. }
  case_decide as H160; [eauto|].
  destruct (eqc c BSLASH || eqc c DQ) eqn:He.
  { case_decide as H2; [eauto|]. rewrite decide_True by lia. apply IH. apply (lit_push w [BSLASH; c]); [done|].
    apply lit_esc; [|constructor]. by apply orb_true_iff in He as [->%eqc_true| ->%eqc_true]; [left|right]. }
  apply orb_false_iff in He as [Hb Hd].
  destruct ((N_of_ascii c <? 32)%N || (N_of_ascii c =? 127)%N) eqn:Hc.
  { rewrite decide_True by lia. apply IH. by apply (lit_push w [chr 63]); [|repeat constructor]. }
  rewrite decide_True by lia. apply IH. apply (lit_push w [c]); [done|].
  apply orb_false_iff in Hc as [Hc1 Hc2]. apply N.ltb_ge in Hc1. apply N.eqb_neq in Hc2.
  repeat constructor; try done; intros ->; [by rewrite eqc_refl in Hb|by rewrite eqc_refl in Hd].
Qed.

(** The literal appended for [src[a..b)]. *)
Definition literal_of (src : option (list ascii)) (a b : nat) : list ascii :=
  match src with
  | Some s =>
      if decide (a < b)%nat then
        match lit_loop false [] (range s a b) with
        | Some (w, tr) => reverse (drop_spaces w) ++ (if tr : bool then dots else [])
        | None => []
        end
      else []
  | None => []
  end.
Lemma literal_body src a b : lit_body (literal_of src a b).
Proof.
  unfold literal_of. destruct src as [s|]; [|constructor]. case_decide; [|constructor].
  destruct (lit_loop_spec false [] (range s a b)) as (w & tr & -> & Hw); [constructor|].
  apply lit_body_app; [by apply drop_spaces_body|]. destruct tr; [|constructor]. repeat constructor; done.
Qed.

Lemma append_literal_ok rok src a b x ct :
  (∀ z, rok z = true) → sb_ok x ct → sb_cap x ≤ 2 ^ 62 →
  Z.of_nat (length (ct ++ DQ :: literal_of src a b ++ [DQ])) + 1 ≤ 2 ^ 61 →
  ∃ x', cc_sb_append_c_string_literal rok src a b x = Some x' ∧ sb_cap x' ≤ 2 ^ 62 ∧
    sb_ok x' (ct ++ DQ :: literal_of src a b ++ [DQ]).
Proof.
  intros Hr Hok Hc Hl. unfold cc_sb_append_c_string_literal.
  assert (Hlen : length ((ct ++ [DQ]) ++ literal_of src a b ++ [DQ]) = length (ct ++ DQ :: literal_of src a b ++ [DQ])) by (by rewrite <- app_assoc).
  replace (ct ++ DQ :: literal_of src a b ++ [DQ]) with (((ct ++ [DQ]) ++ literal_of src a b) ++ [DQ]) in * by (by rewrite <- !app_assoc).
  rewrite !length_app in Hl. simpl in Hl.
  destruct (sb_append_ok rok x ct [DQ]) as (x1 & -> & Hc1 & Hok1); [done..|rewrite length_app; simpl; lia|]. simpl.
  assert (Hmid : ∃ x2, (match src with
      | Some s =>
          if decide (a < b)%nat then
            '(w, truncated) ← lit_loop false [] (range s a b);
            y ← cc_sb_append rok (reverse (drop_spaces w)) x1;
            if (truncated : bool) then cc_sb_append rok dots y else Some y
          else Some x1
      | None => Some x1
      end) = Some x2 ∧ sb_cap x2 ≤ 2 ^ 62 ∧ sb_ok x2 ((ct ++ [DQ]) ++ literal_of src a b)).
  { unfold literal_of in *. destruct src as [s|]; [|exists x1; by rewrite app_nil_r].
    case_decide; [|exists x1; by rewrite app_nil_r].
    destruct (lit_loop_spec false [] (range s a b)) as (w & tr & E & _); [constructor|]. rewrite E in *. simpl.
    rewrite length_app in Hl.
    destruct (sb_append_ok rok x1 (ct ++ [DQ]) (reverse (drop_spaces w))) as (x2 & -> & Hc2 & Hok2); [done..|rewrite !length_app; simpl; lia|]. simpl.
    destruct tr; [|exists x2; by rewrite app_nil_r].
    destruct (sb_append_ok rok x2 ((ct ++ [DQ]) ++ reverse (drop_spaces w)) dots) as (x3 & -> & Hc3 & Hok3);
      [done..|rewrite !length_app; simpl in *; lia|]. exists x3. by rewrite app_assoc. }
  destruct Hmid as (x2 & -> & Hc2 & Hok2). simpl.
  apply (sb_append_ok rok x2 _ [DQ]); [done..|]. rewrite !length_app. simpl. lia.
Qed.

(** ** Call expressions *)

Definition location_text src a b file line : list ascii :=
  (DQ :: literal_of src a b ++ [DQ]) ++ txt ", " ++
  (let f := default (txt "<input>") file in DQ :: literal_of (Some f) 0 (length f) ++ [DQ]) ++
  (txt ", " ++ [DQ]) ++ dec line ++ DQ :: txt ")".

(** An append chain is driven by its contents. *)
Lemma chain_ok rok x ct s (k : sb → option sb) rest :
  (∀ z, rok z = true) → sb_ok x ct → sb_cap x ≤ 2 ^ 62 → Z.of_nat (length (ct ++ s ++ rest)) + 1 ≤ 2 ^ 61 →
  (∀ x', sb_ok x' (ct ++ s) → sb_cap x' ≤ 2 ^ 62 → ∃ x2, k x' = Some x2 ∧ sb_cap x2 ≤ 2 ^ 62 ∧ sb_ok x2 ((ct ++ s) ++ rest)) →
  ∃ x2, (y ← cc_sb_append rok s x; k y) = Some x2 ∧ sb_cap x2 ≤ 2 ^ 62 ∧ sb_ok x2 (ct ++ s ++ rest).
Proof.
  intros Hr Hok Hc Hl Hk. rewrite !length_app in Hl.
  destruct (sb_append_ok rok x ct s Hr Hok Hc) as (x' & -> & ? & ?); [rewrite length_app; lia|].
  rewrite app_assoc. by apply Hk.
Qed.
Lemma chain_lit_ok rok x ct src a b (k : sb → option sb) rest :
  (∀ z, rok z = true) → sb_ok x ct → sb_cap x ≤ 2 ^ 62 →
  Z.of_nat (length (ct ++ (DQ :: literal_of src a b ++ [DQ]) ++ rest)) + 1 ≤ 2 ^ 61 →
  (∀ x', sb_ok x' (ct ++ (DQ :: literal_of src a b ++ [DQ])) → sb_cap x' ≤ 2 ^ 62 →
    ∃ x2, k x' = Some x2 ∧ sb_cap x2 ≤ 2 ^ 62 ∧ sb_ok x2 ((ct ++ (DQ :: literal_of src a b ++ [DQ])) ++ rest)) →
  ∃ x2, (y ← cc_sb_append_c_string_literal rok src a b x; k y) = Some x2 ∧ sb_cap x2 ≤ 2 ^ 62 ∧
    sb_ok x2 (ct ++ (DQ :: literal_of src a b ++ [DQ]) ++ rest).
Proof.
  intros Hr Hok Hc Hl Hk. rewrite app_assoc, length_app in Hl.
  destruct (append_literal_ok rok src a b x ct Hr Hok Hc) as (x' & -> & ? & ?); [lia|].
  rewrite app_assoc. by apply Hk.
Qed.

Lemma location_args_ok rok src a b file line x ct :
  (∀ z, rok z = true) → sb_ok x ct → sb_cap x ≤ 2 ^ 62 →
  Z.of_nat (length (ct ++ location_text src a b file line)) + 1 ≤ 2 ^ 61 →
  ∃ x', location_args rok src a b file line x = Some x' ∧ sb_cap x' ≤ 2 ^ 62 ∧ sb_ok x' (ct ++ location_text src a b file line).
Proof.
  intros Hr Hok Hc Hl. unfold location_args, location_text in *.
  apply chain_lit_ok; [done..|]. intros x1 Hok1 Hc1. rewrite app_assoc in Hl.
  apply chain_ok; [done..|]. intros x2 Hok2 Hc2. rewrite app_assoc in Hl.
  apply chain_lit_ok; [done..|]. intros x3 Hok3 Hc3. rewrite app_assoc in Hl.
  apply chain_ok; [done..|]. intros x4 Hok4 Hc4. rewrite app_assoc in Hl.
  apply chain_ok; [done..|]. intros x5 Hok5 Hc5. rewrite app_assoc in Hl.
  by apply sb_append_ok.
Qed.
