(* ===== verification/TextDecl.v ===== *)
(** Skipping blank text and parsing declarations. *)
From S2P Require Import Prelude Bytes Lex Text TextScan.

Implicit Types (s l u rest : list ascii) (c : ascii) (f : nat).

(** * Definitions *)

(** Text that is only whitespace and terminated comments. *)
Inductive blank : list ascii → Prop :=
  | blank_nil : blank []
  | blank_ws c s : is_ws c = true → blank s → blank (c :: s)
  | blank_line b s : NL ∉ b → blank s → blank (SLASH :: SLASH :: b ++ NL :: s)
  | blank_block b s : no_close b → blank s → blank (SLASH :: STAR :: b ++ STAR :: SLASH :: s).
(** Text that starts with neither. *)
Definition stops rest : bool :=
  match rest with
  | [] => true
  | c :: l => negb (is_ws c) && negb (eqc c SLASH && (eqc (peek l) SLASH || eqc (peek l) STAR))
  end.

(** The characters of a simple type: identifiers, blanks and stars. *)
Definition type_char (c : ascii) : bool := cc_is_ident_char c || is_ws c || eqc c STAR.
Definition ends_sep u : bool := match reverse u with [] => true | c :: _ => negb (cc_is_ident_char c) end.
Definition is_ident s : bool := match s with c :: s' => cc_is_ident_start c && forallb cc_is_ident_char s' | [] => false end.

(** * Skipping *)

Lemma span_all (f : ascii → bool) s l :
  forallb f s = true → match l with [] => true | c :: _ => negb (f c) end = true → span f (s ++ l) = length s.
Proof.
  intros Hs Hl. induction s as [|c s IH]; simpl in *.
  - destruct l as [|c l]; [done|]. simpl. by destruct (f c).
  - apply andb_true_iff in Hs as [-> Hs]. by rewrite IH.
Qed.
Lemma to_eol_line b l : NL ∉ b → to_eol (b ++ NL :: l) = NL :: l.
Proof.
  intros Hb. unfold to_eol. rewrite span_all; [by rewrite drop_app_length| |done].
  apply forallb_forall. intros c Hc. apply list_elem_of_In in Hc. apply negb_true_iff, eqc_ne. by intros ->.
Qed.
Lemma after_block_cstr_closed b l : no_close b → after_block_cstr (b ++ STAR :: SLASH :: l) = l.
Proof.
  induction b as [|c b IH]; intros Hn; [done|]. destruct Hn as [Hc Hn]. cbn [app after_block_cstr].
  replace (eqc c STAR && eqc (peek (b ++ STAR :: SLASH :: l)) SLASH) with false; [by apply IH|].
  symmetry. apply andb_false_iff. destruct (decide (c = STAR)) as [->|]; [|left; by apply eqc_ne].
  right. apply eqc_ne. destruct b as [|c' b]; [done|]. intros E. apply Hc. by split.
Qed.
Lemma after_block_bounded_closed b l : no_close b → after_block_bounded (b ++ STAR :: SLASH :: l) = l.
Proof.
  induction b as [|c b IH]; intros Hn; [done|]. destruct Hn as [Hc Hn]. cbn [app].
  destruct (b ++ STAR :: SLASH :: l) as [|c2 r] eqn:E; [by destruct b|].
  change (after_block_bounded (c :: c2 :: r)) with (if eqc c STAR && eqc c2 SLASH then r else after_block_bounded (c2 :: r)).
  replace (eqc c STAR && eqc c2 SLASH) with false; [by apply IH|].
  symmetry. apply andb_false_iff. destruct (decide (c = STAR)) as [->|]; [|left; by apply eqc_ne].
  right. apply eqc_ne. destruct b as [|c' b]; simplify_eq/=; [done|]. intros ->. apply Hc. done.
Qed.

Lemma skip_wsc_blank ab s rest fuel :
  (∀ b l, no_close b → ab (b ++ STAR :: SLASH :: l) = l) →
  blank s → stops rest = true → length (s ++ rest) ≤ fuel → skip_wsc ab fuel (s ++ rest) = rest.
Proof.
  intros Hab Hs Hr. revert fuel. induction Hs as [|c s Hc _ IH|b s Hb _ IH|b s Hb _ IH]; intros fuel Hf.
  - cbn [app] in *. destruct rest as [|c l]; [by destruct fuel|]. destruct fuel as [|fuel]; [simpl in Hf; lia|]. simpl in *.
    apply andb_true_iff in Hr as [Hw Hc]. destruct (is_ws c); [done|]. simpl in *.
    destruct (eqc c SLASH); [|done]. simpl in *. by destruct (eqc (peek l) SLASH), (eqc (peek l) STAR).
  - destruct fuel as [|fuel]; [simpl in Hf; lia|]. simpl in *. rewrite Hc. apply IH. lia.
  - destruct fuel as [|fuel]; [simpl in Hf; lia|]. cbn [app skip_wsc].
    change (is_ws SLASH) with false. cbn [peek head default from_option]. change (eqc SLASH SLASH) with true. cbn [andb tail].
    rewrite <- app_assoc. cbn [app]. rewrite to_eol_line by done.
    destruct fuel as [|fuel]; [simpl in Hf; rewrite !length_app in Hf; simpl in Hf; lia|]. simpl. apply IH.
    simpl in Hf. rewrite !length_app in *. simpl in Hf. lia.
  - destruct fuel as [|fuel]; [simpl in Hf; lia|]. cbn [app skip_wsc].
    change (is_ws SLASH) with false. change (peek (STAR :: (b ++ STAR :: SLASH :: s) ++ rest)) with STAR.
    change (eqc SLASH SLASH && eqc STAR SLASH) with false. change (eqc SLASH SLASH && eqc STAR STAR) with true. cbn [tail].
    rewrite <- app_assoc. cbn [app]. rewrite Hab by done. apply IH.
    simpl in Hf. rewrite !length_app in *. simpl in Hf. lia.
Qed.

(** * Declarations *)

(** Characters that neither the identifier scan nor the check loop treats
    specially. *)
Definition inert (c : ascii) : bool :=
  negb (eqc c SLASH) && negb (eqc c DQ) && negb (eqc c SQ) && negb (eqc c (chr 61)) && negb (eqc c (chr 59)) &&
  negb (eqc c (chr 46)) && negb (eqc c (chr 62)) && negb (eqc c LPAR).
(** Characters of an initializer that the check loop accepts. *)
Definition init_char (c : ascii) : bool := negb (eqc c SLASH) && negb (eqc c (chr 46)) && negb (eqc c (chr 62)).
(** What may follow the name: nothing, or an initializer. *)
Inductive decl_tail : list ascii → Prop :=
  | tail_nil : decl_tail []
  | tail_init s i : forallb is_ws s = true → forallb init_char i = true → decl_tail (s ++ chr 61 :: i).

Lemma type_char_inert c : type_char c = true → inert c = true.
Proof. destruct c as [[] [] [] [] [] [] [] []]; vm_compute; done. Qed.
Lemma ident_start_inert c : cc_is_ident_start c = true → inert c = true.
Proof. destruct c as [[] [] [] [] [] [] [] []]; vm_compute; done. Qed.
Lemma ident_char_inert c : cc_is_ident_char c = true → inert c = true.
Proof. destruct c as [[] [] [] [] [] [] [] []]; vm_compute; done. Qed.
Lemma ws_inert c : is_ws c = true → inert c = true.
Proof. destruct c as [[] [] [] [] [] [] [] []]; vm_compute; done. Qed.
Lemma ws_not_ident c : is_ws c = true → cc_is_ident_char c = false ∧ cc_is_ident_start c = false.
Proof. destruct c as [[] [] [] [] [] [] [] []]; vm_compute; done. Qed.
Lemma start_is_char c : cc_is_ident_start c = true → cc_is_ident_char c = true.
Proof. unfold cc_is_ident_char. by intros ->. Qed.
Lemma inert_init c : inert c = true → init_char c = true.
Proof. unfold inert, init_char. intros H. repeat apply andb_true_iff in H as [H ?]. by repeat (apply andb_true_iff; split). Qed.
Lemma inert_no_lpar c : inert c = true → c ≠ LPAR.
Proof. by intros H ->. Qed.

(** One step of the identifier scan on an inert character. *)
Lemma last_ident_step fuel nm c l :
  inert c = true →
  last_ident (S fuel) nm (c :: l) =
  if cc_is_ident_start c then last_ident fuel (Some (c :: l, S (span cc_is_ident_char l))) (drop (span cc_is_ident_char l) l)
  else last_ident fuel nm l.
Proof.
  unfold inert. intros H. repeat apply andb_true_iff in H as [H ?]. cbn [last_ident].
  repeat match goal with Hn : negb (eqc c ?x) = true |- _ => apply negb_true_iff in Hn; rewrite Hn end.
  cbn [andb orb]. by destruct (cc_is_ident_start c).
Qed.

Lemma span_app_sep (f : ascii → bool) u l :
  u ≠ [] → match reverse u with [] => true | c :: _ => negb (f c) end = true → span f (u ++ l) = span f u ∧ span f u < length u.
Proof.
  intros Hne. rewrite <- (reverse_involutive u). destruct (reverse u) as [|c r] eqn:E.
  { by rewrite <- (reverse_involutive u), E in Hne. }
  rewrite reverse_involutive, reverse_cons. intros Hc%negb_true_iff. generalize (reverse r). clear -Hc.
  induction l0 as [|x r IH]; simpl.
  - rewrite Hc. split; [done|lia].
  - destruct (f x); [|split; [done|lia]]. destruct IH as [-> ?]. split; [done|lia].
Qed.

Lemma ends_sep_tail c u : u ≠ [] → ends_sep (c :: u) = true → ends_sep u = true.
Proof.
  unfold ends_sep. intros Hne. rewrite reverse_cons. destruct (reverse u) eqn:E; [|done].
  by rewrite <- (reverse_involutive u), E in Hne.
Qed.
Lemma ends_sep_drop n u : n < length u → ends_sep u = true → ends_sep (drop n u) = true.
Proof.
  revert u. induction n as [|n IH]; intros [|c u] Hn Hs; simpl in *; try done; try lia. apply IH; [lia|].
  apply (ends_sep_tail c); [destruct u; [simpl in Hn; lia|done]|done].
Qed.
Lemma forallb_drop (f : ascii → bool) n u : forallb f u = true → forallb f (drop n u) = true.
Proof. revert n. induction u as [|c u IH]; intros [|n] H; simpl in *; try done. apply andb_true_iff in H as [_ H]. by apply IH. Qed.

(** The scan runs through the type text. *)
Lemma last_ident_type u l fuel nm :
  forallb type_char u = true → ends_sep u = true → length (u ++ l) ≤ fuel →
  ∃ nm' fuel', last_ident fuel nm (u ++ l) = last_ident fuel' nm' l ∧ length l ≤ fuel'.
Proof.
  revert fuel nm. induction u as [u IH] using list_len_ind. intros fuel nm Ht Hs Hf.
  destruct u as [|c u]; [by exists nm, fuel|]. destruct fuel as [|fuel]; [simpl in Hf; lia|]. simpl in Ht, Hf.
  apply andb_true_iff in Ht as [Hc Ht]. cbn [app]. rewrite last_ident_step by by apply type_char_inert.
  destruct u as [|c' u].
  { unfold ends_sep in Hs. simpl in Hs. apply negb_true_iff in Hs.
    destruct (cc_is_ident_start c) eqn:E; [by rewrite (start_is_char _ E) in Hs|]. exists nm, fuel. split; [done|]. simpl in *. lia. }
  assert (Hs' : ends_sep (c' :: u) = true) by by eapply ends_sep_tail.
  destruct (cc_is_ident_start c).
  - destruct (span_app_sep cc_is_ident_char (c' :: u) l) as [-> Hlt]; [done|done|].
    rewrite drop_app_le by lia. apply IH; [simpl in *; rewrite length_drop; simpl; lia|by apply forallb_drop|by apply ends_sep_drop|].
    rewrite length_app, length_drop in *. lia.
  - apply (IH (c' :: u)); [simpl; lia|done|done|lia].
Qed.

Lemma tail_not_ident t : decl_tail t → match t with [] => true | c :: _ => negb (cc_is_ident_char c) end = true.
Proof. intros [|[|c s] i Hs _]; [done|done|]. simpl in *. apply andb_true_iff in Hs as [Hc _]. by destruct (ws_not_ident c Hc) as [-> _]. Qed.
Lemma last_ident_tail t fuel nm : decl_tail t → length t ≤ fuel → last_ident fuel nm t = nm.
Proof.
  intros [|s i Hs _]; [by destruct fuel|]. revert fuel. induction s as [|c s IH]; intros fuel Hf; simpl in *.
  - destruct fuel as [|fuel]; [lia|done].
  - destruct fuel as [|fuel]; [lia|]. apply andb_true_iff in Hs as [Hc Hs]. rewrite last_ident_step by by apply ws_inert.
    destruct (ws_not_ident c Hc) as [_ ->]. apply IH; [done|lia].
Qed.
Lemma last_ident_name name t fuel nm :
  is_ident name = true → decl_tail t → length (name ++ t) ≤ fuel →
  last_ident fuel nm (name ++ t) = Some (name ++ t, length name).
Proof.
  intros Hn Ht Hf. destruct name as [|c name]; [done|]. simpl in Hn. apply andb_true_iff in Hn as [Hc Hn].
  destruct fuel as [|fuel]; [simpl in Hf; lia|]. cbn [app]. rewrite last_ident_step by by apply ident_start_inert. rewrite Hc.
  rewrite span_all by (done || by apply tail_not_ident). rewrite drop_app_length. apply last_ident_tail; [done|].
  simpl in Hf. rewrite length_app in Hf. lia.
Qed.

(** The check loop accepts inert text; the parenthesis it reports is in it. *)
Lemma decl_check_clean l fuel i prev eq lp :
  forallb init_char l = true → length l ≤ fuel →
  ∃ eq' lp', decl_check fuel i prev eq lp l = Some (eq', lp') ∧
    ∀ j, lp' = Some j → lp = Some j ∨ (i ≤ j ∧ l !! (j - i) = Some LPAR).
Proof.
  revert fuel i prev eq lp. induction l as [|c l IH]; intros fuel i prev eq lp Hl Hf.
  { destruct fuel; simpl; eexists _, _; (split; [done|]); auto. }
  destruct fuel as [|fuel]; [simpl in Hf; lia|]. simpl in Hl, Hf. apply andb_true_iff in Hl as [Hc Hl].
  unfold init_char in Hc. repeat apply andb_true_iff in Hc as [Hc ?].
  repeat match goal with Hn : negb (eqc c ?x) = true |- _ => apply negb_true_iff in Hn end.
  cbn [decl_check].
  repeat match goal with Hn : eqc c ?x = false |- _ => rewrite Hn; clear Hn end. cbn [andb orb].
  edestruct (IH fuel (S i)) as (eq' & lp' & -> & Hlp); [done|lia|]. exists eq', lp'. split; [done|].
  intros j Hj. destruct (Hlp j Hj) as [Hlp1|[Hge Hin]].
  - destruct (eqc c LPAR && negb (bool_decide (is_Some lp))) eqn:E; [|by left].
    injection Hlp1 as <-. apply andb_true_iff in E as [->%eqc_true _]. right. split; [done|]. by rewrite Nat.sub_diag.
  - right. split; [lia|]. by replace (j - i) with (S (j - S i)) by lia.
Qed.



Lemma forallb_impl (f g : ascii → bool) u : (∀ c, f c = true → g c = true) → forallb f u = true → forallb g u = true.
Proof. intros Hfg. induction u as [|c u IH]; simpl; [done|]. intros [? ?]%andb_true_iff. apply andb_true_iff. auto. Qed.
Lemma tail_init_chars t : decl_tail t → forallb init_char t = true.
Proof.
  intros [|s i Hs Hi]; [done|]. rewrite forallb_app. simpl. rewrite Hi.
  by rewrite (forallb_impl is_ws init_char) by (done || (intros; by apply inert_init, ws_inert)).
Qed.

Lemma ident_init_chars name : is_ident name = true → forallb init_char name = true.
Proof.
  destruct name as [|c name]; [done|]. simpl. intros [Hc Hn]%andb_true_iff.
  rewrite (inert_init c) by by apply ident_start_inert. simpl.
  apply (forallb_impl cc_is_ident_char); [|done]. intros c' Hc'. by apply inert_init, ident_char_inert.
Qed.

(** A simple declaration is recognised. *)
Lemma parse_decl_simple bl u name t nsz tsz :
  blank bl → forallb type_char u = true → ends_sep u = true → trim u ≠ [] → stops (u ++ name ++ t) = true →
  is_ident name = true → decl_tail t →
  cc_parse_decl_name_and_type (bl ++ u ++ name ++ t) nsz tsz = (fit nsz name, fit tsz (trim u)).
Proof.
  intros Hbl Hu Hs Htr Hst Hn Ht. unfold cc_parse_decl_name_and_type.
  assert (Hp : skip_bounded (bl ++ u ++ name ++ t) = u ++ name ++ t).
  { apply skip_wsc_blank; [apply after_block_bounded_closed|done..]. }
  rewrite Hp. set (p := u ++ name ++ t).
  destruct (last_ident_type u (name ++ t) (length p) None Hu Hs ltac:(done)) as (nm' & fuel' & Hla & Hf).
  change (u ++ name ++ t) with p in Hla. rewrite Hla, last_ident_name by done.
  assert (Hbefore : take (length p - length (name ++ t)) p = u).
  { unfold p. rewrite take_app_length'; [done|]. rewrite !length_app. lia. }
  rewrite Hbefore. pose proof (ident_init_chars name Hn) as Hnc.
  destruct (decl_check_clean p (length p) 0 None None None) as (eq & lp & -> & Hlp); [|lia|].
  { unfold p. rewrite !forallb_app, Hnc, (tail_init_chars t Ht).
    by rewrite (forallb_impl type_char init_char) by (done || (intros; by apply inert_init, type_char_inert)). }
  rewrite drop_app_length.
  assert (Hafter : match drop (span is_ws t) t with [] => true | c :: _ => eqc c (chr 61) || eqc c (chr 59) || eqc c LBRK end = true).
  { destruct Ht as [|s i Hws _]; [done|]. by rewrite span_all, drop_app_length by done. }
  rewrite Hafter. cbn [negb].
  assert (Hlpok : match lp with
    | Some i => if bool_decide (i < length u) && match eq with None => true | Some e => bool_decide (i < e) end
                then macro_prefix_ok (take i p) else true
    | None => true end = true).
  { destruct lp as [j|]; [|done]. rewrite bool_decide_eq_false_2; [done|]. intros Hj.
    destruct (Hlp j eq_refl) as [?|[_ Hin]]; [done|]. rewrite Nat.sub_0_r in Hin. unfold p in Hin.
    rewrite lookup_app_l in Hin by done. apply list_elem_of_lookup_2, list_elem_of_In in Hin.
    by pose proof (proj1 (forallb_forall _ _) Hu _ Hin). }
  rewrite Hlpok. cbn [negb]. rewrite decide_False by done. by rewrite take_app_length.
Qed.

(** A dot in the statement makes the check loop give up. *)
Lemma decl_check_dot l r fuel i prev eq lp :
  forallb init_char l = true → length (l ++ chr 46 :: r) ≤ fuel → decl_check fuel i prev eq lp (l ++ chr 46 :: r) = None.
Proof.
  revert fuel i prev eq lp. induction l as [|c l IH]; intros fuel i prev eq lp Hl Hf; (destruct fuel as [|fuel]; [simpl in Hf; lia|]).
  { done. }
  simpl in Hl. cbn [app length] in Hf. apply andb_true_iff in Hl as [Hc Hl].
  unfold init_char in Hc. repeat apply andb_true_iff in Hc as [Hc ?].
  repeat match goal with Hn : negb (eqc c ?x) = true |- _ => apply negb_true_iff in Hn end.
  cbn [app decl_check].
  repeat match goal with Hn : eqc c ?x = false |- _ => rewrite Hn; clear Hn end. cbn [andb orb].
  apply IH; [done|lia].
Qed.

Lemma stops_app s t : s ≠ [] → (∀ c, s ≠ [c]) → stops s = true → stops (s ++ t) = true.
Proof. by destruct s as [|c [|c' s]]; intros H1 H2; [..|]; try done; edestruct H2. Qed.

Lemma parse_decl_dot bl u name t nsz tsz :
  blank bl → forallb type_char u = true → ends_sep u = true → trim u ≠ [] → stops (u ++ name ++ t) = true →
  is_ident name = true → decl_tail t → cc_parse_decl_name_and_type (bl ++ u ++ name ++ t ++ [chr 46]) nsz tsz = ([], []).
Proof.
  intros Hbl Hu He Htr Hs Hn Ht. unfold cc_parse_decl_name_and_type.
  assert (Hp : skip_bounded (bl ++ u ++ name ++ t ++ [chr 46]) = (u ++ name ++ t) ++ [chr 46]).
  { rewrite <- !app_assoc. apply skip_wsc_blank; [apply after_block_bounded_closed|done| |done].
    rewrite !app_assoc. apply stops_app; [..|by rewrite <- app_assoc].
    - destruct u; [done|done].
    - destruct u as [|c u]; [done|]. destruct name as [|c' name]; [done|]. intros c0. by destruct u. }
  rewrite Hp. destruct (last_ident _ _ _) as [[name_l name_n]|]; [|done].
  rewrite decl_check_dot; [done| |done].
  pose proof (ident_init_chars name Hn) as Hnc.
  rewrite !forallb_app, Hnc, (tail_init_chars t Ht).
  by rewrite (forallb_impl type_char init_char) by (done || (intros; by apply inert_init, type_char_inert)).
Qed.
