(* ===== verification/TextProps.v ===== *)
(** The properties of the text helpers, with concrete instances. *)
From S2P Require Import Prelude Bytes Lex Text TextScan TextFind TextBuild TextDecl.

Implicit Types (b s : list ascii) (k : kind).

(** The finder of each bracket kind. *)
Definition finder (k : kind) : list ascii → nat → option nat :=
  match k with Paren => cc_find_matching_paren | Brack => cc_find_matching_bracket | Brace => cc_find_matching_brace end.
Lemma finder_eq k : finder k = find_matching k.
Proof. by destruct k. Qed.

Definition demo_text : list ascii := txt "f(a, (b), /* ) */ ')' ) { x; }".

(** C14: Bracket matching is counting over code: the three
    [cc_find_matching_...] functions succeed exactly when the text at the
    given position is the opener and some later code character - one outside
    comments and literals - is the first closer of that kind to bring the
    count of unclosed openers to zero, and they return its position. *)
Theorem matching_bracket_is_counting k b at_ r :
  finder k b at_ = Some r ↔
  b !! at_ = Some (opener k) ∧ ∃ i, r = S at_ + i ∧ closes_at k 1 (marked false Code (drop (S at_) b)) i.
Proof. rewrite finder_eq. apply find_matching_spec. Qed.

(** The closer of a well-formed group is found wherever the group stands:
    around any complete fragment - nested brackets, terminated comments, string
    and character literals with escapes - the matching closer is the one right
    after the fragment. *)
Theorem matching_bracket_of_group k pre s m rest :
  frag false s m → finder k (pre ++ opener k :: s ++ closer k :: rest) (length pre) = Some (S (length pre) + length s).
Proof. rewrite finder_eq. apply find_matching_frag. Qed.
Lemma matching_bracket_of_group_witness :
  finder Paren (txt "f" ++ opener Paren :: (txt "a" ++ SLASH :: STAR :: txt ")" ++ STAR :: SLASH :: []) ++ closer Paren :: txt ";") 1 = Some 8.
Proof.
  apply (matching_bracket_of_group Paren (txt "f") (txt "a" ++ SLASH :: STAR :: txt ")" ++ STAR :: SLASH :: [])
    [true; false; false; false; false; false] (txt ";")).
  apply (frag_plain false (Ascii.Ascii true false false false false true true false)); [vm_compute; repeat split; discriminate|].
  apply (frag_block false (txt ")") [] []); [vm_compute; split; [intros [? _]; discriminate|exact I]|constructor].
Defined.

(** [cc_find_char_top_level] returns the first position in range where the
    character is code and outside all brackets, and the end when there is
    none. *)
Theorem find_char_top_level_first b start fin ch :
  start < fin ≤ length b →
  ∃ o, least (top_level_at ch no_depth (marked true Code (range b start fin))) o ∧
    cc_find_char_top_level b start fin ch = match o with Some i => start + i | None => fin end.
Proof.
  intros Hr. unfold cc_find_char_top_level. rewrite decide_False by lia. eexists. split; [apply find_char_least|done].
Qed.
Lemma find_char_top_level_first_witness :
  (∃ o, least (top_level_at LBR no_depth (marked true Code (range demo_text 1 30))) o ∧
    cc_find_char_top_level demo_text 1 30 LBR = match o with Some i => 1 + i | None => 30 end) ∧
  cc_find_char_top_level demo_text 1 30 LBR = 24.
Proof. split; [apply (find_char_top_level_first demo_text 1 30 LBR); vm_compute; lia|vm_compute; reflexivity]. Defined.

(** [cc_find_ident_top_level] ([word] true) and [cc_find_substr_top_level]
    ([word] false) return the first occurrence of the name that starts in
    code, for an identifier one that is not part of a longer identifier, and
    the end when there is none. *)
Theorem find_word_first (word : bool) b start fin name :
  name ≠ [] → start + length name ≤ fin ≤ length b →
  ∃ o, least (word_at word name None (range b start fin) (marked false Code (range b start fin))) o ∧
    (if word then cc_find_ident_top_level else cc_find_substr_top_level) b start fin name =
    match o with Some i => start + i | None => fin end.
Proof.
  intros Hn Hr. exists (find_word_loop word name None Code 0 (range b start fin)). split; [by apply find_word_least|].
  destruct word; unfold cc_find_ident_top_level, cc_find_substr_top_level, find_word; rewrite decide_False; try done; intros [?|?]; done || lia.
Qed.
Lemma find_word_first_witness :
  (∃ o, least (word_at true (txt "foo") None (range (txt "/*foo*/ xfoo foo") 0 16) (marked false Code (range (txt "/*foo*/ xfoo foo") 0 16))) o ∧
    cc_find_ident_top_level (txt "/*foo*/ xfoo foo") 0 16 (txt "foo") = match o with Some i => 0 + i | None => 16 end) ∧
  cc_find_ident_top_level (txt "/*foo*/ xfoo foo") 0 16 (txt "foo") = 13.
Proof. split; [apply (find_word_first true (txt "/*foo*/ xfoo foo") 0 16 (txt "foo")); [discriminate|vm_compute; lia]|vm_compute; reflexivity]. Defined.

(** The backward search returns the start of the declaration: over a
    complete prefix, a delimiter and a complete fragment without delimiters,
    [cc_rfind_char_top_level] returns the first non-blank position after the
    delimiter, not being misled by brackets, comments or literals in the
    fragment. *)
Theorem rfind_finds_declaration_start ok pre mp dl s m delims :
  frag true pre mp → frag true s m → plain dl → dl ∈ delims → (∀ c, c ∈ delims → (c, true) ∉ zip s m) →
  (Z.of_nat (length (pre ++ dl :: s)) ≤ 1024)%Z →
  cc_rfind_char_top_level ok (pre ++ dl :: s) 0 (length (pre ++ dl :: s)) delims = S (length pre) + span is_blank s.
Proof. apply rfind_frag. Qed.
Lemma rfind_finds_declaration_start_witness :
  cc_rfind_char_top_level true (txt "a" ++ chr 59 :: txt " b") 0 (length (txt "a" ++ chr 59 :: txt " b")) [chr 59] = S (length (txt "a")) + span is_blank (txt " b").
Proof.
  apply (rfind_finds_declaration_start true (txt "a") [true] (chr 59) (txt " b") [true; true] [chr 59]).
  - apply frag_plain; [vm_compute; repeat split; discriminate|constructor].
  - apply frag_plain; [vm_compute; repeat split; discriminate|]. apply frag_plain; [vm_compute; repeat split; discriminate|constructor].
  - vm_compute; repeat split; discriminate.
  - constructor.
  - intros c Hc. apply list_elem_of_singleton in Hc as ->. vm_compute. intros Hin.
    repeat (apply elem_of_cons in Hin as [Hin|Hin]; [discriminate|]). by apply not_elem_of_nil in Hin.
  - vm_compute. discriminate.
Defined.

(** [cc_sb_append] appends: on a builder holding [ct] it stays inside the
    buffer, terminates its growth loop, and leaves [ct ++ s] NUL-terminated;
    when [realloc] fails the builder is unchanged. *)
Theorem sb_append_appends rok x ct s :
  sb_ok x ct → (sb_cap x ≤ 2 ^ 62)%Z → (Z.of_nat (length (ct ++ s)) + 1 ≤ 2 ^ 61)%Z →
  ∃ x', cc_sb_append rok s x = Some x' ∧ (sb_cap x' ≤ 2 ^ 62)%Z ∧ (sb_ok x' (ct ++ s) ∨ x' = x ∧ ∃ nc, rok nc = false).
Proof. apply sb_append_spec. Qed.
Lemma sb_append_appends_witness :
  ∃ x', cc_sb_append (λ _, true) (txt "abc") sb_empty = Some x' ∧ (sb_cap x' ≤ 2 ^ 62)%Z ∧
    (sb_ok x' ([] ++ txt "abc") ∨ x' = sb_empty ∧ ∃ nc : Z, (λ _ : Z, true) nc = false).
Proof. apply (sb_append_appends (λ _, true) sb_empty [] (txt "abc")); [split; [reflexivity|split; reflexivity]|simpl; lia|simpl; lia]. Defined.

(** The error expression emitted for a failed unwrap is well formed for any
    source text: with memory available [cc_sb_append_err_null_at] appends the
    call with its three literals, and each literal is one complete C string
    token of printable characters, whatever quotes, backslashes, newlines or
    control bytes the snippet or the file name contains. *)
Theorem err_null_at_well_formed rok src (a b : nat) file line x ct :
  (∀ z, rok z = true) → sb_ok x ct → (sb_cap x ≤ 2 ^ 62)%Z →
  (Z.of_nat (length (ct ++ txt "__cc_err_null_at(" ++ location_text src a b file line)) + 1 ≤ 2 ^ 61)%Z →
  (∃ x', cc_sb_append_err_null_at rok src a b file line x = Some x' ∧
     sb_ok x' (ct ++ txt "__cc_err_null_at(" ++ location_text src a b file line)) ∧
  (∃ m, frag false (DQ :: literal_of src a b ++ [DQ]) m) ∧ Forall printable (literal_of src a b).
Proof.
  intros Hr Hok Hc Hl. split; [|split].
  - unfold cc_sb_append_err_null_at. edestruct (chain_ok rok x ct (txt "__cc_err_null_at(")
      (λ y, location_args rok src a b file line y) (location_text src a b file line) Hr Hok Hc Hl) as (x2 & ? & _ & ?); [|eauto].
    intros x1 H1 H2. apply location_args_ok; [done..|]. by rewrite <- app_assoc.
  - eexists. apply (frag_str false DQ (literal_of src a b) []); [by left|apply lit_body_str, literal_body|constructor].
  - apply lit_body_printable, literal_body.
Qed.
Definition demo_src : list ascii := [chr 97; DQ; BSLASH; NL; NL; chr 98].
Lemma err_null_at_well_formed_witness :
  (∃ x', cc_sb_append_err_null_at (λ _, true) (Some demo_src) 0 6 None 42 sb_empty = Some x' ∧
     sb_ok x' ([] ++ txt "__cc_err_null_at(" ++ location_text (Some demo_src) 0 6 None 42)) ∧
  literal_of (Some demo_src) 0 6 = [chr 97; BSLASH; DQ; BSLASH; BSLASH; SP; chr 98].
Proof.
  split; [|vm_compute; reflexivity].
  apply (err_null_at_well_formed (λ _, true) (Some demo_src) 0 6 None 42 sb_empty []);
    [reflexivity|split; [reflexivity|split; reflexivity]|simpl; lia|vm_compute; discriminate].
Defined.

(** Both comment skippers consume exactly the blank prefix: before text that
    starts with neither whitespace nor a comment, the pointer version and the
    bounded one skip any mix of whitespace and terminated comments and
    nothing else. *)
Theorem skippers_consume_blank s rest :
  blank s → stops rest = true →
  cc_skip_ws_and_comments_ptr (s ++ rest) = rest ∧ cc_skip_ws_and_comments (s ++ rest) 0 = length s.
Proof.
  intros Hs Hr. unfold cc_skip_ws_and_comments_ptr, cc_skip_ws_and_comments, skip_bounded. rewrite drop_0. split.
  - apply skip_wsc_blank; [apply after_block_cstr_closed|done..].
  - rewrite skip_wsc_blank; [|apply after_block_bounded_closed|done..]. rewrite length_app. lia.
Qed.
Lemma skippers_consume_blank_witness :
  cc_skip_ws_and_comments_ptr ((SP :: SLASH :: SLASH :: txt "x" ++ [NL]) ++ txt "int") = txt "int" ∧
  cc_skip_ws_and_comments ((SP :: SLASH :: SLASH :: txt "x" ++ [NL]) ++ txt "int") 0 = 5.
Proof.
  apply (skippers_consume_blank (SP :: SLASH :: SLASH :: txt "x" ++ [NL]) (txt "int")); [|vm_compute; reflexivity].
  apply blank_ws; [reflexivity|]. apply (blank_line (txt "x") []); [|constructor].
  vm_compute. intros Hin. by apply list_elem_of_singleton in Hin.
Defined.

(** The declaration parser recognises simple declarations: after any blank
    text, a type of identifiers, blanks and stars, an identifier, and nothing
    or an initializer free of slashes, dots and [>], it returns the name and
    the trimmed type, each cut to its buffer; a dot anywhere in the statement,
    even in a floating-point initializer, makes it report no declaration. *)
Theorem parse_decl_recognises bl u name t nsz tsz :
  blank bl → forallb type_char u = true → ends_sep u = true → trim u ≠ [] → stops (u ++ name ++ t) = true →
  is_ident name = true → decl_tail t →
  cc_parse_decl_name_and_type (bl ++ u ++ name ++ t) nsz tsz = (fit nsz name, fit tsz (trim u)) ∧
  cc_parse_decl_name_and_type (bl ++ u ++ name ++ t ++ [chr 46]) nsz tsz = ([], []).
Proof.
  intros Hbl Hu He Ht Hs Hn Htl. split; [by apply parse_decl_simple|]. by apply parse_decl_dot.
Qed.
Lemma parse_decl_recognises_witness :
  cc_parse_decl_name_and_type ([SP] ++ txt "char * " ++ txt "p1" ++ (txt " " ++ chr 61 :: txt " f(x)")) 64 4 = (txt "p1", txt "cha") ∧
  cc_parse_decl_name_and_type ([SP] ++ txt "char * " ++ txt "p1" ++ (txt " " ++ chr 61 :: txt " f(x)") ++ [chr 46]) 64 4 = ([], []).
Proof.
  apply (parse_decl_recognises [SP] (txt "char * ") (txt "p1") (txt " " ++ chr 61 :: txt " f(x)") 64 4); try (vm_compute; reflexivity).
  - apply blank_ws; [reflexivity|constructor].
  - vm_compute. discriminate.
  - apply tail_init; vm_compute; reflexivity.
Defined.

(** Out of memory in [cc_sb_append_vfmt] leaves a trap: when the formatted
    text does not fit and [realloc] fails, the builder is left with a NULL
    buffer and a positive capacity, and the next [cc_sb_append] of a short text
    writes through the NULL pointer. *)
Theorem vfmt_oom_then_append_faults mok rok out x ct s :
  sb_ok x ct → is_Some (sb_buf x) → (sb_cap x ≤ Z.of_nat (length ct) + Z.of_nat (length out))%Z →
  (∀ z, rok z = false) → s ≠ [] → length s ≤ length out →
  ∃ x', cc_sb_append_vfmt mok rok (Some out) x = Some x' ∧ sb_buf x' = None ∧ (0 < sb_cap x')%Z ∧
    ∀ rok', cc_sb_append rok' s x' = None.
Proof.
  intros Hok Hb Hfull Hr Hs Hle. destruct (vfmt_loop_grow rok out x ct Hok Hb Hfull) as (nc & b & H1 & H2 & _ & _ & Hv).
  rewrite Hr in Hv. unfold cc_sb_append_vfmt. destruct Hb as [b0 Eb]. rewrite Eb, Hv.
  assert (Hc : (0 ≤ sb_cap x)%Z) by (destruct Hok as [_ Hok]; rewrite Eb in Hok; lia).
  exists (SB None (sb_len x) nc). cbn [sb_buf sb_cap]. split_and!; [done|done|lia|].
  intros rok'. unfold cc_sb_append. rewrite decide_False by done. cbn [sb_buf sb_cap sb_len].
  destruct Hok as [Hl _]. rewrite decide_False by lia. reflexivity.
Qed.
Lemma vfmt_oom_then_append_faults_witness :
  ∃ x', cc_sb_append_vfmt (λ _, true) (λ _, false) (Some (txt "abc")) (SB (Some [Some NUL]) 0 1) = Some x' ∧
    sb_buf x' = None ∧ (0 < sb_cap x')%Z ∧ ∀ rok', cc_sb_append rok' (txt "xy") x' = None.
Proof.
  apply (vfmt_oom_then_append_faults (λ _, true) (λ _, false) (txt "abc") (SB (Some [Some NUL]) 0 1) [] (txt "xy"));
    [split; [reflexivity|split_and!; reflexivity]|by eexists|vm_compute; discriminate|reflexivity|discriminate|vm_compute; lia].
Defined.
