(* ===== verification/EditBuffer.v ===== *)
(** The edit buffer of [src/cc/src/visitor/edit_buffer.c]: collecting edits of
    a source text and applying them from the end to the start, against the
    reference of replacing all ranges of the original text at once. *)
From S2P Require Import Prelude Bytes Lex Text.
From Stdlib Require Import Sorting.Sorted Sorting.Permutation.

Implicit Types (src t : list ascii).

(** * Data *)

Record CCEdit := Edit {
  start_off : nat;
  end_off : nat;
  replacement : list ascii;
  priority : Z;
  pass_name : option (list ascii) }.
Record CCEditBuffer := EB {
  edits : list CCEdit;
  capacity : Z;
  protos : list ascii;
  defs : list ascii;
  eb_src : list ascii }.
#[export] Instance eta_eb : Eta CCEditBuffer := λ r, EB (edits r) (capacity r) (protos r) (defs r) (eb_src r).
Implicit Types (eb : CCEditBuffer) (e : CCEdit) (es : list CCEdit).

(** * Operations

    [alloc sz] says whether an allocation of [sz] bytes succeeds; a failing
    call returns [false] (the source's -1) with the buffer unchanged. *)
Section ops.
Context (alloc : Z → bool).
(** [sizeof(CCEdit)] *)
Context (sizeof_edit : Z).

Definition cc_edit_buffer_init src : CCEditBuffer := EB [] 0 [] [] src.
Definition cc_edit_buffer_free eb : CCEditBuffer := EB [] 0 [] [] [].

(** [cc_edit_buffer_add]; its count and capacity are of type [int], which they
    do not leave before there are 2^30 edits. *)
Definition cc_edit_buffer_add (s f : nat) (repl : option (list ascii)) (prio : Z) (pass : option (list ascii)) eb : bool * CCEditBuffer :=
  if decide (f < s) then (false, eb)
  else if decide (length (eb_src eb) < f) then (false, eb)
  else
  let grown :=
    if decide (capacity eb ≤ Z.of_nat (length (edits eb)))%Z then
      let new_cap := if decide (capacity eb = 0)%Z then 64%Z else (capacity eb * 2)%Z in
      if alloc (new_cap * sizeof_edit)%Z then Some (eb <| capacity := new_cap |>) else None
    else Some eb in
  match grown with
  | None => (false, eb)
  | Some eb =>
      let r := default [] repl in
      if alloc (Z.of_nat (length r) + 1)%Z
      then (true, eb <| edits := edits eb ++ [Edit s f r prio pass] |>) else (false, eb)
  end.
Definition cc_edit_buffer_add_protos (p : list ascii) eb : bool * CCEditBuffer :=
  if decide (p = []) then (true, eb)
  else if alloc (Z.of_nat (length (protos eb) + length p) + 1)%Z then (true, eb <| protos := protos eb ++ p |>) else (false, eb).
Definition cc_edit_buffer_add_defs (d : list ascii) eb : bool * CCEditBuffer :=
  if decide (d = []) then (true, eb)
  else if alloc (Z.of_nat (length (defs eb) + length d) + 1)%Z then (true, eb <| defs := defs eb ++ d |>) else (false, eb).

Definition edit_cmp (a b : CCEdit) : Z :=
  if decide (start_off b < start_off a) then -1%Z
  else if decide (start_off a < start_off b) then 1%Z
  else if decide (priority b < priority a)%Z then -1%Z
  else if decide (priority a < priority b)%Z then 1%Z
  else 0%Z.

(** [find_protos_insertion_point]; [i] is the position of the rest [l].  Every
    round consumes at least one character, so the length is fuel enough. *)
Fixpoint insertion_loop (fuel : nat) (last i : nat) (l : list ascii) : nat :=
  match fuel with
  | O => last
  | S fuel' =>
      match l with
      | [] => last
      | _ =>
          let l1 := drop (span is_blank l) l in
          let line (l : list ascii) := drop 1 (to_eol l) in
          let here (l' : list ascii) := i + (length l - length l') in
          match l1 with
          | c :: l2 =>
              if eqc c (chr 35) then
                let l3 := drop (span is_blank l2) l2 in
                if decide (take 7 l3 = txt "include")
                then insertion_loop fuel' (here (line l3)) (here (line l3)) (line l3)
                else insertion_loop fuel' last (here (line l3)) (line l3)
              else insertion_loop fuel' last (here (line l1)) (line l1)
          | [] => insertion_loop fuel' last (here (line l1)) (line l1)
          end
      end
  end.
Definition find_protos_insertion_point t : nat := insertion_loop (length t) 0 0 t.

(** [memcpy]s of one edit; out-of-range offsets are undefined behaviour. *)
Definition splice (s f : nat) (r t : list ascii) : option (list ascii) :=
  if decide (s ≤ f ∧ f ≤ length t) then Some (take s t ++ r ++ drop f t) else None.

Fixpoint overlapping es : bool :=
  match es with
  | e1 :: (e2 :: _) as es' => bool_decide (start_off e1 < end_off e2) || overlapping es'
  | _ => false
  end.
(** The outcome of an apply: [Fail] is the NULL of an overlap or a failed
    allocation, [None] undefined behaviour. *)
Inductive applied := Fail | Text (t : list ascii).
Fixpoint apply_edits es t : option applied :=
  match es with
  | [] => Some (Text t)
  | e :: es' =>
      t' ← splice (start_off e) (end_off e) (replacement e) t;
      if alloc (Z.of_nat (length t') + 1)%Z then apply_edits es' t' else Some Fail
  end.
Definition result_len es (src_len : nat) : Z :=
  fold_left (λ n e, wrap64 (n - Z.of_nat (end_off e - start_off e) + Z.of_nat (length (replacement e)))) es (Z.of_nat src_len).

(** [qsort] sorts in place, so the buffer afterwards holds the sorted edits. *)
Definition sorted_edits (qsort : list CCEdit → list CCEdit) eb : list CCEdit :=
  if decide (1 < length (edits eb)) then qsort (edits eb) else edits eb.
Definition cc_edit_buffer_apply (qsort : list CCEdit → list CCEdit) eb : option (applied * CCEditBuffer) :=
  let es := sorted_edits qsort eb in
  let eb := eb <| edits := es |> in
  if overlapping es then Some (Fail, eb) else
  let rl := (result_len es (length (eb_src eb)) + Z.of_nat (length (protos eb) + length (defs eb)))%Z in
  if negb (alloc (rl + 1)%Z) then Some (Fail, eb) else
  if negb (alloc (Z.of_nat (length (eb_src eb)) + 1)%Z) then Some (Fail, eb) else
  a ← apply_edits es (eb_src eb);
  match a with
  | Fail => Some (Fail, eb)
  | Text t =>
      let n := Z.of_nat (length t + length (protos eb)) in
      let step1 :=
        if decide (protos eb = []) then Some (Text t)
        else if alloc (n + 1)%Z then
          let p := find_protos_insertion_point t in t' ← splice p p (protos eb) t; Some (Text t')
        else Some Fail in
      a ← step1;
      match a with
      | Fail => Some (Fail, eb)
      | Text t =>
          if decide (defs eb = []) then Some (Text t, eb)
          else if alloc (Z.of_nat (length t + length (defs eb)) + 1)%Z then Some (Text (t ++ defs eb), eb)
          else Some (Fail, eb)
      end
  end.
End ops.

(** * The reference *)

(** All edits at once, in ascending order, over the original text from
    position [pos] on. *)
Fixpoint replace_from (pos : nat) es src : list ascii :=
  match es with
  | [] => drop pos src
  | e :: es' => take (start_off e - pos) (drop pos src) ++ replacement e ++ replace_from (end_off e) es' src
  end.

(** Edits inside the text. *)
Definition edits_ok src es : Prop := Forall (λ e, start_off e ≤ end_off e ≤ length src) es.
(** [qsort] with [edit_cmp]: some permutation in comparator order. *)
Definition edit_le (a b : CCEdit) : Prop := (edit_cmp a b ≤ 0)%Z.
Record sorts (qsort : list CCEdit → list CCEdit) : Prop := {
  qs_perm : ∀ es, qsort es ≡ₚ es;
  qs_sorted : ∀ es, Sorted edit_le (qsort es) }.

(** Descending, pairwise disjoint. *)
Fixpoint descending es : Prop :=
  match es with
  | e1 :: (e2 :: _) as es' => end_off e2 ≤ start_off e1 ∧ descending es'
  | _ => True
  end.

(** * Lemmas *)

Lemma overlapping_false es : overlapping es = false → descending es.
Proof.
  induction es as [|e1 [|e2 es] IH]; [done|done|]. intros [H1 H2]%orb_false_iff.
  apply bool_decide_eq_false_1 in H1. split; [lia|by apply IH].
Qed.

Lemma descending_forall src e es :
  edits_ok src (e :: es) → descending (e :: es) → Forall (λ e', start_off e' ≤ end_off e' ≤ start_off e) es.
Proof.
  revert e. induction es as [|e2 es IH]; intros e Hok Hd; [done|]. destruct Hd as [Hd1 Hd2].
  apply Forall_cons in Hok as [_ Hok]. pose proof Hok as [Hok2 _]%Forall_cons.
  constructor; [lia|]. eapply Forall_impl; [by apply IH|]. simpl. lia.
Qed.
Lemma descending_tail e es : descending (e :: es) → descending es.
Proof. destruct es; [done|]. by intros [_ ?]. Qed.

(** The rightmost edit can be split off the reference. *)
Lemma replace_from_snoc pos es e src :
  Forall (λ e', start_off e' ≤ end_off e' ≤ start_off e) es → pos ≤ start_off e →
  replace_from pos (es ++ [e]) src =
  replace_from pos es (take (start_off e) src) ++ replacement e ++ drop (end_off e) src.
Proof.
  intros Hes. revert pos. induction Hes as [|e1 es He1 _ IH]; intros pos Hp; simpl.
  - by rewrite skipn_firstn_comm.
  - rewrite IH by lia. rewrite skipn_firstn_comm, take_take, Nat.min_l by lia. by rewrite <- !app_assoc.
Qed.

(** End-to-start application is the simultaneous replacement. *)
Lemma apply_edits_ref alloc es A B :
  (∀ z, alloc z = true) → edits_ok A es → descending es →
  apply_edits alloc es (A ++ B) = Some (Text (replace_from 0 (reverse es) A ++ B)).
Proof.
  intros Ha. revert A B. induction es as [|e es IH]; intros A B Hes Hd; simpl; [done|].
  pose proof (descending_forall A e es Hes Hd) as Hall. apply Forall_cons in Hes as [He _].
  unfold splice. rewrite length_app, decide_True by lia. simpl. rewrite Ha.
  rewrite take_app_le, drop_app_le by lia.
  rewrite IH; [|eapply Forall_impl; [exact Hall|]; simpl; intros e'; rewrite length_take; lia|by eapply descending_tail].
  rewrite reverse_cons, replace_from_snoc; [|by apply Forall_reverse|lia]. by rewrite <- !app_assoc.
Qed.

(** ** The insertion point *)

Lemma span_le f l : span f l ≤ length l.
Proof. induction l as [|c l IH]; simpl; [lia|]. destruct (f c); lia. Qed.

Lemma length_to_eol l : length (to_eol l) ≤ length l.
Proof. unfold to_eol. rewrite length_drop. lia. Qed.
(** A position where a line starts, or the end of the text. *)
Definition line_start (t : list ascii) (p : nat) : Prop :=
  p = 0 ∨ p = length t ∨ t !! (p - 1) = Some NL.
Lemma to_eol_shape l : ∃ k, to_eol l = drop k l ∧ k ≤ length l ∧ (k = length l ∨ l !! k = Some NL).
Proof.
  unfold to_eol. exists (span (λ c, negb (eqc c NL)) l). split; [done|].
  induction l as [|c l IH]; simpl; [lia|]. destruct (eqc c NL) eqn:E; simpl.
  - apply eqc_true in E as ->. split; [lia|by right].
  - destruct IH as [? [?|?]]; (split; [lia|]); [left; lia|by right].
Qed.
(** The next line of the rest [drop i t]. *)
Lemma next_line t i j :
  i ≤ j ≤ length t → ∃ p, drop 1 (to_eol (drop j t)) = drop p t ∧ i ≤ p ≤ length t ∧ (i < length t → i < p) ∧ line_start t p.
Proof.
  intros Hj. destruct (to_eol_shape (drop j t)) as (k & -> & Hk & Hor). rewrite length_drop in Hk.
  rewrite !drop_drop. destruct (decide (j + k = length t)) as [E|Hne].
  - exists (length t). rewrite !drop_ge by lia. split_and!; try done; try lia. right. by left.
  - exists (j + k + 1). split_and!; [f_equal; lia|lia|lia|lia|]. right. right.
    destruct Hor as [Hl|Hl]; [rewrite length_drop in Hl; lia|]. rewrite lookup_drop in Hl. by replace (j + k + 1 - 1) with (j + k) by lia.
Qed.
Lemma insertion_loop_spec fuel t last i :
  line_start t last → last ≤ length t → i ≤ length t →
  line_start t (insertion_loop fuel last i (drop i t)) ∧ insertion_loop fuel last i (drop i t) ≤ length t.
Proof.
  revert last i. induction fuel as [|fuel IH]; intros last i Hl Hle Hi; [done|]. cbn [insertion_loop].
  destruct (drop i t) as [|c0 l0] eqn:E; [done|]. rewrite <- E. clear c0 l0 E. cbv zeta.
  assert (Hrec : ∀ j last', i ≤ j ≤ length t → line_start t last' → last' ≤ length t →
    (∃ p, drop 1 (to_eol (drop j t)) = drop p t ∧ p ≤ length t ∧ line_start t p ∧
       i + (length (drop i t) - length (drop 1 (to_eol (drop j t)))) = p) ).
  { intros j last' Hj _ _. destruct (next_line t i j Hj) as (p & Hp & Hb & _ & Hs). exists p. split_and!; [done|lia|done|].
    rewrite Hp, !length_drop. lia. }
  assert (Hgo : ∀ j last', i ≤ j ≤ length t → line_start t last' → last' ≤ length t → ∀ (take_it : bool),
    line_start t (insertion_loop fuel (if take_it then i + (length (drop i t) - length (drop 1 (to_eol (drop j t)))) else last')
      (i + (length (drop i t) - length (drop 1 (to_eol (drop j t))))) (drop 1 (to_eol (drop j t)))) ∧
    insertion_loop fuel (if take_it then i + (length (drop i t) - length (drop 1 (to_eol (drop j t)))) else last')
      (i + (length (drop i t) - length (drop 1 (to_eol (drop j t))))) (drop 1 (to_eol (drop j t))) ≤ length t).
  { intros j last' Hj H1 H2 b. destruct (Hrec j last' Hj H1 H2) as (p & Hp & Hpl & Hs & Hpos). rewrite Hpos, Hp.
    apply IH; [by destruct b|by destruct b|done]. }
  rewrite drop_drop. pose proof (span_le is_blank (drop i t)) as Hsp. rewrite length_drop in Hsp.
  set (j := i + span is_blank (drop i t)) in *. assert (Hj0 : i ≤ j ≤ length t) by (unfold j; lia). clearbody j.
  destruct (drop j t) as [|c l2] eqn:Ej.
  { rewrite <- Ej. apply (Hgo j last ltac:(lia) Hl Hle false). }
  destruct (eqc c (chr 35)); [|rewrite <- Ej; apply (Hgo j last ltac:(lia) Hl Hle false)].
  assert (Hj : j < length t) by (apply (f_equal length) in Ej; rewrite length_drop in Ej; simpl in Ej; lia).
  assert (E2 : l2 = drop (S j) t) by (by apply (f_equal (drop 1)) in Ej; rewrite drop_drop, Nat.add_1_r in Ej). subst l2.
  rewrite drop_drop. pose proof (span_le is_blank (drop (S j) t)) as Hsp2. rewrite length_drop in Hsp2.
  assert (Hj2 : i ≤ S j + span is_blank (drop (S j) t) ≤ length t) by lia.
  case_decide; [apply (Hgo _ last Hj2 Hl Hle true)|apply (Hgo _ last Hj2 Hl Hle false)].
Qed.

Lemma find_protos_insertion_point_ok t : find_protos_insertion_point t ≤ length t ∧ line_start t (find_protos_insertion_point t).
Proof.
  unfold find_protos_insertion_point. pose proof (insertion_loop_spec (length t) t 0 0) as H. rewrite drop_0 in H.
  destruct H as [? ?]; [by left|lia|lia|done].
Qed.

(** ** The whole apply *)

(** The generated text around the edited source. *)
Definition finish (pr df t : list ascii) : list ascii :=
  let p := find_protos_insertion_point t in
  (if decide (pr = []) then t else take p t ++ pr ++ drop p t) ++ df.

Lemma sorted_edits_perm qsort eb : (∀ es, qsort es ≡ₚ es) → sorted_edits qsort eb ≡ₚ edits eb.
Proof. intros Hq. unfold sorted_edits. by case_decide. Qed.

Lemma apply_ok alloc qsort eb :
  (∀ z, alloc z = true) → (∀ es, qsort es ≡ₚ es) → edits_ok (eb_src eb) (edits eb) →
  let es := sorted_edits qsort eb in
  cc_edit_buffer_apply alloc qsort eb =
    if overlapping es then Some (Fail, eb <| edits := es |>)
    else Some (Text (finish (protos eb) (defs eb) (replace_from 0 (reverse es) (eb_src eb))), eb <| edits := es |>).
Proof.
  intros Ha Hq Hok es. unfold cc_edit_buffer_apply. fold es.
  assert (Hp : es ≡ₚ edits eb) by by apply sorted_edits_perm. simpl.
  destruct (overlapping es) eqn:Eo; [done|]. rewrite !Ha. simpl.
  rewrite <- (app_nil_r (eb_src eb)) at 1. rewrite apply_edits_ref; [|done| |by apply overlapping_false].
  2: { unfold edits_ok. by rewrite Hp. }
  rewrite app_nil_r. simpl. unfold finish. set (t := replace_from 0 (reverse es) (eb_src eb)).
  destruct (find_protos_insertion_point_ok t) as [Hi _].
  destruct (decide (protos eb = [])); [|unfold splice; rewrite decide_True by lia]; simpl; rewrite ?Ha; simpl;
    (destruct (decide (defs eb = [])) as [Hd|]; [by rewrite Hd, app_nil_r|by rewrite ?Ha]).
Qed.
