(* ===== verification/EditProps.v ===== *)
(** The properties of the edit buffer, with concrete instances. *)
From S2P Require Import Prelude Bytes Lex Text EditBuffer.
From stdpp Require Import sorting.

Implicit Types (e : CCEdit) (es : list CCEdit) (eb : CCEditBuffer).

(** * Sorting functions that satisfy the contract of [qsort] *)

#[export] Instance edit_le_dec : RelDecision edit_le.
Proof. intros a b. unfold edit_le. apply _. Defined.
Lemma edit_le_iff a b :
  edit_le a b ↔ start_off b < start_off a ∨ start_off b = start_off a ∧ (priority b ≤ priority a)%Z.
Proof. unfold edit_le, edit_cmp. repeat case_decide; lia. Qed.
#[export] Instance edit_le_total : Total edit_le.
Proof. intros a b. rewrite !edit_le_iff. lia. Qed.

(** A stable sort, and a stable sort of the reversed array. *)
Definition stable_sort es : list CCEdit := merge_sort edit_le es.
Definition reversed_sort es : list CCEdit := merge_sort edit_le (reverse es).
Lemma stable_sort_sorts : sorts stable_sort.
Proof. split; intros es; [apply merge_sort_Permutation|apply Sorted_merge_sort; apply _]. Qed.
Lemma reversed_sort_sorts : sorts reversed_sort.
Proof. split; intros es; [unfold reversed_sort; rewrite merge_sort_Permutation; apply reverse_Permutation|apply Sorted_merge_sort; apply _]. Qed.

(** * Building a buffer *)

Inductive eb_op :=
  | OpAdd (s f : nat) (r : option (list ascii)) (prio : Z) (pass : option (list ascii))
  | OpProtos (p : list ascii) | OpDefs (d : list ascii).
Definition run_op (alloc : Z → bool) (sz : Z) (op : eb_op) eb : CCEditBuffer :=
  snd (match op with
       | OpAdd s f r prio pass => cc_edit_buffer_add alloc sz s f r prio pass eb
       | OpProtos p => cc_edit_buffer_add_protos alloc p eb
       | OpDefs d => cc_edit_buffer_add_defs alloc d eb
       end).
Definition run_ops (alloc : Z → bool) (sz : Z) (ops : list eb_op) eb : CCEditBuffer :=
  fold_left (λ eb op, run_op alloc sz op eb) ops eb.
(** The edits the sequence asks for that lie inside the text. *)
Definition accepted (src : list ascii) (op : eb_op) : list CCEdit :=
  match op with
  | OpAdd s f r prio pass => if decide (s ≤ f ≤ length src) then [Edit s f (default [] r) prio pass] else []
  | _ => []
  end.

(** Ranges that do not touch each other's inside, with distinct starts. *)
Definition separate es : Prop :=
  NoDup (start_off <$> es) ∧
  ∀ e1 e2, e1 ∈ es → e2 ∈ es → start_off e1 ≠ start_off e2 → end_off e1 ≤ start_off e2 ∨ end_off e2 ≤ start_off e1.

Lemma separate_no_overlap src es :
  edits_ok src es → Sorted edit_le es → separate es → overlapping es = false.
Proof.
  intros Hok Hs [Hnd Hd]. induction Hs as [|e1 es Hs IH Hh]; [done|]. destruct es as [|e2 es]; [done|]. simpl.
  apply Forall_cons in Hok as [Hok1 Hok]. simpl in Hnd. apply NoDup_cons in Hnd as [Hni Hnd].
  apply orb_false_iff. split.
  - apply bool_decide_eq_false_2. apply HdRel_inv in Hh. apply edit_le_iff in Hh.
    assert (Hne : start_off e1 ≠ start_off e2) by set_solver.
    destruct (Hd e1 e2) as [?|?]; [set_solver|set_solver|done|lia|lia].
  - apply IH; [done|done|]. intros e e' He He'. apply Hd; set_solver.
Qed.

Lemma run_op_spec alloc sz op eb :
  (∀ z, alloc z = true) →
  eb_src (run_op alloc sz op eb) = eb_src eb ∧ edits (run_op alloc sz op eb) = edits eb ++ accepted (eb_src eb) op.
Proof.
  intros Ha. destruct op as [s f r prio pass|p|d]; unfold run_op, accepted.
  - unfold cc_edit_buffer_add. destruct (decide (f < s)); [rewrite (decide_False (P := s ≤ f ≤ length (eb_src eb))) by lia; by rewrite app_nil_r|].
    destruct (decide (length (eb_src eb) < f)); [rewrite (decide_False (P := s ≤ f ≤ length (eb_src eb))) by lia; by rewrite app_nil_r|].
    rewrite (decide_True (P := s ≤ f ≤ length (eb_src eb))) by lia. rewrite Ha. by destruct (decide (capacity eb ≤ _)%Z); rewrite Ha.
  - unfold cc_edit_buffer_add_protos. rewrite Ha, app_nil_r. by case_decide.
  - unfold cc_edit_buffer_add_defs. rewrite Ha, app_nil_r. by case_decide.
Qed.
Lemma run_ops_spec alloc sz ops eb :
  (∀ z, alloc z = true) →
  eb_src (run_ops alloc sz ops eb) = eb_src eb ∧
  edits (run_ops alloc sz ops eb) = edits eb ++ (ops ≫= accepted (eb_src eb)).
Proof.
  intros Ha. revert eb. induction ops as [|op ops IH]; intros eb; [by rewrite app_nil_r|].
  unfold run_ops in *. simpl. destruct (IH (run_op alloc sz op eb)) as [-> ->]. destruct (run_op_spec alloc sz op eb Ha) as [-> ->].
  by rewrite <- app_assoc.
Qed.
Lemma accepted_ok src ops : edits_ok src (ops ≫= accepted src).
Proof.
  induction ops as [|op ops IH]; [by constructor|]. simpl. apply Forall_app. split; [|exact IH].
  destruct op; simpl; [|by constructor..]. case_decide; repeat constructor; simpl; lia.
Qed.

(** * Properties *)

(** C16: Applying edits from the end to the start is replacing all ranges of
    the original text at once.  Whatever sequence of calls filled the buffer,
    out-of-range edits are refused, and with memory available and any [qsort]
    that sorts by the comparator the result is the original text with every
    accepted range replaced, the prototypes at a line start inside it and the
    definitions at the end - unless two adjacent sorted edits overlap, which
    is reported; edits with distinct starts and disjoint ranges never are. *)
Theorem edit_apply_is_simultaneous alloc sz qsort src ops :
  (∀ z, alloc z = true) → sorts qsort →
  let eb := run_ops alloc sz ops (cc_edit_buffer_init src) in
  let es := sorted_edits qsort eb in
  es ≡ₚ (ops ≫= accepted src) ∧
  cc_edit_buffer_apply alloc qsort eb =
    (if overlapping es then Some (Fail, eb <| edits := es |>)
     else Some (Text (finish (protos eb) (defs eb) (replace_from 0 (reverse es) src)), eb <| edits := es |>)) ∧
  (separate (ops ≫= accepted src) → overlapping es = false).
Proof.
  intros Ha Hq eb es. destruct (run_ops_spec alloc sz ops (cc_edit_buffer_init src) Ha) as [Hsrc Hed]. fold eb in Hsrc, Hed.
  simpl in Hsrc, Hed. pose proof (accepted_ok src ops) as Hok.
  assert (Hp : es ≡ₚ (ops ≫= accepted src)) by (rewrite <- Hed; apply sorted_edits_perm, Hq).
  split; [done|]. split; [rewrite apply_ok; [by rewrite Hsrc|done|apply Hq|by rewrite Hsrc, Hed]|].
  intros [Hnd Hd]. unfold es, sorted_edits in *. case_decide.
  - apply (separate_no_overlap src); [unfold edits_ok; by rewrite Hp|apply Hq|].
    split; [by rewrite Hp|]. intros e1 e2. rewrite !Hp. apply Hd.
  - by destruct (edits eb) as [|? [|? ?]]; [..|simpl in *; lia].
Qed.

Definition demo_ops : list eb_op :=
  [OpAdd 4 5 (Some (txt "Y")) 0 None; OpAdd 0 3 (Some (txt "long")) 0 None; OpAdd 9 20 None 0 None; OpDefs (txt "//end")].
Lemma edit_apply_is_simultaneous_witness :
  let eb := run_ops (λ _, true) 40 demo_ops (cc_edit_buffer_init (txt "int x;")) in
  let es := sorted_edits stable_sort eb in
  (es ≡ₚ (demo_ops ≫= accepted (txt "int x;")) ∧
   cc_edit_buffer_apply (λ _, true) stable_sort eb =
    (if overlapping es then Some (Fail, eb <| edits := es |>)
     else Some (Text (finish (protos eb) (defs eb) (replace_from 0 (reverse es) (txt "int x;"))), eb <| edits := es |>)) ∧
   (separate (demo_ops ≫= accepted (txt "int x;")) → overlapping es = false)) ∧
  fst <$> cc_edit_buffer_apply (λ _, true) stable_sort eb = Some (Text (txt "long Y;//end")).
Proof.
  intros eb es. split; [|vm_compute; reflexivity].
  exact (edit_apply_is_simultaneous (λ _, true) 40 stable_sort (txt "int x;") demo_ops (λ _, eq_refl) stable_sort_sorts).
Defined.

(** Whether an insertion at the start of a replaced range is accepted
    depends on the order [qsort] leaves equal elements in: for the same two
    edits of equal priority one correct [qsort] makes the apply fail as
    overlapping and another makes it succeed. *)
Theorem edit_order_of_equals_matters :
  let eb := run_ops (λ _, true) 40 [OpAdd 1 1 (Some (txt "X")) 0 None; OpAdd 1 2 (Some (txt "Y")) 0 None] (cc_edit_buffer_init (txt "abc")) in
  sorts stable_sort ∧ sorts reversed_sort ∧
  fst <$> cc_edit_buffer_apply (λ _, true) stable_sort eb = Some Fail ∧
  fst <$> cc_edit_buffer_apply (λ _, true) reversed_sort eb = Some (Text (txt "aXYc")).
Proof. intros eb. split_and!; [apply stable_sort_sorts|apply reversed_sort_sorts|by vm_compute|by vm_compute]. Qed.
