(* ===== verification/Registry.v ===== *)
(** The name collections of the compiler: [src/cc/src/util/string_set.h]
    (string set and string map) and [src/cc/src/util/result_fn_registry.c] (the
    registry of functions that return a result).  [StrSet] states what a set
    of names promises; both set implementations satisfy it. *)
From S2P Require Import Prelude Lex.

Implicit Types (n k : list ascii).

(** * The interface *)

(** A set of names, with memory available. *)
Class StrSet (T : Type) := {
  ss_empty : T;
  ss_add : list ascii → T → T;
  ss_mem : list ascii → T → bool;
  ss_valid : list ascii → Prop }.
Class StrSetLaws (T : Type) `{!StrSet T} := {
  ss_mem_empty n : ss_mem n ss_empty = false;
  ss_mem_add n n' (s : T) : ss_valid n → ss_mem n' (ss_add n s) = bool_decide (n' = n) || ss_mem n' s;
  ss_add_idem n (s : T) : ss_mem n s = true → ss_add n s = s }.

(** Adding a list of names. *)
Definition ss_of_list {T} `{!StrSet T} (ns : list (list ascii)) : T := fold_left (λ s n, ss_add n s) ns ss_empty.
Lemma ss_mem_of_list {T} `{!StrSet T, !StrSetLaws T} ns n :
  Forall ss_valid ns → ss_mem n (ss_of_list ns : T) = bool_decide (n ∈ ns).
Proof.
  intros Hv. unfold ss_of_list.
  assert (Hg : ∀ s : T, ss_mem n (fold_left (λ s n, ss_add n s) ns s) = bool_decide (n ∈ ns) || ss_mem n s).
  { induction Hv as [|x ns Hx _ IH]; intros s; simpl; [done|].
    rewrite IH, ss_mem_add by done. repeat case_bool_decide; simpl; try done; set_solver. }
  by rewrite Hg, ss_mem_empty, orb_false_r.
Qed.

(** * [CCStringSet]

    An item is [None] when its [strdup] failed; comparing it is undefined, as
    is storing into an array whose [realloc] failed. *)
Record CCStringSet := StringSet { set_items : list (option (list ascii)); set_cap : Z }.
Definition cc_string_set_init : CCStringSet := StringSet [] 0.
Definition cc_string_set_free (_ : CCStringSet) : CCStringSet := StringSet [] 0.
Fixpoint strcmp_scan (l : list (option (list ascii))) n : option bool :=
  match l with
  | [] => Some false
  | None :: _ => None
  | Some x :: l' => if decide (x = n) then Some true else strcmp_scan l' n
  end.
(** [ok_arr], [ok_dup]: whether [realloc] and [strdup] succeed. *)
Definition cc_string_set_add (ok_arr ok_dup : bool) (name : option (list ascii)) (s : CCStringSet) : option CCStringSet :=
  match name with
  | None => Some s
  | Some n =>
      present ← strcmp_scan (set_items s) n;
      if (present : bool) then Some s else
      let full := bool_decide (set_cap s ≤ Z.of_nat (length (set_items s)))%Z in
      if full && negb ok_arr then None else
      let c := if full then if decide (set_cap s = 0)%Z then 8%Z else (set_cap s * 2)%Z else set_cap s in
      Some (StringSet (set_items s ++ [if ok_dup then Some n else None]) c)
  end.
Definition cc_string_set_contains (s : CCStringSet) (name : option (list ascii)) : option bool :=
  match name with None => Some false | Some n => strcmp_scan (set_items s) n end.

(** * [CCStringMap] *)

Record CCStringMap := StringMap { map_items : list (list ascii * option (list ascii)); map_cap : Z }.
Definition cc_string_map_init : CCStringMap := StringMap [] 0.
Definition cc_string_map_free (_ : CCStringMap) : CCStringMap := StringMap [] 0.
Fixpoint map_update (k : list ascii) (v : option (list ascii)) (l : list (list ascii * option (list ascii))) :
    option (list (list ascii * option (list ascii))) :=
  match l with
  | [] => None
  | (k', v') :: l' => if decide (k' = k) then Some ((k', v) :: l') else (λ r, (k', v') :: r) <$> map_update k v l'
  end.
(** With memory available. *)
Definition cc_string_map_set (key : option (list ascii)) (v : option (list ascii)) (m : CCStringMap) : CCStringMap :=
  match key with
  | None => m
  | Some k =>
      match map_update k v (map_items m) with
      | Some l => StringMap l (map_cap m)
      | None =>
          let c := if decide (map_cap m ≤ Z.of_nat (length (map_items m)))%Z
                   then if decide (map_cap m = 0)%Z then 16%Z else (map_cap m * 2)%Z else map_cap m in
          StringMap (map_items m ++ [(k, v)]) c
      end
  end.
Fixpoint map_find (k : list ascii) (l : list (list ascii * option (list ascii))) : option (list ascii) :=
  match l with
  | [] => None
  | (k', v) :: l' => if decide (k' = k) then v else map_find k l'
  end.
Definition cc_string_map_get (m : CCStringMap) (key : option (list ascii)) : option (list ascii) :=
  match key with None => None | Some k => map_find k (map_items m) end.

(** * The result-function registry *)

(** A heap array of names; a pointer whose block was released is [Dangling].
    The NULL pointer of an empty collection is [Live []]. *)
Inductive arr := Live (l : list (list ascii)) | Dangling.
Record cc_name_set := NameSet { ns_names : list (list ascii); ns_cap : Z }.
Record cc_name_err_map := NameErrMap { nm_names : arr; nm_errs : arr; nm_len : nat; nm_cap : Z }.
Definition cc__name_set_clear (_ : cc_name_set) : cc_name_set := NameSet [] 0.
(** Freeing a released block is undefined: [None]. *)
Definition cc__name_err_map_clear (m : cc_name_err_map) : option cc_name_err_map :=
  match nm_names m, nm_errs m with
  | Live _, Live _ => Some (NameErrMap (Live []) (Live []) 0 0)
  | _, _ => None
  end.
Definition cc__name_set_contains (s : cc_name_set) n : bool :=
  if decide (n = []) then false else bool_decide (n ∈ ns_names s).
Definition cc__name_set_add (ok_arr ok_dup : bool) n (s : cc_name_set) : cc_name_set :=
  if decide (n = []) then s else
  if cc__name_set_contains s n then s else
  let full := bool_decide (Z.of_nat (length (ns_names s)) = ns_cap s) in
  if full && negb ok_arr then s else
  let s := if full then NameSet (ns_names s) (if decide (ns_cap s = 0)%Z then 16%Z else (ns_cap s * 2)%Z) else s in
  if ok_dup then NameSet (ns_names s ++ [n]) (ns_cap s) else s.

(** The loop over the names: the index of the first equal one; reading a
    released array is undefined, the outer [None]. *)
Fixpoint name_index n (i len : nat) (l : list (list ascii)) : option (option nat) :=
  match len with
  | O => Some None
  | S len' =>
      match l with
      | [] => None
      | x :: l' => if decide (x = n) then Some (Some i) else name_index n (S i) len' l'
      end
  end.
Definition name_scan n (len : nat) (a : arr) : option (option nat) :=
  match len, a with
  | O, _ => Some None
  | _, Dangling => None
  | _, Live l => name_index n 0 len l
  end.
Definition cc__name_err_map_get (m : cc_name_err_map) n : option (option (list ascii)) :=
  if decide (n = []) then Some None else
  o ← name_scan n (nm_len m) (nm_names m);
  match o with
  | None => Some None
  | Some i => match nm_errs m with Dangling => None | Live errs => Some <$> errs !! i end
  end.
(** One [realloc] of the pair: [ok] its outcome.  When the other one fails the
    new block is freed too, and the field keeps the old pointer. *)
Definition after_failed_grow (ok : bool) (cap : Z) (a : arr) : arr :=
  if ok && negb (bool_decide (cap = 0)%Z) then Dangling else a.
(** [ok_n], [ok_e]: the two [realloc]s; [ok_dup]: both [malloc]s.  [None]:
    [realloc] of, or a store into, a released block. *)
Definition cc__name_err_map_set (ok_n ok_e ok_dup : bool) n (e : list ascii) (m : cc_name_err_map) : option cc_name_err_map :=
  if decide (n = [] ∨ e = []) then Some m else
  o ← name_scan n (nm_len m) (nm_names m);
  match o with
  | Some _ => Some m
  | None =>
      match nm_names m, nm_errs m with
      | Live names, Live errs =>
          let full := bool_decide (Z.of_nat (nm_len m) = nm_cap m) in
          if full && negb (ok_n && ok_e) then
            Some (NameErrMap (after_failed_grow ok_n (nm_cap m) (Live names)) (after_failed_grow ok_e (nm_cap m) (Live errs)) (nm_len m) (nm_cap m))
          else
          let c := if full then if decide (nm_cap m = 0)%Z then 16%Z else (nm_cap m * 2)%Z else nm_cap m in
          if ok_dup then Some (NameErrMap (Live (names ++ [n])) (Live (errs ++ [e])) (S (nm_len m)) c)
          else Some (NameErrMap (Live names) (Live errs) (nm_len m) c)
      | _, _ => None
      end
  end.

(** The two globals. *)
Record registry := Registry { g_result_fns : cc_name_set; g_result_fn_err : cc_name_err_map }.
Definition registry_init : registry := Registry (NameSet [] 0) (NameErrMap (Live []) (Live []) 0 0).
Definition cc_result_fn_registry_clear (r : registry) : option registry :=
  m ← cc__name_err_map_clear (g_result_fn_err r);
  Some (Registry (cc__name_set_clear (g_result_fns r)) m).
Definition cc_result_fn_registry_contains (r : registry) n : bool := cc__name_set_contains (g_result_fns r) n.
Definition cc_result_fn_registry_add (ok_arr ok_dup : bool) n (r : registry) : registry :=
  Registry (cc__name_set_add ok_arr ok_dup n (g_result_fns r)) (g_result_fn_err r).
(** The first two outcomes are those of the set, the other three the map's. *)
Definition cc_result_fn_registry_add_typed (ok_arr ok_dup ok_n ok_e ok_dups : bool) n (e : list ascii) (r : registry) : option registry :=
  let s := cc__name_set_add ok_arr ok_dup n (g_result_fns r) in
  m ← cc__name_err_map_set ok_n ok_e ok_dups n e (g_result_fn_err r);
  Some (Registry s m).
(** The text copied to the buffer of [sz] bytes; the inner [None] is the
    return value 0. *)
Definition cc_result_fn_registry_get_err_type (r : registry) n (sz : nat) : option (option (list ascii)) :=
  if decide (sz = 0) then Some None else
  o ← cc__name_err_map_get (g_result_fn_err r) n;
  Some (match o with Some e => if decide (sz < length e + 1) then None else Some e | None => None end).

(** * Lemmas *)

Lemma scan_live ns n : strcmp_scan (Some <$> ns) n = Some (bool_decide (n ∈ ns)).
Proof.
  induction ns as [|x ns IH]; [done|]. rewrite fmap_cons. cbn [strcmp_scan].
  destruct (decide (x = n)) as [->|Hne]; [by rewrite bool_decide_eq_true_2 by set_solver|]. rewrite IH. f_equal. apply bool_decide_ext. set_solver.
Qed.

(** The string set as an instance: only sets without failed duplications, as
    memory-available use produces them. *)
Record live_set := LiveSet { live_names : list (list ascii); live_cap : Z }.
Definition to_set (s : live_set) : CCStringSet := StringSet (Some <$> live_names s) (live_cap s).
Definition live_add n (s : live_set) : live_set :=
  if bool_decide (n ∈ live_names s) then s else
  LiveSet (live_names s ++ [n])
    (if bool_decide (live_cap s ≤ Z.of_nat (length (live_names s)))%Z
     then if decide (live_cap s = 0)%Z then 8%Z else (live_cap s * 2)%Z else live_cap s).
Lemma string_set_add_live n s : cc_string_set_add true true (Some n) (to_set s) = Some (to_set (live_add n s)).
Proof.
  unfold cc_string_set_add, to_set, live_add. simpl. rewrite scan_live. simpl. case_bool_decide; [done|].
  rewrite length_fmap, andb_false_r. simpl. by rewrite fmap_app.
Qed.
Lemma string_set_contains_live n s : cc_string_set_contains (to_set s) (Some n) = Some (bool_decide (n ∈ live_names s)).
Proof. apply scan_live. Qed.
#[export] Instance live_set_strset : StrSet live_set :=
  {| ss_empty := LiveSet [] 0; ss_add := live_add; ss_mem n s := bool_decide (n ∈ live_names s); ss_valid _ := True |}.
#[export] Instance live_set_laws : StrSetLaws live_set.
Proof.
  split; simpl.
  - done.
  - intros n n' s _. unfold live_add. case_bool_decide as Hin; simpl; repeat case_bool_decide; simpl; try done; set_solver.
  - intros n s. unfold live_add. by intros ->.
Qed.

(** The registry's set as an instance. *)
#[export] Instance name_set_strset : StrSet cc_name_set :=
  {| ss_empty := NameSet [] 0; ss_add := cc__name_set_add true true; ss_mem n s := cc__name_set_contains s n; ss_valid n := n ≠ [] |}.
Lemma name_set_add_names n s :
  n ≠ [] → ns_names (cc__name_set_add true true n s) = if bool_decide (n ∈ ns_names s) then ns_names s else ns_names s ++ [n].
Proof.
  intros Hn. unfold cc__name_set_add, cc__name_set_contains. rewrite !decide_False by done.
  destruct (bool_decide (n ∈ ns_names s)); [done|]. rewrite andb_false_r. by destruct (bool_decide _).
Qed.
#[export] Instance name_set_laws : StrSetLaws cc_name_set.
Proof.
  split; simpl.
  - intros n. unfold cc__name_set_contains. simpl. by case_decide.
  - intros n n' s Hn. unfold cc__name_set_contains. destruct (decide (n' = [])) as [->|Hn'].
    + by rewrite bool_decide_eq_false_2 by congruence.
    + rewrite name_set_add_names by done. case_bool_decide as Hin; repeat case_bool_decide; simpl; try done; set_solver.
  - intros n s Hm. unfold cc__name_set_add. rewrite Hm. by case_decide.
Qed.

(** ** The map *)

Lemma map_update_spec k v l k' :
  match map_update k v l with
  | Some l' => map_find k' l' = if decide (k' = k) then v else map_find k' l
  | None => k ∉ l.*1
  end.
Proof.
  induction l as [|[k1 v1] l IH]; simpl; [set_solver|]. destruct (decide (k1 = k)) as [E1|N1]; simpl.
  - subst k1. destruct (decide (k' = k)) as [E2|N2]; [by rewrite decide_True|by rewrite !decide_False].
  - destruct (map_update k v l) as [l'|]; simpl; [|set_solver].
    destruct (decide (k1 = k')) as [E2|N2]; [rewrite decide_False by congruence; done|done].
Qed.
Lemma map_find_snoc k v l k' : k ∉ l.*1 → map_find k' (l ++ [(k, v)]) = if decide (k' = k) then v else map_find k' l.
Proof.
  induction l as [|[k1 v1] l IH]; simpl; intros Hn.
  - by destruct (decide (k = k')), (decide (k' = k)); subst.
  - destruct (decide (k1 = k')) as [->|]; [rewrite decide_False; [done|set_solver]|]. apply IH. set_solver.
Qed.

(** ** The error map *)

(** The value the map holds for a name: that of its first pair. *)
Fixpoint err_scan n (names errs : list (list ascii)) : option (list ascii) :=
  match names, errs with
  | x :: names', e :: errs' => if decide (x = n) then Some e else err_scan n names' errs'
  | _, _ => None
  end.
Definition err_map_ok (m : cc_name_err_map) (names errs : list (list ascii)) : Prop :=
  nm_names m = Live names ∧ nm_errs m = Live errs ∧ nm_len m = length names ∧ length names = length errs.
Lemma name_index_spec n i l :
  ∃ o, name_index n i (length l) l = Some o ∧
    match o with Some j => i ≤ j ∧ l !! (j - i) = Some n ∧ n ∉ take (j - i) l | None => n ∉ l end.
Proof.
  revert i. induction l as [|x l IH]; intros i; simpl; [exists None; split; [done|set_solver]|].
  destruct (decide (x = n)) as [->|Hx]; [exists (Some i); rewrite Nat.sub_diag; split_and!; [done|lia|done|set_solver]|].
  destruct (IH (S i)) as ([j|] & -> & Hj); [|exists None; split; [done|set_solver]].
  destruct Hj as (? & ? & ?). exists (Some j). replace (j - i) with (S (j - S i)) by lia. split_and!; [done|lia|done|set_solver].
Qed.
Lemma name_scan_spec n l :
  ∃ o, name_scan n (length l) (Live l) = Some o ∧
    match o with Some j => l !! j = Some n ∧ n ∉ take j l | None => n ∉ l end.
Proof.
  destruct (name_index_spec n 0 l) as (o & Ho & Hs). exists o. split; [by destruct l|].
  destruct o as [j|]; [|done]. rewrite Nat.sub_0_r in Hs. naive_solver.
Qed.
Lemma err_scan_None n names errs : length names = length errs → err_scan n names errs = None ↔ n ∉ names.
Proof.
  revert errs. induction names as [|x names IH]; intros [|e errs] Hl; try done; simpl; [set_solver|].
  destruct (decide (x = n)) as [->|Hx]; [set_solver|]. rewrite IH by by injection Hl. set_solver.
Qed.
Lemma err_scan_at n names errs j :
  length names = length errs → names !! j = Some n → n ∉ take j names → err_scan n names errs = errs !! j.
Proof.
  revert errs j. induction names as [|x names IH]; intros [|e errs] [|j] Hl Hj Hn; try done; simpl in *.
  - by rewrite decide_True by congruence.
  - rewrite decide_False by set_solver. apply IH; [by injection Hl|done|set_solver].
Qed.
Lemma err_scan_snoc n names errs n' e :
  length names = length errs → n' ∉ names →
  err_scan n (names ++ [n']) (errs ++ [e]) = if decide (n = n') then Some e else err_scan n names errs.
Proof.
  revert errs. induction names as [|x names IH]; intros [|e' errs] Hl Hn; try done; simpl.
  - by destruct (decide (n' = n)), (decide (n = n')); subst.
  - destruct (decide (x = n)) as [->|]; [rewrite decide_False; [done|set_solver]|]. apply IH; [by injection Hl|set_solver].
Qed.
Lemma err_map_get_ok n m names errs :
  err_map_ok m names errs → n ≠ [] → cc__name_err_map_get m n = Some (err_scan n names errs).
Proof.
  intros (Hn & He & Hlen & Hl) Hn0. unfold cc__name_err_map_get. rewrite decide_False by exact Hn0. rewrite Hn, He, Hlen.
  destruct (name_scan_spec n names) as (o & -> & Hs). simpl. destruct o as [j|]; [|by rewrite (proj2 (err_scan_None n _ _ Hl) Hs)].
  destruct Hs as [Hj Ht]. rewrite (err_scan_at n names errs j) by done.
  assert (Hlt : j < length errs) by (rewrite <- Hl; by apply lookup_lt_Some in Hj).
  apply lookup_lt_is_Some in Hlt as [x ->]. done.
Qed.
Lemma err_map_set_ok n e m names errs :
  err_map_ok m names errs → n ≠ [] → e ≠ [] →
  ∃ m', cc__name_err_map_set true true true n e m = Some m' ∧
    if decide (n ∈ names) then m' = m else err_map_ok m' (names ++ [n]) (errs ++ [e]).
Proof.
  intros (Hn & He & Hlen & Hl) Hn0 He0. unfold cc__name_err_map_set. rewrite decide_False by naive_solver. rewrite Hn, He, Hlen.
  destruct (name_scan_spec n names) as ([j|] & -> & Hs); simpl.
  - exists m. split; [done|]. rewrite decide_True; [done|]. destruct Hs as [Hj _]. by eapply list_elem_of_lookup_2.
  - rewrite andb_false_r. eexists. split; [reflexivity|]. rewrite (decide_False (P := n ∈ names)) by exact Hs.
    split_and!; [done|done|simpl; rewrite length_app; simpl; lia|]. rewrite !length_app. simpl. lia.
Qed.
