(* ===== verification/ResultSpec.v ===== *)
(** Result specifications ([src/cc/src/result_spec.c]): mangling a type text to
    an identifier, the concrete name [CCResult_ok_err], the predeclared tables,
    and the table of specifications. *)
From S2P Require Import Prelude Lex Text.

Implicit Types (s out : list ascii) (c : ascii).

(** * Mangling *)

Definition US := chr 95.
(** [snprintf(buf, sz, "%s", text)]: what the buffer holds. *)
Definition snprintf_s (sz : nat) s : list ascii := take (sz - 1) s.

Definition cc__type_aliases : list (list ascii * list ascii) :=
  (λ p, (txt p.1, txt p.2)) <$>
  [("IoError", "CCIoError"); ("IoErrorKind", "CCIoErrorKind"); ("Error", "CCError"); ("ErrorKind", "CCErrorKind");
   ("NetError", "CCNetError"); ("Arena", "CCArena"); ("File", "CCFile"); ("String", "CCString"); ("Slice", "CCSlice")]%string.
Fixpoint alias_of (l : list (list ascii * list ascii)) s : option (list ascii) :=
  match l with [] => None | (a, b) :: l' => if decide (s = a) then Some b else alias_of l' s end.
(** [cc__normalize_type_name] on a buffer of [sz] bytes: it writes the alias
    with a bound of 128 whatever [sz] is; past the buffer is undefined. *)
Definition cc__normalize_type_name (sz : nat) s : option (list ascii) :=
  if decide (s = []) then Some [] else
  match alias_of cc__type_aliases s with
  | None => Some s
  | Some b => let w := snprintf_s 128 b in if decide (length w + 1 ≤ sz) then Some w else None
  end.

(** The loop; [w] is the output so far, reversed. *)
Definition sep_mangled (w : list ascii) : list ascii :=
  match w with [] => [] | c :: _ => if eqc c US then w else US :: w end.
Fixpoint mangle_loop (sz : nat) (w s : list ascii) : list ascii :=
  match s with
  | [] => w
  | c :: s' =>
      if decide (length w < sz - 1) then
        if is_ws c then mangle_loop sz (sep_mangled w) s'
        else if eqc c STAR then
          mangle_loop sz (if decide (length w + 3 < sz - 1) then reverse (txt "ptr") ++ w else w) s'
        else if cc_is_ident_char c then mangle_loop sz (c :: w) s'
        else mangle_loop sz (sep_mangled w) s'
      else w
  end.
Fixpoint drop_us (w : list ascii) : list ascii :=
  match w with c :: w' => if eqc c US then drop_us w' else w | [] => [] end.
(** [None]: a write past the caller's buffer. *)
Definition cc_result_spec_mangle_type s (sz : nat) : option (list ascii) :=
  if decide (s = [] ∨ sz = 0) then Some [] else
  cc__normalize_type_name sz (reverse (drop_us (mangle_loop sz [] (trim s)))).
Definition cc_result_spec_format_name (ok err : list ascii) (sz : nat) : list ascii :=
  snprintf_s sz (txt "CCResult_" ++ ok ++ US :: err).

(** * Predeclared specifications *)

Definition cc__core_builtin_result_types : list (list ascii) :=
  txt <$> ["int_CCError"; "bool_CCError"; "size_t_CCError"; "voidptr_CCError"; "charptr_CCError"; "void_CCError"]%string.
Record CCStdlibPredeclaredResult := Predeclared {
  pd_concrete_name : list ascii; pd_ok_type : list ascii; pd_err_type : list ascii;
  pd_mangled_ok : list ascii; pd_mangled_err : list ascii }.
Definition predeclared (n ok err mok merr : string) : CCStdlibPredeclaredResult :=
  Predeclared (txt n) (txt ok) (txt err) (txt mok) (txt merr).
Definition cc__stdlib_predeclared_result_specs : list CCStdlibPredeclaredResult :=
  [predeclared "CCResult_CCSlice_CCIoError" "CCSlice" "CCIoError" "CCSlice" "CCIoError";
   predeclared "CCResult_size_t_CCIoError" "size_t" "CCIoError" "size_t" "CCIoError";
   predeclared "CCResult_CCDirIterptr_CCIoError" "CCDirIter*" "CCIoError" "CCDirIterptr" "CCIoError";
   predeclared "CCResult_CCDirEntry_CCIoError" "CCDirEntry" "CCIoError" "CCDirEntry" "CCIoError";
   predeclared "CCResult_bool_CCIoError" "bool" "CCIoError" "bool" "CCIoError";
   predeclared "CCResult_int64_t_CC_I64ParseError" "int64_t" "CC_I64ParseError" "int64_t" "CC_I64ParseError";
   predeclared "CCResult_uint64_t_CC_U64ParseError" "uint64_t" "CC_U64ParseError" "uint64_t" "CC_U64ParseError";
   predeclared "CCResult_double_CC_F64ParseError" "double" "CC_F64ParseError" "double" "CC_F64ParseError";
   predeclared "CCResult_bool_CC_BoolParseError" "bool" "CC_BoolParseError" "bool" "CC_BoolParseError"].
Definition cc__result_key_matches (l : list (list ascii)) (ok err : list ascii) (prefixed : bool) : bool :=
  let key := if prefixed then cc_result_spec_format_name ok err 256 else snprintf_s 256 (ok ++ US :: err) in
  bool_decide (key ∈ l).
Definition cc_result_spec_is_core_builtin (ok err : list ascii) : bool :=
  cc__result_key_matches cc__core_builtin_result_types ok err false.
Definition cc_result_spec_is_stdlib_predeclared (ok err : list ascii) : bool :=
  bool_decide (cc_result_spec_format_name ok err 256 ∈ pd_concrete_name <$> cc__stdlib_predeclared_result_specs).
Definition cc_result_spec_is_stdlib_predeclared_name (n : list ascii) : bool :=
  bool_decide (n ∈ pd_concrete_name <$> cc__stdlib_predeclared_result_specs).
Definition cc_result_spec_lookup_stdlib_predeclared (n : list ascii) : option CCStdlibPredeclaredResult :=
  List.find (λ r, bool_decide (pd_concrete_name r = n)) cc__stdlib_predeclared_result_specs.
Definition cc_result_spec_lookup_stdlib_predeclared_by_index (i : Z) : option CCStdlibPredeclaredResult :=
  if decide (i < 0)%Z then None else cc__stdlib_predeclared_result_specs !! Z.to_nat i.

(** * The table *)

Record CCResultSpec := ResultSpecRow {
  ok_type : list ascii; err_type : list ascii; mangled_ok : list ascii; mangled_err : list ascii; concrete_name : list ascii }.
#[export] Instance result_spec_eq_dec : EqDecision CCResultSpec.
Proof. solve_decision. Defined.
Record CCResultSpecTable := ResultSpecTable { rows : list CCResultSpec; row_cap : Z }.
Definition cc_result_spec_table_init : CCResultSpecTable := ResultSpecTable [] 0.
Definition cc_result_spec_table_reset (t : CCResultSpecTable) : CCResultSpecTable := ResultSpecTable [] (row_cap t).
Definition cc_result_spec_table_free (_ : CCResultSpecTable) : CCResultSpecTable := ResultSpecTable [] 0.
Definition cc_result_spec_table_get (t : CCResultSpecTable) (i : nat) : option CCResultSpec := rows t !! i.
Definition cc_result_spec_table_find_by_name (t : CCResultSpecTable) (n : list ascii) : option CCResultSpec :=
  List.find (λ r, bool_decide (concrete_name r = n)) (rows t).
Definition cc_result_spec_table_find_by_mangled (t : CCResultSpecTable) (ok err : list ascii) : option CCResultSpec :=
  List.find (λ r, bool_decide (mangled_ok r = ok) && bool_decide (mangled_err r = err)) (rows t).
(** The row the add writes: every field cut to its array. *)
Definition row_of (ok_t err_t ok err : list ascii) : CCResultSpec :=
  ResultSpecRow (take 127 ok_t) (take 127 err_t) (snprintf_s 128 ok) (snprintf_s 128 err) (cc_result_spec_format_name ok err 256).
(** [alloc]: whether [realloc] succeeds; the first component is the returned
    pointer. *)
Definition cc_result_spec_table_add (alloc : bool) (ok_t err_t ok err : list ascii) (t : CCResultSpecTable) :
    option CCResultSpec * CCResultSpecTable :=
  match cc_result_spec_table_find_by_mangled t ok err with
  | Some r => (Some r, t)
  | None =>
      let full := bool_decide (row_cap t ≤ Z.of_nat (length (rows t)))%Z in
      if full && negb alloc then (None, t) else
      let c := if full then if decide (row_cap t = 0)%Z then 16%Z else (row_cap t * 2)%Z else row_cap t in
      let r := row_of ok_t err_t ok err in
      (Some r, ResultSpecTable (rows t ++ [r]) c)
  end.
(** [snprintf] returns the length of the whole text, the buffer holds what
    fits. *)
Definition cc_result_spec_emit_decl (r : CCResultSpec) (sz : nat) : Z * list ascii :=
  if decide (sz = 0) then (-1, [])%Z else
  let text := txt "#ifndef " ++ concrete_name r ++ txt "_DEFINED" ++ [NL] ++
              txt "#define " ++ concrete_name r ++ txt "_DEFINED 1" ++ [NL] ++
              txt "CC_DECL_RESULT_SPEC(" ++ concrete_name r ++ txt ", " ++ ok_type r ++ txt ", " ++ err_type r ++ txt ")" ++ [NL] ++
              txt "#endif" ++ [NL] in
  (Z.of_nat (length text), snprintf_s sz text).

(** * Lemmas *)

Definition is_mangled s : Prop := Forall (λ c, cc_is_ident_char c = true) s.

Lemma sep_mangled_ok w : is_mangled w → is_mangled (sep_mangled w).
Proof. intros Hw. destruct w as [|c w]; [done|]. simpl. destruct (eqc c US); [done|]. by constructor. Qed.
Lemma sep_mangled_len w n : length w < n → length (sep_mangled w) ≤ n.
Proof. destruct w as [|c w]; simpl; [lia|]. destruct (eqc c US); simpl; lia. Qed.
Lemma mangle_loop_ok sz w s :
  is_mangled w → length w ≤ sz - 1 → is_mangled (mangle_loop sz w s) ∧ length (mangle_loop sz w s) ≤ sz - 1.
Proof.
  revert w. induction s as [|c s IH]; intros w Hw Hl; simpl; [done|].
  destruct (decide (length w < sz - 1)) as [Hlt|]; [|done].
  destruct (is_ws c); [apply IH; [by apply sep_mangled_ok|by apply sep_mangled_len]|].
  destruct (eqc c STAR).
  { destruct (decide (length w + 3 < sz - 1)); [|by apply IH]. apply IH; [by repeat constructor|simpl; lia]. }
  destruct (cc_is_ident_char c) eqn:Ec; [apply IH; [by constructor|simpl; lia]|].
  apply IH; [by apply sep_mangled_ok|by apply sep_mangled_len].
Qed.
Lemma drop_us_ok w : is_mangled w → is_mangled (drop_us w) ∧ length (drop_us w) ≤ length w.
Proof.
  induction w as [|c w IH]; intros Hw; simpl; [done|]. destruct (eqc c US); [|done].
  apply Forall_cons in Hw as [_ Hw]. destruct (IH Hw). split; [done|lia].
Qed.
Lemma drop_us_last w c w' : drop_us w = c :: w' → c ≠ US.
Proof. induction w as [|x w IH]; simpl; [done|]. destruct (eqc x US) eqn:E; [done|]. intros [= -> _] ->. by rewrite eqc_refl in E. Qed.
Lemma alias_of_ok l s b : alias_of l s = Some b → b ∈ l.*2.
Proof. induction l as [|[x y] l IH]; simpl; [done|]. case_decide; [intros [= ->]; set_solver|]. intros ?%IH. set_solver. Qed.
(** The replacement names are identifiers of at most 13 characters. *)
Lemma aliases_ok b : b ∈ cc__type_aliases.*2 → is_mangled b ∧ length b ≤ 13.
Proof.
  intros Hin. assert (Hall : Forall (λ b, is_mangled b ∧ length b ≤ 13) cc__type_aliases.*2).
  { unfold is_mangled. vm_compute. repeat constructor. }
  by eapply (proj1 (Forall_forall _ _) Hall).
Qed.
Lemma normalize_ok sz s :
  is_mangled s → length s < sz → 14 ≤ sz →
  ∃ r, cc__normalize_type_name sz s = Some r ∧ is_mangled r ∧ length r < sz.
Proof.
  intros Hs Hl Hz. unfold cc__normalize_type_name. case_decide; [exists []; by split_and!; [..|constructor|simpl; lia]|].
  destruct (alias_of cc__type_aliases s) as [b|] eqn:E; [|eauto].
  destruct (aliases_ok b (alias_of_ok _ _ _ E)) as [Hb Hlb]. unfold snprintf_s. rewrite take_ge by lia.
  rewrite decide_True by lia. exists b. split_and!; [done|done|lia].
Qed.

(** ** The table *)

Lemma find_app_None {A} (f : A → bool) (l : list A) x : List.find f l = None → List.find f (l ++ [x]) = if f x then Some x else None.
Proof. induction l as [|y l IH]; simpl; [done|]. by destruct (f y). Qed.
Lemma snprintf_s_short sz s : length s < sz → snprintf_s sz s = s.
Proof. intros. unfold snprintf_s. by rewrite take_ge by lia. Qed.

(** No two rows with the same key. *)
Definition keys_distinct (t : CCResultSpecTable) : Prop := NoDup ((λ r, (mangled_ok r, mangled_err r)) <$> rows t).
