(* ===== verification/SpecProps.v ===== *)
(** The properties of the name collections and of the result specifications,
    with concrete instances. *)
From S2P Require Import Prelude Lex Text Registry ResultSpec.

Implicit Types (n k e : list ascii) (ns : list (list ascii)).

(** * The registry driven by a sequence of calls *)

Inductive reg_op := RAdd (n : list ascii) | RTyped (n e : list ascii) | RClear.
(** One call, its allocations granted; names are C strings and hold no NUL. *)
Definition reg_step (op : reg_op) (r : registry) : option registry :=
  match op with
  | RAdd n => Some (cc_result_fn_registry_add true true n r)
  | RTyped n e => cc_result_fn_registry_add_typed true true true true true n e r
  | RClear => cc_result_fn_registry_clear r
  end.
Fixpoint reg_run (ops : list reg_op) (r : registry) : option registry :=
  match ops with [] => Some r | op :: ops' => r' ← reg_step op r; reg_run ops' r' end.

(** The abstract registry: a set of names and a partial map. *)
Record areg := AReg { a_names : list ascii → bool; a_err : list ascii → option (list ascii) }.
Definition areg_init : areg := AReg (λ _, false) (λ _, None).
Definition a_add n (a : areg) : areg := AReg (λ k, (bool_decide (n ≠ []) && bool_decide (k = n)) || a_names a k) (a_err a).
Definition areg_step (op : reg_op) (a : areg) : areg :=
  match op with
  | RAdd n => a_add n a
  | RTyped n e =>
      AReg (a_names (a_add n a))
        (λ k, match a_err a k with
              | Some x => Some x
              | None => if bool_decide (n ≠ [] ∧ e ≠ [] ∧ k = n) then Some e else None
              end)
  | RClear => areg_init
  end.
Definition areg_run (ops : list reg_op) : areg := fold_left (λ a op, areg_step op a) ops areg_init.

Record reg_sim (r : registry) (a : areg) : Prop := {
  rs_names : ∀ k, cc__name_set_contains (g_result_fns r) k = a_names a k;
  rs_map : ∃ names errs, err_map_ok (g_result_fn_err r) names errs ∧ [] ∉ names ∧ ∀ k, err_scan k names errs = a_err a k }.

Lemma name_set_add_sim n k s :
  cc__name_set_contains (cc__name_set_add true true n s) k =
  (bool_decide (n ≠ []) && bool_decide (k = n)) || cc__name_set_contains s k.
Proof.
  destruct (decide (n = [])) as [->|Hn].
  - unfold cc__name_set_add. by rewrite decide_True.
  - rewrite (bool_decide_eq_true_2 (n ≠ [])) by done. exact (ss_mem_add (T := cc_name_set) n k s Hn).
Qed.

Lemma reg_step_sim op r a : reg_sim r a → ∃ r', reg_step op r = Some r' ∧ reg_sim r' (areg_step op a).
Proof.
  intros [Hn (names & errs & Hm & Hne & He)]. destruct op as [n|n e|]; simpl.
  - eexists. split; [reflexivity|]. split; simpl; [intros k; by rewrite name_set_add_sim, Hn|eauto].
  - unfold cc_result_fn_registry_add_typed. destruct (decide (n = [] ∨ e = [])) as [Hnil|Hok].
    + unfold cc__name_err_map_set. rewrite decide_True by done. simpl. eexists. split; [reflexivity|].
      split; simpl; [intros k; by rewrite name_set_add_sim, Hn|]. exists names, errs. split_and!; [done|done|].
      intros k. rewrite He. destruct (a_err a k); [done|]. rewrite bool_decide_eq_false_2 by naive_solver. done.
    + destruct (err_map_set_ok n e _ names errs Hm) as (m & -> & Hres); [naive_solver..|]. simpl.
      eexists. split; [reflexivity|]. split; simpl; [intros k; by rewrite name_set_add_sim, Hn|].
      destruct (decide (n ∈ names)) as [Hin|Hin].
      * subst m. exists names, errs. split_and!; [done|done|]. intros k. rewrite He.
        destruct (a_err a k) eqn:Ek; [done|]. rewrite bool_decide_eq_false_2; [done|]. intros (_ & _ & ->).
        rewrite <- He in Ek. apply err_scan_None in Ek; [done|]. apply Hm.
      * exists (names ++ [n]), (errs ++ [e]). split_and!; [done|set_solver|]. intros k. destruct Hm as (_ & _ & _ & Hl).
        rewrite err_scan_snoc by done. destruct (decide (k = n)) as [->|Hk].
        -- rewrite <- He, (proj2 (err_scan_None n _ _ Hl)) by done. by rewrite bool_decide_eq_true_2 by naive_solver.
        -- rewrite He. destruct (a_err a k); [done|]. by rewrite bool_decide_eq_false_2 by naive_solver.
  - destruct Hm as (H1 & H2 & _). unfold cc_result_fn_registry_clear, cc__name_err_map_clear. rewrite H1, H2. simpl.
    eexists. split; [reflexivity|]. split; [intros k; unfold cc__name_set_contains; simpl; by case_decide|].
    exists [], []. split_and!; [done|set_solver|done].
Qed.
Lemma reg_run_sim ops r a : reg_sim r a → ∃ r', reg_run ops r = Some r' ∧ reg_sim r' (fold_left (λ a op, areg_step op a) ops a).
Proof.
  revert r a. induction ops as [|op ops IH]; intros r a Hs; simpl; [eauto|].
  destruct (reg_step_sim op r a Hs) as (r1 & -> & Hs1). simpl. by apply IH.
Qed.

(** * Properties *)

(** C17: The result-function registry is a set of names with a first-wins map to
    error types.  With memory available every sequence of calls runs to
    completion; afterwards a name is contained exactly when it was added since
    the last clear, by either call, and its error type is the one of its first
    typed registration, returned exactly when it fits the caller's buffer. *)
Theorem registry_first_registration_wins ops n sz :
  ∃ r, reg_run ops registry_init = Some r ∧
    cc_result_fn_registry_contains r n = a_names (areg_run ops) n ∧
    cc_result_fn_registry_get_err_type r n sz =
      Some (e ← a_err (areg_run ops) n; if decide (length e + 1 ≤ sz ∧ n ≠ []) then Some e else None).
Proof.
  destruct (reg_run_sim ops registry_init areg_init) as (r & Hr & [Hn (names & errs & Hm & Hne & He)]).
  { split; [intros k; unfold cc__name_set_contains; simpl; by case_decide|]. exists [], []. split_and!; [done|set_solver|done]. }
  exists r. split; [done|]. split; [apply Hn|]. unfold areg_run. rewrite <- He.
  unfold cc_result_fn_registry_get_err_type. destruct (decide (sz = 0)) as [->|Hz].
  { destruct (err_scan n names errs); simpl; [|done]. by rewrite decide_False by lia. }
  destruct (decide (n = [])) as [->|Hn0].
  { rewrite (proj2 (err_scan_None [] names errs (proj2 (proj2 (proj2 Hm))))) by done. done. }
  rewrite (err_map_get_ok n _ _ _ Hm Hn0). simpl. destruct (err_scan n names errs) as [e|]; [|done]. simpl. f_equal.
  destruct (decide (sz < length e + 1)); [rewrite decide_False by lia; done|]. by rewrite decide_True by (split; [lia|done]).
Qed.

(** Running out of memory while growing the error map leaves it pointing to
    released memory: when a non-empty map is full, one [realloc] succeeds and
    the other fails, the call returns as if nothing happened, and afterwards
    looking up any registered name reads a freed array and clearing the
    registry frees a block twice. *)
Theorem err_map_oom_dangles (ok_n ok_e ok_dup : bool) n e names errs m :
  err_map_ok m names errs → names ≠ [] → Z.of_nat (length names) = nm_cap m → n ≠ [] → e ≠ [] → n ∉ names → ok_n ≠ ok_e →
  ∃ m', cc__name_err_map_set ok_n ok_e ok_dup n e m = Some m' ∧
    (∀ k, k ∈ names → k ≠ [] → cc__name_err_map_get m' k = None) ∧ cc__name_err_map_clear m' = None.
Proof.
  intros (H1 & H2 & Hlen & _) Hnil Hfull Hn He Hin Hok. unfold cc__name_err_map_set. rewrite decide_False by naive_solver.
  rewrite H1, H2, Hlen. destruct (name_scan_spec n names) as ([j|] & -> & Hs); simpl.
  { destruct Hs as [Hj _]. by apply list_elem_of_lookup_2 in Hj. }
  rewrite bool_decide_eq_true_2 by done. unfold after_failed_grow.
  assert (Hc : nm_cap m ≠ 0%Z) by (destruct names; simpl in *; [done|lia]). rewrite (bool_decide_eq_false_2 _ Hc).
  destruct ok_n, ok_e; try done; simpl; (eexists; split; [reflexivity|split; [intros k Hk Hk0|done]]);
    unfold cc__name_err_map_get; rewrite decide_False by done; cbn [nm_names nm_errs nm_len].
  - by destruct names.
  - destruct (name_scan_spec k names) as ([j|] & -> & Hs'); done.
Qed.
Lemma err_map_oom_dangles_witness :
  ∃ m', cc__name_err_map_set true false true (txt "f") (txt "E") (NameErrMap (Live [txt "g"]) (Live [txt "E"]) 1 1) = Some m' ∧
    (∀ k, k ∈ [txt "g"] → k ≠ [] → cc__name_err_map_get m' k = None) ∧ cc__name_err_map_clear m' = None.
Proof.
  apply (err_map_oom_dangles true false true (txt "f") (txt "E") [txt "g"] [txt "E"] (NameErrMap (Live [txt "g"]) (Live [txt "E"]) 1 1));
    [split_and!; reflexivity|discriminate|reflexivity|discriminate|discriminate|by apply (bool_decide_eq_true_1 (txt "f" ∉ [txt "g"]))|discriminate].
Defined.

(** Both name sets are sets: after adding any non-empty names with memory
    available, [cc_string_set_contains] and the registry's set answer
    membership, and adding again changes nothing. *)
Theorem name_sets_are_sets ns n :
  Forall (λ x, x ≠ []) ns →
  (∃ s, foldr (λ x acc, s ← acc; cc_string_set_add true true (Some x) s) (Some cc_string_set_init) (reverse ns) = Some s ∧
     cc_string_set_contains s (Some n) = Some (bool_decide (n ∈ ns)) ∧
     (n ∈ ns → cc_string_set_add true true (Some n) s = Some s)) ∧
  cc__name_set_contains (fold_left (λ s x, cc__name_set_add true true x s) ns (NameSet [] 0)) n = bool_decide (n ∈ ns).
Proof.
  intros Hns. split.
  - exists (to_set (ss_of_list (T := live_set) ns)).
    assert (Hmem : bool_decide (n ∈ live_names (ss_of_list (T := live_set) ns)) = bool_decide (n ∈ ns)).
    { refine (ss_mem_of_list (T := live_set) ns n _). by apply Forall_true. }
    split_and!.
    + unfold ss_of_list.
      assert (Hg : ∀ (l : live_set), foldr (λ x acc, s ← acc; cc_string_set_add true true (Some x) s) (Some (to_set l)) (reverse ns) =
        Some (to_set (fold_left (λ s x, ss_add x s) ns l))); [|exact (Hg (LiveSet [] 0))].
      clear. induction ns as [|x ns IH] using rev_ind; intros l; [done|].
      rewrite reverse_snoc, fold_left_app. cbn [foldr fold_left]. rewrite IH. apply string_set_add_live.
    + by rewrite string_set_contains_live, Hmem.
    + intros Hin. rewrite string_set_add_live. unfold live_add. by rewrite Hmem, bool_decide_eq_true_2.
  - exact (ss_mem_of_list (T := cc_name_set) ns n Hns).
Qed.
Lemma name_sets_are_sets_witness :
  cc__name_set_contains (fold_left (λ s x, cc__name_set_add true true x s) [txt "a"; txt "b"; txt "a"] (NameSet [] 0)) (txt "b") =
    bool_decide (txt "b" ∈ [txt "a"; txt "b"; txt "a"]).
Proof. apply (name_sets_are_sets [txt "a"; txt "b"; txt "a"] (txt "b")). repeat constructor; discriminate. Defined.

(** The string map is a map: reading a key returns the value last set for
    it, and setting one key changes no other. *)
Theorem string_map_get_set k v k' (m : CCStringMap) :
  cc_string_map_get (cc_string_map_set (Some k) v m) (Some k') = if decide (k' = k) then v else cc_string_map_get m (Some k').
Proof.
  simpl. pose proof (map_update_spec k v (map_items m) k') as Hu. destruct (map_update k v (map_items m)) as [l|]; [done|].
  by apply map_find_snoc.
Qed.

(** Mangling produces identifiers: for every type text and every buffer of
    at least 14 bytes the result consists of identifier characters and fits
    the buffer; in a buffer of 12 bytes the alias of [IoErrorKind] is written
    past the end, because the alias copy assumes 128 bytes. *)
Theorem mangle_yields_identifiers s sz :
  14 ≤ sz →
  (∃ r, cc_result_spec_mangle_type s sz = Some r ∧ is_mangled r ∧ length r < sz) ∧
  cc_result_spec_mangle_type (txt "IoErrorKind") 12 = None.
Proof.
  intros Hz. split; [|by vm_compute]. unfold cc_result_spec_mangle_type. case_decide.
  { exists []. split_and!; [done|constructor|simpl; lia]. }
  destruct (mangle_loop_ok sz [] (trim s)) as [H1 H2]; [constructor|simpl; lia|].
  destruct (drop_us_ok _ H1) as [H3 H4]. apply normalize_ok; [by apply Forall_reverse|rewrite length_reverse; lia|done].
Qed.
Lemma mangle_yields_identifiers_witness :
  (∃ r, cc_result_spec_mangle_type (txt " unsigned char * ") 128 = Some r ∧ is_mangled r ∧ length r < 128) ∧
  cc_result_spec_mangle_type (txt " unsigned char * ") 128 = Some (txt "unsigned_char_ptr").
Proof. split; [apply (mangle_yields_identifiers (txt " unsigned char * ") 128); lia|vm_compute; reflexivity]. Defined.

(** The specification table finds what was added: for keys that fit their
    fields, an add with memory available returns a row carrying the key and
    its concrete name, looking the key up afterwards returns that row, adding
    the key again returns the same row and changes nothing, and rows keep
    distinct keys. *)
Theorem result_spec_add_then_find ok_t err_t ok err (t : CCResultSpecTable) :
  length ok < 128 → length err < 128 → keys_distinct t →
  ∃ r t', cc_result_spec_table_add true ok_t err_t ok err t = (Some r, t') ∧
    mangled_ok r = ok ∧ mangled_err r = err ∧ cc_result_spec_table_find_by_mangled t' ok err = Some r ∧
    cc_result_spec_table_add true ok_t err_t ok err t' = (Some r, t') ∧ keys_distinct t'.
Proof.
  intros Hok Herr Hd. unfold cc_result_spec_table_add at 1.
  destruct (cc_result_spec_table_find_by_mangled t ok err) as [r|] eqn:E.
  - exists r, t. pose proof E as E'. unfold cc_result_spec_table_find_by_mangled in E'. apply List.find_some in E' as [_ E'].
    apply andb_true_iff in E' as [?%bool_decide_eq_true_1 ?%bool_decide_eq_true_1].
    unfold cc_result_spec_table_add. rewrite E. done.
  - rewrite andb_false_r. eexists _, _. split; [reflexivity|].
    assert (Hf : cc_result_spec_table_find_by_mangled (ResultSpecTable (rows t ++ [row_of ok_t err_t ok err])
      (if bool_decide (row_cap t ≤ Z.of_nat (length (rows t)))%Z then if decide (row_cap t = 0)%Z then 16%Z else (row_cap t * 2)%Z else row_cap t))
      ok err = Some (row_of ok_t err_t ok err)).
    { unfold cc_result_spec_table_find_by_mangled in *. simpl. rewrite find_app_None by done. simpl.
      rewrite !snprintf_s_short by done. by rewrite !bool_decide_eq_true_2. }
    split_and!; [by apply snprintf_s_short|by apply snprintf_s_short|exact Hf|unfold cc_result_spec_table_add; by rewrite Hf|].
    unfold keys_distinct in *. simpl. rewrite fmap_app. apply NoDup_app. split_and!; [done| |apply NoDup_singleton].
    intros key Hk1 Hk2. simpl in Hk2. apply list_elem_of_singleton in Hk2 as ->. rewrite !snprintf_s_short in Hk1 by done.
    apply list_elem_of_fmap in Hk1 as (r & [= E1 E2] & Hr). apply list_elem_of_In in Hr.
    pose proof (List.find_none _ _ E r Hr) as Hn. simpl in Hn. by rewrite !bool_decide_eq_true_2 in Hn.
Qed.
Lemma result_spec_add_then_find_witness :
  ∃ r t', cc_result_spec_table_add true (txt "int") (txt "CCError") (txt "int") (txt "CCError") cc_result_spec_table_init = (Some r, t') ∧
    mangled_ok r = txt "int" ∧ mangled_err r = txt "CCError" ∧ cc_result_spec_table_find_by_mangled t' (txt "int") (txt "CCError") = Some r ∧
    cc_result_spec_table_add true (txt "int") (txt "CCError") (txt "int") (txt "CCError") t' = (Some r, t') ∧ keys_distinct t'.
Proof.
  apply (result_spec_add_then_find (txt "int") (txt "CCError") (txt "int") (txt "CCError") cc_result_spec_table_init);
    [vm_compute; lia|vm_compute; lia|apply NoDup_nil_2].
Defined.

(** Concrete names are ambiguous: the pairs ([a_b], [c]) and ([a], [b_c])
    have the same concrete name, so two different result types share one
    include guard and one typedef name, while the table keeps them as two
    rows. *)
Theorem concrete_names_collide a b c sz :
  cc_result_spec_format_name (a ++ US :: b) c sz = cc_result_spec_format_name a (b ++ US :: c) sz.
Proof. unfold cc_result_spec_format_name. do 2 f_equal. by rewrite <- app_assoc. Qed.
