(* ===== verification/Sched.v ===== *)
(** The fiber scheduler of [src/cc/runtime/sched_v2.c]: the state word of a
    fiber, the intrusive ready queue, and the code of workers and callers as
    one step per atomic access.  A call ([sched_v2_signal], a spawn, a wake) or
    a worker is a program counter; [call_next] and [work_next] execute its
    next atomic access. *)
From S2P Require Import Prelude.

Open Scope Z_scope.
Implicit Types (f t i n : nat).

(** * The fiber state word *)

Definition FIBER_V2_IDLE : Z := 0.
Definition FIBER_V2_QUEUED : Z := 1.
Definition FIBER_V2_RUNNING : Z := 2.
Definition FIBER_V2_PARKED : Z := 3.
Definition FIBER_V2_DEAD : Z := 4.
Definition FIBER_V2_STATE_MASK : Z := 15.
Definition FIBER_V2_FLAG_SIGNAL_PENDING : Z := 16.
Definition V2_YIELD_PARK : Z := 0.
Definition V2_YIELD_YIELD : Z := 1.

Definition fiber_v2_state_base (raw : Z) : Z := Z.land raw FIBER_V2_STATE_MASK.
Definition fiber_v2_state_has_signal_pending (raw : Z) : bool :=
  negb (bool_decide (Z.land raw FIBER_V2_FLAG_SIGNAL_PENDING = 0)).

(** The fields of [struct fiber_v2] the scheduling protocol reads; the [next]
    link is kept with the queue. *)
Record fiber_v2 := Fiber { state : Z; yield_kind : Z; done : Z; last_thread_id : Z }.
#[export] Instance eta_fiber : Eta fiber_v2 := λ r, Fiber (state r) (yield_kind r) (done r) (last_thread_id r).

(** * The ready queue

    [q_next] holds the [next] fields of the fibers.  [None] is the
    dereference of a pointer to no fiber. *)
Record v2_queue := Queue { head : option nat; tail : option nat; count : Z; q_next : gmap nat (option nat) }.
#[export] Instance eta_queue : Eta v2_queue := λ r, Queue (head r) (tail r) (count r) (q_next r).

Definition v2_queue_init (nx : gmap nat (option nat)) : v2_queue := Queue None None 0 nx.
(** Returns the depth before the push. *)
Definition v2_queue_push (f : nat) (q : v2_queue) : Z * v2_queue :=
  let q := q <| q_next := <[f := None]> (q_next q) |> in
  let q := match tail q with
           | Some l => q <| q_next := <[l := Some f]> (q_next q) |>
           | None => q <| head := Some f |>
           end in
  let q := q <| tail := Some f |> in
  (count q, q <| count := count q + 1 |>).
(** The part of [v2_queue_pop] under the lock. *)
Definition queue_pop_locked (q : v2_queue) : option (option nat * v2_queue) :=
  match head q with
  | None => Some (None, q)
  | Some f =>
      nx ← q_next q !! f;
      let q := q <| head := nx |> in
      let q := match head q with None => q <| tail := None |> | Some _ => q end in
      let q := q <| q_next := <[f := None]> (q_next q) |> in
      Some (Some f, q <| count := count q - 1 |>)
  end.
Definition v2_queue_pop (q : v2_queue) : option (option nat * v2_queue) :=
  if decide (count q = 0) then Some (None, q) else queue_pop_locked q.

(** * The shared state *)

(** The tunables read by the protocol, and the bound of the pool. *)
Record sched_cfg := Cfg { wake_skip_depth : Z; target_active : Z; max_threads : nat }.

(** Inside a call: the next access it makes. *)
Inductive call_pc :=
  | SigLoad (f : nat)                  (* sched_v2_signal: load state *)
  | SigPending (f : nat) (e : Z)       (* CAS e -> e | SIGNAL_PENDING *)
  | SigQueue (f : nat) (e : Z)         (* CAS e -> QUEUED *)
  | SpawnQueue (f : nat)               (* sched_v2_spawn_in_nursery: store QUEUED *)
  | Push (f : nat)                     (* sched_v2_enqueue_runnable: v2_queue_push *)
  | WakeCount                          (* sched_v2_wake(-1): load ready_queue.count *)
  | WakeGate                           (* load g_v2_running_workers *)
  | WakeIdle                           (* load idle_workers *)
  | TryIdle                            (* sched_v2_try_wake_one: load idle_workers *)
  | TryNum                             (* load num_threads *)
  | TryScan (i n : nat)                (* CAS threads[i].is_idle 1 -> 0 *)
  | TrySub (i : nat)                   (* idle_workers -= 1 *)
  | TryWake (i : nat)                  (* wake_primitive_wake_one(threads[i].wake) *)
  | Expand                             (* sched_v2_try_expand_pool: up to pthread_create *)
  | Publish (i : nat)                  (* store num_threads, unlock start_mu *)
  | AllocLoad                          (* fiber_v2_alloc: load free_list *)
  | AllocNext (f : nat)                (* read f->next *)
  | AllocCas (f : nat) (next : option nat)   (* CAS free_list f -> next *)
  | AllocNew                           (* the list is empty: calloc *)
  | AllocInit (f : nat)                (* reset the fields of the popped fiber *)
  | FreeLoad (f : nat)                 (* fiber_v2_free: load free_list *)
  | FreeLink (f : nat) (head : option nat)   (* f->next = head *)
  | FreeCas (f : nat) (head : option nat).   (* CAS free_list head -> f *)
(** Inside [thread_v2_main]. *)
Inductive work_pc :=
  | Admit                              (* try_admit_running *)
  | PopCheck                           (* v2_queue_pop: load count *)
  | PopLock                            (* v2_queue_pop: the critical section *)
  | Picked (f : nat)                   (* thread_v2_run_fiber: load state *)
  | Start (f : nat)                    (* store RUNNING *)
  | InFiber (f : nat)                  (* mco_resume: the fiber runs *)
  | Back (f : nat)                     (* load state after the resume *)
  | Requeue (f : nat)                  (* store QUEUED *)
  | Commit (f : nat)                   (* CAS RUNNING -> PARKED *)
  | Dead (f : nat)                     (* store DEAD *)
  | Done (f : nat)                     (* store done *)
  | Call (c : call_pc)                 (* sched_v2_enqueue_runnable *)
  | Deadmit                            (* deadmit_running *)
  | SetIdle (recheck : bool)           (* store is_idle 1 *)
  | IncIdle (recheck : bool)           (* idle_workers += 1 *)
  | LoadWake (recheck : bool)          (* load wake.value *)
  | Recheck (v : Z)                    (* load ready_queue.count *)
  | Wait (v : Z)                       (* wake_primitive_wait(v) *)
  | ClearIdle                          (* exchange is_idle 0 *)
  | SubIdle.                           (* idle_workers -= 1 *)

Record thread_v2 := Thread { is_idle : Z; wake : Z; pc : work_pc }.
#[export] Instance eta_thread : Eta thread_v2 := λ r, Thread (is_idle r) (wake r) (pc r).
Implicit Types (w : thread_v2) (c : call_pc) (p : work_pc).

(** [g_v2] with its workers and the calls in progress on other threads.  The
    links of the free list are the [next] fields of its fibers, in [q_next]
    with those of the ready queue.  Two fields are not in the program: [pool],
    the fibers pushed on the free list and not popped since, and [signalled],
    the fibers with a signal that no run of the fiber has started after. *)
Record sched := Sched {
  fibers : gmap nat fiber_v2;
  ready_queue : v2_queue;
  threads : list thread_v2;
  num_threads : nat;
  start_mu : bool;
  idle_workers : Z;
  running_workers : Z;
  free_list : option nat;
  fiber_count : nat;
  pool : gset nat;
  calls : list (option call_pc);
  signalled : gset nat }.
#[export] Instance eta_sched : Eta sched := λ r,
  Sched (fibers r) (ready_queue r) (threads r) (num_threads r) (start_mu r) (idle_workers r) (running_workers r) (free_list r) (fiber_count r) (pool r) (calls r) (signalled r).
Implicit Types (s : sched) (q : v2_queue) (x : fiber_v2).

Definition set_fiber (f : nat) (g : fiber_v2 → fiber_v2) s : sched := s <| fibers ::= alter g f |>.
Definition set_thread (t : nat) (g : thread_v2 → thread_v2) s : sched := s <| threads ::= alter g t |>.
Definition set_signalled (f : nat) s : sched := s <| signalled ::= λ S, {[f]} ∪ S |>.
Definition set_next (f : nat) (o : option nat) s : sched := s <| ready_queue ::= λ q, q <| q_next ::= insert f o |> |>.
Definition wrap32 (z : Z) : Z := z mod 2 ^ 32.

(** * One atomic access of a call

    [Some (None, s)]: the call returns.  [b] resolves what the code does not
    determine: a weak CAS that fails spuriously, a [pthread_create] that
    fails.  [None] is the access of a fiber that does not exist or a queue
    pointer to no fiber. *)
Section steps.
Context (cfg : sched_cfg).

(** [sched_v2_signal] *)
Definition sched_v2_signal_next (b : bool) (c : call_pc) (s : sched) : option (option call_pc * sched) :=
  match c with
  | SigLoad f =>
      x ← fibers s !! f;
      let expected := state x in
      let base := fiber_v2_state_base expected in
      if decide (base = FIBER_V2_QUEUED) then Some (None, set_signalled f s)
      else if decide (base = FIBER_V2_RUNNING) then
        if fiber_v2_state_has_signal_pending expected then Some (None, set_signalled f s)
        else Some (Some (SigPending f expected), s)
      else if decide (base = FIBER_V2_PARKED) then Some (Some (SigQueue f expected), s)
      else Some (None, s)
  | SigPending f e =>
      x ← fibers s !! f;
      if negb b && bool_decide (state x = e)
      then Some (None, set_signalled f (set_fiber f (λ x, x <| state := Z.lor e FIBER_V2_FLAG_SIGNAL_PENDING |>) s))
      else Some (Some (SigLoad f), s)
  | SigQueue f e =>
      x ← fibers s !! f;
      if negb b && bool_decide (state x = e)
      then Some (Some (Push f), set_signalled f (set_fiber f (λ x, x <| state := FIBER_V2_QUEUED |>) s))
      else Some (Some (SigLoad f), s)
  | _ => None
  end.
(** The store of [sched_v2_spawn_in_nursery] that makes the fiber runnable. *)
Definition sched_v2_spawn_next (f : nat) (s : sched) : option (option call_pc * sched) :=
  _ ← fibers s !! f;
  Some (Some (Push f), set_fiber f (λ x, x <| state := FIBER_V2_QUEUED |>) s).
Definition sched_v2_enqueue_runnable_next (f : nat) (s : sched) : option (option call_pc * sched) :=
  let '(prev, q) := v2_queue_push f (ready_queue s) in
  let s := s <| ready_queue := q |> in
  if decide (0 < wake_skip_depth cfg ∧ wake_skip_depth cfg ≤ prev) then Some (None, s)
  else Some (Some WakeCount, s).
(** [sched_v2_wake(-1)] *)
Definition sched_v2_wake_next (c : call_pc) (s : sched) : option (option call_pc * sched) :=
  match c with
  | WakeCount => Some (if decide (0 < count (ready_queue s)) then Some WakeGate else None, s)
  | WakeGate =>
      Some (if decide (0 < target_active cfg ∧ target_active cfg ≤ running_workers s) then None else Some WakeIdle, s)
  | WakeIdle => Some (Some (if decide (idle_workers s ≤ 0) then Expand else TryIdle), s)
  | _ => None
  end.
(** Its caller goes on with [Expand] when it fails. *)
Definition sched_v2_try_wake_one_next (c : call_pc) (s : sched) : option (option call_pc * sched) :=
  match c with
  | TryIdle => Some (Some (if decide (idle_workers s ≤ 0) then Expand else TryNum), s)
  | TryNum => Some (Some (TryScan 0 (num_threads s)), s)
  | TryScan i n =>
      if decide (i < n)%nat then
        w ← threads s !! i;
        if decide (is_idle w = 1) then Some (Some (TrySub i), set_thread i (λ w, w <| is_idle := 0 |>) s)
        else Some (Some (TryScan (S i) n), s)
      else Some (Some Expand, s)
  | TrySub i => Some (Some (TryWake i), s <| idle_workers ::= λ z, z - 1 |>)
  | TryWake i => Some (Some WakeCount, set_thread i (λ w, w <| wake := wrap32 (wake w + 1) |>) s)
  | _ => None
  end.
(** The entry of [thread_v2_main]: the start-up park of the extra workers is
    the sleep without a recheck.  [sched_v2_init_impl] clears
    [g_v2_park_extras_at_startup] before it creates a worker. *)
Definition g_v2_park_extras_at_startup : bool := false.
Definition thread_v2_main_entry (tid : nat) : work_pc :=
  if g_v2_park_extras_at_startup && negb (bool_decide (tid = 0%nat)) then SetIdle false else Admit.
(** [b]: expansion is disabled or [pthread_create] fails. *)
Definition sched_v2_try_expand_pool_next (b : bool) (c : call_pc) (s : sched) : option (option call_pc * sched) :=
  match c with
  | Expand =>
      if start_mu s then Some (Some Expand, s)
      else if decide (max_threads cfg ≤ num_threads s)%nat then Some (None, s)
      else if b then Some (None, s)
      else Some (Some (Publish (num_threads s)),
                 s <| threads ::= λ l, l ++ [Thread 0 0 (thread_v2_main_entry (num_threads s))] |> <| start_mu := true |>)
  | Publish i => Some (None, s <| num_threads := S i |> <| start_mu := false |>)
  | _ => None
  end.
(** [fiber_v2_alloc]: the pop of the free list, one access per step, and the
    fields it resets; [calloc] on an empty list, [b] its failure.  The spawn
    goes on with the fiber. *)
Definition new_fiber : fiber_v2 := Fiber FIBER_V2_IDLE V2_YIELD_PARK 0 (-1).
Definition alloc_from (head : option nat) : call_pc := match head with Some f => AllocNext f | None => AllocNew end.
Definition fiber_v2_alloc_next (b : bool) (c : call_pc) (s : sched) : option (option call_pc * sched) :=
  match c with
  | AllocLoad => Some (Some (alloc_from (free_list s)), s)
  | AllocNext f => nx ← q_next (ready_queue s) !! f; Some (Some (AllocCas f nx), s)
  | AllocCas f nx =>
      if negb b && bool_decide (free_list s = Some f)
      then Some (Some (AllocInit f), s <| free_list := nx |> <| pool ::= λ P, P ∖ {[f]} |>)
      else Some (Some (alloc_from (free_list s)), s)
  | AllocInit f =>
      _ ← fibers s !! f;
      Some (Some (SpawnQueue f), set_fiber f (λ _, new_fiber) (set_next f None s) <| signalled ::= λ S, S ∖ {[f]} |>)
  | AllocNew =>
      if b then Some (None, s) else
      let f := fiber_count s in
      Some (Some (SpawnQueue f), set_next f None s <| fibers ::= insert f new_fiber |> <| fiber_count := S f |>)
  | _ => None
  end.
(** [fiber_v2_free] after its store of the state word: the push. *)
Definition fiber_v2_free_next (b : bool) (c : call_pc) (s : sched) : option (option call_pc * sched) :=
  match c with
  | FreeLoad f => Some (Some (FreeLink f (free_list s)), s)
  | FreeLink f h => _ ← fibers s !! f; Some (Some (FreeCas f h), set_next f h s)
  | FreeCas f h =>
      if negb b && bool_decide (free_list s = h)
      then Some (None, s <| free_list := Some f |> <| pool ::= λ P, {[f]} ∪ P |>)
      else Some (Some (FreeLoad f), s)
  | _ => None
  end.
Definition call_next (b : bool) (c : call_pc) (s : sched) : option (option call_pc * sched) :=
  match c with
  | SigLoad _ | SigPending _ _ | SigQueue _ _ => sched_v2_signal_next b c s
  | SpawnQueue f => sched_v2_spawn_next f s
  | Push f => sched_v2_enqueue_runnable_next f s
  | WakeCount | WakeGate | WakeIdle => sched_v2_wake_next c s
  | TryIdle | TryNum | TryScan _ _ | TrySub _ | TryWake _ => sched_v2_try_wake_one_next c s
  | Expand | Publish _ => sched_v2_try_expand_pool_next b c s
  | AllocLoad | AllocNext _ | AllocCas _ _ | AllocNew | AllocInit _ => fiber_v2_alloc_next b c s
  | FreeLoad _ | FreeLink _ _ | FreeCas _ _ => fiber_v2_free_next b c s
  end.

(** * One atomic access of a worker

    [o] is what a resumed fiber does: it parks, yields or returns.  [b]
    resolves the spin budget of an empty queue and spurious returns of the
    wait.  The result is the worker's next program counter. *)
Inductive outcome := OPark | OYield | OReturn.
(** [sched_v2_wake(tid)]: the drain of the queue by a worker. *)
Definition sched_v2_drain_next (b : bool) (w : thread_v2) (s : sched) : option (work_pc * sched) :=
  match pc w with
  | PopCheck =>
      if decide (count (ready_queue s) = 0) then Some (if b then PopCheck else Deadmit, s) else Some (PopLock, s)
  | PopLock =>
      '(r, q) ← queue_pop_locked (ready_queue s);
      let s := s <| ready_queue := q |> in
      Some (match r with Some f => Picked f | None => if b then PopCheck else Deadmit end, s)
  | _ => None
  end.
Definition thread_v2_run_fiber_next (b : bool) (o : outcome) (t : nat) (w : thread_v2) (s : sched) : option (work_pc * sched) :=
  match pc w with
  | Picked f =>
      x ← fibers s !! f;
      Some (if decide (fiber_v2_state_base (state x) = FIBER_V2_QUEUED) then Start f else PopCheck, s)
  | Start f =>
      _ ← fibers s !! f;
      Some (InFiber f, set_fiber f (λ x, x <| state := FIBER_V2_RUNNING |> <| last_thread_id := Z.of_nat t |> <| yield_kind := V2_YIELD_PARK |>)
                         (s <| signalled ::= λ S, S ∖ {[f]} |>))
  | InFiber f =>
      match o with
      | OPark => Some (Back f, set_fiber f (λ x, x <| yield_kind := V2_YIELD_PARK |>) s)
      | OYield => Some (Back f, set_fiber f (λ x, x <| yield_kind := V2_YIELD_YIELD |>) s)
      | OReturn => Some (Dead f, s)
      end
  | Back f =>
      x ← fibers s !! f;
      Some (if bool_decide (yield_kind x = V2_YIELD_YIELD) || fiber_v2_state_has_signal_pending (state x)
            then Requeue f else Commit f, s)
  | Requeue f => _ ← fibers s !! f; Some (Call (Push f), set_fiber f (λ x, x <| state := FIBER_V2_QUEUED |>) s)
  | Commit f =>
      x ← fibers s !! f;
      if decide (state x = FIBER_V2_RUNNING) then Some (PopCheck, set_fiber f (λ x, x <| state := FIBER_V2_PARKED |>) s)
      else Some (Requeue f, s)
  | Dead f => _ ← fibers s !! f; Some (Done f, set_fiber f (λ x, x <| state := FIBER_V2_DEAD |>) s)
  | Done f => _ ← fibers s !! f; Some (PopCheck, set_fiber f (λ x, x <| done := 1 |>) s)
  | Call c =>
      '(k, s) ← call_next b c s;
      Some (match k with Some c => Call c | None => PopCheck end, s)
  | _ => None
  end.
(** The loop of [thread_v2_main]: admission, and going to sleep. *)
Definition thread_v2_main_next (b : bool) (t : nat) (w : thread_v2) (s : sched) : option (work_pc * sched) :=
  match pc w with
  | Admit =>
      if decide (target_active cfg ≤ 0 ∨ running_workers s < target_active cfg)
      then Some (PopCheck, s <| running_workers ::= λ z, z + 1 |>) else Some (SetIdle false, s)
  | Deadmit => Some (SetIdle true, s <| running_workers ::= λ z, z - 1 |>)
  | SetIdle r => Some (IncIdle r, set_thread t (λ w, w <| is_idle := 1 |>) s)
  | IncIdle r => Some (LoadWake r, s <| idle_workers ::= λ z, z + 1 |>)
  | LoadWake r => Some (if (r : bool) then Recheck (wake w) else Wait (wake w), s)
  | Recheck v => Some (if decide (0 < count (ready_queue s)) then ClearIdle else Wait v, s)
  | Wait v => Some (if b || negb (bool_decide (wake w = v)) then ClearIdle else Wait v, s)
  | ClearIdle =>
      Some (if decide (is_idle w = 1) then SubIdle else Admit, set_thread t (λ w, w <| is_idle := 0 |>) s)
  | SubIdle => Some (Admit, s <| idle_workers ::= λ z, z - 1 |>)
  | _ => None
  end.
Definition work_next (b : bool) (o : outcome) (t : nat) (w : thread_v2) (s : sched) : option (work_pc * sched) :=
  match pc w with
  | PopCheck | PopLock => sched_v2_drain_next b w s
  | Picked _ | Start _ | InFiber _ | Back _ | Requeue _ | Commit _ | Dead _ | Done _ | Call _ => thread_v2_run_fiber_next b o t w s
  | Admit | Deadmit | SetIdle _ | IncIdle _ | LoadWake _ | Recheck _ | Wait _ | ClearIdle | SubIdle => thread_v2_main_next b t w s
  end.

(** * The scheduler *)

(** The store with which [fiber_v2_free] begins. *)
Definition free_fiber (f : nat) s : sched := set_fiber f (λ x, x <| state := FIBER_V2_IDLE |>) s.
(** When the callers of [sched_v2_fiber_release] release a fiber: once, after
    a join returned, which saw it done ([cc_nursery_wait], the task handles);
    the worker that frees a child of a nursery does so after it stored
    [done]. *)
Definition releasable (f : nat) s : Prop := ∃ x, fibers s !! f = Some x ∧ state x = FIBER_V2_DEAD ∧ done x = 1.
Definition begin_call (c : call_pc) s : sched := s <| calls ::= λ l, l ++ [Some c] |>.

(** Threads outside the pool, running fibers and the monitor thread start
    calls at any moment; [spurious] allows the wait primitive to return
    without a wake. *)
Inductive sched_step (spurious : bool) : sched → sched → Prop :=
  | step_call k c b (c' : option call_pc) s s' : calls s !! k = Some (Some c) → call_next b c s = Some (c', s') →
      sched_step spurious s (s' <| calls ::= insert k c' |>)
  | step_worker t w b o p s s' : threads s !! t = Some w → work_next b o t w s = Some (p, s') →
      (b = true → (∃ v, pc w = Wait v) → spurious = true) →
      sched_step spurious s (set_thread t (λ w, w <| pc := p |>) s')
  | step_signal f s : is_Some (fibers s !! f) → sched_step spurious s (begin_call (SigLoad f) s)
  | step_spawn s : sched_step spurious s (begin_call AllocLoad s)
  | step_tick s : sched_step spurious s (begin_call WakeCount s)
  | step_free f s : releasable f s → sched_step spurious s (begin_call (FreeLoad f) (free_fiber f s)).
(** A pool of [n] workers about to start and nothing queued. *)
Definition sched_init (n : nat) : sched :=
  Sched ∅ (v2_queue_init ∅) (replicate n (Thread 0 0 Admit)) n false 0 0 None 0 ∅ [] ∅.
(** The program starts one worker, or none when [pthread_create] fails; the
    others are created by [sched_v2_try_expand_pool]. *)
Definition sched_v2_init_impl (created : bool) : sched := sched_init (if created then 1 else 0).

(** * Pops one at a time

    The calls between their load of the head of the free list and their
    compare-and-swap.  [serial_step] are the steps of runs in which no two
    allocations overlap there. *)
Definition popping c : Z := match c with AllocNext _ | AllocCas _ _ => 1 | _ => 0 end.
Definition opt_popping (o : option call_pc) : Z := match o with Some c => popping c | None => 0 end.
Definition serial_pops s : Prop := zsum opt_popping (calls s) ≤ 1.
#[export] Instance serial_pops_dec s : Decision (serial_pops s).
Proof. unfold serial_pops. apply _. Defined.
Definition serial_step (spurious : bool) s s' : Prop := sched_step spurious s s' ∧ serial_pops s'.
End steps.

(** Unfold the code a program counter stands for. *)
Ltac unfold_call H :=
  cbv beta iota delta [call_next sched_v2_signal_next sched_v2_spawn_next sched_v2_enqueue_runnable_next sched_v2_wake_next
    sched_v2_try_wake_one_next sched_v2_try_expand_pool_next fiber_v2_alloc_next fiber_v2_free_next] in H.
Ltac unfold_work H := unfold work_next, sched_v2_drain_next, thread_v2_run_fiber_next, thread_v2_main_next in H.
