(* ===== verification/SchedInv.v ===== *)
(** Ownership of fibers in the scheduler: every fiber is in exactly one place,
    the place its state word names.  The invariant counts the places that hold
    a fiber; every step of a worker or a call preserves it. *)
From S2P Require Import Prelude Sched.

Open Scope Z_scope.
Implicit Types (f t i n : nat) (s : sched) (q : v2_queue) (x : fiber_v2) (w : thread_v2) (c : call_pc) (p : work_pc) (l : list nat).

(** * The queue as a list *)

Fixpoint linked (nx : gmap nat (option nat)) (l : list nat) : Prop :=
  match l with
  | [] => True
  | f :: l' => nx !! f = Some (List.hd_error l') ∧ linked nx l'
  end.
Record queue_rep (q : v2_queue) (l : list nat) : Prop := {
  qr_head : head q = List.hd_error l;
  qr_tail : tail q = last l;
  qr_count : count q = Z.of_nat (length l);
  qr_links : linked (q_next q) l;
  qr_nodup : NoDup l }.

Lemma linked_insert nx l f o : f ∉ l → linked nx l → linked (<[f := o]> nx) l.
Proof.
  induction l as [|g l IH]; simpl; [done|]. intros Hf [Hg Hl].
  rewrite lookup_insert_ne by set_solver. split; [done|]. apply IH; [set_solver|done].
Qed.
Lemma linked_snoc nx l g f :
  NoDup (l ++ [g]) → f ∉ l ++ [g] → linked nx (l ++ [g]) →
  linked (<[g := Some f]> (<[f := None]> nx)) ((l ++ [g]) ++ [f]).
Proof.
  induction l as [|h l IH]; intros Hnd Hf Hl; simpl in *.
  - rewrite lookup_insert_eq, lookup_insert_ne, lookup_insert_eq by set_solver. done.
  - apply NoDup_cons in Hnd as [Hh Hnd]. destruct Hl as [Hh' Hl]. split.
    + rewrite !lookup_insert_ne by set_solver. rewrite Hh'. by destruct l.
    + apply IH; [done|set_solver|done].
Qed.
Lemma queue_push_spec q l f :
  queue_rep q l → f ∉ l →
  ∃ q', v2_queue_push f q = (Z.of_nat (length l), q') ∧ queue_rep q' (l ++ [f]).
Proof.
  destruct q as [h tl ct nx]. intros [Hh Ht Hc Hl Hnd] Hf. simpl in *. subst h tl ct. unfold v2_queue_push. simpl.
  destruct l as [|g l _] using rev_ind.
  - eexists. split; [reflexivity|]. split; simpl; try done.
    + rewrite lookup_insert_eq. done.
    + apply NoDup_singleton.
  - rewrite last_snoc. eexists. split; [reflexivity|]. split; simpl.
    + by destruct l.
    + by rewrite last_snoc.
    + rewrite !length_app. simpl. lia.
    + by apply linked_snoc.
    + apply NoDup_app. split_and!; [done| |apply NoDup_singleton]. set_solver.
Qed.
Lemma queue_pop_spec q l :
  queue_rep q l →
  ∃ r q', queue_pop_locked q = Some (r, q') ∧
    match l with [] => r = None ∧ q' = q | f :: l' => r = Some f ∧ queue_rep q' l' end.
Proof.
  destruct q as [h tl ct nx]. intros [Hh Ht Hc Hl Hnd]. simpl in *. subst h tl ct. unfold queue_pop_locked. simpl.
  destruct l as [|f l]; simpl in *; [eauto|].
  destruct Hl as [Hf Hl]. rewrite Hf. simpl. eexists _, _. split; [reflexivity|]. split; [done|].
  apply NoDup_cons in Hnd as [Hfl Hnd]. split; simpl.
  - by destruct l.
  - by destruct l as [|g l].
  - destruct l; simpl; lia.
  - destruct l as [|g l]; [done|]. by apply linked_insert.
  - done.
Qed.

(** * Places *)

(** What a place says of the fiber it holds: queued, running or new. *)
Inductive role := RQueued | RRunning | RIdle.
#[export] Instance role_eq_dec : EqDecision role.
Proof. solve_decision. Defined.
Implicit Types (r : role).
Definition call_role c : option (role * nat) :=
  match c with
  | SpawnQueue f | AllocInit f | FreeLoad f | FreeLink f _ | FreeCas f _ => Some (RIdle, f)
  | Push f => Some (RQueued, f)
  | _ => None
  end.
Definition pc_role p : option (role * nat) :=
  match p with
  | Picked f | Start f => Some (RQueued, f)
  | InFiber f | Back f | Requeue f | Commit f | Dead f => Some (RRunning, f)
  | Call c => call_role c
  | _ => None
  end.
Definition RUNNING_PENDING : Z := Z.lor FIBER_V2_RUNNING FIBER_V2_FLAG_SIGNAL_PENDING.
(** The place a state word names; parked and dead fibers are in no place. *)
Definition state_role (z : Z) : option role :=
  if decide (z = FIBER_V2_QUEUED) then Some RQueued
  else if decide (z = FIBER_V2_RUNNING ∨ z = RUNNING_PENDING) then Some RRunning
  else if decide (z = FIBER_V2_IDLE) then Some RIdle else None.
Definition state_valid (z : Z) : Prop :=
  z = FIBER_V2_IDLE ∨ z = FIBER_V2_QUEUED ∨ z = FIBER_V2_RUNNING ∨ z = RUNNING_PENDING ∨ z = FIBER_V2_PARKED ∨ z = FIBER_V2_DEAD.

Definition ind r f (o : option (role * nat)) : Z := if decide (o = Some (r, f)) then 1 else 0.
Definition in_queue r f l : Z := if decide (r = RQueued ∧ f ∈ l) then 1 else 0.
Definition in_pool r f (P : gset nat) : Z := if decide (r = RIdle ∧ f ∈ P) then 1 else 0.
Definition want r (o : option fiber_v2) : Z :=
  match o with Some x => if decide (state_role (state x) = Some r) then 1 else 0 | None => 0 end.

Arguments ind : simpl never.
Arguments in_queue : simpl never.
Arguments in_pool : simpl never.
Arguments want : simpl never.

(** With [H] the places outside: every fiber is in one place of the kind its
    word names, and in no other. *)
Definition owned (H : role → nat → Z) s l : Prop :=
  ∀ r f, H r f + in_queue r f l + in_pool r f (pool s) = want r (fibers s !! f).
Definition held_by_threads s r f : Z := zsum (λ w, ind r f (pc_role (pc w))) (threads s).
Definition held_by_calls s r f : Z := zsum (λ o : option call_pc, ind r f (o ≫= call_role)) (calls s).

(** ** What a call in progress refers to *)
Definition call_ok s c : Prop :=
  match c with
  | SigLoad f => is_Some (fibers s !! f)
  | SigPending f e => is_Some (fibers s !! f) ∧ e = FIBER_V2_RUNNING
  | SigQueue f e => is_Some (fibers s !! f) ∧ e = FIBER_V2_PARKED
  | TryScan i n => (n ≤ num_threads s)%nat
  | Publish i => start_mu s = true ∧ i = num_threads s
  | AllocNext f => is_Some (fibers s !! f)
  | _ => True
  end.
Definition pc_ok s p : Prop :=
  match p with
  | Call c => call_ok s c
  | Done f => is_Some (fibers s !! f)
  | _ => True
  end.
(** The calls that hold [start_mu]. *)
Definition publishing c : Z := match c with Publish _ => 1 | _ => 0 end.
Definition pc_publishing p : Z := match p with Call c => publishing c | _ => 0 end.
Definition threads_publishing s : Z := zsum (λ w, pc_publishing (pc w)) (threads s).
Definition calls_publishing s : Z := zsum (λ o : option call_pc, match o with Some c => publishing c | None => 0 end) (calls s).

(** The part of the invariant without the places: state words are valid, the
    pool array has the published workers and the one being created. *)
Record base_inv s l : Prop := {
  bi_queue : queue_rep (ready_queue s) l;
  bi_valid : ∀ f x, fibers s !! f = Some x → state_valid (state x);
  bi_len : length (threads s) = (num_threads s + if start_mu s then 1 else 0)%nat }.
(** What the ownership argument needs of the free list: its head was pushed,
    every fiber has a link, and [calloc] returns a new one. *)
Record free_pre s : Prop := {
  fp_head : ∀ f, free_list s = Some f → f ∈ pool s;
  fp_next : ∀ f, is_Some (fibers s !! f) → is_Some (q_next (ready_queue s) !! f);
  fp_fresh : ∀ f, (fiber_count s ≤ f)%nat → fibers s !! f = None }.
Record sched_inv s l : Prop := {
  si_base : base_inv s l;
  si_owned : owned (λ r f, held_by_threads s r f + held_by_calls s r f) s l;
  si_pcs : ∀ t w, threads s !! t = Some w → pc_ok s (pc w);
  si_calls : ∀ k c, calls s !! k = Some (Some c) → call_ok s c;
  si_mu : threads_publishing s + calls_publishing s = if start_mu s then 1 else 0 }.

(** * Arithmetic of places *)

Lemma ind_nonneg r f o : 0 ≤ ind r f o.
Proof. unfold ind. case_decide; lia. Qed.
Lemma ind_None r f : ind r f None = 0.
Proof. done. Qed.
Lemma ind_self r f : ind r f (Some (r, f)) = 1.
Proof. unfold ind. by rewrite decide_True. Qed.
Lemma ind_other r f r' f' : (r, f) ≠ (r', f') → ind r f (Some (r', f')) = 0.
Proof. intros Hne. unfold ind. rewrite decide_False; [done|]. congruence. Qed.
Lemma in_queue_nonneg r f l : 0 ≤ in_queue r f l.
Proof. unfold in_queue. case_decide; lia. Qed.
Lemma in_pool_nonneg r f P : 0 ≤ in_pool r f P.
Proof. unfold in_pool. case_decide; lia. Qed.
Lemma want_le r o : 0 ≤ want r o ≤ 1.
Proof. unfold want. destruct o; [case_decide|]; lia. Qed.
Lemma want_one r o : want r o = 1 → ∃ x, o = Some x ∧ state_role (state x) = Some r.
Proof. unfold want. destruct o as [x|]; [|done]. case_decide; [eauto|done]. Qed.
Lemma role_queued z : state_role z = Some RQueued → z = FIBER_V2_QUEUED.
Proof. unfold state_role. repeat case_decide; naive_solver. Qed.
Lemma role_running z : state_role z = Some RRunning → z = FIBER_V2_RUNNING ∨ z = RUNNING_PENDING.
Proof. unfold state_role. repeat case_decide; naive_solver. Qed.
Lemma role_idle z : state_role z = Some RIdle → z = FIBER_V2_IDLE.
Proof. unfold state_role. repeat case_decide; naive_solver. Qed.

Section owned.
Context (H : role → nat → Z) (HH : ∀ r f, 0 ≤ H r f).
Implicit Types (K : role → nat → Z).

(** A place that holds a fiber determines its word and excludes the others. *)
Lemma owned_held s l r f (o : option (role * nat)) :
  owned (λ r f, H r f + ind r f o) s l → o = Some (r, f) →
  (∃ x, fibers s !! f = Some x ∧ state_role (state x) = Some r) ∧ H r f = 0 ∧
  in_queue r f l = 0 ∧ in_pool r f (pool s) = 0.
Proof.
  intros Ho ->. specialize (Ho r f). simpl in Ho. rewrite ind_self in Ho.
  pose proof (HH r f). pose proof (in_queue_nonneg r f l). pose proof (in_pool_nonneg r f (pool s)).
  pose proof (want_le r (fibers s !! f)). split; [apply want_one; lia|lia].
Qed.
(** Moving a fiber to another place together with its word. *)
Lemma owned_move s l f (g : fiber_v2 → fiber_v2) x o o' :
  owned (λ r f, H r f + ind r f o) s l → fibers s !! f = Some x →
  (∀ r, ind r f o' - ind r f o = want r (Some (g x)) - want r (Some x)) →
  (∀ r f', f' ≠ f → ind r f' o' = ind r f' o) →
  owned (λ r f, H r f + ind r f o') (set_fiber f g s) l.
Proof.
  intros Ho Hx Hf Hne r f'. specialize (Ho r f'). unfold set_fiber. simpl in *. destruct (decide (f' = f)) as [->|Hff].
  - rewrite lookup_alter_eq, Hx. change (g <$> Some x) with (Some (g x)). rewrite Hx in Ho. specialize (Hf r). lia.
  - rewrite lookup_alter_ne by done. rewrite (Hne r f' Hff). done.
Qed.
(** A fiber of the free list is idle. *)
Lemma owned_pool s l o f :
  owned (λ r f, H r f + ind r f o) s l → f ∈ pool s →
  (∃ x, fibers s !! f = Some x ∧ state_role (state x) = Some RIdle) ∧ H RIdle f + ind RIdle f o = 0.
Proof.
  intros Ho Hf. specialize (Ho RIdle f). simpl in Ho.
  assert (Hi : in_pool RIdle f (pool s) = 1) by (unfold in_pool; by rewrite decide_True).
  pose proof (HH RIdle f). pose proof (ind_nonneg RIdle f o). pose proof (in_queue_nonneg RIdle f l).
  pose proof (want_le RIdle (fibers s !! f)). split; [apply want_one; lia|lia].
Qed.
Lemma owned_same s s' l o o' :
  owned (λ r f, H r f + ind r f o) s l → fibers s' = fibers s → pool s' = pool s → o' = o →
  owned (λ r f, H r f + ind r f o') s' l.
Proof. intros Ho Hf Hp -> r f. rewrite Hf, Hp. apply Ho. Qed.
End owned.

(** ** The word changes the protocol makes *)
Lemma want_queued r x : want r (Some (x <| state := FIBER_V2_QUEUED |>)) = if decide (r = RQueued) then 1 else 0.
Proof. unfold want. simpl. destruct r; done. Qed.
Lemma want_running r x : want r (Some (x <| state := FIBER_V2_RUNNING |>)) = if decide (r = RRunning) then 1 else 0.
Proof. unfold want. simpl. destruct r; done. Qed.
Lemma want_role r x r' : state_role (state x) = Some r' → want r (Some x) = if decide (r = r') then 1 else 0.
Proof. intros Hr. unfold want. rewrite Hr. repeat case_decide; naive_solver. Qed.
Lemma want_none r x : state_role (state x) = None → want r (Some x) = 0.
Proof. intros Hr. unfold want. rewrite Hr. by case_decide. Qed.
Lemma ind_at r f r' f' : ind r f' (Some (r', f)) = if decide (r = r' ∧ f' = f) then 1 else 0.
Proof. unfold ind. repeat case_decide; naive_solver. Qed.

Lemma base_inv_set_fiber s l f (g : fiber_v2 → fiber_v2) :
  base_inv s l → (∀ x, fibers s !! f = Some x → state_valid (state (g x))) → base_inv (set_fiber f g s) l.
Proof.
  intros [Hq Hv Hl] Hg. split; simpl; [done| |done]. intros f' x. destruct (decide (f' = f)) as [->|Hne].
  - rewrite lookup_alter_eq. destruct (fibers s !! f) as [y|] eqn:E; [|done]. intros [= <-]. by apply Hg.
  - rewrite lookup_alter_ne by done. apply Hv.
Qed.
Lemma set_fiber_exists f g s f' : is_Some (fibers (set_fiber f g s) !! f') ↔ is_Some (fibers s !! f').
Proof. unfold set_fiber. simpl. rewrite lookup_alter_is_Some. done. Qed.
