(* ===== verification/SchedStep.v ===== *)
(** Every step of the scheduler is defined and preserves the ownership
    invariant. *)
From S2P Require Import Prelude Sched SchedInv.

Open Scope Z_scope.
Implicit Types (f t i n : nat) (s : sched) (q : v2_queue) (x : fiber_v2) (w : thread_v2) (c : call_pc) (p : work_pc) (l : list nat) (r : role).

(** What one access leaves alone: the other program counters and what they
    refer to; [z] counts whether the access is made with [start_mu] held. *)
Record keeps (z : Z) s s' : Prop := {
  k_calls : calls s' = calls s;
  k_pcs : pc <$> threads s' = pc <$> threads s ∨ pc <$> threads s' = (pc <$> threads s) ++ [Admit];
  k_fibers : ∀ f, is_Some (fibers s !! f) → is_Some (fibers s' !! f);
  k_num : (num_threads s ≤ num_threads s')%nat;
  k_mu : start_mu s = true → z = 0 → start_mu s' = true ∧ num_threads s' = num_threads s }.

Lemma keeps_refl z s s' :
  calls s' = calls s → threads s' = threads s → fibers s' = fibers s → num_threads s' = num_threads s → start_mu s' = start_mu s →
  keeps z s s'.
Proof. intros H1 H2 H3 H4 H5. split; rewrite ?H2, ?H3, ?H4, ?H5; auto. Qed.
Lemma keeps_set_fiber z f g s s' : keeps z s s' → keeps z s (set_fiber f g s').
Proof. intros [???? ?]. split; simpl; try done. intros f' ?. rewrite lookup_alter_is_Some. auto. Qed.
Lemma keeps_signalled z f s s' : keeps z s s' → keeps z s (set_signalled f s').
Proof. intros [???? ?]. by split. Qed.
Lemma pcs_alter t (g : thread_v2 → thread_v2) (l : list thread_v2) : (∀ w, pc (g w) = pc w) → pc <$> alter g t l = pc <$> l.
Proof.
  intros Hg. apply list_eq. intros i. rewrite !list_lookup_fmap. destruct (decide (i = t)) as [->|Hne].
  - rewrite list_lookup_alter_eq. by destruct (l !! t); simpl; rewrite ?Hg.
  - by rewrite list_lookup_alter_ne.
Qed.
#[export] Hint Resolve keeps_refl keeps_set_fiber keeps_signalled : sched.

(** ** The whole postcondition of one access of a call *)
Record call_post (H : role → nat → Z) (M : Z) (c : call_pc) s (k : option call_pc) s' (l' : list nat) : Prop := {
  cp_base : base_inv s' l';
  cp_owned : owned (λ r f, H r f + ind r f (k ≫= call_role)) s' l';
  cp_ok : ∀ c', k = Some c' → call_ok s' c';
  cp_mu : M + (match k with Some c => publishing c | None => 0 end) = if start_mu s' then 1 else 0;
  cp_keeps : keeps (publishing c) s s' }.

Lemma state_base_valid z :
  state_valid z →
  fiber_v2_state_base z = (if decide (z = RUNNING_PENDING) then FIBER_V2_RUNNING else z) ∧
  fiber_v2_state_has_signal_pending z = bool_decide (z = RUNNING_PENDING).
Proof. intros [->|[->|[->|[->|[->| -> ]]]]]; by vm_compute. Qed.

Section call.
Context (cfg : sched_cfg) (H : role → nat → Z) (HH : ∀ r f, 0 ≤ H r f) (M : Z).

(** A step that changes no word and no place. *)
Lemma call_quiet c k s s' l :
  base_inv s l → owned (λ r f, H r f + ind r f (call_role c)) s l →
  M + publishing c = (if start_mu s then 1 else 0) →
  ready_queue s' = ready_queue s → fibers s' = fibers s → pool s' = pool s → calls s' = calls s →
  pc <$> threads s' = pc <$> threads s → num_threads s' = num_threads s → start_mu s' = start_mu s →
  (k : option call_pc) ≫= call_role = call_role c → (∀ c', k = Some c' → call_ok s' c') →
  (match k with Some c => publishing c | None => 0 end) = publishing c →
  call_post H M c s k s' l.
Proof.
  intros [Hq Hv Hl] Ho Hm Hq' Hf Hp Hc Ht Hn Hmu Hk Hok Hpub.
  assert (Hlen : length (threads s') = length (threads s)) by by rewrite <- (length_fmap pc), Ht, length_fmap.
  split; [|by eapply owned_same|done|by rewrite Hmu, Hpub|].
  - split; [by rewrite Hq'|by rewrite Hf|by rewrite Hlen, Hn, Hmu].
  - split; [done|by left|by rewrite Hf|by rewrite Hn|by rewrite Hn, Hmu].
Qed.

Lemma signal_load_spec b f s l :
  base_inv s l → owned (λ r f', H r f' + ind r f' (call_role (SigLoad f))) s l → call_ok s (SigLoad f) →
  M + 0 = (if start_mu s then 1 else 0) →
  ∃ k s' l', call_next cfg b (SigLoad f) s = Some (k, s') ∧ call_post H M (SigLoad f) s k s' l'.
Proof.
  intros Hb Ho [x Hx] Hm. simpl. rewrite Hx. simpl. pose proof (bi_valid _ _ Hb f x Hx) as Hv.
  destruct (state_base_valid _ Hv) as [-> ->].
  destruct Hv as [->|[->|[->|[->|[->| -> ]]]]]; simpl; (eexists _, _, l; split; [reflexivity|]);
    apply call_quiet; try done; intros c' [= <-]; simpl; eauto.
Qed.
Lemma signal_pending_spec b f e s l :
  base_inv s l → owned (λ r f', H r f' + ind r f' (call_role (SigPending f e))) s l → call_ok s (SigPending f e) →
  M + 0 = (if start_mu s then 1 else 0) →
  ∃ k s' l', call_next cfg b (SigPending f e) s = Some (k, s') ∧ call_post H M (SigPending f e) s k s' l'.
Proof.
  intros Hb Ho [[x Hx] ->] Hm. simpl. rewrite Hx. simpl. destruct (negb b && bool_decide (state x = FIBER_V2_RUNNING)) eqn:E.
  - apply andb_true_iff in E as [_ E%bool_decide_eq_true]. eexists _, _, l. split; [reflexivity|].
    split; simpl; [|change (ind _ _ (None ≫= call_role)) with 0|done|done|].
    + destruct (base_inv_set_fiber s l f (λ x, x <| state := RUNNING_PENDING |>) Hb) as [???]; [|by split].
      intros y _. simpl. unfold state_valid. auto.
    + eapply (owned_move H s l f (λ x, x <| state := RUNNING_PENDING |>) x None None); [done|done| |done].
      intros r. unfold want. simpl. rewrite E. by destruct r.
    + eauto with sched.
  - eexists _, _, l. split; [reflexivity|]. apply call_quiet; try done. intros c' [= <-]. simpl. eauto.
Qed.
Lemma base_inv_signalled s l f : base_inv s l → base_inv (set_signalled f s) l.
Proof. by intros [???]. Qed.
Lemma valid_queued : state_valid FIBER_V2_QUEUED.
Proof. unfold state_valid. auto. Qed.

(** A word set to QUEUED by the place that then pushes the fiber. *)
Lemma to_queued s l f x o :
  owned (λ r f, H r f + ind r f o) s l → fibers s !! f = Some x →
  (∀ r, want r (Some x) = ind r f o) → (∀ r f', f' ≠ f → ind r f' o = 0) →
  owned (λ r f', H r f' + ind r f' (Some (RQueued, f))) (set_fiber f (λ x, x <| state := FIBER_V2_QUEUED |>) s) l.
Proof.
  intros Ho Hx Hw Hne. eapply (owned_move H s l f _ x o); [done|done| |].
  - intros r. rewrite want_queued, Hw, ind_at. repeat case_decide; naive_solver lia.
  - intros r f' Hff. rewrite ind_at, Hne by done. by rewrite decide_False by naive_solver.
Qed.
Lemma signal_queue_spec b f e s l :
  base_inv s l → owned (λ r f', H r f' + ind r f' (call_role (SigQueue f e))) s l → call_ok s (SigQueue f e) →
  M + 0 = (if start_mu s then 1 else 0) →
  ∃ k s' l', call_next cfg b (SigQueue f e) s = Some (k, s') ∧ call_post H M (SigQueue f e) s k s' l'.
Proof.
  intros Hb Ho [[x Hx] ->] Hm. simpl. rewrite Hx. simpl. destruct (negb b && bool_decide (state x = FIBER_V2_PARKED)) eqn:E.
  - apply andb_true_iff in E as [_ E%bool_decide_eq_true]. eexists _, _, l. split; [reflexivity|].
    split; simpl; [| |by intros c' [= <-]|done|].
    + apply base_inv_signalled, base_inv_set_fiber; [done|]. intros y _. apply valid_queued.
    + eapply (to_queued s l f x None); [done|done| |done]. intros r. apply want_none. by rewrite E.
    + eauto with sched.
  - eexists _, _, l. split; [reflexivity|]. apply call_quiet; try done. intros c' [= <-]. simpl. eauto.
Qed.
Lemma spawn_queue_spec b f s l :
  base_inv s l → owned (λ r f', H r f' + ind r f' (call_role (SpawnQueue f))) s l →
  M + 0 = (if start_mu s then 1 else 0) →
  ∃ k s' l', call_next cfg b (SpawnQueue f) s = Some (k, s') ∧ call_post H M (SpawnQueue f) s k s' l'.
Proof.
  intros Hb Ho Hm. destruct (owned_held H HH s l RIdle f _ Ho eq_refl) as ((x & Hx & Hr) & _).
  simpl. unfold sched_v2_spawn_next. rewrite Hx. simpl. eexists _, _, l. split; [reflexivity|]. split; simpl; [| |by intros c' [= <-]|done|].
  - apply base_inv_set_fiber; [done|]. intros y _. apply valid_queued.
  - eapply (to_queued s l f x (Some (RIdle, f))); [done|done| |].
    + intros r. rewrite (want_role r x RIdle Hr), ind_at. repeat case_decide; naive_solver.
    + intros r f' Hff. apply ind_other. congruence.
  - eauto with sched.
Qed.
Lemma push_spec b f s l :
  base_inv s l → owned (λ r f', H r f' + ind r f' (call_role (Push f))) s l →
  M + 0 = (if start_mu s then 1 else 0) →
  ∃ k s', call_next cfg b (Push f) s = Some (k, s') ∧ call_post H M (Push f) s k s' (l ++ [f]).
Proof.
  intros Hb Ho Hm. destruct (owned_held H HH s l RQueued f _ Ho eq_refl) as (_ & _ & Hin & _).
  assert (Hf : f ∉ l) by (intros ?; unfold in_queue in Hin; by rewrite decide_True in Hin).
  destruct (queue_push_spec _ _ f (bi_queue _ _ Hb) Hf) as (q' & Hq & Hrep). unfold call_next, sched_v2_enqueue_runnable_next. rewrite Hq.
  assert (Hgo : ∀ k : option call_pc, k ≫= call_role = None → (∀ c', k = Some c' → call_ok s c' ∧ c' = WakeCount) →
    call_post H M (Push f) s k (s <| ready_queue := q' |>) (l ++ [f])).
  { intros k Hk Hok. split; [|rewrite Hk| | |by apply keeps_refl].
    - destruct Hb as [_ ??]. by split.
    - intros r f'. specialize (Ho r f'). simpl in *. rewrite <- Ho. change (ind r f' None) with 0.
      rewrite ind_at. unfold in_queue. destruct (decide (f' = f)) as [->|Hff].
      + repeat case_decide; set_solver by lia.
      + rewrite (decide_False (P := r = RQueued ∧ f' = f)) by naive_solver. repeat case_decide; set_solver by lia.
    - intros c' Hc. by destruct (Hok c' Hc) as [_ ->].
    - destruct k as [c'|]; [|done]. by destruct (Hok c' eq_refl) as [_ ->]. }
  case_decide; (eexists _, _; split; [reflexivity|]); apply Hgo; try done. intros c' [= <-]. done.
Qed.
Lemma expand_spec b s l :
  base_inv s l → owned (λ r f', H r f' + ind r f' (call_role Expand)) s l →
  M + 0 = (if start_mu s then 1 else 0) →
  ∃ k s' l', call_next cfg b Expand s = Some (k, s') ∧ call_post H M Expand s k s' l'.
Proof.
  intros Hb Ho Hm. simpl. destruct (start_mu s) eqn:Emu; [|case_decide; [|destruct b]];
    try by (eexists _, _, l; split; [reflexivity|]; apply call_quiet; try done; try (by rewrite Emu); intros c' [= <-]).
  destruct Hb as [Hq Hv Hl]. rewrite Emu in Hl. eexists _, _, l. split; [reflexivity|]. split; simpl; [| | |lia|].
  - split; simpl; [done|done|]. rewrite length_app, Hl. simpl. lia.
  - intros r f. apply Ho.
  - intros c' [= <-]. simpl. done.
  - split; simpl; try done; try (by rewrite Emu). right. by rewrite fmap_app.
Qed.
Lemma publish_spec b i s l :
  0 ≤ M → base_inv s l → owned (λ r f', H r f' + ind r f' (call_role (Publish i))) s l → call_ok s (Publish i) →
  M + 1 = (if start_mu s then 1 else 0) →
  ∃ k s' l', call_next cfg b (Publish i) s = Some (k, s') ∧ call_post H M (Publish i) s k s' l'.
Proof.
  intros HM Hb Ho [Hmu ->] Hm. rewrite Hmu in Hm. eexists _, _, l. split; [reflexivity|]. destruct Hb as [Hq Hv Hl]. rewrite Hmu in Hl.
  split; simpl; [| |done|lia|].
  - split; simpl; [done|done|]. lia.
  - intros r f. apply Ho.
  - split; simpl; try done; [by left|lia].
Qed.

(** ** The free list *)

Lemma set_next_base s l f o : base_inv s l → f ∉ l → base_inv (set_next f o s) l.
Proof.
  intros [[Hh Ht Hc Hl Hnd] Hv Hlen] Hf. split; [|done|done]. split; try done. simpl. by apply linked_insert.
Qed.
Lemma idle_unqueued s l f o :
  owned (λ r f, H r f + ind r f o) s l → (∃ x, fibers s !! f = Some x ∧ state_role (state x) = Some RIdle) → f ∉ l.
Proof.
  intros Ho (x & Hx & Hr) Hf. specialize (Ho RQueued f). simpl in Ho. rewrite Hx, (want_role _ _ _ Hr) in Ho. simpl in Ho.
  assert (Hq : in_queue RQueued f l = 1) by (unfold in_queue; by rewrite decide_True).
  pose proof (HH RQueued f). pose proof (ind_nonneg RQueued f o). pose proof (in_pool_nonneg RQueued f (pool s)). lia.
Qed.
Lemma keeps_set_next z f o s : keeps z s (set_next f o s).
Proof. by apply keeps_refl. Qed.
Lemma alloc_from_spec (s : sched) c l :
  free_pre s → base_inv s l → owned (λ r f', H r f' + ind r f' (call_role c)) s l → call_role c = None →
  M + 0 = (if start_mu s then 1 else 0) → publishing c = 0 →
  call_post H M c s (Some (alloc_from (free_list s))) s l.
Proof.
  intros Hfp Hb Ho Hc Hm Hp. assert (Hr : Some (alloc_from (free_list s)) ≫= call_role = None) by by simpl; destruct (free_list s).
  apply call_quiet; try done; [by rewrite Hp|by rewrite Hr, Hc| |rewrite Hp; by destruct (free_list s)].
  intros c' [= <-]. destruct (free_list s) as [f|] eqn:Ef; [|done].
  destruct (owned_pool H HH s l _ f Ho (fp_head _ Hfp f Ef)) as [(x & Hx & _) _]. simpl. by rewrite Hx.
Qed.
Lemma alloc_cas_spec b f nx s l :
  free_pre s → base_inv s l → owned (λ r f', H r f' + ind r f' (call_role (AllocCas f nx))) s l →
  M + 0 = (if start_mu s then 1 else 0) →
  ∃ k s' l', call_next cfg b (AllocCas f nx) s = Some (k, s') ∧ call_post H M (AllocCas f nx) s k s' l'.
Proof.
  intros Hfp Hb Ho Hm. simpl. destruct (negb b && _) eqn:E; (eexists _, _, l; split; [reflexivity|]); [|by apply alloc_from_spec].
  apply andb_true_iff in E as [_ E%bool_decide_eq_true]. pose proof (fp_head _ Hfp f E) as Hf.
  destruct (owned_pool H HH s l _ f Ho Hf) as [_ H0]. split; simpl; [by destruct Hb| |by intros c' [= <-]|done|by apply keeps_refl].
  intros r f'. specialize (Ho r f'). simpl in Ho |- *. rewrite <- Ho, ind_at. change (ind r f' None) with 0. unfold in_pool.
  destruct (decide (f' = f)) as [->|Hff]; repeat case_decide; set_solver by lia.
Qed.
Lemma alloc_init_spec b f s l :
  base_inv s l → owned (λ r f', H r f' + ind r f' (call_role (AllocInit f))) s l →
  M + 0 = (if start_mu s then 1 else 0) →
  ∃ k s' l', call_next cfg b (AllocInit f) s = Some (k, s') ∧ call_post H M (AllocInit f) s k s' l'.
Proof.
  intros Hb Ho Hm. destruct (owned_held H HH s l RIdle f _ Ho eq_refl) as ((x & Hx & Hr) & _).
  pose proof (idle_unqueued s l f _ Ho (ex_intro _ x (conj Hx Hr))) as Hf. simpl. rewrite Hx. simpl.
  eexists _, _, l. split; [reflexivity|]. split; simpl; [| |by intros c' [= <-]|done|].
  - destruct (base_inv_set_fiber _ l f (λ _, new_fiber) (set_next_base s l f None Hb Hf)) as [???]; [|by split]. intros y _. by left.
  - eapply (owned_move H (set_next f None s) l f (λ _, new_fiber) x (Some (RIdle, f)) (Some (RIdle, f))); [exact Ho|done| |done].
    intros r. rewrite (want_role r x RIdle Hr), (want_role r _ RIdle) by done. lia.
  - destruct (keeps_set_fiber _ f (λ _, new_fiber) _ _ (keeps_set_next 0 f None s)) as [?????]. by split.
Qed.
Lemma alloc_new_spec b s l :
  free_pre s → base_inv s l → owned (λ r f', H r f' + ind r f' (call_role AllocNew)) s l →
  M + 0 = (if start_mu s then 1 else 0) →
  ∃ k s' l', call_next cfg b AllocNew s = Some (k, s') ∧ call_post H M AllocNew s k s' l'.
Proof.
  intros Hfp Hb Ho Hm. pose proof (fp_fresh _ Hfp (fiber_count s) ltac:(lia)) as Hfr. simpl.
  destruct b; (eexists _, _, l; split; [reflexivity|]); [by apply call_quiet|].
  assert (H0 : ∀ r, H r (fiber_count s) + in_queue r (fiber_count s) l + in_pool r (fiber_count s) (pool s) = 0).
  { intros r. specialize (Ho r (fiber_count s)). simpl in Ho. rewrite Hfr in Ho. change (ind r (fiber_count s) None) with 0 in Ho. unfold want in Ho. lia. }
  assert (Hf : fiber_count s ∉ l).
  { intros Hin. specialize (H0 RQueued). pose proof (HH RQueued (fiber_count s)). pose proof (in_pool_nonneg RQueued (fiber_count s) (pool s)).
    assert (in_queue RQueued (fiber_count s) l = 1) by (unfold in_queue; by rewrite decide_True). lia. }
  split; simpl; [| |by intros c' [= <-]|done|].
  - destruct (set_next_base s l (fiber_count s) None Hb Hf) as [Hq Hv Hl]. split; simpl; [done| |done].
    intros f x. destruct (decide (f = fiber_count s)) as [->|Hne]; [rewrite lookup_insert_eq; intros [= <-]; by left|].
    rewrite lookup_insert_ne by done. apply Hv.
  - intros r f. specialize (Ho r f). specialize (H0 r). simpl in Ho |- *. rewrite ind_at. destruct (decide (f = fiber_count s)) as [->|Hne].
    + rewrite lookup_insert_eq, (want_role r _ RIdle) by done. repeat case_decide; naive_solver lia.
    + rewrite lookup_insert_ne by done. rewrite decide_False by naive_solver. rewrite <- Ho. done.
  - split; simpl; try done; [by left|]. intros f ?. by apply lookup_insert_is_Some'; right.
Qed.
Lemma free_link_spec b f h s l :
  base_inv s l → owned (λ r f', H r f' + ind r f' (call_role (FreeLink f h))) s l →
  M + 0 = (if start_mu s then 1 else 0) →
  ∃ k s' l', call_next cfg b (FreeLink f h) s = Some (k, s') ∧ call_post H M (FreeLink f h) s k s' l'.
Proof.
  intros Hb Ho Hm. destruct (owned_held H HH s l RIdle f _ Ho eq_refl) as ((x & Hx & Hr) & _).
  pose proof (idle_unqueued s l f _ Ho (ex_intro _ x (conj Hx Hr))) as Hf. simpl. rewrite Hx. simpl.
  eexists _, _, l. split; [reflexivity|]. split; simpl; [by apply set_next_base|exact Ho|by intros c' [= <-]|done|apply keeps_set_next].
Qed.
Lemma free_cas_spec b f h s l :
  base_inv s l → owned (λ r f', H r f' + ind r f' (call_role (FreeCas f h))) s l →
  M + 0 = (if start_mu s then 1 else 0) →
  ∃ k s' l', call_next cfg b (FreeCas f h) s = Some (k, s') ∧ call_post H M (FreeCas f h) s k s' l'.
Proof.
  intros Hb Ho Hm. destruct (owned_held H HH s l RIdle f _ Ho eq_refl) as (_ & _ & _ & Hp). simpl.
  assert (Hf : f ∉ pool s) by (intros ?; unfold in_pool in Hp; by rewrite decide_True in Hp).
  destruct (negb b && _); (eexists _, _, l; split; [reflexivity|]); [|apply call_quiet; try done; by intros c' [= <-]].
  split; simpl; [by destruct Hb| |done|done|by apply keeps_refl].
  intros r f'. specialize (Ho r f'). simpl in Ho |- *. rewrite <- Ho, ind_at. change (ind r f' None) with 0. unfold in_pool.
  destruct (decide (f' = f)) as [->|Hff]; repeat case_decide; set_solver by lia.
Qed.

(** One access of any call. *)
Lemma call_next_spec b c s l :
  0 ≤ M → free_pre s → base_inv s l → owned (λ r f, H r f + ind r f (call_role c)) s l → call_ok s c →
  M + publishing c = (if start_mu s then 1 else 0) →
  ∃ k s' l', call_next cfg b c s = Some (k, s') ∧ call_post H M c s k s' l'.
Proof.
  intros HM Hfp Hb Ho Hok Hm. destruct c.
  - by apply (signal_load_spec b f s l).
  - by apply (signal_pending_spec b f e s l).
  - by apply (signal_queue_spec b f e s l).
  - by apply (spawn_queue_spec b f s l).
  - destruct (push_spec b f s l Hb Ho Hm) as (k & s' & ? & ?). eauto.
  - eexists _, _, l. split; [reflexivity|]. apply call_quiet; try done; case_decide; try done; by intros c' [= <-].
  - eexists _, _, l. split; [reflexivity|]. apply call_quiet; try done; case_decide; try done; by intros c' [= <-].
  - eexists _, _, l. split; [reflexivity|]. apply call_quiet; try done; try (by intros c' [= <-]; case_decide); by case_decide.
  - eexists _, _, l. split; [reflexivity|]. apply call_quiet; try done; try (by intros c' [= <-]; case_decide); by case_decide.
  - eexists _, _, l. split; [reflexivity|]. apply call_quiet; try done. intros c' [= <-]. simpl. lia.
  - simpl in *. destruct (decide (i < n)%nat) as [Hi|Hi].
    + pose proof (bi_len _ _ Hb) as Hl. destruct (lookup_lt_is_Some_2 (threads s) i) as [w Hw]; [lia|]. rewrite Hw. simpl.
      case_decide; (eexists _, _, l; split; [reflexivity|]); apply call_quiet; try done;
        [|by intros c' [= <-]..]. by apply pcs_alter.
    + eexists _, _, l. split; [reflexivity|]. apply call_quiet; try done. by intros c' [= <-].
  - eexists _, _, l. split; [reflexivity|]. apply call_quiet; try done. by intros c' [= <-].
  - eexists _, _, l. split; [reflexivity|]. apply call_quiet; try done; [by apply pcs_alter|by intros c' [= <-]].
  - by apply (expand_spec b s l).
  - by apply (publish_spec b i s l).
  - eexists _, _, l. split; [reflexivity|]. by apply alloc_from_spec.
  - destruct (fp_next _ Hfp f Hok) as [nx Hnx]. simpl. rewrite Hnx. eexists _, _, l. split; [reflexivity|].
    apply call_quiet; try done. by intros c' [= <-].
  - by apply (alloc_cas_spec b f next s l).
  - by apply (alloc_new_spec b s l).
  - by apply (alloc_init_spec b f s l).
  - eexists _, _, l. split; [reflexivity|]. apply call_quiet; try done. by intros c' [= <-].
  - by apply (free_link_spec b f head s l).
  - by apply (free_cas_spec b f head s l).
Qed.
End call.

(** * Workers *)

Record work_post (H : role → nat → Z) (M : Z) (z : Z) s (p : work_pc) s' (l' : list nat) : Prop := {
  wp_base : base_inv s' l';
  wp_owned : owned (λ r f, H r f + ind r f (pc_role p)) s' l';
  wp_ok : pc_ok s' p;
  wp_mu : M + pc_publishing p = if start_mu s' then 1 else 0;
  wp_keeps : keeps z s s' }.

Section work.
Context (cfg : sched_cfg) (H : role → nat → Z) (HH : ∀ r f, 0 ≤ H r f) (M : Z).

(** A step that changes no word and keeps its place. *)
Lemma work_quiet s p p' s' l :
  base_inv s l → owned (λ r f, H r f + ind r f (pc_role p)) s l → M = (if start_mu s then 1 else 0) →
  ready_queue s' = ready_queue s → fibers s' = fibers s → pool s' = pool s → calls s' = calls s →
  pc <$> threads s' = pc <$> threads s → num_threads s' = num_threads s → start_mu s' = start_mu s →
  pc_role p' = pc_role p → pc_ok s' p' → pc_publishing p' = 0 →
  work_post H M 0 s p' s' l.
Proof.
  intros [Hq Hv Hl] Ho Hm Hq' Hf Hp Hc Ht Hn Hmu Hr Hok Hpub.
  assert (Hlen : length (threads s') = length (threads s)) by by rewrite <- (length_fmap pc), Ht, length_fmap.
  split; [|by eapply owned_same|done|rewrite Hmu, Hpub; lia|].
  - split; [by rewrite Hq'|by rewrite Hf|by rewrite Hlen, Hn, Hmu].
  - split; [done|by left|by rewrite Hf|by rewrite Hn|by rewrite Hn, Hmu].
Qed.
(** A step that changes the word of the fiber it holds. *)
Lemma work_move s p p' l f (g : fiber_v2 → fiber_v2) x :
  base_inv s l → owned (λ r f, H r f + ind r f (pc_role p)) s l → M = (if start_mu s then 1 else 0) →
  fibers s !! f = Some x → state_valid (state (g x)) →
  (∀ r, ind r f (pc_role p') - ind r f (pc_role p) = want r (Some (g x)) - want r (Some x)) →
  (∀ r f', f' ≠ f → ind r f' (pc_role p') = ind r f' (pc_role p)) →
  pc_ok (set_fiber f g s) p' → pc_publishing p' = 0 →
  work_post H M 0 s p' (set_fiber f g s) l.
Proof.
  intros Hb Ho Hm Hx Hv Hf Hne Hok Hpub. split; [|by eapply owned_move|done|simpl; lia|by apply keeps_set_fiber, keeps_refl].
  apply base_inv_set_fiber; [done|]. intros y Hy. by simplify_eq.
Qed.
Lemma work_hold s l p r f :
  owned (λ r f, H r f + ind r f (pc_role p)) s l → pc_role p = Some (r, f) →
  ∃ x, fibers s !! f = Some x ∧ state_role (state x) = Some r.
Proof. intros Ho Hp. by destruct (owned_held H HH s l r f _ Ho Hp) as [? _]. Qed.
Lemma work_signalled s p s' l g : work_post H M 0 s p s' l → work_post H M 0 s p (s' <| signalled ::= g |>) l.
Proof.
  intros [[???] ? Hok ? [?????]]. split; [by split|done| |done|by split]. by destruct p as [| | | | | | | | | | |[]| | | | | | | |].
Qed.
Lemma ind_off r f r' f' : f' ≠ f → ind r f' (Some (r', f)) = 0.
Proof. intros Hne. apply ind_other. congruence. Qed.

(** The drain of the queue. *)
Lemma drain_spec b w s l :
  0 ≤ M → free_pre s → base_inv s l → owned (λ r f, H r f + ind r f (pc_role (pc w))) s l → pc_ok s (pc w) →
  M + pc_publishing (pc w) = (if start_mu s then 1 else 0) →
  match pc w with PopCheck | PopLock => True | _ => False end →
  ∃ p s' l', sched_v2_drain_next b w s = Some (p, s') ∧ work_post H M (pc_publishing (pc w)) s p s' l'.
Proof.
  intros HM Hfp Hb Ho Hok Hm Hpc. unfold sched_v2_drain_next. destruct (pc w) as [| | |f|f|f|f|f|f|f|f|c| |r|r|r|v|v| |] eqn:Epc; try done; clear Hpc; simpl in Hm;
    try rewrite Z.add_0_r in Hm.
  - case_decide; (eexists _, _, l; split; [reflexivity|]); eapply work_quiet; try done; by destruct b.
  - destruct (queue_pop_spec _ _ (bi_queue _ _ Hb)) as (r & q' & Hpop & Hr). rewrite Hpop. simpl.
    destruct l as [|f l]; [destruct Hr as [-> ->]|destruct Hr as [-> Hq']].
    + eexists _, _, []. split; [reflexivity|]. eapply work_quiet; try done; by destruct b.
    + eexists _, _, l. split; [reflexivity|]. destruct Hb as [Hq Hv Hl]. split; simpl; [by split| |done|lia|by apply keeps_refl].
      intros r f'. specialize (Ho r f'). simpl in Ho |- *. rewrite <- Ho, ind_at. change (ind r f' None) with 0. unfold in_queue.
      pose proof (qr_nodup _ _ Hq) as [Hn _]%NoDup_cons. simpl. destruct (decide (f' = f)) as [->|Hff].
      * repeat case_decide; set_solver by lia.
      * rewrite (decide_False (P := r = RQueued ∧ f' = f)) by naive_solver. repeat case_decide; set_solver by lia.
Qed.
(** Running a fiber. *)
Lemma run_fiber_spec b o t w s l :
  0 ≤ M → free_pre s → base_inv s l → owned (λ r f, H r f + ind r f (pc_role (pc w))) s l → pc_ok s (pc w) →
  M + pc_publishing (pc w) = (if start_mu s then 1 else 0) →
  match pc w with Picked _ | Start _ | InFiber _ | Back _ | Requeue _ | Commit _ | Dead _ | Done _ | Call _ => True | _ => False end →
  ∃ p s' l', thread_v2_run_fiber_next cfg b o t w s = Some (p, s') ∧ work_post H M (pc_publishing (pc w)) s p s' l'.
Proof.
  intros HM Hfp Hb Ho Hok Hm Hpc. unfold thread_v2_run_fiber_next. destruct (pc w) as [| | |f|f|f|f|f|f|f|f|c| |r|r|r|v|v| |] eqn:Epc; try done; clear Hpc; simpl in Hm;
    try rewrite Z.add_0_r in Hm.
  - destruct (work_hold s l _ RQueued f Ho eq_refl) as (x & Hx & Hr%role_queued). rewrite Hx. simpl. rewrite Hr. simpl.
    eexists _, _, l. split; [reflexivity|]. by eapply work_quiet.
  - destruct (work_hold s l _ RQueued f Ho eq_refl) as (x & Hx & Hr). rewrite Hx. simpl.
    eexists _, _, l. split; [reflexivity|].
    apply (work_signalled s (InFiber f) (set_fiber f (λ x, x <| state := FIBER_V2_RUNNING |>
      <| last_thread_id := Z.of_nat t |> <| yield_kind := V2_YIELD_PARK |>) s) l (λ S, S ∖ {[f]})).
    eapply (work_move s (Start f)); [done|done|done|done|by do 2 right; left| | |done|done].
    + intros r. rewrite (want_role r x RQueued Hr), (want_role r _ RRunning) by done. simpl. rewrite !ind_at.
      repeat case_decide; naive_solver.
    + intros r f' Hff. simpl. by rewrite !ind_off.
  - destruct (work_hold s l _ RRunning f Ho eq_refl) as (x & Hx & Hr). pose proof (bi_valid _ _ Hb f x Hx) as Hv.
    destruct o; [| |by eexists _, _, l; split; [reflexivity|]; eapply work_quiet];
      (eexists _, _, l; split; [reflexivity|]; eapply (work_move s (InFiber f)); try done; intros r; unfold want; simpl; lia).
  - destruct (work_hold s l _ RRunning f Ho eq_refl) as (x & Hx & Hr). rewrite Hx. simpl.
    eexists _, _, l. split; [reflexivity|]. eapply work_quiet; try done; by destruct (_ || _).
  - destruct (work_hold s l _ RRunning f Ho eq_refl) as (x & Hx & Hr). rewrite Hx. simpl.
    eexists _, _, l. split; [reflexivity|]. eapply (work_move s (Requeue f)); [done|done|done|done|by right; left| | |done|done].
    + intros r. rewrite (want_role r x RRunning Hr), want_queued. simpl. rewrite !ind_at. repeat case_decide; naive_solver.
    + intros r f' Hff. simpl. by rewrite !ind_off.
  - destruct (work_hold s l _ RRunning f Ho eq_refl) as (x & Hx & Hr). rewrite Hx. simpl. destruct (decide (state x = FIBER_V2_RUNNING)) as [Er|Er].
    + eexists _, _, l. split; [reflexivity|]. eapply (work_move s (Commit f)); [done|done|done|done|by do 4 right; left| | |done|done].
      * intros r. rewrite (want_role r x RRunning Hr), (want_none r (x <| state := FIBER_V2_PARKED |>)) by done. simpl. rewrite ind_at.
        change (ind r f None) with 0. repeat case_decide; naive_solver.
      * intros r f' Hff. simpl. by rewrite ind_off.
    + eexists _, _, l. split; [reflexivity|]. by eapply work_quiet.
  - destruct (work_hold s l _ RRunning f Ho eq_refl) as (x & Hx & Hr). rewrite Hx. simpl.
    eexists _, _, l. split; [reflexivity|]. eapply (work_move s (Dead f)); [done|done|done|done|by do 5 right| | | |done].
    + intros r. rewrite (want_role r x RRunning Hr), (want_none r (x <| state := FIBER_V2_DEAD |>)) by done. simpl. rewrite ind_at.
      change (ind r f None) with 0. repeat case_decide; naive_solver.
    + intros r f' Hff. simpl. by rewrite ind_off.
    + simpl. rewrite lookup_alter_eq, Hx. by eexists.
  - destruct Hok as [x Hx]. rewrite Hx. simpl. eexists _, _, l. split; [reflexivity|].
    eapply (work_move s (Done f)); try done; [exact (bi_valid _ _ Hb f x Hx)|]. intros r. unfold want. simpl. lia.
  - destruct (call_next_spec cfg H HH M b c s l HM Hfp Hb Ho Hok Hm) as (k & s' & l' & Hn & [H1 H2 H3 H4 H5]). rewrite Hn. simpl.
    eexists _, _, l'. split; [reflexivity|]. destruct k as [c'|]; split; try done; by apply H3.
Qed.
(** Admission and sleep. *)
Lemma main_spec b t w s l :
  0 ≤ M → free_pre s → base_inv s l → owned (λ r f, H r f + ind r f (pc_role (pc w))) s l → pc_ok s (pc w) →
  M + pc_publishing (pc w) = (if start_mu s then 1 else 0) →
  match pc w with Admit | Deadmit | SetIdle _ | IncIdle _ | LoadWake _ | Recheck _ | Wait _ | ClearIdle | SubIdle => True | _ => False end →
  ∃ p s' l', thread_v2_main_next cfg b t w s = Some (p, s') ∧ work_post H M (pc_publishing (pc w)) s p s' l'.
Proof.
  intros HM Hfp Hb Ho Hok Hm Hpc. unfold thread_v2_main_next. destruct (pc w) as [| | |f|f|f|f|f|f|f|f|c| |r|r|r|v|v| |] eqn:Epc; try done; clear Hpc; simpl in Hm;
    try rewrite Z.add_0_r in Hm.
  - case_decide; (eexists _, _, l; split; [reflexivity|]); by eapply work_quiet.
  - eexists _, _, l. split; [reflexivity|]. by eapply work_quiet.
  - eexists _, _, l. split; [reflexivity|]. eapply work_quiet; try done. by apply pcs_alter.
  - eexists _, _, l. split; [reflexivity|]. by eapply work_quiet.
  - eexists _, _, l. split; [reflexivity|]. eapply work_quiet; try done; by destruct r.
  - eexists _, _, l. split; [reflexivity|]. eapply work_quiet; try done; by case_decide.
  - eexists _, _, l. split; [reflexivity|]. eapply work_quiet; try done; by destruct (_ || _).
  - eexists _, _, l. split; [reflexivity|]. eapply work_quiet; try done; [by apply pcs_alter|by case_decide..].
  - eexists _, _, l. split; [reflexivity|]. by eapply work_quiet.
Qed.
Lemma work_next_spec b o t w s l :
  0 ≤ M → free_pre s → base_inv s l → owned (λ r f, H r f + ind r f (pc_role (pc w))) s l → pc_ok s (pc w) →
  M + pc_publishing (pc w) = (if start_mu s then 1 else 0) →
  ∃ p s' l', work_next cfg b o t w s = Some (p, s') ∧ work_post H M (pc_publishing (pc w)) s p s' l'.
Proof.
  intros HM Hfp Hb Ho Hok Hm. pose proof (drain_spec b w s l HM Hfp Hb Ho Hok Hm) as Hd. pose proof (run_fiber_spec b o t w s l HM Hfp Hb Ho Hok Hm) as Hr.
  pose proof (main_spec b t w s l HM Hfp Hb Ho Hok Hm) as Hn. unfold work_next. destruct (pc w); first [by apply Hd|by apply Hr|by apply Hn].
Qed.
End work.
