(* ===== verification/SchedSafe.v ===== *)
(** Every step of the scheduler keeps the ownership invariant, as long as the
    head of the free list is a fiber of the list; what the invariant says of
    workers, calls and the queue. *)
From S2P Require Import Prelude Sched SchedInv SchedStep.

Open Scope Z_scope.
Implicit Types (f t i n k : nat) (s : sched) (q : v2_queue) (x : fiber_v2) (w : thread_v2) (c : call_pc) (p : work_pc) (l : list nat) (r : role).

(** * Other program counters keep what they refer to *)

Lemma call_ok_keeps z s s' c : keeps z s s' → (publishing c = 1 → z = 0) → call_ok s c → call_ok s' c.
Proof.
  intros [_ _ Hf Hn Hmu] Hz. destruct c; simpl; try done.
  - apply Hf.
  - intros [? ->]. auto.
  - intros [? ->]. auto.
  - lia.
  - intros [Hs ->]. destruct (Hmu Hs (Hz eq_refl)) as [? ->]. done.
  - apply Hf.
Qed.
Lemma pc_ok_keeps z s s' p : keeps z s s' → (pc_publishing p = 1 → z = 0) → pc_ok s p → pc_ok s' p.
Proof.
  intros Hk Hz. destruct p; simpl; try done; [apply (k_fibers _ _ _ Hk)|]. by apply (call_ok_keeps z).
Qed.
Lemma publishing_nonneg c : 0 ≤ publishing c ≤ 1.
Proof. destruct c; simpl; lia. Qed.
Lemma pc_publishing_nonneg p : 0 ≤ pc_publishing p ≤ 1.
Proof. destruct p; simpl; try lia. apply publishing_nonneg. Qed.
Definition opt_publishing (o : option call_pc) : Z := match o with Some c => publishing c | None => 0 end.
Lemma opt_publishing_nonneg o : 0 ≤ opt_publishing o.
Proof. destruct o as [c|]; simpl; [apply publishing_nonneg|lia]. Qed.

(** A sum over the workers in terms of their program counters. *)
Lemma sum_pcs (F : work_pc → Z) s s' z :
  keeps z s s' → F Admit = 0 → zsum (λ w, F (pc w)) (threads s') = zsum (λ w, F (pc w)) (threads s).
Proof.
  intros [_ Hp _ _ _] HF. rewrite <- !(zsum_fmap F pc). destruct Hp as [->| ->]; [done|].
  rewrite zsum_app, zsum_cons, HF. change (zsum F []) with 0. lia.
Qed.
Lemma pcs_lookup s s' z t p :
  keeps z s s' → (pc <$> threads s') !! t = Some p → (pc <$> threads s) !! t = Some p ∨ p = Admit.
Proof.
  intros [_ Hp _ _ _]. destruct Hp as [->| ->]; [by left|]. rewrite lookup_app_Some. intros [?|[_ Hx]]; [by left|right].
  by apply list_lookup_singleton_Some in Hx as [_ ->].
Qed.

(** The holder of [start_mu] is unique. *)
Lemma thread_publishing_le s t w : threads s !! t = Some w → 0 ≤ pc_publishing (pc w) ≤ threads_publishing s.
Proof.
  intros Hw. split; [apply pc_publishing_nonneg|].
  apply (zsum_lookup (λ w, pc_publishing (pc w)) _ _ _ (λ w, proj1 (pc_publishing_nonneg _)) Hw).
Qed.
Lemma call_publishing_le s k o : calls s !! k = Some o → 0 ≤ opt_publishing o ≤ calls_publishing s.
Proof. intros Hk. split; [apply opt_publishing_nonneg|]. apply (zsum_lookup opt_publishing _ _ _ opt_publishing_nonneg Hk). Qed.
Lemma publishing_sums s : 0 ≤ threads_publishing s ∧ 0 ≤ calls_publishing s.
Proof. split; apply zsum_nonneg; [intros w; apply pc_publishing_nonneg|apply opt_publishing_nonneg]. Qed.

Lemma other_pcs_ok z s s' t w :
  keeps z s s' → (∀ t w, threads s !! t = Some w → pc_ok s (pc w)) →
  (∀ w0, threads s !! t = Some w0 → pc_publishing (pc w0) = 1 → z = 0) →
  threads s' !! t = Some w → pc_ok s' (pc w).
Proof.
  intros Hk Hpc Hz Hw. destruct (pcs_lookup s s' _ t (pc w) Hk) as [Hp| ->]; [by rewrite list_lookup_fmap, Hw| |done].
  rewrite list_lookup_fmap in Hp. destruct (threads s !! t) as [w0|] eqn:E; [|done]. injection Hp as Hp. rewrite <- Hp.
  eapply (pc_ok_keeps _ s); [done|by apply Hz|by eapply Hpc].
Qed.
(** What a program counter refers to does not depend on the other calls or on
    the program counters. *)
Lemma call_ok_ext s s' c :
  fibers s' = fibers s → num_threads s' = num_threads s → start_mu s' = start_mu s → call_ok s c → call_ok s' c.
Proof. intros Hf Hn Hm. destruct c; simpl; by rewrite ?Hf, ?Hn, ?Hm. Qed.
Lemma pc_ok_ext s s' p :
  fibers s' = fibers s → num_threads s' = num_threads s → start_mu s' = start_mu s → pc_ok s p → pc_ok s' p.
Proof. intros Hf Hn Hm. destruct p; simpl; rewrite ?Hf; try done. by apply call_ok_ext. Qed.
Lemma held_threads_nonneg s r f : 0 ≤ held_by_threads s r f.
Proof. apply zsum_nonneg. intros w. apply ind_nonneg. Qed.
Lemma held_calls_nonneg s r f : 0 ≤ held_by_calls s r f.
Proof. apply zsum_nonneg. intros w. apply ind_nonneg. Qed.
Lemma held_thread_le s r f t w : threads s !! t = Some w → ind r f (pc_role (pc w)) ≤ held_by_threads s r f.
Proof. intros Hw. apply (zsum_lookup (λ w, ind r f (pc_role (pc w))) _ _ _ (λ w, ind_nonneg _ _ _) Hw). Qed.
Lemma held_call_le s r f k o : calls s !! k = Some o → ind r f (o ≫= call_role) ≤ held_by_calls s r f.
Proof. intros Hk. apply (zsum_lookup (λ o : option call_pc, ind r f (o ≫= call_role)) _ _ _ (λ o, ind_nonneg _ _ _) Hk). Qed.

(** * Steps of calls *)

(** The access of a call in the state it is made in. *)
Lemma call_at cfg b k c s l :
  free_pre s → sched_inv s l → calls s !! k = Some (Some c) →
  ∃ o s' l', call_next cfg b c s = Some (o, s') ∧
    call_post (λ r f, held_by_threads s r f + (held_by_calls s r f - ind r f (call_role c)))
      (threads_publishing s + (calls_publishing s - publishing c)) c s o s' l'.
Proof.
  intros Hfp [Hb Ho Hpc Hca Hmu] Hk. pose proof (publishing_sums s) as [Hp1 Hp2]. pose proof (call_publishing_le _ _ _ Hk) as Hp3. simpl in Hp3.
  apply call_next_spec with l; [|lia|done|done| |by eapply Hca|lia].
  - intros r f. pose proof (held_threads_nonneg s r f). pose proof (held_call_le s r f _ _ Hk). simpl in *. lia.
  - intros r f. rewrite <- (Ho r f). lia.
Qed.
Lemma inv_call_step cfg b k c (o : option call_pc) s s' l :
  free_pre s → sched_inv s l → calls s !! k = Some (Some c) → call_next cfg b c s = Some (o, s') →
  ∃ l', sched_inv (s' <| calls ::= insert k o |>) l'.
Proof.
  intros Hfp Hi Hk Hn. destruct (call_at cfg b k c s l Hfp Hi Hk) as (k1 & s1 & l' & Hn' & [H1 H2 H3 H4 H5]).
  pose proof (call_publishing_le _ _ _ Hk) as Hp3. simpl in Hp3. pose proof (publishing_sums s) as [Hp1 Hp2]. destruct Hi as [Hb Ho Hpc Hca Hmu].
  rewrite Hn in Hn'. injection Hn' as <- <-. exists l'.
  assert (Hcs : calls s' !! k = Some (Some c)) by by rewrite (k_calls _ _ _ H5).
  split; simpl.
  - by destruct H1.
  - intros r f. specialize (H2 r f). simpl in H2 |- *. rewrite <- H2. unfold held_by_threads, held_by_calls. simpl.
    rewrite (zsum_insert _ _ _ _ o Hcs), (k_calls _ _ _ H5), (sum_pcs (λ p, ind r f (pc_role p)) s s' _ H5) by done.
    unfold held_by_threads, held_by_calls. simpl. lia.
  - intros t w Hw. apply (pc_ok_ext s'); [done..|]. eapply (other_pcs_ok _ s s' t w); [done|done| |done].
    intros w0 E Hpub. pose proof (thread_publishing_le s t w0 E). destruct (start_mu s); lia.
  - intros k2 c2 Hc2. apply (call_ok_ext s'); [done..|]. revert Hc2. destruct (decide (k2 = k)) as [->|Hne].
    + rewrite list_lookup_insert_eq by (by eapply lookup_lt_Some). intros [= ->]. by apply H3.
    + rewrite list_lookup_insert_ne by done. rewrite (k_calls _ _ _ H5). intros Hk2.
      eapply (call_ok_keeps _ s); [done| |by eapply Hca]. intros Hpub.
      pose proof (zsum_two opt_publishing _ _ _ _ _ opt_publishing_nonneg Hne Hk2 Hk) as Hz. simpl in Hz.
      change (zsum opt_publishing (calls s)) with (calls_publishing s) in Hz. destruct (start_mu s); lia.
  - unfold threads_publishing, calls_publishing. simpl.
    rewrite (zsum_insert _ _ _ _ o Hcs), (k_calls _ _ _ H5), (sum_pcs pc_publishing s s' _ H5) by done.
    rewrite <- H4. unfold threads_publishing, calls_publishing. destruct o; lia.
Qed.

(** * Steps of workers *)

Lemma set_pc_lookup s t p t' w' :
  threads (set_thread t (λ w, w <| pc := p |>) s) !! t' = Some w' →
  ∃ w, threads s !! t' = Some w ∧ pc w' = if decide (t' = t) then p else pc w.
Proof.
  unfold set_thread. simpl. destruct (decide (t' = t)) as [->|Hne].
  - rewrite list_lookup_alter_eq. destruct (threads s !! t) as [w|]; [|done]. intros [= <-]. eauto.
  - rewrite list_lookup_alter_ne by done. eauto.
Qed.
Lemma keeps_thread z s s' t w : keeps z s s' → threads s !! t = Some w → ∃ w', threads s' !! t = Some w' ∧ pc w' = pc w.
Proof.
  intros [_ Hp _ _ _] Hw. assert (Hl : (pc <$> threads s') !! t = Some (pc w)).
  { assert (Hl : (pc <$> threads s) !! t = Some (pc w)) by by rewrite list_lookup_fmap, Hw.
    destruct Hp as [->| ->]; [done|]. by apply lookup_app_l_Some. }
  rewrite list_lookup_fmap in Hl. destruct (threads s' !! t) as [w'|]; [|done]. injection Hl as Hl. eauto.
Qed.
Lemma work_at cfg b o t w s l :
  free_pre s → sched_inv s l → threads s !! t = Some w →
  ∃ p s' l', work_next cfg b o t w s = Some (p, s') ∧
    work_post (λ r f, (held_by_threads s r f - ind r f (pc_role (pc w))) + held_by_calls s r f)
      ((threads_publishing s - pc_publishing (pc w)) + calls_publishing s) (pc_publishing (pc w)) s p s' l'.
Proof.
  intros Hfp [Hb Ho Hpc Hca Hmu] Hw. pose proof (publishing_sums s) as [Hp1 Hp2]. pose proof (thread_publishing_le _ _ _ Hw) as Hp3.
  apply work_next_spec with l; [|lia|done|done| |by eapply Hpc|lia].
  - intros r f. pose proof (held_calls_nonneg s r f). pose proof (held_thread_le s r f _ _ Hw). lia.
  - intros r f. rewrite <- (Ho r f). lia.
Qed.
Lemma inv_work_step cfg b o t w p s s' l :
  free_pre s → sched_inv s l → threads s !! t = Some w → work_next cfg b o t w s = Some (p, s') →
  ∃ l', sched_inv (set_thread t (λ w, w <| pc := p |>) s') l'.
Proof.
  intros Hfp Hi Hw Hn. destruct (work_at cfg b o t w s l Hfp Hi Hw) as (p1 & s1 & l' & Hn' & [H1 H2 H3 H4 H5]).
  pose proof (thread_publishing_le _ _ _ Hw) as Hp3. pose proof (publishing_sums s) as [Hp1 Hp2]. destruct Hi as [Hb Ho Hpc Hca Hmu].
  rewrite Hn in Hn'. injection Hn' as <- <-. exists l'. destruct (keeps_thread _ _ _ _ _ H5 Hw) as (w1 & Hw1 & Ew1).
  split; simpl.
  - destruct H1 as [?? Hl]. split; simpl; [done|done|by rewrite length_alter].
  - intros r f. specialize (H2 r f). simpl in H2 |- *. rewrite <- H2. unfold held_by_threads, held_by_calls. simpl.
    rewrite (zsum_alter _ _ _ _ w1 Hw1), (k_calls _ _ _ H5), (sum_pcs (λ p, ind r f (pc_role p)) s s' _ H5), Ew1 by done.
    unfold held_by_threads, held_by_calls. simpl. lia.
  - intros t2 w2 Hw2. apply (pc_ok_ext s'); [done..|]. apply set_pc_lookup in Hw2 as (w3 & Hw3 & ->).
    destruct (decide (t2 = t)) as [->|Hne]; [done|]. eapply (other_pcs_ok _ s s' t2 w3); [done|done| |done].
    intros w0 E Hpub. pose proof (zsum_two (λ w, pc_publishing (pc w)) _ _ _ _ _ (λ w, proj1 (pc_publishing_nonneg _)) Hne E Hw) as Hz.
    change (zsum _ (threads s)) with (threads_publishing s) in Hz. simpl in Hz. destruct (start_mu s); lia.
  - intros k2 c2 Hc2. apply (call_ok_ext s'); [done..|]. rewrite (k_calls _ _ _ H5) in Hc2.
    eapply (call_ok_keeps _ s); [done| |by eapply Hca]. intros Hpub. pose proof (call_publishing_le _ _ _ Hc2) as Hz. simpl in Hz.
    destruct (start_mu s); lia.
  - unfold threads_publishing, calls_publishing. simpl.
    rewrite (zsum_alter _ _ _ _ w1 Hw1), (k_calls _ _ _ H5), (sum_pcs pc_publishing s s' _ H5), Ew1 by done.
    rewrite <- H4. unfold threads_publishing, calls_publishing. simpl. lia.
Qed.

(** * Calls begin, fibers are allocated and released *)

Lemma inv_begin c s l :
  sched_inv s l → call_role c = None → call_ok s c → publishing c = 0 → sched_inv (begin_call c s) l.
Proof.
  intros [[???] Ho Hpc Hca Hmu] Hr Hok Hp. split; simpl.
  - by split.
  - intros r f. simpl. rewrite <- (Ho r f). unfold held_by_threads, held_by_calls. simpl. rewrite zsum_app, zsum_cons. simpl. rewrite Hr.
    rewrite ind_None. change (zsum _ []) with 0. lia.
  - intros t w Hw. eapply (pc_ok_ext s); [done..|by eapply Hpc].
  - intros k c' Hk. apply (call_ok_ext s); [done..|]. apply lookup_app_Some in Hk as [Hk|[_ Hk]]; [by eapply Hca|].
    apply list_lookup_singleton_Some in Hk as [_ [= <-]]. done.
  - unfold threads_publishing, calls_publishing in *. simpl. rewrite zsum_app, zsum_cons, Hp. change (zsum _ []) with 0. lia.
Qed.
Lemma pool_idle s l f : sched_inv s l → f ∈ pool s → ∃ x, fibers s !! f = Some x ∧ state_role (state x) = Some RIdle.
Proof.
  intros [_ Ho _ _ _] Hf. specialize (Ho RIdle f). simpl in Ho.
  assert (Hi : in_pool RIdle f (pool s) = 1) by (unfold in_pool; by rewrite decide_True).
  pose proof (held_threads_nonneg s RIdle f). pose proof (held_calls_nonneg s RIdle f). pose proof (in_queue_nonneg RIdle f l).
  apply want_one. pose proof (want_le RIdle (fibers s !! f)). lia.
Qed.
Lemma call_ok_mono s s' c :
  (∀ f, is_Some (fibers s !! f) → is_Some (fibers s' !! f)) → num_threads s' = num_threads s → start_mu s' = start_mu s →
  call_ok s c → call_ok s' c.
Proof. intros Hf Hn Hm. destruct c; simpl; rewrite ?Hn, ?Hm; naive_solver. Qed.
Lemma pc_ok_mono s s' p :
  (∀ f, is_Some (fibers s !! f) → is_Some (fibers s' !! f)) → num_threads s' = num_threads s → start_mu s' = start_mu s →
  pc_ok s p → pc_ok s' p.
Proof. intros Hf Hn Hm. destruct p; simpl; try done; [apply Hf|by apply call_ok_mono]. Qed.

Lemma inv_free f s l : sched_inv s l → releasable f s → sched_inv (begin_call (FreeLoad f) (free_fiber f s)) l.
Proof.
  intros [Hb Ho Hpc Hca Hmu] (x & Hx & Hd & _).
  assert (Hex : ∀ f', is_Some (fibers s !! f') → is_Some (fibers (free_fiber f s) !! f')).
  { intros f' ?. by apply lookup_alter_is_Some. }
  split; simpl.
  - destruct (base_inv_set_fiber s l f (λ x, x <| state := FIBER_V2_IDLE |>) Hb) as [???]; [|by split]. intros y _. by left.
  - intros r f'. specialize (Ho r f'). simpl in Ho |- *. unfold held_by_threads, held_by_calls in *. simpl.
    rewrite zsum_app, zsum_cons. change (zsum _ []) with 0. change (Some (FreeLoad f) ≫= call_role) with (Some (RIdle, f)). rewrite ind_at.
    destruct (decide (f' = f)) as [->|Hne].
    + rewrite lookup_alter_eq, Hx. change (_ <$> Some x) with (Some (x <| state := FIBER_V2_IDLE |>)).
      rewrite (want_role r _ RIdle) by done. rewrite Hx, want_none in Ho by by rewrite Hd.
      pose proof (held_threads_nonneg s r f). pose proof (held_calls_nonneg s r f). pose proof (in_queue_nonneg r f l).
      pose proof (in_pool_nonneg r f (pool s)). unfold held_by_threads, held_by_calls in *. repeat case_decide; naive_solver lia.
    + rewrite lookup_alter_ne by done. rewrite <- Ho. rewrite decide_False by naive_solver. lia.
  - intros t w Hw. eapply (pc_ok_mono s); [done|done|done|by eapply Hpc].
  - intros k c' Hk. apply lookup_app_Some in Hk as [Hk|[_ Hk]]; [eapply (call_ok_mono s); [done|done|done|by eapply Hca]|].
    by apply list_lookup_singleton_Some in Hk as [_ [= <-]].
  - unfold threads_publishing, calls_publishing in *. simpl. rewrite zsum_app, zsum_cons. change (zsum _ []) with 0. simpl. lia.
Qed.

(** * Reachable states *)

Lemma sched_step_inv cfg sp s s' l : free_pre s → sched_inv s l → sched_step cfg sp s s' → ∃ l', sched_inv s' l'.
Proof.
  intros Hfp Hi Hs. destruct Hs.
  - by eapply inv_call_step.
  - by eapply inv_work_step.
  - exists l. by apply inv_begin.
  - exists l. by apply inv_begin.
  - exists l. by apply inv_begin.
  - exists l. by apply inv_free.
Qed.
Lemma sched_init_inv n : sched_inv (sched_init n) [].
Proof.
  assert (Hz : ∀ F : work_pc → Z, F Admit = 0 → zsum (λ w, F (pc w)) (replicate n (Thread 0 0 Admit)) = 0).
  { intros F HF. induction n as [|n IH]; [done|]. change (replicate (S n) ?a) with (a :: replicate n a). rewrite zsum_cons. simpl. lia. }
  split.
  - split; simpl; [split; simpl; [done..|apply NoDup_nil_2]|done|]. rewrite length_replicate. lia.
  - intros r f. unfold held_by_threads. simpl. rewrite (Hz (λ p, ind r f (pc_role p))) by done.
    unfold in_queue, in_pool, want. rewrite !decide_False by set_solver. rewrite lookup_empty. done.
  - intros t w Hw. simpl in Hw. apply lookup_replicate in Hw as [-> _]. done.
  - done.
  - unfold threads_publishing. simpl. by rewrite (Hz pc_publishing).
Qed.

(** * Consequences of the invariant *)

Section consequences.
Context (s : sched) (l : list nat) (Hi : sched_inv s l) (Hfp : free_pre s).

Lemma owned_at r f : held_by_threads s r f + held_by_calls s r f + in_queue r f l + in_pool r f (pool s) = want r (fibers s !! f).
Proof. apply Hi. Qed.
Lemma held_word t w r f :
  threads s !! t = Some w → pc_role (pc w) = Some (r, f) → ∃ x, fibers s !! f = Some x ∧ state_role (state x) = Some r.
Proof.
  intros Hw Hr. pose proof (owned_at r f) as Ho. pose proof (held_thread_le s r f t w Hw) as Hle. rewrite Hr, ind_self in Hle.
  pose proof (held_calls_nonneg s r f). pose proof (in_queue_nonneg r f l). pose proof (in_pool_nonneg r f (pool s)).
  pose proof (want_le r (fibers s !! f)). apply want_one. lia.
Qed.
Lemma queued_word f : f ∈ l → ∃ x, fibers s !! f = Some x ∧ state x = FIBER_V2_QUEUED.
Proof.
  intros Hf. pose proof (owned_at RQueued f) as Ho. assert (Hq : in_queue RQueued f l = 1) by (unfold in_queue; by rewrite decide_True).
  pose proof (held_threads_nonneg s RQueued f). pose proof (held_calls_nonneg s RQueued f). pose proof (in_pool_nonneg RQueued f (pool s)).
  pose proof (want_le RQueued (fibers s !! f)). destruct (want_one RQueued (fibers s !! f)) as (x & Hx & Hr%role_queued); [lia|eauto].
Qed.
(** Where the place named by a word is. *)
Lemma place_of r f x :
  fibers s !! f = Some x → state_role (state x) = Some r → r ≠ RIdle →
  (r = RQueued ∧ f ∈ l) ∨ (∃ t w, threads s !! t = Some w ∧ pc_role (pc w) = Some (r, f)) ∨
  (∃ k c, calls s !! k = Some (Some c) ∧ call_role c = Some (r, f)).
Proof.
  intros Hx Hr Hne. pose proof (owned_at r f) as Ho. rewrite Hx, (want_role r x r Hr), decide_True in Ho by done.
  assert (Hp : in_pool r f (pool s) = 0) by (unfold in_pool; by rewrite decide_False by naive_solver).
  destruct (decide (r = RQueued ∧ f ∈ l)) as [?|Hq]; [by left|]. assert (Hq0 : in_queue r f l = 0) by (unfold in_queue; by rewrite decide_False).
  right. destruct (decide (0 < held_by_threads s r f)) as [Ht|Ht].
  - left. apply zsum_pos in Ht as (t & w & Hw & Hi0); [|intros; apply ind_nonneg]. exists t, w. split; [done|].
    unfold ind in Hi0. by case_decide.
  - right. assert (Hc : 0 < held_by_calls s r f) by lia. apply zsum_pos in Hc as (k & o & Hk & Hi0); [|intros; apply ind_nonneg].
    unfold ind in Hi0. case_decide as Hd; [|lia]. destruct o as [c|]; [|done]. eauto.
Qed.
Lemma queued_unheld f t w r : f ∈ l → threads s !! t = Some w → pc_role (pc w) ≠ Some (r, f).
Proof.
  intros Hf Hw Hr. destruct (queued_word f Hf) as (x & Hx & Hq). destruct (held_word t w r f Hw Hr) as (y & Hy & Hry).
  rewrite Hx in Hy. injection Hy as <-. rewrite Hq in Hry. injection Hry as <-.
  pose proof (owned_at RQueued f) as Ho. assert (Hq1 : in_queue RQueued f l = 1) by (unfold in_queue; by rewrite decide_True).
  pose proof (held_thread_le s RQueued f t w Hw) as Hle. rewrite Hr, ind_self in Hle.
  pose proof (held_calls_nonneg s RQueued f). pose proof (in_pool_nonneg RQueued f (pool s)). pose proof (want_le RQueued (fibers s !! f)). lia.
Qed.
Lemma one_holder t t' w w' r r' f :
  threads s !! t = Some w → threads s !! t' = Some w' → pc_role (pc w) = Some (r, f) → pc_role (pc w') = Some (r', f) → t = t'.
Proof.
  intros Hw Hw' Hr Hr'. destruct (held_word _ _ _ _ Hw Hr) as (x & Hx & E). destruct (held_word _ _ _ _ Hw' Hr') as (y & Hy & E').
  rewrite Hx in Hy. injection Hy as <-. rewrite E in E'. injection E' as <-. destruct (decide (t = t')) as [|Hne]; [done|].
  pose proof (zsum_two (λ w, ind r f (pc_role (pc w))) _ _ _ _ _ (λ w, ind_nonneg _ _ _) Hne Hw Hw') as Hz. simpl in Hz.
  rewrite Hr, Hr', ind_self in Hz. pose proof (owned_at r f) as Ho. unfold held_by_threads in Ho.
  pose proof (held_calls_nonneg s r f). pose proof (in_queue_nonneg r f l). pose proof (in_pool_nonneg r f (pool s)).
  pose proof (want_le r (fibers s !! f)). lia.
Qed.
Lemma work_defined cfg b o t w : threads s !! t = Some w → is_Some (work_next cfg b o t w s).
Proof. intros Hw. destruct (work_at cfg b o t w s l Hfp Hi Hw) as (p & s' & _ & -> & _). by eexists. Qed.
Lemma call_defined cfg b k c : calls s !! k = Some (Some c) → is_Some (call_next cfg b c s).
Proof. intros Hk. destruct (call_at cfg b k c s l Hfp Hi Hk) as (o & s' & _ & -> & _). by eexists. Qed.
End consequences.
