(* ===== verification/SchedFree.v ===== *)
(** The free list of fibers inside the scheduler: with pops one at a time it
    is a list of the fibers pushed on it, whatever the queue and the owners of
    fibers do with their links.  With it, the states reachable by runs whose
    allocations do not overlap satisfy the ownership invariant. *)
From S2P Require Import Prelude Sched SchedInv SchedStep SchedSafe.

Open Scope Z_scope.
Implicit Types (f g t i n k : nat) (s : sched) (q : v2_queue) (x : fiber_v2) (w : thread_v2) (c : call_pc) (p : work_pc) (l fl : list nat) (r : role).

Notation links s := (q_next (ready_queue s)).

(** * The invariant *)

Definition free_ok s c : Prop :=
  match c with
  | AllocNext f => f ∈ pool s
  | AllocCas f nx => f ∈ pool s ∧ links s !! f = Some nx
  | FreeCas f h => links s !! f = Some h
  | _ => True
  end.
(** The calls that touch the free list; no worker makes one. *)
Definition pool_call c : bool :=
  match c with AllocLoad | AllocNext _ | AllocCas _ _ | AllocNew | AllocInit _ | FreeLoad _ | FreeLink _ _ | FreeCas _ _ => true | _ => false end.
Record free_inv s fl : Prop := {
  fi_chain : chain (links s) (free_list s) fl;
  fi_nodup : NoDup fl;
  fi_pool : ∀ f, f ∈ fl ↔ f ∈ pool s;
  fi_next : ∀ f, is_Some (fibers s !! f) → is_Some (links s !! f);
  fi_fresh : ∀ f, (fiber_count s ≤ f)%nat → fibers s !! f = None;
  fi_calls : ∀ k c, calls s !! k = Some (Some c) → free_ok s c;
  fi_work : ∀ t w c, threads s !! t = Some w → pc w = Call c → pool_call c = false }.
Lemma free_inv_pre s fl : free_inv s fl → free_pre s.
Proof.
  intros Hi. split; [|apply Hi..]. intros f Hf. apply (fi_pool _ _ Hi).
  pose proof (chain_head _ _ _ (fi_chain _ _ Hi)) as Hh. rewrite Hf in Hh. destruct fl; simpl in Hh; [done|]. injection Hh as ->. left.
Qed.
Lemma chain_ext (nx nx' : gmap nat (option nat)) h l :
  (∀ g, g ∈ l → nx' !! g = nx !! g) → chain nx h l → chain nx' h l.
Proof.
  revert h. induction l as [|g l IH]; intros h He; simpl; [done|]. intros [-> (o & Ho & Hc)]. split; [done|].
  exists o. rewrite He by left. split; [done|]. apply IH; [|done]. intros g' Hg. apply He. by right.
Qed.

(** * Steps that leave the free list alone *)

(** They write no link of an idle fiber. *)
Record frames s s' : Prop := {
  fr_list : free_list s' = free_list s;
  fr_pool : pool s' = pool s;
  fr_count : fiber_count s' = fiber_count s;
  fr_calls : calls s' = calls s;
  fr_fibers : ∀ f, is_Some (fibers s' !! f) ↔ is_Some (fibers s !! f);
  fr_links : ∀ g, is_Some (links s !! g) → is_Some (links s' !! g);
  fr_same : ∀ g x, fibers s !! g = Some x → state_role (state x) = Some RIdle → links s' !! g = links s !! g }.
Lemma frames_refl s s' :
  free_list s' = free_list s → pool s' = pool s → fiber_count s' = fiber_count s → calls s' = calls s →
  (∀ f, is_Some (fibers s' !! f) ↔ is_Some (fibers s !! f)) → links s' = links s → frames s s'.
Proof. intros H1 H2 H3 H4 H5 H6. split; try done; by rewrite H6. Qed.
Lemma frames_push s l f :
  queue_rep (ready_queue s) l → (∀ g, g = f ∨ g ∈ l → ∃ x, fibers s !! g = Some x ∧ state x = FIBER_V2_QUEUED) →
  frames s (s <| ready_queue := (v2_queue_push f (ready_queue s)).2 |>).
Proof.
  intros Hq Hw. set (q := ready_queue s) in *.
  assert (Hl : ∃ o, links (s <| ready_queue := (v2_queue_push f q).2 |>) = <[f := None]> (q_next q) ∨
    ∃ g, last l = Some g ∧ links (s <| ready_queue := (v2_queue_push f q).2 |>) = <[g := o]> (<[f := None]> (q_next q))).
  { exists (Some f). unfold v2_queue_push. simpl. pose proof (qr_tail _ _ Hq) as Ht. destruct (tail q) as [g|]; simpl; [right|by left].
    exists g. done. }
  destruct Hl as (o & [Hl|(g0 & Hg0 & Hl)]); split; try done; intros g; rewrite Hl; clear Hl.
  - intros ?. apply lookup_insert_is_Some'. auto.
  - intros x Hx Hr. rewrite lookup_insert_ne; [done|]. intros <-. destruct (Hw f) as (y & Hy & E); [by left|].
    rewrite Hx in Hy. injection Hy as <-. by rewrite E in Hr.
  - intros ?. rewrite !lookup_insert_is_Some'. auto.
  - intros x Hx Hr. rewrite !lookup_insert_ne; [done|..]; intros <-.
    + destruct (Hw f) as (y & Hy & E); [by left|]. rewrite Hx in Hy. injection Hy as <-. by rewrite E in Hr.
    + destruct (Hw g0) as (y & Hy & E); [right; by apply last_Some_elem_of|]. rewrite Hx in Hy. injection Hy as <-. by rewrite E in Hr.
Qed.
Lemma frames_set_fiber s f G s' : frames s s' → frames s (set_fiber f G s').
Proof. intros []. split; try done. intros f'. simpl. by rewrite lookup_alter_is_Some. Qed.
Lemma frames_signalled s G s' : frames s s' → frames s (s' <| signalled ::= G |>).
Proof. by intros []. Qed.
Lemma frames_set_signalled s f s' : frames s s' → frames s (set_signalled f s').
Proof. apply frames_signalled. Qed.
Lemma frames_id s : frames s s.
Proof. by apply frames_refl. Qed.
#[export] Hint Resolve frames_id frames_refl frames_set_fiber frames_signalled frames_set_signalled : sched.

(** A fiber about to be pushed is queued. *)
Definition push_ok s c : Prop := ∀ f, c = Push f → ∃ x, fibers s !! f = Some x ∧ state x = FIBER_V2_QUEUED.
Lemma call_frames cfg b c (o : option call_pc) s s' l :
  sched_inv s l → push_ok s c → pool_call c = false → call_next cfg b c s = Some (o, s') →
  frames s s' ∧ (∀ c', o = Some c' → pool_call c' = false).
Proof.
  intros Hi Hp Hc Hn. destruct c; try done; unfold_call Hn; try (destruct (fibers s !! f) as [x|] eqn:Hx; [simpl in Hn|done]).
  - repeat case_decide; try case_match; simplify_eq; (split; [eauto with sched|by intros c' [= <-]]).
  - case_match; simplify_eq; (split; [eauto with sched|by intros c' [= <-]]).
  - case_match; simplify_eq; (split; [eauto with sched|by intros c' [= <-]]).
  - simplify_eq. split; [eauto with sched|by intros c' [= <-]].
  - destruct (v2_queue_push f (ready_queue s)) as [prev q'] eqn:Eq. cbv zeta in Hn.
    assert (Hf : frames s (s <| ready_queue := q' |>)).
    { change q' with ((prev, q').2). rewrite <- Eq. eapply frames_push; [apply Hi|]. intros g [->|Hg]; [by apply Hp|by eapply queued_word]. }
    case_decide; simplify_eq; (split; [exact Hf|by intros c' [= <-]]).
  - case_decide; simplify_eq; (split; [eauto with sched|by intros c' [= <-]]).
  - case_decide; simplify_eq; (split; [eauto with sched|by intros c' [= <-]]).
  - simplify_eq. split; [eauto with sched|]. intros c' [= <-]. by case_decide.
  - simplify_eq. split; [eauto with sched|]. intros c' [= <-]. by case_decide.
  - simplify_eq. split; [eauto with sched|by intros c' [= <-]].
  - case_decide; [|simplify_eq; split; [eauto with sched|by intros c' [= <-]]]. destruct (threads s !! i); [|done]. simpl in Hn.
    case_decide; simplify_eq; (split; [eauto with sched|by intros c' [= <-]]).
  - simplify_eq. split; [eauto with sched|by intros c' [= <-]].
  - simplify_eq. split; [eauto with sched|by intros c' [= <-]].
  - repeat case_match; simplify_eq; (split; [eauto with sched|by intros c' [= <-]]).
  - simplify_eq. split; [eauto with sched|by intros c' [= <-]].
Qed.
Lemma frames_pop s l (o : option nat) q' :
  sched_inv s l → queue_pop_locked (ready_queue s) = Some (o, q') → frames s (s <| ready_queue := q' |>).
Proof.
  intros Hi Hp. unfold queue_pop_locked in Hp. destruct (head (ready_queue s)) as [f|] eqn:Eh; [|injection Hp as <- <-; eauto with sched].
  assert (Hf : f ∈ l).
  { rewrite (qr_head _ _ (bi_queue _ _ (si_base _ _ Hi))) in Eh. destruct l; [done|]. injection Eh as ->. left. }
  destruct (queued_word s l Hi f Hf) as (x & Hx & Eq). destruct (q_next (ready_queue s) !! f) as [nx|] eqn:En; [|done]. simpl in Hp.
  assert (Hl : q_next q' = <[f := None]> (links s)) by (destruct nx; injection Hp as <- <-; done).
  split; try done; simpl; rewrite Hl.
  - intros g ?. apply lookup_insert_is_Some'. auto.
  - intros g y Hy Hr. rewrite lookup_insert_ne; [done|]. intros <-. rewrite Hx in Hy. injection Hy as <-. by rewrite Eq in Hr.
Qed.
Lemma work_frames cfg b o t w p s s' l :
  sched_inv s l → (∀ c, pc w = Call c → push_ok s c ∧ pool_call c = false) → work_next cfg b o t w s = Some (p, s') →
  frames s s' ∧ (∀ c, p = Call c → pool_call c = false).
Proof.
  intros Hi Hc Hn. unfold_work Hn. destruct (pc w) as [| | |f|f|f|f|f|f|f|f|c| |r|r|r|v|v| |] eqn:Epc.
  12: { destruct (Hc c eq_refl) as [Hp Hf]. destruct (call_next cfg b c s) as [[k s1]|] eqn:Hn'; [|done]. simpl in Hn. injection Hn as <- <-.
        destruct (call_frames _ _ _ _ _ _ _ Hi Hp Hf Hn') as [H1 H2]. split; [done|]. intros c'. destruct k; intros [= <-]; auto. }
  3: { destruct (queue_pop_locked _) as [[r' q']|] eqn:Eq; [|done]. simpl in Hn. injection Hn as <- <-.
       split; [by eapply frames_pop|]. intros c'. repeat case_match; done. }
  all: try (destruct (fibers s !! f) as [x|] eqn:Hx; [simpl in Hn|done]); try destruct o; repeat case_decide; repeat case_match; simplify_eq;
    (split; [eauto 6 with sched|intros c' Hc'; by simplify_eq]).
Qed.

(** * Preservation *)

Section preserve.
Context (s : sched) (l fl : list nat) (Hi : sched_inv s l) (Hf : free_inv s fl).

Lemma pool_role g : g ∈ pool s → ∃ x, fibers s !! g = Some x ∧ state_role (state x) = Some RIdle.
Proof. by apply (pool_idle s l). Qed.
Lemma held_role k c r g :
  calls s !! k = Some (Some c) → call_role c = Some (r, g) →
  (∃ x, fibers s !! g = Some x ∧ state_role (state x) = Some r) ∧ g ∉ pool s.
Proof.
  intros Hk Hr. pose proof (owned_at s l Hi r g) as Ho. pose proof (held_call_le s r g k _ Hk) as Hle. simpl in Hle. rewrite Hr, ind_self in Hle.
  pose proof (held_threads_nonneg s r g). pose proof (in_queue_nonneg r g l). pose proof (in_pool_nonneg r g (pool s)).
  pose proof (want_le r (fibers s !! g)). destruct (want_one r (fibers s !! g)) as (x & Hx & Hrx); [lia|]. split; [eauto|].
  intros Hp. destruct (pool_role g Hp) as (y & Hy & Hry). rewrite Hx in Hy. injection Hy as <-. rewrite Hrx in Hry. injection Hry as ->.
  assert (in_pool RIdle g (pool s) = 1) by (unfold in_pool; by rewrite decide_True). lia.
Qed.
Lemma one_call k k' c c' r g :
  calls s !! k = Some (Some c) → calls s !! k' = Some (Some c') → call_role c = Some (r, g) → call_role c' = Some (r, g) → k = k'.
Proof.
  intros Hk Hk' Hr Hr'. destruct (decide (k = k')) as [|Hne]; [done|].
  pose proof (zsum_two (λ o : option call_pc, ind r g (o ≫= call_role)) _ _ _ _ _ (λ o, ind_nonneg _ _ _) Hne Hk Hk') as Hz. simpl in Hz.
  rewrite Hr, Hr', ind_self in Hz. pose proof (owned_at s l Hi r g) as Ho. unfold held_by_calls in Ho.
  pose proof (held_threads_nonneg s r g). pose proof (in_queue_nonneg r g l). pose proof (in_pool_nonneg r g (pool s)).
  pose proof (want_le r (fibers s !! g)). lia.
Qed.
Lemma push_ok_call k c : calls s !! k = Some (Some c) → push_ok s c.
Proof. intros Hk f ->. destruct (held_role k _ RQueued f Hk eq_refl) as [(x & Hx & Hr%role_queued) _]. eauto. Qed.
Lemma push_ok_work t w c : threads s !! t = Some w → pc w = Call c → push_ok s c.
Proof.
  intros Hw Hp f ->. destruct (held_word s l Hi t w RQueued f Hw) as (x & Hx & Hr%role_queued); [by rewrite Hp|]. eauto.
Qed.
Lemma pool_has_fiber g : g ∈ fl → ∃ x, fibers s !! g = Some x ∧ state_role (state x) = Some RIdle.
Proof. intros Hg. by apply pool_role, (fi_pool _ _ Hf). Qed.

Lemma pool_unheld t w r g : g ∈ fl → threads s !! t = Some w → pc_role (pc w) ≠ Some (r, g).
Proof.
  intros Hg Hw Hr. destruct (pool_has_fiber g Hg) as (x & Hx & Hrx). destruct (held_word s l Hi t w r g Hw Hr) as (y & Hy & Hry).
  rewrite Hx in Hy. injection Hy as <-. rewrite Hrx in Hry. injection Hry as <-.
  pose proof (owned_at s l Hi RIdle g) as Ho. pose proof (held_thread_le s RIdle g t w Hw) as Hle. rewrite Hr, ind_self in Hle.
  pose proof (held_calls_nonneg s RIdle g). pose proof (in_queue_nonneg RIdle g l). pose proof (want_le RIdle (fibers s !! g)).
  assert (in_pool RIdle g (pool s) = 1); [|lia]. unfold in_pool. rewrite decide_True; [done|]. split; [done|by apply (fi_pool _ _ Hf)].
Qed.
(** What the other calls refer to survives a framed step. *)
Lemma free_ok_frames s' k c : frames s s' → calls s !! k = Some (Some c) → free_ok s c → free_ok s' c.
Proof.
  intros Hfr Hk. destruct c; simpl; try done; rewrite (fr_pool _ _ Hfr) || idtac.
  - done.
  - intros [Hp Hl]. split; [done|]. destruct (pool_role f Hp) as (x & Hx & Hr). by rewrite (fr_same _ _ Hfr f x Hx Hr).
  - intros Hl. destruct (held_role k _ RIdle f Hk eq_refl) as [(x & Hx & Hr) _]. by rewrite (fr_same _ _ Hfr f x Hx Hr).
Qed.
Lemma frames_inv s' (cs : list (option call_pc)) ts :
  frames s s' → threads s' = ts →
  (∀ k c, cs !! k = Some (Some c) → calls s !! k = Some (Some c) ∨ pool_call c = false) →
  (∀ t w c, ts !! t = Some w → pc w = Call c → pool_call c = false) →
  free_inv (s' <| calls := cs |>) fl.
Proof.
  intros Hfr <- Hcs Hts. split; simpl; [|apply Hf|..|done].
  - rewrite (fr_list _ _ Hfr). apply (chain_ext (links s)); [|apply Hf]. intros g Hg. destruct (pool_has_fiber g Hg) as (x & Hx & Hr).
    by apply (fr_same _ _ Hfr g x).
  - rewrite (fr_pool _ _ Hfr). apply Hf.
  - intros f ?%(fr_fibers _ _ Hfr). apply (fr_links _ _ Hfr). by apply (fi_next _ _ Hf).
  - rewrite (fr_count _ _ Hfr). intros f Hc. apply eq_None_not_Some. rewrite (fr_fibers _ _ Hfr), (fi_fresh _ _ Hf f Hc). by intros [? ?].
  - intros k c Hk. destruct (Hcs k c Hk) as [Hk'|Hp]; [|by destruct c].
    change (free_ok s' c). eapply free_ok_frames; [done|done|]. by eapply (fi_calls _ _ Hf).
Qed.
End preserve.

(** Workers keep their program counters when another thread moves. *)
Lemma keeps_work z s s' fl t w c :
  keeps z s s' → free_inv s fl → threads s' !! t = Some w → pc w = Call c → pool_call c = false.
Proof.
  intros Hk Hf Hw Hp. destruct (pcs_lookup s s' z t (Call c) Hk) as [Hl|?]; [by rewrite list_lookup_fmap, Hw; simpl; rewrite Hp| |done].
  rewrite list_lookup_fmap in Hl. destruct (threads s !! t) as [w0|] eqn:E; [|done]. injection Hl as Hl. by eapply (fi_work _ _ Hf).
Qed.
Lemma insert_call (cs : list (option call_pc)) k k' c (o : option call_pc) :
  <[k := o]> cs !! k' = Some (Some c) → (k' = k ∧ o = Some c) ∨ (k' ≠ k ∧ cs !! k' = Some (Some c)).
Proof.
  destruct (decide (k' = k)) as [->|Hne]; [|rewrite list_lookup_insert_ne by done; auto].
  destruct (decide (k < length cs)%nat); [rewrite list_lookup_insert_eq by done; intros [= ->]; auto|].
  rewrite list_insert_ge by lia. intros Hl%lookup_lt_Some. lia.
Qed.
(** One pop at a time: no other call is popping. *)
Lemma serial_other s k k' c c' :
  serial_pops s → calls s !! k = Some (Some c) → calls s !! k' = Some (Some c') → k' ≠ k → popping c = 1 → popping c' = 0.
Proof.
  intros Hs Hk Hk' Hne Hc. assert (Hn : ∀ o, 0 ≤ opt_popping o) by (intros [[]|]; simpl; lia).
  pose proof (zsum_two opt_popping _ _ _ _ _ Hn Hne Hk' Hk) as Hz. unfold serial_pops in Hs. simpl in Hz. rewrite Hc in Hz.
  specialize (Hn (Some c')). simpl in Hn. lia.
Qed.

Section pops.
Context (s : sched) (l fl : list nat) (Hi : sched_inv s l) (Hf : free_inv s fl) (k : nat).

(** A step of a pool call that leaves memory alone. *)
Lemma pool_quiet c' : free_ok s c' → free_inv (s <| calls ::= insert k (Some c') |>) fl.
Proof.
  intros Hok. split; simpl; try apply Hf. intros k2 c2 [[-> [= <-]]|[_ Hk2]]%insert_call; [done|].
  change (free_ok s c2). by eapply (fi_calls _ _ Hf).
Qed.
Lemma alloc_from_ok : free_ok s (alloc_from (free_list s)).
Proof. destruct (free_list s) as [f|] eqn:E; [|done]. by apply (fp_head _ (free_inv_pre _ _ Hf)). Qed.
(** A link written by the call that holds the fiber. *)
Lemma pool_link c c' f (o : option nat) (G : gmap nat fiber_v2 → gmap nat fiber_v2) S :
  calls s !! k = Some (Some c) → call_role c = Some (RIdle, f) →
  (∀ g, is_Some (G (fibers s) !! g) ↔ is_Some (fibers s !! g)) →
  free_ok (set_next f o s) c' →
  free_inv (set_next f o s <| fibers ::= G |> <| signalled := S |> <| calls ::= insert k (Some c') |>) fl.
Proof.
  intros Hk Hr HG Hok. destruct (held_role s l Hi k c RIdle f Hk Hr) as [_ Hp]. split; simpl; try apply Hf.
  - apply chain_insert; [|apply Hf]. by rewrite (fi_pool _ _ Hf).
  - intros g ?%HG. apply lookup_insert_is_Some'. right. by apply (fi_next _ _ Hf).
  - intros g Hg. apply eq_None_not_Some. rewrite HG, (fi_fresh _ _ Hf g Hg). by intros [? ?].
  - intros k2 c2 [[-> [= <-]]|[Hne Hk2]]%insert_call; [done|]. pose proof (fi_calls _ _ Hf k2 c2 Hk2) as Hok2. destruct c2; simpl in *; try done.
    + destruct Hok2 as [Hp2 Hl]. split; [done|]. by rewrite lookup_insert_ne by (by intros <-).
    + rewrite lookup_insert_ne; [done|]. intros <-. apply Hne. by eapply (one_call s l Hi).
Qed.
Lemma pool_new :
  free_inv (set_next (fiber_count s) None s <| fibers ::= insert (fiber_count s) new_fiber |> <| fiber_count := S (fiber_count s) |>
    <| calls ::= insert k (Some (SpawnQueue (fiber_count s))) |>) fl.
Proof.
  pose proof (fi_fresh _ _ Hf (fiber_count s) ltac:(lia)) as Hn.
  assert (Hp : ∀ g, g ∈ pool s → g ≠ fiber_count s) by (intros g (x & Hx & _)%(pool_role s l Hi) ->; by rewrite Hn in Hx).
  split; simpl; try apply Hf.
  - apply chain_insert; [|apply Hf]. intros Hg%(fi_pool _ _ Hf). by apply (Hp _ Hg).
  - intros g. rewrite !lookup_insert_is_Some'. intros [?|?]; [by left|right; by apply (fi_next _ _ Hf)].
  - intros g Hg. rewrite lookup_insert_ne by lia. apply (fi_fresh _ _ Hf). lia.
  - intros k2 c2 [[-> [= <-]]|[Hne Hk2]]%insert_call; [done|]. pose proof (fi_calls _ _ Hf k2 c2 Hk2) as Hok2. destruct c2; simpl in *; try done.
    + destruct Hok2 as [Hp2 Hl]. split; [done|]. by rewrite lookup_insert_ne by (apply not_eq_sym; auto).
    + rewrite lookup_insert_ne; [done|]. intros <-. destruct (held_role s l Hi k2 _ RIdle (fiber_count s) Hk2 eq_refl) as [(x & Hx & _) _].
      by rewrite Hn in Hx.
Qed.
Lemma pool_pop f nx :
  serial_pops s → calls s !! k = Some (Some (AllocCas f nx)) → free_list s = Some f →
  ∃ fl', free_inv (s <| free_list := nx |> <| pool ::= λ P, P ∖ {[f]} |> <| calls ::= insert k (Some (AllocInit f)) |>) fl'.
Proof.
  intros Hs Hk Hfl. destruct (fi_calls _ _ Hf k _ Hk) as [_ Hnx]. pose proof (fi_chain _ _ Hf) as Hch. pose proof (fi_nodup _ _ Hf) as Hnd.
  pose proof (fi_pool _ _ Hf) as Hpool. destruct fl as [|f0 fl']; [by rewrite Hfl in Hch|]. destruct Hch as [Hh (o & Ho & Hc)].
  assert (f0 = f) as -> by congruence. assert (o = nx) as -> by congruence. apply NoDup_cons in Hnd as [Hfn Hnd].
  exists fl'. split; simpl; try apply Hf; try done.
  - intros g. rewrite elem_of_difference, <- Hpool, elem_of_cons, not_elem_of_singleton. naive_solver.
  - intros k2 c2 [[-> [= <-]]|[Hne Hk2]]%insert_call; [done|].
    pose proof (serial_other s k k2 _ c2 Hs Hk Hk2 Hne eq_refl) as Hp. pose proof (fi_calls _ _ Hf k2 c2 Hk2) as Hok2. by destruct c2.
Qed.
Lemma pool_push f :
  calls s !! k = Some (Some (FreeCas f (free_list s))) →
  free_inv (s <| free_list := Some f |> <| pool ::= λ P, {[f]} ∪ P |> <| calls ::= insert k None |>) (f :: fl).
Proof.
  intros Hk. destruct (held_role s l Hi k _ RIdle f Hk eq_refl) as [_ Hp]. pose proof (fi_calls _ _ Hf k _ Hk) as Hl. simpl in Hl.
  split; simpl; try apply Hf.
  - split; [done|]. exists (free_list s). split; [done|apply Hf].
  - apply NoDup_cons. rewrite (fi_pool _ _ Hf). split; [done|apply Hf].
  - intros g. rewrite elem_of_cons, elem_of_union, elem_of_singleton, (fi_pool _ _ Hf). done.
  - intros k2 c2 [[_ [=]]|[Hne Hk2]]%insert_call. pose proof (fi_calls _ _ Hf k2 c2 Hk2) as Hok2. destruct c2; simpl in *; try done; set_solver.
Qed.
End pops.

Lemma pool_call_step cfg b k c (o : option call_pc) s s' l fl :
  sched_inv s l → free_inv s fl → serial_pops s → calls s !! k = Some (Some c) → pool_call c = true →
  call_next cfg b c s = Some (o, s') → ∃ fl', free_inv (s' <| calls ::= insert k o |>) fl'.
Proof.
  intros Hi Hf Hs Hk Hc Hn. destruct c; try done; unfold_call Hn.
  - injection Hn as <- <-. exists fl. by apply pool_quiet, (alloc_from_ok s fl).
  - destruct (links s !! f) as [nx|] eqn:E; [|done]. simpl in Hn. injection Hn as <- <-. exists fl. apply pool_quiet; [done|].
    split; [|done]. apply (fi_calls _ _ Hf k _ Hk).
  - destruct (negb b && _) eqn:E; injection Hn as <- <-; [|exists fl; by apply pool_quiet, (alloc_from_ok s fl)].
    apply andb_true_iff in E as [_ E%bool_decide_eq_true]. by eapply pool_pop.
  - destruct b; injection Hn as <- <-; exists fl; [|by apply (pool_new s l)].
    split; simpl; try apply Hf. intros k2 c2 [[_ [=]]|[_ Hk2]]%insert_call. by apply (fi_calls _ _ Hf k2).
  - destruct (fibers s !! f) as [x|] eqn:Hx; [|done]. simpl in Hn. injection Hn as <- <-. exists fl.
    apply (pool_link s l fl Hi Hf k (AllocInit f) (SpawnQueue f) f None (alter (λ _, new_fiber) f)); try done.
    intros g. apply lookup_alter_is_Some.
  - injection Hn as <- <-. exists fl. by apply pool_quiet.
  - destruct (fibers s !! f) as [x|] eqn:Hx; [|done]. simpl in Hn. injection Hn as <- <-. exists fl.
    apply (pool_link s l fl Hi Hf k (FreeLink f head) (FreeCas f head) f head id (signalled s)); try done. simpl. apply lookup_insert_eq.
  - destruct (negb b && _) eqn:E; injection Hn as <- <-; [|exists fl; by apply pool_quiet].
    apply andb_true_iff in E as [_ E%bool_decide_eq_true]. subst head. exists (f :: fl). by eapply pool_push.
Qed.
Lemma free_call_step cfg b k c (o : option call_pc) s s' l fl :
  sched_inv s l → free_inv s fl → serial_pops s → calls s !! k = Some (Some c) → call_next cfg b c s = Some (o, s') →
  ∃ fl', free_inv (s' <| calls ::= insert k o |>) fl'.
Proof.
  intros Hi Hf Hs Hk Hn. destruct (pool_call c) eqn:Hc; [by eapply pool_call_step|]. exists fl.
  destruct (call_frames _ _ _ _ _ _ _ Hi (push_ok_call s l Hi k c Hk) Hc Hn) as [Hfr Ho].
  destruct (call_at cfg b k c s l (free_inv_pre _ _ Hf) Hi Hk) as (o1 & s1 & l' & Hn' & Hp). rewrite Hn in Hn'. injection Hn' as <- <-.
  apply (frames_inv s l fl Hi Hf s' (<[k := o]> (calls s')) (threads s')); [done|done|..].
  - intros k2 c2 [[-> ->]|[_ Hk2]]%insert_call; [right; auto|left]. by rewrite <- (fr_calls _ _ Hfr).
  - intros t w c'. eapply keeps_work; [apply Hp|done].
Qed.
Lemma free_work_step cfg b o t w p s s' l fl :
  sched_inv s l → free_inv s fl → threads s !! t = Some w → work_next cfg b o t w s = Some (p, s') →
  free_inv (set_thread t (λ w, w <| pc := p |>) s') fl.
Proof.
  intros Hi Hf Hw Hn. destruct (work_frames cfg b o t w p s s' l Hi) as [Hfr Hp]; [|done|].
  { intros c Hc. split; [by eapply push_ok_work|by eapply (fi_work _ _ Hf)]. }
  destruct (work_at cfg b o t w s l (free_inv_pre _ _ Hf) Hi Hw) as (p1 & s1 & l' & Hn' & Hpost). rewrite Hn in Hn'. injection Hn' as <- <-.
  assert (Hg : frames s (set_thread t (λ w, w <| pc := p |>) s')) by by destruct Hfr.
  eapply (frames_inv s l fl Hi Hf _ (calls s') _ Hg eq_refl).
  - intros k c Hk. left. by rewrite <- (fr_calls _ _ Hfr).
  - intros t' w' c (w0 & Hw0 & ->)%set_pc_lookup. case_decide; simpl; [intros ->; auto|]. intros Hc. eapply keeps_work; [apply Hpost|done..].
Qed.
Lemma free_begin c s fl : free_inv s fl → free_ok s c → free_inv (begin_call c s) fl.
Proof.
  intros Hf Hok. split; simpl; try apply Hf. intros k2 c2 Hk2. apply lookup_app_Some in Hk2 as [Hk2|[_ Hk2]]; [by eapply (fi_calls _ _ Hf)|].
  by apply list_lookup_singleton_Some in Hk2 as [_ [= <-]].
Qed.
Lemma free_release f s l fl : sched_inv s l → free_inv s fl → free_inv (free_fiber f s) fl.
Proof.
  intros Hi Hf. apply (frames_inv s l fl Hi Hf (free_fiber f s) (calls s) (threads s)); [unfold free_fiber; eauto with sched|done|auto|apply Hf].
Qed.
Lemma free_step cfg sp s s' l fl :
  sched_inv s l → free_inv s fl → serial_pops s → sched_step cfg sp s s' → ∃ fl', free_inv s' fl'.
Proof.
  intros Hi Hf Hs Hst. destruct Hst.
  - by eapply free_call_step.
  - exists fl. by eapply free_work_step.
  - exists fl. by apply free_begin.
  - exists fl. by apply free_begin.
  - exists fl. by apply free_begin.
  - exists fl. apply free_begin; [by eapply free_release|done].
Qed.

(** * Reachable states *)

Lemma free_init n : free_inv (sched_init n) [].
Proof.
  split; simpl; try done; [constructor|set_solver|by intros f [? ?]|].
  intros t w c [-> _]%lookup_replicate. done.
Qed.
(** The invariant of the runs whose allocations do not overlap. *)
Record sched_all s : Prop := {
  sa_inv : ∃ l, sched_inv s l;
  sa_free : ∃ fl, free_inv s fl;
  sa_serial : serial_pops s }.
Lemma sched_all_init n : sched_all (sched_init n).
Proof. split; [exists []; apply sched_init_inv|exists []; apply free_init|done]. Qed.
Lemma sched_all_step cfg sp s s' : sched_all s → serial_step cfg sp s s' → sched_all s'.
Proof.
  intros [[l Hi] [fl Hf] Hs] [Hst Hs']. split; [|by eapply free_step|done]. eapply sched_step_inv; [by eapply free_inv_pre|done|done].
Qed.
Lemma sched_all_pre s : sched_all s → free_pre s.
Proof. intros [_ [fl Hf] _]. by eapply free_inv_pre. Qed.
(** Induction over such runs with a further invariant. *)
Lemma serial_ind cfg sp (P : sched → Prop) s s' :
  (∀ s s' l, sched_inv s l → free_pre s → P s → serial_step cfg sp s s' → P s') →
  sched_all s → P s → rtc (serial_step cfg sp) s s' → sched_all s' ∧ P s'.
Proof.
  intros HP Ha H0 Hr. induction Hr as [|s s1 s2 Hs _ IH]; [done|]. pose proof (sched_all_pre _ Ha). destruct (sa_inv _ Ha) as [l Hi].
  apply IH; [by eapply sched_all_step|by eapply HP].
Qed.
