(* ===== verification/SchedIdle.v ===== *)
(** The idle protocol of the scheduler: the counter of idle workers, and what
    can be true when work is queued while every worker sleeps. *)
From S2P Require Import Prelude Sched SchedInv SchedStep SchedSafe SchedFree.

Open Scope Z_scope.
Implicit Types (f t i j n k : nat) (s : sched) (q : v2_queue) (x : fiber_v2) (w : thread_v2) (c : call_pc) (p : work_pc) (l : list nat).

(** * The idle counter *)

(** Claims not yet subtracted, and idle flags not yet counted. *)
Definition call_sub c : Z := match c with TrySub _ => 1 | _ => 0 end.
Definition opt_sub (o : option call_pc) : Z := match o with Some c => call_sub c | None => 0 end.
Definition pc_sub p : Z := match p with SubIdle => 1 | Call c => call_sub c | _ => 0 end.
Definition pc_inc p : Z := match p with IncIdle _ => 1 | _ => 0 end.
(** The program counters at which a worker may be marked idle. *)
Definition may_idle p : bool := match p with IncIdle _ | LoadWake _ | Recheck _ | Wait _ | ClearIdle => true | _ => false end.
Definition idle_weight w : Z := is_idle w + pc_sub (pc w) - pc_inc (pc w).
Definition flag_ok w : Prop := is_idle w = 0 ∨ is_idle w = 1 ∧ may_idle (pc w) = true.
Record idle_inv s : Prop := {
  ii_count : idle_workers s = zsum idle_weight (threads s) + zsum opt_sub (calls s);
  ii_flag : ∀ t w, threads s !! t = Some w → flag_ok w }.

(** What a call does to the counter and the flags. *)
Record idle_post (c : call_pc) s (o : option call_pc) s' : Prop := {
  ip_count : idle_workers s' - zsum is_idle (threads s') - opt_sub o = idle_workers s - zsum is_idle (threads s) - call_sub c;
  ip_flags : ∀ t w', threads s' !! t = Some w' →
    (∃ w, threads s !! t = Some w ∧ pc w' = pc w ∧ (is_idle w' = is_idle w ∨ is_idle w' = 0)) ∨ w' = Thread 0 0 Admit;
  ip_calls : calls s' = calls s;
  ip_pcs : pc <$> threads s' = pc <$> threads s ∨ pc <$> threads s' = (pc <$> threads s) ++ [Admit] }.
Lemma idle_post_quiet c o s s' :
  idle_workers s' = idle_workers s → threads s' = threads s → calls s' = calls s → opt_sub o = call_sub c → idle_post c s o s'.
Proof. intros Hi Ht Hc Ho. split; rewrite ?Hi, ?Ht, ?Hc; [lia|left; eauto|done|by left]. Qed.
Lemma call_next_idle cfg b c s o s' : call_next cfg b c s = Some (o, s') → idle_post c s o s'.
Proof.
  intros Hn. destruct c; unfold call_next, sched_v2_spawn_next, sched_v2_enqueue_runnable_next in Hn; simpl in Hn.
  - destruct (fibers s !! f) as [x|]; [|done]. simpl in Hn. repeat case_decide; try case_match; simplify_eq; by apply idle_post_quiet.
  - destruct (fibers s !! f) as [x|]; [|done]. simpl in Hn. case_match; simplify_eq; by apply idle_post_quiet.
  - destruct (fibers s !! f) as [x|]; [|done]. simpl in Hn. case_match; simplify_eq; by apply idle_post_quiet.
  - destruct (fibers s !! f) as [x|]; [|done]. simpl in Hn. simplify_eq. by apply idle_post_quiet.
  - case_decide; simplify_eq; by apply idle_post_quiet.
  - case_decide; simplify_eq; by apply idle_post_quiet.
  - case_decide; simplify_eq; by apply idle_post_quiet.
  - case_decide; simplify_eq; by apply idle_post_quiet.
  - case_decide; simplify_eq; by apply idle_post_quiet.
  - simplify_eq. by apply idle_post_quiet.
  - case_decide; [|simplify_eq; by apply idle_post_quiet]. destruct (threads s !! i) as [w|] eqn:Hw; [|done]. simpl in Hn.
    case_decide as Hi; simplify_eq; [|by apply idle_post_quiet]. split; simpl; [| |done|left; by apply pcs_alter].
    + rewrite (zsum_alter _ _ _ _ w Hw). simpl. lia.
    + intros t w' Hw'. left. destruct (decide (t = i)) as [->|Hne].
      * rewrite list_lookup_alter_eq, Hw in Hw'. injection Hw' as <-. exists w. simpl. auto.
      * rewrite list_lookup_alter_ne in Hw' by done. eauto.
  - simplify_eq. split; simpl; [lia|left; eauto|done|by left].
  - simplify_eq. split; simpl; [|intros t w' Hw'; left|done|left; by apply pcs_alter].
    + rewrite zsum_alter_same by done. lia.
    + destruct (decide (t = i)) as [->|Hne].
      * rewrite list_lookup_alter_eq in Hw'. destruct (threads s !! i) as [w|]; [|done]. injection Hw' as <-. exists w. simpl. auto.
      * rewrite list_lookup_alter_ne in Hw' by done. eauto.
  - destruct (start_mu s); [simplify_eq; by apply idle_post_quiet|]. case_decide; [simplify_eq; by apply idle_post_quiet|].
    destruct b; simplify_eq; [by apply idle_post_quiet|]. split; simpl; [| |done|right; by rewrite fmap_app].
    + rewrite zsum_app, zsum_cons. change (zsum is_idle []) with 0. simpl. lia.
    + intros t w' Hw'. apply lookup_app_Some in Hw' as [?|[_ Hw']]; [left; eauto|right].
      by apply list_lookup_singleton_Some in Hw' as [_ <-].
  - simplify_eq. by apply idle_post_quiet.
  - simplify_eq. apply idle_post_quiet; try done. by destruct (free_list _).
  - destruct (q_next _ !! f) as [nx|]; [|done]. simpl in Hn. simplify_eq. by apply idle_post_quiet.
  - case_match; simplify_eq; [by apply idle_post_quiet|]. apply idle_post_quiet; try done. by destruct (free_list _).
  - destruct b; simplify_eq; by apply idle_post_quiet.
  - destruct (fibers s !! f) as [x|]; [|done]. simpl in Hn. simplify_eq. by apply idle_post_quiet.
  - simplify_eq. by apply idle_post_quiet.
  - destruct (fibers s !! f) as [x|]; [|done]. simpl in Hn. simplify_eq. by apply idle_post_quiet.
  - case_match; simplify_eq; by apply idle_post_quiet.
Qed.

Lemma idle_split (l : list thread_v2) :
  zsum idle_weight l = zsum is_idle l + zsum (λ w, pc_sub (pc w) - pc_inc (pc w)) l.
Proof. induction l as [|w l IH]; [done|]. rewrite !zsum_cons, IH. unfold idle_weight. lia. Qed.
Lemma pcs_sum_eq (F : work_pc → Z) (l l' : list thread_v2) :
  pc <$> l' = pc <$> l ∨ pc <$> l' = (pc <$> l) ++ [Admit] → F Admit = 0 → zsum (λ w, F (pc w)) l' = zsum (λ w, F (pc w)) l.
Proof.
  intros Hp HF. rewrite <- !(zsum_fmap F pc). destruct Hp as [->| ->]; [done|].
  rewrite zsum_app, zsum_cons, HF. change (zsum F []) with 0. lia.
Qed.
Lemma flag_ok_kept c s o s' t w' :
  idle_post c s o s' → (∀ t w, threads s !! t = Some w → flag_ok w) → threads s' !! t = Some w' → flag_ok w'.
Proof.
  intros [_ Hf _ _] Hok Hw'. destruct (Hf t w' Hw') as [(w & Hw & Hpc & Hi)| ->]; [|by left].
  destruct (Hok t w Hw) as [?|[??]]; unfold flag_ok; rewrite Hpc; destruct Hi as [Hi|Hi]; rewrite Hi; auto.
Qed.
Lemma idle_call_step cfg b k c (o : option call_pc) s s' :
  idle_inv s → calls s !! k = Some (Some c) → call_next cfg b c s = Some (o, s') → idle_inv (s' <| calls ::= insert k o |>).
Proof.
  intros [Hc Hf] Hk Hn. pose proof (call_next_idle _ _ _ _ _ _ Hn) as Hp. split; simpl.
  - pose proof (ip_count _ _ _ _ Hp) as Hcnt. rewrite idle_split, (pcs_sum_eq (λ p, pc_sub p - pc_inc p) _ _ (ip_pcs _ _ _ _ Hp)) by done.
    rewrite idle_split in Hc. rewrite (ip_calls _ _ _ _ Hp), (zsum_insert _ _ _ _ o Hk). simpl. lia.
  - intros t w'. by eapply flag_ok_kept.
Qed.

Lemma idle_thread_step s s2 t w (G : thread_v2 → thread_v2) :
  idle_inv s → threads s !! t = Some w → threads s2 = alter G t (threads s) → calls s2 = calls s →
  idle_workers s2 = idle_workers s + idle_weight (G w) - idle_weight w → flag_ok (G w) → idle_inv s2.
Proof.
  intros [Hc Hf] Hw Ht Hca Hi Hok. split.
  - rewrite Ht, Hca, Hi, (zsum_alter _ _ _ _ w Hw), Hc. lia.
  - intros t' w'. rewrite Ht. destruct (decide (t' = t)) as [->|Hne].
    + rewrite list_lookup_alter_eq, Hw. by intros [= <-].
    + rewrite list_lookup_alter_ne by done. apply Hf.
Qed.
(** A worker that is not marked idle, or stays where it may be. *)
Lemma idle_quiet_step s s' t w p :
  idle_inv s → threads s !! t = Some w → threads s' = threads s → calls s' = calls s →
  idle_workers s' - idle_workers s = pc_sub p - pc_inc p - (pc_sub (pc w) - pc_inc (pc w)) →
  (may_idle (pc w) = true → may_idle p = true) → idle_inv (set_thread t (λ w, w <| pc := p |>) s').
Proof.
  intros Hi Hw Ht Hc Hd Hm. eapply (idle_thread_step s _ t w (λ w, w <| pc := p |>)); [done|done|simpl; by rewrite Ht|done| |].
  - unfold idle_weight. simpl. lia.
  - destruct (ii_flag _ Hi t w Hw) as [?|[? Hp]]; [by left|]. right. simpl. auto.
Qed.
Lemma idle_call_work cfg b t w c (o : option call_pc) s s' :
  idle_inv s → threads s !! t = Some w → pc w = Call c → call_next cfg b c s = Some (o, s') →
  idle_inv (set_thread t (λ w, w <| pc := match o with Some c => Call c | None => PopCheck end |>) s').
Proof.
  intros [Hc Hf] Hw Hpc Hn. pose proof (call_next_idle _ _ _ _ _ _ Hn) as Hp.
  assert (Hw1 : ∃ w1, threads s' !! t = Some w1 ∧ pc w1 = Call c).
  { assert (Hl : (pc <$> threads s) !! t = Some (Call c)) by by rewrite list_lookup_fmap, Hw; simpl; rewrite Hpc.
    assert (Hl' : (pc <$> threads s') !! t = Some (Call c)) by (destruct (ip_pcs _ _ _ _ Hp) as [->| ->]; [done|by apply lookup_app_l_Some]).
    rewrite list_lookup_fmap in Hl'. destruct (threads s' !! t) as [w1|]; [|done]. injection Hl' as Hl'. eauto. }
  destruct Hw1 as (w1 & Hw1 & Hpc1). assert (Hf' : ∀ t w, threads s' !! t = Some w → flag_ok w) by (intros ???; by eapply flag_ok_kept).
  assert (Hi1 : is_idle w1 = 0) by (destruct (Hf' t w1 Hw1) as [?|[? Hm]]; [done|by rewrite Hpc1 in Hm]).
  split; simpl.
  - pose proof (ip_count _ _ _ _ Hp) as Hcnt. rewrite (zsum_alter _ _ _ _ w1 Hw1), (ip_calls _ _ _ _ Hp).
    rewrite idle_split, (pcs_sum_eq (λ p, pc_sub p - pc_inc p) _ _ (ip_pcs _ _ _ _ Hp)) by done. rewrite idle_split in Hc.
    unfold idle_weight. rewrite Hpc1. simpl. rewrite Hi1. destruct o as [c'|]; simpl in *; lia.
  - intros t' w'. destruct (decide (t' = t)) as [->|Hne].
    + rewrite list_lookup_alter_eq, Hw1. intros [= <-]. by left.
    + rewrite list_lookup_alter_ne by done. apply Hf'.
Qed.
Lemma alter_twice (g h : thread_v2 → thread_v2) t (l : list thread_v2) : alter g t (alter h t l) = alter (λ w, g (h w)) t l.
Proof.
  apply list_eq. intros i. destruct (decide (i = t)) as [->|Hne]; [|by rewrite !list_lookup_alter_ne].
  rewrite !list_lookup_alter_eq. by destruct (l !! t).
Qed.
Lemma idle_work_step cfg b o t w p s s' :
  idle_inv s → threads s !! t = Some w → work_next cfg b o t w s = Some (p, s') →
  idle_inv (set_thread t (λ w, w <| pc := p |>) s').
Proof.
  intros Hi Hw Hn. unfold_work Hn.
  destruct (pc w) as [| | |f|f|f|f|f|f|f|f|c| |r|r|r|v|v| |] eqn:Epc; simpl in Hn;
    repeat match goal with
    | H : context [fibers s !! ?f] |- _ => destruct (fibers s !! f) as [x|]; [simpl in H|done]
    | H : context [queue_pop_locked ?q] |- _ => destruct (queue_pop_locked q) as [[r' q']|]; [simpl in H|done]
    end.
  12: { destruct (call_next cfg b c s) as [[k s1]|] eqn:Hc; [|done]. simpl in Hn. injection Hn as <- <-. by eapply idle_call_work. }
  all: repeat case_decide; simplify_eq;
    try by (eapply idle_quiet_step; [exact Hi|exact Hw|done|done|..]; rewrite Epc; simpl; repeat case_match; simpl; try lia; done).
  - destruct o; injection Hn as <- <-; (eapply idle_quiet_step; [exact Hi|exact Hw|done|done|..]); rewrite Epc; simpl; try lia; done.
  - eapply (idle_thread_step _ _ t w (λ w, w <| is_idle := 1 |> <| pc := IncIdle r |>)); [exact Hi|exact Hw|simpl; apply alter_twice|done| |by right].
    destruct (ii_flag _ Hi t w Hw) as [H0|[? Hm]]; [|by rewrite Epc in Hm]. unfold idle_weight. rewrite Epc. simpl. lia.
  - eapply (idle_thread_step _ _ t w (λ w, w <| is_idle := 0 |> <| pc := SubIdle |>)); [exact Hi|exact Hw|simpl; apply alter_twice|done| |by left].
    unfold idle_weight. rewrite Epc. simpl. lia.
  - eapply (idle_thread_step _ _ t w (λ w, w <| is_idle := 0 |> <| pc := Admit |>)); [exact Hi|exact Hw|simpl; apply alter_twice|done| |by left].
    destruct (ii_flag _ Hi t w Hw) as [H0|[? Hm]]; [|done]. unfold idle_weight. rewrite Epc. simpl. lia.
Qed.
Lemma idle_begin c s s' :
  idle_inv s → idle_workers s' = idle_workers s → threads s' = threads s → calls s' = calls s ++ [Some c] → call_sub c = 0 → idle_inv s'.
Proof.
  intros [Hc Hf] Hi Ht Hca Hs. split; rewrite Ht; [|done]. rewrite Hca, Hi, Hc, zsum_app, zsum_cons. simpl. rewrite Hs.
  change (zsum opt_sub []) with 0. lia.
Qed.
Lemma idle_step cfg sp s s' : idle_inv s → sched_step cfg sp s s' → idle_inv s'.
Proof.
  intros Hi Hs. destruct Hs.
  - by eapply idle_call_step.
  - by eapply idle_work_step.
  - by eapply idle_begin.
  - by eapply idle_begin.
  - by eapply idle_begin.
  - by eapply idle_begin.
Qed.
Lemma idle_init n : idle_inv (sched_init n).
Proof.
  split; simpl.
  - assert (Hz : zsum idle_weight (replicate n (Thread 0 0 Admit)) = 0); [|lia].
    induction n as [|n IH]; [done|]. change (replicate (S n) ?a) with (a :: replicate n a). rewrite zsum_cons, IH. done.
  - intros t w Hw. apply lookup_replicate in Hw as [-> _]. by left.
Qed.

(** * Work queued while every worker sleeps

    For a pool that has reached its maximum and no target of active workers
    ([CC_V2_TARGET_ACTIVE] unset). *)

(** Asleep, or about to sleep, with no wake to come from the counter. *)
Definition asleep w : Prop := match pc w with Wait v => wake w = v | _ => False end.
(** A call that will look for a sleeping worker or is waking one. *)
Definition covering s c : Prop :=
  match c with
  | WakeCount | WakeGate | WakeIdle | TryIdle | TryNum | TrySub _ | TryWake _ => True
  | TryScan i n => ∃ j w, (i ≤ j < n)%nat ∧ threads s !! j = Some w ∧ is_idle w = 1
  | _ => False
  end.
Definition ungated p : Prop := match p with SetIdle r | IncIdle r | LoadWake r => r = true | _ => True end.
Definition no_idle_flag s : Prop := ∀ t w, threads s !! t = Some w → is_idle w = 0.
Record strand_inv cfg s : Prop := {
  st_mu : start_mu s = false;
  st_max : (max_threads cfg ≤ num_threads s)%nat;
  st_len : length (threads s) = num_threads s;
  st_gate : ∀ t w, threads s !! t = Some w → ungated (pc w);
  st_cover : 0 < count (ready_queue s) → (∀ t w, threads s !! t = Some w → asleep w) →
    (∃ k c, calls s !! k = Some (Some c) ∧ covering s c) ∨ no_idle_flag s }.

(** With every worker asleep and no idle flag counted, no worker is marked. *)
Lemma counter_no_flag s :
  idle_inv s → (∀ t w, threads s !! t = Some w → asleep w) → idle_workers s ≤ 0 → no_idle_flag s.
Proof.
  intros [Hc Hf] Hs Hle. assert (Hw : ∀ (l : list thread_v2), (∀ t w, l !! t = Some w → asleep w ∧ flag_ok w) →
    0 ≤ zsum idle_weight l ∧ (zsum idle_weight l ≤ 0 → ∀ t w, l !! t = Some w → is_idle w = 0)).
  { induction l as [|w l IH]; intros Hl; [by split|]. destruct (Hl 0%nat w eq_refl) as [Hsl Hfl].
    destruct IH as [IH1 IH2]; [intros t w' Hw'; by apply (Hl (S t))|]. rewrite zsum_cons.
    assert (Hwt : idle_weight w = is_idle w).
    { unfold idle_weight. unfold asleep in Hsl. destruct (pc w); try done. simpl. lia. }
    rewrite Hwt. assert (0 ≤ is_idle w) by (destruct Hfl as [?|[? _]]; lia).
    split; [lia|]. intros Hz [|t] w' Hw'; simpl in Hw'; [injection Hw' as <-; lia|]. apply (IH2 ltac:(lia) t w' Hw'). }
  destruct (Hw (threads s)) as [H1 H2]; [eauto|]. assert (0 ≤ zsum opt_sub (calls s)).
  { apply zsum_nonneg. intros [[]|]; simpl; lia. }
  intros t w. apply H2. lia.
Qed.

(** A call leaves a full pool as it is. *)
Lemma call_full cfg b c s o s' :
  start_mu s = false → (max_threads cfg ≤ num_threads s)%nat → call_ok s c → call_next cfg b c s = Some (o, s') →
  pc <$> threads s' = pc <$> threads s ∧ start_mu s' = false ∧ num_threads s' = num_threads s ∧ calls s' = calls s.
Proof.
  intros Hm Hmax Hok Hn. destruct c; unfold call_next, sched_v2_spawn_next, sched_v2_enqueue_runnable_next in Hn; simpl in Hn;
    try (destruct (fibers s !! f) as [x|]; [simpl in Hn|done]); try (destruct (threads s !! i) as [w|]; simpl in Hn);
    try (destruct (q_next (ready_queue s) !! f) as [nx|]; [simpl in Hn|done]); repeat case_decide; repeat case_match; simplify_eq; try done; try lia; simpl; rewrite ?pcs_alter by done; try done.
  all: by destruct Hok as [Hok _]; rewrite Hm in Hok.
Qed.
Lemma pcs_ungated (l l' : list thread_v2) :
  pc <$> l' = pc <$> l → (∀ t w, l !! t = Some w → ungated (pc w)) → ∀ t w, l' !! t = Some w → ungated (pc w).
Proof.
  intros Hp Hu t w Hw. assert (Hl : (pc <$> l) !! t = Some (pc w)) by by rewrite <- Hp, list_lookup_fmap, Hw.
  rewrite list_lookup_fmap in Hl. destruct (l !! t) as [w0|] eqn:E; [|done]. injection Hl as <-. by eapply Hu.
Qed.
Lemma pcs_length (l l' : list thread_v2) : pc <$> l' = pc <$> l → length l' = length l.
Proof. intros Hp. by rewrite <- (length_fmap pc), Hp, length_fmap. Qed.

Section cover.
Context (s s' : sched) (k : nat) (c : call_pc) (o : option call_pc).
Hypothesis Hk : calls s !! k = Some (Some c).
Hypothesis Hcs : calls s' = calls s.

(** Another call keeps covering when nothing it reads changed. *)
Lemma cover_other :
  threads s' = threads s → ¬ covering s c →
  (∃ k c, calls s !! k = Some (Some c) ∧ covering s c) → ∃ k2 c, calls (s' <| calls ::= insert k o |>) !! k2 = Some (Some c) ∧ covering (s' <| calls ::= insert k o |>) c.
Proof.
  intros Ht Hnc (k2 & c2 & Hk2 & Hc2). exists k2, c2. split.
  - simpl. rewrite Hcs, list_lookup_insert_ne; [done|]. intros <-. rewrite Hk in Hk2. by injection Hk2 as <-.
  - destruct c2; simpl in *; rewrite ?Ht; done.
Qed.
Lemma cover_self c' : o = Some c' → covering (s' <| calls ::= insert k o |>) c' → ∃ k2 c, calls (s' <| calls ::= insert k o |>) !! k2 = Some (Some c) ∧ covering (s' <| calls ::= insert k o |>) c.
Proof.
  intros -> Hc. exists k, c'. split; [|done]. simpl. rewrite Hcs. apply list_lookup_insert_eq. by eapply lookup_lt_Some.
Qed.
Lemma cover_quiet :
  threads s' = threads s → count (ready_queue s') = count (ready_queue s) → ¬ covering s c →
  (0 < count (ready_queue s) → (∀ t w, threads s !! t = Some w → asleep w) →
    (∃ k c, calls s !! k = Some (Some c) ∧ covering s c) ∨ no_idle_flag s) →
  0 < count (ready_queue (s' <| calls ::= insert k o |>)) → (∀ t w, threads (s' <| calls ::= insert k o |>) !! t = Some w → asleep w) →
  (∃ k2 c, calls (s' <| calls ::= insert k o |>) !! k2 = Some (Some c) ∧ covering (s' <| calls ::= insert k o |>) c) ∨ no_idle_flag (s' <| calls ::= insert k o |>).
Proof.
  intros Ht Hq Hnc HJ Hc Ha. simpl in Hc, Ha. rewrite Hq in Hc. rewrite Ht in Ha. destruct (HJ Hc Ha) as [Hcov|Hno].
  - left. by apply cover_other.
  - right. unfold no_idle_flag. simpl. by rewrite Ht.
Qed.
End cover.

Lemma push_count f q : count (v2_queue_push f q).2 = count q + 1 ∧ (v2_queue_push f q).1 = count q.
Proof. unfold v2_queue_push. destruct (tail q) eqn:E; simpl; rewrite E; done. Qed.
Lemma strand_cover cfg b k c (o : option call_pc) s s' :
  target_active cfg ≤ 0 → idle_inv s → call_ok s c → strand_inv cfg s → 0 ≤ count (ready_queue s) →
  calls s !! k = Some (Some c) → call_next cfg b c s = Some (o, s') →
  0 < count (ready_queue s') → (∀ t w, threads s' !! t = Some w → asleep w) →
  (∃ k2 c, calls (s' <| calls ::= insert k o |>) !! k2 = Some (Some c) ∧ covering (s' <| calls ::= insert k o |>) c) ∨
  no_idle_flag (s' <| calls ::= insert k o |>).
Proof.
  intros Htg Hi Hok [Hmu Hmax Hlen Hg HJ] Hq0 Hk Hn Hc Ha.
  destruct (call_full _ _ _ _ _ _ Hmu Hmax Hok Hn) as (_ & _ & _ & Hcs). destruct c; unfold_call Hn.
  - destruct (fibers s !! f) as [x|]; [|done]. simpl in Hn. repeat case_decide; try case_match; simplify_eq; eapply (cover_quiet _ _ _ _ _ Hk); try done; by intros [].
  - destruct (fibers s !! f) as [x|]; [|done]. simpl in Hn. case_match; simplify_eq; eapply (cover_quiet _ _ _ _ _ Hk); try done; by intros [].
  - destruct (fibers s !! f) as [x|]; [|done]. simpl in Hn. case_match; simplify_eq; eapply (cover_quiet _ _ _ _ _ Hk); try done; by intros [].
  - destruct (fibers s !! f) as [x|]; [|done]. simpl in Hn. simplify_eq. eapply (cover_quiet _ _ _ _ _ Hk); try done; by intros [].
  - pose proof (push_count f (ready_queue s)) as Hp. revert Hp Hn. generalize (v2_queue_push f (ready_queue s)). intros [prev q'] [Hp1 Hp2] Hn. simpl in Hp1, Hp2. cbv beta iota zeta in Hn.
    case_decide as Hd; simplify_eq; [|left; by eapply (cover_self _ _ _ _ _ Hk)].
    simpl in Ha. destruct Hd as [Hd1 Hd2]. destruct HJ as [Hcov|Hno]; [lia|done| |by right]. left. apply (cover_other _ _ _ _ _ Hk); try done. by intros [].
  - case_decide; simplify_eq; [|done]. left. by eapply (cover_self _ _ _ _ _ Hk).
  - rewrite decide_False in Hn by lia. simplify_eq. left. by eapply (cover_self _ _ _ _ _ Hk).
  - case_decide; simplify_eq; [|left; by eapply (cover_self _ _ _ _ _ Hk)]. right. by apply (counter_no_flag _ Hi Ha).
  - case_decide; simplify_eq; [|left; by eapply (cover_self _ _ _ _ _ Hk)]. right. by apply (counter_no_flag _ Hi Ha).
  - simplify_eq. destruct (decide (Exists (λ w, is_idle w = 1) (threads s'))) as [He|He].
    + left. eapply (cover_self _ _ _ _ _ Hk); try done. apply Exists_exists in He as (w & [j Hj]%list_elem_of_lookup_1 & Hw).
      exists j, w. simpl. split_and!; [lia|by rewrite <- Hlen; eapply lookup_lt_Some|done|done].
    + right. intros t w Hw. destruct (ii_flag _ Hi t w Hw) as [?|[H1 _]]; [done|]. destruct He. apply Exists_exists. exists w.
      split; [by eapply list_elem_of_lookup_2|done].
  - case_decide as Hin; [|simplify_eq; eapply (cover_quiet _ _ _ _ _ Hk); try done; intros (j & w & ? & _); lia].
    destruct (threads s !! i) as [w|] eqn:Hw; [|done]. simpl in Hn. case_decide as Hidle; simplify_eq; [left; by eapply (cover_self _ _ _ _ _ Hk)|].
    destruct (decide (Exists (λ w, is_idle w = 1) (drop i (take n (threads s'))))) as [He|He].
    + left. eapply (cover_self _ _ _ _ _ Hk); try done. apply Exists_exists in He as (w' & [j Hj]%list_elem_of_lookup_1 & Hw').
      rewrite lookup_drop in Hj. apply lookup_take_Some in Hj as [Hj Hjn]. exists (i + j)%nat, w'. simpl. split_and!; [|done|done|done].
      destruct j; [|lia]. rewrite Nat.add_0_r, Hw in Hj. by injection Hj as <-.
    + eapply (cover_quiet _ _ _ _ _ Hk); try done. intros (j & w' & [Hj1 Hj2] & Hj & Hw'). destruct He. apply Exists_exists. exists w'.
      split; [|done]. apply (list_elem_of_lookup_2 _ (j - i)). rewrite lookup_drop. apply lookup_take_Some.
      replace (i + (j - i))%nat with j by lia. done.
  - simplify_eq. left. by eapply (cover_self _ _ _ _ _ Hk).
  - simplify_eq. left. by eapply (cover_self _ _ _ _ _ Hk).
  - rewrite Hmu in Hn. rewrite decide_True in Hn by done. simplify_eq. eapply (cover_quiet _ _ _ _ _ Hk); try done; by intros [].
  - by destruct Hok as [Hok _]; rewrite Hmu in Hok.
  - simplify_eq. eapply (cover_quiet _ _ _ _ _ Hk); try done; by intros [].
  - destruct (q_next (ready_queue s) !! f) as [nx|]; [|done]. simpl in Hn. simplify_eq. eapply (cover_quiet _ _ _ _ _ Hk); try done; by intros [].
  - case_match; simplify_eq; eapply (cover_quiet _ _ _ _ _ Hk); try done; by intros [].
  - destruct b; injection Hn as <- <-; eapply (cover_quiet _ _ _ _ _ Hk); try done; by intros [].
  - destruct (fibers s !! f) as [x|]; [|done]. simpl in Hn. simplify_eq. eapply (cover_quiet _ _ _ _ _ Hk); try done; by intros [].
  - simplify_eq. eapply (cover_quiet _ _ _ _ _ Hk); try done; by intros [].
  - destruct (fibers s !! f) as [x|]; [|done]. simpl in Hn. simplify_eq. eapply (cover_quiet _ _ _ _ _ Hk); try done; by intros [].
  - case_match; simplify_eq; eapply (cover_quiet _ _ _ _ _ Hk); try done; by intros [].
Qed.

(** What a worker's access does to a full pool. *)
Lemma work_full cfg b o t w p s s' :
  target_active cfg ≤ 0 → start_mu s = false → (max_threads cfg ≤ num_threads s)%nat → pc_ok s (pc w) → ungated (pc w) →
  work_next cfg b o t w s = Some (p, s') →
  pc <$> threads s' = pc <$> threads s ∧ start_mu s' = false ∧ num_threads s' = num_threads s ∧ calls s' = calls s ∧ ungated p.
Proof.
  intros Htg Hm Hmax Hok Hu Hn. unfold_work Hn.
  destruct (pc w) as [| | |f|f|f|f|f|f|f|f|c| |r|r|r|v|v| |] eqn:Epc; simpl in Hu.
  12: { destruct (call_next cfg b c s) as [[k s1]|] eqn:Hc; [|done]. simpl in Hn. injection Hn as <- <-.
        destruct (call_full _ _ _ _ _ _ Hm Hmax Hok Hc) as (? & ? & ? & ?). split_and!; try done. by destruct k. }
  1: { rewrite decide_True in Hn by lia. by simplify_eq. }
  all: try (destruct (fibers s !! f) as [x|]; [simpl in Hn|done]); try (destruct (queue_pop_locked _) as [[? ?]|]; [simpl in Hn|done]);
    try destruct o; repeat case_decide; repeat case_match; simplify_eq; simpl; rewrite ?pcs_alter by done; done.
Qed.
(** A worker that falls asleep saw an empty queue or was asleep. *)
Lemma work_sleep cfg b o t w v s s' :
  ungated (pc w) → target_active cfg ≤ 0 → work_next cfg b o t w s = Some (Wait v, s') →
  (count (ready_queue s') ≤ 0 ∨ pc w = Wait v ∧ s' = s).
Proof.
  intros Hu Htg Hn. unfold_work Hn. destruct (pc w) as [| | |f|f|f|f|f|f|f|f|c| |r|r|r|v'|v'| |] eqn:Epc; simpl in Hu.
  12: { destruct (call_next cfg b c s) as [[k s1]|] eqn:Hc; [|done]. simpl in Hn. by destruct k. }
  all: try (destruct (fibers s !! f) as [x|]; [simpl in Hn|done]); try (destruct (queue_pop_locked _) as [[? ?]|]; [simpl in Hn|done]);
    try destruct o; repeat case_decide; repeat case_match; simplify_eq; auto; left; lia.
Qed.
Lemma set_pc_same t p w s : threads s !! t = Some w → pc w = p → threads (set_thread t (λ w, w <| pc := p |>) s) = threads s.
Proof.
  intros Hw Hp. unfold set_thread. simpl. apply list_eq. intros i. destruct (decide (i = t)) as [->|Hne]; [|by rewrite list_lookup_alter_ne].
  rewrite list_lookup_alter_eq, Hw. simpl. f_equal. destruct w. simpl in *. by subst.
Qed.
Lemma strand_work_step cfg b o t w p s s' l :
  target_active cfg ≤ 0 → sched_inv s l → strand_inv cfg s → threads s !! t = Some w →
  work_next cfg b o t w s = Some (p, s') → strand_inv cfg (set_thread t (λ w, w <| pc := p |>) s').
Proof.
  intros Htg Hsi [Hmu Hmax Hlen Hg HJ] Hw Hn. pose proof (Hg t w Hw) as Hu.
  destruct (work_full _ _ _ _ _ _ _ _ Htg Hmu Hmax (si_pcs _ _ Hsi t w Hw) Hu Hn) as (Hp & Hm' & Hn' & Hc' & Hup).
  assert (Hl' : length (threads s') = length (threads s)) by by apply pcs_length.
  split; simpl; [done|by rewrite Hn'|by rewrite length_alter, Hl', Hlen, Hn'| |].
  - intros t' w' Hw'. apply set_pc_lookup in Hw' as (w0 & Hw0 & ->). case_decide; [done|]. by eapply (pcs_ungated _ _ Hp Hg).
  - intros Hc Ha. destruct (lookup_lt_is_Some_2 (threads s') t) as [w1 Hw1]; [rewrite Hl'; by eapply lookup_lt_Some|].
    pose proof (Ha t (w1 <| pc := p |>)) as Hat. unfold asleep in Hat. simpl in Hat. rewrite list_lookup_alter_eq, Hw1 in Hat.
    specialize (Hat eq_refl). destruct p as [| | | | | | | | | | | | | | | | |v| |]; try done.
    destruct (work_sleep _ _ _ _ _ _ _ _ Hu Htg Hn) as [?|[Hpw ->]]; [lia|].
    pose proof (set_pc_same t (Wait v) w s Hw Hpw) as Hsame. unfold set_thread in Hsame. simpl in Hsame.
    rewrite Hsame in Ha. destruct (HJ Hc Ha) as [(k & c & Hk & Hcov)|Hno].
    + left. exists k, c. split; [done|]. destruct c; simpl in *; rewrite ?Hsame; done.
    + right. unfold no_idle_flag. simpl. by rewrite Hsame.
Qed.
Lemma strand_begin cfg c s s' :
  strand_inv cfg s → threads s' = threads s → start_mu s' = start_mu s → num_threads s' = num_threads s →
  ready_queue s' = ready_queue s → calls s' = calls s ++ [Some c] → strand_inv cfg s'.
Proof.
  intros [Hmu Hmax Hlen Hg HJ] Ht Hm Hn Hq Hc. split; rewrite ?Hm, ?Hn, ?Ht, ?Hq; try done.
  intros Hcnt Ha. destruct (HJ Hcnt Ha) as [(k & c2 & Hk & Hcov)|Hno].
  - left. exists k, c2. rewrite Hc. split; [by apply lookup_app_l_Some|]. destruct c2; simpl in *; rewrite ?Ht; done.
  - right. unfold no_idle_flag. by rewrite Ht.
Qed.
Lemma strand_step cfg sp s s' l :
  target_active cfg ≤ 0 → idle_inv s → sched_inv s l → strand_inv cfg s → sched_step cfg sp s s' → strand_inv cfg s'.
Proof.
  intros Htg Hi Hsi Hst Hs. destruct Hs as [k c b o s s' Hk Hn|t w b o p s s' Hw Hn _| | | |].
  - pose proof (si_calls _ _ Hsi k c Hk) as Hok. pose proof (qr_count _ _ (bi_queue _ _ (si_base _ _ Hsi))) as Hq.
    destruct (call_full _ _ _ _ _ _ (st_mu _ _ Hst) (st_max _ _ Hst) Hok Hn) as (Hp & Hm' & Hn' & Hc').
    split; simpl; [done|rewrite Hn'; by apply Hst|rewrite (pcs_length _ _ Hp), Hn'; by apply Hst|by apply (pcs_ungated _ _ Hp), Hst|].
    intros Hc Ha. eapply strand_cover; try done. lia.
  - by eapply strand_work_step.
  - by eapply strand_begin.
  - by eapply strand_begin.
  - by eapply strand_begin.
  - by eapply strand_begin.
Qed.
(** ** A pool that grows to its maximum *)

(** A worker is created below the maximum, and no worker is gated. *)
Record grow_inv cfg s : Prop := {
  gi_mu : start_mu s = true → (num_threads s < max_threads cfg)%nat;
  gi_gate : ∀ t w, threads s !! t = Some w → ungated (pc w);
  gi_idle : idle_inv s }.
Lemma call_start_mu cfg b c s o s' :
  call_next cfg b c s = Some (o, s') →
  (start_mu s' = start_mu s ∧ num_threads s' = num_threads s) ∨ start_mu s' = false ∨ (num_threads s' < max_threads cfg)%nat.
Proof.
  intros Hn. destruct c; unfold_call Hn; try (destruct (fibers s !! f) as [x|]; [simpl in Hn|done]);
    try (destruct (threads s !! i) as [w|]; simpl in Hn); try (destruct (q_next (ready_queue s) !! f) as [nx|]; [simpl in Hn|done]);
    repeat case_decide; repeat case_match; cbv zeta in Hn; simplify_eq; simpl; auto; try (injection Hn as <- <-; by left); right; right; lia.
Qed.
Lemma work_start_mu cfg b o t w p s s' :
  work_next cfg b o t w s = Some (p, s') →
  (start_mu s' = start_mu s ∧ num_threads s' = num_threads s) ∨ start_mu s' = false ∨ (num_threads s' < max_threads cfg)%nat.
Proof.
  intros Hn. unfold_work Hn. destruct (pc w) as [| | |f|f|f|f|f|f|f|f|c| |r|r|r|v|v| |] eqn:Epc.
  12: { destruct (call_next cfg b c s) as [[k s1]|] eqn:Hc; [|done]. simpl in Hn. injection Hn as <- <-. by eapply call_start_mu. }
  all: try (destruct (fibers s !! f) as [x|]; [simpl in Hn|done]); try (destruct (queue_pop_locked _) as [[? ?]|]; [simpl in Hn|done]);
    try destruct o; repeat case_decide; repeat case_match; simplify_eq; by left.
Qed.
Lemma work_ungated cfg b o t w p s s' :
  target_active cfg ≤ 0 → ungated (pc w) → work_next cfg b o t w s = Some (p, s') → ungated p.
Proof.
  intros Htg Hu Hn. unfold_work Hn. destruct (pc w) as [| | |f|f|f|f|f|f|f|f|c| |r|r|r|v|v| |] eqn:Epc; simpl in Hu.
  12: { destruct (call_next cfg b c s) as [[k s1]|] eqn:Hc; [|done]. simpl in Hn. injection Hn as <- <-. by destruct k. }
  1: { rewrite decide_True in Hn by lia. by simplify_eq. }
  all: try (destruct (fibers s !! f) as [x|]; [simpl in Hn|done]); try (destruct (queue_pop_locked _) as [[? ?]|]; [simpl in Hn|done]);
    try destruct o; repeat case_decide; repeat case_match; simplify_eq; done.
Qed.
Lemma keeps_ungated z s s' :
  keeps z s s' → (∀ t w, threads s !! t = Some w → ungated (pc w)) → ∀ t w, threads s' !! t = Some w → ungated (pc w).
Proof.
  intros Hk Hu t w Hw. destruct (pcs_lookup s s' z t (pc w) Hk) as [Hl| ->]; [by rewrite list_lookup_fmap, Hw| |done].
  rewrite list_lookup_fmap in Hl. destruct (threads s !! t) as [w0|] eqn:E; [|done]. injection Hl as <-. by eapply Hu.
Qed.
Lemma grow_step cfg sp s s' l :
  target_active cfg ≤ 0 → free_pre s → sched_inv s l → grow_inv cfg s → sched_step cfg sp s s' → grow_inv cfg s'.
Proof.
  intros Htg Hfp Hsi Hg Hst. pose proof (idle_step _ _ _ _ (gi_idle _ _ Hg) Hst) as Hid.
  destruct Hst as [k c b o s s' Hk Hn|t w b o p s s' Hw Hn _| | | |]; [..|destruct Hg; by split|destruct Hg; by split|destruct Hg; by split|destruct Hg; by split].
  - destruct (call_at cfg b k c s l Hfp Hsi Hk) as (o1 & s1 & l' & Hn' & Hp). rewrite Hn in Hn'. injection Hn' as <- <-. split; [| |done]; simpl.
    + destruct (call_start_mu _ _ _ _ _ _ Hn) as [[-> ->]|[->|?]]; [apply Hg|done|done].
    + eapply (keeps_ungated _ s); [apply Hp|apply Hg].
  - destruct (work_at cfg b o t w s l Hfp Hsi Hw) as (p1 & s1 & l' & Hn' & Hp). rewrite Hn in Hn'. injection Hn' as <- <-. split; [| |done]; simpl.
    + destruct (work_start_mu _ _ _ _ _ _ _ _ Hn) as [[-> ->]|[->|?]]; [apply Hg|done|done].
    + intros t' w' (w0 & Hw0 & ->)%set_pc_lookup. case_decide; simpl; [by eapply work_ungated, Hn; [|apply (gi_gate _ _ Hg t)]|].
      eapply (keeps_ungated _ s); [apply Hp|apply Hg|done].
Qed.
Lemma grow_init cfg n : grow_inv cfg (sched_init n).
Proof. split; [done| |apply idle_init]. intros t w [-> _]%lookup_replicate. done. Qed.
Lemma grow_reachable cfg sp n s :
  target_active cfg ≤ 0 → rtc (serial_step cfg sp) (sched_init n) s → sched_all s ∧ grow_inv cfg s.
Proof.
  intros Htg. apply serial_ind; [|apply sched_all_init|apply grow_init]. intros s1 s2 l Hi Hfp Hg [Hst _]. by eapply grow_step.
Qed.

(** A moment at which the pool is at its maximum and no work is left behind. *)
Definition pool_full cfg s : Prop := (max_threads cfg ≤ num_threads s)%nat.
Definition work_attended s : Prop := count (ready_queue s) = 0 ∨ ∃ t w, threads s !! t = Some w ∧ ¬ asleep w.
Lemma strand_start cfg s l : sched_inv s l → grow_inv cfg s → pool_full cfg s → work_attended s → strand_inv cfg s.
Proof.
  intros Hi Hg Hfull Hat. assert (Hmu : start_mu s = false).
  { apply not_true_is_false. intros Hm. pose proof (gi_mu _ _ Hg Hm). unfold pool_full in Hfull. lia. }
  split; [done|done| |apply Hg|].
  - pose proof (bi_len _ _ (si_base _ _ Hi)) as Hl. rewrite Hmu in Hl. lia.
  - intros Hc Ha. destruct Hat as [H0|(t & w & Hw & Hn)]; [lia|]. by destruct Hn; eapply Ha.
Qed.
Lemma strand_reachable cfg sp n s0 s :
  target_active cfg ≤ 0 → rtc (serial_step cfg sp) (sched_init n) s0 → pool_full cfg s0 → work_attended s0 →
  rtc (serial_step cfg sp) s0 s → strand_inv cfg s.
Proof.
  intros Htg Hr0 Hfull Hat Hr. destruct (grow_reachable cfg sp n s0 Htg Hr0) as [Ha Hg]. destruct (sa_inv _ Ha) as [l Hi].
  destruct (serial_ind cfg sp (λ s, grow_inv cfg s ∧ strand_inv cfg s) s0 s) as [_ [_ ?]]; [|done| |done|done].
  - intros s1 s2 l1 Hi1 Hfp [Hg1 Hs1] [Hst _]. split; [by eapply grow_step|]. eapply strand_step; [done|apply Hg1|done..].
  - split; [done|by eapply strand_start].
Qed.
