(* ===== verification/SchedProps.v ===== *)
(** The properties of the scheduler, with concrete runs. *)
From S2P Require Import Prelude Sched SchedInv SchedStep SchedSafe SchedFree SchedIdle.

Open Scope Z_scope.
Implicit Types (f t i j n k : nat) (s : sched) (q : v2_queue) (x : fiber_v2) (w : thread_v2) (c : call_pc) (p : work_pc) (l : list nat).

(** * Signals *)

(** A signalled fiber is not in a word from which it could stay parked. *)
Definition awake_word (z : Z) : Prop := z ≠ FIBER_V2_RUNNING ∧ z ≠ FIBER_V2_PARKED.
Definition sig_inv s : Prop := ∀ f, f ∈ signalled s → ∃ x, fibers s !! f = Some x ∧ awake_word (state x).
Lemma sig_set_fiber s f (g : fiber_v2 → fiber_v2) :
  sig_inv s → (∀ x, fibers s !! f = Some x → f ∈ signalled s → awake_word (state x) → awake_word (state (g x))) → sig_inv (set_fiber f g s).
Proof.
  intros Hs Hg f' Hf'. simpl in Hf'. destruct (Hs f' Hf') as (x & Hx & Ha). simpl. destruct (decide (f' = f)) as [->|Hne].
  - rewrite lookup_alter_eq, Hx. simpl. eauto.
  - rewrite lookup_alter_ne by done. eauto.
Qed.
Lemma sig_set_signalled s f x : sig_inv s → fibers s !! f = Some x → awake_word (state x) → sig_inv (set_signalled f s).
Proof. intros Hs Hx Ha f' Hf'. simpl in *. apply elem_of_union in Hf' as [->%elem_of_singleton|Hf']; eauto. Qed.
Lemma awake_queued : awake_word FIBER_V2_QUEUED.
Proof. by split. Qed.
Lemma awake_pending : awake_word RUNNING_PENDING.
Proof. by split. Qed.
Lemma awake_dead : awake_word FIBER_V2_DEAD.
Proof. by split. Qed.
Lemma awake_idle : awake_word FIBER_V2_IDLE.
Proof. by split. Qed.
Lemma set_fiber_lookup s f g x : fibers s !! f = Some x → fibers (set_fiber f g s) !! f = Some (g x).
Proof. intros Hx. simpl. by rewrite lookup_alter_eq, Hx. Qed.

Lemma sig_call cfg b c s o s' l :
  base_inv s l → call_ok s c → sig_inv s → call_next cfg b c s = Some (o, s') → sig_inv s'.
Proof.
  intros Hb Hok Hs Hn. destruct c; unfold_call Hn;
    try (destruct (fibers s !! f) as [x|] eqn:Hx; [simpl in Hn|done]);
    try (destruct (q_next (ready_queue s) !! f) as [nx|]; [simpl in Hn|done]).
  - pose proof (bi_valid _ _ Hb f x Hx) as Hv. destruct (state_base_valid _ Hv) as [E1 E2]. rewrite E1, E2 in Hn.
    destruct Hv as [E|[E|[E|[E|[E|E]]]]]; rewrite E in Hn; simpl in Hn; injection Hn as <- <-; try done;
      (eapply sig_set_signalled; [done|done|rewrite E]); [apply awake_queued|apply awake_pending].
  - destruct Hok as [_ ->]. case_match; simplify_eq; [|done].
    eapply sig_set_signalled; [|by apply set_fiber_lookup|apply awake_pending]. apply sig_set_fiber; [done|]. intros. apply awake_pending.
  - case_match; simplify_eq; [|done].
    eapply sig_set_signalled; [|by apply set_fiber_lookup|apply awake_queued]. apply sig_set_fiber; [done|]. intros. apply awake_queued.
  - simplify_eq. apply sig_set_fiber; [done|]. intros. apply awake_queued.
  - destruct (v2_queue_push f (ready_queue s)) as [prev q']. cbv zeta in Hn. case_decide; injection Hn as <- <-; exact Hs.
  - injection Hn as <- <-. exact Hs.
  - injection Hn as <- <-. exact Hs.
  - injection Hn as <- <-. exact Hs.
  - injection Hn as <- <-. exact Hs.
  - injection Hn as <- <-. exact Hs.
  - case_decide; [|by simplify_eq]. destruct (threads s !! i); [|done]. simpl in Hn. case_decide; injection Hn as <- <-; exact Hs.
  - injection Hn as <- <-. exact Hs.
  - injection Hn as <- <-. exact Hs.
  - destruct (start_mu s); [by simplify_eq|]. case_decide; [by simplify_eq|]. destruct b; injection Hn as <- <-; exact Hs.
  - injection Hn as <- <-. exact Hs.
  - injection Hn as <- <-. exact Hs.
  - injection Hn as <- <-. exact Hs.
  - case_match; injection Hn as <- <-; exact Hs.
  - destruct b; injection Hn as <- <-; [exact Hs|]. intros f Hf. destruct (Hs f Hf) as (x & Hx & Ha). simpl.
    destruct (decide (f = fiber_count s)) as [->|Hne]; [rewrite lookup_insert_eq; eexists; split; [done|apply awake_idle]|].
    rewrite lookup_insert_ne by done. eauto.
  - injection Hn as <- <-. intros f' Hf'. simpl in *. apply elem_of_difference in Hf' as [Hf' Hne%not_elem_of_singleton].
    destruct (Hs f' Hf') as (y & Hy & Ha). rewrite lookup_alter_ne by done. eauto.
  - injection Hn as <- <-. exact Hs.
  - injection Hn as <- <-. exact Hs.
  - case_match; injection Hn as <- <-; exact Hs.
Qed.
Lemma sig_work cfg b o t w p s s' l :
  base_inv s l → pc_ok s (pc w) → sig_inv s → work_next cfg b o t w s = Some (p, s') → sig_inv s'.
Proof.
  intros Hb Hok Hs Hn. unfold_work Hn.
  destruct (pc w) as [| | |f|f|f|f|f|f|f|f|c| |r|r|r|v|v| |] eqn:Epc;
    try (destruct (fibers s !! f) as [x|] eqn:Hx; [simpl in Hn|done]); try (destruct (queue_pop_locked _) as [[? ?]|]; [simpl in Hn|done]);
    try (by repeat case_decide; simplify_eq).
  - injection Hn as <- <-. intros f' Hf'. simpl in *. apply elem_of_difference in Hf' as [Hf' Hne%not_elem_of_singleton].
    destruct (Hs f' Hf') as (y & Hy & Ha). rewrite lookup_alter_ne by done. eauto.
  - destruct o; injection Hn as <- <-; [by apply sig_set_fiber..|done].
  - injection Hn as <- <-. apply sig_set_fiber; [done|]. intros. apply awake_queued.
  - case_decide as Hr; injection Hn as <- <-; [|done]. apply sig_set_fiber; [done|]. intros y Hy _ [Ha _]. by simplify_eq.
  - injection Hn as <- <-. apply sig_set_fiber; [done|]. intros. apply awake_dead.
  - injection Hn as <- <-. by apply sig_set_fiber.
  - destruct (call_next cfg b c s) as [[k s1]|] eqn:Hc; [|done]. simpl in Hn. injection Hn as <- <-. by eapply sig_call.
Qed.
Lemma sig_step cfg sp s s' l : sched_inv s l → sig_inv s → sched_step cfg sp s s' → sig_inv s'.
Proof.
  intros Hi Hs Hst. destruct Hst as [k c b o s s' Hk Hn|t w b o p s s' Hw Hn _| | | |f s _]; [..|done|done|done|].
  - eapply (sig_call _ _ _ _ _ _ l) in Hn; [done|apply Hi|by eapply Hi|done].
  - eapply (sig_work _ _ _ _ _ _ _ _ l) in Hn; [done|apply Hi|by eapply Hi|done].
  - intros f' Hf'. apply (sig_set_fiber s f (λ x, x <| state := FIBER_V2_IDLE |>) Hs); [|done]. intros. apply awake_idle.
Qed.
Lemma sig_reachable cfg sp n s : rtc (serial_step cfg sp) (sched_init n) s → sched_all s ∧ sig_inv s.
Proof.
  apply serial_ind; [|apply sched_all_init|intros f Hf; simpl in Hf; set_solver]. intros s1 s2 l Hi _ Hs [Hst _]. by eapply sig_step.
Qed.
Lemma sched_reachable cfg sp n s : rtc (serial_step cfg sp) (sched_init n) s → sched_all s.
Proof. intros Hr. apply (sig_reachable cfg sp n s Hr). Qed.

(** * Runs

    The step relation as a function of the choices it leaves open. *)
Inductive choice := CCall (k : nat) (b : bool) | CWork (t : nat) (b : bool) (o : outcome) | CSignal (f : nat) | CSpawn | CTick | CFree (f : nat).
#[export] Instance releasable_dec f s : Decision (releasable f s).
Proof.
  unfold releasable. destruct (fibers s !! f) as [x|]; [|right; by intros (? & ? & _)].
  destruct (decide (state x = FIBER_V2_DEAD ∧ done x = 1)) as [Hd|Hd]; [left; by exists x|right; intros (y & [= <-] & Hy); done].
Defined.
Definition exec1 (cfg : sched_cfg) (ch : choice) (s : sched) : option sched :=
  match ch with
  | CCall k b =>
      o ← calls s !! k; c ← o; '(o', s') ← call_next cfg b c s; Some (s' <| calls ::= insert k o' |>)
  | CWork t b o =>
      w ← threads s !! t;
      if (b && match pc w with Wait _ => true | _ => false end) then None else
      '(p, s') ← work_next cfg b o t w s; Some (set_thread t (λ w, w <| pc := p |>) s')
  | CSignal f => _ ← fibers s !! f; Some (begin_call (SigLoad f) s)
  | CSpawn => Some (begin_call AllocLoad s)
  | CTick => Some (begin_call WakeCount s)
  | CFree f => if decide (releasable f s) then Some (begin_call (FreeLoad f) (free_fiber f s)) else None
  end.
(** A run without overlapping pops of the free list. *)
Fixpoint exec (cfg : sched_cfg) (chs : list choice) (s : sched) : option sched :=
  match chs with
  | [] => Some s
  | ch :: chs' => s' ← exec1 cfg ch s; if decide (serial_pops s') then exec cfg chs' s' else None
  end.
Lemma exec1_step cfg sp ch s s' : exec1 cfg ch s = Some s' → sched_step cfg sp s s'.
Proof.
  destruct ch as [k b|t b o|f| | |f]; simpl; intros He.
  - destruct (calls s !! k) as [[c|]|] eqn:Hk; simpl in He; try done. destruct (call_next cfg b c s) as [[o' s1]|] eqn:Hn; [|done].
    simpl in He. injection He as <-. by eapply step_call.
  - destruct (threads s !! t) as [w|] eqn:Hw; [|done]. simpl in He. destruct (b && _) eqn:Hb; [done|].
    destruct (work_next cfg b o t w s) as [[p s1]|] eqn:Hn; [|done]. simpl in He. injection He as <-. eapply step_worker; [done|done|].
    intros -> [v Hv]. by rewrite Hv in Hb.
  - destruct (fibers s !! f) as [x|] eqn:Hx; [|done]. simpl in He. injection He as <-. apply step_signal. by eexists.
  - injection He as <-. apply step_spawn.
  - injection He as <-. apply step_tick.
  - case_decide; [|done]. injection He as <-. by apply step_free.
Qed.
Lemma exec_reach cfg sp chs s s' : exec cfg chs s = Some s' → rtc (serial_step cfg sp) s s'.
Proof.
  revert s. induction chs as [|ch chs IH]; intros s; simpl; [intros [= <-]; done|].
  destruct (exec1 cfg ch s) as [s1|] eqn:E; [|done]. simpl. case_decide; [|done]. intros Hr.
  eapply rtc_l; [split; [by eapply exec1_step|done]|by apply IH].
Qed.

(** The default tunables on one worker. *)
Definition one_worker : sched_cfg := Cfg 4 0 1.
(** A fiber is spawned; its spawner is delayed after it saw the queue
    non-empty, while the worker runs the fiber to its end and marks itself
    idle. *)
Definition work (n : nat) : list choice := replicate n (CWork 0 false OReturn).
Definition caller (k n : nat) : list choice := replicate n (CCall k false).
Definition lost_run : list choice :=
  CSpawn :: caller 0 5 ++ work 12 ++ caller 0 8 ++ work 2 ++ CSpawn :: caller 1 8.

(** ** The state in which the worker is lost *)
Definition inert c : Prop :=
  match c with TryIdle | TryNum | TryScan _ _ | TrySub _ | TryWake _ | Publish _ => False | _ => True end.
Record lost s : Prop := {
  lo_thread : ∃ v, threads s = [Thread 0 v (Wait v)];
  lo_idle : idle_workers s = 0;
  lo_num : num_threads s = 1%nat;
  lo_mu : start_mu s = false;
  lo_count : 0 < count (ready_queue s);
  lo_calls : ∀ k c, calls s !! k = Some (Some c) → inert c }.
Lemma lost_insert s s' k (o : option call_pc) :
  lost s → threads s' = threads s → idle_workers s' = idle_workers s → num_threads s' = num_threads s → start_mu s' = start_mu s →
  count (ready_queue s) ≤ count (ready_queue s') → calls s' = calls s → (∀ c, o = Some c → inert c) →
  lost (s' <| calls ::= insert k o |>).
Proof.
  intros [Ht Hi Hn Hm Hc Hca] Et Ei En Em Ec Eca Ho. split; simpl; rewrite ?Et, ?Ei, ?En, ?Em; try done; [lia|].
  intros k' c'. rewrite Eca. destruct (decide (k' = k)) as [->|Hne].
  - destruct (decide (k < length (calls s))%nat); [rewrite list_lookup_insert_eq by done; intros [= ->]; auto|].
    rewrite list_insert_ge by lia. apply Hca.
  - rewrite list_lookup_insert_ne by done. apply Hca.
Qed.
Lemma lost_call b k c (o : option call_pc) s s' :
  lost s → calls s !! k = Some (Some c) → call_next one_worker b c s = Some (o, s') → lost (s' <| calls ::= insert k o |>).
Proof.
  intros Hl Hk Hn. pose proof (lo_calls _ Hl k c Hk) as Hin. destruct c; try done; unfold_call Hn;
    try (destruct (fibers s !! f) as [x|]; [simpl in Hn|done]); try (destruct (q_next (ready_queue s) !! f) as [nx|]; [simpl in Hn|done]).
  - repeat case_decide; try case_match; injection Hn as <- <-; eapply lost_insert; try done; by intros c [= <-].
  - case_match; injection Hn as <- <-; eapply lost_insert; try done; by intros c [= <-].
  - case_match; injection Hn as <- <-; eapply lost_insert; try done; by intros c [= <-].
  - injection Hn as <- <-; eapply lost_insert; try done; by intros c [= <-].
  - pose proof (push_count f (ready_queue s)) as Hp. revert Hp Hn. generalize (v2_queue_push f (ready_queue s)).
    intros [prev q'] [Hp1 _] Hn. simpl in Hp1. cbv beta iota zeta in Hn.
    case_decide; injection Hn as <- <-; (eapply lost_insert; try done; try (simpl; lia); by intros c [= <-]).
  - case_decide; injection Hn as <- <-; eapply lost_insert; try done; by intros c [= <-].
  - case_decide; injection Hn as <- <-; eapply lost_insert; try done; by intros c [= <-].
  - rewrite (lo_idle _ Hl) in Hn. simpl in Hn. injection Hn as <- <-. eapply lost_insert; try done; by intros c [= <-].
  - rewrite (lo_mu _ Hl), (lo_num _ Hl) in Hn. simpl in Hn. injection Hn as <- <-. eapply lost_insert; try done; by intros c [= <-].
  - injection Hn as <- <-. eapply lost_insert; try done. intros c [= <-]. by destruct (free_list s).
  - injection Hn as <- <-. eapply lost_insert; try done; by intros c [= <-].
  - case_match; injection Hn as <- <-; (eapply lost_insert; try done); intros c [= <-]; by destruct (free_list s).
  - destruct b; injection Hn as <- <-; eapply lost_insert; try done; by intros c [= <-].
  - injection Hn as <- <-. eapply lost_insert; try done; by intros c [= <-].
  - injection Hn as <- <-. eapply lost_insert; try done; by intros c [= <-].
  - injection Hn as <- <-. eapply lost_insert; try done; by intros c [= <-].
  - case_match; injection Hn as <- <-; eapply lost_insert; try done; by intros c [= <-].
Qed.
Lemma lost_begin c s s' :
  lost s → threads s' = threads s → idle_workers s' = idle_workers s → num_threads s' = num_threads s → start_mu s' = start_mu s →
  ready_queue s' = ready_queue s → calls s' = calls s ++ [Some c] → inert c → lost s'.
Proof.
  intros [Ht Hi Hn Hm Hc Hca] Et Ei En Em Eq Eca Hin. split; rewrite ?Et, ?Ei, ?En, ?Em, ?Eq; try done.
  intros k' c'. rewrite Eca, lookup_app_Some. intros [?|[_ Hx]]; [eauto|]. by apply list_lookup_singleton_Some in Hx as [_ [= <-]].
Qed.
Lemma lost_step s s' : lost s → sched_step one_worker false s s' → lost s'.
Proof.
  intros Hl Hs. destruct Hs as [k c b o s s' Hk Hn|t w b o p s s' Hw Hn Hb| | | |].
  - by eapply lost_call.
  - destruct (lo_thread _ Hl) as [v Hv]. rewrite Hv in Hw. destruct t as [|t]; [|done]. simpl in Hw. injection Hw as <-.
    unfold_work Hn. simpl in Hn. destruct b; [by specialize (Hb eq_refl ltac:(by exists v))|]. rewrite bool_decide_eq_true_2 in Hn by done.
    simpl in Hn. injection Hn as <- <-. destruct Hl. split; try done. exists v. unfold set_thread. simpl. by rewrite Hv.
  - by eapply lost_begin.
  - by eapply lost_begin.
  - by eapply lost_begin.
  - by eapply lost_begin.
Qed.

Lemma lost_rtc s s' : lost s → rtc (sched_step one_worker false) s s' → lost s'.
Proof. intros Hl Hr. induction Hr as [|s s1 s2 Hst _ IH]; [done|]. by apply IH, (lost_step s). Qed.
Definition lost_state : sched := default (sched_init 1) (exec one_worker lost_run (sched_init 1)).
Lemma lost_state_lost : lost lost_state.
Proof.
  split; [exists 1; vm_compute; reflexivity|vm_compute; reflexivity..|].
  intros k c. assert (Hn : calls lost_state = [None; None]) by (vm_compute; reflexivity). rewrite Hn. by destruct k as [|[|k]].
Qed.

(** * Properties *)

(** C2: Every fiber has one owner, in runs whose allocations do not overlap.
    For any number of workers and any tunables, in every state reached by steps
    in which at most one allocation is between its load of the head of the free
    list and its compare-and-swap (pushes, the queue and everything else
    interleave freely), and in which a fiber is released once, after it is
    done: no two workers run or hold the same fiber, the ready queue is a
    well-formed list of distinct fibers, all in state QUEUED and in the hands of
    no worker, the free list is a list of distinct fibers that no worker holds,
    a worker that popped a fiber finds it QUEUED (the BUG report of
    [thread_v2_run_fiber] is unreachable), and every worker and every call in
    progress can make its next access without dereferencing a pointer to no
    fiber.  Allocations that overlap do break it: [pool_aba_double_alloc]. *)
Theorem fiber_has_one_owner cfg sp n s :
  rtc (serial_step cfg sp) (sched_init n) s →
  (∀ t t' w w' r r' f, threads s !! t = Some w → threads s !! t' = Some w' →
     pc_role (pc w) = Some (r, f) → pc_role (pc w') = Some (r', f) → t = t') ∧
  (∃ l, queue_rep (ready_queue s) l ∧ ∀ f, f ∈ l → (∃ x, fibers s !! f = Some x ∧ state x = FIBER_V2_QUEUED) ∧
     ∀ t w r, threads s !! t = Some w → pc_role (pc w) ≠ Some (r, f)) ∧
  (∃ fl, chain (q_next (ready_queue s)) (free_list s) fl ∧ NoDup fl ∧
     ∀ f, f ∈ fl → ∀ t w r, threads s !! t = Some w → pc_role (pc w) ≠ Some (r, f)) ∧
  (∀ t w f, threads s !! t = Some w → pc w = Picked f → ∃ x, fibers s !! f = Some x ∧ state x = FIBER_V2_QUEUED) ∧
  (∀ t w b o, threads s !! t = Some w → is_Some (work_next cfg b o t w s)) ∧
  (∀ k c b, calls s !! k = Some (Some c) → is_Some (call_next cfg b c s)).
Proof.
  intros Hr. pose proof (sched_reachable cfg sp n s Hr) as Ha. pose proof (sched_all_pre _ Ha) as Hfp. destruct Ha as [[l Hi] [fl Hf] _].
  split_and!.
  - intros t t' w w' r r' f Hw Hw' Hr1 Hr2. by eapply one_holder.
  - exists l. split; [apply Hi|]. intros f Hfl. split; [by eapply queued_word|]. intros t w r Hw. by eapply queued_unheld.
  - exists fl. split_and!; [apply Hf|apply Hf|]. intros f Hfl t w r Hw Hr1. by eapply (pool_unheld s l fl).
  - intros t w f Hw Hp. destruct (held_word s l Hi t w RQueued f Hw) as (x & Hx & Hq%role_queued); [by rewrite Hp|]. eauto.
  - intros t w b o Hw. by eapply work_defined.
  - intros k c b Hk. by eapply call_defined.
Qed.

(** A fiber runs to its end, is released, and is allocated again. *)
Definition reuse_run : list choice :=
  CSpawn :: caller 0 5 ++ work 8 ++ CFree 0 :: caller 1 3 ++ CSpawn :: caller 2 6.
Definition reuse_state : sched := default (sched_init 1) (exec one_worker reuse_run (sched_init 1)).
Lemma fiber_has_one_owner_witness :
  (∃ l, queue_rep (ready_queue reuse_state) l ∧ ∀ f, f ∈ l → (∃ x, fibers reuse_state !! f = Some x ∧ state x = FIBER_V2_QUEUED) ∧
     ∀ t w r, threads reuse_state !! t = Some w → pc_role (pc w) ≠ Some (r, f)) ∧
  head (ready_queue reuse_state) = Some 0%nat ∧ fiber_count reuse_state = 1%nat ∧ free_list reuse_state = None.
Proof.
  split; [|split_and!; vm_compute; reflexivity]. apply (fiber_has_one_owner one_worker true 1 reuse_state).
  apply (exec_reach one_worker true reuse_run). vm_compute. reflexivity.
Defined.

Definition demo_run : list choice :=
  CSpawn :: caller 0 5 ++ replicate 7 (CWork 0 false OPark) ++ CSignal 0 :: caller 1 2.
Definition demo_state : sched := default (sched_init 1) (exec one_worker demo_run (sched_init 1)).
Lemma demo_reach : rtc (serial_step one_worker true) (sched_init 1) demo_state.
Proof. apply (exec_reach one_worker true demo_run). vm_compute. reflexivity. Qed.
(** C3: No signal is lost.  In every state reached without overlapping
    allocations a fiber with a signal that
    no run of it has started after is not parked: its word is QUEUED and it is
    in the queue, or in the hands of the one thread that is about to push or
    start it, or its word is RUNNING with the pending bit, which makes the
    worker that runs it push it again instead of parking it, or it has ended. *)
Theorem signal_not_lost cfg sp n s f :
  rtc (serial_step cfg sp) (sched_init n) s → f ∈ signalled s →
  ∃ x, fibers s !! f = Some x ∧
    ((state x = FIBER_V2_QUEUED ∧ ∃ l, queue_rep (ready_queue s) l ∧
       (f ∈ l ∨ (∃ t w, threads s !! t = Some w ∧ pc_role (pc w) = Some (RQueued, f)) ∨ (∃ k, calls s !! k = Some (Some (Push f))))) ∨
     (state x = RUNNING_PENDING ∧ ∃ t w, threads s !! t = Some w ∧ pc_role (pc w) = Some (RRunning, f)) ∨
     state x = FIBER_V2_DEAD ∨ state x = FIBER_V2_IDLE).
Proof.
  intros Hr Hf. destruct (sig_reachable cfg sp n s Hr) as [[[l Hi] _ _] Hs]. destruct (Hs f Hf) as (x & Hx & Ha1 & Ha2).
  exists x. split; [done|]. pose proof (bi_valid _ _ (si_base _ _ Hi) f x Hx) as Hv.
  destruct Hv as [E|[E|[E|[E|[E|E]]]]]; try done; auto.
  - left. split; [done|]. exists l. split; [apply Hi|]. destruct (place_of s l Hi RQueued f x Hx) as [[_ ?]|[?|(k & c & Hk & Hc)]]; [by rewrite E|done|by left|auto|].
    right. right. exists k. destruct c; simpl in Hc; by simplify_eq.
  - right. left. split; [done|]. destruct (place_of s l Hi RRunning f x Hx) as [[? _]|[?|(k & c & Hk & Hc)]]; [by rewrite E|done|done|done|].
    destruct c; done.
Qed.
Lemma signal_not_lost_witness :
  ∃ x, fibers demo_state !! 0%nat = Some x ∧
    ((state x = FIBER_V2_QUEUED ∧ ∃ l, queue_rep (ready_queue demo_state) l ∧
       (0%nat ∈ l ∨ (∃ t w, threads demo_state !! t = Some w ∧ pc_role (pc w) = Some (RQueued, 0%nat)) ∨ (∃ k, calls demo_state !! k = Some (Some (Push 0))))) ∨
     (state x = RUNNING_PENDING ∧ ∃ t w, threads demo_state !! t = Some w ∧ pc_role (pc w) = Some (RRunning, 0%nat)) ∨
     state x = FIBER_V2_DEAD ∨ state x = FIBER_V2_IDLE).
Proof.
  apply (signal_not_lost one_worker true 1 demo_state 0 demo_reach). apply (bool_decide_eq_true_1 (0%nat ∈ signalled demo_state)).
  vm_compute. reflexivity.
Defined.

#[export] Instance asleep_dec w : Decision (asleep w).
Proof. unfold asleep. destruct (pc w); apply _. Defined.
(** C9: Queued work has somebody to run it.  With no target of active workers
    (the default) and pops of the free list one at a time: once the pool, which
    starts with one worker and grows on demand, has its maximum size, from a
    moment at which the queue is empty or a worker is awake on, whenever the
    ready queue is not empty and some worker is marked idle, a worker is awake
    or about to be woken, or a call in progress will look for a sleeping worker
    - for every depth from which pushes skip the wake. *)
Theorem queued_work_has_a_waker cfg sp s0 s t w :
  target_active cfg ≤ 0 → rtc (serial_step cfg sp) (sched_v2_init_impl true) s0 → pool_full cfg s0 → work_attended s0 →
  rtc (serial_step cfg sp) s0 s →
  0 < count (ready_queue s) → threads s !! t = Some w → is_idle w = 1 →
  (∃ t' w', threads s !! t' = Some w' ∧ ¬ asleep w') ∨ (∃ k c, calls s !! k = Some (Some c) ∧ covering s c).
Proof.
  intros Htg Hr0 Hfull Hat Hr Hc Hw Hi. pose proof (strand_reachable cfg sp 1 s0 s Htg Hr0 Hfull Hat Hr) as Hst.
  destruct (decide (Forall asleep (threads s))) as [Ha|Ha].
  - destruct (st_cover _ _ Hst Hc) as [?|Hno]; [by apply Forall_lookup|by right|]. by rewrite (Hno t w Hw) in Hi.
  - left. apply not_Forall_Exists in Ha; [|apply _]. apply Exists_exists in Ha as (w' & [t' Ht]%list_elem_of_lookup_1 & Hn). eauto.
Qed.
(** A spawn makes the pool grow to its two workers; both run out of work and
    sleep; a second spawn is delayed after its push. *)
Definition two_workers : sched_cfg := Cfg 4 0 2.
Definition grow_run : list choice := CSpawn :: caller 0 9.
Definition sleep_run : list choice := work 14 ++ replicate 7 (CWork 1 false OReturn) ++ CSpawn :: caller 1 4.
Definition grown_state : sched := default (sched_init 1) (exec two_workers grow_run (sched_v2_init_impl true)).
Definition idle_state : sched := default (sched_init 1) (exec two_workers sleep_run grown_state).
Lemma queued_work_has_a_waker_witness :
  ((∃ t' w', threads idle_state !! t' = Some w' ∧ ¬ asleep w') ∨ (∃ k c, calls idle_state !! k = Some (Some c) ∧ covering idle_state c)) ∧
  threads idle_state = [Thread 1 0 (Wait 0); Thread 1 0 (Wait 0)] ∧ calls idle_state !! 1%nat = Some (Some WakeCount).
Proof.
  split; [|split; vm_compute; reflexivity].
  apply (queued_work_has_a_waker two_workers true grown_state idle_state 0 (Thread 1 0 (Wait 0))).
  - vm_compute. discriminate.
  - apply (exec_reach two_workers true grow_run). vm_compute. reflexivity.
  - vm_compute. lia.
  - right. exists 0%nat, (Thread 0 0 Admit). split; [vm_compute; reflexivity|]. intros [].
  - apply (exec_reach two_workers true sleep_run). vm_compute. reflexivity.
  - vm_compute. reflexivity.
  - vm_compute. reflexivity.
  - reflexivity.
Defined.

(** A worker can be lost, and the scheduler hangs.  With one worker and the
    default tunables a run of two spawns reaches a state in which a fiber is
    queued, every call has returned and the worker sleeps, claimed by a wake it
    read as already past: from there, whatever is spawned, signalled or ticked
    by the monitor, the worker never wakes unless the wait primitive returns
    spuriously, and the queue never shrinks to empty. *)
Theorem lost_worker_hangs :
  ∃ s, rtc (serial_step one_worker false) (sched_v2_init_impl true) s ∧ Forall (λ o, o = None) (calls s) ∧
    ∀ s', rtc (sched_step one_worker false) s s' →
      0 < count (ready_queue s') ∧ idle_workers s' = 0 ∧ ∃ w, threads s' = [w] ∧ asleep w ∧ is_idle w = 0.
Proof.
  exists lost_state. split; [apply (exec_reach one_worker false lost_run); vm_compute; reflexivity|].
  split; [vm_compute; by repeat constructor|]. intros s' Hr.
  assert (Hl' : lost s') by (eapply lost_rtc; [apply lost_state_lost|done]).
  destruct (lo_thread _ Hl') as [v Hv]. split_and!; [apply Hl'|apply Hl'|]. exists (Thread 0 v (Wait v)). done.
Qed.
