(* ===== verification/SchedPool.v ===== *)
(** The free list of fibers of [src/cc/runtime/sched_v2.c] ([fiber_v2_alloc],
    [fiber_v2_free]): a stack popped and pushed by compare-and-swap, one step
    per atomic access.  Fibers are handed out once when allocations do not
    overlap; two overlapping allocations can hand out one fiber twice. *)
From S2P Require Import Prelude.

Implicit Types (f g n t : nat) (l : list nat).

(** * Model *)

(** What a thread is doing with the pool. *)
Inductive pool_pc :=
  | PIdle
  | ALoad                          (* fiber_v2_alloc: load free_list *)
  | ANext (f : nat)                (* read f->next *)
  | ACas (f : nat) (next : option nat)
  | AHold (f : nat)                (* the allocation returned f *)
  | FLoad (f : nat)                (* fiber_v2_free(f): load free_list *)
  | FStore (f : nat) (head : option nat)   (* f->next = head *)
  | FCas (f : nat) (head : option nat).
(** [fresh] is the next address [calloc] returns; [generation] counts reuses. *)
Record fpool := Pool {
  free_list : option nat;
  next_of : gmap nat (option nat);
  generation : gmap nat Z;
  fresh : nat;
  pcs : list pool_pc }.
#[export] Instance eta_fpool : Eta fpool := λ r, Pool (free_list r) (next_of r) (generation r) (fresh r) (pcs r).
Implicit Types (s : fpool) (p : pool_pc).
Definition goto t p s : fpool := s <| pcs ::= insert t p |>.

(** The list is empty: [calloc] a fiber, or report failure ([b]). *)
Definition calloc_fiber (b : bool) (t : nat) (s : fpool) : fpool :=
  if b then goto t PIdle s else
  let f := fresh s in
  goto t (AHold f) (s <| fresh := S f |> <| next_of ::= insert f None |> <| generation ::= insert f 0%Z |>).
(** One access of thread [t]; [b] makes a weak compare-and-swap or [calloc] fail. *)
Definition pool_next (b : bool) (t : nat) (s : fpool) : option fpool :=
  p ← pcs s !! t;
  match p with
  | PIdle => Some (goto t ALoad s)
  | ALoad =>
      match free_list s with
      | Some f => Some (goto t (ANext f) s)
      | None => Some (calloc_fiber b t s)
      end
  | ANext f => nx ← next_of s !! f; Some (goto t (ACas f nx) s)
  | ACas f nx =>
      if decide (b = false ∧ free_list s = Some f)
      then Some (goto t (AHold f) (s <| free_list := nx |> <| next_of ::= insert f None |> <| generation ::= alter (λ z, z + 1)%Z f |>))
      else match free_list s with
           | Some f' => Some (goto t (ANext f') s)
           | None => Some (calloc_fiber b t s)
           end
  | AHold f => Some (goto t (FLoad f) s)
  | FLoad f => Some (goto t (FStore f (free_list s)) s)
  | FStore f h => Some (goto t (FCas f h) (s <| next_of ::= insert f h |>))
  | FCas f h =>
      if decide (b = false ∧ free_list s = h) then Some (goto t PIdle (s <| free_list := Some f |>))
      else Some (goto t (FLoad f) s)
  end.
Definition in_alloc p : bool := match p with ANext _ | ACas _ _ => true | _ => false end.
(** The owner of a fiber also uses its link, to queue it ([pool_step_use]).
    [serial] restricts to one pop in progress at a time, as under a lock. *)
Inductive pool_step (serial : bool) : fpool → fpool → Prop :=
  | pool_step_next b t s s' :
      pool_next b t s = Some s' →
      (serial = true → pcs s !! t = Some ALoad → Forall (λ p, in_alloc p = false) (pcs s)) →
      pool_step serial s s'
  | pool_step_use t f o s :
      pcs s !! t = Some (AHold f) →
      pool_step serial s (s <| next_of ::= insert f o |>).
Definition pool_init n : fpool := Pool None ∅ ∅ 0 (replicate n PIdle).
Fixpoint pool_run (ts : list nat) (s : fpool) : option fpool :=
  match ts with [] => Some s | t :: ts' => s' ← pool_next false t s; pool_run ts' s' end.
Lemma pool_run_reach ts s s' : pool_run ts s = Some s' → rtc (pool_step false) s s'.
Proof.
  revert s. induction ts as [|t ts IH]; intros s; simpl; [intros [= <-]; done|].
  destruct (pool_next false t s) as [s1|] eqn:E; [|done]. simpl. intros Hr. eapply rtc_l; [|by apply IH].
  by eapply pool_step_next.
Qed.

(** * Serialised pops *)

(** The fiber a thread has to itself. *)
Definition holds p : option nat :=
  match p with AHold f | FLoad f | FStore f _ | FCas f _ => Some f | _ => None end.
(** A pop in progress refers to a fiber of the list and to its link. *)
Definition pop_ok s l p : Prop :=
  match p with
  | ANext f => f ∈ l
  | ACas f nx => f ∈ l ∧ next_of s !! f = Some nx
  | FCas f h => next_of s !! f = Some h
  | _ => True
  end.
Record pool_inv s l : Prop := {
  pi_chain : chain (next_of s) (free_list s) l;
  pi_nodup : NoDup l;
  pi_old : ∀ f, f ∈ l → f < fresh s;
  pi_held : ∀ t p f, pcs s !! t = Some p → holds p = Some f → f ∉ l ∧ f < fresh s;
  pi_uniq : ∀ t t' p p' f, pcs s !! t = Some p → pcs s !! t' = Some p' → holds p = Some f → holds p' = Some f → t = t';
  pi_pops : ∀ t p, pcs s !! t = Some p → pop_ok s l p;
  pi_links : ∀ f, f < fresh s → is_Some (next_of s !! f);
  pi_serial : ∀ t t' p p', pcs s !! t = Some p → pcs s !! t' = Some p' → in_alloc p = true → in_alloc p' = true → t = t' }.

(** ** Preservation *)
#[local] Arguments decide : simpl never.
Lemma pool_pcs_lookup t t' p p' s : pcs (goto t p s) !! t' = Some p' → (t' = t ∧ p' = p) ∨ (t' ≠ t ∧ pcs s !! t' = Some p').
Proof.
  simpl. intros H. destruct (decide (t' = t)) as [->|Hne]; [|rewrite list_lookup_insert_ne in H; auto].
  destruct (decide (t < length (pcs s))); [rewrite list_lookup_insert_eq in H by done; left; split; congruence|].
  rewrite list_insert_ge in H by lia. apply lookup_lt_Some in H. lia.
Qed.
(** The invariant after a step of thread [t] from [p] to [p']. *)
Lemma pool_inv_upd s l t p p' s' l' :
  pool_inv s l → pcs s !! t = Some p → pcs s' = <[t := p']> (pcs s) → fresh s ≤ fresh s' →
  chain (next_of s') (free_list s') l' → NoDup l' →
  (∀ f, f ∈ l' → f ∈ l ∨ holds p = Some f) →
  (∀ f, holds p' = Some f → f ∉ l' ∧ f < fresh s' ∧ (holds p = Some f ∨ f ∈ l ∨ fresh s ≤ f)) →
  (∀ t' q, t' ≠ t → pcs s !! t' = Some q → pop_ok s l q → (∀ f, holds q = Some f → f ∉ l ∧ holds p ≠ Some f ∧ f < fresh s) →
     (in_alloc p = true → in_alloc q = false) → pop_ok s' l' q) →
  pop_ok s' l' p' →
  (∀ f, f < fresh s' → is_Some (next_of s' !! f)) →
  (in_alloc p' = true → in_alloc p = true ∨ ∀ t' q, pcs s !! t' = Some q → in_alloc q = false) →
  pool_inv s' l'.
Proof.
  intros Hi Hp Epc Hfr Hch Hnd Hl' Hh Hoth Hok Hlk Hser.
  assert (Hlook : ∀ t' q, pcs s' !! t' = Some q → (t' = t ∧ q = p') ∨ (t' ≠ t ∧ pcs s !! t' = Some q)).
  { intros t' q Hq. rewrite Epc in Hq. by apply (pool_pcs_lookup t t' p' q s). }
  assert (Hheld : ∀ t' q f, t' ≠ t → pcs s !! t' = Some q → holds q = Some f → f ∉ l ∧ holds p ≠ Some f ∧ f < fresh s).
  { intros t' q f Hne Hq Hf. destruct (pi_held _ _ Hi t' q f Hq Hf). split_and!; try done.
    intros Hpf. apply Hne. by eapply (pi_uniq _ _ Hi). }
  assert (Hnew : ∀ t' q f, t' ≠ t → pcs s !! t' = Some q → holds q = Some f → holds p' = Some f → False).
  { intros t' q f Hne Hq Hf Hp'. destruct (Hheld t' q f Hne Hq Hf) as (H1 & H2 & H3). destruct (Hh f Hp') as (_ & _ & [?|[?|?]]); [done|done|lia]. }
  split; [done|done| | | | |done|].
  - intros f Hf. destruct (Hl' f Hf) as [H|H]; [apply (pi_old _ _ Hi) in H; lia|]. apply (pi_held _ _ Hi t p f Hp) in H. lia.
  - intros t' q f [[-> ->]|[Hne Hq]]%Hlook Hf; [by destruct (Hh f Hf) as (? & ? & _)|].
    destruct (Hheld t' q f Hne Hq Hf) as (H1 & H2 & H3). split; [|lia]. intros H. by destruct (Hl' f H).
  - intros t1 t2 q1 q2 f [[-> ->]|[Hne1 Hq1]]%Hlook [[-> ->]|[Hne2 Hq2]]%Hlook Hf1 Hf2; [done|exfalso; eauto..|by eapply (pi_uniq _ _ Hi)].
  - intros t' q [[-> ->]|[Hne Hq]]%Hlook; [done|]. apply (Hoth t' q Hne Hq); [by eapply (pi_pops _ _ Hi)|by eauto|].
    intros Ha. apply not_true_is_false. intros Hb. apply Hne. by eapply (pi_serial _ _ Hi).
  - intros t1 t2 q1 q2 [[-> ->]|[Hne1 Hq1]]%Hlook [[-> ->]|[Hne2 Hq2]]%Hlook Ha Hb; [done|..|by eapply (pi_serial _ _ Hi)].
    + destruct (Hser Ha) as [H|H]; [by eapply (pi_serial _ _ Hi)|]. by rewrite (H t2 q2 Hq2) in Hb.
    + destruct (Hser Hb) as [H|H]; [by eapply (pi_serial _ _ Hi)|]. by rewrite (H t1 q1 Hq1) in Ha.
Qed.
(** A step that moves a thread and changes no memory. *)
Lemma pool_inv_goto s l t p p' :
  pool_inv s l → pcs s !! t = Some p → (∀ f, holds p' = Some f → holds p = Some f) → pop_ok s l p' →
  (in_alloc p' = true → in_alloc p = true ∨ ∀ t' q, pcs s !! t' = Some q → in_alloc q = false) →
  pool_inv (goto t p' s) l.
Proof.
  intros Hi Hp Hh Hok Hser. eapply (pool_inv_upd s l t p p'); try done; try apply Hi; auto.
  intros f Hf. destruct (pi_held _ _ Hi t p f Hp (Hh f Hf)). auto.
Qed.
(** Writing the link of a fiber that is not in the list leaves the others' pops alone. *)
Lemma pop_ok_link s s' l q f o :
  next_of s' = <[f := o]> (next_of s) → f ∉ l → holds q ≠ Some f → pop_ok s l q → pop_ok s' l q.
Proof.
  intros E Hf Hq. destruct q; simpl; try done; rewrite E.
  - intros [H1 H2]. split; [done|]. rewrite lookup_insert_ne by (by intros ->). done.
  - intros H. rewrite lookup_insert_ne; [done|]. intros ->. by apply Hq.
Qed.
Lemma pool_links_insert (nx : gmap nat (option nat)) k k' f (o : option nat) :
  (∀ g, g < k → is_Some (nx !! g)) → (∀ g, g < k' → g < k ∨ g = f) → ∀ g, g < k' → is_Some (<[f := o]> nx !! g).
Proof.
  intros H Hk g Hg. destruct (decide (g = f)) as [->|Hne]; [by rewrite lookup_insert_eq|].
  rewrite lookup_insert_ne by done. apply H. by destruct (Hk g Hg).
Qed.
Lemma calloc_inv b s l t p :
  pool_inv s l → pcs s !! t = Some p → holds p = None → pool_inv (calloc_fiber b t s) l.
Proof.
  intros Hi Hp Hn. unfold calloc_fiber. destruct b; [by eapply pool_inv_goto|].
  assert (Hf : fresh s ∉ l) by (intros H; apply (pi_old _ _ Hi) in H; lia).
  eapply (pool_inv_upd s l t p (AHold (fresh s))); try done; simpl; try apply Hi; auto.
  - by apply chain_insert, Hi.
  - intros f [= <-]. split_and!; auto; lia.
  - intros t' q Hne Hq Hok Hh _. eapply pop_ok_link; [done|done| |done]. intros Hq'. apply Hh in Hq' as (_ & _ & ?). lia.
  - eapply pool_links_insert; [apply Hi|]. intros; lia.
Qed.
Lemma acas_inv s l t f nx :
  pool_inv s l → pcs s !! t = Some (ACas f nx) → free_list s = Some f →
  ∃ l', pool_inv (goto t (AHold f) (s <| free_list := nx |> <| next_of ::= insert f None |> <| generation ::= alter (λ z, z + 1)%Z f |>)) l'.
Proof.
  intros Hi Hp Hfl. destruct (pi_pops _ _ Hi t _ Hp) as [Hfin Hnx]. pose proof (pi_chain _ _ Hi) as Hch.
  pose proof (pi_nodup _ _ Hi) as Hnd. pose proof (pi_old _ _ Hi f Hfin) as Hold.
  destruct l as [|f0 l]; [by apply not_elem_of_nil in Hfin|]. destruct Hch as [Hh (o & Ho & Hc)].
  assert (f0 = f) as -> by congruence. assert (o = nx) as -> by congruence. apply NoDup_cons in Hnd as [Hf Hnd].
  exists l. eapply (pool_inv_upd s (f :: l) t); try done; simpl; auto.
  - by apply chain_insert.
  - intros g Hg. left. by right.
  - intros g [= <-]. split_and!; auto.
  - intros t' q Hne Hq Hok Hh' Ha. specialize (Ha eq_refl).
    assert (Hok' : pop_ok s l q) by (destruct q; done).
    eapply pop_ok_link; [done|done| |done]. intros Hq'. apply Hh' in Hq' as [Hn _]. apply Hn. left.
  - eapply pool_links_insert; [apply Hi|]. auto.
Qed.
Lemma fcas_inv s l t f :
  pool_inv s l → pcs s !! t = Some (FCas f (free_list s)) → pool_inv (goto t PIdle (s <| free_list := Some f |>)) (f :: l).
Proof.
  intros Hi Hp. destruct (pi_held _ _ Hi t _ f Hp eq_refl) as [Hf Hfr]. pose proof (pi_pops _ _ Hi t _ Hp) as Hnx. simpl in Hnx.
  eapply (pool_inv_upd s l t); try done; simpl; try apply Hi.
  - split; [done|]. exists (free_list s). split; [done|apply Hi].
  - apply NoDup_cons. split; [done|apply Hi].
  - intros g [->|Hg]%elem_of_cons; auto.
  - intros t' q Hne Hq Hok Hh _. destruct q; simpl in *; try done; [by right|]. destruct Hok. split; [by right|done].
Qed.
Lemma link_inv s l t p p' f o :
  pool_inv s l → pcs s !! t = Some p → holds p = Some f → holds p' = Some f → (pop_ok (s <| next_of ::= insert f o |>) l p') → in_alloc p' = false →
  pool_inv (goto t p' (s <| next_of ::= insert f o |>)) l.
Proof.
  intros Hi Hp Hh Hh' Hok Ha. destruct (pi_held _ _ Hi t p f Hp Hh) as [Hf Hfr].
  eapply (pool_inv_upd s l t); try done; simpl; try apply Hi; auto.
  - by apply chain_insert, Hi.
  - intros g Hg. assert (g = f) as -> by congruence. auto.
  - intros t' q Hne Hq Hok' Hq' _. eapply pop_ok_link; [done|done| |done]. intros Hx. apply Hq' in Hx as (_ & Hx & _). congruence.
  - eapply pool_links_insert; [apply Hi|]. auto.
  - by rewrite Ha.
Qed.
Lemma pool_head_in s l f : pool_inv s l → free_list s = Some f → f ∈ l.
Proof. intros Hi Hf. pose proof (chain_head _ _ _ (pi_chain _ _ Hi)) as Hh. rewrite Hf in Hh. destruct l; simpl in Hh; [done|]. injection Hh as ->. left. Qed.
Lemma pool_step_inv s s' l : pool_inv s l → pool_step true s s' → ∃ l', pool_inv s' l'.
Proof.
  intros Hi Hs. destruct Hs as [b t s s' Hn Hser|t f o s Hp].
  - unfold pool_next in Hn. destruct (pcs s !! t) as [p|] eqn:Hp; [|done]. simpl in Hn.
    destruct p as [| |f|f nx|f|f|f h|f h].
    + injection Hn as <-. exists l. by eapply pool_inv_goto.
    + destruct (free_list s) as [f|] eqn:Hf; injection Hn as <-; exists l; [|by eapply calloc_inv].
      eapply pool_inv_goto; try done; [by eapply pool_head_in|]. intros _. right. specialize (Hser eq_refl eq_refl).
      intros t' q Hq. by eapply Forall_lookup_1 in Hser.
    + destruct (next_of s !! f) as [nx|] eqn:Hnx; [|done]. injection Hn as <-. exists l. eapply pool_inv_goto; try done; [|by left].
      split; [|done]. apply (pi_pops _ _ Hi t _ Hp).
    + case_decide as Hd; [injection Hn as <-; destruct Hd as [_ Hd]; exact (acas_inv s l t f nx Hi Hp Hd)|].
      destruct (free_list s) as [f'|] eqn:Hf; injection Hn as <-; exists l; [|by eapply calloc_inv].
      eapply pool_inv_goto; [done|done|done|exact (pool_head_in s l _ Hi Hf)|by left].
    + injection Hn as <-. exists l. by eapply pool_inv_goto.
    + injection Hn as <-. exists l. by eapply pool_inv_goto.
    + injection Hn as <-. exists l. eapply link_inv; try done. simpl. by rewrite lookup_insert_eq.
    + case_decide as Hd; injection Hn as <-; [|exists l; by eapply pool_inv_goto].
      exists (f :: l). destruct Hd as [_ <-]. by apply fcas_inv.
  - exists l. assert (E : s <| next_of ::= insert f o |> = goto t (AHold f) (s <| next_of ::= insert f o |>)).
    { unfold goto. destruct s. simpl in Hp. change (Pool free_list0 (<[f := o]> next_of0) generation0 fresh0 pcs0 = Pool free_list0 (<[f := o]> next_of0) generation0 fresh0 (<[t := AHold f]> pcs0)). by rewrite list_insert_id. }
    rewrite E. by eapply link_inv.
Qed.
Lemma pool_init_inv n : pool_inv (pool_init n) [].
Proof.
  assert (Hl : ∀ t p, pcs (pool_init n) !! t = Some p → p = PIdle) by (intros t p [-> _]%lookup_replicate; done).
  split; try done; simpl; try (by constructor); try (intros; lia); intros; try set_solver;
    repeat match goal with H : replicate _ _ !! _ = Some _ |- _ => apply Hl in H; subst end; done.
Qed.
Lemma pool_reachable n s : rtc (pool_step true) (pool_init n) s → ∃ l, pool_inv s l.
Proof.
  generalize (pool_init_inv n). generalize (@nil nat), (pool_init n). intros l s0 Hi Hr. revert l Hi.
  induction Hr as [|s0 s1 s2 Hs _ IH]; intros l Hi; [eauto|]. destruct (pool_step_inv _ _ _ Hi Hs) as [l1 H1]. by eapply IH.
Qed.

(** * Properties *)

(** With pops one at a time the pool hands a fiber out to one owner: in
    every reachable state the free list is a finite list of distinct fibers
    that nobody owns, no two threads own one fiber, and no thread is about to
    follow a dangling link - for any number of threads, with pushes and the
    owners' own use of the links interleaved freely. *)
Theorem pool_serial_exclusive n s :
  rtc (pool_step true) (pool_init n) s →
  ∃ l, chain (next_of s) (free_list s) l ∧ NoDup l ∧
    (∀ t p f, pcs s !! t = Some p → holds p = Some f → f ∉ l) ∧
    (∀ t t' p p' f, pcs s !! t = Some p → pcs s !! t' = Some p' → holds p = Some f → holds p' = Some f → t = t') ∧
    (∀ b t, is_Some (pcs s !! t) → is_Some (pool_next b t s)).
Proof.
  intros Hr. destruct (pool_reachable n s Hr) as [l Hi]. exists l. split_and!; [apply Hi|apply Hi| |apply Hi|].
  - intros t p f Hp Hf. by destruct (pi_held _ _ Hi t p f Hp Hf).
  - intros b t [p Hp]. unfold pool_next. rewrite Hp. simpl. destruct p; try (repeat case_match; by eexists).
    destruct (pi_links _ _ Hi f) as [nx Hnx]; [apply (pi_old _ _ Hi), (pi_pops _ _ Hi t _ Hp)|]. rewrite Hnx. by eexists.
Qed.
Definition pool_two : fpool := default (pool_init 2) (pool_run [0; 0] (pool_init 2)).
Lemma pool_serial_exclusive_witness :
  ∃ l, chain (next_of pool_two) (free_list pool_two) l ∧ NoDup l ∧
    (∀ t p f, pcs pool_two !! t = Some p → holds p = Some f → f ∉ l) ∧
    (∀ t t' p p' f, pcs pool_two !! t = Some p → pcs pool_two !! t' = Some p' → holds p = Some f → holds p' = Some f → t = t') ∧
    (∀ b t, is_Some (pcs pool_two !! t) → is_Some (pool_next b t pool_two)).
Proof.
  apply (pool_serial_exclusive 2). eapply rtc_l; [|eapply rtc_l; [|apply rtc_refl]].
  - apply (pool_step_next true false 0 _ (goto 0 ALoad (pool_init 2))); [vm_compute; reflexivity|]. intros _ H. vm_compute in H. discriminate H.
  - apply (pool_step_next true false 0); [vm_compute; reflexivity|]. intros _ _. vm_compute. by repeat constructor.
Defined.

(** The run: thread 0 reads the head and its link and is delayed before its
    compare-and-swap, while the head is popped, its successor is popped, and
    the head is pushed back. *)
Definition aba_run : list nat :=
  [1; 1; 2; 2] ++ [2; 2; 2; 2] ++ [1; 1; 1; 1] ++ [0; 0; 0] ++ [1; 1; 1; 1] ++ [2; 2; 2; 2] ++ [1; 1; 1; 1] ++ [0] ++ [3; 3; 3; 3].
(** C40: Two overlapping allocations can hand out one fiber twice: the
    compare-and-swap of [fiber_v2_alloc] compares the head alone, so a head
    that was popped and pushed back in between installs a stale link, and the
    next allocation returns a fiber another thread already owns. *)
Theorem pool_aba_double_alloc :
  ∃ s t t' f, rtc (pool_step false) (pool_init 4) s ∧ t ≠ t' ∧ pcs s !! t = Some (AHold f) ∧ pcs s !! t' = Some (AHold f).
Proof.
  eexists (default (pool_init 4) (pool_run aba_run (pool_init 4))), 2, 3, 1.
  split; [apply (pool_run_reach aba_run); vm_compute; reflexivity|]. split; [done|]. split; vm_compute; reflexivity.
Qed.
