(* ===== verification/SchedJoin.v ===== *)
(** Joining a fiber ([sched_v2_join]) against the worker that completes it
    ([thread_v2_run_fiber] after the coroutine ended), of
    [src/cc/runtime/sched_v2.c]: one step per atomic access of the joined
    fiber's [done], [join_waiter_fiber] and [done_wake] fields.  Parking is the
    scheduler's contract proved in SchedProps: a parked joiner resumes when a
    signal was sent to it since its last resumption. *)
From S2P Require Import Prelude.

Open Scope Z_scope.
Implicit Types (j k n : nat) (v : Z).

(** * Model *)

(** Inside [sched_v2_join]; [fib] says whether the caller is a fiber. *)
Inductive join_pc :=
  | JEnter (fib : bool)            (* load done *)
  | JSpin (fib : bool) (n : nat)   (* the spin loop, n rounds left *)
  | JPublish                       (* store join_waiter_fiber *)
  | JLoop                          (* while (!done) *)
  | JParkLoad                      (* cc__fiber_park_if: load done *)
  | JPark                          (* sched_v2_park *)
  | JClear                         (* store join_waiter_fiber NULL *)
  | TLoop                          (* while (!done) *)
  | TVal                           (* load done_wake.value *)
  | TRecheck (v : Z)               (* load done *)
  | TWait (v : Z)                  (* wake_primitive_wait(v) *)
  | JReturn.                       (* sched_v2_finish_join *)
(** The worker that runs the fiber. *)
Inductive comp_pc :=
  | CRun                           (* store done *)
  | CExchange                      (* exchange join_waiter_fiber NULL *)
  | CUnpark (w : nat)              (* cc__fiber_unpark_tagged(waiter) *)
  | CWakeAll                       (* wake_primitive_wake_all(done_wake) *)
  | CEnd.
(** The joined fiber, the signals sent and not yet consumed, the joiners, and
    the completing worker of each incarnation of the fiber. *)
Record jstate := J {
  jdone : Z;
  join_waiter_fiber : option nat;
  done_wake : Z;
  signals : gset nat;
  joiners : list join_pc;
  completers : list comp_pc }.
#[export] Instance eta_jstate : Eta jstate := λ r,
  J (jdone r) (join_waiter_fiber r) (done_wake r) (signals r) (joiners r) (completers r).
Implicit Types (s : jstate) (p : join_pc) (c : comp_pc).
Definition wrap_u32 (z : Z) : Z := z mod 2 ^ 32.

(** [spin] is [g_v2_join_spin].  The next access of joiner [j]; [None]: it
    sleeps.  [b]: the sleep ends spuriously. *)
Definition join_next (spin : nat) (b : bool) (j : nat) (p : join_pc) (s : jstate) : option (join_pc * jstate) :=
  let done := bool_decide (jdone s ≠ 0) in
  match p with
  | JEnter fib => Some (if done then JReturn else JSpin fib spin, s)
  | JSpin fib 0 => Some (if fib then JPublish else TLoop, s)
  | JSpin fib (S n) => Some (if done then JReturn else JSpin fib n, s)
  | JPublish => Some (JLoop, s <| join_waiter_fiber := Some j |>)
  | JLoop => Some (if done then JClear else JParkLoad, s)
  | JParkLoad => Some (if done then JLoop else JPark, s)
  | JPark => if decide (j ∈ signals s) then Some (JLoop, s <| signals ::= λ S, S ∖ {[j]} |>) else if b then Some (JLoop, s) else None
  | JClear => Some (JReturn, s <| join_waiter_fiber := None |>)
  | TLoop => Some (if done then JReturn else TVal, s)
  | TVal => Some (TRecheck (done_wake s), s)
  | TRecheck v => Some (if done then JReturn else TWait v, s)
  | TWait v => if b || negb (bool_decide (done_wake s = v)) then Some (TLoop, s) else None
  | JReturn => None
  end.
Definition comp_next (c : comp_pc) (s : jstate) : option (comp_pc * jstate) :=
  match c with
  | CRun => Some (CExchange, s <| jdone := 1 |>)
  | CExchange => Some (match join_waiter_fiber s with Some w => CUnpark w | None => CWakeAll end, s <| join_waiter_fiber := None |>)
  | CUnpark w => Some (CWakeAll, s <| signals ::= λ S, {[w]} ∪ S |>)
  | CWakeAll => Some (CEnd, s <| done_wake := wrap_u32 (done_wake s + 1) |>)
  | CEnd => None
  end.
(** [reuse]: once its joiners have returned the fiber is released and spawned
    again ([sched_v2_fiber_release], [fiber_v2_alloc]) with one new joiner.
    [ext]: joiners also get signals for other reasons, and sleeps end
    spuriously. *)
Inductive jstep (spin : nat) (ext reuse : bool) : jstate → jstate → Prop :=
  | jstep_join j p b p' s s' : joiners s !! j = Some p → join_next spin b j p s = Some (p', s') → (b = true → ext = true) →
      jstep spin ext reuse s (s' <| joiners ::= insert j p' |>)
  | jstep_comp k c c' s s' : completers s !! k = Some c → comp_next c s = Some (c', s') →
      jstep spin ext reuse s (s' <| completers ::= insert k c' |>)
  | jstep_signal j s : ext = true → jstep spin ext reuse s (s <| signals ::= λ S, {[j]} ∪ S |>)
  | jstep_reuse fib s : reuse = true → Forall (eq JReturn) (joiners s) →
      jstep spin ext reuse s (s <| jdone := 0 |> <| join_waiter_fiber := None |> <| joiners ::= λ l, l ++ [JEnter fib] |>
                                <| completers ::= λ l, l ++ [CRun] |>).
Definition jinit (w : Z) (fibs : list bool) : jstate := J 0 None w ∅ (JEnter <$> fibs) [CRun].

(** * One incarnation, at most one fiber among the joiners *)

Section single.
Context (spin : nat) (w0 : Z) (j0 : nat).

Definition wants p : bool := match p with JEnter fib | JSpin fib _ => fib | JPublish | JLoop | JParkLoad | JPark | JClear => true | _ => false end.
(** What each joiner relies on. *)
Definition join_ok s c j p : Prop :=
  (wants p = true → j = j0) ∧
  match p with
  | JLoop | JParkLoad => jdone s = 1 ∨ join_waiter_fiber s = Some j
  | JPark => (join_waiter_fiber s = Some j ∧ (c = CRun ∨ c = CExchange)) ∨ c = CUnpark j ∨ (jdone s = 1 ∧ j ∈ signals s)
  | TRecheck v => v = w0 ∨ jdone s = 1
  | TWait v => v = w0
  | JClear | JReturn => jdone s = 1
  | _ => True
  end.
Record join_inv s c : Prop := {
  ji_comp : completers s = [c];
  ji_done : jdone s = (match c with CRun => 0 | _ => 1 end);
  ji_wake : done_wake s = (match c with CEnd => wrap_u32 (w0 + 1) | _ => w0 end);
  ji_waiter : ∀ j, join_waiter_fiber s = Some j → j = j0;
  ji_joiners : ∀ j p, joiners s !! j = Some p → join_ok s c j p }.

Lemma joiners_insert j p' s k p : joiners (s <| joiners ::= insert j p' |>) !! k = Some p → (k = j ∧ p = p') ∨ (k ≠ j ∧ joiners s !! k = Some p).
Proof.
  simpl. intros H. destruct (decide (k = j)) as [->|Hne]; [|rewrite list_lookup_insert_ne in H; auto].
  destruct (decide (j < length (joiners s))%nat); [rewrite list_lookup_insert_eq in H by done; left; split; congruence|].
  rewrite list_insert_ge in H by lia. apply lookup_lt_Some in H. lia.
Qed.
Lemma jdone_01 s c : join_inv s c → jdone s = 0 ∨ jdone s = 1.
Proof. intros Hi. rewrite (ji_done _ _ Hi). destruct c; auto. Qed.
(** A joiner's step leaves what the other joiners rely on in place. *)
Lemma join_other b j p s p' s' c k q :
  join_inv s c → joiners s !! j = Some p → join_next spin b j p s = Some (p', s') → k ≠ j → join_ok s c k q → join_ok s' c k q.
Proof.
  intros Hi Hp Hn Hne [Hw Hq]. pose proof (ji_joiners _ _ Hi j p Hp) as [Hwj _].
  split; [done|]. destruct p as [fib|fib n| | | | | | | |v|v|]; try destruct n; simpl in Hn;
    try (by simplify_eq); try (by repeat case_match; simplify_eq).
  - injection Hn as <- <-. destruct q; simpl in *; try done; exfalso; apply Hne; rewrite Hw, Hwj; done.
  - case_decide; [|by destruct b; simplify_eq]. injection Hn as <- <-. destruct q; simpl in *; try done.
    destruct Hq as [?|[?|?]]; [by left|by right; left|right; right; set_solver].
  - injection Hn as <- <-. destruct q; simpl in *; try done; exfalso; apply Hne; rewrite Hw, Hwj; done.
Qed.
(** A park is entered with the fiber registered and the completer not past the exchange. *)
Lemma park_entry s c j : join_inv s c → jdone s = 0 → jdone s = 1 ∨ join_waiter_fiber s = Some j →
  (join_waiter_fiber s = Some j ∧ (c = CRun ∨ c = CExchange)) ∨ c = CUnpark j ∨ (jdone s = 1 ∧ j ∈ signals s).
Proof. intros Hi Hd [?|Hw]; [lia|]. left. split; [done|]. left. pose proof (ji_done _ _ Hi). by destruct c; try lia. Qed.
Lemma park_exit s c j : join_inv s c →
  (join_waiter_fiber s = Some j ∧ (c = CRun ∨ c = CExchange)) ∨ c = CUnpark j ∨ (jdone s = 1 ∧ j ∈ signals s) →
  jdone s = 1 ∨ join_waiter_fiber s = Some j.
Proof. intros Hi [[? _]|[->|[? _]]]; [by right|left; apply (ji_done _ _ Hi)|by left]. Qed.
Lemma join_self b j p s p' s' c :
  join_inv s c → joiners s !! j = Some p → join_next spin b j p s = Some (p', s') → join_ok s' c j p'.
Proof.
  intros Hi Hp Hn. pose proof (ji_joiners _ _ Hi j p Hp) as [Hwj Hok]. pose proof (jdone_01 _ _ Hi) as Hd01.
  assert (Hdn : bool_decide (jdone s ≠ 0) = bool_decide (jdone s = 1)) by (apply bool_decide_ext; lia).
  destruct p as [fib|fib n| | | | | | | |v|v|]; try destruct n; simpl in Hn; simpl in Hwj, Hok; rewrite ?Hdn in Hn; clear Hdn;
    try (case_bool_decide as Hb); try (injection Hn as <- <-; by split; auto).
  - injection Hn as <- <-. by destruct fib; split; auto.
  - injection Hn as <- <-. split; [done|]. apply (park_entry _ _ _ Hi); [lia|done].
  - case_decide; [|destruct b; [|done]]; injection Hn as <- <-; (split; [done|]); by apply (park_exit s c j Hi).
  - injection Hn as <- <-. split; [done|]. pose proof (ji_wake _ _ Hi). pose proof (ji_done _ _ Hi). destruct c; auto.
  - injection Hn as <- <-. split; [done|]. by destruct Hok.
  - destruct b; [|done]. injection Hn as <- <-. by split.
  - destruct b; injection Hn as <- <-; by split.
  - done.
Qed.
Lemma comp_joiner s c c' s' j p : join_inv s c → joiners s !! j = Some p → comp_next c s = Some (c', s') → join_ok s' c' j p.
Proof.
  intros Hi Hp Hn. pose proof (ji_joiners _ _ Hi j p Hp) as [Hw Hok]. pose proof (ji_done _ _ Hi) as Hd. split; [done|].
  destruct c; simpl in Hn, Hd; try done; injection Hn as <- <-; destruct p; simpl in *; try done; auto;
    try (destruct Hok as [[E1 E2]|[E|[E1 E2]]]; try done; try (rewrite E1); auto; right; right; set_solver).
Qed.
Lemma join_inv_step ext s s' c : join_inv s c → jstep spin ext false s s' → ∃ c', join_inv s' c'.
Proof.
  intros Hi Hs. destruct Hs as [j p b p' s s' Hp Hn _|k c0 c' s s' Hc Hn|j s _|fib s Hr]; [| | |done].
  - exists c. assert (Hsame : jdone s' = jdone s ∧ done_wake s' = done_wake s ∧ completers s' = completers s ∧ joiners s' = joiners s).
    { destruct p as [fib|fib n| | | | | | | |v|v|]; try destruct n; simpl in Hn; repeat case_match; simplify_eq; done. }
    destruct Hsame as (E1 & E2 & E3 & E4). split; simpl; rewrite ?E1, ?E2, ?E3; try apply Hi.
    + pose proof (ji_joiners _ _ Hi j p Hp) as [Hw _]. destruct p as [fib|fib n| | | | | | | |v|v|]; try destruct n; simpl in Hn;
        repeat case_match; simplify_eq; simpl; try apply Hi; [|done]. intros ? [= <-]. by apply Hw.
    + intros k q. rewrite E4. intros [[-> ->]|[Hne Hq]]%(joiners_insert j p' s k q).
      * by apply (join_self b j p s p' s' c).
      * by eapply (join_other b j p s p' s' c), Hi.
  - rewrite (ji_comp _ _ Hi) in Hc. apply list_lookup_singleton_Some in Hc as [-> <-]. exists c'.
    assert (Hj : ∀ j p, joiners s' !! j = Some p → join_ok s' c' j p).
    { intros j p Hp. apply (comp_joiner s c c' s'); [done| |done]. by destruct c; simplify_eq/=. }
    pose proof (ji_done _ _ Hi). pose proof (ji_wake _ _ Hi). pose proof (ji_comp _ _ Hi).
    destruct c; simpl in Hn; try done; injection Hn as <- <-; split; simpl in *; try done; try congruence; try apply Hi.
    all: try (match goal with H : completers _ = _ |- _ => by rewrite H end); by destruct (join_waiter_fiber _).
  - exists c. split; simpl; try apply Hi. intros k q Hq. destruct (ji_joiners _ _ Hi k q Hq) as [Hw Hok]. split; [done|].
    destruct q; simpl in *; try done. destruct Hok as [?|[?|[? ?]]]; auto. right. right. set_solver.
Qed.
Lemma jinit_inv fibs : (∀ j, fibs !! j = Some true → j = j0) → join_inv (jinit w0 fibs) CRun.
Proof.
  intros Hf. split; try done. intros j p Hp. simpl in Hp. apply list_lookup_fmap_Some in Hp as (fib & -> & Hb).
  split; [|done]. simpl. intros ->. by apply Hf.
Qed.
Lemma join_reachable ext fibs s :
  (∀ j, fibs !! j = Some true → j = j0) → rtc (jstep spin ext false) (jinit w0 fibs) s → ∃ c, join_inv s c.
Proof.
  intros Hf. generalize (jinit_inv fibs Hf). generalize CRun, (jinit w0 fibs). intros c s0 Hi Hr. revert c Hi.
  induction Hr as [|s0 s1 s2 Hs _ IH]; intros c Hi; [eauto|]. destruct (join_inv_step _ _ _ _ Hi Hs) as [c1 H1]. by eapply IH.
Qed.
End single.

(** ** Returning *)

(** Accesses a joiner still makes once the fiber is done. *)
Definition join_rank p : nat :=
  match p with
  | JEnter _ | JSpin _ _ => 5 | JPublish => 4 | JParkLoad | JPark => 3 | JLoop => 2 | JClear => 1
  | TWait _ => 3 | TVal => 3 | TRecheck _ => 2 | TLoop => 1 | JReturn => 0
  end.
Lemma wrap_u32_succ v : 0 ≤ v < 2 ^ 32 → wrap_u32 (v + 1) ≠ v.
Proof.
  intros Hv. unfold wrap_u32. destruct (decide (v + 1 = 2 ^ 32)) as [E|E]; [rewrite E, Z.mod_same by done; lia|].
  rewrite Z.mod_small by lia. lia.
Qed.
Lemma join_advances spin w0 j0 s j p :
  0 ≤ w0 < 2 ^ 32 → join_inv w0 j0 s CEnd → joiners s !! j = Some p → p ≠ JReturn →
  ∃ p' s', join_next spin false j p s = Some (p', s') ∧ (join_rank p' < join_rank p)%nat.
Proof.
  intros Hw Hi Hp Hne. destruct (ji_joiners _ _ _ _ Hi j p Hp) as [_ Hok].
  assert (Hd : bool_decide (jdone s ≠ 0) = true) by (rewrite (ji_done _ _ _ _ Hi); done).
  destruct p as [fib|fib n| | | | | | | |v|v|]; try destruct n; simpl in *; rewrite ?Hd; try done; try (eexists _, _; split; [done|simpl; lia]).
  - eexists _, _. split; [done|]. destruct fib; simpl; lia.
  - destruct Hok as [[_ [? | ?]]|[?|[_ ?]]]; try done. rewrite decide_True by done. eexists _, _. split; [done|simpl; lia].
  - rewrite bool_decide_eq_false_2; [eexists _, _; split; [done|simpl; lia]|].
    rewrite Hok, (ji_wake _ _ _ _ Hi). by apply wrap_u32_succ.
Qed.

(** ** Runs *)
Inductive jchoice := ChJoin (j : nat) | ChComp (k : nat) | ChReuse (fib : bool).
Definition jexec1 (spin : nat) (ch : jchoice) s : option jstate :=
  match ch with
  | ChJoin j => p ← joiners s !! j; '(p', s') ← join_next spin false j p s; Some (s' <| joiners ::= insert j p' |>)
  | ChComp k => c ← completers s !! k; '(c', s') ← comp_next c s; Some (s' <| completers ::= insert k c' |>)
  | ChReuse fib =>
      if bool_decide (Forall (λ p, join_rank p = 0%nat) (joiners s)) then
        Some (s <| jdone := 0 |> <| join_waiter_fiber := None |> <| joiners ::= λ l, l ++ [JEnter fib] |> <| completers ::= λ l, l ++ [CRun] |>)
      else None
  end.
Fixpoint jexec spin (chs : list jchoice) s : option jstate :=
  match chs with [] => Some s | ch :: chs' => s' ← jexec1 spin ch s; jexec spin chs' s' end.
Lemma jexec1_step spin ext reuse ch s s' :
  (∀ fib, ch = ChReuse fib → reuse = true) → jexec1 spin ch s = Some s' → jstep spin ext reuse s s'.
Proof.
  intros Hr He. destruct ch as [j|k|fib]; simpl in He.
  - destruct (joiners s !! j) as [p|] eqn:Hp; [|done]. simpl in He. destruct (join_next spin false j p s) as [[p' s1]|] eqn:Hn; [|done].
    injection He as <-. by eapply jstep_join.
  - destruct (completers s !! k) as [c|] eqn:Hc; [|done]. simpl in He. destruct (comp_next c s) as [[c' s1]|] eqn:Hn; [|done].
    injection He as <-. by eapply jstep_comp.
  - case_bool_decide as Hf; [|done]. injection He as <-. apply jstep_reuse; [by eapply Hr|].
    eapply Forall_impl; [exact Hf|]. intros p. by destruct p.
Qed.
Lemma jexec_reach spin ext reuse chs s s' :
  (reuse = false → Forall (λ ch, ∀ fib, ch ≠ ChReuse fib) chs) → jexec spin chs s = Some s' → rtc (jstep spin ext reuse) s s'.
Proof.
  revert s. induction chs as [|ch chs IH]; intros s Hf; simpl; [intros [= <-]; done|].
  destruct (jexec1 spin ch s) as [s1|] eqn:E; [|done]. simpl. intros Hr. eapply rtc_l; [|apply IH; [|done]].
  - eapply jexec1_step; [|done]. intros fib ->. destruct reuse; [done|]. by apply Forall_cons in Hf as [Hf _]; [destruct (Hf fib)|].
  - intros Hre. by apply Forall_cons in Hf as [_ Hf].
Qed.
(** A joiner parked with nobody left to signal it. *)
Definition forgotten j s : Prop :=
  joiners s !! j = Some JPark ∧ j ∉ signals s ∧ join_waiter_fiber s = None ∧
  Forall (eq CEnd) (completers s) ∧ ∀ k p, joiners s !! k = Some p → k ≠ j → p = JReturn.
Lemma forgotten_step spin j s s' : forgotten j s → jstep spin false true s s' → forgotten j s'.
Proof.
  intros (H1 & H2 & H3 & H4 & H5) Hs. destruct Hs as [k p b p' s s' Hp Hn Hb|k c c' s s' Hc Hn| |fib s _ Hf]; [| |done|].
  - exfalso. destruct (decide (k = j)) as [->|Hne].
    + assert (p = JPark) as -> by congruence. simpl in Hn. rewrite decide_False in Hn by done. destruct b; [by specialize (Hb eq_refl)|done].
    + by rewrite (H5 k p Hp Hne) in Hn.
  - exfalso. by rewrite Forall_lookup in H4; specialize (H4 k c Hc); subst c.
  - exfalso. rewrite Forall_lookup in Hf. by specialize (Hf j _ H1).
Qed.
Lemma forgotten_rtc spin j s s' : forgotten j s → rtc (jstep spin false true) s s' → forgotten j s'.
Proof. intros Hl Hr. induction Hr as [|s s1 s2 Hst _ IH]; [done|]. by apply IH, (forgotten_step spin j s). Qed.

(** * Properties *)

(** C11: Joins return, and not too early.  For one incarnation of a fiber, any
    number of joining threads, at most one joining fiber and any spin budget,
    with stray signals and spurious wakes: a join that returned finds the fiber
    done, and once the completing worker has left the fiber every join still in
    progress can make its next access and returns after at most five of its own. *)
Theorem join_returns_after_completion spin ext w0 j0 fibs s :
  0 ≤ w0 < 2 ^ 32 → (∀ j, fibs !! j = Some true → j = j0) → rtc (jstep spin ext false) (jinit w0 fibs) s →
  (∀ j, joiners s !! j = Some JReturn → jdone s = 1) ∧
  (completers s = [CEnd] → ∀ j p, joiners s !! j = Some p → p ≠ JReturn →
     ∃ p' s', join_next spin false j p s = Some (p', s') ∧ (join_rank p' < join_rank p ≤ 5)%nat).
Proof.
  intros Hw Hf Hr. destruct (join_reachable spin w0 j0 ext fibs s Hf Hr) as [c Hi]. split.
  - intros j Hj. by destruct (ji_joiners _ _ _ _ Hi j _ Hj) as [_ ?].
  - intros Hc j p Hp Hne. rewrite (ji_comp _ _ _ _ Hi) in Hc. injection Hc as ->.
    destruct (join_advances spin w0 j0 s j p Hw Hi Hp Hne) as (p' & s' & Hn & Hlt). exists p', s'. split; [done|].
    split; [done|]. destruct p; simpl; lia.
Qed.
(** A joining thread and a joining fiber both asleep when the fiber ends. *)
Definition join_run : list jchoice :=
  replicate 5 (ChJoin 0) ++ replicate 5 (ChJoin 1) ++ replicate 4 (ChComp 0).
Definition join_state : jstate := default (jinit 0 [false; true]) (jexec 0 join_run (jinit 0 [false; true])).
Lemma join_returns_after_completion_witness :
  joiners join_state = [TWait 0; JPark] ∧ completers join_state = [CEnd] ∧
  ∃ p' s', join_next 0 false 1 JPark join_state = Some (p', s') ∧ (join_rank p' < join_rank JPark ≤ 5)%nat.
Proof.
  split; [vm_compute; reflexivity|]. split; [vm_compute; reflexivity|].
  apply (join_returns_after_completion 0 false 0 1 [false; true] join_state).
  - lia.
  - intros [|[|j]] Hj; [discriminate Hj|reflexivity|discriminate Hj].
  - apply (jexec_reach 0 false false join_run); [|vm_compute; reflexivity]. intros _. by repeat constructor.
  - vm_compute. reflexivity.
  - vm_compute. reflexivity.
  - discriminate.
Defined.

(** The fiber has room for one waiting fiber only: of two fibers that join
    the same fiber before it ends, the one that registered first sleeps
    forever after the fiber has ended. *)
Theorem second_fiber_joiner_displaces_first :
  ∃ s, rtc (jstep 0 false false) (jinit 0 [true; true]) s ∧ jdone s = 1 ∧
    ∀ s', rtc (jstep 0 false true) s s' → joiners s' !! 0%nat = Some JPark.
Proof.
  set (run := replicate 5 (ChJoin 0) ++ replicate 5 (ChJoin 1) ++ replicate 4 (ChComp 0) ++ replicate 3 (ChJoin 1)).
  set (s := default (jinit 0 [true; true]) (jexec 0 run (jinit 0 [true; true]))). exists s. split.
  { apply (jexec_reach 0 false false run); [|vm_compute; reflexivity]. intros _. by repeat constructor. }
  split; [vm_compute; reflexivity|]. intros s' Hr. assert (Hf : forgotten 0 s').
  { eapply forgotten_rtc; [|exact Hr]. split; [vm_compute; reflexivity|]. split; [apply (bool_decide_eq_true_1 (0%nat ∉ signals s)); vm_compute; reflexivity|].
    split; [vm_compute; reflexivity|]. split; [vm_compute; by repeat constructor|].
    intros [|[|k]] p Hp Hne; [done|by vm_compute in Hp; simplify_eq|by vm_compute in Hp]. }
  by destruct Hf.
Qed.

(** A worker still touches a fiber after publishing that it is done.  When
    the joiner returns at once, the fiber is released and spawned again, and a
    fiber joins the new incarnation, the old worker's delayed exchange takes
    that registration: the new fiber ends and its joiner sleeps forever. *)
Theorem completer_steals_next_joiner :
  ∃ s, rtc (jstep 0 false true) (jinit 0 [false]) s ∧ jdone s = 1 ∧
    ∀ s', rtc (jstep 0 false true) s s' → joiners s' !! 1%nat = Some JPark.
Proof.
  set (run := [ChComp 0; ChJoin 0; ChReuse true] ++ replicate 5 (ChJoin 1) ++ replicate 3 (ChComp 0) ++ replicate 3 (ChJoin 1) ++ replicate 3 (ChComp 1)).
  set (s := default (jinit 0 [false]) (jexec 0 run (jinit 0 [false]))). exists s. split.
  { apply (jexec_reach 0 false true run); [done|vm_compute; reflexivity]. }
  split; [vm_compute; reflexivity|]. intros s' Hr. assert (Hf : forgotten 1 s').
  { eapply forgotten_rtc; [|exact Hr]. split; [vm_compute; reflexivity|]. split; [apply (bool_decide_eq_true_1 (1%nat ∉ signals s)); vm_compute; reflexivity|].
    split; [vm_compute; reflexivity|]. split; [vm_compute; by repeat constructor|].
    intros [|[|k]] p Hp Hne; [by vm_compute in Hp; simplify_eq|done|by vm_compute in Hp]. }
  by destruct Hf.
Qed.
