(* ===== verification/SchedMon.v ===== *)
(** The monitor thread of [src/cc/runtime/sched_v2.c]: waking parked fibers
    whose deadline has passed, evicting workers stuck in one fiber, and the
    deadlock detector.  Each function runs on the one monitor thread and is
    modelled as a whole, on the memory it reads during its call. *)
From S2P Require Import Prelude Sched.

Open Scope Z_scope.
Implicit Types (i j k n : nat).

(** The fields of [struct fiber_v2] the monitor reads; [park_obj] is the
    identity of a channel. *)
Record mon_fiber := MonFiber {
  mf_state : Z;
  park_reason : option string;
  park_obj : option nat;
  deadlock_suppress_depth : Z;
  external_wait_depth : Z;
  park_deadline : Z * Z;
  has_park_deadline : Z }.
#[export] Instance eta_mon_fiber : Eta mon_fiber := λ r,
  MonFiber (mf_state r) (park_reason r) (park_obj r) (deadlock_suppress_depth r) (external_wait_depth r) (park_deadline r) (has_park_deadline r).
Implicit Types (f g : mon_fiber) (l : list mon_fiber).
Definition is_parked f : bool := bool_decide (fiber_v2_state_base (mf_state f) = FIBER_V2_PARKED).

(** * Scope depths *)

Definition UINT32_MAX : Z := 4294967295.
Definition sched_v2_fiber_inc_deadlock_suppress f : mon_fiber :=
  if decide (deadlock_suppress_depth f < UINT32_MAX) then f <| deadlock_suppress_depth ::= λ d, d + 1 |> else f.
Definition sched_v2_fiber_dec_deadlock_suppress f : mon_fiber :=
  if decide (0 < deadlock_suppress_depth f) then f <| deadlock_suppress_depth ::= λ d, d - 1 |> else f.
Definition sched_v2_fiber_inc_external_wait f : mon_fiber :=
  if decide (external_wait_depth f < UINT32_MAX) then f <| external_wait_depth ::= λ d, d + 1 |> else f.
Definition sched_v2_fiber_dec_external_wait f : mon_fiber :=
  if decide (0 < external_wait_depth f) then f <| external_wait_depth ::= λ d, d - 1 |> else f.

(** * Park deadlines *)

Definition wrap_size (z : Z) : Z := z mod 2 ^ 64.
(** [g_v2.all_fibers], in order of allocation (the C list is newest first),
    and [g_v2_park_deadlines]. *)
Record deadlines := Deadlines { all_fibers : list mon_fiber; g_v2_park_deadlines : Z }.
#[export] Instance eta_deadlines : Eta deadlines := λ r, Deadlines (all_fibers r) (g_v2_park_deadlines r).
Implicit Types (d : deadlines).

Definition sched_v2_fiber_set_park_deadline (i : nat) (ts : Z * Z) (d : deadlines) : deadlines :=
  match all_fibers d !! i with
  | None => d
  | Some f =>
      let d' := d <| all_fibers := <[i := f <| park_deadline := ts |> <| has_park_deadline := 1 |>]> (all_fibers d) |> in
      if decide (has_park_deadline f = 0) then d' <| g_v2_park_deadlines ::= λ z, wrap_size (z + 1) |> else d'
  end.
Definition sched_v2_fiber_clear_park_deadline (i : nat) (d : deadlines) : deadlines :=
  match all_fibers d !! i with
  | None => d
  | Some f =>
      let d' := d <| all_fibers := <[i := f <| has_park_deadline := 0 |>]> (all_fibers d) |> in
      if decide (has_park_deadline f = 0) then d' else d' <| g_v2_park_deadlines ::= λ z, wrap_size (z - 1) |>
  end.
(** [fiber_v2_alloc] and [fiber_v2_free] reset a pooled fiber. *)
Definition pooled f : mon_fiber :=
  f <| mf_state := FIBER_V2_IDLE |> <| park_obj := None |> <| deadlock_suppress_depth := 0 |>
    <| external_wait_depth := 0 |> <| has_park_deadline := 0 |>.
Definition reset_pooled (i : nat) (d : deadlines) : deadlines := d <| all_fibers ::= alter pooled i |>.
(** [fiber_v2_alloc] of a new fiber: [calloc] and link into [all_fibers]. *)
Definition link_new (d : deadlines) : deadlines :=
  d <| all_fibers ::= λ l, l ++ [MonFiber 0 None None 0 0 (0, 0) 0] |>.

(** [now < deadline] *)
Definition ts_before (now dl : Z * Z) : bool :=
  bool_decide (now.1 < dl.1) || (bool_decide (now.1 = dl.1) && bool_decide (now.2 < dl.2)).
Definition expired (now : Z * Z) f : bool :=
  negb (bool_decide (has_park_deadline f = 0)) && is_parked f && negb (ts_before now (park_deadline f)).
(** The fibers it signals, by position; the walk is newest first. *)
Fixpoint expired_walk (now : Z * Z) (i : nat) l : list nat :=
  match l with
  | [] => []
  | f :: l' => if expired now f then i :: expired_walk now (S i) l' else expired_walk now (S i) l'
  end.
Definition sched_v2_wake_expired_parkers (now : Z * Z) (d : deadlines) : list nat :=
  if decide (g_v2_park_deadlines d = 0) then [] else reverse (expired_walk now 0 (all_fibers d)).

(** What happens to the deadlines; [OState] is any other change of a fiber. *)
Inductive dl_op := OSet (i : nat) (ts : Z * Z) | OClear (i : nat) | OReset (i : nat) | ONew | OState (i : nat) (z : Z).
Definition dl_step (o : dl_op) (d : deadlines) : deadlines :=
  match o with
  | OSet i ts => sched_v2_fiber_set_park_deadline i ts d
  | OClear i => sched_v2_fiber_clear_park_deadline i d
  | OReset i => reset_pooled i d
  | ONew => link_new d
  | OState i z => d <| all_fibers ::= alter (λ f, f <| mf_state := z |>) i |>
  end.
Definition dl_init : deadlines := Deadlines [] 0.

(** * Eviction of aged workers *)

Definition V2_ORPHAN_SAFETY_CAP : Z := 4096.
Record mon_thread := MonThread { dispatch_epoch : Z; generation : Z; mt_is_idle : Z; mt_wake : Z }.
(** [last_epoch] is [g_v2_sysmon_last_epoch]. *)
Record evict_st := Evict {
  mthreads : list mon_thread;
  last_epoch : list Z;
  orphans_alive : Z;
  orphans_cap_hit : Z;
  evicted_total : Z }.
#[export] Instance eta_evict : Eta evict_st := λ r, Evict (mthreads r) (last_epoch r) (orphans_alive r) (orphans_cap_hit r) (evicted_total r).
Implicit Types (e : evict_st) (w : mon_thread).

Definition sched_v2_sysmon_evict_worker_in_place (i : nat) (e : evict_st) : evict_st :=
  e <| mthreads ::= alter (λ w, MonThread 0 (wrap_size (generation w + 1)) 0 0) i |>
    <| orphans_alive ::= λ z, z + 1 |> <| evicted_total ::= λ z, z + 1 |>.
(** The loop from slot [i], [k] slots left. *)
Fixpoint evict_loop (k i : nat) (budget : Z) (e : evict_st) : option evict_st :=
  match k with
  | O => Some e
  | S k' =>
      w ← mthreads e !! i; prev ← last_epoch e !! i;
      let cur := dispatch_epoch w in
      let e := e <| last_epoch ::= insert i cur |> in
      if decide (budget = 0) then evict_loop k' (S i) budget e
      else if decide (cur = 0) then evict_loop k' (S i) budget e
      else if decide (cur ≠ prev) then evict_loop k' (S i) budget e
      else if decide (V2_ORPHAN_SAFETY_CAP ≤ orphans_alive e) then
        evict_loop k' (S i) budget (e <| orphans_cap_hit ::= λ z, z + 1 |>)
      else
        let e := sched_v2_sysmon_evict_worker_in_place i e in
        evict_loop k' (S i) (budget - 1) (e <| last_epoch ::= insert i 0 |>)
  end.
(** The refresh of the cache when nothing is queued. *)
Fixpoint refresh_loop (k i : nat) (e : evict_st) : option evict_st :=
  match k with
  | O => Some e
  | S k' => w ← mthreads e !! i; refresh_loop k' (S i) (e <| last_epoch ::= insert i (dispatch_epoch w) |>)
  end.
Definition sched_v2_sysmon_evict_aged_workers (detach_enabled : bool) (backlog : Z) (n : nat) (e : evict_st) : option evict_st :=
  if negb detach_enabled then Some e
  else if decide (backlog = 0) then refresh_loop n 0 e
  else evict_loop n 0 backlog e.

(** * The deadlock detector *)

Definition SCHED_V2_DEADLOCK_PERSIST_MS : Z := 1000.
(** What one call sees: the workers' [is_idle] flags, the queue depth, the
    fibers, the threads in an external wait, the open channels, the clock. *)
Record snapshot := Snap {
  sn_idle : list Z;
  sn_ready : Z;
  sn_fibers : list mon_fiber;
  external_wait_threads : Z;
  open_chans : gset nat;
  sn_now : Z }.
Implicit Types (sn : snapshot).
(** [g_v2_deadlock_first_seen] and [g_v2_deadlock_reported] *)
Record latch := Latch { first_seen : Z; reported : Z }.
#[export] Instance eta_latch : Eta latch := λ r, Latch (first_seen r) (reported r).

Definition sched_v2_count_idle_workers sn : Z := zsum (λ z, if decide (z = 0) then 0 else 1) (sn_idle sn).
Definition sched_v2_fiber_is_open_chan_recv_wait (chans : gset nat) f : bool :=
  match park_reason f, park_obj f with
  | Some r, Some o =>
      if decide (r ≠ "chan_recv_wait_empty"%string ∧ r ≠ "chan_recv_wait_rendezvous"%string) then false else bool_decide (o ∈ chans)
  | _, _ => false
  end.
Record parked_counts := Counts { internal_parked : Z; suppressed_parked : Z; external_parked : Z; saw_only_open_recv : bool }.
#[export] Instance eta_counts : Eta parked_counts := λ r, Counts (internal_parked r) (suppressed_parked r) (external_parked r) (saw_only_open_recv r).
Definition classify_one (chans : gset nat) (c : parked_counts) f : parked_counts :=
  if negb (is_parked f) then c
  else if decide (0 < external_wait_depth f) then c <| external_parked ::= λ z, z + 1 |>
  else if decide (0 < deadlock_suppress_depth f) then c <| suppressed_parked ::= λ z, z + 1 |>
  else let c := c <| internal_parked ::= λ z, z + 1 |> in
       if sched_v2_fiber_is_open_chan_recv_wait chans f then c else c <| saw_only_open_recv := false |>.
Definition sched_v2_classify_parked_fibers sn : parked_counts :=
  foldl (classify_one (open_chans sn)) (Counts 0 0 0 true) (sn_fibers sn).
(** Returns whether the verdict is printed (and the process ends, unless
    CC_DEADLOCK_ABORT=0). *)
Definition sched_v2_check_deadlock (initialized : bool) sn (la : latch) : bool * latch :=
  if negb initialized then (false, la)
  else if decide (reported la ≠ 0) then (false, la)
  else
    let n := Z.of_nat (length (sn_idle sn)) in
    if decide (n ≤ 0) then (false, la)
    else if decide (sched_v2_count_idle_workers sn < n ∨ 0 < sn_ready sn) then (false, la <| first_seen := 0 |>)
    else
      let c := sched_v2_classify_parked_fibers sn in
      if decide (internal_parked c = 0) then (false, la <| first_seen := 0 |>)
      else if decide (0 < external_parked c + external_wait_threads sn ∧ saw_only_open_recv c = true) then (false, la <| first_seen := 0 |>)
      else if decide (first_seen la = 0) then (false, la <| first_seen := sn_now sn |>)
      else if decide (wrap_size (sn_now sn - first_seen la) < SCHED_V2_DEADLOCK_PERSIST_MS) then (false, la)
      else (true, la <| reported := 1 |>).
(** The verdicts of successive calls. *)
Fixpoint check_run (la : latch) (sns : list snapshot) : list bool :=
  match sns with
  | [] => []
  | sn :: sns' => let '(v, la') := sched_v2_check_deadlock true sn la in v :: check_run la' sns'
  end.

(** * Lemmas: park deadlines *)

Definition has_flag f : Z := has_park_deadline f.
(** The counter is the number of published deadlines plus those reset by the pool. *)
Definition dl_inv d (k : Z) : Prop :=
  ∃ leaked, 0 ≤ leaked ∧ g_v2_park_deadlines d = zsum has_flag (all_fibers d) + leaked ∧
    g_v2_park_deadlines d ≤ k ∧ Forall (λ f, has_flag f = 0 ∨ has_flag f = 1) (all_fibers d).
Lemma flags_nonneg l : Forall (λ f, has_flag f = 0 ∨ has_flag f = 1) l → 0 ≤ zsum has_flag l.
Proof. induction 1 as [|f l Hf _ IH]; [done|]. rewrite zsum_cons. lia. Qed.
Lemma flags_lookup l i f : Forall (λ f, has_flag f = 0 ∨ has_flag f = 1) l → l !! i = Some f → has_flag f ≤ zsum has_flag l.
Proof.
  intros Hl Hi. rewrite <- (take_drop_middle l i f Hi) in *. apply Forall_app in Hl as [H1 [H2 H3]%Forall_cons].
  rewrite zsum_app, zsum_cons. pose proof (flags_nonneg _ H1). pose proof (flags_nonneg _ H3). lia.
Qed.
Lemma dl_step_inv o d (k : Z) : 0 ≤ k < 2 ^ 64 - 1 → dl_inv d k → dl_inv (dl_step o d) (k + 1).
Proof.
  intros Hk (x & Hx & Hc & Hle & Hf). pose proof (flags_nonneg _ Hf) as Hn. destruct o as [i ts|i|i| |i z]; simpl.
  - unfold sched_v2_fiber_set_park_deadline. destruct (all_fibers d !! i) as [f|] eqn:Hi; [|exists x; split_and!; [done..|lia|done]].
    assert (Hz := zsum_insert has_flag _ i f (f <| park_deadline := ts |> <| has_park_deadline := 1 |>) Hi). change (has_flag (_ <| has_park_deadline := 1 |>)) with 1 in Hz.
    pose proof (Forall_lookup_1 _ _ _ _ Hf Hi) as [H0|H0]; unfold has_flag in H0; rewrite H0 in *; exists x; simpl; unfold wrap_size;
      change (has_flag f) with (has_park_deadline f) in Hz; rewrite ?Z.mod_small by lia; (split_and!; [done|lia|lia|apply Forall_insert; auto]).
  - unfold sched_v2_fiber_clear_park_deadline. destruct (all_fibers d !! i) as [f|] eqn:Hi; [|exists x; split_and!; [done..|lia|done]].
    assert (Hz := zsum_insert has_flag _ i f (f <| has_park_deadline := 0 |>) Hi). change (has_flag (_ <| has_park_deadline := 0 |>)) with 0 in Hz.
    pose proof (flags_lookup _ _ _ Hf Hi). change (has_flag f) with (has_park_deadline f) in *.
    pose proof (Forall_lookup_1 _ _ _ _ Hf Hi) as [H0|H0]; unfold has_flag in H0; rewrite H0 in *; exists x; simpl; unfold wrap_size;
      rewrite ?Z.mod_small by lia; (split_and!; [done|lia|lia|apply Forall_insert; auto]).
  - unfold dl_inv. change (all_fibers (reset_pooled i d)) with (alter pooled i (all_fibers d)).
    change (g_v2_park_deadlines (reset_pooled i d)) with (g_v2_park_deadlines d). destruct (all_fibers d !! i) as [f|] eqn:Hi.
    + pose proof (Forall_lookup_1 _ _ _ _ Hf Hi) as H0; cbv beta in H0. exists (x + has_flag f).
      rewrite (zsum_alter has_flag pooled _ i f Hi). change (has_flag (pooled f)) with 0. split_and!; [lia|lia|lia|].
      apply Forall_alter; [done|]. intros. by left.
    + exists x. rewrite (list_alter_ext pooled id _ (all_fibers d) i), list_alter_id by (done || by rewrite Hi). split_and!; [done..|lia|done].
  - exists x. simpl. rewrite zsum_app, zsum_cons, zsum_nil. change (has_flag (MonFiber _ _ _ _ _ _ _)) with 0.
    split_and!; [done|lia|lia|]. apply Forall_app. split; [done|]. by repeat constructor.
  - exists x. simpl. rewrite zsum_alter_same by done. split_and!; [done..|lia|]. apply Forall_alter; [done|]. by intros.
Qed.
Lemma dl_run_inv ops d (k : Z) : 0 ≤ k → k + Z.of_nat (length ops) < 2 ^ 64 → dl_inv d k →
  dl_inv (foldl (flip dl_step) d ops) (k + Z.of_nat (length ops)).
Proof.
  revert d k. induction ops as [|o ops IH]; intros d k Hk Hlen Hi; [by rewrite Z.add_0_r|]. simpl length in *. rewrite Nat2Z.inj_succ in *.
  replace (k + Z.succ (Z.of_nat (length ops))) with ((k + 1) + Z.of_nat (length ops)) by lia.
  simpl. apply IH; [lia|lia|]. apply dl_step_inv; [lia|done].
Qed.
Lemma expired_walk_in now i j l : j ∈ expired_walk now i l ↔ ∃ f k, j = (i + k)%nat ∧ l !! k = Some f ∧ expired now f = true.
Proof.
  revert i. induction l as [|f l IH]; intros i; simpl.
  { split; [intros H; by apply not_elem_of_nil in H|]. by intros (? & ? & _ & ? & _). }
  assert (H : j ∈ expired_walk now (S i) l ↔ ∃ g k, j = (i + S k)%nat ∧ l !! k = Some g ∧ expired now g = true).
  { rewrite IH. split; intros (g & k & -> & ?); exists g, k; (split; [lia|done]). }
  destruct (expired now f) eqn:Hf; rewrite ?elem_of_cons, H; split.
  - intros [->|(g & k & -> & ?)]; [exists f, 0%nat; split; [lia|done]|by exists g, (S k)].
  - intros (g & [|k] & -> & Hl & Hg); [left; lia|right; by exists g, k].
  - intros (g & k & -> & ?). by exists g, (S k).
  - intros (g & [|k] & -> & Hl & Hg); [simpl in Hl; congruence|by exists g, k].
Qed.
(** [deadline ≤ now] *)
Definition ts_le (dl now : Z * Z) : Prop := dl.1 < now.1 ∨ (dl.1 = now.1 ∧ dl.2 ≤ now.2).
Lemma ts_before_spec now dl : ts_before now dl = false ↔ ts_le dl now.
Proof. unfold ts_before, ts_le. repeat case_bool_decide; simpl; split; try done; lia. Qed.
Lemma expired_spec l i f now :
  Forall (λ f, has_flag f = 0 ∨ has_flag f = 1) l → l !! i = Some f →
  expired now f = true ↔ has_park_deadline f = 1 ∧ is_parked f = true ∧ ts_le (park_deadline f) now.
Proof.
  intros Hl Hi. pose proof (Forall_lookup_1 _ _ _ _ Hl Hi) as Hf. cbv beta in Hf. unfold has_flag in Hf. unfold expired.
  rewrite !andb_true_iff, !negb_true_iff, ts_before_spec, bool_decide_eq_false. destruct Hf as [->| ->]; naive_solver.
Qed.
Lemma expired_walk_nodup now i l : NoDup (expired_walk now i l).
Proof.
  revert i. induction l as [|f l IH]; intros i; simpl; [apply NoDup_nil_2|]. destruct (expired now f); [|done].
  apply NoDup_cons. split; [|done]. rewrite expired_walk_in. intros (g & k & ? & _). lia.
Qed.

(** * Lemmas: eviction *)

(** On the same dispatch as at the previous tick. *)
Definition aged w (prev : Z) : Prop := dispatch_epoch w ≠ 0 ∧ dispatch_epoch w = prev.
#[export] Instance aged_dec w prev : Decision (aged w prev).
Proof. unfold aged. apply _. Defined.
Definition replacement w : mon_thread := MonThread 0 (wrap_size (generation w + 1)) 0 0.
Definition slot_post (budget : Z) e' (ev : list nat) j w prev : Prop :=
  if decide (j ∈ ev) then aged w prev ∧ mthreads e' !! j = Some (replacement w) ∧ last_epoch e' !! j = Some 0
  else mthreads e' !! j = Some w ∧ last_epoch e' !! j = Some (dispatch_epoch w) ∧
       (aged w prev → Z.of_nat (length ev) = budget ∨ V2_ORPHAN_SAFETY_CAP ≤ orphans_alive e').
(** The slots [i] to [i + k] were scanned and those of [ev] evicted. *)
Record evict_post i k (budget : Z) e e' (ev : list nat) : Prop := {
  ep_total : evicted_total e' = evicted_total e + Z.of_nat (length ev);
  ep_orphans : orphans_alive e' = orphans_alive e + Z.of_nat (length ev);
  ep_budget : Z.of_nat (length ev) ≤ budget;
  ep_cap : orphans_alive e' ≤ Z.max (orphans_alive e) V2_ORPHAN_SAFETY_CAP;
  ep_nodup : NoDup ev;
  ep_range : ∀ j, j ∈ ev → (i ≤ j < i + k)%nat;
  ep_out : ∀ j, ¬ (i ≤ j < i + k)%nat → mthreads e' !! j = mthreads e !! j ∧ last_epoch e' !! j = last_epoch e !! j;
  ep_in : ∀ j w prev, (i ≤ j < i + k)%nat → mthreads e !! j = Some w → last_epoch e !! j = Some prev → slot_post budget e' ev j w prev }.
Lemma evict_post_nil i (budget : Z) e : 0 ≤ budget → evict_post i 0 budget e e [].
Proof. intros Hb. split; simpl; try lia; [by apply NoDup_nil_2|intros j H; by apply not_elem_of_nil in H|done]. Qed.
Lemma evict_post_cons i k (budget : Z) e e1 e' ev1 ev :
  evict_post i 1 budget e e1 ev1 → evict_post (S i) k (budget - Z.of_nat (length ev1)) e1 e' ev →
  evict_post i (S k) budget e e' (ev1 ++ ev).
Proof.
  intros H1 H2. pose proof (ep_total _ _ _ _ _ _ H1). pose proof (ep_total _ _ _ _ _ _ H2).
  pose proof (ep_orphans _ _ _ _ _ _ H1). pose proof (ep_orphans _ _ _ _ _ _ H2). pose proof (ep_budget _ _ _ _ _ _ H1) as Hb1.
  pose proof (ep_budget _ _ _ _ _ _ H2) as Hb2. pose proof (ep_cap _ _ _ _ _ _ H1). pose proof (ep_cap _ _ _ _ _ _ H2).
  pose proof (ep_range _ _ _ _ _ _ H1) as Hr1. pose proof (ep_range _ _ _ _ _ _ H2) as Hr2.
  split; rewrite ?length_app, ?Nat2Z.inj_add; try lia.
  - apply NoDup_app. split; [apply H1|]. split; [|apply H2]. intros j Hj1 Hj2. apply Hr1 in Hj1. apply Hr2 in Hj2. lia.
  - intros j [Hj|Hj]%elem_of_app; [apply Hr1 in Hj; lia|apply Hr2 in Hj; lia].
  - intros j Hj. destruct (ep_out _ _ _ _ _ _ H2 j) as [-> ->]; [lia|]. apply (ep_out _ _ _ _ _ _ H1). lia.
  - intros j w prev Hj Hw Hp. unfold slot_post. rewrite length_app, Nat2Z.inj_add. destruct (decide (j = i)) as [->|Hne].
    + pose proof (ep_in _ _ _ _ _ _ H1 i w prev ltac:(lia) Hw Hp) as Hs. unfold slot_post in Hs.
      destruct (ep_out _ _ _ _ _ _ H2 i) as [-> ->]; [lia|]. assert (Hni : i ∉ ev) by (intros Hx; apply Hr2 in Hx; lia).
      destruct (decide (i ∈ ev1)) as [Hi|Hi]; [rewrite decide_True by set_solver; done|].
      rewrite decide_False by set_solver. destruct Hs as (Hs1 & Hs2 & Hs3). split; [done|]. split; [done|]. intros Ha.
      destruct (Hs3 Ha); [left; lia|right; lia].
    + destruct (ep_out _ _ _ _ _ _ H1 j) as [Ew Ep]; [lia|]. rewrite <- Ew in Hw. rewrite <- Ep in Hp.
      pose proof (ep_in _ _ _ _ _ _ H2 j w prev ltac:(lia) Hw Hp) as Hs. unfold slot_post in Hs.
      assert (Hni : j ∉ ev1) by (intros Hx; apply Hr1 in Hx; lia).
      destruct (decide (j ∈ ev)) as [Hj'|Hj']; [rewrite decide_True by set_solver; done|].
      rewrite decide_False by set_solver. destruct Hs as (Hs1 & Hs2 & Hs3). split; [done|]. split; [done|]. intros Ha.
      destruct (Hs3 Ha); [left; lia|by right].
Qed.
(** One slot kept, and one slot evicted. *)
Lemma evict_keep i (budget : Z) e e1 w prev :
  0 ≤ budget → mthreads e !! i = Some w → last_epoch e !! i = Some prev →
  mthreads e1 = mthreads e → last_epoch e1 = <[i := dispatch_epoch w]> (last_epoch e) → orphans_alive e1 = orphans_alive e →
  evicted_total e1 = evicted_total e → (aged w prev → budget = 0 ∨ V2_ORPHAN_SAFETY_CAP ≤ orphans_alive e) → evict_post i 1 budget e e1 [].
Proof.
  intros Hb Hw Hp E1 E2 E3 E4 Ha. split; simpl; try lia; [by apply NoDup_nil_2|intros j H; by apply not_elem_of_nil in H| |].
  - intros j Hj. rewrite E1, E2, list_lookup_insert_ne by lia. done.
  - intros j w' prev' Hj Hw' Hp'. assert (j = i) as -> by lia. assert (w' = w) as -> by congruence. assert (prev' = prev) as -> by congruence.
    unfold slot_post. rewrite decide_False by apply not_elem_of_nil. rewrite E1, E2, list_lookup_insert_eq by (by eapply lookup_lt_Some).
    split; [done|]. split; [done|]. intros Hag. simpl. rewrite E3. destruct (Ha Hag); auto.
Qed.
Lemma evict_one i (budget : Z) e w prev :
  0 < budget → mthreads e !! i = Some w → last_epoch e !! i = Some prev → aged w prev → orphans_alive e < V2_ORPHAN_SAFETY_CAP →
  evict_post i 1 budget e (sched_v2_sysmon_evict_worker_in_place i (e <| last_epoch ::= insert i (dispatch_epoch w) |>) <| last_epoch ::= insert i 0 |>) [i].
Proof.
  intros Hb Hw Hp Ha Hc. split; simpl; try lia; [apply NoDup_singleton|intros j ->%list_elem_of_singleton; lia| |].
  - intros j Hj. rewrite list_lookup_alter_ne, !list_lookup_insert_ne by lia. done.
  - intros j w' prev' Hj Hw' Hp'. assert (j = i) as -> by lia. assert (w' = w) as -> by congruence. assert (prev' = prev) as -> by congruence.
    unfold slot_post. rewrite decide_True by (by apply list_elem_of_singleton). simpl. rewrite list_lookup_alter_eq, Hw.
    rewrite list_lookup_insert_eq by (rewrite length_insert; by eapply lookup_lt_Some). done.
Qed.
Lemma evict_loop_spec k i (budget : Z) e :
  0 ≤ budget → (i + k ≤ length (mthreads e))%nat → (i + k ≤ length (last_epoch e))%nat →
  ∃ e' ev, evict_loop k i budget e = Some e' ∧ evict_post i k budget e e' ev.
Proof.
  revert i budget e. induction k as [|k IH]; intros i budget e Hb Hl1 Hl2; [exists e, []; split; [done|by apply evict_post_nil]|].
  destruct (lookup_lt_is_Some_2 (mthreads e) i) as [w Hw]; [lia|]. destruct (lookup_lt_is_Some_2 (last_epoch e) i) as [prev Hp]; [lia|].
  assert (Hgo : ∀ e1 ev1, evict_post i 1 budget e e1 ev1 → length (mthreads e1) = length (mthreads e) → length (last_epoch e1) = length (last_epoch e) →
    ∃ e' ev, evict_loop k (S i) (budget - Z.of_nat (length ev1)) e1 = Some e' ∧ evict_post i (S k) budget e e' ev).
  { intros e1 ev1 H1 E1 E2. pose proof (ep_budget _ _ _ _ _ _ H1).
    destruct (IH (S i) (budget - Z.of_nat (length ev1)) e1) as (e' & ev & He & H2); [lia..|].
    exists e', (ev1 ++ ev). split; [done|]. by eapply evict_post_cons. }
  simpl. rewrite Hw. simpl. rewrite Hp. simpl.
  assert (Hkeep : ∀ e1, mthreads e1 = mthreads e → last_epoch e1 = <[i := dispatch_epoch w]> (last_epoch e) → orphans_alive e1 = orphans_alive e →
    evicted_total e1 = evicted_total e → (aged w prev → budget = 0 ∨ V2_ORPHAN_SAFETY_CAP ≤ orphans_alive e) →
    ∃ e' ev, evict_loop k (S i) budget e1 = Some e' ∧ evict_post i (S k) budget e e' ev).
  { intros e1 E1 E2 E3 E4 Ha. destruct (Hgo e1 []) as (e' & ev & He & H2); [by eapply evict_keep|by rewrite E1|by rewrite E2, length_insert|].
    exists e', ev. split; [|done]. rewrite <- He. f_equal. simpl. lia. }
  case_decide as Hb0; [apply Hkeep; try done; auto|]. case_decide as Hc0; [apply Hkeep; try done; by intros [? ?]|].
  case_decide as Hcp; [apply Hkeep; try done; by intros [? ?]|].
  case_decide as Hcap; [apply Hkeep; try done; intros _; by right|].
  destruct (Hgo _ [i] (evict_one i budget e w prev ltac:(lia) Hw Hp ltac:(split; [done|lia]) ltac:(simpl in *; lia))) as (e' & ev & He & H2);
    [by simpl; rewrite length_alter|by simpl; rewrite !length_insert|]. by exists e', ev.
Qed.
Lemma refresh_loop_spec k i e :
  (i + k ≤ length (mthreads e))%nat → (i + k ≤ length (last_epoch e))%nat →
  ∃ e', refresh_loop k i e = Some e' ∧ evict_post i k 0 e e' [].
Proof.
  revert i e. induction k as [|k IH]; intros i e Hl1 Hl2; [exists e; split; [done|by apply evict_post_nil]|].
  destruct (lookup_lt_is_Some_2 (mthreads e) i) as [w Hw]; [lia|]. destruct (lookup_lt_is_Some_2 (last_epoch e) i) as [prev Hp]; [lia|].
  simpl. rewrite Hw. simpl. destruct (IH (S i) (e <| last_epoch ::= insert i (dispatch_epoch w) |>)) as (e' & He & H2);
    [simpl; lia|simpl; rewrite length_insert; lia|]. exists e'. split; [done|].
  apply (evict_post_cons i k 0 e (e <| last_epoch ::= insert i (dispatch_epoch w) |>) e' [] []); [|done].
  eapply evict_keep; try done. by left.
Qed.
Lemma evict_aged_spec (backlog : Z) n e :
  0 ≤ backlog → (n ≤ length (mthreads e))%nat → (n ≤ length (last_epoch e))%nat →
  ∃ e' ev, sched_v2_sysmon_evict_aged_workers true backlog n e = Some e' ∧ evict_post 0 n backlog e e' ev.
Proof.
  intros Hb H1 H2. unfold sched_v2_sysmon_evict_aged_workers. simpl. case_decide as E; [subst|by apply evict_loop_spec].
  destruct (refresh_loop_spec n 0 e) as (e' & He & Hp); [done..|]. by exists e', [].
Qed.

(** * Lemmas: the deadlock detector *)

Definition internal f : Prop := is_parked f = true ∧ external_wait_depth f ≤ 0 ∧ deadlock_suppress_depth f ≤ 0.
Definition external f : Prop := is_parked f = true ∧ 0 < external_wait_depth f.
(** Nothing runs, nothing is queued, some fiber is parked for an internal
    reason, and no external source can be expected to feed the receivers. *)
Definition stalled sn : Prop :=
  (∀ z, z ∈ sn_idle sn → z ≠ 0) ∧ sn_ready sn ≤ 0 ∧ (∃ f, f ∈ sn_fibers sn ∧ internal f) ∧
  ¬ ((0 < external_wait_threads sn ∨ ∃ f, f ∈ sn_fibers sn ∧ external f) ∧
     ∀ f, f ∈ sn_fibers sn → internal f → sched_v2_fiber_is_open_chan_recv_wait (open_chans sn) f = true).
Lemma count_idle_all (l : list Z) : (∀ z : Z, z ∈ l → z ≠ 0) ↔ ¬ zsum (λ z, if decide (z = 0) then 0 else 1) l < Z.of_nat (length l).
Proof.
  assert (Hle : ∀ l : list Z, zsum (λ z, if decide (z = 0) then 0 else 1) l ≤ Z.of_nat (length l)).
  { intros l'. induction l' as [|z l' IH]; [done|]. rewrite zsum_cons. simpl length. case_decide; lia. }
  induction l as [|z l IH]; [split; [intros _; simpl; lia|by intros _ z Hz%not_elem_of_nil]|].
  rewrite zsum_cons. simpl length. specialize (Hle l). split.
  - intros Hz. rewrite decide_False by (apply Hz; left). destruct IH as [IH _]. enough (¬ zsum (λ z, if decide (z = 0) then 0 else 1) l < Z.of_nat (length l)) by lia.
    apply IH. intros z' Hz'. apply Hz. by right.
  - case_decide; [lia|]. intros Hn z' [->|Hz']%elem_of_cons; [done|]. apply IH; [lia|done].
Qed.
Lemma zsum_b2z_pos {A} (b : A → bool) (l : list A) : 0 < zsum (λ x, Z.b2z (b x)) l ↔ ∃ x, x ∈ l ∧ b x = true.
Proof.
  assert (Hn : ∀ x, 0 ≤ Z.b2z (b x)) by (intros x; destruct (b x); simpl; lia). split.
  - intros Hp. destruct (zsum_pos _ l Hn Hp) as (i & x & Hi & Hx). exists x. split; [by eapply list_elem_of_lookup_2|].
    by destruct (b x); simpl in Hx; [|lia].
  - intros (x & [i Hi]%list_elem_of_lookup_1 & Hx). pose proof (zsum_lookup _ l i x Hn Hi) as H. cbv beta in H. rewrite Hx in H. simpl in H. lia.
Qed.
Lemma zsum_b2z_nonneg {A} (b : A → bool) (l : list A) : 0 ≤ zsum (λ x, Z.b2z (b x)) l.
Proof. apply zsum_nonneg. intros x. destruct (b x); simpl; lia. Qed.
Definition external_b f : bool := is_parked f && bool_decide (0 < external_wait_depth f).
Definition internal_b f : bool := is_parked f && negb (bool_decide (0 < external_wait_depth f)) && negb (bool_decide (0 < deadlock_suppress_depth f)).
Lemma external_b_spec f : external_b f = true ↔ external f.
Proof. unfold external_b, external. by rewrite andb_true_iff, bool_decide_eq_true. Qed.
Lemma internal_b_spec f : internal_b f = true ↔ internal f.
Proof.
  unfold internal_b, internal. rewrite !andb_true_iff, !negb_true_iff, !bool_decide_eq_false, !Z.nlt_ge. tauto.
Qed.
Lemma classify_counts chans l c :
  let c' := foldl (classify_one chans) c l in
  internal_parked c' = internal_parked c + zsum (λ f, Z.b2z (internal_b f)) l ∧
  external_parked c' = external_parked c + zsum (λ f, Z.b2z (external_b f)) l ∧
  saw_only_open_recv c' = saw_only_open_recv c && forallb (λ f, implb (internal_b f) (sched_v2_fiber_is_open_chan_recv_wait chans f)) l.
Proof.
  revert c. induction l as [|f l IH]; intros c; cbn [foldl forallb]; cbv zeta; [rewrite !zsum_nil, andb_true_r; split_and!; lia || done|].
  destruct (IH (classify_one chans c f)) as (-> & -> & ->). rewrite !zsum_cons. clear IH.
  unfold classify_one, internal_b, external_b. destruct (is_parked f); simpl; [|split_and!; lia || done].
  destruct (decide (0 < external_wait_depth f)) as [H1|H1]; [rewrite !bool_decide_true by done; simpl; split_and!; lia || done|rewrite !(bool_decide_false (0 < external_wait_depth f)) by done; simpl].
  destruct (decide (0 < deadlock_suppress_depth f)) as [H2|H2]; [rewrite bool_decide_true by done; simpl; split_and!; lia || done|rewrite bool_decide_false by done; simpl].
  destruct (sched_v2_fiber_is_open_chan_recv_wait chans f); simpl; [split_and!; lia || done|]. rewrite andb_false_r. split_and!; lia || done.
Qed.
Lemma classify_spec sn :
  let c := sched_v2_classify_parked_fibers sn in
  (internal_parked c = 0 ↔ ¬ ∃ f, f ∈ sn_fibers sn ∧ internal f) ∧
  0 ≤ external_parked c ∧ (0 < external_parked c ↔ ∃ f, f ∈ sn_fibers sn ∧ external f) ∧
  (saw_only_open_recv c = true ↔
     ∀ f, f ∈ sn_fibers sn → internal f → sched_v2_fiber_is_open_chan_recv_wait (open_chans sn) f = true).
Proof.
  destruct (classify_counts (open_chans sn) (sn_fibers sn) (Counts 0 0 0 true)) as (E1 & E2 & E3). simpl in *.
  unfold sched_v2_classify_parked_fibers. rewrite E1, E2, E3. clear E1 E2 E3.
  pose proof (zsum_b2z_pos internal_b (sn_fibers sn)) as Hi. pose proof (zsum_b2z_nonneg internal_b (sn_fibers sn)).
  pose proof (zsum_b2z_pos external_b (sn_fibers sn)) as He. pose proof (zsum_b2z_nonneg external_b (sn_fibers sn)).
  setoid_rewrite internal_b_spec in Hi. setoid_rewrite external_b_spec in He. rewrite <- Hi, <- He. split_and!; [lia|lia|lia|].
  rewrite forallb_forall. setoid_rewrite <- list_elem_of_In. split; intros Hf f Hin.
  - rewrite <- internal_b_spec. specialize (Hf f Hin). by destruct (internal_b f).
  - specialize (Hf f Hin). rewrite <- internal_b_spec in Hf. destruct (internal_b f); [by apply Hf|done].
Qed.
#[export] Instance exists_in_dec {A} (P : A → Prop) `{!∀ x, Decision (P x)} (l : list A) : Decision (∃ x, x ∈ l ∧ P x).
Proof. refine (cast_if (decide (Exists P l))); by rewrite <- Exists_exists. Defined.
#[export] Instance forall_in_dec {A} (P : A → Prop) `{!∀ x, Decision (P x)} (l : list A) : Decision (∀ x, x ∈ l → P x).
Proof. refine (cast_if (decide (Forall P l))); by rewrite <- Forall_forall. Defined.
#[export] Instance internal_dec f : Decision (internal f).
Proof. unfold internal. apply _. Defined.
#[export] Instance external_dec f : Decision (external f).
Proof. unfold external. apply _. Defined.
#[export] Instance stalled_dec sn : Decision (stalled sn).
Proof. unfold stalled. apply _. Defined.
(** One call, with the verdict not yet given. *)
Lemma check_stalled sn (la : latch) :
  reported la = 0 → sn_idle sn ≠ [] → 0 ≤ external_wait_threads sn → stalled sn →
  sched_v2_check_deadlock true sn la =
    if decide (first_seen la = 0) then (false, la <| first_seen := sn_now sn |>)
    else if decide (wrap_size (sn_now sn - first_seen la) < SCHED_V2_DEADLOCK_PERSIST_MS) then (false, la)
    else (true, la <| reported := 1 |>).
Proof.
  intros Hr Hn Hx (H1 & H2 & H3 & H4). destruct (classify_spec sn) as (C1 & C2 & C3 & C4). unfold sched_v2_check_deadlock. simpl.
  rewrite decide_False by lia. rewrite decide_False by (destruct (sn_idle sn); simpl; [done|lia]).
  apply count_idle_all in H1. rewrite decide_False by (unfold sched_v2_count_idle_workers; lia).
  rewrite decide_False by (by rewrite C1; intros H; apply H). rewrite decide_False; [done|].
  intros [Hs Ho]. apply H4. split; [|by apply C4].
  destruct (decide (0 < external_wait_threads sn)); [by left|right]. apply C3. lia.
Qed.
Lemma check_not_stalled sn (la : latch) :
  reported la = 0 → sn_idle sn ≠ [] → 0 ≤ external_wait_threads sn → ¬ stalled sn →
  sched_v2_check_deadlock true sn la = (false, la <| first_seen := 0 |>).
Proof.
  intros Hr Hn Hx Hs. destruct (classify_spec sn) as (C1 & C2 & C3 & C4). unfold sched_v2_check_deadlock. simpl.
  rewrite decide_False by lia. rewrite decide_False by (destruct (sn_idle sn); simpl; [done|lia]).
  case_decide as D1; [done|]. case_decide as D2; [done|]. case_decide as D3; [done|]. exfalso. apply Hs. split_and!.
  - apply count_idle_all. unfold sched_v2_count_idle_workers in D1. lia.
  - lia.
  - rewrite C1 in D2. by apply dec_stable in D2.
  - intros [Ho Hall]. apply D3. split; [|by apply C4]. destruct Ho as [?|He]; [lia|]. apply C3 in He. lia.
Qed.

(** ** Successive calls *)

Definition sane sn : Prop := sn_idle sn ≠ [] ∧ 0 ≤ external_wait_threads sn ∧ 0 < sn_now sn < 2 ^ 64.
Definition ordered (sns : list snapshot) : Prop :=
  ∀ i j a b, (i ≤ j)%nat → sns !! i = Some a → sns !! j = Some b → sn_now a ≤ sn_now b.
Definition all_stalled (sns : list snapshot) i k : Prop := ∀ j c, (i ≤ j ≤ k)%nat → sns !! j = Some c → stalled c.
(** The stall was seen at time [F] before these calls, or first at call [i]. *)
Definition persisted (F : Z) (sns : list snapshot) k : Prop :=
  ∃ b, sns !! k = Some b ∧
    ((F ≠ 0 ∧ F + SCHED_V2_DEADLOCK_PERSIST_MS ≤ sn_now b ∧ all_stalled sns 0 k) ∨
     ∃ i a, (i ≤ k)%nat ∧ sns !! i = Some a ∧ sn_now a + SCHED_V2_DEADLOCK_PERSIST_MS ≤ sn_now b ∧ all_stalled sns i k).
Lemma check_reported sns (la : latch) k : reported la ≠ 0 → check_run la sns !! k ≠ Some true.
Proof.
  intros Hr. revert k. induction sns as [|sn sns IH]; intros k; [done|]. simpl. unfold sched_v2_check_deadlock. simpl.
  rewrite decide_True by done. by destruct k as [|k]; [|apply IH].
Qed.
Lemma all_stalled_shift sn sns i k : all_stalled (sn :: sns) (S i) (S k) ↔ all_stalled sns i k.
Proof. split; intros H j c Hj Hc; [apply (H (S j)); [lia|done]|]. destruct j as [|j]; [lia|]. apply (H j); [lia|done]. Qed.
Lemma all_stalled_cons sn sns k : all_stalled (sn :: sns) 0 (S k) ↔ stalled sn ∧ all_stalled sns 0 k.
Proof.
  rewrite <- (all_stalled_shift sn sns 0 k). split.
  - intros H. split; [apply (H 0%nat sn); [lia|done]|]. intros j c Hj. apply H. lia.
  - intros [H1 H2] j c Hj Hc. destruct j as [|j]; [by simplify_eq/=|]. apply (H2 (S j)); [lia|done].
Qed.
Lemma persisted_0 F sn sns : F ≤ sn_now sn →
  persisted F (sn :: sns) 0 ↔ stalled sn ∧ F ≠ 0 ∧ F + SCHED_V2_DEADLOCK_PERSIST_MS ≤ sn_now sn.
Proof.
  intros HF. unfold SCHED_V2_DEADLOCK_PERSIST_MS. split.
  - intros (b & [= <-] & [(H1 & H2 & H3)|(i & a & Hi & Ha & H2 & H3)]).
    + split_and!; [|done|done]. by apply (H3 0%nat).
    + assert (i = 0%nat) as -> by lia. injection Ha as <-. unfold SCHED_V2_DEADLOCK_PERSIST_MS in H2. lia.
  - intros (H1 & H2 & H3). exists sn. split; [done|]. left. split_and!; [done..|]. intros j c Hj Hc. assert (j = 0%nat) as -> by lia. by injection Hc as <-.
Qed.
(** The first call changes the time the stall was first seen from [F] to [F']. *)
Lemma persisted_S F F' sn sns k :
  (∀ b, sns !! k = Some b → (stalled sn → F' = (if decide (F = 0) then sn_now sn else F)) ∧ (¬ stalled sn → F' = 0)) →
  F ≤ sn_now sn → 0 < sn_now sn → persisted F (sn :: sns) (S k) ↔ persisted F' sns k.
Proof.
  intros HF' HF Hpos. split.
  - intros (b & Hb & H). destruct (HF' b Hb) as [H1 H2]. exists b. split; [done|].
    destruct H as [(A1 & A2 & [A3 A4]%all_stalled_cons)|(i & a & Hi & Ha & A2 & A3)].
    + left. rewrite (H1 A3), decide_False by done. done.
    + destruct i as [|i]; [|right; exists i, a; rewrite all_stalled_shift in A3; split_and!; [lia|done..]].
      injection Ha as <-. apply all_stalled_cons in A3 as [A3 A4]. left. rewrite (H1 A3). case_decide; split_and!; try done; unfold SCHED_V2_DEADLOCK_PERSIST_MS in *; lia.
  - intros (b & Hb & H). destruct (HF' b Hb) as [H1 H2]. exists b. split; [done|].
    destruct H as [(A1 & A2 & A3)|(i & a & Hi & Ha & A2 & A3)].
    + destruct (decide (stalled sn)) as [Hs|Hs]; [|by specialize (H2 Hs)]. rewrite (H1 Hs) in A1, A2. case_decide as HF0.
      * right. exists 0%nat, sn. split_and!; [lia|done|done|]. by apply all_stalled_cons.
      * left. split_and!; [done..|]. by apply all_stalled_cons.
    + right. exists (S i), a. rewrite all_stalled_shift. split_and!; [lia|done..].
Qed.
Lemma check_run_spec sns (la : latch) k :
  Forall sane sns → ordered sns → reported la = 0 → 0 ≤ first_seen la → (∀ i a, sns !! i = Some a → first_seen la ≤ sn_now a) →
  check_run la sns !! k = Some true ↔
    persisted (first_seen la) sns k ∧ ∀ k', (k' < k)%nat → check_run la sns !! k' ≠ Some true.
Proof.
  revert la k. induction sns as [|sn sns IH]; intros la k Hsane Hord Hr HF0 HF; [by split; [|intros [(b & ? & _) _]]|].
  apply Forall_cons in Hsane as [(Hn & Hx & Hnow) Hsane]. pose proof (HF 0%nat sn eq_refl) as HFn.
  assert (Hord' : ordered sns) by (intros i j a b Hij Ha Hb; by apply (Hord (S i) (S j)); [lia|..]).
  assert (Hnext : ∀ F', F' = sn_now sn ∨ F' = first_seen la ∨ F' = 0 → 0 ≤ F' ∧ ∀ i a, sns !! i = Some a → F' ≤ sn_now a).
  { intros F' H. split; [lia|]. intros i a Ha. pose proof (Hord 0%nat (S i) sn a ltac:(lia) eq_refl Ha). pose proof (HF (S i) a Ha). lia. }
  assert (Hgo : ∀ F', F' = sn_now sn ∨ F' = first_seen la ∨ F' = 0 →
    ((stalled sn → F' = (if decide (first_seen la = 0) then sn_now sn else first_seen la)) ∧ (¬ stalled sn → F' = 0)) →
    sched_v2_check_deadlock true sn la = (false, Latch F' 0) → ¬ persisted (first_seen la) (sn :: sns) 0 →
    check_run la (sn :: sns) !! k = Some true ↔
      persisted (first_seen la) (sn :: sns) k ∧ ∀ k', (k' < k)%nat → check_run la (sn :: sns) !! k' ≠ Some true).
  { intros F' HF' Hst Hc H0. simpl. rewrite Hc. destruct (Hnext F' HF') as [N1 N2]. destruct k as [|k]; simpl; [by split; [|intros [? _]]|].
    rewrite (persisted_S (first_seen la) F') by (done || lia). rewrite (IH (Latch F' 0)) by done. simpl. split; intros [H1 H2]; (split; [done|]).
    - intros [|k'] Hk'; [done|]. apply H2. lia.
    - intros k' Hk'. apply (H2 (S k')). lia. }
  destruct la as [F R]. simpl in *. subst R. destruct (decide (stalled sn)) as [Hs|Hs].
  - pose proof (check_stalled sn (Latch F 0) eq_refl Hn Hx Hs) as Hc. simpl in Hc. destruct (decide (F = 0)) as [->|HF1].
    + apply (Hgo (sn_now sn)); [by left|done|done|]. by rewrite persisted_0 by lia; intros (_ & ? & _).
    + unfold wrap_size in Hc. rewrite Z.mod_small in Hc by lia. case_decide as Hlt.
      * apply (Hgo F); [auto|done|done|]. rewrite persisted_0 by lia. intros (_ & _ & ?). lia.
      * assert (H0 : persisted F (sn :: sns) 0) by (apply persisted_0; [lia|]; split_and!; [done|done|lia]).
        simpl. rewrite Hc. destruct k as [|k]; simpl; [split; [|done]; split; [done|lia]|]. split; [intros H; by apply check_reported in H|].
        intros [_ H]. exfalso. by apply (H 0%nat); [lia|].
  - apply (Hgo 0); [auto|done|by apply check_not_stalled|]. rewrite persisted_0 by lia. by intros (? & _).
Qed.

(** * Properties *)

(** A parked fiber whose deadline has passed is woken by the next monitor
    tick, and no other fiber is: after any sequence of fewer than 2^64
    operations on the deadlines, pool resets included, the tick signals exactly
    the parked fibers with a published deadline that is not after the clock,
    each once.  The counter that lets the tick skip the walk is never zero
    while a deadline is published, though the pool resets drift it upward. *)
Theorem expired_parkers_woken ops (now : Z * Z) :
  Z.of_nat (length ops) < 2 ^ 64 →
  let d := foldl (flip dl_step) dl_init ops in
  NoDup (sched_v2_wake_expired_parkers now d) ∧
  ∀ i, i ∈ sched_v2_wake_expired_parkers now d ↔
    ∃ f, all_fibers d !! i = Some f ∧ has_park_deadline f = 1 ∧ is_parked f = true ∧ ts_le (park_deadline f) now.
Proof.
  intros Hlen d. destruct (dl_run_inv ops dl_init 0) as (x & Hx & Hc & _ & Hf); [lia|lia|by exists 0; split_and!; try done; constructor|].
  fold d in Hc, Hf. split.
  - unfold sched_v2_wake_expired_parkers. case_decide; [apply NoDup_nil_2|]. rewrite reverse_Permutation. apply expired_walk_nodup.
  - intros i. assert (Hiff : i ∈ expired_walk now 0 (all_fibers d) ↔ ∃ f, all_fibers d !! i = Some f ∧ has_park_deadline f = 1 ∧ is_parked f = true ∧ ts_le (park_deadline f) now).
    { rewrite expired_walk_in. split.
      - intros (f & k & -> & Hk & He). exists f. split; [done|]. by apply (expired_spec _ _ _ _ Hf Hk).
      - intros (f & Hi & He). exists f, i. split; [lia|]. split; [done|]. by apply (expired_spec _ _ _ _ Hf Hi). }
    unfold sched_v2_wake_expired_parkers. case_decide as E; [|by rewrite elem_of_reverse].
    split; [intros H; by apply not_elem_of_nil in H|]. intros (f & Hi & H1 & _). exfalso.
    pose proof (flags_lookup _ _ _ Hf Hi) as Hle. unfold has_flag at 1 in Hle. lia.
Qed.
(** A deadline at 5 s is published and the fiber parks; a reset of another
    fiber leaves the counter one too high. *)
Definition dl_demo : list dl_op := [ONew; ONew; OSet 0 (5, 0); OSet 1 (9, 0); OState 0 3; OReset 1].
Lemma expired_parkers_woken_witness :
  NoDup (sched_v2_wake_expired_parkers (6, 0) (foldl (flip dl_step) dl_init dl_demo)) ∧
  sched_v2_wake_expired_parkers (6, 0) (foldl (flip dl_step) dl_init dl_demo) = [0%nat] ∧
  g_v2_park_deadlines (foldl (flip dl_step) dl_init dl_demo) = 2.
Proof.
  split; [|split; vm_compute; reflexivity]. apply (expired_parkers_woken dl_demo (6, 0)). vm_compute. reflexivity.
Defined.

(** A monitor tick evicts workers within its budget: at most as many as
    there are queued fibers, the number of orphaned threads never rises above
    the safety cap, and a slot is replaced only when its worker is on the same
    dispatch as at the previous tick; every other slot is left as it was and
    its epoch is remembered for the next tick.  A worker that old is passed
    over only when the budget is used up or the cap is reached. *)
Theorem evict_within_budget (backlog : Z) n e :
  0 ≤ backlog → (n ≤ length (mthreads e))%nat → (n ≤ length (last_epoch e))%nat →
  ∃ e' ev, sched_v2_sysmon_evict_aged_workers true backlog n e = Some e' ∧
    NoDup ev ∧ Z.of_nat (length ev) ≤ backlog ∧
    orphans_alive e' = orphans_alive e + Z.of_nat (length ev) ∧
    orphans_alive e' ≤ Z.max (orphans_alive e) V2_ORPHAN_SAFETY_CAP ∧
    ∀ j w prev, (j < n)%nat → mthreads e !! j = Some w → last_epoch e !! j = Some prev → slot_post backlog e' ev j w prev.
Proof.
  intros Hb H1 H2. destruct (evict_aged_spec backlog n e Hb H1 H2) as (e' & ev & He & Hp). exists e', ev.
  split; [done|]. split; [apply Hp|]. split; [apply Hp|]. split; [apply Hp|]. split; [apply Hp|].
  intros j w prev Hj. apply (ep_in _ _ _ _ _ _ Hp). lia.
Qed.
Definition evict_demo : evict_st := Evict [MonThread 7 0 0 0; MonThread 4 0 0 0; MonThread 9 2 0 5] [7; 3; 9] 0 0 0.
Lemma evict_within_budget_witness :
  ∃ e' ev, sched_v2_sysmon_evict_aged_workers true 1 3 evict_demo = Some e' ∧
    NoDup ev ∧ Z.of_nat (length ev) ≤ 1 ∧
    orphans_alive e' = orphans_alive evict_demo + Z.of_nat (length ev) ∧
    orphans_alive e' ≤ Z.max (orphans_alive evict_demo) V2_ORPHAN_SAFETY_CAP ∧
    ∀ j w prev, (j < 3)%nat → mthreads evict_demo !! j = Some w → last_epoch evict_demo !! j = Some prev → slot_post 1 e' ev j w prev.
Proof. apply (evict_within_budget 1 3 evict_demo); [lia|simpl; lia|simpl; lia]. Defined.

(** C13: The deadlock verdict is exact: over any run of monitor ticks with a
    monotone clock, the verdict is given at a tick if and only if every tick
    since some tick at least a second earlier saw the program stalled (all
    workers idle, nothing queued, a fiber parked outside any suppressed or
    external wait, and not every such fiber a receiver on an open channel that
    an external wait may feed), and it is given once. *)
Theorem deadlock_verdict_iff_stalled sns k :
  Forall sane sns → ordered sns →
  check_run (Latch 0 0) sns !! k = Some true ↔
    (∃ i a b, (i ≤ k)%nat ∧ sns !! i = Some a ∧ sns !! k = Some b ∧ sn_now a + SCHED_V2_DEADLOCK_PERSIST_MS ≤ sn_now b ∧
       ∀ j c, (i ≤ j ≤ k)%nat → sns !! j = Some c → stalled c) ∧
    ∀ k', (k' < k)%nat → check_run (Latch 0 0) sns !! k' ≠ Some true.
Proof.
  intros Hs Ho. rewrite (check_run_spec sns (Latch 0 0) k) by (done || simpl; intros i a Ha; rewrite Forall_lookup in Hs; destruct (Hs i a Ha); lia).
  simpl. apply and_iff_compat_r. split.
  - intros (b & Hb & [(? & _)|(i & a & Hi & Ha & H1 & H2)]); [done|]. by exists i, a, b.
  - intros (i & a & b & Hi & Ha & Hb & H1 & H2). exists b. split; [done|]. right. by exists i, a.
Qed.
(** A fiber parked with a deadline twenty seconds away, everything else idle. *)
Definition timed_snap (t : Z) : snapshot :=
  Snap [1; 1] 0 [MonFiber FIBER_V2_PARKED (Some "chan_recv_wait_empty"%string) (Some 4%nat) 0 0 (20, 0) 1] 0 {[4%nat]} t.
Lemma deadlock_verdict_iff_stalled_witness :
  check_run (Latch 0 0) [timed_snap 100; timed_snap 1200] !! 1%nat = Some true ∧
  ((∃ i a b, (i ≤ 1)%nat ∧ [timed_snap 100; timed_snap 1200] !! i = Some a ∧ [timed_snap 100; timed_snap 1200] !! 1%nat = Some b ∧
      sn_now a + SCHED_V2_DEADLOCK_PERSIST_MS ≤ sn_now b ∧
      ∀ j c, (i ≤ j ≤ 1)%nat → [timed_snap 100; timed_snap 1200] !! j = Some c → stalled c) ∧
   ∀ k', (k' < 1)%nat → check_run (Latch 0 0) [timed_snap 100; timed_snap 1200] !! k' ≠ Some true).
Proof.
  split; [vm_compute; reflexivity|]. apply (deadlock_verdict_iff_stalled [timed_snap 100; timed_snap 1200] 1).
  - repeat (apply Forall_cons; split; [unfold sane; simpl; split_and!; try discriminate; lia|]). apply Forall_nil_2.
  - intros [|[|i]] [|[|j]] a b Hij Ha Hb; simpl in Ha, Hb; simplify_eq; simpl; lia.
  - vm_compute. reflexivity.
Defined.
