(* ===== verification/Nursery.v ===== *)
(** The nursery of [src/cc/runtime/nursery.c], its operations run one at a
    time: the growing table of children, the channels to close, cancellation
    and deadlines, and waiting.  [NurseryWait] treats the barrier of
    [cc_nursery_wait] under concurrency. *)
From S2P Require Import Prelude Sched.

Open Scope Z_scope.
Implicit Types (f c : nat) (ok : bool).

(** * Data *)

Definition EINVAL : Z := 22.
Definition ENOMEM : Z := 12.
(** [hybrid] is the identity of a fiber. *)
Record cc_nursery_child := Child { kind : Z; hybrid : option nat }.
Definition empty_child : cc_nursery_child := Child 0 None.
(** The mutex and the closure arena are left out; a channel is its identity. *)
Record CCNursery := Nursery {
  tasks : list cc_nursery_child;
  n_count : nat;
  n_cap : nat;
  cancelled : Z;
  n_deadline : Z * Z;
  closing : list (option nat);
  closing_count : nat;
  closing_cap : nat;
  cancel_wake : Z;
  alive_count : Z;
  alive_wake : Z }.
#[export] Instance eta_nursery : Eta CCNursery := λ r,
  Nursery (tasks r) (n_count r) (n_cap r) (cancelled r) (n_deadline r) (closing r) (closing_count r) (closing_cap r) (cancel_wake r) (alive_count r) (alive_wake r).
Implicit Types (n : CCNursery) (now dl : Z * Z).
Definition wrap_size_t (z : Z) : Z := z mod 2 ^ 64.

(** * Creation, cancellation, deadlines *)

(** The outcomes of the three allocations. *)
Definition cc__nursery_alloc (ok1 ok2 ok3 : bool) : option CCNursery :=
  if negb ok1 then None
  else if negb ok2 then None
  else if negb ok3 then None
  else Some (Nursery (replicate 1024 empty_child) 0 1024 0 (0, 0) [] 0 0 0 0 0).
Definition cc_nursery_deadline n : option (Z * Z) :=
  if decide ((n_deadline n).1 = 0) then None else Some (n_deadline n).
Definition cc_nursery_is_cancelled (on : option CCNursery) now : bool :=
  match on with
  | None => true
  | Some n =>
      if decide (cancelled n ≠ 0) then true
      else if decide ((n_deadline n).1 = 0) then false
      else if decide ((n_deadline n).1 < now.1) then true
      else bool_decide (now.1 = (n_deadline n).1) && bool_decide ((n_deadline n).2 ≤ now.2)
  end.
Definition cc_nursery_create (ok1 ok2 ok3 : bool) (parent : option CCNursery) now : option CCNursery :=
  n ← cc__nursery_alloc ok1 ok2 ok3;
  match parent with
  | None => Some n
  | Some p =>
      let n := if cc_nursery_is_cancelled parent now then n <| cancelled := 1 |> else n in
      Some (match cc_nursery_deadline p with Some d => n <| n_deadline := d |> | None => n end)
  end.
Definition cc_nursery_set_deadline dl n : CCNursery := n <| n_deadline := dl |>.
(** The fibers to signal in a copy of the table. *)
Definition live_children (l : list cc_nursery_child) : list nat :=
  omap (λ ch, if decide (kind ch = 2) then hybrid ch else None) l.
(** [ok]: the snapshot of the table can be allocated.  Returns the fibers
    signalled. *)
Definition cc_nursery_cancel ok n : list nat * CCNursery :=
  let n := n <| cancelled := 1 |> in
  let snapshot := if decide (0 < n_count n)%nat then (if ok then Some (take (n_count n) (tasks n)) else None) else None in
  (match snapshot with Some l => live_children l | None => [] end, n <| cancel_wake ::= λ z, wrap32 (z + 1) |>).

(** * Children *)

Definition cc_nursery_grow ok n : Z * CCNursery :=
  let new_cap := (if decide (n_cap n = 0)%nat then 8 else n_cap n * 2)%nat in
  if negb ok then (ENOMEM, n)
  else (0, n <| tasks ::= λ l, take (n_cap n) l ++ replicate (new_cap - n_cap n) empty_child |> <| n_cap := new_cap |>).
Definition put_child (ch : cc_nursery_child) n : CCNursery :=
  n <| tasks ::= insert (n_count n) ch |> <| n_count ::= S |>.
Definition cc_nursery_append_child ok (ch : cc_nursery_child) n : Z * CCNursery :=
  if decide (n_count n < n_cap n)%nat then (0, put_child ch n)
  else if decide (n_count n = n_cap n) then
    let '(err, n) := cc_nursery_grow ok n in
    if decide (err = 0) then (0, put_child ch n) else (err, n)
  else (0, put_child ch n).
(** [spawned] is the fiber [sched_v2_spawn_in_nursery] returns, [ok] the growth
    of the table.  The third result is a fiber released. *)
Definition cc_nursery_spawn (worker_frees : bool) (spawned : option nat) ok n : Z * option nat * CCNursery :=
  let n := if worker_frees then n <| alive_count ::= λ z, wrap_size_t (z + 1) |> else n in
  match spawned with
  | None => (ENOMEM, None, if worker_frees then n <| alive_count ::= λ z, wrap_size_t (z - 1) |> else n)
  | Some f =>
      let '(err, n) := cc_nursery_append_child ok (Child 2 (Some f)) n in
      if decide (err = 0) then (0, None, n)
      else if worker_frees then (err, None, n) else (err, Some f, n)
  end.
Definition cc_nursery_notify_child_done n : CCNursery :=
  let prev := alive_count n in
  let n := n <| alive_count := wrap_size_t (prev - 1) |> in
  if decide (prev = 1) then n <| alive_wake ::= λ z, wrap32 (z + 1) |> else n.

(** * Closing and waiting *)

Definition cc_nursery_add_closing_chan ok (ch : option nat) n : Z * CCNursery :=
  match ch with
  | None => (EINVAL, n)
  | Some c =>
      let put n := n <| closing ::= insert (closing_count n) (Some c) |> <| closing_count ::= S |> in
      if decide (closing_count n = closing_cap n) then
        let new_cap := (if decide (closing_cap n = 0)%nat then 4 else closing_cap n * 2)%nat in
        if negb ok then (ENOMEM, n)
        else (0, put (n <| closing ::= λ l, take (closing_cap n) l ++ replicate (new_cap - closing_cap n) None |> <| closing_cap := new_cap |>))
      else (0, put n)
  end.
(** The channels [cc_nursery_wait] and [cc_nursery_free] close. *)
Definition closed_channels n : list nat := omap id (take (closing_count n) (closing n)).
(** The classic join loop: the fibers joined and released, slot [i] on. *)
Fixpoint join_loop (k i : nat) n : list nat * CCNursery :=
  match k with
  | O => ([], n)
  | S k' =>
      match tasks n !! i with
      | None => ([], n)
      | Some ch =>
          if decide (kind ch = 0) then join_loop k' (S i) n
          else
            let joined := if decide (kind ch = 2) then hybrid ch else None in
            let '(l, n) := join_loop k' (S i) (n <| tasks ::= insert i empty_child |>) in
            (match joined with Some f => f :: l | None => l end, n)
      end
  end.
(** [cc_nursery_wait]: the fibers joined and released and the channels closed.
    When the workers release the children (the default) the wait is a barrier on
    [alive_count] and joins nobody; [None]: the count is not 0 and the caller
    sleeps.  Otherwise it joins and releases each child; a join of a fiber that
    has ended returns 0 at once, and so then does the wait. *)
Definition cc_nursery_wait (worker_frees : bool) n : option (list nat * list nat * CCNursery) :=
  if worker_frees && negb (bool_decide (alive_count n = 0)) then None else
  let '(joined, n) := if worker_frees then ([], n) else join_loop (n_count n) 0 n in
  Some (joined, closed_channels n, n <| n_count := 0%nat |>).
(** The fibers released and the channels closed. *)
Definition cc_nursery_free (worker_frees : bool) n : list nat * list nat :=
  (if worker_frees then [] else live_children (take (n_count n) (tasks n)), closed_channels n).

(** * The abstract nursery

    A list of children, a list of channels, whether it was cancelled, its
    deadline, and how many of the fibers it started have not ended.  [a_step] says which results an operation may have and what it
    does to them; [None]: not allowed. *)
Record anursery := ANursery { a_children : list nat; a_channels : list nat; a_cancelled : bool; a_deadline : Z * Z; a_alive : nat }.
#[export] Instance eta_anursery : Eta anursery := λ r, ANursery (a_children r) (a_channels r) (a_cancelled r) (a_deadline r) (a_alive r).
Implicit Types (a : anursery).
Inductive nop :=
  | NSpawn (spawned : option nat) (ok : bool)
  | NClosing (ok : bool) (ch : option nat)
  | NCancel (ok : bool)
  | NDeadline (dl : Z * Z)
  | NDone
  | NWait
  | NCancelled (now : Z * Z).
Inductive nres :=
  | RErr (err : Z) (released : option nat)
  | RSignals (l : list nat)
  | RWait (joined closed : list nat)
  | RSleeps
  | RBool (b : bool)
  | RUnit.
#[export] Instance nres_eq_dec : EqDecision nres.
Proof. solve_decision. Defined.
(** Not before the deadline, unless there is none. *)
Definition past_deadline now dl : bool :=
  bool_decide (dl.1 ≠ 0 ∧ (dl.1 < now.1 ∨ (dl.1 = now.1 ∧ dl.2 ≤ now.2))).
Definition a_step (worker_frees : bool) a (op : nop) (r : nres) : option anursery :=
  match op with
  | NSpawn None _ => if decide (r = RErr ENOMEM None) then Some a else None
  | NSpawn (Some f) ok =>
      if decide (r = RErr 0 None) then Some (a <| a_children ::= λ l, l ++ [f] |> <| a_alive ::= S |>)
      else if decide (ok = false ∧ r = RErr ENOMEM (if worker_frees then None else Some f)) then Some (a <| a_alive ::= S |>) else None
  | NClosing _ None => if decide (r = RErr EINVAL None) then Some a else None
  | NClosing ok (Some c) =>
      if decide (r = RErr 0 None) then Some (a <| a_channels ::= λ l, l ++ [c] |>)
      else if decide (ok = false ∧ r = RErr ENOMEM None) then Some a else None
  | NCancel _ => if decide (r = RSignals (a_children a)) then Some (a <| a_cancelled := true |>) else None
  | NDeadline dl => if decide (r = RUnit) then Some (a <| a_deadline := dl |>) else None
  | NDone => if decide (r = RUnit) then Some (a <| a_alive ::= Nat.pred |>) else None
  | NWait =>
      if worker_frees && negb (bool_decide (a_alive a = 0%nat)) then if decide (r = RSleeps) then Some a else None
      else if decide (r = RWait (if worker_frees then [] else a_children a) (a_channels a)) then Some (a <| a_children := [] |>) else None
  | NCancelled now => if decide (r = RBool (a_cancelled a || past_deadline now (a_deadline a))) then Some a else None
  end.
Definition n_step (worker_frees : bool) (op : nop) n : nres * CCNursery :=
  match op with
  | NSpawn sp ok => let '(e, rel, n) := cc_nursery_spawn worker_frees sp ok n in (RErr e rel, n)
  | NClosing ok ch => let '(e, n) := cc_nursery_add_closing_chan ok ch n in (RErr e None, n)
  | NCancel ok => let '(l, n) := cc_nursery_cancel ok n in (RSignals l, n)
  | NDeadline dl => (RUnit, cc_nursery_set_deadline dl n)
  | NDone => (RUnit, cc_nursery_notify_child_done n)
  | NWait => match cc_nursery_wait worker_frees n with Some (j, c, n') => (RWait j c, n') | None => (RSleeps, n) end
  | NCancelled now => (RBool (cc_nursery_is_cancelled (Some n) now), n)
  end.
(** The results of a sequence of operations, and whether the abstract nursery
    allows them. *)
Fixpoint n_run (worker_frees : bool) (ops : list nop) n : list nres :=
  match ops with
  | [] => []
  | op :: ops' => let '(r, n') := n_step worker_frees op n in r :: n_run worker_frees ops' n'
  end.
Fixpoint a_allows (worker_frees : bool) a (ops : list nop) (rs : list nres) : Prop :=
  match ops, rs with
  | [], [] => True
  | op :: ops', r :: rs' => ∃ a', a_step worker_frees a op r = Some a' ∧ a_allows worker_frees a' ops' rs'
  | _, _ => False
  end.

(** What the contract takes for granted: every cancel can allocate its copy of
    the table, and [cc_nursery_notify_child_done] is called once per fiber the
    nursery started, after it was started; [alive] of them have not ended. *)
Fixpoint well_used (alive : nat) (ops : list nop) : bool :=
  match ops with
  | [] => true
  | NSpawn (Some _) _ :: ops' => well_used (S alive) ops'
  | NCancel ok :: ops' => ok && well_used alive ops'
  | NDone :: ops' => match alive with O => false | S k => well_used k ops' end
  | _ :: ops' => well_used alive ops'
  end.

(** * Representation *)

Definition live f : cc_nursery_child := Child 2 (Some f).
(** The tables hold the children and the channels; what follows is stale. *)
Record nursery_rep n a : Prop := {
  nr_tasks : ∃ pad, tasks n = (live <$> a_children a) ++ pad;
  nr_count : n_count n = length (a_children a);
  nr_cap : n_cap n = length (tasks n);
  nr_closing : ∃ pad, closing n = (Some <$> a_channels a) ++ pad;
  nr_closing_count : closing_count n = length (a_channels a);
  nr_closing_cap : closing_cap n = length (closing n);
  nr_cancelled : bool_decide (cancelled n ≠ 0) = a_cancelled a;
  nr_deadline : n_deadline n = a_deadline a }.
(** The count of live children, when it is kept. *)
Definition alive_rep (worker_frees : bool) n a : Prop := worker_frees = true → alive_count n = Z.of_nat (a_alive a).

(** Storing at the end of the used part of a table with room. *)
Lemma table_push {A B} (g : A → B) (l : list A) (pad t : list B) x :
  t = (g <$> l) ++ pad → (length l < length t)%nat → ∃ pad', <[length l := g x]> t = (g <$> (l ++ [x])) ++ pad' ∧ length (<[length l := g x]> t) = length t.
Proof.
  intros -> Hl. rewrite length_app, length_fmap in Hl. destruct pad as [|y pad]; [simpl in Hl; lia|]. exists pad. split; [|by rewrite length_insert].
  rewrite fmap_app, <- app_assoc. simpl. replace (length l) with (length (g <$> l) + 0)%nat by (rewrite length_fmap; lia). by rewrite insert_app_r.
Qed.
Lemma table_take {A B} (g : A → B) (l : list A) (pad t : list B) : t = (g <$> l) ++ pad → take (length l) t = g <$> l.
Proof. intros ->. rewrite <- (length_fmap g l). by rewrite take_app_length. Qed.
Lemma live_children_live (l : list nat) : live_children (live <$> l) = l.
Proof. unfold live_children. induction l as [|f l IH]; [done|]. simpl. by f_equal. Qed.
Lemma omap_Some (l : list nat) : omap id (Some <$> l) = l.
Proof. induction l as [|f l IH]; [done|]. simpl. by f_equal. Qed.
Lemma closed_channels_rep n a : nursery_rep n a → closed_channels n = a_channels a.
Proof.
  intros Hr. unfold closed_channels. destruct (nr_closing _ _ Hr) as [pad Hp]. rewrite (nr_closing_count _ _ Hr), (table_take _ _ _ _ Hp). apply omap_Some.
Qed.
Lemma cancel_signals_rep n a : nursery_rep n a → live_children (take (n_count n) (tasks n)) = a_children a.
Proof.
  intros Hr. destruct (nr_tasks _ _ Hr) as [pad Hp]. rewrite (nr_count _ _ Hr), (table_take _ _ _ _ Hp). apply live_children_live.
Qed.
Lemma put_child_rep n a f :
  nursery_rep n a → (n_count n < n_cap n)%nat → nursery_rep (put_child (live f) n) (a <| a_children ::= λ l, l ++ [f] |>).
Proof.
  intros Hr Hlt. destruct (nr_tasks _ _ Hr) as [pad Hp]. pose proof (nr_count _ _ Hr) as Hc. pose proof (nr_cap _ _ Hr) as Hca.
  destruct (table_push live _ _ _ f Hp) as (pad' & Ht & Hl); [lia|]. destruct Hr.
  split; simpl; try done; [exists pad'; by rewrite Hc|by rewrite Hc, length_app, Nat.add_comm|by rewrite Hc, Hl].
Qed.
Lemma grow_rep n a : nursery_rep n a → nursery_rep (cc_nursery_grow true n).2 a ∧ (n_cap n < n_cap (cc_nursery_grow true n).2)%nat ∧
  n_count (cc_nursery_grow true n).2 = n_count n.
Proof.
  intros Hr. destruct (nr_tasks _ _ Hr) as [pad Hp]. pose proof (nr_cap _ _ Hr) as Hc. unfold cc_nursery_grow. simpl.
  split; [|split; [|done]].
  - destruct Hr. split; simpl; try done.
    + rewrite Hc, take_ge by done. rewrite Hp, <- app_assoc. by eexists.
    + rewrite Hc, take_ge by done. rewrite length_app, length_replicate. repeat case_decide; lia.
  - simpl. case_decide; lia.
Qed.
Lemma append_rep ok n a f :
  nursery_rep n a → let '(e, n') := cc_nursery_append_child ok (live f) n in
    (e = 0 ∧ nursery_rep n' (a <| a_children ::= λ l, l ++ [f] |>)) ∨ (ok = false ∧ e = ENOMEM ∧ n' = n).
Proof.
  intros Hr. assert (Hle : (n_count n ≤ n_cap n)%nat).
  { destruct (nr_tasks _ _ Hr) as [pad Hp]. rewrite (nr_cap _ _ Hr), (nr_count _ _ Hr), Hp, length_app, length_fmap. lia. }
  unfold cc_nursery_append_child. case_decide as H1; [left; split; [done|by apply put_child_rep]|]. rewrite decide_True by lia.
  destruct ok; [|right; done]. pose proof (grow_rep n a Hr) as (Hg & Hlt & Hc). destruct (cc_nursery_grow true n) as [e n'] eqn:E.
  assert (e = 0) as -> by (unfold cc_nursery_grow in E; simpl in E; congruence). simpl in *. left. split; [done|]. apply put_child_rep; [done|lia].
Qed.
Lemma rep_alive n a (g : Z → Z) : nursery_rep n a → nursery_rep (n <| alive_count ::= g |>) a.
Proof. by intros []. Qed.
Lemma add_closing_rep ok n a c :
  nursery_rep n a → let '(e, n') := cc_nursery_add_closing_chan ok (Some c) n in
    (e = 0 ∧ nursery_rep n' (a <| a_channels ::= λ l, l ++ [c] |>)) ∨ (ok = false ∧ e = ENOMEM ∧ n' = n).
Proof.
  intros Hr. destruct (nr_closing _ _ Hr) as [pad Hp]. pose proof (nr_closing_count _ _ Hr) as Hc. pose proof (nr_closing_cap _ _ Hr) as Hca.
  unfold cc_nursery_add_closing_chan. case_decide as H1.
  - destruct ok; [|by right]. left. split; [done|]. set (m := (if decide _ then _ else _)%nat).
    assert (Hm : (closing_cap n < m)%nat) by (unfold m; case_decide; lia).
    assert (Hp' : take (closing_cap n) (closing n) ++ replicate (m - closing_cap n) None = (Some <$> a_channels a) ++ pad ++ replicate (m - closing_cap n) None).
    { rewrite Hca, take_ge by done. rewrite Hp at 1. by rewrite <- app_assoc. }
    destruct (table_push Some _ _ _ c Hp') as (pad' & Ht & Hl); [rewrite length_app, length_take, length_replicate; lia|].
    destruct Hr. split; simpl; try done; rewrite ?Hc; [exists pad'; by rewrite <- Hc at 1; rewrite Hc|by rewrite length_app, Nat.add_comm|].
    rewrite Hl, length_app, length_take, length_replicate. lia.
  - left. split; [done|]. destruct (table_push Some _ _ _ c Hp) as (pad' & Ht & Hl).
    { rewrite Hp, length_app, length_fmap in Hca. rewrite Hp, length_app, length_fmap. lia. }
    destruct Hr. split; simpl; try done; rewrite ?Hc; [by exists pad'|by rewrite length_app, Nat.add_comm|by rewrite Hl].
Qed.
Lemma insert_middle {A} (l1 l2 : list A) x y : <[length l1 := y]> (l1 ++ x :: l2) = l1 ++ y :: l2.
Proof. replace (length l1) with (length l1 + 0)%nat by lia. by rewrite insert_app_r. Qed.
(** The join loop joins the children in order and clears their slots. *)
Lemma join_loop_spec (fs : list nat) (done pad : list cc_nursery_child) n :
  tasks n = done ++ (live <$> fs) ++ pad →
  join_loop (length fs) (length done) n = (fs, n <| tasks := done ++ replicate (length fs) empty_child ++ pad |>).
Proof.
  revert done n. induction fs as [|f fs IH]; intros done n Ht; simpl.
  - simpl in Ht. f_equal. destruct n. simpl in *. by subst.
  - rewrite Ht, lookup_app_r, Nat.sub_diag by done. simpl.
    assert (Ht' : tasks (n <| tasks ::= insert (length done) empty_child |>) = (done ++ [empty_child]) ++ (live <$> fs) ++ pad).
    { simpl. rewrite Ht. simpl. rewrite insert_middle, <- app_assoc. done. }
    specialize (IH (done ++ [empty_child]) _ Ht'). rewrite length_app, Nat.add_comm in IH. simpl in IH. rewrite IH.
    f_equal. destruct n. simpl. by rewrite <- app_assoc.
Qed.
Lemma wait_rep wf n a : nursery_rep n a →
  (wf = true → alive_count n = 0) →
  ∃ n', cc_nursery_wait wf n = Some (if wf then [] else a_children a, a_channels a, n') ∧ nursery_rep n' (a <| a_children := [] |>) ∧
    alive_count n' = alive_count n.
Proof.
  intros Hr Hz. pose proof (closed_channels_rep _ _ Hr) as Hc. unfold cc_nursery_wait. destruct wf.
  - rewrite (bool_decide_eq_true_2 (alive_count n = 0)) by auto. cbn [andb negb]. rewrite Hc. eexists. split; [done|]. split; [|done]. destruct Hr. split; simpl; try done. by eexists.
  - destruct (nr_tasks _ _ Hr) as [pad Hp]. rewrite (nr_count _ _ Hr). pose proof (join_loop_spec (a_children a) [] pad n Hp) as Hj. simpl in Hj. rewrite Hj.
    assert (Hr' : nursery_rep (n <| tasks := replicate (length (a_children a)) empty_child ++ pad |> <| n_count := 0%nat |>) (a <| a_children := [] |>)).
    { destruct Hr. split; simpl; try done; [by eexists|]. rewrite nr_cap0, Hp, !length_app, length_fmap, length_replicate. done. }
    eexists. split; [|split; [exact Hr'|done]]. by rewrite <- Hc.
Qed.
Lemma cancelled_rep n a now : nursery_rep n a → cc_nursery_is_cancelled (Some n) now = a_cancelled a || past_deadline now (a_deadline a).
Proof.
  intros Hr. rewrite <- (nr_cancelled _ _ Hr), <- (nr_deadline _ _ Hr). unfold cc_nursery_is_cancelled, past_deadline.
  destruct (n_deadline n) as [d1 d2]. simpl. case_decide as H1; [by rewrite (bool_decide_true (cancelled n ≠ 0)) by done|]. rewrite (bool_decide_false (cancelled n ≠ 0)) by lia. simpl.
  case_decide; [by rewrite bool_decide_false by lia|]. case_decide; [by rewrite bool_decide_true by lia|].
  destruct (decide (now.1 = d1 ∧ d2 ≤ now.2)) as [[? ?]|Hn]; [rewrite !bool_decide_true by lia; done|].
  rewrite (bool_decide_false (d1 ≠ 0 ∧ _)) by lia. apply andb_false_iff. destruct (decide (now.1 = d1)); [right|left]; apply bool_decide_false; lia.
Qed.
Lemma append_alive ok ch n : alive_count (cc_nursery_append_child ok ch n).2 = alive_count n.
Proof. unfold cc_nursery_append_child, cc_nursery_grow, put_child. by repeat case_decide; destruct ok; simpl; repeat case_decide. Qed.
Lemma closing_alive ok ch n : alive_count (cc_nursery_add_closing_chan ok ch n).2 = alive_count n.
Proof. unfold cc_nursery_add_closing_chan. destruct ch; [|done]. case_decide; by destruct ok. Qed.
Lemma wrap_alive k : 0 ≤ k < 2 ^ 64 → wrap_size_t k = k.
Proof. apply Z.mod_small. Qed.

(** Each operation: its result is allowed and the representation is kept. *)
Definition step_ok wf op n a : Prop :=
  ∃ a', a_step wf a op (n_step wf op n).1 = Some a' ∧ nursery_rep (n_step wf op n).2 a' ∧ alive_rep wf (n_step wf op n).2 a' ∧
    (a_alive a' ≤ S (a_alive a))%nat ∧ (∀ ops, well_used (a_alive a) (op :: ops) = true → well_used (a_alive a') ops = true).
Lemma spawn_sim wf sp ok n a : nursery_rep n a → alive_rep wf n a → Z.of_nat (S (a_alive a)) < 2 ^ 64 → step_ok wf (NSpawn sp ok) n a.
Proof.
  intros Hr Hal Hb. unfold step_ok. destruct sp as [f|]; simpl.
  - set (n1 := if wf then n <| alive_count ::= λ z, wrap_size_t (z + 1) |> else n).
    assert (Hr' : nursery_rep n1 a) by (unfold n1; destruct wf; [by apply rep_alive|done]).
    assert (Ha1 : wf = true → alive_count n1 = Z.of_nat (S (a_alive a))).
    { intros ->. unfold n1. simpl. rewrite (Hal eq_refl), wrap_alive by lia. lia. }
    pose proof (append_rep ok n1 a f Hr') as Ha. pose proof (append_alive ok (live f) n1) as Hk. fold (live f).
    destruct (cc_nursery_append_child _ _ _) as [e n']. simpl in Hk.
    destruct Ha as [[-> Hn]|(-> & -> & ->)]; simpl.
    + eexists. split; [done|]. split_and!; [by destruct Hn|intros Hw; simpl; by rewrite Hk, Ha1|done|done].
    + destruct wf; simpl; rewrite ?decide_True by done; (eexists; split; [done|]; split_and!; [by destruct Hr'|intros Hw; by rewrite Ha1|done|done]).
  - destruct wf; simpl; (eexists; split; [done|]; split_and!; [|intros Hw|lia|done]); try done.
    + by apply (rep_alive (n <| alive_count ::= _ |>)), rep_alive.
    + simpl. rewrite (Hal eq_refl), (wrap_alive (_ + 1)) by lia. rewrite wrap_alive by lia. lia.
Qed.
Lemma cancel_sim wf n a : nursery_rep n a → alive_rep wf n a → step_ok wf (NCancel true) n a.
Proof.
  intros Hr Hal. unfold step_ok. simpl.
  assert (Hs : (cc_nursery_cancel true n).1 = a_children a).
  { unfold cc_nursery_cancel. simpl. case_decide as H0; [by apply cancel_signals_rep|].
    rewrite (nr_count _ _ Hr) in H0. destruct (a_children a); [done|simpl in H0; lia]. }
  simpl in Hs. rewrite Hs, decide_True by done. eexists. split; [done|]. split_and!; [by destruct Hr|done|simpl; lia|done].
Qed.
Lemma wait_sim wf n a : nursery_rep n a → alive_rep wf n a → step_ok wf NWait n a.
Proof.
  intros Hr Hal. unfold step_ok. simpl. destruct (wf && negb (bool_decide (a_alive a = 0%nat))) eqn:Hz.
  - apply andb_true_iff in Hz as [-> Hz%negb_true_iff%bool_decide_eq_false].
    unfold cc_nursery_wait. rewrite bool_decide_eq_false_2 by (rewrite (Hal eq_refl); lia). simpl. exists a. split_and!; try done. lia.
  - destruct (wait_rep wf n a Hr) as (n' & -> & Hr' & Ha').
    { intros ->. simpl in Hz. apply negb_false_iff, bool_decide_eq_true in Hz. by rewrite (Hal eq_refl), Hz. }
    simpl. rewrite decide_True by done. eexists. split; [done|]. split_and!; [done|intros Hw; by rewrite Ha', (Hal Hw)|simpl; lia|done].
Qed.
Lemma done_sim wf n a : nursery_rep n a → alive_rep wf n a → (0 < a_alive a)%nat → Z.of_nat (a_alive a) < 2 ^ 64 → step_ok wf NDone n a.
Proof.
  intros Hr Hal Hp Hb. unfold step_ok. simpl. eexists. split; [done|]. split_and!.
  - unfold cc_nursery_notify_child_done. case_decide; by destruct Hr.
  - intros ->. unfold cc_nursery_notify_child_done. assert (E : alive_count n = Z.of_nat (a_alive a)) by by apply Hal.
    case_decide; simpl; rewrite E, wrap_alive by lia; lia.
  - simpl. lia.
  - simpl. by destruct (a_alive a).
Qed.
Lemma n_step_sim wf op ops n a :
  nursery_rep n a → alive_rep wf n a → Z.of_nat (S (a_alive a)) < 2 ^ 64 → well_used (a_alive a) (op :: ops) = true → step_ok wf op n a.
Proof.
  intros Hr Hal Hb Hw. destruct op as [sp ok|ok [c|]|ok|dl| | |now]; [by apply spawn_sim|..].
  - pose proof (add_closing_rep ok n a c Hr) as Ha. pose proof (closing_alive ok (Some c) n) as Hk. unfold step_ok. cbn [n_step].
    destruct (cc_nursery_add_closing_chan ok (Some c) n) as [e n']. simpl in *. destruct Ha as [[-> Hn]|(-> & -> & ->)]; simpl.
    + eexists. split; [done|]. split_and!; [done|intros H; by rewrite Hk, Hal|simpl; lia|done].
    + exists a. split_and!; try done. lia.
  - exists a. split_and!; try done. lia.
  - simpl in Hw. destruct ok; [|done]. by apply cancel_sim.
  - eexists. simpl. split; [done|]. split_and!; [by destruct Hr|done|simpl; lia|done].
  - apply done_sim; try done; [|lia]. simpl in Hw. destruct (a_alive a); [done|lia].
  - by apply wait_sim.
  - exists a. cbn [n_step fst snd a_step]. rewrite (cancelled_rep n a now Hr), decide_True by done. split_and!; try done. lia.
Qed.
Lemma n_run_sim wf ops n a :
  nursery_rep n a → alive_rep wf n a → well_used (a_alive a) ops = true → Z.of_nat (a_alive a + length ops) < 2 ^ 64 → a_allows wf a ops (n_run wf ops n).
Proof.
  revert n a. induction ops as [|op ops IH]; intros n a Hr Hal Hw Hb; simpl in Hb |- *; [done|].
  destruct (n_step_sim wf op ops n a Hr Hal ltac:(lia) Hw) as (a' & Ha & Hr' & Hal' & Hle & Hw').
  destruct (n_step wf op n) as [r n']. simpl in *. exists a'. split; [done|]. apply IH; [done|done|by apply Hw'|lia].
Qed.
(** A new nursery takes over the cancellation and the deadline of its parent. *)
Definition a_create (parent : option CCNursery) now : anursery :=
  ANursery [] [] (match parent with Some _ => cc_nursery_is_cancelled parent now | None => false end)
    (default (0, 0) (parent ≫= cc_nursery_deadline)) 0.
Lemma create_rep ok1 ok2 ok3 parent now n : cc_nursery_create ok1 ok2 ok3 parent now = Some n → nursery_rep n (a_create parent now) ∧ alive_count n = 0.
Proof.
  unfold cc_nursery_create, cc__nursery_alloc, a_create. destruct ok1, ok2, ok3; try done. change (negb true) with false. cbv iota. cbn [mbind option_bind].
  destruct parent as [p|].
  - destruct (cc_nursery_is_cancelled (Some p) now), (cc_nursery_deadline p) as [d|] eqn:Hd; intros [= <-];
      (split; [|done]); split; cbn -[replicate]; try done; try first [by exists []|by eexists|by rewrite length_replicate]; by rewrite Hd.
  - intros [= <-]. split; [|done]. split; cbn -[replicate]; try done; first [by exists []|by eexists|by rewrite length_replicate].
Qed.

(** * Properties *)

(** C12: A nursery keeps its promises.  Created under any parent, and through any
    sequence of spawns, registrations, cancels, deadlines, completions, waits
    and queries, run one at a time, in which a cancel can allocate its copy of
    the table and each started fiber is reported done at most once, every result
    is the one the abstract nursery allows: a spawn or registration fails only
    for lack of memory and then records nothing, a cancel signals exactly the
    recorded children in order, a wait closes every registered channel in order,
    and the nursery counts as cancelled exactly from the first cancel, the
    inherited cancellation or the deadline on.  When the workers release the
    children (the default) the wait sleeps exactly while a started fiber, a
    recorded one or not, has not been reported done, and joins nobody; in the
    classic mode, where the children must have ended, it joins and releases each
    of them once, in order. *)
Theorem nursery_follows_contract worker_frees ok1 ok2 ok3 parent now n ops :
  cc_nursery_create ok1 ok2 ok3 parent now = Some n → well_used 0 ops = true → Z.of_nat (length ops) < 2 ^ 64 →
  a_allows worker_frees (a_create parent now) ops (n_run worker_frees ops n).
Proof. intros Hc Hw Hb. destruct (create_rep _ _ _ _ _ _ Hc) as [Hr Ha]. apply n_run_sim; [done|by intros _|done|done]. Qed.
Definition nursery0 : CCNursery := Nursery (replicate 1024 empty_child) 0 1024 0 (0, 0) [] 0 0 0 0 0.
(** Five channels (the table grows once), two children, a cancel, a wait before
    and one after both have ended. *)
Definition nursery_demo : list nop :=
  (NClosing true ∘ Some <$> seq 10 5) ++ [NSpawn (Some 1%nat) true; NSpawn None true; NSpawn (Some 2%nat) true; NCancelled (5, 0); NCancel true; NCancelled (5, 0);
   NDone; NWait; NDone; NWait].
Lemma nursery_follows_contract_witness :
  n_run true nursery_demo nursery0 =
    replicate 5 (RErr 0 None) ++ [RErr 0 None; RErr ENOMEM None; RErr 0 None; RBool false; RSignals [1; 2]%nat; RBool true;
      RUnit; RSleeps; RUnit; RWait [] (seq 10 5)] ∧
  a_allows true (a_create None (0, 0)) nursery_demo (n_run true nursery_demo nursery0).
Proof.
  split; [vm_compute; reflexivity|].
  apply (nursery_follows_contract true true true true None (0, 0) nursery0); [reflexivity|reflexivity|vm_compute; reflexivity].
Defined.

(** A cancel that cannot allocate its copy of the table signals nobody. *)
Theorem cancel_without_memory_signals_nobody n : (cc_nursery_cancel false n).1 = [].
Proof. unfold cc_nursery_cancel. simpl. by case_decide. Qed.
