(* ===== verification/NurseryWait.v ===== *)
(** The barrier of [cc_nursery_wait] ([src/cc/runtime/nursery.c], workers
    releasing their fibers): the owner of a nursery spawns and waits while the
    children run, spawn siblings and end on any number of workers.  One step
    per atomic access of [alive_count] and [alive_wake]. *)
From S2P Require Import Prelude Sched.

Open Scope Z_scope.
Implicit Types (i g k : nat) (b : bool).

(** * Model *)

(** A child, and the worker that completes it. *)
Inductive child_pc :=
  | CRun                       (* the child runs *)
  | CSpawn                     (* cc_nursery_spawn: counted, not yet enqueued *)
  | CTick                      (* cc_nursery_notify_child_done: alive_count -= 1 *)
  | CWake                      (* it was the last: wake_primitive_wake_all *)
  | CGone.
(** The owner. *)
Inductive owner_pc :=
  | MRun
  | MSpawn                     (* cc_nursery_spawn: counted, not yet enqueued *)
  | WGen                       (* cc_nursery_wait: load alive_wake.value *)
  | WCount (v : Z)             (* load alive_count *)
  | WSleep (v : Z)             (* wake_primitive_wait(v) *)
  | WPassed                    (* the barrier is passed *)
  | MFreed.                    (* cc_nursery_free *)
Record barrier := Barrier { b_alive : Z; b_wake : Z; owner : owner_pc; kids : list child_pc }.
#[export] Instance eta_barrier : Eta barrier := λ r, Barrier (b_alive r) (b_wake r) (owner r) (kids r).
Implicit Types (s : barrier) (c : child_pc) (o : owner_pc).
Definition wrap64z (z : Z) : Z := z mod 2 ^ 64.
(** The spawned child starts.  A nursery has fewer than 2^32 children, so that
    its counters do not wrap. *)
Definition enqueue s : option barrier :=
  if decide (Z.of_nat (length (kids s)) < 2 ^ 32 - 1) then Some (s <| kids ::= λ l, l ++ [CRun] |>) else None.
Definition add_alive (d : Z) s : barrier := s <| b_alive ::= λ z, wrap64z (z + d) |>.
Definition set_kid i c s : barrier := s <| kids ::= insert i c |>.
(** [b] chooses: spawn or wait; whether the fiber could be allocated; a
    spurious return of the wait; free or go on. *)
Definition owner_next b s : option barrier :=
  match owner s with
  | MRun => Some (if b then s <| owner := WGen |> else add_alive 1 s <| owner := MSpawn |>)
  | MSpawn => if b then Some (add_alive (-1) s <| owner := MRun |>) else s' ← enqueue s; Some (s' <| owner := MRun |>)
  | WGen => Some (s <| owner := WCount (b_wake s) |>)
  | WCount v => Some (s <| owner := if decide (b_alive s = 0) then WPassed else WSleep v |>)
  | WSleep v => if b || negb (bool_decide (b_wake s = v)) then Some (s <| owner := WGen |>) else None
  | WPassed => Some (s <| owner := if b then MRun else MFreed |>)
  | MFreed => None
  end.
(** [b] chooses: spawn or end; whether the fiber could be allocated. *)
Definition child_next b i s : option barrier :=
  c ← kids s !! i;
  match c with
  | CRun => Some (if b then set_kid i CTick s else set_kid i CSpawn (add_alive 1 s))
  | CSpawn => if b then Some (set_kid i CRun (add_alive (-1) s)) else s' ← enqueue s; Some (set_kid i CRun s')
  | CTick => let prev := b_alive s in Some (set_kid i (if decide (prev = 1) then CWake else CGone) (add_alive (-1) s))
  | CWake => Some (set_kid i CGone (s <| b_wake ::= λ z, wrap32 (z + 1) |>))
  | CGone => None
  end.
Inductive barrier_step : barrier → barrier → Prop :=
  | step_owner b s s' : owner_next b s = Some s' → barrier_step s s'
  | step_child b i s s' : child_next b i s = Some s' → barrier_step s s'.
Definition barrier_init : barrier := Barrier 0 0 MRun [].

(** * Invariant *)

Definition kid_weight c : Z := match c with CRun | CTick => 1 | CSpawn => 2 | CWake | CGone => 0 end.
Definition kid_gone c : Z := match c with CGone => 1 | _ => 0 end.
Definition owner_weight o : Z := match o with MSpawn => 1 | _ => 0 end.
Definition total s : Z := zsum kid_weight (kids s) + owner_weight (owner s).
Definition waking s : Prop := ∃ i, kids s !! i = Some CWake.
(** [W] wakes so far. *)
Definition owner_ok s (W : Z) : Prop :=
  match owner s with
  | WCount v => ∃ G, v = wrap32 G ∧ 0 ≤ G ≤ W
  | WSleep v => ∃ G, v = wrap32 G ∧ 0 ≤ G ≤ W ∧ (G = W → 0 < zsum kid_weight (kids s) ∨ waking s)
  | WPassed | MFreed => zsum kid_weight (kids s) = 0
  | _ => True
  end.
Record barrier_inv s (W : Z) : Prop := {
  bi_alive : b_alive s = total s;
  bi_len : Z.of_nat (length (kids s)) < 2 ^ 32;
  bi_wake : b_wake s = wrap32 W;
  bi_wakes : 0 ≤ W ≤ zsum kid_gone (kids s);
  bi_owner : owner_ok s W }.
Lemma kid_weight_nonneg c : 0 ≤ kid_weight c.
Proof. destruct c; simpl; lia. Qed.
Lemma kid_gone_nonneg c : 0 ≤ kid_gone c.
Proof. destruct c; simpl; lia. Qed.
Lemma zsum_le {A} (F : A → Z) (m : Z) l : (∀ x, F x ≤ m) → zsum F l ≤ m * Z.of_nat (length l).
Proof. intros HF. induction l as [|x l IH]; [rewrite zsum_nil; simpl; lia|]. rewrite zsum_cons. simpl length. specialize (HF x). lia. Qed.
Lemma total_bounds s : Z.of_nat (length (kids s)) < 2 ^ 32 → 0 ≤ total s < 2 ^ 34.
Proof.
  intros Hl. pose proof (zsum_nonneg kid_weight (kids s) kid_weight_nonneg).
  pose proof (zsum_le kid_weight 2 (kids s) ltac:(intros []; simpl; lia)). unfold total. destruct (owner s); simpl; lia.
Qed.
Lemma wrap64z_small z : 0 ≤ z < 2 ^ 64 → wrap64z z = z.
Proof. apply Z.mod_small. Qed.

(** A step of the owner that leaves the children alone. *)
Lemma owner_keep s s' W :
  barrier_inv s W → kids s' = kids s → b_wake s' = b_wake s → b_alive s' = total s' → owner_ok s' W → barrier_inv s' W.
Proof. intros [H1 H2 H3 H4 H5] E1 E2 E3 Ho. split; rewrite ?E1, ?E2; done. Qed.
Lemma owner_step_inv b s s' W : barrier_inv s W → owner_next b s = Some s' → barrier_inv s' W.
Proof.
  intros Hi Hn. pose proof (bi_alive _ _ Hi) as Ha. pose proof (bi_owner _ _ Hi) as Ho. pose proof (bi_len _ _ Hi) as Hl. pose proof (total_bounds s Hl) as Ht.
  pose proof (zsum_nonneg kid_weight (kids s) kid_weight_nonneg) as Hz0. pose proof (bi_wakes _ _ Hi) as HW. pose proof (bi_wake _ _ Hi) as Hw. unfold owner_next in Hn. unfold total, owner_ok in *.
  destruct (owner s) eqn:Eo; simpl in Ha, Ht.
  - destruct b; injection Hn as <-; (eapply owner_keep; [done|done|done| |done]); unfold total; simpl; [done|rewrite wrap64z_small; lia].
  - destruct b; [injection Hn as <-; eapply owner_keep; [done|done|done| |done]; unfold total; simpl; rewrite wrap64z_small; lia|].
    unfold enqueue in Hn. case_decide as Hc; [|done]. injection Hn as <-.
    split; simpl; rewrite ?zsum_app, ?zsum_cons, ?zsum_nil; simpl; try done; [|rewrite length_app; simpl; lia|lia].
    unfold total. simpl. rewrite zsum_app, zsum_cons, zsum_nil. simpl. lia.
  - injection Hn as <-. eapply owner_keep; try done. exists W. rewrite Hw. split; [done|lia].
  - injection Hn as <-. destruct Ho as (G & Hv & HG). case_decide as Hz; (eapply owner_keep; try done).
    + unfold owner_ok; simpl. lia.
    + exists G. split; [done|]. split; [done|]. intros _. left. simpl. lia.
  - destruct (b || _); [|done]. injection Hn as <-. by eapply owner_keep.
  - injection Hn as <-. destruct b; by eapply owner_keep.
  - done.
Qed.
(** A step of child [i] from [c] to [c']. *)
Lemma child_keep s i c c' (alive' wake' W W' : Z) :
  barrier_inv s W → kids s !! i = Some c → 0 ≤ W' ≤ W + (kid_gone c' - kid_gone c) → wake' = wrap32 W' →
  alive' = b_alive s + (kid_weight c' - kid_weight c) → (owner s = WPassed ∨ owner s = MFreed → kid_weight c' = kid_weight c) →
  W ≤ W' → (∀ v, owner s = WSleep v → W' = W → c ≠ CWake ∧ (0 < zsum kid_weight (kids s) → 0 < zsum kid_weight (kids s) + (kid_weight c' - kid_weight c) ∨ c' = CWake)) →
  barrier_inv (Barrier alive' wake' (owner s) (<[i := c']> (kids s))) W'.
Proof.
  intros Hi Hc HW Hwk Ha Hp HW' Hs. destruct Hi as [H1 H2 H3 H4 H5]. unfold total in H1.
  pose proof (zsum_insert kid_weight _ _ _ c' Hc) as Z1. pose proof (zsum_insert kid_gone _ _ _ c' Hc) as Z2.
  split; unfold total; simpl; rewrite ?length_insert; try done; [lia|lia|]. unfold owner_ok in *. simpl.
  destruct (owner s) as [| | |v|v| |] eqn:Eo; try done; try (rewrite Z1; rewrite Hp by auto; lia).
  - destruct H5 as (G & Hv & HG). exists G. split; [done|lia].
  - destruct H5 as (G & Hv & HG & Hcov). exists G. split; [done|]. split; [lia|]. intros ->. assert (W' = W) as -> by lia.
    destruct (Hs v eq_refl eq_refl) as [Hne Hpos]. destruct (Hcov eq_refl) as [Hz|[j Hj]].
    + destruct (Hpos Hz) as [?| ->]; [left; lia|]. right. exists i. simpl. rewrite list_lookup_insert_eq; [done|by eapply lookup_lt_Some].
    + right. exists j. simpl. rewrite list_lookup_insert_ne; [done|]. intros ->. congruence.
Qed.
Lemma kid_weight_le s i c : kids s !! i = Some c → kid_weight c ≤ zsum kid_weight (kids s).
Proof. apply zsum_lookup, kid_weight_nonneg. Qed.
Lemma owner_weight_nonneg o : 0 ≤ owner_weight o.
Proof. destruct o; simpl; lia. Qed.
(** A new child. *)
Lemma spawn_inv s W :
  barrier_inv s W → Z.of_nat (length (kids s)) < 2 ^ 32 - 1 → owner s ≠ WPassed → owner s ≠ MFreed →
  barrier_inv (Barrier (b_alive s + 1) (b_wake s) (owner s) (kids s ++ [CRun])) W.
Proof.
  intros [H1 H2 H3 H4 H5] Hl Hn1 Hn2. pose proof (zsum_nonneg kid_weight (kids s) kid_weight_nonneg). unfold total in H1.
  split; unfold total; simpl; rewrite ?length_app, ?zsum_app, ?zsum_cons, ?zsum_nil; simpl; try done; try lia.
  unfold owner_ok in *. simpl. rewrite zsum_app, zsum_cons, zsum_nil. simpl. destruct (owner s); try done.
  destruct H5 as (G & Hv & HG & _). exists G. split; [done|]. split; [done|]. intros _. left. lia.
Qed.
Lemma child_step_inv b i s s' W : barrier_inv s W → child_next b i s = Some s' → ∃ W', barrier_inv s' W'.
Proof.
  intros Hi Hn. unfold child_next in Hn. destruct (kids s !! i) as [c|] eqn:Hc; [|done]. simpl in Hn.
  pose proof (bi_alive _ _ Hi) as Ha. pose proof (bi_len _ _ Hi) as Hl. pose proof (total_bounds s Hl) as Ht. pose proof (bi_wakes _ _ Hi) as HW.
  pose proof (kid_weight_le s i c Hc) as Hle. pose proof (owner_weight_nonneg (owner s)) as How. pose proof (bi_wake _ _ Hi) as Hwk.
  assert (Hpast : owner s = WPassed ∨ owner s = MFreed → zsum kid_weight (kids s) = 0).
  { pose proof (bi_owner _ _ Hi) as Ho. unfold owner_ok in Ho. by intros [E|E]; rewrite E in Ho. }
  unfold total in *. destruct c; simpl in Hle.
  - destruct b; injection Hn as <-; exists W.
    + eapply (child_keep s i CRun CTick (b_alive s) (b_wake s) W W); simpl; try done; try lia. intros v _ _. split; [done|]. lia.
    + eapply (child_keep s i CRun CSpawn (wrap64z (b_alive s + 1)) (b_wake s) W W); simpl; try done; [lia|rewrite wrap64z_small; lia|intros H%Hpast; lia|].
      intros v _ _. split; [done|]. lia.
  - assert (Hi' : barrier_inv (Barrier (b_alive s - 1) (b_wake s) (owner s) (<[i := CRun]> (kids s))) W).
    { eapply (child_keep s i CSpawn CRun (b_alive s - 1) (b_wake s) W W); simpl; try done; try lia; [intros H%Hpast; lia|].
      intros v _ _. split; [done|]. lia. }
    destruct b.
    + injection Hn as <-. exists W. change (barrier_inv (Barrier (wrap64z (b_alive s + -1)) (b_wake s) (owner s) (<[i := CRun]> (kids s))) W).
      rewrite wrap64z_small by lia. exact Hi'.
    + unfold enqueue in Hn. case_decide as Hlen; [|done]. simpl in Hn. injection Hn as <-. exists W.
      apply spawn_inv in Hi'; simpl in *; [|by rewrite length_insert|intros E; rewrite Hpast in Hle by auto; lia..].
      replace (b_alive s - 1 + 1) with (b_alive s) in Hi' by lia.
      change (barrier_inv (Barrier (b_alive s) (b_wake s) (owner s) (<[i := CRun]> (kids s ++ [CRun]))) W).
      rewrite insert_app_l by (by eapply lookup_lt_Some). exact Hi'.
  - injection Hn as <-. exists W.
    change (barrier_inv (Barrier (wrap64z (b_alive s + -1)) (b_wake s) (owner s) (<[i := if decide (b_alive s = 1) then CWake else CGone]> (kids s))) W).
    rewrite wrap64z_small by lia. case_decide as H1.
    + eapply (child_keep s i CTick CWake (b_alive s + -1) (b_wake s) W W); simpl; try done; try lia; [intros H%Hpast; lia|].
      intros v _ _. split; [done|]. auto.
    + eapply (child_keep s i CTick CGone (b_alive s + -1) (b_wake s) W W); simpl; try done; try lia; [intros H%Hpast; lia|].
      intros v Ev _. split; [done|]. rewrite Ev in Ha. simpl in Ha. lia.
  - injection Hn as <-. exists (W + 1). eapply (child_keep s i CWake CGone (b_alive s) (wrap32 (b_wake s + 1)) W (W + 1)); simpl; try done; try lia.
    rewrite Hwk. unfold wrap32. by rewrite Zplus_mod_idemp_l.
  - done.
Qed.
Lemma barrier_reachable s : rtc barrier_step barrier_init s → ∃ W, barrier_inv s W.
Proof.
  assert (H0 : barrier_inv barrier_init 0) by (split; done). revert H0. generalize 0, barrier_init. intros W s0 Hi Hr. revert W Hi.
  induction Hr as [|s0 s1 s2 Hs _ IH]; intros W Hi; [eauto|]. destruct Hs as [b s s' Hn|b i s s' Hn].
  - eapply IH, (owner_step_inv b); done.
  - destruct (child_step_inv b i s s' W Hi Hn) as [W' Hi']. by eapply IH.
Qed.

(** ** Runs *)

(** [None]: the owner; [Some i]: child [i]. *)
Definition bar_next (m : option nat * bool) s : option barrier :=
  match m.1 with None => owner_next m.2 s | Some i => child_next m.2 i s end.
Fixpoint bar_run (ms : list (option nat * bool)) s : option barrier :=
  match ms with [] => Some s | m :: ms' => s' ← bar_next m s; bar_run ms' s' end.
Lemma bar_run_reach ms s s' : bar_run ms s = Some s' → rtc barrier_step s s'.
Proof.
  revert s. induction ms as [|[[i|] b] ms IH]; intros s; simpl; [intros [= <-]; done|..]; unfold bar_next; simpl.
  - destruct (child_next b i s) as [s1|] eqn:E; [|done]. simpl. intros Hr. eapply rtc_l; [by eapply step_child|by apply IH].
  - destruct (owner_next b s) as [s1|] eqn:E; [|done]. simpl. intros Hr. eapply rtc_l; [by eapply step_owner|by apply IH].
Qed.
Definition waiting o : bool := match o with WGen | WCount _ | WSleep _ => true | _ => false end.
Lemma all_gone_weight l : Forall (eq CGone) l → zsum kid_weight l = 0.
Proof. induction 1 as [|c l <- _ IH]; [done|]. by rewrite zsum_cons, IH. Qed.
Lemma zero_weight_done l : zsum kid_weight l = 0 → Forall (λ c, c = CWake ∨ c = CGone) l.
Proof.
  induction l as [|c l IH]; [constructor|]. rewrite zsum_cons. intros H. pose proof (kid_weight_nonneg c). pose proof (zsum_nonneg kid_weight l kid_weight_nonneg).
  constructor; [|apply IH; lia]. destruct c; simpl in *; auto; lia.
Qed.
Lemma wrap32_inj (x y : Z) : 0 ≤ x < 2 ^ 32 → 0 ≤ y < 2 ^ 32 → wrap32 x = wrap32 y → x = y.
Proof. intros Ha Hb. unfold wrap32. by rewrite !Z.mod_small. Qed.

(** With every child reported, a waiting owner passes the barrier. *)
Lemma count_passes s v : owner s = WCount v → b_alive s = 0 → owner_next false s = Some (s <| owner := WPassed |>).
Proof. intros Eo Ha. unfold owner_next. by rewrite Eo, decide_True. Qed.
Lemma gen_passes s : owner s = WGen → b_alive s = 0 →
  bar_run (replicate 2 (None, false)) s = Some (s <| owner := WCount (b_wake s) |> <| owner := WPassed |>).
Proof.
  intros Eo Ha. change (bar_run _ s) with (owner_next false s ≫= λ s1, owner_next false s1 ≫= λ s2, Some s2).
  assert (E : owner_next false s = Some (s <| owner := WCount (b_wake s) |>)) by (unfold owner_next; by rewrite Eo). rewrite E. cbn [mbind option_bind].
  by rewrite (count_passes (s <| owner := WCount (b_wake s) |>) (b_wake s)).
Qed.
Lemma barrier_returns s W : barrier_inv s W → waiting (owner s) = true → Forall (eq CGone) (kids s) → b_alive s = 0 →
  ∃ k s', (k ≤ 3)%nat ∧ bar_run (replicate k (None, false)) s = Some s' ∧ owner s' = WPassed.
Proof.
  intros Hi Hw Hg Hz. pose proof (bi_owner _ _ Hi) as Ho. pose proof (bi_wakes _ _ Hi) as HW. pose proof (bi_len _ _ Hi) as Hl.
  pose proof (zsum_le kid_gone 1 (kids s) ltac:(intros []; simpl; lia)) as Hle. unfold owner_ok in Ho.
  destruct (owner s) as [| | |v|v| |] eqn:Eo; try done.
  - exists 2%nat. eexists. split; [lia|]. split; [by apply gen_passes|done].
  - exists 1%nat. eexists. split; [lia|]. change (bar_run _ s) with (owner_next false s ≫= λ s1, Some s1). by rewrite (count_passes s v).
  - destruct Ho as (G & -> & HG & Hcov). assert (Hne : b_wake s ≠ wrap32 G).
    { rewrite (bi_wake _ _ Hi). intros E. apply wrap32_inj in E; [|lia|lia]. destruct (Hcov (eq_sym E)) as [H|[i Hc]].
      - rewrite all_gone_weight in H by done. lia.
      - rewrite Forall_lookup in Hg. by specialize (Hg i _ Hc). }
    exists 3%nat. eexists. split; [lia|]. change (bar_run _ s) with (owner_next false s ≫= bar_run (replicate 2 (None, false))).
    assert (E : owner_next false s = Some (s <| owner := WGen |>)) by (unfold owner_next; by rewrite Eo, bool_decide_eq_false_2).
    rewrite E. cbn [mbind option_bind]. by rewrite (gen_passes (s <| owner := WGen |>)).
Qed.

(** * Properties *)

(** C10: Waiting is a barrier.  In every reachable state, with children spawning
    siblings and failing allocations: the count never underflows; once the
    owner has passed the barrier every child has ended and none can start; and
    when every child has ended and been reported, a waiting owner is not asleep
    for good: it passes the barrier within three of its own accesses. *)
Theorem nursery_wait_is_barrier s :
  rtc barrier_step barrier_init s →
  (∀ i, kids s !! i = Some CTick → 0 < b_alive s) ∧
  (owner s = WPassed ∨ owner s = MFreed → Forall (λ c, c = CWake ∨ c = CGone) (kids s)) ∧
  (waiting (owner s) = true → Forall (eq CGone) (kids s) →
     ∃ k s', (k ≤ 3)%nat ∧ bar_run (replicate k (None, false)) s = Some s' ∧ owner s' = WPassed).
Proof.
  intros Hr. destruct (barrier_reachable s Hr) as [W Hi]. pose proof (bi_alive _ _ Hi) as Ha. pose proof (bi_owner _ _ Hi) as Ho.
  pose proof (owner_weight_nonneg (owner s)) as How. unfold total in Ha. split_and!.
  - intros i Hc. pose proof (kid_weight_le s i _ Hc). simpl in *. lia.
  - intros Hp. apply zero_weight_done. unfold owner_ok in Ho. by destruct Hp as [E|E]; rewrite E in Ho.
  - intros Hw Hg. assert (Hz : b_alive s = 0) by (rewrite Ha, all_gone_weight by done; by destruct (owner s)). apply (barrier_returns s W Hi Hw Hg Hz).
Qed.
(** Two children, one spawned by the other; both end while the owner sleeps. *)
Definition barrier_run : list (option nat * bool) :=
  [(None, false); (None, false); (None, true); (None, false); (None, false);
   (Some 0%nat, false); (Some 0%nat, false); (Some 0%nat, true); (Some 0%nat, true);
   (Some 1%nat, true); (Some 1%nat, true); (Some 1%nat, true)].
Definition barrier_demo : barrier := default barrier_init (bar_run barrier_run barrier_init).
Lemma nursery_wait_is_barrier_witness :
  owner barrier_demo = WSleep 0 ∧ kids barrier_demo = [CGone; CGone] ∧
  ∃ k s', (k ≤ 3)%nat ∧ bar_run (replicate k (None, false)) barrier_demo = Some s' ∧ owner s' = WPassed.
Proof.
  split; [vm_compute; reflexivity|]. split; [vm_compute; reflexivity|]. apply (nursery_wait_is_barrier barrier_demo).
  - apply (bar_run_reach barrier_run). vm_compute. reflexivity.
  - vm_compute. reflexivity.
  - vm_compute. by repeat constructor.
Defined.

(** C39: The last completion may touch a freed nursery: the owner can see the
    count at zero, pass the barrier without sleeping and free the nursery
    while the worker that reported the last child is still about to wake it
    through [alive_wake]. *)
Theorem notify_touches_freed_nursery :
  ∃ s i, rtc barrier_step barrier_init s ∧ owner s = MFreed ∧ kids s !! i = Some CWake.
Proof.
  set (run := [(None, false); (None, false); (None, true); (Some 0%nat, true); (Some 0%nat, true); (None, false); (None, false); (None, false)]).
  exists (default barrier_init (bar_run run barrier_init)), 0%nat. split; [apply (bar_run_reach run); vm_compute; reflexivity|].
  split; vm_compute; reflexivity.
Qed.
