(* ===== verification/TypeReg.v ===== *)
(** The type registry of the preprocessor
    ([src/cc/src/preprocess/type_registry.c]), its tables: variables with their
    types, typedef aliases, struct fields, and the container and channel
    instantiations whose declarations the compiler has to emit. *)
From S2P Require Import Prelude Bytes Lex Text.

Implicit Types (n k t : list ascii).

(** * Tables

    The C code walks each table with the same loop; [Keyed] names the field it
    compares. *)
Class Keyed (E K : Type) := key : E → K.
Arguments key {_ _ _} _.

Section table.
Context {E K : Type} `{!EqDecision K, !Keyed E K}.
Implicit Types (l : list E) (e : E) (x : K).

Definition hit x e : bool := bool_decide (key e = x).
Definition find_entry x l : option E := List.find (hit x) l.
(** [for (i...) if (strcmp(t[i].name, name) == 0) { ... return rc; }]: the
    outer option is undefined behaviour of the body, the inner one tells
    whether an entry was found. *)
Fixpoint update_first x (body : E → option (Z * E)) l : option (option (Z * list E)) :=
  match l with
  | [] => Some None
  | e :: l' =>
      if hit x e then '(rc, e') ← body e; Some (Some (rc, e' :: l'))
      else r ← update_first x body l'; Some (match r with Some (rc, l'') => Some (rc, e :: l'') | None => None end)
  end.
End table.

(** [ensure_*_capacity]: whether it succeeded, and the capacity.  [None]: the
    doubling loop does not end.  [ok]: whether [realloc] succeeds. *)
Definition ensure_capacity (init : Z) (ok : bool) (cap needed : Z) : option (bool * Z) :=
  if decide (needed ≤ cap)%Z then Some (true, cap) else
  nc ← grow grow_fuel (if decide (cap = 0)%Z then init else wrap64 (cap * 2)) needed;
  Some (if ok then (true, nc) else (false, cap)).
Definition ensure_var_capacity := ensure_capacity 16.
Definition ensure_field_capacity := ensure_capacity 32.
Definition ensure_alias_capacity := ensure_capacity 16.
Definition ensure_vec_capacity := ensure_capacity 8.
Definition ensure_map_capacity := ensure_capacity 8.
Definition ensure_chan_capacity := ensure_capacity 8.

(** What the allocator answers during one call: [realloc], and the [strdup]s of
    the new texts. *)
Record memory := Memory { ok_array : bool; ok_dup1 : bool; ok_dup2 : bool; ok_dup3 : bool }.
Definition plenty : memory := Memory true true true true.

(** The tail of the add functions: grow, duplicate the texts, count the entry. *)
Definition append_entry {E} (ensure : bool → Z → Z → option (bool * Z)) (ok_arr ok_dups : bool) (e : E) (l : list E) (cap : Z) :
    option (Z * list E * Z) :=
  '(ok, c) ← ensure ok_arr cap (Z.of_nat (length l) + 1)%Z;
  Some (if (ok : bool) then if ok_dups then (0%Z, l ++ [e], c) else ((-1)%Z, l, c) else ((-1)%Z, l, c)).

(** Update the entry of [x] or append [e]. *)
Definition upsert {E K} `{!EqDecision K, !Keyed E K} ensure (ok_arr ok_dups : bool) (x : K) (body : E → option (Z * E)) (e : E) l cap :
    option (Z * list E * Z) :=
  found ← update_first x body l;
  match found with
  | Some (rc, l') => Some (rc, l', cap)
  | None => append_entry ensure ok_arr ok_dups e l cap
  end.

(** * The registry

    A type text is [None] after a failed [strdup]; comparing it is undefined. *)
Record CCVarTypeEntry := VarEntry { var_name : list ascii; var_type : option (list ascii) }.
Record CCTypeAliasEntry := AliasEntry { alias_name : list ascii; alias_type : option (list ascii) }.
Record CCFieldTypeEntry := FieldEntry { struct_name : list ascii; field_name : list ascii; field_type : option (list ascii) }.
Inductive CCContainerKind := CC_CONTAINER_VEC | CC_CONTAINER_MAP | CC_CONTAINER_CHANNEL.
Record CCTypeInstEntry := InstEntry {
  inst_kind : CCContainerKind; mangled_name : list ascii; type1 : list ascii; type2 : option (list ascii) }.
#[export] Instance var_keyed : Keyed CCVarTypeEntry (list ascii) := var_name.
#[export] Instance alias_keyed : Keyed CCTypeAliasEntry (list ascii) := alias_name.
#[export] Instance field_keyed : Keyed CCFieldTypeEntry (list ascii * list ascii) := λ e, (struct_name e, field_name e).
#[export] Instance inst_keyed : Keyed CCTypeInstEntry (list ascii) := mangled_name.

Record CCTypeRegistry := TypeRegistry {
  vars : list CCVarTypeEntry; var_capacity : Z;
  aliases : list CCTypeAliasEntry; alias_capacity : Z;
  fields : list CCFieldTypeEntry; field_capacity : Z;
  vecs : list CCTypeInstEntry; vec_capacity : Z;
  maps : list CCTypeInstEntry; map_capacity : Z;
  channels : list CCTypeInstEntry; chan_capacity : Z }.
#[export] Instance eta_registry : Eta CCTypeRegistry := λ r,
  TypeRegistry (vars r) (var_capacity r) (aliases r) (alias_capacity r) (fields r) (field_capacity r)
    (vecs r) (vec_capacity r) (maps r) (map_capacity r) (channels r) (chan_capacity r).

(** A pointer to a registry is [None] when it is NULL, like the texts. *)
Notation regp := (option CCTypeRegistry).
Notation cstr := (option (list ascii)).

Definition empty_registry : CCTypeRegistry := TypeRegistry [] 0 [] 0 [] 0 [] 0 [] 0 [] 0.
Definition cc_type_registry_new (calloc_ok : bool) : regp := if calloc_ok then Some empty_registry else None.
(** The counts go to zero, the arrays stay. *)
Definition cc_type_registry_clear (reg : regp) : regp :=
  (λ r, r <| vars := [] |> <| aliases := [] |> <| fields := [] |> <| vecs := [] |> <| maps := [] |> <| channels := [] |>) <$> reg.

Definition placeholder_types : list (list ascii) :=
  txt <$> ["__CCVecGeneric"; "__CCVecGeneric*"; "__CCMapGeneric"; "__CCMapGeneric*"; "__CCResultGeneric"; "__CCResultGeneric*"]%string.
Definition cc__is_parser_placeholder_type (s : cstr) : bool :=
  match s with Some t => bool_decide (t ∈ placeholder_types) | None => false end.
(** [strncmp(t, p, strlen(p)) == 0]. *)
Definition starts_with (p t : list ascii) : bool := bool_decide (take (length p) t = p).

(** [free(old); slot = strdup(t); return slot ? 0 : -1;] *)
Definition redup (ok : bool) t : Z * cstr := if ok then (0%Z, Some t) else ((-1)%Z, None).

(** ** Variables *)

Definition add_var_update (ok : bool) t (e : CCVarTypeEntry) : option (Z * CCVarTypeEntry) :=
  old ← var_type e;
  if (starts_with (txt "CCChanTx_") old && bool_decide (t = txt "CCChanTx"))
     || (starts_with (txt "CCChanRx_") old && bool_decide (t = txt "CCChanRx")) then Some (0%Z, e)
  else if negb (cc__is_parser_placeholder_type (Some old)) && negb (bool_decide (old = t)) then Some (0%Z, e)
  else let '(rc, nt) := redup ok t in Some (rc, VarEntry (var_name e) nt).
(** [type_name] is the caller's own text: passing the stored one, which the
    update frees before it copies, is not represented. *)
Definition cc_type_registry_add_var (m : memory) (reg : regp) (name type_name : cstr) : option (Z * regp) :=
  match reg, name, type_name with
  | Some r, Some n, Some t =>
      '(rc, l, c) ← upsert ensure_var_capacity (ok_array m) (ok_dup1 m && ok_dup2 m) n (add_var_update (ok_dup1 m) t) (VarEntry n (Some t)) (vars r) (var_capacity r);
      Some (rc, Some (r <| vars := l |> <| var_capacity := c |>))
  | _, _, _ => Some ((-1)%Z, reg)
  end.
Definition cc_type_registry_lookup_var (reg : regp) (name : cstr) : cstr :=
  r ← reg; n ← name; e ← find_entry n (vars r); var_type e.

(** ** Aliases *)

Definition add_alias_update (ok : bool) t (e : CCTypeAliasEntry) : option (Z * CCTypeAliasEntry) :=
  old ← alias_type e;
  if decide (old = t) then Some (0%Z, e)
  else let '(rc, nt) := redup ok t in Some (rc, AliasEntry (alias_name e) nt).
Definition cc_type_registry_add_alias (m : memory) (reg : regp) (name type_name : cstr) : option (Z * regp) :=
  match reg, name, type_name with
  | Some r, Some n, Some t =>
      '(rc, l, c) ← upsert ensure_alias_capacity (ok_array m) (ok_dup1 m && ok_dup2 m) n (add_alias_update (ok_dup1 m) t) (AliasEntry n (Some t)) (aliases r) (alias_capacity r);
      Some (rc, Some (r <| aliases := l |> <| alias_capacity := c |>))
  | _, _, _ => Some ((-1)%Z, reg)
  end.
Definition cc_type_registry_lookup_alias (reg : regp) (name : cstr) : cstr :=
  r ← reg; n ← name; e ← find_entry n (aliases r); alias_type e.

(** ** Fields *)

(** The first test calls the placeholder predicate, which accepts NULL; the
    [strcmp] of the second does not. *)
Definition add_field_update (ok : bool) t (e : CCFieldTypeEntry) : option (Z * CCFieldTypeEntry) :=
  let concrete := negb (cc__is_parser_placeholder_type (field_type e)) in
  let store := let '(rc, nt) := redup ok t in Some (rc, FieldEntry (struct_name e) (field_name e) nt) in
  if concrete && cc__is_parser_placeholder_type (Some t) then Some (0%Z, e)
  else if concrete then old ← field_type e; if decide (old = t) then store else Some (0%Z, e)
  else store.
Definition cc_type_registry_add_field (m : memory) (reg : regp) (sname fname ftype : cstr) : option (Z * regp) :=
  match reg, sname, fname, ftype with
  | Some r, Some s, Some f, Some t =>
      '(rc, l, c) ← upsert ensure_field_capacity (ok_array m) (ok_dup1 m && ok_dup2 m && ok_dup3 m) (s, f) (add_field_update (ok_dup1 m) t) (FieldEntry s f (Some t)) (fields r) (field_capacity r);
      Some (rc, Some (r <| fields := l |> <| field_capacity := c |>))
  | _, _, _, _ => Some ((-1)%Z, reg)
  end.
Definition cc_type_registry_lookup_field (reg : regp) (sname fname : cstr) : cstr :=
  r ← reg; s ← sname; f ← fname; e ← find_entry (s, f) (fields r); field_type e.

(** ** Instantiations *)

Definition add_inst ensure (m : memory) (dups : bool) (e : CCTypeInstEntry) (l : list CCTypeInstEntry) (cap : Z) :
    option (Z * list CCTypeInstEntry * Z) :=
  if find_entry (mangled_name e) l then Some (0%Z, l, cap) else append_entry ensure (ok_array m) dups e l cap.
Definition cc_type_registry_add_vec (m : memory) (reg : regp) (elem mangled : cstr) : option (Z * regp) :=
  match reg, elem, mangled with
  | Some r, Some t, Some n =>
      '(rc, l, c) ← add_inst ensure_vec_capacity m (ok_dup1 m && ok_dup2 m) (InstEntry CC_CONTAINER_VEC n t None) (vecs r) (vec_capacity r);
      Some (rc, Some (r <| vecs := l |> <| vec_capacity := c |>))
  | _, _, _ => Some ((-1)%Z, reg)
  end.
Definition cc_type_registry_add_map (m : memory) (reg : regp) (ktype vtype mangled : cstr) : option (Z * regp) :=
  match reg, ktype, vtype, mangled with
  | Some r, Some t1, Some t2, Some n =>
      '(rc, l, c) ← add_inst ensure_map_capacity m (ok_dup1 m && ok_dup2 m && ok_dup3 m)
                      (InstEntry CC_CONTAINER_MAP n t1 (Some t2)) (maps r) (map_capacity r);
      Some (rc, Some (r <| maps := l |> <| map_capacity := c |>))
  | _, _, _, _ => Some ((-1)%Z, reg)
  end.
Definition cc_type_registry_add_channel (m : memory) (reg : regp) (elem mangled : cstr) : option (Z * regp) :=
  match reg, elem, mangled with
  | Some r, Some t, Some n =>
      '(rc, l, c) ← add_inst ensure_chan_capacity m (ok_dup1 m && ok_dup2 m) (InstEntry CC_CONTAINER_CHANNEL n t None) (channels r) (chan_capacity r);
      Some (rc, Some (r <| channels := l |> <| chan_capacity := c |>))
  | _, _, _ => Some ((-1)%Z, reg)
  end.
Definition cc_type_registry_lookup_channel_elem_type (reg : regp) (handle : cstr) : cstr :=
  r ← reg; h ← handle;
  if starts_with (txt "CCChanTx_") h || starts_with (txt "CCChanRx_") h then
    let mangled := drop 9 h in
    if decide (mangled = []) then None else type1 <$> find_entry mangled (channels r)
  else None.
Definition cc_type_registry_vec_count (reg : regp) : nat := match reg with Some r => length (vecs r) | None => 0 end.
Definition cc_type_registry_get_vec (reg : regp) (i : nat) : option CCTypeInstEntry := r ← reg; vecs r !! i.
Definition cc_type_registry_map_count (reg : regp) : nat := match reg with Some r => length (maps r) | None => 0 end.
Definition cc_type_registry_get_map (reg : regp) (i : nat) : option CCTypeInstEntry := r ← reg; maps r !! i.
Definition cc_type_registry_channel_count (reg : regp) : nat := match reg with Some r => length (channels r) | None => 0 end.
Definition cc_type_registry_get_channel (reg : regp) (i : nat) : option CCTypeInstEntry := r ← reg; channels r !! i.
