(* ===== verification/TypeNorm.v ===== *)
(** Type texts in the type registry
    ([src/cc/src/preprocess/type_registry.c]): normalising a declared type,
    chasing aliases, the local declaration in scope at an offset, and the type
    of a receiver expression. *)
From S2P Require Import Prelude Bytes Lex Text ResultSpec TypeReg.

Implicit Types (s t w : list ascii).

(** * Trimming *)

Definition BANG := chr 33.
Definition AMP := chr 38.
Definition DOT := chr 46.
Definition MINUS := chr 45.
Definition LT := chr 60.
Definition EQ := chr 61.
Definition GT := chr 62.
Definition TILDE := chr 126.
Definition COMMA := chr 44.
Definition COLON := chr 58.
Definition SEMI := chr 59.

Fixpoint strchr (c : ascii) s : option nat :=
  match s with [] => None | x :: s' => if eqc x c then Some 0 else S <$> strchr c s' end.
Definition lstrip (f : ascii → bool) s : list ascii := drop (span f s) s.
Definition rstrip (f : ascii → bool) s : list ascii := reverse (lstrip f (reverse s)).
Definition ends_with (c : ascii) s : bool := match last s with Some x => eqc x c | None => false end.
Definition isalnum_us := cc_is_ident_char.

Definition cc__trim_type_span s : list ascii := rstrip is_space6 (lstrip is_space6 s).
Definition cc__trim_type_text s : list ascii := rstrip is_space6 (lstrip is_space6 s).
Definition cc__copy_type_base (sz : nat) s : list ascii :=
  take (sz - 1) (rstrip is_blank (rstrip (λ c, eqc c STAR) (rstrip is_blank s))).

(** * Declared types

    The buffers for mangled names have 128 bytes, which mangling never
    overruns ([mangle128_ok]). *)
Definition mangle128 s : list ascii := default [] (cc_result_spec_mangle_type s 128).

(** [T[~ ... >]] and [T[~ ... <]]: a channel handle. *)
Definition channel_handle (sz : nat) t : option (list ascii) :=
  l ← strchr LBRK t;
  n ← strchr RBRK (drop l t);
  let spec := take n (drop l t) in
  let tx := bool_decide (GT ∈ spec) in
  let rx := bool_decide (LT ∈ spec) in
  if bool_decide (TILDE ∈ spec) && (tx || rx) then
    let elem := mangle128 (cc__trim_type_span (take l t)) in
    if decide (elem = []) then None
    else Some (snprintf_s sz (txt (if tx then "CCChanTx" else "CCChanRx") ++ US :: elem))
  else None.
(** The error type after [!]: [E], [> E] or [> (E)]. *)
Definition error_part (after : list ascii) : list ascii :=
  let e := lstrip is_blank after in
  if eqc (peek e) GT then
    let e := lstrip is_blank (tail e) in
    if eqc (peek e) LPAR then
      let e := tail e in take (default (length e) (strchr RPAR e)) e
    else e
  else take (span isalnum_us e) e.
Definition cc__normalize_local_decl_type (sz : nat) t : list ascii :=
  if decide (t = []) then [] else
  match channel_handle sz t with
  | Some out => out
  | None =>
      match strchr BANG t with
      | None => take (sz - 1) t
      | Some b =>
          let after := drop (S b) t in
          if eqc (peek after) EQ then take (sz - 1) t else
          let ok := cc__trim_type_span (take b t) in
          let err := cc__trim_type_span (error_part after) in
          if decide (ok = [] ∨ err = []) then take (sz - 1) t else
          let mok := mangle128 ok in
          let merr := mangle128 err in
          if decide (mok = [] ∨ merr = []) then take (sz - 1) t
          else snprintf_s sz (txt "CCResult_" ++ mok ++ US :: merr)
      end
  end.

(** * Registered types *)

(** [while (len > 0 && work[len - 1] == '*')]: the text without its stars and
    their number. *)
Fixpoint strip_stars (fuel : nat) w : list ascii * nat :=
  match fuel with
  | O => (w, 0)
  | S fuel' =>
      if ends_with STAR w then
        let '(w', n) := strip_stars fuel' (cc__trim_type_text (take (length w - 1) w)) in (w', S n)
      else (w, 0)
  end.
Fixpoint add_stars (n sz : nat) (out : list ascii) : list ascii :=
  match n with
  | O => out
  | S n' => if decide (length out + 1 < sz) then add_stars n' sz (out ++ [STAR]) else out
  end.
(** The text both normalisers start from. *)
Definition decl_work t : list ascii :=
  let w := cc__normalize_local_decl_type 256 t in
  cc__trim_type_text (if decide (w = []) then snprintf_s 256 t else w).

Definition wrapped (p : string) (c : ascii) w : bool := starts_with (txt p) w && ends_with c w.
Definition is_vec_type w : bool :=
  wrapped "Vec::[" RBRK w || wrapped "Vec<" GT w || wrapped "CCVec::[" RBRK w || wrapped "CCVec<" GT w || wrapped "__CC_VEC(" RPAR w.
Definition is_map_type w : bool :=
  wrapped "Map::[" RBRK w || wrapped "Map<" GT w || wrapped "__CC_MAP(" RPAR w.
Definition vec_prefix w : nat :=
  if starts_with (txt "__CC_VEC(") w then 9 else if starts_with (txt "CCVec::[") w then 8
  else if starts_with (txt "CCVec<") w then 6 else if bool_decide (w !! 3 = Some COLON) then 6 else 4.
Definition map_prefix w : nat :=
  if starts_with (txt "__CC_MAP(") w then 9 else if bool_decide (w !! 3 = Some COLON) then 6 else 4.
Definition params_of (prefix : nat) w : list ascii := take 255 (take (length w - prefix - 1) (drop prefix w)).
(** The first comma outside brackets of any kind; [depth] is an [int]. *)
Fixpoint top_comma (depth : Z) s : option nat :=
  match s with
  | [] => None
  | c :: s' =>
      if bool_decide (c ∈ [LT; LBRK; LPAR; LBR]) then S <$> top_comma (depth + 1) s'
      else if bool_decide (c ∈ [GT; RBRK; RPAR; RBR]) then S <$> top_comma (depth - 1) s'
      else if eqc c COMMA && bool_decide (depth = 0%Z) then Some 0
      else S <$> top_comma depth s'
  end.
(** The container branches, the same lines in both normalisers: [param] is the
    call [cc__normalize_registry_container_param_name(reg, buf, buf, 256)] on a
    buffer holding the text. *)
Definition container_work (param : list ascii → list ascii) w : list ascii :=
  if is_vec_type w then
    let inner := mangle128 (param (params_of (vec_prefix w) w)) in
    if decide (inner = []) then w else snprintf_s 256 (txt "CCVec_" ++ inner)
  else if is_map_type w then
    let inner := params_of (map_prefix w) w in
    match top_comma 0 inner with
    | Some i =>
        let k := mangle128 (param (take 255 (take i inner))) in
        let v := mangle128 (param (take 255 (drop (S i) inner))) in
        if decide (k = [] ∨ v = []) then w else snprintf_s 256 (txt "Map_" ++ k ++ US :: v)
    | None => w
    end
  else w.

(** [same]: the output buffer is the buffer that holds the text, as in all
    calls in the file.  The function clears [out[0]] before it reads the text. *)
Fixpoint cc__normalize_registry_container_param_name (fuel : nat) (same : bool) t (sz : nat) : list ascii :=
  match fuel with
  | O => []
  | S fuel' =>
      let t := if same then [] else t in
      if decide (t = []) then [] else
      let '(w, n) := strip_stars (length (decl_work t)) (decl_work t) in
      let w := if decide (w = txt "CCString") then txt "CCVec_char" else w in
      let w := container_work (λ b, cc__normalize_registry_container_param_name fuel' true b 256) w in
      add_stars n sz (snprintf_s sz w)
  end.

Fixpoint chase_aliases (hops : nat) (reg : regp) w : list ascii :=
  match hops with
  | O => w
  | S hops' =>
      match cc_type_registry_lookup_alias reg (Some w) with
      | None => w
      | Some a => if decide (a = [] ∨ a = w) then w else chase_aliases hops' reg (snprintf_s 256 a)
      end
  end.
(** Two levels of the recursion are enough: the inner call clears its input. *)
Definition cc__normalize_registry_type_name (reg : regp) t (sz : nat) : list ascii :=
  if decide (t = []) then [] else
  let '(w, n) := strip_stars (length (decl_work t)) (decl_work t) in
  let w := chase_aliases 8 reg w in
  let w := container_work (λ b, cc__normalize_registry_container_param_name 2 true b 256) w in
  add_stars n sz (snprintf_s sz w).
Definition cc_type_registry_canonicalize_type_name (reg : regp) (t : cstr) (sz : nat) : cstr :=
  if decide (sz = 0) then None else
  let out := match t with Some t => cc__normalize_registry_type_name reg t sz | None => [] end in
  if decide (out = []) then None else Some out.

(** * The declaration in scope *)

Definition MAX_DECLS : nat := 256.
Definition MAX_SCOPES : nat := 256.
(** [decls] and [scope_stack] with their tops first. *)
Record scan := Scan {
  decls : list (Z * list ascii); scope_stack : list Z; next_scope_id : Z; stmt_start : nat }.
#[export] Instance eta_scan : Eta scan := λ s : scan, Scan (decls s) (scope_stack s) (next_scope_id s) (stmt_start s).
Definition scan_init : scan := Scan [] [0%Z] 1 0.
Definition scope_top (s : scan) : Z := default 0%Z (head (scope_stack s)).

Fixpoint pop_decls (scope : Z) (l : list (Z * list ascii)) : list (Z * list ascii) :=
  match l with
  | [] => []
  | d :: l' => if decide (d.1 = scope) then pop_decls scope l' else l
  end.
(** The type a statement declares for [var]. *)
Definition declared_type (var : list ascii) (stmt : list ascii) : option (list ascii) :=
  let '(dn, dt) := cc_parse_decl_name_and_type stmt 128 256 in
  if bool_decide (dn ≠ [] ∧ dn = var) && negb (cc_is_non_decl_stmt_type dt)
  then Some (cc__normalize_local_decl_type 256 dt) else None.
(** A code character at offset [i]. *)
Definition scan_code src (var : list ascii) (c : ascii) (i : nat) (s : scan) : scan :=
  if eqc c LBR then
    let s := if decide (length (scope_stack s) < MAX_SCOPES)
             then s <| scope_stack ::= cons (next_scope_id s) |> <| next_scope_id := (next_scope_id s + 1)%Z |> else s in
    s <| stmt_start := S i |>
  else if eqc c RBR then
    let nested := bool_decide (1 < length (scope_stack s)) in
    let s := s <| decls := pop_decls (if nested then scope_top s else 0%Z) (decls s) |> in
    (if nested then s <| scope_stack ::= tail |> else s) <| stmt_start := S i |>
  else if eqc c SEMI then
    let s := match declared_type var (range src (stmt_start s) i) with
             | Some ty => if decide (length (decls s) < MAX_DECLS) then s <| decls ::= cons (scope_top s, ty) |> else s
             | None => s
             end in
    s <| stmt_start := S i |>
  else s.
Fixpoint scan_loop src (var : list ascii) (st : lex) (s : scan) (i : nat) (l : list ascii) : scan :=
  match l with
  | [] => s
  | c :: l' =>
      match lex_step false st c (peek l') (more l') with
      | Skip st' false => scan_loop src var st' s (S i) l'
      | Skip st' true => match l' with [] => s | _ :: l'' => scan_loop src var st' s (S (S i)) l'' end
      | IsCode => scan_loop src var Code (scan_code src var c i s) (S i) l'
      end
  end.
(** [limit] is within the text. *)
Definition cc__lookup_scoped_local_var_type src (limit : nat) (var : list ascii) (sz : nat) : option (list ascii) :=
  if decide (var = [] ∨ sz = 0) then None else
  match decls (scan_loop src var Code scan_init 0 (take limit src)) with
  | [] => None
  | (_, ty) :: _ => Some (take (sz - 1) ty)
  end.

(** * Receiver expressions *)

(** The common head: the trimmed expression, [&], the root identifier and what
    follows it. *)
Definition receiver_root (recv : list ascii) : option (bool * list ascii * list ascii) :=
  let e := rstrip is_ws (lstrip is_ws recv) in
  if decide (e = [] ∨ 256 ≤ length e) then None else
  let amp := eqc (peek e) AMP in
  let p := if amp then lstrip is_blank (tail e) else e in
  if negb (cc_is_ident_start (peek p)) then None else
  let rn := span cc_is_ident_char p in
  Some (amp, take 127 (take rn p), drop rn p).
(** [while ( *p )]: one field access per turn. *)
Fixpoint resolve_fields (fuel : nat) (reg : regp) (ty : list ascii) (p : list ascii) : option (list ascii) :=
  match fuel with
  | O => Some ty
  | S fuel' =>
      let p := lstrip is_blank p in
      let go (arrow : bool) (p : list ascii) :=
        let p := lstrip is_blank p in
        if negb (cc_is_ident_start (peek p)) then None else
        let fn := span cc_is_ident_char p in
        let base := cc__copy_type_base 256 ty in
        if arrow && bool_decide (base = []) then None else
        ft ← cc_type_registry_lookup_field reg (Some base) (Some (take 127 (take fn p)));
        resolve_fields fuel' reg (cc__normalize_registry_type_name reg ft 256) (drop fn p) in
      if eqc (peek p) DOT then go false (tail p)
      else if eqc (peek p) MINUS && eqc (peek (tail p)) GT then go true (drop 2 p)
      else Some ty
  end.
(** The body both functions share, with their lookup of the root.  The result
    is the type and [*out_recv_is_ptr]. *)
Definition resolve_with (lookup : list ascii → cstr) (reg : regp) (recv : list ascii) : option (list ascii * bool) :=
  '(amp, root, p) ← receiver_root recv;
  t ← lookup root;
  ty ← resolve_fields (length p) reg (cc__normalize_registry_type_name reg t 256) p;
  Some (ty, amp || bool_decide (STAR ∈ ty)).
Definition cc_type_registry_resolve_receiver_expr (reg : regp) (recv : cstr) : option (list ascii * bool) :=
  r ← reg; e ← recv; resolve_with (λ root, cc_type_registry_lookup_var reg (Some root)) reg e.
Definition cc_type_registry_resolve_receiver_expr_at (reg : regp) (recv source : cstr) (off : nat) : option (list ascii * bool) :=
  r ← reg; e ← recv;
  resolve_with (λ root,
    let local := src ← source; cc__lookup_scoped_local_var_type src off root 256 in
    match local with Some t => Some t | None => cc_type_registry_lookup_var reg (Some root) end) reg e.

(** * Expression types *)

Definition isdigit := between "0" "9".
Definition literal_type (e : list ascii) : option (list ascii) :=
  if eqc (peek e) DQ || (bool_decide (1 < length e) && eqc (peek e) (chr 76) && eqc (peek (tail e)) DQ) then Some (txt "const char*")
  else if eqc (peek e) SQ then Some (txt "char")
  else if bool_decide (e = txt "true" ∨ e = txt "false") then Some (txt "bool")
  else if bool_decide (e = txt "NULL") then Some (txt "void*")
  else if bool_decide (7 ≤ length e) && starts_with (txt "sizeof(") e then Some (txt "size_t")
  else if isdigit (peek e)
          || ((eqc (peek e) (chr 43) || eqc (peek e) MINUS) && bool_decide (1 < length e) && isdigit (peek (tail e))) then
    Some (if bool_decide (DOT ∈ e ∨ chr 101 ∈ e ∨ chr 69 ∈ e) then txt "double" else txt "int")
  else None.
(** The recursion is on the text after [&]. *)
Fixpoint resolve_expr_loop (fuel : nat) (reg : regp) (expr : list ascii) : option (list ascii) :=
  match fuel with
  | O => None
  | S fuel' =>
      let p := lstrip is_space6 expr in
      let e := rstrip is_space6 p in
      if decide (e = [] ∨ 256 ≤ length e) then None else
      match literal_type e with
      | Some t => Some t
      | None =>
          match cc_type_registry_resolve_receiver_expr reg (Some p) with
          | Some (c :: ty, _) => Some (c :: ty)
          | _ =>
              if eqc (peek p) AMP then
                inner ← resolve_expr_loop fuel' reg (tail p);
                if decide (inner = [] ∨ 256 ≤ length inner + 1) then None else Some (inner ++ [STAR])
              else None
          end
      end
  end.
Definition cc_type_registry_resolve_expr_type (reg : regp) (expr : cstr) : cstr :=
  r ← reg; e ← expr; resolve_expr_loop (S (length e)) reg e.
