(* ===== verification/TypeSpec.v ===== *)
(** What the tables of the type registry promise: maps from names to types.  A
    variable or field keeps its first concrete type (a parser placeholder gives
    way), an alias its last type, an instantiation is recorded once, in the
    order of first use. *)
From S2P Require Import Prelude Bytes Lex Text TextBuild TypeReg.

Implicit Types (n k t : list ascii).

(** * Table lemmas *)

Arguments find_entry : simpl never.

Section table_lemmas.
Context {E K : Type} `{!EqDecision K, !Keyed E K}.
Implicit Types (l : list E) (e : E) (x y : K).

Lemma find_entry_cons x e l : find_entry x (e :: l) = if decide (key e = x) then Some e else find_entry x l.
Proof. unfold find_entry. simpl. unfold hit. case_bool_decide; by case_decide. Qed.
Lemma find_entry_None x l : find_entry x l = None ↔ x ∉ (key <$> l).
Proof.
  induction l as [|e l IH]; [by split; [intros _ ?%elem_of_nil|]|]. rewrite find_entry_cons. simpl.
  rewrite not_elem_of_cons. case_decide; [split; [done|by intros [??]]|]. rewrite IH. naive_solver.
Qed.
Lemma find_entry_snoc x e l : find_entry (key e) l = None →
  find_entry x (l ++ [e]) = if decide (x = key e) then Some e else find_entry x l.
Proof.
  induction l as [|e' l IH]; simpl.
  - intros _. rewrite find_entry_cons. repeat case_decide; naive_solver.
  - rewrite find_entry_cons. destruct (decide (key e' = key e)); [done|]. intros Hl. rewrite !find_entry_cons, IH by done.
    repeat case_decide; naive_solver.
Qed.
Lemma find_entry_Some x l e : find_entry x l = Some e → key e = x ∧ e ∈ l.
Proof. intros [Hin Hh]%List.find_some. split; [by apply bool_decide_eq_true_1 in Hh|by apply list_elem_of_In]. Qed.

(** A hit changes the one entry it found. *)
Lemma update_first_hit x body l e rc e' :
  find_entry x l = Some e → body e = Some (rc, e') → key e' = key e →
  ∃ l', update_first x body l = Some (Some (rc, l')) ∧ length l' = length l ∧ key <$> l' = key <$> l ∧
    ∀ y, find_entry y l' = if decide (y = x) then Some e' else find_entry y l.
Proof.
  intros Hf Hb Hk. revert Hf. induction l as [|d l IH]; [done|]. rewrite find_entry_cons. simpl. unfold hit.
  case_decide as Hd; case_bool_decide; try done.
  - intros [= ->]. rewrite Hb. simpl. exists (e' :: l). split_and!; [done|done|by rewrite !fmap_cons, Hk|].
    intros y. rewrite !find_entry_cons, Hk, Hd. repeat case_decide; naive_solver.
  - intros (l' & -> & Hl & Hm & Hy)%IH. simpl. exists (d :: l'). split_and!; [done|simpl; by rewrite Hl|by rewrite !fmap_cons, Hm|].
    intros y. rewrite !find_entry_cons, Hy. repeat case_decide; naive_solver.
Qed.
Lemma update_first_miss x body l : find_entry x l = None → update_first x body l = Some None.
Proof.
  induction l as [|d l IH]; [done|]. rewrite find_entry_cons. simpl. unfold hit.
  case_decide; case_bool_decide; try done. intros ->%IH. done.
Qed.
End table_lemmas.

(** * Capacities *)

Local Open Scope Z_scope.
(** No table has 2^60 entries. *)
Definition LIMIT : Z := 2 ^ 60.
(** Entries fit the array, and doubling it stays within 64 bits. *)
Definition room (len : nat) (cap : Z) : Prop := Z.of_nat len ≤ cap ∧ cap < 4 * LIMIT.
Lemma grow_fits fuel nc need : need ≤ nc → grow fuel nc need = Some nc.
Proof. intros. destruct fuel; simpl; by rewrite decide_False by lia. Qed.
Lemma ensure_spec init ok len cap :
  0 < init < LIMIT → room len cap → Z.of_nat len < LIMIT →
  ∃ b c, ensure_capacity init ok cap (Z.of_nat len + 1) = Some (b, c) ∧ room len c ∧ (b = true → room (S len) c) ∧ (ok = true → b = true).
Proof.
  unfold room, LIMIT. intros Hi [Hl Hc] Hb. unfold ensure_capacity. case_decide as Hfit.
  { exists true, cap. split_and!; [done|lia|lia|lia|done]. }
  assert (Hcap : cap = Z.of_nat len) by lia. subst cap.
  set (nc := if decide (Z.of_nat len = 0) then init else wrap64 (Z.of_nat len * 2)).
  assert (Hnc : Z.of_nat len + 1 ≤ nc < 4 * 2 ^ 60).
  { unfold nc. case_decide; [lia|]. rewrite wrap64_id; lia. }
  rewrite grow_fits by lia. simpl. clearbody nc. destruct ok; eexists _, _; (split_and!; [reflexivity|lia..|done]).
Qed.
Lemma append_spec {E} ensure init ok_arr ok_dups (e : E) l cap :
  ensure = ensure_capacity init → 0 < init < LIMIT → room (length l) cap → Z.of_nat (length l) < LIMIT →
  ∃ rc l' c, append_entry ensure ok_arr ok_dups e l cap = Some (rc, l', c) ∧ room (length l') c ∧
    ((rc = 0 ∧ l' = l ++ [e]) ∨ (rc = -1 ∧ l' = l)) ∧ (ok_arr && ok_dups = true → rc = 0).
Proof.
  intros -> Hi Hr Hb. unfold append_entry. destruct (ensure_spec init ok_arr (length l) cap Hi Hr Hb) as (b & c & -> & Hc & Hb' & Hok).
  simpl. destruct b; [destruct ok_dups|]; eexists _, _, _; (split; [done|]).
  - rewrite length_app, Nat.add_comm. split_and!; [by apply Hb'|by left|done].
  - split_and!; [done|by right|by destruct ok_arr].
  - split_and!; [done|by right|destruct ok_arr; [by specialize (Hok eq_refl)|done]].
Qed.

(** * Tables as maps *)

Section tables_as_maps.
Context {E K V : Type} `{!EqDecision K, !Keyed E K} (val : E → option V).
Implicit Types (l : list E) (x y : K).

(** A well-formed table: room, one entry per key. *)
Definition tab_ok l (cap : Z) : Prop := room (length l) cap ∧ NoDup (key <$> l).
(** No text was lost. *)
Definition live l : Prop := ∀ x e, find_entry x l = Some e → is_Some (val e).
Definition view l x : option V := e ← find_entry x l; val e.

Lemma upsert_spec ensure init ok_arr ok_dups x (body : E → option (Z * E)) e l cap :
  ensure = ensure_capacity init → 0 < init < LIMIT → key e = x → tab_ok l cap → Z.of_nat (length l) < LIMIT →
  (∀ e0, find_entry x l = Some e0 → ∃ rc e1, body e0 = Some (rc, e1) ∧ key e1 = key e0) →
  ∃ rc l' c, upsert ensure ok_arr ok_dups x body e l cap = Some (rc, l', c) ∧ tab_ok l' c ∧ (length l' ≤ S (length l))%nat ∧
    match find_entry x l with
    | Some e0 => ∃ e1, body e0 = Some (rc, e1) ∧ ∀ y, find_entry y l' = if decide (y = x) then Some e1 else find_entry y l
    | None => (rc = 0 ∧ ∀ y, find_entry y l' = if decide (y = x) then Some e else find_entry y l) ∨ (rc = -1 ∧ l' = l)
    end ∧
    (find_entry x l = None → ok_arr && ok_dups = true → rc = 0).
Proof.
  intros He Hi Hx [Hr Hn] Hb Hbody. unfold upsert. destruct (find_entry x l) as [e0|] eqn:Hf.
  - destruct (Hbody e0 eq_refl) as (rc & e1 & Hbe & Hk).
    destruct (update_first_hit x body l e0 rc e1 Hf Hbe Hk) as (l' & -> & Hl & Hm & Hy). simpl.
    exists rc, l', cap. unfold tab_ok. rewrite Hl, Hm. split_and!; [done|done|done|lia| |done]. by exists e1.
  - rewrite update_first_miss by done. simpl.
    destruct (append_spec ensure init ok_arr ok_dups e l cap He Hi Hr Hb) as (rc & l' & c & -> & Hr' & Hc & Hok).
    exists rc, l', c. split; [done|]. subst x. destruct Hc as [[-> ->]|[-> ->]].
    + split_and!; [split; [done|]|rewrite length_app; simpl; lia| |done].
      * rewrite fmap_app, NoDup_app. split_and!; [done| |by apply NoDup_singleton].
        intros k Hk ->%list_elem_of_singleton. by apply find_entry_None in Hf.
      * left. split; [done|]. intros y. by apply find_entry_snoc.
    + split_and!; [by split|lia|by right|by intros _ ?%Hok].
Qed.

(** An add that returns 0 is an update of the map. *)
Lemma upsert_view ensure init ok_arr ok_dup ok_dups x (body : E → option (Z * E)) e l cap (upd : option V → V) :
  ensure = ensure_capacity init → 0 < init < LIMIT → key e = x → tab_ok l cap → Z.of_nat (length l) < LIMIT → live l →
  (∀ e0 old, val e0 = Some old → ∃ rc e1, body e0 = Some (rc, e1) ∧ key e1 = key e0 ∧
    (rc = 0 → val e1 = Some (upd (Some old))) ∧ (ok_dup = true → rc = 0)) →
  val e = Some (upd None) →
  ∃ rc l' c, upsert ensure ok_arr ok_dups x body e l cap = Some (rc, l', c) ∧ tab_ok l' c ∧ (length l' ≤ S (length l))%nat ∧
    (rc = 0 → live l' ∧ ∀ y, view l' y = if decide (y = x) then Some (upd (view l x)) else view l y) ∧
    (ok_dup = true → ok_arr && ok_dups = true → rc = 0).
Proof.
  intros He Hi Hx Ht Hb Hlive Hbody Hnew.
  assert (Hb' : ∀ e0, find_entry x l = Some e0 → ∃ rc e1, body e0 = Some (rc, e1) ∧ key e1 = key e0).
  { intros e0 Hf. destruct (Hlive x e0 Hf) as [old Ho]. destruct (Hbody e0 old Ho) as (rc & e1 & ? & ? & _). eauto. }
  destruct (upsert_spec ensure init ok_arr ok_dups x body e l cap He Hi Hx Ht Hb Hb') as (rc & l' & c & Hu & Ht' & Hl & Hm & Hok).
  exists rc, l', c. split_and!; [done|done|done| |].
  - intros ->.
    assert (Hnew' : ∃ e1, val e1 = Some (upd (view l x)) ∧ ∀ y, find_entry y l' = if decide (y = x) then Some e1 else find_entry y l).
    { unfold view. destruct (find_entry x l) as [e0|] eqn:Hf; simpl.
      - destruct (Hlive x e0 Hf) as [old Ho]. destruct (Hbody e0 old Ho) as (rc & e1 & Hbe & _ & Hv & _). destruct Hm as (e1' & Hbe' & Hy).
        rewrite Hbe in Hbe'. injection Hbe' as -> ->. rewrite Ho. eauto.
      - destruct Hm as [[_ Hy]|[? _]]; [eauto|done]. }
    destruct Hnew' as (e1 & Hv & Hy). split.
    + intros y e2. rewrite Hy. case_decide; [intros [= <-]; by rewrite Hv|by apply Hlive].
    + intros y. unfold view at 1. rewrite Hy. by case_decide.
  - intros Hd Ho. destruct (find_entry x l) as [e0|] eqn:Hf; [|by apply Hok]. destruct Hm as (e1 & Hbe & _).
    destruct (Hlive x e0 Hf) as [old Ho']. destruct (Hbody e0 old Ho') as (rc' & e1' & Hbe' & _ & _ & Hr).
    rewrite Hbe in Hbe'. injection Hbe' as <- <-. by apply Hr.
Qed.
End tables_as_maps.

(** * Operations and the abstract registry *)

Inductive type_op :=
  | AddVar (n t : list ascii) | AddAlias (n t : list ascii) | AddField (s f t : list ascii)
  | AddVec (t n : list ascii) | AddMap (t1 t2 n : list ascii) | AddChannel (t n : list ascii) | Clear.
Definition type_step (m : memory) (op : type_op) (reg : regp) : option (Z * regp) :=
  match op with
  | AddVar n t => cc_type_registry_add_var m reg (Some n) (Some t)
  | AddAlias n t => cc_type_registry_add_alias m reg (Some n) (Some t)
  | AddField s f t => cc_type_registry_add_field m reg (Some s) (Some f) (Some t)
  | AddVec t n => cc_type_registry_add_vec m reg (Some t) (Some n)
  | AddMap t1 t2 n => cc_type_registry_add_map m reg (Some t1) (Some t2) (Some n)
  | AddChannel t n => cc_type_registry_add_channel m reg (Some t) (Some n)
  | Clear => Some (0, cc_type_registry_clear reg)
  end.
(** A run that has memory, and its last return codes. *)
Fixpoint type_run (ops : list type_op) (reg : regp) : option (list Z * regp) :=
  match ops with
  | [] => Some ([], reg)
  | op :: ops' => '(rc, reg') ← type_step plenty op reg; '(rcs, reg'') ← type_run ops' reg'; Some (rc :: rcs, reg'')
  end.

Record atypes := ATypes {
  a_var : gmap (list ascii) (list ascii);
  a_alias : gmap (list ascii) (list ascii);
  a_field : gmap (list ascii * list ascii) (list ascii);
  a_vecs : list CCTypeInstEntry; a_maps : list CCTypeInstEntry; a_chans : list CCTypeInstEntry }.
#[export] Instance eta_atypes : Eta atypes := λ a, ATypes (a_var a) (a_alias a) (a_field a) (a_vecs a) (a_maps a) (a_chans a).
Definition a_empty : atypes := ATypes ∅ ∅ ∅ [] [] [].
(** The first concrete type stays. *)
Definition declare t (old : option (list ascii)) : list ascii :=
  match old with Some o => if decide (o ∈ placeholder_types) then t else o | None => t end.
(** Recorded at its first use. *)
Definition record_once (e : CCTypeInstEntry) (l : list CCTypeInstEntry) : list CCTypeInstEntry :=
  if decide (mangled_name e ∈ mangled_name <$> l) then l else l ++ [e].
Definition a_step (op : type_op) (a : atypes) : atypes :=
  match op with
  | AddVar n t => a <| a_var ::= λ m, <[n := declare t (m !! n)]> m |>
  | AddAlias n t => a <| a_alias ::= insert n t |>
  | AddField s f t => a <| a_field ::= λ m, <[(s, f) := declare t (m !! (s, f))]> m |>
  | AddVec t n => a <| a_vecs ::= record_once (InstEntry CC_CONTAINER_VEC n t None) |>
  | AddMap t1 t2 n => a <| a_maps ::= record_once (InstEntry CC_CONTAINER_MAP n t1 (Some t2)) |>
  | AddChannel t n => a <| a_chans ::= record_once (InstEntry CC_CONTAINER_CHANNEL n t None) |>
  | Clear => a_empty
  end.
Definition a_run (ops : list type_op) : atypes := fold_left (λ a op, a_step op a) ops a_empty.

(** * The invariant and the simulation *)

(** Every table fits its array and has one entry per key. *)
Record registry_ok (r : CCTypeRegistry) : Prop := {
  ok_vars : tab_ok (vars r) (var_capacity r);
  ok_aliases : tab_ok (aliases r) (alias_capacity r);
  ok_fields : tab_ok (fields r) (field_capacity r);
  ok_vecs : tab_ok (vecs r) (vec_capacity r);
  ok_maps : tab_ok (maps r) (map_capacity r);
  ok_chans : tab_ok (channels r) (chan_capacity r) }.
Record registry_live (r : CCTypeRegistry) : Prop := {
  live_vars : live var_type (vars r);
  live_aliases : live alias_type (aliases r);
  live_fields : live field_type (fields r) }.
Definition small (r : CCTypeRegistry) (n : Z) : Prop :=
  Z.of_nat (length (vars r)) ≤ n ∧ Z.of_nat (length (aliases r)) ≤ n ∧ Z.of_nat (length (fields r)) ≤ n ∧
  Z.of_nat (length (vecs r)) ≤ n ∧ Z.of_nat (length (maps r)) ≤ n ∧ Z.of_nat (length (channels r)) ≤ n.
Record type_sim (r : CCTypeRegistry) (a : atypes) : Prop := {
  sim_var x : view var_type (vars r) x = a_var a !! x;
  sim_alias x : view alias_type (aliases r) x = a_alias a !! x;
  sim_field x : view field_type (fields r) x = a_field a !! x;
  sim_vecs : vecs r = a_vecs a;
  sim_maps : maps r = a_maps a;
  sim_chans : channels r = a_chans a }.

Lemma LIMIT_pos : 32 < LIMIT.
Proof. reflexivity. Qed.
Lemma concrete_handle p t : p = txt "CCChanTx_" ∨ p = txt "CCChanRx_" → starts_with p t = true → t ∉ placeholder_types.
Proof.
  intros Hp Hs%bool_decide_eq_true_1 Hin.
  assert (Hall : Forall (λ t, take 9 t ≠ txt "CCChanTx_" ∧ take 9 t ≠ txt "CCChanRx_") placeholder_types).
  { apply (bool_decide_unpack _). vm_compute. exact I. }
  rewrite Forall_forall in Hall. destruct (Hall t Hin). by destruct Hp as [->| ->].
Qed.
(** What the three update bodies do to an entry that has its text. *)
Definition updates_to {E K} `{!Keyed E K} (val : E → cstr) (ok : bool) (body : E → option (Z * E)) (e : E) (new : list ascii) : Prop :=
  ∃ rc e1, body e = Some (rc, e1) ∧ key e1 = key e ∧ (rc = 0 → val e1 = Some new) ∧ (ok = true → rc = 0).
Lemma var_update_declares ok t e old :
  var_type e = Some old → updates_to var_type ok (add_var_update ok t) e (declare t (Some old)).
Proof.
  intros He. unfold updates_to, add_var_update, declare. rewrite He. cbn [mbind option_bind].
  destruct (_ || _) eqn:Hc.
  { exists 0, e. split_and!; [done|done| |done]. intros _. rewrite He, decide_False; [done|].
    apply orb_true_iff in Hc as [[Hs _]%andb_true_iff|[Hs _]%andb_true_iff]; (eapply concrete_handle; [|done]; auto). }
  clear Hc. unfold cc__is_parser_placeholder_type. case_bool_decide as Hp; simpl.
  { rewrite decide_True by done. by destruct ok; eexists _, _. }
  rewrite decide_False by done. case_bool_decide as Ho; simpl; [|by eexists _, _]. subst t. by destruct ok; eexists _, _.
Qed.
Lemma alias_update_last ok t e old :
  alias_type e = Some old → updates_to alias_type ok (add_alias_update ok t) e t.
Proof.
  intros He. unfold updates_to, add_alias_update. rewrite He. simpl. case_decide; [subst; by eexists _, _|]. by destruct ok; eexists _, _.
Qed.
Lemma field_update_declares ok t e old :
  field_type e = Some old → updates_to field_type ok (add_field_update ok t) e (declare t (Some old)).
Proof.
  intros He. unfold updates_to, add_field_update, declare, cc__is_parser_placeholder_type. rewrite He.
  destruct (bool_decide_reflect (old ∈ placeholder_types)) as [Hp|Hp]; simpl.
  { rewrite decide_True by done. by destruct ok; eexists _, _. }
  rewrite (decide_False (P := old ∈ placeholder_types)) by done. case_bool_decide; simpl; [by eexists _, _|].
  case_decide; [subst; by destruct ok; eexists _, _|by eexists _, _].
Qed.

(** ** Instantiations *)

Lemma find_inst e l : (if find_entry (mangled_name e) l then true else false) = bool_decide (mangled_name e ∈ mangled_name <$> l).
Proof.
  symmetry. destruct (find_entry (mangled_name e) l) eqn:Hf.
  - apply find_entry_Some in Hf as [Hk Hin]. apply bool_decide_eq_true_2, list_elem_of_fmap. by exists c.
  - apply bool_decide_eq_false_2. by apply find_entry_None in Hf.
Qed.
Lemma add_inst_spec ensure init m dups e l cap :
  ensure = ensure_capacity init → 0 < init < LIMIT → tab_ok l cap → Z.of_nat (length l) < LIMIT →
  ∃ rc l' c, add_inst ensure m dups e l cap = Some (rc, l', c) ∧ tab_ok l' c ∧ (length l' ≤ S (length l))%nat ∧
    (l' = record_once e l ∧ rc = 0 ∨ l' = l ∧ rc = -1) ∧ (ok_array m && dups = true → rc = 0).
Proof.
  intros He Hi [Hr Hn] Hb. unfold add_inst, record_once. pose proof (find_inst e l) as Hf.
  destruct (find_entry (mangled_name e) l) eqn:E; symmetry in Hf.
  { apply bool_decide_eq_true_1 in Hf. rewrite decide_True by done. exists 0, l, cap. by split_and!; [| |lia|left|]. }
  apply bool_decide_eq_false_1 in Hf. rewrite decide_False by done.
  destruct (append_spec ensure init (ok_array m) dups e l cap He Hi Hr Hb) as (rc & l' & c & -> & Hr' & [[-> ->]|[-> ->]] & Hok).
  - eexists _, _, _. split; [done|]. split_and!; [|rewrite length_app; simpl; lia|by left|done].
    split; [done|]. rewrite fmap_app. apply NoDup_app. split_and!; [done| |by apply NoDup_singleton]. by intros k Hk ->%list_elem_of_singleton.
  - eexists _, _, _. split; [done|]. by split_and!; [split|lia|right|].
Qed.

(** ** One operation *)

(** The state after an operation on [r] that returned [rc]. *)
Definition step_post (op : type_op) (r : CCTypeRegistry) (b : Z) (ok : Prop) (rc : Z) (r' : CCTypeRegistry) : Prop :=
  registry_ok r' ∧ small r' (b + 1) ∧
  (rc = 0 → registry_live r' ∧ ∀ a, type_sim r a → type_sim r' (a_step op a)) ∧ (ok → rc = 0).

(** Goals about a registry in which one table changed. *)
Ltac table_step :=
  match goal with
  | Ho : registry_ok ?r |- registry_ok _ => by destruct Ho; split
  | Hl : registry_live ?r |- registry_live _ => by destruct Hl; split
  | Hs : small ?r ?n |- small _ _ => unfold small in *; simpl; lia
  end.
(** The tables with a type text; [Hv] tells their view after the update. *)
Ltac upsert_post Hrc Hp :=
  simpl; eexists _, _; split; [reflexivity|]; split_and!; [table_step|table_step| |intros ->; by apply Hp];
  let Hl' := fresh in let Hv := fresh in
  intros [Hl' Hv]%Hrc; split; [table_step|]; intros a []; split; simpl; try done;
  intros y; rewrite Hv; case_decide; [subst|]; simplify_map_eq; congruence.
(** The instantiation tables. *)
Ltac inst_post Hrc Hp :=
  simpl; eexists _, _; split; [reflexivity|]; split_and!; [table_step|table_step| |intros ->; by apply Hp];
  intros ->; destruct Hrc as [[-> _]|[_ ?]]; [|done]; split; [table_step|]; intros a []; split; simpl; try done; congruence.

Section step.
Context (m : memory) (r : CCTypeRegistry) (b : Z).
Hypotheses (Ho : registry_ok r) (Hl : registry_live r) (Hs : small r b) (Hn : b < LIMIT).

Lemma add_var_ok n t : ∃ rc r', type_step m (AddVar n t) (Some r) = Some (rc, Some r') ∧ step_post (AddVar n t) r b (m = plenty) rc r'.
Proof.
  pose proof LIMIT_pos. pose proof Hs as (? & _). simpl.
  edestruct (upsert_view var_type ensure_var_capacity 16 (ok_array m) (ok_dup1 m) (ok_dup1 m && ok_dup2 m) n
    (add_var_update (ok_dup1 m) t) (VarEntry n (Some t)) (vars r) (var_capacity r) (declare t))
    as (rc & l' & c & -> & Ht & Hlen & Hrc & Hp); [done|lia|done|apply Ho|lia|apply Hl| |done|].
  { intros e0 old He. exact (var_update_declares _ t e0 old He). }
  upsert_post Hrc Hp.
Qed.
Lemma add_alias_ok n t : ∃ rc r', type_step m (AddAlias n t) (Some r) = Some (rc, Some r') ∧ step_post (AddAlias n t) r b (m = plenty) rc r'.
Proof.
  pose proof LIMIT_pos. pose proof Hs as (_ & ? & _). simpl.
  edestruct (upsert_view alias_type ensure_alias_capacity 16 (ok_array m) (ok_dup1 m) (ok_dup1 m && ok_dup2 m) n
    (add_alias_update (ok_dup1 m) t) (AliasEntry n (Some t)) (aliases r) (alias_capacity r) (λ _, t))
    as (rc & l' & c & -> & Ht & Hlen & Hrc & Hp); [done|lia|done|apply Ho|lia|apply Hl| |done|].
  { intros e0 old He. exact (alias_update_last _ t e0 old He). }
  upsert_post Hrc Hp.
Qed.
Lemma add_field_ok s f t : ∃ rc r', type_step m (AddField s f t) (Some r) = Some (rc, Some r') ∧ step_post (AddField s f t) r b (m = plenty) rc r'.
Proof.
  pose proof LIMIT_pos. pose proof Hs as (_ & _ & ? & _). simpl.
  edestruct (upsert_view field_type ensure_field_capacity 32 (ok_array m) (ok_dup1 m) (ok_dup1 m && ok_dup2 m && ok_dup3 m) (s, f)
    (add_field_update (ok_dup1 m) t) (FieldEntry s f (Some t)) (fields r) (field_capacity r) (declare t))
    as (rc & l' & c & -> & Ht & Hlen & Hrc & Hp); [done|lia|done|apply Ho|lia|apply Hl| |done|].
  { intros e0 old He. exact (field_update_declares _ t e0 old He). }
  upsert_post Hrc Hp.
Qed.
Lemma add_vec_ok t n : ∃ rc r', type_step m (AddVec t n) (Some r) = Some (rc, Some r') ∧ step_post (AddVec t n) r b (m = plenty) rc r'.
Proof.
  pose proof LIMIT_pos. pose proof Hs as (_ & _ & _ & ? & _). simpl.
  edestruct (add_inst_spec ensure_vec_capacity 8 m (ok_dup1 m && ok_dup2 m) (InstEntry CC_CONTAINER_VEC n t None) (vecs r) (vec_capacity r))
    as (rc & l' & c & -> & Ht & Hlen & Hrc & Hp); [done|lia|apply Ho|lia|]. inst_post Hrc Hp.
Qed.
Lemma add_map_ok t1 t2 n : ∃ rc r', type_step m (AddMap t1 t2 n) (Some r) = Some (rc, Some r') ∧ step_post (AddMap t1 t2 n) r b (m = plenty) rc r'.
Proof.
  pose proof LIMIT_pos. pose proof Hs as (_ & _ & _ & _ & ? & _). simpl.
  edestruct (add_inst_spec ensure_map_capacity 8 m (ok_dup1 m && ok_dup2 m && ok_dup3 m) (InstEntry CC_CONTAINER_MAP n t1 (Some t2)) (maps r) (map_capacity r))
    as (rc & l' & c & -> & Ht & Hlen & Hrc & Hp); [done|lia|apply Ho|lia|]. inst_post Hrc Hp.
Qed.
Lemma add_channel_ok t n : ∃ rc r', type_step m (AddChannel t n) (Some r) = Some (rc, Some r') ∧ step_post (AddChannel t n) r b (m = plenty) rc r'.
Proof.
  pose proof LIMIT_pos. pose proof Hs as (_ & _ & _ & _ & _ & ?). simpl.
  edestruct (add_inst_spec ensure_chan_capacity 8 m (ok_dup1 m && ok_dup2 m) (InstEntry CC_CONTAINER_CHANNEL n t None) (channels r) (chan_capacity r))
    as (rc & l' & c & -> & Ht & Hlen & Hrc & Hp); [done|lia|apply Ho|lia|]. inst_post Hrc Hp.
Qed.
Lemma tab_ok_clear {E K} `{!EqDecision K, !Keyed E K} (l : list E) cap : tab_ok l cap → tab_ok ([] : list E) cap.
Proof. intros [[? ?] _]. unfold tab_ok, room. split; [simpl; lia|constructor]. Qed.
Lemma clear_ok : ∃ rc r', type_step m Clear (Some r) = Some (rc, Some r') ∧ step_post Clear r b (m = plenty) rc r'.
Proof.
  simpl. eexists _, _. split; [done|]. split_and!; [destruct Ho; split; by eapply tab_ok_clear|unfold small in *; simpl; lia| |done].
  intros _. split; [by split|]. intros a []. by split.
Qed.

(** Whatever the allocator answers, an operation on a registry without lost
    texts returns and keeps the tables well formed; when it returns 0 it did
    what the abstract operation does. *)
Lemma type_step_ok op : ∃ rc r', type_step m op (Some r) = Some (rc, Some r') ∧ step_post op r b (m = plenty) rc r'.
Proof.
  destruct op; [apply add_var_ok|apply add_alias_ok|apply add_field_ok|apply add_vec_ok|apply add_map_ok|apply add_channel_ok|apply clear_ok].
Qed.
End step.

(** ** Runs *)

Lemma type_run_ok ops r b :
  registry_ok r → registry_live r → small r b → b + Z.of_nat (length ops) ≤ LIMIT →
  ∃ rcs r', type_run ops (Some r) = Some (rcs, Some r') ∧ Forall (eq 0) rcs ∧ registry_ok r' ∧ registry_live r' ∧
    ∀ a, type_sim r a → type_sim r' (fold_left (λ a op, a_step op a) ops a).
Proof.
  revert r b. induction ops as [|op ops IH]; intros r b Ho Hl Hs Hb; simpl; [by eexists _, _|].
  simpl in Hb. destruct (type_step_ok plenty r b Ho Hl Hs ltac:(lia) op) as (rc & r' & -> & Ho' & Hs' & Hrc & Hp).
  specialize (Hp eq_refl). subst rc. destruct (Hrc eq_refl) as [Hl' Hsim]. simpl.
  destruct (IH r' (b + 1)) as (rcs & r'' & -> & Hf & Ho'' & Hl'' & Hsim'); [done|done|done|lia|]. simpl.
  eexists _, _. split; [done|]. split_and!; [by constructor|done|done|]. intros a Ha. by apply Hsim', Hsim.
Qed.
Lemma empty_ok : registry_ok empty_registry ∧ registry_live empty_registry ∧ small empty_registry 0 ∧ type_sim empty_registry a_empty.
Proof. split_and!; [by split; repeat split; try constructor|by split|unfold small; simpl; lia|by split]. Qed.
