(* ===== verification/TypeScope.v ===== *)
(** The local declaration in scope: the scan of
    [cc__lookup_scoped_local_var_type] against the block structure of the text. *)
From S2P Require Import Prelude Bytes Lex Text TextScan ResultSpec TypeReg TypeNorm.

Implicit Types (s t : list ascii).

(** * Block-structured text

    [quiet s m]: a complete piece of text with mask [m] - comments, literals
    and parentheses included - with no brace and no semicolon in its code. *)
Definition code_free (cs : list ascii) (s : list ascii) (m : list bool) : Prop :=
  Forall (λ x : ascii * bool, x.2 = true → x.1 ∉ cs) (zip s m).
Definition quiet s (m : list bool) : Prop := frag false s m ∧ code_free [LBR; RBR; SEMI] s m.

(** Statements and closed blocks; a block has the text before its brace. *)
Inductive items :=
  | INil
  | IStmt (s : list ascii) (m : list bool) (rest : items)
  | IBlock (h : list ascii) (m : list bool) (body : items) (rest : items).
(** The text up to the use: some items, then an open block, down to the use. *)
Inductive context :=
  | Here (l : items) (s : list ascii) (m : list bool)
  | Inside (l : items) (h : list ascii) (m : list bool) (c : context).

Fixpoint text_of (l : items) : list ascii :=
  match l with
  | INil => []
  | IStmt s _ l' => s ++ SEMI :: text_of l'
  | IBlock h _ b l' => h ++ LBR :: text_of b ++ RBR :: text_of l'
  end.
Fixpoint mask_of (l : items) : list bool :=
  match l with
  | INil => []
  | IStmt _ m l' => m ++ true :: mask_of l'
  | IBlock _ m b l' => m ++ true :: mask_of b ++ true :: mask_of l'
  end.
Fixpoint quiet_items (l : items) : Prop :=
  match l with
  | INil => True
  | IStmt s m l' => quiet s m ∧ quiet_items l'
  | IBlock h m b l' => quiet h m ∧ quiet_items b ∧ quiet_items l'
  end.
Fixpoint text_to (c : context) : list ascii :=
  match c with
  | Here l s _ => text_of l ++ s
  | Inside l h _ c' => text_of l ++ h ++ LBR :: text_to c'
  end.
Fixpoint quiet_context (c : context) : Prop :=
  match c with
  | Here l s m => quiet_items l ∧ quiet s m
  | Inside l h m c' => quiet_items l ∧ quiet h m ∧ quiet_context c'
  end.

(** The declarations a list of items makes in its own scope, last first. *)
Fixpoint own_decls (var : list ascii) (l : items) : list (list ascii) :=
  match l with
  | INil => []
  | IStmt s _ l' => own_decls var l' ++ match declared_type var s with Some t => [t] | None => [] end
  | IBlock _ _ _ l' => own_decls var l'
  end.
(** What is visible at the end of a context: innermost scope first. *)
Fixpoint visible_decls (var : list ascii) (c : context) : list (list ascii) :=
  match c with
  | Here l _ _ => own_decls var l
  | Inside l _ _ c' => visible_decls var c' ++ own_decls var l
  end.

(** The limits: open scopes, and declarations of the variable. *)
Fixpoint nesting (l : items) : nat :=
  match l with INil => 0 | IStmt _ _ l' => nesting l' | IBlock _ _ b l' => (1 + nesting b) `max` nesting l' end.
Fixpoint stmts (l : items) : nat :=
  match l with INil => 0 | IStmt _ _ l' => 1 + stmts l' | IBlock _ _ b l' => stmts b + stmts l' end.
Fixpoint context_nesting (c : context) : nat :=
  match c with Here l _ _ => nesting l | Inside l _ _ c' => nesting l `max` (1 + context_nesting c') end.
Fixpoint context_stmts (c : context) : nat :=
  match c with Here l _ _ => stmts l | Inside l _ _ c' => stmts l + context_stmts c' end.

(** * The scan over marked text *)

Section scan.
Context (src var : list ascii).
Implicit Types (σ : scan) (i : nat) (cl : list (ascii * bool)).

Fixpoint scan_marked σ i cl : scan :=
  match cl with
  | [] => σ
  | (c, code) :: cl' => scan_marked (if (code : bool) then scan_code src var c i σ else σ) (S i) cl'
  end.
Lemma scan_loop_marked st σ i l : scan_loop src var st σ i l = scan_marked σ i (marked false st l).
Proof.
  revert st σ i. induction l as [l IH] using list_len_ind. intros st σ i. destruct l as [|c l]; [done|].
  rewrite marked_cons. cbn [scan_loop]. destruct (lex_step false st c (peek l) (more l)) as [st' []|]; cbn [scan_marked].
  - destruct l as [|c' l]; [done|]. cbn [scan_marked]. apply IH. simpl. lia.
  - apply IH. simpl. lia.
  - apply IH. simpl. lia.
Qed.
Lemma scan_marked_app σ i cl1 cl2 : scan_marked σ i (cl1 ++ cl2) = scan_marked (scan_marked σ i cl1) (i + length cl1) cl2.
Proof.
  revert σ i. induction cl1 as [|[c b] cl1 IH]; intros σ i; simpl; [by rewrite Nat.add_0_r|]. rewrite IH. f_equal. lia.
Qed.
(** Quiet text changes nothing. *)
Lemma scan_quiet σ i s m : code_free [LBR; RBR; SEMI] s m → scan_marked σ i (zip s m) = σ.
Proof.
  unfold code_free. revert i. generalize (zip s m). intros cl. induction cl as [|[c b] cl IH]; intros i Hq; simpl; [done|].
  apply Forall_cons in Hq as [Hc Hq]. assert (Hs : (if b then scan_code src var c i σ else σ) = σ).
  { destruct b; [|done]. specialize (Hc eq_refl). simpl in Hc. unfold scan_code. rewrite !eqc_ne by set_solver. done. }
  rewrite Hs. by apply IH.
Qed.
(** Quiet text and the code character after it. *)
Lemma scan_quiet_then σ i s m c cl :
  quiet s m → scan_marked σ i (zip (s ++ [c]) (m ++ [true]) ++ cl) =
  scan_marked (scan_code src var c (i + length s) σ) (i + length s + 1) cl.
Proof.
  intros [Hf Hq]. rewrite zip_with_app by (by apply frag_length in Hf). rewrite <- app_assoc, scan_marked_app, scan_quiet by done.
  rewrite length_zip_with_l_eq by (by apply frag_length in Hf). simpl. f_equal. lia.
Qed.
End scan.

(** * Blocks *)

(** The state at an item boundary: scope ids are those handed out. *)
Definition fresh (σ : scan) : Prop :=
  Forall (λ x, x < next_scope_id σ)%Z (scope_stack σ) ∧ Forall (λ d, d.1 < next_scope_id σ)%Z (decls σ) ∧ scope_stack σ ≠ [].
Definition push_all (sc : Z) (ts : list (list ascii)) (l : list (Z * list ascii)) : list (Z * list ascii) := ((sc,.) <$> ts) ++ l.
Fixpoint blocks (l : items) : Z :=
  match l with INil => 0 | IStmt _ _ l' => blocks l' | IBlock _ _ b l' => 1 + blocks b + blocks l' end.
(** The state after some items. *)
Definition after_items (var : list ascii) (l : items) (σ : scan) (fin : nat) : scan :=
  Scan (push_all (scope_top σ) (own_decls var l) (decls σ)) (scope_stack σ) (next_scope_id σ + blocks l)%Z fin.

Lemma range_stmt pre s post : range (pre ++ s ++ post) (length pre) (length pre + length s) = s.
Proof.
  unfold range. rewrite drop_app_length. replace (length pre + length s - length pre) with (length s) by lia. by rewrite take_app_length.
Qed.
Lemma pop_pushed sc ts (l : list (Z * list ascii)) : Forall (λ d, d.1 < sc)%Z l → pop_decls sc (push_all sc ts l) = l.
Proof.
  intros Hl. unfold push_all. induction ts as [|t ts IH]; simpl; [|by rewrite decide_True].
  destruct l as [|d l]; [done|]. apply Forall_cons in Hl as [? _]. simpl. rewrite decide_False by lia. done.
Qed.
Lemma blocks_nonneg l : (0 ≤ blocks l)%Z.
Proof. induction l; simpl; lia. Qed.
Lemma own_decls_stmts var l : length (own_decls var l) ≤ stmts l.
Proof. induction l; simpl; [lia| |lia]. rewrite length_app. case_match; simpl; lia. Qed.

Section structure.
Context (src var : list ascii).
Implicit Types (σ : scan) (l : items).

Lemma scan_enter i σ : length (scope_stack σ) < MAX_SCOPES →
  scan_code src var LBR i σ = Scan (decls σ) (next_scope_id σ :: scope_stack σ) (next_scope_id σ + 1) (S i).
Proof. intros. unfold scan_code. rewrite eqc_refl, decide_True by done. done. Qed.
Lemma scan_leave i σ sc st : scope_stack σ = sc :: st → st ≠ [] →
  scan_code src var RBR i σ = Scan (pop_decls sc (decls σ)) st (next_scope_id σ) (S i).
Proof.
  intros Hs Hne. unfold scan_code. change (eqc RBR LBR) with false. change (eqc RBR RBR) with true. cbn iota.
  rewrite bool_decide_eq_true_2 by (rewrite Hs; destruct st; [done|simpl; lia]). unfold scope_top. rewrite Hs.
  destruct σ; simpl in *; by subst.
Qed.
Lemma scan_semi i σ : length (decls σ) < MAX_DECLS →
  scan_code src var SEMI i σ =
  Scan (push_all (scope_top σ) match declared_type var (range src (stmt_start σ) i) with Some t => [t] | None => [] end (decls σ))
    (scope_stack σ) (next_scope_id σ) (S i).
Proof.
  intros. unfold scan_code. change (eqc SEMI LBR) with false. change (eqc SEMI RBR) with false. change (eqc SEMI SEMI) with true. cbn iota.
  destruct (declared_type _ _); [rewrite decide_True by done|]; by destruct σ.
Qed.

Lemma items_length l : quiet_items l → length (text_of l) = length (mask_of l).
Proof.
  induction l; simpl; [done|intros [[?%frag_length _] ?]|intros ([?%frag_length _] & ? & ?)]; repeat (rewrite length_app; simpl); naive_solver lia.
Qed.
Lemma zip_then s (c : ascii) r m mr : length s = length m → zip (s ++ c :: r) (m ++ true :: mr) = zip (s ++ [c]) (m ++ [true]) ++ zip r mr.
Proof. intros. rewrite !zip_with_app by (rewrite ?length_app; simpl; lia). by rewrite <- app_assoc. Qed.

(** What the scan of some items does from any boundary. *)
Definition scans l : Prop := ∀ pre post σ,
  src = pre ++ text_of l ++ post → quiet_items l → fresh σ → stmt_start σ = length pre →
  length (scope_stack σ) + nesting l ≤ MAX_SCOPES → length (decls σ) + stmts l ≤ MAX_DECLS →
  scan_marked src var σ (length pre) (zip (text_of l) (mask_of l)) = after_items var l σ (length pre + length (text_of l)).

Lemma scans_stmt s m l : scans l → scans (IStmt s m l).
Proof.
  intros IH pre post σ Hsrc [Hs Hq] Hf Hst Hn Hd. simpl in *. pose proof (frag_length _ _ _ (proj1 Hs)) as Hl.
  rewrite zip_then, scan_quiet_then by done.
  assert (Hr : range src (stmt_start σ) (length pre + length s) = s) by (rewrite Hst, Hsrc, <- app_assoc; apply range_stmt).
  rewrite scan_semi, Hr by lia. set (ts := match declared_type var s with Some t => [t] | None => [] end).
  replace (length pre + length s + 1) with (length (pre ++ s ++ [SEMI])) by (rewrite !length_app; simpl; lia).
  rewrite (IH _ post); [| |done| | | |].
  - unfold after_items. simpl. f_equal; [|rewrite !length_app; simpl; lia]. unfold push_all. by rewrite fmap_app, <- app_assoc.
  - rewrite Hsrc. by rewrite <- !app_assoc.
  - destruct Hf as (H1 & H2 & H3). split_and!; simpl; [done| |done]. apply Forall_app. split; [|done].
    apply Forall_fmap, Forall_true. intros t. simpl. unfold scope_top. destruct (scope_stack σ); [done|]. by apply Forall_cons in H1 as [? _].
  - simpl. rewrite !length_app. simpl. lia.
  - simpl. lia.
  - simpl. unfold push_all, ts. rewrite length_app, length_fmap. case_match; simpl; lia.
Qed.
(** A closed block leaves the declarations and scopes as they were. *)
Lemma scan_block h m b pre post σ :
  scans b → src = pre ++ h ++ LBR :: text_of b ++ RBR :: post → quiet h m → quiet_items b → fresh σ →
  length (scope_stack σ) + S (nesting b) ≤ MAX_SCOPES → length (decls σ) + stmts b ≤ MAX_DECLS →
  scan_marked src var σ (length pre) (zip (h ++ [LBR]) (m ++ [true]) ++ zip (text_of b) (mask_of b) ++ [(RBR, true)]) =
  Scan (decls σ) (scope_stack σ) (next_scope_id σ + 1 + blocks b) (length pre + length h + length (text_of b) + 2).
Proof.
  intros IHb Hsrc Hh Hqb Hf Hn Hd. rewrite scan_quiet_then, scan_enter by (done || lia). rewrite scan_marked_app.
  replace (length pre + length h + 1) with (length (pre ++ h ++ [LBR])) by (rewrite !length_app; simpl; lia).
  set (σ1 := Scan (decls σ) (next_scope_id σ :: scope_stack σ) (next_scope_id σ + 1) (S (length pre + length h))).
  rewrite (IHb _ (RBR :: post) σ1); [| |done| | | |].
  - cbn [scan_marked]. rewrite (scan_leave _ _ (next_scope_id σ) (scope_stack σ)) by (done || apply Hf).
    unfold after_items. cbn [decls next_scope_id]. change (scope_top σ1) with (next_scope_id σ). rewrite pop_pushed by apply Hf.
    f_equal. rewrite length_zip_with_l_eq by (by apply items_length). rewrite !length_app. simpl. lia.
  - rewrite Hsrc. by rewrite <- !app_assoc.
  - destruct Hf as (H1 & H2 & H3). split_and!; simpl; [constructor; [lia|]| |done]; eapply Forall_impl; try done; simpl; lia.
  - simpl. rewrite !length_app. simpl. lia.
  - simpl. lia.
  - simpl. lia.
Qed.
Lemma scans_block h m b l : scans b → scans l → scans (IBlock h m b l).
Proof.
  intros IHb IH pre post σ Hsrc (Hh & Hqb & Hq) Hf Hst Hn Hd. simpl in *. pose proof (frag_length _ _ _ (proj1 Hh)) as Hl.
  assert (Hz : zip (h ++ LBR :: text_of b ++ RBR :: text_of l) (m ++ true :: mask_of b ++ true :: mask_of l) =
    (zip (h ++ [LBR]) (m ++ [true]) ++ zip (text_of b) (mask_of b) ++ [(RBR, true)]) ++ zip (text_of l) (mask_of l)).
  { rewrite zip_then by done. rewrite <- !app_assoc. f_equal. by rewrite zip_with_app by (by apply items_length). }
  rewrite Hz, scan_marked_app, (scan_block h m b pre (text_of l ++ post)) by (done || lia || (rewrite Hsrc; repeat (rewrite <- !app_assoc; simpl); done)).
  set (pre1 := pre ++ h ++ LBR :: text_of b ++ [RBR]).
  assert (Hp : length pre1 = length pre + length h + length (text_of b) + 2) by (unfold pre1; repeat (rewrite length_app; simpl); lia).
  replace (length pre + length (zip (h ++ [LBR]) (m ++ [true]) ++ zip (text_of b) (mask_of b) ++ [(RBR, true)])) with (length pre1).
  2: { rewrite Hp, !length_app, !length_zip_with_l_eq by (rewrite ?length_app; auto using items_length). rewrite length_app. simpl. lia. }
  rewrite <- Hp. rewrite (IH _ post); [| |done| |done| |].
  - unfold after_items. simpl. f_equal; [lia|]. rewrite Hp. repeat (rewrite length_app; simpl). lia.
  - rewrite Hsrc. unfold pre1. by repeat (rewrite <- !app_assoc; simpl).
  - destruct Hf as (H1 & H2 & H3). pose proof (blocks_nonneg b). split_and!; simpl; [| |done]; eapply Forall_impl; try done; simpl; lia.
  - simpl. lia.
  - simpl. lia.
Qed.
Lemma scan_items l : scans l.
Proof.
  induction l; [|by apply scans_stmt|by apply scans_block].
  intros pre post σ Hsrc _ Hf Hst _ _. unfold after_items, push_all. simpl. rewrite Nat.add_0_r, Z.add_0_r, <- Hst. by destruct σ.
Qed.
End structure.

(** * Contexts *)

Fixpoint mask_to (c : context) : list bool :=
  match c with
  | Here l _ m => mask_of l ++ m
  | Inside l _ m c' => mask_of l ++ m ++ true :: mask_to c'
  end.
Lemma lex_plain_code c r : c ∈ [LBR; RBR; SEMI] → lex_mask false Code (c :: r) = true :: lex_mask false Code r.
Proof. intros H. cbn [lex_mask]. rewrite lex_code; [done|..]; by repeat (apply elem_of_cons in H as [->|H]; [done|]); apply elem_of_nil in H. Qed.
Lemma items_mask l r : quiet_items l → lex_mask false Code (text_of l ++ r) = mask_of l ++ lex_mask false Code r.
Proof.
  revert r. induction l as [|s m l IH|h m b IHb l IH]; intros r; simpl; [done|intros [[Hf _] Hq]|intros ([Hf _] & Hqb & Hq)].
  - rewrite <- !app_assoc, (frag_mask _ _ m) by done. simpl ((_ :: _) ++ _). rewrite lex_plain_code, IH by (done || set_solver). done.
  - rewrite <- !app_assoc, (frag_mask _ _ m) by done. simpl ((_ :: _) ++ _). rewrite <- !app_assoc, lex_plain_code, IHb by (done || set_solver).
    simpl ((_ :: _) ++ _). rewrite lex_plain_code, IH by (done || set_solver). done.
Qed.
Lemma context_mask c : quiet_context c → lex_mask false Code (text_to c) = mask_to c.
Proof.
  induction c as [l s m|l h m c IH]; simpl; [intros [Hl [Hf _]]|intros (Hl & [Hf _] & Hc)]; rewrite items_mask by done.
  - f_equal. rewrite <- (app_nil_r s) at 1. rewrite (frag_mask _ _ m) by done. by rewrite app_nil_r.
  - rewrite (frag_mask _ _ m), lex_plain_code, IH by (done || set_solver). done.
Qed.

Lemma fresh_after var l σ n : fresh σ → fresh (after_items var l σ n).
Proof.
  intros (H1 & H2 & H3). pose proof (blocks_nonneg l). split_and!; simpl; [eapply Forall_impl; try done; simpl; lia| |done].
  unfold push_all. apply Forall_app. split; [|eapply Forall_impl; try done; simpl; lia].
  apply Forall_fmap, Forall_true. intros t. simpl. unfold scope_top. destruct (scope_stack σ); [done|]. simpl. apply Forall_cons in H1 as [? _]. lia.
Qed.
Lemma length_push_all sc ts l : length (push_all sc ts l) = length ts + length l.
Proof. unfold push_all. by rewrite length_app, length_fmap. Qed.

(** At the end of a context the declarations on the stack are the visible ones. *)
Lemma scan_context src var c pre post σ :
  src = pre ++ text_to c ++ post → quiet_context c → fresh σ → stmt_start σ = length pre →
  length (scope_stack σ) + context_nesting c ≤ MAX_SCOPES → length (decls σ) + context_stmts c ≤ MAX_DECLS →
  (decls (scan_marked src var σ (length pre) (zip (text_to c) (mask_to c)))).*2 = visible_decls var c ++ (decls σ).*2.
Proof.
  revert pre σ. induction c as [l s m|l h m c IH]; intros pre σ Hsrc Hq Hf Hst Hn Hd; simpl in *.
  - destruct Hq as [Hl [Hs Hs']]. rewrite zip_with_app by (by apply items_length). rewrite scan_marked_app, scan_quiet by done.
    rewrite (scan_items src var l pre (s ++ post)) by (done || (by rewrite Hsrc, <- !app_assoc)).
    simpl. unfold push_all. rewrite fmap_app, <- list_fmap_compose. f_equal. by rewrite list_fmap_id.
  - destruct Hq as (Hl & Hh & Hc). pose proof (frag_length _ _ _ (proj1 Hh)) as Hlen.
    rewrite zip_with_app by (by apply items_length). rewrite scan_marked_app, zip_then by done.
    rewrite (scan_items src var l pre (h ++ LBR :: text_to c ++ post)) by (done || lia || (rewrite Hsrc; by repeat (rewrite <- !app_assoc; simpl))).
    rewrite length_zip_with_l_eq by (by apply items_length). pose proof (own_decls_stmts var l).
    rewrite scan_quiet_then, scan_enter by (done || (simpl; lia)).
    set (pre1 := pre ++ text_of l ++ h ++ [LBR]). set (σ1 := after_items var l σ (length pre + length (text_of l))).
    assert (Hf1 : fresh σ1) by by apply fresh_after.
    replace (length pre + length (text_of l) + length h + 1) with (length pre1) by (unfold pre1; rewrite !length_app; simpl; lia).
    rewrite (IH pre1); [| |done| | | |].
    + simpl. rewrite <- app_assoc. f_equal. unfold push_all. rewrite fmap_app, <- list_fmap_compose. f_equal. by rewrite list_fmap_id.
    + rewrite Hsrc. unfold pre1. by repeat (rewrite <- !app_assoc; simpl).
    + destruct Hf1 as (H1 & H2 & H3). split_and!; simpl; [constructor; [lia|]| |done]; eapply Forall_impl; try done; simpl; lia.
    + simpl. unfold pre1. rewrite !length_app. simpl. lia.
    + simpl. lia.
    + simpl. rewrite length_push_all. lia.
Qed.
Lemma fresh_init : fresh scan_init.
Proof. by split_and!; repeat constructor. Qed.

(** Declared types fit their buffer. *)
Lemma normalized_short sz t : length (cc__normalize_local_decl_type sz t) ≤ sz - 1.
Proof.
  unfold cc__normalize_local_decl_type, channel_handle, snprintf_s. case_decide; [simpl; lia|].
  assert (Ht : ∀ l : list ascii, length (take (sz - 1) l) ≤ sz - 1) by (intros; rewrite length_take; lia).
  repeat (case_match || case_decide); simplify_option_eq; auto; repeat case_decide; simplify_eq; auto.
Qed.
Lemma declared_short var s t : declared_type var s = Some t → length t ≤ 255.
Proof. unfold declared_type. destruct (cc_parse_decl_name_and_type s 128 256). case_match; [|done]. intros [= <-]. apply (normalized_short 256). Qed.
Lemma visible_short var c : Forall (λ t, length t ≤ 255) (visible_decls var c).
Proof.
  assert (Hown : ∀ l, Forall (λ t, length t ≤ 255) (own_decls var l)).
  { induction l; simpl; [done| |done]. apply Forall_app. split; [done|]. destruct (declared_type var s) eqn:E; [|done].
    apply declared_short in E. by apply Forall_singleton. }
  induction c; simpl; [done|]. by apply Forall_app.
Qed.
(** The lookup at the end of a context. *)
Lemma scoped_lookup_spec c post var :
  quiet_context c → 1 + context_nesting c ≤ MAX_SCOPES → context_stmts c ≤ MAX_DECLS → var ≠ [] →
  cc__lookup_scoped_local_var_type (text_to c ++ post) (length (text_to c)) var 256 = head (visible_decls var c).
Proof.
  intros Hq Hn Hd Hv. unfold cc__lookup_scoped_local_var_type. rewrite decide_False by (intros [?|?]; done).
  rewrite take_app_length, scan_loop_marked. unfold marked. rewrite context_mask by done.
  pose proof (scan_context (text_to c ++ post) var c [] post scan_init eq_refl Hq fresh_init eq_refl Hn Hd) as Hs.
  pose proof (visible_short var c) as Hshort. cbn [length] in Hs. rewrite app_nil_r in Hs.
  destruct (decls _) as [|[sc ty] ds]; simpl in Hs; rewrite <- Hs in *; [done|]. simpl. apply Forall_cons in Hshort as [? _].
  by rewrite take_ge by lia.
Qed.
