(* ===== verification/TypeExpr.v ===== *)
(** Canonical type names and receiver expressions of the type registry: alias
    chains, pointer stars, field paths. *)
From S2P Require Import Prelude Bytes Lex Text TextDecl ResultSpec TypeReg TypeNorm.

Implicit Types (s t w b z : list ascii).

(** * Stripping *)

Lemma lstrip_all (f : ascii → bool) u s : forallb f u = true → (s = [] ∨ f (peek s) = false) → lstrip f (u ++ s) = s.
Proof.
  intros Hu Hs. unfold lstrip. induction u as [|c u IH]; simpl in *.
  - destruct s as [|x s]; [done|]. destruct Hs as [?|Hs]; [done|]. change (f x = false) in Hs. simpl. by rewrite Hs.
  - apply andb_true_iff in Hu as [-> Hu]. simpl. by apply IH.
Qed.
Lemma lstrip_none (f : ascii → bool) s : s = [] ∨ f (peek s) = false → lstrip f s = s.
Proof. intros. by apply (lstrip_all f []). Qed.
Lemma forallb_reverse (f : ascii → bool) u : forallb f (reverse u) = forallb f u.
Proof. induction u as [|c u IH]; [done|]. rewrite reverse_cons, forallb_app, IH. simpl. by destruct (f c), (forallb f u). Qed.
Definition last_not (f : ascii → bool) s : Prop := s = [] ∨ f (peek (reverse s)) = false.
Lemma rstrip_all (f : ascii → bool) s u : forallb f u = true → last_not f s → rstrip f (s ++ u) = s.
Proof.
  intros Hu Hs. unfold rstrip. rewrite reverse_app, lstrip_all; [apply reverse_involutive|by rewrite forallb_reverse|].
  destruct Hs as [->|Hs]; [by left|by right].
Qed.
Lemma rstrip_none (f : ascii → bool) s : last_not f s → rstrip f s = s.
Proof. intros. rewrite <- (app_nil_r s) at 1. by apply rstrip_all. Qed.
Lemma last_not_snoc (f : ascii → bool) s c : f c = false → last_not f (s ++ [c]).
Proof. intros. right. by rewrite reverse_snoc. Qed.

(** * Mangling into 128 bytes *)

Lemma mangle128_ok s : cc_result_spec_mangle_type s 128 = Some (mangle128 s) ∧ is_mangled (mangle128 s) ∧ length (mangle128 s) < 128.
Proof.
  unfold mangle128, cc_result_spec_mangle_type. case_decide; [by split_and!; [..|constructor|simpl; lia]|].
  destruct (mangle_loop_ok 128 [] (trim s)) as [Hm Hl]; [constructor|simpl; lia|]. destruct (drop_us_ok _ Hm) as [Hd Hdl].
  destruct (normalize_ok 128 (reverse (drop_us (mangle_loop 128 [] (trim s))))) as (r & -> & ? & ?);
    [by apply Forall_reverse|rewrite length_reverse; lia|lia|done].
Qed.

(** * Canonical names *)

(** The recursive calls hand a buffer to itself, which empties it. *)
Lemma param_same fuel t sz : cc__normalize_registry_container_param_name fuel true t sz = [].
Proof. by destruct fuel. Qed.
Lemma container_work_idle (param : list ascii → list ascii) w : (∀ t, param t = []) → container_work param w = w.
Proof.
  intros Hp. unfold container_work. rewrite !Hp. change (mangle128 []) with (@nil ascii). destruct (is_vec_type w); [done|].
  destruct (is_map_type w); [|done]. destruct (top_comma _ _); [|done]. rewrite !Hp. change (mangle128 []) with (@nil ascii).
  rewrite decide_True by auto. done.
Qed.
(** What the normaliser amounts to. *)
Definition alias_and_stars (reg : regp) t (sz : nat) : list ascii :=
  if decide (t = []) then [] else
  let '(w, n) := strip_stars (length (decl_work t)) (decl_work t) in
  add_stars n sz (snprintf_s sz (chase_aliases 8 reg w)).
Lemma normalize_is_alias_and_stars reg t sz : cc__normalize_registry_type_name reg t sz = alias_and_stars reg t sz.
Proof.
  unfold cc__normalize_registry_type_name, alias_and_stars. case_decide; [done|]. destruct (strip_stars _ _) as [w n].
  by rewrite container_work_idle by (intros; apply param_same).
Qed.

(** [alias_path reg b n z]: [n] aliases lead from [b] to [z], which has none. *)
Inductive alias_path (reg : regp) : list ascii → nat → list ascii → Prop :=
  | path_end b : cc_type_registry_lookup_alias reg (Some b) = None → alias_path reg b 0 b
  | path_step b a n z :
      cc_type_registry_lookup_alias reg (Some b) = Some a → a ≠ [] → a ≠ b → length a < 256 → alias_path reg a n z →
      alias_path reg b (S n) z.
Lemma chase_path reg b n z hops : alias_path reg b n z → n ≤ hops → chase_aliases hops reg b = z.
Proof.
  intros Hp. revert hops. induction Hp as [b Hb|b a n z Hb Ha Hne Hl Hp IH]; intros hops Hh.
  - destruct hops; simpl; [done|]. by rewrite Hb.
  - destruct hops as [|hops]; [lia|]. simpl. rewrite Hb, decide_False by naive_solver. rewrite snprintf_s_short by done. apply IH. lia.
Qed.
Lemma chase_short reg w hops : length w < 256 → length (chase_aliases hops reg w) < 256.
Proof.
  revert w. induction hops as [|hops IH]; intros w Hw; simpl; [done|].
  destruct (cc_type_registry_lookup_alias reg (Some w)); [|done]. case_decide; [done|]. apply IH. unfold snprintf_s. rewrite length_take. lia.
Qed.

Definition stars (n : nat) : list ascii := replicate n STAR.
Lemma stars_snoc n : stars (S n) = stars n ++ [STAR].
Proof. unfold stars. by rewrite replicate_S_end. Qed.
Lemma add_stars_all n sz out : length out + n < sz → add_stars n sz out = out ++ stars n.
Proof.
  revert out. induction n as [|n IH]; intros out Hl; simpl; [by rewrite app_nil_r|]. rewrite decide_True by lia.
  rewrite IH by (rewrite length_app; simpl; lia). by rewrite <- app_assoc.
Qed.
(** A name with no star or blank at its ends. *)
Definition bare (b : list ascii) : Prop := b ≠ [] ∧ is_space6 (peek b) = false ∧ last_not (λ c, is_space6 c || eqc c STAR) b.
Lemma last_not_weaken (f g : ascii → bool) s : (∀ c, f c = true → g c = true) → last_not g s → last_not f s.
Proof. intros Hfg [->|H]; [by left|]. right. destruct (f _) eqn:E; [|done]. apply Hfg in E. congruence. Qed.
Lemma trim_bare b n : bare b → cc__trim_type_text (b ++ stars n) = b ++ stars n.
Proof.
  intros (Hne & Hh & Hl). unfold cc__trim_type_text. rewrite lstrip_none by (right; by destruct b).
  apply rstrip_none. destruct n as [|n].
  - unfold stars. simpl. rewrite app_nil_r. eapply last_not_weaken; [|done]. intros c Hc. simpl. by rewrite Hc.
  - rewrite stars_snoc, app_assoc. by apply last_not_snoc.
Qed.
Lemma strip_stars_bare b n fuel : bare b → n ≤ fuel → strip_stars fuel (b ++ stars n) = (b, n).
Proof.
  intros Hb. revert n. induction fuel as [|fuel IH]; intros n Hn.
  { destruct n; [|lia]. unfold stars. simpl. by rewrite app_nil_r. }
  cbn [strip_stars]. unfold ends_with. destruct n as [|n].
  - unfold stars. simpl. rewrite app_nil_r. destruct Hb as (Hne & _ & [->|Hl]); [done|].
    rewrite <- (reverse_involutive b), last_reverse. destruct (reverse b) eqn:E; [done|].
    change (is_space6 a || eqc a STAR = false) in Hl. simpl. by apply orb_false_iff in Hl as [_ ->].
  - rewrite stars_snoc, app_assoc, last_snoc, eqc_refl, length_app. simpl.
    replace (length (b ++ stars n) + 1 - 1) with (length (b ++ stars n)) by lia. rewrite take_app_length, trim_bare by done.
    by rewrite IH by lia.
Qed.

(** A bare name without [[] and [!] is its own working text. *)
Lemma strchr_None c s : c ∉ s → strchr c s = None.
Proof.
  induction s as [|x s IH]; [done|]. intros [Hx Hs]%not_elem_of_cons. simpl. rewrite eqc_ne, IH by done. done.
Qed.
Lemma decl_work_bare b n :
  bare b → LBRK ∉ b → BANG ∉ b → length b + n < 256 → decl_work (b ++ stars n) = b ++ stars n.
Proof.
  intros Hb Hl Hx Hn. pose proof Hb as (Hne & _). unfold decl_work.
  assert (Hst : ∀ c, c ≠ STAR → c ∉ b → c ∉ b ++ stars n).
  { intros c Hc Hcb [?|[-> _]%elem_of_replicate]%elem_of_app; done. }
  assert (Hd : cc__normalize_local_decl_type 256 (b ++ stars n) = b ++ stars n).
  { unfold cc__normalize_local_decl_type, channel_handle. rewrite decide_False by (destruct b; done).
    rewrite !strchr_None by (by apply Hst). cbn [mbind option_bind]. rewrite take_ge; [done|].
    rewrite length_app. unfold stars. rewrite length_replicate. lia. }
  rewrite Hd, decide_False by (destruct b; done). by apply trim_bare.
Qed.
Lemma normalize_bare reg b n k z :
  bare b → LBRK ∉ b → BANG ∉ b → length b + n < 256 → alias_path reg b k z → k ≤ 8 → length z + n < 256 →
  cc__normalize_registry_type_name reg (b ++ stars n) 256 = z ++ stars n.
Proof.
  intros Hb Hl Hx Hn Hp Hk Hz. rewrite normalize_is_alias_and_stars. unfold alias_and_stars.
  rewrite decide_False by (by destruct b; [destruct Hb|]). rewrite decl_work_bare, strip_stars_bare
    by (done || (rewrite length_app; unfold stars; rewrite length_replicate; lia)).
  rewrite (chase_path reg b k z) by done. rewrite snprintf_s_short by lia. by apply add_stars_all.
Qed.

(** * Receiver paths *)

(** One access: blanks, [.] or [->], blanks, a field name. *)
Record access := Access { blanks1 : list ascii; arrow : bool; blanks2 : list ascii; acc_field : list ascii }.
Definition access_ok (a : access) : Prop :=
  forallb is_blank (blanks1 a) = true ∧ forallb is_blank (blanks2 a) = true ∧ is_ident (acc_field a) = true ∧ length (acc_field a) < 128.
Definition access_text (a : access) : list ascii :=
  blanks1 a ++ (if arrow a then [MINUS; GT] else [DOT]) ++ blanks2 a ++ acc_field a.
Definition path_text (l : list access) : list ascii := concat (access_text <$> l).

(** The type at the end of a path: one field lookup per access. *)
Fixpoint path_type (reg : regp) (ty : list ascii) (l : list access) : option (list ascii) :=
  match l with
  | [] => Some ty
  | a :: l' =>
      let base := cc__copy_type_base 256 ty in
      if arrow a && bool_decide (base = []) then None else
      ft ← cc_type_registry_lookup_field reg (Some base) (Some (acc_field a));
      path_type reg (cc__normalize_registry_type_name reg ft 256) l'
  end.

Lemma ident_start_not_blank c : cc_is_ident_start c = true → is_blank c = false ∧ is_ws c = false.
Proof. destruct c as [[] [] [] [] [] [] [] []]; vm_compute; auto. Qed.
Lemma ident_char_not_ws c : cc_is_ident_char c = true → is_ws c = false.
Proof. destruct c as [[] [] [] [] [] [] [] []]; vm_compute; auto. Qed.
(** Reading an identifier that ends at the end or before a character that does
    not belong to it. *)
Lemma span_ident n r : is_ident n = true → cc_is_ident_char (peek r) = false → span cc_is_ident_char (n ++ r) = length n.
Proof.
  destruct n as [|c n]; [done|]. simpl. intros [Hc Hn]%andb_true_iff Hr. rewrite start_is_char by done. f_equal.
  induction n as [|x n IH]; simpl in *; [by destruct r as [|y r]; [|change (cc_is_ident_char y = false) in Hr; simpl; rewrite Hr]|].
  apply andb_true_iff in Hn as [-> Hn]. by rewrite IH.
Qed.
Lemma path_stops l : Forall access_ok l → cc_is_ident_char (peek (path_text l)) = false.
Proof.
  destruct l as [|[b1 ar b2 f] l]; [done|]. intros [(Hb & _) _]%Forall_cons. unfold path_text, access_text. simpl in *.
  destruct b1 as [|c b1]; [by destruct ar|]. simpl in *. apply andb_true_iff in Hb as [Hb _].
  change (cc_is_ident_char c = false). by destruct c as [[] [] [] [] [] [] [] []].
Qed.

Lemma peek_app s r : s ≠ [] → peek (s ++ r) = peek s.
Proof. by destruct s. Qed.
Lemma ident_peek n r : is_ident n = true → cc_is_ident_start (peek (n ++ r)) = true.
Proof. destruct n as [|c n]; [done|]. simpl. by intros [? _]%andb_true_iff. Qed.
Lemma ident_not_blank n r : is_ident n = true → is_blank (peek (n ++ r)) = false ∧ is_ws (peek (n ++ r)) = false.
Proof. intros H. by apply ident_start_not_blank, ident_peek. Qed.
Lemma take_ident (n r : list ascii) k : length n < S k → take k (take (length n) (n ++ r)) = n.
Proof. intros. rewrite take_app_length, take_ge by lia. done. Qed.

Lemma path_text_cons b1 (ar : bool) b2 f l :
  path_text (Access b1 ar b2 f :: l) = b1 ++ (if ar then [MINUS; GT] else [DOT]) ++ b2 ++ f ++ path_text l.
Proof. unfold path_text, access_text. simpl. by rewrite <- !app_assoc. Qed.

Lemma resolve_path reg l ty fuel :
  Forall access_ok l → length (path_text l) ≤ fuel → resolve_fields fuel reg ty (path_text l) = path_type reg ty l.
Proof.
  intros Hl. revert ty fuel. induction Hl as [|[b1 ar b2 f] l (Hb1 & Hb2 & Hf & Hlen) Hl IH]; intros ty fuel Hfuel; [by destruct fuel|].
  rewrite path_text_cons in *. simpl in Hb1, Hb2, Hf, Hlen.
  assert (Hrest : length (path_text l) < fuel) by (rewrite !length_app in Hfuel; destruct ar; simpl in Hfuel; lia).
  destruct fuel as [|fuel]; [lia|]. cbn [resolve_fields path_type arrow acc_field].
  rewrite (lstrip_all is_blank b1) by (done || (right; by destruct ar)).
  destruct (ident_not_blank f (path_text l) Hf) as [Hnb _]. pose proof (path_stops l Hl) as Hstop.
  destruct ar; cbn [app].
  - change (eqc (peek (MINUS :: GT :: b2 ++ f ++ path_text l)) DOT) with false.
    change (eqc (peek (MINUS :: GT :: b2 ++ f ++ path_text l)) MINUS && eqc (peek (tail (MINUS :: GT :: b2 ++ f ++ path_text l))) GT) with true.
    cbn iota. change (drop 2 (MINUS :: GT :: b2 ++ f ++ path_text l)) with (b2 ++ f ++ path_text l).
    rewrite (lstrip_all is_blank b2) by (done || by right). rewrite ident_peek, span_ident, take_ident, drop_app_length by (done || lia).
    cbn [negb]. destruct (true && _); [done|]. destruct (cc_type_registry_lookup_field _ _ _); [|done]. apply IH. lia.
  - change (eqc (peek (DOT :: b2 ++ f ++ path_text l)) DOT) with true. cbn iota. change (tail (DOT :: b2 ++ f ++ path_text l)) with (b2 ++ f ++ path_text l).
    rewrite (lstrip_all is_blank b2) by (done || by right). rewrite ident_peek, span_ident, take_ident, drop_app_length by (done || lia).
    cbn [negb andb]. destruct (cc_type_registry_lookup_field _ _ _); [|done]. apply IH. lia.
Qed.

(** ** The root *)

(** A receiver as written: blanks around it, an optional [&], the path. *)
Record receiver := Receiver { ws_l : list ascii; amp : option (list ascii); root : list ascii; path : list access; ws_r : list ascii }.
Definition core_text (e : receiver) : list ascii :=
  match amp e with Some bl => AMP :: bl | None => [] end ++ root e ++ path_text (path e).
Definition receiver_text (e : receiver) : list ascii := ws_l e ++ core_text e ++ ws_r e.
Definition receiver_ok (e : receiver) : Prop :=
  forallb is_ws (ws_l e) = true ∧ forallb is_ws (ws_r e) = true ∧ (∀ bl, amp e = Some bl → forallb is_blank bl = true) ∧
  is_ident (root e) = true ∧ length (root e) < 128 ∧ Forall access_ok (path e) ∧ length (core_text e) < 256.

Lemma last_not_ident f n s : is_ident n = true → (∀ c, cc_is_ident_char c = true → f c = false) → last_not f (s ++ n).
Proof.
  intros Hn Hf. assert (Hall : forallb cc_is_ident_char n = true).
  { destruct n as [|c n]; [done|]. simpl in *. apply andb_true_iff in Hn as [? ->]. by rewrite start_is_char. }
  destruct (decide (n = [])) as [->|Hne]; [done|]. apply exists_last in Hne as (n' & c & ->). rewrite app_assoc. apply last_not_snoc, Hf.
  rewrite forallb_app in Hall. simpl in Hall. by apply andb_true_iff in Hall as [_ [? _]%andb_true_iff].
Qed.
Lemma core_last_not_ws e : receiver_ok e → last_not is_ws (core_text e).
Proof.
  intros (_ & _ & _ & Hr & _ & Hp & _). unfold core_text. destruct (path e) as [|a l] using rev_ind.
  - unfold path_text. simpl. rewrite app_nil_r. apply last_not_ident; [done|apply ident_char_not_ws].
  - apply Forall_app in Hp as [_ [(_ & _ & Hf & _) _]%Forall_cons]. unfold path_text. rewrite fmap_app, concat_app. simpl. rewrite app_nil_r.
    unfold access_text. rewrite !app_assoc. apply last_not_ident; [done|apply ident_char_not_ws].
Qed.
Lemma receiver_root_spec e :
  receiver_ok e → receiver_root (receiver_text e) = Some (bool_decide (is_Some (amp e)), root e, path_text (path e)).
Proof.
  intros Hok. pose proof (core_last_not_ws e Hok) as Hlast. destruct Hok as (Hl & Hr & Ha & Hn & Hlen & Hp & Hc).
  unfold receiver_root, receiver_text.
  assert (Hpk : core_text e ≠ [] ∧ is_ws (peek (core_text e ++ ws_r e)) = false).
  { unfold core_text. destruct (amp e); [done|]. simpl. split; [by destruct (root e)|]. rewrite <- app_assoc. by apply ident_not_blank. }
  rewrite (lstrip_all is_ws (ws_l e)) by (done || by right; apply Hpk). rewrite rstrip_all by done.
  rewrite decide_False by (destruct Hpk; intros [?|?]; [done|lia]).
  pose proof (path_stops _ Hp) as Hstop. destruct (ident_not_blank (root e) (path_text (path e)) Hn) as [Hnb _].
  unfold core_text. destruct (amp e) as [bl|] eqn:Hamp; cbn [app].
  - change (eqc (peek (AMP :: bl ++ root e ++ path_text (path e))) AMP) with true. cbn iota. cbn [tail].
    rewrite (lstrip_all is_blank bl) by (by apply Ha || by right). by rewrite ident_peek, span_ident, take_ident, drop_app_length by (done || lia).
  - assert (Hna : eqc (peek (root e ++ path_text (path e))) AMP = false).
    { apply eqc_ne. intros Heq. pose proof (ident_peek _ (path_text (path e)) Hn) as Hi. by rewrite Heq in Hi. }
    rewrite Hna. cbn iota. by rewrite ident_peek, span_ident, take_ident, drop_app_length by (done || lia).
Qed.
(** Both resolvers, on a receiver as written. *)
Lemma resolve_with_spec lookup reg e :
  receiver_ok e → resolve_with lookup reg (receiver_text e) =
  (t ← lookup (root e); ty ← path_type reg (cc__normalize_registry_type_name reg t 256) (path e);
   Some (ty, bool_decide (is_Some (amp e)) || bool_decide (STAR ∈ ty))).
Proof.
  intros Hok. unfold resolve_with. rewrite receiver_root_spec by done. cbn [mbind option_bind].
  destruct (lookup (root e)); [|done]. cbn [mbind option_bind]. rewrite resolve_path by (apply Hok || done). done.
Qed.
