(* ===== verification/TypeProps.v ===== *)
(** Properties of the type registry. *)
From S2P Require Import Prelude Bytes Lex Text TextScan TextDecl ResultSpec TypeReg TypeNorm TypeSpec TypeScope TypeExpr.

Implicit Types (n t : list ascii).

(** * The tables *)

(** C22: for every sequence of registrations and clears on a new registry, with
    memory available, every call returns 0, the tables are well formed, and the
    lookups answer as maps: a variable or field has the first concrete type
    registered for it (a parser placeholder gives way to the next type), an
    alias its last type, each container and channel instantiation is listed
    once in order of first use, and a channel handle name leads to the element
    type its instantiation was recorded with. *)
Theorem type_registry_refines_maps ops :
  (Z.of_nat (length ops) ≤ 2 ^ 60)%Z →
  ∃ rcs r, type_run ops (cc_type_registry_new true) = Some (rcs, Some r) ∧ Forall (eq 0%Z) rcs ∧ registry_ok r ∧
    (∀ n, cc_type_registry_lookup_var (Some r) (Some n) = a_var (a_run ops) !! n) ∧
    (∀ n, cc_type_registry_lookup_alias (Some r) (Some n) = a_alias (a_run ops) !! n) ∧
    (∀ s f, cc_type_registry_lookup_field (Some r) (Some s) (Some f) = a_field (a_run ops) !! (s, f)) ∧
    (∀ i, cc_type_registry_get_vec (Some r) i = a_vecs (a_run ops) !! i ∧
          cc_type_registry_get_map (Some r) i = a_maps (a_run ops) !! i ∧
          cc_type_registry_get_channel (Some r) i = a_chans (a_run ops) !! i) ∧
    (∀ n (tx : bool), n ≠ [] →
       cc_type_registry_lookup_channel_elem_type (Some r) (Some (txt (if tx then "CCChanTx_" else "CCChanRx_") ++ n)) =
       type1 <$> List.find (λ e, bool_decide (mangled_name e = n)) (a_chans (a_run ops))).
Proof.
  intros Hn. destruct empty_ok as (Ho & Hl & Hs & Hsim).
  destruct (type_run_ok ops empty_registry 0 Ho Hl Hs) as (rcs & r & Hr & Hrc & Ho' & _ & Hsim'); [unfold LIMIT; lia|].
  exists rcs, r. destruct (Hsim' _ Hsim) as [H1 H2 H3 H4 H5 H6]. split_and!; [done|done|done|intros x; apply H1|intros x; apply H2|intros x y; apply H3| |].
  - intros i. simpl. by rewrite H4, H5, H6.
  - intros x tx Hx. rewrite <- (f_equal (λ l, type1 <$> List.find (λ e, bool_decide (mangled_name e = x)) l) H6).
    unfold cc_type_registry_lookup_channel_elem_type. cbn [mbind option_bind].
    destruct tx; (rewrite decide_False by done); done.
Qed.
Definition demo_ops : list type_op :=
  [AddVar (txt "v") (txt "__CCVecGeneric"); AddVar (txt "v") (txt "CCVec_int"); AddVar (txt "v") (txt "CCSlice");
   AddChannel (txt "int") (txt "int"); AddChannel (txt "long") (txt "int")].
Lemma type_registry_refines_maps_witness :
  ∃ rcs r, type_run demo_ops (cc_type_registry_new true) = Some (rcs, Some r) ∧
    cc_type_registry_lookup_var (Some r) (Some (txt "v")) = Some (txt "CCVec_int").
Proof.
  destruct (type_registry_refines_maps demo_ops) as (rcs & r & Hr & _ & _ & Hv & _); [simpl; lia|]. exists rcs, r. split; [done|].
  rewrite Hv. vm_compute. reflexivity.
Defined.

(** Whatever the allocator answers, an operation on a registry whose texts
    are all present returns, and keeps every table within its array with one
    entry per key. *)
Theorem type_registry_well_formed m op r b :
  registry_ok r → registry_live r → small r b → (b < LIMIT)%Z →
  ∃ rc r', type_step m op (Some r) = Some (rc, Some r') ∧ registry_ok r' ∧ (rc = 0%Z → registry_live r').
Proof.
  intros Ho Hl Hs Hb. destruct (type_step_ok m r b Ho Hl Hs Hb op) as (rc & r' & Hr & Ho' & _ & Hrc & _).
  exists rc, r'. split_and!; [done|done|]. by intros [? _]%Hrc.
Qed.
(** A failed [strdup] in an update loses the variable's type: the lookup
    answers NULL and the next registration of the name compares the NULL. *)
Theorem add_var_oom_then_faults r n old t m :
  find_entry n (vars r) = Some (VarEntry n (Some old)) → old ∈ placeholder_types → ok_dup1 m = false →
  ∃ r', cc_type_registry_add_var m (Some r) (Some n) (Some t) = Some ((-1)%Z, Some r') ∧
    cc_type_registry_lookup_var (Some r') (Some n) = None ∧
    ∀ m' t', cc_type_registry_add_var m' (Some r') (Some n) (Some t') = None.
Proof.
  intros Hf Hp Hm. unfold cc_type_registry_add_var, upsert.
  assert (Hb : add_var_update (ok_dup1 m) t (VarEntry n (Some old)) = Some ((-1)%Z, VarEntry n None)).
  { unfold add_var_update. rewrite Hm. cbn [var_type mbind option_bind].
    assert (Hs : ∀ p, p = txt "CCChanTx_" ∨ p = txt "CCChanRx_" → starts_with p old = false).
    { intros p Hpp. destruct (starts_with p old) eqn:E; [|done]. by destruct (concrete_handle p old Hpp E). }
    rewrite !Hs by auto. simpl. by rewrite bool_decide_eq_true_2. }
  destruct (update_first_hit n _ _ _ _ _ Hf Hb eq_refl) as (l' & -> & _ & _ & Hy). simpl. eexists. split; [done|].
  assert (Hf' : find_entry n l' = Some (VarEntry n None)) by (rewrite Hy; by rewrite decide_True).
  split; [simpl; by rewrite Hf'|]. intros m' t'. simpl.
  assert (Hu : update_first n (add_var_update (ok_dup1 m') t') l' = None); [|by rewrite Hu].
  clear -Hf'. induction l' as [|e l IH]; [done|]. rewrite find_entry_cons in Hf'. simpl. unfold hit. case_decide; case_bool_decide; try done.
  - injection Hf' as ->. done.
  - by rewrite IH.
Qed.

(** * Canonical names *)

(** a type name with [n] stars that leads through at most eight aliases to a
    name without one is canonicalised to that name with the same stars, also
    when that name is a container spelling such as [Vec<int>]: the code that
    should rewrite those hands a buffer to itself and never does. *)
Theorem canonical_follows_aliases reg b (n k : nat) z :
  bare b → LBRK ∉ b → BANG ∉ b → length b + n < 256 → alias_path reg b k z → k ≤ 8 → z ≠ [] → length z + n < 256 →
  cc_type_registry_canonicalize_type_name reg (Some (b ++ stars n)) 256 = Some (z ++ stars n).
Proof.
  intros Hb Hl Hx Hn Hp Hk Hz Hlen. unfold cc_type_registry_canonicalize_type_name. rewrite decide_False by done.
  rewrite (normalize_bare reg b n k z) by done. rewrite decide_False by (by destruct z). done.
Qed.
Definition demo_registry : CCTypeRegistry :=
  empty_registry <| aliases := [AliasEntry (txt "Ints") (Some (txt "IntVec")); AliasEntry (txt "IntVec") (Some (txt "Vec<int>"))] |>
                 <| vars := [VarEntry (txt "p") (Some (txt "Node *"))] |>
                 <| fields := [FieldEntry (txt "Node") (txt "next") (Some (txt "Node*")); FieldEntry (txt "Node") (txt "v") (Some (txt "Ints"))] |>.
Lemma canonical_follows_aliases_witness :
  cc_type_registry_canonicalize_type_name (Some demo_registry) (Some (txt "Ints**")) 256 = Some (txt "Vec<int>**").
Proof.
  apply (canonical_follows_aliases (Some demo_registry) (txt "Ints") 2 2 (txt "Vec<int>"));
    [split_and!; [done|done|by right]|by apply (bool_decide_unpack _)|by apply (bool_decide_unpack _)|simpl; lia| |lia|done|simpl; lia].
  apply path_step with (a := txt "IntVec"); [vm_compute; reflexivity|done|done|simpl; lia|].
  apply path_step with (a := txt "Vec<int>"); [vm_compute; reflexivity|done|done|simpl; lia|].
  apply path_end. vm_compute. reflexivity.
Defined.

(** * Scopes *)

(** at the end of any text made of statements, closed blocks and open
    blocks (with comments, literals and parentheses inside them), within 255
    nested scopes and 256 statements, the lookup of a local variable answers
    with the last declaration of it in the innermost open scope that declares
    it; declarations in closed blocks do not count. *)
Theorem scoped_lookup_innermost c post var :
  quiet_context c → 1 + context_nesting c ≤ MAX_SCOPES → context_stmts c ≤ MAX_DECLS → var ≠ [] →
  cc__lookup_scoped_local_var_type (text_to c ++ post) (length (text_to c)) var 256 = head (visible_decls var c).
Proof.
  intros Hq Hn Hd Hv. apply scoped_lookup_spec; done.
Qed.
(** [int x; f(int y) { char x; { float x; } g(x]: the use sees [char]. *)
Definition all_code (s : list ascii) : list bool := replicate (length s) true.
Definition demo_context : context :=
  let st s l := IStmt (txt s) (all_code (txt s)) l in
  Inside (st "int x" INil) (txt " f") (all_code (txt " f"))
    (Here (st " char x" (IBlock (txt " ") (all_code (txt " ")) (st " float x" INil) INil)) (txt " x") (all_code (txt " x"))).
Lemma quiet_words s : Forall (λ c, plain c ∧ c ∉ [LBR; RBR; SEMI]) s → quiet s (all_code s).
Proof.
  intros H. unfold quiet, code_free, all_code. induction H as [|c s [Hp Hc] _ [IH1 IH2]]; simpl; [split; constructor|].
  split; [by apply frag_plain|]. by constructor.
Qed.
Lemma scoped_lookup_innermost_witness :
  cc__lookup_scoped_local_var_type (text_to demo_context ++ txt ");") (length (text_to demo_context)) (txt "x") 256 = Some (txt "char").
Proof.
  rewrite (scoped_lookup_innermost demo_context (txt ");") (txt "x"));
    [vm_compute; reflexivity| |apply (bool_decide_unpack _); vm_compute; exact I|apply (bool_decide_unpack _); vm_compute; exact I|done].
  repeat split; try apply quiet_words; apply (bool_decide_unpack _); vm_compute; exact I.
Defined.

(** * Receivers *)

(** a receiver [&root.f->g...], written with any blanks, resolves to the
    type found by one field lookup per access, starting from the type of the
    root: the declaration in scope at the use when the source is given and
    declares it, else the registered one; the result is a pointer when [&]
    was written or the type has a star. *)
Theorem receiver_path_resolved r e c post :
  receiver_ok e → quiet_context c → 1 + context_nesting c ≤ MAX_SCOPES → context_stmts c ≤ MAX_DECLS →
  let result (t : option (list ascii)) :=
    t ← t; ty ← path_type (Some r) (cc__normalize_registry_type_name (Some r) t 256) (path e);
    Some (ty, bool_decide (is_Some (amp e)) || bool_decide (STAR ∈ ty)) in
  let registered := cc_type_registry_lookup_var (Some r) (Some (root e)) in
  cc_type_registry_resolve_receiver_expr (Some r) (Some (receiver_text e)) = result registered ∧
  cc_type_registry_resolve_receiver_expr_at (Some r) (Some (receiver_text e)) (Some (text_to c ++ post)) (length (text_to c)) =
    result (match head (visible_decls (root e) c) with Some t => Some t | None => registered end).
Proof.
  intros He Hq Hn Hd result registered. assert (Hroot : root e ≠ []) by (destruct He as (_ & _ & _ & Hr & _); by destruct (root e)).
  unfold cc_type_registry_resolve_receiver_expr, cc_type_registry_resolve_receiver_expr_at. cbn [mbind option_bind].
  rewrite !resolve_with_spec by done. rewrite scoped_lookup_spec by done. done.
Qed.
Definition demo_receiver : receiver :=
  Receiver (txt " ") (Some []) (txt "p") [Access [] true [] (txt "next"); Access (txt " ") true (txt " ") (txt "v")] [NL].
Definition here_text : context := Here INil (txt "f") (all_code (txt "f")).
Lemma receiver_path_resolved_witness :
  cc_type_registry_resolve_receiver_expr (Some demo_registry) (Some (txt " &p->next -> v" ++ [NL])) = Some (txt "Vec<int>", true) ∧
  cc_type_registry_resolve_receiver_expr_at (Some demo_registry) (Some (txt " &p->next -> v" ++ [NL])) (Some (txt "f()")) 1 = Some (txt "Vec<int>", true).
Proof.
  destruct (receiver_path_resolved demo_registry demo_receiver here_text (txt "()")) as [H1 H2].
  - split_and!; try by (apply (bool_decide_unpack _); vm_compute; exact I).
    intros bl [= <-]. done.
  - split; [done|]. apply quiet_words. apply (bool_decide_unpack _). vm_compute. exact I.
  - apply (bool_decide_unpack _). vm_compute. exact I.
  - apply (bool_decide_unpack _). vm_compute. exact I.
  - split; [exact (eq_trans H1 ltac:(vm_compute; reflexivity))|exact (eq_trans H2 ltac:(vm_compute; reflexivity))].
Defined.

(** [&x] has the type of [x], without the star that the branch for [&] further
    down adds: the receiver resolver accepts the [&] first and its pointer flag
    is dropped. *)
Theorem address_of_has_no_star r x bl t :
  is_ident x = true → length x < 128 → forallb is_blank bl = true → length bl < 100 →
  cc_type_registry_lookup_var (Some r) (Some x) = Some t →
  cc__normalize_registry_type_name (Some r) t 256 ≠ [] →
  cc_type_registry_resolve_expr_type (Some r) (Some (AMP :: bl ++ x)) = Some (cc__normalize_registry_type_name (Some r) t 256).
Proof.
  intros Hi Hl Hb Hbl Ht Hne. unfold cc_type_registry_resolve_expr_type. cbn [mbind option_bind resolve_expr_loop].
  set (e := Receiver [] (Some bl) x [] []).
  assert (Hok : receiver_ok e).
  { split_and!; simpl; [done|done|by intros ? [= <-]|done|done|done|]. unfold core_text, path_text. simpl. rewrite app_nil_r, length_app. lia. }
  assert (Htext : AMP :: bl ++ x = receiver_text e) by (unfold receiver_text, core_text, path_text; simpl; by rewrite !app_nil_r).
  rewrite lstrip_none by by right. rewrite rstrip_none.
  2: { change (AMP :: bl ++ x) with ((AMP :: bl) ++ x). apply last_not_ident; [done|]. intros c Hc. by destruct c as [[] [] [] [] [] [] [] []]. }
  rewrite decide_False by (intros [?|?]; [done|simpl in *; rewrite length_app in *; lia]).
  assert (Hlit : literal_type (AMP :: bl ++ x) = None).
  { unfold literal_type. rewrite (bool_decide_eq_false_2 (_ ∨ _)) by (intros [?|?]; done). rewrite (bool_decide_eq_false_2 (_ = txt "NULL")) by done.
    replace (starts_with (txt "sizeof(") (AMP :: bl ++ x)) with false by (symmetry; apply bool_decide_eq_false_2; done).
    by rewrite !andb_false_r. }
  rewrite Hlit, Htext. unfold cc_type_registry_resolve_receiver_expr. cbn [mbind option_bind].
  rewrite resolve_with_spec by done. change (root e) with x. rewrite Ht. cbn [mbind option_bind path_type path e]. destruct (cc__normalize_registry_type_name (Some r) t 256); done.
Qed.
