(* ===== verification/Ir.v ===== *)
(** The intermediate representation of the compiler ([src/cc/src/ir/ir.c]) and
    its differential verifier ([src/cc/src/ir/verifier.c]): the arena, nodes,
    carving the unwrap sigils out of a source text, and emitting the text of a
    tree. *)
From S2P Require Import Prelude Bytes Lex Text.

Implicit Types (src s l : list ascii).

(** * The arena

    A pointer into the arena is a block number and an offset; blocks are
    numbered from the oldest. *)
Definition CC_IR_ARENA_BLOCK_DEFAULT : Z := 64 * 1024.
Record CCIrArenaBlock := Block { blk_cap : Z; blk_used : Z }.
Record CCIrArena := Arena { blks : list CCIrArenaBlock; total_bytes : Z; next_id : Z }.
#[export] Instance eta_arena : Eta CCIrArena := λ a, Arena (blks a) (total_bytes a) (next_id a).
Record ptr := Ptr { p_block : nat; p_off : Z }.

Section arena.
(** Whether the [k]-th [malloc] succeeds, for a block of that capacity. *)
Context (malloc_ok : nat → Z → bool).

Definition cc_ir_arena_new_block (k : nat) (min_bytes : Z) : option CCIrArenaBlock :=
  let cap := if decide (CC_IR_ARENA_BLOCK_DEFAULT < min_bytes)%Z then min_bytes else CC_IR_ARENA_BLOCK_DEFAULT in
  if malloc_ok k cap then Some (Block cap 0) else None.
Definition cc_ir_arena_create (calloc_ok : bool) : option CCIrArena :=
  if calloc_ok then b ← cc_ir_arena_new_block 0 CC_IR_ARENA_BLOCK_DEFAULT; Some (Arena [b] 0 1) else None.

(** Computations over the arena; [None] is the NULL or -1 of a failed
    allocation.  The head of the block list is its last element. *)
Definition IR (A : Type) : Type := CCIrArena → option A * CCIrArena.
Definition ret {A} (x : A) : IR A := λ a, (Some x, a).
Definition fail {A} : IR A := λ a, (None, a).
Definition bind {A B} (m : IR A) (k : A → IR B) : IR B :=
  λ a, match m a with (Some x, a') => k x a' | (None, a') => (None, a') end.
Notation "'let*' x ':=' m 'in' k" := (bind m (λ x, k)) (at level 200, x name, m at level 100, k at level 200).

Definition align8 (n : Z) : Z := Z.land (wrap64 (n + 7)) (wrap64 (Z.lnot 7)).
Definition bump (i : nat) (n : Z) (a : CCIrArena) : option ptr * CCIrArena :=
  match blks a !! i with
  | Some b =>
      (Some (Ptr i (blk_used b)),
       a <| blks ::= alter (λ b, Block (blk_cap b) (blk_used b + n)) i |> <| total_bytes := wrap64 (total_bytes a + n) |>)
  | None => (None, a)
  end.
Definition cc_ir_alloc (n : Z) : IR ptr := λ a,
  if decide (n = 0)%Z then (None, a) else
  let n := align8 n in
  let k := length (blks a) in
  match last (blks a) with
  | None => (None, a)
  | Some b =>
      if decide (blk_cap b < wrap64 (blk_used b + n))%Z then
        match cc_ir_arena_new_block k n with
        | None => (None, a)
        | Some nb => bump k n (a <| blks := blks a ++ [nb] |>)
        end
      else bump (k - 1) n a
  end.
(** The copy of [src[0..n)]: its text. *)
Definition cc_ir_strndup s (n : nat) : IR (list ascii) :=
  let* _ := cc_ir_alloc (Z.of_nat n + 1) in ret (take n s).
Definition cc_ir_arena_bytes (a : CCIrArena) : Z := total_bytes a.

(** * Nodes *)

Inductive CCIrKind := CC_IR_INVALID | CC_IR_FILE | CC_IR_OPAQUE_TEXT | CC_IR_UNWRAP_BANG | CC_IR_UNWRAP_Q.
Record CCIrSpan := Span { byte_start : nat; byte_end : nat }.
(** The texts of an unwrap; [None] is NULL. *)
Record CCIrUnwrap := Unwrap {
  lhs_text : option (list ascii); binder_name : option (list ascii); body_text : option (list ascii); stmt_position : bool }.
Inductive CCIrNode :=
  Node (id : Z) (kind : CCIrKind) (span : CCIrSpan) (raw_text : list ascii) (children : list CCIrNode) (children_cap : Z) (unwrap : CCIrUnwrap).
Definition no_unwrap : CCIrUnwrap := Unwrap None None None false.
Definition node_kind (n : CCIrNode) : CCIrKind := let '(Node _ k _ _ _ _ _) := n in k.
Definition node_span (n : CCIrNode) : CCIrSpan := let '(Node _ _ sp _ _ _ _) := n in sp.
Definition raw_text (n : CCIrNode) : list ascii := let '(Node _ _ _ t _ _ _) := n in t.
Definition children (n : CCIrNode) : list CCIrNode := let '(Node _ _ _ _ c _ _) := n in c.
Definition node_unwrap (n : CCIrNode) : CCIrUnwrap := let '(Node _ _ _ _ _ _ u) := n in u.
Definition with_raw (t : list ascii) (n : CCIrNode) : CCIrNode := let '(Node i k sp _ c cc u) := n in Node i k sp t c cc u.
Definition with_unwrap (u : CCIrUnwrap) (n : CCIrNode) : CCIrNode := let '(Node i k sp t c cc _) := n in Node i k sp t c cc u.

(** [sizeof(CCIrNode)] on a 64-bit target; node numbers are 32 bits wide. *)
Definition sizeof_node : Z := 152.
Definition cc_ir_node_new (k : CCIrKind) (sp : CCIrSpan) : IR CCIrNode :=
  let* _ := cc_ir_alloc sizeof_node in
  λ a, (Some (Node (next_id a) k sp [] [] 0 no_unwrap), a <| next_id := (next_id a + 1) mod 2 ^ 32 |>)%Z.
Definition cc_ir_node_append_child (parent child : CCIrNode) : IR CCIrNode :=
  let '(Node i k sp t c cap u) := parent in
  if decide (cap ≤ Z.of_nat (length c))%Z then
    let new_cap := if decide (cap = 0)%Z then 4%Z else (cap * 2)%Z in
    let* _ := cc_ir_alloc (new_cap * 8) in ret (Node i k sp t (c ++ [child]) new_cap u)
  else ret (Node i k sp t (c ++ [child]) cap u).

(** * The backward scanner *)

Definition at_ src (i : nat) : ascii := default NUL (src !! i).
Fixpoint skip_bc_back src (i k : nat) : nat :=
  match k with
  | O => 0
  | S k' => if eqc (at_ src k') SLASH && bool_decide (S k' < i) && eqc (at_ src (S k')) STAR then k' else skip_bc_back src i k'
  end.
Definition cc_ir_skip_block_comment_backward src (i : nat) : nat := if decide (i < 1) then 0 else skip_bc_back src i (i - 1).
Fixpoint backslashes src (m : nat) : nat :=
  match m with O => 0 | S m' => if eqc (at_ src m') BSLASH then S (backslashes src m') else 0 end.
Fixpoint skip_str_back src (q : ascii) (k : nat) : nat :=
  match k with O => 0 | S k' => if eqc (at_ src k') q && Nat.even (backslashes src k') then k' else skip_str_back src q k' end.
Definition cc_ir_skip_str_backward src (i : nat) : nat := skip_str_back src (at_ src i) i.
Fixpoint line_start src (pos : nat) : nat :=
  match pos with O => 0 | S p => if eqc (at_ src p) NL then pos else line_start src p end.
Fixpoint line_comment_loop (st : option ascii) l : bool :=
  match l with
  | [] => false
  | c :: l' =>
      match st with
      | Some q =>
          if eqc c BSLASH && more l' then match l' with [] => false | _ :: l'' => line_comment_loop st l'' end
          else line_comment_loop (if eqc c q then None else st) l'
      | None =>
          if eqc c DQ || eqc c SQ then line_comment_loop (Some c) l'
          else if eqc c SLASH && eqc (peek l') SLASH then true
          else line_comment_loop None l'
      end
  end.
Definition cc_ir_pos_in_line_comment src (pos : nat) : bool := line_comment_loop None (range src (line_start src pos) pos).
Definition cc_ir_eq_is_boundary src (end_ pos : nat) : bool :=
  if decide (pos = 0) then true else
  let p := at_ src (pos - 1) in
  if eqc p (chr 61) || eqc p (chr 33) || eqc p (chr 60) || eqc p (chr 62) then false
  else negb (bool_decide (pos + 1 < end_) && eqc (at_ src (pos + 1)) (chr 61)).
Definition cc_ir_is_ident : ascii → bool := cc_is_ident_char.
Fixpoint to_newline src (i : nat) : nat :=
  match i with O => 0 | S i' => if eqc (at_ src i) NL then i else to_newline src i' end.

(** The loop of [cc_ir_find_lhs_start_ex] with [i] as at its head: the start of
    the left-hand side, and [*out_stmt_pos]. *)
Fixpoint lhs_back (fuel : nat) src (from par brk i : nat) : nat * bool :=
  match fuel, i with
  | O, _ | _, O => (0, true)
  | S fuel', S i' =>
      let c := at_ src i' in
      let go := lhs_back fuel' src from par brk in
      if eqc c SLASH && bool_decide (0 < i') && eqc (at_ src (i' - 1)) STAR then go (cc_ir_skip_block_comment_backward src i')
      else if negb (eqc c NL) && cc_ir_pos_in_line_comment src i' then go (to_newline src i')
      else if eqc c DQ || eqc c SQ then go (cc_ir_skip_str_backward src i')
      else if eqc c RPAR then lhs_back fuel' src from (S par) brk i'
      else if eqc c LPAR then if decide (0 < par) then lhs_back fuel' src from (par - 1) brk i' else (i, false)
      else if eqc c RBRK then lhs_back fuel' src from par (S brk) i'
      else if eqc c LBRK then if decide (0 < brk) then lhs_back fuel' src from par (brk - 1) i' else (i, false)
      else if decide (0 < par ∨ 0 < brk) then go i'
      else if eqc c (chr 59) || eqc c LBR || eqc c RBR then (i, true)
      else if eqc c (chr 64) && bool_decide (i < from) && cc_is_ident_start (at_ src i) then go i'
      else if eqc c (chr 44) || eqc c (chr 63) || eqc c (chr 58) || eqc c (chr 64) then (i, false)
      else if eqc c (chr 61) && cc_ir_eq_is_boundary src from i' then (i, false)
      else if eqc c (chr 38) && bool_decide (0 < i') && eqc (at_ src (i' - 1)) (chr 38) then (i, false)
      else if eqc c (chr 124) && bool_decide (0 < i') && eqc (at_ src (i' - 1)) (chr 124) then (i, false)
      else go i'
  end.
Definition cc_ir_find_lhs_start_ex src (from : nat) : nat * bool := lhs_back from src from 0 0 from.
Definition cc_ir_trim_ws_left src (a b : nat) : nat := a + span is_ws (range src a b).
Definition cc_ir_trim_ws_right src (a b : nat) : nat := b - span is_ws (reverse (range src a b)).
Definition cc_ir_lhs_starts_with_return src (a b : nat) : bool :=
  let a := cc_ir_trim_ws_left src a b in
  if decide (b < a + 6) then false
  else if negb (bool_decide (range src a (a + 6) = txt "return")) then false
  else if bool_decide (a + 6 < b) && cc_ir_is_ident (at_ src (a + 6)) then false
  else negb (bool_decide (0 < a) && cc_ir_is_ident (at_ src (a - 1))).

(** * The forward scanners *)

Definition cc_ir_range_is_ident src (a b : nat) : bool :=
  match range src a b with c :: l => cc_is_ident_start c && forallb cc_is_ident_char l | [] => false end.
(** Loops over what follows [from]; they return the offset from there. *)
Fixpoint rhs_end_loop (st : lex) (d : depths) (i : nat) l : nat :=
  match l with
  | [] => i
  | c :: l' =>
      match lex_step false st c (peek l') (more l') with
      | Skip st' false => rhs_end_loop st' d (S i) l'
      | Skip st' true => match l' with [] => S i | _ :: l'' => rhs_end_loop st' d (S (S i)) l'' end
      | IsCode =>
          match opens c, closes c with
          | Some k, _ => rhs_end_loop Code (set_depth k S d) (S i) l'
          | None, Some k => if decide (depth_of k d = 0) then i else rhs_end_loop Code (set_depth k pred d) (S i) l'
          | None, None =>
              if negb (all_zero d) then rhs_end_loop Code d (S i) l'
              else if bool_decide (c ∈ [chr 59; chr 44; chr 63; chr 58]) then i
              else if (eqc c (chr 38) && eqc (peek l') (chr 38)) || (eqc c (chr 124) && eqc (peek l') (chr 124)) then i
              else rhs_end_loop Code d (S i) l'
          end
      end
  end.
Definition cc_ir_find_rhs_end src (from : nat) : nat := rhs_end_loop Code no_depth from (drop from src).
Fixpoint semi_loop (st : lex) (d : depths) (i : nat) l : nat :=
  match l with
  | [] => i
  | c :: l' =>
      match lex_step false st c (peek l') (more l') with
      | Skip st' false => semi_loop st' d (S i) l'
      | Skip st' true => match l' with [] => S i | _ :: l'' => semi_loop st' d (S (S i)) l'' end
      | IsCode =>
          match opens c, closes c with
          | None, None => if all_zero d && eqc c (chr 59) then i else semi_loop Code d (S i) l'
          | _, _ => semi_loop Code (adjust c d) (S i) l'
          end
      end
  end.
Definition cc_ir_find_top_level_semi src (from : nat) : nat := semi_loop Code no_depth from (drop from src).

(** [None] when it is not recognised. *)
Record CCIrTail := Tail { binder : option (nat * nat); body_a : nat; body_b : nat; span_end : nat; is_block : bool }.
Definition scan_body src (p : nat) (kind : CCIrKind) (b : option (nat * nat)) : option CCIrTail :=
  let n := length src in
  if decide (n ≤ p) then None else
  match kind with
  | CC_IR_UNWRAP_BANG =>
      if eqc (at_ src p) (chr 59) then Some (Tail b p p (p + 1) false)
      else if eqc (at_ src p) LBR then
        r ← cc_find_matching_brace src p;
        let q := cc_skip_ws_len src (r + 1) in
        Some (Tail b (p + 1) r (if bool_decide (q < n) && eqc (at_ src q) (chr 59) then q + 1 else r + 1) true)
      else
        let semi := cc_ir_find_top_level_semi src p in
        if decide (n ≤ semi) then None else Some (Tail b p semi (semi + 1) false)
  | _ => let e := cc_ir_find_rhs_end src p in Some (Tail b p e e false)
  end.
Definition cc_ir_scan_tail src (after_sigil : nat) (kind : CCIrKind) : option CCIrTail :=
  let p := cc_skip_ws_len src after_sigil in
  if decide (length src ≤ p) then None else
  if eqc (at_ src p) LPAR then
    rpar ← cc_find_matching_paren src p;
    let ba := cc_ir_trim_ws_left src (p + 1) rpar in
    let bb := cc_ir_trim_ws_right src ba rpar in
    if negb (cc_ir_range_is_ident src ba bb) then None
    else scan_body src (cc_skip_ws_len src (rpar + 1)) kind (Some (ba, bb))
  else scan_body src p kind None.

(** * Building *)

Fixpoint parenless_loop (st : lex) l : bool :=
  match l with
  | [] => true
  | c :: l' =>
      match lex_step false st c (peek l') (more l') with
      | Skip st' false => parenless_loop st' l'
      | Skip st' true => match l' with [] => true | _ :: l'' => parenless_loop st' l'' end
      | IsCode => if eqc c LPAR || eqc c RPAR then false else parenless_loop Code l'
      end
  end.
Definition cc_ir_lhs_is_parenless src (a b : nat) : bool := if decide (b ≤ a) then false else parenless_loop Code (range src a b).
Definition cc_ir_append_opaque (file : CCIrNode) src (a b : nat) : IR CCIrNode :=
  if decide (b ≤ a) then ret file else
  let* t := cc_ir_node_new CC_IR_OPAQUE_TEXT (Span a b) in
  let* txt := cc_ir_strndup (drop a src) (b - a) in
  cc_ir_node_append_child file (with_raw txt t).
(** A copy of [src[a..b)], or NULL when it is empty. *)
Definition opt_dup src (a b : nat) : IR (option (list ascii)) :=
  if decide (b ≤ a) then ret None else let* t := cc_ir_strndup (drop a src) (b - a) in ret (Some t).

(** What one turn of the carving loop finds at a sigil: its position, the start
    of the node, the trimmed left-hand side and the statement flag. *)
Record site := Site { sigil : nat; s_lhs : nat; s_la : nat; s_lb : nat; s_stmt : bool }.
Definition next_sigil src (cursor : nat) : nat :=
  let n := length src in
  let bang := cc_find_substr_top_level src cursor n (txt "!>") in
  let qmrk := cc_find_substr_top_level src cursor n (txt "?>") in
  if decide (bang < qmrk) then bang else qmrk.
Definition find_site src (cursor sg : nat) : site :=
  let '(lhs, st) := cc_ir_find_lhs_start_ex src sg in
  let lhs := if decide (lhs < cursor) then cursor else lhs in
  let lhs := if cc_ir_lhs_starts_with_return src lhs sg then cc_ir_trim_ws_left src lhs sg + 6 else lhs in
  let la := cc_ir_trim_ws_left src lhs sg in
  Site sg lhs la (cc_ir_trim_ws_right src la sg) st.
Definition kind_at src (sg : nat) : CCIrKind := if eqc (at_ src sg) (chr 33) then CC_IR_UNWRAP_BANG else CC_IR_UNWRAP_Q.
(** [T !>(E) f(...)]: a declarator, not an unwrap. *)
Definition is_decl_form src (x : site) : bool :=
  s_stmt x && bool_decide (s_la x < s_lb x) && cc_ir_lhs_is_parenless src (s_la x) (s_lb x) &&
  (let post := cc_skip_ws_len src (sigil x + 2) in bool_decide (post < length src) && eqc (at_ src post) LPAR).
Definition make_unwrap (file : CCIrNode) src (cursor : nat) (x : site) : IR (CCIrNode * nat) :=
  let k := kind_at src (sigil x) in
  let tail := cc_ir_scan_tail src (sigil x + 2) k in
  let fin := match tail with Some t => span_end t | None => sigil x + 2 end in
  let* file := cc_ir_append_opaque file src cursor (s_lhs x) in
  let* un := cc_ir_node_new k (Span (s_lhs x) fin) in
  let* raw := cc_ir_strndup (drop (s_lhs x) src) (fin - s_lhs x) in
  let* lt := opt_dup src (s_la x) (s_lb x) in
  let* bn := match tail with Some (Tail (Some (ba, bb)) _ _ _ _) => opt_dup src ba bb | _ => ret None end in
  let* bt := match tail with Some t => opt_dup src (body_a t) (body_b t) | None => ret None end in
  let* file := cc_ir_node_append_child file (with_unwrap (Unwrap lt bn bt (s_stmt x)) (with_raw raw un)) in
  ret (file, fin).
Fixpoint carve_loop (fuel : nat) (file : CCIrNode) src (cursor : nat) : IR CCIrNode :=
  match fuel with
  | O => fail
  | S fuel' =>
      let n := length src in
      if decide (n ≤ cursor) then ret file else
      let sg := next_sigil src cursor in
      if decide (n ≤ sg) then cc_ir_append_opaque file src cursor n else
      let x := find_site src cursor sg in
      if is_decl_form src x then
        let* file := cc_ir_append_opaque file src cursor (sg + 2) in carve_loop fuel' file src (sg + 2)
      else
        let* r := make_unwrap file src cursor x in carve_loop fuel' r.1 src r.2
  end.
Definition cc_ir_carve_sigils (file : CCIrNode) src : IR CCIrNode := carve_loop (S (length src)) file src 0.
(** The stub table and the path are not consulted. *)
Definition cc_ir_build_from_stub src : IR CCIrNode :=
  let* file := cc_ir_node_new CC_IR_FILE (Span 0 (length src)) in
  let* raw := cc_ir_strndup src (length src) in
  let file := with_raw raw file in
  if decide (src = []) then ret file else cc_ir_carve_sigils file src.
End arena.

(** * Emitting *)

(** The output buffer: its text so far and its capacity. *)
Record outbuf := Out { out_text : option (list ascii); out_cap : Z }.
Definition out_len (o : outbuf) : nat := length (default [] (out_text o)).
Section emit.
Context (realloc_ok : Z → bool).
Definition cc_ir_emit_append s (o : outbuf) : option outbuf :=
  if decide (s = []) then Some o else
  let need := (Z.of_nat (out_len o) + Z.of_nat (length s) + 1)%Z in
  let t := Some (default [] (out_text o) ++ s) in
  if decide (out_cap o < need)%Z then
    nc ← grow grow_fuel (if decide (out_cap o = 0)%Z then 1024%Z else out_cap o) need;
    if realloc_ok nc then Some (Out t nc) else None
  else Some (Out t (out_cap o)).
Fixpoint cc_ir_emit_node (n : CCIrNode) (o : outbuf) : option outbuf :=
  let '(Node _ k _ raw c _ _) := n in
  match k with
  | CC_IR_FILE =>
      (fix emit_children (c : list CCIrNode) (o : outbuf) : option outbuf :=
         match c with [] => Some o | x :: c' => o' ← cc_ir_emit_node x o; emit_children c' o' end) c o
  | CC_IR_OPAQUE_TEXT | CC_IR_UNWRAP_BANG | CC_IR_UNWRAP_Q => cc_ir_emit_append raw o
  | CC_IR_INVALID => None
  end.
(** The text given to the caller. *)
Definition cc_ir_emit_text (root : CCIrNode) : option (list ascii) :=
  o ← cc_ir_emit_node root (Out None 0);
  match out_text o with Some t => Some t | None => if realloc_ok 1 then Some [] else None end.
End emit.

(** * The verifier *)

(** [cache] is [cc_ir_verify_cache], [env] the variable [CC_VERIFY_IR]. *)
Definition cc_ir_verify_active (cache : Z) (env : option (list ascii)) : bool * Z :=
  let c := if decide (cache < 0)%Z
           then match env with Some s => if decide (s ≠ [] ∧ s ≠ txt "0") then 1%Z else 0%Z | None => 0%Z end else cache in
  (negb (bool_decide (c = 0)%Z), c).
Fixpoint cc_ir_verify_first_diff_loop (i : nat) (a b : list ascii) : option nat :=
  match a, b with
  | x :: a', y :: b' => if eqc x y then cc_ir_verify_first_diff_loop (S i) a' b' else Some i
  | [], [] => None
  | _, _ => Some i
  end.
Definition cc_ir_verify_first_diff (a b : list ascii) : Z :=
  match cc_ir_verify_first_diff_loop 0 a b with Some i => Z.of_nat i | None => (-1)%Z end.
(** The return code; what it prints is not modelled. *)
Definition cc_ir_verify_diff (active : bool) (a b : list ascii) : Z :=
  if negb active then 0%Z else if decide (cc_ir_verify_first_diff a b < 0)%Z then 0%Z else (-1)%Z.
