(* ===== verification/IrSpec.v ===== *)
(** The positions the scanners of [Ir] return, and the tree that carving
    builds: its nodes tile the source text. *)
From S2P Require Import Prelude Bytes Lex Text TextScan TextFind TextDecl Ir.

Implicit Types (src s l : list ascii).

(** * Positions *)

Lemma span_bounded (f : ascii → bool) l : span f l ≤ length l.
Proof. induction l as [|c l IH]; simpl; [done|]. destruct (f c); lia. Qed.
Lemma length_range src a b : length (range src a b) ≤ b - a.
Proof. unfold range. rewrite length_take. lia. Qed.
Lemma length_range_in src a b : b ≤ length src → length (range src a b) = b - a.
Proof. intros. unfold range. rewrite length_take, length_drop. lia. Qed.
Lemma trim_left_bounds src a b : a ≤ b → a ≤ cc_ir_trim_ws_left src a b ≤ b.
Proof. intros. unfold cc_ir_trim_ws_left. pose proof (span_bounded is_ws (range src a b)). pose proof (length_range src a b). lia. Qed.
Lemma trim_right_bounds src a b : a ≤ b → a ≤ cc_ir_trim_ws_right src a b ≤ b.
Proof.
  intros. unfold cc_ir_trim_ws_right. pose proof (span_bounded is_ws (reverse (range src a b))) as Hs. rewrite length_reverse in Hs.
  pose proof (length_range src a b). lia.
Qed.
Lemma skip_ws_bounds src a : a ≤ length src → a ≤ cc_skip_ws_len src a ≤ length src.
Proof. intros. unfold cc_skip_ws_len. pose proof (span_bounded is_ws (drop a src)) as Hs. rewrite length_drop in Hs. lia. Qed.

(** ** Backwards *)

Lemma skip_bc_back_le src i k : skip_bc_back src i k ≤ k.
Proof. induction k as [|k IH]; simpl; [done|]. case_match; lia. Qed.
Lemma skip_block_le src i : cc_ir_skip_block_comment_backward src i ≤ i.
Proof. unfold cc_ir_skip_block_comment_backward. case_decide; [lia|]. pose proof (skip_bc_back_le src i (i - 1)). lia. Qed.
Lemma skip_str_back_le src q k : skip_str_back src q k ≤ k.
Proof. induction k as [|k IH]; simpl; [done|]. case_match; lia. Qed.
Lemma to_newline_le src i : to_newline src i ≤ i.
Proof. induction i as [|i IH]; simpl; [done|]. case_match; lia. Qed.
Lemma lhs_back_le fuel src from par brk i : (lhs_back fuel src from par brk i).1 ≤ i.
Proof.
  revert par brk i. induction fuel as [|fuel IH]; intros par brk [|i]; simpl; try lia.
  pose proof (skip_block_le src i). pose proof (skip_str_back_le src (at_ src i) i). pose proof (to_newline_le src i).
  assert (Hgo : ∀ p q j, j ≤ S i → (lhs_back fuel src from p q j).1 ≤ S i) by (intros p q j Hj; specialize (IH p q j); lia).
  repeat case_match; simpl; try lia; apply Hgo; unfold cc_ir_skip_str_backward in *; lia.
Qed.

(** ** Forwards *)

Lemma rhs_end_bounds st d i l : i ≤ rhs_end_loop st d i l ≤ i + length l.
Proof.
  revert st d i. induction l as [l IH] using list_len_ind. intros st d i. destruct l as [|c l]; simpl; [lia|].
  assert (H1 : ∀ st d, i ≤ rhs_end_loop st d (S i) l ≤ i + S (length l)) by (intros st' d'; specialize (IH l ltac:(simpl; lia) st' d' (S i)); lia).
  assert (H2 : ∀ st' c' l', l = c' :: l' → i ≤ rhs_end_loop st' d (S (S i)) l' ≤ i + S (length l)).
  { intros st' c' l' ->. specialize (IH l' ltac:(simpl; lia) st' d (S (S i))). simpl. lia. }
  repeat case_match; try lia; subst; eauto; simpl; lia.
Qed.
Lemma semi_bounds st d i l : i ≤ semi_loop st d i l ≤ i + length l.
Proof.
  revert st d i. induction l as [l IH] using list_len_ind. intros st d i. destruct l as [|c l]; simpl; [lia|].
  assert (H1 : ∀ st d, i ≤ semi_loop st d (S i) l ≤ i + S (length l)) by (intros st' d'; specialize (IH l ltac:(simpl; lia) st' d' (S i)); lia).
  assert (H2 : ∀ st' c' l', l = c' :: l' → i ≤ semi_loop st' d (S (S i)) l' ≤ i + S (length l)).
  { intros st' c' l' ->. specialize (IH l' ltac:(simpl; lia) st' d (S (S i))). simpl. lia. }
  repeat case_match; try lia; subst; eauto; simpl; lia.
Qed.
Lemma scan_close_bounds k st d p l r : scan_close k st d p l = Some r → p ≤ r < p + length l.
Proof.
  revert st d p. induction l as [l IH] using list_len_ind. intros st d p. destruct l as [|c l]; simpl; [done|].
  assert (H1 : ∀ st d, scan_close k st d (S p) l = Some r → p ≤ r < p + S (length l)).
  { intros st' d' H. apply (IH l ltac:(simpl; lia)) in H. lia. }
  assert (H2 : ∀ st' c' l', l = c' :: l' → scan_close k st' d (S (S p)) l' = Some r → p ≤ r < p + S (length l)).
  { intros st' c' l' -> H. apply (IH l' ltac:(simpl; lia)) in H. simpl. lia. }
  repeat case_match; try done; subst; eauto. intros [= ->]. lia.
Qed.
Lemma matching_bounds k src p r : find_matching k src p = Some r → p < r < length src.
Proof.
  unfold find_matching. destruct (src !! p) as [c|] eqn:Hp; [|done]. case_decide; [|done]. intros Hsc%scan_close_bounds.
  apply lookup_lt_Some in Hp. rewrite length_drop in Hsc. lia.
Qed.

(** The parts of a recognised tail follow each other. *)
Definition tail_ok (after : nat) src (t : CCIrTail) : Prop :=
  after ≤ body_a t ∧ body_a t ≤ body_b t ∧ body_b t ≤ span_end t ∧ span_end t ≤ length src ∧
  match binder t with
  | Some (ba, bb) => after ≤ ba ∧ ba < bb ∧ bb ≤ body_a t ∧ is_ident (range src ba bb) = true
  | None => True
  end.
Lemma scan_body_ok src after p kind b t :
  after ≤ p → (match b with Some (ba, bb) => after ≤ ba ∧ ba < bb ∧ bb ≤ p ∧ is_ident (range src ba bb) = true | None => True end) →
  scan_body src p kind b = Some t → tail_ok after src t.
Proof.
  intros Ha Hb. unfold scan_body. case_decide as Hp; [done|].
  assert (Hbind : ∀ q, p ≤ q → match b with Some (ba, bb) => after ≤ ba ∧ ba < bb ∧ bb ≤ q ∧ is_ident (range src ba bb) = true | None => True end).
  { intros q Hq. destruct b as [[ba bb]|]; [|done]. destruct Hb as (? & ? & ? & ?). split_and!; [lia..|done]. }
  pose proof (rhs_end_bounds Code no_depth p (drop p src)) as Hrhs. pose proof (semi_bounds Code no_depth p (drop p src)) as Hsemi.
  rewrite length_drop in Hrhs, Hsemi.
  assert (Hq : ∀ e, Some (Tail b p e e false) = Some t → p ≤ e ≤ length src → tail_ok after src t).
  { intros e [= <-] He. unfold tail_ok. simpl. split_and!; [lia..|by apply Hbind]. }
  destruct kind; try (intros H; eapply Hq; [exact H|unfold cc_ir_find_rhs_end; lia]).
  destruct (eqc (at_ src p) (chr 59)); [intros [= <-]; unfold tail_ok; simpl; split_and!; [lia..|by apply Hbind]|].
  destruct (eqc (at_ src p) LBR).
  - destruct (cc_find_matching_brace src p) as [r|] eqn:Hr; [|done]. apply matching_bounds in Hr. simpl. intros [= <-].
    unfold tail_ok. simpl. pose proof (skip_ws_bounds src (r + 1) ltac:(lia)).
    split_and!; [lia|lia| | |apply Hbind; lia]; (case_match; [|lia]);
      match goal with H : _ && _ = true |- _ => apply andb_true_iff in H as [H%bool_decide_eq_true_1 _] end; lia.
  - case_decide; [done|]. unfold cc_ir_find_top_level_semi in *. intros [= <-]. unfold tail_ok. simpl. split_and!; [lia..|by apply Hbind].
Qed.
Lemma scan_tail_ok src after kind t :
  after ≤ length src → cc_ir_scan_tail src after kind = Some t → tail_ok after src t.
Proof.
  intros Ha. unfold cc_ir_scan_tail. pose proof (skip_ws_bounds src after Ha) as Hp. case_decide; [done|].
  destruct (eqc _ LPAR); [|by apply scan_body_ok; [lia|]].
  destruct (cc_find_matching_paren src (cc_skip_ws_len src after)) as [r|] eqn:Hr; [|done]. apply matching_bounds in Hr. simpl.
  destruct (cc_ir_range_is_ident _ _ _) eqn:Hi; [|done]. simpl. pose proof (skip_ws_bounds src (r + 1) ltac:(lia)).
  set (ba := cc_ir_trim_ws_left src (cc_skip_ws_len src after + 1) r) in *.
  pose proof (trim_left_bounds src (cc_skip_ws_len src after + 1) r ltac:(lia)) as Hba. fold ba in Hba.
  pose proof (trim_right_bounds src ba r ltac:(lia)) as Hbb. set (bb := cc_ir_trim_ws_right src ba r) in *.
  apply scan_body_ok; [lia|]. assert (ba < bb).
  { destruct (decide (ba < bb)); [done|]. unfold cc_ir_range_is_ident, range in Hi. by replace (bb - ba) with 0 in Hi by lia. }
  split_and!; [lia|done|lia|done].
Qed.

(** ** Sigils *)

Lemma find_substr_spec src cursor name :
  name ≠ [] → cursor ≤ length src →
  let i := cc_find_substr_top_level src cursor (length src) name in
  i = length src ∨ (cursor ≤ i ∧ i + length name ≤ length src ∧ range src i (i + length name) = name).
Proof.
  intros Hn Hc i. unfold i, cc_find_substr_top_level, find_word. case_decide as Hs; [by left|].
  pose proof (find_word_least false name None Code (range src cursor (length src)) Hn) as Hl.
  destruct (find_word_loop _ _ _ _ _ _) as [j|]; [|by left]. right. destruct Hl as [(_ & Ht & _) _].
  assert (Hlen : length (range src cursor (length src)) = length src - cursor) by by apply length_range_in.
  pose proof (f_equal length Ht) as Hlt. rewrite length_take, length_drop, Hlen in Hlt.
  assert (0 < length name) by (destruct name; [done|simpl; lia]). split_and!; [lia|lia|].
  unfold range in *. rewrite (take_ge (drop cursor src)), drop_drop in Ht by (rewrite length_drop; lia).
  by replace (cursor + j + length name - (cursor + j)) with (length name) by lia.
Qed.
Lemma next_sigil_spec src cursor :
  cursor ≤ length src → next_sigil src cursor < length src →
  let sg := next_sigil src cursor in
  cursor ≤ sg ∧ sg + 2 ≤ length src ∧
  range src sg (sg + 2) = match kind_at src sg with CC_IR_UNWRAP_BANG => txt "!>" | _ => txt "?>" end ∧
  (kind_at src sg = CC_IR_UNWRAP_BANG ∨ kind_at src sg = CC_IR_UNWRAP_Q).
Proof.
  intros Hc Hlt sg. unfold sg in *.
  assert (Hk : ∀ i c, range src i (i + 2) = [c; chr 62] → at_ src i = c).
  { intros i c Hr. unfold at_. assert (Hi : range src i (i + 2) !! 0 = Some c) by by rewrite Hr.
    unfold range in Hi. rewrite lookup_take_lt in Hi by lia. rewrite lookup_drop, Nat.add_0_r in Hi. by rewrite Hi. }
  destruct (find_substr_spec src cursor (txt "!>")) as [Hb|(Hb1 & Hb2 & Hb3)]; [done|done| |];
  destruct (find_substr_spec src cursor (txt "?>")) as [Hq|(Hq1 & Hq2 & Hq3)]; try done; unfold next_sigil in *;
    repeat (case_decide; try lia); unfold kind_at;
    first [erewrite (Hk _ _ Hb3)|erewrite (Hk _ _ Hq3)]; (split_and!; [done..|by auto]).
Qed.

(** ** Sites *)

Lemma return_prefix_bound src a b : cc_ir_lhs_starts_with_return src a b = true → cc_ir_trim_ws_left src a b + 6 ≤ b.
Proof. unfold cc_ir_lhs_starts_with_return. case_decide; [done|]. lia. Qed.
Lemma find_site_ok src cursor sg :
  cursor ≤ sg → let x := find_site src cursor sg in
  sigil x = sg ∧ cursor ≤ s_lhs x ≤ s_la x ∧ s_la x ≤ s_lb x ≤ sg.
Proof.
  intros Hc x. unfold x, find_site. pose proof (lhs_back_le sg src sg 0 0 sg) as Hl.
  destruct (cc_ir_find_lhs_start_ex src sg) as [lhs st] eqn:E. unfold cc_ir_find_lhs_start_ex in E. rewrite E in Hl. simpl in Hl.
  set (l1 := if decide (lhs < cursor) then cursor else lhs).
  assert (H1 : cursor ≤ l1 ≤ sg) by (unfold l1; case_decide; lia).
  set (l2 := if cc_ir_lhs_starts_with_return src l1 sg then cc_ir_trim_ws_left src l1 sg + 6 else l1).
  assert (H2 : cursor ≤ l2 ≤ sg).
  { unfold l2. destruct (cc_ir_lhs_starts_with_return src l1 sg) eqn:Er; [|lia]. apply return_prefix_bound in Er.
    pose proof (trim_left_bounds src l1 sg ltac:(lia)). lia. }
  pose proof (trim_left_bounds src l2 sg ltac:(lia)). pose proof (trim_right_bounds src (cc_ir_trim_ws_left src l2 sg) sg ltac:(lia)).
  simpl. fold l1 l2. lia.
Qed.

(** * Well-formed trees *)

(** A text taken from the source, between two offsets. *)
Definition slice_of src (a b : nat) (t : option (list ascii)) : Prop :=
  match t with Some t => ∃ i j, a ≤ i ∧ i < j ∧ j ≤ b ∧ t = range src i j | None => True end.
(** An unwrap: its sigil inside the span, the left-hand side before it, binder
    and body after it. *)
Definition unwrap_ok src (k : CCIrKind) (a b : nat) (u : CCIrUnwrap) : Prop :=
  ∃ sg, a ≤ sg ∧ sg + 2 ≤ b ∧
    range src sg (sg + 2) = match k with CC_IR_UNWRAP_BANG => txt "!>" | _ => txt "?>" end ∧
    slice_of src a sg (lhs_text u) ∧ slice_of src (sg + 2) b (binder_name u) ∧ slice_of src (sg + 2) b (body_text u) ∧
    match binder_name u with Some t => is_ident t = true | None => True end.
Definition node_ok src (n : CCIrNode) : Prop :=
  let '(Node _ k (Span a b) raw c _ u) := n in
  a < b ∧ b ≤ length src ∧ raw = range src a b ∧ c = [] ∧
  match k with
  | CC_IR_OPAQUE_TEXT => True
  | CC_IR_UNWRAP_BANG | CC_IR_UNWRAP_Q => unwrap_ok src k a b u
  | _ => False
  end.
(** [tiles src a l b]: the nodes [l] follow each other from [a] to [b]. *)
Inductive tiles src : nat → list CCIrNode → nat → Prop :=
  | tiles_nil a : tiles src a [] a
  | tiles_cons a n (l : list CCIrNode) b : byte_start (node_span n) = a → node_ok src n → tiles src (byte_end (node_span n)) l b → tiles src a (n :: l) b.
Lemma tiles_snoc src a (l : list CCIrNode) b n :
  tiles src a l b → byte_start (node_span n) = b → node_ok src n → tiles src a (l ++ [n]) (byte_end (node_span n)).
Proof.
  intros H. revert n. induction H as [a|a m l b Ha Hm Hl IH]; intros n Hs Hn; simpl.
  - constructor; [done|done|constructor].
  - constructor; [done|done|]. by apply IH.
Qed.
Lemma slice_range src a b i j : a ≤ i → j ≤ b → slice_of src a b (if decide (j ≤ i) then None else Some (range src i j)).
Proof. intros. case_decide; [done|]. exists i, j. split_and!; [lia..|done]. Qed.

(** * Running over the arena *)

Section runs.
Context (malloc_ok : nat → Z → bool).

(** The computation gives a result that satisfies [Q], or memory was missing. *)
Definition has_memory : Prop := ∀ k c, malloc_ok k c = true.
Definition runs {A} (m : IR A) (Q : A → Prop) : Prop :=
  ∀ a, blks a ≠ [] → blks (m a).2 ≠ [] ∧ match (m a).1 with Some x => Q x | None => ¬ has_memory end.
Lemma runs_ret {A} (x : A) (Q : A → Prop) : Q x → runs (ret x) Q.
Proof. by intros HQ a Ha. Qed.
Lemma runs_bind {A B} (m : IR A) (k : A → IR B) P Q : runs m P → (∀ x, P x → runs (k x) Q) → runs (bind m k) Q.
Proof.
  intros Hm Hk a Ha. unfold bind. destruct (Hm a Ha) as [Hb Hx]. destruct (m a) as [[x|] a']; simpl in *; [|done]. by apply Hk.
Qed.
Lemma runs_mono {A} (m : IR A) (P Q : A → Prop) : runs m P → (∀ x, P x → Q x) → runs m Q.
Proof. intros Hm HPQ a Ha. destruct (Hm a Ha) as [? Hx]. split; [done|]. destruct ((m a).1); auto. Qed.

Lemma bump_runs i n a : i < length (blks a) → blks (bump i n a).2 ≠ [] ∧ is_Some (bump i n a).1.
Proof.
  intros Hi. unfold bump. destruct (lookup_lt_is_Some_2 (blks a) i Hi) as [b ->]. simpl. split; [|done].
  intros E%(f_equal length). rewrite length_alter in E. simpl in E. lia.
Qed.
Lemma alloc_runs n : n ≠ 0%Z → runs (cc_ir_alloc malloc_ok n) (λ _, True).
Proof.
  intros Hn a Ha. unfold cc_ir_alloc. rewrite decide_False by done. destruct (last (blks a)) as [b|] eqn:Hl; [|by apply last_None in Hl].
  assert (0 < length (blks a)) by (destruct (blks a); [done|simpl; lia]). case_decide.
  - unfold cc_ir_arena_new_block. destruct (malloc_ok _ _) eqn:Hm; simpl.
    + edestruct bump_runs as [Hb [p Hp]]; [|split; [exact Hb|by rewrite Hp]]. simpl. rewrite length_app. simpl. lia.
    + split; [done|]. intros Hall. by rewrite Hall in Hm.
  - destruct (bump_runs (length (blks a) - 1) (align8 n) a) as [Hb [p Hp]]; [lia|]. split; [exact Hb|]. by rewrite Hp.
Qed.
Lemma strndup_runs s n : runs (cc_ir_strndup malloc_ok s n) (λ t, t = take n s).
Proof. eapply runs_bind; [apply alloc_runs; lia|]. intros _ _. by apply runs_ret. Qed.
Lemma node_new_runs k sp : runs (cc_ir_node_new malloc_ok k sp) (λ n, ∃ id, n = Node id k sp [] [] 0 no_unwrap).
Proof. eapply runs_bind; [by apply alloc_runs|]. intros _ _ a Ha. simpl. by eauto. Qed.
Lemma append_child_runs p c :
  runs (cc_ir_node_append_child malloc_ok p c)
    (λ p', children p' = children p ++ [c] ∧ node_kind p' = node_kind p ∧ raw_text p' = raw_text p ∧ node_span p' = node_span p).
Proof.
  destruct p as [i k sp t cs cap u]. unfold cc_ir_node_append_child. case_decide; [|by apply runs_ret].
  eapply runs_bind; [apply alloc_runs; case_decide; lia|]. intros _ _. by apply runs_ret.
Qed.

(** ** Carving *)

(** The file node while carving: its children tile the text up to [cursor]. *)
Definition carved src (raw : list ascii) (cursor : nat) (f : CCIrNode) : Prop :=
  tiles src 0 (children f) cursor ∧ node_kind f = CC_IR_FILE ∧ raw_text f = raw ∧ node_span f = Span 0 (length src).
Lemma carved_append src raw a f n :
  carved src raw a f → byte_start (node_span n) = a → node_ok src n →
  runs (cc_ir_node_append_child malloc_ok f n) (carved src raw (byte_end (node_span n))).
Proof.
  intros (Ht & Hk & Hr & Hs) Ha Hn. eapply runs_mono; [apply append_child_runs|]. intros f' (Hc & Hk' & Hr' & Hs').
  unfold carved. rewrite Hc, Hk', Hr', Hs'. split_and!; [|done..]. by eapply tiles_snoc.
Qed.
Lemma append_opaque_runs src raw a b f :
  carved src raw a f → a ≤ b → b ≤ length src → runs (cc_ir_append_opaque malloc_ok f src a b) (carved src raw b).
Proof.
  intros Hf Hab Hb. unfold cc_ir_append_opaque. case_decide; [apply runs_ret; by replace b with a by lia|].
  eapply runs_bind; [apply node_new_runs|]. intros t [id ->]. eapply runs_bind; [apply strndup_runs|]. intros txt ->.
  apply (carved_append src raw a f (Node id CC_IR_OPAQUE_TEXT (Span a b) (range src a b) [] 0 no_unwrap)); [done|done|].
  simpl. split_and!; [lia|done|done|done|done].
Qed.
Lemma opt_dup_runs src i j : runs (opt_dup malloc_ok src i j) (λ t, t = if decide (j ≤ i) then None else Some (range src i j)).
Proof.
  unfold opt_dup. case_decide; [by apply runs_ret|]. eapply runs_bind; [apply strndup_runs|]. intros t ->. by apply runs_ret.
Qed.

(** The unwrap node, from its parts. *)
Lemma unwrap_node_runs src raw cursor f x k fin mb mt :
  carved src raw cursor f → cursor ≤ s_lhs x → s_lhs x ≤ s_la x ≤ s_lb x → s_lb x ≤ sigil x → sigil x + 2 ≤ fin → fin ≤ length src →
  range src (sigil x) (sigil x + 2) = match k with CC_IR_UNWRAP_BANG => txt "!>" | _ => txt "?>" end →
  k = CC_IR_UNWRAP_BANG ∨ k = CC_IR_UNWRAP_Q →
  runs mb (λ bn, slice_of src (sigil x + 2) fin bn ∧ match bn with Some t => is_ident t = true | None => True end) →
  runs mt (slice_of src (sigil x + 2) fin) →
  runs (bind (cc_ir_append_opaque malloc_ok f src cursor (s_lhs x)) (λ file,
        bind (cc_ir_node_new malloc_ok k (Span (s_lhs x) fin)) (λ un,
        bind (cc_ir_strndup malloc_ok (drop (s_lhs x) src) (fin - s_lhs x)) (λ raw,
        bind (opt_dup malloc_ok src (s_la x) (s_lb x)) (λ lt, bind mb (λ bn, bind mt (λ bt,
        bind (cc_ir_node_append_child malloc_ok file (with_unwrap (Unwrap lt bn bt (s_stmt x)) (with_raw raw un))) (λ file,
        ret (file, fin))))))))) (λ r, r.2 = fin ∧ carved src raw fin r.1).
Proof.
  intros Hf Hc Hl Hb Hs Hfin Hr Hk Hmb Hmt.
  eapply runs_bind; [apply (append_opaque_runs src raw); [done|lia..]|]. intros f' Hf'.
  eapply runs_bind; [apply node_new_runs|]. intros un [id ->].
  eapply runs_bind; [apply strndup_runs|]. intros tx ->. eapply runs_bind; [apply opt_dup_runs|]. intros lt ->.
  eapply runs_bind; [exact Hmb|]. intros bn [Hbn Hid]. eapply runs_bind; [exact Hmt|]. intros bt Hbt.
  set (u := Unwrap (if decide (s_lb x ≤ s_la x) then None else Some (range src (s_la x) (s_lb x))) bn bt (s_stmt x)).
  eapply runs_bind; [apply (carved_append src raw (s_lhs x) f' (Node id k (Span (s_lhs x) fin) (range src (s_lhs x) fin) [] 0 u))|];
    [done|done| |intros f'' Hf''; by apply runs_ret].
  assert (Hu : unwrap_ok src k (s_lhs x) fin u).
  { exists (sigil x). unfold u. simpl. split_and!; [lia|lia|done|apply slice_range; lia|done|done|done]. }
  unfold node_ok. split_and!; [lia|lia|done|done|]. by destruct Hk as [-> | ->].
Qed.
Lemma make_unwrap_runs src raw cursor f :
  carved src raw cursor f → cursor ≤ length src → next_sigil src cursor < length src →
  runs (make_unwrap malloc_ok f src cursor (find_site src cursor (next_sigil src cursor)))
    (λ r, carved src raw r.2 r.1 ∧ cursor < r.2 ≤ length src).
Proof.
  intros Hf Hc Hn. destruct (next_sigil_spec src cursor Hc Hn) as (Hs1 & Hs2 & Hs3 & Hk).
  destruct (find_site_ok src cursor (next_sigil src cursor) Hs1) as (Hsg & Hl1 & Hl2).
  set (x := find_site src cursor (next_sigil src cursor)) in *. rewrite <- Hsg in *. unfold make_unwrap.
  pose proof (λ t, scan_tail_ok src (sigil x + 2) (kind_at src (sigil x)) t Hs2) as Htail.
  destruct (cc_ir_scan_tail src (sigil x + 2) (kind_at src (sigil x))) as [t|] eqn:Et.
  - specialize (Htail t eq_refl) as (Ht1 & Ht2 & Ht3 & Ht4 & Htb).
    eapply runs_mono; [apply (unwrap_node_runs src raw); [done|lia|lia|lia|lia|lia|done|done| |]|intros [f' e] [-> ?]; simpl in *; split; [done|lia]].
    + destruct t as [[[ba bb]|] ????]; [|by apply runs_ret]. simpl in *. destruct Htb as (? & ? & ? & ?).
      eapply runs_mono; [apply opt_dup_runs|]. intros ? ->. split; [apply slice_range; lia|]. by case_decide.
    + eapply runs_mono; [apply opt_dup_runs|]. intros ? ->. apply slice_range; lia.
  - eapply runs_mono; [apply (unwrap_node_runs src raw); [done|lia|lia|lia|lia|lia|done|done| |]|intros [f' e] [-> ?]; simpl in *; split; [done|lia]];
      by apply runs_ret.
Qed.
Lemma carve_runs fuel src raw cursor f :
  carved src raw cursor f → cursor ≤ length src → length src - cursor < fuel →
  runs (carve_loop malloc_ok fuel f src cursor) (carved src raw (length src)).
Proof.
  revert f cursor. induction fuel as [|fuel IH]; intros f cursor Hf Hc Hfuel; [lia|]. cbn [carve_loop].
  case_decide; [apply runs_ret; by replace (length src) with cursor by lia|].
  case_decide as Hn; [by apply append_opaque_runs|]. destruct (next_sigil_spec src cursor Hc ltac:(lia)) as (Hs1 & Hs2 & _).
  destruct (is_decl_form _ _).
  - eapply runs_bind; [apply (append_opaque_runs src raw); [done|lia..]|]. intros f' Hf'. apply IH; [done|lia|lia].
  - eapply runs_bind; [apply make_unwrap_runs; [done|lia|lia]|]. intros r [Hr Hb]. apply IH; [done|lia|lia].
Qed.
(** Building: a tree that tiles the whole text. *)
Lemma build_runs src : runs (cc_ir_build_from_stub malloc_ok src) (carved src src (length src)).
Proof.
  unfold cc_ir_build_from_stub. eapply runs_bind; [apply node_new_runs|]. intros f [id ->].
  eapply runs_bind; [apply strndup_runs|]. intros t ->. rewrite take_ge by done.
  assert (Hf : carved src src 0 (with_raw src (Node id CC_IR_FILE (Span 0 (length src)) [] [] 0 no_unwrap))) by (split_and!; [constructor|done..]).
  case_decide as He; [apply runs_ret; by rewrite He in *|]. apply carve_runs; [done|lia|lia].
Qed.
End runs.

(** * Emitting *)

Lemma grow_power fuel nc need :
  (0 < nc ≤ 2 ^ 62)%Z → (need ≤ 2 ^ 61)%Z → (2 ^ 61 ≤ nc * 2 ^ Z.of_nat fuel)%Z → ∃ c, grow fuel nc need = Some c ∧ (need ≤ c ≤ 2 ^ 62)%Z ∧ (nc ≤ c)%Z.
Proof.
  revert nc. induction fuel as [|fuel IH]; intros nc Hn Hneed Hp; simpl; case_decide as Hlt; try (exists nc; split_and!; [done|lia..]).
  - simpl in Hp. lia.
  - rewrite Nat2Z.inj_succ, Z.pow_succ_r in Hp by lia. unfold wrap64. rewrite Z.mod_small by lia.
    destruct (IH (nc * 2)%Z) as (c & -> & ? & ?); [lia|lia|lia|]. exists c. split_and!; [done|lia..].
Qed.

Section emits.
Context (realloc_ok : Z → bool) (Hmem : ∀ n, realloc_ok n = true).
Implicit Types (o : outbuf).

Definition out_ok o : Prop := (0 ≤ out_cap o ≤ 2 ^ 62)%Z.
Definition text_out o : list ascii := default [] (out_text o).
Definition emit_all o (c : list CCIrNode) : option outbuf := foldl (λ r n, r ≫= cc_ir_emit_node realloc_ok n) (Some o) c.
Lemma emit_append_ok s o :
  out_ok o → (Z.of_nat (length (text_out o)) + Z.of_nat (length s) < 2 ^ 60)%Z →
  ∃ o', cc_ir_emit_append realloc_ok s o = Some o' ∧ out_ok o' ∧ text_out o' = text_out o ++ s.
Proof.
  intros Hc Hl. unfold cc_ir_emit_append. case_decide as Hs; [exists o; by rewrite Hs, app_nil_r|].
  unfold out_len. fold (text_out o). case_decide; [|by eexists].
  edestruct (grow_power grow_fuel (if decide (out_cap o = 0)%Z then 1024 else out_cap o)) as (c & -> & Hc1 & Hc2);
    [|shelve| |simpl; rewrite Hmem; eexists; split_and!; [done| |done]; unfold out_ok in *; simpl].
  - unfold out_ok in Hc. case_decide; lia.
  - unfold grow_fuel, out_ok in *. case_decide; lia.
  - revert Hc1 Hc2. case_decide; lia.
  Unshelve. lia.
Qed.
(** A tiling is emitted as the text it covers. *)
Lemma range_app src a b c : a ≤ b → b ≤ c → range src a b ++ range src b c = range src a c.
Proof.
  intros. unfold range. rewrite <- (take_drop (b - a) (take (c - a) (drop a src))). f_equal.
  - rewrite take_take. f_equal. lia.
  - rewrite skipn_firstn_comm, drop_drop. f_equal; [lia|f_equal; lia].
Qed.
Lemma tiles_le src a (l : list CCIrNode) b : tiles src a l b → a ≤ b.
Proof.
  induction 1 as [|a n l b Ha Hn _ IH]; [done|]. destruct n as [i k [x y] raw c cap u]. simpl in *. lia.
Qed.
Lemma emit_tiles src a (l : list CCIrNode) b o :
  tiles src a l b → out_ok o → b ≤ length src → (Z.of_nat (length (text_out o)) + Z.of_nat (b - a) < 2 ^ 60)%Z →
  ∃ o', emit_all o l = Some o' ∧ out_ok o' ∧ text_out o' = text_out o ++ range src a b.
Proof.
  intros Ht. revert o. induction Ht as [a|a n l b Ha Hn Ht IH]; intros o Ho Hb Hl.
  - exists o. split_and!; [done|done|]. unfold range. by rewrite Nat.sub_diag, app_nil_r.
  - pose proof (tiles_le _ _ _ _ Ht) as Hle. destruct n as [i k [x y] raw c cap u]. simpl in Ha, Hle. subst x.
    destruct Hn as (Hxy & Hy & -> & -> & Hk).
    destruct (emit_append_ok (range src a y) o Ho) as (o1 & Ho1 & Hok1 & Ht1); [rewrite length_range_in by lia; lia|].
    destruct (IH o1 Hok1 Hb) as (o2 & Ho2 & Hok2 & Ht2); [rewrite Ht1, length_app, length_range_in by lia; simpl; lia|].
    exists o2. split_and!; [|done|rewrite Ht2, Ht1, <- app_assoc; simpl; f_equal; apply range_app; lia].
    unfold emit_all in *. cbn [foldl]. rewrite <- Ho2. f_equal. cbn [mbind option_bind]. rewrite <- Ho1. by destruct k.
Qed.
Lemma emit_file id sp raw c cap u o :
  cc_ir_emit_node realloc_ok (Node id CC_IR_FILE sp raw c cap u) o = emit_all o c.
Proof.
  simpl. unfold emit_all. revert o. induction c as [|n c IH]; intros o; [done|]. cbn [foldl mbind option_bind].
  destruct (cc_ir_emit_node realloc_ok n o); simpl; [apply IH|]. clear IH. by induction c.
Qed.
End emits.

(** * The verifier *)

Lemma first_diff_None i (x y : list ascii) : cc_ir_verify_first_diff_loop i x y = None ↔ x = y.
Proof.
  revert i y. induction x as [|c x IH]; intros i [|d y]; simpl; try done. destruct (eqc c d) eqn:E.
  - apply eqc_true in E as ->. rewrite IH. split; [by intros ->|by intros [= ->]].
  - split; [done|]. intros [= -> _]. by rewrite eqc_refl in E.
Qed.
Lemma verify_diff_spec x y active : cc_ir_verify_diff active x y = 0%Z ↔ active = false ∨ x = y.
Proof.
  unfold cc_ir_verify_diff, cc_ir_verify_first_diff. destruct active; simpl; [|by split; auto].
  pose proof (first_diff_None 0 x y) as Hn. destruct (cc_ir_verify_first_diff_loop 0 x y) as [i|].
  - rewrite decide_False by lia. split; [done|]. intros [?|Heq]; [done|]. by apply Hn in Heq.
  - split; [|done]. intros _. right. by apply Hn.
Qed.

(** * The arena *)

Lemma align8_spec n : (0 < n < 2 ^ 60)%Z → (n ≤ align8 n < n + 8)%Z ∧ (align8 n mod 8 = 0)%Z.
Proof.
  intros Hn. assert (He : align8 n = ((n + 7) / 8 * 8)%Z).
  { unfold align8, wrap64. rewrite <- (Z.land_ones (Z.lnot 7)) by lia. rewrite (Z.land_comm (Z.lnot 7)), Z.land_assoc, Z.land_ones, Z.mod_mod, Z.mod_small by lia.
    change (Z.lnot 7) with (Z.lnot (Z.ones 3)). rewrite <- Z.ldiff_land, Z.ldiff_ones_r, Z.shiftl_mul_pow2, Z.shiftr_div_pow2 by lia. done. }
  rewrite He. split; [|by rewrite Z.mod_mul]. pose proof (Z.div_mod (n + 7) 8 ltac:(lia)). pose proof (Z.mod_pos_bound (n + 7) 8 ltac:(lia)). lia.
Qed.

Definition block_ok (b : CCIrArenaBlock) : Prop :=
  (0 ≤ blk_used b ≤ blk_cap b)%Z ∧ (blk_cap b < 2 ^ 61)%Z ∧ (blk_used b mod 8 = 0)%Z.
Definition arena_ok (a : CCIrArena) : Prop := Forall block_ok (blks a) ∧ blks a ≠ [].
(** A region of memory handed out: where and how long. *)
Definition region_in (a : CCIrArena) (r : ptr * Z) : Prop :=
  ∃ b, blks a !! p_block r.1 = Some b ∧ (0 ≤ p_off r.1)%Z ∧ (p_off r.1 + r.2 ≤ blk_used b)%Z ∧ (p_off r.1 mod 8 = 0)%Z.
Definition disjoint_regions (r r' : ptr * Z) : Prop :=
  p_block r.1 ≠ p_block r'.1 ∨ (p_off r.1 + r.2 ≤ p_off r'.1)%Z ∨ (p_off r'.1 + r'.2 ≤ p_off r.1)%Z.

Lemma bump_spec i n a b :
  arena_ok a → blks a !! i = Some b → (0 ≤ n)%Z → (blk_used b + n ≤ blk_cap b)%Z → (n mod 8 = 0)%Z →
  ∃ a', bump i n a = (Some (Ptr i (blk_used b)), a') ∧ arena_ok a' ∧ (∀ r, region_in a r → region_in a' r) ∧
    region_in a' (Ptr i (blk_used b), n) ∧ ∀ r, region_in a r → disjoint_regions (Ptr i (blk_used b), n) r.
Proof.
  intros [Hf Hne] Hi Hn Hcap H8. unfold bump. rewrite Hi. eexists. split; [done|].
  destruct (Forall_lookup_1 _ _ _ _ Hf Hi) as (Hu & Hc & Hm).
  assert (Hsome : ∀ j c, blks a !! j = Some c → ∃ c', alter (λ b, Block (blk_cap b) (blk_used b + n)) i (blks a) !! j = Some c' ∧
    blk_cap c' = blk_cap c ∧ (blk_used c ≤ blk_used c')%Z).
  { intros j c Hj. destruct (decide (j = i)) as [->|Hji].
    - rewrite list_lookup_alter_eq, Hj. eexists. split; [done|]. simpl. split; [done|lia].
    - rewrite list_lookup_alter_ne by done. exists c. split_and!; [done|done|lia]. }
  split_and!.
  - split; simpl; [|intros E%(f_equal length); rewrite length_alter in E; by destruct (blks a)].
    apply Forall_alter; [done|]. intros c Hc' (? & ? & ?). rewrite Hi in Hc'. injection Hc' as <-. unfold block_ok. simpl.
    split_and!; [lia|lia|lia|]. rewrite Zplus_mod, Hm, H8. done.
  - intros [p m] (c & Hp & ? & ? & ?). simpl in *. destruct (Hsome _ _ Hp) as (c' & Hp' & _ & ?). exists c'. simpl. split_and!; [done|lia|lia|done].
  - exists (Block (blk_cap b) (blk_used b + n)). simpl. rewrite list_lookup_alter_eq, Hi. split_and!; [done|lia|lia|done].
  - intros [p m] (c & Hp & ? & ? & ?). unfold disjoint_regions. simpl in *. destruct (decide (i = p_block p)) as [E|]; [|by left].
    right; right. rewrite <- E, Hi in Hp. injection Hp as <-. lia.
Qed.

Section allocs.
Context (malloc_ok : nat → Z → bool).

Lemma alloc_spec n a :
  arena_ok a → (0 < n < 2 ^ 60)%Z →
  let '(r, a') := cc_ir_alloc malloc_ok n a in
  arena_ok a' ∧ (∀ r, region_in a r → region_in a' r) ∧
  match r with Some p => region_in a' (p, align8 n) ∧ ∀ r, region_in a r → disjoint_regions (p, align8 n) r | None => True end.
Proof.
  intros Ha Hn. pose proof Ha as [Hf Hne]. destruct (align8_spec n Hn) as [Hal H8]. unfold cc_ir_alloc. rewrite decide_False by lia.
  destruct (last (blks a)) as [b|] eqn:Hl; [|by apply last_None in Hl]. rewrite last_lookup in Hl.
  destruct (Forall_lookup_1 _ _ _ _ Hf Hl) as (Hu & Hc & Hm).
  assert (Hw : wrap64 (blk_used b + align8 n) = (blk_used b + align8 n)%Z) by (apply wrap64_small; lia). rewrite Hw. case_decide as Hfull.
  - unfold cc_ir_arena_new_block. destruct (malloc_ok _ _); [|done].
    set (cap := if decide (CC_IR_ARENA_BLOCK_DEFAULT < align8 n)%Z then align8 n else CC_IR_ARENA_BLOCK_DEFAULT).
    assert (Hcap : (align8 n ≤ cap < 2 ^ 61)%Z) by (unfold cap, CC_IR_ARENA_BLOCK_DEFAULT; case_decide; lia).
    set (a1 := a <| blks := blks a ++ [Block cap 0] |>).
    assert (Ha1 : arena_ok a1). { split; simpl; [|by destruct (blks a)]. apply Forall_app. split; [done|]. constructor; [|done]. split_and!; simpl; [lia..|done]. }
    assert (Hr1 : ∀ r, region_in a r → region_in a1 r).
    { intros r (c & Hp & ?). exists c. simpl. by rewrite lookup_app_l by (by eapply lookup_lt_Some). }
    destruct (bump_spec (length (blks a)) (align8 n) a1 (Block cap 0) Ha1) as (a' & Hb & Ho & Hr & Hreg & Hdis);
      [by apply list_lookup_middle|lia|simpl; lia|done|]. rewrite Hb. split_and!; [done|by auto|done|by auto].
  - destruct (bump_spec (length (blks a) - 1) (align8 n) a b Ha) as (a' & Hb & Ho & Hr & Hreg & Hdis); [|lia|lia|done|].
    { by rewrite Nat.sub_1_r. }
    by rewrite Hb.
Qed.
(** A run of allocations, and the regions they returned. *)
Fixpoint alloc_all (sizes : list Z) (a : CCIrArena) : list (ptr * Z) * CCIrArena :=
  match sizes with
  | [] => ([], a)
  | n :: ns =>
      let '(r, a') := cc_ir_alloc malloc_ok n a in
      let '(rs, a'') := alloc_all ns a' in
      (match r with Some p => [(p, align8 n)] | None => [] end ++ rs, a'')
  end.
Lemma alloc_all_spec sizes a old :
  arena_ok a → Forall (λ n, 0 < n < 2 ^ 60)%Z sizes → Forall (region_in a) old →
  let '(rs, a') := alloc_all sizes a in
  arena_ok a' ∧ Forall (region_in a') (old ++ rs) ∧
  (∀ i r, rs !! i = Some r → Forall (disjoint_regions r) (old ++ take i rs)).
Proof.
  intros Ha Hs. revert a old Ha. induction Hs as [|n ns Hn _ IH]; intros a old Ha Hold; simpl; [by rewrite app_nil_r|].
  pose proof (alloc_spec n a Ha Hn) as Hal. destruct (cc_ir_alloc malloc_ok n a) as [r a']. destruct Hal as (Ha' & Hkeep & Hr).
  set (new := match r with Some p => [(p, align8 n)] | None => [] end).
  assert (Hold' : Forall (region_in a') (old ++ new)).
  { apply Forall_app. split; [by eapply Forall_impl|]. unfold new. destruct r; [|done]. constructor; [apply Hr|done]. }
  specialize (IH a' (old ++ new) Ha' Hold'). destruct (alloc_all ns a') as [rs a'']. destruct IH as (Ha'' & Hin & Hd).
  rewrite <- app_assoc in Hin. split_and!; [done|done|]. intros i x Hi. destruct r as [p|]; simpl in *.
  - destruct i as [|i]; simpl in *.
    + injection Hi as <-. rewrite app_nil_r. eapply Forall_impl; [exact Hold|]. apply Hr.
    + specialize (Hd i x Hi). by rewrite <- app_assoc in Hd.
  - specialize (Hd i x Hi). by rewrite app_nil_r in Hd.
Qed.
Lemma alloc_all_sizes sizes a :
  arena_ok a → Forall (λ n, 0 < n < 2 ^ 60)%Z sizes → has_memory malloc_ok → Forall2 (λ n r, n ≤ r.2)%Z sizes (alloc_all sizes a).1.
Proof.
  intros Ha Hs Hmem. revert a Ha. induction Hs as [|n ns Hn _ IH]; intros a Ha; simpl; [constructor|].
  pose proof (alloc_spec n a Ha Hn) as Hal. destruct (alloc_runs malloc_ok n ltac:(lia) a (proj2 Ha)) as [_ Hr].
  destruct (cc_ir_alloc malloc_ok n a) as [[p|] a'] eqn:E; simpl in *; [|done]. specialize (IH a' (proj1 Hal)).
  destruct (alloc_all ns a'). constructor; [simpl; pose proof (align8_spec n Hn); lia|done].
Qed.
End allocs.

(** * Building and emitting *)

Lemma tiles_nodes src a (l : list CCIrNode) b : tiles src a l b → Forall (node_ok src) l.
Proof. induction 1; by constructor. Qed.

Lemma create_ok malloc_ok a : cc_ir_arena_create malloc_ok true = Some a → arena_ok a.
Proof.
  unfold cc_ir_arena_create, cc_ir_arena_new_block. simpl. destruct (malloc_ok 0 _); [|done]. simpl. intros [= <-].
  split; [|done]. constructor; [|done]. by unfold block_ok.
Qed.
Lemma build_emits malloc_ok realloc_ok src a :
  (Z.of_nat (length src) < 2 ^ 60)%Z → cc_ir_arena_create malloc_ok true = Some a → (∀ n, realloc_ok n = true) →
  ((cc_ir_build_from_stub malloc_ok src a).1 = None ∧ ¬ has_memory malloc_ok) ∨
  ∃ root, (cc_ir_build_from_stub malloc_ok src a).1 = Some root ∧ carved src src (length src) root ∧
    cc_ir_emit_text realloc_ok root = Some src.
Proof.
  intros Hlen Ha Hr. destruct (create_ok _ _ Ha) as [_ Hne]. destruct (build_runs malloc_ok src a Hne) as [_ Hb].
  destruct (cc_ir_build_from_stub malloc_ok src a).1 as [root|]; [right|by left]. exists root. split_and!; [done|done|].
  destruct root as [id k sp raw c cap u]. destruct Hb as (Ht & Hk & Hraw & Hsp). simpl in *. subst k.
  unfold cc_ir_emit_text. rewrite emit_file.
  destruct (emit_tiles realloc_ok Hr src 0 c (length src) (Out None 0) Ht) as (o & -> & _ & Ho); [by unfold out_ok|done|simpl; lia|].
  unfold text_out, range in Ho. simpl in *. rewrite Nat.sub_0_r, drop_0, firstn_all in Ho.
  simpl. destruct (out_text o) as [t|]; simpl in Ho; [by rewrite Ho|]. by rewrite Hr, <- Ho.
Qed.
