(* ===== verification/IrProps.v ===== *)
(** Properties of the intermediate representation: the source survives the
    round trip, the tree is well typed, the arena hands out disjoint memory. *)
From S2P Require Import Prelude Bytes Lex Text TextDecl Ir IrSpec.

Implicit Types (src : list ascii).

(** * The tree *)

(** C20: for every source text below 2^60 bytes and every outcome of the
    allocations, building the tree gives a tree or reports that memory was
    missing (never with memory available); the tree, emitted with memory, is
    the source text byte for byte, so the differential verifier, which returns
    0 exactly on equal texts, accepts it. *)
Theorem ir_roundtrip malloc_ok realloc_ok src a :
  (Z.of_nat (length src) < 2 ^ 60)%Z → cc_ir_arena_create malloc_ok true = Some a → (∀ n, realloc_ok n = true) →
  (∀ x y active, cc_ir_verify_diff active x y = 0%Z ↔ active = false ∨ x = y) ∧
  match (cc_ir_build_from_stub malloc_ok src a).1 with
  | Some root => cc_ir_emit_text realloc_ok root = Some src
  | None => ¬ has_memory malloc_ok
  end.
Proof.
  intros Hlen Ha Hr. split; [intros; apply verify_diff_spec|].
  destruct (build_emits malloc_ok realloc_ok src a Hlen Ha Hr) as [[-> Hm]|(root & -> & _ & He)]; done.
Qed.
Definition demo_src : list ascii := txt "int x = f(1) !>(e) { return 0; } y = g() ?> 3; int !>(E) h(int a);".
Definition always : nat → Z → bool := λ _ _, true.
Definition demo_arena : CCIrArena := Arena [Block 65536 0] 0 1.
Lemma ir_roundtrip_witness :
  (λ n, node_kind <$> children n) <$> (cc_ir_build_from_stub always demo_src demo_arena).1 =
    Some [CC_IR_OPAQUE_TEXT; CC_IR_UNWRAP_BANG; CC_IR_OPAQUE_TEXT; CC_IR_UNWRAP_Q; CC_IR_OPAQUE_TEXT; CC_IR_OPAQUE_TEXT] ∧
  match (cc_ir_build_from_stub always demo_src demo_arena).1 with
  | Some root => cc_ir_emit_text (λ _, true) root = Some demo_src
  | None => ¬ has_memory always
  end.
Proof.
  assert (Hlen : (Z.of_nat (length demo_src) < 2 ^ 60)%Z) by (vm_compute; reflexivity).
  assert (Ha : cc_ir_arena_create always true = Some demo_arena) by (vm_compute; reflexivity).
  split; [vm_compute; reflexivity|].
  apply (ir_roundtrip always (λ _, true) demo_src demo_arena Hlen Ha). done.
Defined.

(** Every child of a built tree is an opaque slice or an unwrap with the
    right sigil in its span, its texts taken from the source (left-hand side
    before the sigil, an identifier as binder and the body after it), and the
    children follow each other without gap or overlap from the first byte to
    the last. *)
Theorem ir_nodes_well_typed malloc_ok src a root a' :
  cc_ir_arena_create malloc_ok true = Some a → cc_ir_build_from_stub malloc_ok src a = (Some root, a') →
  node_kind root = CC_IR_FILE ∧ raw_text root = src ∧ tiles src 0 (children root) (length src) ∧
  ∀ n, n ∈ children root → node_ok src n.
Proof.
  intros Ha Hb. destruct (create_ok _ _ Ha) as [_ Hne]. destruct (build_runs malloc_ok src a Hne) as [_ Hr]. rewrite Hb in Hr.
  destruct Hr as (Ht & Hk & Hraw & _). split_and!; [done|done|done|]. apply Forall_forall. by eapply tiles_nodes.
Qed.
Definition small_root : CCIrNode :=
  Eval vm_compute in default (Node 0 CC_IR_INVALID (Span 0 0) [] [] 0 no_unwrap) (cc_ir_build_from_stub always (txt "f() !>;") demo_arena).1.
Definition small_arena : CCIrArena := Eval vm_compute in (cc_ir_build_from_stub always (txt "f() !>;") demo_arena).2.
Lemma ir_nodes_well_typed_witness :
  length (children small_root) = 1 ∧ ∀ n, n ∈ children small_root → node_ok (txt "f() !>;") n.
Proof.
  assert (Ha : cc_ir_arena_create always true = Some demo_arena) by (vm_compute; reflexivity).
  assert (Hb : cc_ir_build_from_stub always (txt "f() !>;") demo_arena = (Some small_root, small_arena)) by (vm_compute; reflexivity).
  split; [reflexivity|]. apply (ir_nodes_well_typed always _ demo_arena small_root small_arena Ha Hb).
Defined.

(** * The arena *)

(** C31: the regions returned by any sequence of allocations of 1 to 2^60 bytes,
    whatever [malloc] answers, lie inside their blocks, are aligned to 8 bytes,
    are as long as requested, and no two overlap. *)
Theorem arena_allocations_disjoint malloc_ok a sizes :
  cc_ir_arena_create malloc_ok true = Some a → Forall (λ n, 0 < n < 2 ^ 60)%Z sizes →
  let '(rs, a') := alloc_all malloc_ok sizes a in
  (∀ i r, rs !! i = Some r → ∃ b, blks a' !! p_block r.1 = Some b ∧
     (0 ≤ p_off r.1 ∧ p_off r.1 + r.2 ≤ blk_cap b ∧ p_off r.1 mod 8 = 0)%Z) ∧
  (∀ i j r r', rs !! i = Some r → rs !! j = Some r' → i < j → disjoint_regions r' r) ∧
  (has_memory malloc_ok → Forall2 (λ n r, n ≤ r.2)%Z sizes rs).
Proof.
  intros Ha Hs. pose proof (create_ok _ _ Ha) as Hok. pose proof (alloc_all_spec malloc_ok sizes a [] Hok Hs ltac:(constructor)) as H.
  pose proof (alloc_all_sizes malloc_ok sizes a Hok Hs) as Hsz. destruct (alloc_all malloc_ok sizes a) as [rs a'].
  destruct H as ([Hf _] & Hin & Hd). split_and!; [| |done].
  - intros i r Hi. destruct (Forall_lookup_1 _ _ _ _ Hin Hi) as (b & Hb & ? & ? & ?). exists b.
    destruct (Forall_lookup_1 _ _ _ _ Hf Hb) as (? & _). split_and!; [done|lia|lia|done].
  - intros i j r r' Hi Hj Hij. specialize (Hd j r' Hj). simpl in Hd. rewrite Forall_forall in Hd. apply Hd.
    apply list_elem_of_lookup. exists i. by rewrite lookup_take_lt.
Qed.
Definition demo_regions : list (ptr * Z) := [(Ptr 0 0, 8); (Ptr 1 0, 70000); (Ptr 2 0, 8)]%Z.
Lemma arena_allocations_disjoint_witness :
  (alloc_all always [3; 70000; 5]%Z demo_arena).1 = demo_regions ∧
  ∀ i j r r', demo_regions !! i = Some r → demo_regions !! j = Some r' → i < j → disjoint_regions r' r.
Proof.
  split; [vm_compute; reflexivity|].
  assert (Ha : cc_ir_arena_create always true = Some demo_arena) by (vm_compute; reflexivity).
  pose proof (arena_allocations_disjoint always demo_arena [3; 70000; 5]%Z Ha ltac:(repeat constructor; lia)) as H.
  assert (E : alloc_all always [3; 70000; 5]%Z demo_arena = (demo_regions, (alloc_all always [3; 70000; 5]%Z demo_arena).2)) by (vm_compute; reflexivity).
  rewrite E in H. apply H.
Defined.
