(* ===== verification/Exec.v ===== *)
(** The thread-pool executor ([src/cc/runtime/exec.c]): a ring buffer of jobs
    under one mutex with two condition variables.  One critical section - from
    acquiring the mutex to releasing it or waiting - is one step; all fields
    are accessed under the mutex. *)
From S2P Require Import Prelude Bytes.

(** A job stands for its function and argument. *)
Notation job := nat.

(** * The ring buffer *)

Record CCExec := ExecState {
  queue : list (option job);   (** [None]: memory not written yet *)
  qcap : nat; qhead : nat; qtail : nat; qlen : nat;
  unbounded : bool; shutting_down : bool }.
#[export] Instance eta_exec : Eta CCExec := λ e,
  ExecState (queue e) (qcap e) (qhead e) (qtail e) (qlen e) (unbounded e) (shutting_down e).

Definition EINVAL : Z := 22.
Definition EAGAIN : Z := 11.
Definition ENOMEM : Z := 12.

(** [malloc] of [n] jobs of 16 bytes: the product is computed in [size_t], no
    object exceeds [PTRDIFF_MAX], and [ok] says whether memory is left. *)
Definition malloc_jobs (ok : bool) (n : nat) : option (list (option job)) :=
  let bytes := ((Z.of_nat n * 16) mod 2 ^ 64)%Z in
  if ok && bool_decide (bytes < 2 ^ 63)%Z then Some (replicate (Z.to_nat (bytes / 16)) None) else None.

(** The fields [cc_exec_create] sets before it starts the threads. *)
Definition cc_exec_create_state (ok : bool) (queue_cap : nat) : option CCExec :=
  let unb := bool_decide (queue_cap = 0) in
  let cap := if unb then 128 else queue_cap in
  q ← malloc_jobs ok cap; Some (ExecState q cap 0 0 0 unb false).
Definition cc__exec_grow (ok : bool) (new_cap : nat) (e : CCExec) : Z * CCExec :=
  match malloc_jobs ok new_cap with
  | None => (ENOMEM, e)
  | Some nb =>
      let moved := (λ i, default None (queue e !! ((qhead e + i) mod qcap e))) <$> seq 0 (qlen e) in
      (0%Z, e <| queue := moved ++ drop (qlen e) nb |> <| qcap := new_cap |> <| qhead := 0 |> <| qtail := qlen e |>)
  end.
(** Storing a job at the tail. *)
Definition push (j : job) (e : CCExec) : CCExec :=
  e <| queue := <[qtail e := Some j]> (queue e) |> <| qtail := (qtail e + 1) mod qcap e |> <| qlen := qlen e + 1 |>.
(** Doubling the capacity in [size_t]: [None] when the product wraps. *)
Definition doubled (e : CCExec) : option nat :=
  let new_cap := Z.to_nat ((Z.of_nat (qcap e) * 2) mod 2 ^ 64) in
  if decide (new_cap < qcap e) then None else Some new_cap.

Definition cc_exec_submit (ok : bool) (j : job) (e : CCExec) : Z * CCExec :=
  if shutting_down e then (EINVAL, e) else
  if decide (qlen e = qcap e) then
    if unbounded e then
      match doubled e with
      | None => (EAGAIN, e)
      | Some c => let '(err, e') := cc__exec_grow ok c e in if decide (err = 0%Z) then (0%Z, push j e') else (EAGAIN, e)
      end
    else (EAGAIN, e)
  else (0%Z, push j e).
(** One turn of the loop of [cc_exec_submit_blocking]: [None] waits on
    [cv_not_full]. *)
Definition cc_exec_submit_blocking_turn (ok : bool) (j : job) (e : CCExec) : option Z * CCExec :=
  if shutting_down e then (Some EINVAL, e) else
  if decide (qlen e < qcap e) then (Some 0%Z, push j e) else
  if unbounded e then
    match doubled e with
    | None => (None, e)
    | Some c => let '(err, e') := cc__exec_grow ok c e in if decide (err = 0%Z) then (Some 0%Z, push j e') else (None, e)
    end
  else (None, e).
(** The critical section of [cc_exec_worker]. *)
Inductive worker_turn := TWait | TExit | TJob (j : option job) (e : CCExec).
Definition cc_exec_worker_turn (e : CCExec) : worker_turn :=
  if decide (qlen e = 0) then if shutting_down e then TExit else TWait
  else TJob (default None (queue e !! qhead e)) (e <| qhead := (qhead e + 1) mod qcap e |> <| qlen := qlen e - 1 |>).
(** The critical section of [cc_exec_shutdown]; it broadcasts both variables. *)
Definition cc_exec_shutdown_state (e : CCExec) : CCExec := e <| shutting_down := true |>.

(** * Threads *)

Inductive wstate := WReady | WAsleep | WRunning (j : job) | WExited.
Inductive sstate := SReady | SAsleep | SReturned (rc : Z).
#[export] Instance sstate_eq : EqDecision sstate.
Proof. solve_decision. Defined.
Record pool := Pool {
  ex : CCExec;
  workers : list wstate;
  callers : list (job * sstate);   (** calls of [cc_exec_submit_blocking] *)
  accepted : list job;             (** jobs in the order they were stored *)
  taken : list job }.              (** jobs in the order workers took them *)
#[export] Instance eta_pool : Eta pool := λ p, Pool (ex p) (workers p) (callers p) (accepted p) (taken p).

(** [pthread_cond_signal] on [cv_not_empty]: one sleeping worker, if any, becomes
    ready; on [cv_not_full] one sleeping caller. *)
Definition signal_worker (ws ws' : list wstate) : Prop :=
  (WAsleep ∉ ws ∧ ws' = ws) ∨ ∃ i, ws !! i = Some WAsleep ∧ ws' = <[i := WReady]> ws.
Definition asleep (c : job * sstate) : Prop := c.2 = SAsleep.
Definition signal_caller (cs cs' : list (job * sstate)) : Prop :=
  (Forall (λ c, ¬ asleep c) cs ∧ cs' = cs) ∨ ∃ i j, cs !! i = Some (j, SAsleep) ∧ cs' = <[i := (j, SReady)]> cs.
Definition wake_worker (w : wstate) : wstate := match w with WAsleep => WReady | _ => w end.
Definition wake_caller (c : job * sstate) : job * sstate := match c with (j, SAsleep) => (j, SReady) | _ => c end.

(** Who moves: a worker by itself, the client threads, or the operating system
    returning spuriously from a wait. *)
Inductive actor := Worker | Client | Spurious.
Inductive pool_step : actor → pool → pool → Prop :=
  | step_worker_wait p i :
      workers p !! i = Some WReady → cc_exec_worker_turn (ex p) = TWait →
      pool_step Worker p (p <| workers := <[i := WAsleep]> (workers p) |>)
  | step_worker_exit p i :
      workers p !! i = Some WReady → cc_exec_worker_turn (ex p) = TExit →
      pool_step Worker p (p <| workers := <[i := WExited]> (workers p) |>)
  | step_worker_take p i j e cs :
      workers p !! i = Some WReady → cc_exec_worker_turn (ex p) = TJob (Some j) e → signal_caller (callers p) cs →
      pool_step Worker p (p <| ex := e |> <| workers := <[i := WRunning j]> (workers p) |> <| callers := cs |> <| taken := taken p ++ [j] |>)
  | step_worker_done p i j :
      workers p !! i = Some (WRunning j) → pool_step Worker p (p <| workers := <[i := WReady]> (workers p) |>)
  | step_worker_spurious p i :
      workers p !! i = Some WAsleep → pool_step Spurious p (p <| workers := <[i := WReady]> (workers p) |>)
  | step_submit p ok j e ws :
      cc_exec_submit ok j (ex p) = (0%Z, e) → signal_worker (workers p) ws →
      pool_step Client p (p <| ex := e |> <| workers := ws |> <| accepted := accepted p ++ [j] |>)
  | step_call p j : pool_step Client p (p <| callers := callers p ++ [(j, SReady)] |>)
  | step_call_wait p i ok j :
      callers p !! i = Some (j, SReady) → cc_exec_submit_blocking_turn ok j (ex p) = (None, ex p) →
      pool_step Client p (p <| callers := <[i := (j, SAsleep)]> (callers p) |>)
  | step_call_done p i ok j e ws :
      callers p !! i = Some (j, SReady) → cc_exec_submit_blocking_turn ok j (ex p) = (Some 0%Z, e) → signal_worker (workers p) ws →
      pool_step Client p (p <| ex := e |> <| workers := ws |> <| callers := <[i := (j, SReturned 0)]> (callers p) |> <| accepted := accepted p ++ [j] |>)
  | step_call_fail p i ok j rc :
      callers p !! i = Some (j, SReady) → cc_exec_submit_blocking_turn ok j (ex p) = (Some rc, ex p) → rc ≠ 0%Z →
      pool_step Client p (p <| callers := <[i := (j, SReturned rc)]> (callers p) |>)
  | step_call_spurious p i j :
      callers p !! i = Some (j, SAsleep) → pool_step Spurious p (p <| callers := <[i := (j, SReady)]> (callers p) |>)
  | step_shutdown p :
      pool_step Client p (p <| ex := cc_exec_shutdown_state (ex p) |> <| workers := wake_worker <$> workers p |> <| callers := wake_caller <$> callers p |>).
(** [cc_exec_create] with its threads started: [n] of them, 4 when the caller
    asks for none.  The array of their handles is granted; its size does not
    leave [size_t] for fewer than 2^61 threads. *)
Definition nthreads (workers : nat) : nat := if decide (workers = 0) then 4 else workers.
Definition started (e : CCExec) (n : nat) : pool := Pool e (replicate n WReady) [] [] [].
Definition cc_exec_create (ok : bool) (workers queue_cap : nat) : option pool :=
  e ← cc_exec_create_state ok queue_cap; Some (started e (nthreads workers)).
(** When [pthread_create] fails, [cc_exec_create] sets [shutting_down] without the
    mutex and without a broadcast, and joins the threads already started. *)
Definition create_failed (p : pool) : pool := p <| ex := cc_exec_shutdown_state (ex p) |>.
(** [pthread_join] on every thread returns. *)
Definition joined (p : pool) : Prop := Forall (.= WExited) (workers p).
