(* ===== verification/ExecProps.v ===== *)
(** The executor: jobs leave the ring in the order they were stored, each once,
    no wake-up is lost, and [cc_exec_shutdown] returns after the last job. *)
From S2P Require Import Prelude Bytes Exec.

Implicit Types (e : CCExec) (l : list job) (p : pool).

(** * The ring holds a list *)

Record holds e l : Prop := {
  holds_cap : 0 < qcap e;
  holds_bytes : (Z.of_nat (qcap e) * 16 < 2 ^ 63)%Z;
  holds_mem : length (queue e) = qcap e;
  holds_head : qhead e < qcap e;
  holds_len : qlen e = length l;
  holds_fits : length l ≤ qcap e;
  holds_tail : qtail e = (qhead e + qlen e) mod qcap e;
  holds_at i j : l !! i = Some j → queue e !! ((qhead e + i) mod qcap e) = Some (Some j) }.

(** No wrap: the block has a slot for every job. *)
Lemma malloc_jobs_fits ok n q : (Z.of_nat n * 16 < 2 ^ 64)%Z → malloc_jobs ok n = Some q →
  length q = n ∧ (Z.of_nat n * 16 < 2 ^ 63)%Z.
Proof.
  intros Hn. unfold malloc_jobs. rewrite Z.mod_small by lia. destruct ok; simpl; [|done].
  case_bool_decide; [|done]. intros [= <-]. rewrite length_replicate, Z.div_mul by done. lia.
Qed.
Lemma holds_create ok cap e : (Z.of_nat cap * 16 < 2 ^ 64)%Z → cc_exec_create_state ok cap = Some e →
  holds e [] ∧ shutting_down e = false.
Proof.
  unfold cc_exec_create_state. intros Hc He.
  set (c := if bool_decide (cap = 0) then 128 else cap) in *.
  assert (0 < c ∧ (Z.of_nat c * 16 < 2 ^ 64)%Z) as [Hpos Hc'] by (subst c; case_bool_decide; lia).
  destruct (malloc_jobs _ _) as [q|] eqn:Eq; simplify_eq/=.
  apply malloc_jobs_fits in Eq as [? ?]; [|lia]. split; [|done].
  split; simpl; try done; [lia|]. by rewrite Nat.mod_small by lia.
Qed.
Lemma ring_slots_distinct h i k c : h < c → i < c → k < c → (h + i) mod c = (h + k) mod c → i = k.
Proof.
  intros Hh Hi Hk Heq.
  assert (Hm : ∀ x, x < c → (h + x) mod c = if decide (h + x < c) then h + x else h + x - c).
  { intros x Hx. case_decide; [by apply Nat.mod_small|]. symmetry. apply (Nat.mod_unique (h + x) c 1); lia. }
  rewrite !Hm in Heq by done. repeat case_decide; lia.
Qed.
Lemma push_holds j e l : holds e l → length l < qcap e → holds (push j e) (l ++ [j]).
Proof.
  intros [H1 Hb H2 H3 H4 H5 H6 H7] Hlt. assert (Ht : qtail e < qcap e) by (rewrite H6; apply Nat.mod_upper_bound; lia).
  split; simpl; rewrite ?length_insert, ?length_app; simpl; [done|done|done|done|lia|lia| |].
  - rewrite H6, Nat.Div0.add_mod_idemp_l. f_equal. lia.
  - intros i x Hi. destruct (decide (i < length l)) as [Hil|Hil].
    + rewrite lookup_app_l in Hi by done. rewrite list_lookup_insert_ne; [by apply H7|]. rewrite H6, H4. intros Heq.
      apply ring_slots_distinct in Heq; lia.
    + rewrite lookup_app_r in Hi by lia. destruct (i - length l) eqn:Ed; [|done]. injection Hi as <-.
      replace i with (length l) by lia. rewrite <- H4, <- H6. apply list_lookup_insert_eq. lia.
Qed.
Lemma doubled_double e l : holds e l → doubled e = Some (qcap e * 2).
Proof. intros [H1 Hb _ _ _ _ _ _]. unfold doubled. rewrite Z.mod_small by lia. rewrite decide_False by lia. f_equal. lia. Qed.
Lemma grow_holds ok c e l rc e' : holds e l → length l < c → (Z.of_nat c * 16 < 2 ^ 64)%Z → cc__exec_grow ok c e = (rc, e') →
  (rc = ENOMEM ∧ e' = e) ∨ (rc = 0%Z ∧ holds e' l ∧ qcap e' = c ∧ shutting_down e' = shutting_down e).
Proof.
  intros [H1 Hb H2 H3 H4 H5 H6 H7] Hc Hs. unfold cc__exec_grow.
  destruct (malloc_jobs ok c) as [nb|] eqn:Em; intros [= <- <-]; [right|by left].
  apply malloc_jobs_fits in Em as [Hl Hb']; [|done]. split_and!; [done| |done|done].
  split; simpl; [lia|done|rewrite length_app, length_fmap, length_seq, length_drop; lia|lia|done|lia|by rewrite Nat.mod_small by lia|].
  intros i j Hi. pose proof (lookup_lt_Some _ _ _ Hi). rewrite Nat.mod_small by lia.
  rewrite lookup_app_l by (rewrite length_fmap, length_seq; lia). rewrite list_lookup_fmap, lookup_seq_lt by lia. simpl.
  by rewrite (H7 _ _ Hi).
Qed.
(** What a caller that stores a job does: the ring is not closed, and the job is
    appended. *)
Lemma submit_holds ok j e l rc e' : holds e l → cc_exec_submit ok j e = (rc, e') →
  (rc ≠ 0%Z ∧ e' = e) ∨ (rc = 0%Z ∧ holds e' (l ++ [j]) ∧ shutting_down e = false ∧ shutting_down e' = false).
Proof.
  intros H. unfold cc_exec_submit. destruct (shutting_down e) eqn:Es; [intros [= <- <-]; by left|].
  case_decide as Hq.
  - destruct (unbounded e); [|intros [= <- <-]; by left]. rewrite (doubled_double _ _ H).
    destruct (cc__exec_grow ok _ e) as [g e1] eqn:Eg.
    apply (grow_holds _ _ _ _ _ _ H) in Eg as [[-> ->]|(-> & Hh & Hc & Hsd)]; [..|destruct H; lia|destruct H; lia].
    + intros [= <- <-]. by left.
    + simpl. intros [= <- <-]. right. split_and!; [done| |done|simpl; congruence]. apply push_holds; [done|]. destruct H; lia.
  - intros [= <- <-]. right. split_and!; [done| |done|done]. apply push_holds; [done|]. destruct H; lia.
Qed.
Lemma blocking_holds ok j e l rc e' : holds e l → cc_exec_submit_blocking_turn ok j e = (rc, e') →
  (rc = None ∧ e' = e ∧ 0 < qlen e ∧ shutting_down e = false) ∨ (rc = Some EINVAL ∧ e' = e ∧ shutting_down e = true) ∨
  (rc = Some 0%Z ∧ holds e' (l ++ [j]) ∧ shutting_down e = false ∧ shutting_down e' = false).
Proof.
  intros H. unfold cc_exec_submit_blocking_turn. destruct (shutting_down e) eqn:Es; [intros [= <- <-]; auto|].
  case_decide as Hq; [intros [= <- <-]; do 2 right; split_and!; [done|apply push_holds; [done|destruct H; lia]|done|done]|].
  assert (Hpos : 0 < qlen e) by (destruct H; lia).
  destruct (unbounded e); [|intros [= <- <-]; auto]. rewrite (doubled_double _ _ H).
  destruct (cc__exec_grow ok _ e) as [g e1] eqn:Eg.
  apply (grow_holds _ _ _ _ _ _ H) in Eg as [[-> ->]|(-> & Hh & Hc & Hsd)]; [..|destruct H; lia|destruct H; lia].
  - intros [= <- <-]. auto.
  - simpl. intros [= <- <-]. do 2 right. split_and!; [done| |done|simpl; congruence]. apply push_holds; [done|]. destruct H; lia.
Qed.
(** A worker takes the oldest job. *)
Lemma turn_takes j e l : holds e (j :: l) →
  ∃ e', cc_exec_worker_turn e = TJob (Some j) e' ∧ holds e' l ∧ shutting_down e' = shutting_down e.
Proof.
  intros [H1 Hb H2 H3 H4 H5 H6 H7]. unfold cc_exec_worker_turn. simpl in *. rewrite decide_False by lia.
  pose proof (H7 0 j eq_refl) as H0. rewrite Nat.add_0_r, Nat.mod_small in H0 by done. rewrite H0. simpl.
  eexists. split; [done|]. split; [|done].
  split; simpl; [done|done|done|apply Nat.mod_upper_bound; lia|lia|lia| |].
  - rewrite H6, Nat.Div0.add_mod_idemp_l. f_equal. lia.
  - intros i x Hi. rewrite Nat.Div0.add_mod_idemp_l. rewrite <- (H7 (S i) x Hi). do 2 f_equal. lia.
Qed.
Lemma turn_empty e : holds e [] → cc_exec_worker_turn e = if shutting_down e then TExit else TWait.
Proof. intros [_ _ _ _ H4 _ _ _]. unfold cc_exec_worker_turn. by rewrite decide_True by done. Qed.

(** * The pool's invariant *)

Definition wready (w : wstate) : nat := match w with WReady => 1 | _ => 0 end.
Definition cready (c : job * sstate) : nat := match c.2 with SReady => 1 | _ => 0 end.
Notation nready := (sum_list_with wready).
Notation ncalls := (sum_list_with cready).

(** A worker sleeps only when every queued job has a woken worker; a caller
    sleeps only while something else will move. *)
Record pool_inv p l : Prop := {
  pi_holds : holds (ex p) l;
  pi_fifo : accepted p = taken p ++ l;
  pi_asleep : WAsleep ∈ workers p → shutting_down (ex p) = false ∧ qlen (ex p) ≤ nready (workers p);
  pi_exited : WExited ∈ workers p → shutting_down (ex p) = true ∧ l = [];
  pi_callers j : (j, SAsleep) ∈ callers p → shutting_down (ex p) = false ∧ 0 < qlen (ex p) + ncalls (callers p);
  pi_returned j : (j, SReturned 0) ∈ callers p → j ∈ accepted p }.

Lemma sum_list_with_insert {A} (f : A → nat) (k : list A) i x y :
  k !! i = Some x → sum_list_with f (<[i := y]> k) + f x = sum_list_with f k + f y.
Proof.
  revert i. induction k as [|z k IH]; intros i Hi; [done|]. destruct i; simplify_eq/=; [lia|]. specialize (IH _ Hi). lia.
Qed.
Lemma sum_list_with_elem {A} (f : A → nat) (k : list A) x : x ∈ k → f x ≤ sum_list_with f k.
Proof. induction 1; simpl; lia. Qed.
Lemma elem_of_insert_inv {A} (k : list A) i x y : y ∈ <[i := x]> k → y = x ∨ y ∈ k.
Proof.
  intros [n Hn]%list_elem_of_lookup. destruct (decide (i = n)) as [->|Hne].
  - destruct (decide (n < length k)).
    + rewrite list_lookup_insert_eq in Hn by done. left. congruence.
    + rewrite list_insert_ge in Hn by lia. right. by eapply list_elem_of_lookup_2.
  - rewrite list_lookup_insert_ne in Hn by done. right. by eapply list_elem_of_lookup_2.
Qed.
Lemma signal_worker_spec ws ws' : signal_worker ws ws' →
  (WAsleep ∈ ws' → nready ws' = nready ws + 1) ∧ ∀ w, w ∈ ws' → w = WReady ∨ w ∈ ws.
Proof.
  intros [[Hn ->]|(i & Hi & ->)]; [split; [done|auto]|]. split; [|intros w; apply elem_of_insert_inv].
  intros _. pose proof (sum_list_with_insert wready ws i WAsleep WReady Hi). simpl in *. lia.
Qed.
Lemma signal_caller_spec cs cs' : signal_caller cs cs' →
  (∀ j, (j, SAsleep) ∈ cs' → ncalls cs' = ncalls cs + 1) ∧ (∀ c, c ∈ cs' → c.2 = SReady ∨ c ∈ cs).
Proof.
  intros [[Hn ->]|(i & j & Hi & ->)].
  - split; [|auto]. intros j Hj. rewrite Forall_forall in Hn. by destruct (Hn _ Hj).
  - split; [|intros c [->|?]%elem_of_insert_inv; auto].
    intros _ _. pose proof (sum_list_with_insert cready cs i _ (j, SReady) Hi). unfold cready in *. simpl in *. lia.
Qed.

Lemma pool_inv_create ok n cap p : (Z.of_nat cap * 16 < 2 ^ 64)%Z → cc_exec_create ok n cap = Some p → pool_inv p [].
Proof.
  unfold cc_exec_create. intros Hc Hp. destruct (cc_exec_create_state ok cap) as [e|] eqn:He; simplify_eq/=.
  apply holds_create in He as [Hh Hs]; [|done].
  split; simpl; try done; try (intros ?%elem_of_replicate; naive_solver); set_solver.
Qed.

(** The two ways a worker's slot changes. *)
Lemma pool_inv_workers p l i w w' : pool_inv p l → workers p !! i = Some w →
  (w' = WAsleep → shutting_down (ex p) = false ∧ l = []) → (w' = WExited → shutting_down (ex p) = true ∧ l = []) →
  (w = WReady → l = []) → pool_inv (p <| workers := <[i := w']> (workers p) |>) l.
Proof.
  intros [H1 H2 H3 H4 H5 H6] Hi Ha He Hw. pose proof (sum_list_with_insert wready (workers p) i w w' Hi) as Hsum.
  split; simpl; try done.
  - intros [<-|Hin]%elem_of_insert_inv.
    + destruct Ha as [? ->]; [done|]. split; [done|]. destruct H1. simpl in *. lia.
    + destruct (H3 Hin) as [? Hle]. split; [done|]. destruct w; simpl in *; [|lia..].
      rewrite (holds_len _ _ H1), (Hw eq_refl). simpl. lia.
  - intros [<-|Hin]%elem_of_insert_inv; auto.
Qed.
(** A caller's slot changes; the ring does not. *)
Lemma pool_inv_callers p l i c c' : pool_inv p l → callers p !! i = Some c →
  (c'.2 = SAsleep → shutting_down (ex p) = false ∧ 0 < qlen (ex p)) →
  (c'.2 = SReady ∨ 0 < qlen (ex p) ∨ shutting_down (ex p) = true) → c'.2 ≠ SReturned 0 →
  pool_inv (p <| callers := <[i := c']> (callers p) |>) l.
Proof.
  intros [H1 H2 H3 H4 H5 H6] Hi Ha Hc Hr. pose proof (sum_list_with_insert cready (callers p) i c c' Hi) as Hsum.
  assert (Hone : cready c ≤ 1) by (unfold cready; destruct (c.2); lia).
  split; simpl; try done.
  - intros j [<-|Hin]%elem_of_insert_inv; [destruct (Ha eq_refl); split; [done|lia]|].
    destruct (H5 _ Hin) as [Hs Hlt]. split; [done|]. destruct Hc as [Hc|[?|?]]; [|lia|congruence].
    unfold cready at 4 in Hsum. rewrite Hc in Hsum. lia.
  - intros j [<-|Hin]%elem_of_insert_inv; [done|]. by apply (H6 j).
Qed.
(** A job is stored and a worker signalled. *)
Lemma pool_inv_stored p l j e ws : pool_inv p l → holds e (l ++ [j]) → shutting_down (ex p) = false → shutting_down e = false →
  signal_worker (workers p) ws →
  pool_inv (p <| ex := e |> <| workers := ws |> <| accepted := accepted p ++ [j] |>) (l ++ [j]).
Proof.
  intros [H1 H2 H3 H4 H5 H6] He Hs Hs' [Hn Hin]%signal_worker_spec.
  assert (Hq : qlen e = qlen (ex p) + 1) by (destruct H1, He; rewrite length_app in *; simpl in *; lia).
  split; simpl; try done.
  - by rewrite H2, app_assoc.
  - intros Ha. split; [done|]. destruct (Hin _ Ha) as [?|Ha']; [done|]. destruct (H3 Ha'). rewrite (Hn Ha). lia.
  - intros Hx. destruct (Hin _ Hx) as [?|Hx']; [done|]. destruct (H4 Hx'). congruence.
  - intros k Hk. destruct (H5 _ Hk). split; [done|lia].
  - intros k Hk. set_solver.
Qed.
Lemma pool_inv_returned p l i j : pool_inv p l → callers p !! i = Some (j, SReady) → j ∈ accepted p → 0 < qlen (ex p) →
  pool_inv (p <| callers := <[i := (j, SReturned 0)]> (callers p) |>) l.
Proof.
  intros [H1 H2 H3 H4 H5 H6] Hi Hj Hq. split; simpl; try done.
  - intros k [?|Hin]%elem_of_insert_inv; [done|]. destruct (H5 _ Hin). split; [done|lia].
  - intros k [[= ->]|Hin]%elem_of_insert_inv; auto.
Qed.
(** A worker takes the oldest job and signals a caller. *)
Lemma pool_inv_take p j l i e cs : pool_inv p (j :: l) → workers p !! i = Some WReady → holds e l →
  shutting_down e = shutting_down (ex p) → signal_caller (callers p) cs →
  pool_inv (p <| ex := e |> <| workers := <[i := WRunning j]> (workers p) |> <| callers := cs |> <| taken := taken p ++ [j] |>) l.
Proof.
  intros [H1 H2 H3 H4 H5 H6] Hi He Hs [Hn Hin]%signal_caller_spec.
  pose proof (sum_list_with_insert wready (workers p) i WReady (WRunning j) Hi) as Hsum.
  assert (Hq : qlen (ex p) = qlen e + 1) by (destruct H1, He; simpl in *; lia).
  split; simpl; try done; rewrite ?Hs.
  - by rewrite H2, <- app_assoc.
  - intros [?|Ha]%elem_of_insert_inv; [done|]. destruct (H3 Ha). simpl in *. split; [done|lia].
  - intros [?|Hx]%elem_of_insert_inv; [done|]. by destruct (H4 Hx).
  - intros k Hk. destruct (Hin _ Hk) as [?|Hk']; [done|]. destruct (H5 _ Hk'). rewrite (Hn _ Hk). split; [done|lia].
  - intros k Hk. destruct (Hin _ Hk) as [?|Hk']; [done|]. by apply (H6 k).
Qed.
Lemma pool_inv_shutdown p l : pool_inv p l →
  pool_inv (p <| ex := cc_exec_shutdown_state (ex p) |> <| workers := wake_worker <$> workers p |> <| callers := wake_caller <$> callers p |>) l.
Proof.
  intros [[] H2 H3 H4 H5 H6]. split; simpl; try done.
  - intros ([] & ? & ?)%list_elem_of_fmap; done.
  - intros ([] & Heq & Hin)%list_elem_of_fmap; try done. by destruct (H4 Hin).
  - intros j ([? []] & ? & ?)%list_elem_of_fmap; done.
  - intros j ([? []] & Heq & Hin)%list_elem_of_fmap; simplify_eq/=; auto.
Qed.

Lemma holds_agree e l j e' : holds e l → cc_exec_worker_turn e = TJob (Some j) e' →
  ∃ k, l = j :: k ∧ holds e' k ∧ shutting_down e' = shutting_down e.
Proof.
  intros H Ht. destruct l as [|x k]; [rewrite (turn_empty _ H) in Ht; by destruct (shutting_down e)|].
  destruct (turn_takes _ _ _ H) as (e1 & Ht1 & H1 & Hs). rewrite Ht1 in Ht. simplify_eq. eauto.
Qed.
Lemma holds_idle e l : holds e l → (cc_exec_worker_turn e = TWait → shutting_down e = false ∧ l = []) ∧
  (cc_exec_worker_turn e = TExit → shutting_down e = true ∧ l = []).
Proof.
  intros H. destruct l as [|x k].
  - rewrite (turn_empty _ H). by destruct (shutting_down e).
  - destruct (turn_takes _ _ _ H) as (e1 & -> & _). done.
Qed.
Lemma pool_inv_step a p p' l : pool_inv p l → pool_step a p p' → ∃ l', pool_inv p' l'.
Proof.
  intros Hinv Hs. pose proof (pi_holds _ _ Hinv) as Hh. destruct (holds_idle _ _ Hh) as [Hw Hx].
  destruct Hs as [p i Hi Ht|p i Hi Ht|p i j e cs Hi Ht Hc|p i j Hi|p i Hi|p ok j e ws Hsub Hsig|p j|p i ok j Hi Ht
    |p i ok j e ws Hi Ht Hsig|p i ok j rc Hi Ht Hrc|p i j Hi|p].
  - exists l. eapply pool_inv_workers; naive_solver.
  - exists l. eapply pool_inv_workers; naive_solver.
  - destruct (holds_agree _ _ _ _ Hh Ht) as (k & -> & He & Hsd). exists k. by apply pool_inv_take.
  - exists l. by eapply pool_inv_workers.
  - exists l. by eapply pool_inv_workers.
  - destruct (submit_holds _ _ _ _ _ _ Hh Hsub) as [[? ?]|(_ & He & ? & ?)]; [done|]. exists (l ++ [j]). by apply pool_inv_stored.
  - exists l. destruct Hinv as [? ? ? ? H5 H6]. split; simpl; try done; intros k; rewrite elem_of_app, list_elem_of_singleton.
    + intros [Hk|?]; [|done]. destruct (H5 k Hk). rewrite sum_list_with_app. split; [done|lia].
    + intros [Hk|?]; [by apply H6|done].
  - exists l. destruct (blocking_holds _ _ _ _ _ _ Hh Ht) as [(_ & _ & ? & ?)|[(? & _)|(? & _)]]; [|done..].
    eapply pool_inv_callers; naive_solver.
  - destruct (blocking_holds _ _ _ _ _ _ Hh Ht) as [(? & _)|[(? & _)|(_ & He & ? & ?)]]; [done..|]. exists (l ++ [j]).
    pose proof (pool_inv_stored _ _ _ _ _ Hinv He ltac:(done) ltac:(done) Hsig) as Hst.
    apply (pool_inv_returned _ _ i j Hst Hi); simpl; [set_solver|]. destruct He. rewrite length_app in *. simpl in *. lia.
  - exists l. destruct (blocking_holds _ _ _ _ _ _ Hh Ht) as [(? & _)|[(? & _ & ?)|(? & _)]]; simplify_eq.
    eapply pool_inv_callers; naive_solver.
  - exists l. eapply pool_inv_callers; naive_solver.
  - exists l. by apply pool_inv_shutdown.
Qed.

(** * What the pool guarantees *)

Inductive reaches p : pool → Prop :=
  | reaches_refl : reaches p p
  | reaches_step a q q' : reaches p q → pool_step a q q' → reaches p q'.
Lemma pool_inv_reaches p q l : pool_inv p l → reaches p q → ∃ l', pool_inv q l'.
Proof. intros Hp. induction 1 as [|a q q' _ [k Hk] Hs]; [by exists l|]. by eapply pool_inv_step. Qed.
Lemma reaches_first a p p' q : pool_step a p p' → reaches p' q → reaches p q.
Proof.
  intros Hst Hr. induction Hr as [|b q q' Hr IH Hs]; [exact (reaches_step p a p p' (reaches_refl p) Hst)|].
  exact (reaches_step p b q q' IH Hs).
Qed.
Lemma reaches_workers p q : reaches p q → length (workers q) = length (workers p).
Proof.
  induction 1 as [|a q q' _ IH Hs]; [done|]. rewrite <- IH.
  assert (Hsig : ∀ ws ws', signal_worker ws ws' → length ws' = length ws).
  { intros ws ws' [[_ ->]|(i & _ & ->)]; [done|apply length_insert]. }
  destruct Hs; simpl; rewrite ?length_insert, ?length_fmap; auto.
Qed.

(** C28: Take any pool [cc_exec_create] returns and any interleaving of workers,
    submitters, blocking submitters, spurious wake-ups and shutdown.  The jobs
    taken by workers are, in order and each once, an initial part of the jobs
    stored; a blocking submission returns 0 only after its job was stored; and
    the next job a worker takes is the oldest one left. *)
Theorem exec_jobs_once_in_order ok n cap p q :
  (Z.of_nat cap * 16 < 2 ^ 64)%Z → cc_exec_create ok n cap = Some p → reaches p q →
  ∃ l, accepted q = taken q ++ l ∧ qlen (ex q) = length l ∧ length l ≤ qcap (ex q) ∧
    (∀ j, (j, SReturned 0) ∈ callers q → j ∈ accepted q) ∧
    (∀ j k, l = j :: k → ∃ e, cc_exec_worker_turn (ex q) = TJob (Some j) e).
Proof.
  intros Hc Hp Hr. destruct (pool_inv_reaches _ _ _ (pool_inv_create _ _ _ _ Hc Hp) Hr) as [l Hinv].
  exists l. destruct Hinv as [Hh Hf _ _ _ Hret]. split_and!; [done|apply Hh|apply Hh|done|].
  intros j k ->. destruct (turn_takes _ _ _ Hh) as (e & He & _). eauto.
Qed.

Lemma awake_worker p l : pool_inv p l → l ≠ [] → 0 < length (workers p) →
  ∃ i, workers p !! i = Some WReady ∨ ∃ j, workers p !! i = Some (WRunning j).
Proof.
  intros Hinv Hl Hw. destruct Hinv as [Hh _ Ha Hx _ _].
  destruct (decide (0 < nready (workers p))) as [Hn|Hn].
  - assert (WReady ∈ workers p) as [i Hi]%list_elem_of_lookup; [|by exists i; left].
    clear -Hn. induction (workers p) as [|[] k IH]; simpl in *; [lia|set_solver|..]; apply list_elem_of_further, IH; lia.
  - destruct (lookup_lt_is_Some_2 (workers p) 0 Hw) as [w Hi]. pose proof (list_elem_of_lookup_2 _ _ _ Hi) as Hin. exists 0.
    destruct w; eauto.
    + destruct (Ha Hin) as [_ Hle]. rewrite (holds_len _ _ Hh) in Hle. destruct l; simpl in *; [done|lia].
    + destruct (Hx Hin). done.
Qed.
(** C29: No wake-up is lost.  In every reachable state with a queued job some worker
    is awake (running a job or about to look at the queue), and when a caller of
    [cc_exec_submit_blocking] sleeps the pool is not shut down and either another
    caller is awake or the queue is not empty and a worker is awake, whose next
    take signals a sleeping caller. *)
Theorem exec_no_lost_wakeup ok n cap p q :
  (Z.of_nat cap * 16 < 2 ^ 64)%Z → cc_exec_create ok n cap = Some p → reaches p q →
  let awake := ∃ i, workers q !! i = Some WReady ∨ ∃ j, workers q !! i = Some (WRunning j) in
  (0 < qlen (ex q) → awake) ∧
  (∀ j, (j, SAsleep) ∈ callers q → shutting_down (ex q) = false ∧
     ((∃ i k, callers q !! i = Some (k, SReady)) ∨ (0 < qlen (ex q) ∧ awake))).
Proof.
  intros Hc Hp Hr. destruct (pool_inv_reaches _ _ _ (pool_inv_create _ _ _ _ Hc Hp) Hr) as [l Hinv]. intros awake.
  assert (Hw : 0 < length (workers q)).
  { rewrite (reaches_workers _ _ Hr). unfold cc_exec_create in Hp. destruct (cc_exec_create_state ok cap); simplify_eq/=.
    rewrite length_replicate. unfold nthreads. case_decide; lia. }
  assert (Hawake : 0 < qlen (ex q) → awake).
  { intros Hq. eapply awake_worker; [done| |done]. intros ->. destruct (pi_holds _ _ Hinv). simpl in *. lia. }
  split; [done|]. intros j Hj. destruct (pi_callers _ _ Hinv j Hj) as [Hs Hpos]. split; [done|].
  destruct (decide (0 < qlen (ex q))) as [Hq|Hq]; [right; auto|left].
  assert (Hn : 0 < ncalls (callers q)) by lia. clear -Hn. induction (callers q) as [|[k []] cs IH]; simpl in *; [lia|by exists 0, k|..];
    destruct IH as (i & k' & Hi); [lia| |lia|]; by exists (S i), k'.
Qed.

(** ** Shutdown *)

Definition weight (w : wstate) : nat := match w with WReady => 1 | WRunning _ => 2 | WAsleep => 1 | WExited => 0 end.
Definition drain p : nat := 2 * qlen (ex p) + sum_list_with weight (workers p).
Lemma drain_step p l p' : pool_inv p l → shutting_down (ex p) = true → pool_step Worker p p' →
  drain p' < drain p ∧ accepted p' = accepted p ∧ shutting_down (ex p') = true.
Proof.
  intros Hinv Hs Hst. pose proof (pi_holds _ _ Hinv) as Hh. destruct (holds_idle _ _ Hh) as [Hw Hx]. unfold drain.
  remember Worker as a eqn:Ea. destruct Hst as [p i Hi Ht|p i Hi Ht|p i j e cs Hi Ht Hc|p i j Hi| | | | | | | |]; try done; simpl.
  - destruct (Hw Ht). congruence.
  - pose proof (sum_list_with_insert weight _ _ _ WExited Hi). simpl in *. split_and!; [lia|done|done].
  - destruct (holds_agree _ _ _ _ Hh Ht) as (k & -> & He & Hsd). pose proof (sum_list_with_insert weight _ _ _ (WRunning j) Hi).
    destruct Hh, He. simpl in *. split_and!; [lia|done|congruence].
  - pose proof (sum_list_with_insert weight _ _ _ WReady Hi). simpl in *. split_and!; [lia|done|done].
Qed.
Lemma signal_caller_exists cs : ∃ cs', signal_caller cs cs'.
Proof.
  unfold signal_caller. induction cs as [|[j s] cs (cs' & [[Hn ->]|(i & k & Hi & ->)])].
  - exists []. left. done.
  - destruct (decide (s = SAsleep)) as [->|Hs]; [exists ((j, SReady) :: cs); right; by exists 0, j|].
    exists ((j, s) :: cs). left. split; [|done]. by constructor; [exact Hs|].
  - exists ((j, s) :: <[i := (k, SReady)]> cs). right. by exists (S i), k.
Qed.
(** With the flag set, the workers can stop only by leaving. *)
Lemma drained p l : pool_inv p l → shutting_down (ex p) = true → 0 < length (workers p) →
  (∀ p', ¬ pool_step Worker p p') → joined p ∧ taken p = accepted p.
Proof.
  intros Hinv Hs Hw Hstuck. pose proof (pi_holds _ _ Hinv) as Hh.
  assert (Hj : joined p).
  { apply Forall_forall. intros w [i Hi]%list_elem_of_lookup. pose proof (list_elem_of_lookup_2 _ _ _ Hi) as Hin.
    destruct w as [| |j|]; [exfalso..|done].
    - destruct l as [|j k].
      + eapply Hstuck, (step_worker_exit _ i); [done|]. by rewrite (turn_empty _ Hh), Hs.
      + destruct (turn_takes _ _ _ Hh) as (e & Ht & _). destruct (signal_caller_exists (callers p)) as [cs Hcs].
        by eapply Hstuck, (step_worker_take _ i).
    - destruct (pi_asleep _ _ Hinv Hin). congruence.
    - by eapply Hstuck, (step_worker_done _ i). }
  split; [done|]. destruct (lookup_lt_is_Some_2 (workers p) 0 Hw) as [w Hi].
  pose proof (list_elem_of_lookup_2 _ _ _ Hi) as Hin. rewrite (proj1 (Forall_forall _ _) Hj _ Hin) in Hin.
  destruct (pi_exited _ _ Hinv Hin) as [_ ->]. by rewrite (pi_fifo _ _ Hinv), app_nil_r.
Qed.
Lemma drain_run k p l q : pool_inv p l → shutting_down (ex p) = true → nsteps (pool_step Worker) k p q →
  k + drain q ≤ drain p ∧ accepted q = accepted p ∧ shutting_down (ex q) = true ∧ (∃ l', pool_inv q l') ∧ reaches p q.
Proof.
  intros Hinv Hs Hn. revert l Hinv Hs. induction Hn as [p|k p p' q Hst Hrest IH]; intros l Hinv Hs; [split_and!; [lia|done|done|by exists l|constructor]|].
  destruct (drain_step _ _ _ Hinv Hs Hst) as (Hd & Ha & Hs'). destruct (pool_inv_step _ _ _ _ Hinv Hst) as [l' Hinv'].
  destruct (IH _ Hinv' Hs') as (Hd2 & Ha2 & ? & ? & Hr). split_and!; [lia|congruence|done|done|].
  by eapply reaches_first.
Qed.
(** C30: [cc_exec_shutdown] returns, and only after every stored job was taken.  From
    a reachable state with [shutting_down] set the workers make at most [drain]
    more moves, whatever the order; they store nothing; and when no worker can
    move every thread has exited, so that the joins return, and each stored job
    has been taken. *)
Theorem exec_shutdown_drains ok n cap p q k r :
  (Z.of_nat cap * 16 < 2 ^ 64)%Z → cc_exec_create ok n cap = Some p → reaches p q → shutting_down (ex q) = true →
  nsteps (pool_step Worker) k q r →
  k ≤ drain q ∧ accepted r = accepted q ∧
  ((∀ r', ¬ pool_step Worker r r') → joined r ∧ taken r = accepted q).
Proof.
  intros Hc Hp Hr Hs Hk. destruct (pool_inv_reaches _ _ _ (pool_inv_create _ _ _ _ Hc Hp) Hr) as [l Hinv].
  destruct (drain_run _ _ _ _ Hinv Hs Hk) as (Hd & Ha & Hsr & [l' Hinv'] & Hqr). split_and!; [lia|done|].
  intros Hstuck. rewrite <- Ha. eapply drained; [done|done| |done].
  rewrite (reaches_workers _ _ Hqr), (reaches_workers _ _ Hr). unfold cc_exec_create in Hp.
  destruct (cc_exec_create_state ok cap); simplify_eq/=. rewrite length_replicate. unfold nthreads. case_decide; lia.
Qed.

(** ** A failed start *)

(** A failure of [pthread_create] can hang [cc_exec_create].  Some thread may
    already sleep on the empty queue; the flag is then set without a signal, no
    worker can move (short of a spurious wake-up), and the thread the function
    joins has not exited. *)
Theorem create_failure_hangs ok cap e : cc_exec_create_state ok cap = Some e →
  ∃ p, reaches (started e 1) p ∧ ¬ joined (create_failed p) ∧ ∀ p', ¬ pool_step Worker (create_failed p) p'.
Proof.
  intros He. assert (Hq : qlen e = 0 ∧ shutting_down e = false).
  { unfold cc_exec_create_state in He. by destruct (malloc_jobs _ _); simplify_eq/=. }
  destruct Hq as [Hq Hs]. exists ((started e 1) <| workers := [WAsleep] |>). split_and!.
  - eapply reaches_step; [constructor|]. apply (step_worker_wait (started e 1) 0); [done|].
    unfold cc_exec_worker_turn. simpl. by rewrite decide_True, Hs by done.
  - intros Hj%Forall_inv. done.
  - intros p' Hst. remember (create_failed _) as q eqn:Eq. remember Worker as a eqn:Ea.
    destruct Hst as [p i Hi|p i Hi|p i ? ? ? Hi|p i ? Hi| | | | | | | |]; try done; subst p; destruct i as [|[|?]]; done.
Qed.

(** * Witnesses *)

(** One worker, a queue of two: jobs 7 and 8 are stored, the worker takes 7. *)
Definition demo_pool : pool := started (ExecState (replicate 2 None) 2 0 0 0 false false) 1.
Definition demo_two : CCExec := (cc_exec_submit true 8 (cc_exec_submit true 7 (ex demo_pool)).2).2.
Lemma demo_created : cc_exec_create true 1 2 = Some demo_pool.
Proof. reflexivity. Qed.
Definition demo_one : pool := Pool (cc_exec_submit true 7 (ex demo_pool)).2 [WReady] [] [7] [].
Lemma demo_stored : reaches demo_pool (Pool demo_two [WReady] [] [7; 8] []).
Proof.
  apply (reaches_step _ Client demo_one); [apply (reaches_step _ Client demo_pool); [constructor|]|].
  - apply (step_submit demo_pool true 7 _ [WReady]); [vm_compute; reflexivity|]. left. split; [set_solver|reflexivity].
  - apply (step_submit demo_one true 8 _ [WReady]); [vm_compute; reflexivity|]. left. split; [set_solver|reflexivity].
Qed.
Lemma exec_jobs_once_in_order_witness :
  ∃ l, [7; 8] = [] ++ l ∧ qlen demo_two = length l ∧ length l ≤ 2 ∧
    (∀ j, (j, SReturned 0) ∈ @nil (job * sstate) → j ∈ [7; 8]) ∧
    (∀ j k, l = j :: k → ∃ e, cc_exec_worker_turn demo_two = TJob (Some j) e).
Proof. exact (exec_jobs_once_in_order true 1 2 demo_pool _ ltac:(lia) demo_created demo_stored). Defined.
Lemma exec_no_lost_wakeup_witness : ∃ i, [WReady] !! i = Some WReady ∨ ∃ j, [WReady] !! i = Some (WRunning j).
Proof. apply (exec_no_lost_wakeup true 1 2 demo_pool _ ltac:(lia) demo_created demo_stored). vm_compute. lia. Defined.
(** Shutting down with both jobs queued: the worker's first move takes job 7. *)
Definition demo_down : pool := Pool (cc_exec_shutdown_state demo_two) [WReady] [] [7; 8] [].
Lemma demo_down_reached : reaches demo_pool demo_down.
Proof. eapply (reaches_step _ Client); [exact demo_stored|]. exact (step_shutdown (Pool demo_two [WReady] [] [7; 8] [])). Qed.
Definition demo_taken : pool :=
  Pool (cc_exec_shutdown_state demo_two <| qhead := 1 |> <| qlen := 1 |>) [WRunning 7] [] [7; 8] [7].
Lemma demo_take : nsteps (pool_step Worker) 1 demo_down demo_taken.
Proof.
  apply nsteps_once. apply (step_worker_take demo_down 0 7 _ []); [reflexivity|vm_compute; reflexivity|].
  left. split; [constructor|reflexivity].
Qed.
Lemma exec_shutdown_drains_witness : 1 ≤ drain demo_down ∧ accepted demo_taken = [7; 8] ∧
  ((∀ r', ¬ pool_step Worker demo_taken r') → joined demo_taken ∧ taken demo_taken = [7; 8]).
Proof. exact (exec_shutdown_drains true 1 2 demo_pool demo_down 1 demo_taken ltac:(lia) demo_created demo_down_reached eq_refl demo_take). Defined.
Lemma create_failure_hangs_witness : ∃ e, cc_exec_create_state true 2 = Some e ∧
  ∃ p, reaches (started e 1) p ∧ ¬ joined (create_failed p) ∧ ∀ p', ¬ pool_step Worker (create_failed p) p'.
Proof. eexists. split; [reflexivity|]. apply (create_failure_hangs true 2). reflexivity. Defined.

(** A capacity whose size in bytes wraps gets a block too small for the ring. *)
Lemma capacity_wraps : malloc_jobs true (Z.to_nat (2 ^ 60 + 1)) = Some [None].
Proof. unfold malloc_jobs. rewrite Z2Nat.id by lia. reflexivity. Qed.
