(* ===== verification/ChanRv.v ===== *)
(** Blocking rendezvous on an unbuffered channel ([cc_chan_send_unbuffered],
    [cc_chan_recv_unbuffered] in [src/cc/runtime/channel.c]).  A critical section
    - from acquiring [ch->mu] to releasing it, to a wait, or to the handoff of a
    value - is one function; calls run concurrently as a step relation in which
    the handoff is cut where it publishes [notified], because the partner reads
    that field without the mutex. *)
From S2P Require Import Prelude ChanTypes WaitList Bytes Ring Chan.

Local Open Scope Z_scope.

Section rendezvous.
Context `{!LfdsQueue}.

(** * Critical sections *)

(** A call: the fiber it runs on, if any, whether it has a deadline, the address
    of its local [node] and of the caller's value. *)
Record caller := Caller { in_fiber : option ptr; timed : bool; my_node : ptr; my_value : ptr }.
(** [(fiber && !deadline) ? fiber : NULL] *)
Definition parks (c : caller) : option ptr := if timed c then None else in_fiber c.
(** [cc__fiber_wait_node node = {0}] and its assignments. *)
Definition new_node (c : caller) : cc__fiber_wait_node :=
  WaitNode (parks c) 0 None None (Some (my_value c)) NOTIFY_NONE None 0 false false.
Definition init_node (c : caller) : W unit :=
  modify (λ x, x <| nodes := <[my_node c := new_node c]> (nodes x) |>).

(** How a section ends: the call returns, or has popped a partner and still holds
    the mutex, or has released the mutex to wait. *)
Inductive rv_out := ORet (rc : Z) | OHandoff (q : ptr) | OWait.
Definition leave (rc : Z) : C rv_out := cc_chan_unlock;; mret (ORet rc).
Definition wait : C rv_out := cc_chan_unlock;; mret OWait.

(** [ch->..._waiters_head ? cc__chan_pop_..._waiter(ch) : NULL] *)
Definition pop_if (sd : side) : C (option ptr) :=
  hd ← gets (λ s, wq_head (q_of sd (w s)));
  if is_none hd then mret None
  else liftw (match sd with RecvQ => cc__chan_pop_recv_waiter | SendQ => cc__chan_pop_send_waiter end).

(** ** Sending *)

(** After the inner loop; [again] is the next turn of the outer loop. *)
Definition send_after (c : caller) (err : Z) (again : C rv_out) : C rv_out :=
  n ← liftw (load (my_node c));
  match notified n with
  | NOTIFY_SIGNAL =>
      liftw (store (my_node c) (λ n, n <| notified := NOTIFY_NONE |>));;
      liftw (cc__chan_remove_send_waiter (my_node c));;
      again
  | NOTIFY_DATA => leave 0
  | NOTIFY_CLOSE =>
      liftw (cc__chan_remove_send_waiter (my_node c));;
      s ← gets id; leave (if rx_error_closed s then rx_error_code s else cc__chan_send_close_errno s)
  | _ =>
      liftw (cc__chan_remove_send_waiter (my_node c));;
      s ← gets id;
      if rx_error_closed s then leave (rx_error_code s)
      else if closed s then leave (cc__chan_send_close_errno s)
      else if timed c && bool_decide (err = ETIMEDOUT) then leave ETIMEDOUT
      else again
  end.
(** The inner loop from its condition to the wait. *)
Definition send_inner (c : caller) (err : Z) (again : C rv_out) : C rv_out :=
  s ← gets id;
  n ← liftw (load (my_node c));
  if negb (closed s) && negb (rx_error_closed s) && isNone (notified n) && bool_decide (err = 0) then
    match parks c with
    | Some _ =>
        o ← pop_if RecvQ;
        match o with
        | Some q => liftw (cc__chan_remove_send_waiter (my_node c));; mret (OHandoff q)
        | None => wait
        end
    | None => wait
    end
  else send_after c err again.
(** The outer loop from its condition. *)
Fixpoint send_outer (fuel : nat) (c : caller) (err : Z) : C rv_out :=
  match fuel with
  | O => fault
  | S fuel' =>
      s ← gets id;
      if closed s || rx_error_closed s then leave (if rx_error_closed s then rx_error_code s else EPIPE)
      else
        o ← pop_if RecvQ;
        match o with
        | Some q => mret (OHandoff q)
        | None =>
            liftw (init_node c);;
            liftw (cc__chan_add_send_waiter (my_node c));;
            liftw cc__chan_signal_activity;;
            send_inner c err (send_outer fuel' c err)
        end
  end.

(** ** Receiving *)

Definition rv_recv_dec : W unit := upd_ch (λ c, c <| rv_recv_waiters ::= λ z, if decide (0 < z) then z - 1 else z |>).
Definition recv_after (c : caller) (err : Z) (again : C rv_out) : C rv_out :=
  n ← liftw (load (my_node c));
  match notified n with
  | NOTIFY_SIGNAL =>
      liftw (cc__chan_remove_recv_waiter (my_node c));;
      liftw (store (my_node c) (λ n, n <| notified := NOTIFY_NONE |>));;
      liftw rv_recv_dec;;
      again
  | NOTIFY_DATA => leave 0
  | NOTIFY_CLOSE =>
      liftw (cc__chan_remove_recv_waiter (my_node c));;
      liftw rv_recv_dec;;
      s ← gets id; leave (recv_close_errno s)
  | _ =>
      liftw (cc__chan_remove_recv_waiter (my_node c));;
      liftw rv_recv_dec;;
      s ← gets id;
      if closed s then leave (recv_close_errno s)
      else if timed c && bool_decide (err = ETIMEDOUT) then leave ETIMEDOUT
      else again
  end.
Definition recv_inner (c : caller) (err : Z) (again : C rv_out) : C rv_out :=
  s ← gets id;
  n ← liftw (load (my_node c));
  if negb (closed s) && isNone (notified n) && bool_decide (err = 0) then wait
  else recv_after c err again.
Fixpoint recv_outer (fuel : nat) (c : caller) (err : Z) : C rv_out :=
  match fuel with
  | O => fault
  | S fuel' =>
      s ← gets id;
      if closed s then leave (recv_close_errno s)
      else
        o ← pop_if SendQ;
        match o with
        | Some q => mret (OHandoff q)
        | None =>
            liftw (upd_ch (λ c, c <| rv_recv_waiters ::= Z.succ |>));;
            liftw (init_node c);;
            liftw (cc__chan_add_recv_waiter (my_node c));;
            liftw cc__chan_signal_activity;;
            recv_inner c err (recv_outer fuel' c err)
        end
  end.

(** ** Entry and resumption

    [cc_chan_send] and [cc_chan_recv] reach the functions above with the mutex
    held, after sizing the buffer. *)
Definition rv_outer (sd : side) : nat → caller → Z → C rv_out := match sd with SendQ => send_outer | RecvQ => recv_outer end.
Definition rv_inner (sd : side) : caller → Z → C rv_out → C rv_out := match sd with SendQ => send_inner | RecvQ => recv_inner end.
Definition rv_enter (env : chan_env) (size fuel : nat) (sd : side) (c : caller) : C rv_out :=
  cc_chan_lock;;
  err ← cc_chan_ensure_buf env size;
  if decide (err = 0) then
    s ← gets id;
    match sd with
    | SendQ => if closed s then leave (cc__chan_send_close_errno s)
               else if rx_error_closed s then leave (rx_error_code s) else send_outer fuel c 0
    | RecvQ => recv_outer fuel c 0
    end
  else leave err.
Definition rv_resume (fuel : nat) (sd : side) (c : caller) (err : Z) : C rv_out :=
  cc_chan_lock;; rv_inner sd c err (rv_outer sd fuel c err).

(** ** The handoff, cut at the store of [notified] *)

Definition load_mem (d : ptr) : W (list Z) := λ x, match mem x !! d with Some v => Some (v, x) | None => None end.
(** A sender copies its value into the receiver's buffer; a receiver copies the
    sender's value into its own. *)
Definition rv_publish (sd : side) (c : caller) (q : ptr) : W unit :=
  n ← load q;
  (match sd with
   | SendQ => v ← load_mem (my_value c); write_data n v
   | RecvQ => v ← read_data n; modify (λ x, x <| mem := <[my_value c := v]> (mem x) |>)
   end);;
  store q (λ n, n <| notified := NOTIFY_DATA |>).
(** Everything after the store, up to the caller's [wake_batch_flush]. *)
Definition rv_finish (sd : side) (q : ptr) : C Z :=
  when (bool_decide (sd = SendQ)) (liftw rv_recv_dec);;
  liftw (bump_signaled q);;
  n ← liftw (load q);
  liftw (match fiber n with
         | Some f => wake_batch_add_chan (Some f)
         | None => emit (EvCondSignal (match sd with SendQ => COND_NOT_EMPTY | RecvQ => COND_NOT_FULL end))
         end);;
  cc_chan_unlock;;
  liftw cc__chan_signal_recv_ready;;
  liftw wake_batch_flush;;
  mret 0.

(** * Concurrent calls *)

(** [PEnter]: about to lock; [PHand q], [PTail q]: holds the mutex with the popped
    partner [q], before and after publishing; [PWait]: a fiber that has released
    the mutex and reads [notified] without it; [PSleep]: a thread waiting on its
    condition variable; [PRelock err]: about to lock again; [PRet rc]: returned,
    its [node] gone. *)
Inductive rv_pc := PEnter | PHand (q : ptr) | PTail (q : ptr) | PWait | PSleep | PRelock (err : Z) | PRet (rc : Z).
Record rv_op := RvOp { dir : side; who : caller; rpc : rv_pc }.
#[export] Instance eta_rv_op : Eta rv_op := λ o, RvOp (dir o) (who o) (rpc o).
(** [matches]: sender, receiver and value of every handoff, oldest first. *)
Record rv_state := RvState { rch : ccchan; rops : list rv_op; matches : list (nat * nat * list Z) }.
#[export] Instance eta_rv_state : Eta rv_state := λ r, RvState (rch r) (rops r) (matches r).

(** The pc after a section. *)
Definition after (c : caller) (out : rv_out) : rv_pc :=
  match out with
  | ORet rc => PRet rc
  | OHandoff q => PHand q
  | OWait => match parks c with Some _ => PWait | None => PSleep end
  end.
(** Returning destroys the frame, and the node in it. *)
Definition drop_frame (c : caller) (pc : rv_pc) (s : ccchan) : ccchan :=
  match pc with PRet _ => s <| w ::= λ x, x <| nodes ::= delete (my_node c) |> |> | _ => s end.

(** Senders wait on [not_full], receivers on [not_empty]. *)
Definition cond_of (sd : side) : cond := match sd with SendQ => COND_NOT_FULL | RecvQ => COND_NOT_EMPTY end.
Definition sleeping (c : cond) (o : rv_op) : Prop := rpc o = PSleep ∧ cond_of (dir o) = c.
Definition rouse (o : rv_op) : rv_op := o <| rpc := PRelock 0 |>.
Definition rouse_all (c : cond) (o : rv_op) : rv_op :=
  match rpc o, cond_of (dir o), c with
  | PSleep, COND_NOT_EMPTY, COND_NOT_EMPTY | PSleep, COND_NOT_FULL, COND_NOT_FULL => rouse o
  | _, _, _ => o
  end.
(** What the events of a section do to the threads: a signal wakes any one thread
    asleep on the variable, a broadcast all of them. *)
Inductive deliver : list event → list rv_op → list rv_op → Prop :=
  | deliver_nil os : deliver [] os os
  | deliver_one c evs os i o os' : os !! i = Some o → sleeping c o →
      deliver evs (<[i := rouse o]> os) os' → deliver (EvCondSignal c :: evs) os os'
  | deliver_nobody c evs os os' : Forall (λ o, ¬ sleeping c o) os →
      deliver evs os os' → deliver (EvCondSignal c :: evs) os os'
  | deliver_all c evs os os' : deliver evs (rouse_all c <$> os) os' → deliver (EvCondBroadcast c :: evs) os os'
  | deliver_other e evs os os' : (∀ c, e ≠ EvCondSignal c) → (∀ c, e ≠ EvCondBroadcast c) →
      deliver evs os os' → deliver (e :: evs) os os'.

(** The events of a section that went from [s] to [s']. *)
Definition emitted (s s' : ccchan) (evs : list event) : Prop := log (w s') = log (w s) ++ evs.

Inductive close_op := CloseTx (err : Z) | CloseRx (err : Z) | CloseWith (e : io_error).
Definition run_close (op : close_op) : C unit :=
  match op with
  | CloseTx err => cc_chan_close_err err
  | CloseRx err => cc_chan_rx_close_err err
  | CloseWith e => cc_chan_close_with e
  end.

Definition active (o : rv_op) : Prop := match rpc o with PRet _ => False | _ => True end.
(** A new call has a frame and a buffer of its own, and a fiber makes one call at
    a time. *)
Definition callable (st : rv_state) (c : caller) : Prop :=
  is_Some (mem (w (rch st)) !! my_value c) ∧ nodes (w (rch st)) !! my_node c = None ∧
  Forall (λ o, my_value (who o) ≠ my_value c ∧
    (active o → my_node (who o) ≠ my_node c ∧ (in_fiber c ≠ None → in_fiber (who o) ≠ in_fiber c))) (rops st).
Definition pair_of (sd : side) (i j : nat) (v : list Z) : nat * nat * list Z :=
  match sd with SendQ => (i, j, v) | RecvQ => (j, i, v) end.
Definition other (sd : side) : side := match sd with SendQ => RecvQ | RecvQ => SendQ end.

(** [OS]: a timeout or a spurious wake-up. *)
Inductive rv_actor := RvCall | RvRun | RvOS.
Inductive rv_step (env : chan_env) (size fuel : nat) : rv_actor → rv_state → rv_state → Prop :=
  | rv_call st sd c : callable st c →
      rv_step env size fuel RvCall st (st <| rops := rops st ++ [RvOp sd c PEnter] |>)
  | rv_enters st i o out s' evs os : rops st !! i = Some o → rpc o = PEnter →
      rv_enter env size fuel (dir o) (who o) (rch st) = Some (out, s') → emitted (rch st) s' evs →
      deliver evs (<[i := o <| rpc := after (who o) out |>]> (rops st)) os →
      rv_step env size fuel RvRun st (RvState (drop_frame (who o) (after (who o) out) s') os (matches st))
  | rv_resumes st i o err out s' evs os : rops st !! i = Some o → rpc o = PRelock err →
      rv_resume fuel (dir o) (who o) err (rch st) = Some (out, s') → emitted (rch st) s' evs →
      deliver evs (<[i := o <| rpc := after (who o) out |>]> (rops st)) os →
      rv_step env size fuel RvRun st (RvState (drop_frame (who o) (after (who o) out) s') os (matches st))
  | rv_publishes st i o q x j o' v : rops st !! i = Some o → rpc o = PHand q →
      rv_publish (dir o) (who o) q (w (rch st)) = Some (tt, x) →
      rops st !! j = Some o' → active o' → my_node (who o') = q →
      mem x !! my_value (who o) = Some v →
      rv_step env size fuel RvRun st (RvState ((rch st) <| w := x |>) (<[i := o <| rpc := PTail q |>]> (rops st))
        (matches st ++ [pair_of (dir o) i j v]))
  | rv_finishes st i o q rc s' evs os : rops st !! i = Some o → rpc o = PTail q →
      rv_finish (dir o) q (rch st) = Some (rc, s') → emitted (rch st) s' evs →
      deliver evs (<[i := o <| rpc := PRet rc |>]> (rops st)) os →
      rv_step env size fuel RvRun st (RvState (drop_frame (who o) (PRet rc) s') os (matches st))
  | rv_reads_data st i o n : rops st !! i = Some o → rpc o = PWait →
      nodes (w (rch st)) !! my_node (who o) = Some n → notified n = NOTIFY_DATA →
      rv_step env size fuel RvRun st (RvState (drop_frame (who o) (PRet 0) (rch st)) (<[i := o <| rpc := PRet 0 |>]> (rops st)) (matches st))
  | rv_reads_other st i o n : rops st !! i = Some o → rpc o = PWait →
      nodes (w (rch st)) !! my_node (who o) = Some n → notified n ≠ NOTIFY_DATA → notified n ≠ NOTIFY_NONE →
      rv_step env size fuel RvRun st (st <| rops := <[i := o <| rpc := PRelock 0 |>]> (rops st) |>)
  | rv_unparked st i o n : rops st !! i = Some o → rpc o = PWait →
      nodes (w (rch st)) !! my_node (who o) = Some n → notified n = NOTIFY_NONE →
      rv_step env size fuel RvOS st (st <| rops := <[i := o <| rpc := PRelock 0 |>]> (rops st) |>)
  | rv_cond_return st i o err : rops st !! i = Some o → rpc o = PSleep → err = 0 ∨ err = ETIMEDOUT ∧ timed (who o) = true →
      rv_step env size fuel RvOS st (st <| rops := <[i := o <| rpc := PRelock err |>]> (rops st) |>)
  | rv_closes st op s' evs os :
      run_close op (rch st) = Some (tt, s') → emitted (rch st) s' evs → deliver evs (rops st) os →
      rv_step env size fuel RvCall st (RvState s' os (matches st)).

(** The receiving side has not been closed with error code 0, which a send
    would return as its own result. *)
Definition codes_ok (s : ccchan) : Prop := rx_error_closed s = true → rx_error_code s ≠ 0.
(** The steps to states where this holds. *)
Definition coded {St} (chan : St → ccchan) (R : relation St) : relation St := λ S S', R S S' ∧ codes_ok (chan S').
End rendezvous.
#[export] Instance codes_ok_dec `{!LfdsQueue} (s : ccchan) : Decision (codes_ok s).
Proof. unfold codes_ok. apply _. Defined.
