(* ===== verification/ChanRvFrame.v ===== *)
(** What the waiter-list code leaves alone: buffers, the identity of every node,
    and the notification DATA, which only a handoff sets. *)
From S2P Require Import Prelude ChanTypes WaitList WaitShape WaitQuiet WaitInv WaitOps WaitPop WaitWake WaitSteps Bytes Ring Chan ChanSpec ChanRv.

Implicit Types (x : wstate) (p q : ptr) (ls : side → list ptr).

(** * Frames *)

Definition core (n : cc__fiber_wait_node) := (fiber n, data n, select_group n, is_select n).
(** [calm K]: nodes keep their identity, and a changed notification is in [K]. *)
Record calm (K : notify → Prop) x x' : Prop := {
  cm_mem : mem x' = mem x;
  cm_core q : core <$> nodes x' !! q = core <$> nodes x !! q;
  cm_st q : st x' q = st x q ∨ ∃ k, K k ∧ st x' q = Some k }.
Definition kept : notify → Prop := λ _, False.
Definition undelivered : notify → Prop := λ k, k ≠ NOTIFY_DATA ∧ k ≠ NOTIFY_SIGNAL.

#[export] Instance calm_preorder K : PreOrder (calm K).
Proof.
  split; [intros x; split; auto|]. intros x y z [M1 C1 S1] [M2 C2 S2]. split; [congruence|intros q; congruence|].
  intros q. destruct (S2 q) as [->|?]; [apply S1|by right].
Qed.
Lemma calm_weaken (K K' : notify → Prop) x x' : (∀ k, K k → K' k) → calm K x x' → calm K' x x'.
Proof. intros Hk [? ? S]. split; [done|done|]. intros q. destruct (S q) as [?|(k & ? & ?)]; [by left|right; eauto]. Qed.
Lemma calm_same K x x' : nodes x' = nodes x → mem x' = mem x → calm K x x'.
Proof. intros Hn Hm. split; [done|intros q; by rewrite Hn|]. intros q. left. unfold st. by rewrite Hn. Qed.
Lemma calm_quiet K x x' : quiet x x' → calm K x x'.
Proof. intros Hq. apply calm_same; apply Hq. Qed.
Lemma calm_upd K x p n n' : nodes x !! p = Some n → core n' = core n → notified n' = notified n ∨ K (notified n') →
  calm K x (x <| nodes := <[p := n']> (nodes x) |>).
Proof.
  intros Hp Hc Hk. split; simpl; [done|..]; intros q; unfold st; simpl; destruct (decide (p = q)) as [->|Hne].
  - rewrite lookup_insert_eq, Hp. simpl. by rewrite Hc.
  - by rewrite lookup_insert_ne.
  - rewrite lookup_insert_eq, Hp. simpl. destruct Hk as [->|?]; [by left|right; eauto].
  - rewrite lookup_insert_ne by done. by left.
Qed.

Section frames.
Context (K : notify → Prop).

Lemma calm_load p : frame (calm K) (load p).
Proof. intros x a x'. unfold load. destruct (nodes x !! p); [|done]. by intros [= <- <-]. Qed.
Lemma calm_store p f : (∀ n, core (f n) = core n ∧ (notified (f n) = notified n ∨ K (notified (f n)))) → frame (calm K) (store p f).
Proof.
  intros Hf x a x'. unfold store. destruct (nodes x !! p) as [n|] eqn:Hp; [|done]. intros [= <- <-].
  destruct (Hf n). by eapply calm_upd.
Qed.
Lemma calm_load_group g : frame (calm K) (load_group g).
Proof. intros x a x'. unfold load_group. destruct (groups x !! g); [|done]. by intros [= <- <-]. Qed.
Lemma calm_store_group g f : frame (calm K) (store_group g f).
Proof. intros x a x'. unfold store_group. destruct (groups x !! g); [|done]. intros [= <- <-]. by apply calm_same. Qed.
Lemma calm_upd_ch f : frame (calm K) (upd_ch f).
Proof. apply frame_modify. intros x. by apply calm_same. Qed.
Lemma calm_emit e : frame (calm K) (emit e).
Proof. apply frame_modify. intros x. by apply calm_same. Qed.
Lemma calm_modify f : (∀ x, nodes (f x) = nodes x ∧ mem (f x) = mem x) → frame (calm K) (modify f).
Proof. intros Hf. apply frame_modify. intros x. destruct (Hf x). by apply calm_same. Qed.
Lemma calm_ticket f : frame (calm K) (cc__fiber_publish_wait_ticket f).
Proof. intros x a x'. unfold cc__fiber_publish_wait_ticket. destruct (tickets x !! f); intros [= <- <-]; [by apply calm_same|done]. Qed.
End frames.
#[export] Hint Resolve calm_load calm_load_group calm_store_group calm_upd_ch calm_emit calm_ticket : frame.
#[export] Hint Extern 2 (frame (calm _) (store _ _)) => apply calm_store; intros ?; split; [done|first [by left|right; by split]] : frame.
#[export] Hint Extern 2 (frame (calm _) (modify _)) => apply calm_modify; intros ?; split; done : frame.

Section calm_ops.
Context (K : notify → Prop).

Lemma calm_flush_from n i : frame (calm K) (wake_batch_flush_from n i).
Proof. revert i. induction n as [|n IH]; intros i; simpl; frame_auto. Qed.
Lemma calm_flush : frame (calm K) wake_batch_flush.
Proof. unfold wake_batch_flush. pose proof calm_flush_from. frame_auto. Qed.
Lemma calm_add o : frame (calm K) (wake_batch_add o).
Proof. unfold wake_batch_add. pose proof calm_flush. destruct o; frame_auto. Qed.
Lemma calm_add_chan o : frame (calm K) (wake_batch_add_chan o).
Proof. unfold wake_batch_add_chan. pose proof calm_flush. destruct o; frame_auto. Qed.
Lemma calm_try_win p : frame (calm K) (cc__chan_select_try_win p).
Proof. unfold cc__chan_select_try_win, cc__wait_select_try_win, cas_selected. frame_auto. Qed.
Lemma calm_bump p : frame (calm K) (bump_signaled p).
Proof. unfold bump_signaled. frame_auto. Qed.
Lemma calm_unlink sd p : frame (calm K) (unlink_head sd p).
Proof. unfold unlink_head, set_head, set_tail, set_q. frame_auto. Qed.
Lemma calm_add_waiter sd p : frame (calm K) (cc__chan_add_waiter sd p).
Proof. unfold cc__chan_add_waiter, set_head, set_tail, set_q. frame_auto. Qed.
Lemma calm_remove_list sd p : frame (calm K) (cc__chan_remove_waiter_list sd p).
Proof. unfold cc__chan_remove_waiter_list, set_head, set_tail, set_q. frame_auto. Qed.
Lemma calm_wakeable fuel o : frame (calm K) (cc__chan_has_wakeable_waiter fuel o).
Proof. revert o. induction fuel as [|fuel IH]; intros o; simpl; destruct o; frame_auto. Qed.
Lemma calm_refresh : frame (calm K) cc__chan_refresh_has_send_waiters.
Proof. unfold cc__chan_refresh_has_send_waiters. pose proof calm_wakeable. frame_auto. Qed.
Lemma calm_hint p o : frame (calm K) (cc__chan_recv_signal_hint_advance p o).
Proof. unfold cc__chan_recv_signal_hint_advance. frame_auto. Qed.
End calm_ops.
#[export] Hint Resolve calm_flush calm_add calm_add_chan calm_try_win calm_bump calm_unlink calm_add_waiter calm_remove_list calm_refresh calm_hint : frame.

(** * Operations

    Adding and removing keep every notification; popping and closing change only
    undelivered ones. *)

Lemma calm_cancel p : frame (calm undelivered) (cc__chan_select_cancel_node p).
Proof. unfold cc__chan_select_cancel_node. frame_auto. Qed.
#[export] Hint Resolve calm_cancel : frame.
Lemma calm_pop sd : frame (calm undelivered) (match sd with RecvQ => cc__chan_pop_recv_waiter | SendQ => cc__chan_pop_send_waiter end).
Proof.
  destruct sd; unfold cc__chan_pop_recv_waiter, cc__chan_pop_send_waiter;
    (apply frame_bind; [typeclasses eauto|frame_auto|intros fuel]); induction fuel as [|fuel IH]; simpl;
    unfold cc__chan_recv_wake_inflight_dec, cc__chan_recv_waiter_count_dec; frame_auto.
Qed.
Lemma calm_close_loop sd fuel : frame (calm undelivered) (wake_close_loop sd fuel).
Proof.
  induction fuel as [|fuel IH]; simpl; [frame_auto|]. destruct sd;
    unfold cc__chan_wake_one_send_waiter_close, cc__chan_wake_one_recv_waiter_close, cc__chan_recv_wake_inflight_dec, cc__chan_recv_waiter_count_dec;
    frame_auto.
Qed.
Definition add_waiter (sd : side) (p : ptr) : W unit := match sd with SendQ => cc__chan_add_send_waiter p | RecvQ => cc__chan_add_recv_waiter p end.
Definition remove_waiter (sd : side) (p : ptr) : W unit :=
  match sd with SendQ => cc__chan_remove_send_waiter p | RecvQ => cc__chan_remove_recv_waiter p end.
Lemma calm_adds sd p : frame (calm kept) (add_waiter sd p).
Proof. destruct sd; simpl; unfold cc__chan_add_send_waiter, cc__chan_add_recv_waiter, cc__chan_recv_waiter_count_inc; frame_auto. Qed.
Lemma calm_removes sd p : frame (calm kept) (remove_waiter sd p).
Proof.
  destruct sd; simpl; unfold cc__chan_remove_send_waiter, cc__chan_remove_recv_waiter, cc__chan_recv_wake_inflight_dec, cc__chan_recv_waiter_count_dec;
    frame_auto.
Qed.

Lemma wp_frame {S A} (R : relation S) (m : M S A) Q s : frame R m → wp m Q s → wp m (λ a s', Q a s' ∧ R s s') s.
Proof. intros Hf (a & s' & Hm & HQ). exists a, s'. split; [done|]. split; [done|by eapply Hf]. Qed.

(** [step_ok ls ls']: nothing enters a list. *)
Definition shrinks ls ls' : Prop := ∀ sd q, q ∈ ls' sd → q ∈ ls sd.
(** The notification DATA is neither set nor lost, and SIGNAL is not set. *)
Record still x x' : Prop := {
  sl_mem : mem x' = mem x;
  sl_core q : core <$> nodes x' !! q = core <$> nodes x !! q;
  sl_data q : st x' q = Some NOTIFY_DATA ↔ st x q = Some NOTIFY_DATA;
  sl_signal q : st x' q = Some NOTIFY_SIGNAL → st x q = Some NOTIFY_SIGNAL }.
#[export] Instance still_preorder : PreOrder still.
Proof. split; [done|]. intros x y z [M1 C1 S1 G1] [M2 C2 S2 G2]. split; [congruence|intros q; congruence| |eauto]. intros q. by rewrite S2. Qed.
Lemma still_kept x x' : calm kept x x' → still x x'.
Proof. intros [? ? S]. split; [done|done|..]; intros q; by destruct (S q) as [->|(? & [] & _)]. Qed.
Lemma still_evolve x x' l : calm undelivered x x' → evolve l x x' → (∀ q, q ∈ l → st x q ≠ Some NOTIFY_DATA) → still x x'.
Proof.
  intros [? Hc S] He Hl. split; [done|done| |intros q Hq; destruct (S q) as [<-|(k & [? ?] & ?)]; congruence]. intros q. split.
  - intros Hq. destruct (S q) as [<-|(k & [Hk _] & Hk')]; [done|congruence].
  - intros Hq. assert (q ∉ l) by (intros Hin; by apply (Hl q Hin)). rewrite (ev_st _ _ _ _ He); [done|done|].
    unfold st in Hq. by destruct (nodes x !! q).
Qed.

(** No delivered node is linked. *)
Definition data_unlinked x ls : Prop := ∀ sd q, q ∈ ls sd → st x q ≠ Some NOTIFY_DATA.
Lemma data_unlinked_mono x x' ls ls' : still x x' → shrinks ls ls' → data_unlinked x ls → data_unlinked x' ls'.
Proof. intros [_ _ Hs _] Hsh Hd sd q Hq. rewrite Hs. eauto. Qed.

Lemma pop_still sd x ls : wq_inv x ls → data_unlinked x ls →
  wp (match sd with RecvQ => cc__chan_pop_recv_waiter | SendQ => cc__chan_pop_send_waiter end)
    (λ o x', still x x' ∧ ∃ ls', wq_inv x' ls' ∧ shrinks ls ls' ∧
       ∀ p, o = Some p → p ∈ ls sd ∧ (∀ sd', p ∉ ls' sd') ∧ st x' p = Some NOTIFY_NONE) x.
Proof.
  intros Hi Hd. assert (Hw : wp (match sd with RecvQ => cc__chan_pop_recv_waiter | SendQ => cc__chan_pop_send_waiter end) (pop_result sd x ls) x)
    by (destruct sd; [by apply pop_send_waiter_spec|by apply pop_recv_waiter_spec]).
  eapply wp_mono; [eapply wp_frame, Hw; apply calm_pop|]. cbv beta. intros o x' [(sk & l & Els & Hi' & He & _ & Ho) Hc].
  split; [eapply still_evolve; [done|done|]; intros q Hq; apply (Hd sd); rewrite Els; set_solver|].
  exists (<[sd := l]> ls). split_and!; [done| |].
  - intros sd' q. destruct (decide (sd' = sd)) as [->|Hne]; [rewrite fn_lookup_insert, Els; set_solver|by rewrite fn_lookup_insert_ne].
  - intros p ->. simpl in Els. destruct Ho as (n & Hn & Hno & _). split_and!; [rewrite Els; set_solver| |unfold st; rewrite Hn; simpl; by rewrite Hno].
    intros sd' Hin. destruct (decide (sd' = sd)) as [->|Hne].
    + rewrite fn_lookup_insert in Hin. pose proof (sh_nodup _ _ (inv_shape _ _ Hi) sd) as Hnd. rewrite Els in Hnd.
      apply NoDup_app in Hnd as (_ & _ & [? ?]%NoDup_cons). done.
    + rewrite fn_lookup_insert_ne in Hin by done. apply Hne. eapply (sh_disj _ _ (inv_shape _ _ Hi)); [done|]. rewrite Els. set_solver.
Qed.
Lemma remove_still sd p n x ls : wq_inv x ls → nodes x !! p = Some n → p ∉ ls (other sd) →
  wp (remove_waiter sd p) (λ _ x', calm kept x x' ∧ ∃ ls', wq_inv x' ls' ∧ shrinks ls ls' ∧ ∀ sd', p ∉ ls' sd') x.
Proof.
  intros Hi Hn Hp. assert (Hw : wp (remove_waiter sd p) (λ _ x', wq_inv x' (drop_node p ls)) x)
    by (destruct sd; [by eapply remove_send_waiter_spec|by eapply remove_recv_waiter_spec]).
  eapply wp_mono; [eapply wp_frame, Hw; apply calm_removes|]. cbv beta. intros _ x' [Hi' Hc]. split; [done|].
  exists (drop_node p ls). unfold drop_node. split_and!; [done|intros sd' q [? ?]%list_elem_of_filter; done|].
  intros sd' [? ?]%list_elem_of_filter. done.
Qed.
Lemma add_still sd p n x ls : wq_inv x ls → can_enlist p n x ls → notified n = NOTIFY_NONE →
  wp (add_waiter sd p) (λ _ x', calm kept x x' ∧ wq_inv x' (<[sd := ls sd ++ [p]]> ls)) x.
Proof.
  intros Hi Hcan Hno. assert (Hw : wp (add_waiter sd p) (λ _ x', wq_inv x' (<[sd := ls sd ++ [p]]> ls)) x)
    by (destruct sd; [by eapply add_send_waiter_spec|by eapply add_recv_waiter_spec]).
  eapply wp_mono; [eapply wp_frame, Hw; apply calm_adds|]. cbv beta. by intros _ x' [? ?].
Qed.
Lemma close_still (tx : bool) x ls : wq_inv x ls → data_unlinked x ls →
  wp (if tx then cc__chan_wake_all_waiters else drain_send_waiters_close)
     (λ _ x', still x x' ∧ ∃ ls', wq_inv x' ls' ∧ shrinks ls ls') x.
Proof.
  intros Hi Hd. destruct tx.
  - eapply wp_mono; [eapply (wp_frame (calm undelivered)), wake_all_spec, Hi|].
    { unfold cc__chan_wake_all_waiters. pose proof calm_close_loop. frame_auto. }
    cbv beta. intros _ x' [(Hi' & He & _) Hc]. split; [|exists (λ _, []); split; [done|intros ? ?; set_solver]].
    eapply still_evolve; [done|done|]. intros q [?|?]%elem_of_app; eauto.
  - unfold drain_send_waiters_close. wp_go.
    eapply wp_mono; [eapply wp_frame, wake_close_loop_spec; [apply calm_close_loop|done|apply shape_fuel, Hi]|].
    cbv beta. intros _ x' [(Hi' & He & _) Hc]. split; [eapply still_evolve; eauto|]. eexists. split; [done|].
    intros sd q. destruct (decide (sd = SendQ)) as [->|]; [rewrite fn_lookup_insert; set_solver|by rewrite fn_lookup_insert_ne].
Qed.
