(* ===== verification/ChanRvSpec.v ===== *)
(** The critical sections of a rendezvous: how each one ends, and what it leaves
    of the lists, of the other calls' nodes and of their values. *)
From S2P Require Import Prelude ChanTypes WaitList WaitShape WaitQuiet WaitInv WaitOps WaitPop WaitWake WaitSteps Bytes Ring Chan ChanSpec ChanHandoff ChanRv ChanRvFrame.

Local Open Scope Z_scope.

Section spec.
Context `{!LfdsQueue}.
Implicit Types (s : ccchan) (x : wstate) (p q : ptr) (c : caller) (sd : side) (ls : side → list ptr).

Definition flags s := (closed s, rx_error_closed s, rx_error_code s, tx_error_code s).

(** The lists are well formed, delivered nodes are unlinked, nothing is signalled,
    and the caller's node, if it exists, is the one it made. *)
Record tidy c x ls : Prop := {
  td_inv : wq_inv x ls;
  td_data : data_unlinked x ls;
  td_signal : ∀ q, st x q ≠ Some NOTIFY_SIGNAL;
  td_own : ∀ n, nodes x !! my_node c = Some n → core n = core (new_node c) }.
(** From [x] to [x']: only the caller's node was added to a list or changed. *)
Record moved c sd x ls x' ls' : Prop := {
  mv_tidy : tidy c x' ls';
  mv_ls : ∀ sd' q, q ∈ ls' sd' → q ∈ ls sd' ∨ q = my_node c ∧ sd' = sd;
  mv_mem : mem x' = mem x;
  mv_core : ∀ q, q ≠ my_node c → core <$> nodes x' !! q = core <$> nodes x !! q;
  mv_st : ∀ q, q ≠ my_node c → st x' q = Some NOTIFY_DATA ↔ st x q = Some NOTIFY_DATA }.
Lemma moved_refl c sd x ls : tidy c x ls → moved c sd x ls x ls.
Proof. intros. by split; eauto. Qed.
Lemma moved_trans c sd x1 x2 x3 l1 l2 l3 : moved c sd x1 l1 x2 l2 → moved c sd x2 l2 x3 l3 → moved c sd x1 l1 x3 l3.
Proof.
  intros [_ L1 M1 C1 S1] [T2 L2 M2 C2 S2]. split; [done| |congruence|intros q Hq; by rewrite C2, C1|intros q Hq; by rewrite S2, S1].
  intros sd' q [Hq|?]%L2; auto.
Qed.
Lemma moved_still c sd x x' ls ls' : tidy c x ls → still x x' → wq_inv x' ls' → shrinks ls ls' → moved c sd x ls x' ls'.
Proof.
  intros [Hi Hd Hg Ho] Hs Hi' Hsh. pose proof Hs as [M C D G]. split; [|eauto|done|eauto|eauto].
  split; [done|by eapply data_unlinked_mono|intros q Hq; by eapply Hg, G|].
  intros n Hn. pose proof (C (my_node c)) as Hc. rewrite Hn in Hc. destruct (nodes x !! my_node c) as [m|] eqn:Hm; [|done].
  assert (core n = core m) as -> by (simpl in Hc; congruence). by apply Ho.
Qed.

(** What a section needs: the mutex, and that the caller's node can be linked. *)
Record ready c sd x ls : Prop := {
  rd_tidy : tidy c x ls;
  rd_side : my_node c ∉ ls (other sd);
  rd_fiber : ∀ sd' q m f, q ∈ ls sd' → q ≠ my_node c → nodes x !! q = Some m → parks c = Some f → fiber m ≠ Some f }.
Lemma ready_moved c sd x x' ls ls' : ready c sd x ls → moved c sd x ls x' ls' → ready c sd x' ls'.
Proof.
  intros [Ht Hs Hf] [Ht' L M C D]. split; [done| |].
  - intros [?|[_ Hsd]]%L; [done|]. by destruct sd.
  - intros sd' q m f Hq Hne Hm Hp. destruct (L _ _ Hq) as [Hq'|[? _]]; [|done].
    pose proof (C q Hne) as Hc. rewrite Hm in Hc. destruct (nodes x !! q) as [m0|] eqn:Hm0; [|done].
    assert (fiber m = fiber m0) as -> by (unfold core in Hc; simpl in Hc; congruence). by eapply Hf.
Qed.

(** How a section that started with the caller's notification [k] ends. *)
Definition ends c sd (k : option notify) x ls (out : rv_out) s' : Prop :=
  ∃ ls', moved c sd x ls (w s') ls' ∧
  match out with
  | ORet rc => mu_held s' = false ∧ (∀ sd', my_node c ∉ ls' sd') ∧ (rc = 0 ↔ k = Some NOTIFY_DATA)
  | OHandoff q => mu_held s' = true ∧ k ≠ Some NOTIFY_DATA ∧ (∀ sd', my_node c ∉ ls' sd') ∧ st (w s') (my_node c) ≠ Some NOTIFY_DATA ∧
      q ∈ ls (other sd) ∧ (∀ sd', q ∉ ls' sd') ∧ st (w s') q = Some NOTIFY_NONE
  | OWait => mu_held s' = false ∧ k ≠ Some NOTIFY_DATA ∧ is_Some (nodes (w s') !! my_node c) ∧ st (w s') (my_node c) ≠ Some NOTIFY_DATA
  end.
Lemma ends_trans c sd k k1 x ls x1 l1 out s' : moved c sd x ls x1 l1 → (∀ sd' q, q ∈ l1 sd' → q ≠ my_node c → q ∈ ls sd') →
  my_node c ∉ l1 (other sd) → (k = Some NOTIFY_DATA ↔ k1 = Some NOTIFY_DATA) →
  ends c sd k1 x1 l1 out s' → ends c sd k x ls out s'.
Proof.
  intros Hm Hl Hno Hk (l' & Hm' & Ho). exists l'. split; [by eapply moved_trans|].
  destruct out as [rc|q|]; [by rewrite Hk| |by rewrite Hk]. destruct Ho as (? & ? & ? & ? & Hq & ? & ?).
  split_and!; try done; [by rewrite Hk|]. apply Hl; [done|]. intros ->. done.
Qed.

(** ** Steps of a section *)

Lemma wp_leave rc s (Q : rv_out → ccchan → Prop) : mu_held s = true → Q (ORet rc) (s <| mu_held := false |>) → wp (leave rc) Q s.
Proof. intros Hm HQ. unfold leave. wp_step. apply wp_unlock; [done|]. by wp_step. Qed.
Lemma wp_wait s (Q : rv_out → ccchan → Prop) : mu_held s = true → Q OWait (s <| mu_held := false |>) → wp wait Q s.
Proof. intros Hm HQ. unfold wait. wp_step. apply wp_unlock; [done|]. by wp_step. Qed.

Lemma ready_pop c sd sd' s ls : ready c sd (w s) ls →
  wp (pop_if sd') (λ o s', s' = s <| w := w s' |> ∧ still (w s) (w s') ∧ ∃ ls', moved c sd (w s) ls (w s') ls' ∧ shrinks ls ls' ∧
     ∀ q, o = Some q → q ∈ ls sd' ∧ (∀ sd'', q ∉ ls' sd'') ∧ st (w s') q = Some NOTIFY_NONE) s.
Proof.
  intros [Ht _ _]. unfold pop_if. wp_go. case_match eqn:E.
  - wp_step. split; [by destruct s|]. split; [done|]. exists ls. split; [by apply moved_refl|]. split; [by intros ? ?|done].
  - apply wp_liftw. eapply wp_mono; [apply (pop_still sd'); apply Ht|]. cbv beta. intros o x' (Hs & ls' & Hi' & Hsh & Ho). simpl.
    split; [done|]. split; [done|]. exists ls'. split; [by apply moved_still|done].
Qed.
Lemma ready_remove c sd s ls : ready c sd (w s) ls → is_Some (nodes (w s) !! my_node c) →
  wp (liftw (remove_waiter sd (my_node c))) (λ _ s', s' = s <| w := w s' |> ∧ calm kept (w s) (w s') ∧
     ∃ ls', moved c sd (w s) ls (w s') ls' ∧ shrinks ls ls' ∧ ∀ sd', my_node c ∉ ls' sd') s.
Proof.
  intros [Ht Hp _] [n Hn]. apply wp_liftw. eapply wp_mono; [eapply remove_still; [apply Ht|done|done]|]. cbv beta.
  intros _ x' (Hc & ls' & Hi' & Hsh & Hout). simpl. split; [done|]. split; [done|]. exists ls'.
  split; [apply moved_still; auto using still_kept|done].
Qed.
Lemma moved_quiet c sd x x' ls : tidy c x ls → quiet x x' → moved c sd x ls x' ls.
Proof.
  intros Ht Hq. apply moved_still; [done|apply still_kept, calm_quiet, Hq|eapply quiet_inv; [done|apply Ht]|by intros ? ?].
Qed.
Lemma moved_rv c sd x ls f : tidy c x ls → moved c sd x ls (x <| ch ::= λ h, h <| rv_recv_waiters ::= f |> |>) ls.
Proof.
  intros Ht. apply moved_still; [done|apply still_kept; by apply calm_same|apply rv_inv, Ht|by intros ? ?].
Qed.

(** ** The inner loop and what follows it *)

(** The continuation a section may run: the next turn of the outer loop. *)
Definition again_ok c sd err s (again : C rv_out) : Prop := ∀ s1 l1,
  mu_held s1 = true → flags s1 = flags s → ready c sd (w s1) l1 → (∀ sd', my_node c ∉ l1 sd') →
  st (w s1) (my_node c) ≠ Some NOTIFY_DATA → ¬ (timed c = true ∧ err = ETIMEDOUT) →
  ¬ (st (w s) (my_node c) = Some NOTIFY_NONE ∧ err = 0) →
  wp again (λ out s', ends c sd (st (w s1) (my_node c)) (w s1) l1 out s' ∧ flags s' = flags s1) s1.
Lemma codes_flags s s1 : flags s1 = flags s → codes_ok s → codes_ok s1.
Proof. unfold codes_ok, flags. intros [= H1 H2 H3 H4] Hc Hr. rewrite H3. apply Hc. congruence. Qed.
Lemma send_close_errno_nz s : cc__chan_send_close_errno s ≠ 0.
Proof. unfold cc__chan_send_close_errno. case_match eqn:E; [|done]. apply andb_true_iff in E as [_ E]. by case_bool_decide. Qed.
Lemma recv_close_errno_nz s : recv_close_errno s ≠ 0.
Proof. unfold recv_close_errno. by case_decide. Qed.

(** Leaving with an error after the node was unlinked. *)
Lemma leave_ends c sd rc k x ls s l1 F : mu_held s = true → flags s = F → moved c sd x ls (w s) l1 → (∀ sd', my_node c ∉ l1 sd') →
  (rc = 0 ↔ k = Some NOTIFY_DATA) → wp (leave rc) (λ out s', ends c sd k x ls out s' ∧ flags s' = F) s.
Proof. intros Hm Hf Hmv Hout Hrc. apply wp_leave; [done|]. split; [|done]. exists l1. by split. Qed.
Lemma again_ends c sd err s ls s1 l1 again : again_ok c sd err s again → ready c sd (w s) ls → mu_held s1 = true → flags s1 = flags s →
  moved c sd (w s) ls (w s1) l1 → shrinks ls l1 → (∀ sd', my_node c ∉ l1 sd') → st (w s1) (my_node c) ≠ Some NOTIFY_DATA →
  st (w s) (my_node c) ≠ Some NOTIFY_DATA → ¬ (timed c = true ∧ err = ETIMEDOUT) → ¬ (st (w s) (my_node c) = Some NOTIFY_NONE ∧ err = 0) →
  wp again (λ out s', ends c sd (st (w s) (my_node c)) (w s) ls out s' ∧ flags s' = flags s) s1.
Proof.
  intros Hag Hrd Hm Hf Hmv Hsh Hout Hst Hst0 Ht Hn. eapply wp_mono; [eapply (Hag s1 l1); try done; by eapply ready_moved|].
  cbv beta. intros out s' [He Hf']. split; [|congruence]. eapply (ends_trans c sd _ (st (w s1) (my_node c))); [done| |apply Hout| |done].
  - intros sd' q Hq _. by apply Hsh.
  - split; intros; by exfalso.
Qed.

Lemma st_lookup x p n : nodes x !! p = Some n → st x p = Some (notified n).
Proof. intros Hn. unfold st. by rewrite Hn. Qed.
Lemma kept_st x x' p : calm kept x x' → st x' p = st x p.
Proof. intros [_ _ S]. by destruct (S p) as [?|(? & [] & _)]. Qed.

Lemma send_after_ends c err again s ls n :
  mu_held s = true → ready c SendQ (w s) ls → nodes (w s) !! my_node c = Some n → codes_ok s → again_ok c SendQ err s again →
  (closed s = false → rx_error_closed s = false → ¬ (notified n = NOTIFY_NONE ∧ err = 0)) →
  wp (send_after c err again) (λ out s', ends c SendQ (st (w s) (my_node c)) (w s) ls out s' ∧ flags s' = flags s) s.
Proof.
  intros Hm Hrd Hn Hcodes Hag Hwhy. pose proof (st_lookup _ _ _ Hn) as Hst. pose proof (rd_tidy _ _ _ _ Hrd) as Ht.
  unfold send_after. wp_step. apply wp_liftw, (wp_load _ n); [done|]. cbv beta. replace (s <| w := w s |>) with s by by destruct s.
  assert (Hrem : ∀ (Q : unit → ccchan → Prop), (∀ s1 l1, s1 = s <| w := w s1 |> → moved c SendQ (w s) ls (w s1) l1 → shrinks ls l1 →
     (∀ sd', my_node c ∉ l1 sd') → st (w s1) (my_node c) = Some (notified n) → Q tt s1) → wp (liftw (cc__chan_remove_send_waiter (my_node c))) Q s).
  { intros Q HQ. eapply wp_mono; [apply (ready_remove c SendQ s ls); [done|eauto]|]. cbv beta. intros [] s1 (E & Hk & l1 & Hmv & Hsh & Hout).
    eapply HQ; [done..|]. by rewrite (kept_st _ _ _ Hk). }
  assert (Hdef : notified n ≠ NOTIFY_DATA → wp (liftw (cc__chan_remove_send_waiter (my_node c));;
      s ← gets id;
      if rx_error_closed s then leave (rx_error_code s)
      else if closed s then leave (cc__chan_send_close_errno s)
      else if timed c && bool_decide (err = ETIMEDOUT) then leave ETIMEDOUT
      else again) (λ out s', ends c SendQ (st (w s) (my_node c)) (w s) ls out s' ∧ flags s' = flags s) s).
  { intros Hnd. wp_step. apply Hrem. intros s1 l1 E Hmv Hsh Hout Hs1. wp_go. unfold id.
    assert (Hm1 : mu_held s1 = true) by by rewrite E. assert (Hf1 : flags s1 = flags s) by by rewrite E.
    assert (Hrc : ∀ rc, rc ≠ 0 → rc = 0 ↔ st (w s) (my_node c) = Some NOTIFY_DATA) by (intros rc Hrc; rewrite Hst; naive_solver).
    destruct (rx_error_closed s1) eqn:Erx; [apply (leave_ends _ _ _ _ _ _ _ l1); auto; apply Hrc; rewrite E in Erx |- *; by apply Hcodes|].
    destruct (closed s1) eqn:Ecl; [apply (leave_ends _ _ _ _ _ _ _ l1); auto using send_close_errno_nz|].
    destruct (timed c && bool_decide (err = ETIMEDOUT)) eqn:Eto; [apply (leave_ends _ _ _ _ _ _ _ l1); auto; by apply Hrc|].
    eapply again_ends; try done; [congruence|congruence| |].
    + intros [Htm ->]. by rewrite Htm in Eto.
    + rewrite Hst. intros [[= ?] ->]. rewrite E in Erx, Ecl. by apply Hwhy. }
  destruct (notified n) eqn:En; [by apply Hdef| |by apply Hdef| |].
  - eapply (leave_ends _ _ _ _ _ _ _ ls); try done; [by apply moved_refl|intros sd' Hin; by eapply (td_data _ _ _ Ht)].
  - wp_step. apply Hrem. intros s1 l1 E Hmv Hsh Hout Hs1. wp_go. unfold id.
    apply (leave_ends _ _ _ _ _ _ _ l1); auto; [by rewrite E..|]. rewrite Hst. split; [|done]. intros Hz. exfalso. revert Hz.
    destruct (rx_error_closed s1) eqn:Erx; [rewrite E in Erx |- *; by apply Hcodes|apply send_close_errno_nz].
  - exfalso. by apply (td_signal _ _ _ Ht (my_node c)).
Qed.
Lemma recv_after_ends c err again s ls n :
  mu_held s = true → ready c RecvQ (w s) ls → nodes (w s) !! my_node c = Some n → again_ok c RecvQ err s again →
  (closed s = false → ¬ (notified n = NOTIFY_NONE ∧ err = 0)) →
  wp (recv_after c err again) (λ out s', ends c RecvQ (st (w s) (my_node c)) (w s) ls out s' ∧ flags s' = flags s) s.
Proof.
  intros Hm Hrd Hn Hag Hwhy. pose proof (st_lookup _ _ _ Hn) as Hst. pose proof (rd_tidy _ _ _ _ Hrd) as Ht.
  unfold recv_after. wp_step. apply wp_liftw, (wp_load _ n); [done|]. cbv beta. replace (s <| w := w s |>) with s by by destruct s.
  assert (Hrem : ∀ (Q : unit → ccchan → Prop), (∀ s1 l1, s1 = s <| w := w s1 |> → moved c RecvQ (w s) ls (w s1) l1 → shrinks ls l1 →
     (∀ sd', my_node c ∉ l1 sd') → st (w s1) (my_node c) = Some (notified n) → Q tt s1) →
     wp (liftw (cc__chan_remove_recv_waiter (my_node c));; liftw rv_recv_dec) Q s).
  { intros Q HQ. wp_step. eapply wp_mono; [apply (ready_remove c RecvQ s ls); [done|eauto]|]. cbv beta.
    intros [] s1 (E & Hk & l1 & Hmv & Hsh & Hout). apply wp_liftw. unfold rv_recv_dec, upd_ch. wp_step.
    eapply (HQ _ l1); simpl; [by rewrite E|eapply moved_trans; [done|apply moved_rv, Hmv]|done|done|]. exact (eq_trans (kept_st _ _ _ Hk) Hst). }
  assert (Hdef : notified n ≠ NOTIFY_DATA → wp (liftw (cc__chan_remove_recv_waiter (my_node c));;
      liftw rv_recv_dec;;
      s ← gets id;
      if closed s then leave (recv_close_errno s)
      else if timed c && bool_decide (err = ETIMEDOUT) then leave ETIMEDOUT
      else again) (λ out s', ends c RecvQ (st (w s) (my_node c)) (w s) ls out s' ∧ flags s' = flags s) s).
  { intros Hnd. apply wp_bind_assoc. wp_step. apply Hrem. intros s1 l1 E Hmv Hsh Hout Hs1. wp_go. unfold id.
    assert (Hm1 : mu_held s1 = true) by by rewrite E. assert (Hf1 : flags s1 = flags s) by by rewrite E.
    assert (Hrc : ∀ rc, rc ≠ 0 → rc = 0 ↔ st (w s) (my_node c) = Some NOTIFY_DATA) by (intros rc Hrc; rewrite Hst; naive_solver).
    destruct (closed s1) eqn:Ecl; [apply (leave_ends _ _ _ _ _ _ _ l1); auto using recv_close_errno_nz|].
    destruct (timed c && bool_decide (err = ETIMEDOUT)) eqn:Eto; [apply (leave_ends _ _ _ _ _ _ _ l1); auto; by apply Hrc|].
    eapply again_ends; try done; [congruence|congruence| |].
    + intros [Htm ->]. by rewrite Htm in Eto.
    + rewrite Hst. intros [[= ?] ->]. rewrite E in Ecl. by apply Hwhy. }
  destruct (notified n) eqn:En; [by apply Hdef| |by apply Hdef| |].
  - eapply (leave_ends _ _ _ _ _ _ _ ls); try done; [by apply moved_refl|intros sd' Hin; by eapply (td_data _ _ _ Ht)].
  - apply wp_bind_assoc. wp_step. apply Hrem. intros s1 l1 E Hmv Hsh Hout Hs1. wp_go. unfold id.
    apply (leave_ends _ _ _ _ _ _ _ l1); auto; [by rewrite E..|]. rewrite Hst. split; [|done]. intros Hz. by apply recv_close_errno_nz in Hz.
  - exfalso. by apply (td_signal _ _ _ Ht (my_node c)).
Qed.

Lemma wait_ends c sd k s ls x l0 n : mu_held s = true → moved c sd x l0 (w s) ls → nodes (w s) !! my_node c = Some n →
  notified n ≠ NOTIFY_DATA → k ≠ Some NOTIFY_DATA → wp wait (λ out s', ends c sd k x l0 out s' ∧ flags s' = flags s) s.
Proof.
  intros Hm Hmv Hn Hnd Hk. apply wp_wait; [done|]. split; [|done]. exists ls. split; [done|]. simpl.
  split_and!; [done|done|eauto|]. rewrite (st_lookup _ _ _ Hn). congruence.
Qed.
Lemma moved_node c sd x ls x' ls' : moved c sd x ls x' ls' → still x x' → is_Some (nodes x !! my_node c) → is_Some (nodes x' !! my_node c).
Proof. intros _ Hs [n Hn]. pose proof (sl_core _ _ Hs (my_node c)) as Hc. rewrite Hn in Hc. by destruct (nodes x' !! my_node c). Qed.

Lemma send_inner_ends c err again s ls n :
  mu_held s = true → ready c SendQ (w s) ls → nodes (w s) !! my_node c = Some n → codes_ok s → again_ok c SendQ err s again →
  wp (send_inner c err again) (λ out s', ends c SendQ (st (w s) (my_node c)) (w s) ls out s' ∧ flags s' = flags s) s.
Proof.
  intros Hm Hrd Hn Hcodes Hag. pose proof (rd_tidy _ _ _ _ Hrd) as Ht. unfold send_inner. wp_step. wp_step. unfold id.
  wp_step. apply wp_liftw, (wp_load _ n); [done|]. cbv beta. replace (s <| w := w s |>) with s by by destruct s.
  destruct (_ && _) eqn:Eg.
  - apply andb_true_iff in Eg as [Eg _]. apply andb_true_iff in Eg as [_ Eg]. unfold isNone in Eg. apply bool_decide_eq_true in Eg.
    assert (Hk : st (w s) (my_node c) ≠ Some NOTIFY_DATA) by (rewrite (st_lookup _ _ _ Hn); congruence).
    destruct (parks c) as [f|]; [|eapply wait_ends; try done; [by apply moved_refl|congruence]].
    wp_step. eapply wp_mono; [by apply (ready_pop c SendQ RecvQ)|]. cbv beta. intros o s1 (E & Hst & l1 & Hmv & Hsh & Ho).
    assert (Hm1 : mu_held s1 = true) by by rewrite E. assert (Hf1 : flags s1 = flags s) by by rewrite E.
    destruct (moved_node _ _ _ _ _ _ Hmv Hst (mk_is_Some _ _ Hn)) as [n1 Hn1].
    assert (Hk1 : st (w s1) (my_node c) ≠ Some NOTIFY_DATA) by by rewrite (sl_data _ _ Hst).
    destruct o as [q|].
    + destruct (Ho q eq_refl) as (Hq & Hqo & Hqs). wp_step.
      eapply wp_mono; [apply (ready_remove c SendQ s1 l1); [by eapply ready_moved|eauto]|]. cbv beta.
      intros [] s2 (E2 & Hk2 & l2 & Hmv2 & Hsh2 & Hout2). wp_step. split; [|by rewrite E2].
      exists l2. split; [by eapply moved_trans|]. split_and!; try done; [by rewrite E2|by rewrite (kept_st _ _ _ Hk2)| |by rewrite (kept_st _ _ _ Hk2)].
      intros sd' Hin. by apply (Hqo sd'), Hsh2.
    + rewrite <- Hf1. eapply wait_ends; try done. intros Hd. by rewrite (st_lookup _ _ _ Hn1), Hd in Hk1.
  - eapply send_after_ends; try done. intros Hc Hr [Hno He]. by rewrite Hc, Hr, Hno, He in Eg.
Qed.
Lemma recv_inner_ends c err again s ls n :
  mu_held s = true → ready c RecvQ (w s) ls → nodes (w s) !! my_node c = Some n → again_ok c RecvQ err s again →
  wp (recv_inner c err again) (λ out s', ends c RecvQ (st (w s) (my_node c)) (w s) ls out s' ∧ flags s' = flags s) s.
Proof.
  intros Hm Hrd Hn Hag. pose proof (rd_tidy _ _ _ _ Hrd) as Ht. unfold recv_inner. wp_step. wp_step. unfold id.
  wp_step. apply wp_liftw, (wp_load _ n); [done|]. cbv beta. replace (s <| w := w s |>) with s by by destruct s.
  destruct (_ && _) eqn:Eg.
  - apply andb_true_iff in Eg as [Eg _]. apply andb_true_iff in Eg as [_ Eg]. unfold isNone in Eg. apply bool_decide_eq_true in Eg.
    eapply wait_ends; try done; [by apply moved_refl|congruence|rewrite (st_lookup _ _ _ Hn); congruence].
  - eapply recv_after_ends; try done. intros Hc [Hno He]. by rewrite Hc, Hno, He in Eg.
Qed.

(** ** The outer loop *)

Lemma init_moved c sd x ls : tidy c x ls → (∀ sd', my_node c ∉ ls sd') →
  moved c sd x ls (x <| nodes := <[my_node c := new_node c]> (nodes x) |>) ls.
Proof.
  intros [Hi Hd Hg Ho] Hp. pose proof (inv_shape _ _ Hi) as Hsh. set (x1 := x <| nodes := _ |>).
  assert (Hst : ∀ q, q ≠ my_node c → st x1 q = st x q) by (intros q Hq; unfold st; simpl; by rewrite lookup_insert_ne).
  assert (Hst0 : st x1 (my_node c) = Some NOTIFY_NONE) by (unfold st; simpl; by rewrite lookup_insert_eq).
  split; [|auto|done|intros q Hq; simpl; by rewrite lookup_insert_ne|intros q Hq; by rewrite Hst]. split.
  - apply unlinked_nodes_inv; [done|..].
    + intros sd' q Hq. rewrite lookup_insert_ne; [done|]. intros <-. by apply (Hp sd').
    + intros q n Hq Hl. destruct (decide (my_node c = q)) as [<-|Hne]; [rewrite lookup_insert_eq in Hq; by simplify_eq|].
      by rewrite lookup_insert_ne in Hq.
    + intros q n g Hq Hl. destruct (decide (my_node c = q)) as [<-|Hne]; [rewrite lookup_insert_eq in Hq; by simplify_eq|].
      rewrite lookup_insert_ne in Hq by done. by eapply Hsh.
  - intros sd' q Hq. rewrite Hst; [by eapply Hd|]. intros ->. by apply (Hp sd').
  - intros q. destruct (decide (q = my_node c)) as [->|]; [by rewrite Hst0|by rewrite Hst].
  - intros n Hn. simpl in Hn. rewrite lookup_insert_eq in Hn. by simplify_eq.
Qed.
Lemma link_ends c sd s ls : ready c sd (w s) ls → (∀ sd', my_node c ∉ ls sd') →
  wp (liftw (init_node c);; liftw (add_waiter sd (my_node c));; liftw cc__chan_signal_activity)
    (λ _ s', s' = s <| w := w s' |> ∧ ∃ ls', moved c sd (w s) ls (w s') ls' ∧ (∀ sd' q, q ∈ ls' sd' → q ≠ my_node c → q ∈ ls sd') ∧
       ∃ n, nodes (w s') !! my_node c = Some n ∧ notified n = NOTIFY_NONE) s.
Proof.
  intros [Ht Hsd Hf] Hp. unfold init_node. wp_step. apply wp_liftw. wp_step. pose proof (init_moved c sd _ _ Ht Hp) as Hm1.
  set (x1 := (w s) <| nodes := _ |>) in *. pose proof (mv_tidy _ _ _ _ _ _ Hm1) as Ht1. wp_step. apply wp_liftw. simpl.
  eapply wp_mono; [eapply (add_still sd (my_node c) (new_node c)); [apply Ht1| |done]|].
  { split_and!; [simpl; by rewrite lookup_insert_eq|done|]. simpl. destruct (parks c) as [f|] eqn:Ef; [|done].
    intros sd' q m Hq Hm. assert (q ≠ my_node c) by (intros ->; by apply (Hp sd')).
    simpl in Hm. rewrite lookup_insert_ne in Hm by done. by eapply Hf. }
  cbv beta. intros [] x2 [Hk Hi2]. apply wp_liftw. simpl. eapply wp_mono; [apply broadcast_spec|]. cbv beta. intros [] x3 [Q3 _]. simpl.
  assert (Hin : ∀ sd' q, q ∈ (<[sd := ls sd ++ [my_node c]]> ls : side → list ptr) sd' → q ∈ ls sd' ∨ q = my_node c ∧ sd' = sd).
  { intros sd' q. destruct (decide (sd' = sd)) as [->|Hne]; [rewrite fn_lookup_insert; set_solver|rewrite fn_lookup_insert_ne by done; auto]. }
  assert (Hst2 : ∀ q, st x3 q = st x1 q) by (intros q; rewrite (quiet_st _ _ _ Q3); by apply kept_st).
  assert (Hc3 : ∀ q, core <$> nodes x3 !! q = core <$> nodes x1 !! q) by (intros q; rewrite (qt_nodes _ _ Q3); apply Hk).
  assert (Hst0 : st x1 (my_node c) = Some NOTIFY_NONE) by (unfold st; simpl; by rewrite lookup_insert_eq).
  split; [done|]. eexists. split; [|split; [intros sd' q [?|[? _]]%Hin Hne; done|]].
  - eapply moved_trans; [exact Hm1|]. split; [|exact Hin| |auto|intros q Hq; by rewrite Hst2]; [|by rewrite (qt_mem _ _ Q3), (cm_mem _ _ _ Hk)].
    split; [by eapply quiet_inv| |intros q; rewrite Hst2; apply Ht1|].
    + intros sd' q [Hq|[-> _]]%Hin; rewrite Hst2; [by eapply (td_data _ _ _ Ht1)|by rewrite Hst0].
    + intros n Hn. pose proof (Hc3 (my_node c)) as Hc. rewrite Hn in Hc. simpl in Hc. rewrite lookup_insert_eq in Hc. simpl in Hc. congruence.
  - rewrite <- (Hst2 (my_node c)) in Hst0. unfold st in Hst0. destruct (nodes x3 !! my_node c) as [n|]; simplify_eq/=. eauto.
Qed.

Definition err_ok c err : Prop := err = 0 ∨ err = ETIMEDOUT ∧ timed c = true.
(** A fresh node: the loop waits or times out, it does not turn again. *)
Lemma fresh_again c sd err s again n : err_ok c err → nodes (w s) !! my_node c = Some n → notified n = NOTIFY_NONE → again_ok c sd err s again.
Proof.
  intros He Hn Hno s1 l1 _ _ _ _ _ Ht H0. exfalso. destruct He as [->|[-> Htm]]; [|by apply Ht]. apply H0.
  rewrite (st_lookup _ _ _ Hn). by rewrite Hno.
Qed.
(** Composition at the outer loop, whose caller has no delivered node. *)
Lemma outer_compose c sd k x ls s1 l1 out s' F : k ≠ Some NOTIFY_DATA → moved c sd x ls (w s1) l1 → st (w s1) (my_node c) ≠ Some NOTIFY_DATA →
  (∀ sd' q, q ∈ l1 sd' → q ≠ my_node c → q ∈ ls sd') → my_node c ∉ l1 (other sd) → flags s1 = F →
  ends c sd (st (w s1) (my_node c)) (w s1) l1 out s' ∧ flags s' = flags s1 → ends c sd k x ls out s' ∧ flags s' = F.
Proof.
  intros Hk Hm Hst Hl Hno Hf [He Hf']. split; [|congruence]. eapply ends_trans; [done|done|done| |done]. split; intros; by exfalso.
Qed.

Lemma send_outer_ends fuel c err s ls :
  mu_held s = true → ready c SendQ (w s) ls → codes_ok s → err_ok c err → (∀ sd', my_node c ∉ ls sd') →
  st (w s) (my_node c) ≠ Some NOTIFY_DATA →
  wp (send_outer (S fuel) c err) (λ out s', ends c SendQ (st (w s) (my_node c)) (w s) ls out s' ∧ flags s' = flags s) s.
Proof.
  intros Hm Hrd Hcodes Herr Hp Hst. pose proof (rd_tidy _ _ _ _ Hrd) as Ht. simpl. wp_step. wp_step. change (id s) with s.
  destruct (closed s || rx_error_closed s) eqn:Ecl.
  { eapply (leave_ends _ _ _ _ _ _ _ ls); try done; [by apply moved_refl|]. split; [|done]. intros Hz.
    destruct (rx_error_closed s) eqn:Er; [by apply Hcodes in Hz|done]. }
  wp_step. eapply wp_mono; [by apply (ready_pop c SendQ RecvQ)|]. cbv beta. intros o s1 (E & Hs1 & l1 & Hmv & Hsh & Ho).
  assert (Hm1 : mu_held s1 = true) by by rewrite E. assert (Hf1 : flags s1 = flags s) by by rewrite E.
  assert (Hp1 : ∀ sd', my_node c ∉ l1 sd') by (intros sd' ?; by apply (Hp sd'), Hsh).
  assert (Hk1 : st (w s1) (my_node c) ≠ Some NOTIFY_DATA) by by rewrite (sl_data _ _ Hs1).
  pose proof (ready_moved _ _ _ _ _ _ Hrd Hmv) as Hrd1.
  destruct o as [q|].
  - destruct (Ho q eq_refl) as (Hq & Hqo & Hqs). wp_step. split; [|done]. exists l1. split; [done|]. by split_and!.
  - apply wp_bind_assoc, wp_bind_assoc. wp_step. eapply wp_mono; [by apply (link_ends c SendQ s1 l1)|]. cbv beta.
    intros [] s2 (E2 & l2 & Hmv2 & Hl2 & n & Hn & Hno).
    assert (Hm2 : mu_held s2 = true) by by rewrite E2. assert (Hf2 : flags s2 = flags s1) by by rewrite E2.
    pose proof (ready_moved _ _ _ _ _ _ Hrd1 Hmv2) as Hrd2.
    eapply wp_mono; [apply (send_inner_ends c err _ s2 l2 n); try done; [by rewrite E2, E|by eapply fresh_again]|]. cbv beta.
    intros out s' Hend. eapply (outer_compose _ _ _ _ _ s2 l2); [done|by eapply moved_trans| | |apply Hrd2|congruence|done].
    + rewrite (st_lookup _ _ _ Hn). congruence.
    + intros sd' q Hq Hne. by apply Hsh, Hl2.
Qed.
Lemma recv_outer_ends fuel c err s ls :
  mu_held s = true → ready c RecvQ (w s) ls → err_ok c err → (∀ sd', my_node c ∉ ls sd') → st (w s) (my_node c) ≠ Some NOTIFY_DATA →
  wp (recv_outer (S fuel) c err) (λ out s', ends c RecvQ (st (w s) (my_node c)) (w s) ls out s' ∧ flags s' = flags s) s.
Proof.
  intros Hm Hrd Herr Hp Hst. pose proof (rd_tidy _ _ _ _ Hrd) as Ht. simpl. wp_step. wp_step. change (id s) with s.
  destruct (closed s) eqn:Ecl.
  { eapply (leave_ends _ _ _ _ _ _ _ ls); try done; [by apply moved_refl|]. split; [|done]. intros Hz. by apply recv_close_errno_nz in Hz. }
  wp_step. eapply wp_mono; [by apply (ready_pop c RecvQ SendQ)|]. cbv beta. intros o s1 (E & Hs1 & l1 & Hmv & Hsh & Ho).
  assert (Hm1 : mu_held s1 = true) by by rewrite E. assert (Hf1 : flags s1 = flags s) by by rewrite E.
  assert (Hp1 : ∀ sd', my_node c ∉ l1 sd') by (intros sd' ?; by apply (Hp sd'), Hsh).
  assert (Hk1 : st (w s1) (my_node c) ≠ Some NOTIFY_DATA) by by rewrite (sl_data _ _ Hs1).
  destruct o as [q|].
  - destruct (Ho q eq_refl) as (Hq & Hqo & Hqs). wp_step. split; [|done]. exists l1. split; [done|]. by split_and!.
  - wp_step. apply wp_liftw. unfold upd_ch. wp_step. set (s1' := s1 <| w := _ |>).
    assert (Hmv1 : moved c RecvQ (w s) ls (w s1') l1) by (eapply moved_trans; [done|apply moved_rv, Hmv]).
    pose proof (ready_moved _ _ _ _ _ _ Hrd Hmv1) as Hrd1.
    apply wp_bind_assoc, wp_bind_assoc. wp_step. eapply wp_mono; [by apply (link_ends c RecvQ s1' l1)|]. cbv beta.
    intros [] s2 (E2 & l2 & Hmv2 & Hl2 & n & Hn & Hno).
    assert (Hm2 : mu_held s2 = true) by by rewrite E2. assert (Hf2 : flags s2 = flags s1) by by rewrite E2.
    pose proof (ready_moved _ _ _ _ _ _ Hrd1 Hmv2) as Hrd2.
    eapply wp_mono; [apply (recv_inner_ends c err _ s2 l2 n); try done; by eapply fresh_again|]. cbv beta.
    intros out s' Hend. eapply (outer_compose _ _ _ _ _ s2 l2); [done|by eapply moved_trans| | |apply Hrd2|congruence|done].
    + rewrite (st_lookup _ _ _ Hn). congruence.
    + intros sd' q Hq Hne. by apply Hsh, Hl2.
Qed.

(** ** Whole sections *)

Lemma ensure_buf_moved env size c sd s ls : tidy c (w s) ls →
  wp (cc_chan_ensure_buf env size) (λ _ s', flags s' = flags s ∧ mu_held s' = mu_held s ∧
    nodes (w s') = nodes (w s) ∧ moved c sd (w s) ls (w s') ls) s.
Proof.
  intros Ht. pose proof (moved_refl c sd _ _ Ht) as Hr. unfold cc_chan_ensure_buf. wp_step. wp_step. unfold upd.
  case_decide; [|case_decide; by wp_step]. wp_step. wp_step. case_match; [by wp_step|]. wp_go. simpl. split_and!; [done..|].
  apply moved_still; [done|apply still_kept; by apply calm_same| |by intros ? ?].
  destruct (td_inv _ _ _ Ht) as [Hsh Hc Hi Hh Hs]. split; try done. by apply (shape_ch (w s)); [|intros []|].
Qed.
Lemma unlinked_absent c x ls : wq_inv x ls → nodes x !! my_node c = None → ∀ sd', my_node c ∉ ls sd'.
Proof. intros Hi Hn sd' Hin. destruct (shape_lookup _ _ _ _ (inv_shape _ _ Hi) Hin). congruence. Qed.

Lemma rv_enter_ends env size fuel sd c s ls :
  mu_held s = false → ready c sd (w s) ls → codes_ok s → nodes (w s) !! my_node c = None →
  wp (rv_enter env size (S fuel) sd c) (λ out s', ends c sd None (w s) ls out s' ∧ flags s' = flags s) s.
Proof.
  intros Hm Hrd Hcodes Hn. pose proof (rd_tidy _ _ _ _ Hrd) as Ht. unfold rv_enter. wp_step. apply wp_lock; [done|].
  wp_step. eapply wp_mono; [by apply (ensure_buf_moved env size c sd (s <| mu_held := true |>) ls)|]. cbv beta.
  intros err s1 (Hf & Hm1 & Hn1 & Hmv). simpl in Hf, Hm1, Hn1, Hmv. assert (Hf0 : flags s1 = flags s) by exact Hf.
  pose proof (unlinked_absent _ _ _ (td_inv _ _ _ (mv_tidy _ _ _ _ _ _ Hmv)) ltac:(by rewrite Hn1)) as Hp.
  assert (Hst : st (w s1) (my_node c) = None) by (unfold st; by rewrite Hn1, Hn).
  pose proof (ready_moved _ _ _ _ _ _ Hrd Hmv) as Hrd1.
  assert (Hcodes1 : codes_ok s1) by by eapply codes_flags.
  assert (Hout : ∀ m : C rv_out, wp m (λ out s', ends c sd (st (w s1) (my_node c)) (w s1) ls out s' ∧ flags s' = flags s1) s1 →
    wp m (λ out s', ends c sd None (w s) ls out s' ∧ flags s' = flags s) s1).
  { intros m Hw. eapply wp_mono; [exact Hw|]. cbv beta. intros out s' He. eapply (outer_compose _ _ _ _ _ s1 ls); try done; by rewrite Hst. }
  assert (Hleave : ∀ rc, rc ≠ 0 → wp (leave rc) (λ out s', ends c sd None (w s) ls out s' ∧ flags s' = flags s) s1).
  { intros rc Hrc. by apply (leave_ends _ _ _ _ _ _ _ ls). }
  case_decide; [|by apply Hleave]. wp_step. wp_step. unfold id. destruct sd.
  - destruct (closed s1); [apply Hleave, send_close_errno_nz|]. destruct (rx_error_closed s1) eqn:Er; [apply Hleave, Hcodes1, Er|].
    apply Hout, send_outer_ends; try done; [by left|by rewrite Hst].
  - apply Hout, recv_outer_ends; try done; [by left|by rewrite Hst].
Qed.
Lemma rv_resume_ends fuel sd c err s ls n :
  mu_held s = false → ready c sd (w s) ls → codes_ok s → nodes (w s) !! my_node c = Some n → err_ok c err →
  wp (rv_resume (S fuel) sd c err) (λ out s', ends c sd (st (w s) (my_node c)) (w s) ls out s' ∧ flags s' = flags s) s.
Proof.
  intros Hm Hrd Hcodes Hn Herr. unfold rv_resume. wp_step. apply wp_lock; [done|]. set (s0 := s <| mu_held := true |>).
  assert (Hcodes0 : ∀ s1, flags s1 = flags s0 → codes_ok s1) by (intros s1 Hf; by eapply (codes_flags s)).
  destruct sd; simpl rv_inner; simpl rv_outer.
  - apply (send_inner_ends c err _ s0 ls n); try done. intros s1 l1 Hm1 Hf1 Hrd1 Hp1 Hst1 _ _. apply send_outer_ends; auto.
  - apply (recv_inner_ends c err _ s0 ls n); try done. intros s1 l1 Hm1 Hf1 Hrd1 Hp1 Hst1 _ _. by apply recv_outer_ends.
Qed.

(** ** The handoff *)

Lemma finish_ends sd q n s ls : mu_held s = true → wq_inv (w s) ls → nodes (w s) !! q = Some n →
  wp (rv_finish sd q) (λ rc s', rc = 0 ∧ mu_held s' = false ∧ flags s' = flags s ∧ nodes (w s') = nodes (w s) ∧
    mem (w s') = mem (w s) ∧ wq_inv (w s') ls) s.
Proof.
  intros Hm Hi Hn. unfold rv_finish.
  assert (Hgo : ∀ x, wq_inv x ls → nodes x = nodes (w s) → mem x = mem (w s) →
    wp (liftw (bump_signaled q);; n ← liftw (load q);
      liftw (match fiber n with Some f => wake_batch_add_chan (Some f)
             | None => emit (EvCondSignal (match sd with SendQ => COND_NOT_EMPTY | RecvQ => COND_NOT_FULL end)) end);;
      cc_chan_unlock;; liftw cc__chan_signal_recv_ready;; liftw wake_batch_flush;; mret 0)
    (λ rc s', rc = 0 ∧ mu_held s' = false ∧ flags s' = flags s ∧ nodes (w s') = nodes (w s) ∧
      mem (w s') = mem (w s) ∧ wq_inv (w s') ls) (s <| w := x |>)).
  { intros x Hx Hnx Hmx. wp_step. apply wp_liftw. simpl. eapply wp_mono; [eapply bump_signaled_spec; [apply Hx|by rewrite Hnx]|].
    cbv beta. intros [] x2 (Q2 & _ & _). pose proof (quiet_inv _ _ _ Q2 Hx) as Hi2. wp_step. apply wp_liftw, (wp_load _ n); [simpl; by rewrite (qt_nodes _ _ Q2), Hnx|].
    cbv beta. wp_step. apply wp_liftw. simpl. eapply wp_mono; [apply handoff_wake_spec, Hi2|]. cbv beta. intros [] x3 [Q3 _].
    wp_step. apply wp_unlock; [done|]. pose proof (quiet_inv _ _ _ Q3 Hi2) as Hi3.
    wp_step. apply wp_liftw. simpl. eapply wp_mono; [apply signal_recv_ready_spec|]. cbv beta. intros [] x4 [Q4 _]. simpl in Q4.
    pose proof (quiet_inv _ _ _ Q4 Hi3) as Hi4.
    wp_step. apply wp_liftw. simpl. eapply wp_mono; [apply wake_batch_flush_spec, Hi4|]. cbv beta. intros [] x5 (Q5 & _).
    wp_step. simpl in Q5. split_and!; try done; simpl; [..|by eapply quiet_inv].
    - by rewrite (qt_nodes _ _ Q5), (qt_nodes _ _ Q4), (qt_nodes _ _ Q3), (qt_nodes _ _ Q2).
    - by rewrite (qt_mem _ _ Q5), (qt_mem _ _ Q4), (qt_mem _ _ Q3), (qt_mem _ _ Q2). }
  wp_step. destruct sd; simpl when.
  - apply wp_liftw. unfold rv_recv_dec, upd_ch. wp_step. apply Hgo; [by apply rv_inv|done|done].
  - wp_step. replace s with (s <| w := w s |>) at 2 by by destruct s. by apply Hgo.
Qed.
(** Without the node the tail is undefined behaviour. *)
Lemma finish_faults sd q s : nodes (w s) !! q = None → rv_finish sd q s = None.
Proof.
  intros Hn. destruct sd; unfold rv_finish, when, rv_recv_dec, upd_ch, bump_signaled, liftw, load, mbind, M_bind, modify, mret, M_ret; simpl; by rewrite Hn.
Qed.
End spec.
