(* ===== verification/ChanRvInv.v ===== *)
(** The invariant of concurrent rendezvous calls, kept by every step. *)
From S2P Require Import Prelude ChanTypes WaitList WaitShape WaitQuiet WaitInv WaitOps WaitPop WaitWake WaitSteps Bytes Ring Chan ChanSpec ChanClose ChanHandoff ChanRv ChanRvFrame ChanRvSpec.

Local Open Scope Z_scope.

Section inv.
Context `{!LfdsQueue}.
Implicit Types (S : rv_state) (o : rv_op) (os : list rv_op) (ls : side → list ptr) (i j : nat) (ms : list (nat * nat * list Z)).

(** * Definitions *)

Definition waiting (pc : rv_pc) : Prop := match pc with PWait | PSleep | PRelock _ => True | _ => False end.
Definition holding (pc : rv_pc) : Prop := match pc with PHand _ | PTail _ => True | _ => False end.
Definition senders ms : list nat := (λ m, m.1.1) <$> ms.
Definition receivers ms : list nat := (λ m, m.1.2) <$> ms.
Definition matched ms i : Prop := i ∈ senders ms ∨ i ∈ receivers ms.

(** What a call's program counter says of its node and of the handoffs. *)
Definition op_ok x ls os ms i o : Prop :=
  match rpc o with
  | PEnter => nodes x !! my_node (who o) = None ∧ ¬ matched ms i
  | PHand q => ¬ matched ms i ∧ st x q = Some NOTIFY_NONE ∧ (∀ sd, q ∉ ls sd) ∧
      ∃ j o', os !! j = Some o' ∧ waiting (rpc o') ∧ my_node (who o') = q ∧ dir o' = other (dir o)
  | PTail q => matched ms i
  | PWait | PSleep => is_Some (nodes x !! my_node (who o)) ∧ (st x (my_node (who o)) = Some NOTIFY_DATA ↔ matched ms i)
  | PRelock err => err_ok (who o) err ∧ is_Some (nodes x !! my_node (who o)) ∧ (st x (my_node (who o)) = Some NOTIFY_DATA ↔ matched ms i)
  | PRet rc => rc = 0 ↔ matched ms i
  end.
(** The owner of a node. *)
Definition owned ls os q (n : cc__fiber_wait_node) : Prop := ∃ i o, os !! i = Some o ∧ active o ∧ my_node (who o) = q ∧
  core n = core (new_node (who o)) ∧ ∀ sd, q ∈ ls sd → sd = dir o ∧ waiting (rpc o).

(** Calls have frames, fibers and buffers of their own; one holds the mutex. *)
Record calls_ok os : Prop := {
  co_frame i j o o' : os !! i = Some o → os !! j = Some o' → active o → active o' → my_node (who o) = my_node (who o') → i = j;
  co_fiber i j o o' f : os !! i = Some o → os !! j = Some o' → active o → active o' → in_fiber (who o) = Some f → in_fiber (who o') = Some f → i = j;
  co_value i j o o' : os !! i = Some o → os !! j = Some o' → my_value (who o) = my_value (who o') → i = j;
  co_lock i j o o' : os !! i = Some o → os !! j = Some o' → holding (rpc o) → holding (rpc o') → i = j }.
Record matches_ok x os ms : Prop := {
  mo_senders : NoDup (senders ms);
  mo_receivers : NoDup (receivers ms);
  mo_values i j v : (i, j, v) ∈ ms → ∃ o o', os !! i = Some o ∧ dir o = SendQ ∧ os !! j = Some o' ∧ dir o' = RecvQ ∧
    mem x !! my_value (who o) = Some v ∧ mem x !! my_value (who o') = Some v }.
Record rv_inv S ls : Prop := {
  ri_wq : wq_inv (w (rch S)) ls;
  ri_data : data_unlinked (w (rch S)) ls;
  ri_signal q : st (w (rch S)) q ≠ Some NOTIFY_SIGNAL;
  ri_codes : codes_ok (rch S);
  ri_owned q n : nodes (w (rch S)) !! q = Some n → owned ls (rops S) q n;
  ri_calls : calls_ok (rops S);
  ri_mem i o : rops S !! i = Some o → is_Some (mem (w (rch S)) !! my_value (who o));
  ri_op i o : rops S !! i = Some o → op_ok (w (rch S)) ls (rops S) (matches S) i o;
  ri_matches : matches_ok (w (rch S)) (rops S) (matches S);
  ri_lock i o : rops S !! i = Some o → holding (rpc o) → mu_held (rch S) = true }.

(** * Waking threads *)

(** [roused os os']: some waiting calls are about to lock. *)
Definition roused os os' : Prop := ∀ i, match os !! i, os' !! i with
  | Some o, Some o' => o' = o ∨ waiting (rpc o) ∧ ∃ err, err_ok (who o) err ∧ o' = o <| rpc := PRelock err |>
  | None, None => True
  | _, _ => False
  end.
Lemma roused_refl os : roused os os.
Proof. intros i. destruct (os !! i); auto. Qed.
Lemma roused_trans os1 os2 os3 : roused os1 os2 → roused os2 os3 → roused os1 os3.
Proof.
  intros H1 H2 i. specialize (H1 i). specialize (H2 i). destruct (os1 !! i), (os2 !! i), (os3 !! i); try done.
  destruct H1 as [->|(? & e & ? & ->)], H2 as [->|(? & e' & ? & ->)]; auto; right; eauto.
Qed.
Lemma deliver_roused evs os os' : deliver evs os os' → roused os os'.
Proof.
  induction 1 as [os|c evs os i o os' Hi [Hs _] _ IH| |c evs os os' _ IH|]; [apply roused_refl| |done| |done].
  - eapply roused_trans; [|exact IH]. intros k. destruct (decide (k = i)) as [->|Hne].
    + rewrite Hi, list_lookup_insert_eq by (by eapply lookup_lt_Some). right. rewrite Hs. split; [done|]. exists 0. split; [by left|done].
    + rewrite list_lookup_insert_ne by done. apply roused_refl.
  - eapply roused_trans; [|exact IH]. intros k. rewrite list_lookup_fmap. destruct (os !! k) as [o|]; [|done]. simpl.
    unfold rouse_all. destruct (rpc o) eqn:E; auto.
    destruct (cond_of (dir o)), c; auto; right; (split; [done|]); exists 0; (split; [by left|done]).
Qed.
Lemma roused_back os os' i o' : roused os os' → os' !! i = Some o' →
  ∃ o, os !! i = Some o ∧ dir o = dir o' ∧ who o = who o' ∧ (active o ↔ active o') ∧ (waiting (rpc o) ↔ waiting (rpc o')) ∧
    (holding (rpc o) ↔ holding (rpc o')) ∧ (o' = o ∨ waiting (rpc o) ∧ ∃ err, err_ok (who o) err ∧ o' = o <| rpc := PRelock err |>).
Proof.
  intros Hr Hi. specialize (Hr i). rewrite Hi in Hr. destruct (os !! i) as [o|]; [|done]. exists o.
  destruct Hr as [->|(Hp & err & He & ->)]; [by auto 10|]. unfold active. simpl. destruct (rpc o); try done; eauto 12.
Qed.
Lemma roused_fwd os os' i o : roused os os' → os !! i = Some o →
  ∃ o', os' !! i = Some o' ∧ dir o' = dir o ∧ who o' = who o ∧ (active o' ↔ active o) ∧ (waiting (rpc o') ↔ waiting (rpc o)).
Proof.
  intros Hr Hi. specialize (Hr i). rewrite Hi in Hr. destruct (os' !! i) as [o'|]; [|done]. exists o'.
  destruct Hr as [->|(Hp & err & He & ->)]; [by auto 10|]. unfold active. simpl. destruct (rpc o); try done; eauto 12.
Qed.
Lemma rv_inv_roused s os os' ms ls : roused os os' → rv_inv (RvState s os ms) ls → rv_inv (RvState s os' ms) ls.
Proof.
  intros Hr [Hw Hd Hg Hc Ho Hcall Hm Hop Hma Hl]. simpl in *. split; simpl; try done.
  - intros q n Hn. destruct (Ho q n Hn) as (i & o & Hi & Ha & Hq & Hcore & Hls). destruct (roused_fwd _ _ _ _ Hr Hi) as (o' & Hi' & Hd' & Hw' & Ha' & Hwt).
    exists i, o'. split_and!; [done|by apply Ha'|by rewrite Hw'|by rewrite Hw'|]. intros sd Hin. rewrite Hd'. destruct (Hls sd Hin). split; [done|by apply Hwt].
  - destruct Hcall as [H1 H2 H3 H4].
    assert (Hpair : ∀ i j o o', os' !! i = Some o → os' !! j = Some o' → ∃ a b, os !! i = Some a ∧ os !! j = Some b ∧
      who a = who o ∧ who b = who o' ∧ (active o → active a) ∧ (active o' → active b) ∧
      (holding (rpc o) → holding (rpc a)) ∧ (holding (rpc o') → holding (rpc b))).
    { intros i j o o' Hi Hj. destruct (roused_back _ _ _ _ Hr Hi) as (a & ? & ? & ? & [_ ?] & _ & [_ ?] & _).
      destruct (roused_back _ _ _ _ Hr Hj) as (b & ? & ? & ? & [_ ?] & _ & [_ ?] & _). exists a, b. by split_and!. }
    split; intros i j o o'.
    + intros Hi Hj Ha Hb Hn. destruct (Hpair i j o o' Hi Hj) as (a & b & ? & ? & ? & ? & ? & ? & _). eapply (H1 i j a b); auto. congruence.
    + intros f Hi Hj Ha Hb Hn Hn'. destruct (Hpair i j o o' Hi Hj) as (a & b & ? & ? & ? & ? & ? & ? & _). eapply (H2 i j a b f); auto; congruence.
    + intros Hi Hj Hn. destruct (Hpair i j o o' Hi Hj) as (a & b & ? & ? & ? & ? & _). eapply (H3 i j a b); auto. congruence.
    + intros Hi Hj Ha Hb. destruct (Hpair i j o o' Hi Hj) as (a & b & ? & ? & ? & ? & _ & _ & ? & ?). eapply (H4 i j a b); auto.
  - intros i o Hi. destruct (roused_back _ _ _ _ Hr Hi) as (a & Hi' & _ & <- & _). by eapply Hm.
  - intros i o Hi. destruct (roused_back _ _ _ _ Hr Hi) as (a & Hi' & Hd' & Hw' & _ & _ & _ & Hcase). pose proof (Hop _ _ Hi') as Hok.
    destruct Hcase as [->|(Hp & err & He & ->)].
    + unfold op_ok in *. destruct (rpc a); try done. destruct Hok as (? & ? & ? & j & o' & Hj & Hwt & ? & ?). split_and!; try done.
      destruct (roused_fwd _ _ _ _ Hr Hj) as (b & Hj' & Hdb & Hwb & _ & Hwtb). exists j, b. split_and!; [done|by apply Hwtb|by rewrite Hwb|by rewrite Hdb].
    + unfold op_ok in *. simpl in *. split; [done|]. destruct (rpc a); try done. apply Hok.
  - destruct Hma as [H1 H2 H3]. split; [done|done|]. intros i j v Hin. destruct (H3 i j v Hin) as (o & o' & Hi & Hdi & Hj & Hdj & ? & ?).
    destruct (roused_fwd _ _ _ _ Hr Hi) as (a & Hia & Hda & Hwa & _), (roused_fwd _ _ _ _ Hr Hj) as (b & Hjb & Hdb & Hwb & _).
    exists a, b. rewrite Hda, Hdb, Hwa, Hwb. done.
  - intros i o Hi Hh. destruct (roused_back _ _ _ _ Hr Hi) as (a & Hi' & _ & _ & _ & _ & Hhold & _). eapply Hl; [done|]. by apply Hhold.
Qed.

(** * Sections *)

Lemma insert_back os i o pc j o' : os !! i = Some o → <[i := o <| rpc := pc |>]> os !! j = Some o' →
  j = i ∧ o' = o <| rpc := pc |> ∨ j ≠ i ∧ os !! j = Some o'.
Proof.
  intros Hi. destruct (decide (j = i)) as [->|Hne].
  - rewrite list_lookup_insert_eq by (by eapply lookup_lt_Some). intros [= <-]. auto.
  - rewrite list_lookup_insert_ne by done. auto.
Qed.
Lemma insert_same os i o pc j o' : os !! i = Some o → os !! j = Some o' →
  ∃ o'', <[i := o <| rpc := pc |>]> os !! j = Some o'' ∧ dir o'' = dir o' ∧ who o'' = who o' ∧ (j ≠ i → o'' = o').
Proof.
  intros Hi Hj. destruct (decide (j = i)) as [->|Hne].
  - rewrite list_lookup_insert_eq by (by eapply lookup_lt_Some). eexists. split; [done|]. simpl. by simplify_eq.
  - rewrite list_lookup_insert_ne by done. eauto.
Qed.
Lemma calls_ok_update os i o pc : calls_ok os → os !! i = Some o → active o →
  (holding pc → ∀ j o', os !! j = Some o' → holding (rpc o') → j = i) → calls_ok (<[i := o <| rpc := pc |>]> os).
Proof.
  intros [H1 H2 H3 H4] Hi Ha Hh.
  assert (Hpair : ∀ j a, <[i := o <| rpc := pc |>]> os !! j = Some a → ∃ a0, os !! j = Some a0 ∧ who a0 = who a ∧ (active a → active a0)).
  { intros j a [[-> ->]|[_ Hj]]%(insert_back _ _ _ _ _ _ Hi); [by exists o|by exists a]. }
  split; intros j k a b.
  - intros Hj Hk Aa Ab Hn. destruct (Hpair j a Hj) as (a0 & ? & Ea & ?), (Hpair k b Hk) as (b0 & ? & Eb & ?).
    eapply (H1 j k a0 b0); auto. by rewrite Ea, Eb.
  - intros f Hj Hk Aa Ab Hn Hn'. destruct (Hpair j a Hj) as (a0 & ? & Ea & ?), (Hpair k b Hk) as (b0 & ? & Eb & ?).
    eapply (H2 j k a0 b0 f); auto; [by rewrite Ea|by rewrite Eb].
  - intros Hj Hk Hn. destruct (Hpair j a Hj) as (a0 & ? & Ea & ?), (Hpair k b Hk) as (b0 & ? & Eb & ?).
    eapply (H3 j k a0 b0); auto. by rewrite Ea, Eb.
  - intros [[-> ->]|[Hji Hj]]%(insert_back _ _ _ _ _ _ Hi) [[-> ->]|[Hki Hk]]%(insert_back _ _ _ _ _ _ Hi) Aa Ab; [done|..].
    + symmetry. by eapply Hh.
    + by eapply Hh.
    + by eapply H4.
Qed.
Lemma matches_ok_ops x x' os os' ms : mem x' = mem x → (∀ i o, os !! i = Some o → ∃ o', os' !! i = Some o' ∧ dir o' = dir o ∧ who o' = who o) →
  matches_ok x os ms → matches_ok x' os' ms.
Proof.
  intros Hm Hos [H1 H2 H3]. split; [done|done|]. intros i j v Hin. destruct (H3 i j v Hin) as (o & o' & Hi & Hdi & Hj & Hdj & ? & ?).
  destruct (Hos _ _ Hi) as (a & ? & Ea & Wa), (Hos _ _ Hj) as (b & ? & Eb & Wb). exists a, b. rewrite Hm, Wa, Wb. split_and!; congruence.
Qed.

(** The node of an active call, seen from the invariant. *)
Lemma own_node S ls i o n : rv_inv S ls → rops S !! i = Some o → active o → nodes (w (rch S)) !! my_node (who o) = Some n →
  core n = core (new_node (who o)) ∧ ∀ sd, my_node (who o) ∈ ls sd → sd = dir o ∧ waiting (rpc o).
Proof.
  intros Hinv Hi Ha Hn. destruct (ri_owned _ _ Hinv _ _ Hn) as (j & o' & Hj & Ha' & Hq & Hc & Hl).
  assert (j = i) as -> by (by eapply (co_frame _ (ri_calls _ _ Hinv))). assert (o' = o) as -> by congruence. done.
Qed.
Lemma ready_call S ls i o : rv_inv S ls → rops S !! i = Some o → active o → ready (who o) (dir o) (w (rch S)) ls.
Proof.
  intros Hinv Hi Ha. pose proof (inv_shape _ _ (ri_wq _ _ Hinv)) as Hsh. split.
  - split; [apply Hinv|apply Hinv|apply Hinv|]. intros n Hn. by eapply own_node.
  - intros Hin. destruct (shape_lookup _ _ _ _ Hsh Hin) as [n Hn]. destruct (own_node _ _ _ _ _ Hinv Hi Ha Hn) as [_ Hl].
    destruct (Hl _ Hin) as [Hd _]. by destruct (dir o).
  - intros sd' q m f Hq Hne Hm Hp Hf. destruct (ri_owned _ _ Hinv _ _ Hm) as (j & o' & Hj & Ha' & Hnq & Hc & _). apply Hne. rewrite <- Hnq.
    assert (Hpk : parks (who o') = Some f) by (unfold core, new_node in Hc; simpl in Hc; congruence).
    assert (Hin : ∀ c, parks c = Some f → in_fiber c = Some f) by (intros c; unfold parks; by destruct (timed c)).
    assert (j = i) as -> by (eapply (co_fiber _ (ri_calls _ _ Hinv)); eauto). by simplify_eq.
Qed.

Lemma core_absent (a b : option cc__fiber_wait_node) : core <$> a = core <$> b → b = None → a = None.
Proof. intros Hc ->. by destruct a. Qed.
Lemma core_present (a b : option cc__fiber_wait_node) : core <$> a = core <$> b → is_Some b → is_Some a.
Proof. intros Hc [n ->]. by destruct a. Qed.

(** The state after a section: the caller's frame is gone if it returned. *)
Lemma dropped c sd x ls s' ls' pc : moved c sd x ls (w s') ls' → (∀ rc, pc = PRet rc → ∀ sd', my_node c ∉ ls' sd') →
  let x' := w (drop_frame c pc s') in
  wq_inv x' ls' ∧ data_unlinked x' ls' ∧ (∀ q, st x' q ≠ Some NOTIFY_SIGNAL) ∧ mem x' = mem x ∧
  (∀ q, q ≠ my_node c → core <$> nodes x' !! q = core <$> nodes x !! q ∧ (st x' q = Some NOTIFY_DATA ↔ st x q = Some NOTIFY_DATA)) ∧
  (∀ n, nodes x' !! my_node c = Some n → core n = core (new_node c) ∧ ∀ rc, pc ≠ PRet rc).
Proof.
  intros [[Hi Hd Hg Ho] L M C D] Hp. destruct (match pc with PRet _ => true | _ => false end) eqn:Epc.
  - destruct pc as [| | | | | |rc]; try done. simpl. pose proof (Hp rc eq_refl) as Hout. pose proof (inv_shape _ _ Hi) as Hsh.
    assert (Hst : ∀ q, q ≠ my_node c → st ((w s') <| nodes ::= delete (my_node c) |>) q = st (w s') q)
      by (intros q Hq; unfold st; simpl; by rewrite lookup_delete_ne).
    assert (Hst0 : st ((w s') <| nodes ::= delete (my_node c) |>) (my_node c) = None) by (unfold st; simpl; by rewrite lookup_delete_eq).
    split_and!; [|..|done| |].
    + apply unlinked_nodes_inv; [done|..].
      * intros sd' q Hq. rewrite lookup_delete_ne; [done|]. intros <-. by apply (Hout sd').
      * by intros q n [_ ?]%lookup_delete_Some.
      * intros q n g [_ ?]%lookup_delete_Some. by eapply Hsh.
    + intros sd' q Hq. rewrite Hst; [by eapply Hd|]. intros ->. by apply (Hout sd').
    + intros q. destruct (decide (q = my_node c)) as [->|]; [by rewrite Hst0|by rewrite Hst].
    + intros q Hq. rewrite (Hst q Hq). simpl. rewrite lookup_delete_ne by done. auto.
    + intros n. simpl. by rewrite lookup_delete_eq.
  - assert (drop_frame c pc s' = s') as -> by by destruct pc. simpl. split_and!; auto.
    intros n Hn. split; [by apply Ho|]. intros rc ->. done.
Qed.

Lemma section_inv S ls i o k out s' :
  rv_inv S ls → rops S !! i = Some o → active o → mu_held (rch S) = false → (k = Some NOTIFY_DATA ↔ matched (matches S) i) →
  ends (who o) (dir o) k (w (rch S)) ls out s' → flags s' = flags (rch S) →
  ∃ ls', rv_inv (RvState (drop_frame (who o) (after (who o) out) s') (<[i := o <| rpc := after (who o) out |>]> (rops S)) (matches S)) ls'.
Proof.
  intros Hinv Hi Ha Hmu Hk (ls' & Hmv & Hout) Hf. set (pc := after (who o) out). set (x := w (rch S)) in *.
  assert (Hdrop : ∀ rc, pc = PRet rc → ∀ sd', my_node (who o) ∉ ls' sd').
  { intros rc. unfold pc. destruct out; simpl; [intros _; apply Hout|done|by destruct (parks (who o))]. }
  destruct (dropped _ _ _ _ _ _ pc Hmv Hdrop) as (Hi' & Hd' & Hg' & Hm' & Hoth & Hown). set (s1 := drop_frame (who o) pc s') in *.
  assert (Hflags : flags s1 = flags (rch S)) by (unfold s1, drop_frame; destruct pc; done).
  assert (Hmu1 : mu_held s1 = mu_held s') by (unfold s1, drop_frame; destruct pc; done).
  assert (Hfree : ∀ j o', rops S !! j = Some o' → ¬ holding (rpc o')) by (intros j o' Hj Hh; pose proof (ri_lock _ _ Hinv j o' Hj Hh); congruence).
  assert (Hnode : ∀ j o', rops S !! j = Some o' → active o' → j ≠ i → my_node (who o') ≠ my_node (who o)).
  { intros j o' Hj Ha' Hne Heq. apply Hne. by eapply (co_frame _ (ri_calls _ _ Hinv)). }
  exists ls'. split; simpl; try done.
  - eapply codes_flags; [done|apply Hinv].
  - intros q n Hn. destruct (decide (q = my_node (who o))) as [->|Hq].
    + destruct (Hown n Hn) as [Hc Hnr]. exists i, (o <| rpc := pc |>). split_and!; simpl; [by apply list_lookup_insert_eq, (lookup_lt_Some _ _ _ Hi)| |done|done|].
      * unfold active. simpl. destruct pc; try done. by eapply Hnr.
      * intros sd Hin. destruct out as [rc|q|]; [by destruct (Hdrop rc eq_refl sd)|by destruct (proj1 (proj2 (proj2 Hout)) sd)|].
        split; [|unfold pc, after; by destruct (parks (who o))]. destruct (mv_ls _ _ _ _ _ _ Hmv _ _ Hin) as [Hin'|[_ ?]]; [|done].
        destruct (shape_lookup _ _ _ _ (inv_shape _ _ (ri_wq _ _ Hinv)) Hin') as [n0 Hn0]. by eapply (own_node S ls i o).
    + destruct (Hoth q Hq) as [Hc _]. rewrite Hn in Hc. destruct (nodes x !! q) as [n0|] eqn:Hn0; [|done].
      destruct (ri_owned _ _ Hinv q n0 Hn0) as (j & o' & Hj & Ha' & Hjq & Hcore & Hl). exists j, o'.
      assert (j ≠ i) by (intros ->; apply Hq; congruence). rewrite list_lookup_insert_ne by done. simpl in Hc. split_and!; try done; [congruence|].
      intros sd Hin. apply Hl. destruct (mv_ls _ _ _ _ _ _ Hmv _ _ Hin) as [?|[? _]]; done.
  - apply calls_ok_update; [apply Hinv|done|done|]. intros _ j o' Hj Hh. by destruct (Hfree j o' Hj).
  - intros j o' Hj. rewrite Hm'. destruct (insert_back _ _ _ _ _ _ Hi Hj) as [[-> ->]|[_ Hj']]; [exact (ri_mem _ _ Hinv i o Hi)|exact (ri_mem _ _ Hinv j o' Hj')].
  - intros j o' Hj. destruct (insert_back _ _ _ _ _ _ Hi Hj) as [[-> ->]|[Hne Hj']].
    + destruct out as [rc|q|]; unfold op_ok, pc, after; simpl.
      * destruct Hout as (_ & _ & ->). done.
      * destruct Hout as (_ & Hk' & _ & _ & Hq & Hqo & Hqs). split_and!; [by rewrite <- Hk|done|done|].
        destruct (shape_lookup _ _ _ _ (inv_shape _ _ (ri_wq _ _ Hinv)) Hq) as [n Hn].
        destruct (ri_owned _ _ Hinv _ _ Hn) as (j & o' & Hj' & Ha' & Hjq & _ & Hl). destruct (Hl _ Hq) as [Hd Hwt].
        assert (j ≠ i) by (intros ->; assert (o' = o) as -> by congruence; by destruct (dir o)). exists j, o'. rewrite list_lookup_insert_ne by done. done.
      * destruct Hout as (_ & Hk' & Hsome & Hst). assert (E : s1 = s') by (unfold s1, pc, after; by destruct (parks (who o))).
        rewrite E. destruct (parks (who o)); simpl; (split; [done|]); rewrite <- Hk; by split; intros; exfalso.
    + pose proof (ri_op _ _ Hinv j o' Hj') as Hok. change (w (rch S)) with x in Hok. pose proof (Hfree _ _ Hj') as Hnh. unfold op_ok in *.
      destruct (rpc o') as [| | | | |err|rc] eqn:Epc; try done.
      all: assert (Hnj : my_node (who o') ≠ my_node (who o)) by (apply (Hnode j); [done|unfold active; by rewrite Epc|done]).
      all: destruct (Hoth _ Hnj) as [Hc Hst].
      * destruct Hok as [Hn ?]. split; [|done]. by eapply core_absent.
      * destruct Hok as [Hn ?]. rewrite Hst. split; [|done]. by eapply core_present.
      * destruct Hok as [Hn ?]. rewrite Hst. split; [|done]. by eapply core_present.
      * destruct Hok as (? & Hn & ?). rewrite Hst. split; [done|]. split; [|done]. by eapply core_present.
  - eapply matches_ok_ops; [done| |apply Hinv]. intros j o' Hj. destruct (insert_same _ _ _ pc _ _ Hi Hj) as (o'' & ? & ? & ? & _). eauto.
  - intros j o' Hj Hh. rewrite Hmu1. destruct (insert_back _ _ _ _ _ _ Hi Hj) as [[-> ->]|[_ Hj']]; [|by destruct (Hfree _ _ Hj')].
    simpl in Hh. unfold pc, after in Hh. destruct out; [done|apply Hout|by destruct (parks (who o))].
Qed.

(** * The other steps *)

Lemma relock_inv s os ms ls i o err : rv_inv (RvState s os ms) ls → os !! i = Some o → waiting (rpc o) → err_ok (who o) err →
  rv_inv (RvState s (<[i := o <| rpc := PRelock err |>]> os) ms) ls.
Proof.
  intros Hinv Hi Hw He. eapply rv_inv_roused; [|done]. intros k. destruct (decide (k = i)) as [->|Hne].
  - rewrite Hi, list_lookup_insert_eq by (by eapply lookup_lt_Some). eauto.
  - rewrite list_lookup_insert_ne by done. apply roused_refl.
Qed.
(** Changing what the invariant does not mention. *)
Lemma swap_inv s s' os ms ls : rv_inv (RvState s os ms) ls → nodes (w s') = nodes (w s) → mem (w s') = mem (w s) → wq_inv (w s') ls →
  flags s' = flags s → (∀ i o, os !! i = Some o → holding (rpc o) → mu_held s' = true) → rv_inv (RvState s' os ms) ls.
Proof.
  intros [Hw Hd Hg Hc Ho Hcall Hm Hop Hma Hl] Hn Hmem Hw' Hf Hl'. simpl in *.
  assert (Hst : ∀ q, st (w s') q = st (w s) q) by (intros q; unfold st; by rewrite Hn).
  split; simpl; try done.
  - intros sd q Hq. rewrite Hst. by eapply Hd.
  - intros q. rewrite Hst. apply Hg.
  - by eapply codes_flags.
  - intros q n. rewrite Hn. apply Ho.
  - intros i o Hi. rewrite Hmem. by eapply Hm.
  - intros i o Hi. pose proof (Hop i o Hi) as Hok. unfold op_ok in *. rewrite Hn. destruct (rpc o); rewrite ?Hst; done.
  - destruct Hma as [H1 H2 H3]. split; try done. by rewrite Hmem.
Qed.
(** A call returns: its unlinked node disappears. *)
Lemma return_inv S ls i o rc : rv_inv S ls → rops S !! i = Some o → active o → (∀ sd, my_node (who o) ∉ ls sd) →
  (rc = 0 ↔ matched (matches S) i) → (∀ j o' q, rops S !! j = Some o' → rpc o' = PHand q → q ≠ my_node (who o) ∧ j ≠ i) →
  rv_inv (RvState (drop_frame (who o) (PRet rc) (rch S)) (<[i := o <| rpc := PRet rc |>]> (rops S)) (matches S)) ls.
Proof.
  intros Hinv Hi Ha Hp Hrc Hhand. destruct (ready_call _ _ _ _ Hinv Hi Ha) as [Ht _ _].
  destruct (dropped _ (dir o) _ _ (rch S) ls (PRet rc) (moved_refl _ _ _ _ Ht) ltac:(done)) as (Hi' & Hd' & Hg' & Hm' & Hoth & Hown).
  set (s1 := drop_frame (who o) (PRet rc) (rch S)) in *.
  assert (Hst : ∀ q, q ≠ my_node (who o) → st (w s1) q = st (w (rch S)) q) by (intros q Hq; unfold st, s1; simpl; by rewrite lookup_delete_ne).
  assert (Hlk : ∀ q, q ≠ my_node (who o) → nodes (w s1) !! q = nodes (w (rch S)) !! q) by (intros q Hq; unfold s1; simpl; by rewrite lookup_delete_ne).
  split; simpl; try done.
  - eapply codes_flags; [|apply Hinv]. done.
  - intros q n Hn. destruct (decide (q = my_node (who o))) as [->|Hq]; [destruct (Hown n Hn) as [_ Hno]; by destruct (Hno rc)|].
    rewrite Hlk in Hn by done. destruct (ri_owned _ _ Hinv q n Hn) as (j & o' & Hj & Ha' & Hjq & Hcore & Hl). exists j, o'.
    assert (j ≠ i) by (intros ->; apply Hq; congruence). by rewrite list_lookup_insert_ne.
  - apply calls_ok_update; [apply Hinv|done|done|done].
  - intros j o' Hj. destruct (insert_back _ _ _ _ _ _ Hi Hj) as [[-> ->]|[_ Hj']]; [exact (ri_mem _ _ Hinv i o Hi)|exact (ri_mem _ _ Hinv j o' Hj')].
  - intros j o' Hj. destruct (insert_back _ _ _ _ _ _ Hi Hj) as [[-> ->]|[Hne Hj']]; [done|].
    pose proof (ri_op _ _ Hinv j o' Hj') as Hok. unfold op_ok in *. destruct (rpc o') as [|q|q| | |err|] eqn:Epc; try done.
    2: { destruct (Hhand _ _ _ Hj' Epc) as [Hq _]. rewrite Hst by done. destruct Hok as (? & Hq0 & ? & k & ok & Hk & Hwt & Hkq & ?). split_and!; try done.
      exists k, ok. rewrite list_lookup_insert_ne; [done|]. intros ->. assert (ok = o) as -> by congruence. by apply Hq. }
    all: assert (Hnj : my_node (who o') ≠ my_node (who o))
      by (intros Heq; apply Hne; eapply (co_frame _ (ri_calls _ _ Hinv)); try done; unfold active; by rewrite Epc).
    all: by rewrite ?Hlk, ?Hst.
  - eapply matches_ok_ops; [done| |apply Hinv]. intros j o' Hj. destruct (insert_same _ _ _ (PRet rc) _ _ Hi Hj) as (o'' & ? & ? & ? & _). eauto.
  - intros j o' Hj Hh. destruct (insert_back _ _ _ _ _ _ Hi Hj) as [[-> ->]|[_ Hj']]; [done|]. by eapply (ri_lock _ _ Hinv).
Qed.
Lemma finish_inv S ls i o q rc s' : rv_inv S ls → rops S !! i = Some o → rpc o = PTail q →
  rv_finish (dir o) q (rch S) = Some (rc, s') →
  rv_inv (RvState (drop_frame (who o) (PRet rc) s') (<[i := o <| rpc := PRet rc |>]> (rops S)) (matches S)) ls.
Proof.
  intros Hinv Hi Hpc Hrun. assert (Ha : active o) by (unfold active; by rewrite Hpc). assert (Hh : holding (rpc o)) by by rewrite Hpc.
  pose proof (ri_lock _ _ Hinv i o Hi Hh) as Hmu.
  destruct (nodes (w (rch S)) !! q) as [n|] eqn:Hn; [|by rewrite (finish_faults _ _ _ Hn) in Hrun].
  pose proof (wp_unfold _ _ _ _ _ Hrun (finish_ends (dir o) q n _ ls Hmu (ri_wq _ _ Hinv) Hn)) as (-> & Hmu' & Hf & Hnn & Hmm & Hw').
  assert (Hfree : ∀ j o', rops S !! j = Some o' → holding (rpc o') → j = i) by (intros j o' Hj Hh'; by eapply (co_lock _ (ri_calls _ _ Hinv))).
  assert (Hinv1 : rv_inv (RvState (s' <| mu_held := true |>) (rops S) (matches S)) ls) by (destruct S; by eapply swap_inv).
  assert (Hun : ∀ sd, my_node (who o) ∉ ls sd).
  { intros sd Hin. destruct (shape_lookup _ _ _ _ (inv_shape _ _ (ri_wq _ _ Hinv)) Hin) as [n0 Hn0].
    destruct (own_node _ _ _ _ _ Hinv Hi Ha Hn0) as [_ Hl]. destruct (Hl sd Hin) as [_ Hwt]. by rewrite Hpc in Hwt. }
  pose proof (ri_op _ _ Hinv i o Hi) as Hok. unfold op_ok in Hok. rewrite Hpc in Hok.
  assert (Hret : rv_inv (RvState (drop_frame (who o) (PRet 0) (s' <| mu_held := true |>)) (<[i := o <| rpc := PRet 0 |>]> (rops S)) (matches S)) ls).
  { apply (return_inv _ _ i o 0 Hinv1 Hi Ha Hun); [done|]. simpl. intros j o' q' Hj Hq'. exfalso.
    assert (j = i) as -> by (eapply Hfree; [done|by rewrite Hq']). congruence. }
  eapply (swap_inv _ _ _ _ _ Hret); try done; [exact (ri_wq _ _ Hret)|].
  intros j o' Hj Hh'. destruct (insert_back _ _ _ _ _ _ Hi Hj) as [[-> ->]|[Hne Hj']]; [done|]. destruct Hne. by eapply Hfree.
Qed.

(** ** Publishing a value *)

Lemma publish_run sd c q x x' : rv_publish sd c q x = Some (tt, x') →
  ∃ n d v, nodes x !! q = Some n ∧ data n = Some d ∧ nodes x' = <[q := n <| notified := NOTIFY_DATA |>]> (nodes x) ∧
    x' = x <| mem := mem x' |> <| nodes := nodes x' |> ∧
    match sd with
    | SendQ => mem x !! my_value c = Some v ∧ mem x' = <[d := v]> (mem x)
    | RecvQ => mem x !! d = Some v ∧ mem x' = <[my_value c := v]> (mem x)
    end.
Proof.
  unfold rv_publish, load, load_mem, write_data, read_data, store, modify, fault, mbind, M_bind.
  destruct (nodes x !! q) as [n|] eqn:Hn; [|done]. destruct sd.
  - destruct (mem x !! my_value c) as [v|] eqn:Hv; [|done]. destruct (data n) as [d|] eqn:Hd; [|done]. simpl. rewrite Hn.
    intros [= <-]. exists n, d, v. by split_and!.
  - destruct (data n) as [d|] eqn:Hd; [|done]. destruct (mem x !! d) as [v|] eqn:Hv; [|done]. simpl. rewrite Hn.
    intros [= <-]. exists n, d, v. by split_and!.
Qed.
Lemma matched_snoc ms sd i j v k : matched (ms ++ [pair_of sd i j v]) k ↔ matched ms k ∨ k = i ∨ k = j.
Proof. unfold matched, senders, receivers. rewrite !fmap_app, !elem_of_app. simpl. rewrite !list_elem_of_singleton. destruct sd; simpl; tauto. Qed.
Lemma matched_call S ls i : rv_inv S ls → matched (matches S) i → is_Some (rops S !! i).
Proof.
  intros Hinv [Hin|Hin]; apply list_elem_of_fmap in Hin as ([[a b] v] & -> & Hin); destruct (mo_values _ _ _ (ri_matches _ _ Hinv) _ _ _ Hin) as (o & o' & ? & _ & ? & _); simpl; eauto.
Qed.
(** What a publication changed: the partner's notification, and the buffer of the
    receiver, one of the two calls. *)
Record published S ls i o q x' j o' v : Prop := {
  pb_op : rops S !! i = Some o;
  pb_pc : rpc o = PHand q;
  pb_partner : rops S !! j = Some o';
  pb_waiting : waiting (rpc o');
  pb_node : my_node (who o') = q;
  pb_dir : dir o' = other (dir o);
  pb_ne : i ≠ j;
  pb_fresh : ¬ matched (matches S) i ∧ ¬ matched (matches S) j;
  pb_unlinked sd : q ∉ ls sd;
  pb_nodes : ∃ n, nodes (w (rch S)) !! q = Some n ∧ nodes x' = <[q := n <| notified := NOTIFY_DATA |>]> (nodes (w (rch S)));
  pb_rest : x' = (w (rch S)) <| mem := mem x' |> <| nodes := nodes x' |>;
  pb_mem : ∃ r or, (r = i ∧ or = o ∨ r = j ∧ or = o') ∧ mem x' = <[my_value (who or) := v]> (mem (w (rch S)));
  pb_values : mem x' !! my_value (who o) = Some v ∧ mem x' !! my_value (who o') = Some v }.
Lemma waiting_active o : waiting (rpc o) → active o.
Proof. unfold active. by destruct (rpc o). Qed.
Lemma publish_facts S ls i o q x' j o' v :
  rv_inv S ls → rops S !! i = Some o → rpc o = PHand q → rv_publish (dir o) (who o) q (w (rch S)) = Some (tt, x') →
  rops S !! j = Some o' → active o' → my_node (who o') = q → mem x' !! my_value (who o) = Some v → published S ls i o q x' j o' v.
Proof.
  intros Hinv Hi Hpc Hrun Hj Ha' Hjq Hv.
  pose proof (ri_op _ _ Hinv i o Hi) as Hok. unfold op_ok in Hok. rewrite Hpc in Hok. destruct Hok as (Hni & Hq & Hql & k & ok & Hk & Hwt & Hkq & Hdk).
  assert (k = j) as -> by (eapply (co_frame _ (ri_calls _ _ Hinv)); try done; [by apply waiting_active|congruence]).
  assert (ok = o') as -> by congruence.
  assert (Hij : i ≠ j) by (intros ->; assert (o' = o) as -> by congruence; by destruct (dir o)).
  assert (Hnj : ¬ matched (matches S) j).
  { pose proof (ri_op _ _ Hinv j o' Hj) as Hokj. unfold op_ok in Hokj. rewrite Hjq in Hokj.
    intros Hmj. destruct (rpc o'); try done; [destruct Hokj as [_ [_ Hd]]|destruct Hokj as [_ [_ Hd]]|destruct Hokj as (_ & _ & _ & Hd)];
      specialize (Hd Hmj); congruence. }
  destruct (publish_run _ _ _ _ _ Hrun) as (n & d & v0 & Hn & Hd & Hnodes & Hx' & Hmem).
  assert (d = my_value (who o')) as ->.
  { rewrite <- Hjq in Hn. destruct (own_node _ _ _ _ _ Hinv Hj Ha' Hn) as [Hc _]. unfold core, new_node in Hc. simpl in Hc. congruence. }
  assert (Hvals : my_value (who o) ≠ my_value (who o')) by (intros Heq; apply Hij; by eapply (co_value _ (ri_calls _ _ Hinv))).
  split; try done; [by exists n|..].
  - destruct (dir o); destruct Hmem as [Hv0 Hm']; [exists j, o'|exists i, o]; (split; [auto|]); rewrite Hm' in Hv |- *; do 2 f_equal.
    + rewrite lookup_insert_ne in Hv by done. congruence.
    + rewrite lookup_insert_eq in Hv. congruence.
  - split; [done|]. destruct (dir o); destruct Hmem as [Hv0 Hm']; rewrite Hm' in Hv |- *.
    + rewrite lookup_insert_eq. rewrite lookup_insert_ne in Hv by done. congruence.
    + rewrite lookup_insert_ne by done. rewrite lookup_insert_eq in Hv. congruence.
Qed.

Section publish.
Context S ls i o q x' j o' v (Hinv : rv_inv S ls) (Hp : published S ls i o q x' j o' v).

Lemma pb_lookup p : p ≠ q → nodes x' !! p = nodes (w (rch S)) !! p.
Proof using Hp. intros Hne. destruct (pb_nodes _ _ _ _ _ _ _ _ _ Hp) as (n & _ & ->). by rewrite lookup_insert_ne. Qed.
Lemma pb_st p : p ≠ q → st x' p = st (w (rch S)) p.
Proof using Hp. intros Hne. unfold st. by rewrite pb_lookup. Qed.
Lemma pb_delivered : is_Some (nodes x' !! q) ∧ st x' q = Some NOTIFY_DATA.
Proof using Hp. destruct (pb_nodes _ _ _ _ _ _ _ _ _ Hp) as (n & _ & E). unfold st. rewrite E, lookup_insert_eq. by split; [eexists|]. Qed.
Lemma pb_lists : wq_inv x' ls.
Proof using All.
  destruct (pb_nodes _ _ _ _ _ _ _ _ _ Hp) as (n & Hn & Hnodes).
  pose proof (unlinked_store_inv ((w (rch S)) <| mem := mem x' |>) ls q n NOTIFY_DATA (mem_inv _ _ _ (ri_wq _ _ Hinv)) (pb_unlinked _ _ _ _ _ _ _ _ _ Hp) Hn) as Hw.
  simpl in Hw. rewrite <- Hnodes in Hw. by rewrite <- (pb_rest _ _ _ _ _ _ _ _ _ Hp) in Hw.
Qed.
Lemma pb_owned p m : nodes x' !! p = Some m → owned ls (<[i := o <| rpc := PTail q |>]> (rops S)) p m.
Proof using All.
  pose proof (pb_op _ _ _ _ _ _ _ _ _ Hp) as Hi. pose proof (pb_pc _ _ _ _ _ _ _ _ _ Hp) as Hpc.
  intros Hm. assert (∃ m0, nodes (w (rch S)) !! p = Some m0 ∧ core m = core m0) as (m0 & Hm0 & Hc).
  { destruct (decide (p = q)) as [->|]; [|exists m; by rewrite <- pb_lookup]. destruct (pb_nodes _ _ _ _ _ _ _ _ _ Hp) as (n & Hn & Hnodes).
    rewrite Hnodes, lookup_insert_eq in Hm. exists n. by simplify_eq. }
  destruct (ri_owned _ _ Hinv p m0 Hm0) as (k & ok & Hk' & Hak & Hkp & Hck & Hl).
  destruct (insert_same _ _ _ (PTail q) _ _ Hi Hk') as (ok' & Hk2 & Hd2 & Hw2 & Hsame). exists k, ok'. rewrite Hw2, Hd2.
  destruct (decide (k = i)) as [->|Hki].
  - assert (ok = o) as -> by congruence. rewrite list_lookup_insert_eq in Hk2 by (by eapply lookup_lt_Some). injection Hk2 as <-.
    split_and!; try done; [by apply list_lookup_insert_eq, (lookup_lt_Some _ _ _ Hi)|congruence|].
    intros sd Hin. destruct (Hl sd Hin) as [_ Hw]. by rewrite Hpc in Hw.
  - rewrite (Hsame Hki) in *. split_and!; try done. congruence.
Qed.
Lemma pb_ops k ok : <[i := o <| rpc := PTail q |>]> (rops S) !! k = Some ok →
  op_ok x' ls (<[i := o <| rpc := PTail q |>]> (rops S)) (matches S ++ [pair_of (dir o) i j v]) k ok.
Proof using All.
  pose proof (pb_op _ _ _ _ _ _ _ _ _ Hp) as Hi. pose proof (pb_pc _ _ _ _ _ _ _ _ _ Hp) as Hpc. pose proof (pb_partner _ _ _ _ _ _ _ _ _ Hp) as Hj.
  pose proof (pb_waiting _ _ _ _ _ _ _ _ _ Hp) as Hwt. pose proof (pb_node _ _ _ _ _ _ _ _ _ Hp) as Hjq. destruct pb_delivered as [Hsome Hstq].
  intros Hk'. destruct (insert_back _ _ _ _ _ _ Hi Hk') as [[-> ->]|[Hki Hk2]]; [unfold op_ok; simpl; rewrite matched_snoc; auto|].
  pose proof (ri_op _ _ Hinv k ok Hk2) as Hokk. unfold op_ok in *. destruct (decide (k = j)) as [->|Hkj].
  - assert (ok = o') as -> by congruence. assert (Hmj : matched (matches S ++ [pair_of (dir o) i j v]) j) by (rewrite matched_snoc; auto).
    destruct (rpc o'); try done; rewrite Hjq, Hstq; [done|done|]. by destruct Hokk as [? _].
  - assert (Hmk : matched (matches S ++ [pair_of (dir o) i j v]) k ↔ matched (matches S) k) by (rewrite matched_snoc; tauto).
    destruct (rpc ok) as [|q'|q'| | |err|] eqn:Epc; try (by rewrite Hmk).
    2: { destruct Hki. eapply (co_lock _ (ri_calls _ _ Hinv)); try done; [by rewrite Epc|by rewrite Hpc]. }
    all: assert (Hnk : my_node (who ok) ≠ q) by (rewrite <- Hjq; intros Heq; apply Hkj; eapply (co_frame _ (ri_calls _ _ Hinv)); try done;
      [unfold active; by rewrite Epc|by apply waiting_active]).
    all: rewrite ?Hmk; by rewrite ?pb_lookup, ?pb_st.
Qed.
Lemma pb_once : NoDup (senders (matches S ++ [pair_of (dir o) i j v])) ∧ NoDup (receivers (matches S ++ [pair_of (dir o) i j v])).
Proof using All.
  destruct (pb_fresh _ _ _ _ _ _ _ _ _ Hp) as [Hni Hnj]. destruct (ri_matches _ _ Hinv) as [M1 M2 _]. unfold senders, receivers.
  split; rewrite fmap_app; apply NoDup_app; (split_and!; [done| |apply NoDup_singleton]);
    intros k Hk' Hs; simpl in Hs; apply list_elem_of_singleton in Hs; subst k; destruct (dir o); simpl in *.
  - by apply Hni; left.
  - by apply Hnj; left.
  - by apply Hnj; right.
  - by apply Hni; right.
Qed.
Lemma pb_matches : matches_ok x' (<[i := o <| rpc := PTail q |>]> (rops S)) (matches S ++ [pair_of (dir o) i j v]).
Proof using All.
  pose proof (pb_op _ _ _ _ _ _ _ _ _ Hp) as Hi. pose proof (pb_partner _ _ _ _ _ _ _ _ _ Hp) as Hj.
  destruct pb_once as [N1 N2]. split; [done|done|]. destruct (ri_matches _ _ Hinv) as [_ _ M3].
  destruct (pb_mem _ _ _ _ _ _ _ _ _ Hp) as (r & or & Hr & Hm'). destruct (pb_fresh _ _ _ _ _ _ _ _ _ Hp) as [Hni Hnj].
  assert (Hnr : ¬ matched (matches S) r ∧ rops S !! r = Some or) by (destruct Hr as [[-> ->]|[-> ->]]; done).
  intros a b u [Hin|Heq%list_elem_of_singleton]%elem_of_app.
  - destruct (M3 a b u Hin) as (oa & ob & Hoa & Hda & Hob & Hdb & Hva & Hvb).
    assert (Hne : ∀ k ok, matched (matches S) k → rops S !! k = Some ok → my_value (who or) ≠ my_value (who ok)).
    { intros k ok Hmk Hok Heq. apply Hnr. assert (r = k) as ->; [|done]. eapply (co_value _ (ri_calls _ _ Hinv)); [apply Hnr|done|done]. }
    assert (matched (matches S) a ∧ matched (matches S) b) as [Hma Hmb].
    { split; [left|right]; apply list_elem_of_fmap; by exists (a, b, u). }
    destruct (insert_same _ _ _ (PTail q) _ _ Hi Hoa) as (oa' & ? & ? & Hwa & _), (insert_same _ _ _ (PTail q) _ _ Hi Hob) as (ob' & ? & ? & Hwb & _).
    exists oa', ob'. rewrite Hwa, Hwb, Hm', !lookup_insert_ne by eauto. split_and!; try done; congruence.
  - destruct (insert_same _ _ _ (PTail q) _ _ Hi Hi) as (oi' & Hoi & Hdi & Hwi & _), (insert_same _ _ _ (PTail q) _ _ Hi Hj) as (oj' & Hoj & Hdj & Hwj & _).
    rewrite (pb_dir _ _ _ _ _ _ _ _ _ Hp) in Hdj. destruct (pb_values _ _ _ _ _ _ _ _ _ Hp).
    destruct (dir o); simpl in *; simplify_eq; [exists oi', oj'|exists oj', oi']; rewrite Hwi, Hwj; by split_and!.
Qed.
Lemma publish_inv : rv_inv (RvState ((rch S) <| w := x' |>) (<[i := o <| rpc := PTail q |>]> (rops S)) (matches S ++ [pair_of (dir o) i j v])) ls.
Proof using All.
  pose proof (pb_op _ _ _ _ _ _ _ _ _ Hp) as Hi. pose proof (pb_pc _ _ _ _ _ _ _ _ _ Hp) as Hpc. pose proof (pb_unlinked _ _ _ _ _ _ _ _ _ Hp) as Hql.
  assert (Ha : active o) by (unfold active; by rewrite Hpc). assert (Hh : holding (rpc o)) by by rewrite Hpc.
  split; simpl.
  - apply pb_lists.
  - intros sd p Hin. assert (p ≠ q) by (intros ->; by apply (Hql sd)). rewrite pb_st by done. by eapply (ri_data _ _ Hinv).
  - intros p. destruct (decide (p = q)) as [->|]; [by rewrite (proj2 pb_delivered)|]. rewrite pb_st by done. apply (ri_signal _ _ Hinv).
  - apply (ri_codes _ _ Hinv).
  - apply pb_owned.
  - apply calls_ok_update; [apply Hinv|done|done|]. intros _ k ok Hk' Hhk. by eapply (co_lock _ (ri_calls _ _ Hinv)).
  - intros k ok Hk'. destruct (pb_mem _ _ _ _ _ _ _ _ _ Hp) as (r & or & _ & ->). assert (is_Some (mem (w (rch S)) !! my_value (who ok))) as [u Hu].
    { destruct (insert_back _ _ _ _ _ _ Hi Hk') as [[-> ->]|[_ Hk2]]; [exact (ri_mem _ _ Hinv i o Hi)|exact (ri_mem _ _ Hinv k ok Hk2)]. }
    destruct (decide (my_value (who or) = my_value (who ok))) as [->|]; [rewrite lookup_insert_eq; eauto|rewrite lookup_insert_ne by done; eauto].
  - apply pb_ops.
  - apply pb_matches.
  - intros k ok Hk' Hhk. exact (ri_lock _ _ Hinv i o Hi Hh).
Qed.
End publish.

(** ** Calling and closing *)

Lemma snoc_back os o0 j o : (os ++ [o0]) !! j = Some o → os !! j = Some o ∨ j = length os ∧ o = o0.
Proof.
  destruct (decide (j < length os)%nat); [rewrite lookup_app_l by done; auto|]. rewrite lookup_app_r by lia.
  intros Hj. right. destruct (j - length os)%nat eqn:E; [|done]. simplify_eq/=. split; [lia|done].
Qed.
Lemma snoc_fwd os o0 j o : os !! j = Some o → (os ++ [o0]) !! j = Some o.
Proof. apply lookup_app_l_Some. Qed.
Lemma call_inv S ls sd c : rv_inv S ls → callable S c → rv_inv (S <| rops := rops S ++ [RvOp sd c PEnter] |>) ls.
Proof.
  intros Hinv (Hv & Hn & Hall). rewrite Forall_forall in Hall. set (o0 := RvOp sd c PEnter).
  assert (Hnew : ∀ j o, rops S !! j = Some o → my_value (who o) ≠ my_value c ∧
    (active o → my_node (who o) ≠ my_node c ∧ (in_fiber c ≠ None → in_fiber (who o) ≠ in_fiber c))).
  { intros j o Hj. apply Hall. by eapply list_elem_of_lookup_2. }
  assert (Hnm : ¬ matched (matches S) (length (rops S))).
  { intros Hm. destruct (matched_call _ _ _ Hinv Hm) as [o Ho]. apply lookup_lt_Some in Ho. lia. }
  destruct Hinv as [Hw Hd Hg Hc Ho [C1 C2 C3 C4] Hm Hop Hma Hl]. split; simpl; try done.
  - intros q n Hq. destruct (Ho q n Hq) as (j & o & Hj & ?). exists j, o. split; [by apply snoc_fwd|done].
  - split; intros a b oa ob.
    + intros [Ha|[-> ->]]%snoc_back [Hb|[-> ->]]%snoc_back Aa Ab He; [by eapply C1| | |done].
      * by destruct (proj2 (Hnew _ _ Ha) Aa) as [[] _].
      * by destruct (proj2 (Hnew _ _ Hb) Ab) as [[] _].
    + intros f [Ha|[-> ->]]%snoc_back [Hb|[-> ->]]%snoc_back Aa Ab Hf Hf'; [by eapply C2| | |done]; simpl in *.
      * destruct (proj2 (Hnew _ _ Ha) Aa) as [_ Hx]. destruct Hx; congruence.
      * destruct (proj2 (Hnew _ _ Hb) Ab) as [_ Hx]. destruct Hx; congruence.
    + intros [Ha|[-> ->]]%snoc_back [Hb|[-> ->]]%snoc_back He; [by eapply C3| | |done].
      * by destruct (Hnew _ _ Ha) as [[] _].
      * by destruct (Hnew _ _ Hb) as [[] _].
    + intros [Ha|[-> ->]]%snoc_back [Hb|[-> ->]]%snoc_back Aa Ab; [by eapply C4|done..].
  - intros j o [Hj|[-> ->]]%snoc_back; [by eapply Hm|done].
  - intros j o [Hj|[-> ->]]%snoc_back; [|done]. pose proof (Hop _ _ Hj) as Hok. unfold op_ok in *. destruct (rpc o); try done.
    destruct Hok as (? & ? & ? & k & ok & Hk & ?). split_and!; try done. exists k, ok. split; [by apply snoc_fwd|done].
  - eapply matches_ok_ops; [done| |done]. intros j o Hj. exists o. split; [by apply snoc_fwd|done].
  - intros j o [Hj|[-> ->]]%snoc_back; [by eapply Hl|done].
Qed.

Definition close_args (op : close_op) : bool * bool * Z * Z * option io_error :=
  match op with
  | CloseTx err => (true, false, err, 0, None)
  | CloseRx err => (false, true, 0, err, None)
  | CloseWith e => let c := if decide (os_code e = 0) then ECANCELED else os_code e in (true, true, c, c, Some e)
  end.
Lemma close_common_still tx rx te re io s ls : idle s ls → data_unlinked (w s) ls →
  wp (cc__chan_close_common tx rx te re io) (λ _ s', still (w s) (w s') ∧ ∃ ls', wq_inv (w s') ls' ∧ shrinks ls ls') s.
Proof.
  intros [Hm Hi] Hd. unfold cc__chan_close_common, upd. wp_step. wp_step. wp_step. apply wp_lock; [done|].
  apply wp_bind_assoc. set (s1 := _ <| mu_held := true |>).
  wp_step. eapply wp_mono; [apply close_marks_spec|]. cbv beta. intros [] s2 (_ & _ & Hw2 & Hm2).
  assert (Hi2 : wq_inv (w s2) ls) by (rewrite Hw2; by apply set_fast_path_inv).
  assert (Hs2 : still (w s) (w s2)) by (rewrite Hw2; apply still_kept; by apply calm_same).
  assert (Hgo : ∀ x, quiet (w s2) x → wp ((if tx then liftw cc__chan_wake_all_waiters else liftw drain_send_waiters_close);;
      cc_chan_unlock;; liftw wake_batch_flush;; liftw cc__chan_signal_recv_ready)
      (λ _ s', still (w s) (w s') ∧ ∃ ls', wq_inv (w s') ls' ∧ shrinks ls ls') (s2 <| w := x |>)).
  { intros x Hq. assert (Hsx : still (w s) x) by (etrans; [done|]; by apply still_kept, calm_quiet).
    assert (Hdx : data_unlinked x ls) by (eapply data_unlinked_mono; [done| |done]; by intros ? ?).
    wp_step. replace (if tx then liftw cc__chan_wake_all_waiters else liftw drain_send_waiters_close)
      with (liftw (if tx then cc__chan_wake_all_waiters else drain_send_waiters_close)) by by destruct tx.
    apply wp_liftw. simpl. eapply wp_mono; [apply (close_still tx x ls); [by eapply quiet_inv|done]|]. cbv beta.
    intros [] x2 (Hs & ls' & Hi' & Hsh). wp_step. apply wp_unlock; [simpl; by rewrite Hm2|]. simpl.
    wp_step. apply wp_liftw. simpl. eapply wp_mono; [apply wake_batch_flush_spec, Hi'|]. cbv beta. intros [] x3 (Q3 & _).
    apply wp_liftw. simpl. eapply wp_mono; [apply signal_recv_ready_spec|]. cbv beta. intros [] x4 [Q4 _]. simpl in *.
    split; [|exists ls'; split; [eapply quiet_inv; [done|]; by eapply quiet_inv|done]].
    etrans; [exact Hsx|]. etrans; [exact Hs|]. etrans; apply still_kept, calm_quiet; done. }
  apply wp_bind_assoc. unfold cond_broadcast, emit. destruct tx; unfold when.
  - wp_step. wp_step. apply wp_liftw. wp_step. apply wp_liftw. wp_step. apply Hgo. simpl.
    etrans; apply emit_quiet.
  - wp_step. wp_step. wp_step. apply wp_liftw. wp_step. apply Hgo. apply emit_quiet.
Qed.
Lemma close_locked op s : mu_held s = true → run_close op s = None.
Proof.
  intros Hm. destruct op; unfold run_close, cc_chan_close_err, cc_chan_rx_close_err, cc_chan_close_with, cc__chan_close_common, cc_chan_lock, upd, gets, modify, fault, mbind, M_bind;
    simpl; by rewrite Hm.
Qed.
Lemma close_inv S ls op s' : rv_inv S ls → run_close op (rch S) = Some (tt, s') → codes_ok s' →
  ∃ ls', rv_inv (RvState s' (rops S) (matches S)) ls'.
Proof.
  intros Hinv Hrun Hnz. destruct (mu_held (rch S)) eqn:Hmu; [by rewrite close_locked in Hrun|].
  assert (Hidle : idle (rch S) ls) by (split; [done|apply Hinv]).
  assert (∃ tx rx te re io, cc__chan_close_common tx rx te re io (rch S) = Some (tt, s')) as (tx & rx & te & re & io & Hc).
  { destruct op as [err|err|e]; simpl in Hrun; unfold cc_chan_close_err, cc_chan_rx_close_err, cc_chan_close_with in Hrun; do 5 eexists; exact Hrun. }
  pose proof (wp_unfold _ _ _ _ _ Hc (close_common_still tx rx te re io _ _ Hidle (ri_data _ _ Hinv))) as (Hs & ls' & Hi' & Hsh).
  pose proof (wp_unfold _ _ _ _ _ Hc (close_common_spec tx rx te re io _ _ Hidle)) as (_ & _ & [Hmu' _] & _).
  assert (Hfree : ∀ j o', rops S !! j = Some o' → ¬ holding (rpc o')) by (intros j o' Hj Hh; pose proof (ri_lock _ _ Hinv j o' Hj Hh); congruence).
  exists ls'. split; simpl; try done.
  - eapply data_unlinked_mono; [done|done|apply Hinv].
  - intros q Hq. by eapply (ri_signal _ _ Hinv), (sl_signal _ _ Hs).
  - intros q n Hn. pose proof (sl_core _ _ Hs q) as Hcq. rewrite Hn in Hcq. destruct (nodes (w (rch S)) !! q) as [n0|] eqn:Hn0; [|done].
    destruct (ri_owned _ _ Hinv q n0 Hn0) as (j & o & Hj & Ha & Hjq & Hcore & Hl). exists j, o. simpl in Hcq. split_and!; try done; [congruence|]. eauto.
  - apply Hinv.
  - intros j o Hj. rewrite (sl_mem _ _ Hs). by eapply (ri_mem _ _ Hinv).
  - intros j o Hj. pose proof (ri_op _ _ Hinv j o Hj) as Hok. pose proof (Hfree _ _ Hj) as Hnh. unfold op_ok in *.
    pose proof (sl_core _ _ Hs (my_node (who o))) as Hcq.
    destruct (rpc o); try done; rewrite ?(sl_data _ _ Hs).
    + destruct Hok. split; [by eapply core_absent|done].
    + destruct Hok. split; [by eapply core_present|done].
    + destruct Hok. split; [by eapply core_present|done].
    + destruct Hok as (? & ? & ?). split_and!; [done|by eapply core_present|done..].
  - eapply matches_ok_ops; [apply Hs|eauto|apply Hinv].
  - intros j o Hj Hh. by destruct (Hfree j o Hj).
Qed.

(** * Every step *)

Lemma rv_step_inv env size fuel a S S' ls :
  rv_inv S ls → rv_step env size (Datatypes.S fuel) a S S' → codes_ok (rch S') → ∃ ls', rv_inv S' ls'.
Proof.
  intros Hinv Hst Hnz. destruct Hst as [S sd c Hcall|S i o out s' evs os Hi Hpc Hrun _ Hdel|S i o err out s' evs os Hi Hpc Hrun _ Hdel
    |S i o q x j o' v Hi Hpc Hrun Hj Ha' Hjq Hv|S i o q rc s' evs os Hi Hpc Hrun _ Hdel|S i o n Hi Hpc Hn Hno|S i o n Hi Hpc Hn Hno Hno'
    |S i o n Hi Hpc Hn Hno|S i o err Hi Hpc Herr|S op s' evs os Hrun _ Hdel].
  - exists ls. by apply call_inv.
  - destruct (mu_held (rch S)) eqn:Hmu.
    { unfold rv_enter, cc_chan_lock, gets, fault, mbind, M_bind in Hrun. simpl in Hrun. by rewrite Hmu in Hrun. }
    assert (Ha : active o) by (unfold active; by rewrite Hpc). pose proof (ri_op _ _ Hinv i o Hi) as Hok. unfold op_ok in Hok. rewrite Hpc in Hok.
    pose proof (wp_unfold _ _ _ _ _ Hrun (rv_enter_ends env size fuel (dir o) (who o) _ ls Hmu (ready_call _ _ _ _ Hinv Hi Ha) (ri_codes _ _ Hinv) (proj1 Hok))) as [He Hf].
    assert (Hk : None = Some NOTIFY_DATA ↔ matched (matches S) i) by (split; [done|by intros ?%(proj2 Hok)]).
    destruct (section_inv _ _ _ _ _ _ _ Hinv Hi Ha Hmu Hk He Hf) as [ls' Hinv']. exists ls'.
    eapply rv_inv_roused; [by eapply deliver_roused|done].
  - destruct (mu_held (rch S)) eqn:Hmu.
    { unfold rv_resume, cc_chan_lock, gets, fault, mbind, M_bind in Hrun. simpl in Hrun. by rewrite Hmu in Hrun. }
    assert (Ha : active o) by (unfold active; by rewrite Hpc). pose proof (ri_op _ _ Hinv i o Hi) as Hok. unfold op_ok in Hok. rewrite Hpc in Hok.
    destruct Hok as (Herr & [n Hn] & Hd).
    pose proof (wp_unfold _ _ _ _ _ Hrun (rv_resume_ends fuel (dir o) (who o) err _ ls n Hmu (ready_call _ _ _ _ Hinv Hi Ha) (ri_codes _ _ Hinv) Hn Herr)) as [He Hf].
    destruct (section_inv _ _ _ _ _ _ _ Hinv Hi Ha Hmu Hd He Hf) as [ls' Hinv']. exists ls'.
    eapply rv_inv_roused; [by eapply deliver_roused|done].
  - exists ls. eapply publish_inv; [done|]. by eapply publish_facts.
  - exists ls. eapply rv_inv_roused; [by eapply deliver_roused|by eapply finish_inv].
  - exists ls. assert (Ha : active o) by (unfold active; by rewrite Hpc). pose proof (ri_op _ _ Hinv i o Hi) as Hok. unfold op_ok in Hok. rewrite Hpc in Hok.
    assert (Hsd : st (w (rch S)) (my_node (who o)) = Some NOTIFY_DATA) by (rewrite (st_lookup _ _ _ Hn); congruence).
    apply return_inv; [done|done|done| | |].
    + intros sd Hin. by apply (ri_data _ _ Hinv sd (my_node (who o))).
    + split; [|done]. intros _. by apply Hok.
    + intros j o' q Hj Hq. pose proof (ri_op _ _ Hinv j o' Hj) as Hok'. unfold op_ok in Hok'. rewrite Hq in Hok'. destruct Hok' as (_ & Hqs & _).
      split; [intros ->; congruence|]. intros ->. congruence.
  - exists ls. destruct S as [s os ms]. eapply relock_inv; [done|done|by rewrite Hpc|by left].
  - exists ls. destruct S as [s os ms]. eapply relock_inv; [done|done|by rewrite Hpc|by left].
  - exists ls. destruct S as [s os ms]. eapply relock_inv; [done|done|by rewrite Hpc|done].
  - destruct (close_inv _ _ _ _ Hinv Hrun Hnz) as [ls' Hinv']. exists ls'. eapply rv_inv_roused; [by eapply deliver_roused|done].
Qed.
End inv.
