(* ===== verification/ChanRvProps.v ===== *)
(** Rendezvous: every value is handed over exactly once, sections return, and two
    ways in which the handoff goes wrong. *)
From S2P Require Import Prelude ChanTypes WaitList WaitShape WaitQuiet WaitInv WaitOps WaitPop WaitWake WaitSteps Bytes Ring Chan ChanSpec ChanClose ChanHandoff ChanProps ChanRv ChanRvFrame ChanRvSpec ChanRvInv.

Local Open Scope Z_scope.

Section props.
Context `{!LfdsQueue}.

(** A new unbuffered channel, with the program's buffers and fibers. *)
Definition rv_new (env : chan_env) (sc se : Z) (m : chan_mode) (take sync : bool) (tp : topology)
    (buffers : gmap ptr (list Z)) (tks : gmap ptr Z) : option rv_state :=
  s ← cc_chan_create_internal env sc se (init_wstate <| mem := buffers |> <| tickets := tks |>) 0 m take sync tp;
  Some (RvState s [] []).
(** Runs in which the receiving side is not closed with error code 0. *)
Definition rv_reach (env : chan_env) (size fuel : nat) : relation rv_state := rtc (coded rch (λ S S', ∃ a, rv_step env size fuel a S S')).

Lemma rv_new_inv env sc se m take sync tp bs tks S : rv_new env sc se m take sync tp bs tks = Some S → rv_inv S (λ _, []).
Proof.
  unfold rv_new, cc_chan_create_internal. destruct (env_malloc env sc); simpl; [|done]. intros [= <-].
  pose proof init_inv as Hi. split; simpl; try done.
  - destruct Hi as [Hsh Hc Hf Hh Hs]. split; try done. apply (shape_unlinked init_wstate); simpl; try done; try apply Hsh.
  - split; try apply NoDup_nil_2. intros i j v Hin. set_solver.
Qed.
Lemma rv_reach_inv env size fuel S S' ls : rv_inv S ls → rv_reach env size (Datatypes.S fuel) S S' → ∃ ls', rv_inv S' ls'.
Proof. intros Hinv Hr. revert ls Hinv. induction Hr as [|S1 S2 S3 [[a Hs] Hnz] _ IH]; intros ls Hinv; [eauto|]. destruct (rv_step_inv _ _ _ _ _ _ _ Hinv Hs Hnz) as [l' ?]. eauto. Qed.
Lemma matched_side S ls i o : rv_inv S ls → rops S !! i = Some o →
  matched (matches S) i ↔ i ∈ match dir o with SendQ => senders (matches S) | RecvQ => receivers (matches S) end.
Proof.
  intros Hinv Hi. split; [|unfold matched; destruct (dir o); auto].
  intros [Hin|Hin]; pose proof Hin as Hin'; apply list_elem_of_fmap in Hin' as ([[a b] v] & -> & Hm); simpl in *;
    destruct (mo_values _ _ _ (ri_matches _ _ Hinv) _ _ _ Hm) as (oa & ob & Ha & Hda & Hb & Hdb & _).
  - assert (oa = o) as -> by congruence. by rewrite Hda.
  - assert (ob = o) as -> by congruence. by rewrite Hdb.
Qed.

(** C5: Values are handed over exactly once.  Take a new unbuffered channel and any
    interleaving of blocking sends and receives, by fibers and by threads, with
    and without deadlines, of timeouts, spurious wake-ups and closes, in which
    the receiving side is never closed with error code 0 (a send then returns
    that 0 without a handoff).  Then no call
    takes part in two handoffs; a call that has returned has taken part in one
    exactly when it returned 0; and in each handoff the receiver's buffer holds
    the sender's value. *)
Theorem rendezvous_exactly_once env size fuel sc se m take sync tp bs tks S0 S :
  rv_new env sc se m take sync tp bs tks = Some S0 → rv_reach env size (Datatypes.S fuel) S0 S →
  NoDup (senders (matches S)) ∧ NoDup (receivers (matches S)) ∧
  (∀ i o rc, rops S !! i = Some o → rpc o = PRet rc →
     rc = 0 ↔ i ∈ match dir o with SendQ => senders (matches S) | RecvQ => receivers (matches S) end) ∧
  (∀ i j v, (i, j, v) ∈ matches S → ∃ o o', rops S !! i = Some o ∧ dir o = SendQ ∧ rops S !! j = Some o' ∧ dir o' = RecvQ ∧
     mem (w (rch S)) !! my_value (who o) = Some v ∧ mem (w (rch S)) !! my_value (who o') = Some v).
Proof.
  intros Hn Hr. destruct (rv_reach_inv _ _ _ _ _ _ (rv_new_inv _ _ _ _ _ _ _ _ _ _ Hn) Hr) as [ls Hinv].
  split_and!; [apply Hinv|apply Hinv| |apply Hinv].
  intros i o rc Hi Hpc. rewrite <- (matched_side _ _ _ _ Hinv Hi). pose proof (ri_op _ _ Hinv i o Hi) as Hok. unfold op_ok in Hok. by rewrite Hpc in Hok.
Qed.

(** C26: Critical sections return, up to the publication of a handoff: in a state
    reached without closing the receiving side with error code 0, and with timed
    waits that end with success or ETIMEDOUT, a call that can lock runs its
    section to the end (one turn of the outer loop is enough fuel), and a call
    that has popped a partner holds the mutex, finds the partner and can publish.
    What comes after the publication returns exactly when the partner's node
    still exists. *)
Theorem rendezvous_sections_return env size fuel sc se m take sync tp bs tks S0 S i o :
  rv_new env sc se m take sync tp bs tks = Some S0 → rv_reach env size (Datatypes.S fuel) S0 S → rops S !! i = Some o →
  match rpc o with
  | PEnter => mu_held (rch S) = false → ∃ out s', rv_enter env size 1 (dir o) (who o) (rch S) = Some (out, s')
  | PRelock err => mu_held (rch S) = false → ∃ out s', rv_resume 1 (dir o) (who o) err (rch S) = Some (out, s')
  | PHand q => mu_held (rch S) = true ∧ ∃ x, rv_publish (dir o) (who o) q (w (rch S)) = Some (tt, x)
  | PTail q => mu_held (rch S) = true ∧
      ((∃ s', rv_finish (dir o) q (rch S) = Some (0, s')) ↔ is_Some (nodes (w (rch S)) !! q))
  | PWait | PSleep | PRet _ => True
  end.
Proof.
  intros Hn Hr Hi. destruct (rv_reach_inv _ _ _ _ _ _ (rv_new_inv _ _ _ _ _ _ _ _ _ _ Hn) Hr) as [ls Hinv].
  pose proof (ri_op _ _ Hinv i o Hi) as Hok. unfold op_ok in Hok. destruct (rpc o) as [|q| | | |err|] eqn:Hpc; try done.
  - intros Hmu. assert (Ha : active o) by (unfold active; by rewrite Hpc).
    destruct (rv_enter_ends env size 0 (dir o) (who o) _ ls Hmu (ready_call _ _ _ _ Hinv Hi Ha) (ri_codes _ _ Hinv) (proj1 Hok)) as (out & s' & ? & _). eauto.
  - split; [apply (ri_lock _ _ Hinv i o Hi); by rewrite Hpc|]. destruct Hok as (_ & Hq & _ & j & o' & Hj & Hwt & Hjq & _).
    unfold st in Hq. destruct (nodes (w (rch S)) !! q) as [n|] eqn:Hnq; [|done]. assert (Ha' : active o') by (unfold active; by destruct (rpc o')).
    rewrite <- Hjq in Hnq. destruct (own_node _ _ _ _ _ Hinv Hj Ha' Hnq) as [Hc _]. rewrite Hjq in Hnq.
    assert (Hd : data n = Some (my_value (who o'))) by (unfold core, new_node in Hc; simpl in Hc; congruence).
    destruct (ri_mem _ _ Hinv i o Hi) as [v Hv], (ri_mem _ _ Hinv j o' Hj) as [u Hu].
    unfold rv_publish, load, load_mem, write_data, read_data, store, modify, mbind, M_bind. rewrite Hnq.
    destruct (dir o); [rewrite Hv, Hd|rewrite Hd, Hu]; simpl; rewrite Hnq; eauto.
  - assert (Hmu : mu_held (rch S) = true) by (apply (ri_lock _ _ Hinv i o Hi); by rewrite Hpc). split; [done|]. split.
    + intros [s' Hs']. destruct (nodes (w (rch S)) !! q) as [n|] eqn:Hnq; [by eexists|]. by rewrite finish_faults in Hs'.
    + intros [n Hnq]. destruct (finish_ends (dir o) q n _ ls Hmu (ri_wq _ _ Hinv) Hnq) as (rc & s' & Hs' & -> & _). eauto.
  - intros Hmu. assert (Ha : active o) by (unfold active; by rewrite Hpc). destruct Hok as (Herr & [n Hnn] & _).
    destruct (rv_resume_ends 0 (dir o) (who o) err _ ls n Hmu (ready_call _ _ _ _ Hinv Hi Ha) (ri_codes _ _ Hinv) Hnn Herr) as (out & s' & ? & _). eauto.
Qed.

(** * Running schedules *)

#[local] Instance cond_eq : EqDecision cond.
Proof. solve_decision. Defined.
#[local] Instance event_eq : EqDecision event.
Proof. solve_decision. Defined.

(** A schedule: who moves, and which sleeping threads its signals wake. *)
Inductive choice := DoCall (sd : side) (c : caller) | DoEnter (i : nat) | DoResume (i : nat) | DoPublish (i j : nat)
  | DoFinish (i : nat) (picks : list nat) | DoRead (i : nat) | DoTimeout (i : nat).
Definition is_sleeping (c : cond) (o : rv_op) : bool := match rpc o with PSleep => bool_decide (cond_of (dir o) = c) | _ => false end.
Fixpoint deliver_exec (picks : list nat) (evs : list event) (os : list rv_op) : option (list rv_op) :=
  match evs with
  | [] => Some os
  | EvCondSignal c :: evs' =>
      match picks with
      | i :: picks' => o ← os !! i; if is_sleeping c o then deliver_exec picks' evs' (<[i := rouse o]> os) else None
      | [] => if forallb (λ o, negb (is_sleeping c o)) os then deliver_exec [] evs' os else None
      end
  | EvCondBroadcast c :: evs' => deliver_exec picks evs' (rouse_all c <$> os)
  | _ :: evs' => deliver_exec picks evs' os
  end.
Definition section_end (S : rv_state) (i : nat) (o : rv_op) (picks : list nat) (pc : rv_pc) (s' : ccchan) : option rv_state :=
  let n := length (log (w (rch S))) in
  if decide (log (w s') = log (w (rch S)) ++ drop n (log (w s'))) then
    os ← deliver_exec picks (drop n (log (w s'))) (<[i := o <| rpc := pc |>]> (rops S));
    Some (RvState (drop_frame (who o) pc s') os (matches S))
  else None.
Definition callable_dec (S : rv_state) (c : caller) : bool :=
  bool_decide (is_Some (mem (w (rch S)) !! my_value c)) && is_none (nodes (w (rch S)) !! my_node c) &&
  forallb (λ o, negb (bool_decide (my_value (who o) = my_value c)) &&
    match rpc o with PRet _ => true
    | _ => negb (bool_decide (my_node (who o) = my_node c)) && (is_none (in_fiber c) || negb (bool_decide (in_fiber (who o) = in_fiber c))) end) (rops S).
Definition rv_exec (env : chan_env) (size fuel : nat) (ch : choice) (S : rv_state) : option rv_state :=
  match ch with
  | DoCall sd c => if callable_dec S c then Some (S <| rops := rops S ++ [RvOp sd c PEnter] |>) else None
  | DoEnter i =>
      o ← rops S !! i;
      match rpc o with
      | PEnter => '(out, s') ← rv_enter env size fuel (dir o) (who o) (rch S); section_end S i o [] (after (who o) out) s'
      | _ => None
      end
  | DoResume i =>
      o ← rops S !! i;
      match rpc o with
      | PRelock err => '(out, s') ← rv_resume fuel (dir o) (who o) err (rch S); section_end S i o [] (after (who o) out) s'
      | _ => None
      end
  | DoPublish i j =>
      o ← rops S !! i; o' ← rops S !! j;
      match rpc o, rpc o' with
      | PHand q, PWait | PHand q, PSleep | PHand q, PRelock _ =>
          if decide (my_node (who o') = q) then
            '(_, x) ← rv_publish (dir o) (who o) q (w (rch S)); v ← mem x !! my_value (who o);
            Some (RvState ((rch S) <| w := x |>) (<[i := o <| rpc := PTail q |>]> (rops S)) (matches S ++ [pair_of (dir o) i j v]))
          else None
      | _, _ => None
      end
  | DoFinish i picks =>
      o ← rops S !! i;
      match rpc o with PTail q => '(rc, s') ← rv_finish (dir o) q (rch S); section_end S i o picks (PRet rc) s' | _ => None end
  | DoRead i =>
      o ← rops S !! i; n ← nodes (w (rch S)) !! my_node (who o);
      match rpc o, notified n with
      | PWait, NOTIFY_DATA => Some (RvState (drop_frame (who o) (PRet 0) (rch S)) (<[i := o <| rpc := PRet 0 |>]> (rops S)) (matches S))
      | _, _ => None
      end
  | DoTimeout i =>
      o ← rops S !! i;
      match rpc o with
      | PSleep => if timed (who o) then Some (S <| rops := <[i := o <| rpc := PRelock ETIMEDOUT |>]> (rops S) |>) else None
      | _ => None
      end
  end.

Lemma is_sleeping_spec c o : is_sleeping c o = true ↔ sleeping c o.
Proof. unfold is_sleeping, sleeping. destruct (rpc o); rewrite ?bool_decide_eq_true; naive_solver. Qed.
Lemma deliver_exec_sound picks evs os os' : deliver_exec picks evs os = Some os' → deliver evs os os'.
Proof.
  revert picks os. induction evs as [|e evs IH]; intros picks os; simpl; [intros [= <-]; constructor|].
  destruct e as [| |c|c| | |]; try (intros Hd; apply deliver_other; [done|done|by eapply IH]).
  - destruct picks as [|i picks].
    + destruct (forallb _ os) eqn:Hf; [|done]. intros Hd. apply deliver_nobody; [|by eapply IH]. apply Forall_forall. intros o Ho Hs.
      rewrite forallb_forall in Hf. apply is_sleeping_spec in Hs. specialize (Hf o (proj1 (list_elem_of_In _ _) Ho)). by rewrite Hs in Hf.
    + destruct (os !! i) as [o|] eqn:Hi; [|done]. simpl. destruct (is_sleeping c o) eqn:Hs; [|done]. intros Hd.
      eapply deliver_one; [done|by apply is_sleeping_spec|by eapply IH].
  - intros Hd. apply deliver_all. by eapply IH.
Qed.
Lemma section_end_sound S i o picks pc s' S' : section_end S i o picks pc s' = Some S' →
  ∃ evs os, emitted (rch S) s' evs ∧ deliver evs (<[i := o <| rpc := pc |>]> (rops S)) os ∧ S' = RvState (drop_frame (who o) pc s') os (matches S).
Proof.
  unfold section_end. case_decide as He; [|done]. destruct (deliver_exec _ _ _) as [os|] eqn:Hd; simpl; [|done]. intros [= <-].
  eexists _, os. split; [exact He|]. split; [by eapply deliver_exec_sound|done].
Qed.
Lemma callable_dec_sound S c : callable_dec S c = true → callable S c.
Proof.
  unfold callable_dec, callable. rewrite !andb_true_iff, bool_decide_eq_true, forallb_forall. intros [[Hv Hn] Hall]. split_and!; [done|by destruct (nodes _ !! _)|].
  apply Forall_forall. intros o Ho. apply list_elem_of_In in Ho. specialize (Hall o Ho). apply andb_true_iff in Hall as [Hva Hall].
  apply negb_true_iff, bool_decide_eq_false in Hva. split; [done|]. unfold active. intros Ha. destruct (rpc o); try done;
    apply andb_true_iff in Hall as [Hnd Hf]; apply negb_true_iff, bool_decide_eq_false in Hnd; (split; [done|]); intros Hfc;
    destruct (in_fiber c); simpl in Hf; try done; by apply negb_true_iff, bool_decide_eq_false in Hf.
Qed.
Lemma rv_exec_sound env size fuel ch S S' : rv_exec env size fuel ch S = Some S' → ∃ a, rv_step env size fuel a S S'.
Proof.
  destruct ch as [sd c|i|i|i j|i picks|i|i]; unfold rv_exec.
  - destruct (callable_dec S c) eqn:Hc; [|done]. intros [= <-]. exists RvCall. by apply rv_call, callable_dec_sound.
  - destruct (rops S !! i) as [o|] eqn:Hi; simpl; [|done]. destruct (rpc o) eqn:Hpc; try done.
    destruct (rv_enter _ _ _ _ _ _) as [[out s']|] eqn:Hr; simpl; [|done]. intros (evs & os & ? & ? & ->)%section_end_sound.
    exists RvRun. by eapply rv_enters.
  - destruct (rops S !! i) as [o|] eqn:Hi; simpl; [|done]. destruct (rpc o) eqn:Hpc; try done.
    destruct (rv_resume _ _ _ _ _) as [[out s']|] eqn:Hr; simpl; [|done]. intros (evs & os & ? & ? & ->)%section_end_sound.
    exists RvRun. by eapply rv_resumes.
  - destruct (rops S !! i) as [o|] eqn:Hi; simpl; [|done]. destruct (rops S !! j) as [o'|] eqn:Hj; simpl; [|done].
    destruct (rpc o) as [|q| | | | |] eqn:Hpc; try done. intros Hx. assert (active o') by (unfold active; by destruct (rpc o')).
    assert (Hx' : (if decide (my_node (who o') = q) then
            '(_, x) ← rv_publish (dir o) (who o) q (w (rch S)); v ← mem x !! my_value (who o);
            Some (RvState ((rch S) <| w := x |>) (<[i := o <| rpc := PTail q |>]> (rops S)) (matches S ++ [pair_of (dir o) i j v]))
          else None) = Some S') by (by destruct (rpc o')).
    clear Hx. case_decide; [|done]. destruct (rv_publish _ _ _ _) as [[[] x]|] eqn:Hr; simpl in Hx'; [|done].
    destruct (mem x !! my_value (who o)) as [v|] eqn:Hv; simpl in Hx'; [|done]. injection Hx' as <-. exists RvRun. by eapply rv_publishes.
  - destruct (rops S !! i) as [o|] eqn:Hi; simpl; [|done]. destruct (rpc o) eqn:Hpc; try done.
    destruct (rv_finish _ _ _) as [[rc s']|] eqn:Hr; simpl; [|done]. intros (evs & os & ? & ? & ->)%section_end_sound.
    exists RvRun. by eapply rv_finishes.
  - destruct (rops S !! i) as [o|] eqn:Hi; simpl; [|done]. destruct (nodes _ !! _) as [n|] eqn:Hn; simpl; [|done].
    destruct (rpc o) eqn:Hpc; try done. destruct (notified n) eqn:Hno; try done. intros [= <-]. exists RvRun. by eapply rv_reads_data.
  - destruct (rops S !! i) as [o|] eqn:Hi; simpl; [|done]. destruct (rpc o) eqn:Hpc; try done. destruct (timed (who o)) eqn:Ht; [|done].
    intros [= <-]. exists RvOS. eapply rv_cond_return; auto.
Qed.
Fixpoint rv_run (env : chan_env) (size fuel : nat) (chs : list choice) (S : rv_state) : option rv_state :=
  match chs with
  | [] => Some S
  | ch :: chs' => S' ← rv_exec env size fuel ch S; if decide (codes_ok (rch S')) then rv_run env size fuel chs' S' else None
  end.
Lemma rv_run_reach env size fuel chs S S' : rv_run env size fuel chs S = Some S' → rv_reach env size fuel S S'.
Proof.
  revert S. induction chs as [|ch chs IH]; intros S; simpl; [intros [= <-]; apply rtc_refl|].
  destruct (rv_exec env size fuel ch S) as [S1|] eqn:E; simpl; [|done]. case_decide; [|done]. intros Hr.
  eapply rtc_l; [split; [by eapply rv_exec_sound|done]|by apply IH].
Qed.

(** * Two defects of the handoff *)

Definition buffers3 : gmap ptr (list Z) := {[100%nat := [0; 0]; 101%nat := [0; 0]; 102%nat := [4; 2]]}.
Definition fiber_recv : caller := Caller (Some 5%nat) false 10%nat 100%nat.
Definition thread_recv : caller := Caller None false 10%nat 100%nat.
Definition thread_recv' : caller := Caller None false 11%nat 101%nat.
Definition thread_send : caller := Caller None false 12%nat 102%nat.
Definition timed_send : caller := Caller None true 12%nat 102%nat.
Definition rv_demo : option rv_state := rv_new default_env 1024 64 MODE_BLOCK false false TOPO_DEFAULT buffers3 ∅.
Definition run_demo (chs : list choice) : option rv_state := S ← rv_demo; rv_run default_env 2 1 chs S.

Definition early_reader : list choice := [DoCall RecvQ fiber_recv; DoEnter 0; DoCall SendQ thread_send; DoEnter 1; DoPublish 1 0; DoRead 0].
Definition wrong_thread : list choice :=
  [DoCall RecvQ thread_recv; DoEnter 0; DoCall RecvQ thread_recv'; DoEnter 1; DoCall SendQ thread_send; DoEnter 2; DoPublish 2 0; DoFinish 2 [1%nat]; DoResume 1].
Lemma run_demo_reach chs S : run_demo chs = Some S → ∃ S0, rv_demo = Some S0 ∧ rv_reach default_env 2 1 S0 S.
Proof. unfold run_demo. destruct rv_demo as [S0|]; simpl; [|done]. intros Hr. exists S0. split; [done|]. by eapply rv_run_reach. Qed.

(** C36: The handoff reads a dead stack frame.  After storing NOTIFY_DATA the sender
    still reads the receiver's node ([is_select], [fiber]), but a fiber that sees
    NOTIFY_DATA returns without the mutex and its node goes with its frame: there
    is an execution in which the sender's next access is to memory that no longer
    exists. *)
Theorem rendezvous_tail_reads_dead_frame : ∃ S0 S o q,
  rv_demo = Some S0 ∧ rv_reach default_env 2 1 S0 S ∧
  rops S !! 1%nat = Some o ∧ rpc o = PTail q ∧ dir o = SendQ ∧ rv_finish (dir o) q (rch S) = None.
Proof.
  destruct (run_demo early_reader) as [S|] eqn:Hrun; [|vm_compute in Hrun; discriminate Hrun].
  destruct (run_demo_reach _ _ Hrun) as (S0 & H0 & Hreach). vm_compute in Hrun. injection Hrun as <-.
  eexists S0, _, _, _. split_and!; [done|exact Hreach|reflexivity|reflexivity|reflexivity|]. apply finish_faults. reflexivity.
Qed.

(** Sleeping and returned calls do not move by themselves. *)
Lemma rv_stuck env size fuel S : (∀ i o, rops S !! i = Some o → rpc o = PSleep ∨ ∃ rc, rpc o = PRet rc) →
  ∀ S', ¬ rv_step env size fuel RvRun S S'.
Proof.
  intros Hall S' Hst. remember RvRun as a eqn:Ea.
  destruct Hst as [|? i o ? ? ? ? Hi Hpc|? i o ? ? ? ? ? Hi Hpc|? i o ? ? ? ? ? Hi Hpc|? i o ? ? ? ? ? Hi Hpc|? i o ? Hi Hpc|? i o ? Hi Hpc| | |]; try done;
    destruct (Hall i o Hi) as [?|[? ?]]; congruence.
Qed.
(** C37: A handoff to a thread can wake the wrong one.  The condition variable is
    shared by all threads that receive, and one signal is sent after one receiver's
    node was filled: the signal may wake another receiver, which finds its own node
    untouched and sleeps again.  There is an execution that ends with the value
    handed over, the sender returned and its receiver asleep, and in which nobody
    can move. *)
Theorem rendezvous_signal_wakes_wrong_thread : ∃ S0 S o o',
  rv_demo = Some S0 ∧ rv_reach default_env 2 1 S0 S ∧
  matches S = [(2%nat, 0%nat, [4; 2])] ∧ rops S !! 2%nat = Some o' ∧ rpc o' = PRet 0 ∧ rops S !! 0%nat = Some o ∧ rpc o = PSleep ∧
  ∀ S', ¬ rv_step default_env 2 1 RvRun S S'.
Proof.
  destruct (run_demo wrong_thread) as [S|] eqn:Hrun; [|vm_compute in Hrun; discriminate Hrun].
  destruct (run_demo_reach _ _ Hrun) as (S0 & H0 & Hreach). vm_compute in Hrun. injection Hrun as <-.
  eexists S0, _, _, _. split_and!; [done|exact Hreach|reflexivity|reflexivity|reflexivity|reflexivity|reflexivity|].
  apply rv_stuck. intros i o Hi. destruct i as [|[|[|i]]]; [injection Hi as <-; eauto..|discriminate Hi].
Qed.

(** ** An error of the timed wait

    [pthread_cond_timedwait] may fail with another error than a timeout (EINVAL
    for an invalid deadline).  The send then unlinks its node, links it again and
    tests the error again, holding the mutex. *)
Definition spinning : option ccchan :=
  S ← run_demo [DoCall SendQ timed_send; DoEnter 0];
  '(_, s) ← (cc_chan_lock;; liftw (cc__chan_remove_send_waiter 12%nat)) (rch S); Some s.
Definition send_turn (c : caller) (err : Z) (again : C rv_out) : C rv_out :=
  s ← gets id;
  if closed s || rx_error_closed s then leave (if rx_error_closed s then rx_error_code s else EPIPE)
  else
    o ← pop_if RecvQ;
    match o with
    | Some q => mret (OHandoff q)
    | None => liftw (init_node c);; liftw (cc__chan_add_send_waiter (my_node c));; liftw cc__chan_signal_activity;; send_inner c err again
    end.
Lemma spin_turn : ∃ s, spinning = Some s ∧ ∀ again, send_turn timed_send EINVAL again s = again s.
Proof.
  destruct spinning as [s|] eqn:Hs; [|vm_compute in Hs; discriminate Hs]. exists s. split; [done|].
  vm_compute in Hs. injection Hs as <-. intros again. vm_compute. reflexivity.
Qed.
Lemma deadline_error_spins : ∃ s, spinning = Some s ∧ ∀ fuel, send_outer fuel timed_send EINVAL s = None.
Proof.
  destruct spin_turn as (s & Hs & Hturn). exists s. split; [done|]. induction fuel as [|fuel IH]; [done|].
  rewrite <- IH. exact (Hturn (send_outer fuel timed_send EINVAL)).
Qed.
End props.

(** * Witnesses *)

(** A receiver and a sender, both threads, meet. *)
Definition met : list choice := [DoCall RecvQ thread_recv; DoEnter 0; DoCall SendQ thread_send; DoEnter 1; DoPublish 1 0; DoFinish 1 [0%nat]; DoResume 0].
Lemma rendezvous_exactly_once_witness : ∃ S0 S, rv_demo = Some S0 ∧ rv_reach default_env 2 1 S0 S ∧ matches S = [(1%nat, 0%nat, [4; 2])] ∧
  NoDup (senders (matches S)) ∧ NoDup (receivers (matches S)) ∧
  (∀ i o rc, rops S !! i = Some o → rpc o = PRet rc →
     rc = 0 ↔ i ∈ match dir o with SendQ => senders (matches S) | RecvQ => receivers (matches S) end) ∧
  (∀ i j v, (i, j, v) ∈ matches S → ∃ o o', rops S !! i = Some o ∧ dir o = SendQ ∧ rops S !! j = Some o' ∧ dir o' = RecvQ ∧
     mem (w (rch S)) !! my_value (who o) = Some v ∧ mem (w (rch S)) !! my_value (who o') = Some v).
Proof.
  destruct (run_demo met) as [S|] eqn:Hrun; [|vm_compute in Hrun; discriminate Hrun].
  destruct (run_demo_reach _ _ Hrun) as (S0 & H0 & Hreach). exists S0, S. split; [exact H0|]. split; [exact Hreach|].
  split; [vm_compute in Hrun; injection Hrun as <-; reflexivity|].
  exact (rendezvous_exactly_once default_env 2 0 1024 64 MODE_BLOCK false false TOPO_DEFAULT buffers3 ∅ S0 S H0 Hreach).
Defined.
(** The sender, about to enter with the receiver asleep, returns from its section. *)
Lemma rendezvous_sections_return_witness : ∃ S0 S o, rv_demo = Some S0 ∧ rv_reach default_env 2 1 S0 S ∧ rops S !! 1%nat = Some o ∧
  ∃ out s', rv_enter default_env 2 1 (dir o) (who o) (rch S) = Some (out, s').
Proof.
  destruct (run_demo (take 3 met)) as [S|] eqn:Hrun; [|vm_compute in Hrun; discriminate Hrun].
  destruct (run_demo_reach _ _ Hrun) as (S0 & H0 & Hreach).
  assert (Ho : rops S !! 1%nat = Some (RvOp SendQ thread_send PEnter)) by (vm_compute in Hrun; injection Hrun as <-; reflexivity).
  assert (Hm : mu_held (rch S) = false) by (vm_compute in Hrun; injection Hrun as <-; reflexivity).
  exists S0, S, (RvOp SendQ thread_send PEnter). split; [exact H0|]. split; [exact Hreach|]. split; [exact Ho|].
  exact (rendezvous_sections_return default_env 2 0 1024 64 MODE_BLOCK false false TOPO_DEFAULT buffers3 ∅ S0 S 1%nat _ H0 Hreach Ho Hm).
Defined.
