(* ===== verification/PpPass.v ===== *)
(** The machinery the text passes of [src/cc/src/preprocess/preprocess.c]
    share: the scanner that steps over comments and literals, the scan loop
    with its emitted pieces, the buffer a pass returns, and the chain that
    feeds one pass's output to the next.

    A source [const char* src, size_t n] is the list of its [n] characters; the
    NUL that terminates it stands at position [n]. *)
From S2P Require Import Prelude Bytes Lex Text.

Implicit Types (src l s : list ascii) (i last : nat) (c : ascii).

Definition AT := chr 64.
Definition is_ws3 (c : ascii) : bool := eqc c SP || eqc c TAB || eqc c NL.
(** [while (p < n && f(src[p])) p++]. *)
Definition skip_while (f : ascii → bool) src (p : nat) : nat := p + span f (drop p src).
(** [p + strlen(kw) <= n && memcmp(src + p, kw, strlen(kw)) == 0]. *)
Definition kw_at src (p : nat) (kw : list ascii) : bool := bool_decide (take (length kw) (drop p src) = kw).
(** [p < n && src[p] == c] and [p < n && f(src[p])]. *)
Definition char_at src (p : nat) (c : ascii) : bool := bool_decide (src !! p = Some c).
Definition test_at src (p : nat) (f : ascii → bool) : bool := match src !! p with Some c => f c | None => false end.

(** * The scanner *)

Record CCScannerState := Scanner {
  in_line_comment : bool; in_block_comment : bool; in_str : bool; in_chr : bool; sc_line : Z; sc_col : Z }.
#[export] Instance eta_scanner : Eta CCScannerState :=
  λ sc, Scanner (in_line_comment sc) (in_block_comment sc) (in_str sc) (in_chr sc) (sc_line sc) (sc_col sc).
Definition cc_scanner_init : CCScannerState := Scanner false false false false 1 1.

(** The value returned, the new state and the new [*pos]. *)
Definition cc_scanner_skip_non_code (s : CCScannerState) src (pos : nat) : bool * CCScannerState * nat :=
  match src !! pos with
  | None => (false, s, pos)
  | Some c =>
      let c2 := default NUL (src !! S pos) in
      let mo := bool_decide (S pos < length src) in
      let s := if eqc c NL then s <| sc_line := (sc_line s + 1)%Z |> <| sc_col := 1%Z |> else s <| sc_col := (sc_col s + 1)%Z |> in
      let col_inc (s : CCScannerState) := s <| sc_col := (sc_col s + 1)%Z |> in
      if in_line_comment s then (true, if eqc c NL then s <| in_line_comment := false |> else s, S pos)
      else if in_block_comment s then
        if eqc c STAR && eqc c2 SLASH then (true, col_inc (s <| in_block_comment := false |>), S (S pos)) else (true, s, S pos)
      else if in_str s then
        if eqc c BSLASH && mo then (true, col_inc s, S (S pos))
        else (true, if eqc c DQ then s <| in_str := false |> else s, S pos)
      else if in_chr s then
        if eqc c BSLASH && mo then (true, col_inc s, S (S pos))
        else (true, if eqc c SQ then s <| in_chr := false |> else s, S pos)
      else if eqc c SLASH && eqc c2 SLASH then (true, col_inc (s <| in_line_comment := true |>), S (S pos))
      else if eqc c SLASH && eqc c2 STAR then (true, col_inc (s <| in_block_comment := true |>), S (S pos))
      else if eqc c DQ then (true, s <| in_str := true |>, S pos)
      else if eqc c SQ then (true, s <| in_chr := true |>, S pos)
      else (false, if eqc c NL then s else s <| sc_col := (sc_col s - 1)%Z |>, pos)
  end.

(** The line and column of an offset. *)
Definition cc__pp_offset_to_line_col src (off : nat) : Z * Z :=
  foldl (λ '(line, col) c, if eqc c NL then (line + 1, 1) else (line, col + 1))%Z (1%Z, 1%Z) (take off src).

(** The passes that keep their own [in_lc], [in_bc], [in_str] and [in_chr]
    flags begin their loop body with the same lines: one lexical step. *)
Definition skip_lex (st : lex) src i : bool * lex * nat :=
  match drop i src with
  | [] => (false, st, i)
  | c :: l' =>
      match lex_step false st c (peek l') (more l') with
      | Skip st' two => (true, st', if two : bool then S (S i) else S i)
      | IsCode => (false, Code, i)
      end
  end.
(** A pass that looks at every byte. *)
Definition skip_nothing (st : unit) src i : bool * unit * nat := (false, st, i).

(** * The scan loop *)

(** A piece of output: [cc_sb_append(..., src + a, b - a)] or a constant. *)
Inductive chunk := Cut (a b : nat) | Lit (s : list ascii).
(** What the body of the loop does at a code character: go on at [i'], or emit
    [src[last_emit..upto)] and the pieces [ks], and set [last_emit] and [i]. *)
Inductive act := Keep (i' : nat) | Rewrite (upto : nat) (ks : list chunk) (last' i' : nat).

(** [while (i + lim < n) { if (skip) continue; body }]: the pieces emitted and
    the final [last_emit].  [None] when the fuel runs out. *)
Fixpoint pass_loop {A} (skip : A → list ascii → nat → bool * A * nat) (lim : nat) (step : list ascii → nat → nat → act)
    (fuel : nat) (st : A) src last i : option (list chunk * nat) :=
  if decide (i + lim < length src) then
    match fuel with
    | O => None
    | S fuel' =>
        match skip st src i with
        | (true, st', i') => pass_loop skip lim step fuel' st' src last i'
        | (false, st', _) =>
            match step src last i with
            | Keep i' => pass_loop skip lim step fuel' st' src last i'
            | Rewrite upto ks last' i' =>
                '(ks', last'') ← pass_loop skip lim step fuel' st' src last' i';
                Some (Cut last upto :: ks ++ ks', last'')
            end
        end
    end
  else Some ([], last).

(** * The returned buffer *)

(** One append.  The size of a piece whose end is before its start wraps to
    almost 2^64, and a piece that ends after the terminator is read out of
    bounds: both are undefined. *)
Definition put (rok : Z → bool) src (k : chunk) (x : sb) : option sb :=
  match k with
  | Lit s => cc_sb_append rok s x
  | Cut a b =>
      if decide (a = b) then Some x
      else if decide (a < b ≤ S (length src)) then cc_sb_append rok (range (src ++ [NUL]) a b) x
      else None
  end.
Fixpoint puts (rok : Z → bool) src (ks : list chunk) (x : sb) : option sb :=
  match ks with [] => Some x | k :: ks' => x' ← put rok src k x; puts rok src ks' x' end.

(** The C string in a buffer: its cells before the first NUL. *)
Fixpoint c_string (b : list (option ascii)) : option (list ascii) :=
  match b with
  | Some c :: b' => if eqc c NUL then Some [] else option_map (cons c) (c_string b')
  | _ => None
  end.

(** The [char*] a pass returns: NULL, the error sentinel [(char* )-1], a
    NUL-terminated text, or undefined behaviour on the way. *)
Inductive presult := PNull | PError | PText (s : list ascii) | PUndef.
Definition buffer_of (x : option sb) : presult :=
  match x with
  | None => PUndef
  | Some x => match sb_buf x with None => PNull | Some b => match c_string b with Some s => PText s | None => PUndef end end
  end.
(** [if (last_emit < n) cc_sb_append(..., src + last_emit, n - last_emit)]. *)
Definition rest_of src last : list chunk := if decide (last < length src) then [Cut last (length src)] else [].
Definition emit (rok : Z → bool) src (ks : list chunk) : presult := buffer_of (puts rok src ks sb_empty).

(** The three ways a pass ends: it returns NULL when nothing [changed], when
    [last_emit] is still 0, or never. *)
Definition finish_changed (rok : Z → bool) src (r : option (list chunk * nat)) (terminator : list chunk) : presult :=
  match r with
  | None => PUndef
  | Some ([], _) => PNull
  | Some (ks, last) => emit rok src (ks ++ rest_of src last ++ terminator)
  end.
Definition finish_last (rok : Z → bool) src (r : option (list chunk * nat)) : presult :=
  match r with
  | None => PUndef
  | Some (ks, last) => if decide (last = 0) then PNull else emit rok src (ks ++ rest_of src last)
  end.
Definition finish_always (rok : Z → bool) src (r : option (list chunk * nat)) : presult :=
  match r with None => PUndef | Some (ks, last) => emit rok src (ks ++ rest_of src last) end.

(** * The pass chain *)

Definition CC_PASS_CHAIN_MAX : nat := 32.
(** [owned] numbers the buffers the passes have returned and that are not
    freed; the chain tracks at most 32 of them. *)
Record CCPassChain := Chain { pc_src : list ascii; pc_allocs : list nat; pc_owned : list nat; pc_next : nat }.
#[export] Instance eta_chain : Eta CCPassChain := λ ch, Chain (pc_src ch) (pc_allocs ch) (pc_owned ch) (pc_next ch).
Definition cc_pass_chain_init src : CCPassChain := Chain src [] [] 0.
(** The new chain, or the error return. *)
Definition cc_pass_chain_apply (ch : CCPassChain) (r : presult) : option (bool * CCPassChain) :=
  match r with
  | PUndef => None
  | PError => Some (false, ch)
  | PNull => Some (true, ch)
  | PText s =>
      let id := pc_next ch in
      Some (true, Chain s (if decide (length (pc_allocs ch) < CC_PASS_CHAIN_MAX) then pc_allocs ch ++ [id] else pc_allocs ch)
                        (pc_owned ch ++ [id]) (S id))
  end.
Definition cc_pass_chain_free (ch : CCPassChain) : CCPassChain :=
  ch <| pc_owned := filter (λ id, id ∉ pc_allocs ch) (pc_owned ch) |> <| pc_allocs := [] |>.
