(* ===== verification/PpSigil.v ===== *)
(** The passes of [preprocess.c] that fire on an [@] in code: link directives,
    call-site modes, the return type of [@async void] functions, and [@await];
    and the extraction of the link flags in [src/cc/src/cc_main.c]. *)
From S2P Require Import Prelude Bytes Lex Text PpPass.

Implicit Types (src l s : list ascii) (i last : nat) (c : ascii).

(** * Link directives *)

Definition LINK_OPEN : list ascii := txt "/* __CC_LINK__ ".
Definition LINK_CLOSE : list ascii := txt " */".
(** A directive that does not parse leaves [i] at [start + 1], which the end of
    the loop body increments once more. *)
Definition link_step src last i : act :=
  if kw_at src i (txt "@link(") then
    let q := skip_while is_blank src (i + 6) in
    if char_at src q DQ then
      let lib_start := S q in
      let lib_end := skip_while (λ c, negb (eqc c DQ) && negb (eqc c NL)) src lib_start in
      if char_at src lib_end DQ then
        let r := skip_while is_blank src (S lib_end) in
        if char_at src r RPAR then Rewrite i [Lit LINK_OPEN; Cut lib_start lib_end; Lit LINK_CLOSE] (S r) (S r)
        else Keep (i + 2)
      else Keep (i + 2)
    else Keep (i + 2)
  else Keep (S i).
Definition cc__rewrite_link_directives (rok : Z → bool) src : presult :=
  if decide (src = []) then PNull
  else finish_last rok src (pass_loop skip_lex 0 link_step (length src) Code src 0 0).

(** * Call-site modes *)

(** [qscan quotes o c q depth l]: the loop over a bracketed text whose opening
    bracket has been read.  It stops behind the bracket that brings [depth] to
    0, or at the end.  The number of bytes read and the final depth. *)
Fixpoint qscan (quotes : bool) (o cl : ascii) (q : option ascii) (depth : nat) l : nat * nat :=
  match depth with
  | O => (0, 0)
  | S d =>
      match l with
      | [] => (0, depth)
      | c :: l' =>
          let go k q' d' l'' := let '(m, d'') := qscan quotes o cl q' d' l'' in (k + m, d'') in
          match q with
          | Some qc =>
              if eqc c BSLASH then match l' with [] => (1, depth) | _ :: l'' => go 2 q depth l'' end
              else go 1 (if eqc c qc then None else q) depth l'
          | None =>
              if quotes && (eqc c DQ || eqc c SQ) then go 1 (Some c) depth l'
              else if eqc c o then go 1 None (S depth) l'
              else if eqc c cl then go 1 None d l'
              else go 1 None depth l'
          end
      end
  end.

Definition SITE_BLOCKING : list ascii := txt "/*@CC_SITE=blocking*/ ".
Definition SITE_NOBLOCK : list ascii := txt "/*@CC_SITE=noblock*/ ".
(** The marker of the mode at [@] and the position behind its keyword. *)
Definition call_mode src i : option (list ascii * nat) :=
  if kw_at src (S i) (txt "blocking") && negb (test_at src (i + 9) cc_is_ident_char) then Some (SITE_BLOCKING, i + 9)
  else if kw_at src (S i) (txt "noblock") && negb (test_at src (i + 8) cc_is_ident_char) then Some (SITE_NOBLOCK, i + 8)
  else None.
Definition call_step src last i : act :=
  if negb (char_at src i AT) then Keep (S i) else
  match call_mode src i with
  | None => Keep (S i)
  | Some (marker, p) =>
      let id_s := skip_while is_ws src p in
      if negb (test_at src id_s cc_is_ident_start) then Keep (S i) else
      let p := skip_while is_ws src (skip_while cc_is_ident_char src id_s) in
      if negb (char_at src p LPAR) then Keep (S i) else
      let '(m, depth) := qscan true LPAR RPAR None 1 (drop (S p) src) in
      if negb (bool_decide (depth = 0)) then Keep (S i) else
      let rparen_end := S p + m in
      if char_at src (skip_while is_ws src rparen_end) LBR then Keep (S i)
      else Rewrite i [Lit marker; Cut id_s rparen_end] rparen_end rparen_end
  end.
Definition cc__rewrite_at_call_site_mode (rok : Z → bool) src : presult :=
  if decide (src = []) then PNull
  else if negb (cc_contains_token_top_level src (txt "@blocking")) && negb (cc_contains_token_top_level src (txt "@noblock")) then PNull
  else finish_changed rok src (pass_loop skip_lex 0 call_step (length src) Code src 0 0) [].

(** * The return type of [@async void] *)

Definition ASYNC_VOID_RET : list ascii := txt "CCAsyncVoidRet".
(** [@async] at a word boundary. *)
Definition async_at src i : bool := kw_at src i (txt "@async") && negb (test_at src (i + 6) cc_is_ident_char).
(** The attributes and blanks behind [@async]. *)
Fixpoint skip_attrs (fuel : nat) src (j : nat) : nat :=
  let j := skip_while is_ws src j in
  match fuel with
  | O => j
  | S fuel' =>
      if char_at src j AT then
        let k := skip_while cc_is_ident_char src (S j) in
        if decide (k = S j) then j else skip_attrs fuel' src k
      else j
  end.
Definition async_step src last i : act :=
  if async_at src i then
    let rt_start := skip_attrs (length src) src (i + 6) in
    let after_void := rt_start + 4 in
    let p := skip_while is_ws src after_void in
    let q := skip_while is_ws src (skip_while cc_is_ident_char src p) in
    if kw_at src rt_start (txt "void") && negb (test_at src after_void cc_is_ident_char)
       && test_at src p cc_is_ident_start && char_at src q LPAR
    then Rewrite rt_start [Lit ASYNC_VOID_RET] after_void after_void
    else Keep (if decide (i < rt_start) then rt_start else S i)
  else Keep (S i).
(** The terminator is appended as a character of its own. *)
Definition cc__rewrite_async_void_ret (rok : Z → bool) src : presult :=
  if decide (src = []) then PNull
  else if negb (cc_contains_token_top_level src (txt "@async")) then PNull
  else finish_changed rok src (pass_loop skip_lex 0 async_step (length src) Code src 0 0) [Lit [NUL]].

(** * [@await] *)

Definition CC__AT_AWAIT_MAX_FNS : nat := 256.
Record CCAtAwaitFn := AtAwaitFn { aw_name : list ascii; aw_ret : list ascii }.
(** The walk to the last identifier before an opening parenthesis: that
    identifier's bounds and where the walk stopped. *)
Fixpoint walk_fname (fuel : nat) src (name : option (nat * nat)) (k : nat) : option (nat * nat) * nat :=
  match fuel with
  | O => (name, k)
  | S fuel' =>
      match src !! k with
      | None => (name, k)
      | Some c =>
          if eqc c LBR || eqc c (chr 59) then (name, k)
          else if eqc c LPAR && bool_decide (is_Some name) then (name, k)
          else if cc_is_ident_start c || (bool_decide (0 < k) && cc_is_ident_char c) then
            let e := skip_while cc_is_ident_char src k in walk_fname fuel' src (Some (k, e)) e
          else walk_fname fuel' src name (S k)
      end
  end.
Definition fits128 s : list ascii := take 127 s.
(** The entry of the [@async] declaration at [i]. *)
Definition async_entry src i : option CCAtAwaitFn :=
  let j := skip_while is_ws src (i + 6) in
  match walk_fname (S (length src)) src None j with
  | (Some (fs, fe), k) =>
      if bool_decide (fs < fe) && char_at src k LPAR then
        let t := range src j fs in
        let t := take (length t - span is_ws3 (reverse t)) t in
        Some (AtAwaitFn (fits128 (range src fs fe)) (if decide (t = []) then txt "int" else fits128 t))
      else None
  | _ => None
  end.
(** The table is a static array; the count is reset first.  [None] when the
    fuel runs out. *)
Fixpoint collect_loop (fuel : nat) (st : lex) src (fns : list CCAtAwaitFn) i : option (list CCAtAwaitFn) :=
  if decide (i < length src) then
    match fuel with
    | O => None
    | S fuel' =>
        match skip_lex st src i with
        | (true, st', i') => collect_loop fuel' st' src fns i'
        | (false, st', _) =>
            if async_at src i then
              let j := skip_while is_ws src (i + 6) in
              let fns := match async_entry src i with
                         | Some f => if decide (length fns < CC__AT_AWAIT_MAX_FNS) then fns ++ [f] else fns
                         | None => fns
                         end in
              collect_loop fuel' st' src fns (if decide (i + 6 < j) then j else S i)
            else collect_loop fuel' st' src fns (S i)
        end
    end
  else Some fns.
Definition cc__collect_async_ret_types src : option (list CCAtAwaitFn) := collect_loop (length src) Code src [] 0.

(** [while (m < n && src[m] != '\34') { if (src[m] == '\\') m++; m++; }]: how far
    [m] moves, which may be beyond the end. *)
Fixpoint str_skip l : nat :=
  match l with
  | [] => 0
  | c :: l' =>
      if eqc c DQ then 0
      else if eqc c BSLASH then match l' with [] => 2 | _ :: l'' => 2 + str_skip l'' end
      else 1 + str_skip l'
  end.
(** The search for the closing parenthesis of the call, from behind the
    opening one. *)
Fixpoint await_close (fuel : nat) (depth : nat) l : nat :=
  match fuel with
  | O => 0
  | S fuel' =>
      match l with
      | [] => 0
      | c :: l' =>
          if eqc c DQ then let k := str_skip l' in k + 2 + await_close fuel' depth (drop (S k) l')
          else if eqc c LPAR then 1 + await_close fuel' (S depth) l'
          else if eqc c RPAR then match depth with O | 1 => 1 | S d => 1 + await_close fuel' d l' end
          else 1 + await_close fuel' depth l'
      end
  end.
Definition await_at src i : bool := kw_at src i (txt "@await") && negb (test_at src (i + 6) cc_is_ident_char).
Definition lookup_ret (fns : list CCAtAwaitFn) (name : list ascii) : option (list ascii) :=
  aw_ret <$> head (filter (λ f, aw_name f = name) fns).
Definition await_step (fns : list CCAtAwaitFn) src last i : act :=
  if await_at src i then
    let j := skip_while is_blank src (i + 6) in
    if test_at src j cc_is_ident_start then
      let id_e := skip_while cc_is_ident_char src j in
      let p := skip_while is_blank src id_e in
      if char_at src p LPAR then
        let call_end := S p + await_close (length src) 1 (drop (S p) src) in
        match lookup_ret fns (fits128 (range src j id_e)) with
        | Some ret => Rewrite i [Lit (txt "cc_block_on("); Lit ret; Lit (txt ", "); Cut j call_end; Lit (txt ")")] call_end call_end
        | None => Rewrite i [Cut j call_end] call_end call_end
        end
      else Rewrite i [Cut j id_e] id_e id_e
    else Rewrite i [] j j
  else Keep (S i).
Definition cc__rewrite_at_await (rok : Z → bool) src : presult :=
  if decide (src = []) then PNull
  else if negb (cc_contains_token_top_level src (txt "@await")) then PNull
  else match cc__collect_async_ret_types src with
       | None => PUndef
       | Some fns => finish_changed rok src (pass_loop skip_lex 0 (await_step fns) (length src) Code src 0 0) []
       end.

(** * Extracting the link flags *)

(** [strstr]: the position of the first occurrence. *)
Fixpoint strstr s (pat : list ascii) : option nat :=
  if decide (take (length pat) s = pat) then Some 0
  else match s with [] => None | _ :: s' => S <$> strstr s' pat end.
Definition ends_with s (suf : list ascii) : bool :=
  bool_decide (length suf < length s) && bool_decide (drop (length s - length suf) s = suf).
Definition cc__is_lib_path (lib : list ascii) : bool :=
  bool_decide (SLASH ∈ lib) || ends_with lib (txt ".a") || ends_with lib (txt ".so") || ends_with lib (txt ".dylib").
(** The flag buffer of capacity [cap], by its text; [strncat] truncates. *)
Definition strncat_fit (cap : nat) (buf val : list ascii) : list ascii := buf ++ take (cap - length buf - 1) val.
Definition cc__append_spaced (cap : nat) (buf val : list ascii) : list ascii :=
  if decide (cap = 0 ∨ val = []) then buf
  else strncat_fit cap (if decide (buf = []) then buf else strncat_fit cap buf [SP]) val.
Definition lib_flag (lib : list ascii) : list ascii := take 279 (if cc__is_lib_path lib then lib else txt "-l" ++ lib).
Definition cc__add_lib_to_flags (cap : nat) (lib flags : list ascii) : list ascii :=
  if decide (lib = []) then flags
  else match strstr flags (lib_flag lib) with Some _ => flags | None => cc__append_spaced cap flags (lib_flag lib) end.

Definition MARKER : list ascii := txt "__CC_LINK__ ".
Definition LINK_PAT : list ascii := txt "@link(" ++ [DQ].
(** [char lib[256]]: a longer name is ignored. *)
Definition add_lib (cap : nat) (lib flags : list ascii) : list ascii :=
  if decide (0 < length lib < 256) then cc__add_lib_to_flags cap lib flags else flags.
(** [strstr] and [strchr] stop at the first NUL of the content, which [p] never
    passes. *)
Fixpoint scan_links (fuel : nat) (cap : nat) (p flags : list ascii) : list ascii :=
  match fuel with
  | O => flags
  | S fuel' =>
      match strstr p MARKER with
      | Some k =>
          let q := drop (k + length MARKER) p in
          let m := span (λ c, negb (eqc c NUL) && negb (eqc c SP) && negb (eqc c STAR) && negb (eqc c NL)) q in
          scan_links fuel' cap (drop m q) (add_lib cap (take m q) flags)
      | None =>
          match strstr p LINK_PAT with
          | Some k =>
              let q := drop (k + length LINK_PAT) p in
              let m := span (λ c, negb (eqc c DQ)) q in
              if decide (m < length q) then scan_links fuel' cap (drop (S m) q) (add_lib cap (take m q) flags)
              else flags
          | None => flags
          end
      end
  end.
Definition cc__scan_for_link_directives (cap : nat) (content flags : list ascii) : list ascii :=
  scan_links (S (length content)) cap (take (span (λ c, negb (eqc c NUL)) content) content) flags.
