(* ===== verification/PpDoc.v ===== *)
(** Documents for the text passes: a source as a list of quiet pieces and
    directives.  A pass that fires on an [@] in code is described by a
    [SigilPass]: what its directives look like, what they are lowered to, and
    that its loop body does so.  Such a pass lowers every directive of a
    document and copies everything else. *)
From S2P Require Import Prelude Bytes Lex Text TextScan TextFind TextBuild PpPass.

Implicit Types (src l s pre post : list ascii) (i last : nat) (c : ascii).

(** * Definitions *)

(** The text of the pieces, when they lie inside the source. *)
Definition chunk_text src (k : chunk) : list ascii := match k with Cut a b => range src a b | Lit s => s end.
Definition text_of src (ks : list chunk) : list ascii := mjoin (chunk_text src <$> ks).
Definition in_src src (k : chunk) : Prop := match k with Cut a b => a ≤ b ≤ length src | Lit _ => True end.

(** Text whose comments and literals are complete and in whose code every [@]
    is one the pass ignores ([calm] of the text from it on); [post] is what
    follows. *)
Inductive quiet (calm : list ascii → Prop) (post : list ascii) : list ascii → Prop :=
  | quiet_nil : quiet calm post []
  | quiet_code c s : c ≠ SLASH → c ≠ DQ → c ≠ SQ → c ≠ AT → quiet calm post s → quiet calm post (c :: s)
  | quiet_at s : calm (AT :: s ++ post) → quiet calm post s → quiet calm post (AT :: s)
  | quiet_slash c s : c ≠ SLASH → c ≠ STAR → quiet calm post (c :: s) → quiet calm post (SLASH :: c :: s)
  | quiet_line b s : NL ∉ b → quiet calm post s → quiet calm post (SLASH :: SLASH :: b ++ NL :: s)
  | quiet_block b s : no_close b → quiet calm post s → quiet calm post (SLASH :: STAR :: b ++ STAR :: SLASH :: s)
  | quiet_str q b s : q = DQ ∨ q = SQ → str_body q b → quiet calm post s → quiet calm post (q :: b ++ q :: s).

Inductive item (D : Type) := Txt (s : list ascii) | Dir (d : D).
Arguments Txt {D}.
Arguments Dir {D}.

(** What one rewriting pass promises: [sp_show] is the surface form of a
    directive, [sp_lower] its lowered form, [sp_ok] its well-formedness before
    the text that follows. *)
Class SigilPass (D : Type) (step : list ascii → nat → nat → act) := {
  sp_show : D → list ascii;
  sp_lower : D → list ascii;
  sp_ok : D → list ascii → Prop;
  sp_calm : list ascii → Prop;
  sp_code src last i c : src !! i = Some c → c ≠ AT → step src last i = Keep (S i);
  sp_at pre l last : sp_calm (AT :: l) → step (pre ++ AT :: l) last (length pre) = Keep (S (length pre));
  sp_head d post : sp_ok d post → ∃ l, sp_show d = AT :: l;
  sp_nonempty d post : sp_ok d post → sp_lower d ≠ [];
  sp_fires pre d post last : sp_ok d post →
    let src := pre ++ sp_show d ++ post in let e := length pre + length (sp_show d) in
    (step src last (length pre) = Keep e ∧ sp_lower d = sp_show d) ∨
    ∃ upto ks, step src last (length pre) = Rewrite upto ks e e ∧ length pre ≤ upto ≤ length src ∧ Forall (in_src src) ks ∧
      range src (length pre) upto ++ text_of src ks = sp_lower d
}.

Section docs.
Context {D : Type} {step : list ascii → nat → nat → act} `{!SigilPass D step}.
Implicit Types (doc : list (item D)) (d : D).

Definition show_item (it : item D) : list ascii := match it with Txt s => s | Dir d => sp_show d end.
Definition lower_item (it : item D) : list ascii := match it with Txt s => s | Dir d => sp_lower d end.
Definition render doc : list ascii := mjoin (show_item <$> doc).
Definition lowered doc : list ascii := mjoin (lower_item <$> doc).
Fixpoint wf_doc doc : Prop :=
  match doc with
  | [] => True
  | Txt s :: doc' => quiet sp_calm (render doc') s ∧ wf_doc doc'
  | Dir d :: doc' => sp_ok d (render doc') ∧ wf_doc doc'
  end.
End docs.

(** * Lists and ranges *)

Lemma span_app f s l : Forall (λ c, f c = true) s → span f (s ++ l) = length s + span f l.
Proof. induction 1 as [|c s Hc _ IH]; [done|]. simpl. by rewrite Hc, IH. Qed.
Lemma span_stop f c l : f c = false → span f (c :: l) = 0.
Proof. simpl. by intros ->. Qed.
Lemma range_split src a b e : a ≤ b → b ≤ e → range src a e = range src a b ++ range src b e.
Proof.
  intros Hab Hbe. unfold range. replace (e - a) with ((b - a) + (e - b)) by lia.
  rewrite <- (take_drop (b - a) (drop a src)) at 1. rewrite drop_drop. replace (a + (b - a)) with b by lia.
  destruct (decide (b - a ≤ length (drop a src))) as [Hl|Hl].
  - rewrite take_app, length_take, Nat.min_l by lia. rewrite take_take, Nat.min_r by lia. f_equal. f_equal. lia.
  - rewrite (drop_ge src b) by (rewrite length_drop in Hl; lia). rewrite !take_nil, !app_nil_r, take_take. f_equal. lia.
Qed.
Lemma range_nil src a : range src a a = [].
Proof. unfold range. by rewrite Nat.sub_diag. Qed.
Lemma range_end src a : range src a (length src) = drop a src.
Proof. unfold range. apply take_ge. rewrite length_drop. lia. Qed.
Lemma text_of_app src ks ks' : text_of src (ks ++ ks') = text_of src ks ++ text_of src ks'.
Proof. unfold text_of. by rewrite fmap_app, join_app. Qed.
Lemma text_of_rest src last : last ≤ length src → text_of src (rest_of src last) = drop last src.
Proof.
  intros Hl. unfold rest_of. case_decide as Hd.
  - unfold text_of. simpl. by rewrite app_nil_r, range_end.
  - rewrite drop_ge by lia. done.
Qed.
Lemma in_src_rest src last : Forall (in_src src) (rest_of src last).
Proof. unfold rest_of. case_decide; repeat constructor; lia. Qed.

(** * The loop on a document *)

Lemma pass_loop_mono {A} (skip : A → list ascii → nat → bool * A * nat) lim step fuel fuel' st src last i r :
  fuel ≤ fuel' → pass_loop skip lim step fuel st src last i = Some r → pass_loop skip lim step fuel' st src last i = Some r.
Proof.
  revert fuel' st last i r. induction fuel as [|fuel IH]; intros fuel' st last i r Hle; simpl.
  - destruct fuel'; simpl; by case_decide.
  - destruct fuel' as [|fuel']; [lia|]. simpl. case_decide; [|done].
    destruct (skip st src i) as [[[] st'] i']; [apply IH; lia|].
    destruct (step src last i) as [j|upto ks last' j]; [apply IH; lia|].
    intros (p & E & Hr)%bind_Some. rewrite (IH fuel' st' last' j p) by (done || lia). done.
Qed.

Lemma drop_head src i c l : drop i src = c :: l → i < length src ∧ drop (S i) src = l ∧ src !! i = Some c.
Proof.
  intros E. assert (Hi : i < length src) by (apply (f_equal length) in E; rewrite length_drop in E; simpl in E; lia).
  split_and!; [done| |].
  - replace (S i) with (i + 1) by lia. by rewrite <- drop_drop, E.
  - rewrite <- (Nat.add_0_r i), <- lookup_drop, E. done.
Qed.
Lemma drop_app_next src i s l : drop i src = s ++ l → drop (i + length s) src = l.
Proof. intros E. by rewrite <- drop_drop, E, drop_app_length. Qed.

(** One round of the loop, by what the lexer says of the character. *)
Lemma loop_skip step fuel st st' (two : bool) src i c l last r :
  drop i src = c :: l → lex_step false st c (peek l) (more l) = Skip st' two →
  pass_loop skip_lex 0 step fuel st' src last (if two then S (S i) else S i) = Some r →
  pass_loop skip_lex 0 step (S fuel) st src last i = Some r.
Proof.
  intros E Hs Hr. destruct (drop_head _ _ _ _ E) as (Hi & _). cbn [pass_loop]. rewrite decide_True by lia.
  unfold skip_lex at 1. rewrite E, Hs. done.
Qed.
Lemma loop_keep step fuel src i c l last i' r :
  drop i src = c :: l → lex_step false Code c (peek l) (more l) = IsCode → step src last i = Keep i' →
  pass_loop skip_lex 0 step fuel Code src last i' = Some r →
  pass_loop skip_lex 0 step (S fuel) Code src last i = Some r.
Proof.
  intros E Hs Hk Hr. destruct (drop_head _ _ _ _ E) as (Hi & _). cbn [pass_loop]. rewrite decide_True by lia.
  unfold skip_lex at 1. rewrite E, Hs, Hk. done.
Qed.

(** The inside of comments and literals. *)
Lemma loop_line step fuel src i b l last r :
  NL ∉ b → drop i src = b ++ NL :: l →
  pass_loop skip_lex 0 step fuel Code src last (i + length b + 1) = Some r →
  pass_loop skip_lex 0 step (fuel + length b + 1) LineC src last i = Some r.
Proof.
  revert i. induction b as [|c b IH]; intros i Hn E Hr; cbn [length app] in *.
  - replace (fuel + 0 + 1) with (S fuel) by lia. eapply loop_skip; [done|done|]. cbn iota. by replace (S i) with (i + 0 + 1) by lia.
  - apply not_elem_of_cons in Hn as [Hc Hn]. replace (fuel + S (length b) + 1) with (S (fuel + length b + 1)) by lia.
    eapply loop_skip; [done|by cbn [lex_step]; rewrite eqc_ne|]. cbn iota. destruct (drop_head _ _ _ _ E) as (_ & E' & _).
    apply IH; [done|done|]. by replace (S i + length b + 1) with (i + S (length b) + 1) by lia.
Qed.
Lemma loop_block step fuel src i b l last r :
  no_close b → drop i src = b ++ STAR :: SLASH :: l →
  pass_loop skip_lex 0 step fuel Code src last (i + length b + 2) = Some r →
  pass_loop skip_lex 0 step (fuel + length b + 2) BlockC src last i = Some r.
Proof.
  revert i. induction b as [|c b IH]; intros i Hn E Hr; cbn [length app] in *.
  - replace (fuel + 0 + 2) with (S (S fuel)) by lia. eapply loop_skip; [done|done|]. cbn iota.
    eapply pass_loop_mono; [|by replace (S (S i)) with (i + 0 + 2) by lia]. lia.
  - destruct Hn as [Hc Hn]. replace (fuel + S (length b) + 2) with (S (fuel + length b + 2)) by lia.
    destruct (drop_head _ _ _ _ E) as (_ & E' & _).
    eapply (loop_skip _ _ _ BlockC false); [done| |cbn iota; apply IH; [done|done|by replace (S i + length b + 2) with (i + S (length b) + 2) by lia]].
    cbn [lex_step]. destruct (eqc c STAR && eqc (peek (b ++ STAR :: SLASH :: l)) SLASH) eqn:Eq; [|done].
    apply andb_true_iff in Eq as [->%eqc_true E2%eqc_true]. exfalso. apply Hc. split; [done|]. destruct b; done.
Qed.
Lemma loop_str step fuel src i q b l last r :
  q = DQ ∨ q = SQ → str_body q b → drop i src = b ++ q :: l →
  pass_loop skip_lex 0 step fuel Code src last (i + length b + 1) = Some r →
  pass_loop skip_lex 0 step (fuel + length b + 1) (Str q) src last i = Some r.
Proof.
  intros Hq Hb. revert i. induction Hb as [|c b Hc Hcq _ IH|c b _ IH]; intros i E Hr; cbn [length app] in *.
  - replace (fuel + 0 + 1) with (S fuel) by lia. eapply (loop_skip _ _ _ Code false); [done| |].
    + cbn [lex_step]. assert (q ≠ BSLASH) by (by destruct Hq as [->| ->]). rewrite (eqc_ne q BSLASH) by done. cbn [andb]. by rewrite eqc_refl.
    + cbn iota. by replace (S i) with (i + 0 + 1) by lia.
  - destruct (drop_head _ _ _ _ E) as (_ & E' & _). replace (fuel + S (length b) + 1) with (S (fuel + length b + 1)) by lia.
    eapply (loop_skip _ _ _ (Str q) false); [done|by cbn [lex_step]; rewrite !eqc_ne|].
    cbn iota. apply IH; [done|]. by replace (S i + length b + 1) with (i + S (length b) + 1) by lia.
  - destruct (drop_head _ _ _ _ E) as (_ & E' & _). destruct (drop_head _ _ _ _ E') as (_ & E'' & _).
    replace (fuel + S (S (length b)) + 1) with (S (S (fuel + length b + 1))) by lia.
    eapply (loop_skip _ _ _ (Str q) true); [done|done|]. cbn iota.
    eapply pass_loop_mono; [|apply IH; [done|by replace (S (S i) + length b + 1) with (i + S (S (length b)) + 1) by lia]]. lia.
Qed.

(** A quiet piece is passed over by a loop whose body ignores the characters
    other than [@] and the calm ones of those. *)
Lemma loop_quiet_gen step (calm : list ascii → Prop) fuel src i post s last r :
  (∀ src last i c, src !! i = Some c → c ≠ AT → step src last i = Keep (S i)) →
  (∀ pre l last, calm (AT :: l) → step (pre ++ AT :: l) last (length pre) = Keep (S (length pre))) →
  quiet calm post s → drop i src = s ++ post →
  pass_loop skip_lex 0 step fuel Code src last (i + length s) = Some r →
  pass_loop skip_lex 0 step (fuel + length s) Code src last i = Some r.
Proof.
  intros Hcode Hcalm Hq. revert i. induction Hq as [|c s H1 H2 H3 H4 _ IH|s Hc _ IH|c s H1 H2 Hq IH|b s Hb _ IH|b s Hb _ IH|q b s Hq Hb _ IH];
    intros i E Hr; cbn [length app] in *.
  - by rewrite !Nat.add_0_r in *.
  - destruct (drop_head _ _ _ _ E) as (_ & E' & El). replace (fuel + S (length s)) with (S (fuel + length s)) by lia.
    eapply loop_keep; [done|by apply lex_code|by eapply Hcode|]. apply IH; [done|]. by replace (S i + length s) with (i + S (length s)) by lia.
  - destruct (drop_head _ _ _ _ E) as (Hi & E' & El). replace (fuel + S (length s)) with (S (fuel + length s)) by lia.
    eapply loop_keep; [done|done| |apply IH; [done|by replace (S i + length s) with (i + S (length s)) by lia]].
    rewrite <- (take_drop i src), E. rewrite <- (length_take_le src i) at 2 by lia. rewrite Hcalm by done. by rewrite length_take_le by lia.
  - destruct (drop_head _ _ _ _ E) as (Hi & E' & El). replace (fuel + S (S (length s))) with (S (fuel + S (length s))) by lia.
    eapply loop_keep; [done|by apply lex_slash|by eapply Hcode|].
    apply IH; [done|]. by replace (S i + S (length s)) with (i + S (S (length s))) by lia.
  - rewrite length_app in *. cbn [length] in *. rewrite <- app_assoc in E. cbn [app] in E.
    destruct (drop_head _ _ _ _ E) as (_ & E' & _). destruct (drop_head _ _ _ _ E') as (_ & E'' & _).
    eapply pass_loop_mono; [|eapply (loop_skip _ (fuel + length s + length b + 1) _ LineC true); [done|done|]; cbn iota;
      eapply loop_line; [done|done|]; apply IH]. { lia. }
    + replace (S (S i) + length b + 1) with (S (S i) + length (b ++ [NL])) by (rewrite length_app; simpl; lia).
      apply drop_app_next. by rewrite E'', <- app_assoc.
    + by replace (S (S i) + length b + 1 + length s) with (i + S (S (length b + S (length s)))) by lia.
  - rewrite length_app in *. cbn [length] in *. rewrite <- app_assoc in E. cbn [app] in E.
    destruct (drop_head _ _ _ _ E) as (_ & E' & _). destruct (drop_head _ _ _ _ E') as (_ & E'' & _).
    eapply pass_loop_mono; [|eapply (loop_skip _ (fuel + length s + length b + 2) _ BlockC true); [done|done|]; cbn iota;
      eapply loop_block; [done|done|]; apply IH]. { lia. }
    + replace (S (S i) + length b + 2) with (S (S i) + length (b ++ [STAR; SLASH])) by (rewrite length_app; simpl; lia).
      apply drop_app_next. by rewrite E'', <- app_assoc.
    + by replace (S (S i) + length b + 2 + length s) with (i + S (S (length b + S (S (length s))))) by lia.
  - rewrite length_app in *. cbn [length] in *. rewrite <- app_assoc in E. cbn [app] in E.
    destruct (drop_head _ _ _ _ E) as (_ & E' & _).
    eapply pass_loop_mono; [|eapply (loop_skip _ (fuel + length s + length b + 1) _ (Str q) false); [done| |]; [|cbn iota;
      eapply loop_str; [done|done|done|]; apply IH]]. { lia. }
    + by destruct Hq as [->| ->].
    + replace (S i + length b + 1) with (S i + length (b ++ [q])) by (rewrite length_app; simpl; lia).
      apply drop_app_next. by rewrite E', <- app_assoc.
    + by replace (S i + length b + 1 + length s) with (i + S (length b + S (length s))) by lia.
Qed.

Section loop.
Context {D : Type} {step : list ascii → nat → nat → act} `{!SigilPass D step}.
Implicit Types (doc : list (item D)) (d : D).
Local Abbreviation loop := (pass_loop skip_lex 0 step).

Lemma loop_quiet fuel src i post s last r :
  quiet sp_calm post s → drop i src = s ++ post →
  loop fuel Code src last (i + length s) = Some r → loop (fuel + length s) Code src last i = Some r.
Proof. apply loop_quiet_gen; [apply sp_code|apply sp_at]. Qed.

(** The loop from the start of a document: its pieces lie inside the source,
    together with the copied rest they are the lowered document. *)
Lemma loop_doc doc src i last :
  wf_doc doc → drop i src = render doc → last ≤ i ≤ length src →
  ∃ ks last', loop (length (render doc)) Code src last i = Some (ks, last') ∧ last ≤ last' ≤ length src ∧
    Forall (in_src src) ks ∧ text_of src (ks ++ rest_of src last') = range src last i ++ lowered doc ∧ (ks = [] → last' = last) ∧ (ks ≠ [] → 0 < last').
Proof.
  revert i last. induction doc as [|[s|d] doc IH]; intros i last Hwf E Hl.
  - exists [], last. assert (i = length src) as -> by (apply (f_equal length) in E; rewrite length_drop in E; simpl in E; lia).
    split_and!; [|lia|lia|constructor| |done|done].
    + unfold pass_loop. simpl. by rewrite decide_False by lia.
    + simpl. rewrite text_of_rest, range_end, app_nil_r by lia. done.
  - destruct Hwf as [Hq Hwf]. change (render (Txt s :: doc)) with (s ++ render doc) in *.
    assert (Hle : i + length s ≤ length src).
    { apply (f_equal length) in E. rewrite length_drop, length_app in E. lia. }
    destruct (IH (i + length s) last Hwf) as (ks & last' & Hr & H1 & H2 & H3 & H4 & H5); [by apply drop_app_next|lia|].
    exists ks, last'. split_and!; [|lia|lia|done| |done|done].
    + rewrite length_app, Nat.add_comm. by eapply loop_quiet.
    + rewrite H3, (range_split src last i) by lia. rewrite <- app_assoc. f_equal.
      change (lowered (Txt s :: doc)) with (s ++ lowered doc). f_equal.
      unfold range. rewrite E. replace (i + length s - i) with (length s) by lia. by apply take_app_length.
  - destruct Hwf as [Hok Hwf]. change (render (Dir d :: doc)) with (sp_show d ++ render doc) in *.
    destruct (sp_head _ _ Hok) as [l Hh].
    assert (Hlen : length src = i + length (sp_show d) + length (render doc)).
    { apply (f_equal length) in E. rewrite length_drop, length_app in E. lia. }
    assert (Hsrc : src = take i src ++ sp_show d ++ render doc) by (by rewrite <- E, take_drop).
    assert (Ei : length (take i src) = i) by (apply length_take_le; lia).
    pose proof (sp_fires (take i src) d (render doc) last Hok) as Hf. cbn zeta in Hf. rewrite <- Hsrc, Ei in Hf.
    assert (0 < length (sp_show d)) by (rewrite Hh; simpl; lia).
    assert (Eh : drop i src = AT :: l ++ render doc) by (by rewrite E, Hh).
    destruct Hf as [[Hf Hlow]|(upto & kd & Hf & Hu & Hin & Htxt)].
    + destruct (IH (i + length (sp_show d)) last Hwf) as (ks & last' & Hr & H1 & H2 & H3 & H4 & H5); [by apply drop_app_next|lia|].
      exists ks, last'. split_and!; [|lia|lia|done| |done|done].
      * eapply pass_loop_mono; [|eapply (loop_keep _ (length (render doc))); [done|done|done|done]]. rewrite length_app, Hh. simpl. lia.
      * rewrite H3, (range_split src last i) by lia. rewrite <- app_assoc. f_equal.
        change (lowered (Dir d :: doc)) with (sp_lower d ++ lowered doc). f_equal. rewrite Hlow.
        unfold range. rewrite E. replace (i + length (sp_show d) - i) with (length (sp_show d)) by lia. by apply take_app_length.
    + destruct (IH (i + length (sp_show d)) (i + length (sp_show d)) Hwf) as (ks & last' & Hr & H1 & H2 & H3 & H4 & H5);
        [by apply drop_app_next|lia|].
      exists (Cut last upto :: kd ++ ks), last'. split_and!; [|lia|lia| | |done|lia].
      * eapply (pass_loop_mono _ _ _ (S (length (render doc)))); [rewrite length_app, Hh; simpl; lia|]. cbn [pass_loop].
        rewrite decide_True by lia. unfold skip_lex at 1. rewrite Eh, lex_code by done. rewrite Hf, Hr. done.
      * constructor; [simpl; lia|]. by apply Forall_app.
      * change (lowered (Dir d :: doc)) with (sp_lower d ++ lowered doc). cbn [app]. rewrite <- app_assoc.
        change (text_of src (Cut last upto :: kd ++ ks ++ rest_of src last')) with
          (range src last upto ++ text_of src (kd ++ ks ++ rest_of src last')).
        rewrite text_of_app, H3, range_nil, <- Htxt. rewrite (range_split src last i upto) by lia. by rewrite <- !app_assoc.
Qed.
End loop.

(** * The early exit *)

(** A quiet piece does not change how the text behind it is lexed. *)
Lemma quiet_mask calm post s : quiet calm post s →
  ∃ m, length m = length s ∧ lex_mask false Code (s ++ post) = m ++ lex_mask false Code post.
Proof.
  induction 1 as [|c s H1 H2 H3 H4 _ (m & Hm & IH)|s Hc _ (m & Hm & IH)|c s H1 H2 Hq (m & Hm & IH)|b s Hb _ (m & Hm & IH)
    |b s Hb _ (m & Hm & IH)|q b s Hq Hb _ (m & Hm & IH)].
  - by exists [].
  - exists (true :: m). split; [simpl; by rewrite Hm|]. cbn [app lex_mask]. by rewrite lex_code, IH.
  - exists (true :: m). split; [simpl; by rewrite Hm|]. cbn [app lex_mask]. by rewrite lex_code, IH.
  - exists (true :: m). split; [simpl in *; by rewrite Hm|].
    change (lex_mask false Code ((SLASH :: c :: s) ++ post)) with
      (match lex_step false Code SLASH c true with
       | Skip st' false => false :: lex_mask false st' ((c :: s) ++ post)
       | Skip st' true => false :: false :: lex_mask false st' (s ++ post)
       | IsCode => true :: lex_mask false Code ((c :: s) ++ post)
       end). rewrite lex_slash by done. by rewrite IH.
  - exists (false :: false :: replicate (length b) false ++ false :: m).
    split; [simpl; rewrite !length_app, length_replicate; simpl; by rewrite Hm|].
    change (lex_mask false Code ((SLASH :: SLASH :: b ++ NL :: s) ++ post)) with (false :: false :: lex_mask false LineC ((b ++ NL :: s) ++ post)).
    rewrite <- app_assoc. cbn [app]. rewrite mask_line, IH, <- app_assoc by done. done.
  - exists (false :: false :: replicate (length b) false ++ false :: false :: m).
    split; [simpl; rewrite !length_app, length_replicate; simpl; by rewrite Hm|].
    change (lex_mask false Code ((SLASH :: STAR :: b ++ STAR :: SLASH :: s) ++ post)) with
      (false :: false :: lex_mask false BlockC ((b ++ STAR :: SLASH :: s) ++ post)).
    rewrite <- app_assoc. cbn [app]. rewrite mask_block, IH, <- app_assoc by done. done.
  - exists (false :: replicate (length b) false ++ false :: m).
    split; [simpl; rewrite !length_app, length_replicate; simpl; by rewrite Hm|].
    transitivity (false :: lex_mask false (Str q) ((b ++ q :: s) ++ post)).
    { by destruct Hq as [->| ->]. }
    rewrite <- app_assoc. cbn [app]. rewrite mask_str by done.
    assert (eqc q BSLASH = false) as -> by (by destruct Hq as [->| ->]). cbn [andb]. by rewrite IH, <- app_assoc.
Qed.

Lemma contains_at l tok i :
  tok ≠ [] → lex_mask false Code l !! i = Some true → take (length tok) (drop i l) = tok →
  cc_contains_token_top_level l tok = true.
Proof.
  intros Ht Hm Hp. unfold cc_contains_token_top_level. rewrite decide_False by done.
  assert (Hl : i + length tok ≤ length l).
  { apply (f_equal length) in Hp. rewrite length_take, length_drop in Hp. assert (0 < length tok) by (destruct tok; [done|simpl; lia]). lia. }
  assert (Hin : ∃ c, marked false Code l !! i = Some (c, true)).
  { destruct (lookup_lt_is_Some_2 l i) as [c Hc]; [assert (0 < length tok) by (destruct tok; [done|simpl; lia]); lia|].
    exists c. unfold marked. by rewrite lookup_zip_with, Hc, Hm. }
  apply bool_decide_eq_true_2. unfold cc_find_substr_top_level, find_word. rewrite decide_False by (intros [?|?]; [done|lia]).
  assert (Er : range l 0 (length l) = l) by (unfold range; rewrite drop_0, Nat.sub_0_r; by apply firstn_all). rewrite Er.
  pose proof (find_word_least false tok None Code l Ht) as Hf. destruct (find_word_loop false tok None Code 0 l) as [j|] eqn:Ej.
  - destruct Hf as [((? & Hj) & _) _]. apply lookup_lt_Some in Hj. unfold marked in Hj. rewrite length_zip_with_l_eq in Hj; [lia|].
    by rewrite lex_mask_length.
  - exfalso. apply (Hf i). split_and!; done.
Qed.

Section early.
Context {D : Type} {step : list ascii → nat → nat → act} `{!SigilPass D step}.
Implicit Types (doc : list (item D)) (d : D).

(** A document with a directive contains a token of the pass. *)
Lemma doc_contains doc (toks : list (list ascii)) d :
  wf_doc doc → Dir d ∈ doc → (∀ d, ∃ tok l, tok ∈ toks ∧ tok ≠ [] ∧ sp_show d = tok ++ l) →
  ∃ tok, tok ∈ toks ∧ cc_contains_token_top_level (render doc) tok = true.
Proof.
  intros Hwf Hin Htok.
  assert (H : ∃ tok i, tok ∈ toks ∧ tok ≠ [] ∧ lex_mask false Code (render doc) !! i = Some true ∧ take (length tok) (drop i (render doc)) = tok).
  { revert Hwf Hin. induction doc as [|[s|d'] doc IH]; intros Hwf Hin; [by apply not_elem_of_nil in Hin| |].
    - destruct Hwf as [Hq Hwf]. apply elem_of_cons in Hin as [|Hin]; [done|]. destruct (IH Hwf Hin) as (tok & i & H1 & H2 & H3 & H4).
      change (render (Txt s :: doc)) with (s ++ render doc). destruct (quiet_mask _ _ _ Hq) as (m & Hm & Em).
      exists tok, (length s + i). split_and!; [done|done| |].
      + rewrite Em, lookup_app_r by lia. by replace (length s + i - length m) with i by lia.
      + rewrite drop_app_ge by lia. by replace (length s + i - length s) with i by lia.
    - destruct Hwf as [Hok _]. destruct (Htok d') as (tok & l & H1 & H2 & H3). destruct (sp_head _ _ Hok) as [l' Hh].
      change (render (Dir d' :: doc)) with (sp_show d' ++ render doc). exists tok, 0. split_and!; [done|done| |].
      + rewrite Hh. cbn [app lex_mask]. by rewrite lex_code.
      + rewrite drop_0, H3, <- app_assoc. by apply take_app_length. }
  destruct H as (tok & i & H1 & H2 & H3 & H4). exists tok. split; [done|]. by eapply contains_at.
Qed.
Lemma lowered_quiet doc : (∀ d, Dir d ∉ doc) → lowered doc = render doc.
Proof.
  induction doc as [|[s|d] doc IH]; intros H; [done| |].
  - change (s ++ lowered doc = s ++ render doc). f_equal. apply IH. intros d Hd. apply (H d). by right.
  - exfalso. apply (H d). by left.
Qed.
Lemma has_directive doc : (∀ d : D, Dir d ∉ doc) ∨ ∃ d : D, Dir d ∈ doc.
Proof.
  induction doc as [|[s|d] doc [IH|[d' IH]]].
  - left. intros d. apply not_elem_of_nil.
  - left. intros d [?|?]%elem_of_cons; [done|]. by apply (IH d).
  - right. exists d'. by right.
  - right. exists d. by left.
  - right. exists d. by left.
Qed.
End early.

(** * The buffer *)

Lemma put_ok rok src k x ct :
  (∀ z, rok z = true) → in_src src k → sb_ok x ct → (sb_cap x ≤ 2 ^ 62)%Z → (Z.of_nat (length (ct ++ chunk_text src k)) + 1 ≤ 2 ^ 61)%Z →
  ∃ x', put rok src k x = Some x' ∧ (sb_cap x' ≤ 2 ^ 62)%Z ∧ sb_ok x' (ct ++ chunk_text src k).
Proof.
  intros Hr Hin Hok Hc Hl. destruct k as [a b|s]; [|by apply sb_append_ok]. simpl in *. case_decide as Hab.
  - subst b. exists x. rewrite range_nil, app_nil_r. done.
  - rewrite decide_True by lia. assert (range (src ++ [NUL]) a b = range src a b) as ->; [|by apply sb_append_ok].
    unfold range. rewrite drop_app_le by lia. rewrite take_app_le; [done|]. rewrite length_drop. lia.
Qed.
Lemma puts_ok rok src ks x ct :
  (∀ z, rok z = true) → Forall (in_src src) ks → sb_ok x ct → (sb_cap x ≤ 2 ^ 62)%Z →
  (Z.of_nat (length (ct ++ text_of src ks)) + 1 ≤ 2 ^ 61)%Z →
  ∃ x', puts rok src ks x = Some x' ∧ sb_ok x' (ct ++ text_of src ks).
Proof.
  intros Hr Hin. revert x ct. induction Hin as [|k ks Hk _ IH]; intros x ct Hok Hc Hl.
  - exists x. unfold text_of. simpl. by rewrite app_nil_r.
  - change (text_of src (k :: ks)) with (chunk_text src k ++ text_of src ks) in *. rewrite !length_app in Hl.
    destruct (put_ok rok src k x ct) as (x' & E & Hc' & Hok'); [done..|rewrite length_app; lia|].
    cbn [puts]. rewrite E. cbn. rewrite app_assoc. apply IH; [done|done|]. rewrite !length_app. lia.
Qed.

Definition before_nul s : list ascii := take (span (λ c, negb (eqc c NUL)) s) s.
Lemma c_string_ok b ct : take (length ct) b = Some <$> ct → b !! length ct = Some (Some NUL) → c_string b = Some (before_nul ct).
Proof.
  revert b. induction ct as [|c ct IH]; intros [|o b] Ht Hn; try done.
  - simpl in Hn. simplify_eq. done.
  - cbn in Ht. injection Ht as -> Ht. cbn [length lookup list_lookup] in Hn. unfold before_nul. cbn [c_string span].
    destruct (eqc c NUL) eqn:Ec; [done|]. cbn [negb take]. by rewrite (IH b Ht Hn).
Qed.
Lemma before_nul_id s : NUL ∉ s → before_nul s = s.
Proof.
  unfold before_nul. induction s as [|c s IH]; intros Hn; [done|]. apply not_elem_of_cons in Hn as [Hc Hn].
  cbn [span]. rewrite eqc_ne by done. cbn [negb take]. by rewrite IH.
Qed.
Lemma before_nul_snoc s : NUL ∉ s → before_nul (s ++ [NUL]) = s.
Proof.
  unfold before_nul. induction s as [|c s IH]; intros Hn; [done|]. apply not_elem_of_cons in Hn as [Hc Hn].
  cbn [app span]. rewrite eqc_ne by done. cbn [negb take]. by rewrite IH.
Qed.

Lemma emit_ok rok src ks :
  (∀ z, rok z = true) → Forall (in_src src) ks → (Z.of_nat (length (text_of src ks)) + 1 ≤ 2 ^ 61)%Z → text_of src ks ≠ [] →
  emit rok src ks = PText (before_nul (text_of src ks)).
Proof.
  intros Hr Hin Hl Hne. unfold emit.
  destruct (puts_ok rok src ks sb_empty []) as (x & -> & Hlen & Hb); [done|done|done|done|done|]. unfold buffer_of.
  destruct (sb_buf x) as [b|]; [|by destruct Hb]. destruct Hb as (_ & Ht & Hn). by rewrite (c_string_ok _ _ Ht Hn).
Qed.

(** * A pass on a document *)

(** The text the chain goes on with. *)
Definition chain_goes_on (ch : CCPassChain) (r : presult) s : Prop :=
  ∃ ch', cc_pass_chain_apply ch r = Some (true, ch') ∧ pc_src ch' = s.
Lemma goes_on_null ch : chain_goes_on ch PNull (pc_src ch).
Proof. by exists ch. Qed.
Lemma goes_on_text ch s : chain_goes_on ch (PText s) s.
Proof. eexists. by split. Qed.

Section finish.
Context {D : Type} {step : list ascii → nat → nat → act} `{!SigilPass D step}.
Context (rok : Z → bool) (Hrok : ∀ z, rok z = true).
Context (doc : list (item D)) (Hwf : wf_doc doc) (Hnul : NUL ∉ lowered doc).
Context (Hsize : (Z.of_nat (length (lowered doc)) + 2 ≤ 2 ^ 61)%Z).
Local Abbreviation src := (render doc).
Local Abbreviation result := (pass_loop skip_lex 0 step (length src) Code src 0 0).

Lemma lowered_empty : lowered doc = [] → render doc = [].
Proof using Hwf.
  clear Hnul Hsize. revert Hwf. induction doc as [|[s|d] doc' IH]; intros Hw E; [done| |].
  - change (s ++ lowered doc' = []) in E. change (s ++ render doc' = []). apply app_nil in E as [-> E]. apply (IH (proj2 Hw) E).
  - change (sp_lower d ++ lowered doc' = []) in E. apply app_nil in E as [E _]. by destruct (sp_nonempty d _ (proj1 Hw)).
Qed.
(** The loop returns; its pieces and the copied rest are the lowered text. *)
Lemma loop_result : ∃ ks last, result = Some (ks, last) ∧ Forall (in_src src) (ks ++ rest_of src last) ∧
  text_of src (ks ++ rest_of src last) = lowered doc ∧ (ks = [] ↔ last = 0) ∧ last ≤ length src.
Proof using Hwf.
  destruct (loop_doc doc src 0 0 Hwf) as (ks & last & Hr & Hl & Hin & Ht & Hk & Hk'); [done|lia|].
  exists ks, last. split_and!; [done| |by rewrite Ht, range_nil| |lia]; [|split; [done|]; intros ->; destruct ks; [done|]; specialize (Hk' ltac:(done)); lia].
  apply Forall_app. split; [done|apply in_src_rest].
Qed.
Lemma finish_changed_doc term ch :
  term = [] ∨ term = [Lit [NUL]] → pc_src ch = src → chain_goes_on ch (finish_changed rok src result term) (lowered doc).
Proof using Hrok Hwf Hnul Hsize.
  intros Hterm Hch. destruct loop_result as (ks & last & Hr & Hin & Ht & Hk & Hl). rewrite Hr. destruct ks as [|k ks].
  - cbn [finish_changed]. rewrite <- Ht, (proj1 Hk eq_refl). cbn [app]. rewrite text_of_rest, drop_0, <- Hch by lia. apply goes_on_null.
  - assert (Hne : lowered doc ≠ []).
    { intros E. rewrite (lowered_empty E) in Hr. by injection Hr. }
    cbn [finish_changed]. rewrite app_assoc.
    destruct Hterm as [->| ->].
    + rewrite app_nil_r, emit_ok; [|done|done|rewrite Ht; lia|by rewrite Ht].
      rewrite Ht, before_nul_id by done. apply goes_on_text.
    + assert (Ht' : text_of src (((k :: ks) ++ rest_of src last) ++ [Lit [NUL]]) = lowered doc ++ [NUL]) by (by rewrite text_of_app, Ht).
      rewrite emit_ok; [|done|apply Forall_app; split; [done|by repeat constructor]| |].
      * rewrite Ht', before_nul_snoc by done. apply goes_on_text.
      * rewrite Ht', length_app. simpl. lia.
      * rewrite Ht'. by destruct (lowered doc).
Qed.
Lemma finish_last_doc ch : pc_src ch = src → chain_goes_on ch (finish_last rok src result) (lowered doc).
Proof using Hrok Hwf Hnul Hsize.
  intros Hch. enough (finish_last rok src result = finish_changed rok src result []) as ->.
  { apply finish_changed_doc; [by left|done]. }
  destruct loop_result as (ks & last & -> & _ & _ & Hk & _). unfold finish_last, finish_changed.
  destruct (decide (last = 0)) as [->|Hl]; [by rewrite (proj2 Hk eq_refl)|].
  destruct ks; [by destruct Hl; apply Hk|]. by rewrite app_nil_r.
Qed.
(** The early exits: nothing is there to do. *)
Lemma early_doc (toks : list (list ascii)) ch :
  (∀ d : D, ∃ tok l, tok ∈ toks ∧ tok ≠ [] ∧ sp_show d = tok ++ l) →
  (∀ tok, tok ∈ toks → cc_contains_token_top_level src tok = false) → pc_src ch = src → chain_goes_on ch PNull (lowered doc).
Proof using Hwf.
  intros Htok Hno Hch. enough (lowered doc = src) as -> by (rewrite <- Hch; apply goes_on_null).
  destruct (has_directive doc) as [Hn|[d Hd]]; [by apply lowered_quiet|].
  destruct (doc_contains doc toks d Hwf Hd Htok) as (tok & Hin & Hc). by rewrite Hno in Hc.
Qed.
Lemma empty_doc ch : src = [] → pc_src ch = src → chain_goes_on ch PNull (lowered doc).
Proof using Hwf.
  intros E Hch. enough (lowered doc = src) as -> by (rewrite <- Hch; apply goes_on_null).
  destruct loop_result as (ks & last & Hr & _ & Ht & _). rewrite E in Hr, Ht. injection Hr as <- <-. by rewrite <- Ht, E.
Qed.
End finish.
