(* ===== verification/PpSigilDoc.v ===== *)
(** The four [@] passes as instances of [SigilPass]: the surface form of their
    directives and what each is lowered to. *)
From S2P Require Import Prelude Bytes Lex Text TextScan TextDecl TextBuild PpPass PpSigil PpDoc.

Implicit Types (src l s pre post : list ascii) (i p last : nat) (c : ascii).

(** * Reading at a position *)

Lemma kw_at_drop src p kw l : drop p src = kw ++ l → kw_at src p kw = true.
Proof. intros E. unfold kw_at. apply bool_decide_eq_true_2. by rewrite E, take_app_length. Qed.
Lemma kw_at_shift pre l p kw : kw_at (pre ++ l) (length pre + p) kw = kw_at l p kw.
Proof. unfold kw_at. by rewrite <- drop_drop, drop_app_length. Qed.
Lemma kw_at_head src p c0 kw c : kw_at src p (c0 :: kw) = true → src !! p = Some c → c = c0.
Proof.
  intros H%bool_decide_eq_true_1 Hc. rewrite (drop_S src c p Hc) in H. simpl in H. congruence.
Qed.
Lemma char_at_drop src p c l c' : drop p src = c :: l → char_at src p c' = eqc c c'.
Proof.
  intros E. destruct (drop_head _ _ _ _ E) as (_ & _ & El). unfold char_at, eqc. rewrite El.
  apply bool_decide_ext. naive_solver.
Qed.
Lemma char_at_shift pre l p c : char_at (pre ++ l) (length pre + p) c = char_at l p c.
Proof. unfold char_at. rewrite lookup_app_r by lia. by replace (length pre + p - length pre) with p by lia. Qed.
Lemma test_at_drop src p c l f : drop p src = c :: l → test_at src p f = f c.
Proof. intros E. destruct (drop_head _ _ _ _ E) as (_ & _ & El). unfold test_at. by rewrite El. Qed.
Lemma test_at_shift pre l p f : test_at (pre ++ l) (length pre + p) f = test_at l p f.
Proof. unfold test_at. rewrite lookup_app_r by lia. by replace (length pre + p - length pre) with p by lia. Qed.
Lemma skip_while_drop f src p s l :
  drop p src = s ++ l → Forall (λ c, f c = true) s → match l with [] => True | c :: _ => f c = false end →
  skip_while f src p = p + length s.
Proof.
  intros E Hs Hl. unfold skip_while. rewrite E, span_app by done. destruct l as [|c l]; simpl; [lia|]. rewrite Hl. lia.
Qed.
Lemma skip_while_shift f pre l p : skip_while f (pre ++ l) (length pre + p) = length pre + skip_while f l p.
Proof. unfold skip_while. rewrite <- drop_drop, drop_app_length. lia. Qed.
Lemma drop_shift pre l p : drop (length pre + p) (pre ++ l) = drop p l.
Proof. by rewrite <- drop_drop, drop_app_length. Qed.
Lemma range_drop src p s l : drop p src = s ++ l → range src p (p + length s) = s.
Proof. intros E. unfold range. rewrite E. by apply take_app_length'; lia. Qed.
Lemma drop_le src p s l : drop p src = s ++ l → s ≠ [] → p + length s ≤ length src.
Proof. intros E Hs. apply (f_equal length) in E. rewrite length_drop, length_app in E. destruct s; [done|]. simpl in *. lia. Qed.
Create Rewrite HintDb shift.
#[export] Hint Rewrite kw_at_shift char_at_shift test_at_shift skip_while_shift drop_shift : shift.

Lemma text_of_cons src k ks : text_of src (k :: ks) = chunk_text src k ++ text_of src ks.
Proof. done. Qed.
Ltac solve_in_src := repeat (apply Forall_cons; split; [cbn [in_src]; (exact I || lia || (rewrite !length_app in *; lia))|]); by apply Forall_nil.

(** Blanks and identifiers. *)
Definition all (f : ascii → bool) s : Prop := Forall (λ c, f c = true) s.
Definition ident s : Prop := match s with c :: s' => cc_is_ident_start c = true ∧ all cc_is_ident_char s' | [] => False end.
Definition starts_other (f : ascii → bool) s : Prop := match s with c :: _ => f c = false | [] => True end.
Lemma ident_chars s : ident s → all cc_is_ident_char s.
Proof. destruct s as [|c s]; [done|]. intros [Hc Hs]. constructor; [|done]. unfold cc_is_ident_char. by rewrite Hc. Qed.
Lemma blank_not_ident c : is_ws c = true → cc_is_ident_char c = false.
Proof. unfold is_ws. intros H. repeat (apply orb_true_iff in H as [H|H]); apply eqc_true in H as ->; done. Qed.
Lemma blank_ws c : is_blank c = true → is_ws c = true.
Proof. unfold is_blank, is_ws. by intros [->| ->]%orb_true_iff; rewrite ?orb_true_r. Qed.
Lemma ident_not_ws c : cc_is_ident_char c = true → is_ws c = false.
Proof. intros H. destruct (is_ws c) eqn:E; [|done]. apply blank_not_ident in E. congruence. Qed.
Lemma start_char c : cc_is_ident_start c = true → cc_is_ident_char c = true.
Proof. intros H. unfold cc_is_ident_char. by rewrite H. Qed.

(** * Link directives *)

Record link := Link { lk_b1 : list ascii; lk_lib : list ascii; lk_b2 : list ascii }.
Definition link_show (d : link) : list ascii := txt "@link(" ++ lk_b1 d ++ DQ :: lk_lib d ++ DQ :: lk_b2 d ++ [RPAR].
Definition link_lower (d : link) : list ascii := LINK_OPEN ++ lk_lib d ++ LINK_CLOSE.
Definition link_ok (d : link) (post : list ascii) : Prop :=
  all is_blank (lk_b1 d) ∧ all (λ c, negb (eqc c DQ) && negb (eqc c NL)) (lk_lib d) ∧ all is_blank (lk_b2 d).

Lemma link_fires pre d post last : link_ok d post →
  let src := pre ++ link_show d ++ post in let e := length pre + length (link_show d) in
  ∃ ks, link_step src last (length pre) = Rewrite (length pre) ks e e ∧ Forall (in_src src) ks ∧ text_of src ks = link_lower d.
Proof.
  intros (H1 & H2 & H3) src e. destruct d as [b1 lib b2]. simpl in *.
  assert (E0 : drop (length pre) src = txt "@link(" ++ b1 ++ DQ :: lib ++ DQ :: b2 ++ RPAR :: post).
  { unfold src, link_show. simpl. rewrite drop_app_length. by repeat (rewrite <- ?app_assoc; simpl). }
  pose proof (drop_app_next _ _ _ _ E0) as E1. change (length (txt "@link(")) with 6 in E1.
  pose proof (drop_app_next _ _ _ _ E1) as E2. destruct (drop_head _ _ _ _ E2) as (_ & E3 & _).
  pose proof (drop_app_next _ _ _ _ E3) as E4. destruct (drop_head _ _ _ _ E4) as (Hlt & E5 & _).
  pose proof (drop_app_next _ _ _ _ E5) as E6. destruct (drop_head _ _ _ _ E6) as (Hlt6 & _ & _).
  eexists. unfold link_step. rewrite (kw_at_drop _ _ _ _ E0).
  rewrite (skip_while_drop _ _ _ _ _ E1) by done. rewrite (char_at_drop _ _ _ _ _ E2), eqc_refl.
  rewrite (skip_while_drop _ _ _ _ _ E3) by done. rewrite (char_at_drop _ _ _ _ _ E4), eqc_refl.
  rewrite (skip_while_drop _ _ _ _ _ E5) by done. rewrite (char_at_drop _ _ _ _ _ E6), eqc_refl. split_and!.
  - assert (S (S (S (length pre + 6 + length b1) + length lib) + length b2) = e) as ->; [|done].
    unfold e, link_show. simpl. repeat (rewrite length_app; simpl). lia.
  - solve_in_src.
  - rewrite !text_of_cons. cbn [chunk_text]. by rewrite (range_drop _ _ _ _ E3).
Qed.
#[export, refine] Instance link_pass : SigilPass link link_step := {
  sp_show := link_show; sp_lower := link_lower; sp_ok := link_ok; sp_calm l := kw_at l 0 (txt "@link(") = false }.
Proof.
  - intros src last i c Hc Hne. unfold link_step. destruct (kw_at src i (txt "@link(")) eqn:E; [|done].
    by destruct Hne; eapply (kw_at_head _ _ AT).
  - intros pre l last Hc. unfold link_step. rewrite <- (Nat.add_0_r (length pre)) at 1. rewrite kw_at_shift.
    by rewrite Hc.
  - intros d post _. by eexists.
  - by intros d post _.
  - intros pre d post last Hok. right. destruct (link_fires pre d post last Hok) as (ks & H1 & H2 & H3).
    exists (length pre), ks. rewrite length_app, range_nil. split_and!; [done|lia|lia|done|done].
Defined.

(** * Calls *)

(** Bracketed text as the scanners see it: balanced brackets [o] and [cl] and
    complete literals; [chr] when character literals are recognised. *)
Inductive nested (o cl : ascii) (chr : bool) : list ascii → Prop :=
  | ca_nil : nested o cl chr []
  | ca_char c s : c ≠ o → c ≠ cl → c ≠ DQ → (chr = true → c ≠ SQ) → nested o cl chr s → nested o cl chr (c :: s)
  | ca_str q b s : q = DQ ∨ (chr = true ∧ q = SQ) → str_body q b → nested o cl chr s → nested o cl chr (q :: b ++ q :: s)
  | ca_group s1 s2 : nested o cl chr s1 → nested o cl chr s2 → nested o cl chr (o :: s1 ++ cl :: s2).
(** The arguments of a call. *)
Definition call_args : bool → list ascii → Prop := nested LPAR RPAR.

Definition add1 (k : nat) (r : nat * nat) : nat * nat := (k + r.1, r.2).

Section qscan.
Context (o cl : ascii) (Ho : o ≠ DQ ∧ o ≠ SQ) (Hcl : cl ≠ DQ ∧ cl ≠ SQ) (Hoc : cl ≠ o).
Local Abbreviation scan := (qscan true o cl).

Lemma qscan_quote q b d l : str_body q b → q ≠ BSLASH →
  scan (Some q) (S d) (b ++ q :: l) = add1 (S (length b)) (scan None (S d) l).
Proof.
  intros Hb Hq. induction Hb as [|c b Hc Hcq _ IH|c b _ IH]; cbn [app qscan length].
  - rewrite (eqc_ne q BSLASH), eqc_refl by done. by destruct (scan None (S d) l).
  - rewrite (eqc_ne c BSLASH), (eqc_ne c q), IH by done. unfold add1. simpl. f_equal.
  - rewrite eqc_refl, IH. unfold add1. simpl. f_equal.
Qed.
Lemma qscan_args s d l : nested o cl true s → scan None (S d) (s ++ l) = add1 (length s) (scan None (S d) l).
Proof using Ho Hcl Hoc.
  destruct Ho as [Ho1 Ho2], Hcl as [Hc1 Hc2].
  intros Hs. revert d l. induction Hs as [|c s H1 H2 H3 H4 _ IH|q b s Hq Hb _ IH|s1 s2 _ IH1 _ IH2]; intros d l.
  - unfold add1. simpl. by destruct (scan None (S d) l).
  - cbn [app qscan length]. rewrite !eqc_ne by (done || by apply H4). cbn [andb orb]. by rewrite IH.
  - assert (q ≠ BSLASH ∧ eqc q DQ || eqc q SQ = true) as [Hq1 Hq2] by (by destruct Hq as [->|[_ ->]]).
    cbn [app qscan length]. rewrite Hq2. cbn [andb]. rewrite <- app_assoc. cbn [app]. rewrite qscan_quote, IH by done.
    unfold add1. simpl. f_equal. rewrite length_app. simpl. lia.
  - cbn [app qscan length]. rewrite (eqc_ne o DQ), (eqc_ne o SQ), eqc_refl by done. cbn [orb andb].
    rewrite <- app_assoc. cbn [app]. rewrite IH1. cbn [app qscan length]. rewrite (eqc_ne cl DQ), (eqc_ne cl SQ), (eqc_ne cl o), eqc_refl by done.
    cbn [orb andb]. rewrite IH2. unfold add1. simpl. f_equal. rewrite length_app. simpl. lia.
Qed.
(** The closing bracket of a well-formed text is found. *)
Lemma qscan_close s l : nested o cl true s → scan None 1 (s ++ cl :: l) = (length s + 1, 0).
Proof using Ho Hcl Hoc.
  intros Hs. rewrite qscan_args by done. destruct Ho, Hcl. cbn [qscan]. rewrite (eqc_ne cl DQ), (eqc_ne cl SQ), (eqc_ne cl o), eqc_refl by done.
  cbn [orb andb]. by destruct l.
Qed.
End qscan.

(** * Call-site modes *)

Record site := Site { st_block : bool; st_ws1 : list ascii; st_id : list ascii; st_ws2 : list ascii; st_args : list ascii }.
Definition call_text (id ws2 args : list ascii) : list ascii := id ++ ws2 ++ LPAR :: args ++ [RPAR].
Definition site_show (d : site) : list ascii :=
  (if st_block d then txt "@blocking" else txt "@noblock") ++ st_ws1 d ++ call_text (st_id d) (st_ws2 d) (st_args d).
Definition site_lower (d : site) : list ascii :=
  (if st_block d then SITE_BLOCKING else SITE_NOBLOCK) ++ call_text (st_id d) (st_ws2 d) (st_args d).
(** A call is not followed by a body. *)
Definition no_body post : Prop := starts_other (λ c, eqc c LBR) (drop (span is_ws post) post).
Definition site_kw (b : bool) : list ascii := if b then txt "@blocking" else txt "@noblock".
(** Nor is there another mode among its arguments. *)
Definition site_ok (d : site) (post : list ascii) : Prop :=
  all is_ws (st_ws1 d) ∧ st_ws1 d ≠ [] ∧ ident (st_id d) ∧ all is_ws (st_ws2 d) ∧ call_args true (st_args d) ∧ no_body post ∧
  ∀ b, strstr (st_args d) (site_kw b) = None.
(** The [@]s that do not begin a call with a mode: another word; an attribute
    without a name behind it; a declaration, whose attribute stands before a
    type, a name that is not followed by a parenthesis; and a definition, whose
    parenthesis is followed by a body. *)
Inductive site_calm : list ascii → Prop :=
  | calm_word l : (∀ b post, l = site_kw b ++ post → ¬ starts_other cc_is_ident_char post) → site_calm l
  | calm_bare b ws post : all is_ws ws → starts_other cc_is_ident_char (ws ++ post) → starts_other is_ws post → starts_other cc_is_ident_start post →
      site_calm (site_kw b ++ ws ++ post)
  | calm_decl b ws id ws2 post : all is_ws ws → ws ≠ [] → ident id → starts_other cc_is_ident_char (ws2 ++ post) → all is_ws ws2 →
      starts_other is_ws post → starts_other (λ c, eqc c LPAR) post → site_calm (site_kw b ++ ws ++ id ++ ws2 ++ post)
  | calm_defn b ws id ws2 args ws3 post : all is_ws ws → ws ≠ [] → ident id → all is_ws ws2 → call_args true args → all is_ws ws3 →
      site_calm (site_kw b ++ ws ++ id ++ ws2 ++ LPAR :: args ++ RPAR :: ws3 ++ LBR :: post).

Lemma site_mode src p (b : bool) l : drop p src = (if b then txt "@blocking" else txt "@noblock") ++ l → starts_other cc_is_ident_char l →
  call_mode src p = Some (if b then (SITE_BLOCKING, p + 9) else (SITE_NOBLOCK, p + 8)).
Proof.
  intros E Hl. unfold call_mode. assert (Hafter : ∀ k, drop (p + k) src = l → negb (test_at src (p + k) cc_is_ident_char) = true).
  { intros k Ek. destruct l as [|c l]; [|by rewrite (test_at_drop _ _ _ _ _ Ek), Hl].
    unfold test_at. by rewrite <- (Nat.add_0_r (p + k)), <- lookup_drop, Ek. }
  destruct b.
  - pose proof (drop_app_next _ _ _ _ E) as E1. change (length (txt "@blocking")) with 9 in E1.
    destruct (drop_head _ _ AT (txt "blocking" ++ l) E) as (_ & E2 & _).
    rewrite (kw_at_drop _ _ _ _ E2). by rewrite (Hafter 9 E1).
  - pose proof (drop_app_next _ _ _ _ E) as E1. change (length (txt "@noblock")) with 8 in E1.
    destruct (drop_head _ _ AT (txt "noblock" ++ l) E) as (_ & E2 & _).
    rewrite (kw_at_drop _ _ _ _ E2). rewrite (Hafter 8 E1).
    replace (kw_at src (S p) (txt "blocking")) with false; [done|]. symmetry. apply bool_decide_eq_false_2. by rewrite E2.
Qed.
Lemma call_mode_shift pre l p : call_mode (pre ++ l) (length pre + p) = option_map (λ '(m, k), (m, length pre + k)) (call_mode l p).
Proof.
  unfold call_mode. rewrite <- !Nat.add_assoc, <- Nat.add_succ_r. autorewrite with shift. by repeat case_match.
Qed.
Lemma call_step_shift pre l last last' p i : call_step l last' p = Keep i → call_step (pre ++ l) last (length pre + p) = Keep (length pre + i).
Proof.
  unfold call_step. rewrite char_at_shift, call_mode_shift. destruct (negb (char_at l p AT)); [intros [= <-]; f_equal; lia|].
  destruct (call_mode l p) as [[m k]|]; [|intros [= <-]; f_equal; lia]. cbn [option_map].
  autorewrite with shift. destruct (negb (test_at l _ _)); [intros [= <-]; f_equal; lia|].
  destruct (negb (char_at l _ LPAR)); [intros [= <-]; f_equal; lia|]. rewrite <- Nat.add_succ_r. autorewrite with shift.
  destruct (qscan _ _ _ _ _ _) as [mm dd]. destruct (negb _); [intros [= <-]; f_equal; lia|].
  rewrite <- Nat.add_assoc. autorewrite with shift. case_match; intros [= <-]; f_equal; lia.
Qed.

Lemma site_fires pre d post last : site_ok d post →
  let src := pre ++ site_show d ++ post in let e := length pre + length (site_show d) in
  ∃ ks, call_step src last (length pre) = Rewrite (length pre) ks e e ∧ Forall (in_src src) ks ∧ text_of src ks = site_lower d.
Proof.
  intros (H1 & Hne & Hid & H2 & Ha & Hb & _) src e. destruct d as [b ws1 id ws2 args]. cbn [st_block st_ws1 st_id st_ws2 st_args] in *.
  set (kw := if b then txt "@blocking" else txt "@noblock") in *.
  assert (E0 : drop (length pre) src = kw ++ ws1 ++ id ++ ws2 ++ LPAR :: args ++ RPAR :: post).
  { unfold src, site_show, call_text. cbn [st_block st_ws1 st_id st_ws2 st_args]. rewrite drop_app_length. fold kw. by repeat (rewrite <- ?app_assoc; cbn [app]). }
  pose proof (drop_app_next _ _ _ _ E0) as E1. pose proof (drop_app_next _ _ _ _ E1) as E2.
  pose proof (drop_app_next _ _ _ _ E2) as E3. pose proof (drop_app_next _ _ _ _ E3) as E4.
  destruct (drop_head _ _ _ _ E4) as (Hlt4 & E5 & _).
  assert (E6 : drop (S (length pre + length kw + length ws1 + length id + length ws2) + (length args + 1)) src = post).
  { replace (length args + 1) with (length (args ++ [RPAR])) by (by rewrite length_app). apply drop_app_next. by rewrite E5, <- app_assoc. }
  assert (Hmode : call_mode src (length pre) = Some (if b then SITE_BLOCKING else SITE_NOBLOCK, length pre + length kw)).
  { rewrite (site_mode src (length pre) b _ E0); [by destruct b|]. destruct ws1 as [|c ws1]; [done|]. apply blank_not_ident. by apply Forall_inv in H1. }
  assert (Hat : char_at src (length pre) AT = true).
  { destruct b; by rewrite (char_at_drop _ _ AT _ AT E0). }
  destruct id as [|ci id]; [done|]. pose proof (ident_chars _ Hid) as Hidc. destruct Hid as [Hci _].
  eexists. unfold call_step. rewrite Hat, Hmode. cbn [negb].
  rewrite (skip_while_drop _ _ _ _ _ E1) by (done || by apply ident_not_ws, start_char).
  rewrite (test_at_drop _ _ ci _ _ E2), Hci. cbn [negb].
  rewrite (skip_while_drop _ _ _ _ _ E2); [|done|].
  2:{ destruct ws2 as [|c ws2]; [done|]. apply blank_not_ident. by apply Forall_inv in H2. }
  rewrite (skip_while_drop _ _ _ _ _ E3) by done. rewrite (char_at_drop _ _ _ _ _ E4), eqc_refl. cbn [negb].
  rewrite E5, qscan_close by done. rewrite bool_decide_eq_true_2 by done. cbn [negb].
  assert (Hbody : char_at src (skip_while is_ws src (S (length pre + length kw + length ws1 + length (ci :: id) + length ws2) + (length args + 1))) LBR = false).
  { unfold skip_while. rewrite E6. set (p := S _ + _) in *. unfold no_body in Hb. apply bool_decide_eq_false_2.
    rewrite <- (Nat.add_0_r (p + span is_ws post)), <- lookup_drop, <- drop_drop, E6. destruct (drop (span is_ws post) post) as [|c l]; [done|].
    simpl in *. intros [= ->]. by rewrite eqc_refl in Hb. }
  assert (He : S (length pre + length kw + length ws1 + length (ci :: id) + length ws2) + (length args + 1) = e).
  { unfold e, site_show, call_text. cbn [st_block st_ws1 st_id st_ws2 st_args]. fold kw. rewrite !length_app. cbn [length]. rewrite length_app. cbn [length]. lia. }
  rewrite Hbody, He. split_and!.
  - done.
  - assert (length src = S (length pre + length kw + length ws1 + length (ci :: id) + length ws2) + (length args + 1) + length post).
    { assert (Hl := f_equal length E6). rewrite length_drop in Hl. assert (Hl5 := f_equal length E5). rewrite length_drop, length_app in Hl5. cbn [length] in *. lia. }
    solve_in_src.
  - rewrite !text_of_cons. cbn [chunk_text]. rewrite app_assoc, app_nil_r. unfold site_lower, call_text. cbn [st_block st_ws1 st_id st_ws2 st_args].
    f_equal. replace e with (length pre + length kw + length ws1 + length ((ci :: id) ++ ws2 ++ LPAR :: args ++ [RPAR])).
    + eapply range_drop. rewrite E2. by repeat (rewrite <- ?app_assoc; cbn [app]).
    + rewrite <- He, !length_app. cbn [length]. rewrite length_app. cbn [length]. lia.
Qed.

(** The loop passes over a calm [@]. *)
Lemma call_mode_none l : (∀ b post, l = site_kw b ++ post → ¬ starts_other cc_is_ident_char post) → call_step l 0 0 = Keep 1.
Proof.
  intros Hw. unfold call_step. destruct (negb (char_at l 0 AT)) eqn:Hat; [done|].
  apply negb_false_iff, bool_decide_eq_true_1 in Hat. destruct l as [|c l]; [done|]. injection Hat as ->.
  assert (Hk : ∀ b k, kw_at (AT :: l) 1 (List.tl (site_kw b)) = true → k = length (site_kw b) → test_at (AT :: l) k cc_is_ident_char = true).
  { intros b k Hk ->. apply bool_decide_eq_true_1 in Hk. change (drop 1 (AT :: l)) with l in Hk.
    destruct (test_at (AT :: l) (length (site_kw b)) cc_is_ident_char) eqn:Ht; [done|].
    assert (El : AT :: l = site_kw b ++ drop (length (List.tl (site_kw b))) l) by (rewrite <- (take_drop (length (List.tl (site_kw b))) l) at 1; rewrite Hk; by destruct b).
    destruct (Hw _ _ El). unfold test_at in Ht. rewrite El, lookup_app_r, Nat.sub_diag in Ht by done. by destruct (drop _ l). }
  unfold call_mode. pose proof (Hk true 9) as H1. pose proof (Hk false 8) as H2. simpl in H1, H2.
  destruct (kw_at _ 1 (txt "blocking")) eqn:E1; cbn [Nat.add]; [rewrite H1 by done; cbn [negb andb]|cbn [andb]];
    (destruct (kw_at _ 1 (txt "noblock")) eqn:E2; [rewrite H2 by done; done|done]).
Qed.
Lemma site_kw_at b l : char_at (site_kw b ++ l) 0 AT = true.
Proof. by destruct b. Qed.
Lemma ws_starts ws l : all is_ws ws → ws ≠ [] → starts_other cc_is_ident_char (ws ++ l).
Proof. destruct ws as [|c ws]; [done|]. intros H _. apply blank_not_ident. by apply Forall_inv in H. Qed.
Lemma test_at_end src p l f : drop p src = l → starts_other f l → test_at src p f = false.
Proof.
  intros E Hl. unfold test_at. rewrite <- (Nat.add_0_r p), <- lookup_drop, E. by destruct l.
Qed.
(** What the loop reads behind an attribute: its mode, the blanks, a name. *)
Lemma site_mode_here b l : starts_other cc_is_ident_char l → call_mode (site_kw b ++ l) 0 = Some (if b then SITE_BLOCKING else SITE_NOBLOCK, length (site_kw b)).
Proof. intros Hl. rewrite (site_mode (site_kw b ++ l) 0 b l); [by destruct b|by destruct b|done]. Qed.
Lemma site_calm_kept l : site_calm l → call_step l 0 0 = Keep 1.
Proof.
  intros Hc. destruct Hc as [l Hw|b ws post H1 H0 H2 H3|b ws id ws2 post H1 Hne Hid Hio H2 H3 H4|b ws id ws2 args ws3 post H1 Hne Hid H2 Ha H3]; [by apply call_mode_none|..].
  - unfold call_step. rewrite site_kw_at, site_mode_here by done. cbn [negb].
    assert (E1 : drop (length (site_kw b)) (site_kw b ++ ws ++ post) = ws ++ post) by apply drop_app_length.
    rewrite (skip_while_drop _ _ _ _ _ E1) by (done || by destruct post).
    by rewrite (test_at_end _ _ _ _ (drop_app_next _ _ _ _ E1)).
  - unfold call_step. rewrite site_kw_at, site_mode_here by by apply ws_starts. cbn [negb].
    set (src := site_kw b ++ _). assert (E1 : drop (length (site_kw b)) src = ws ++ id ++ ws2 ++ post) by apply drop_app_length.
    pose proof (drop_app_next _ _ _ _ E1) as E2. pose proof (drop_app_next _ _ _ _ E2) as E3. pose proof (drop_app_next _ _ _ _ E3) as E4.
    destruct id as [|ci id]; [done|]. pose proof (ident_chars _ Hid) as Hidc. destruct Hid as [Hci _].
    rewrite (skip_while_drop _ _ _ _ _ E1) by (done || by apply ident_not_ws, start_char). rewrite (test_at_drop _ _ ci _ _ E2), Hci. cbn [negb].
    rewrite (skip_while_drop _ _ _ _ _ E2) by (done || by destruct (ws2 ++ post)). rewrite (skip_while_drop _ _ _ _ _ E3) by (done || by destruct post).
    destruct post as [|cp post]; [|by rewrite (char_at_drop _ _ _ _ _ E4), H4].
    unfold char_at. rewrite <- (Nat.add_0_r (_ + length ws2)), <- lookup_drop, E4. done.
  - unfold call_step. rewrite site_kw_at, site_mode_here by by apply ws_starts. cbn [negb].
    set (src := site_kw b ++ _). assert (E1 : drop (length (site_kw b)) src = ws ++ id ++ ws2 ++ LPAR :: args ++ RPAR :: ws3 ++ LBR :: post) by apply drop_app_length.
    pose proof (drop_app_next _ _ _ _ E1) as E2. pose proof (drop_app_next _ _ _ _ E2) as E3. pose proof (drop_app_next _ _ _ _ E3) as E4.
    destruct (drop_head _ _ _ _ E4) as (_ & E5 & _).
    destruct id as [|ci id]; [done|]. pose proof (ident_chars _ Hid) as Hidc. destruct Hid as [Hci _].
    rewrite (skip_while_drop _ _ _ _ _ E1) by (done || by apply ident_not_ws, start_char). rewrite (test_at_drop _ _ ci _ _ E2), Hci. cbn [negb].
    rewrite (skip_while_drop _ _ _ _ _ E2); [|done|]. 2:{ destruct ws2 as [|c ws2]; [done|]. apply blank_not_ident. by apply Forall_inv in H2. }
    rewrite (skip_while_drop _ _ _ _ _ E3) by done. rewrite (char_at_drop _ _ _ _ _ E4), eqc_refl. cbn [negb].
    rewrite E5, qscan_close by done. rewrite bool_decide_eq_true_2 by done. cbn [negb].
    assert (E6 : drop (S (length (site_kw b) + length ws + length (ci :: id) + length ws2) + (length args + 1)) src = ws3 ++ LBR :: post).
    { replace (length args + 1) with (length (args ++ [RPAR])) by (by rewrite length_app). apply drop_app_next. by rewrite E5, <- app_assoc. }
    rewrite (skip_while_drop _ _ _ _ _ E6) by done. by rewrite (char_at_drop _ _ _ _ _ (drop_app_next _ _ _ _ E6)), eqc_refl.
Qed.

#[export, refine] Instance site_pass : SigilPass site call_step := {
  sp_show := site_show; sp_lower := site_lower; sp_ok := site_ok;
  sp_calm := site_calm }.
Proof.
  - intros src last i c Hc Hne. unfold call_step, char_at. rewrite bool_decide_eq_false_2; [done|]. rewrite Hc. by intros [= ->].
  - intros pre l last Hc. pose proof (call_step_shift pre (AT :: l) last 0 0 1 (site_calm_kept _ Hc)) as H. rewrite Nat.add_0_r in H. rewrite H. f_equal. lia.
  - intros [[] ? ? ? ?] post _; by eexists.
  - intros [[] ? ? ? ?] post _; done.
  - intros pre d post last Hok. right. destruct (site_fires pre d post last Hok) as (ks & H1 & H2 & H3).
    exists (length pre), ks. rewrite length_app, range_nil. split_and!; [done|lia|lia|done|done].
Defined.

(** * [@await] *)

Record awaited := Awaited { aw_b1 : list ascii; aw_id : list ascii; aw_b2 : list ascii; aw_args : list ascii }.
Definition await_show (d : awaited) : list ascii := txt "@await" ++ aw_b1 d ++ call_text (aw_id d) (aw_b2 d) (aw_args d).
(** A call of a function whose return type is known blocks on its task. *)
Definition await_lower (fns : list CCAtAwaitFn) (d : awaited) : list ascii :=
  let call := call_text (aw_id d) (aw_b2 d) (aw_args d) in
  match lookup_ret fns (fits128 (aw_id d)) with
  | Some ret => txt "cc_block_on(" ++ ret ++ txt ", " ++ call ++ txt ")"
  | None => call
  end.
Definition await_ok (d : awaited) (post : list ascii) : Prop :=
  all is_blank (aw_b1 d) ∧ aw_b1 d ≠ [] ∧ ident (aw_id d) ∧ all is_blank (aw_b2 d) ∧ call_args false (aw_args d).

Lemma await_close_fuel f f' d l : length l ≤ f → length l ≤ f' → await_close f d l = await_close f' d l.
Proof.
  revert f' d l. induction f as [|f IH]; intros f' d [|c l] Hf Hf'; cbn [length] in *; try lia; try by destruct f'.
  destruct f' as [|f']; [lia|]. cbn [await_close]. destruct (eqc c DQ).
  { f_equal. apply IH; rewrite length_drop; lia. }
  destruct (eqc c LPAR); [f_equal; apply IH; lia|]. destruct (eqc c RPAR); [|f_equal; apply IH; lia].
  destruct d as [|[|d]]; [done|done|f_equal; apply IH; lia].
Qed.
Lemma str_skip_body b l : str_body DQ b → str_skip (b ++ DQ :: l) = length b.
Proof.
  induction 1 as [|c b Hc Hq _ IH|c b _ IH]; cbn [app str_skip length]; [by rewrite eqc_refl| |].
  - rewrite !eqc_ne by done. by rewrite IH.
  - by rewrite IH.
Qed.
Lemma await_close_args s d l f : call_args false s → length (s ++ l) ≤ f →
  await_close f (S d) (s ++ l) = length s + await_close f (S d) l.
Proof.
  intros Hs. revert d l f. induction Hs as [|c s H1 H2 H3 _ _ IH|q b s Hq Hb _ IH|s1 s2 _ IH1 _ IH2]; intros d l f Hf; [done| | |].
  - destruct f as [|f]; [simpl in Hf; lia|]. cbn [app length] in Hf. rewrite (await_close_fuel (S f) f (S d) l) by (rewrite length_app in Hf; lia).
    cbn [app await_close length]. rewrite !eqc_ne by done. rewrite IH by lia. done.
  - destruct Hq as [->|[? _]]; [|done]. destruct f as [|f]; [simpl in Hf; lia|]. cbn [app length] in Hf. rewrite !length_app in Hf. cbn [length] in Hf.
    rewrite (await_close_fuel (S f) f (S d) l) by lia. cbn [app await_close length]. rewrite eqc_refl.
    rewrite <- app_assoc. cbn [app]. rewrite str_skip_body by done.
    replace (drop (S (length b)) (b ++ DQ :: s ++ l)) with (s ++ l).
    2:{ replace (S (length b)) with (length (b ++ [DQ])) by (rewrite length_app; simpl; lia). by rewrite (cons_middle DQ b (s ++ l)), app_assoc, drop_app_length. }
    rewrite IH by (rewrite length_app; lia). rewrite length_app. cbn [length]. lia.
  - destruct f as [|f]; [simpl in Hf; lia|]. cbn [app length] in Hf. rewrite !length_app in Hf. cbn [length] in Hf.
    rewrite (await_close_fuel (S f) f (S d) l) by lia. cbn [app await_close length]. change (eqc LPAR DQ) with false. rewrite eqc_refl.
    rewrite <- app_assoc. cbn [app]. rewrite IH1 by (rewrite !length_app; cbn [length]; rewrite length_app; lia).
    destruct f as [|f]; [lia|]. rewrite (await_close_fuel (S f) f (S d) l) by lia. cbn [await_close]. change (eqc RPAR DQ) with false. change (eqc RPAR LPAR) with false. rewrite eqc_refl.
    rewrite IH2 by (rewrite length_app; lia). rewrite length_app. cbn [length]. lia.
Qed.
Lemma await_close_call s l f : call_args false s → length (s ++ RPAR :: l) ≤ f → await_close f 1 (s ++ RPAR :: l) = length s + 1.
Proof.
  intros Hs Hf. rewrite await_close_args by done. f_equal. destruct f as [|f]; [rewrite length_app in Hf; simpl in Hf; lia|]. done.
Qed.

Lemma await_fires fns pre d post last : await_ok d post →
  let src := pre ++ await_show d ++ post in let e := length pre + length (await_show d) in
  ∃ ks, await_step fns src last (length pre) = Rewrite (length pre) ks e e ∧ Forall (in_src src) ks ∧ text_of src ks = await_lower fns d.
Proof.
  intros (H1 & Hne & Hid & H2 & Ha) src e. destruct d as [b1 id b2 args]. cbn [aw_b1 aw_id aw_b2 aw_args] in *.
  assert (E0 : drop (length pre) src = txt "@await" ++ b1 ++ id ++ b2 ++ LPAR :: args ++ RPAR :: post).
  { unfold src, await_show, call_text. cbn [aw_b1 aw_id aw_b2 aw_args]. rewrite drop_app_length. by repeat (rewrite <- ?app_assoc; cbn [app]). }
  pose proof (drop_app_next _ _ _ _ E0) as E1. change (length (txt "@await")) with 6 in E1. pose proof (drop_app_next _ _ _ _ E1) as E2.
  pose proof (drop_app_next _ _ _ _ E2) as E3. pose proof (drop_app_next _ _ _ _ E3) as E4. destruct (drop_head _ _ _ _ E4) as (Hlt4 & E5 & _).
  assert (Hlen : length src = S (length pre + 6 + length b1 + length id + length b2) + (length args + 1) + length post).
  { assert (Hl5 := f_equal length E5). rewrite length_drop, length_app in Hl5. cbn [length] in *. lia. }
  assert (He : S (length pre + 6 + length b1 + length id + length b2) + (length args + 1) = e).
  { unfold e, await_show, call_text. cbn [aw_b1 aw_id aw_b2 aw_args]. rewrite !length_app. cbn [length]. rewrite length_app. cbn [length]. change (length (txt "@await")) with 6. lia. }
  assert (Ht : range src (length pre + 6 + length b1) e = call_text id b2 args).
  { unfold call_text. replace e with (length pre + 6 + length b1 + length (id ++ b2 ++ LPAR :: args ++ [RPAR])).
    - eapply range_drop. rewrite E2. by repeat (rewrite <- ?app_assoc; cbn [app]).
    - rewrite <- He, !length_app. cbn [length]. rewrite length_app. cbn [length]. lia. }
  assert (Hat : await_at src (length pre) = true).
  { unfold await_at. rewrite (kw_at_drop _ _ _ _ E0). destruct b1 as [|c b1]; [done|]. rewrite (test_at_drop _ _ _ _ _ E1), blank_not_ident; [done|].
    apply blank_ws. by apply Forall_inv in H1. }
  destruct id as [|ci id]; [done|]. pose proof (ident_chars _ Hid) as Hidc. destruct Hid as [Hci _].
  assert (Hblank : ∀ c, cc_is_ident_char c = true → is_blank c = false).
  { intros c Hc. destruct (is_blank c) eqn:Eb; [|done]. apply blank_ws, blank_not_ident in Eb. congruence. }
  unfold await_step. rewrite Hat. rewrite (skip_while_drop _ _ _ _ _ E1) by (done || by apply Hblank, start_char).
  rewrite (test_at_drop _ _ ci _ _ E2), Hci. rewrite (skip_while_drop _ _ _ _ _ E2); [|done|].
  2:{ destruct b2 as [|c b2]; [done|]. apply blank_not_ident, blank_ws. by apply Forall_inv in H2. }
  rewrite (skip_while_drop _ _ _ _ _ E3) by done. rewrite (char_at_drop _ _ _ _ _ E4), eqc_refl.
  rewrite E5, await_close_call; [|done|rewrite length_app; cbn [length] in *; lia]. rewrite He, (range_drop _ _ _ _ E2).
  unfold await_lower. cbn [aw_b1 aw_id aw_b2 aw_args]. destruct (lookup_ret fns (fits128 (ci :: id))) as [ret|].
  - eexists. split_and!; [done|solve_in_src|]. rewrite !text_of_cons. cbn [chunk_text]. by rewrite Ht.
  - eexists. split_and!; [done|solve_in_src|]. rewrite !text_of_cons. cbn [chunk_text]. rewrite Ht. apply app_nil_r.
Qed.
Lemma await_at_shift pre l p : await_at (pre ++ l) (length pre + p) = await_at l p.
Proof. unfold await_at. rewrite <- Nat.add_assoc. by autorewrite with shift. Qed.
#[export, refine] Instance await_pass fns : SigilPass awaited (await_step fns) := {
  sp_show := await_show; sp_lower := await_lower fns; sp_ok := await_ok; sp_calm l := await_at l 0 = false }.
Proof.
  - intros src last i c Hc Hne. unfold await_step, await_at. destruct (kw_at src i (txt "@await")) eqn:E; [|done].
    by destruct Hne; eapply (kw_at_head _ _ AT).
  - intros pre l last Hc. unfold await_step. rewrite <- (Nat.add_0_r (length pre)) at 1. rewrite await_at_shift.
    by rewrite Hc.
  - intros d post _. by eexists.
  - intros [b1 id b2 args] post (_ & _ & Hid & _). unfold await_lower, call_text. cbn. destruct (lookup_ret _ _); [done|]. by destruct id.
  - intros pre d post last Hok. right. destruct (await_fires fns pre d post last Hok) as (ks & H1 & H2 & H3).
    exists (length pre), ks. rewrite length_app, range_nil. split_and!; [done|lia|lia|done|done].
Defined.

(** * [@async void] *)

(** The attributes behind [@async], the blanks before the return type, and
    whether that is [void]. *)
Record asyncd := Async { as_attrs : list (list ascii * list ascii); as_ws : list ascii; as_void : bool }.
Definition attr_text (a : list ascii * list ascii) : list ascii := a.1 ++ AT :: a.2.
Definition attrs_text (as_ : list (list ascii * list ascii)) : list ascii := mjoin (attr_text <$> as_).
Definition async_head (d : asyncd) : list ascii := txt "@async" ++ attrs_text (as_attrs d) ++ as_ws d.
Definition async_show (d : asyncd) : list ascii := async_head d ++ (if as_void d then txt "void" else []).
Definition async_lower (d : asyncd) : list ascii := async_head d ++ (if as_void d then ASYNC_VOID_RET else []).
Definition attr_ok (a : list ascii * list ascii) : Prop := all is_ws a.1 ∧ a.2 ≠ [] ∧ all cc_is_ident_char a.2.
(** A [void] function: its name and parameter list follow.  Another return type
    begins with neither a blank, an attribute nor [void]. *)
Definition async_ok (d : asyncd) (post : list ascii) : Prop :=
  Forall attr_ok (as_attrs d) ∧ all is_ws (as_ws d) ∧ as_ws d ≠ [] ∧
  if as_void d then ∃ w1 id w2 l, post = w1 ++ id ++ w2 ++ LPAR :: l ∧ all is_ws w1 ∧ w1 ≠ [] ∧ ident id ∧ all is_ws w2
  else ∃ c l, post = c :: l ∧ is_ws c = false ∧ c ≠ AT ∧ take 4 post ≠ txt "void".

Lemma attrs_ident as_ ws rest : Forall attr_ok as_ → all is_ws ws → ws ≠ [] →
  starts_other cc_is_ident_char (attrs_text as_ ++ ws ++ rest).
Proof.
  intros Ha Hws Hne. destruct as_ as [|[[|c w] n] as_]; [|by change (cc_is_ident_char AT = false)|].
  - destruct ws as [|c ws]; [done|]. apply blank_not_ident. by apply Forall_inv in Hws.
  - apply Forall_inv in Ha as [Hw _]. apply blank_not_ident. by apply Forall_inv in Hw.
Qed.
Lemma skip_attrs_ok fuel src p as_ ws c rest :
  drop p src = attrs_text as_ ++ ws ++ c :: rest → Forall attr_ok as_ → all is_ws ws → ws ≠ [] → is_ws c = false → c ≠ AT →
  length as_ ≤ fuel → skip_attrs fuel src p = p + length (attrs_text as_) + length ws.
Proof.
  intros E Ha Hws Hne Hc Hat. revert fuel p E. induction Ha as [|[w n] as_ (Hw & Hn & Hi) Ha IH]; intros fuel p E Hf.
  - change (attrs_text [] ++ ws ++ c :: rest) with (ws ++ c :: rest) in E.
    assert (skip_while is_ws src p = p + length ws) as Ej by (by eapply skip_while_drop).
    pose proof (drop_app_next _ _ _ _ E) as E1. destruct fuel; cbn [skip_attrs]; rewrite Ej; [simpl; lia|].
    rewrite (char_at_drop _ _ _ _ _ E1), eqc_ne by done. simpl. lia.
  - destruct fuel as [|fuel]; [simpl in Hf; lia|]. change (attrs_text ((w, n) :: as_)) with ((w ++ AT :: n) ++ attrs_text as_) in *.
    cbn [fst snd] in *. rewrite <- !app_assoc in E. cbn [app] in E.
    pose proof (drop_app_next _ _ _ _ E) as E1. destruct (drop_head _ _ _ _ E1) as (_ & E2 & _). pose proof (drop_app_next _ _ _ _ E2) as E3.
    cbn [skip_attrs]. rewrite (skip_while_drop _ _ _ _ _ E) by done. rewrite (char_at_drop _ _ _ _ _ E1), eqc_refl.
    rewrite (skip_while_drop _ _ _ _ _ E2); [|done|by apply attrs_ident].
    rewrite decide_False by (destruct n; [done|simpl; lia]). rewrite IH by (done || simpl in Hf; lia). rewrite !length_app. simpl. lia.
Qed.

Lemma async_at_ok src p as_ ws rest : drop p src = txt "@async" ++ attrs_text as_ ++ ws ++ rest → Forall attr_ok as_ → all is_ws ws → ws ≠ [] →
  async_at src p = true.
Proof.
  intros E Ha Hws Hne. unfold async_at. rewrite (kw_at_drop _ _ _ _ E). pose proof (drop_app_next _ _ _ _ E) as E1. change (length (txt "@async")) with 6 in E1.
  pose proof (attrs_ident as_ ws rest Ha Hws Hne) as Hs. destruct (attrs_text as_ ++ ws ++ rest) as [|c l].
  - unfold test_at. rewrite <- (Nat.add_0_r (p + 6)), <- lookup_drop, E1. done.
  - by rewrite (test_at_drop _ _ _ _ _ E1), Hs.
Qed.
Lemma attrs_count as_ : length as_ ≤ length (attrs_text as_).
Proof. induction as_ as [|[w n] as_ IH]; [done|]. change (attrs_text ((w, n) :: as_)) with ((w ++ AT :: n) ++ attrs_text as_). rewrite !length_app. simpl. lia. Qed.

Lemma async_fires pre d post last : async_ok d post →
  let src := pre ++ async_show d ++ post in let e := length pre + length (async_show d) in
  (async_step src last (length pre) = Keep e ∧ async_lower d = async_show d) ∨
  ∃ upto ks, async_step src last (length pre) = Rewrite upto ks e e ∧ length pre ≤ upto ≤ length src ∧ Forall (in_src src) ks ∧
    range src (length pre) upto ++ text_of src ks = async_lower d.
Proof.
  intros (Ha & Hws & Hne & Hv) src e. destruct d as [as_ ws v]. cbn [as_attrs as_ws as_void] in *.
  set (rest := (if v then txt "void" else []) ++ post).
  assert (E0 : drop (length pre) src = txt "@async" ++ attrs_text as_ ++ ws ++ rest).
  { unfold src, async_show, async_head, rest. cbn [as_attrs as_ws as_void]. rewrite drop_app_length. by rewrite <- !app_assoc. }
  pose proof (async_at_ok _ _ _ _ _ E0 Ha Hws Hne) as Hat.
  pose proof (drop_app_next _ _ _ _ E0) as E1. change (length (txt "@async")) with 6 in E1.
  pose proof (drop_app_next _ _ _ _ E1) as E2. pose proof (drop_app_next _ _ _ _ E2) as E3.
  assert (Hhead : length (async_head (Async as_ ws v)) = 6 + length (attrs_text as_) + length ws).
  { unfold async_head. cbn [as_attrs as_ws]. rewrite !length_app. change (length (txt "@async")) with 6. lia. }
  assert (Hlen : length src = length pre + 6 + length (attrs_text as_) + length ws + length rest).
  { unfold src, async_show, rest. rewrite !length_app, Hhead. cbn [as_void]. lia. }
  assert (Hc : ∃ c l, rest = c :: l ∧ is_ws c = false ∧ c ≠ AT).
  { unfold rest. destruct v; [by exists (chr 118), (txt "oid" ++ post)|]. destruct Hv as (c & l & -> & ? & ? & _). by exists c, l. }
  destruct Hc as (c & l & Er & Hcw & Hca).
  assert (Hrt : skip_attrs (length src) src (length pre + 6) = length pre + 6 + length (attrs_text as_) + length ws).
  { eapply skip_attrs_ok; [by rewrite E1, Er|done..|]. rewrite Hlen. pose proof (attrs_count as_). lia. }
  unfold async_step. rewrite Hat, Hrt. set (rt := length pre + 6 + length (attrs_text as_) + length ws) in *.
  destruct v.
  - right. destruct Hv as (w1 & id & w2 & l' & Ep & Hw1 & Hw1n & Hid & Hw2). unfold rest in E3. rewrite Ep in E3.
    pose proof (drop_app_next _ _ _ _ E3) as E4. change (length (txt "void")) with 4 in E4. pose proof (drop_app_next _ _ _ _ E4) as E5.
    pose proof (drop_app_next _ _ _ _ E5) as E6. pose proof (drop_app_next _ _ _ _ E6) as E7.
    destruct id as [|ci id]; [done|]. pose proof (ident_chars _ Hid) as Hidc. destruct Hid as [Hci _].
    rewrite (kw_at_drop _ _ _ _ E3). rewrite (skip_while_drop _ _ _ _ _ E4) by (done || by apply ident_not_ws, start_char).
    rewrite (test_at_drop _ _ ci _ _ E5), Hci. rewrite (skip_while_drop _ _ _ _ _ E5); [|done|].
    2:{ destruct w2 as [|c2 w2]; [done|]. apply blank_not_ident. by apply Forall_inv in Hw2. }
    rewrite (skip_while_drop _ _ _ _ _ E6) by done. rewrite (char_at_drop _ _ _ _ _ E7), eqc_refl.
    assert (negb (test_at src (rt + 4) cc_is_ident_char) = true) as ->.
    { destruct w1 as [|c1 w1]; [done|]. rewrite (test_at_drop _ _ _ _ _ E4), blank_not_ident; [done|]. by apply Forall_inv in Hw1. }
    cbn [andb]. exists rt, [Lit ASYNC_VOID_RET]. split_and!.
    + replace (rt + 4) with e; [done|]. unfold e, rt, async_show. rewrite length_app, Hhead. cbn [as_void]. change (length (txt "void")) with 4. lia.
    + unfold rt. lia.
    + rewrite Hlen. unfold rt. lia.
    + solve_in_src.
    + assert (range src (length pre) rt = async_head (Async as_ ws true)) as ->.
      { replace rt with (length pre + length (async_head (Async as_ ws true))) by (rewrite Hhead; unfold rt; lia).
        eapply range_drop. rewrite E0. unfold async_head. cbn [as_attrs as_ws]. by rewrite <- !app_assoc. }
      done.
  - left. destruct Hv as (c' & l' & Ep & _ & _ & Hnv).
    assert (kw_at src rt (txt "void") = false) as ->. { apply bool_decide_eq_false_2. rewrite E3. exact Hnv. }
    cbn [andb]. rewrite decide_True by (unfold rt; lia). split; [|done].
    f_equal. unfold e, rt, async_show. rewrite length_app, Hhead. cbn [as_void length]. lia.
Qed.
Lemma async_at_shift pre l p : async_at (pre ++ l) (length pre + p) = async_at l p.
Proof. unfold async_at. rewrite <- Nat.add_assoc. by autorewrite with shift. Qed.
#[export, refine] Instance async_pass : SigilPass asyncd async_step := {
  sp_show := async_show; sp_lower := async_lower; sp_ok := async_ok; sp_calm l := async_at l 0 = false }.
Proof.
  - intros src last i c Hc Hne. unfold async_step, async_at. destruct (kw_at src i (txt "@async")) eqn:E; [|done].
    by destruct Hne; eapply (kw_at_head _ _ AT).
  - intros pre l last Hc. unfold async_step. rewrite <- (Nat.add_0_r (length pre)) at 1. rewrite async_at_shift.
    by rewrite Hc.
  - intros d post _. by eexists.
  - by intros d post _.
  - intros pre d post last Hok. by apply async_fires.
Defined.
