(* ===== verification/PpSigilProps.v ===== *)
(** What the [@] passes do to a document. *)
From S2P Require Import Prelude Bytes Lex Text TextScan TextDecl TextBuild PpPass PpSigil PpDoc PpSigilDoc.

Implicit Types (src l s pre post : list ascii) (i last : nat) (c : ascii).

(** * [strstr] *)

Lemma strstr_cons_ne c s c0 pat : c ≠ c0 → strstr (c :: s) (c0 :: pat) = S <$> strstr s (c0 :: pat).
Proof. intros Hc. cbn [strstr]. rewrite decide_False; [done|]. simpl. by intros [= -> _]. Qed.
Lemma strstr_here s pat : strstr (pat ++ s) pat = Some 0.
Proof. destruct pat as [|c pat]; [by destruct s|]. cbn [app strstr]. rewrite decide_True; [done|]. simpl. by rewrite take_app_length. Qed.
(** A pattern is not found across a character it does not have. *)
Lemma strstr_skip s c l pat : pat ≠ [] → strstr s pat = None → c ∉ pat → strstr (s ++ c :: l) pat = (λ k, length s + k) <$> strstr (c :: l) pat.
Proof.
  intros Hp Hs Hc. induction s as [|x s IH].
  - simpl. by destruct (if decide _ then _ else _).
  - cbn [strstr] in Hs. case_decide as Hd; [done|]. destruct (strstr s pat) as [k|] eqn:Ek; [done|].
    change ((x :: s) ++ c :: l) with (x :: (s ++ c :: l)). cbn [strstr]. rewrite decide_False.
    + rewrite IH by done. rewrite <- option_fmap_compose. apply option_fmap_ext. intros k. simpl. lia.
    + intros Ht. change (x :: s ++ c :: l) with ((x :: s) ++ c :: l) in Ht.
      destruct (decide (length pat ≤ length (x :: s))) as [Hle|Hgt]; [by rewrite take_app_le in Ht|].
      apply Hc. rewrite <- Ht, take_app_ge by lia. apply elem_of_app. right.
      replace (length pat - length (x :: s)) with (S (length pat - length (x :: s) - 1)) by lia. by left.
Qed.

Lemma strstr_longer s : strstr s (txt "@link(") = None → strstr s LINK_PAT = None.
Proof.
  induction s as [|c s IH]; [done|]. cbn [strstr]. case_decide as Hd; [done|]. intros Hn.
  destruct (strstr s (txt "@link(")) as [k|] eqn:Ek; [done|]. rewrite decide_False; [by rewrite IH|]. intros Ht. apply Hd.
  change (length (txt "@link(")) with 6. change (length LINK_PAT) with 7 in Ht.
  replace (take 6 (c :: s)) with (take 6 (take 7 (c :: s))) by (by rewrite take_take). by rewrite Ht.
Qed.

(** * Link directives *)

(** A source with link directives between texts. *)
Definition linked (ps : list (list ascii * link)) (tl : list ascii) : list (item link) :=
  mjoin ((λ p, [Txt p.1; Dir p.2]) <$> ps) ++ [Txt tl].
Definition lib_char (c : ascii) : bool :=
  negb (eqc c NUL) && negb (eqc c SP) && negb (eqc c STAR) && negb (eqc c NL) && negb (eqc c DQ).
(** The library names the driver can read back. *)
Definition good_lib (lib : list ascii) : Prop := all lib_char lib ∧ 0 < length lib < 256.

Lemma lowered_linked s d ps tl : lowered (linked ((s, d) :: ps) tl) = s ++ link_lower d ++ lowered (linked ps tl).
Proof. done. Qed.
Lemma lib_span lib l : all lib_char lib →
  span (λ c, negb (eqc c NUL) && negb (eqc c SP) && negb (eqc c STAR) && negb (eqc c NL)) (lib ++ SP :: l) = length lib.
Proof.
  intros Hl. rewrite span_app; [simpl; lia|]. eapply Forall_impl; [exact Hl|]. intros c Hc. exact (proj1 (andb_prop _ _ Hc)).
Qed.

Lemma slash_not_marker : SLASH ∉ MARKER.
Proof. apply (bool_decide_eq_true_1 (SLASH ∉ MARKER)). vm_compute. reflexivity. Qed.
Lemma close_clean s pat : pat = MARKER ∨ pat = LINK_PAT → strstr s pat = None → strstr (LINK_CLOSE ++ s) pat = None.
Proof.
  intros [->| ->] Hs; change (LINK_CLOSE ++ s) with (SP :: STAR :: SLASH :: s); unfold MARKER, LINK_PAT in *;
    cbn [txt String.list_ascii_of_string app] in *; by rewrite !strstr_cons_ne, Hs.
Qed.
(** One marker is found and its library added. *)
Lemma scan_marker fuel cap s d rest flags : strstr s MARKER = None → good_lib (lk_lib d) →
  scan_links (S fuel) cap (s ++ link_lower d ++ rest) flags = scan_links fuel cap (LINK_CLOSE ++ rest) (cc__add_lib_to_flags cap (lk_lib d) flags).
Proof.
  intros Hs [Hlib Hlen].
  assert (Hfind : strstr (s ++ link_lower d ++ rest) MARKER = Some (length s + 3)).
  { change (link_lower d ++ rest) with (SLASH :: STAR :: SP :: (MARKER ++ lk_lib d ++ LINK_CLOSE) ++ rest).
    rewrite strstr_skip by (done || exact slash_not_marker). unfold MARKER at 2. cbn [txt String.list_ascii_of_string].
    rewrite !strstr_cons_ne by done. change (strstr _ _) with (strstr ((MARKER ++ lk_lib d ++ LINK_CLOSE) ++ rest) MARKER).
    rewrite <- app_assoc, strstr_here. done. }
  assert (Hq : drop (length s + 3 + length MARKER) (s ++ link_lower d ++ rest) = lk_lib d ++ SP :: [STAR; SLASH] ++ rest).
  { replace (length s + 3 + length MARKER) with (length (s ++ LINK_OPEN)) by (rewrite length_app; change (length MARKER) with 12; change (length LINK_OPEN) with 15; lia).
    unfold link_lower. rewrite <- !app_assoc, (app_assoc s LINK_OPEN). apply drop_app_length. }
  cbn [scan_links]. rewrite Hfind. cbn zeta. rewrite !Hq, lib_span, drop_app_length, take_app_length by done.
  unfold add_lib. by rewrite decide_True.
Qed.
Lemma scan_linked fuel cap w ps tl flags :
  w = [] ∨ w = LINK_CLOSE → Forall (λ p, strstr p.1 MARKER = None ∧ good_lib (lk_lib p.2)) ps →
  strstr tl MARKER = None → strstr tl LINK_PAT = None → length ps < fuel →
  scan_links fuel cap (w ++ lowered (linked ps tl)) flags = foldl (λ fl p, cc__add_lib_to_flags cap (lk_lib p.2) fl) flags ps.
Proof.
  intros Hw Hps Hm Hl. revert fuel flags w Hw.
  induction Hps as [|[s d] ps [Hs Hlib] Hps IH]; intros [|fuel] flags w Hw Hf; try (simpl in Hf; lia).
  - change (lowered (linked [] tl)) with (tl ++ []). rewrite app_nil_r. cbn [scan_links].
    destruct Hw as [->| ->]; [cbn [app]; by rewrite Hm, Hl|]. rewrite !close_clean by auto. done.
  - rewrite lowered_linked, app_assoc. cbn [fst snd foldl] in *. rewrite scan_marker; [|destruct Hw as [->| ->]; [done|by apply close_clean; auto]|done].
    apply IH; [by right|simpl in Hf; lia].
Qed.

Lemma linked_length ps tl : length ps ≤ length (lowered (linked ps tl)).
Proof. induction ps as [|[s d] ps IH]; [simpl; lia|]. rewrite lowered_linked, !length_app. unfold link_lower. rewrite length_app. cbn [length LINK_OPEN txt String.list_ascii_of_string]. lia. Qed.

(** The flags with those of the libraries behind them, separated by blanks. *)
Definition push_flag (flags lib : list ascii) : list ascii := flags ++ (if decide (flags = []) then [] else [SP]) ++ txt "-l" ++ lib.
Definition push_flags (flags : list ascii) (libs : list (list ascii)) : list ascii := foldl push_flag flags libs.
(** No library is a path or a file, and the flag of none occurs in the flags in
    front of it, as the flag of a library whose name begins with it would. *)
Fixpoint all_new (flags : list ascii) (libs : list (list ascii)) : Prop :=
  match libs with
  | [] => True
  | lib :: libs' => cc__is_lib_path lib = false ∧ strstr flags (txt "-l" ++ lib) = None ∧ all_new (push_flag flags lib) libs'
  end.

Lemma push_flags_length flags libs : length flags ≤ length (push_flags flags libs).
Proof.
  revert flags. induction libs as [|lib libs IH]; intros flags; [done|]. unfold push_flags in *. cbn [foldl]. specialize (IH (push_flag flags lib)).
  unfold push_flag in IH at 1. rewrite length_app in IH. lia.
Qed.
Lemma add_lib_new cap lib flags : good_lib lib → cc__is_lib_path lib = false → strstr flags (txt "-l" ++ lib) = None → length (push_flag flags lib) < cap →
  cc__add_lib_to_flags cap lib flags = push_flag flags lib.
Proof.
  intros [_ Hlen] Hp Hs Hcap. unfold cc__add_lib_to_flags, lib_flag. rewrite decide_False by (intros ->; simpl in Hlen; lia).
  rewrite Hp, take_ge by (rewrite length_app; change (length (txt "-l")) with 2; lia). rewrite Hs.
  unfold push_flag in *. rewrite !length_app in Hcap. change (length (txt "-l")) with 2 in Hcap.
  unfold cc__append_spaced, strncat_fit. rewrite decide_False by (intros [?|?]; [lia|done]). case_decide as Hf.
  - subst flags. rewrite take_ge by (rewrite length_app; change (length (txt "-l")) with 2; simpl in *; lia). done.
  - cbn [length] in Hcap. rewrite (take_ge [SP]) by (simpl; lia). rewrite <- app_assoc. f_equal. f_equal. apply take_ge.
    rewrite !length_app. change (length (txt "-l")) with 2. simpl. lia.
Qed.
Lemma add_libs_new cap (libs : list (list ascii)) flags : Forall good_lib libs → all_new flags libs → length (push_flags flags libs) < cap →
  foldl (λ fl lib, cc__add_lib_to_flags cap lib fl) flags libs = push_flags flags libs.
Proof.
  revert flags. induction libs as [|lib libs IH]; intros flags Hg Hn Hc; [done|]. apply Forall_cons in Hg as [Hl Hg]. destruct Hn as (Hp & Hs & Hn).
  unfold push_flags in *. cbn [foldl] in *. rewrite add_lib_new; [by apply IH|done..|].
  pose proof (push_flags_length (push_flag flags lib) libs). unfold push_flags in *. lia.
Qed.

(** C19: link directives reach the linker.  Take a source with directives
    [@link("lib")] in code and no [@link(] or marker anywhere else, comments and
    literals included; library names of fewer than 256 characters without blanks,
    stars, line breaks and quotes, that are not paths or files, the flag [-llib]
    of none a substring of the flags in front of it (the driver would take it for
    present); and a flag buffer with room.  The pass turns every directive into a
    marker comment and leaves the rest of the text as it is, and the driver's scan
    of the result appends [-llib] for exactly those libraries, in their order. *)
Theorem link_directives_reach_linker rok cap ps tl flags ch :
  (∀ z, rok z = true) → wf_doc (linked ps tl) → NUL ∉ lowered (linked ps tl) → (Z.of_nat (length (lowered (linked ps tl))) + 2 ≤ 2 ^ 61)%Z →
  Forall (λ s, strstr s MARKER = None ∧ strstr s (txt "@link(") = None) (tl :: ps.*1) →
  Forall good_lib (lk_lib <$> ps.*2) → all_new flags (lk_lib <$> ps.*2) → length (push_flags flags (lk_lib <$> ps.*2)) < cap →
  pc_src ch = render (linked ps tl) →
  ∃ ch', cc_pass_chain_apply ch (cc__rewrite_link_directives rok (pc_src ch)) = Some (true, ch') ∧
    pc_src ch' = lowered (linked ps tl) ∧
    cc__scan_for_link_directives cap (pc_src ch') flags = push_flags flags (lk_lib <$> ps.*2).
Proof.
  intros Hr Hwf Hnul Hsize [[Hm Hl] Hps]%Forall_cons Hg Hnew Hcap Hch.
  assert (Hgo : chain_goes_on ch (cc__rewrite_link_directives rok (pc_src ch)) (lowered (linked ps tl))).
  { rewrite Hch. unfold cc__rewrite_link_directives. case_decide as Hd; [by eapply empty_doc|]. by apply finish_last_doc. }
  destruct Hgo as (ch' & H1 & H2). exists ch'. split_and!; [done|done|]. rewrite H2. unfold cc__scan_for_link_directives.
  change (take _ _) with (before_nul (lowered (linked ps tl))). rewrite before_nul_id by done.
  rewrite (scan_linked _ _ [] ps tl); [|by left| |done|by apply strstr_longer|pose proof (linked_length ps tl); lia].
  - rewrite <- (add_libs_new cap) by done. clear. revert flags. induction ps as [|p ps IH]; intros flags; [done|]. apply IH.
  - clear -Hps Hg. induction ps as [|p ps IH]; [constructor|]. apply Forall_cons in Hps as [[? _] Hps]. apply Forall_cons in Hg as [? Hg].
    constructor; [done|by apply IH].
Qed.
Ltac char_ne := let E := fresh in intros E; vm_compute in E; discriminate E.
Ltac quiet_text := repeat (apply quiet_code; [char_ne|char_ne|char_ne|char_ne|]); try apply quiet_nil.
Definition demo_link : link := Link (txt " ") (txt "curl") [].
Definition demo_links : list (list ascii * link) := [(txt "/* libs */ a;", demo_link); (txt " b ", Link [] (txt "z") [])].
Lemma link_directives_reach_linker_witness :
  wf_doc (linked demo_links (txt ";")) ∧
  ∃ ch', cc_pass_chain_apply (cc_pass_chain_init (render (linked demo_links (txt ";"))))
      (cc__rewrite_link_directives (λ _, true) (render (linked demo_links (txt ";")))) = Some (true, ch') ∧
    pc_src ch' = lowered (linked demo_links (txt ";")) ∧
    cc__scan_for_link_directives 100 (pc_src ch') [] = txt "-lcurl -lz".
Proof.
  assert (Hwf : wf_doc (linked demo_links (txt ";"))).
  { split; [apply (quiet_block _ _ (txt " libs ") (txt " a;"));
      [repeat split; intros [E1 E2]; vm_compute in E1, E2; congruence|quiet_text]|].
    split; [split_and!; by repeat constructor|]. split; [quiet_text|]. split; [split_and!; by repeat constructor|]. split; [quiet_text|done]. }
  split; [exact Hwf|].
  destruct (link_directives_reach_linker (λ _, true) 100 demo_links (txt ";") [] (cc_pass_chain_init (render (linked demo_links (txt ";")))))
    as (ch' & H1 & H2 & H3).
  - done.
  - exact Hwf.
  - apply (bool_decide_eq_true_1 (NUL ∉ lowered (linked demo_links (txt ";")))). vm_compute. reflexivity.
  - vm_compute. discriminate.
  - repeat constructor.
  - repeat constructor; vm_compute; lia.
  - repeat constructor.
  - vm_compute. lia.
  - reflexivity.
  - exists ch'. split; [exact H1|]. split; [exact H2|]. rewrite H3. vm_compute. reflexivity.
Defined.

(** a library whose name is a prefix of one already linked is lost: the
    duplicate check of [cc__add_lib_to_flags] looks for the flag anywhere in
    the flag string, so that after [-lmysqlclient] the library [m] is not
    added. *)
Theorem link_prefix_lost cap a b :
  cc__is_lib_path a = false → cc__is_lib_path (a ++ b) = false → a ≠ [] → length (a ++ b) + 2 < 280 → length (a ++ b) + 2 < cap →
  cc__add_lib_to_flags cap a (cc__add_lib_to_flags cap (a ++ b) []) = cc__add_lib_to_flags cap (a ++ b) [] ∧
  cc__add_lib_to_flags cap (a ++ b) [] = txt "-l" ++ a ++ b.
Proof.
  intros Ha Hab Hne Hl Hc.
  assert (lib_flag (a ++ b) = txt "-l" ++ a ++ b ∧ lib_flag a = txt "-l" ++ a) as [Hf Hf'].
  { unfold lib_flag. rewrite Ha, Hab. rewrite length_app in Hl. split; apply take_ge; rewrite ?length_app; change (length (txt "-l")) with 2; lia. }
  assert (E : cc__add_lib_to_flags cap (a ++ b) [] = txt "-l" ++ a ++ b).
  { unfold cc__add_lib_to_flags. rewrite decide_False by (by destruct a). rewrite Hf. cbn [strstr]. rewrite decide_False by (by destruct a).
    unfold cc__append_spaced, strncat_fit. rewrite decide_False by (intros [?|?]; [lia|done]). rewrite decide_True by done.
    apply take_ge. rewrite length_app. change (length (txt "-l")) with 2. simpl. lia. }
  split; [|done]. rewrite E. unfold cc__add_lib_to_flags at 1. rewrite decide_False, Hf', app_assoc by done. by rewrite strstr_here.
Qed.
Lemma link_prefix_lost_witness :
  cc__add_lib_to_flags 100 (txt "m") (cc__add_lib_to_flags 100 (txt "mysqlclient") []) = txt "-lmysqlclient".
Proof.
  destruct (link_prefix_lost 100 (txt "m") (txt "ysqlclient")) as [H1 H2];
    [vm_compute; reflexivity|vm_compute; reflexivity|discriminate|vm_compute; lia|vm_compute; lia|].
  change (txt "m" ++ txt "ysqlclient") with (txt "mysqlclient") in *. rewrite H1. exact H2.
Defined.

(** * Call-site modes *)


(** * [@async void] *)

(** the return type of every [@async void] function, behind any
    attributes, becomes [CCAsyncVoidRet]; other [@async] functions and all
    other text are unchanged, also where the word [void] occurs. *)
Theorem async_void_lowered rok (doc : list (item asyncd)) ch :
  (∀ z, rok z = true) → wf_doc doc → NUL ∉ lowered doc → (Z.of_nat (length (lowered doc)) + 2 ≤ 2 ^ 61)%Z → pc_src ch = render doc →
  chain_goes_on ch (cc__rewrite_async_void_ret rok (pc_src ch)) (lowered doc).
Proof.
  intros Hr Hwf Hnul Hsize Hch. rewrite Hch. unfold cc__rewrite_async_void_ret. case_decide as Hd; [by eapply empty_doc|].
  destruct (negb _) eqn:E; [|apply finish_changed_doc; auto]. apply negb_true_iff in E.
  eapply (early_doc doc Hwf [txt "@async"]); [| |done].
  - intros d. exists (txt "@async"). unfold sp_show. cbn. eexists. split_and!; [by left|done|]. unfold async_show, async_head. by rewrite <- !app_assoc.
  - intros tok [->|[]%not_elem_of_nil]%elem_of_cons; done.
Qed.
Definition demo_async : list (item asyncd) :=
  [Dir (Async [(txt " ", txt "noblock")] (txt " ") true); Txt (txt " f(void) {} "); Dir (Async [] (txt " ") false); Txt (txt "int g(void);")].
Lemma async_void_lowered_witness :
  lowered demo_async = txt "@async @noblock CCAsyncVoidRet f(void) {} @async int g(void);" ∧
  chain_goes_on (cc_pass_chain_init (render demo_async)) (cc__rewrite_async_void_ret (λ _, true) (render demo_async)) (lowered demo_async).
Proof.
  split; [reflexivity|]. apply (async_void_lowered (λ _, true) demo_async (cc_pass_chain_init (render demo_async))).
  - done.
  - split; [split_and!; try by repeat constructor|].
    { exists (txt " "), (txt "f"), [], (txt "void) {} @async int g(void);"). split_and!; by repeat constructor. }
    split; [quiet_text|]. split; [split_and!; try by repeat constructor|split; [quiet_text|done]].
    exists "i"%char, (txt "nt g(void);"). split_and!; [reflexivity|reflexivity|char_ne|discriminate].
  - apply (bool_decide_eq_true_1 (NUL ∉ lowered demo_async)). vm_compute. reflexivity.
  - vm_compute. discriminate.
  - reflexivity.
Defined.
