(* ===== verification/PpAwait.v ===== *)
(** [@await] on a whole program: the declarations the table is collected from
    and the calls it is used for. *)
From S2P Require Import Prelude Bytes Lex Text TextScan TextDecl TextBuild PpPass PpSigil PpDoc PpSigilDoc PpSigilProps.

Implicit Types (src l s t pre post : list ascii) (i k last : nat) (c : ascii).

(** * Definitions *)

(** A declaration [@async ret name(]. *)
Record adecl := ADecl { ad_ws0 : list ascii; ad_ret : list ascii; ad_ws1 : list ascii; ad_name : list ascii; ad_ws2 : list ascii }.
Definition adecl_tail (d : adecl) : list ascii := ad_ret d ++ ad_ws1 d ++ ad_name d ++ ad_ws2 d ++ [LPAR].
Definition adecl_show (d : adecl) : list ascii := txt "@async" ++ ad_ws0 d ++ adecl_tail d.
Definition ends_other (f : ascii → bool) t : Prop := starts_other f (reverse t).
Definition adecl_ok (d : adecl) : Prop :=
  all is_ws (ad_ws0 d) ∧ ad_ws0 d ≠ [] ∧ all type_char (ad_ret d) ∧ ad_ret d ≠ [] ∧ starts_other is_ws (ad_ret d) ∧ ends_other is_ws3 (ad_ret d) ∧
  all is_ws3 (ad_ws1 d) ∧ ends_other cc_is_ident_char (ad_ret d ++ ad_ws1 d) ∧ ident (ad_name d) ∧ all is_ws (ad_ws2 d) ∧
  length (ad_name d) < 128 ∧ length (ad_ret d) < 128.

(** A program: text, declarations and awaited calls. *)
Inductive pitem := PTxt (s : list ascii) | PDecl (d : adecl) | PCall (a : awaited).
Definition pshow (it : pitem) : list ascii := match it with PTxt s => s | PDecl d => adecl_show d | PCall a => await_show a end.
Definition prog_text (pr : list pitem) : list ascii := mjoin (pshow <$> pr).
Fixpoint decls (pr : list pitem) : list CCAtAwaitFn :=
  match pr with
  | [] => []
  | PDecl d :: pr' => AtAwaitFn (ad_name d) (ad_ret d) :: decls pr'
  | _ :: pr' => decls pr'
  end.
Definition plower (fns : list CCAtAwaitFn) (it : pitem) : list ascii :=
  match it with PTxt s => s | PDecl d => adecl_show d | PCall a => await_lower fns a end.
(** The program with its calls lowered, by the table of its first 256
    declarations. *)
Definition prog_lowered (pr : list pitem) : list ascii := mjoin (plower (take CC__AT_AWAIT_MAX_FNS (decls pr)) <$> pr).
Definition async_calm l : Prop := async_at l 0 = false.
Definition await_calm l : Prop := await_at l 0 = false.
(** No [@await] token anywhere in the text. *)
Definition no_await t : bool := forallb (λ k, negb (await_at t k)) (List.seq 0 (length t)).
(** A well-formed program: the declarations have their form, the awaited
    calls theirs and no [@await] among their arguments, and the text between
    them has neither, code apart from comments and literals. *)
Fixpoint wf_prog (pr : list pitem) : Prop :=
  match pr with
  | [] => True
  | PTxt s :: pr' => quiet await_calm (prog_text pr') s ∧ quiet async_calm (prog_text pr') s ∧ wf_prog pr'
  | PDecl d :: pr' => adecl_ok d ∧ wf_prog pr'
  | PCall a :: pr' => await_ok a (prog_text pr') ∧ length (aw_id a) < 128 ∧ no_await (aw_args a) = true ∧ quiet async_calm (prog_text pr') (await_show a) ∧ wf_prog pr'
  end.

(** The collecting loop as a pass that emits its entries. *)
Definition collect_step src last i : act :=
  if async_at src i then
    let j := skip_while is_ws src (i + 6) in
    let i' := if decide (i + 6 < j) then j else S i in
    match async_entry src i with
    | Some f => Rewrite i [Lit (aw_name f); Lit (aw_ret f)] last i'
    | None => Keep i'
    end
  else Keep (S i).
Fixpoint entries (ks : list chunk) : list CCAtAwaitFn :=
  match ks with Cut _ _ :: Lit n :: Lit r :: ks' => AtAwaitFn n r :: entries ks' | _ => [] end.

(** * The walk to the function name *)

Lemma walk_blanks src ws l k nm fuel : drop k src = ws ++ LPAR :: l → all is_ws ws → length ws < fuel →
  walk_fname fuel src (Some nm) k = (Some nm, k + length ws).
Proof.
  revert k fuel. induction ws as [|c ws IH]; intros k [|fuel] E Hws Hf; try (simpl in Hf; lia); cbn [app] in E; destruct (drop_head _ _ _ _ E) as (_ & E' & El).
  - cbn [walk_fname]. rewrite El. rewrite Nat.add_0_r. done.
  - pose proof (Forall_inv Hws) as Hc. cbn [walk_fname]. rewrite El.
    assert (Hni : cc_is_ident_char c = false) by (by apply blank_not_ident).
    assert (Hns : cc_is_ident_start c = false) by (destruct (cc_is_ident_start c) eqn:Es; [apply start_char in Es; congruence|done]).
    assert (c ≠ LBR ∧ c ≠ chr 59 ∧ c ≠ LPAR) as (? & ? & ?) by (split_and!; intros ->; done).
    rewrite !eqc_ne, Hni, Hns, andb_false_r by done. cbn [orb andb]. rewrite IH; [|done|by apply Forall_inv_tail in Hws|simpl in Hf; lia].
    f_equal. simpl. lia.
Qed.
Lemma span_split f t : ∃ u v, t = u ++ v ∧ all f u ∧ starts_other f v ∧ span f t = length u.
Proof.
  induction t as [|c t (u & v & -> & Hu & Hv & Hs)]; [by exists [], []; repeat constructor|]. cbn [span]. destruct (f c) eqn:Ec.
  - exists (c :: u), v. split_and!; [done|by constructor|done|by rewrite Hs].
  - exists [], (c :: u ++ v). split_and!; [done|by apply Forall_nil|done|done].
Qed.
Lemma ends_other_app f u v : v ≠ [] → ends_other f (u ++ v) → ends_other f v.
Proof. unfold ends_other. rewrite reverse_app. intros Hv. destruct (reverse v) eqn:E; [|done]. apply (f_equal reverse) in E. by rewrite reverse_involutive in E. Qed.
Lemma ends_other_all f u : u ≠ [] → all f u → ¬ ends_other f u.
Proof.
  unfold ends_other. intros Hu Ha H. apply Forall_reverse in Ha. destruct (reverse u) as [|c r] eqn:E.
  - apply (f_equal reverse) in E. by rewrite reverse_involutive in E.
  - apply Forall_inv in Ha. simpl in H. congruence.
Qed.
Lemma type_char_walk c : type_char c = true → c ≠ LBR ∧ c ≠ chr 59 ∧ c ≠ LPAR ∧ c ≠ SLASH ∧ c ≠ DQ ∧ c ≠ SQ ∧ c ≠ AT.
Proof. intros H. split_and!; intros ->; vm_compute in H; discriminate H. Qed.

(** The walk passes the return type and stops behind the name. *)
Lemma walk_ok src t name ws l fuel k nm : drop k src = t ++ name ++ ws ++ LPAR :: l → 0 < k →
  all type_char t → ends_other cc_is_ident_char t → ident name → all is_ws ws → length t + length ws + 1 < fuel →
  walk_fname fuel src nm k = (Some (k + length t, k + length t + length name), k + length t + length name + length ws).
Proof.
  intros E Hk Ht He Hn Hws. revert nm k fuel E Hk He.
  induction t as [t IH] using list_len_ind. intros nm k [|fuel] E Hk He Hf; [lia|]. destruct t as [|c t].
  - destruct name as [|c name]; [done|]. pose proof (ident_chars _ Hn) as Hnc. destruct Hn as [Hc _]. pose proof (drop_app_next _ _ [] _ E) as E0. cbn [app length] in *.
    rewrite Nat.add_0_r in *. destruct (drop_head _ _ _ _ E) as (_ & _ & El). cbn [walk_fname]. rewrite El.
    assert (c ≠ LBR ∧ c ≠ chr 59 ∧ c ≠ LPAR) as (? & ? & ?) by (split_and!; intros ->; done).
    rewrite !eqc_ne, Hc by done. cbn [orb andb]. change (c :: name ++ ws ++ LPAR :: l) with ((c :: name) ++ ws ++ LPAR :: l) in E.
    rewrite (skip_while_drop _ _ _ _ _ E); [|done|].
    2:{ destruct ws as [|cw ws]; [done|]. apply blank_not_ident. by apply Forall_inv in Hws. }
    rewrite (walk_blanks src ws l); [done|by apply drop_app_next|done|lia].
  - pose proof (Forall_inv Ht) as Hc. destruct (type_char_walk c Hc) as (? & ? & ? & _). destruct (drop_head _ _ _ _ E) as (_ & E' & El).
    cbn [walk_fname]. rewrite El, !eqc_ne by done. cbn [orb andb].
    rewrite (bool_decide_eq_true_2 (0 < k)) by done. cbn [andb]. destruct (cc_is_ident_start c || cc_is_ident_char c) eqn:Ei.
    + assert (Hci : cc_is_ident_char c = true) by (apply orb_true_iff in Ei as [?%start_char|?]; done).
      destruct (span_split cc_is_ident_char (c :: t)) as (u & v & Euv & Hu & Hv & _).
      destruct u as [|cu u]; [simpl in Euv; subst v; simpl in Hv; congruence|]. rewrite Euv in *. injection Euv as -> _.
      assert (v ≠ []) as Hvn. { intros ->. rewrite app_nil_r in He. by apply (ends_other_all cc_is_ident_char (cu :: u)). }
      rewrite <- app_assoc in E. rewrite (skip_while_drop _ _ _ _ _ E); [|done|by destruct v].
      rewrite (IH v); [|rewrite length_app; simpl; lia|by apply Forall_app in Ht as [_ ?]|by apply drop_app_next|lia|by eapply ends_other_app|rewrite length_app in Hf; simpl in Hf; lia].
      rewrite length_app, !Nat.add_assoc. done.
    + rewrite (IH t); [|simpl; lia|by apply Forall_inv_tail in Ht|done|lia| |simpl in Hf; lia].
      * cbn [length]. by replace (k + S (length t)) with (S k + length t) by lia.
      * destruct t as [|c' t]; [done|]. by apply (ends_other_app _ [c]).
Qed.

(** * Collecting the table *)

Lemma ws3_ws c : is_ws3 c = true → is_ws c = true.
Proof. unfold is_ws3, is_ws. intros H. repeat (apply orb_true_iff in H as [H|H]); rewrite H, ?orb_true_r; done. Qed.
Lemma ws_type c : is_ws c = true → type_char c = true.
Proof. unfold type_char. intros ->. by rewrite orb_true_r. Qed.
Lemma trim_ret t ws : all is_ws3 ws → ends_other is_ws3 t →
  take (length (t ++ ws) - span is_ws3 (reverse (t ++ ws))) (t ++ ws) = t.
Proof.
  intros Hws Ht. rewrite reverse_app, span_app by (by apply Forall_reverse). rewrite length_reverse.
  assert (span is_ws3 (reverse t) = 0) as ->. { unfold ends_other in Ht. destruct (reverse t) as [|c r]; [done|]. by apply span_stop. }
  rewrite length_app. apply take_app_length'. lia.
Qed.
Lemma decl_async_at src i d l : adecl_ok d → drop i src = adecl_show d ++ l →
  async_at src i = true ∧ skip_while is_ws src (i + 6) = i + 6 + length (ad_ws0 d) ∧
  drop (i + 6 + length (ad_ws0 d)) src = (ad_ret d ++ ad_ws1 d) ++ ad_name d ++ ad_ws2 d ++ LPAR :: l.
Proof.
  intros (H1 & H2 & _ & H4 & H5 & _) E. unfold adecl_show, adecl_tail in E. repeat (rewrite <- ?app_assoc in E; cbn [app] in E).
  pose proof (drop_app_next _ _ _ _ E) as E1. change (length (txt "@async")) with 6 in E1. pose proof (drop_app_next _ _ _ _ E1) as E2. split_and!.
  - unfold async_at. rewrite (kw_at_drop _ _ _ _ E). destruct (ad_ws0 d) as [|c ws]; [done|]. rewrite (test_at_drop _ _ _ _ _ E1), blank_not_ident; [done|].
    by apply Forall_inv in H1.
  - eapply skip_while_drop; [done|done|]. by destruct (ad_ret d).
  - rewrite E2. by rewrite <- !app_assoc.
Qed.
Lemma decl_entry src i d l : adecl_ok d → drop i src = adecl_show d ++ l →
  async_entry src i = Some (AtAwaitFn (ad_name d) (ad_ret d)).
Proof.
  intros Hok E. destruct (decl_async_at _ _ _ _ Hok E) as (_ & Ej & E2). destruct Hok as (_ & _ & Hr & Hne & _ & He & Hw1 & Hs & Hn & Hw2 & Hl1 & Hl2).
  unfold async_entry. rewrite Ej. pose proof (drop_app_next _ _ _ _ E2) as E3. pose proof (drop_app_next _ _ _ _ E3) as E4. pose proof (drop_app_next _ _ _ _ E4) as E5.
  assert (Hlen := f_equal length E2). rewrite length_drop, !length_app in Hlen. cbn [length] in Hlen.
  rewrite (walk_ok _ _ _ _ _ _ _ _ E2); [|lia| |done|done|done|rewrite length_app; lia].
  2:{ apply Forall_app. split; [done|]. eapply Forall_impl; [exact Hw1|]. intros c Hc. by apply ws_type, ws3_ws. }
  rewrite (char_at_drop _ _ _ _ _ E5), eqc_refl. rewrite bool_decide_eq_true_2 by (destruct (ad_name d); [done|simpl; lia]). cbn [andb].
  rewrite (range_drop _ _ _ _ E2), (range_drop _ _ _ _ E3), trim_ret by done. rewrite decide_False by done.
  unfold fits128. by rewrite !take_ge by lia.
Qed.

Lemma collect_pass fuel st src fns last i : length fns ≤ CC__AT_AWAIT_MAX_FNS →
  collect_loop fuel st src fns i = (λ r, take CC__AT_AWAIT_MAX_FNS (fns ++ entries r.1)) <$> pass_loop skip_lex 0 collect_step fuel st src last i.
Proof.
  revert st fns last i. induction fuel as [|fuel IH]; intros st fns last i Hf; cbn [collect_loop pass_loop]; rewrite !Nat.add_0_r;
    (case_decide; [|cbn [fmap option_fmap option_map fst entries]; by rewrite app_nil_r, take_ge]); [done|].
  destruct (skip_lex st src i) as [[[] st'] i']; [by apply IH|]. unfold collect_step at 1. destruct (async_at src i); [|by apply IH].
  destruct (async_entry src i) as [f|]; [|by apply IH]. case_decide as Hlt.
  - rewrite (IH _ _ last) by (rewrite length_app; simpl; lia). destruct (pass_loop _ _ _ _ _ _ _ _) as [[ks l]|]; [|done]. cbn [mbind option_bind fmap option_fmap option_map fst entries app].
    rewrite <- app_assoc. by destruct f.
  - rewrite (IH _ _ last) by done. destruct (pass_loop _ _ _ _ _ _ _ _) as [[ks l]|]; [|done]. cbn [mbind option_bind fmap option_fmap option_map fst entries app].
    rewrite !take_app_le by lia. done.
Qed.

Lemma quiet_plain calm post s : all (λ c, type_char c || eqc c LPAR) s → quiet calm post s.
Proof.
  induction 1 as [|c s Hc _ IH]; [constructor|].
  assert (c ≠ SLASH ∧ c ≠ DQ ∧ c ≠ SQ ∧ c ≠ AT) as (? & ? & ? & ?) by (split_and!; intros ->; vm_compute in Hc; discriminate Hc).
  by apply quiet_code.
Qed.
Lemma adecl_tail_plain d : adecl_ok d → all (λ c, type_char c || eqc c LPAR) (adecl_tail d).
Proof.
  intros (_ & _ & Hr & _ & _ & _ & Hw1 & _ & Hn & Hw2 & _). unfold adecl_tail.
  assert (Hi : ∀ s f, all f s → (∀ c, f c = true → type_char c = true) → all (λ c, type_char c || eqc c LPAR) s).
  { intros s f Hs Hf. eapply Forall_impl; [exact Hs|]. intros c Hc. by rewrite (Hf c Hc). }
  unfold all at 1. rewrite !Forall_app. split_and!.
  - by eapply Hi.
  - eapply Hi; [exact Hw1|]. intros c Hc. by apply ws_type, ws3_ws.
  - eapply Hi; [exact (ident_chars _ Hn)|]. intros c Hc. unfold type_char. by rewrite Hc.
  - eapply Hi; [exact Hw2|]. apply ws_type.
  - by repeat constructor.
Qed.

Lemma collect_prog pr src i last : wf_prog pr → drop i src = prog_text pr →
  ∃ ks last', pass_loop skip_lex 0 collect_step (length (prog_text pr)) Code src last i = Some (ks, last') ∧ entries ks = decls pr.
Proof.
  assert (Hcode : ∀ src last i c, src !! i = Some c → c ≠ AT → collect_step src last i = Keep (S i)).
  { clear. intros src last i c Hc Hne. unfold collect_step, async_at. destruct (kw_at src i (txt "@async")) eqn:E; [|done].
    by destruct Hne; eapply (kw_at_head _ _ AT). }
  assert (Hcalm : ∀ pre l last, async_calm (AT :: l) → collect_step (pre ++ AT :: l) last (length pre) = Keep (S (length pre))).
  { clear. intros pre l last Hc. unfold collect_step. rewrite <- (Nat.add_0_r (length pre)) at 1. rewrite async_at_shift.
    by rewrite Hc. }
  revert i last. induction pr as [|it pr IH]; intros i last Hwf E.
  - exists [], last. split; [|done]. cbn [prog_text length fmap list_fmap mjoin list_join pass_loop]. rewrite decide_False; [done|].
    assert (Hl := f_equal length E). rewrite length_drop in Hl. cbn in Hl. lia.
  - change (prog_text (it :: pr)) with (pshow it ++ prog_text pr) in *.
    assert (Hquiet : quiet async_calm (prog_text pr) (pshow it) → wf_prog pr →
      ∃ ks last', pass_loop skip_lex 0 collect_step (length (pshow it ++ prog_text pr)) Code src last i = Some (ks, last') ∧ entries ks = decls pr).
    { intros Hq Hwf'. destruct (IH (i + length (pshow it)) last Hwf' (drop_app_next _ _ _ _ E)) as (ks & last' & Hr & He).
      exists ks, last'. split; [|done]. rewrite length_app, Nat.add_comm. by eapply loop_quiet_gen. }
    destruct it as [s|d|a]; [by apply Hquiet; apply Hwf| |by apply Hquiet; apply Hwf]. destruct Hwf as [Hok Hwf]. cbn [pshow] in *.
    destruct (decl_async_at _ _ _ _ Hok E) as (Hat & Hj & E2). pose proof (decl_entry _ _ _ _ Hok E) as He.
    set (j := i + 6 + length (ad_ws0 d)) in *.
    assert (E3 : drop j src = adecl_tail d ++ prog_text pr) by (rewrite E2; unfold adecl_tail; by repeat (rewrite <- ?app_assoc; cbn [app])).
    destruct (IH (j + length (adecl_tail d)) last Hwf (drop_app_next _ _ _ _ E3)) as (ks & last' & Hr & Hes).
    exists (Cut last i :: [Lit (ad_name d); Lit (ad_ret d)] ++ ks), last'. split; [|cbn [decls]; rewrite <- Hes; reflexivity].
    assert (Eh : drop i src = AT :: (txt "async" ++ ad_ws0 d ++ adecl_tail d) ++ prog_text pr) by (by rewrite E).
    destruct (drop_head _ _ _ _ Eh) as (Hlt & _).
    eapply (pass_loop_mono _ _ _ (S (length (prog_text pr) + length (adecl_tail d)))).
    { unfold adecl_show. rewrite !length_app. change (length (txt "@async")) with 6. lia. }
    cbn [pass_loop]. rewrite decide_True by lia. unfold skip_lex at 1. rewrite Eh, lex_code by done. unfold collect_step at 1.
    rewrite Hat, Hj, He. rewrite decide_True by (unfold j; destruct (ad_ws0 d) eqn:Ew; [by destruct Hok as (_ & ? & _)|simpl; lia]).
    cbn [aw_name aw_ret].
    rewrite (loop_quiet_gen collect_step async_calm (length (prog_text pr)) src j (prog_text pr) (adecl_tail d) last (ks, last'));
      [reflexivity|done|done|by apply quiet_plain, adecl_tail_plain|done|done].
Qed.

(** * [@await] on a program *)

Definition prog_doc (pr : list pitem) : list (item awaited) :=
  (λ it, match it with PTxt s => Txt s | PDecl d => Txt (adecl_show d) | PCall a => Dir a end) <$> pr.
Lemma render_prog fns pr : render (step := await_step fns) (prog_doc pr) = prog_text pr.
Proof. induction pr as [|[s|d|a] pr IH]; [done|..]; by apply (f_equal (app _)). Qed.
Lemma lowered_prog fns pr : lowered (step := await_step fns) (prog_doc pr) = mjoin (plower fns <$> pr).
Proof. induction pr as [|[s|d|a] pr IH]; [done|..]; by apply (f_equal (app _)). Qed.
Lemma decl_quiet d post : adecl_ok d → quiet await_calm post (adecl_show d).
Proof.
  intros Hok. apply (quiet_at _ _ (txt "async" ++ ad_ws0 d ++ adecl_tail d)); [reflexivity|]. apply quiet_plain. unfold all. rewrite !Forall_app.
  split_and!; [by repeat constructor| |by apply adecl_tail_plain]. destruct Hok as (Hw & _). eapply Forall_impl; [exact Hw|].
  intros c Hc. by rewrite ws_type.
Qed.
Lemma wf_prog_doc fns pr : wf_prog pr → wf_doc (step := await_step fns) (prog_doc pr).
Proof.
  induction pr as [|[s|d|a] pr IH]; intros Hwf; [done|..]; (split; [|by apply IH; apply Hwf]); rewrite ?render_prog.
  - apply Hwf.
  - apply decl_quiet, Hwf.
  - apply Hwf.
Qed.

(** C18: awaited calls are lowered: in a program of declarations
    [@async T f(] whose type has no attributes, awaited calls of named functions
    without a further [@await] among their arguments, and other text without
    either, [@await f(args)] becomes [cc_block_on(T, f(args))] with [T] the
    return type of the first [@async] declaration of [f] among the first 256,
    and [f(args)] when there is none; all other text is unchanged.  Names and
    types have fewer than 128 characters, parentheses in the arguments balance
    outside string literals, and memory is available. *)
Theorem await_lowered rok pr ch :
  (∀ z, rok z = true) → wf_prog pr → NUL ∉ prog_lowered pr → (Z.of_nat (length (prog_lowered pr)) + 2 ≤ 2 ^ 61)%Z →
  pc_src ch = prog_text pr → chain_goes_on ch (cc__rewrite_at_await rok (pc_src ch)) (prog_lowered pr).
Proof.
  intros Hr Hwf Hnul Hsize Hch. rewrite Hch. set (fns := take CC__AT_AWAIT_MAX_FNS (decls pr)).
  pose proof (wf_prog_doc fns pr Hwf) as Hd. pose proof (render_prog fns pr) as Er. pose proof (lowered_prog fns pr) as El.
  change (mjoin (plower fns <$> pr)) with (prog_lowered pr) in El. rewrite <- Er in *. rewrite <- El in *. clear Er El.
  unfold cc__rewrite_at_await. case_decide as He; [by eapply empty_doc|]. destruct (negb _) eqn:E.
  - apply negb_true_iff in E. eapply (early_doc _ Hd [txt "@await"]); [| |done].
    + intros d. exists (txt "@await"). eexists. split_and!; [by left|done|reflexivity].
    + intros tok [->|[]%not_elem_of_nil]%elem_of_cons; done.
  - rewrite render_prog. unfold cc__collect_async_ret_types. rewrite (collect_pass _ _ _ _ 0) by (simpl; lia).
    destruct (collect_prog pr (prog_text pr) 0 0 Hwf) as (ks & last' & -> & Hes); [done|]. cbn [fmap option_fmap option_map fst app]. rewrite Hes.
    fold fns. rewrite <- (render_prog fns). apply finish_changed_doc; auto.
Qed.
Definition demo_prog : list pitem :=
  [PDecl (ADecl (txt " ") (txt "int *") [] (txt "f") []); PTxt (txt "int x); y = ");
   PCall (Awaited (txt " ") (txt "f") [] (txt "1, (2)")); PTxt (txt " + "); PCall (Awaited (txt " ") (txt "g") [] []); PTxt (txt ";")].
Lemma await_lowered_witness :
  prog_lowered demo_prog = txt "@async int *f(int x); y = cc_block_on(int *, f(1, (2))) + g();" ∧
  chain_goes_on (cc_pass_chain_init (prog_text demo_prog)) (cc__rewrite_at_await (λ _, true) (prog_text demo_prog)) (prog_lowered demo_prog).
Proof.
  split; [vm_compute; reflexivity|]. apply (await_lowered (λ _, true) demo_prog (cc_pass_chain_init (prog_text demo_prog))).
  - done.
  - split; [split_and!; try done; try (by repeat constructor)|]. split; [quiet_text|]. split; [quiet_text|].
    split; [split_and!; try by repeat constructor|].
    2: split; [vm_compute; lia|]; split; [reflexivity|].
    { repeat (apply ca_char; [char_ne|char_ne|char_ne|done|]). apply (ca_group _ _ _ (txt "2") []); [|constructor].
      apply ca_char; [char_ne|char_ne|char_ne|done|constructor]. }
    split; [apply quiet_at; [vm_compute; reflexivity|quiet_text]|]. split; [quiet_text|]. split; [quiet_text|].
    split; [split_and!; by repeat constructor|]. split; [vm_compute; lia|]. split; [reflexivity|]. split; [apply quiet_at; [vm_compute; reflexivity|quiet_text]|].
    split; [quiet_text|]. split; [quiet_text|done].
  - apply (bool_decide_eq_true_1 (NUL ∉ prog_lowered demo_prog)). vm_compute. reflexivity.
  - vm_compute. discriminate.
  - reflexivity.
Defined.

(** * Termination *)

Definition progress (step : list ascii → nat → nat → act) : Prop :=
  ∀ src last i, match step src last i with Keep i' => i < i' | Rewrite _ _ _ i' => i < i' end.
Lemma skip_lex_progress st src i : match skip_lex st src i with (true, _, i') => i < i' | (false, _, _) => True end.
Proof. unfold skip_lex. destruct (drop i src) as [|c l]; [done|]. destruct (lex_step _ _ _ _ _) as [st' []|]; [lia|lia|done]. Qed.
Lemma pass_loop_total step fuel st src last i : progress step → length src - i ≤ fuel → is_Some (pass_loop skip_lex 0 step fuel st src last i).
Proof.
  intros Hp. revert st last i. induction fuel as [|fuel IH]; intros st last i Hf; cbn [pass_loop]; (case_decide; [|by eexists]); [lia|].
  pose proof (skip_lex_progress st src i) as Hs. destruct (skip_lex st src i) as [[[] st'] i']; [apply IH; lia|].
  specialize (Hp src last i). destruct (step src last i) as [j|u ks last' j]; [apply IH; lia|].
  destruct (IH st' last' j) as [[ks' l'] ->]; [lia|]. by eexists.
Qed.
Lemma skip_while_ge f src p : p ≤ skip_while f src p.
Proof. unfold skip_while. lia. Qed.
Lemma link_progress : progress link_step.
Proof.
  intros src last i. unfold link_step. destruct (kw_at _ _ _); [|lia]. set (p1 := skip_while is_blank src (i + 6)).
  set (p2 := skip_while _ src (S p1)). set (p3 := skip_while _ src (S p2)).
  assert (i + 6 ≤ p1 ∧ S p1 ≤ p2 ∧ S p2 ≤ p3) by (split_and!; apply skip_while_ge).
  destruct (char_at src p1 DQ), (char_at src p2 DQ), (char_at src p3 RPAR); lia.
Qed.
Lemma call_progress : progress call_step.
Proof.
  intros src last i. unfold call_step. destruct (negb (char_at src i AT)); [lia|]. destruct (call_mode src i) as [[m p]|] eqn:Em; [|lia].
  assert (i < p). { unfold call_mode in Em. repeat case_match; simplify_eq; lia. }
  destruct (negb _); [lia|]. pose proof (skip_while_ge is_ws src p).
  pose proof (skip_while_ge cc_is_ident_char src (skip_while is_ws src p)).
  pose proof (skip_while_ge is_ws src (skip_while cc_is_ident_char src (skip_while is_ws src p))).
  destruct (negb _); [lia|]. destruct (qscan _ _ _ _ _ _) as [m' d]. destruct (negb _); [lia|]. destruct (char_at _ _ LBR); lia.
Qed.
Lemma async_progress : progress async_step.
Proof.
  assert (Hge : ∀ fuel src p, p ≤ skip_attrs fuel src p).
  { induction fuel as [|fuel IH]; intros src p; cbn [skip_attrs]; pose proof (skip_while_ge is_ws src p); [lia|].
    destruct (char_at _ _ AT); [|lia]. case_decide; [lia|]. pose proof (skip_while_ge cc_is_ident_char src (S (skip_while is_ws src p))).
    specialize (IH src (skip_while cc_is_ident_char src (S (skip_while is_ws src p)))). lia. }
  intros src last i. unfold async_step. destruct (async_at src i); [|lia]. specialize (Hge (length src) src (i + 6)).
  destruct (_ && _ && _ && _); [lia|]. case_decide; lia.
Qed.
Lemma await_progress fns : progress (await_step fns).
Proof.
  intros src last i. unfold await_step. destruct (await_at src i); [|lia]. pose proof (skip_while_ge is_blank src (i + 6)).
  destruct (test_at _ _ _); [|lia]. pose proof (skip_while_ge cc_is_ident_char src (skip_while is_blank src (i + 6))).
  pose proof (skip_while_ge is_blank src (skip_while cc_is_ident_char src (skip_while is_blank src (i + 6)))).
  destruct (char_at _ _ LPAR); [|lia]. destruct (lookup_ret _ _); lia.
Qed.
Lemma collect_progress : progress collect_step.
Proof. intros src last i. unfold collect_step. destruct (async_at src i); [|lia]. destruct (async_entry src i); case_decide; lia. Qed.
Lemma collect_total src : is_Some (cc__collect_async_ret_types src).
Proof.
  unfold cc__collect_async_ret_types. rewrite (collect_pass _ _ _ _ 0) by (simpl; lia).
  destruct (pass_loop_total collect_step (length src) Code src 0 0 collect_progress) as [r ->]; [lia|]. by eexists.
Qed.

(** the four [@] passes and the collection of the return types terminate
    on every source: their loops return within one round per character. *)
Theorem sigil_passes_terminate src fns :
  is_Some (pass_loop skip_lex 0 link_step (length src) Code src 0 0) ∧
  is_Some (pass_loop skip_lex 0 call_step (length src) Code src 0 0) ∧
  is_Some (pass_loop skip_lex 0 async_step (length src) Code src 0 0) ∧
  is_Some (pass_loop skip_lex 0 (await_step fns) (length src) Code src 0 0) ∧
  is_Some (cc__collect_async_ret_types src).
Proof.
  split_and!; [apply pass_loop_total; [|lia]..|apply collect_total];
    [apply link_progress|apply call_progress|apply async_progress|apply await_progress].
Qed.

(** * Defects *)

Lemma puts_bad rok src ks (k : chunk) x : k ∈ ks → (∀ x, put rok src k x = None) → puts rok src ks x = None.
Proof.
  intros Hk Hb. revert x. induction ks as [|k' ks IH]; intros x; [by apply not_elem_of_nil in Hk|]. cbn [puts].
  apply elem_of_cons in Hk as [<-|Hk]; [by rewrite Hb|]. destruct (put rok src k' x); [|done]. cbn. by apply IH.
Qed.
(** A string literal opened by a final backslash: the search leaves the text. *)
Lemma await_close_runs_off args f : call_args false args → length (args ++ [DQ; BSLASH]) ≤ f →
  await_close f 1 (args ++ [DQ; BSLASH]) = length args + 4.
Proof.
  intros Ha Hf. rewrite await_close_args by done. f_equal. rewrite length_app in Hf. cbn [length] in Hf.
  destruct f as [|f]; [lia|]. cbn. by destruct f.
Qed.

(** C38: [@await] reads out of bounds: when the text ends inside an awaited
    call, in a string literal just behind a backslash, the search for the
    closing parenthesis steps beyond the terminating NUL and the text of the
    call is copied from there, whatever precedes the call. *)
Theorem await_reads_past_end rok pre id args :
  let src := pre ++ txt "@await " ++ id ++ LPAR :: args ++ [DQ; BSLASH] in
  quiet await_calm (drop (length pre) src) pre → ident id → call_args false args → cc__rewrite_at_await rok src = PUndef.
Proof.
  intros src Hq Hid Ha.
  assert (E0 : drop (length pre) src = txt "@await " ++ id ++ LPAR :: args ++ [DQ; BSLASH]) by (unfold src; by rewrite drop_app_length).
  assert (Hat : await_at src (length pre) = true).
  { unfold src. rewrite <- (Nat.add_0_r (length pre)), await_at_shift. done. }
  assert (Hne : src ≠ []) by (unfold src; by destruct pre).
  assert (Hlen : length src = length pre + 7 + length id + 1 + length args + 2).
  { unfold src. rewrite !length_app. cbn [length]. rewrite length_app. change (length (txt "@await ")) with 7. cbn [length]. lia. }
  pose proof (drop_app_next _ _ _ _ E0) as E1. change (length (txt "@await ")) with 7 in E1. pose proof (drop_app_next _ _ _ _ E1) as E2.
  destruct (drop_head _ _ _ _ E2) as (_ & E3 & _).
  assert (Hstep : ∀ fns last, ∃ ks e, await_step fns src last (length pre) = Rewrite (length pre) ks e e ∧ length src ≤ e ∧ ∃ k : chunk, k ∈ ks ∧ ∀ x, put rok src k x = None).
  { intros fns last. unfold await_step. rewrite Hat.
    assert (skip_while is_blank src (length pre + 6) = length pre + 7) as ->.
    { replace (length pre + 7) with (length pre + 6 + length [SP]) by (simpl; lia). apply (skip_while_drop _ _ _ [SP] (id ++ LPAR :: args ++ [DQ; BSLASH])).
      - rewrite <- drop_drop, E0. done.
      - by repeat constructor.
      - destruct id as [|c id]; [done|]. destruct Hid as [Hc _]. simpl. destruct (is_blank c) eqn:Eb; [|done].
        apply blank_ws, blank_not_ident in Eb. apply start_char in Hc. congruence. }
    destruct id as [|c id]; [done|]. pose proof (ident_chars _ Hid) as Hidc. destruct Hid as [Hc _].
    rewrite (test_at_drop _ _ c _ _ E1), Hc. rewrite (skip_while_drop _ _ _ _ _ E1) by done.
    rewrite (skip_while_drop is_blank _ _ [] _ E2) by (done || by constructor). cbn [length]. rewrite !Nat.add_0_r.
    rewrite (char_at_drop _ _ _ _ _ E2), eqc_refl. cbn [length] in *. rewrite E3, await_close_runs_off by (done || rewrite length_app; simpl; lia).
    set (e := S _ + _). assert (He : e = length src + 2) by (unfold e; lia).
    assert (Hbad : ∀ x, put rok src (Cut (length pre + 7) e) x = None).
    { intros x. unfold put. rewrite !decide_False by lia. done. }
    destruct (lookup_ret _ _); eexists _, e; (split; [reflexivity|]); (split; [lia|]); eexists; (split; [|exact Hbad]); set_solver. }
  unfold cc__rewrite_at_await. rewrite decide_False by done.
  assert (cc_contains_token_top_level src (txt "@await") = true) as ->.
  { destruct (quiet_mask _ _ _ Hq) as (m & Hm & Em). apply (contains_at _ _ (length pre)); [done| |by rewrite E0].
    unfold src in Em |- *. rewrite drop_app_length in Em. rewrite Em, lookup_app_r by lia. by rewrite Hm, Nat.sub_diag. }
  cbn [negb]. destruct (collect_total src) as [fns ->]. destruct (Hstep fns 0) as (ks & e & Hst & He & k & Hk & Hbad).
  assert (Hl : pass_loop skip_lex 0 (await_step fns) (length src) Code src 0 0 = Some (Cut 0 (length pre) :: ks ++ [], e)).
  { eapply (pass_loop_mono _ _ _ (1 + length pre)); [lia|].
    eapply (loop_quiet_gen _ await_calm); [exact (@sp_code _ _ (await_pass fns))|exact (@sp_at _ _ (await_pass fns))|exact Hq|by rewrite drop_0; unfold src; rewrite drop_app_length|].
    cbn [pass_loop Nat.add]. rewrite decide_True by lia. unfold skip_lex at 1.
    destruct (drop_head _ _ AT _ E0) as (Hlt & _). rewrite E0. cbn [txt String.list_ascii_of_string app]. rewrite lex_code by done. rewrite Hst.
    rewrite decide_False by lia. done. }
  rewrite Hl. unfold finish_changed, emit. rewrite (puts_bad _ _ _ k); [done| |done]. set_solver.
Qed.
Lemma await_reads_past_end_witness :
  cc__rewrite_at_await (λ _, true) (txt "x; " ++ txt "@await " ++ txt "f" ++ LPAR :: [] ++ [DQ; BSLASH]) = PUndef.
Proof.
  apply (await_reads_past_end (λ _, true) (txt "x; ") (txt "f") []).
  - quiet_text.
  - split; [reflexivity|constructor].
  - constructor.
Defined.

Definition result_text (r : presult) : list ascii := match r with PText s => s | _ => [] end.
(** The attributes of a declaration become part of the collected type. *)
Lemma await_type_keeps_attributes : result_text (cc__rewrite_at_await (λ _, true) (txt "@async @nonblocking int f(int); x = @await f(1);"))
  = txt "@async @nonblocking int f(int); x = cc_block_on(@nonblocking int, f(1));".
Proof. vm_compute. reflexivity. Qed.
(** An awaited call among the arguments of another stays. *)
Lemma await_nested_stays : result_text (cc__rewrite_at_await (λ _, true) (txt "@async int f(int); x = @await f(@await f(1));"))
  = txt "@async int f(int); x = cc_block_on(int, f(@await f(1)));".
Proof. vm_compute. reflexivity. Qed.
(** A mode among the arguments of a call with a mode stays, too. *)
Lemma mode_nested_stays : result_text (cc__rewrite_at_call_site_mode (λ _, true) (txt "x = @blocking f(@noblock g(1));"))
  = txt "x = /*@CC_SITE=blocking*/ f(@noblock g(1));".
Proof. vm_compute. reflexivity. Qed.
(** A parenthesis in a character literal is taken for the end of the call. *)
Lemma await_char_literal_splits : result_text (cc__rewrite_at_await (λ _, true) (txt "@async int f(char); x = @await f(')');"))
  = txt "@async int f(char); x = cc_block_on(int, f('))');".
Proof. vm_compute. reflexivity. Qed.
