(* ===== verification/PpTry.v ===== *)
(** The passes of [preprocess.c] for [try] and [@defer], and the scanner
    against the lexer of [Lex]. *)
From S2P Require Import Prelude Bytes Lex Text PpPass PpSigil.

Implicit Types (src l s : list ascii) (i last : nat) (c : ascii).

(** * [if @try (] to [if (try ] *)

Definition if_try_step src last i : act :=
  if kw_at src i (txt "if") && (bool_decide (i = 0) || negb (test_at src (i - 1) cc_is_ident_char)) && test_at src (i + 2) is_ws3 then
    let j := skip_while is_ws3 src (i + 2) in
    if kw_at src j (txt "@try") && bool_decide (j + 4 < length src) then
      let k := skip_while is_ws3 src (j + 4) in
      if char_at src k LPAR then Rewrite i [Lit (txt "if (try ")] (S k) (S k) else Keep (S i)
    else Keep (S i)
  else Keep (S i).
Definition cc__normalize_if_try_syntax (rok : Z → bool) src : presult :=
  if decide (src = []) then PNull
  else finish_last rok src (pass_loop skip_nothing 9 if_try_step (length src) () src 0 0).

(** * [@defer(err)] to [@defer] *)

Definition defer_step src last i : act :=
  if kw_at src i (txt "@defer") then
    let j := skip_while is_ws3 src (i + 6) in
    if char_at src j LPAR then
      let '(m, depth) := qscan false LPAR RPAR None 1 (drop (S j) src) in
      if decide (depth = 0) then Rewrite i [Lit (txt "@defer ")] (S j + m) (S j + m) else Keep (S i)
    else Keep (S i)
  else Keep (S i).
Definition cc__rewrite_defer_syntax (rok : Z → bool) src : presult :=
  if decide (src = []) then PNull
  else finish_last rok src (pass_loop skip_nothing 6 defer_step (length src) () src 0 0).

(** * [if (try T x = expr) { } else { }] *)

(** [while (e > lo && f(src[e - 1])) e--]. *)
Definition trim_back (f : ascii → bool) src (lo e : nat) : nat := e - span f (reverse (range src lo e)).
(** A block from its opening brace: the position behind the closing one, or the
    end of the text. *)
Definition block_end src (p : nat) : nat := S p + (qscan true LBR RBR None 1 (drop (S p) src)).1.
(** [else { }] behind the first block: its bounds, [(0, 0)] when there is
    none. *)
Definition else_block src (then_end : nat) : nat * nat :=
  let m := skip_while is_ws3 src then_end in
  if kw_at src m (txt "else") && negb (test_at src (m + 4) cc_is_ident_char) then
    let b := skip_while is_ws3 src (m + 4) in
    if char_at src b LBR then (b, block_end src b) else (0, 0)
  else (0, 0).
Definition try_binding_step src last i : act :=
  if kw_at src i (txt "if") && (bool_decide (i = 0) || negb (test_at src (i - 1) cc_is_ident_char))
     && negb (test_at src (i + 2) cc_is_ident_char) then
    let p := skip_while is_ws3 src (i + 2) in
    if negb (char_at src p LPAR) then Keep (S i) else
    let j := skip_while is_ws3 src (S p) in
    if negb (kw_at src j (txt "try") && negb (test_at src (j + 3) cc_is_ident_char)) then Keep (S i) else
    let after_try := skip_while is_ws3 src (j + 3) in
    let '(m, paren) := qscan true LPAR RPAR None 1 (drop after_try src) in
    if negb (bool_decide (paren = 0)) then Keep (S i) else
    let cond_end := after_try + m - 1 in
    let eq := after_try + span (λ c, negb (eqc c (chr 61))) (range src after_try cond_end) in
    if decide (cond_end ≤ eq) then Keep (S i) else
    let var_end := trim_back is_ws3 src after_try eq in
    let var_start := trim_back cc_is_ident_char src after_try var_end in
    if decide (var_end ≤ var_start) then Keep (S i) else
    let type_end := trim_back is_ws3 src after_try var_start in
    let type_start := after_try + span is_ws3 (range src after_try type_end) in
    if decide (type_end ≤ type_start) then Keep (S i) else
    let expr_start := S eq + span is_ws3 (range src (S eq) cond_end) in
    let expr_end := trim_back is_ws3 src expr_start cond_end in
    if decide (expr_end ≤ expr_start) then Keep (S i) else
    let then_start := skip_while is_ws3 src (S cond_end) in
    if negb (char_at src then_start LBR) then Keep (S i) else
    let then_end := block_end src then_start in
    let '(else_start, else_end) := else_block src then_end in
    let next := if decide (0 < else_end) then else_end else then_end in
    Rewrite i ([Lit (txt "{ __typeof__("); Cut expr_start expr_end; Lit (txt ") __cc_try_bind = ("); Cut expr_start expr_end;
                Lit (txt "); if (__cc_try_bind.ok) { "); Cut type_start type_end; Lit (txt " "); Cut var_start var_end;
                Lit (txt " = __cc_try_bind.u.value; "); Cut (S then_start) (then_end - 1); Lit (txt " }")]
               ++ (if decide (else_start < else_end) then [Lit (txt " else "); Cut else_start else_end] else [])
               ++ [Lit (txt " }")]) next next
  else Keep (S i).
Definition cc__rewrite_try_binding (rok : Z → bool) src : presult :=
  if decide (src = []) then PNull
  else finish_last rok src (pass_loop skip_lex 0 try_binding_step (length src) Code src 0 0).

(** * [try expr] to [cc_try(expr)] *)

(** The end of the expression; an unguarded closer or a top-level [;] or [,]
    ends it. *)
Fixpoint expr_len (q : option ascii) (d : depths) l : nat :=
  match l with
  | [] => 0
  | c :: l' =>
      match q with
      | Some qc =>
          if eqc c BSLASH then match l' with [] => 1 | _ :: l'' => 2 + expr_len q d l'' end
          else 1 + expr_len (if eqc c qc then None else q) d l'
      | None =>
          if eqc c DQ || eqc c SQ then 1 + expr_len (Some c) d l'
          else match opens c, closes c with
               | Some k, _ => 1 + expr_len None (set_depth k S d) l'
               | None, Some k => if decide (0 < depth_of k d) then 1 + expr_len None (set_depth k pred d) l' else 0
               | None, None => if all_zero d && (eqc c (chr 59) || eqc c (chr 44)) then 0 else 1 + expr_len None d l'
               end
      end
  end.
Definition try_expr_step src last i : act :=
  if kw_at src i (txt "try") && (bool_decide (i = 0) || negb (test_at src (i - 1) cc_is_ident_char))
     && negb (test_at src (i + 3) cc_is_ident_char) then
    let expr_start := skip_while is_ws3 src (i + 3) in
    if test_at src expr_start (λ c, cc_is_ident_start c || eqc c LPAR) then
      let expr_end := expr_start + expr_len None no_depth (drop expr_start src) in
      if decide (expr_start < expr_end)
      then Rewrite i [Lit (txt "cc_try("); Cut expr_start expr_end; Lit (txt ")")] expr_end expr_end
      else Keep (S i)
    else Keep (S i)
  else Keep (S i).
Definition cc__rewrite_try_exprs (rok : Z → bool) src : presult :=
  if decide (src = []) then PNull
  else finish_always rok src (pass_loop cc_scanner_skip_non_code 0 try_expr_step (length src) cc_scanner_init src 0 0).
