(* ===== verification/PpTryProps.v ===== *)
(** The expansion of [if (try T x = expr)], what goes wrong with it, and the
    scanner of [preprocess.c] against the lexer of [Lex]. *)
From S2P Require Import Prelude Bytes Lex Text TextScan TextBuild PpPass PpSigil PpDoc PpSigilDoc PpSigilProps PpAwait PpTry.

Implicit Types (src l s t pre post : list ascii) (i last : nat) (c : ascii).

(** * Definitions *)

Definition EQ := chr 61.
(** The pieces of [if (try ty var = ex) { body }], with the blanks in
    between. *)
Record trybind := TryBind {
  tb_w1 : list ascii; tb_w2 : list ascii; tb_w3 : list ascii; tb_ty : list ascii; tb_w4 : list ascii; tb_var : list ascii;
  tb_w5 : list ascii; tb_w6 : list ascii; tb_ex : list ascii; tb_w7 : list ascii; tb_w8 : list ascii; tb_body : list ascii;
  (** [else { eb }] *)
  tb_else : option (list ascii * list ascii * list ascii) }.
Definition tb_cond (d : trybind) : list ascii := tb_ty d ++ tb_w4 d ++ tb_var d ++ tb_w5 d ++ EQ :: tb_w6 d ++ tb_ex d ++ tb_w7 d.
(** The statement up to its opening brace, and all of it. *)
Definition tb_head (d : trybind) : list ascii :=
  txt "if" ++ tb_w1 d ++ LPAR :: tb_w2 d ++ txt "try" ++ tb_w3 d ++ tb_cond d ++ RPAR :: tb_w8 d ++ [LBR].
Definition tb_head_ok (d : trybind) (pre : list ascii) : Prop :=
  ends_other cc_is_ident_char pre ∧
  all is_ws3 (tb_w1 d) ∧ all is_ws3 (tb_w2 d) ∧ all is_ws3 (tb_w3 d) ∧ tb_w3 d ≠ [] ∧ all is_ws3 (tb_w4 d) ∧ all is_ws3 (tb_w5 d) ∧
  all is_ws3 (tb_w6 d) ∧ all is_ws3 (tb_w7 d) ∧ all is_ws3 (tb_w8 d) ∧
  nested LPAR RPAR true (tb_cond d) ∧ all (λ c, negb (eqc c EQ)) (tb_ty d ++ tb_w4 d ++ tb_var d ++ tb_w5 d) ∧
  tb_ty d ≠ [] ∧ starts_other is_ws3 (tb_ty d) ∧ ends_other is_ws3 (tb_ty d) ∧ ends_other cc_is_ident_char (tb_ty d ++ tb_w4 d) ∧
  tb_var d ≠ [] ∧ all cc_is_ident_char (tb_var d) ∧ tb_ex d ≠ [] ∧ starts_other is_ws3 (tb_ex d) ∧ ends_other is_ws3 (tb_ex d).

(** * Positions *)

Lemma trim_back_drop f src lo x y l : drop lo src = x ++ y ++ l → all f y → ends_other f x →
  trim_back f src lo (lo + length x + length y) = lo + length x.
Proof.
  intros E Hy Hx. unfold trim_back. rewrite <- Nat.add_assoc, <- length_app.
  rewrite (range_drop src lo (x ++ y) l) by (by rewrite E, app_assoc). rewrite reverse_app, span_app by (by apply Forall_reverse).
  assert (span f (reverse x) = 0) as ->. { unfold ends_other in Hx. destruct (reverse x); [done|]. by apply span_stop. }
  rewrite length_reverse, length_app. lia.
Qed.
Lemma ends_other_snoc f g x y : y ≠ [] → all g y → (∀ c, g c = true → f c = false) → ends_other f (x ++ y).
Proof.
  intros Hy Hg Hgf. unfold ends_other. rewrite reverse_app. apply Forall_reverse in Hg. destruct (reverse y) as [|c r] eqn:E.
  - apply (f_equal reverse) in E. by rewrite reverse_involutive in E.
  - apply Forall_inv in Hg. by apply Hgf.
Qed.
Lemma ident_not_ws3 c : cc_is_ident_char c = true → is_ws3 c = false.
Proof. intros H. destruct (is_ws3 c) eqn:E; [|done]. apply ws3_ws, blank_not_ident in E. congruence. Qed.
Lemma ws3_not_ident c : is_ws3 c = true → cc_is_ident_char c = false.
Proof. intros H. by apply blank_not_ident, ws3_ws. Qed.
Lemma span_starts f x y : x ≠ [] → starts_other f x → span f (x ++ y) = 0.
Proof. destruct x as [|c x]; [done|]. intros _. apply span_stop. Qed.

Lemma span_starts0 f x : starts_other f x → span f x = 0.
Proof. destruct x as [|c x]; [done|]. apply span_stop. Qed.

(** The condition: the variable, its type and the expression. *)
Section cond.
Context (src : list ascii) (a : nat) (d : trybind) (l : list ascii).
Context (E : drop a src = tb_cond d ++ l).
Context (H4 : all is_ws3 (tb_w4 d)) (H5 : all is_ws3 (tb_w5 d)) (H6 : all is_ws3 (tb_w6 d)) (H7 : all is_ws3 (tb_w7 d)).
Context (Heq : all (λ c, negb (eqc c EQ)) (tb_ty d ++ tb_w4 d ++ tb_var d ++ tb_w5 d)).
Context (Hty : ends_other is_ws3 (tb_ty d)) (Hsep : ends_other cc_is_ident_char (tb_ty d ++ tb_w4 d)).
Context (Hv : tb_var d ≠ []) (Hvc : all cc_is_ident_char (tb_var d)).
Context (Hx : tb_ex d ≠ []) (Hxs : starts_other is_ws3 (tb_ex d)) (Hxe : ends_other is_ws3 (tb_ex d)).
Local Abbreviation peq := (a + length (tb_ty d ++ tb_w4 d ++ tb_var d ++ tb_w5 d)).
Local Abbreviation cond_end := (a + length (tb_cond d)).

Lemma cond_split : tb_cond d = (tb_ty d ++ tb_w4 d ++ tb_var d ++ tb_w5 d) ++ EQ :: tb_w6 d ++ tb_ex d ++ tb_w7 d.
Proof. unfold tb_cond. by rewrite <- !app_assoc. Qed.
Lemma cond_eq : a + span (λ c, negb (eqc c EQ)) (range src a cond_end) = peq ∧ peq < cond_end.
Proof using E Heq.
  rewrite (range_drop _ _ _ _ E), cond_split, span_app by done. rewrite span_stop by done. split; [lia|].
  rewrite (length_app (tb_ty d ++ tb_w4 d ++ tb_var d ++ tb_w5 d) (EQ :: _)). cbn [length]. lia.
Qed.
Lemma cond_var_end : trim_back is_ws3 src a peq = a + length (tb_ty d ++ tb_w4 d ++ tb_var d).
Proof using E H5 Hv Hvc.
  replace (a + length (tb_ty d ++ tb_w4 d ++ tb_var d ++ tb_w5 d)) with
    (a + length (tb_ty d ++ tb_w4 d ++ tb_var d) + length (tb_w5 d)) by (rewrite !length_app; lia).
  eapply trim_back_drop; [|done|]; [rewrite E; unfold tb_cond; by rewrite <- !app_assoc|].
  rewrite app_assoc. eapply ends_other_snoc; [done|exact Hvc|]. intros c. apply ident_not_ws3.
Qed.
Lemma cond_var_start : trim_back cc_is_ident_char src a (a + length (tb_ty d ++ tb_w4 d ++ tb_var d)) = a + length (tb_ty d ++ tb_w4 d).
Proof using E Hsep Hvc.
  replace (a + length (tb_ty d ++ tb_w4 d ++ tb_var d)) with (a + length (tb_ty d ++ tb_w4 d) + length (tb_var d)) by (rewrite !length_app; lia).
  eapply trim_back_drop; [|done|done]. rewrite E; unfold tb_cond; by rewrite <- !app_assoc.
Qed.
Lemma cond_type_end : trim_back is_ws3 src a (a + length (tb_ty d ++ tb_w4 d)) = a + length (tb_ty d).
Proof using E H4 Hty.
  rewrite length_app, Nat.add_assoc. eapply trim_back_drop; [|done|done]. rewrite E; unfold tb_cond; by rewrite <- !app_assoc.
Qed.
Lemma cond_ty : range src a (a + length (tb_ty d)) = tb_ty d.
Proof using E. eapply range_drop. rewrite E. unfold tb_cond. by rewrite <- !app_assoc. Qed.
Lemma cond_rest : drop (S peq) src = tb_w6 d ++ tb_ex d ++ tb_w7 d ++ l.
Proof using E.
  assert (E' : drop peq src = EQ :: tb_w6 d ++ tb_ex d ++ tb_w7 d ++ l).
  { apply drop_app_next. rewrite E, cond_split. by repeat (rewrite <- ?app_assoc; cbn [app]). }
  by destruct (drop_head _ _ _ _ E') as (_ & ? & _).
Qed.
Lemma cond_end_eq : cond_end = S peq + length (tb_w6 d ++ tb_ex d ++ tb_w7 d).
Proof. rewrite cond_split, length_app. cbn [length]. lia. Qed.
Lemma cond_expr_start : S peq + span is_ws3 (range src (S peq) cond_end) = S peq + length (tb_w6 d).
Proof using E H6 Hx Hxs.
  rewrite cond_end_eq, (range_drop _ _ _ l) by (by rewrite cond_rest, <- !app_assoc). rewrite span_app by done.
  rewrite span_starts by done. lia.
Qed.
Lemma cond_expr_end : trim_back is_ws3 src (S peq + length (tb_w6 d)) cond_end = S peq + length (tb_w6 d) + length (tb_ex d).
Proof using E H7 Hxe.
  rewrite cond_end_eq, (length_app (tb_w6 d)), (length_app (tb_ex d)), (Nat.add_assoc (S peq)), (Nat.add_assoc (S peq + _)).
  eapply trim_back_drop; [|done|done]. apply drop_app_next, cond_rest.
Qed.
End cond.

(** The character before a word. *)
Lemma prev_char pre l : ends_other cc_is_ident_char pre →
  bool_decide (length pre = 0) || negb (test_at (pre ++ l) (length pre - 1) cc_is_ident_char) = true.
Proof.
  intros Hpre. destruct pre as [|c pre _] using rev_ind; [done|]. apply orb_true_iff. right. unfold test_at. rewrite length_app. cbn [length].
  rewrite Nat.add_sub, <- app_assoc. cbn [app]. rewrite list_lookup_middle by done. unfold ends_other in Hpre. rewrite reverse_app in Hpre. cbn in Hpre. by rewrite Hpre.
Qed.


(** The positions of a statement behind [pre]. *)
Section expand.
Context (pre rest : list ascii) (d : trybind) (Hh : tb_head_ok d pre).
Local Abbreviation src := (pre ++ tb_head d ++ rest).
Local Abbreviation a := (S (length pre + 2 + length (tb_w1 d)) + length (tb_w2 d) + 3 + length (tb_w3 d)).
Local Abbreviation ex := (S (a + length (tb_ty d ++ tb_w4 d ++ tb_var d ++ tb_w5 d)) + length (tb_w6 d)).
Local Abbreviation ts := (S (a + length (tb_cond d)) + length (tb_w8 d)).
(** The pieces before the blocks. *)
Definition tb_chunks : list chunk :=
  [Lit (txt "{ __typeof__("); Cut ex (ex + length (tb_ex d)); Lit (txt ") __cc_try_bind = ("); Cut ex (ex + length (tb_ex d));
   Lit (txt "); if (__cc_try_bind.ok) { "); Cut a (a + length (tb_ty d)); Lit (txt " ");
   Cut (a + length (tb_ty d ++ tb_w4 d)) (a + length (tb_ty d ++ tb_w4 d ++ tb_var d)); Lit (txt " = __cc_try_bind.u.value; ")].
Definition tb_start : nat := ts.

Lemma tb_start_head : S tb_start = length pre + length (tb_head d).
Proof.
  unfold tb_start, tb_head. repeat (rewrite length_app; cbn [length]). change (length (txt "if")) with 2. change (length (txt "try")) with 3. lia.
Qed.
Lemma tb_drops :
  drop (length pre) src = txt "if" ++ drop (length pre + 2) src ∧
  drop (length pre + 2) src = tb_w1 d ++ drop (length pre + 2 + length (tb_w1 d)) src ∧
  drop (length pre + 2 + length (tb_w1 d)) src = LPAR :: drop (S (length pre + 2 + length (tb_w1 d))) src ∧
  drop (S (length pre + 2 + length (tb_w1 d))) src = tb_w2 d ++ txt "try" ++ drop (S (length pre + 2 + length (tb_w1 d)) + length (tb_w2 d) + 3) src ∧
  drop (S (length pre + 2 + length (tb_w1 d)) + length (tb_w2 d) + 3) src = tb_w3 d ++ tb_cond d ++ RPAR :: drop (S (a + length (tb_cond d))) src ∧
  drop (S (a + length (tb_cond d))) src = tb_w8 d ++ LBR :: rest.
Proof.
  assert (E0 : drop (length pre) src = txt "if" ++ tb_w1 d ++ LPAR :: tb_w2 d ++ txt "try" ++ tb_w3 d ++ tb_cond d ++ RPAR :: tb_w8 d ++ LBR :: rest).
  { unfold tb_head. rewrite drop_app_length. by repeat (rewrite <- ?app_assoc; cbn [app]). }
  pose proof (drop_app_next _ _ _ _ E0) as E1. change (length (txt "if")) with 2 in E1. pose proof (drop_app_next _ _ _ _ E1) as E2.
  destruct (drop_head _ _ _ _ E2) as (_ & E3 & _). pose proof (drop_app_next _ _ _ _ E3) as E4. pose proof (drop_app_next _ _ _ _ E4) as E5.
  change (length (txt "try")) with 3 in E5. pose proof (drop_app_next _ _ _ _ E5) as E6. pose proof (drop_app_next _ _ _ _ E6) as E7.
  destruct (drop_head _ _ _ _ E7) as (_ & E8 & _). rewrite E8, E5, E3, E2, E1. split_and!; done.
Qed.

(** The statement is recognised, whatever follows its opening brace. *)
Lemma tb_step last : try_binding_step src last (length pre) =
  let then_end := block_end src tb_start in let '(else_start, else_end) := else_block src then_end in
  let next := if decide (0 < else_end) then else_end else then_end in
  Rewrite (length pre) (tb_chunks ++ [Cut (S tb_start) (then_end - 1); Lit (txt " }")] ++
    (if decide (else_start < else_end) then [Lit (txt " else "); Cut else_start else_end] else []) ++ [Lit (txt " }")]) next next.
Proof using Hh.
  destruct Hh as (Hpre & H1 & H2 & H3 & H3n & H4 & H5 & H6 & H7 & H8 & Hnest & Heq & Htyn & Htys & Htye & Hsep & Hvn & Hvc & Hxn & Hxs & Hxe).
  destruct tb_drops as (E0 & E1 & E2 & E3 & E5 & E8). pose proof (drop_app_next _ _ _ _ E3) as E4.
  pose proof (drop_app_next _ _ _ _ E5) as E6. pose proof (drop_app_next _ _ _ _ E8) as E9. destruct (cond_eq _ a d _ E6 Heq) as [Hpeq Hlt].
  assert (Hw1 : test_at src (length pre + 2) cc_is_ident_char = false).
  { rewrite E2 in E1. destruct (tb_w1 d) as [|c w]; rewrite (test_at_drop _ _ _ _ _ E1); [done|]. apply ws3_not_ident. by apply Forall_inv in H1. }
  assert (Hw3 : test_at src (S (length pre + 2 + length (tb_w1 d)) + length (tb_w2 d) + 3) cc_is_ident_char = false).
  { destruct (tb_w3 d) as [|c w]; [done|]. rewrite (test_at_drop _ _ _ _ _ E5). apply ws3_not_ident. by apply Forall_inv in H3. }
  unfold try_binding_step. rewrite (kw_at_drop _ _ _ _ E0), prev_char, Hw1 by done. cbn [andb negb].
  rewrite (skip_while_drop _ _ _ _ _ E1) by (done || by rewrite E2). rewrite (char_at_drop _ _ _ _ _ E2), eqc_refl. cbn [negb].
  rewrite (skip_while_drop _ _ _ _ _ E3) by done. rewrite (kw_at_drop _ _ _ _ E4), Hw3. cbn [andb negb].
  rewrite (skip_while_drop _ _ _ _ _ E5) by (done || unfold tb_cond; by destruct (tb_ty d)).
  rewrite E6, qscan_close by (done || by split). rewrite bool_decide_eq_true_2 by done. cbn [negb].
  replace (a + (length (tb_cond d) + 1) - 1) with (a + length (tb_cond d)) by lia. change (chr 61) with EQ. rewrite Hpeq. rewrite decide_False by lia.
  erewrite cond_var_end by done. erewrite cond_var_start by done.
  rewrite decide_False by (rewrite !length_app; destruct (tb_var d); [done|simpl; lia]). erewrite cond_type_end by done.
  erewrite cond_ty by done. rewrite (span_starts0 _ _ Htys), !Nat.add_0_r.
  rewrite decide_False by (destruct (tb_ty d); [done|simpl; lia]). erewrite cond_expr_start by done. erewrite cond_expr_end by done.
  rewrite decide_False by (destruct (tb_ex d); [done|simpl; lia]). rewrite (skip_while_drop _ _ _ _ _ E8) by done.
  rewrite (char_at_drop _ _ _ _ _ E9), eqc_refl. cbn [negb]. reflexivity.
Qed.
End expand.

Definition demo_try : trybind :=
  TryBind (txt " ") [] (txt " ") (txt "int*") (txt " ") (txt "x") (txt " ") (txt " ") (txt "f(1)") [] (txt " ") (txt "u(x);")
    (Some (txt " ", txt " ", txt "v();")).
Lemma demo_try_head pre : ends_other cc_is_ident_char pre → tb_head_ok demo_try pre.
Proof.
  intros Hpre. split_and!; try done; try (by repeat constructor).
  repeat (apply ca_char; [char_ne|char_ne|char_ne|intros _; char_ne|]). apply (ca_group _ _ _ (txt "1") []); [|constructor].
  apply ca_char; [char_ne|char_ne|char_ne|intros _; char_ne|constructor].
Qed.

(** * Defects *)

(** the expansion of a statement cut off behind its opening brace computes
    the length of its body as [then_end - then_start - 2], which wraps around,
    and copies almost 2^64 bytes: a source that ends there is undefined
    behaviour, not a diagnostic. *)
Theorem try_binding_length_wraps rok d : tb_head_ok d [] → cc__rewrite_try_binding rok (tb_head d) = PUndef.
Proof.
  intros Hh. unfold cc__rewrite_try_binding. rewrite decide_False by done.
  assert (Hst := tb_step [] [] d Hh 0). rewrite app_nil_r in Hst. cbn [app] in Hst. cbn zeta in Hst.
  pose proof (tb_start_head [] d) as Hs. cbn [length Nat.add] in Hs. set (src := tb_head d) in *. set (ts := tb_start [] d) in *.
  assert (Hend : drop (S ts) src = []) by (apply drop_ge; lia).
  assert (Hte : block_end src ts = S ts) by (unfold block_end; rewrite Hend; cbn; lia).
  assert (Hel : else_block src (S ts) = (0, 0)).
  { unfold else_block, skip_while. rewrite Hend. cbn [span]. unfold kw_at. rewrite Nat.add_0_r, Hend. done. }
  rewrite Hte, Hel in Hst. cbn [Nat.ltb] in Hst. rewrite !decide_False in Hst by lia.
  assert (Hl : pass_loop skip_lex 0 try_binding_step (length src) Code src 0 0 =
    Some (Cut 0 0 :: (tb_chunks [] d ++ [Cut (S ts) (S ts - 1); Lit (txt " }"); Lit (txt " }")]) ++ [], S ts)).
  { eapply (pass_loop_mono _ _ _ 1); [lia|]. cbn [pass_loop]. rewrite decide_True by lia.
    change (skip_lex Code src 0) with (false, Code, 0). cbn iota. cbn [length] in Hst. rewrite Hst. rewrite decide_False by lia. done. }
  rewrite Hl. unfold finish_last. rewrite decide_False by lia. unfold emit.
  rewrite (puts_bad _ _ _ (Cut (S ts) (S ts - 1))); [done|set_solver|]. intros x. unfold put. by rewrite !decide_False by lia.
Qed.
Lemma try_binding_length_wraps_witness :
  tb_head demo_try = txt "if (try int* x = f(1)) {" ∧ cc__rewrite_try_binding (λ _, true) (tb_head demo_try) = PUndef.
Proof. split; [reflexivity|]. apply (try_binding_length_wraps (λ _, true) demo_try). by apply demo_try_head. Defined.

(** The first statement of a nested pair is expanded, the second is copied. *)
Lemma try_binding_nested_stays :
  result_text (cc__rewrite_try_binding (λ _, true) (txt "if (try int x = f()) {if (try int y = g()) {h();}}"))
  = txt "{ __typeof__(f()) __cc_try_bind = (f()); if (__cc_try_bind.ok) { int x = __cc_try_bind.u.value; if (try int y = g()) {h();} } }".
Proof. vm_compute. reflexivity. Qed.
(** [else if] is left behind the block the expansion opens. *)
Lemma try_binding_else_if_detached :
  result_text (cc__rewrite_try_binding (λ _, true) (txt "if (try int x = f()) {u();} else if (c) {v();}"))
  = txt "{ __typeof__(f()) __cc_try_bind = (f()); if (__cc_try_bind.ok) { int x = __cc_try_bind.u.value; u(); } } else if (c) {v();}".
Proof. vm_compute. reflexivity. Qed.
(** The normalisation also changes string literals. *)
Lemma if_try_changes_literals :
  result_text (cc__normalize_if_try_syntax (λ _, true) (txt "s = " ++ DQ :: txt "if @try (x)" ++ [DQ]))
  = txt "s = " ++ DQ :: txt "if (try x)" ++ [DQ].
Proof. vm_compute. reflexivity. Qed.
