(* ===== verification/PpScan.v ===== *)
(** The scanner of [preprocess.c] against the lexer of [Lex]: they agree on what
    is code, and what the scanner's column means. *)
From S2P Require Import Prelude Bytes Lex Text TextScan PpPass PpDoc PpSigilDoc PpTry.

Implicit Types (src l s : list ascii) (i last : nat) (c : ascii).

(** * Definitions *)

(** The flags of a lexical state; a literal is delimited by one of the two
    quotes. *)
Definition lex_ok (st : lex) : Prop := match st with Str q => q = DQ ∨ q = SQ | _ => True end.
Definition flags_of (st : lex) (line col : Z) : CCScannerState :=
  match st with
  | LineC => Scanner true false false false line col
  | BlockC => Scanner false true false false line col
  | Str q => Scanner false false (eqc q DQ) (eqc q SQ) line col
  | Code => Scanner false false false false line col
  end.

(** The scan up to [off] by a pass that does nothing with code characters. *)
Fixpoint scan_to (fuel : nat) (sc : CCScannerState) src (off i : nat) : option CCScannerState :=
  if decide (i < off) then
    match fuel with
    | O => None
    | S fuel' =>
        match cc_scanner_skip_non_code sc src i with
        | (true, sc', i') => scan_to fuel' sc' src off i'
        | (false, sc', _) => scan_to fuel' sc' src off (S i)
        end
    end
  else Some sc.

(** * The lexical step *)

Lemma lookup_drop_head src i c l : drop i src = c :: l → src !! S i = head l ∧ (bool_decide (S i < length src) = more l).
Proof.
  intros E. destruct (drop_head _ _ _ _ E) as (Hi & E' & _). split.
  - rewrite <- (Nat.add_0_r (S i)), <- lookup_drop, E'. by destruct l.
  - apply (f_equal length) in E'. rewrite length_drop in E'. destruct l; simpl in *; [apply bool_decide_eq_false_2|apply bool_decide_eq_true_2]; lia.
Qed.

Ltac scan_done := cbn; eexists _, _; split; [reflexivity|]; solve [done | by left | by right].
(** One step of the scanner is one step of the lexer, and the flags stay those
    of a lexical state. *)
Lemma scanner_step st line col src i : lex_ok st →
  let '(b, st', i') := skip_lex st src i in
  ∃ line' col', cc_scanner_skip_non_code (flags_of st line col) src i = (b, flags_of st' line' col', if b : bool then i' else i) ∧ lex_ok st'.
Proof.
  intros Hok. unfold skip_lex, cc_scanner_skip_non_code. destruct (drop i src) as [|c l] eqn:E.
  { assert (src !! i = None) as ->. { apply lookup_ge_None. apply (f_equal length) in E. rewrite length_drop in E. simpl in E. lia. }
    by exists line, col. }
  destruct (drop_head _ _ _ _ E) as (Hi & E' & ->). destruct (lookup_drop_head _ _ _ _ E) as [-> ->]. fold (peek l).
  destruct st as [| | |q]; cbn [flags_of lex_step].
  - destruct (eqc c NL) eqn:En.
    { apply eqc_true in En as ->. scan_done. }
    destruct (eqc c SLASH && eqc (peek l) SLASH); [scan_done|]. destruct (eqc c SLASH && eqc (peek l) STAR); [scan_done|].
    destruct (eqc c DQ) eqn:Ed; [apply eqc_true in Ed as ->; scan_done|].
    destruct (eqc c SQ) eqn:Es; [apply eqc_true in Es as ->; scan_done|]. scan_done.
  - destruct (eqc c NL); scan_done.
  - destruct (eqc c NL), (eqc c STAR && eqc (peek l) SLASH); scan_done.
  - destruct Hok as [->| ->]; destruct (eqc c NL), (eqc c BSLASH && more l); try scan_done; [destruct (eqc c DQ)..|destruct (eqc c SQ)|destruct (eqc c SQ)]; scan_done.
Qed.

(** C25: the preprocessor's scanner and the lexer of [util/text.h] agree: a
    pass that steps over comments and literals with
    [cc_scanner_skip_non_code] does what it would do with the lexer's step,
    from every lexical state and for every loop body. *)
Theorem scanner_is_lexer lim step fuel st line col src last i : lex_ok st →
  pass_loop cc_scanner_skip_non_code lim step fuel (flags_of st line col) src last i = pass_loop skip_lex lim step fuel st src last i.
Proof.
  revert st line col last i. induction fuel as [|fuel IH]; intros st line col last i Hok; cbn [pass_loop]; [done|]. case_decide; [|done].
  pose proof (scanner_step st line col src i Hok) as Hs. destruct (skip_lex st src i) as [[b st'] i'].
  destruct Hs as (line' & col' & -> & Hok'). destruct b; [by apply IH|].
  destruct (step src last i) as [j|u ks last' j]; [by apply IH|]. by rewrite IH.
Qed.
Lemma scanner_is_lexer_witness :
  pass_loop cc_scanner_skip_non_code 0 try_expr_step 30 cc_scanner_init (txt "/* try a; */ try b;") 0 0 =
  pass_loop skip_lex 0 try_expr_step 30 Code (txt "/* try a; */ try b;") 0 0 ∧
  pass_loop skip_lex 0 try_expr_step 30 Code (txt "/* try a; */ try b;") 0 0 =
    Some ([Cut 0 13; Lit (txt "cc_try("); Cut 17 18; Lit (txt ")")], 18).
Proof.
  split; [|vm_compute; reflexivity]. apply (scanner_is_lexer 0 try_expr_step 30 Code 1 1 (txt "/* try a; */ try b;") 0 0). exact I.
Defined.

(** * Lines and columns *)

Definition plain_code (c : ascii) : bool := negb (eqc c SLASH || eqc c DQ || eqc c SQ || eqc c NL).
Lemma plain_code_scan src i c line col : src !! i = Some c → plain_code c = true →
  cc_scanner_skip_non_code (flags_of Code line col) src i = (false, flags_of Code line col, i).
Proof.
  intros Hc Hp. unfold cc_scanner_skip_non_code. rewrite Hc. unfold plain_code in Hp. apply negb_true_iff in Hp.
  repeat (apply orb_false_iff in Hp as [Hp ?]). cbn [flags_of in_line_comment in_block_comment in_str in_chr sc_line sc_col].
  destruct (eqc c SLASH), (eqc c DQ), (eqc c SQ), (eqc c NL); try done. cbn -[Z.add Z.sub]. by rewrite Z.add_simpl_r.
Qed.
Lemma offset_plain l rest line col : all plain_code l →
  foldl (λ '(line, col) c, if eqc c NL then (line + 1, 1) else (line, col + 1))%Z (line, col) (take (length l) (l ++ rest)) = (line, col + Z.of_nat (length l))%Z.
Proof.
  intros Hl. revert col. induction Hl as [|c l Hc _ IH]; intros col; [simpl; by rewrite Z.add_0_r|]. cbn [length app take foldl].
  unfold plain_code in Hc. apply negb_true_iff in Hc. repeat (apply orb_false_iff in Hc as [Hc ?]). destruct (eqc c NL); [done|].
  rewrite IH. f_equal. lia.
Qed.
Lemma scan_plain l src i line col fuel : all plain_code l → drop i src = l ++ drop (i + length l) src → length l ≤ fuel →
  scan_to fuel (flags_of Code line col) src (i + length l) i = Some (flags_of Code line col).
Proof.
  intros Hl. revert i fuel. induction Hl as [|c l Hc _ IH]; intros i fuel E Hf.
  - cbn [length]. destruct fuel; cbn [scan_to]; by rewrite decide_False by lia.
  - destruct fuel as [|fuel]; [simpl in Hf; lia|]. cbn [app length] in *. destruct (drop_head _ _ _ _ E) as (_ & E' & El). cbn [scan_to].
    rewrite decide_True by lia. rewrite (plain_code_scan _ _ c) by done. replace (i + S (length l)) with (S i + length l) in * by lia.
    apply IH; [done|lia].
Qed.

(** the column the scanner keeps for diagnostics does not count code: after
    any number of code characters on the first line it is still 1, where the
    offset's own line and column have the column behind them. *)
Theorem scanner_column_skips_code l rest : all plain_code l →
  (sc_line <$> scan_to (length l) cc_scanner_init (l ++ rest) (length l) 0) = Some 1%Z ∧
  (sc_col <$> scan_to (length l) cc_scanner_init (l ++ rest) (length l) 0) = Some 1%Z ∧
  cc__pp_offset_to_line_col (l ++ rest) (length l) = (1, 1 + Z.of_nat (length l))%Z.
Proof.
  intros Hl. change cc_scanner_init with (flags_of Code 1 1).
  assert (Hs := scan_plain l (l ++ rest) 0 1 1 (length l) Hl). cbn [Nat.add] in Hs. rewrite Hs; [|by rewrite drop_0, drop_app_length|lia].
  split_and!; [done|done|]. by apply offset_plain.
Qed.
Lemma scanner_column_skips_code_witness :
  (sc_col <$> scan_to 10 cc_scanner_init (txt "int x = 1;" ++ txt " !> ()") 10 0) = Some 1%Z ∧
  cc__pp_offset_to_line_col (txt "int x = 1;" ++ txt " !> ()") 10 = (1, 11)%Z.
Proof.
  destruct (scanner_column_skips_code (txt "int x = 1;") (txt " !> ()")) as (_ & H2 & H3); [by repeat constructor|]. split; [exact H2|exact H3].
Defined.
(** A newline behind a backslash in a literal is not counted as a line. *)
Lemma scanner_misses_escaped_newline :
  sc_line <$> scan_to 9 cc_scanner_init ([DQ; BSLASH; NL; DQ] ++ txt " x") 5 0 = Some 1%Z ∧
  (cc__pp_offset_to_line_col ([DQ; BSLASH; NL; DQ] ++ txt " x") 5).1 = 2%Z.
Proof. split; vm_compute; reflexivity. Qed.

(** * The pass chain *)

(** The passes of a chain in turn; an error ends it, as the callers do before
    they free the chain. *)
Fixpoint chain_run (ch : CCPassChain) (rs : list presult) : option CCPassChain :=
  match rs with
  | [] => Some ch
  | r :: rs' => '(ok, ch') ← cc_pass_chain_apply ch r; if (ok : bool) then chain_run ch' rs' else Some ch'
  end.
Definition chain_inv (ch : CCPassChain) : Prop :=
  pc_owned ch = seq 0 (pc_next ch) ∧ pc_allocs ch = seq 0 (pc_next ch `min` CC_PASS_CHAIN_MAX).
Lemma chain_run_inv ch rs ch' : chain_inv ch → chain_run ch rs = Some ch' → chain_inv ch'.
Proof.
  revert ch. induction rs as [|r rs IH]; intros ch Hi Hr; [by simplify_eq/=|]. cbn [chain_run] in Hr.
  destruct r as [| |s|]; cbn [cc_pass_chain_apply mbind option_bind] in Hr; [by eapply IH|by simplify_eq| |done].
  eapply IH; [|exact Hr]. clear Hr. destruct Hi as [Ho Ha]. unfold chain_inv. cbn [pc_owned pc_allocs pc_next]. rewrite Ha, Ho, length_seq. split; [by rewrite seq_S|].
  case_decide as Hlt.
  - rewrite (Nat.min_l (pc_next ch)), (Nat.min_l (S (pc_next ch))) by lia. by rewrite seq_S.
  - rewrite (Nat.min_r (pc_next ch)), (Nat.min_r (S (pc_next ch))) by lia. done.
Qed.

Lemma filter_none {A} (P : A → Prop) `{!∀ x, Decision (P x)} (l : list A) : (∀ x, x ∈ l → ¬ P x) → filter P l = [].
Proof. induction l as [|x l IH]; intros Hl; [done|]. rewrite filter_cons_False by (apply Hl; by left). apply IH. intros y Hy. apply Hl. by right. Qed.
Lemma filter_every {A} (P : A → Prop) `{!∀ x, Decision (P x)} (l : list A) : (∀ x, x ∈ l → P x) → filter P l = l.
Proof. induction l as [|x l IH]; intros Hl; [done|]. rewrite filter_cons_True by (apply Hl; by left). f_equal. apply IH. intros y Hy. apply Hl. by right. Qed.

(** freeing the chain frees every buffer its passes returned, on success and
    after an error, when they are at most 32; the chain does not track the
    buffers beyond, which are leaked. *)
Theorem pass_chain_frees src rs ch : chain_run (cc_pass_chain_init src) rs = Some ch →
  pc_owned (cc_pass_chain_free ch) = seq CC_PASS_CHAIN_MAX (pc_next ch - CC_PASS_CHAIN_MAX).
Proof.
  intros Hr. destruct (chain_run_inv _ _ _ (conj eq_refl eq_refl : chain_inv (cc_pass_chain_init src)) Hr) as [Ho Ha].
  unfold cc_pass_chain_free. cbn [pc_owned]. rewrite Ho, Ha. set (n := pc_next ch).
  assert (Hn : seq 0 n = seq 0 (n `min` CC_PASS_CHAIN_MAX) ++ seq (n `min` CC_PASS_CHAIN_MAX) (n - CC_PASS_CHAIN_MAX)).
  { rewrite <- seq_app. f_equal. lia. }
  rewrite Hn, filter_app, filter_none, filter_every; [| |naive_solver].
  - destruct (decide (n ≤ CC_PASS_CHAIN_MAX)) as [Hle|Hgt]; [by replace (n - CC_PASS_CHAIN_MAX) with 0 by lia|].
    rewrite Nat.min_r by lia. done.
  - intros x Hx. rewrite !elem_of_seq in *. lia.
Qed.
Lemma pass_chain_frees_witness :
  ∃ ch, chain_run (cc_pass_chain_init (txt "a")) (replicate 34 (PText (txt "b")) ++ [PError; PNull]) = Some ch ∧
    pc_owned (cc_pass_chain_free ch) = [32; 33].
Proof.
  eexists. split; [vm_compute; reflexivity|].
  rewrite (pass_chain_frees (txt "a") (replicate 34 (PText (txt "b")) ++ [PError; PNull])) by (vm_compute; reflexivity). vm_compute. reflexivity.
Defined.
