(* ===== verification/ChanBuf.v ===== *)
(** Blocking send and receive on a buffered channel with the lock-free queue
    ([cc_chan_send] and [cc_chan_recv] in [src/cc/runtime/channel.c]).  A call is a
    program counter; one turn is one critical section of [ch->mu], one operation
    of the queue, or one access to a shared field outside the mutex.  Queue
    operations are taken as atomic, which the concurrent model of the ring
    justifies.  Calls run concurrently as a step relation; a direct handoff is cut
    where it publishes [notified], which the receiver reads without the mutex.

    The calls modelled have no deadline in scope and a channel that is not owned;
    the opt-in mutex variant of the minimal path is off. *)
From S2P Require Import Prelude ChanTypes WaitList Bytes Ring Chan ChanRv WaitShape WaitInv WaitSteps ChanSpec ChanTry ChanCreate.

Local Open Scope Z_scope.

Definition EDEADLK : Z := 35.

Section buffered.
Context `{!LfdsQueue}.

(** * Program counters *)

(** A call: its direction, the fiber it runs on, if any, the address of its
    [node] and of the caller's value. *)
Record bcaller := BCaller { bdir : side; bfiber : option ptr; bnode : ptr; bvalue : ptr }.

Inductive bpc :=
  (** [cc_chan_send]: minimal path, checks, handoff, fast path *)
  | SFast | SMinEnq | SOpen | SOpenRx | SHasRecv | SHandoff | SEnq
  (** [cc__chan_post_lockfree_enqueue_signal_receivers] and its three loads *)
  | SPostF | SPostT (fw : Z) | SPostI (fw tw : Z) | SPostL (fw tw : Z)
  (** the mutex path, the blocking loop, the wait of a fiber and of a thread *)
  | SLock1 | SInitEnq | SNotify | STop | SLoopEnq | SReg
  | SProbe | SUnreg | SDekker | SDekkerWake | SPark | SWoken | SWakeEnq | SSleep | SLast
  (** [cc_chan_recv]: minimal path, fast path, blocking loop *)
  | RFast | RMinDeq | RTry | RClosed | RLock1 | RLoopDeq | RLoopL
  (** after registering ([again]: for the second time): the count, read as tail
      and head; a handoff seen early; the probe; registering again *)
  | RCount (again : bool) | RCountH (again : bool) (t : Z) | REarly | RLate
  | RCheck2 | RPre | RProbe | RReReg | RDekker | RDekkerWake | RPark | RWoken | RSleep | RAwake
  (** [cc__chan_post_lockfree_dequeue_signal_senders] and what follows it,
      [cc__chan_post_dequeue_notify] *)
  | RPost (act : bool) | RPostL (act : bool) | RNotify
  (** [cc__chan_recv_resolve_closed], blocking and without deadline *)
  | RDrain | RDrainPos (second : bool) | RDrainHead (second : bool) (t : Z) | RDrainLf | RDrain2
  (** holding the mutex with the popped receiver [q], before and after
      publishing; returned, the frame gone *)
  | BHand (q : ptr) | BTail (q : ptr) | BRet (rc : Z).

(** What a turn moved through the queue. *)
Inductive moves := Nothing | Put (v : list Z) | Got (v : list Z).

(** * Pieces of the code *)

Definition new_bnode (c : bcaller) : cc__fiber_wait_node :=
  WaitNode (bfiber c) 0 None None (match bdir c with RecvQ => Some (bvalue c) | SendQ => None end)
    NOTIFY_NONE None 0 false false.
Definition init_bnode (c : bcaller) : W unit :=
  modify (λ x, x <| nodes := <[bnode c := new_bnode c]> (nodes x) |>).
Definition go_to (pc : bpc) : C (bpc * moves) := mret (pc, Nothing).
Definition unlock_to (pc : bpc) : C (bpc * moves) := cc_chan_unlock;; go_to pc.
Definition value_of (c : bcaller) : C (list Z) := liftw (load_mem (bvalue c)).
(** [*out_value = v], and the next turn. *)
Definition take_to (pc : bpc) (c : bcaller) (v : list Z) : C (bpc * moves) :=
  liftw (modify (λ x, x <| mem := <[bvalue c := v]> (mem x) |>));; mret (pc, Got v).
(** The condition of the lock-free fast path. *)
Definition fast_ok (size : nat) (s : ccchan) : bool :=
  use_lockfree s && bool_decide (0 < cap s) && bool_decide (elem_size s = size) && buf_alloc s && lockfree_ok s.
(** [cc__chan_lf_count] of a ring whose tail was [t]. *)
Definition count_from (t : Z) (s : ccchan) : Z :=
  let d := wrap64 (t - ring_head (rq s)) in (d + 2 ^ 31) mod 2 ^ 32 - 2 ^ 31.

(** ** Sending *)

(** An attempt of [cc__chan_try_enqueue_lockfree_impl] after the [inflight]
    counter has been raised. *)
Definition try_put (c : bcaller) (ok fail : bpc) : C (bpc * moves) :=
  v ← value_of c;
  rc ← cc__chan_try_enqueue_lockfree_impl v;
  chan_inflight_dec;;
  if decide (rc = 0) then mret (ok, Put v) else go_to fail.
(** The condition of the blocking loop to its first enqueue; the mutex is held. *)
Definition send_top : C (bpc * moves) :=
  s ← gets id;
  chan_inflight_inc;;
  unlock_to (if closed s then SLast else SLoopEnq).

(** The locked part of [cc__chan_post_lockfree_enqueue_signal_receivers]. *)
Definition post_signal (env : chan_env) (fw tw : Z) : C unit :=
  cc_chan_lock;;
  fw' ← gets (λ s, has_recv_waiters (ch (w s)));
  (if bool_decide (fw ≠ 0) || bool_decide (fw' ≠ 0) then
     budget ← gets (λ s, cc__chan_recv_wake_budget env (w s));
     if decide (0 < budget) then _ ← liftw (cc__chan_signal_recv_waiters env budget); mret tt else mret tt
   else mret tt);;
  tw' ← gets (λ s, thread_recv_waiters (ch (w s)));
  (if bool_decide (tw ≠ 0) || bool_decide (tw' ≠ 0) then cond_signal COND_NOT_EMPTY else mret tt);;
  cc_chan_unlock;;
  liftw wake_batch_flush;;
  liftw cc__chan_signal_recv_ready.

Definition b_send_turn (env : chan_env) (size : nat) (c : bcaller) (pc : bpc) : C (bpc * moves) :=
  match pc with
  | SFast =>
      s ← gets id;
      go_to (if fast_path_ok (ch (w s)) && bool_decide (elem_size s = size) then SMinEnq else SOpen)
  | SMinEnq =>
      v ← value_of c;
      rc ← cc__chan_enqueue_lockfree_minimal v;
      if decide (rc = 0) then mret (SPostF, Put v) else go_to SOpen
  | SOpen =>
      s ← gets id;
      if fast_ok size s then
        go_to (if closed s then BRet (cc__chan_send_close_errno s) else SOpenRx)
      else go_to SLock1
  | SOpenRx =>
      s ← gets id; go_to (if rx_error_closed s then BRet (rx_error_code s) else SHasRecv)
  | SHasRecv =>
      f ← gets (λ s, has_recv_waiters (ch (w s)));
      go_to (if decide (f = 0) then SEnq else SHandoff)
  | SHandoff =>
      cc_chan_lock;;
      s ← gets id;
      if closed s then unlock_to (BRet (cc__chan_send_close_errno s))
      else if rx_error_closed s then unlock_to (BRet (rx_error_code s))
      else
        o ← liftw cc__chan_pop_recv_waiter;
        match o with Some q => go_to (BHand q) | None => unlock_to SEnq end
  | SEnq =>
      v ← value_of c;
      rc ← cc__chan_enqueue_lockfree_minimal v;
      if decide (rc = 0) then mret (SPostF, Put v)
      else m ← gets mode; go_to (match m with MODE_DROP_NEW => BRet EAGAIN | _ => SLock1 end)
  | SPostF => f ← gets (λ s, has_recv_waiters (ch (w s))); go_to (SPostT f)
  | SPostT fw =>
      tw ← gets (λ s, thread_recv_waiters (ch (w s)));
      if decide (fw = 0 ∧ tw = 0) then poke_recv_signal;; go_to (BRet 0)
      else go_to (if bool_decide (fw ≠ 0) && bool_decide (tw = 0) then SPostI fw tw else SPostL fw tw)
  | SPostI fw tw =>
      inflight ← gets (λ s, recv_wake_inflight (ch (w s)));
      if decide (env_recv_wake_target env ≤ inflight) then poke_recv_signal;; go_to (BRet 0)
      else go_to (SPostL fw tw)
  | SPostL fw tw => post_signal env fw tw;; go_to (BRet 0)
  | SLock1 =>
      cc_chan_lock;;
      err ← cc_chan_ensure_buf env size;
      s ← gets id;
      if negb (bool_decide (err = 0)) then unlock_to (BRet err)
      else if closed s then unlock_to (BRet (cc__chan_send_close_errno s))
      else if rx_error_closed s then unlock_to (BRet (rx_error_code s))
      else if use_lockfree s && lockfree_ok s then unlock_to SInitEnq
      else fault
  | SInitEnq => chan_inflight_inc;; try_put c SNotify STop
  | SNotify => cc__chan_post_enqueue_notify env false;; go_to (BRet 0)
  | STop => cc_chan_lock;; send_top
  | SLoopEnq => try_put c SNotify SReg
  | SReg =>
      cc_chan_lock;;
      match bfiber c with
      | Some _ =>
          liftw (init_bnode c);;
          liftw (cc__chan_add_send_waiter (bnode c));;
          unlock_to SProbe
      | None => unlock_to SSleep
      end
  | SProbe => chan_inflight_inc;; try_put c SUnreg SDekker
  | SUnreg =>
      cc_chan_lock;;
      liftw (cc__chan_remove_send_waiter (bnode c));;
      cc__chan_post_enqueue_notify env true;;
      go_to (BRet 0)
  | SDekker =>
      f ← gets (λ s, has_recv_waiters (ch (w s)));
      go_to (if decide (f = 0) then SPark else SDekkerWake)
  | SDekkerWake => cc__chan_dekker_wake_recv_before_park env;; go_to SPark
  | SWoken =>
      cc_chan_lock;;
      n ← liftw (load (bnode c));
      match notified n with
      | NOTIFY_SIGNAL =>
          liftw (store (bnode c) (λ n, n <| notified := NOTIFY_NONE |>));;
          liftw (cc__chan_remove_send_waiter (bnode c));;
          chan_inflight_inc;;
          unlock_to SWakeEnq
      | NOTIFY_CLOSE | NOTIFY_NONE => liftw (cc__chan_remove_send_waiter (bnode c));; send_top
      | _ => send_top
      end
  | SWakeEnq => try_put c SNotify STop
  | SLast =>
      v ← value_of c;
      rc ← cc__chan_try_enqueue_lockfree_impl v;
      chan_inflight_dec;;
      if decide (rc = 0) then mret (SNotify, Put v)
      else s ← gets id; go_to (BRet (cc__chan_send_close_errno s))
  | _ => fault
  end.

(** ** Receiving *)

(** An attempt of [cc__chan_dequeue_lockfree_fast]. *)
Definition try_take (c : bcaller) (ok fail : bpc) : C (bpc * moves) :=
  o ← cc__chan_dequeue_lockfree_minimal;
  match o with Some v => take_to ok c v | None => go_to fail end.
(** The same through the guarded [cc_chan_try_dequeue_lockfree]. *)
Definition drain_take (c : bcaller) (fail : ccchan → bpc) : C (bpc * moves) :=
  o ← cc_chan_try_dequeue_lockfree;
  match o with Some v => take_to (BRet 0) c v | None => s ← gets id; go_to (fail s) end.

(** [nc]: the caller's nursery is cancelled when the code asks; [gd]: the guard
    against receiving from a channel that the caller's own nursery closes. *)
Definition b_recv_turn (env : chan_env) (size : nat) (c : bcaller) (nc gd : bool) (pc : bpc) : C (bpc * moves) :=
  match pc with
  | RFast =>
      s ← gets id;
      go_to (if fast_path_ok (ch (w s)) && bool_decide (elem_size s = size) then RMinDeq else RTry)
  | RMinDeq => try_take c (RPost false) RTry
  | RTry => s ← gets id; if fast_ok size s then try_take c (RPost true) RClosed else go_to RLock1
  | RClosed => s ← gets id; go_to (if closed s then RDrain else RLock1)
  | RLock1 =>
      cc_chan_lock;;
      err ← cc_chan_ensure_buf env size;
      s ← gets id;
      if negb (bool_decide (err = 0)) then unlock_to (BRet err)
      else if negb (use_lockfree s) || negb (lockfree_ok s) then fault
      else if negb (closed s) && gd then unlock_to (BRet EDEADLK)
      else unlock_to RLoopDeq
  | RLoopDeq => try_take c (RPost true) RLoopL
  | RLoopL =>
      cc_chan_lock;;
      s ← gets id;
      if closed s then unlock_to RDrain
      else if nc then unlock_to (BRet ECANCELED)
      else if gd then unlock_to (BRet EDEADLK)
      else
        match bfiber c with
        | Some _ =>
            liftw (init_bnode c);;
            liftw (cc__chan_add_recv_waiter (bnode c));;
            unlock_to (RCount false)
        | None =>
            liftw cc__chan_thread_recv_waiter_inc;;
            k ← gets cc__chan_lf_count;
            if decide (0 < k) then liftw cc__chan_thread_recv_waiter_dec;; unlock_to RLoopDeq
            else unlock_to RSleep
        end
  | RCount again =>
      s ← gets id;
      if use_ring_queue s then go_to (RCountH again (ring_tail (rq s)))
      else go_to (if decide (0 < lfqueue_count s) then REarly else if again then RDekker else RCheck2)
  | RCountH again t =>
      s ← gets id;
      go_to (if decide (0 < count_from t s) then REarly else if again then RDekker else RCheck2)
  | REarly =>
      n ← liftw (load (bnode c));
      go_to (if decide (notified n = NOTIFY_DATA) then BRet 0 else RLate)
  | RLate =>
      cc_chan_lock;;
      n ← liftw (load (bnode c));
      if decide (notified n = NOTIFY_DATA) then unlock_to (BRet 0)
      else liftw (cc__chan_remove_recv_waiter (bnode c));; unlock_to RLoopDeq
  | RCheck2 =>
      n ← liftw (load (bnode c));
      go_to (if decide (notified n = NOTIFY_DATA) then BRet 0 else RPre)
  | RPre =>
      cc_chan_lock;;
      n ← liftw (load (bnode c));
      s ← gets id;
      if decide (notified n = NOTIFY_DATA) then unlock_to (BRet 0)
      else if negb (isNone (notified n)) || closed s then
        liftw (cc__chan_remove_recv_waiter (bnode c));; unlock_to RLoopDeq
      else liftw (cc__chan_remove_recv_waiter (bnode c));; unlock_to RProbe
  | RProbe => try_take c RNotify RReReg
  | RReReg =>
      cc_chan_lock;;
      s ← gets id;
      if closed s then unlock_to RDrain
      else
        n ← liftw (load (bnode c));
        match notified n with
        | NOTIFY_DATA => unlock_to (BRet 0)
        | NOTIFY_NONE =>
            liftw (store (bnode c) (λ n, n <| notified := NOTIFY_NONE |>));;
            liftw (cc__chan_add_recv_waiter (bnode c));;
            unlock_to (RCount true)
        | _ => unlock_to RLoopDeq
        end
  | RDekker =>
      f ← gets (λ s, has_send_waiters (ch (w s)));
      go_to (if decide (f = 0) then RPark else RDekkerWake)
  | RDekkerWake => cc__chan_dekker_wake_send_before_park;; go_to RPark
  | RWoken =>
      cc_chan_lock;;
      n ← liftw (load (bnode c));
      s ← gets id;
      match notified n with
      | NOTIFY_SIGNAL =>
          liftw (cc__chan_remove_recv_waiter (bnode c));;
          liftw (store (bnode c) (λ n, n <| notified := NOTIFY_NONE |>));;
          unlock_to RLoopDeq
      | NOTIFY_DATA => unlock_to (BRet 0)
      | k =>
          liftw (cc__chan_remove_recv_waiter (bnode c));;
          unlock_to (if bool_decide (k = NOTIFY_CLOSE) || closed s then RDrain else RLoopDeq)
      end
  | RAwake => cc_chan_lock;; liftw cc__chan_thread_recv_waiter_dec;; unlock_to RLoopDeq
  | RPost act =>
      f ← gets (λ s, has_send_waiters (ch (w s)));
      if decide (f = 0) then when act (liftw cc__chan_signal_activity);; go_to (BRet 0)
      else go_to (RPostL act)
  | RPostL act =>
      cc__chan_dekker_wake_send_before_park;;   (** the same statements *)
      when act (liftw cc__chan_signal_activity);;
      go_to (BRet 0)
  | RNotify => cc__chan_post_dequeue_notify false;; go_to (BRet 0)
  | RDrain => drain_take c (λ s, if use_ring_queue s then RDrainPos false else RDrainLf)
  | RDrainPos second => s ← gets id; go_to (RDrainHead second (ring_tail (rq s)))
  | RDrainHead second t =>
      s ← gets id;
      go_to (if decide (t = ring_head (rq s)) then if second then BRet (recv_close_errno s) else RDrain2
            else RDrain)
  | RDrainLf =>
      s ← gets id;
      go_to (if decide (lfqueue_inflight s = 0 ∧ lfqueue_count s ≤ 0) then RDrain2 else RDrain)
  | RDrain2 =>
      drain_take c (λ s, if use_ring_queue s then RDrainPos true else BRet (recv_close_errno s))
  | _ => fault
  end.

Definition b_turn (env : chan_env) (size : nat) (c : bcaller) (nc gd : bool) (pc : bpc) : C (bpc * moves) :=
  match bdir c with SendQ => b_send_turn env size c pc | RecvQ => b_recv_turn env size c nc gd pc end.

(** ** The handoff, cut at the store of [notified] *)

Definition b_publish (c : bcaller) (q : ptr) : W unit :=
  n ← load q;
  v ← load_mem (bvalue c);
  write_data n v;;
  store q (λ n, n <| notified := NOTIFY_DATA |>).
Definition b_finish (q : ptr) : C unit :=
  liftw rv_recv_dec;;
  liftw (bump_signaled q);;
  n ← liftw (load q);
  liftw (match fiber n with
         | Some f => wake_batch_add_chan (Some f)
         | None => emit (EvCondSignal COND_NOT_EMPTY)
         end);;
  cc_chan_unlock;;
  liftw wake_batch_flush;;
  liftw cc__chan_signal_recv_ready.

(** * Concurrent calls *)

Record b_op := BOp { bwho : bcaller; pc : bpc }.
#[export] Instance eta_b_op : Eta b_op := λ o, BOp (bwho o) (pc o).
(** [puts], [gots]: calls and values that went into and out of the queue, in
    order; [hands]: sender, receiver and value of each handoff. *)
Record b_state := BState {
  bch : ccchan; bops : list b_op;
  puts : list (nat * list Z); gots : list (nat * list Z); hands : list (nat * nat * list Z) }.
#[export] Instance eta_b_state : Eta b_state := λ r, BState (bch r) (bops r) (puts r) (gots r) (hands r).

Definition start_pc (sd : side) : bpc := match sd with SendQ => SFast | RecvQ => RFast end.
Definition b_drop (c : bcaller) (p : bpc) (s : ccchan) : ccchan :=
  match p with BRet _ => s <| w ::= λ x, x <| nodes ::= delete (bnode c) |> |> | _ => s end.

Definition b_sleeping (c : cond) (o : b_op) : Prop :=
  match pc o, c with SSleep, COND_NOT_FULL | RSleep, COND_NOT_EMPTY => True | _, _ => False end.
(** A thread that has been woken goes on to lock again. *)
Definition b_rouse (o : b_op) : b_op :=
  o <| pc := match pc o with SSleep => STop | RSleep => RAwake | p => p end |>.
Definition b_rouse_all (c : cond) (o : b_op) : b_op :=
  match pc o, c with SSleep, COND_NOT_FULL | RSleep, COND_NOT_EMPTY => b_rouse o | _, _ => o end.
Inductive b_deliver : list event → list b_op → list b_op → Prop :=
  | b_deliver_nil os : b_deliver [] os os
  | b_deliver_one c evs os i o os' : os !! i = Some o → b_sleeping c o →
      b_deliver evs (<[i := b_rouse o]> os) os' → b_deliver (EvCondSignal c :: evs) os os'
  | b_deliver_nobody c evs os os' : Forall (λ o, ¬ b_sleeping c o) os →
      b_deliver evs os os' → b_deliver (EvCondSignal c :: evs) os os'
  | b_deliver_all c evs os os' : b_deliver evs (b_rouse_all c <$> os) os' → b_deliver (EvCondBroadcast c :: evs) os os'
  | b_deliver_other e evs os os' : (∀ c, e ≠ EvCondSignal c) → (∀ c, e ≠ EvCondBroadcast c) →
      b_deliver evs os os' → b_deliver (e :: evs) os os'.

Definition b_active (o : b_op) : Prop := match pc o with BRet _ => False | _ => True end.
(** A new call has a frame and a buffer of the element size of its own, and a
    fiber makes one call at a time. *)
Definition b_callable (size : nat) (st : b_state) (c : bcaller) : Prop :=
  (∃ v, mem (w (bch st)) !! bvalue c = Some v ∧ length v = size) ∧ nodes (w (bch st)) !! bnode c = None ∧
  Forall (λ o, bvalue (bwho o) ≠ bvalue c ∧
    (b_active o → bnode (bwho o) ≠ bnode c ∧ (bfiber c ≠ None → bfiber (bwho o) ≠ bfiber c))) (bops st).
(** The state after call [i] has moved to [p] with the moves [m]. *)
Definition b_after (i : nat) (o : b_op) (p : bpc) (m : moves) (s' : ccchan) (os : list b_op) (st : b_state) : b_state :=
  BState (b_drop (bwho o) p s') os
    (match m with Put v => puts st ++ [(i, v)] | _ => puts st end)
    (match m with Got v => gots st ++ [(i, v)] | _ => gots st end) (hands st).
Definition woken (p : bpc) : bpc := match p with SPark => SWoken | RPark => RWoken | p => p end.

(** The steps.  A turn runs up to the next point where the code takes or gives up
    the mutex, parks, sleeps or publishes; within it an operation on the queue is
    atomic.  (The ring's own accesses are interleaved in [RingConc]; there a
    dequeue may find the queue empty while an enqueue behind an unfinished one has
    completed, an interleaving these steps do not have.) *)
Inductive b_step (env : chan_env) (size : nat) : rv_actor → b_state → b_state → Prop :=
  | b_call st c : b_callable size st c →
      b_step env size RvCall st (st <| bops := bops st ++ [BOp c (start_pc (bdir c))] |>)
  | b_runs st i o nc gd p m s' evs os : bops st !! i = Some o →
      b_turn env size (bwho o) nc gd (pc o) (bch st) = Some ((p, m), s') → emitted (bch st) s' evs →
      b_deliver evs (<[i := o <| pc := p |>]> (bops st)) os →
      b_step env size RvRun st (b_after i o p m s' os st)
  | b_publishes st i o q x j o' v : bops st !! i = Some o → pc o = BHand q →
      b_publish (bwho o) q (w (bch st)) = Some (tt, x) →
      bops st !! j = Some o' → b_active o' → bnode (bwho o') = q → mem x !! bvalue (bwho o) = Some v →
      b_step env size RvRun st (BState ((bch st) <| w := x |>) (<[i := o <| pc := BTail q |>]> (bops st))
        (puts st) (gots st) (hands st ++ [(i, j, v)]))
  | b_finishes st i o q s' evs os : bops st !! i = Some o → pc o = BTail q →
      b_finish q (bch st) = Some (tt, s') → emitted (bch st) s' evs →
      b_deliver evs (<[i := o <| pc := BRet 0 |>]> (bops st)) os →
      b_step env size RvRun st (b_after i o (BRet 0) Nothing s' os st)
  | b_unparks st i o n : bops st !! i = Some o → pc o = SPark ∨ pc o = RPark →
      nodes (w (bch st)) !! bnode (bwho o) = Some n →
      b_step env size (if isNone (notified n) then RvOS else RvRun) st
        (st <| bops := <[i := o <| pc := woken (pc o) |>]> (bops st) |>)
  | b_cond_return st i o : bops st !! i = Some o → pc o = SSleep ∨ pc o = RSleep →
      b_step env size RvOS st (st <| bops := <[i := b_rouse o]> (bops st) |>)
  | b_closes st op s' evs os :
      run_close op (bch st) = Some (tt, s') → emitted (bch st) s' evs → b_deliver evs (bops st) os →
      b_step env size RvCall st (st <| bch := s' |> <| bops := os |>).
End buffered.

Section run.
Context `{!LfdsQueue}.
Implicit Types (S : b_state).

(** * Definitions *)

(** A new channel, with the program's buffers and fibers. *)
Definition b_new (env : chan_env) (sc se capacity : Z) (m : chan_mode) (take sync : bool) (tp : topology) (size : nat)
    (buffers : gmap ptr (list Z)) (tks : gmap ptr Z) : option b_state :=
  s ← create_init env sc se (init_wstate <| mem := buffers |> <| tickets := tks |>) capacity m take sync tp size;
  Some (BState s [] [] [] []).
(** Runs in which the receiving side is not closed with error code 0. *)
Definition b_reach (env : chan_env) (size : nat) : relation b_state := rtc (coded bch (λ S S', ∃ a, b_step env size a S S')).

#[local] Instance bcond_eq : EqDecision cond.
Proof. solve_decision. Defined.
#[local] Instance bevent_eq : EqDecision event.
Proof. solve_decision. Defined.

(** Who moves, and which sleeping threads its signals wake. *)
Inductive b_choice :=
  | XCall (c : bcaller) | XRun (i : nat) (picks : list nat) | XPublish (i j : nat) | XFinish (i : nat) (picks : list nat)
  | XUnpark (i : nat) | XClose (op : close_op).
Definition b_is_sleeping (c : cond) (o : b_op) : bool :=
  match pc o, c with SSleep, COND_NOT_FULL | RSleep, COND_NOT_EMPTY => true | _, _ => false end.
Fixpoint b_deliver_exec (picks : list nat) (evs : list event) (os : list b_op) : option (list b_op) :=
  match evs with
  | [] => Some os
  | EvCondSignal c :: evs' =>
      match picks with
      | i :: picks' => o ← os !! i; if b_is_sleeping c o then b_deliver_exec picks' evs' (<[i := b_rouse o]> os) else None
      | [] => if forallb (λ o, negb (b_is_sleeping c o)) os then b_deliver_exec [] evs' os else None
      end
  | EvCondBroadcast c :: evs' => b_deliver_exec picks evs' (b_rouse_all c <$> os)
  | _ :: evs' => b_deliver_exec picks evs' os
  end.
Definition emitted_exec (s s' : ccchan) : option (list event) :=
  let evs := drop (length (log (w s))) (log (w s')) in
  if decide (log (w s') = log (w s) ++ evs) then Some evs else None.
Definition b_callable_dec (size : nat) S (c : bcaller) : bool :=
  match mem (w (bch S)) !! bvalue c with Some v => bool_decide (length v = size) | None => false end &&
  is_none (nodes (w (bch S)) !! bnode c) &&
  forallb (λ o, negb (bool_decide (bvalue (bwho o) = bvalue c)) &&
    match pc o with BRet _ => true
    | _ => negb (bool_decide (bnode (bwho o) = bnode c)) && (is_none (bfiber c) || negb (bool_decide (bfiber (bwho o) = bfiber c))) end) (bops S).
Definition b_exec (env : chan_env) (size : nat) (x : b_choice) S : option b_state :=
  match x with
  | XCall c => if b_callable_dec size S c then Some (S <| bops := bops S ++ [BOp c (start_pc (bdir c))] |>) else None
  | XRun i picks =>
      o ← bops S !! i;
      '((p, m), s') ← b_turn env size (bwho o) false false (pc o) (bch S);
      evs ← emitted_exec (bch S) s';
      os ← b_deliver_exec picks evs (<[i := o <| pc := p |>]> (bops S));
      Some (b_after i o p m s' os S)
  | XPublish i j =>
      o ← bops S !! i; o' ← bops S !! j;
      match pc o, pc o' with
      | BHand _, BRet _ => None
      | BHand q, _ =>
          if decide (bnode (bwho o') = q) then
            '(_, x) ← b_publish (bwho o) q (w (bch S)); v ← mem x !! bvalue (bwho o);
            Some (BState ((bch S) <| w := x |>) (<[i := o <| pc := BTail q |>]> (bops S)) (puts S) (gots S) (hands S ++ [(i, j, v)]))
          else None
      | _, _ => None
      end
  | XFinish i picks =>
      o ← bops S !! i;
      match pc o with
      | BTail q =>
          '(_, s') ← b_finish q (bch S);
          evs ← emitted_exec (bch S) s';
          os ← b_deliver_exec picks evs (<[i := o <| pc := BRet 0 |>]> (bops S));
          Some (b_after i o (BRet 0) Nothing s' os S)
      | _ => None
      end
  | XUnpark i =>
      o ← bops S !! i; _ ← nodes (w (bch S)) !! bnode (bwho o);
      match pc o with
      | SPark | RPark => Some (S <| bops := <[i := o <| pc := woken (pc o) |>]> (bops S) |>)
      | _ => None
      end
  | XClose op =>
      '(_, s') ← run_close op (bch S);
      evs ← emitted_exec (bch S) s';
      os ← b_deliver_exec [] evs (bops S);
      Some (S <| bch := s' |> <| bops := os |>)
  end.
Fixpoint b_run (env : chan_env) (size : nat) (xs : list b_choice) S : option b_state :=
  match xs with
  | [] => Some S
  | x :: xs' => S' ← b_exec env size x S; if decide (codes_ok (bch S')) then b_run env size xs' S' else None
  end.

(** * A function that runs is a run of the relation *)

Lemma b_is_sleeping_spec c o : b_is_sleeping c o = true ↔ b_sleeping c o.
Proof. unfold b_is_sleeping, b_sleeping. destruct (pc o), c; naive_solver. Qed.
Lemma b_deliver_exec_sound picks evs os os' : b_deliver_exec picks evs os = Some os' → b_deliver evs os os'.
Proof.
  revert picks os. induction evs as [|e evs IH]; intros picks os; simpl; [intros [= <-]; constructor|].
  destruct e as [| |c|c| | |]; try (intros Hd; apply b_deliver_other; [done|done|by eapply IH]).
  - destruct picks as [|i picks].
    + destruct (forallb _ os) eqn:Hf; [|done]. intros Hd. apply b_deliver_nobody; [|by eapply IH]. apply Forall_forall. intros o Ho Hs.
      rewrite forallb_forall in Hf. apply b_is_sleeping_spec in Hs. specialize (Hf o (proj1 (list_elem_of_In _ _) Ho)). by rewrite Hs in Hf.
    + destruct (os !! i) as [o|] eqn:Hi; [|done]. simpl. destruct (b_is_sleeping c o) eqn:Hs; [|done]. intros Hd.
      eapply b_deliver_one; [done|by apply b_is_sleeping_spec|by eapply IH].
  - intros Hd. apply b_deliver_all. by eapply IH.
Qed.
Lemma emitted_exec_sound s s' evs : emitted_exec s s' = Some evs → emitted s s' evs.
Proof. unfold emitted_exec, emitted. case_decide as He; [|done]. by intros [= <-]. Qed.
Lemma b_callable_dec_sound size S c : b_callable_dec size S c = true → b_callable size S c.
Proof.
  unfold b_callable_dec, b_callable. rewrite !andb_true_iff, forallb_forall. intros [[Hv Hn] Hall]. split_and!.
  - destruct (mem _ !! _) as [v|]; [|done]. apply bool_decide_eq_true in Hv. eauto.
  - by destruct (nodes _ !! _).
  - apply Forall_forall. intros o Ho. apply list_elem_of_In in Ho. specialize (Hall o Ho). apply andb_true_iff in Hall as [Hva Hall].
    apply negb_true_iff, bool_decide_eq_false in Hva. split; [done|]. unfold b_active. intros Ha. destruct (pc o); try done;
      apply andb_true_iff in Hall as [Hnd Hf]; apply negb_true_iff, bool_decide_eq_false in Hnd; (split; [done|]); intros Hfc;
      destruct (bfiber c); simpl in Hf; try done; by apply negb_true_iff, bool_decide_eq_false in Hf.
Qed.
Lemma b_exec_sound env size x S S' : b_exec env size x S = Some S' → ∃ a, b_step env size a S S'.
Proof.
  destruct x as [c|i picks|i j|i picks|i|op]; unfold b_exec.
  - destruct (b_callable_dec size S c) eqn:Hc; [|done]. intros [= <-]. exists RvCall. by apply b_call, b_callable_dec_sound.
  - destruct (bops S !! i) as [o|] eqn:Hi; simpl; [|done]. destruct (b_turn _ _ _ _ _ _ _) as [[[p m] s']|] eqn:Hr; simpl; [|done].
    destruct (emitted_exec _ _) as [evs|] eqn:He; simpl; [|done]. destruct (b_deliver_exec _ _ _) as [os|] eqn:Hd; simpl; [|done].
    intros [= <-]. exists RvRun. eapply b_runs; [done|exact Hr|by apply emitted_exec_sound|by eapply b_deliver_exec_sound].
  - destruct (bops S !! i) as [o|] eqn:Hi; simpl; [|done]. destruct (bops S !! j) as [o'|] eqn:Hj; simpl; [|done].
    destruct (pc o) eqn:Hpc; try done.
    intros Hx. assert (Hx' : b_active o' ∧ (if decide (bnode (bwho o') = q) then
            '(_, x) ← b_publish (bwho o) q (w (bch S)); v ← mem x !! bvalue (bwho o);
            Some (BState ((bch S) <| w := x |>) (<[i := o <| pc := BTail q |>]> (bops S)) (puts S) (gots S) (hands S ++ [(i, j, v)]))
          else None) = Some S') by (unfold b_active; by destruct (pc o')).
    clear Hx. destruct Hx' as [Ha Hx]. case_decide; [|done]. destruct (b_publish _ _ _) as [[[] x]|] eqn:Hr; simpl in Hx; [|done].
    destruct (mem x !! bvalue (bwho o)) as [v|] eqn:Hv; simpl in Hx; [|done]. injection Hx as <-. exists RvRun. by eapply b_publishes.
  - destruct (bops S !! i) as [o|] eqn:Hi; simpl; [|done]. destruct (pc o) eqn:Hpc; try done.
    destruct (b_finish _ _) as [[[] s']|] eqn:Hr; simpl; [|done].
    destruct (emitted_exec _ _) as [evs|] eqn:He; simpl; [|done]. destruct (b_deliver_exec _ _ _) as [os|] eqn:Hd; simpl; [|done].
    intros [= <-]. exists RvRun. eapply b_finishes; [done|done|exact Hr|by apply emitted_exec_sound|by eapply b_deliver_exec_sound].
  - destruct (bops S !! i) as [o|] eqn:Hi; simpl; [|done]. destruct (nodes _ !! _) as [n|] eqn:Hn; simpl; [|done].
    pose proof (b_unparks env size S i o n Hi) as Hu. destruct (pc o) eqn:Hpc; try done; intros [= <-]; eexists; (eapply Hu; [auto|done]).
  - destruct (run_close _ _) as [[[] s']|] eqn:Hr; simpl; [|done].
    destruct (emitted_exec _ _) as [evs|] eqn:He; simpl; [|done]. destruct (b_deliver_exec _ _ _) as [os|] eqn:Hd; simpl; [|done].
    intros [= <-]. exists RvCall. eapply b_closes; [exact Hr|by apply emitted_exec_sound|by eapply b_deliver_exec_sound].
Qed.
Lemma b_run_reach env size xs S S' : b_run env size xs S = Some S' → b_reach env size S S'.
Proof.
  revert S. induction xs as [|x xs IH]; intros S; simpl; [intros [= <-]; apply rtc_refl|].
  destruct (b_exec env size x S) as [S1|] eqn:E; simpl; [|done]. case_decide; [|done]. intros Hr.
  eapply rtc_l; [split; [by eapply b_exec_sound|done]|by apply IH].
Qed.

(** * Executions *)

(** A channel of capacity two with two-byte elements, and calls on it. *)
Definition b_buffers : gmap ptr (list Z) :=
  {[100%nat := [1; 1]; 101%nat := [2; 2]; 102%nat := [3; 3]; 200%nat := [0; 0]; 201%nat := [0; 0]; 202%nat := [0; 0]]}.
Definition b_demo_run (xs : list b_choice) : option b_state :=
  S ← b_new default_env 1024 64 2 MODE_BLOCK false false TOPO_DEFAULT 2 b_buffers ∅; b_run default_env 2 xs S.
Definition t_send (k : nat) : bcaller := BCaller SendQ None (10 + k) (100 + k).
Definition f_recv (f k : nat) : bcaller := BCaller RecvQ (Some f) (20 + k) (200 + k).
Definition turns (i n : nat) : list b_choice := replicate n (XRun i []).
End run.
Abbreviation b_demo := (b_new default_env 1024 64 2 MODE_BLOCK false false TOPO_DEFAULT 2 b_buffers ∅).
