(* ===== verification/ChanBufSpec.v ===== *)
(** What notifying code does to the waiter lists: it links nobody, touches only
    nodes of one list, never delivers DATA, never takes a notification back, and
    does not drop a receiver that is still waiting.  [waking] states that for a
    piece of channel code; the hint database [waking] composes it.  Then what a
    turn of a blocking call does to the queue, to its own node and to everybody
    else's: [turned]. *)
From S2P Require Import Prelude ChanTypes WaitList WaitShape WaitQuiet WaitInv WaitOps WaitPop WaitWake WaitSteps Bytes Ring Chan ChanSpec ChanRv ChanRvFrame ChanBuf ChanTry ChanHandoff ChanRvSpec.

Local Open Scope Z_scope.


(** * Frames *)

Definition notifying : notify → Prop := λ k, k ≠ NOTIFY_DATA ∧ k ≠ NOTIFY_NONE.
Abbreviation calmn := (calm notifying).

Lemma calmn_cancel p : frame calmn (cc__chan_select_cancel_node p).
Proof. unfold cc__chan_select_cancel_node. frame_auto. Qed.
#[export] Hint Resolve calmn_cancel : frame.
Lemma calmn_pop : frame calmn cc__chan_pop_recv_waiter.
Proof.
  unfold cc__chan_pop_recv_waiter. apply frame_bind; [typeclasses eauto|frame_auto|intros fuel]. induction fuel as [|fuel IH]; simpl;
    unfold cc__chan_recv_wake_inflight_dec, cc__chan_recv_waiter_count_dec; frame_auto.
Qed.
Lemma calmn_close_loop sd fuel : frame calmn (wake_close_loop sd fuel).
Proof.
  induction fuel as [|fuel IH]; simpl; [frame_auto|]. destruct sd;
    unfold cc__chan_wake_one_send_waiter_close, cc__chan_wake_one_recv_waiter_close, cc__chan_recv_wake_inflight_dec, cc__chan_recv_waiter_count_dec;
    frame_auto.
Qed.
Lemma calmn_wake_send : frame calmn cc__chan_wake_one_send_waiter.
Proof.
  unfold cc__chan_wake_one_send_waiter. apply frame_bind; [typeclasses eauto|frame_auto|intros [h|]]; [|frame_auto].
  apply frame_bind; [typeclasses eauto|frame_auto|intros fuel]. induction fuel as [|fuel IH]; simpl; frame_auto.
Qed.
Lemma calmn_signal_one p : frame calmn (signal_one_recv p).
Proof. unfold signal_one_recv, cc__chan_recv_waiter_count_dec, cc__chan_recv_wake_inflight_inc. frame_auto. Qed.
Lemma calmn_pass env mx stop fuel o k : frame calmn (signal_recv_pass env mx stop fuel o k).
Proof.
  revert o k. pose proof calmn_signal_one. induction fuel as [|fuel IH]; intros o k; simpl; unfold cc__chan_recv_waiter_count_dec; frame_auto.
Qed.
Lemma calmn_signal env mx : frame calmn (cc__chan_signal_recv_waiters env mx).
Proof. unfold cc__chan_signal_recv_waiters. pose proof calmn_pass. frame_auto. Qed.

(** * Tickets

    Only adding a waiter publishes a ticket, for the fiber of its node. *)
Definition tinfo (n : cc__fiber_wait_node) := (wait_ticket n, select_index n).
Record tkr (e f : option ptr) x x' : Prop := {
  tk_info r : Some r ≠ e → tinfo <$> nodes x' !! r = tinfo <$> nodes x !! r;
  tk_tick g : Some g ≠ f → tickets x' !! g = tickets x !! g }.
#[export] Instance tkr_preorder e f : PreOrder (tkr e f).
Proof.
  split; [done|]. intros x y z [I1 T1] [I2 T2]. split; intros r Hr; [by rewrite I2, I1|by rewrite T2, T1].
Qed.
Lemma tkr_same e f x x' : nodes x' = nodes x → tickets x' = tickets x → tkr e f x x'.
Proof. intros Hn Ht. split; intros r _; [by rewrite Hn|by rewrite Ht]. Qed.
Section tickets.
Context (e f : option ptr).
Lemma tkr_load p : frame (tkr e f) (load p).
Proof. intros x a x'. unfold load. destruct (nodes x !! p); [|done]. by intros [= <- <-]. Qed.
Lemma tkr_store p g : (∀ n, tinfo (g n) = tinfo n) ∨ e = Some p → frame (tkr e f) (store p g).
Proof.
  intros Hg x a x'. unfold store. destruct (nodes x !! p) as [n|] eqn:Hp; [|done]. intros [= <- <-]. split; [|done].
  intros r Hr. simpl. destruct (decide (p = r)) as [->|Hne]; [|by rewrite lookup_insert_ne].
  rewrite lookup_insert_eq, Hp. simpl. destruct Hg as [->|?]; [done|congruence].
Qed.
Lemma tkr_upd_ch g : frame (tkr e f) (upd_ch g).
Proof. apply frame_modify. intros x. by apply tkr_same. Qed.
Lemma tkr_publish g : f = Some g → frame (tkr e f) (cc__fiber_publish_wait_ticket g).
Proof.
  intros -> x a x'. unfold cc__fiber_publish_wait_ticket. destruct (tickets x !! g); intros [= <- <-]; [|done].
  split; [done|]. intros r Hr. simpl. rewrite lookup_insert_ne; [done|congruence].
Qed.
End tickets.
#[export] Hint Resolve tkr_load tkr_upd_ch tkr_publish : frame.
#[export] Hint Extern 2 (frame (tkr _ _) (store _ _)) => apply tkr_store; first [by left|by right] : frame.
Lemma tkr_wakeable e f fuel o : frame (tkr e f) (cc__chan_has_wakeable_waiter fuel o).
Proof. revert o. induction fuel as [|fuel IH]; intros o; simpl; destruct o; frame_auto. Qed.
Lemma tkr_removes e f sd p : frame (tkr e f) (remove_waiter sd p).
Proof.
  pose proof tkr_wakeable. destruct sd; simpl; unfold cc__chan_remove_send_waiter, cc__chan_remove_recv_waiter, cc__chan_remove_waiter_list,
    cc__chan_refresh_has_send_waiters, cc__chan_recv_signal_hint_advance, cc__chan_recv_wake_inflight_dec, cc__chan_recv_waiter_count_dec, set_head, set_tail, set_q; frame_auto.
Qed.
Lemma tkr_adds sd p n x a x' : nodes x !! p = Some n → add_waiter sd p x = Some (a, x') → tkr (Some p) (fiber n) x x'.
Proof.
  intros Hn. assert (Hadd : ∀ u y, cc__chan_add_waiter sd p x = Some (u, y) → tkr (Some p) (fiber n) x y).
  { intros u y. unfold cc__chan_add_waiter. unfold mbind at 1, M_bind at 1. unfold load at 1. rewrite Hn.
    assert (Hf : frame (tkr (Some p) (fiber n)) ((match fiber n with
      | Some f => if decide (wait_ticket n = 0) then t ← cc__fiber_publish_wait_ticket f; store p (λ n, n <| wait_ticket := t |>) else mret tt
      | None => mret tt end);;
      store p (λ n, n <| next := None |>);;
      q ← gets (q_of sd);
      store p (λ n, n <| prev := wq_tail q |>);;
      (match wq_tail q with Some t => store t (λ n, n <| next := Some p |>) | None => set_head sd (Some p) end);;
      set_tail sd (Some p);;
      store p (λ n, n <| in_wait_list := true |>))).
    { unfold set_head, set_tail, set_q. destruct (fiber n) as [g|]; frame_auto. }
    apply Hf. }
  destruct sd; simpl; unfold cc__chan_add_send_waiter, cc__chan_add_recv_waiter, mbind at 1, M_bind at 1;
    (destruct (cc__chan_add_waiter _ p x) as [[u y]|] eqn:E; [|done]); intros H; (etrans; [by eapply Hadd|]).
  - revert H. apply tkr_upd_ch.
  - assert (Hf : frame (tkr (Some p) (fiber n)) (cc__chan_recv_waiter_count_inc;; h ← gets (λ s, recv_signal_hint (ch s));
      if is_none h then upd_ch (λ c, c <| recv_signal_hint := Some p |>) else mret tt))
      by (unfold cc__chan_recv_waiter_count_inc; frame_auto).
    exact (Hf _ _ _ H).
Qed.

(** * Evolution of the lists *)

(** [T]: the nodes that may be notified; [o]: a receiver taken off the list to be
    handed a value. *)
Record bev T (o : option ptr) x ls x' ls' : Prop := {
  be_inv : wq_inv x' ls';
  be_ls : shrinks ls ls';
  be_ev : evolve T x x';
  be_calm : calmn x x';
  be_keep q : q ∈ ls RecvQ → st x' q = Some NOTIFY_NONE → q ∈ ls' RecvQ ∨ o = Some q;
  be_send q : q ∈ ls' SendQ → st x' q = st x q }.

Lemma bev_refl T x ls : wq_inv x ls → bev T None x ls x ls.
Proof. intros Hi. split; [done|by intros ? ?|done|done|auto|done]. Qed.
Lemma calmn_none x x' q : calmn x x' → st x' q = Some NOTIFY_NONE → st x q = Some NOTIFY_NONE.
Proof. intros [_ _ S] Hq. destruct (S q) as [<-|(k & [_ ?] & ?)]; [done|congruence]. Qed.
Lemma bev_trans T o x1 x2 x3 l1 l2 l3 : bev T o x1 l1 x2 l2 → bev T None x2 l2 x3 l3 → bev T o x1 l1 x3 l3.
Proof.
  intros [_ L1 E1 C1 K1 N1] [I2 L2 E2 C2 K2 N2]. split; [done|intros sd q Hq; auto|by etrans|by etrans| |intros q Hq; rewrite N2 by done; auto].
  intros q Hq Hs. destruct (K1 q Hq) as [Hq'|?]; [by eapply calmn_none| |by right]. destruct (K2 q Hq' Hs) as [?|?]; [by left|done].
Qed.
Lemma bev_mono T T' o x ls x' ls' : T ⊆ T' → bev T o x ls x' ls' → bev T' o x ls x' ls'.
Proof. intros HT [? ? ? ? ? ?]. split; try done. by eapply evolve_mono. Qed.
Lemma bev_quiet T x x' ls : quiet x x' → scheduled x `prefix_of` scheduled x' → wq_inv x ls → bev T None x ls x' ls.
Proof.
  intros Hq Hs Hi. split; [by eapply quiet_inv|by intros ? ?|by apply evolve_quiet|by apply calm_quiet|auto|intros; by apply quiet_st].
Qed.
Lemma bev_ch T x x' ls : ch_only x x' → wq_inv x' ls → bev T None x ls x' ls.
Proof. intros Hc Hi. split; [done|by intros ? ?|by apply evolve_ch|by apply calm_same; apply Hc|auto|intros; by apply ch_only_st]. Qed.
(** Linked nodes off the notified part keep their notification. *)
Lemma evolve_linked T x ls x' sd q : wq_inv x ls → evolve T x x' → q ∈ ls sd → q ∉ T → st x' q = st x q.
Proof. intros Hi He Hq HT. destruct (shape_lookup _ _ _ _ (inv_shape _ _ Hi) Hq). eapply ev_st; eauto. Qed.
Lemma canceled_st x x' q : canceled x x' q → st x' q = Some NOTIFY_CANCEL.
Proof. intros (n & g & y & ? & ? & ? & ? & ? & ? & ?). done. Qed.
Lemma bev_pop x ls : wq_inv x ls →
  wp cc__chan_pop_recv_waiter (λ o x', ∃ ls', bev (ls RecvQ) o x ls x' ls' ∧
    ∀ p, o = Some p → p ∈ ls RecvQ ∧ (∀ sd, p ∉ ls' sd) ∧ st x' p = Some NOTIFY_NONE) x.
Proof.
  intros Hi. eapply wp_mono; [eapply wp_frame, pop_recv_waiter_spec, Hi; apply calmn_pop|]. cbv beta.
  intros o x' [(sk & l & Els & Hi' & He & Hpass & Ho) Hc]. exists (<[RecvQ := l]> ls).
  pose proof (inv_shape _ _ Hi) as Hsh. split; [split; [done| | |done| |]|].
  - intros [] q; [by rewrite fn_lookup_insert_ne|rewrite fn_lookup_insert, Els; set_solver].
  - eapply evolve_mono; [|done]. rewrite Els. set_solver.
  - intros q Hq Hs. rewrite fn_lookup_insert. rewrite Els, !elem_of_app in Hq. destruct Hq as [Hq|[Hq|Hq]]; [|right; destruct o; set_solver|by left].
    rewrite Forall_forall in Hpass. destruct (Hpass q Hq) as [(k & Hk & Hne)|Hcan].
    + pose proof (calmn_none _ _ _ Hc Hs). congruence.
    + apply canceled_st in Hcan. congruence.
  - intros q. rewrite fn_lookup_insert_ne by done. intros Hq. eapply (evolve_linked sk); [done|done|done|].
    intros Hin. assert (SendQ = RecvQ); [|done]. eapply (sh_disj _ _ Hsh); [done|]. rewrite Els. set_solver.
  - intros p ->. simpl in Els. destruct Ho as (n & Hn & Hno & _).
    pose proof (sh_nodup _ _ Hsh RecvQ) as Hnd. rewrite Els in Hnd. apply NoDup_app in Hnd as (_ & _ & [Hp _]%NoDup_cons).
    split_and!; [rewrite Els; set_solver| |unfold st; rewrite Hn; simpl; by rewrite Hno].
    intros []; [rewrite fn_lookup_insert_ne by done|by rewrite fn_lookup_insert]. intros Hin.
    assert (SendQ = RecvQ); [|done]. eapply (sh_disj _ _ Hsh); [done|]. rewrite Els. set_solver.
Qed.
Lemma bev_signal env mx x ls : env_recv_dedupe env = true → wq_inv x ls →
  wp (cc__chan_signal_recv_waiters env mx) (λ j x', bev (ls RecvQ) None x ls x' ls ∧ signal_recv_result ls mx j x x') x.
Proof.
  intros Hd Hi. eapply wp_mono; [eapply wp_frame, signal_recv_spec; [apply calmn_signal|done|done]|]. cbv beta.
  intros j x' [Hr Hc]. split; [|done]. destruct Hr as (Hi' & [He _ _] & _). split; [done|by intros ? ?|done|done|auto|].
  intros q Hq. eapply evolve_linked; [done|done|done|]. intros Hin.
  assert (SendQ = RecvQ); [|done]. eapply (sh_disj _ _ (inv_shape _ _ Hi)); done.
Qed.
Lemma bev_wake_send x ls : wq_inv x ls →
  wp cc__chan_wake_one_send_waiter (λ _ x', ∃ ls', bev (ls SendQ) None x ls x' ls') x.
Proof.
  intros Hi. eapply wp_mono; [eapply wp_frame, wake_one_send_spec, Hi; apply calmn_wake_send|]. cbv beta.
  intros _ x' [(sk & o & l & Els & Hi' & He & _) Hc]. exists (<[SendQ := l]> ls). split; [done| | |done| |].
  - intros [] q; [rewrite fn_lookup_insert, Els; set_solver|by rewrite fn_lookup_insert_ne].
  - eapply evolve_mono; [|done]. rewrite Els. set_solver.
  - intros q Hq _. rewrite fn_lookup_insert_ne by done. by left.
  - intros q. rewrite fn_lookup_insert. intros Hq. eapply (evolve_linked _ _ ls _ SendQ); [done|done|rewrite Els; set_solver|].
    pose proof (sh_nodup _ _ (inv_shape _ _ Hi) SendQ) as Hnd. rewrite Els, app_assoc in Hnd.
    apply NoDup_app in Hnd as (_ & Hd & _). intros Hin. by apply (Hd q).
Qed.
Lemma bev_close (tx : bool) x ls : wq_inv x ls →
  wp (if tx then cc__chan_wake_all_waiters else drain_send_waiters_close) (λ _ x', ∃ ls', bev (ls SendQ ++ ls RecvQ) None x ls x' ls') x.
Proof.
  intros Hi. destruct tx.
  - eapply wp_mono; [eapply (wp_frame calmn), wake_all_spec, Hi|].
    { unfold cc__chan_wake_all_waiters. pose proof calmn_close_loop. frame_auto. }
    cbv beta. intros _ x' [(Hi' & He & Hwk) Hc]. exists (λ _, []). split; [done|by intros ? ? ?%not_elem_of_nil|done|done| |by intros q ?%not_elem_of_nil].
    intros q Hq Hs. exfalso. destruct (Hwk _ _ Hq) as [(n & _ & ? & _)|Hcan%canceled_st]; congruence.
  - unfold drain_send_waiters_close. wp_go.
    eapply wp_mono; [eapply wp_frame, wake_close_loop_spec; [apply calmn_close_loop|done|apply shape_fuel, Hi]|].
    cbv beta. intros _ x' [(Hi' & He & _) Hc]. eexists. split; [exact Hi'| | |done| |].
    + intros [] q; [rewrite fn_lookup_insert; set_solver|by rewrite fn_lookup_insert_ne].
    + eapply evolve_mono; [|done]. set_solver.
    + intros q Hq _. rewrite fn_lookup_insert_ne by done. by left.
    + intros q. rewrite fn_lookup_insert. by intros ?%not_elem_of_nil.
Qed.

(** * Channel code that only notifies *)

Section waking.
Context `{!LfdsQueue}.
Implicit Types (s : ccchan).

(** [waking sd b m b']: [m] takes the mutex from [b] to [b'] and notifies nodes of
    the list [sd] only. *)
Definition keeps_waking {A} (sd : side) (m : W A) : Prop :=
  ∀ x ls, wq_inv x ls → wp m (λ _ x', ∃ ls', bev (ls sd) None x ls x' ls') x.
Definition waking {A} (sd : side) (b : bool) (m : C A) (b' : bool) : Prop :=
  ∀ s ls, mu_held s = b → wq_inv (w s) ls →
    wp m (λ _ s', same_queue s s' ∧ mu_held s' = b' ∧ ∃ ls', bev (ls sd) None (w s) ls (w s') ls') s.

Lemma kw_quiet {A} sd (m : W A) :
  (∀ x, batch_ok (batch x) → wp m (λ _ x', quiet x x' ∧ scheduled x `prefix_of` scheduled x') x) → keeps_waking sd m.
Proof.
  intros Hm x ls Hi. eapply wp_mono; [apply Hm, Hi|]. cbv beta. intros a x' [Hq Hs]. exists ls. by apply bev_quiet.
Qed.
Lemma kw_flush sd : keeps_waking sd wake_batch_flush.
Proof. apply kw_quiet. intros x Hb. eapply wp_mono; [by apply wake_batch_flush_spec|]. intros _ x' (? & _ & _ & _ & ->). done. Qed.
Lemma emit_scheduled e x : (∀ f d, e ≠ EvWake f d) → scheduled (x <| log ::= λ l, l ++ [e] |>) = scheduled x.
Proof. intros He. unfold scheduled. simpl. by rewrite wakes_snoc. Qed.
Lemma kw_emit sd e : (∀ f d, e ≠ EvWake f d) → keeps_waking sd (emit e).
Proof. intros He. apply kw_quiet. intros x _. unfold emit. wp_step. split; [apply emit_quiet|by rewrite emit_scheduled]. Qed.
Lemma kw_bind {A B} sd (m : W A) (f : A → W B) : keeps_waking sd m → (∀ a, keeps_waking sd (f a)) → keeps_waking sd (mbind f m).
Proof.
  intros Hm Hf x ls Hi. apply wp_bind. eapply wp_mono; [exact (Hm x ls Hi)|]. cbv beta. intros a x1 [l1 H1].
  eapply wp_mono; [exact (Hf a x1 l1 (be_inv _ _ _ _ _ _ H1))|]. cbv beta. intros b x2 [l2 H2]. exists l2.
  eapply bev_trans; [done|]. eapply bev_mono; [|done]. intros q. apply (be_ls _ _ _ _ _ _ H1).
Qed.
Lemma kw_ret {A} sd (a : A) : keeps_waking sd (mret a).
Proof. intros x ls Hi. wp_step. exists ls. by apply bev_refl. Qed.
Lemma kw_gets {A} sd (f : wstate → A) : keeps_waking sd (gets f).
Proof. intros x ls Hi. wp_step. exists ls. by apply bev_refl. Qed.
Lemma kw_activity sd : keeps_waking sd cc__chan_signal_activity.
Proof.
  unfold cc__chan_signal_activity, cc__chan_broadcast_activity. apply kw_bind; [apply kw_gets|]. intros n.
  case_decide; [apply kw_ret|by apply kw_emit].
Qed.
Lemma kw_ready sd : keeps_waking sd cc__chan_signal_recv_ready.
Proof.
  unfold cc__chan_signal_recv_ready. apply kw_bind; [apply kw_gets|]. intros o. apply kw_bind; [|intros _; apply kw_activity].
  destruct o; [by apply kw_emit|apply kw_ret].
Qed.
Lemma kw_wake_send : keeps_waking SendQ cc__chan_wake_one_send_waiter.
Proof. exact bev_wake_send. Qed.
Lemma kw_signals env mx : env_recv_dedupe env = true → keeps_waking RecvQ (cc__chan_signal_recv_waiters env mx).
Proof. intros Hd x ls Hi. eapply wp_mono; [by apply bev_signal|]. cbv beta. intros j x' [? _]. eauto. Qed.
Lemma kw_signal env : env_recv_dedupe env = true → keeps_waking RecvQ (cc__chan_signal_recv_waiter env).
Proof. intros Hd. apply kw_bind; [by apply kw_signals|intros; apply kw_ret]. Qed.

Lemma wk_liftw {A} sd b (m : W A) : keeps_waking sd m → waking sd b (liftw m) b.
Proof.
  intros Hk s ls Hm Hi. apply wp_liftw. eapply wp_mono; [exact (Hk (w s) ls Hi)|]. cbv beta. intros a x' Hx.
  split_and!; [by destruct s|done|done].
Qed.
Lemma wk_bind {A B} sd b1 b2 b3 (m : C A) (f : A → C B) :
  waking sd b1 m b2 → (∀ a, waking sd b2 (f a) b3) → waking sd b1 (mbind f m) b3.
Proof.
  intros Hm Hf s ls Hb Hi. apply wp_bind. eapply wp_mono; [exact (Hm s ls Hb Hi)|]. cbv beta.
  intros a s1 (Hsq & Hb1 & l1 & H1). eapply wp_mono; [exact (Hf a s1 l1 Hb1 (be_inv _ _ _ _ _ _ H1))|]. cbv beta.
  intros c s2 (Hsq2 & Hb2 & l2 & H2). split_and!; [by etrans|done|]. exists l2.
  eapply bev_trans; [done|]. eapply bev_mono; [|done]. intros q. apply (be_ls _ _ _ _ _ _ H1).
Qed.
Lemma wk_ret {A} sd b (a : A) : waking sd b (mret a) b.
Proof. intros s ls Hm Hi. wp_step. split_and!; [done|done|]. exists ls. by apply bev_refl. Qed.
Lemma wk_gets {A} sd b (f : ccchan → A) : waking sd b (gets f) b.
Proof. intros s ls Hm Hi. wp_step. split_and!; [done|done|]. exists ls. by apply bev_refl. Qed.
Lemma wk_lock sd : waking sd false cc_chan_lock true.
Proof. intros s ls Hm Hi. apply wp_lock; [done|]. split_and!; [by destruct s|done|]. exists ls. by apply bev_refl. Qed.
Lemma wk_unlock sd : waking sd true cc_chan_unlock false.
Proof. intros s ls Hm Hi. apply wp_unlock; [done|]. split_and!; [by destruct s|done|]. exists ls. by apply bev_refl. Qed.
Lemma wk_if {A} sd b b' (c : bool) (m m' : C A) : waking sd b m b' → waking sd b m' b' → waking sd b (if c then m else m') b'.
Proof. by destruct c. Qed.
Lemma wk_decide {A} sd b b' P `{!Decision P} (m m' : C A) :
  waking sd b m b' → waking sd b m' b' → waking sd b (if decide P then m else m') b'.
Proof. by destruct (decide P). Qed.
Lemma wk_when sd b (c : bool) (m : C unit) : waking sd b m b → waking sd b (when c m) b.
Proof. intros Hw. destruct c; simpl; [done|apply wk_ret]. Qed.
Lemma wk_cond sd b c : waking sd b (cond_signal c) b.
Proof. unfold cond_signal. by apply wk_liftw, kw_emit. Qed.
Lemma wk_poke sd b : waking sd b poke_recv_signal b.
Proof.
  unfold poke_recv_signal. eapply wk_bind; [apply wk_gets|]. intros [sg|]; [by apply wk_liftw, kw_emit|apply wk_ret].
Qed.
End waking.

Create HintDb waking.
#[export] Hint Resolve kw_flush kw_activity kw_ready kw_wake_send kw_signals kw_signal : waking.
#[export] Hint Resolve wk_liftw wk_ret wk_gets wk_lock wk_unlock wk_if wk_decide wk_when wk_cond wk_poke : waking.
#[export] Hint Extern 2 (waking _ _ (mbind _ _) _) => eapply wk_bind; [|intros ?] : waking.
Ltac waking_auto := eauto 30 with waking.

Section notifies.
Context `{!LfdsQueue} (env : chan_env) (Hdd : env_recv_dedupe env = true).

Lemma wk_post_enqueue held : waking RecvQ held (cc__chan_post_enqueue_notify env held) false.
Proof using Hdd. unfold cc__chan_post_enqueue_notify. destruct held; simpl; waking_auto. Qed.
Lemma wk_post_signal fw tw : waking RecvQ false (post_signal env fw tw) false.
Proof using Hdd. unfold post_signal. waking_auto. Qed.
Lemma wk_dekker_recv : waking RecvQ false (cc__chan_dekker_wake_recv_before_park env) false.
Proof using Hdd. unfold cc__chan_dekker_wake_recv_before_park. waking_auto. Qed.
Lemma wk_dekker_send : waking SendQ false cc__chan_dekker_wake_send_before_park false.
Proof. unfold cc__chan_dekker_wake_send_before_park. waking_auto. Qed.
Lemma wk_post_dequeue : waking SendQ false (cc__chan_post_dequeue_notify false) false.
Proof. unfold cc__chan_post_dequeue_notify. simpl. waking_auto. Qed.
End notifies.

Section spec.
Context `{!LfdsQueue}.
Implicit Types (s : ccchan) (x : wstate) (p : bpc) (c : bcaller) (ls : side → list ptr) (q : list (list Z)).

(** * Classes of program counters *)

(** The call's node may be on its list. *)
Definition linked_pc p : bool :=
  match p with
  | SProbe | SUnreg | SDekker | SDekkerWake | SPark | SWoken
  | RCount _ | RCountH _ _ | REarly | RLate | RCheck2 | RPre | RDekker | RDekkerWake | RPark | RWoken => true
  | _ => false
  end.
(** The node is off the list but will be linked again. *)
Definition probing p : bool := match p with RProbe | RReReg => true | _ => false end.
(** The call's value has gone through the queue. *)
Definition done_pc p : bool :=
  match p with
  | SPostF | SPostT _ | SPostI _ _ | SPostL _ _ | SNotify | SUnreg | RPost _ | RPostL _ | RNotify => true
  | _ => false
  end.
(** Turns that take the mutex. *)
Definition locks p : bool :=
  match p with
  | SHandoff | SPostL _ _ | SLock1 | SNotify | STop | SReg | SUnreg | SDekkerWake | SWoken
  | RLock1 | RLoopL | RLate | RPre | RReReg | RDekkerWake | RWoken | RAwake | RPostL _ | RNotify => true
  | _ => false
  end.
(** Program counters at which the call itself moves. *)
Definition runs p : bool :=
  match p with SPark | SSleep | RPark | RSleep | BHand _ | BTail _ | BRet _ => false | _ => true end.
Definition pc_side p : option side :=
  match p with
  | BHand _ | BTail _ | BRet _ => None
  | RFast | RMinDeq | RTry | RClosed | RLock1 | RLoopDeq | RLoopL | RCount _ | RCountH _ _ | REarly | RLate
  | RCheck2 | RPre | RProbe | RReReg | RDekker | RDekkerWake | RPark | RWoken | RSleep | RAwake
  | RPost _ | RPostL _ | RNotify | RDrain | RDrainPos _ | RDrainHead _ _ | RDrainLf | RDrain2 => Some RecvQ
  | _ => Some SendQ
  end.
Definition sided c p : Prop := ∀ sd, pc_side p = Some sd → sd = bdir c.

(** * Relations *)

(** The call's own node. *)
Definition own c x (n : cc__fiber_wait_node) : Prop :=
  nodes x !! bnode c = Some n ∧ core n = core (new_bnode c) ∧ cc__chan_waiter_ticket_valid n x = true.
Definition node_ok c p x ls : Prop :=
  if linked_pc p then (∃ n, own c x n) ∧ bnode c ∉ ls (other (bdir c))
  else (∀ sd, bnode c ∉ ls sd) ∧ (probing p = true → ∃ n, own c x n ∧ notified n = NOTIFY_NONE).
(** The call has been handed a value. *)
Definition handed c p x : Prop := bdir c = RecvQ ∧ linked_pc p = true ∧ st x (bnode c) = Some NOTIFY_DATA.

(** From [x] to [x']: others are notified at most, and nobody but the caller gets
    on a list; [o] is a receiver taken off the list to be handed a value. *)
Record bmoved (o : option ptr) c x ls x' ls' : Prop := {
  bm_inv : wq_inv x' ls';
  bm_ls sd r : r ≠ bnode c → r ∈ ls' sd → r ∈ ls sd;
  bm_mem d : d ≠ bvalue c → mem x' !! d = mem x !! d;
  bm_ident r : r ≠ bnode c → ident <$> nodes x' !! r = ident <$> nodes x !! r;
  bm_st r : r ≠ bnode c → st x' r = st x r ∨ (∃ sd, r ∈ ls sd) ∧ ∃ k, notifying k ∧ st x' r = Some k;
  bm_keep r : r ≠ bnode c → r ∈ ls RecvQ → st x' r = Some NOTIFY_NONE → r ∈ ls' RecvQ ∨ o = Some r;
  bm_send r : r ≠ bnode c → r ∈ ls' SendQ → st x' r = st x r;
  bm_tick f : bfiber c ≠ Some f → tickets x' !! f = tickets x !! f }.

Lemma bmoved_refl c x ls : wq_inv x ls → bmoved None c x ls x ls.
Proof. intros Hi. split; auto. Qed.
Lemma bmoved_trans o c x1 x2 x3 l1 l2 l3 : bmoved None c x1 l1 x2 l2 → bmoved o c x2 l2 x3 l3 → bmoved o c x1 l1 x3 l3.
Proof.
  intros [_ L1 M1 I1 S1 K1 N1 T1] [Hi L2 M2 I2 S2 K2 N2 T2]. split; [done|auto|intros d Hd; by rewrite M2, M1|intros r Hr; by rewrite I2, I1| | |intros r Hr Hin; rewrite N2 by done; auto|intros f Hf; by rewrite T2, T1].
  - intros r Hr. destruct (S2 r Hr) as [->|([sd Hin] & k & Hk & ?)]; [by apply S1|]. right. split; [exists sd; by apply L1|eauto].
  - intros r Hr Hin Hs. assert (st x2 r = Some NOTIFY_NONE) by (destruct (S2 r Hr) as [<-|(_ & k & [_ ?] & ?)]; [done|congruence]).
    destruct (K1 r Hr Hin) as [Hin2|?]; [done|eauto|done].
Qed.
(** Popping first and finishing with code that pops nothing. *)
Lemma bmoved_trans' o c x1 x2 x3 l1 l2 l3 : bmoved o c x1 l1 x2 l2 → bmoved None c x2 l2 x3 l3 → bmoved o c x1 l1 x3 l3.
Proof.
  intros [_ L1 M1 I1 S1 K1 N1 T1] [Hi L2 M2 I2 S2 K2 N2 T2]. split; [done|auto|intros d Hd; by rewrite M2, M1|intros r Hr; by rewrite I2, I1| | |intros r Hr Hin; rewrite N2 by done; auto|intros f Hf; by rewrite T2, T1].
  - intros r Hr. destruct (S2 r Hr) as [->|([sd Hin] & k & Hk & ?)]; [by apply S1|]. right. split; [exists sd; by apply L1|eauto].
  - intros r Hr Hin Hs. assert (st x2 r = Some NOTIFY_NONE) by (destruct (S2 r Hr) as [<-|(_ & k & [_ ?] & ?)]; [done|congruence]).
    destruct (K1 r Hr Hin) as [Hin2|?]; [done| |by right]. destruct (K2 r Hr Hin2 Hs) as [?|?]; [by left|done].
Qed.

Lemma bev_ident T o x ls x' ls' r : bev T o x ls x' ls' → ident <$> nodes x' !! r = ident <$> nodes x !! r.
Proof.
  intros [_ _ He Hc _ _]. destruct (nodes x !! r) as [n|] eqn:Hn.
  - destruct (ev_nodes _ _ _ He r n Hn) as (n' & -> & Hid & _). simpl. by rewrite Hid.
  - pose proof (cm_core _ _ _ Hc r) as Hr. rewrite Hn in Hr. by destruct (nodes x' !! r).
Qed.
Lemma bev_st T o x ls x' ls' r : bev T o x ls x' ls' → st x' r = st x r ∨ r ∈ T ∧ ∃ k, notifying k ∧ st x' r = Some k.
Proof.
  intros Hb. pose proof (bev_ident _ _ _ _ _ _ r Hb) as Hid. destruct Hb as [_ _ He Hc _ _]. destruct (decide (r ∈ T)) as [Hin|Hin].
  - destruct (cm_st _ _ _ Hc r) as [?|?]; auto.
  - left. destruct (nodes x !! r) as [n|] eqn:Hn; [eapply ev_st; eauto|]. unfold st. rewrite Hn. by destruct (nodes x' !! r).
Qed.
Lemma bev_moved T o c x ls x' ls' : bev T o x ls x' ls' → (∀ r, r ∈ T → ∃ sd, r ∈ ls sd) → bmoved o c x ls x' ls'.
Proof.
  intros Hb HT. pose proof Hb as [Hi L He Hc K N]. split; [done|auto|intros d _; by rewrite (cm_mem _ _ _ Hc)|intros r _; by eapply bev_ident| |auto|auto|].
  - intros r _. destruct (bev_st _ _ _ _ _ _ r Hb) as [?|[? ?]]; auto.
  - intros f _. by rewrite (ev_tickets _ _ _ He).
Qed.
(** The own node, off the notified list, stays as it is. *)
Lemma bev_own T o c x ls x' ls' : bev T o x ls x' ls' → bnode c ∉ T →
  st x' (bnode c) = st x (bnode c) ∧ ∀ n, own c x n → ∃ n', own c x' n' ∧ notified n' = notified n.
Proof.
  intros Hb Hin. split; [by destruct (bev_st _ _ _ _ _ _ (bnode c) Hb) as [?|[? _]]|]. intros n (Hn & Hc & Hv).
  destruct (ev_nodes _ _ _ (be_ev _ _ _ _ _ _ Hb) _ _ Hn) as (n' & Hn' & Hid & Hk). exists n'. split; [|auto].
  split; [done|]. split; [unfold ident in Hid; unfold core in *; congruence|].
  rewrite <- Hv. unfold cc__chan_waiter_ticket_valid, cc__fiber_wait_ticket_matches.
  rewrite (ev_tickets _ _ _ (be_ev _ _ _ _ _ _ Hb)). unfold ident in Hid. by injection Hid as -> -> _ _ _ _.
Qed.
Lemma node_ok_bev T o c p x ls x' ls' : bev T o x ls x' ls' → bnode c ∉ T → node_ok c p x ls → node_ok c p x' ls'.
Proof.
  intros Hb Hin. pose proof (be_ls _ _ _ _ _ _ Hb) as L. destruct (bev_own _ _ _ _ _ _ _ Hb Hin) as [_ Ho]. unfold node_ok.
  destruct (linked_pc p).
  - intros [[n Hn] Hs]. destruct (Ho n Hn) as (n' & ? & _). split; [eauto|]. intros ?. by apply Hs, L.
  - intros [Hs Hpr]. split; [intros sd ?; by apply (Hs sd), L|]. intros Hp. destruct (Hpr Hp) as (n & Hn & Hk).
    destruct (Ho n Hn) as (n' & ? & ?). exists n'. split; [done|congruence].
Qed.

(** * What a turn does *)

Definition kept_tail s s' : Prop := topo s ≠ TOPO_1_1 → ring_tail (rq s') = ring_tail (rq s).
Definition moved_through p (m : moves) : Prop := done_pc p = true ∨ m ≠ Nothing.
Record turned k c p s ls q p' (m : moves) s' ls' (o : option ptr) : Prop := {
  tn_moved : bmoved o c (w s) ls (w s') ls';
  tn_node : node_ok c p' (w s') ls';
  tn_sided : sided c p';
  tn_cfg : cfg s' = cfg s;
  tn_tail : match m with Nothing => rq s' = rq s | Put _ => tail_le s s' | Got _ => kept_tail s s' end;
  tn_lock : mu_held s' = match p' with BHand _ => true | _ => if locks p then false else mu_held s end;
  tn_queue : match m with
             | Nothing => rbuf_inv k s' q ∧ mem (w s') !! bvalue c = mem (w s) !! bvalue c
             | Put v => bdir c = SendQ ∧ done_pc p = false ∧ rbuf_inv k s' (q ++ [v]) ∧
                        mem (w s) !! bvalue c = Some v ∧ mem (w s') !! bvalue c = Some v
             | Got v => bdir c = RecvQ ∧ done_pc p = false ∧ linked_pc p = false ∧
                        ∃ q', q = v :: q' ∧ rbuf_inv k s' q' ∧ mem (w s') !! bvalue c = Some v
             end;
  tn_status : match p' with
              | BRet rc => rc = 0 ↔ moved_through p m ∨ handed c p (w s)
              | BHand r => bdir c = SendQ ∧ locks p = true ∧ ¬ moved_through p m ∧ ¬ handed c p (w s) ∧ o = Some r ∧
                           r ∈ ls RecvQ ∧ (∀ sd, r ∉ ls' sd) ∧ st (w s') r = Some NOTIFY_NONE
              | BTail _ => False
              | _ => (done_pc p' = true ↔ moved_through p m) ∧ (handed c p' (w s') ↔ handed c p (w s))
              end;
  tn_out : (∀ r, p' ≠ BHand r) → o = None;
  (** A call that is on a list has not been notified by itself, and does not get
      off or on one without the mutex. *)
  tn_own sd : bnode c ∈ ls' sd → st (w s') (bnode c) = Some NOTIFY_NONE ∨
    bnode c ∈ ls sd ∧ st (w s') (bnode c) = st (w s) (bnode c);
  tn_listed : bdir c = RecvQ → linked_pc p' = true → st (w s') (bnode c) = Some NOTIFY_NONE → bnode c ∈ ls' RecvQ ∨
    linked_pc p = true ∧ bnode c ∉ ls RecvQ ∧ st (w s) (bnode c) = Some NOTIFY_NONE;
  tn_stay : linked_pc p = true → locks p = false → handed c p (w s) ∨
    linked_pc p' = true ∧ st (w s') (bnode c) = st (w s) (bnode c) ∧ ∀ sd, bnode c ∈ ls' sd → bnode c ∈ ls sd }.
Definition turns_ok k env size c nc gd p s ls q : Prop :=
  wp (b_turn env size c nc gd p) (λ r s', ∃ ls' o, turned k c p s ls q r.1 r.2 s' ls' o) s.
End spec.
