(* ===== verification/ChanBufTurn.v ===== *)
(** Every turn of a blocking send or receive returns and does what [turned] says:
    the pieces turns are made of, then one program counter at a time. *)
From S2P Require Import Prelude ChanTypes WaitList WaitShape WaitQuiet WaitInv WaitOps WaitPop WaitWake WaitSteps Bytes Ring Chan ChanSpec ChanTry ChanHandoff ChanRv ChanRvFrame ChanRvSpec ChanBuf ChanBufSpec.

Local Open Scope Z_scope.

Section turn.
Context `{!LfdsQueue}.
Implicit Types (s : ccchan) (x : wstate) (p : bpc) (c : bcaller) (ls : side → list ptr) (q : list (list Z)).

(** * The call's own node *)

Lemma ident_of (a b : option cc__fiber_wait_node) : core <$> a = core <$> b → tinfo <$> a = tinfo <$> b → ident <$> a = ident <$> b.
Proof.
  intros Hc Ht. destruct a as [n|], b as [n'|]; simpl in *; try done. unfold core, tinfo, ident in *. congruence.
Qed.
Lemma own_add c x ls n : wq_inv x ls → can_enlist (bnode c) n x ls → notified n = NOTIFY_NONE → core n = core (new_bnode c) →
  wp (add_waiter (bdir c) (bnode c)) (λ _ x', bmoved None c x ls x' (<[bdir c := ls (bdir c) ++ [bnode c]]> ls) ∧
    (∃ n', own c x' n') ∧ st x' (bnode c) = Some NOTIFY_NONE ∧ mem x' = mem x) x.
Proof.
  intros Hi Hcan Hno Hcore. pose proof Hcan as (Hn & Hout & _).
  destruct (add_still (bdir c) (bnode c) n x ls Hi Hcan Hno) as (u & x' & Hrun & Hc & Hi'). exists u, x'. split; [done|].
  pose proof (tkr_adds _ _ _ _ _ _ Hn Hrun) as [Ti Tt].
  assert (Hst : ∀ r, st x' r = st x r) by (intros r; by apply kept_st).
  split_and!; [|pose proof (cm_core _ _ _ Hc (bnode c)) as Hcc; rewrite Hn in Hcc; destruct (nodes x' !! bnode c) as [n'|] eqn:Hn'; [|done]|
    rewrite Hst; unfold st; rewrite Hn; simpl; by rewrite Hno|apply Hc].
  - split; [done| |intros d _; by rewrite (cm_mem _ _ _ Hc)| |intros r _; by left| |intros r _ _; apply Hst|].
    + intros sd r Hr. destruct (decide (sd = bdir c)) as [->|Hne]; [rewrite fn_lookup_insert; set_solver|by rewrite fn_lookup_insert_ne].
    + intros r Hr. apply ident_of; [apply Hc|]. apply Ti. congruence.
    + intros r Hr Hin _. left. destruct (decide (bdir c = RecvQ)) as [Hd|Hd]; [rewrite Hd, fn_lookup_insert; set_solver|by rewrite fn_lookup_insert_ne].
    + intros f Hf. apply Tt. unfold core, new_bnode in Hcore. simpl in Hcore. congruence.
  - exists n'. split; [done|]. split; [simpl in Hcc; congruence|].
    eapply (sh_ticket _ _ (inv_shape _ _ Hi') (bdir c)); [|done]. rewrite fn_lookup_insert. set_solver.
Qed.
Lemma own_remove c x ls n : wq_inv x ls → own c x n → bnode c ∉ ls (other (bdir c)) →
  wp (remove_waiter (bdir c) (bnode c)) (λ _ x', ∃ ls', bmoved None c x ls x' ls' ∧ (∃ n', own c x' n' ∧ notified n' = notified n) ∧
    (∀ sd, bnode c ∉ ls' sd) ∧ mem x' = mem x) x.
Proof.
  intros Hi (Hn & Hcore & Hv) Hout.
  assert (Hw : wp (remove_waiter (bdir c) (bnode c)) (λ _ x', wq_inv x' (drop_node (bnode c) ls)) x)
    by (destruct (bdir c); [by eapply remove_send_waiter_spec|by eapply remove_recv_waiter_spec]).
  eapply wp_mono; [eapply wp_frame, wp_frame, Hw; [apply (tkr_removes None None)|apply calm_removes]|]. cbv beta.
  intros _ x' [[Hi' Hc] [Ti Tt]]. exists (drop_node (bnode c) ls).
  assert (Hst : ∀ r, st x' r = st x r) by (intros r; by apply kept_st).
  assert (Hid : ∀ r, ident <$> nodes x' !! r = ident <$> nodes x !! r) by (intros r; apply ident_of; [apply Hc|by apply Ti]).
  split_and!; [|pose proof (Hid (bnode c)) as Hio; rewrite Hn in Hio; destruct (nodes x' !! bnode c) as [n'|] eqn:Hn'; [|done]| |apply Hc].
  - split; [done| |intros d _; by rewrite (cm_mem _ _ _ Hc)|auto|intros r _; by left| |intros r _ _; apply Hst|intros f _; by apply Tt].
    + intros sd r _ [_ ?]%list_elem_of_filter. done.
    + intros r Hr Hin _. left. by apply list_elem_of_filter.
  - exists n'. simpl in Hio. split; [split; [done|split]|].
    + unfold ident, core in *. congruence.
    + rewrite <- Hv. unfold cc__chan_waiter_ticket_valid, cc__fiber_wait_ticket_matches. unfold ident in Hio. injection Hio as -> -> _ _ _ _.
      destruct (fiber n); [|done]. by rewrite Tt.
    + pose proof (Hst (bnode c)) as Hs. unfold st in Hs. rewrite Hn, Hn' in Hs. simpl in Hs. congruence.
  - by intros sd [? _]%list_elem_of_filter.
Qed.
(** Writing an unlinked own node: its notification, or the whole node. *)
Lemma own_write c x ls n' : wq_inv x ls → (∀ sd, bnode c ∉ ls sd) → in_wait_list n' = false → select_group n' = None →
  bmoved None c x ls (x <| nodes := <[bnode c := n']> (nodes x) |>) ls.
Proof.
  intros Hi Hout Hf Hg. pose proof (inv_shape _ _ Hi) as Hsh.
  assert (Hst : ∀ r, r ≠ bnode c → st (x <| nodes := <[bnode c := n']> (nodes x) |>) r = st x r)
    by (intros r Hr; unfold st; simpl; by rewrite lookup_insert_ne).
  split; [|auto|done|intros r Hr; simpl; by rewrite lookup_insert_ne|intros r Hr; left; auto|auto|auto|done].
  apply unlinked_nodes_inv; [done|..].
  - intros sd r Hr. rewrite lookup_insert_ne; [done|]. intros <-. by apply (Hout sd).
  - intros r m Hm Hw. destruct (decide (bnode c = r)) as [<-|]; simplify_map_eq; congruence.
  - intros r m g Hm Hmg. destruct (decide (bnode c = r)) as [<-|]; simplify_map_eq. by eapply Hsh.
Qed.
Lemma own_notify c x ls n k : wq_inv x ls → own c x n → (∀ sd, bnode c ∉ ls sd) →
  let x' := x <| nodes := <[bnode c := n <| notified := k |>]> (nodes x) |> in
  bmoved None c x ls x' ls ∧ own c x' (n <| notified := k |>).
Proof.
  intros Hi (Hn & Hc & Hv) Hout x'. split.
  - apply own_write; [done|done| |].
    + simpl. destruct (in_wait_list n) eqn:E; [|done]. apply (sh_flag _ _ (inv_shape _ _ Hi) _ _ Hn) in E as [sd Hin]. by destruct (Hout sd).
    + simpl. unfold core, new_bnode in Hc. simpl in Hc. congruence.
  - split; [simpl; by rewrite lookup_insert_eq|]. split; [done|]. rewrite <- Hv. done.
Qed.

(** * Before a turn *)

Definition send_none x ls : Prop := ∀ r, r ∈ ls SendQ → st x r = Some NOTIFY_NONE.
Record bready k size c p s ls q : Prop := {
  br_inv : wq_inv (w s) ls;
  br_data : data_unlinked (w s) ls;
  br_send : send_none (w s) ls;
  br_queue : rbuf_inv k s q;
  br_size : elem_size s = size;
  br_room : room k s;
  br_codes : codes_ok s;
  br_mem : ∃ v, mem (w s) !! bvalue c = Some v ∧ length v = size;
  br_fiber sd r m f : r ∈ ls sd → r ≠ bnode c → nodes (w s) !! r = Some m → bfiber c = Some f → fiber m ≠ Some f;
  br_node : node_ok c p (w s) ls;
  br_sided : sided c p;
  br_lock : locks p = true → mu_held s = false }.

Lemma rbuf_same k s s' q : same_queue s s' → rbuf_inv k s q → rbuf_inv k s' q.
Proof. intros ->. by intros []; split. Qed.
Lemma same_queue_tail s s' : same_queue s s' → rq s' = rq s.
Proof. intros Hs. by rewrite Hs. Qed.

(** The status of an ordinary turn that moves nothing. *)
Definition plain p p' : Prop :=
  done_pc p' = done_pc p ∧ linked_pc p' = linked_pc p ∧ probing p' = probing p ∧
  match p' with BRet _ | BHand _ | BTail _ => False | _ => True end.
Lemma plain_status k c p p' s ls q s' ls' : plain p p' → bmoved None c (w s) ls (w s') ls' → node_ok c p' (w s') ls' → sided c p' →
  cfg s' = cfg s → rq s' = rq s → mu_held s' = (if locks p then false else mu_held s) → rbuf_inv k s' q →
  mem (w s') !! bvalue c = mem (w s) !! bvalue c → st (w s') (bnode c) = st (w s) (bnode c) →
  (∀ sd, bnode c ∈ ls' sd → bnode c ∈ ls sd) → (bnode c ∈ ls RecvQ → st (w s') (bnode c) = Some NOTIFY_NONE → bnode c ∈ ls' RecvQ) →
  turned k c p s ls q p' Nothing s' ls' None.
Proof.
  intros (Hd & Hl & _ & Hp) Hm Hn Hs Hc Ht Hmu Hq Hmem Hst Hls Hkeep. split; try done; [by destruct p'| |auto| |intros ? _; right; split_and!; [congruence|done|done]].
  2: { intros _ Hl' Hno. destruct (decide (bnode c ∈ ls RecvQ)); [left; auto|right]. split_and!; congruence. }
  assert (Hg : (done_pc p' = true ↔ moved_through p Nothing) ∧ (handed c p' (w s') ↔ handed c p (w s)))
    by (unfold moved_through, handed; rewrite Hd, Hl, Hst; naive_solver).
  destruct p'; done.
Qed.
Lemma node_ok_plain c p p' x ls : linked_pc p' = linked_pc p → probing p' = probing p → node_ok c p x ls → node_ok c p' x ls.
Proof. unfold node_ok. by intros -> ->. Qed.

(** On a ring the minimal variants do what the guarded ones do. *)
Lemma queue_enqueue_ring v s b s' : use_ring_queue s = true → cc__queue_enqueue_value v s = Some (b, s') → use_ring_queue s' = true.
Proof.
  intros Hr. unfold cc__queue_enqueue_value, mbind, M_bind, gets. simpl. rewrite Hr. unfold liftr.
  destruct (ring_enqueue_value _ _ _) as [[? ?]|]; [|done]. by intros [= _ <-].
Qed.
Lemma enqueue_minimal_eq k v s q : rbuf_inv k s q → cc__chan_enqueue_lockfree_minimal v s = cc__chan_try_enqueue_lockfree_impl v s.
Proof.
  intros [Hlf Hr Hal Hcap Hes _]. unfold cc__chan_enqueue_lockfree_minimal, cc__chan_try_enqueue_lockfree_impl, mbind, M_bind, gets. simpl.
  rewrite Hlf, Hr, Hal, bool_decide_eq_false_2 by lia. simpl.
  destruct (cc__queue_enqueue_value v s) as [[b s']|] eqn:E; [|done]. pose proof (queue_enqueue_ring _ _ _ _ Hr E) as Hr'.
  destruct b; simpl; by rewrite ?Hr'.
Qed.
Lemma dequeue_minimal_eq k s q : rbuf_inv k s q → cc__chan_dequeue_lockfree_minimal s = cc_chan_try_dequeue_lockfree s.
Proof.
  intros [Hlf Hr Hal Hcap Hes _]. unfold cc__chan_dequeue_lockfree_minimal, cc_chan_try_dequeue_lockfree, mbind, M_bind, gets. simpl.
  rewrite Hlf, Hr, Hal, bool_decide_eq_false_2 by lia. simpl.
  destruct (cc__queue_dequeue_value s) as [[o s']|] eqn:E; [|done]. destruct o as [v|]; [|done].
  assert (use_ring_queue s' = true) as ->; [|done]. revert E. unfold cc__queue_dequeue_value, mbind, M_bind, gets. simpl. rewrite Hr. unfold liftr.
  destruct (ring_dequeue_value _ _) as [[? ?]|]; [|done]. by intros [= _ <-].
Qed.

(** Dequeuing leaves the tail alone. *)
Lemma set_cell_tail r r' : (∀ i z, set_cell_seq r i z = Some r' → ring_tail r' = ring_tail r) ∧ (∀ i z, set_cell_value r i z = Some r' → ring_tail r' = ring_tail r).
Proof. unfold set_cell_seq, set_cell_value. split; intros i z; destruct (ring_cells r !! i); simpl; try done; by intros [= <-]. Qed.
Lemma mpmc_read_tail r pos v r' : mpmc_read r pos = Some (v, r') → ring_tail r' = ring_tail r.
Proof.
  unfold mpmc_read. case_decide.
  - destruct (ring_cells r !! _) as [[? []]|]; simpl; try done. destruct (cc__chan_unpack_value _ _); simpl; [|done]. by intros [= _ <-].
  - destruct (channel_load_slot _ _ _); simpl; [|done]. destruct (set_cell_value _ _ _) as [r1|] eqn:E; simpl; [|done].
    intros [= _ <-]. by apply set_cell_tail in E.
Qed.
Lemma mpmc_dequeue_tail fuel pos r o r' : mpmc_dequeue fuel pos r = Some (o, r') → ring_tail r' = ring_tail r.
Proof.
  revert pos. induction fuel as [|fuel IH]; intros pos; cbn [mpmc_dequeue]; [done|]. destruct (ring_cells r !! _); simpl; [|done].
  destruct (sub_intptr _ _); simpl; [|done]. case_decide; [case_decide|case_decide]; [|apply IH|by intros [= _ <-]|apply IH].
  destruct (mpmc_read _ _) as [[v r1]|] eqn:Er; simpl; [|done]. destruct (set_cell_seq _ _ _) as [r2|] eqn:Es; simpl; [|done].
  intros [= _ <-]. apply set_cell_tail in Es. apply mpmc_read_tail in Er. by rewrite Es, Er.
Qed.
Lemma dequeue_tail s o s' : use_ring_queue s = true → cc_chan_try_dequeue_lockfree s = Some (o, s') → topo s ≠ TOPO_1_1 →
  ring_tail (rq s') = ring_tail (rq s).
Proof.
  intros Hr Hrun Ht. revert Hrun. unfold cc_chan_try_dequeue_lockfree, cc__queue_dequeue_value, mbind, M_bind, gets. simpl.
  destruct (negb (use_lockfree s) || _ || _); [by intros [= _ <-]|].
  rewrite Hr. simpl. rewrite Hr. unfold liftr, ring_dequeue_value. rewrite decide_False by done.
  destruct (mpmc_dequeue _ _ _) as [[o1 r1]|] eqn:E; [|done]. apply mpmc_dequeue_tail in E. destruct o1; simpl; by intros [= _ <-].
Qed.

Section turns.
Context (env : chan_env) (Hdd : env_recv_dedupe env = true) (k : Z) (size : nat) (c : bcaller) (nc gd : bool).
Context (p : bpc) (s : ccchan) (ls : side → list ptr) (q : list (list Z)) (Hrd : bready k size c p s ls q).
Local Abbreviation good := (λ (r : bpc * moves) (s' : ccchan), ∃ ls' o, turned k c p s ls q r.1 r.2 s' ls' o).

(** ** Reading *)

Lemma go_read p' : locks p = false → plain p p' → sided c p' → good (p', Nothing) s.
Proof using Hrd.
  intros Hl Hp Hs. destruct Hrd. exists ls, None. apply plain_status; try done; [by apply bmoved_refl| |by rewrite Hl].
  destruct Hp as (_ & ? & ? & _). by eapply node_ok_plain.
Qed.
Lemma go_return rc : locks p = false → (linked_pc p = true → handed c p (w s)) → (∀ sd, bnode c ∉ ls sd) → (rc = 0 ↔ done_pc p = true ∨ handed c p (w s)) → good (BRet rc, Nothing) s.
Proof using Hrd.
  intros Hl Hlk Hout Hrc. destruct Hrd. exists ls, None. split; simpl; try done; [by apply bmoved_refl|by rewrite Hl| | |by left; auto].
  - rewrite Hrc. unfold moved_through. naive_solver.
  - by intros sd ?%Hout.
Qed.

(** ** Notifying *)

Lemma own_other : bnode c ∉ ls (other (bdir c)).
Proof using Hrd. pose proof (br_node _ _ _ _ _ _ _ Hrd) as Hn. unfold node_ok in Hn. destruct (linked_pc p); destruct Hn; auto. Qed.
Lemma waking_good {A} (m : C A) b' p' (r : A → C (bpc * moves)) :
  waking (other (bdir c)) (mu_held s) m b' → b' = (if locks p then false else mu_held s) →
  sided c p' → probing p' = probing p → (plain p p' ∨ p' = BRet 0 ∧ linked_pc p = false ∧ done_pc p = true) →
  (∀ a s', r a s' = Some ((p', Nothing), s')) → wp (mbind r m) good s.
Proof using Hrd.
  intros Hw -> Hs Hpr Hp Hr. pose proof own_other as Ho. destruct Hrd as [Hi Hdu Hsn Hq Hsz Hroom Hcodes Hmem Hfib Hnode Hsd Hlk].
  apply wp_bind. eapply wp_mono; [exact (Hw s ls eq_refl Hi)|]. cbv beta. intros a s' (Hsq & Hmu & ls' & Hb).
  exists (p', Nothing), s'. split; [apply Hr|]. exists ls', None. simpl.
  pose proof (bev_moved _ _ c _ _ _ _ Hb ltac:(eauto)) as Hmv. destruct (bev_own _ _ _ _ _ _ _ Hb Ho) as [Hst _].
  pose proof (cm_mem _ _ _ (be_calm _ _ _ _ _ _ Hb)) as Hme.
  destruct Hp as [Hp|(-> & Hl & Hd)].
  - apply plain_status; try done; [|by apply same_queue_cfg|by apply same_queue_tail|by eapply rbuf_same|by rewrite Hme|intros sd; by apply (be_ls _ _ _ _ _ _ Hb)|].
    2: { intros Hin Hno. by destruct (be_keep _ _ _ _ _ _ Hb _ Hin Hno). }
    eapply node_ok_bev; [done|done|]. destruct Hp as (_ & ? & ? & _). by eapply node_ok_plain.
  - split; simpl; try done; [|by apply same_queue_cfg|by apply same_queue_tail|split; [by eapply rbuf_same|by rewrite Hme]|unfold moved_through; naive_solver| |congruence].
    2: { intros sd Hin%(be_ls _ _ _ _ _ _ Hb). unfold node_ok in Hnode. rewrite Hl in Hnode. by apply Hnode in Hin. }
    eapply node_ok_bev; [done|done|]. unfold node_ok in *. rewrite Hl in Hnode. simpl. destruct Hnode. done.
Qed.

(** ** The queue *)

Definition enqueued (v : list Z) (rc : Z) s' : Prop :=
  cfg s' = cfg s ∧ w s' = w s ∧ mu_held s' = mu_held s ∧ tail_le s s' ∧
  (rc = 0 ∧ rbuf_inv k s' (q ++ [v]) ∨ rc ≠ 0 ∧ s' = s).
Lemma enqueue_wp v : length v = size → wp (cc__chan_try_enqueue_lockfree_impl v) (enqueued v) s.
Proof using Hrd.
  intros Hv. destruct Hrd. eapply wp_mono; [apply (enqueue_rbuf k s q v); [done|congruence|done]|]. cbv beta.
  intros rc s' (? & ? & ? & ? & Hx). split_and!; try done. case_decide; destruct Hx as [-> ?]; auto.
Qed.
Lemma minimal_wp v : length v = size → wp (cc__chan_enqueue_lockfree_minimal v) (enqueued v) s.
Proof using Hrd.
  intros Hv. destruct (enqueue_wp v Hv) as (rc & s' & Hr & ?). exists rc, s'. split; [|done].
  rewrite <- Hr. eapply enqueue_minimal_eq, Hrd.
Qed.
Lemma value_wp (Q : list Z → ccchan → Prop) : (∀ v, mem (w s) !! bvalue c = Some v → length v = size → Q v s) → wp (value_of c) Q s.
Proof using Hrd.
  intros HQ. destruct (br_mem _ _ _ _ _ _ _ Hrd) as (v & Hv & Hl). unfold value_of. apply wp_liftw. exists v, (w s). split; [unfold load_mem; by rewrite Hv|].
  replace (s <| w := w s |>) with s by by destruct s. by apply HQ.
Qed.
Lemma put_good v p' s' : mem (w s) !! bvalue c = Some v → enqueued v 0 s' → bdir c = SendQ → locks p = false → done_pc p = false → done_pc p' = true →
  linked_pc p' = linked_pc p → probing p' = probing p → sided c p' → good (p', Put v) s'.
Proof using Hrd.
  intros Hv (Hcfg & Hw & Hmu & Htl & [[_ Hq']|[? _]]) Hd Hl Hdp Hdp' Hlp Hpp Hs; [|done]. destruct Hrd. exists ls, None. simpl.
  split; simpl; rewrite ?Hw; try done; [by apply bmoved_refl|by eapply node_ok_plain| | |by right|congruence|intros ? _; right; split; [congruence|done]].
  - rewrite Hl. by destruct p'.
  - assert (Hg : (done_pc p' = true ↔ moved_through p (Put v)) ∧ (handed c p' (w s) ↔ handed c p (w s)))
      by (unfold moved_through, handed; rewrite Hd; naive_solver).
    destruct p'; done.
Qed.
Lemma try_put_good ok fail : bdir c = SendQ → locks p = false → done_pc p = false → done_pc ok = true →
  linked_pc ok = linked_pc p → probing ok = probing p → sided c ok → good (fail, Nothing) s → wp (try_put c ok fail) good s.
Proof using Hrd.
  intros Hd Hl Hdp Hok Hlp Hpp Hs Hf. unfold try_put. apply wp_bind, value_wp. intros v Hv Hlen.
  apply wp_bind. eapply wp_mono; [by apply enqueue_wp|]. intros rc s' He. cbv beta.
  apply wp_bind. eapply wp_mono; [apply inflight_ring_dec|].
  { destruct He as (_ & _ & _ & _ & [[_ Hq']|[_ ->]]); [apply Hq'|apply Hrd]. }
  intros _ s1 ->. cbv beta. case_decide as Hrc.
  - subst rc. apply wp_ret. by apply (put_good v ok s').
  - destruct He as (_ & _ & _ & _ & [[? _]|[_ ->]]); [done|]. unfold go_to. by apply wp_ret.
Qed.

Definition dequeued (o : option (list Z)) s' : Prop :=
  cfg s' = cfg s ∧ w s' = w s ∧ mu_held s' = mu_held s ∧ kept_tail s s' ∧
  (o = None ∧ s' = s ∧ q = [] ∨ ∃ v q', q = v :: q' ∧ o = Some v ∧ rbuf_inv k s' q').
Lemma dequeue_wp : wp cc_chan_try_dequeue_lockfree dequeued s.
Proof using Hrd.
  destruct (dequeue_rbuf k s q) as (o & s' & Hrun & ? & ? & ? & ? & Hx); [apply Hrd|]. exists o, s'. split; [done|]. split_and!; try done.
  { intros Ht. eapply dequeue_tail; [apply (rb_ring k s q), Hrd|done|done]. }
  destruct q as [|v q']; destruct Hx as [-> ?]; eauto 10.
Qed.
Lemma dequeue_minimal_wp : wp cc__chan_dequeue_lockfree_minimal dequeued s.
Proof using Hrd.
  destruct dequeue_wp as (o & s' & Hr & ?). exists o, s'. split; [|done]. rewrite <- Hr. eapply dequeue_minimal_eq, Hrd.
Qed.
(** Taking the first element [v]. *)
Lemma got_good v q' p' s' : q = v :: q' → cfg s' = cfg s → w s' = w s → mu_held s' = mu_held s → kept_tail s s' → rbuf_inv k s' q' →
  bdir c = RecvQ → locks p = false → done_pc p = false → linked_pc p = false → linked_pc p' = false → probing p' = false → sided c p' →
  match p' with BRet rc => rc = 0 | BHand _ | BTail _ => False | _ => done_pc p' = true end →
  wp (take_to p' c v) good s'.
Proof using Hrd.
  intros Hqv Hcfg Hw Hmu Htl Hq' Hd Hl Hdp Hlp Hlp' Hpp' Hs Hp'. unfold take_to. apply wp_bind, wp_liftw, wp_modify, wp_ret. cbv beta.
  destruct Hrd as [Hi Hdu Hsn Hq Hsz Hroom Hcodes Hmem Hfib Hnode Hsd Hlk]. exists ls, None. rewrite Hw. simpl.
  assert (Hmv : bmoved None c (w s) ls ((w s) <| mem := <[bvalue c := v]> (mem (w s)) |>) ls).
  { split; simpl; auto; [by apply mem_inv|]. intros d Hne. by rewrite lookup_insert_ne. }
  assert (Hhd : ¬ handed c p (w s)) by (unfold handed; rewrite Hlp; naive_solver).
  assert (Hgo : moved_through p (Got v)) by by right.
  split; simpl; try done.
  - unfold node_ok in *. rewrite Hlp in Hnode. rewrite Hlp', Hpp'. destruct Hnode. done.
  - rewrite Hl. destruct p'; try done.
  - split_and!; try done. exists q'. split_and!; [done| |by rewrite lookup_insert_eq]. by destruct Hq'.
  - assert (Hg : (done_pc p' = true → (done_pc p' = true ↔ moved_through p (Got v)) ∧
      (handed c p' ((w s) <| mem := <[bvalue c := v]> (mem (w s)) |>) ↔ handed c p (w s)))).
    { intros. split; [by split|]. unfold handed at 1. rewrite Hlp'. split; [by intros (_ & ? & _)|by intros ?%Hhd]. }
    destruct p'; try exact (Hg Hp'); try done. split; [by left|done].
  - intros sd Hin. unfold node_ok in Hnode. rewrite Hlp in Hnode. by apply Hnode in Hin.
  - congruence.
  - congruence.
Qed.
Lemma try_take_good ok fail : bdir c = RecvQ → locks p = false → done_pc p = false → linked_pc p = false →
  linked_pc ok = false → probing ok = false → sided c ok →
  match ok with BRet rc => rc = 0 | BHand _ | BTail _ => False | _ => done_pc ok = true end →
  good (fail, Nothing) s → wp (try_take c ok fail) good s.
Proof using Hrd.
  intros Hd Hl Hdp Hlp Hlo Hpo Hs Hok Hf. unfold try_take. apply wp_bind. eapply wp_mono; [apply dequeue_minimal_wp|]. cbv beta.
  intros o s' (Hcfg & Hw & Hmu & Htl & [(-> & -> & _)|(v & q' & Eq & -> & Hq)]).
  - unfold go_to. by apply wp_ret.
  - by eapply got_good.
Qed.
Lemma drain_take_good (fail : ccchan → bpc) : bdir c = RecvQ → locks p = false → done_pc p = false → linked_pc p = false →
  good (fail s, Nothing) s → wp (drain_take c fail) good s.
Proof using Hrd.
  intros Hd Hl Hdp Hlp Hf. unfold drain_take. apply wp_bind. eapply wp_mono; [apply dequeue_wp|]. cbv beta.
  intros o s' (Hcfg & Hw & Hmu & Htl & [(-> & -> & _)|(v & q' & Eq & -> & Hq)]).
  - wp_go. unfold go_to. by apply wp_ret.
  - by eapply got_good.
Qed.

(** ** Critical sections *)

(** Inside the section: the mutex is held and nothing but lists and notifications
    has changed. *)
Record inside s1 l1 : Prop := {
  in_queue : same_queue s s1;
  in_lock : mu_held s1 = true;
  in_moved : bmoved None c (w s) ls (w s1) l1;
  in_mem : mem (w s1) = mem (w s) }.
Lemma enter_section (Q : unit → ccchan → Prop) : locks p = true →
  (∀ s1, w s1 = w s → inside s1 ls → cfg s1 = cfg s → rbuf_inv k s1 q → Q tt s1) → wp cc_chan_lock Q s.
Proof using Hrd.
  intros Hl HQ. destruct Hrd. apply wp_lock; [auto|]. apply HQ; [done| |done|].
  - split; simpl; [by destruct s|done|by apply bmoved_refl|done].
  - eapply rbuf_same; [|done]. by destruct s.
Qed.
Definition leaves p' x1 : Prop :=
  match p' with
  | BRet rc => rc = 0 ↔ done_pc p = true ∨ handed c p (w s)
  | BHand _ | BTail _ => False
  | _ => done_pc p' = done_pc p ∧ (handed c p' x1 ↔ handed c p (w s))
  end.
Lemma unlock_good s1 l1 p' : locks p = true → inside s1 l1 → (∀ sd, bnode c ∈ l1 sd → st (w s1) (bnode c) = Some NOTIFY_NONE) →
  (bdir c = RecvQ → linked_pc p' = true → bnode c ∈ l1 RecvQ) → node_ok c p' (w s1) l1 → sided c p' → leaves p' (w s1) → wp (unlock_to p') good s1.
Proof using Hrd.
  intros Hl [Hsq Hmu Hmv Hme] Hno Hli Hn Hs Hlv. unfold unlock_to, go_to. apply wp_bind, wp_unlock; [done|]. apply wp_ret. exists l1, None. simpl.
  assert (Hsq' : same_queue s (s1 <| mu_held := false |>)) by (etrans; [done|by destruct s1]).
  split; simpl; try done; [by apply same_queue_cfg|by apply same_queue_tail|rewrite Hl; by destruct p'| | |by eauto|by auto|congruence].
  - split; [|by rewrite Hme]. eapply rbuf_same; [done|apply Hrd].
  - assert (Hg : done_pc p' = done_pc p → (done_pc p' = true ↔ moved_through p Nothing)) by (intros ->; unfold moved_through; naive_solver).
    destruct p'; try done; try (destruct Hlv; split; [by apply Hg|done]).
    unfold leaves in Hlv. rewrite Hlv. unfold moved_through. naive_solver.
Qed.
(** Leaving with the call's node off the lists and no value handed over. *)
Lemma unlock_plain s1 l1 p' : locks p = true → inside s1 l1 → (∀ sd, bnode c ∉ l1 sd) → linked_pc p' = false → probing p' = false → sided c p' →
  done_pc p = false → ¬ handed c p (w s) → match p' with BRet rc => rc ≠ 0 | BHand _ | BTail _ => False | _ => done_pc p' = false end →
  wp (unlock_to p') good s1.
Proof using Hrd.
  intros Hl Hin Hout Hlp Hpp Hs Hd Hh Hp'. apply (unlock_good s1 l1); try done.
  - by intros sd ?%Hout.
  - congruence.
  - unfold node_ok. by rewrite Hlp, Hpp.
  - unfold leaves. assert (¬ handed c p' (w s1)) by (unfold handed; rewrite Hlp; naive_solver). rewrite Hd.
    destruct p'; try done; naive_solver.
Qed.
Lemma not_handed_unlinked : linked_pc p = false → ¬ handed c p (w s).
Proof. unfold handed. intros ->. naive_solver. Qed.
Lemma unlinked_now : linked_pc p = false → ∀ sd, bnode c ∉ ls sd.
Proof using Hrd. pose proof (br_node _ _ _ _ _ _ _ Hrd) as Hn. unfold node_ok in Hn. intros Hl. rewrite Hl in Hn. apply Hn. Qed.

Lemma remove_inside s1 l1 n (Q : unit → ccchan → Prop) : inside s1 l1 → own c (w s1) n → bnode c ∉ l1 (other (bdir c)) →
  (∀ s2 l2 n2, inside s2 l2 → own c (w s2) n2 → notified n2 = notified n → (∀ sd, bnode c ∉ l2 sd) → s2 = s1 <| w := w s2 |> → Q tt s2) →
  wp (liftw (remove_waiter (bdir c) (bnode c))) Q s1.
Proof.
  intros [Hsq Hmu Hmv Hme] Ho Hout HQ. apply wp_liftw. eapply wp_mono; [eapply own_remove; [apply Hmv|done|done]|]. cbv beta.
  intros [] x2 (l2 & Hmv2 & (n2 & Ho2 & Hk2) & Hout2 & Hme2). eapply (HQ _ l2 n2); simpl; try done. split; simpl; try done.
  - etrans; [done|by destruct s1].
  - by eapply bmoved_trans.
  - by rewrite Hme2.
Qed.
Lemma add_inside s1 l1 n p' : locks p = true → inside s1 l1 → can_enlist (bnode c) n (w s1) l1 → notified n = NOTIFY_NONE →
  core n = core (new_bnode c) → (∀ sd, bnode c ∉ l1 sd) → linked_pc p' = true → sided c p' → done_pc p' = done_pc p → ¬ handed c p (w s) →
  match p' with BRet _ | BHand _ | BTail _ => False | _ => True end →
  wp (liftw (add_waiter (bdir c) (bnode c));; unlock_to p') good s1.
Proof using Hrd.
  intros Hl [Hsq Hmu Hmv Hme] Hcan Hno Hco Hout Hlp Hs Hd Hh Hp'. apply wp_bind, wp_liftw.
  eapply wp_mono; [eapply own_add; [apply Hmv|done|done|done]|]. cbv beta. intros [] x2 (Hmv2 & Hown & Hst & Hme2).
  apply (unlock_good _ (<[bdir c := l1 (bdir c) ++ [bnode c]]> l1)); try done.
  - split; simpl; try done; [etrans; [done|by destruct s1]|by eapply bmoved_trans|by rewrite Hme2].
  - intros Hdir _. rewrite Hdir, fn_lookup_insert. apply elem_of_app. right. by apply list_elem_of_singleton.
  - unfold node_ok. rewrite Hlp. split; [done|]. rewrite fn_lookup_insert_ne by by destruct (bdir c). apply Hout.
  - unfold leaves. assert (¬ handed c p' x2) by (unfold handed; rewrite Hst; naive_solver). rewrite Hd. destruct p'; try done; naive_solver.
Qed.
Lemma init_inside s1 (Q : unit → ccchan → Prop) : inside s1 ls → w s1 = w s → (∀ sd, bnode c ∉ ls sd) →
  (∀ s2, inside s2 ls → can_enlist (bnode c) (new_bnode c) (w s2) ls → Q tt s2) → wp (liftw (init_bnode c)) Q s1.
Proof using Hrd.
  intros [Hsq Hmu Hmv Hme] Hw Hout HQ. apply wp_liftw, wp_modify. cbv beta. destruct Hrd. apply HQ.
  - split; simpl; try done; [etrans; [done|by destruct s1]|]. rewrite Hw. by apply own_write.
  - unfold can_enlist. simpl. rewrite lookup_insert_eq. split_and!; [done|done|]. destruct (bfiber c) as [f|] eqn:Ef; [|done].
    intros sd r m Hr. rewrite lookup_insert_ne by (intros <-; by apply (Hout sd)). rewrite Hw. intros Hm. eapply br_fiber0; [done| |done|done].
    intros ->. by apply (Hout sd).
Qed.
Lemma linked_own : linked_pc p = true → ∃ n, own c (w s) n ∧ bnode c ∉ ls (other (bdir c)).
Proof using Hrd.
  pose proof (br_node _ _ _ _ _ _ _ Hrd) as Hn. unfold node_ok in Hn. intros Hl. rewrite Hl in Hn. destruct Hn as [[n ?] ?]. eauto.
Qed.
Lemma load_own s1 n (Q : cc__fiber_wait_node → ccchan → Prop) : own c (w s1) n → Q n s1 → wp (liftw (load (bnode c))) Q s1.
Proof.
  intros (Hn & _ & _) HQ. apply wp_liftw. exists n, (w s1). split; [unfold load; by rewrite Hn|].
  by replace (s1 <| w := w s1 |>) with s1 by by destruct s1.
Qed.
Lemma store_inside s1 l1 n k' (Q : unit → ccchan → Prop) : inside s1 l1 → own c (w s1) n → (∀ sd, bnode c ∉ l1 sd) →
  (∀ s2, inside s2 l1 → own c (w s2) (n <| notified := k' |>) → s2 = s1 <| w := w s2 |> → Q tt s2) →
  wp (liftw (store (bnode c) (λ n, n <| notified := k' |>))) Q s1.
Proof.
  intros [Hsq Hmu Hmv Hme] Ho Hout HQ. destruct (own_notify c (w s1) l1 n k' (bm_inv _ _ _ _ _ _ Hmv) Ho Hout) as [Hmv2 Ho2].
  apply wp_liftw. eexists tt, _. split; [unfold store; by rewrite (proj1 Ho)|]. apply HQ; [|done|done].
  split; simpl; try done; [etrans; [done|by destruct s1]|by eapply bmoved_trans].
Qed.
(** Changing a field of the channel that the lists do not depend on. *)
Lemma threads_inside s1 l1 g (Q : unit → ccchan → Prop) : inside s1 l1 →
  (∀ s2, inside s2 l1 → s2 = s1 <| w := w s2 |> → Q tt s2) →
  wp (liftw (upd_ch (λ h, h <| thread_recv_waiters ::= g |>))) Q s1.
Proof.
  intros [Hsq Hmu Hmv Hme] HQ. apply wp_liftw, wp_modify. cbv beta. apply HQ; [|done].
  split; simpl; try done; [etrans; [done|by destruct s1]|]. eapply bmoved_trans; [done|].
  eapply (bev_moved []); [|by intros ? ?%elem_of_nil]. apply bev_ch; [done|].
  destruct (bm_inv _ _ _ _ _ _ Hmv) as [Hsh ? ? ? ?]. split; try done. by apply (shape_ch (w s1)); [|intros []|].
Qed.
(** Notifying and returning, after the call's node was taken off. *)
Lemma notify_inside s1 l1 (m : C unit) : locks p = true → done_pc p = true → inside s1 l1 → (∀ sd, bnode c ∉ l1 sd) →
  waking (other (bdir c)) true m false → wp (m;; go_to (BRet 0)) good s1.
Proof using Hrd.
  intros Hl Hdp [Hsq Hmu Hmv Hme] Hout Hw. apply wp_bind. eapply wp_mono; [exact (Hw s1 l1 Hmu (bm_inv _ _ _ _ _ _ Hmv))|]. cbv beta.
  intros [] s' (Hsq' & Hmu' & ls' & Hb). unfold go_to. apply wp_ret. exists ls', None. simpl.
  assert (Hs : same_queue s s') by by etrans. pose proof (cm_mem _ _ _ (be_calm _ _ _ _ _ _ Hb)) as Hme'.
  split; simpl; try done.
  - eapply bmoved_trans; [done|]. eapply bev_moved; [done|eauto].
  - split; [|done]. intros sd ?%(be_ls _ _ _ _ _ _ Hb). by apply (Hout sd).
  - by apply same_queue_cfg.
  - by apply same_queue_tail.
  - by rewrite Hl.
  - split; [eapply rbuf_same; [done|apply Hrd]|by rewrite Hme', Hme].
  - unfold moved_through. naive_solver.
  - intros sd Hin%(be_ls _ _ _ _ _ _ Hb). by apply Hout in Hin.
  - congruence.
Qed.
End turns.
End turn.

Section turns.
Context `{!LfdsQueue} (env : chan_env) (Hdd : env_recv_dedupe env = true).
Implicit Types (s : ccchan) (x : wstate) (p : bpc) (c : bcaller) (ls : side → list ptr) (q : list (list Z)).

Definition good k c p s ls q : bpc * moves → ccchan → Prop := λ r s', ∃ ls' o, turned k c p s ls q r.1 r.2 s' ls' o.

Lemma fast_ok_ready k size c p s ls q : bready k size c p s ls q → fast_ok size s = true.
Proof.
  intros [_ _ _ [Hlf Hr Hal Hcap Hes _] Hsz _ _ _ _ _ _ _]. unfold fast_ok, lockfree_ok.
  rewrite Hlf, Hr, Hal, !bool_decide_eq_true_2 by (done || lia). done.
Qed.
Lemma ring_ready k size c p s ls q : bready k size c p s ls q → use_ring_queue s = true.
Proof. intros Hrd. apply (rb_ring _ _ _ (br_queue _ _ _ _ _ _ _ Hrd)). Qed.
Lemma ensure_ready k size c p s1 s ls q : bready k size c p s ls q → cfg s1 = cfg s →
  wp (cc_chan_ensure_buf env size) (λ err s', err = 0 ∧ s' = s1) s1.
Proof.
  intros Hrd Hc. apply ensure_buf_same.
  - destruct (cfg_closed _ _ Hc) as (_ & _ & _ & _ & _ & ->). apply Hrd.
  - pose proof (rb_es _ _ _ (br_queue _ _ _ _ _ _ _ Hrd)). rewrite <- (br_size _ _ _ _ _ _ _ Hrd). lia.
Qed.
Lemma inc_ring s1 (Q : unit → ccchan → Prop) : use_ring_queue s1 = true → Q tt s1 → wp chan_inflight_inc Q s1.
Proof. intros Hr HQ. eapply wp_mono; [by apply inflight_ring_inc|]. by intros [] ? ->. Qed.

Lemma send_top_good k size c p s ls q s1 l1 : bready k size c p s ls q → bdir c = SendQ → locks p = true → done_pc p = false →
  inside c s ls s1 l1 → (∀ sd, bnode c ∉ l1 sd) → use_ring_queue s1 = true → wp send_top (good k c p s ls q) s1.
Proof.
  intros Hrd Hd Hl Hdp Hin Hout Hr. unfold send_top. wp_go. apply inc_ring; [done|]. simpl.
  apply (unlock_plain k size c p s ls q Hrd s1 l1); try done; try (destruct (closed s1); done).
  - intros sd. destruct (closed s1); intros [= <-]; done.
  - unfold handed. rewrite Hd. naive_solver.
Qed.

Ltac go := wp_go; unfold id.
Ltac side_ok := let H := fresh in intros ? H; simpl in H; repeat case_match; simplify_eq/=; try done; congruence.
Ltac read_ok := unfold go_to; apply wp_ret; eapply go_read; [done|done|by split_and!|side_ok].
Ltac put_ok := eapply try_put_good; try done; try side_ok; eapply go_read; [done|done|by split_and!|side_ok].

Lemma send_turn_good k size c p s ls q : bready k size c p s ls q → runs p = true → bdir c = SendQ →
  wp (b_send_turn env size c p) (good k c p s ls q) s.
Proof using Hdd.
  intros Hrd Hrun Hd. pose proof (br_sided _ _ _ _ _ _ _ Hrd) as Hsd.
  assert (Hpc : pc_side p = Some SendQ) by (destruct (pc_side p) as [sd|] eqn:E; [f_equal; rewrite <- Hd; by apply Hsd|by destruct p]).
  assert (Hnh : ¬ handed c p (w s)) by (unfold handed; rewrite Hd; naive_solver).
  assert (Hown : ∀ sd, linked_pc p = false → bnode c ∉ ls sd) by (intros; by eapply unlinked_now).
  assert (Hrem : cc__chan_remove_send_waiter (bnode c) = remove_waiter (bdir c) (bnode c)) by by rewrite Hd.
  assert (Hadd : cc__chan_add_send_waiter (bnode c) = add_waiter (bdir c) (bnode c)) by by rewrite Hd.
  pose proof (ring_ready _ _ _ _ _ _ _ Hrd) as Hring.
  destruct p; try done; simpl; clear Hpc Hrun.
  - (* SFast *) go. case_match; read_ok.
  - (* SMinEnq *) apply wp_bind. eapply value_wp; [done|]. intros v Hv Hlen. apply wp_bind. eapply wp_mono; [by eapply minimal_wp|].
    intros rc s' He. cbv beta. case_decide as Hrc.
    + subst rc. apply wp_ret. eapply put_good; try done; side_ok.
    + destruct He as (_ & _ & _ & _ & [[? _]|[_ ->]]); [done|]. read_ok.
  - (* SOpen *) go. rewrite (fast_ok_ready _ _ _ _ _ _ _ Hrd). destruct (closed s); [|read_ok].
    unfold go_to. apply wp_ret. eapply go_return; try done; [by intros; apply Hown|]. split; [by intros ?%send_close_errno_nz|naive_solver].
  - (* SOpenRx *) go. destruct (rx_error_closed s) eqn:Erx; [|read_ok].
    unfold go_to. apply wp_ret. eapply go_return; try done; [by intros; apply Hown|]. split; [|naive_solver].
    intros Hz. by destruct (br_codes _ _ _ _ _ _ _ Hrd Erx).
  - (* SHasRecv *) go. case_decide; read_ok.
  - (* SHandoff *) apply wp_bind. eapply enter_section; [done|done|]. intros s1 Hw1 Hin Hc1 Hq1. go.
    destruct (cfg_closed _ _ Hc1) as (Ecl & Erx & _).
    destruct (closed s1); [eapply unlock_plain; try done; [by intros; apply Hown|apply send_close_errno_nz]|].
    destruct (rx_error_closed s1) eqn:Erx1.
    { eapply unlock_plain; try done; [by intros; apply Hown|]. simpl.
      assert (rx_error_code s1 = rx_error_code s) as -> by (unfold cfg in Hc1; congruence). apply (br_codes _ _ _ _ _ _ _ Hrd). congruence. }
    apply wp_bind, wp_liftw. rewrite Hw1. eapply wp_mono; [apply bev_pop, Hrd|]. cbv beta. intros o x' (ls' & Hb & Ho).
    pose proof (bev_moved _ _ c _ _ _ _ Hb ltac:(eauto)) as Hmv. pose proof (cm_mem _ _ _ (be_calm _ _ _ _ _ _ Hb)) as Hme.
    assert (Hn' : ∀ p', linked_pc p' = false → probing p' = false → node_ok c p' x' ls').
    { intros p' Hl Hp. unfold node_ok. rewrite Hl, Hp. split; [|done]. intros sd ?%(be_ls _ _ _ _ _ _ Hb). by apply (Hown sd). }
    destruct Hin as [Hsq Hmu _ _]. assert (Hsq' : same_queue s (s1 <| w := x' |>)) by (etrans; [done|by destruct s1]).
    destruct o as [r|].
    + destruct (Ho r eq_refl) as (Hr & Hout & Hst). unfold go_to. apply wp_ret. exists ls', (Some r). simpl.
      split; simpl; try done.
      * by apply Hn'.
      * by apply same_queue_tail.
      * split; [eapply rbuf_same; [done|apply Hrd]|by rewrite Hme].
      * split_and!; try done. unfold moved_through. naive_solver.
      * intros Hne. by destruct (Hne r).
      * intros sd ?%(be_ls _ _ _ _ _ _ Hb). by destruct (Hown sd eq_refl).
    + eapply (unlock_plain _ _ _ _ _ _ _ Hrd _ ls'); try done; try side_ok.
      intros sd ?%(be_ls _ _ _ _ _ _ Hb). by apply (Hown sd).
  - (* SEnq *) apply wp_bind. eapply value_wp; [done|]. intros v Hv Hlen. apply wp_bind. eapply wp_mono; [by eapply minimal_wp|].
    intros rc s' He. cbv beta. case_decide as Hrc.
    + subst rc. apply wp_ret. eapply put_good; try done; side_ok.
    + destruct He as (_ & _ & _ & _ & [[? _]|[_ ->]]); [done|]. go. destruct (mode s); [read_ok| |read_ok].
      unfold go_to. apply wp_ret. eapply go_return; try done; [by intros; apply Hown|]. split; [done|naive_solver].
  - (* SPostF *) go. read_ok.
  - (* SPostT *) go. case_decide as Hz.
    + eapply (waking_good _ _ _ _ _ _ _ Hrd _ _ (BRet 0)); [apply wk_poke|done|side_ok|done|right; done|done].
    + case_match; read_ok.
  - (* SPostI *) go. case_decide as Hz; [|read_ok].
    eapply (waking_good _ _ _ _ _ _ _ Hrd _ _ (BRet 0)); [apply wk_poke|done|side_ok|done|right; done|done].
  - (* SPostL *) eapply (waking_good _ _ _ _ _ _ _ Hrd _ _ (BRet 0)); [|done|side_ok|done|right; done|done].
    rewrite (br_lock _ _ _ _ _ _ _ Hrd eq_refl), Hd. by apply wk_post_signal.
  - (* SLock1 *) apply wp_bind. eapply enter_section; [done|done|]. intros s1 Hw1 Hin Hc1 Hq1.
    apply wp_bind. eapply wp_mono; [by eapply ensure_ready|]. cbv beta. intros ? ? [-> ->]. go. rewrite bool_decide_eq_true_2 by done. simpl.
    destruct (cfg_closed _ _ Hc1) as (Ecl & Erx & _).
    destruct (closed s1); [eapply unlock_plain; try done; [by intros; apply Hown|apply send_close_errno_nz]|].
    destruct (rx_error_closed s1) eqn:Erx1.
    { eapply unlock_plain; try done; [by intros; apply Hown|]. simpl.
      assert (rx_error_code s1 = rx_error_code s) as -> by (unfold cfg in Hc1; congruence). apply (br_codes _ _ _ _ _ _ _ Hrd). congruence. }
    unfold lockfree_ok. rewrite (rb_lf _ _ _ Hq1), (rb_ring _ _ _ Hq1). simpl.
    eapply unlock_plain; try done; try side_ok. by intros; apply Hown.
  - (* SInitEnq *) apply wp_bind, inc_ring; [done|]. put_ok.
  - (* SNotify *) eapply (waking_good _ _ _ _ _ _ _ Hrd _ _ (BRet 0)); [|done|side_ok|done|right; done|done].
    rewrite (br_lock _ _ _ _ _ _ _ Hrd eq_refl), Hd. by apply wk_post_enqueue.
  - (* STop *) apply wp_bind. eapply enter_section; [done|done|]. intros s1 Hw1 Hin Hc1 Hq1.
    eapply send_top_good; try done; [by intros; apply Hown|apply Hq1].
  - (* SLoopEnq *) put_ok.
  - (* SReg *) apply wp_bind. eapply enter_section; [done|done|]. intros s1 Hw1 Hin Hc1 Hq1. rewrite Hadd. destruct (bfiber c) eqn:Ef.
    + apply wp_bind. eapply init_inside; [done|done|done|by intros; apply Hown|]. intros s2 Hin2 Hcan.
      eapply (add_inside _ _ _ _ _ _ _ Hrd _ ls); try done; try side_ok. by intros; apply Hown.
    + eapply unlock_plain; try done; try side_ok. by intros; apply Hown.
  - (* SProbe *) apply wp_bind, inc_ring; [done|]. put_ok.
  - (* SUnreg *) apply wp_bind. eapply enter_section; [done|done|]. intros s1 Hw1 Hin Hc1 Hq1. rewrite Hrem.
    destruct (linked_own _ _ _ _ _ _ _ Hrd eq_refl) as (n & Hn & Ho). rewrite <- Hw1 in Hn.
    apply wp_bind. eapply remove_inside; [done|done|done|]. intros s2 l2 n2 Hin2 Hn2 _ Hout2 _.
    eapply notify_inside; try done. rewrite Hd. by apply wk_post_enqueue.
  - (* SDekker *) go. case_decide; read_ok.
  - (* SDekkerWake *) eapply (waking_good _ _ _ _ _ _ _ Hrd _ _ SPark); [|done|side_ok|done|left; by split_and!|done].
    rewrite (br_lock _ _ _ _ _ _ _ Hrd eq_refl), Hd. by apply wk_dekker_recv.
  - (* SWoken *) apply wp_bind. eapply enter_section; [done|done|]. intros s1 Hw1 Hin Hc1 Hq1. rewrite Hrem.
    destruct (linked_own _ _ _ _ _ _ _ Hrd eq_refl) as (n & Hn & Ho).
    assert (Hoff : notified n ≠ NOTIFY_NONE → ∀ sd, bnode c ∉ ls sd).
    { intros Hk [|] Hin'; [|by rewrite Hd in Ho]. pose proof (br_send _ _ _ _ _ _ _ Hrd _ Hin') as Hst.
      unfold st in Hst. rewrite (proj1 Hn) in Hst. simpl in Hst. congruence. }
    rewrite <- Hw1 in Hn. apply wp_bind. eapply load_own; [done|]. destruct (notified n) eqn:Ek; try (eapply send_top_good; try done; [by apply Hoff|apply Hq1]).
    + apply wp_bind. eapply remove_inside; [done|done|done|]. intros s2 l2 n2 Hin2 Hn2 _ Hout2 Hs2.
      eapply send_top_good; try done. rewrite Hs2. apply Hq1.
    + apply wp_bind. eapply remove_inside; [done|done|done|]. intros s2 l2 n2 Hin2 Hn2 _ Hout2 Hs2.
      eapply send_top_good; try done. rewrite Hs2. apply Hq1.
    + apply wp_bind. eapply store_inside; [done|done|by apply Hoff|]. intros s2 Hin2 Hn2 Hs2.
      apply wp_bind. eapply remove_inside; [done|done|done|]. intros s3 l3 n3 Hin3 Hn3 _ Hout3 Hs3.
      apply wp_bind, inc_ring; [rewrite Hs3, Hs2; apply Hq1|]. eapply unlock_plain; try done; try side_ok.
  - (* SWakeEnq *) put_ok.
  - (* SLast *) apply wp_bind. eapply value_wp; [done|]. intros v Hv Hlen. apply wp_bind. eapply wp_mono; [by eapply enqueue_wp|].
    intros rc s' He. cbv beta. apply wp_bind. eapply wp_mono; [apply inflight_ring_dec|].
    { destruct He as (_ & _ & _ & _ & [[_ Hq']|[_ ->]]); [apply Hq'|done]. }
    intros _ s1 ->. cbv beta. case_decide as Hrc.
    + subst rc. apply wp_ret. eapply put_good; try done; side_ok.
    + destruct He as (_ & _ & _ & _ & [[? _]|[_ ->]]); [done|]. go. unfold go_to. apply wp_ret. eapply go_return; try done; [by intros; apply Hown|].
      split; [by intros ?%send_close_errno_nz|naive_solver].
Qed.

(** A receiver that finds DATA in its node returns with the handed value. *)
Lemma own_handed c p x n : bdir c = RecvQ → linked_pc p = true → own c x n → handed c p x ↔ notified n = NOTIFY_DATA.
Proof. intros Hd Hl (Hn & _). unfold handed, st. rewrite Hn. simpl. split; [by intros (_ & _ & [= ->])|by intros ->]. Qed.
Lemma handed_unlinked k size c p s ls q : bready k size c p s ls q → handed c p (w s) → ∀ sd, bnode c ∉ ls sd.
Proof. intros Hrd (_ & _ & Hst) sd Hin. by destruct (br_data _ _ _ _ _ _ _ Hrd sd _ Hin). Qed.

(** Leaving a critical section with a handed value, and after unlinking. *)
Lemma leave_handed k size c p s ls q s1 : bready k size c p s ls q → locks p = true → handed c p (w s) → inside c s ls s1 ls →
  wp (unlock_to (BRet 0)) (good k c p s ls q) s1.
Proof.
  intros Hrd Hl Hh Hin. apply (unlock_good k size c p s ls q Hrd s1 ls); try done.
  - intros sd ?. by destruct (handed_unlinked _ _ _ _ _ _ _ Hrd Hh sd).
  - split; [|done]. by eapply handed_unlinked.
  - simpl. naive_solver.
Qed.
Lemma leave_removed k size c p s ls q s1 n p' : bready k size c p s ls q → locks p = true → done_pc p = false → ¬ handed c p (w s) →
  bnode c ∉ ls (other (bdir c)) → inside c s ls s1 ls → own c (w s1) n →
  linked_pc p' = false → (probing p' = true → notified n = NOTIFY_NONE) → sided c p' → done_pc p' = false →
  match p' with BRet _ | BHand _ | BTail _ => False | _ => True end →
  wp (liftw (remove_waiter (bdir c) (bnode c));; unlock_to p') (good k c p s ls q) s1.
Proof.
  intros Hrd Hl Hdp Hh Ho Hin Hn Hlp Hpp Hs Hd' Hp'. apply wp_bind. eapply remove_inside; [done|done|done|]. intros s2 l2 n2 Hin2 Hn2 Hk Hout2 Hs2.
  apply (unlock_good k size c p s ls q Hrd s2 l2); try done.
  - by intros sd ?%Hout2.
  - congruence.
  - unfold node_ok. rewrite Hlp. split; [done|]. intros Hp. exists n2. split; [done|]. rewrite Hk. auto.
  - unfold leaves. assert (¬ handed c p' (w s2)) by (unfold handed; rewrite Hlp; naive_solver). destruct p'; try done; rewrite Hd', Hdp; naive_solver.
Qed.

Lemma own_enlist k size c p s ls q x1 n : bready k size c p s ls q → bmoved None c (w s) ls x1 ls → (∀ sd, bnode c ∉ ls sd) → own c x1 n →
  can_enlist (bnode c) n x1 ls.
Proof.
  intros Hrd Hmv Hout (Hn & Hco & Hv). split_and!; [done|done|]. destruct (fiber n) as [f|] eqn:Ef; [|done]. case_decide; [|done].
  intros sd r m Hr Hm. assert (Hne : r ≠ bnode c) by (intros ->; by apply (Hout sd)).
  pose proof (bm_ident _ _ _ _ _ _ Hmv r Hne) as Hid. rewrite Hm in Hid. destruct (nodes (w s) !! r) as [m'|] eqn:Hm'; [|done].
  assert (fiber m = fiber m') as -> by (simpl in Hid; unfold ident in Hid; congruence).
  eapply (br_fiber _ _ _ _ _ _ _ Hrd); [done|done|done|]. unfold core, new_bnode in Hco. simpl in Hco. congruence.
Qed.

Ltac take_ok := eapply try_take_good; try done; try side_ok; eapply go_read; [done|done|by split_and!|side_ok].
Ltac ret_ok := unfold go_to; apply wp_ret; eapply go_return; try done.

Lemma recv_turn_good k size c nc gd p s ls q : bready k size c p s ls q → runs p = true → bdir c = RecvQ →
  wp (b_recv_turn env size c nc gd p) (good k c p s ls q) s.
Proof using Hdd.
  intros Hrd Hrun Hd. pose proof (br_sided _ _ _ _ _ _ _ Hrd) as Hsd.
  assert (Hpc : pc_side p = Some RecvQ) by (destruct (pc_side p) as [sd|] eqn:E; [f_equal; rewrite <- Hd; by apply Hsd|by destruct p]).
  assert (Hown : ∀ sd, linked_pc p = false → bnode c ∉ ls sd) by (intros; by eapply unlinked_now).
  assert (Hnh : linked_pc p = false → ¬ handed c p (w s)) by apply not_handed_unlinked.
  assert (Hl : linked_pc p = true → ∃ n, own c (w s) n ∧ bnode c ∉ ls (other (bdir c))) by by eapply linked_own.
  assert (Hoff : handed c p (w s) → ∀ sd, bnode c ∉ ls sd) by by eapply handed_unlinked.
  assert (Hho : ∀ n, linked_pc p = true → own c (w s) n → handed c p (w s) ↔ notified n = NOTIFY_DATA) by (intros; by apply own_handed).
  assert (Hrem : cc__chan_remove_recv_waiter (bnode c) = remove_waiter (bdir c) (bnode c)) by by rewrite Hd.
  assert (Hadd : cc__chan_add_recv_waiter (bnode c) = add_waiter (bdir c) (bnode c)) by by rewrite Hd.
  pose proof (ring_ready _ _ _ _ _ _ _ Hrd) as Hring.
  destruct p; try done; simpl; clear Hpc Hrun.
  - (* RFast *) go. case_match; read_ok.
  - (* RMinDeq *) take_ok.
  - (* RTry *) go. rewrite (fast_ok_ready _ _ _ _ _ _ _ Hrd). take_ok.
  - (* RClosed *) go. case_match; read_ok.
  - (* RLock1 *) apply wp_bind. eapply enter_section; [done|done|]. intros s1 Hw1 Hin Hc1 Hq1.
    apply wp_bind. eapply wp_mono; [by eapply ensure_ready|]. cbv beta. intros ? ? [-> ->]. go. rewrite bool_decide_eq_true_2 by done.
    unfold lockfree_ok. rewrite (rb_lf _ _ _ Hq1), (rb_ring _ _ _ Hq1). simpl.
    case_match; (eapply unlock_plain; try done; try side_ok; [by intros; apply Hown|by apply Hnh]).
  - (* RLoopDeq *) take_ok.
  - (* RLoopL *) apply wp_bind. eapply enter_section; [done|done|]. intros s1 Hw1 Hin Hc1 Hq1. go. rewrite Hadd.
    assert (Hout : ∀ sd, bnode c ∉ ls sd) by (intros; by apply Hown). specialize (Hnh eq_refl).
    destruct (closed s1); [by eapply unlock_plain; try done; try side_ok|]. destruct nc; [by eapply unlock_plain; try done; try side_ok|].
    destruct gd; [by eapply unlock_plain; try done; try side_ok|]. destruct (bfiber c) eqn:Ef.
    + apply wp_bind. eapply init_inside; [done|done|done|done|]. intros s2 Hin2 Hcan.
      eapply (add_inside _ _ _ _ _ _ _ Hrd _ ls); try done; try side_ok.
    + apply wp_bind. eapply threads_inside; [done|]. intros s2 Hin2 Hs2. go. case_decide.
      * apply wp_bind. eapply threads_inside; [done|]. intros s3 Hin3 Hs3. by eapply unlock_plain; try done; try side_ok.
      * by eapply unlock_plain; try done; try side_ok.
  - (* RCount *) go. rewrite Hring. read_ok.
  - (* RCountH *) go. case_decide; [read_ok|]. destruct again; read_ok.
  - (* REarly *) destruct (Hl eq_refl) as (n & Hn & Ho). apply wp_bind. eapply load_own; [done|]. specialize (Hho n eq_refl Hn).
    case_decide as Hk; [|read_ok]. assert (Hh : handed c REarly (w s)) by by apply Hho. ret_ok; [by apply Hoff|]. naive_solver.
  - (* RLate *) destruct (Hl eq_refl) as (n & Hn & Ho). specialize (Hho n eq_refl Hn). apply wp_bind. eapply enter_section; [done|done|].
    intros s1 Hw1 Hin Hc1 Hq1. rewrite <- Hw1 in Hn. apply wp_bind. eapply load_own; [done|]. rewrite Hrem.
    case_decide as Hk; [eapply leave_handed; try done; by apply Hho|]. eapply leave_removed; try done; try side_ok. by rewrite Hho.
  - (* RCheck2 *) destruct (Hl eq_refl) as (n & Hn & Ho). apply wp_bind. eapply load_own; [done|]. specialize (Hho n eq_refl Hn).
    case_decide as Hk; [|read_ok]. assert (Hh : handed c RCheck2 (w s)) by by apply Hho. ret_ok; [by apply Hoff|]. naive_solver.
  - (* RPre *) destruct (Hl eq_refl) as (n & Hn & Ho). specialize (Hho n eq_refl Hn). apply wp_bind. eapply enter_section; [done|done|].
    intros s1 Hw1 Hin Hc1 Hq1. rewrite <- Hw1 in Hn. apply wp_bind. eapply load_own; [done|]. rewrite Hrem.
    go. case_decide as Hk; [eapply leave_handed; try done; by apply Hho|]. rewrite <- Hho in Hk.
    destruct (_ || _) eqn:E; eapply leave_removed; try done; try side_ok. intros _. apply orb_false_iff in E as [E _]. by destruct (notified n).
  - (* RProbe *) take_ok.
  - (* RReReg *) apply wp_bind. eapply enter_section; [done|done|]. intros s1 Hw1 Hin Hc1 Hq1. go. rewrite Hadd.
    assert (Hout : ∀ sd, bnode c ∉ ls sd) by (intros; by apply Hown). specialize (Hnh eq_refl).
    destruct (closed s1); [by eapply unlock_plain; try done; try side_ok|].
    destruct (proj2 (br_node _ _ _ _ _ _ _ Hrd) eq_refl) as (n & Hn & Hk). rewrite <- Hw1 in Hn.
    apply wp_bind. eapply load_own; [done|]. rewrite Hk. apply wp_bind. eapply store_inside; [done|done|done|]. intros s2 Hin2 Hn2 Hs2.
    eapply (add_inside _ _ _ _ _ _ _ Hrd _ ls (n <| notified := NOTIFY_NONE |>)); try done; try side_ok; [|apply Hn2].
    apply (own_enlist k size c RReReg s ls q); try done. apply Hin2.
  - (* RDekker *) go. case_decide; read_ok.
  - (* RDekkerWake *) eapply (waking_good _ _ _ _ _ _ _ Hrd _ _ RPark); [|done|side_ok|done|left; by split_and!|done].
    rewrite (br_lock _ _ _ _ _ _ _ Hrd eq_refl), Hd. by apply wk_dekker_send.
  - (* RWoken *) destruct (Hl eq_refl) as (n & Hn & Ho). specialize (Hho n eq_refl Hn). apply wp_bind. eapply enter_section; [done|done|].
    intros s1 Hw1 Hin Hc1 Hq1. rewrite <- Hw1 in Hn. apply wp_bind. eapply load_own; [done|]. rewrite Hrem.
    assert (Hrm : ∀ b : bool, ¬ handed c RWoken (w s) →
      wp (liftw (remove_waiter (bdir c) (bnode c));; unlock_to (if b then RDrain else RLoopDeq)) (good k c RWoken s ls q) s1)
      by (intros [] ?; eapply leave_removed; try done; side_ok).
    go. destruct (notified n) eqn:Hk; try (first [apply Hrm|apply (Hrm true)]; by rewrite Hho).
    + eapply leave_handed; try done. by apply Hho.
    + apply wp_bind. eapply remove_inside; [done|done|done|]. intros s2 l2 n2 Hin2 Hn2 _ Hout2 Hs2.
      apply wp_bind. eapply store_inside; [done|done|done|]. intros s3 Hin3 Hn3 Hs3. eapply unlock_plain; try done; try side_ok. by rewrite Hho.
  - (* RAwake *) apply wp_bind. eapply enter_section; [done|done|]. intros s1 Hw1 Hin Hc1 Hq1.
    apply wp_bind. eapply threads_inside; [done|]. intros s2 Hin2 Hs2. eapply unlock_plain; try done; try side_ok; [by intros; apply Hown|by apply Hnh].
  - (* RPost *) go. case_decide as Hz; [|read_ok].
    eapply (waking_good _ _ _ _ _ _ _ Hrd _ _ (BRet 0)); [|done|side_ok|done|right; done|done]. by waking_auto.
  - (* RPostL *) apply wp_bind_assoc.
    eapply (waking_good _ _ _ _ _ _ _ Hrd _ _ (BRet 0)); [|done|side_ok|done|right; done|done].
    rewrite (br_lock _ _ _ _ _ _ _ Hrd eq_refl), Hd. eapply wk_bind; [apply wk_dekker_send|intros _]. by waking_auto.
  - (* RNotify *) eapply (waking_good _ _ _ _ _ _ _ Hrd _ _ (BRet 0)); [|done|side_ok|done|right; done|done].
    rewrite (br_lock _ _ _ _ _ _ _ Hrd eq_refl), Hd. by apply wk_post_dequeue.
  - (* RDrain *) eapply drain_take_good; try done. rewrite Hring. eapply go_read; [done|done|by split_and!|side_ok].
  - (* RDrainPos *) go. read_ok.
  - (* RDrainHead *) go. case_decide; [|read_ok]. destruct second; [|read_ok]. ret_ok; [by intros; apply Hown|].
    split; [by intros ?%recv_close_errno_nz|intros [?|?%Hnh]; done].
  - (* RDrainLf *) go. case_decide; read_ok.
  - (* RDrain2 *) eapply drain_take_good; try done. rewrite Hring. eapply go_read; [done|done|by split_and!|side_ok].
Qed.
End turns.
