(* ===== verification/ChanBufInv.v ===== *)
(** The invariant of concurrent blocking calls on a buffered channel; it is kept
    by the steps that only move program counters and by every turn. *)
From S2P Require Import Prelude ChanTypes WaitList WaitShape WaitQuiet WaitInv WaitOps WaitPop WaitWake WaitSteps Bytes Ring Chan ChanSpec ChanTry ChanHandoff ChanRv ChanRvFrame ChanRvSpec ChanRvInv ChanBuf ChanBufSpec ChanBufTurn.

Local Open Scope Z_scope.

Section inv.
Context `{!LfdsQueue}.
Implicit Types (S : b_state) (x : wstate) (o : b_op) (os : list b_op) (c : bcaller) (p : bpc) (ls : side → list ptr) (i j : nat).

(** * Definitions *)

(** The call's value went through the queue; it was handed over. *)
Definition through S i : Prop := i ∈ (puts S).*1 ∨ i ∈ (gots S).*1.
Definition handover S i : Prop := i ∈ senders (hands S) ∨ i ∈ receivers (hands S).
Definition b_holding p : bool := match p with BHand _ | BTail _ => true | _ => false end.
(** The receiver of a handoff that has been taken off the list. *)
Definition taken x ls os (r : ptr) : Prop := st x r = Some NOTIFY_NONE ∧ (∀ sd, r ∉ ls sd) ∧
  ∃ j o, os !! j = Some o ∧ bnode (bwho o) = r ∧ bdir (bwho o) = RecvQ ∧ linked_pc (pc o) = true.
Definition b_status x ls S i o : Prop :=
  match pc o with
  | BRet rc => rc = 0 ↔ through S i ∨ handover S i
  | BHand r => bdir (bwho o) = SendQ ∧ ¬ through S i ∧ ¬ handover S i ∧ taken x ls (bops S) r
  | BTail _ => handover S i
  | p => (done_pc p = true ↔ through S i) ∧ (handed (bwho o) p x ↔ handover S i)
  end.
Record b_op_ok (size : nat) x ls S i o : Prop := {
  bo_node : b_active o → node_ok (bwho o) (pc o) x ls;
  bo_sided : sided (bwho o) (pc o);
  bo_mem : ∃ v, mem x !! bvalue (bwho o) = Some v ∧ length v = size;
  bo_status : b_status x ls S i o }.
(** Calls have frames, fibers and buffers of their own; one holds the mutex. *)
Record b_calls os : Prop := {
  bc_frame i j o o' : os !! i = Some o → os !! j = Some o' → b_active o → b_active o' → bnode (bwho o) = bnode (bwho o') → i = j;
  bc_fiber i j o o' f : os !! i = Some o → os !! j = Some o' → b_active o → b_active o' → bfiber (bwho o) = Some f → bfiber (bwho o') = Some f → i = j;
  bc_value i j o o' : os !! i = Some o → os !! j = Some o' → bvalue (bwho o) = bvalue (bwho o') → i = j;
  bc_lock i j o o' : os !! i = Some o → os !! j = Some o' → b_holding (pc o) = true → b_holding (pc o') = true → i = j }.
(** Every transfer is a call's only one, and its value is in the caller's buffer. *)
Definition has_value x os (sd : side) i v : Prop := ∃ o, os !! i = Some o ∧ bdir (bwho o) = sd ∧ mem x !! bvalue (bwho o) = Some v.
Record b_logs x S : Prop := {
  bl_send : NoDup ((puts S).*1 ++ senders (hands S));
  bl_recv : NoDup ((gots S).*1 ++ receivers (hands S));
  bl_put i v : (i, v) ∈ puts S → has_value x (bops S) SendQ i v;
  bl_got i v : (i, v) ∈ gots S → has_value x (bops S) RecvQ i v;
  bl_hand i j v : (i, j, v) ∈ hands S → has_value x (bops S) SendQ i v ∧ has_value x (bops S) RecvQ j v }.
Record b_inv (k : Z) (size : nat) S ls : Prop := {
  bi_wq : wq_inv (w (bch S)) ls;
  bi_data : data_unlinked (w (bch S)) ls;
  bi_send : send_none (w (bch S)) ls;
  bi_queue : ∃ q, rbuf_inv k (bch S) q ∧ (puts S).*2 = (gots S).*2 ++ q;
  bi_size : elem_size (bch S) = size;
  bi_tail : topo (bch S) ≠ TOPO_1_1 → ring_tail (rq (bch S)) ≤ Z.of_nat (length (puts S));
  bi_codes : codes_ok (bch S);
  bi_linked sd r : r ∈ ls sd → ∃ j o, bops S !! j = Some o ∧ bnode (bwho o) = r ∧ bdir (bwho o) = sd ∧ linked_pc (pc o) = true;
  bi_calls : b_calls (bops S);
  bi_op i o : bops S !! i = Some o → b_op_ok size (w (bch S)) ls S i o;
  bi_logs : b_logs (w (bch S)) S;
  bi_lock i o : bops S !! i = Some o → b_holding (pc o) = true → mu_held (bch S) = true }.

(** * Program counters that move by themselves *)

(** Unparked fibers and woken threads go on with the same obligations. *)
Definition resumed p p' : Prop :=
  p' = p ∨ p = SPark ∧ p' = SWoken ∨ p = RPark ∧ p' = RWoken ∨ p = SSleep ∧ p' = STop ∨ p = RSleep ∧ p' = RAwake.
Definition b_roused os os' : Prop :=
  length os' = length os ∧ ∀ i o', os' !! i = Some o' → ∃ o, os !! i = Some o ∧ bwho o' = bwho o ∧ resumed (pc o) (pc o').

Lemma b_roused_refl os : b_roused os os.
Proof. split; [done|]. intros i o Hi. exists o. by split_and!; [..|left]. Qed.
Lemma b_roused_trans os1 os2 os3 : b_roused os1 os2 → b_roused os2 os3 → b_roused os1 os3.
Proof.
  intros [L1 H1] [L2 H2]. split; [congruence|]. intros i o3 Hi. destruct (H2 i o3 Hi) as (o2 & Hi2 & Hw2 & R2).
  destruct (H1 i o2 Hi2) as (o1 & Hi1 & Hw1 & R1). exists o1. split_and!; [done|congruence|].
  destruct R1 as [E1|R1]; [by rewrite <- E1|]. destruct R2 as [E2|R2]; [rewrite E2; by right|].
  exfalso. by destruct R1 as [[_ E]|[[_ E]|[[_ E]|[_ E]]]]; rewrite E in R2; destruct R2 as [[? _]|[[? _]|[[? _]|[? _]]]].
Qed.
Lemma b_roused_insert os i o p : os !! i = Some o → resumed (pc o) p → b_roused os (<[i := o <| pc := p |>]> os).
Proof.
  intros Hi Hr. split; [apply length_insert|]. intros j o' Hj. apply list_lookup_insert_Some in Hj as [(<- & <- & _)|[_ Hj]].
  - exists o. done.
  - exists o'. by split_and!; [..|left].
Qed.
Lemma b_deliver_roused evs os os' : b_deliver evs os os' → b_roused os os'.
Proof.
  induction 1 as [os|c evs os i o os' Hi Hs _ IH| |c evs os os' _ IH|]; [apply b_roused_refl| |done| |done].
  - eapply b_roused_trans; [|exact IH]. unfold b_rouse. apply b_roused_insert; [done|]. unfold b_sleeping in Hs. unfold resumed. destruct (pc o), c; try done; simpl; auto 10.
  - eapply b_roused_trans; [|exact IH]. split; [apply length_fmap|]. intros j o' Hj. rewrite list_lookup_fmap in Hj.
    destruct (os !! j) as [o|]; [|done]. simpl in Hj. injection Hj as <-. exists o. split; [done|]. unfold b_rouse_all, b_rouse, resumed.
    destruct o as [bw p]. destruct p, c; simpl; auto 10.
Qed.
Lemma b_roused_fwd os os' i o : b_roused os os' → os !! i = Some o → ∃ o', os' !! i = Some o' ∧ bwho o' = bwho o ∧ resumed (pc o) (pc o').
Proof.
  intros [Hl Hr] Hi. apply lookup_lt_Some in Hi as Hlt. rewrite <- Hl in Hlt. apply lookup_lt_is_Some in Hlt as [o' Ho'].
  destruct (Hr i o' Ho') as (o1 & ? & ? & ?). exists o'. simplify_eq. done.
Qed.
Lemma resumed_class p p' : resumed p p' →
  linked_pc p' = linked_pc p ∧ probing p' = probing p ∧ done_pc p' = done_pc p ∧ pc_side p' = pc_side p ∧ b_holding p' = b_holding p.
Proof. by intros [->|[[-> ->]|[[-> ->]|[[-> ->]|[-> ->]]]]]. Qed.
Lemma resumed_active o o' : resumed (pc o) (pc o') → b_active o' ↔ b_active o.
Proof. unfold b_active. by intros [->|[[-> ->]|[[-> ->]|[[-> ->]|[-> ->]]]]]. Qed.
Lemma has_value_ops x x' os os' sd i v : (∀ o, os !! i = Some o → mem x' !! bvalue (bwho o) = mem x !! bvalue (bwho o) ∧
    ∃ o', os' !! i = Some o' ∧ bwho o' = bwho o) → has_value x os sd i v → has_value x' os' sd i v.
Proof. intros Hos (o & Hi & Hd & Hm). destruct (Hos o Hi) as (Hmem & o' & Hi' & Hw). exists o'. rewrite Hw, Hmem. done. Qed.
Lemma b_status_resumed x ls S os' i o o' : b_roused (bops S) os' → bwho o' = bwho o → resumed (pc o) (pc o') → b_status x ls S i o →
  b_status x ls (S <| bops := os' |>) i o'.
Proof.
  intros Hr Hw Hres Hs. assert (Hplain : pc o' ≠ pc o → b_status x ls (S <| bops := os' |>) i o').
  { intros Hne. destruct Hres as [?|Hres]; [done|]. unfold b_status, handed in *. rewrite Hw.
    by destruct Hres as [[E1 E2]|[[E1 E2]|[[E1 E2]|[E1 E2]]]]; rewrite E1 in Hs; rewrite E2. }
  destruct Hres as [Heq|Hres]; [|apply Hplain; by destruct Hres as [[E1 E2]|[[E1 E2]|[[E1 E2]|[E1 E2]]]]; rewrite E1, E2].
  unfold b_status in *. rewrite Heq, Hw. destruct (pc o); try done.
  destruct Hs as (? & ? & ? & ? & ? & j & oj & Hj & ? & ? & ?). split_and!; try done. split_and!; try done.
  destruct (b_roused_fwd _ _ _ _ Hr Hj) as (oj' & ? & Hwj & Hrj). exists j, oj'. destruct (resumed_class _ _ Hrj) as (-> & _). rewrite Hwj. done.
Qed.
Lemma b_inv_roused k size S os' ls : b_roused (bops S) os' → b_inv k size S ls → b_inv k size (S <| bops := os' |>) ls.
Proof.
  intros Hr [Hw Hd Hsn Hq Hsz Ht Hc Hli Hca Hop Hlo Hlk]. pose proof Hr as [Hlen Hback].
  assert (Hos : ∀ i o, bops S !! i = Some o → ∃ o', os' !! i = Some o' ∧ bwho o' = bwho o).
  { intros i o Hi. destruct (b_roused_fwd _ _ _ _ Hr Hi) as (o' & ? & ? & _). eauto. }
  split; simpl; try done.
  - intros sd r Hin. destruct (Hli sd r Hin) as (j & o & Hj & Hn & Hdir & Hl). destruct (b_roused_fwd _ _ _ _ Hr Hj) as (o' & Hj' & Hw' & Hres).
    destruct (resumed_class _ _ Hres) as (El & _). exists j, o'. rewrite El, Hw'. done.
  - destruct Hca as [H1 H2 H3 H4].
    assert (Hpair : ∀ i o, os' !! i = Some o → ∃ a, bops S !! i = Some a ∧ bwho o = bwho a ∧ (b_active o ↔ b_active a) ∧ b_holding (pc o) = b_holding (pc a)).
    { intros i o Hi. destruct (Hback i o Hi) as (a & ? & ? & Hres). exists a. split_and!; try done; [by apply resumed_active|by apply resumed_class]. }
    split; intros i j o o'.
    + intros (a & Ha & -> & -> & _)%Hpair (b & Hb & -> & -> & _)%Hpair. by apply (H1 i j a b).
    + intros f (a & Ha & -> & -> & _)%Hpair (b & Hb & -> & -> & _)%Hpair. by apply (H2 i j a b).
    + intros (a & Ha & -> & _)%Hpair (b & Hb & -> & _)%Hpair. by apply (H3 i j a b).
    + intros (a & Ha & _ & _ & ->)%Hpair (b & Hb & _ & _ & ->)%Hpair. by apply (H4 i j a b).
  - intros i o' Hi. destruct (Hback i o' Hi) as (o & Hi' & Hw' & Hres). destruct (resumed_class _ _ Hres) as (El & Ep & _ & Es & _).
    destruct (Hop i o Hi') as [On Os Om Ost]. split; [|unfold sided in *; by rewrite Es, Hw'|by rewrite Hw'|by eapply b_status_resumed].
    intros Ha%(resumed_active o); [|done]. specialize (On Ha). unfold node_ok in *. by rewrite El, Ep, Hw'.
  - destruct Hlo as [L1 L2 L3 L4 L5]. split; try done; simpl.
    + intros i v Hin. eapply has_value_ops; [|by apply L3]. eauto.
    + intros i v Hin. eapply has_value_ops; [|by apply L4]. eauto.
    + intros i j v Hin. destruct (L5 i j v Hin). split; (eapply has_value_ops; [|done]); eauto.
  - intros i o' Hi Hh. destruct (Hback i o' Hi) as (o & Hi' & _ & Hres). eapply Hlk; [done|]. destruct (resumed_class _ _ Hres) as (_ & _ & _ & _ & E). congruence.
Qed.
End inv.

Section step.
Context `{!LfdsQueue} (env : chan_env) (k : Z) (size : nat).
Implicit Types (S : b_state) (x : wstate) (o : b_op) (os : list b_op) (c : bcaller) (p : bpc) (ls : side → list ptr) (i j : nat).

(** * The mutex *)

Lemma lock_held {A} (m : unit → C A) s : mu_held s = true → mbind m cc_chan_lock s = None.
Proof. intros Hm. unfold cc_chan_lock, mbind, M_bind, gets, fault. simpl. by rewrite Hm. Qed.
Lemma bind_none {A B} (m : C A) (f : A → C B) s : m s = None → mbind f m s = None.
Proof. intros Hm. unfold mbind, M_bind. by rewrite Hm. Qed.
Lemma turn_locked c nc gd p s : locks p = true → mu_held s = true → b_turn env size c nc gd p s = None.
Proof.
  intros Hl Hm. unfold b_turn. destruct (bdir c), p; try done; simpl; try (by apply lock_held); apply bind_none; by apply lock_held.
Qed.
Lemma turn_runs c nc gd p s r : b_turn env size c nc gd p s = Some r → runs p = true.
Proof. unfold b_turn. by destruct (bdir c), p. Qed.

(** * Before a turn *)

Definition in_range S : Prop := Z.of_nat (length (bops S)) + 1 + 2 ^ k < 2 ^ 63.
Lemma active_linked o : linked_pc (pc o) = true → b_active o.
Proof. unfold b_active. by destruct (pc o). Qed.
Lemma bready_inv S ls q i o : b_inv k size S ls → in_range S → rbuf_inv k (bch S) q → bops S !! i = Some o →
  runs (pc o) = true → (locks (pc o) = true → mu_held (bch S) = false) → bready k size (bwho o) (pc o) (bch S) ls q.
Proof.
  intros Hinv Hrg Hq Hi Hr Hlk. destruct (bi_op _ _ _ _ Hinv i o Hi) as [On Os Om Ost].
  assert (Ha : b_active o) by (unfold b_active; by destruct (pc o)).
  split; try apply Hinv; try done; auto.
  - intros _ Ht. pose proof (bi_tail _ _ _ _ Hinv Ht).
    assert (length (puts S) ≤ length (bops S))%nat; [|unfold in_range in Hrg; lia].
    rewrite <- (length_fmap fst). rewrite <- (length_seq (length (bops S)) 0). apply submseteq_length, NoDup_submseteq.
    + pose proof (bl_send _ _ (bi_logs _ _ _ _ Hinv)) as Hnd. by apply NoDup_app in Hnd as [? _].
    + intros j Hj. apply list_elem_of_fmap in Hj as ([j' v] & -> & Hin). destruct (bl_put _ _ (bi_logs _ _ _ _ Hinv) _ _ Hin) as (oj & Hj & _).
      apply elem_of_seq. apply lookup_lt_Some in Hj. simpl. lia.
  - intros sd r0 m f Hin Hne Hm Hf Hfm. destruct (bi_linked _ _ _ _ Hinv _ _ Hin) as (j & oj & Hj & Hnj & _ & Hl).
    pose proof (active_linked _ Hl) as Haj. assert (Hnode : node_ok (bwho oj) (pc oj) (w (bch S)) ls) by by apply (bi_op _ _ _ _ Hinv j oj Hj).
    unfold node_ok in Hnode. rewrite Hl in Hnode. destruct Hnode as [(n & Hn & Hco & _) _]. rewrite Hnj, Hm in Hn. injection Hn as <-.
    apply Hne. rewrite <- Hnj. assert (j = i) as ->; [|by simplify_eq].
    eapply (bc_fiber _ (bi_calls _ _ _ _ Hinv) j i oj o f); try done. unfold core, new_bnode in Hco. simpl in Hco. congruence.
Qed.
Lemma turn_free c nc gd p s r : b_turn env size c nc gd p s = Some r → locks p = true → mu_held s = false.
Proof. intros Hrun Hlk. destruct (mu_held s) eqn:E; [|done]. by rewrite (turn_locked _ _ _ _ _ Hlk E) in Hrun. Qed.
Lemma turn_good S ls q i o nc gd : env_recv_dedupe env = true → b_inv k size S ls → in_range S → rbuf_inv k (bch S) q → bops S !! i = Some o →
  runs (pc o) = true → (locks (pc o) = true → mu_held (bch S) = false) →
  wp (b_turn env size (bwho o) nc gd (pc o)) (good k (bwho o) (pc o) (bch S) ls q) (bch S).
Proof.
  intros Hdd Hinv Hrg Hrb Hi Hr Hlk. pose proof (bready_inv _ _ _ _ _ Hinv Hrg Hrb Hi Hr Hlk) as Hrd.
  unfold b_turn. destruct (bdir (bwho o)) eqn:Ed; [by eapply send_turn_good|by eapply recv_turn_good].
Qed.

(** * The other calls *)

Lemma bmoved_drop out c p x ls s' ls' : bmoved out c x ls (w s') ls' → node_ok c p (w s') ls' → bmoved out c x ls (w (b_drop c p s')) ls'.
Proof.
  intros Hmv Hn. destruct p; try exact Hmv. destruct Hn as [Hout _]. destruct Hmv as [Hi L M I St K N T]. simpl.
  assert (Hst : ∀ r, r ≠ bnode c → st ((w s') <| nodes ::= delete (bnode c) |>) r = st (w s') r)
    by (intros r Hr; unfold st; simpl; by rewrite lookup_delete_ne).
  split; try done.
  - apply unlinked_nodes_inv; [done|..].
    + intros sd r Hr. rewrite lookup_delete_ne; [done|]. intros <-. by apply (Hout sd).
    + by intros r n [_ ?]%lookup_delete_Some.
    + intros r n g [_ ?]%lookup_delete_Some. by eapply (inv_shape _ _ Hi).
  - intros r Hr. simpl. rewrite lookup_delete_ne by done. by apply I.
  - intros r Hr. rewrite Hst by done. by apply St.
  - intros r Hr. rewrite Hst by done. by apply K.
  - intros r Hr. rewrite Hst by done. by apply N.
Qed.
Lemma other_moved out c x ls x' ls' c' p : bmoved out c x ls x' ls' → data_unlinked x ls → bnode c' ≠ bnode c →
  (∀ f, bfiber c' = Some f → bfiber c ≠ Some f) → node_ok c' p x ls →
  node_ok c' p x' ls' ∧ (handed c' p x' ↔ handed c' p x).
Proof.
  intros Hmv Hdu Hne Hf Hn. split.
  - assert (Hown : ∀ n, own c' x n → ∃ n', own c' x' n').
    { intros n (Hl & Hc & Hv). pose proof (bm_ident _ _ _ _ _ _ Hmv _ Hne) as Hid. rewrite Hl in Hid.
      destruct (nodes x' !! bnode c') as [n'|] eqn:Hn'; [|done]. simpl in Hid. exists n'. split; [done|]. unfold core, ident in *.
      injection Hid as E1 E2 E3 E4 E5 E6. split; [congruence|]. rewrite <- Hv. unfold cc__chan_waiter_ticket_valid, cc__fiber_wait_ticket_matches.
      rewrite E1, E2. destruct (fiber n) as [f|] eqn:Ef; [|done]. rewrite (bm_tick _ _ _ _ _ _ Hmv f); [done|]. apply Hf. unfold new_bnode in Hc. simpl in Hc. congruence. }
    unfold node_ok in *. destruct (linked_pc p).
    + destruct Hn as [[n Hn] Ho]. split; [by eapply Hown|]. intros Hin. by apply Ho, (bm_ls _ _ _ _ _ _ Hmv).
    + destruct Hn as [Ho Hp]. split; [intros sd Hin; by apply (Ho sd), (bm_ls _ _ _ _ _ _ Hmv)|]. intros Hpr. destruct (Hp Hpr) as (n & Hn & Hk).
      destruct (Hown n Hn) as [n' Hn']. exists n'. split; [done|]. destruct (bm_st _ _ _ _ _ _ Hmv _ Hne) as [Hs|([sd Hin] & _)]; [|by destruct (Ho sd)].
      unfold st in Hs. rewrite (proj1 Hn), (proj1 Hn') in Hs. simpl in Hs. congruence.
  - unfold handed. destruct (bm_st _ _ _ _ _ _ Hmv _ Hne) as [->|([sd Hin] & kk & [Hk _] & ->)]; [done|].
    split; intros (? & ? & ?); [congruence|]. by destruct (Hdu sd _ Hin).
Qed.
Lemma lists_after out c p x ls s' ls' : bmoved out c x ls (w s') ls' → node_ok c p (w s') ls' → data_unlinked x ls → send_none x ls →
  (∀ sd, bnode c ∈ ls' sd → st (w s') (bnode c) = Some NOTIFY_NONE ∨ bnode c ∈ ls sd ∧ st (w s') (bnode c) = st x (bnode c)) →
  data_unlinked (w (b_drop c p s')) ls' ∧ send_none (w (b_drop c p s')) ls'.
Proof.
  intros Hmv Hn Hdu Hsn Hown. pose proof (bmoved_drop _ _ _ _ _ _ _ Hmv Hn) as Hmv'.
  assert (Hsame : ∀ sd, bnode c ∈ ls' sd → b_drop c p s' = s') by (intros sd Hin; destruct p; try done; by destruct (proj1 Hn sd)).
  split.
  - intros sd r Hin. destruct (decide (r = bnode c)) as [->|Hne].
    + rewrite (Hsame sd Hin). destruct (Hown sd Hin) as [->|[Hin' ->]]; [done|by eapply Hdu].
    + destruct (bm_st _ _ _ _ _ _ Hmv' r Hne) as [->|(_ & kk & [Hk _] & ->)]; [|congruence]. eapply Hdu. by eapply (bm_ls _ _ _ _ _ _ Hmv').
  - intros r Hin. destruct (decide (r = bnode c)) as [->|Hne].
    + rewrite (Hsame SendQ Hin). destruct (Hown SendQ Hin) as [?|[Hin' ->]]; [done|by apply Hsn].
    + rewrite (bm_send _ _ _ _ _ _ Hmv' r Hne Hin). apply Hsn. by apply (bm_ls _ _ _ _ _ _ Hmv').
Qed.

(** * A turn *)

Lemma rbuf_elems s q : rbuf_inv k s q → Forall (λ v, length v = elem_size s) q.
Proof. intros [_ _ _ _ _ Hq]. case_decide; [apply Hq|apply Hq]. Qed.
Lemma insert_back_b os i o p j o' : os !! i = Some o → <[i := o <| pc := p |>]> os !! j = Some o' →
  j = i ∧ o' = o <| pc := p |> ∨ j ≠ i ∧ os !! j = Some o'.
Proof. intros Hi [(-> & <- & _)|[? ?]]%list_lookup_insert_Some; auto. Qed.
Lemma insert_fwd_b os i o p j o' : os !! i = Some o → os !! j = Some o' → ∃ o'', <[i := o <| pc := p |>]> os !! j = Some o'' ∧ bwho o'' = bwho o'.
Proof.
  intros Hi Hj. destruct (decide (j = i)) as [->|Hne]; [rewrite list_lookup_insert_eq by (by eapply lookup_lt_Some); simplify_eq; eauto|].
  rewrite list_lookup_insert_ne by done. eauto.
Qed.
Lemma b_calls_update os i o p : b_calls os → os !! i = Some o → b_active o →
  (b_holding p = true → ∀ j o', os !! j = Some o' → b_holding (pc o') = true → j = i) → b_calls (<[i := o <| pc := p |>]> os).
Proof.
  intros [H1 H2 H3 H4] Hi Ha Hh.
  assert (Hpair : ∀ j a, <[i := o <| pc := p |>]> os !! j = Some a → ∃ a0, os !! j = Some a0 ∧ bwho a = bwho a0 ∧ (b_active a → b_active a0)).
  { intros j a [[-> ->]|[_ Hj]]%(insert_back_b _ _ _ _ _ _ Hi); [by exists o|by exists a]. }
  split; intros j l a b.
  - intros (a0 & ? & -> & ?)%Hpair (b0 & ? & -> & ?)%Hpair ? ?. apply (H1 j l a0 b0); auto.
  - intros f (a0 & ? & -> & ?)%Hpair (b0 & ? & -> & ?)%Hpair ? ?. apply (H2 j l a0 b0 f); auto.
  - intros (a0 & ? & -> & ?)%Hpair (b0 & ? & -> & ?)%Hpair. by apply (H3 j l a0 b0).
  - intros [[-> ->]|[Hji Hj]]%(insert_back_b _ _ _ _ _ _ Hi) [[-> ->]|[Hki Hk]]%(insert_back_b _ _ _ _ _ _ Hi) Aa Ab; [done|..].
    + symmetry. by eapply Hh.
    + by eapply Hh.
    + by eapply H4.
Qed.

Lemma runs_active o : runs (pc o) = true → b_active o.
Proof. unfold b_active. by destruct (pc o). Qed.
Lemma runs_status x ls S i o : runs (pc o) = true → b_status x ls S i o →
  (done_pc (pc o) = true ↔ through S i) ∧ (handed (bwho o) (pc o) x ↔ handover S i).
Proof. unfold b_status. by destruct (pc o). Qed.
Lemma b_status_ext x ls S x1 l1 S1 i o : (through S1 i ↔ through S i) → (handover S1 i ↔ handover S i) →
  (b_active o → handed (bwho o) (pc o) x1 ↔ handed (bwho o) (pc o) x) →
  (∀ r, pc o = BHand r → taken x ls (bops S) r → taken x1 l1 (bops S1) r) → b_status x ls S i o → b_status x1 l1 S1 i o.
Proof.
  intros Ht Hh Hd Htk. unfold b_status, b_active in *. destruct (pc o); rewrite ?Ht, ?Hh; try rewrite (Hd I); try done.
  intros (? & ? & ? & ?). split_and!; auto.
Qed.
Lemma op_moved out c x ls x1 l1 S S1 j oj : bmoved out c x ls x1 l1 → data_unlinked x ls → (b_active oj → bnode (bwho oj) ≠ bnode c) →
  (∀ f, b_active oj → bfiber (bwho oj) = Some f → bfiber c ≠ Some f) → mem x1 !! bvalue (bwho oj) = mem x !! bvalue (bwho oj) →
  (through S1 j ↔ through S j) → (handover S1 j ↔ handover S j) →
  (∀ r, pc oj = BHand r → taken x ls (bops S) r → taken x1 l1 (bops S1) r) → b_op_ok size x ls S j oj → b_op_ok size x1 l1 S1 j oj.
Proof.
  intros Hmv Hdu Hn Hf Hm Hth Hho Htk [On Os Om Ost].
  assert (Hmo : b_active oj → node_ok (bwho oj) (pc oj) x1 l1 ∧ (handed (bwho oj) (pc oj) x1 ↔ handed (bwho oj) (pc oj) x))
    by (intros Ha; eapply other_moved; eauto).
  split; [intros Ha; by apply Hmo|done|by rewrite Hm|]. eapply b_status_ext; [done|done|intros Ha; by apply Hmo|done|done].
Qed.
Lemma drop_mem c p s d : mem (w (b_drop c p s)) !! d = mem (w s) !! d.
Proof. by destruct p. Qed.
Lemma through_after i o p m s os S j : through (b_after i o p m s os S) j ↔ through S j ∨ j = i ∧ m ≠ Nothing.
Proof. unfold through. simpl. destruct m; rewrite ?fmap_app, ?elem_of_app; simpl; set_solver. Qed.

Lemma status_after k1 c p s ls1 q S1 i x1 l1 m p' s' ls' out : (through S1 i ↔ moved_through p m) → (handover S1 i ↔ handed c p (w s)) →
  turned k1 c p s ls1 q p' m s' ls' out → x1 = w (b_drop c p' s') → (∀ r, p' = BHand r → taken x1 l1 (bops S1) r) → b_status x1 l1 S1 i (BOp c p').
Proof.
  intros Ht Hh Htn Hx Htk. pose proof (tn_status _ _ _ _ _ _ _ _ _ _ _ Htn) as Hs. unfold b_status. simpl.
  assert (Hsame : (∀ rc, p' ≠ BRet rc) → x1 = w s') by (intros Hne; rewrite Hx; destruct p'; try done; by destruct (Hne rc)).
  destruct p'; rewrite ?Ht, ?Hh; try rewrite Hsame by done; try done.
  - destruct Hs as (? & ? & ? & ? & ? & ? & ? & ?). split_and!; auto. rewrite <- Hsame by done. auto.
Qed.

Section turn.
Context (S : b_state) (ls : side → list ptr) (q : list (list Z)) (i : nat) (o : b_op) (p' : bpc) (m : moves).
Context (s' : ccchan) (ls' : side → list ptr) (out : option ptr).
Context (Hinv : b_inv k size S ls) (Hq : (puts S).*2 = (gots S).*2 ++ q) (Hrb : rbuf_inv k (bch S) q).
Context (Hi : bops S !! i = Some o) (Hrun : runs (pc o) = true).
Context (Hfree : locks (pc o) = true → mu_held (bch S) = false) (Ht : turned k (bwho o) (pc o) (bch S) ls q p' m s' ls' out).
Local Abbreviation S' := (b_after i o p' m s' (<[i := o <| pc := p' |>]> (bops S)) S).
Local Abbreviation x' := (w (b_drop (bwho o) p' s')).

Lemma tr_before : (done_pc (pc o) = true ↔ through S i) ∧ (handed (bwho o) (pc o) (w (bch S)) ↔ handover S i).
Proof using Hinv Hi Hrun. eapply runs_status; [done|]. by apply (bi_op _ _ _ _ Hinv). Qed.
Lemma tr_moved : bmoved out (bwho o) (w (bch S)) ls x' ls'.
Proof using Ht. apply bmoved_drop; apply Ht. Qed.
Lemma tr_lists : data_unlinked x' ls' ∧ send_none x' ls'.
Proof using Hinv Ht. eapply lists_after; [apply Ht|apply Ht|apply Hinv|apply Hinv|apply Ht]. Qed.
(** The turn only writes to the buffer of a call that had no value yet. *)
Lemma tr_values j oj : bops S !! j = Some oj → through S j ∨ handover S j ∨ j ≠ i → mem x' !! bvalue (bwho oj) = mem (w (bch S)) !! bvalue (bwho oj).
Proof using Hinv Hi Ht Hrun.
  intros Hj Hth. rewrite drop_mem. destruct (decide (j = i)) as [->|Hne].
  - simplify_eq. pose proof (tn_queue _ _ _ _ _ _ _ _ _ _ _ Ht) as Hm. destruct tr_before as [Hb1 Hb2]. destruct m as [|v|v]; [apply Hm|destruct Hm as (_ & _ & _ & -> & ->); done|].
    destruct Hm as (_ & Hd & Hl & _). exfalso. destruct Hth as [Hth|[Hth|?]]; [apply Hb1 in Hth; congruence|apply Hb2 in Hth as (_ & ? & _); congruence|done].
  - apply (tn_moved _ _ _ _ _ _ _ _ _ _ _ Ht). intros Heq. apply Hne. by eapply (bc_value _ (bi_calls _ _ _ _ Hinv)).
Qed.
Lemma tr_has_value sd j v : through S j ∨ handover S j → has_value (w (bch S)) (bops S) sd j v → has_value x' (<[i := o <| pc := p' |>]> (bops S)) sd j v.
Proof using Hinv Hi Ht Hrun.
  intros Hth. apply has_value_ops. intros oj Hj. split; [apply (tr_values j oj); naive_solver|by eapply insert_fwd_b].
Qed.
Lemma tr_new_value sd v : bdir (bwho o) = sd → mem (w s') !! bvalue (bwho o) = Some v → has_value x' (<[i := o <| pc := p' |>]> (bops S)) sd i v.
Proof using Hi.
  intros Hd Hm. exists (o <| pc := p' |>). simpl. rewrite drop_mem, list_lookup_insert_eq by (by eapply lookup_lt_Some). done.
Qed.
Lemma tr_nodup (l1 l2 : list nat) v : NoDup (l1 ++ l2) → ¬ (i ∈ l1 ∨ i ∈ l2) → NoDup ((l1 ++ [(i, v : list Z).1]) ++ l2).
Proof.
  intros Hnd Hn. rewrite <- app_assoc. simpl. assert (l1 ++ i :: l2 ≡ₚ i :: l1 ++ l2) as -> by by rewrite Permutation_middle.
  constructor; [|done]. by rewrite elem_of_app.
Qed.
(** A turn that moves something is the call's first transfer. *)
Lemma tr_first : m ≠ Nothing → ¬ through S i ∧ ¬ handover S i.
Proof using Hinv Hi Ht Hrun.
  intros Hm. destruct tr_before as [<- <-]. pose proof (tn_queue _ _ _ _ _ _ _ _ _ _ _ Ht) as Hmq.
  destruct m as [|v|v]; [done|destruct Hmq as (Hd & -> & _)|destruct Hmq as (_ & -> & Hl & _)]; (split; [done|]).
  - intros (? & _). congruence.
  - intros (_ & ? & _). congruence.
Qed.
Lemma tr_logs : b_logs x' S'.
Proof using Hinv Hi Ht Hrun.
  destruct (bi_logs _ _ _ _ Hinv) as [L1 L2 L3 L4 L5]. pose proof tr_first as Hf. pose proof (tn_queue _ _ _ _ _ _ _ _ _ _ _ Ht) as Hmq.
  assert (Hp : ∀ j v, (j, v) ∈ puts S → has_value x' (<[i := o <| pc := p' |>]> (bops S)) SendQ j v).
  { intros j v Hin. apply tr_has_value; [|by apply L3]. left. left. apply list_elem_of_fmap. by exists (j, v). }
  assert (Hg : ∀ j v, (j, v) ∈ gots S → has_value x' (<[i := o <| pc := p' |>]> (bops S)) RecvQ j v).
  { intros j v Hin. apply tr_has_value; [|by apply L4]. left. right. apply list_elem_of_fmap. by exists (j, v). }
  split; simpl.
  - destruct m as [|v|v]; try done. destruct Hf as [Hf1 Hf2]; [done|]. rewrite fmap_app. apply (tr_nodup _ _ v); [done|].
    intros [?|?]; [apply Hf1; by left|apply Hf2; by left].
  - destruct m as [|v|v]; try done. destruct Hf as [Hf1 Hf2]; [done|]. rewrite fmap_app. apply (tr_nodup _ _ v); [done|].
    intros [?|?]; [apply Hf1; by right|apply Hf2; by right].
  - destruct m as [|v|v]; try done. intros j u [?|[= -> ->]%list_elem_of_singleton]%elem_of_app; [by apply Hp|].
    destruct Hmq as (Hd & _ & _ & _ & Hm). by apply tr_new_value.
  - destruct m as [|v|v]; try done. intros j u [?|[= -> ->]%list_elem_of_singleton]%elem_of_app; [by apply Hg|].
    destruct Hmq as (Hd & _ & _ & q' & _ & _ & Hm). by apply tr_new_value.
  - intros a b v Hin. destruct (L5 a b v Hin). split; (apply tr_has_value; [|done]); right; [left|right]; apply list_elem_of_fmap; by exists (a, b, v).
Qed.
Lemma tr_queue : (∃ q', rbuf_inv k (b_drop (bwho o) p' s') q' ∧ (puts S').*2 = (gots S').*2 ++ q') ∧
  (topo s' ≠ TOPO_1_1 → ring_tail (rq s') ≤ Z.of_nat (length (puts S'))).
Proof using Hinv Hq Hrb Ht.
  pose proof (tn_queue _ _ _ _ _ _ _ _ _ _ _ Ht) as Hmq. pose proof (tn_tail _ _ _ _ _ _ _ _ _ _ _ Ht) as Htl. pose proof (tn_cfg _ _ _ _ _ _ _ _ _ _ _ Ht) as Hcfg.
  assert (Hdr : ∀ q', rbuf_inv k s' q' → rbuf_inv k (b_drop (bwho o) p' s') q') by (intros q' []; by destruct p'; split).
  assert (Etopo : topo s' = topo (bch S)) by (unfold cfg in Hcfg; congruence). rewrite Etopo. pose proof (bi_tail _ _ _ _ Hinv) as Hb. unfold kept_tail in Htl.
  destruct m as [|v|v]; simpl.
  - split; [exists q; split; [apply Hdr, Hmq|done]|]. intros Hne. rewrite Htl by done. auto.
  - destruct Hmq as (_ & _ & Hq' & _). split; [exists (q ++ [v]); split; [auto|by rewrite fmap_app, Hq, app_assoc]|].
    intros Hne. rewrite length_app. simpl. specialize (Htl (rb_lf _ _ _ Hrb) Hne). specialize (Hb Hne). lia.
  - destruct Hmq as (_ & _ & _ & q' & Eq & Hq' & _). split; [exists q'; split; [auto|by rewrite fmap_app, Hq, Eq, <- app_assoc]|].
    intros Hne. rewrite Htl by done. auto.
Qed.
Lemma tr_node : b_active (o <| pc := p' |>) → node_ok (bwho o) p' x' ls'.
Proof using Ht. intros Ha. pose proof (tn_node _ _ _ _ _ _ _ _ _ _ _ Ht) as Hn. unfold b_active in Ha. by destruct p'. Qed.
Lemma tr_linked sd r : r ∈ ls' sd → ∃ j oj, <[i := o <| pc := p' |>]> (bops S) !! j = Some oj ∧ bnode (bwho oj) = r ∧ bdir (bwho oj) = sd ∧ linked_pc (pc oj) = true.
Proof using Hinv Hi Ht Hrun.
  intros Hin. destruct (decide (r = bnode (bwho o))) as [->|Hne].
  - exists i, (o <| pc := p' |>). rewrite list_lookup_insert_eq by (by eapply lookup_lt_Some). simpl. split_and!; [done|done|..];
      pose proof (tn_node _ _ _ _ _ _ _ _ _ _ _ Ht) as Hn; unfold node_ok in Hn; destruct (linked_pc p'); try done; destruct Hn as [Hn1 Hn2]; try by destruct (Hn1 sd).
    destruct (bdir (bwho o)), sd; simpl in Hn2; done.
  - destruct (bi_linked _ _ _ _ Hinv sd r) as (j & oj & Hj & Hn & Hd & Hl); [by apply (bm_ls _ _ _ _ _ _ tr_moved)|].
    exists j, oj. rewrite list_lookup_insert_ne; [done|]. intros <-. by simplify_eq.
Qed.
Lemma tr_taken r : mu_held (bch S) = true → taken (w (bch S)) ls (bops S) r → taken x' ls' (<[i := o <| pc := p' |>]> (bops S)) r.
Proof using Hinv Hi Ht Hrun Hfree.
  intros Hmu (Hst & Hout & j & oj & Hj & Hn & Hd & Hl). assert (Hlk : locks (pc o) = false) by (destruct (locks (pc o)); [by rewrite Hfree in Hmu|done]).
  destruct (decide (j = i)) as [->|Hji].
  - simplify_eq. destruct (tn_stay _ _ _ _ _ _ _ _ _ _ _ Ht Hl Hlk) as [(_ & _ & ?)|(Hl' & Hst' & Hls)]; [congruence|].
    assert (Edr : b_drop (bwho o) p' s' = s') by by destruct p'. rewrite Edr. split_and!; [congruence|intros sd Hin; by apply (Hout sd), Hls|].
    exists i, (o <| pc := p' |>). by rewrite list_lookup_insert_eq by (by eapply lookup_lt_Some).
  - assert (Hne : r ≠ bnode (bwho o)).
    { intros ->. apply Hji. eapply (bc_frame _ (bi_calls _ _ _ _ Hinv)); [done|done|by apply active_linked|by apply runs_active|done]. }
    pose proof tr_moved as Hmv. split_and!.
    + destruct (bm_st _ _ _ _ _ _ Hmv r Hne) as [->|([sd Hin] & _)]; [done|by destruct (Hout sd)].
    + intros sd Hin. by apply (Hout sd), (bm_ls _ _ _ _ _ _ Hmv).
    + exists j, oj. by rewrite list_lookup_insert_ne.
Qed.
Lemma tr_other j oj : j ≠ i → bops S !! j = Some oj → b_op_ok size x' ls' S' j oj.
Proof using Hinv Hi Ht Hrun Hfree.
  intros Hji Hj. eapply (op_moved _ _ _ _ _ _ S); [apply tr_moved|apply Hinv|..|by apply (bi_op _ _ _ _ Hinv)].
  - intros Ha Heq. apply Hji. eapply (bc_frame _ (bi_calls _ _ _ _ Hinv)); [done|done|done|by apply runs_active|done].
  - intros f Ha Hf Hf'. apply Hji. eapply (bc_fiber _ (bi_calls _ _ _ _ Hinv)); [done|done|done|by apply runs_active|done|done].
  - apply (tr_values j oj); auto.
  - rewrite through_after. naive_solver.
  - done.
  - intros r Er. apply tr_taken. eapply (bi_lock _ _ _ _ Hinv); [done|by rewrite Er].
Qed.
Lemma tr_self : b_op_ok size x' ls' S' i (o <| pc := p' |>).
Proof using All.
  pose proof (tn_status _ _ _ _ _ _ _ _ _ _ _ Ht) as Hst. destruct tr_before as [Hb1 Hb2].
  assert (Hth : through S' i ↔ moved_through (pc o) m) by (rewrite through_after; unfold moved_through; naive_solver).
  split; simpl.
  - apply tr_node.
  - apply Ht.
  - rewrite drop_mem. destruct (bo_mem _ _ _ _ _ _ (bi_op _ _ _ _ Hinv i o Hi)) as (u & Hu & Hlen). pose proof (tn_queue _ _ _ _ _ _ _ _ _ _ _ Ht) as Hmq.
    destruct m as [|v|v].
    + destruct Hmq as [_ ->]. eauto.
    + destruct Hmq as (_ & _ & _ & ? & ->). exists v. split; [done|]. simplify_eq. done.
    + destruct Hmq as (_ & _ & _ & q' & -> & _ & ->). exists v. split; [done|]. pose proof (rbuf_elems _ _ Hrb) as He. apply Forall_cons in He as [He _].
      by rewrite He, (bi_size _ _ _ _ Hinv).
  - apply (status_after k (bwho o) (pc o) (bch S) ls q S' i x' ls' m p' s' ls' out); [exact Hth|by rewrite Hb2|exact Ht|done|]. intros r Er. rewrite Er in Hst.
    destruct Hst as (Hd & _ & _ & _ & _ & Hr & Hout & Hrs). destruct (bi_linked _ _ _ _ Hinv _ _ Hr) as (j & oj & Hj & Hn & Hdj & Hl).
    assert (Edr : b_drop (bwho o) p' s' = s') by by rewrite Er. rewrite Edr. split_and!; [done|done|].
    exists j, oj. simpl. rewrite list_lookup_insert_ne; [done|]. intros ->. simplify_eq. congruence.
Qed.
Lemma tr_inv : b_inv k size S' ls'.
Proof using All.
  pose proof (tn_cfg _ _ _ _ _ _ _ _ _ _ _ Ht) as Hcfg. destruct tr_lists as [Hdu Hsn]. destruct tr_queue as [Hqu Htl].
  assert (Hdrop : ∀ (A : Type) (f : ccchan → A), (∀ s g, f (s <| w ::= g |>) = f s) → f (b_drop (bwho o) p' s') = f s') by (intros A f Hf; destruct p'; try done; apply Hf).
  pose proof (tn_lock _ _ _ _ _ _ _ _ _ _ _ Ht) as Hlk. pose proof (tn_status _ _ _ _ _ _ _ _ _ _ _ Ht) as Hst.
  assert (Hnew : b_holding p' = true → locks (pc o) = true ∧ mu_held s' = true).
  { intros Hh. rewrite Hlk. destruct p'; try done. destruct Hst as (_ & -> & _). done. }
  assert (Hhold : ∀ j oj, bops S !! j = Some oj → b_holding (pc oj) = true → locks (pc o) = false ∧ mu_held (bch S) = true).
  { intros j oj Hj Hh. pose proof (bi_lock _ _ _ _ Hinv j oj Hj Hh) as Hm. split; [|done]. destruct (locks (pc o)); [by rewrite Hfree in Hm|done]. }
  split; simpl.
  - apply tr_moved.
  - done.
  - done.
  - done.
  - rewrite (Hdrop _ elem_size) by done. destruct (cfg_closed _ _ Hcfg) as (_ & _ & _ & _ & _ & ->). apply Hinv.
  - rewrite (Hdrop _ topo), (Hdrop _ rq) by done. done.
  - pose proof (bi_codes _ _ _ _ Hinv) as Hc. unfold codes_ok. rewrite (Hdrop _ rx_error_closed), (Hdrop _ rx_error_code) by done.
    unfold cfg in Hcfg. injection Hcfg as ? ? ? ? E1 E2 ?. by rewrite E1, E2.
  - apply tr_linked.
  - apply b_calls_update; [apply Hinv|done|by apply runs_active|]. intros Hh j oj Hj Hhj. destruct (Hhold j oj Hj Hhj). destruct (Hnew Hh). congruence.
  - intros j oj Hj. destruct (insert_back_b _ _ _ _ _ _ Hi Hj) as [[-> ->]|[Hne Hj']]; [apply tr_self|by apply tr_other].
  - apply tr_logs.
  - intros j oj Hj Hh. rewrite (Hdrop _ mu_held) by done. destruct (insert_back_b _ _ _ _ _ _ Hi Hj) as [[-> ->]|[Hne Hj']]; [by apply Hnew|].
    destruct (Hhold j oj Hj' Hh) as [El Hm]. rewrite Hlk, El, Hm. by destruct p'.
Qed.
End turn.

Lemma turn_inv S ls i o nc gd p' m s' : env_recv_dedupe env = true → b_inv k size S ls → in_range S → bops S !! i = Some o →
  b_turn env size (bwho o) nc gd (pc o) (bch S) = Some ((p', m), s') →
  ∃ ls' q out, turned k (bwho o) (pc o) (bch S) ls q p' m s' ls' out ∧
    b_inv k size (b_after i o p' m s' (<[i := o <| pc := p' |>]> (bops S)) S) ls'.
Proof.
  intros Hdd Hinv Hrg Hi Hrun. destruct (bi_queue _ _ _ _ Hinv) as (q & Hrb & Hq).
  pose proof (turn_runs _ _ _ _ _ _ Hrun) as Hr. pose proof (turn_free _ _ _ _ _ _ Hrun) as Hlk.
  pose proof (wp_unfold _ _ _ _ _ Hrun (turn_good _ _ _ _ _ nc gd Hdd Hinv Hrg Hrb Hi Hr Hlk)) as (ls' & out & Ht). exists ls', q, out. simpl in Ht.
  split; [done|]. by eapply tr_inv.
Qed.
End step.
