(* ===== verification/ChanBufKeep.v ===== *)
(** The other steps of blocking calls (the two halves of a handoff, a new call,
    closing) keep the invariant, hence every step does. *)
From S2P Require Import Prelude ChanTypes WaitList WaitShape WaitQuiet WaitInv WaitOps WaitPop WaitWake WaitSteps Bytes Ring Chan ChanSpec ChanTry ChanClose ChanHandoff ChanRv ChanRvFrame ChanRvSpec ChanRvInv ChanBuf ChanBufSpec ChanBufTurn ChanBufInv.

Local Open Scope Z_scope.

Section keep.
Context `{!LfdsQueue} (env : chan_env) (k : Z) (size : nat).
Implicit Types (S : b_state) (x : wstate) (o : b_op) (os : list b_op) (c : bcaller) (p : bpc) (ls : side → list ptr) (i j : nat).

(** * Publishing a handoff *)

Record published S ls i o (r : ptr) x' j oj v : Prop := {
  pu_op : bops S !! i = Some o; pu_pc : pc o = BHand r; pu_partner : bops S !! j = Some oj; pu_ne : i ≠ j;
  pu_dir : bdir (bwho o) = SendQ; pu_rdir : bdir (bwho oj) = RecvQ; pu_linked : linked_pc (pc oj) = true; pu_node : bnode (bwho oj) = r;
  pu_out : ∀ sd, r ∉ ls sd; pu_value : mem (w (bch S)) !! bvalue (bwho o) = Some v; pu_len : length v = size;
  pu_fresh : ¬ through S i ∧ ¬ handover S i ∧ ¬ through S j ∧ ¬ handover S j;
  pu_state : ∃ n, own (bwho oj) (w (bch S)) n ∧
    x' = (w (bch S)) <| mem := <[bvalue (bwho oj) := v]> (mem (w (bch S))) |> <| nodes := <[r := n <| notified := NOTIFY_DATA |>]> (nodes (w (bch S))) |> }.

Lemma linked_status x ls S i o : linked_pc (pc o) = true → b_status x ls S i o ↔
  (done_pc (pc o) = true ↔ through S i) ∧ (handed (bwho o) (pc o) x ↔ handover S i).
Proof. unfold b_status. by destruct (pc o). Qed.
Lemma linked_recv_not_done o : bdir (bwho o) = RecvQ → sided (bwho o) (pc o) → linked_pc (pc o) = true → done_pc (pc o) = false.
Proof. intros Hd Hs Hl. unfold sided in Hs. rewrite Hd in Hs. destruct (pc o); try done. by specialize (Hs SendQ eq_refl). Qed.
Lemma publish_facts_b S ls i o r x' j oj v : b_inv k size S ls → bops S !! i = Some o → pc o = BHand r →
  b_publish (bwho o) r (w (bch S)) = Some (tt, x') → bops S !! j = Some oj → b_active oj → bnode (bwho oj) = r →
  mem x' !! bvalue (bwho o) = Some v → published S ls i o r x' j oj v.
Proof.
  intros Hinv Hi Hpc Hrun Hj Ha Hn Hv. destruct (bi_op _ _ _ _ Hinv i o Hi) as [_ _ (u & Hu & Hlen) Hst]. unfold b_status in Hst. rewrite Hpc in Hst.
  destruct Hst as (Hd & Hnt & Hnh & Hrs & Hout & j' & oj' & Hj' & Hn' & Hd' & Hl).
  assert (j' = j) as -> by (eapply (bc_frame _ (bi_calls _ _ _ _ Hinv)); [done|done|by apply active_linked|done|congruence]). simplify_eq.
  assert (Hij : i ≠ j) by (intros ->; simplify_eq; by rewrite Hpc in Hl).
  assert (Hvne : bvalue (bwho o) ≠ bvalue (bwho oj)) by (intros Heq; apply Hij; by eapply (bc_value _ (bi_calls _ _ _ _ Hinv))).
  destruct (bi_op _ _ _ _ Hinv j oj Hj) as [On Os _ Ost]. specialize (On Ha). unfold node_ok in On. rewrite Hl in On. destruct On as [(n & Hown) _].
  pose proof Hown as (Hnl & Hcore & _). apply linked_status in Ost; [|done]. pose proof (linked_recv_not_done _ Hd' Os Hl) as Hnd.
  assert (Hdata : data n = Some (bvalue (bwho oj))) by (unfold core, new_bnode in Hcore; rewrite Hd' in Hcore; simpl in Hcore; congruence).
  revert Hrun. unfold b_publish, load, load_mem, write_data, store, modify, mbind, M_bind. rewrite Hnl, Hu, Hdata. simpl. rewrite Hnl. intros [= <-].
  simpl in Hv. rewrite lookup_insert_ne in Hv by done. simplify_eq. split; try done.
  - split_and!; [done|done|by rewrite <- (proj1 Ost), Hnd|]. rewrite <- (proj2 Ost). intros (_ & _ & Hs). congruence.
  - exists n. done.
Qed.

Definition handed_over S i o r x' j v : b_state :=
  BState ((bch S) <| w := x' |>) (<[i := o <| pc := BTail r |>]> (bops S)) (puts S) (gots S) (hands S ++ [(i, j, v)]).
Section publish.
Context S ls i o nd x' j oj v (Hinv : b_inv k size S ls) (Hp : published S ls i o nd x' j oj v).
Local Abbreviation S' := (handed_over S i o nd x' j v).

Lemma pu_moved : bmoved None (bwho oj) (w (bch S)) ls x' ls ∧ (∃ n, own (bwho oj) x' n) ∧ st x' nd = Some NOTIFY_DATA ∧
  mem x' = <[bvalue (bwho oj) := v]> (mem (w (bch S))).
Proof using All.
  destruct (pu_state _ _ _ _ _ _ _ _ _ Hp) as (n & Hown & ->). pose proof (pu_out _ _ _ _ _ _ _ _ _ Hp) as Hout. pose proof (pu_node _ _ _ _ _ _ _ _ _ Hp) as Hnode.
  set (x1 := (w (bch S)) <| mem := _ |>). assert (Hi1 : wq_inv x1 ls) by apply mem_inv, Hinv.
  assert (Ho1 : own (bwho oj) x1 n) by done. rewrite <- Hnode in Hout |- *.
  destruct (own_notify (bwho oj) x1 ls n NOTIFY_DATA Hi1 Ho1 Hout) as [Hmv Hown']. split_and!; [|by eexists| |done].
  - eapply bmoved_trans; [|exact Hmv]. split; auto. intros d Hd. unfold x1. simpl. by rewrite lookup_insert_ne.
  - unfold st. simpl. by rewrite lookup_insert_eq.
Qed.
Lemma pu_handover l : handover S' l ↔ handover S l ∨ l = i ∨ l = j.
Proof. unfold handover, senders, receivers. simpl. rewrite !fmap_app, !elem_of_app. simpl. set_solver. Qed.
Lemma pu_values sd l u : through S l ∨ handover S l → has_value (w (bch S)) (bops S) sd l u → has_value x' (<[i := o <| pc := BTail nd |>]> (bops S)) sd l u.
Proof using All.
  intros Hl. destruct pu_moved as (_ & _ & _ & Hm). destruct (pu_fresh _ _ _ _ _ _ _ _ _ Hp) as (_ & _ & Hj1 & Hj2). apply has_value_ops. intros ol Hol.
  split; [|eapply insert_fwd_b; [apply Hp|done]]. rewrite Hm, lookup_insert_ne; [done|]. intros Heq.
  assert (l = j) as ->; [|naive_solver]. eapply (bc_value _ (bi_calls _ _ _ _ Hinv)); [done|apply Hp|done].
Qed.
Lemma pu_logs : b_logs x' S'.
Proof using All.
  destruct (bi_logs _ _ _ _ Hinv) as [L1 L2 L3 L4 L5]. destruct (pu_fresh _ _ _ _ _ _ _ _ _ Hp) as (Hi1 & Hi2 & Hj1 & Hj2).
  destruct pu_moved as (_ & _ & _ & Hm). split; simpl.
  - unfold senders. rewrite fmap_app, app_assoc. apply NoDup_app. split_and!; [done| |apply NoDup_singleton].
    intros l Hl Hs%list_elem_of_singleton. simpl in Hs. subst l. apply elem_of_app in Hl as [?|?]; [apply Hi1; by left|apply Hi2; by left].
  - unfold receivers. rewrite fmap_app, app_assoc. apply NoDup_app. split_and!; [done| |apply NoDup_singleton].
    intros l Hl Hs%list_elem_of_singleton. simpl in Hs. subst l. apply elem_of_app in Hl as [?|?]; [apply Hj1; by right|apply Hj2; by right].
  - intros l u Hin. apply pu_values; [|by apply L3]. left; left. apply list_elem_of_fmap. by exists (l, u).
  - intros l u Hin. apply pu_values; [|by apply L4]. left; right. apply list_elem_of_fmap. by exists (l, u).
  - intros a b u [Hin|[= -> -> ->]%list_elem_of_singleton]%elem_of_app.
    + destruct (L5 a b u Hin). split; (apply pu_values; [|done]); right; [left|right]; apply list_elem_of_fmap; by exists (a, b, u).
    + split.
      * exists (o <| pc := BTail nd |>). simpl. rewrite list_lookup_insert_eq by (eapply lookup_lt_Some; apply Hp). rewrite Hm, lookup_insert_ne; [split_and!; apply Hp||done|].
        intros Heq. apply (pu_ne _ _ _ _ _ _ _ _ _ Hp). symmetry. eapply (bc_value _ (bi_calls _ _ _ _ Hinv)); [apply Hp|apply Hp|done].
      * exists oj. rewrite list_lookup_insert_ne by apply Hp. rewrite Hm, lookup_insert_eq. split_and!; try done; apply Hp.
Qed.
Lemma pu_ops l ol : <[i := o <| pc := BTail nd |>]> (bops S) !! l = Some ol → b_op_ok size x' ls S' l ol.
Proof using All.
  destruct pu_moved as (Hmv & Hown & Hst & Hm). pose proof (pu_op _ _ _ _ _ _ _ _ _ Hp) as Hi. pose proof (pu_partner _ _ _ _ _ _ _ _ _ Hp) as Hj.
  pose proof (pu_pc _ _ _ _ _ _ _ _ _ Hp) as Hpc. pose proof (pu_linked _ _ _ _ _ _ _ _ _ Hp) as Hl. pose proof (pu_ne _ _ _ _ _ _ _ _ _ Hp) as Hij.
  assert (Hmem : ∀ a oa, bops S !! a = Some oa → a ≠ j → mem x' !! bvalue (bwho oa) = mem (w (bch S)) !! bvalue (bwho oa)).
  { intros a oa Ha Hne. rewrite Hm, lookup_insert_ne; [done|]. intros Heq. apply Hne. by eapply (bc_value _ (bi_calls _ _ _ _ Hinv)). }
  assert (Hfr : ∀ a oa, bops S !! a = Some oa → b_active oa → a ≠ j → bnode (bwho oa) ≠ bnode (bwho oj) ∧
    ∀ f, bfiber (bwho oa) = Some f → bfiber (bwho oj) ≠ Some f).
  { intros a oa Ha Act Hne. pose proof (active_linked _ Hl). split; [intros Heq|intros f Hf Hf']; apply Hne;
      [by eapply (bc_frame _ (bi_calls _ _ _ _ Hinv))|by eapply (bc_fiber _ (bi_calls _ _ _ _ Hinv))]. }
  intros Hk. destruct (insert_back_b _ _ _ _ _ _ Hi Hk) as [[-> ->]|[Hli Hl2]].
  - destruct (bi_op _ _ _ _ Hinv i o Hi) as [On Os Om _]. assert (Ha : b_active o) by (unfold b_active; by rewrite Hpc).
    destruct (Hfr i o Hi Ha Hij) as [Hn Hf]. split; simpl.
    + intros _. destruct (other_moved _ _ _ _ _ _ _ _ Hmv (bi_data _ _ _ _ Hinv) Hn Hf (On Ha)) as [Hok _]. by rewrite Hpc in Hok.
    + done.
    + by rewrite (Hmem i o).
    + unfold b_status. simpl. rewrite pu_handover. auto.
  - destruct (decide (l = j)) as [->|Hlj].
    + simplify_eq. destruct (bi_op _ _ _ _ Hinv j oj Hj) as [On Os Om Ost]. pose proof (pu_rdir _ _ _ _ _ _ _ _ _ Hp) as Hd. split.
      * intros Ha. specialize (On Ha). unfold node_ok in *. rewrite Hl in *. destruct On. done.
      * done.
      * rewrite Hm, lookup_insert_eq. exists v. split; [done|apply Hp].
      * apply linked_status in Ost as [Ht _]; [|done]. apply linked_status; [done|]. split; [done|]. rewrite pu_handover. split; [auto|].
        intros _. split_and!; [done|done|]. by rewrite (pu_node _ _ _ _ _ _ _ _ _ Hp).
    + eapply (op_moved _ _ _ _ _ _ _ S); [exact Hmv|apply Hinv|..|by apply (bi_op _ _ _ _ Hinv)].
      * intros Ha. by apply (Hfr l ol).
      * intros f Ha. by apply (Hfr l ol).
      * by apply (Hmem l).
      * done.
      * rewrite pu_handover. naive_solver.
      * intros r Er. destruct Hli. eapply (bc_lock _ (bi_calls _ _ _ _ Hinv)); [done|done|by rewrite Er|by rewrite Hpc].
Qed.
Lemma publish_inv_b : b_inv k size S' ls.
Proof using All.
  destruct pu_moved as (Hmv & Hown & Hst & Hm). pose proof (pu_op _ _ _ _ _ _ _ _ _ Hp) as Hi. pose proof (pu_pc _ _ _ _ _ _ _ _ _ Hp) as Hpc.
  assert (Hout : ∀ sd r, r ∈ ls sd → r ≠ bnode (bwho oj)).
  { intros sd r Hin ->. rewrite (pu_node _ _ _ _ _ _ _ _ _ Hp) in Hin. by apply (pu_out _ _ _ _ _ _ _ _ _ Hp sd). }
  assert (Hkeep : ∀ sd r, r ∈ ls sd → st x' r = st (w (bch S)) r).
  { intros sd r Hin. destruct (pu_state _ _ _ _ _ _ _ _ _ Hp) as (n & _ & ->). unfold st. simpl. rewrite lookup_insert_ne; [done|].
    intros <-. by apply (pu_out _ _ _ _ _ _ _ _ _ Hp sd). }
  split; simpl.
  - apply Hmv.
  - intros sd r Hin. rewrite (Hkeep sd r Hin). by eapply (bi_data _ _ _ _ Hinv).
  - intros r Hin. rewrite (Hkeep _ r Hin). by apply (bi_send _ _ _ _ Hinv).
  - destruct (bi_queue _ _ _ _ Hinv) as (q & Hq & ?). exists q. split; [|done]. by destruct Hq.
  - apply Hinv.
  - apply Hinv.
  - apply Hinv.
  - intros sd r Hin. destruct (bi_linked _ _ _ _ Hinv sd r Hin) as (a & oa & Ha & Hn & Hd & Hl). exists a, oa. rewrite list_lookup_insert_ne; [done|].
    intros <-. simplify_eq. by rewrite Hpc in Hl.
  - apply b_calls_update; [apply Hinv|done|unfold b_active; by rewrite Hpc|]. intros _ a oa Ha Hh. eapply (bc_lock _ (bi_calls _ _ _ _ Hinv)); [done|done|done|by rewrite Hpc].
  - apply pu_ops.
  - apply pu_logs.
  - intros a oa Ha Hh. eapply (bi_lock _ _ _ _ Hinv); [exact Hi|by rewrite Hpc].
Qed.
End publish.

(** * After publishing *)

(** The two states agree on what the calls see. *)
Record b_same x ls x' : Prop := {
  bs_inv : wq_inv x' ls; bs_nodes : nodes x' = nodes x; bs_mem : mem x' = mem x; bs_tickets : tickets x' = tickets x }.
Lemma b_same_quiet x ls x1 x2 : b_same x ls x1 → quiet x1 x2 → b_same x ls x2.
Proof. intros [Hi Hn Hm Ht] Hq. pose proof Hq as []. split; [by eapply quiet_inv|congruence..]. Qed.
Lemma b_same_moved c x ls x' : b_same x ls x' → bmoved None c x ls x' ls.
Proof.
  intros [Hi Hn Hm Ht]. assert (Hst : ∀ r, st x' r = st x r) by (intros r; unfold st; by rewrite Hn).
  split; auto; [intros d _; by rewrite Hm|intros r _; by rewrite Hn|intros f _; by rewrite Ht].
Qed.
Lemma finish_spec_b nd n s ls : mu_held s = true → wq_inv (w s) ls → nodes (w s) !! nd = Some n →
  wp (b_finish nd) (λ _ s', same_queue s s' ∧ mu_held s' = false ∧ b_same (w s) ls (w s')) s.
Proof.
  intros Hm Hi Hn. unfold b_finish, rv_recv_dec, upd_ch. wp_step. apply wp_liftw. wp_step. set (x1 := (w s) <| ch ::= _ |>).
  assert (B1 : b_same (w s) ls x1) by (split; try done; by apply ChanHandoff.rv_inv). pose proof (bs_inv _ _ _ B1) as Hi1.
  wp_step. apply wp_liftw. simpl. eapply wp_mono; [eapply bump_signaled_spec; [apply Hi1|done]|]. cbv beta. intros [] x2 (Q2 & _ & _).
  pose proof (b_same_quiet _ _ _ _ B1 Q2) as B2. wp_step. apply wp_liftw, (wp_load _ n); [simpl; by rewrite (qt_nodes _ _ Q2)|]. cbv beta.
  wp_step. apply wp_liftw. simpl. eapply wp_mono; [apply handoff_wake_spec, B2|]. cbv beta. intros [] x3 [Q3 _].
  pose proof (b_same_quiet _ _ _ _ B2 Q3) as B3. wp_step. apply wp_unlock; [done|]. wp_step. apply wp_liftw. simpl.
  eapply wp_mono; [apply wake_batch_flush_spec, B3|]. cbv beta. intros [] x4 (Q4 & _). pose proof (b_same_quiet _ _ _ _ B3 Q4) as B4.
  apply wp_liftw. simpl. eapply wp_mono; [apply signal_recv_ready_spec|]. cbv beta. intros [] x5 [Q5 _].
  split_and!; simpl; [by destruct s|done|]. by eapply b_same_quiet.
Qed.
(** A receiver that has gone leaves the sender reading a dead node. *)
Lemma finish_faults_b nd s : nodes (w s) !! nd = None → b_finish nd s = None.
Proof.
  intros Hn. unfold b_finish, rv_recv_dec, upd_ch, bump_signaled, liftw, load, mbind, M_bind, modify; simpl; by rewrite Hn.
Qed.
(** A state in which everybody's calls look the same. *)
Lemma queue_inv s s' q : same_queue s s' → rbuf_inv k s q → rbuf_inv k s' q ∧ elem_size s' = elem_size s ∧ topo s' = topo s ∧ rq s' = rq s ∧
  (codes_ok s → codes_ok s').
Proof. intros Hs Hq. split; [by eapply rbuf_same|]. rewrite Hs. split_and!; try done. Qed.
Lemma finish_inv_b S ls i o nd s' : b_inv k size S ls → bops S !! i = Some o → pc o = BTail nd → b_finish nd (bch S) = Some (tt, s') →
  b_inv k size (b_after i o (BRet 0) Nothing s' (<[i := o <| pc := BRet 0 |>]> (bops S)) S) ls.
Proof.
  intros Hinv Hi Hpc Hrun. assert (Ha : b_active o) by (unfold b_active; by rewrite Hpc). assert (Hh : b_holding (pc o) = true) by by rewrite Hpc.
  pose proof (bi_lock _ _ _ _ Hinv i o Hi Hh) as Hmu. destruct (nodes (w (bch S)) !! nd) as [n|] eqn:Hn; [|by rewrite (finish_faults_b _ _ Hn) in Hrun].
  pose proof (wp_unfold _ _ _ _ _ Hrun (finish_spec_b nd n _ ls Hmu (bi_wq _ _ _ _ Hinv) Hn)) as (Hsq & Hmu' & Hsame).
  destruct (bi_op _ _ _ _ Hinv i o Hi) as [On Os Om Ost]. unfold b_status in Ost. rewrite Hpc in Ost. specialize (On Ha). rewrite Hpc in On. destruct On as [Hout _].
  pose proof (b_same_moved (bwho o) _ _ _ Hsame) as Hmv0. assert (Hno : node_ok (bwho o) (BRet 0) (w s') ls) by done.
  pose proof (bmoved_drop _ _ _ _ _ _ _ Hmv0 Hno) as Hmv. destruct (bi_queue _ _ _ _ Hinv) as (q & Hrb & Hq).
  destruct (queue_inv _ _ _ Hsq Hrb) as (Hrb' & Esz & Etp & Erq & Hcd).
  destruct (lists_after _ _ _ _ _ _ _ Hmv0 Hno (bi_data _ _ _ _ Hinv) (bi_send _ _ _ _ Hinv)) as [Hdu Hsn]; [by intros sd ?%Hout|].
  assert (Hmem : mem (w (b_drop (bwho o) (BRet 0) s')) = mem (w (bch S))) by apply Hsame.
  assert (Hone : ∀ j oj, bops S !! j = Some oj → b_holding (pc oj) = true → j = i) by (intros; by eapply (bc_lock _ (bi_calls _ _ _ _ Hinv))).
  split.
  - apply Hmv.
  - done.
  - done.
  - exists q. split; [by destruct Hrb'|done].
  - simpl. rewrite <- (bi_size _ _ _ _ Hinv), <- Esz. done.
  - simpl. rewrite Etp, Erq. apply Hinv.
  - exact (Hcd (bi_codes _ _ _ _ Hinv)).
  - intros sd r Hin. destruct (bi_linked _ _ _ _ Hinv sd r Hin) as (j & oj & Hj & Hnj & Hd & Hl). exists j, oj. simpl. rewrite list_lookup_insert_ne; [done|].
    intros <-. simplify_eq. by rewrite Hpc in Hl.
  - by apply b_calls_update; [apply Hinv| | |].
  - intros j oj Hj. simpl in Hj. destruct (insert_back_b _ _ _ _ _ _ Hi Hj) as [[-> ->]|[Hne Hj']].
    + split; simpl; [by intros []|by intros ? ?|by rewrite (bs_mem _ _ _ Hsame)|]. unfold b_status. simpl. split; [intros _; by right|done].
    + eapply (op_moved _ _ _ _ _ _ _ S); [exact Hmv|apply Hinv|..|by apply (bi_op _ _ _ _ Hinv)].
      * intros Aj Heq. apply Hne. by eapply (bc_frame _ (bi_calls _ _ _ _ Hinv)).
      * intros f Aj Hf Hf'. apply Hne. by eapply (bc_fiber _ (bi_calls _ _ _ _ Hinv)).
      * by rewrite <- Hmem.
      * done.
      * done.
      * intros r Er. destruct Hne. eapply Hone; [done|by rewrite Er].
  - destruct (bi_logs _ _ _ _ Hinv) as [L1 L2 L3 L4 L5].
    assert (Hv : ∀ sd a u, has_value (w (bch S)) (bops S) sd a u → has_value (w (b_drop (bwho o) (BRet 0) s')) (<[i := o <| pc := BRet 0 |>]> (bops S)) sd a u).
    { intros sd a u. apply has_value_ops. intros oa Hoa. rewrite Hmem. split; [done|by eapply insert_fwd_b]. }
    split; simpl; try done; [intros; by apply Hv, L3|intros; by apply Hv, L4|]. intros a b u Hin. destruct (L5 a b u Hin). split; by apply Hv.
  - intros j oj Hj Hhj. simpl in Hj. destruct (insert_back_b _ _ _ _ _ _ Hi Hj) as [[-> ->]|[Hne Hj']]; [done|]. by destruct Hne; eapply Hone.
Qed.

(** * New calls *)

Lemma snoc_back_b os o0 j o : (os ++ [o0]) !! j = Some o → os !! j = Some o ∨ j = length os ∧ o = o0.
Proof.
  destruct (decide (j < length os)%nat); [rewrite lookup_app_l by done; auto|]. rewrite lookup_app_r by lia.
  intros Hj. right. destruct (j - length os)%nat eqn:E; [|done]. simplify_eq/=. split; [lia|done].
Qed.
Lemma call_node x ls c : wq_inv x ls → nodes x !! bnode c = None → node_ok c (start_pc (bdir c)) x ls.
Proof.
  intros Hi Hn. assert (∀ sd, bnode c ∉ ls sd) as Hout.
  { intros sd Hin. destruct (shape_lookup _ _ _ _ (inv_shape _ _ Hi) Hin). congruence. }
  unfold node_ok. destruct (bdir c); simpl; done.
Qed.
Lemma logged_call S ls i : b_inv k size S ls → through S i ∨ handover S i → is_Some (bops S !! i).
Proof.
  intros Hinv. destruct (bi_logs _ _ _ _ Hinv) as [_ _ L3 L4 L5]. intros [[Hin|Hin]|[Hin|Hin]]; apply list_elem_of_fmap in Hin as (e & -> & Hin).
  - destruct e as [j v]. destruct (L3 _ _ Hin) as (o & ? & _). eauto.
  - destruct e as [j v]. destruct (L4 _ _ Hin) as (o & ? & _). eauto.
  - destruct e as [[a b] v]. destruct (L5 _ _ _ Hin) as [(o & ? & _) _]. eauto.
  - destruct e as [[a b] v]. destruct (L5 _ _ _ Hin) as [_ (o & ? & _)]. eauto.
Qed.
Lemma call_inv_b S ls c : b_inv k size S ls → b_callable size S c →
  b_inv k size (S <| bops := bops S ++ [BOp c (start_pc (bdir c))] |>) ls.
Proof.
  intros Hinv (Hv & Hn & Hall). rewrite Forall_forall in Hall. set (o0 := BOp c (start_pc (bdir c))).
  assert (Hnew : ∀ j o, bops S !! j = Some o → bvalue (bwho o) ≠ bvalue c ∧
    (b_active o → bnode (bwho o) ≠ bnode c ∧ (bfiber c ≠ None → bfiber (bwho o) ≠ bfiber c))).
  { intros j o Hj. apply Hall. by eapply list_elem_of_lookup_2. }
  assert (Hno : ¬ (through S (length (bops S)) ∨ handover S (length (bops S)))).
  { intros Hm%(logged_call _ _ _ Hinv). apply lookup_lt_is_Some in Hm. lia. }
  assert (Hact : b_active o0 ∧ b_holding (pc o0) = false ∧ done_pc (pc o0) = false ∧ linked_pc (pc o0) = false)
    by (unfold b_active, o0; simpl; by destruct (bdir c)). destruct Hact as (_ & Hnh & Hnd & Hnl).
  pose proof Hinv as [Hw Hd Hsn Hq Hsz Ht Hc Hli [C1 C2 C3 C4] Hop Hlo Hlk]. split; simpl; try done.
  - intros sd r Hin. destruct (Hli sd r Hin) as (j & o & Hj & ?). exists j, o. split; [by apply lookup_app_l_Some|done].
  - split; intros a b oa ob.
    + intros [Ha|[-> ->]]%snoc_back_b [Hb|[-> ->]]%snoc_back_b Aa Ab He; [by eapply C1| | |done].
      * by destruct (proj2 (Hnew _ _ Ha) Aa) as [[] _].
      * by destruct (proj2 (Hnew _ _ Hb) Ab) as [[] _].
    + intros f [Ha|[-> ->]]%snoc_back_b [Hb|[-> ->]]%snoc_back_b Aa Ab Hf Hf'; [by eapply C2| | |done]; simpl in *.
      * destruct (proj2 (Hnew _ _ Ha) Aa) as [_ Hx]. destruct Hx; congruence.
      * destruct (proj2 (Hnew _ _ Hb) Ab) as [_ Hx]. destruct Hx; congruence.
    + intros [Ha|[-> ->]]%snoc_back_b [Hb|[-> ->]]%snoc_back_b He; [by eapply C3| | |done].
      * by destruct (Hnew _ _ Ha) as [[] _].
      * by destruct (Hnew _ _ Hb) as [[] _].
    + intros [Ha|[-> ->]]%snoc_back_b [Hb|[-> ->]]%snoc_back_b Aa Ab; [by eapply C4|congruence..].
  - intros j o [Hj|[-> ->]]%snoc_back_b.
    + destruct (Hop j o Hj) as [On Os Om Ost]. split; try done. eapply (b_status_ext _ _ S); [done|done|done| |done].
      intros r _ (? & ? & a & oa & Ha & ?). split_and!; [done|done|]. exists a, oa. split; [by apply lookup_app_l_Some|done].
    + split; simpl; [intros _; by apply call_node|intros sd; unfold start_pc; by destruct (bdir c); intros [= <-]|done|].
      assert (Hs : (done_pc (pc o0) = true ↔ through S (length (bops S))) ∧ (handed c (pc o0) (w (bch S)) ↔ handover S (length (bops S)))).
      { rewrite Hnd. unfold handed. rewrite Hnl. split; split; try done; [intros ?; destruct Hno; by left|by intros (_ & ? & _)|intros ?; destruct Hno; by right]. }
      unfold b_status, o0 in *. simpl in *. by destruct (bdir c).
  - destruct Hlo as [L1 L2 L3 L4 L5].
    assert (Hval : ∀ sd a u, has_value (w (bch S)) (bops S) sd a u → has_value (w (bch S)) (bops S ++ [o0]) sd a u).
    { intros sd a u. apply has_value_ops. intros oa Hoa. split; [done|]. exists oa. split; [by apply lookup_app_l_Some|done]. }
    split; simpl; try done; [intros; by apply Hval, L3|intros; by apply Hval, L4|]. intros a b u Hin. destruct (L5 a b u Hin). split; by apply Hval.
  - intros j o [Hj|[-> ->]]%snoc_back_b; [by eapply Hlk|congruence].
Qed.

(** * Closing *)

Lemma close_moved tx rx te re io s ls : idle s ls →
  wp (cc__chan_close_common tx rx te re io) (λ _ s', ∃ ls', ∀ c, bmoved None c (w s) ls (w s') ls' ∧ mem (w s') = mem (w s)) s.
Proof.
  intros [Hm Hi]. unfold cc__chan_close_common, upd. wp_step. wp_step. wp_step. apply wp_lock; [done|].
  apply wp_bind_assoc. set (s1 := _ <| mu_held := true |>).
  wp_step. eapply wp_mono; [apply close_marks_spec|]. cbv beta. intros [] s2 (_ & _ & Hw2 & Hm2).
  assert (B2 : b_same (w s) ls (w s2)) by (rewrite Hw2; split; try done; by apply set_fast_path_inv).
  assert (Hgo : ∀ x, quiet (w s2) x → wp ((if tx then liftw cc__chan_wake_all_waiters else liftw drain_send_waiters_close);;
      cc_chan_unlock;; liftw wake_batch_flush;; liftw cc__chan_signal_recv_ready)
      (λ _ s', ∃ ls', ∀ c, bmoved None c (w s) ls (w s') ls' ∧ mem (w s') = mem (w s)) (s2 <| w := x |>)).
  { intros x Hq. pose proof (b_same_quiet _ _ _ _ B2 Hq) as Bx. wp_step.
    replace (if tx then liftw cc__chan_wake_all_waiters else liftw drain_send_waiters_close)
      with (liftw (if tx then cc__chan_wake_all_waiters else drain_send_waiters_close)) by by destruct tx.
    apply wp_liftw. simpl. eapply wp_mono; [apply (bev_close tx x ls), Bx|]. cbv beta. intros [] x2 [ls' Hb].
    assert (B0 : b_same x2 ls' x2) by (split; try done; apply Hb).
    wp_step. apply wp_unlock; [simpl; by rewrite Hm2|]. simpl.
    wp_step. apply wp_liftw. simpl. eapply wp_mono; [apply wake_batch_flush_spec, B0|]. cbv beta. intros [] x3 (Q3 & _).
    apply wp_liftw. simpl. eapply wp_mono; [apply signal_recv_ready_spec|]. cbv beta. intros [] x4 [Q4 _]. simpl in *.
    pose proof (b_same_quiet _ _ _ _ (b_same_quiet _ _ _ _ B0 Q3) Q4) as B4. exists ls'. intros c. split.
    - eapply bmoved_trans; [by apply b_same_moved|]. eapply bmoved_trans; [|by apply b_same_moved]. eapply bev_moved; [done|].
      intros r Hr. apply elem_of_app in Hr as [?|?]; eauto.
    - by rewrite (bs_mem _ _ _ B4), (cm_mem _ _ _ (be_calm _ _ _ _ _ _ Hb)), (bs_mem _ _ _ Bx). }
  apply wp_bind_assoc. unfold cond_broadcast, emit. destruct tx; unfold when.
  - wp_step. wp_step. apply wp_liftw. wp_step. apply wp_liftw. wp_step. apply Hgo. simpl.
    etrans; apply emit_quiet.
  - wp_step. wp_step. wp_step. apply wp_liftw. wp_step. apply Hgo. apply emit_quiet.
Qed.
Definition nobody (nd : ptr) : bcaller := BCaller SendQ None (Datatypes.S nd) 0.
Lemma nobody_ne nd : nd ≠ bnode (nobody nd).
Proof. simpl. lia. Qed.
Lemma close_inv_b S ls op s' : b_inv k size S ls → run_close op (bch S) = Some (tt, s') → codes_ok s' →
  ∃ ls', b_inv k size (S <| bch := s' |>) ls' ∧ (∀ c, bmoved None c (w (bch S)) ls (w s') ls') ∧ rq s' = rq (bch S) ∧ mu_held (bch S) = false.
Proof.
  intros Hinv Hrun Hnz. destruct (mu_held (bch S)) eqn:Hmu; [by rewrite close_locked in Hrun|].
  assert (Hidle : idle (bch S) ls) by (split; [done|apply Hinv]).
  assert (∃ tx rx te re io, cc__chan_close_common tx rx te re io (bch S) = Some (tt, s')) as (tx & rx & te & re & io & Hc).
  { destruct op as [err|err|e]; simpl in Hrun; unfold cc_chan_close_err, cc_chan_rx_close_err, cc_chan_close_with in Hrun; do 5 eexists; exact Hrun. }
  pose proof (wp_unfold _ _ _ _ _ Hc (close_moved tx rx te re io _ _ Hidle)) as (ls' & Hmv).
  pose proof (wp_unfold _ _ _ _ _ Hc (close_common_spec tx rx te re io _ _ Hidle)) as (_ & Hco & [Hmu' _] & _).
  assert (Hfree : ∀ j oj, bops S !! j = Some oj → b_holding (pc oj) = false).
  { intros j oj Hj. destruct (b_holding (pc oj)) eqn:E; [|done]. pose proof (bi_lock _ _ _ _ Hinv j oj Hj E). congruence. }
  assert (Hls : ∀ sd r, r ∈ ls' sd → r ∈ ls sd) by (intros sd r; apply (bm_ls _ _ _ _ _ _ (proj1 (Hmv (nobody r)))), nobody_ne).
  pose proof (proj2 (Hmv (nobody 0))) as Hmem. exists ls'. split_and!; [|intros c; apply Hmv|by rewrite Hco|done]. split; simpl.
  - apply (Hmv (nobody 0)).
  - intros sd r Hin. destruct (bm_st _ _ _ _ _ _ (proj1 (Hmv (nobody r))) r (nobody_ne r)) as [->|(_ & kk & [Hk _] & ->)]; [|congruence].
    by eapply (bi_data _ _ _ _ Hinv), Hls.
  - intros r Hin. rewrite (bm_send _ _ _ _ _ _ (proj1 (Hmv (nobody r))) r (nobody_ne r) Hin). by apply (bi_send _ _ _ _ Hinv), Hls.
  - destruct (bi_queue _ _ _ _ Hinv) as (q & Hq & ?). exists q. split; [|done]. rewrite Hco. by destruct Hq.
  - rewrite Hco. apply Hinv.
  - rewrite Hco. apply Hinv.
  - done.
  - intros sd r Hin. by apply (bi_linked _ _ _ _ Hinv), Hls.
  - apply Hinv.
  - intros j oj Hj. eapply (op_moved _ _ _ _ _ _ _ S); [apply (Hmv (nobody (bnode (bwho oj))))|apply Hinv|..|by apply (bi_op _ _ _ _ Hinv)]; try done.
    + by rewrite Hmem.
    + intros r Er. pose proof (Hfree j oj Hj) as Hf. by rewrite Er in Hf.
  - destruct (bi_logs _ _ _ _ Hinv) as [L1 L2 L3 L4 L5].
    assert (Hval : ∀ sd a u, has_value (w (bch S)) (bops S) sd a u → has_value (w s') (bops S) sd a u).
    { intros sd a u. apply has_value_ops. intros oa Hoa. rewrite Hmem. eauto. }
    split; simpl; try done; [intros; by apply Hval, L3|intros; by apply Hval, L4|]. intros a b u Hin. destruct (L5 a b u Hin). split; by apply Hval.
  - intros j oj Hj Hh. by rewrite (Hfree j oj Hj) in Hh.
Qed.

(** * Every step *)

Lemma after_roused k1 size1 i o p m s' os S ls : b_inv k1 size1 (b_after i o p m s' (<[i := o <| pc := p |>]> (bops S)) S) ls →
  b_roused (<[i := o <| pc := p |>]> (bops S)) os → b_inv k1 size1 (b_after i o p m s' os S) ls.
Proof. intros Hinv Hr. exact (b_inv_roused _ _ (b_after i o p m s' _ S) _ _ Hr Hinv). Qed.
Lemma b_step_inv a S S' ls : env_recv_dedupe env = true → b_inv k size S ls → in_range k S → b_step env size a S S' → codes_ok (bch S') →
  ∃ ls', b_inv k size S' ls'.
Proof.
  intros Hdd Hinv Hrg Hst Hnz. destruct Hst as [S c Hcall|S i o nc gd p m s' evs os Hi Hrun _ Hdel|S i o nd x j oj v Hi Hpc Hrun Hj Ha Hn Hv
    |S i o nd s' evs os Hi Hpc Hrun _ Hdel|S i o n Hi Hpc Hn|S i o Hi Hpc|S op s' evs os Hrun _ Hdel].
  - exists ls. by apply call_inv_b.
  - destruct (turn_inv env k size S ls i o nc gd p m s' Hdd Hinv Hrg Hi Hrun) as (ls' & q & out & _ & Hinv'). exists ls'.
    eapply after_roused; [done|by eapply b_deliver_roused].
  - exists ls. eapply publish_inv_b; [done|]. by eapply publish_facts_b.
  - exists ls. eapply after_roused; [by eapply finish_inv_b|by eapply b_deliver_roused].
  - exists ls. apply b_inv_roused; [|done]. apply b_roused_insert; [done|]. unfold resumed, woken. destruct Hpc as [->| ->]; auto.
  - exists ls. apply b_inv_roused; [|done]. unfold b_rouse. apply b_roused_insert; [done|]. unfold resumed. destruct Hpc as [->| ->]; auto 10.
  - destruct (close_inv_b _ _ _ _ Hinv Hrun Hnz) as (ls' & Hinv' & _). exists ls'.
    exact (b_inv_roused k size (BState s' (bops S) (puts S) (gots S) (hands S)) os ls' (b_deliver_roused _ _ _ Hdel) Hinv').
Qed.
Lemma b_step_length a S S' : b_step env size a S S' → (length (bops S) ≤ length (bops S'))%nat.
Proof.
  assert (Hd : ∀ evs os os', b_deliver evs os os' → length os' = length os) by (intros; by eapply b_deliver_roused).
  intros []; simpl; rewrite ?length_app, ?length_insert; try lia; try (erewrite (Hd _ _ os) by done); rewrite ?length_insert; lia.
Qed.
End keep.
