(* ===== verification/ChanBufProps.v ===== *)
(** Blocking calls on a buffered channel: every value is transferred exactly once
    and turns return; and the executions in which a wake-up is lost or a value
    overtakes others. *)
From S2P Require Import Prelude ChanTypes WaitList WaitShape WaitQuiet WaitInv WaitOps WaitPop WaitWake WaitSteps Bytes Ring Chan ChanSpec ChanTry ChanClose ChanHandoff ChanCreate ChanProps ChanRv ChanRvFrame ChanRvSpec ChanRvInv ChanBuf ChanBufSpec ChanBufTurn ChanBufInv ChanBufKeep.

Local Open Scope Z_scope.

Section props.
Context `{!LfdsQueue}.
Implicit Types (S : b_state).

(** * Reachable states *)

Record b_setup (env : chan_env) (capacity : Z) (size : nat) : Prop := {
  se_dedupe : env_recv_dedupe env = true;
  se_malloc n : env_malloc env n = true;
  se_lockfree : env_no_lockfree env = false;
  se_cap : 2 ≤ capacity ≤ 2 ^ 61;
  se_fit : sizes_fit capacity size;
  se_size : (0 < size)%nat }.

Lemma b_new_inv env sc se capacity m take sync tp size bs tks S : b_setup env capacity size →
  b_new env sc se capacity m take sync tp size bs tks = Some S → b_inv (ring_exp capacity) size S (λ _, []) ∧ bops S = [].
Proof.
  intros [_ Hm Hlf Hcap Hfit Hes]. unfold b_new. set (w0 := _ <| tickets := tks |>).
  assert (Hw0 : wq_inv w0 (λ _, [])) by (destruct init_inv as [Hsh ? ? ? ?]; split; try done; apply (shape_unlinked init_wstate); simpl; try done; apply Hsh).
  destruct (create_init_spec env sc se w0 capacity m take sync tp size Hm Hw0 ltac:(lia) Hfit Hes) as (s & -> & Hq & [Hmu Hi] & (_ & _ & Hr & _) & Hc & He & _ & Htp & Hl & Ht).
  simpl. intros [= <-]. assert (Huse : use_lockfree s = true) by (apply Hl; split; [lia|done]). unfold chan_holds in Hq. rewrite Huse in Hq.
  split; [|done]. split; simpl; try done.
  - intros sd r ?%not_elem_of_nil. done.
  - by intros r ?%not_elem_of_nil.
  - by exists [].
  - intros _. rewrite Ht; done.
  - unfold codes_ok. by rewrite Hr.
  - by intros sd r ?%not_elem_of_nil.
  - split; simpl; try apply NoDup_nil_2; by intros ? ? ?%not_elem_of_nil || by intros ? ? ? ?%not_elem_of_nil.
Qed.
Lemma b_range k S : 2 ^ k ≤ 2 ^ 61 → Z.of_nat (length (bops S)) < 2 ^ 60 → in_range k S.
Proof. unfold in_range. lia. Qed.
Lemma b_reach_length env size S S' : b_reach env size S S' → (length (bops S) ≤ length (bops S'))%nat.
Proof. induction 1 as [|S1 S2 S3 [[a Hs] _] _ IH]; [done|]. apply b_step_length in Hs. lia. Qed.
Lemma b_reach_inv env capacity size S S' ls : b_setup env capacity size → b_inv (ring_exp capacity) size S ls → b_reach env size S S' →
  Z.of_nat (length (bops S')) < 2 ^ 60 → ∃ ls', b_inv (ring_exp capacity) size S' ls'.
Proof.
  intros Hse Hinv Hr. revert ls Hinv. induction Hr as [S|S1 S2 S3 [[a Hs] Hnz] Hr IH]; intros ls Hinv Hlen; [eauto|].
  assert (Hrg : in_range (ring_exp capacity) S1).
  { apply b_range; [apply ring_exp_bound; destruct Hse; lia|]. pose proof (b_reach_length _ _ _ _ Hr). apply b_step_length in Hs. lia. }
  destruct (b_step_inv env _ size a S1 S2 ls (se_dedupe _ _ _ Hse) Hinv Hrg Hs Hnz) as [l2 H2]. by eapply IH.
Qed.
Lemma transfer_side k size S ls i o : b_inv k size S ls → bops S !! i = Some o →
  through S i ∨ handover S i ↔ i ∈ match bdir (bwho o) with SendQ => (puts S).*1 ++ senders (hands S) | RecvQ => (gots S).*1 ++ receivers (hands S) end.
Proof.
  intros Hinv Hi. destruct (bi_logs _ _ _ _ Hinv) as [_ _ L3 L4 L5].
  assert (Hd : ∀ sd v, has_value (w (bch S)) (bops S) sd i v → bdir (bwho o) = sd) by (intros sd v (o' & ? & ? & _); by simplify_eq).
  split.
  - intros [[Hin|Hin]|[Hin|Hin]]; pose proof Hin as Hin'; apply list_elem_of_fmap in Hin' as (e & He & Hm).
    + destruct e as [a v]. simpl in He. subst a. rewrite (Hd SendQ v) by auto. set_solver.
    + destruct e as [a v]. simpl in He. subst a. rewrite (Hd RecvQ v) by auto. set_solver.
    + destruct e as [[a b] v]. simpl in He. subst a. rewrite (Hd SendQ v) by (by eapply L5). set_solver.
    + destruct e as [[a b] v]. simpl in He. subst b. rewrite (Hd RecvQ v) by (by eapply L5). set_solver.
  - unfold through, handover. destruct (bdir (bwho o)); rewrite elem_of_app; tauto.
Qed.

(** C6: Blocking calls transfer every value exactly once.  Take a new channel in
    blocking mode with the lock-free queue, whose operations are atomic here, and
    any interleaving of turns of blocking sends and receives, by fibers and by
    threads, of direct handoffs, wake-ups, spurious ones too, and closes, in which
    the receiving side is never closed with error code 0 (a send then returns that
    0 without a transfer).  What has been received through the buffer is what was sent
    through it, in that order, and the queue holds the rest; no call transfers
    twice; a call that has returned has transferred its value exactly when it
    returned 0; the values are the ones in the callers' buffers, the same on both
    sides of a handoff. *)
Theorem blocking_exactly_once env sc se capacity take sync tp size bs tks S0 S :
  b_setup env capacity size → b_new env sc se capacity MODE_BLOCK take sync tp size bs tks = Some S0 → b_reach env size S0 S →
  Z.of_nat (length (bops S)) < 2 ^ 60 →
  (∃ q, rbuf_inv (ring_exp capacity) (bch S) q ∧ (puts S).*2 = (gots S).*2 ++ q) ∧
  NoDup ((puts S).*1 ++ senders (hands S)) ∧ NoDup ((gots S).*1 ++ receivers (hands S)) ∧
  (∀ i o rc, bops S !! i = Some o → pc o = BRet rc → rc = 0 ↔
     i ∈ match bdir (bwho o) with SendQ => (puts S).*1 ++ senders (hands S) | RecvQ => (gots S).*1 ++ receivers (hands S) end) ∧
  (∀ i v, (i, v) ∈ puts S → has_value (w (bch S)) (bops S) SendQ i v) ∧
  (∀ i v, (i, v) ∈ gots S → has_value (w (bch S)) (bops S) RecvQ i v) ∧
  (∀ i j v, (i, j, v) ∈ hands S → has_value (w (bch S)) (bops S) SendQ i v ∧ has_value (w (bch S)) (bops S) RecvQ j v).
Proof.
  intros Hse Hn Hr Hlen. destruct (b_new_inv _ _ _ _ _ _ _ _ _ _ _ _ Hse Hn) as [Hi0 _].
  destruct (b_reach_inv _ _ _ _ _ _ Hse Hi0 Hr Hlen) as [ls Hinv]. pose proof (bi_logs _ _ _ _ Hinv) as [L1 L2 L3 L4 L5].
  split_and!; try done; [apply Hinv|]. intros i o rc Hi Hpc. rewrite <- (transfer_side _ _ _ _ _ _ Hinv Hi).
  pose proof (bo_status _ _ _ _ _ _ (bi_op _ _ _ _ Hinv i o Hi)) as Hs. unfold b_status in Hs. by rewrite Hpc in Hs.
Qed.

(** C27: No turn of a blocking call, up to the publication of a handoff, is
    undefined behaviour or runs for ever: in a state reached without closing the
    receiving side with error code 0 a call that can move, with the mutex free if
    its next turn locks it, completes the turn; a sender that has popped a
    receiver holds the mutex, finds the receiver's frame alive and can publish its
    value; what comes after the publication returns exactly when the receiver's
    node still exists. *)
Theorem blocking_turns_return env sc se capacity m take sync tp size bs tks S0 S i o nc gd :
  b_setup env capacity size → b_new env sc se capacity m take sync tp size bs tks = Some S0 → b_reach env size S0 S →
  Z.of_nat (length (bops S)) < 2 ^ 60 → bops S !! i = Some o →
  (runs (pc o) = true → (locks (pc o) = true → mu_held (bch S) = false) → ∃ r, b_turn env size (bwho o) nc gd (pc o) (bch S) = Some r) ∧
  (∀ nd, pc o = BHand nd → mu_held (bch S) = true ∧ ∃ x, b_publish (bwho o) nd (w (bch S)) = Some (tt, x)) ∧
  (∀ nd, pc o = BTail nd → mu_held (bch S) = true ∧
     ((∃ s', b_finish nd (bch S) = Some (tt, s')) ↔ is_Some (nodes (w (bch S)) !! nd))).
Proof.
  intros Hse Hn Hr Hlen Hi. destruct (b_new_inv _ _ _ _ _ _ _ _ _ _ _ _ Hse Hn) as [Hi0 _].
  destruct (b_reach_inv _ _ _ _ _ _ Hse Hi0 Hr Hlen) as [ls Hinv]. split_and!.
  - intros Hrun Hlk. destruct (bi_queue _ _ _ _ Hinv) as (q & Hq & _).
    assert (Hrg : in_range (ring_exp capacity) S) by (apply b_range; [apply ring_exp_bound; destruct Hse; lia|done]).
    destruct (turn_good env _ _ _ _ _ _ _ nc gd (se_dedupe _ _ _ Hse) Hinv Hrg Hq Hi Hrun Hlk) as (r & s' & ? & _). eauto.
  - intros nd Hpc. split; [apply (bi_lock _ _ _ _ Hinv i o Hi); by rewrite Hpc|].
    destruct (bi_op _ _ _ _ Hinv i o Hi) as [_ _ (v & Hv & _) Hst]. unfold b_status in Hst. rewrite Hpc in Hst.
    destruct Hst as (_ & _ & _ & _ & _ & j & oj & Hj & Hnj & Hd & Hl).
    pose proof (bo_node _ _ _ _ _ _ (bi_op _ _ _ _ Hinv j oj Hj) (active_linked _ Hl)) as Hno. unfold node_ok in Hno. rewrite Hl in Hno.
    destruct Hno as [(n & Hnd & Hco & _) _]. rewrite Hnj in Hnd.
    assert (Hdata : data n = Some (bvalue (bwho oj))) by (unfold core, new_bnode in Hco; rewrite Hd in Hco; simpl in Hco; congruence).
    unfold b_publish, load, load_mem, write_data, store, modify, mbind, M_bind. rewrite Hnd, Hv, Hdata. simpl. rewrite Hnd. eauto.
  - intros nd Hpc. assert (Hmu : mu_held (bch S) = true) by (apply (bi_lock _ _ _ _ Hinv i o Hi); by rewrite Hpc). split; [done|]. split.
    + intros [s' Hs']. destruct (nodes (w (bch S)) !! nd) as [n|] eqn:Hnd; [by eexists|]. by rewrite finish_faults_b in Hs'.
    + intros [n Hnd]. destruct (finish_spec_b nd n _ ls Hmu (bi_wq _ _ _ _ Hinv) Hnd) as ([] & s' & Hs' & _). eauto.
Qed.

(** * Executions that go wrong *)

(** Nobody moves unless the environment calls, closes, or wakes somebody up for
    no reason. *)
Definition b_asleep S (o : b_op) : bool :=
  match pc o with
  | BRet _ | SSleep | RSleep => true
  | SPark | RPark => match nodes (w (bch S)) !! bnode (bwho o) with Some n => isNone (notified n) | None => true end
  | _ => false
  end.
Lemma asleep_no_turn env size S c nc gd p : match p with BRet _ | SSleep | RSleep | SPark | RPark => True | _ => False end →
  b_turn env size c nc gd p (bch S) = None.
Proof. unfold b_turn. by destruct (bdir c), p. Qed.
Lemma b_stuck env size S S' : forallb (b_asleep S) (bops S) = true → ¬ b_step env size RvRun S S'.
Proof.
  rewrite forallb_forall. intros Hall Hst.
  assert (Hop : ∀ i o, bops S !! i = Some o → b_asleep S o = true) by (intros i o Hi; apply Hall, list_elem_of_In; by eapply list_elem_of_lookup_2).
  inversion Hst as [|? i o nc gd p m s' evs os Hi Hrun|? i o nd x j oj v Hi Hpc|? i o nd s' evs os Hi Hpc|? i o n Hi Hpc Hn Ea| |]; subst; specialize (Hop i o Hi).
  - rewrite asleep_no_turn in Hrun; [done|]. unfold b_asleep in Hop. by destruct (pc o).
  - unfold b_asleep in Hop. by rewrite Hpc in Hop.
  - unfold b_asleep in Hop. by rewrite Hpc in Hop.
  - unfold b_asleep in Hop. destruct Hpc as [Hpc|Hpc]; rewrite Hpc, Hn in Hop; by rewrite Hop in Ea.
Qed.
Lemma b_demo_reach xs S : b_demo_run xs = Some S → ∃ S0, b_demo = Some S0 ∧ b_reach default_env 2 S0 S.
Proof.
  unfold b_demo_run. destruct b_demo as [S0|]; simpl; [|done]. intros Hr. exists S0. split; [done|]. by eapply b_run_reach.
Qed.
Lemma b_demo_app xs ys S : b_demo_run (xs ++ ys) = Some S → ∃ S1, b_demo_run xs = Some S1 ∧ b_reach default_env 2 S1 S.
Proof.
  unfold b_demo_run. destruct b_demo as [S0|]; simpl; [|done]. revert S0. induction xs as [|x xs IH]; intros S0; simpl.
  - intros Hr. exists S0. split; [done|by eapply b_run_reach].
  - destruct (b_exec default_env 2 x S0); simpl; [case_decide; [apply IH|done]|done].
Qed.
Definition op_at S i : option (side * option ptr * bpc * option (list Z)) :=
  o ← bops S !! i; Some (bdir (bwho o), bfiber (bwho o), pc o, mem (w (bch S)) !! bvalue (bwho o)).

(** What can be seen of a state: whether everybody sleeps, the calls, how many
    values the buffer holds, whether the channel is closed. *)
Definition observe S := (forallb (b_asleep S) (bops S), op_at S <$> List.seq 0 (length (bops S)), cc__chan_lf_count (bch S), closed (bch S)).
Lemma observed S ops i v b n c : observe S = (b, ops, n, c) → ops !! i = Some (Some v) → op_at S i = Some v.
Proof.
  unfold observe. intros [= _ <- _ _] Hi. rewrite list_lookup_fmap in Hi. destruct (List.seq _ _ !! i) as [j|] eqn:E; [|done].
  apply lookup_seq in E as [-> _]. simpl in Hi. congruence.
Qed.

(** Two sends fill the buffer and a third, by a thread, waits on [not_full]; a
    fiber then receives twice and waits for more. *)
Definition sched_lost : list b_choice :=
  [XCall (t_send 0)] ++ turns 0 4 ++ [XCall (t_send 1)] ++ turns 1 4 ++ [XCall (t_send 2)] ++ turns 2 11 ++
  [XCall (f_recv 5 0)] ++ turns 3 3 ++ [XCall (f_recv 5 1)] ++ turns 4 3 ++ [XCall (f_recv 5 2)] ++ turns 5 16.
(** C33: A thread blocked in a send on a full channel is not woken by the receives
    that empty it.  The thread waits on [not_full] without counting itself in
    [has_send_waiters], which is all a lock-free receive looks at before it
    skips the signal: here the channel is open and empty, the sender still
    sleeps, the receiver is parked waiting for that very send, and no call can
    move. *)
Theorem thread_sender_lost_wakeup : ∃ S0 S, b_demo = Some S0 ∧ b_reach default_env 2 S0 S ∧
  op_at S 2 = Some (SendQ, None, SSleep, Some [3; 3]) ∧ op_at S 5 = Some (RecvQ, Some 5%nat, RPark, Some [0; 0]) ∧
  cc__chan_lf_count (bch S) = 0 ∧ closed (bch S) = false ∧ ∀ S', ¬ b_step default_env 2 RvRun S S'.
Proof.
  assert (Hobs : observe <$> b_demo_run sched_lost = Some (true, [Some (SendQ, None, BRet 0, Some [1; 1]); Some (SendQ, None, BRet 0, Some [2; 2]); Some (SendQ, None, SSleep, Some [3; 3]); Some (RecvQ, Some 5%nat, BRet 0, Some [1; 1]); Some (RecvQ, Some 5%nat, BRet 0, Some [2; 2]); Some (RecvQ, Some 5%nat, RPark, Some [0; 0])], 0, false)) by (vm_compute; reflexivity).
  destruct (b_demo_run sched_lost) as [S|] eqn:Hrun; [|done]. apply (inj Some (observe S)) in Hobs.
  destruct (b_demo_reach _ _ Hrun) as (S0 & Hd0 & Hreach). exists S0, S. pose proof Hobs as Hob; unfold observe in Hob; injection Hob as Hf _ Hc Hcl.
  clear Hrun. split; [exact Hd0|clear Hd0]. split_and!; [exact Hreach|by eapply observed..|exact Hc|exact Hcl|]. intros S'. by apply b_stuck.
Qed.

(** Two receivers park; the sends that follow find a wake-up in flight. *)
Definition sched_parked : list b_choice := [XCall (f_recv 5 0)] ++ turns 0 16 ++ [XCall (f_recv 6 1)] ++ turns 1 16.
Definition sched_two_sends : list b_choice := sched_parked ++ [XCall (t_send 0)] ++ turns 2 6 ++ [XCall (t_send 1)] ++ turns 3 5.
Definition sched_coalesced : list b_choice := sched_two_sends ++ [XUnpark 0] ++ turns 0 3.
(** C34: Coalescing wake-ups strands a receiver.  Two fibers are parked in a
    receive; the first send signals one of them, and the second, finding that
    wake-up in flight, signals nobody.  The signalled fiber receives one value
    and returns.  The other value is in the buffer and the other fiber still
    parked, not notified: no call can move. *)
Theorem coalesced_wakeup_strands_receiver : ∃ S0 S, b_demo = Some S0 ∧ b_reach default_env 2 S0 S ∧
  op_at S 0 = Some (RecvQ, Some 5%nat, BRet 0, Some [1; 1]) ∧ op_at S 1 = Some (RecvQ, Some 6%nat, RPark, Some [0; 0]) ∧
  op_at S 2 = Some (SendQ, None, BRet 0, Some [1; 1]) ∧ op_at S 3 = Some (SendQ, None, BRet 0, Some [2; 2]) ∧
  cc__chan_lf_count (bch S) = 1 ∧ ∀ S', ¬ b_step default_env 2 RvRun S S'.
Proof.
  assert (Hobs : observe <$> b_demo_run sched_coalesced = Some (true, [Some (RecvQ, Some 5%nat, BRet 0, Some [1; 1]); Some (RecvQ, Some 6%nat, RPark, Some [0; 0]); Some (SendQ, None, BRet 0, Some [1; 1]); Some (SendQ, None, BRet 0, Some [2; 2])], 1, false)) by (vm_compute; reflexivity).
  destruct (b_demo_run sched_coalesced) as [S|] eqn:Hrun; [|done]. apply (inj Some (observe S)) in Hobs.
  destruct (b_demo_reach _ _ Hrun) as (S0 & Hd0 & Hreach). exists S0, S. pose proof Hobs as Hob; unfold observe in Hob; injection Hob as Hf _ Hc Hcl.
  clear Hrun. split; [exact Hd0|clear Hd0]. split_and!; [exact Hreach|by eapply observed..|exact Hc|]. intros S'. by apply b_stuck.
Qed.

(** A third send finds the buffer full and hands its value to the parked fiber,
    which then receives again. *)
Definition sched_overtake : list b_choice :=
  [XCall (t_send 2)] ++ turns 4 6 ++ [XPublish 4 1; XFinish 4 []; XUnpark 1; XRun 1 []; XCall (f_recv 6 2)] ++ turns 5 3.
(** C35: A direct handoff overtakes the buffer.  Two sends have returned and their
    values are in the full buffer when a third is called.  It finds a parked
    receiver and hands it its value, so that fiber 6 receives the third value
    before the first. *)
Theorem handoff_overtakes_buffer : ∃ S0 S1 S2, b_demo = Some S0 ∧ b_reach default_env 2 S0 S1 ∧ b_reach default_env 2 S1 S2 ∧
  length (bops S1) = 4%nat ∧ op_at S1 2 = Some (SendQ, None, BRet 0, Some [1; 1]) ∧ op_at S1 3 = Some (SendQ, None, BRet 0, Some [2; 2]) ∧
  cc__chan_lf_count (bch S1) = 2 ∧
  op_at S2 4 = Some (SendQ, None, BRet 0, Some [3; 3]) ∧
  op_at S2 1 = Some (RecvQ, Some 6%nat, BRet 0, Some [3; 3]) ∧ op_at S2 5 = Some (RecvQ, Some 6%nat, BRet 0, Some [1; 1]).
Proof.
  assert (Hobs1 : observe <$> b_demo_run sched_two_sends = Some (false, [Some (RecvQ, Some 5%nat, RPark, Some [0; 0]); Some (RecvQ, Some 6%nat, RPark, Some [0; 0]); Some (SendQ, None, BRet 0, Some [1; 1]); Some (SendQ, None, BRet 0, Some [2; 2])], 2, false)) by (vm_compute; reflexivity).
  assert (Hobs2 : observe <$> b_demo_run (sched_two_sends ++ sched_overtake) = Some (false, [Some (RecvQ, Some 5%nat, RPark, Some [0; 0]); Some (RecvQ, Some 6%nat, BRet 0, Some [3; 3]); Some (SendQ, None, BRet 0, Some [1; 1]); Some (SendQ, None, BRet 0, Some [2; 2]); Some (SendQ, None, BRet 0, Some [3; 3]); Some (RecvQ, Some 6%nat, BRet 0, Some [1; 1])], 1, false)) by (vm_compute; reflexivity).
  destruct (b_demo_run (sched_two_sends ++ sched_overtake)) as [S2|] eqn:Hrun; [|done]. destruct (b_demo_app _ _ _ Hrun) as (S1 & Hrun1 & Hr2).
  rewrite Hrun1 in Hobs1. apply (inj Some (observe S1)) in Hobs1. apply (inj Some (observe S2)) in Hobs2. destruct (b_demo_reach _ _ Hrun1) as (S0 & Hd0 & Hr1).
  exists S0, S1, S2. pose proof Hobs1 as Hob; unfold observe in Hob; injection Hob as _ Hops Hc _.
  clear Hrun Hrun1. split; [exact Hd0|clear Hd0]. split; [exact Hr1|]. split; [exact Hr2|]. split; [|split_and!; try (by eapply observed); exact Hc].
  assert (length (op_at S1 <$> List.seq 0 (length (bops S1))) = 4%nat) as Hl by by rewrite Hops. by rewrite length_fmap, length_seq in Hl.
Qed.
End props.

(** * Witnesses *)

Lemma default_setup : b_setup default_env 2 2.
Proof. split; [reflexivity|reflexivity|reflexivity|lia|by vm_compute|lia]. Qed.
(** One value handed over and two sent through the buffer. *)
Lemma overtaken_state : ∃ S0 S, b_demo = Some S0 ∧ b_reach default_env 2 S0 S ∧
  puts S = [(2%nat, [1; 1]); (3%nat, [2; 2])] ∧ gots S = [(5%nat, [1; 1])] ∧ hands S = [(4%nat, 1%nat, [3; 3])] ∧ length (bops S) = 6%nat.
Proof.
  assert (Hobs : (λ S, (puts S, gots S, hands S, length (bops S))) <$> b_demo_run (sched_two_sends ++ sched_overtake) =
    Some ([(2%nat, [1; 1]); (3%nat, [2; 2])], [(5%nat, [1; 1])], [(4%nat, 1%nat, [3; 3])], 6%nat)) by (vm_compute; reflexivity).
  destruct (b_demo_run (sched_two_sends ++ sched_overtake)) as [S|] eqn:Hrun; [|discriminate Hobs].
  destruct (b_demo_reach _ _ Hrun) as (S0 & Hd0 & Hreach). clear Hrun. injection Hobs as Hp Hg Hh Hl.
  exists S0, S. split; [exact Hd0|clear Hd0]. by split_and!.
Qed.
Lemma blocking_exactly_once_witness : ∃ S0 S, b_demo = Some S0 ∧ b_reach default_env 2 S0 S ∧
  puts S = [(2%nat, [1; 1]); (3%nat, [2; 2])] ∧ gots S = [(5%nat, [1; 1])] ∧ hands S = [(4%nat, 1%nat, [3; 3])] ∧
  (∃ q, rbuf_inv (ring_exp 2) (bch S) q ∧ (puts S).*2 = (gots S).*2 ++ q) ∧ NoDup ((puts S).*1 ++ senders (hands S)).
Proof.
  destruct overtaken_state as (S0 & S & Hd0 & Hreach & Hp & Hg & Hh & Hl).
  assert (Hlen : Z.of_nat (length (bops S)) < 2 ^ 60) by (rewrite Hl; lia). exists S0, S.
  pose proof (blocking_exactly_once default_env 1024 64 2 false false TOPO_DEFAULT 2 b_buffers ∅ S0 S default_setup Hd0 Hreach Hlen) as (Hq & Hnd & _).
  split; [exact Hd0|clear Hd0]. split; [exact Hreach|]. split; [exact Hp|]. split; [exact Hg|]. split; [exact Hh|]. split; [exact Hq|exact Hnd].
Defined.
(** A receiver about to lock for the first time. *)
Lemma locking_state : ∃ S0 S, b_demo = Some S0 ∧ b_reach default_env 2 S0 S ∧ bops S = [BOp (f_recv 5 0) RLock1] ∧ mu_held (bch S) = false.
Proof.
  assert (Hobs : (λ S, (bops S, mu_held (bch S))) <$> b_demo_run ([XCall (f_recv 5 0)] ++ turns 0 4) =
    Some ([BOp (f_recv 5 0) RLock1], false)) by (vm_compute; reflexivity).
  destruct (b_demo_run ([XCall (f_recv 5 0)] ++ turns 0 4)) as [S|] eqn:Hrun; [|discriminate Hobs].
  destruct (b_demo_reach _ _ Hrun) as (S0 & Hd0 & Hreach). clear Hrun. injection Hobs as Ho Hm.
  exists S0, S. split; [exact Hd0|clear Hd0]. by split_and!.
Qed.
Lemma blocking_turns_return_witness : ∃ S0 S o, b_demo = Some S0 ∧ b_reach default_env 2 S0 S ∧ bops S !! 0%nat = Some o ∧ pc o = RLock1 ∧
  ∃ r, b_turn default_env 2 (bwho o) false false (pc o) (bch S) = Some r.
Proof.
  destruct locking_state as (S0 & S & Hd0 & Hreach & Ho & Hm).
  assert (Hlen : Z.of_nat (length (bops S)) < 2 ^ 60) by (rewrite Ho; simpl; lia).
  assert (Hi : bops S !! 0%nat = Some (BOp (f_recv 5 0) RLock1)) by (rewrite Ho; reflexivity).
  pose proof (blocking_turns_return default_env 1024 64 2 MODE_BLOCK false false TOPO_DEFAULT 2 b_buffers ∅ S0 S 0%nat _ false false
    default_setup Hd0 Hreach Hlen Hi) as [Hturn _].
  exists S0, S, (BOp (f_recv 5 0) RLock1). split; [exact Hd0|clear Hd0]. split; [exact Hreach|]. split; [exact Hi|]. split; [reflexivity|].
  apply Hturn; [reflexivity|]. intros _. exact Hm.
Defined.
