(* ===== verification/ChanBufWake.v ===== *)
(** A single fiber that receives from a buffered channel does not miss a wake-up:
    while it is parked and not notified, with a value in the buffer, a send is on
    its way to notify it.  This is what the registration in [cc_chan_recv] is
    built for: publish the waiter, then look at the count; and in the senders:
    enqueue, then look at the waiters. *)
From S2P Require Import Prelude ChanTypes WaitList WaitShape WaitQuiet WaitInv WaitOps WaitPop WaitWake WaitSteps Bytes Ring Chan ChanSpec ChanTry ChanHandoff ChanCreate ChanProps ChanRv ChanRvFrame ChanRvSpec ChanRvInv ChanBuf ChanBufSpec ChanBufTurn ChanBufInv ChanBufKeep ChanBufProps.

Local Open Scope Z_scope.

Section wake.
Context `{!LfdsQueue} (env : chan_env).
Implicit Types (S : b_state) (x : wstate) (o : b_op) (os : list b_op) (c : bcaller) (p : bpc) (ls : side → list ptr) (i j r : nat).

(** * Definitions *)

(** A send that has put its value and has yet to notify, or is about to hand a
    value over. *)
Definition posting_pc p : bool :=
  match p with
  | SPostF | SNotify | SUnreg | BHand _ => true
  | SPostT fw | SPostI fw _ | SPostL fw _ => bool_decide (fw ≠ 0)
  | _ => false
  end.
Definition posting os : Prop := ∃ j o, os !! j = Some o ∧ posting_pc (pc o) = true.
Definition one_receiver S : Prop := ∀ i j o o', bops S !! i = Some o → bops S !! j = Some o' → b_active o → b_active o' →
  bdir (bwho o) = RecvQ → bdir (bwho o') = RecvQ → i = j.
(** The ring has nothing the receiver could have missed. *)
Definition quiet_for (s : ccchan) p : Prop :=
  match p with
  | RCountH true t => ring_tail (rq s) = t
  | RDekker | RDekkerWake | RPark => ring_tail (rq s) = ring_head (rq s)
  | _ => True
  end.
Record wake_inv S ls : Prop := {
  wi_listed r o : bops S !! r = Some o → bdir (bwho o) = RecvQ → linked_pc (pc o) = true → st (w (bch S)) (bnode (bwho o)) = Some NOTIFY_NONE →
    bnode (bwho o) ∈ ls RecvQ ∨ ∃ j oj, bops S !! j = Some oj ∧ pc oj = BHand (bnode (bwho o));
  wi_wake r o : bops S !! r = Some o → bdir (bwho o) = RecvQ → st (w (bch S)) (bnode (bwho o)) = Some NOTIFY_NONE →
    quiet_for (bch S) (pc o) ∨ posting (bops S) }.

(** * Where a turn ends *)

(** Turns that do not lead to a program counter with an obligation, and put
    nothing unless they then notify. *)
Definition unwatched p : Prop := match p with RCountH true _ | RDekker | RDekkerWake | RPark => False | _ => True end.
Definition harmless (a : bpc * moves) : Prop := unwatched a.1 ∧ (a.2 ≠ Nothing → posting_pc a.1 = true ∨ ∃ v, a.2 = Got v).
Definition ends (m : C (bpc * moves)) : Prop := ∀ s a s', m s = Some (a, s') → harmless a.
Lemma ends_bind {A} (m : C A) f : (∀ a, ends (f a)) → ends (mbind f m).
Proof. intros Hf s a s'. unfold mbind, M_bind. destruct (m s) as [[b s1]|]; [|done]. apply Hf. Qed.
Lemma ends_ret p mv : unwatched p → (mv ≠ Nothing → posting_pc p = true ∨ ∃ v, mv = Got v) → ends (mret (p, mv)).
Proof. intros Hp Hm s a s' [= <- <-]. done. Qed.
Lemma ends_go p : unwatched p → ends (go_to p).
Proof. intros Hp. by apply ends_ret. Qed.
Lemma ends_unlock p : unwatched p → ends (unlock_to p).
Proof. intros Hp. apply ends_bind. intros _. by apply ends_go. Qed.
Lemma ends_fault : ends fault.
Proof. done. Qed.
Lemma ends_take p c v : unwatched p → ends (take_to p c v).
Proof. intros Hp. apply ends_bind. intros _. apply ends_ret; [done|]. eauto. Qed.
Lemma ends_put c ok fail : unwatched ok → posting_pc ok = true → unwatched fail → ends (try_put c ok fail).
Proof.
  intros Ho Hp Hf. unfold try_put. do 3 (apply ends_bind; intros ?). case_decide; [apply ends_ret; auto|by apply ends_go].
Qed.
Lemma ends_try_take c ok fail : unwatched ok → unwatched fail → ends (try_take c ok fail).
Proof. intros Ho Hf. apply ends_bind. intros [v|]; [by apply ends_take|by apply ends_go]. Qed.
Lemma ends_drain c f : (∀ s, unwatched (f s)) → ends (drain_take c f).
Proof. intros Hf. apply ends_bind. intros [v|]; [by apply ends_take|]. apply ends_bind. intros ?. by apply ends_go. Qed.
Ltac ends_auto :=
  repeat first [ progress simpl | done
    | apply ends_put; [done|done|done] | apply ends_try_take; [done|done] | apply ends_fault
    | apply ends_unlock | apply ends_go | apply ends_ret; [done|by auto] | apply ends_drain; intros ?
    | apply ends_bind; intros ? | case_match ].
Lemma send_ends size c p : ends (b_send_turn env size c p).
Proof. destruct p; simpl; unfold send_top; ends_auto. Qed.
(** How a receiver comes to a program counter with an obligation. *)
Definition approaches p p' (s s' : ccchan) : Prop :=
  match p' with
  | RCountH true t => s' = s ∧ t = ring_tail (rq s)
  | RDekker => s' = s ∧ ∃ t, p = RCountH true t ∧ count_from t s ≤ 0
  | RDekkerWake => s' = s ∧ p = RDekker
  | RPark => s' = s ∧ p = RDekker ∨ p = RDekkerWake
  | _ => True
  end.
Lemma unwatched_approaches p p' s s' : unwatched p' → approaches p p' s s'.
Proof. destruct p'; try done. by destruct again. Qed.
Lemma recv_approaches size c nc gd p s p' m s' : use_ring_queue s = true → b_recv_turn env size c nc gd p s = Some ((p', m), s') → approaches p p' s s'.
Proof.
  intros Hring Hrun.
  assert (Hq : ends (b_recv_turn env size c nc gd p) → approaches p p' s s').
  { intros He. apply unwatched_approaches. exact (proj1 (He _ _ _ Hrun)). }
  destruct p; try (apply Hq; simpl; ends_auto; fail).
  - revert Hrun. unfold b_recv_turn, mbind, M_bind, gets, go_to, mret, M_ret, id. rewrite Hring. intros [= <- _ <-]. by destruct again.
  - revert Hrun. unfold b_recv_turn, mbind, M_bind, gets, go_to, mret, M_ret, id. case_decide; [by intros [= <- _ <-]|].
    destruct again; intros [= <- _ <-]; [|done]. split; [done|]. exists t. split; [done|]. lia.
  - revert Hrun. unfold b_recv_turn, mbind, M_bind, gets, go_to, mret, M_ret, id. case_decide; intros [= <- _ <-]; simpl; auto.
  - revert Hrun. simpl. unfold go_to. unfold mbind at 1, M_bind at 1. destruct (cc__chan_dekker_wake_send_before_park s) as [[? ?]|]; [|done].
    intros [= <- _ _]. by right.
Qed.

(** * Notifying the only receiver *)

Lemma cnt_ge k x l q : q ∈ l → st x q = Some k → (1 ≤ cnt k x l)%nat.
Proof.
  intros Hq Hs. unfold cnt. assert (Hin : q ∈ filter (λ a, st x a = Some k) l) by by apply list_elem_of_filter.
  destruct (filter _ l); [by apply not_elem_of_nil in Hin|simpl; lia].
Qed.
Lemma cnt_some k x l : (1 ≤ cnt k x l)%nat → ∃ q, q ∈ l ∧ st x q = Some k.
Proof.
  unfold cnt. destruct (filter (λ a, st x a = Some k) l) as [|q l'] eqn:E; simpl; [lia|]. intros _. exists q.
  assert (Hin : q ∈ filter (λ a, st x a = Some k) l) by (rewrite E; by left). by apply list_elem_of_filter in Hin as [? ?].
Qed.
Lemma cnt_none k x l : (∀ q, q ∈ l → st x q ≠ Some k) → cnt k x l = 0%nat.
Proof. intros Hn. destruct (decide (1 ≤ cnt k x l)%nat) as [H1|]; [|lia]. destruct (cnt_some _ _ _ H1) as (q & Hq & Hs). by destruct (Hn q Hq). Qed.

Definition only (nd : ptr) x ls : Prop := (∀ q, q ∈ ls RecvQ → q = nd) ∧ (st x nd = Some NOTIFY_NONE → nd ∈ ls RecvQ).
Definition notified_now {A} (nd : ptr) : A → ccchan → Prop := λ _ s', st (w s') nd ≠ Some NOTIFY_NONE.

Lemma bev_notified T out x ls x' ls' nd : bev T out x ls x' ls' → st x nd ≠ Some NOTIFY_NONE → st x' nd ≠ Some NOTIFY_NONE.
Proof. intros Hb Hn. destruct (bev_st _ _ _ _ _ _ nd Hb) as [->|(_ & k & [_ ?] & ->)]; congruence. Qed.
Lemma signal_only mx x ls nd : env_recv_dedupe env = true → wq_inv x ls → only nd x ls → 1 ≤ mx →
  wp (cc__chan_signal_recv_waiters env mx) (λ _ x', wq_inv x' ls ∧ st x' nd ≠ Some NOTIFY_NONE) x.
Proof.
  intros Hdd Hi [Hone Hin] Hmx. eapply wp_mono; [by apply bev_signal|]. cbv beta. intros j x' [Hb (_ & [_ Hcnt _] & Hj & Hall)].
  split; [apply Hb|]. destruct (decide (st x nd = Some NOTIFY_NONE)) as [Hn|Hn]; [|by eapply bev_notified].
  destruct (decide (j < mx)) as [Hlt|Hge]; [by apply Hall; auto|].
  destruct (cnt_some NOTIFY_SIGNAL x' (ls RecvQ)) as (q & Hq & Hs); [lia|]. rewrite <- (Hone q Hq), Hs. done.
Qed.
Lemma wk_notified {A} sd b b' (m : C A) s ls nd : waking sd b m b' → mu_held s = b → wq_inv (w s) ls → st (w s) nd ≠ Some NOTIFY_NONE →
  wp m (notified_now nd) s.
Proof.
  intros Hw Hm Hi Hn. eapply wp_mono; [exact (Hw s ls Hm Hi)|]. cbv beta. intros a s' (_ & _ & ls' & Hb). by eapply bev_notified.
Qed.
Lemma post_enqueue_only held s ls nd : env_recv_dedupe env = true → mu_held s = held → wq_inv (w s) ls → only nd (w s) ls →
  wp (cc__chan_post_enqueue_notify env held) (notified_now nd) s.
Proof.
  intros Hdd Hm Hi Ho. unfold cc__chan_post_enqueue_notify. apply wp_bind.
  assert (Hgo : ∀ s1, w s1 = w s → mu_held s1 = true → wp (liftw (cc__chan_signal_recv_waiter env);; cond_signal COND_NOT_EMPTY;; cc_chan_unlock;;
    liftw wake_batch_flush;; liftw cc__chan_signal_recv_ready) (notified_now nd) s1).
  { intros s1 Hw1 Hm1. apply wp_bind, wp_liftw. rewrite Hw1. unfold cc__chan_signal_recv_waiter. apply wp_bind.
    eapply wp_mono; [eapply signal_only; [done|done|done|lia]|]. cbv beta. intros j x' [Hi' Hn']. apply wp_ret.
    eapply (wk_notified RecvQ true false); [|done|exact Hi'|done]. waking_auto. }
  destruct held; simpl.
  - apply wp_ret. by apply Hgo.
  - apply wp_lock; [done|]. by apply Hgo.
Qed.
Lemma post_signal_only fw tw s ls nd : env_recv_dedupe env = true → 1 ≤ env_recv_wake_target env → fw ≠ 0 → mu_held s = false →
  wq_inv (w s) ls → only nd (w s) ls → wp (post_signal env fw tw) (notified_now nd) s.
Proof.
  intros Hdd Htg Hfw Hm Hi Ho. unfold post_signal. apply wp_bind, wp_lock; [done|]. wp_step. wp_step. rewrite (bool_decide_eq_true_2 (fw ≠ 0)) by done. simpl.
  assert (Hrest : ∀ s1, mu_held s1 = true → wq_inv (w s1) ls → st (w s1) nd ≠ Some NOTIFY_NONE →
    wp (tw' ← gets (λ s, thread_recv_waiters (ch (w s)));
        (if bool_decide (tw ≠ 0) || bool_decide (tw' ≠ 0) then cond_signal COND_NOT_EMPTY else mret tt);;
        cc_chan_unlock;; liftw wake_batch_flush;; liftw cc__chan_signal_recv_ready) (notified_now nd) s1).
  { intros s1 Hm1 Hi1 Hn1. eapply (wk_notified RecvQ true false); [|done|exact Hi1|done]. waking_auto. }
  apply wp_bind. wp_step. wp_step. destruct (decide (0 < cc__chan_recv_wake_budget env _)) as [Hb|Hb].
  - simpl in Hb. apply wp_bind, wp_liftw. simpl. eapply wp_mono; [eapply signal_only; [done|done|done|lia]|]. cbv beta. intros j x' [Hi' Hn']. apply wp_ret. by apply Hrest.
  - simpl in Hb. wp_step. apply Hrest; [done|done|]. simpl. intros Hn. apply Hb. unfold cc__chan_recv_wake_budget. rewrite (inv_inflight _ _ Hi).
    rewrite cnt_none; [rewrite decide_True by lia; lia|]. intros q Hq. rewrite (proj1 Ho q Hq). congruence.
Qed.

(** A send that is to notify goes on to do so, or has. *)
Lemma posting_turn k size c p s ls q p' m s' nd : env_recv_dedupe env = true → 1 ≤ env_recv_wake_target env →
  bready k size c p s ls q → bdir c = SendQ → posting_pc p = true → only nd (w s) ls → st (w s) nd = Some NOTIFY_NONE → nd ≠ bnode c →
  b_send_turn env size c p s = Some ((p', m), s') → posting_pc p' = true ∨ st (w s') nd ≠ Some NOTIFY_NONE.
Proof.
  intros Hdd Htg Hrd Hd Hp Ho Hn Hne Hrun. pose proof (br_inv _ _ _ _ _ _ _ Hrd) as Hi. pose proof (proj2 Ho Hn) as Hin.
  destruct p; try done; unfold posting_pc in Hp; try (apply bool_decide_eq_true in Hp).
  - (* SPostF *) left. revert Hrun. unfold b_send_turn, mbind, M_bind, gets, go_to, mret, M_ret. intros [= <- _ _]. simpl.
    apply bool_decide_eq_true_2. rewrite (inv_count _ _ Hi). pose proof (cnt_ge _ _ _ _ Hin Hn). lia.
  - (* SPostT *) left. revert Hrun. unfold b_send_turn, mbind, M_bind, gets, go_to, mret, M_ret. rewrite decide_False by tauto.
    case_match; intros [= <- _ _]; by apply bool_decide_eq_true_2.
  - (* SPostI *) left. revert Hrun. unfold b_send_turn, mbind, M_bind, gets, go_to, mret, M_ret. rewrite decide_False.
    + intros [= <- _ _]. by apply bool_decide_eq_true_2.
    + rewrite (inv_inflight _ _ Hi), cnt_none; [lia|]. intros a Ha. rewrite (proj1 Ho a Ha). congruence.
  - (* SPostL *) right. refine (wp_unfold _ _ _ _ _ Hrun _ : notified_now nd (p', m) s'). simpl. apply wp_bind.
    eapply wp_mono; [eapply post_signal_only; [done|done|done|by apply (br_lock _ _ _ _ _ _ _ Hrd)|exact Hi|exact Ho]|]. intros a s1 Hs1. by apply wp_ret.
  - (* SNotify *) right. refine (wp_unfold _ _ _ _ _ Hrun _ : notified_now nd (p', m) s'). simpl. apply wp_bind.
    eapply wp_mono; [eapply post_enqueue_only; [done|by apply (br_lock _ _ _ _ _ _ _ Hrd)|exact Hi|exact Ho]|]. intros a s1 Hs1. by apply wp_ret.
  - (* SUnreg *) right. refine (wp_unfold _ _ _ _ _ Hrun _ : notified_now nd (p', m) s'). simpl.
    destruct (linked_own _ _ _ _ _ _ _ Hrd eq_refl) as (n & Hown & Hoth). apply wp_bind. eapply enter_section; [done|done|]. intros s1 Hw1 Hins _ _.
    rewrite <- Hw1 in Hown. assert (Hrem : cc__chan_remove_send_waiter (bnode c) = remove_waiter (bdir c) (bnode c)) by by rewrite Hd.
    rewrite Hrem. apply wp_bind. eapply remove_inside; [exact Hins|done|done|]. intros s2 l2 n2 Hin2 _ _ Hout2 _. destruct Hin2 as [_ Hmu2 Hmv2 _].
    apply wp_bind. eapply wp_mono; [eapply post_enqueue_only; [done|done|apply Hmv2|split]|].
    + intros a Ha. apply Ho. destruct (decide (a = bnode c)) as [->|]; [by destruct (Hout2 RecvQ)|by apply (bm_ls _ _ _ _ _ _ Hmv2)].
    + intros Hn2. by destruct (bm_keep _ _ _ _ _ _ Hmv2 nd Hne Hin Hn2).
    + intros a s3 Hs3. by apply wp_ret.
Qed.

(** * The invariant is kept *)

Lemma watched_linked p : ¬ unwatched p → linked_pc p = true ∧ runs p = true ∨ p = RPark.
Proof. destruct p; simpl; try tauto. Qed.
Lemma quiet_unwatched s p : unwatched p → quiet_for s p.
Proof. destruct p; try done. by destruct again. Qed.
Lemma unwatched_dec p : Decision (unwatched p).
Proof. destruct p; simpl; try apply _. destruct again; apply _. Qed.
#[local] Existing Instance unwatched_dec.
Lemma quiet_rq s s' p : rq s' = rq s → quiet_for s p → quiet_for s' p.
Proof. intros Hr. unfold quiet_for. by destruct p; rewrite ?Hr. Qed.
Lemma posting_other os i o p : os !! i = Some o → posting_pc (pc o) = false → posting os → posting (<[i := o <| pc := p |>]> os).
Proof.
  intros Hi Hp (j & oj & Hj & Hpj). exists j, oj. rewrite list_lookup_insert_ne; [done|]. intros ->. simplify_eq. congruence.
Qed.
Lemma posting_self os i o p : os !! i = Some o → posting_pc p = true → posting (<[i := o <| pc := p |>]> os).
Proof. intros Hi Hp. exists i, (o <| pc := p |>). by rewrite list_lookup_insert_eq by (by eapply lookup_lt_Some). Qed.
Lemma count_empty k s q : rbuf_inv k s q → 2 ^ k < 2 ^ 31 → count_from (ring_tail (rq s)) s ≤ 0 → ring_tail (rq s) = ring_head (rq s).
Proof.
  intros [_ _ _ _ _ Hq] Hk. unfold count_from.
  assert (Hlen : ∀ d, 0 ≤ d → d ≤ 2 ^ k → (d + 2 ^ 31) mod 2 ^ 32 - 2 ^ 31 = d) by (intros d ? ?; rewrite Z.mod_small by lia; lia).
  case_decide.
  - destruct Hq as [_ Hh Hcap Ht Hl _ _]. assert (wrap64 (ring_tail (rq s) - ring_head (rq s)) = Z.of_nat (length q)) as ->.
    { rewrite Ht. unfold wrap64. rewrite Zminus_mod_idemp_l. replace (ring_head (rq s) + Z.of_nat (length q) - ring_head (rq s)) with (Z.of_nat (length q)) by lia.
      rewrite Z.mod_small by lia. done. }
    rewrite Hlen by lia. intros Hz. assert (Z.of_nat (length q) = 0) as E by lia. rewrite Ht, E. unfold wrap64. rewrite Z.mod_small by lia. lia.
  - destruct Hq as [[_ Hh Ht Hl _ _ _] _]. assert (wrap64 (ring_tail (rq s) - ring_head (rq s)) = Z.of_nat (length q)) as ->.
    { rewrite Ht. unfold wrap64. rewrite Z.mod_small by lia. lia. }
    rewrite Hlen by lia. lia.
Qed.
Lemma wake_roused S ls os' : b_roused (bops S) os' → wake_inv S ls → wake_inv (S <| bops := os' |>) ls.
Proof.
  intros Hr [Hli Hwa]. pose proof Hr as [_ Hback].
  assert (Hres : ∀ p p', resumed p p' → (posting_pc p = true → p' = p) ∧ (∀ s, quiet_for s p → quiet_for s p') ∧ (∀ nd, p = BHand nd → p' = p)).
  { by intros p p' [->|[[-> ->]|[[-> ->]|[[-> ->]|[-> ->]]]]]. }
  assert (Hfwd : ∀ (P : bpc → Prop), (∀ p p', resumed p p' → P p → p' = p) → ∀ j oj, bops S !! j = Some oj → P (pc oj) →
    ∃ oj', os' !! j = Some oj' ∧ pc oj' = pc oj).
  { intros P HP j oj Hj Hp. destruct (b_roused_fwd _ _ _ _ Hr Hj) as (oj' & ? & _ & Hrj). exists oj'. split; [done|by eapply HP]. }
  split; simpl.
  - intros r o' Hro Hd Hl Hn. destruct (Hback r o' Hro) as (o & Hro' & Hw & Hrs). rewrite Hw in *. destruct (resumed_class _ _ Hrs) as (El & _).
    destruct (Hli r o Hro' Hd) as [?|(j & oj & Hj & Hpj)]; [congruence|done|by left|right].
    destruct (Hfwd (λ p, p = BHand (bnode (bwho o))) (λ p p' Hp, proj2 (proj2 (Hres p p' Hp)) _) j oj Hj Hpj) as (oj' & ? & E). exists j, oj'. by rewrite E.
  - intros r o' Hro Hd Hn. destruct (Hback r o' Hro) as (o & Hro' & Hw & Hrs). rewrite Hw in *.
    destruct (Hwa r o Hro' Hd Hn) as [Hq|(j & oj & Hj & Hpj)]; [left; by eapply Hres|right].
    destruct (Hfwd (λ p, posting_pc p = true) (λ p p' Hp, proj1 (Hres p p' Hp)) j oj Hj Hpj) as (oj' & ? & E). exists j, oj'. by rewrite E.
Qed.

Lemma dekker_turn k size S ls i o nc gd p' m s' : b_inv k size S ls → bops S !! i = Some o → bdir (bwho o) = RecvQ → pc o = RDekkerWake →
  b_recv_turn env size (bwho o) nc gd RDekkerWake (bch S) = Some ((p', m), s') → mu_held (bch S) = false →
  st (w s') (bnode (bwho o)) = st (w (bch S)) (bnode (bwho o)) ∧ rq s' = rq (bch S).
Proof.
  intros Hinv Hi Hd Hpc Hrun Hm. pose proof (bo_node _ _ _ _ _ _ (bi_op _ _ _ _ Hinv i o Hi)) as Hn. rewrite Hpc in Hn.
  destruct Hn as [_ Hout]; [unfold b_active; by rewrite Hpc|]. rewrite Hd in Hout. simpl in Hout.
  refine (wp_unfold _ _ _ _ _ Hrun _ : (λ (_ : bpc * moves) s2, st (w s2) (bnode (bwho o)) = st (w (bch S)) (bnode (bwho o)) ∧ rq s2 = rq (bch S)) (p', m) s').
  simpl. apply wp_bind. eapply wp_mono; [exact (wk_dekker_send (bch S) ls Hm (bi_wq _ _ _ _ Hinv))|].
  cbv beta. intros [] s1 (Hsq & _ & ls1 & Hb). apply wp_ret. split; [|by apply same_queue_tail]. by apply (bev_own _ _ _ _ _ _ _ Hb).
Qed.

Section turn.
Context (k : Z) (size : nat) (S : b_state) (ls : side → list ptr) (Hdd : env_recv_dedupe env = true) (Htg : 1 ≤ env_recv_wake_target env).
Context (Hk : 2 ^ k < 2 ^ 31) (Hinv : b_inv k size S ls) (Hrg : in_range k S) (Hwi : wake_inv S ls) (Hone : one_receiver S).

(** The receiver is alone on the list, unless it has been popped for a handoff. *)
Lemma receiver_only r o : bops S !! r = Some o → bdir (bwho o) = RecvQ → b_active o → ∀ a, a ∈ ls RecvQ → a = bnode (bwho o).
Proof using Hinv Hone.
  intros Hr Hd Ha a Hin. destruct (bi_linked _ _ _ _ Hinv RecvQ a Hin) as (j & oj & Hj & <- & Hdj & Hl).
  assert (j = r) as -> by (eapply Hone; [done|done|by apply active_linked|done|done|done]). by simplify_eq.
Qed.
Context (i : nat) (o : b_op) (nc gd : bool) (p' : bpc) (m : moves) (s' : ccchan).
Context (Hi : bops S !! i = Some o) (Hrun : b_turn env size (bwho o) nc gd (pc o) (bch S) = Some ((p', m), s')).
Context (q : list (list Z)) (ls' : side → list ptr) (out : option ptr).
Context (Ht : turned k (bwho o) (pc o) (bch S) ls q p' m s' ls' out).
Local Abbreviation os' := (<[i := o <| pc := p' |>]> (bops S)).
Local Abbreviation x' := (w (b_drop (bwho o) p' s')).

Lemma tw_runs : runs (pc o) = true ∧ b_active o.
Proof using Hrun. pose proof (turn_runs _ _ _ _ _ _ _ _ Hrun) as Hr. split; [done|by apply runs_active]. Qed.
Lemma tw_hand j oj nd : bops S !! j = Some oj → pc oj = BHand nd → os' !! j = Some oj.
Proof using Hi Hrun.
  intros Hj Hp. rewrite list_lookup_insert_ne; [done|]. intros <-. simplify_eq. destruct tw_runs as [Hr _]. by rewrite Hp in Hr.
Qed.
Lemma tw_other r oj : r ≠ i → bops S !! r = Some oj → b_active oj → bnode (bwho oj) ≠ bnode (bwho o) ∧
  (st x' (bnode (bwho oj)) = Some NOTIFY_NONE → st (w (bch S)) (bnode (bwho oj)) = Some NOTIFY_NONE).
Proof using Hinv Hi Hrun Ht.
  intros Hne Hr Ha. assert (Hn : bnode (bwho oj) ≠ bnode (bwho o)).
  { intros Heq. apply Hne. eapply (bc_frame _ (bi_calls _ _ _ _ Hinv)); [done|done|done|apply tw_runs|done]. }
  split; [done|]. pose proof (bmoved_drop _ _ _ _ _ _ _ (tn_moved _ _ _ _ _ _ _ _ _ _ _ Ht) (tn_node _ _ _ _ _ _ _ _ _ _ _ Ht)) as Hmv.
  destruct (bm_st _ _ _ _ _ _ Hmv _ Hn) as [->|(_ & kk & [_ ?] & ->)]; [done|congruence].
Qed.
Lemma tw_listed r oj : os' !! r = Some oj → bdir (bwho oj) = RecvQ → linked_pc (pc oj) = true → st x' (bnode (bwho oj)) = Some NOTIFY_NONE →
  bnode (bwho oj) ∈ ls' RecvQ ∨ ∃ j o2, os' !! j = Some o2 ∧ pc o2 = BHand (bnode (bwho oj)).
Proof using Hinv Hi Hrun Ht Hwi.
  intros Hr Hd Hl Hn. destruct (insert_back_b _ _ _ _ _ _ Hi Hr) as [[-> ->]|[Hne Hr']]; simpl in *.
  - assert (Edr : b_drop (bwho o) p' s' = s') by by destruct p'. rewrite Edr in Hn.
    destruct (tn_listed _ _ _ _ _ _ _ _ _ _ _ Ht Hd Hl Hn) as [?|(Hl0 & Hout & Hn0)]; [by left|right].
    destruct (wi_listed _ _ Hwi i o Hi Hd Hl0 Hn0) as [?|(j & oj & Hj & Hp)]; [done|]. exists j, oj. split; [by eapply tw_hand|done].
  - destruct (tw_other r oj Hne Hr' (active_linked _ Hl)) as [Hnn Hback].
    destruct (wi_listed _ _ Hwi r oj Hr' Hd Hl (Hback Hn)) as [Hin|(j & o2 & Hj & Hp)]; [|right; exists j, o2; split; [by eapply tw_hand|done]].
    pose proof (bmoved_drop _ _ _ _ _ _ _ (tn_moved _ _ _ _ _ _ _ _ _ _ _ Ht) (tn_node _ _ _ _ _ _ _ _ _ _ _ Ht)) as Hmv.
    destruct (bm_keep _ _ _ _ _ _ Hmv _ Hnn Hin Hn) as [?|Hout]; [by left|right].
    exists i, (o <| pc := p' |>). rewrite list_lookup_insert_eq by (by eapply lookup_lt_Some). split; [done|]. simpl.
    pose proof (tn_status _ _ _ _ _ _ _ _ _ _ _ Ht) as Hst. pose proof (tn_out _ _ _ _ _ _ _ _ _ _ _ Ht) as Ho.
    destruct p'; try (rewrite Ho in Hout; done). destruct Hst as (_ & _ & _ & _ & E & _). congruence.
Qed.
(** The receiver's own turn. *)
Lemma tw_self : bdir (bwho o) = RecvQ → st x' (bnode (bwho o)) = Some NOTIFY_NONE → quiet_for (b_drop (bwho o) p' s') p' ∨ posting os'.
Proof using All.
  intros Hd Hn. destruct (decide (unwatched p')) as [Hu|Hu]; [left; by apply quiet_unwatched|].
  assert (Edr : b_drop (bwho o) p' s' = s') by by destruct p'. rewrite Edr in *.
  pose proof Hrun as Hrun0. destruct (bi_queue _ _ _ _ Hinv) as (q0 & Hq0 & _). unfold b_turn in Hrun. rewrite Hd in Hrun.
  pose proof (recv_approaches _ _ _ _ _ _ _ _ _ (rb_ring _ _ _ Hq0) Hrun) as Ha.
  assert (Hold : pc o = RDekker ∨ pc o = RDekkerWake ∨ (∃ t, pc o = RCountH true t) → s' = bch S ∨ pc o = RDekkerWake →
    (quiet_for (bch S) (pc o) ∨ posting os') ∧ rq s' = rq (bch S)).
  { intros Hpc Hs'. assert (Hs : st (w (bch S)) (bnode (bwho o)) = Some NOTIFY_NONE ∧ rq s' = rq (bch S)).
    { destruct Hs' as [->|Hpw]; [done|]. pose proof (turn_free _ _ _ _ _ _ _ _ Hrun0) as Hfree. rewrite Hpw in Hrun, Hfree.
      destruct (dekker_turn _ _ _ _ _ _ _ _ _ _ _ Hinv Hi Hd Hpw Hrun (Hfree eq_refl)) as [E ?]. by rewrite <- E. }
    destruct Hs as [Hs ?]. split; [|done]. destruct (wi_wake _ _ Hwi i o Hi Hd Hs) as [?|Hpo]; [by left|right].
    eapply posting_other; [done| |done]. by destruct Hpc as [->|[->|[t ->]]]. }
  destruct p'; try done; simpl in Ha.
  - destruct again; [|done]. destruct Ha as [-> ->]. by left.
  - destruct Ha as (-> & t & Hpc & Hc). destruct Hold as [Hold _]; [eauto|auto|]. rewrite Hpc in Hold. destruct Hold as [Heq|?]; [|by right].
    left. simpl in Heq |- *. subst t. by eapply count_empty.
  - destruct Ha as (-> & Hpc). destruct Hold as [Hold _]; [auto|auto|]. by rewrite Hpc in Hold.
  - destruct Hold as [Hold Erq]; [naive_solver|naive_solver|]. simpl. rewrite Erq. destruct Ha as [[_ Hpc]|Hpc]; by rewrite Hpc in Hold.
Qed.
(** Another call's turn: a sender's, since there is one receiver. *)
Lemma tw_wake r oj : r ≠ i → bops S !! r = Some oj → bdir (bwho oj) = RecvQ → st x' (bnode (bwho oj)) = Some NOTIFY_NONE →
  quiet_for (b_drop (bwho o) p' s') (pc oj) ∨ posting os'.
Proof using All.
  intros Hne Hr Hdj Hn. destruct (decide (unwatched (pc oj))) as [Hu|Hu]; [left; by apply quiet_unwatched|].
  assert (Hl : linked_pc (pc oj) = true) by (by destruct (watched_linked _ Hu) as [[? _]| ->]). pose proof (active_linked _ Hl) as Ha.
  destruct tw_runs as [Hrs Hact]. destruct (tw_other r oj Hne Hr Ha) as [Hnn Hback]. specialize (Hback Hn).
  assert (Hd : bdir (bwho o) = SendQ) by (destruct (bdir (bwho o)) eqn:E; [done|]; destruct Hne; by eapply Hone).
  assert (Hdrop : rq (b_drop (bwho o) p' s') = rq s' ∧ st x' (bnode (bwho oj)) = st (w s') (bnode (bwho oj))).
  { destruct p'; try done. split; [done|]. unfold st. simpl. by rewrite lookup_delete_ne. }
  pose proof Hrun as Hr2. unfold b_turn in Hr2. rewrite Hd in Hr2. pose proof (send_ends _ _ _ _ _ _ Hr2) as [_ Hput]. simpl in Hput.
  destruct (wi_wake _ _ Hwi r oj Hr Hdj Hback) as [Hq|(j & o2 & Hj & Hp)].
  - pose proof (tn_tail _ _ _ _ _ _ _ _ _ _ _ Ht) as Htl. pose proof (tn_queue _ _ _ _ _ _ _ _ _ _ _ Ht) as Hmq. destruct m as [|v|v].
    + left. eapply quiet_rq; [|done]. by rewrite (proj1 Hdrop).
    + right. destruct Hput as [?|[u ?]]; [done|by apply posting_self|done].
    + destruct Hmq as [? _]. congruence.
  - right. destruct (decide (j = i)) as [->|Hji]; [|exists j, o2; by rewrite list_lookup_insert_ne]. simplify_eq.
    destruct (wi_listed _ _ Hwi r oj Hr Hdj Hl Hback) as [Hin|(jj & oh & Hjj & Hph)].
    2: { exists jj, oh. split; [by eapply tw_hand|by rewrite Hph]. }
    destruct (bi_queue _ _ _ _ Hinv) as (q0 & Hq0 & _). pose proof (turn_free _ _ _ _ _ _ _ _ Hrun) as Hfree.
    pose proof (bready_inv _ _ _ _ _ _ _ Hinv Hrg Hq0 Hi Hrs Hfree) as Hrd.
    assert (Ho : only (bnode (bwho oj)) (w (bch S)) ls) by (split; [by eapply receiver_only|done]).
    destruct (posting_turn _ _ _ _ _ _ _ _ _ _ _ Hdd Htg Hrd Hd Hp Ho Hback Hnn Hr2) as [Hp'|Hno]; [by apply posting_self|].
    destruct Hno. by rewrite <- (proj2 Hdrop).
Qed.
Lemma turn_wake : wake_inv (b_after i o p' m s' os' S) ls'.
Proof using All.
  split; simpl; [exact tw_listed|]. intros r oj Hr Hd Hn.
  destruct (insert_back_b _ _ _ _ _ _ Hi Hr) as [[-> ->]|[Hne Hr']]; [by apply tw_self|by eapply tw_wake].
Qed.
End turn.

(** The two halves of a handoff, a new call, closing. *)
Lemma publish_wake k size S ls i o nd x' j oj v : b_inv k size S ls → wake_inv S ls → one_receiver S → published size S ls i o nd x' j oj v →
  wake_inv (handed_over S i o nd x' j v) ls.
Proof.
  intros Hinv [Hli Hwa] Hone Hp. destruct (pu_moved env k size _ _ _ _ _ _ _ _ _ Hinv Hp) as (_ & _ & Hst & _).
  pose proof (pu_op _ _ _ _ _ _ _ _ _ _ Hp) as Hi. pose proof (pu_pc _ _ _ _ _ _ _ _ _ _ Hp) as Hpc.
  assert (Hrecv : ∀ r o2, <[i := o <| pc := BTail nd |>]> (bops S) !! r = Some o2 → bdir (bwho o2) = RecvQ → st x' (bnode (bwho o2)) = Some NOTIFY_NONE →
    linked_pc (pc o2) = true → bops S !! r = Some o2 ∧ False).
  { intros r o2 Hr Hd Hn Hl. destruct (insert_back_b _ _ _ _ _ _ Hi Hr) as [[-> ->]|[_ Hr']]; [done|]. split; [done|].
    assert (r = j) as -> by (eapply Hone; [done|apply Hp|by apply active_linked|apply active_linked, Hp|done|apply Hp]).
    assert (o2 = oj) as -> by (pose proof (pu_partner _ _ _ _ _ _ _ _ _ _ Hp); congruence). rewrite (pu_node _ _ _ _ _ _ _ _ _ _ Hp) in Hn. congruence. }
  split; simpl.
  - intros r o2 Hr Hd Hl Hn. by destruct (Hrecv r o2 Hr Hd Hn Hl).
  - intros r o2 Hr Hd Hn. destruct (decide (unwatched (pc o2))) as [Hu|Hu]; [left; by apply quiet_unwatched|].
    assert (Hl : linked_pc (pc o2) = true) by (by destruct (watched_linked _ Hu) as [[? _]| ->]). by destruct (Hrecv r o2 Hr Hd Hn Hl).
Qed.
Lemma finish_wake k size S ls i o nd s' : b_inv k size S ls → wake_inv S ls → bops S !! i = Some o → pc o = BTail nd →
  b_finish nd (bch S) = Some (tt, s') → wake_inv (b_after i o (BRet 0) Nothing s' (<[i := o <| pc := BRet 0 |>]> (bops S)) S) ls.
Proof.
  intros Hinv [Hli Hwa] Hi Hpc Hrun. assert (Hh : b_holding (pc o) = true) by by rewrite Hpc.
  pose proof (bi_lock _ _ _ _ Hinv i o Hi Hh) as Hmu. destruct (nodes (w (bch S)) !! nd) as [n|] eqn:Hnd; [|by rewrite (finish_faults_b _ _ Hnd) in Hrun].
  pose proof (wp_unfold _ _ _ _ _ Hrun (finish_spec_b nd n _ ls Hmu (bi_wq _ _ _ _ Hinv) Hnd)) as (Hsq & _ & Hsame).
  assert (Hst : ∀ a, st (w (b_drop (bwho o) (BRet 0) s')) a = Some NOTIFY_NONE → st (w (bch S)) a = Some NOTIFY_NONE).
  { intros a. unfold st. simpl. rewrite (bs_nodes _ _ _ Hsame). destruct (decide (a = bnode (bwho o))) as [->|]; [by rewrite lookup_delete_eq|by rewrite lookup_delete_ne]. }
  assert (Hpo : posting (bops S) → posting (<[i := o <| pc := BRet 0 |>]> (bops S))) by (apply posting_other; [done|by rewrite Hpc]).
  split; simpl; intros r o2 Hr Hd; destruct (insert_back_b _ _ _ _ _ _ Hi Hr) as [[-> ->]|[Hne Hr']]; try done.
  - intros Hl Hn. destruct (Hli r o2 Hr' Hd Hl (Hst _ Hn)) as [?|(j & oj & Hj & Hp)]; [by left|right].
    exists j, oj. rewrite list_lookup_insert_ne; [done|]. intros <-. simplify_eq. congruence.
  - by left.
  - intros Hn. destruct (Hwa r o2 Hr' Hd (Hst _ Hn)) as [?|?]; [left|right; auto]. eapply quiet_rq; [|done]. by apply (same_queue_tail (bch S) s').
Qed.
Lemma call_wake S ls c : wake_inv S ls → wake_inv (S <| bops := bops S ++ [BOp c (start_pc (bdir c))] |>) ls.
Proof.
  intros [Hli Hwa]. split; simpl; intros r o2 Hr Hd; destruct (snoc_back_b _ _ _ _ Hr) as [Hr'|[-> ->]].
  - intros Hl Hn. destruct (Hli r o2 Hr' Hd Hl Hn) as [?|(j & oj & Hj & Hp)]; [by left|right]. exists j, oj. split; [by apply lookup_app_l_Some|done].
  - simpl. by destruct (bdir c).
  - intros Hn. destruct (Hwa r o2 Hr' Hd Hn) as [?|(j & oj & Hj & Hp)]; [by left|right]. exists j, oj. split; [by apply lookup_app_l_Some|done].
  - intros _. left. simpl. by destruct (bdir c).
Qed.
Lemma close_wake k size S ls s' ls' : b_inv k size S ls → wake_inv S ls → (∀ c, bmoved None c (w (bch S)) ls (w s') ls') → rq s' = rq (bch S) →
  wake_inv (S <| bch := s' |>) ls'.
Proof.
  intros Hinv [Hli Hwa] Hmv Hrq.
  assert (Hst : ∀ a, st (w s') a = Some NOTIFY_NONE → st (w (bch S)) a = Some NOTIFY_NONE).
  { intros a Ha. destruct (bm_st _ _ _ _ _ _ (Hmv (nobody a)) a (nobody_ne a)) as [<-|(_ & kk & [_ ?] & ?)]; [done|congruence]. }
  split; simpl; intros r o2 Hr Hd.
  - intros Hl Hn. destruct (Hli r o2 Hr Hd Hl (Hst _ Hn)) as [Hin|?]; [|by right].
    destruct (bm_keep _ _ _ _ _ _ (Hmv (nobody (bnode (bwho o2)))) _ (nobody_ne _) Hin Hn) as [?|?]; [by left|done].
  - intros Hn. destruct (Hwa r o2 Hr Hd (Hst _ Hn)) as [?|?]; [left; by eapply quiet_rq|by right].
Qed.
Lemma b_step_wake k size a S S' ls : env_recv_dedupe env = true → 1 ≤ env_recv_wake_target env → 2 ^ k < 2 ^ 31 →
  b_inv k size S ls → in_range k S → wake_inv S ls → one_receiver S → b_step env size a S S' → codes_ok (bch S') →
  ∃ ls', b_inv k size S' ls' ∧ wake_inv S' ls'.
Proof.
  intros Hdd Htg Hk Hinv Hrg Hwi Hone Hst Hnz. destruct Hst as [S c Hcall|S i o nc gd p m s' evs os Hi Hrun _ Hdel|S i o nd x j oj v Hi Hpc Hrun Hj Ha Hn Hv
    |S i o nd s' evs os Hi Hpc Hrun _ Hdel|S i o n Hi Hpc Hn|S i o Hi Hpc|S op s' evs os Hrun _ Hdel].
  - exists ls. split; [by apply call_inv_b|by apply call_wake].
  - destruct (turn_inv env k size S ls i o nc gd p m s' Hdd Hinv Hrg Hi Hrun) as (ls' & q & out & Ht & Hinv'). exists ls'.
    split; [eapply after_roused; [done|by eapply b_deliver_roused]|].
    refine (wake_roused (b_after i o p m s' _ S) ls' os (b_deliver_roused _ _ _ Hdel) _). by eapply turn_wake.
  - exists ls. pose proof (publish_facts_b _ _ _ _ _ _ _ _ _ _ _ Hinv Hi Hpc Hrun Hj Ha Hn Hv) as Hp. split; [by eapply publish_inv_b|by eapply publish_wake].
  - exists ls. split; [eapply after_roused; [by eapply finish_inv_b|by eapply b_deliver_roused]|].
    refine (wake_roused (b_after i o (BRet 0) Nothing s' _ S) ls os (b_deliver_roused _ _ _ Hdel) _). by eapply finish_wake.
  - exists ls. assert (Hr : b_roused (bops S) (<[i := o <| pc := woken (pc o) |>]> (bops S)))
      by (apply b_roused_insert; [done|]; unfold resumed, woken; destruct Hpc as [->| ->]; auto).
    split; [by apply b_inv_roused|by apply wake_roused].
  - exists ls. assert (Hr : b_roused (bops S) (<[i := b_rouse o]> (bops S)))
      by (unfold b_rouse; apply b_roused_insert; [done|]; unfold resumed; destruct Hpc as [->| ->]; auto 10).
    split; [by apply b_inv_roused|by apply wake_roused].
  - destruct (close_inv_b _ _ _ _ _ _ Hinv Hrun Hnz) as (ls' & Hinv' & Hmv & Hrq & _). exists ls'.
    pose proof (b_deliver_roused _ _ _ Hdel) as Hr. split.
    + exact (b_inv_roused k size (BState s' (bops S) (puts S) (gots S) (hands S)) os ls' Hr Hinv').
    + refine (wake_roused (BState s' (bops S) (puts S) (gots S) (hands S)) ls' os Hr _). by eapply close_wake.
Qed.
End wake.

Section result.
Context `{!LfdsQueue}.
Implicit Types (S : b_state).

(** Runs in which at most one receive is in progress and the receiving side is
    not closed with error code 0. *)
Definition b_reach_one (env : chan_env) (size : nat) : relation b_state := rtc (coded bch (λ S S', one_receiver S ∧ ∃ a, b_step env size a S S')).
Lemma b_reach_one_reach env size S S' : b_reach_one env size S S' → b_reach env size S S'.
Proof. induction 1 as [|S1 S2 S3 [[_ Hs] Hnz] _ IH]; [apply rtc_refl|]. by eapply rtc_l. Qed.
Lemma b_reach_wake env capacity size S S' ls : b_setup env capacity size → 1 ≤ env_recv_wake_target env → 2 ^ ring_exp capacity < 2 ^ 31 →
  b_inv (ring_exp capacity) size S ls → wake_inv S ls → b_reach_one env size S S' →
  Z.of_nat (length (bops S')) < 2 ^ 60 → ∃ ls', b_inv (ring_exp capacity) size S' ls' ∧ wake_inv S' ls'.
Proof.
  intros Hse Htg Hk Hinv Hwi Hr. revert ls Hinv Hwi. induction Hr as [S|S1 S2 S3 [[Hone [a Hs]] Hnz] Hr IH]; intros ls Hinv Hwi Hlen; [eauto|].
  assert (Hrg : in_range (ring_exp capacity) S1).
  { apply b_range; [apply ring_exp_bound; destruct Hse; lia|]. pose proof (b_reach_length _ _ _ _ (b_reach_one_reach _ _ _ _ Hr)). apply b_step_length in Hs. lia. }
  destruct (b_step_wake env _ size a S1 S2 ls (se_dedupe _ _ _ Hse) Htg Hk Hinv Hrg Hwi Hone Hs Hnz) as (l2 & H2 & W2). by eapply IH.
Qed.
Lemma small_ring capacity : 2 ≤ capacity ≤ 2 ^ 30 → 2 ^ ring_exp capacity < 2 ^ 31.
Proof.
  intros Hc. assert (Z.log2 (capacity - 1) < 30) by (apply Z.log2_lt_pow2; lia). unfold ring_exp. apply Z.pow_lt_mono_r; lia.
Qed.
Lemma posting_sends k size S ls j oj : b_inv k size S ls → bops S !! j = Some oj → posting_pc (pc oj) = true → bdir (bwho oj) = SendQ.
Proof.
  intros Hinv Hj Hp. destruct (bi_op _ _ _ _ Hinv j oj Hj) as [_ Hs _ Hst]. unfold b_status in Hst. unfold sided in Hs.
  destruct (pc oj); try done; try (by symmetry; apply Hs). by destruct Hst.
Qed.

(** C7: A single receiving fiber misses no wake-up.  Take a new channel with the
    lock-free queue and any run in which at most one receive is in progress at a
    time, with any number of concurrent senders.  Whenever the receiver is parked
    and has not been notified although the buffer holds a value, some send has
    put its value and is still on its way to notify the receiver, or is about to
    hand it a value.  So when no send is under way a parked receiver means an
    empty buffer. *)
Theorem single_receiver_misses_no_wakeup env sc se capacity m take sync tp size bs tks S0 S r o n :
  b_setup env capacity size → capacity ≤ 2 ^ 30 → 1 ≤ env_recv_wake_target env →
  b_new env sc se capacity m take sync tp size bs tks = Some S0 → b_reach_one env size S0 S → Z.of_nat (length (bops S)) < 2 ^ 60 →
  bops S !! r = Some o → bdir (bwho o) = RecvQ → pc o = RPark → nodes (w (bch S)) !! bnode (bwho o) = Some n → notified n = NOTIFY_NONE →
  cc__chan_lf_count (bch S) ≠ 0 →
  ∃ j oj, bops S !! j = Some oj ∧ bdir (bwho oj) = SendQ ∧ posting_pc (pc oj) = true.
Proof.
  intros Hse Hcap Htg Hn Hr Hlen Ho Hd Hpc Hnode Hno Hcnt. destruct (b_new_inv _ _ _ _ _ _ _ _ _ _ _ _ Hse Hn) as [Hi0 Hops].
  assert (Hw0 : wake_inv S0 (λ _, [])) by (split; by rewrite Hops).
  destruct (b_reach_wake _ _ _ _ _ _ Hse Htg (small_ring capacity ltac:(destruct Hse; lia)) Hi0 Hw0 Hr Hlen) as (ls & Hinv & Hwi).
  assert (Hst : st (w (bch S)) (bnode (bwho o)) = Some NOTIFY_NONE) by (unfold st; rewrite Hnode; simpl; by rewrite Hno).
  destruct (wi_wake _ _ Hwi r o Ho Hd Hst) as [Hq|(j & oj & Hj & Hp)]; [|exists j, oj; split_and!; [done|by eapply posting_sends|done]].
  rewrite Hpc in Hq. simpl in Hq. destruct Hcnt. unfold cc__chan_lf_count. destruct (bi_queue _ _ _ _ Hinv) as (q & Hrb & _).
  rewrite (rb_ring _ _ _ Hrb). unfold ring_count. by rewrite Hq, Z.sub_diag.
Qed.
End result.

(** * Witness *)

Section run.
Context `{!LfdsQueue}.
Definition receiving (S : b_state) (i : nat) : bool :=
  match bops S !! i with Some o => match bdir (bwho o), pc o with RecvQ, BRet _ => false | RecvQ, _ => true | _, _ => false end | None => false end.
Definition one_receiver_dec (S : b_state) : bool :=
  let ids := List.seq 0 (length (bops S)) in forallb (λ i, forallb (λ j, Nat.eqb i j || negb (receiving S i && receiving S j)) ids) ids.
Lemma one_receiver_sound S : one_receiver_dec S = true → one_receiver S.
Proof.
  intros Hd i j o o' Hi Hj Ha Ha' Hr Hr'. unfold one_receiver_dec in Hd. rewrite forallb_forall in Hd.
  assert (Hin : ∀ a oa, bops S !! a = Some oa → In a (List.seq 0 (length (bops S)))) by (intros a oa Ho; apply in_seq; apply lookup_lt_Some in Ho; lia).
  specialize (Hd i (Hin i o Hi)). rewrite forallb_forall in Hd. specialize (Hd j (Hin j o' Hj)).
  assert (Hrecv : ∀ a oa, bops S !! a = Some oa → b_active oa → bdir (bwho oa) = RecvQ → receiving S a = true).
  { intros a oa Ho Hact Hdir. unfold receiving, b_active in *. rewrite Ho, Hdir. by destruct (pc oa). }
  rewrite (Hrecv i o), (Hrecv j o') in Hd by done. simpl in Hd. rewrite orb_false_r in Hd. by apply Nat.eqb_eq in Hd.
Qed.
Fixpoint b_run_one (env : chan_env) (size : nat) (xs : list b_choice) (S : b_state) : option b_state :=
  match xs with
  | [] => Some S
  | x :: xs' =>
      if one_receiver_dec S then S' ← b_exec env size x S; if decide (codes_ok (bch S')) then b_run_one env size xs' S' else None else None
  end.
Lemma b_run_one_reach env size xs S S' : b_run_one env size xs S = Some S' → b_reach_one env size S S'.
Proof.
  revert S. induction xs as [|x xs IH]; intros S; simpl; [intros [= <-]; apply rtc_refl|].
  destruct (one_receiver_dec S) eqn:Ho; [|done]. destruct (b_exec env size x S) as [S1|] eqn:E; simpl; [|done]. case_decide; [|done]. intros Hr.
  eapply rtc_l; [split; [split; [by apply one_receiver_sound|by eapply b_exec_sound]|done]|by apply IH].
Qed.
End run.
(** A fiber is parked and a send has just put its value. *)
Definition sched_parked_put : list b_choice := [XCall (f_recv 5 0)] ++ turns 0 16 ++ [XCall (t_send 0)] ++ turns 1 2.
Lemma parked_put_state : ∃ S0 S, b_demo = Some S0 ∧ b_reach_one default_env 2 S0 S ∧
  bops S = [BOp (f_recv 5 0) RPark; BOp (t_send 0) SPostF] ∧ notified <$> nodes (w (bch S)) !! bnode (f_recv 5 0) = Some NOTIFY_NONE ∧
  cc__chan_lf_count (bch S) = 1.
Proof.
  assert (Hobs : (S0 ← b_demo; (λ S, (bops S, notified <$> nodes (w (bch S)) !! bnode (f_recv 5 0), cc__chan_lf_count (bch S))) <$>
      b_run_one default_env 2 sched_parked_put S0) =
    Some ([BOp (f_recv 5 0) RPark; BOp (t_send 0) SPostF], Some NOTIFY_NONE, 1)) by (vm_compute; reflexivity).
  destruct b_demo as [S0|] eqn:Hd0; [|discriminate Hobs]. cbn [mbind option_bind] in Hobs.
  destruct (b_run_one default_env 2 sched_parked_put S0) as [S|] eqn:Hrun; [|discriminate Hobs].
  apply b_run_one_reach in Hrun. injection Hobs as Ho Hn Hc. exists S0, S. clear Hd0. split; [reflexivity|]. by split_and!.
Qed.
Lemma single_receiver_misses_no_wakeup_witness : ∃ S0 S, b_demo = Some S0 ∧ b_reach_one default_env 2 S0 S ∧ cc__chan_lf_count (bch S) = 1 ∧
  ∃ j oj, bops S !! j = Some oj ∧ bdir (bwho oj) = SendQ ∧ posting_pc (pc oj) = true.
Proof.
  destruct parked_put_state as (S0 & S & Hd0 & Hreach & Ho & Hn & Hc).
  assert (Hlen : Z.of_nat (length (bops S)) < 2 ^ 60) by (rewrite Ho; simpl; lia).
  assert (Hi : bops S !! 0%nat = Some (BOp (f_recv 5 0) RPark)) by (rewrite Ho; reflexivity).
  destruct (nodes (w (bch S)) !! bnode (f_recv 5 0)) as [n|] eqn:Hnode; [|discriminate Hn]. injection Hn as Hn.
  assert (Hc0 : cc__chan_lf_count (bch S) ≠ 0) by (rewrite Hc; lia).
  assert (Hcap : 2 ≤ 2 ^ 30) by lia. assert (Htg : 1 ≤ env_recv_wake_target default_env) by (simpl; lia).
  pose proof (single_receiver_misses_no_wakeup default_env 1024 64 2 MODE_BLOCK false false TOPO_DEFAULT 2 b_buffers ∅ S0 S 0%nat _ n
    default_setup Hcap Htg Hd0 Hreach Hlen Hi eq_refl eq_refl Hnode Hn Hc0) as Hres.
  exists S0, S. split; [exact Hd0|clear Hd0]. split; [exact Hreach|]. split; [exact Hc|exact Hres].
Defined.
